(* ===== verification/_CoqProject ===== *)
-Q . S2P
Prelude.v
GoText.v
Names.v
Invocation.v
Operation.v
Paging.v
OperationStore.v
OperationWorker.v
OperationHost.v
OperationAwait.v
OperationAwaitProperties.v
TopoSort.v
InvocationGraph.v
InvocationGraphOrder.v
InvocationGraphProperties.v
Delivery.v
DeliveryStore.v
DeliveryWorker.v
Message.v
ContextInjection.v
Trajectory.v
Sha256.v
Agent.v
Lineage.v
Workflow.v
WorkflowProperties.v
WorkflowRun.v
Parallel.v
Registrar.v
Composition.v
CompositionProperties.v
CompositionInvariant.v
Mounts.v
EventDispatch.v
EventDispatchProperties.v
TrajectoryBranch.v
TrajectoryStore.v
TrajectoryInvariant.v
TrajectoryHistory.v
TrajectoryProperties.v
Payload.v
Durability.v
DurabilityProperties.v
SessionState.v
PromptHost.v
SessionTrajectory.v
ToolCalls.v
PromptExecution.v
ExecutionCompletion.v
PromptLaws.v
PromptInvariant.v
Recovery.v
LoopBounds.v
ToolCallProperties.v
BitCodec.v
PromptExamples.v
ResumeEnvironment.v
ResumeExactness.v
ResumeTheorems.v
Sessions.v
SessionsProperties.v
Base64.v
Registry.v
RegistryInvariant.v
RegistryProperties.v
GatewayEvent.v
GatewayEventProperties.v
GatewayInput.v
GatewayInputProperties.v
GatewayInteraction.v
GatewayInteractionProperties.v
GatewayPermission.v
GatewaySession.v
GatewaySessionProperties.v
GatewayConversation.v
GatewaySupervisor.v
GatewaySupervisorProperties.v
GatewayService.v
GatewayBackend.v
GatewayBackendProperties.v
