(* ===== verification/Prelude.v ===== *)
(** * A verification development of the agent runtime [ag]

    The repository is an agent runtime in Go.  A runtime mounts plugins that contribute providers,
    tools, agents, hooks, subscribers, capabilities and events; sessions run turns against an
    immutable snapshot of what is mounted; everything that must survive a crash (operations, event
    deliveries, context injections, trajectories) goes through durable stores; a directory tells
    runtimes which plugin instances are alive; a gateway serves sessions to users over queues of
    inputs, questions and events.  This development models those parts as executable functions and
    step relations, definition by definition from the source, and proves what makes them correct.

    ** The parts and their files

    Shared language.
    - [Prelude]: machine integers with their wrap-around, instants, errors as values ([result] with
      its [let?], [try?] and [fail_if]), sorting with three-valued comparisons, the order of Go's
      map iteration ([MapOrder]), the tactics [gobool] and [inv_ok] and the hint database [gocmp].
    - [GoText] ([strings.TrimSpace], hexadecimal, decimal, the JSON validity scanner, and in its module
      [Utf8] the runes of [unicode/utf8]), [Base64] (the cursors of pages), [Sha256] (FIPS 180-4, for
      operation keys and payload hashes).
    - [Names] (sdk/plugin.go, sdk/id.go), [Invocation] (sdk/invocation.go), [Message] (the
      specification records of sdk/resource.go, sdk/hook.go, sdk/agent.go).

    Durable stores.  Every store method takes a lock, so it is one function from a state to a result;
    a step relation collects the methods, and reachable states are those of any sequence of calls.
    - [Operation], [OperationStore]: operationmodel/model.go and operation_memory.go.  Leases fence
      stale workers, terminal operations do not change, polls progress, recovery is exact.
    - [OperationWorker], [OperationHost]: internal/operationworker.  Workers with their heartbeats
      share one operation store with any other callers, none of which purges it; exactly one of them settles
      an operation, a worker without its lease never does, and every run returns.  The retry loop of a cancellation
      ends with a terminal operation, the recovery schedule names the instants at which claims
      succeed, and the host gives every reservation back once.
    - [OperationAwait], [OperationAwaitProperties]: operation_await.go and runtime_wait.go.  Waiting for
      an operation of a store that moves on returns what the store says, unless the context of the caller ends
      first, makes at most two rounds per sleep, and cancels at most once and only when it gives up.
    - [Paging]: pageWindow of storage.go.
    - [Delivery], [DeliveryStore], [DeliveryWorker]: deliverymodel/model.go, delivery_memory.go and
      internal/deliveryworker.  The store refines one FIFO queue per partition ([dstore_refines_queues]);
      the worker meets the store through the class [DeliveryQueue]; poison deliveries end in the dead
      letter state, and the retry delay stays within its bounds.
    - [ContextInjection]: contextinjectionmodel/model.go and context_injection_memory.go, refining a queue.
    - [Trajectory], [TrajectoryBranch], [TrajectoryStore], [TrajectoryInvariant], [TrajectoryHistory],
      [TrajectoryProperties]: sdk/trajectory.go, trajectorymodel/model.go and trajectory_memory.go.
      History is immutable, every branch can be read, commits are atomic and fenced, the cached
      checkpoint is the one a walk would find.
    - [Registry], [RegistryInvariant], [RegistryProperties]: registry/directory.go, state.go, memory.go.
      A watcher that polls from a listing at a positive revision misses no change.

    Composition.
    - [Registrar] (internal/plugincontract/registrar.go): what a plugin stages is well typed, and is what the
      accepted registrations named, hooks in their order.
    - [Composition], [CompositionProperties], [CompositionInvariant] (composition_snapshot.go,
      composition_catalog.go): [add] and [without] on snapshots, the exact condition of a mount, the
      invariant of every published composition, and the round trip of a mount and its unmount.
    - [Mounts] (composition_mount.go, startClose of runtime.go): references, leases, retirement and
      shutdown as steps of concurrent goroutines; no connection closes under a lease, and each
      closes once.  The connection of a mount that failed, which [Mount] closes itself, is outside.

    Execution.
    - [EventDispatch], [EventDispatchProperties] (execution_events.go, event_postcommit.go,
      planSubscriberDeliveries of delivery_worker.go, the effects of sdk/hook.go): the hook loop with
      its audit trail, patches of mutable fields, blocks, and the deliveries around a commit.
    - [Agent], [Lineage] (agent requests, invocation scopes and session lineage of
      orchestration_agent.go, invocation_scope.go and session_lineage.go): invocation identities are
      deterministic and distinct, and a session reopens exactly under the lineage it was created with.
    - [Workflow], [WorkflowProperties], [WorkflowRun] (sdk/workflow.go, orchestration_workflow.go):
      validation accepts exactly the acyclic requests, runs finish, and a node starts after all its
      dependencies with their outputs.
    - [Parallel] (runtime_parallel.go): the pool of workers, over all interleavings.
    - [Payload], [Durability], [DurabilityProperties] (internal/durability, the payloads of sdk/events.go): what
      an entry does to the messages of its branch, checkpoints, and the bases to resume, recover and
      complete from.  [PayloadCodec] is encoding/json on payloads, with its round-trip laws.
    - [SessionState], [SessionTrajectory] (session_projection.go, context_injection.go,
      execution_result.go, durability_trajectory.go): the state of a session, queued context, interrupts,
      and the writing of entries under the lease.
    - [Sessions], [SessionsProperties] (session.go, with the head moves of durability_trajectory.go and
      durability_recovery.go): creating, resuming and rolling back sessions; a new session resumes as it
      was made; a rollback is what the next resume sees, unless the last execution failed or was cancelled,
      when the resume goes back to the base of that execution.
    - [PromptHost], [ToolCalls], [PromptExecution], [ExecutionCompletion] (execution_prompt.go,
      execution_resources.go, durability_execution.go, durability_recovery.go): the agent loop as a
      stateful program over a host.  The host answers every call the loop makes of the rest of the
      runtime and may do anything in between; [HostLaws] says that its store is the in-memory one.
    - [PromptLaws], [PromptInvariant], [Recovery]: from every point where an execution stops, the
      trajectory restores it as of its last checkpoint, over any number of crashes and recoveries, unless an
      interrupt made the loop drop an answer it had committed ([execution_recovery_exact]); a failed one
      leaves no trace in the conversation.
    - [LoopBounds], [ToolCallProperties]: the loop terminates, tools run in batches that keep
      their order, and every call is answered once, in its place and with its own result.
    - [ResumeEnvironment] (durability_environment.go, trajectory_environment.go, the catalog of
      composition_catalog.go): the part of the composition that an execution sees, the environment and digest
      a trajectory records, and its resolution in a later composition.  [ResumeExactness], [ResumeTheorems]:
      the environment does not depend on the order of map loops, a later composition that offers the
      recorded resources resolves to the recorded one ([resume_reproduces_composition]), and the walk to the
      input of an execution ends and is exact.
    - [BitCodec], [PromptExamples]: an executable codec and host, on which the examples run.
    - [TopoSort], [InvocationGraph], [InvocationGraphOrder], [InvocationGraphProperties]
      (sdk/invocation_graph.go): the graph is built exactly for acyclic records, in a topological
      order that does not depend on the iteration order of maps.

    Gateway.  The in-memory stores are functions under their locks, as above; the requests and the
    goroutines they start are sequences of steps that interleave.
    - [GatewayEvent], [GatewayEventProperties] (gateway/event.go, event_store_memory.go): the event log of a
      session; appending is idempotent, pages are complete, and a waiter never misses an event.
    - [GatewayInput], [GatewayInputProperties] (gateway/input.go, input_store_memory.go): the queue of inputs;
      one input is dispatched at a time, in order, and each is settled once.
    - [GatewayInteraction], [GatewayInteractionProperties] (gateway/interaction.go, interaction_store_memory.go,
      interaction_manager.go): a request for an answer returns the answer that was recorded or the reason why
      there is none.
    - [GatewayPermission] (gateway/permission_plugin.go, interaction_tool.go): the permission hook decides exactly
      what its rules mean; the tool that asks the user.
    - [GatewaySession], [GatewaySessionProperties] (gateway/session.go, store_memory.go, session_gate.go): sessions
      change only by compare-and-swap on their revisions, and their gate lets one caller in at a time.
    - [GatewaySupervisor], [GatewaySupervisorProperties] (gateway/input_supervisor.go with the requests that start
      it): the runners of sessions against the backend ([ExecutionBackend]); a queue with work is always
      served by a runner, unless the session is paused or the gateway ends.
    - [GatewayService] (gateway/service.go, plugins.go): the requests of users; none of them reads or changes a
      session of another user, and creating a session leaves nothing behind when it fails.
    - [GatewayBackend], [GatewayBackendProperties] (gateway/runtime_host_slot.go, runtime_backend.go, with
      execution_host.go, execution_lifecycle.go and internal/lifecycle/context.go): the hosts of executions.  A
      session has at most one, every state backend that is opened is closed once, a cancellation returns after
      its host has ended, and a shutdown ends and is final.
    - [GatewayConversation] (gateway/conversation.go, inspection.go): the chunks of a conversation give back its
      messages, and pages give back the chunks and the entries.

    ** Conventions

    Definitions keep the names of the source; record fields carry a short prefix, and methods the
    prefix of their type where the name would clash.  Errors are the sentinels of the source or their
    format strings with arguments.  [wall] and [now] are readings of the clock, [entropy] of the
    random source.  The deep copies of the source are identities on immutable values.  Code outside
    the repository is a parameter with named hypotheses, each with an instance in a witness:
    [encoding/json] on payloads and on what the gateway sends, [url.Parse], [unicode.ToLower], the answers of
    hooks, providers, tools, agents and tasks.  Where a component is modelled against another one, the other is
    a class ([ExecutionBackend], [DeliveryQueue], [AwaitRuntime]) or the answers that a step hears ([answers]).

    ** Bounds and fuel

    Counters wrap at their width: store sequence numbers, revisions, hook numbers and generations are
    [u64], and theorems that need distinct numbers bound the number of steps by the width.  Loops
    that are not structural carry fuel: the loops of the invocation graph and of the workflow have as
    much as there are nodes, and running out is a value of its own that the theorems exclude
    ([invocation_graph_outcome], [workflow_validation_exact], [workflow_run_finishes]); the walks over
    trajectory branches have the number of entries, the chunks of a text its length.  The pool of
    [Parallel] makes at most three steps per task and one more; an operation worker at most fifteen,
    renewals aside; the owner of a host slot at most six once the backend is closed and cancelled
    ([shutdown_ends]).  The agent loop has one unit of fuel per round; a session with a bound on its turns
    needs as many as that and one more per interruption it meets ([agent_loop_terminates]).

    ** Findings

    Behaviours that differ from what the code or its documentation means:
    - stores: [cstore_reenqueue_unstamped_refused], [schema1_fork_unreadable], [registry_poll_from_zero_incomplete],
      [worker_unrecordable_answer_repeats];
    - composition and events: [unmount_keeps_hook_of_unknown_event], [null_payload_panics];
    - executions: [interrupted_answer_stays_in_branch], [context_after_last_turn_fails],
      [mixed_subscriber_blocks_resume], [resume_undoes_rollback_after_failure], the configuration of the caller
      that [ResumeCurrent] does not use ([rollback_then_resume]), and the reasoning effort that
      [recovery_config] forgets;
    - gateway: [permission_question_expires], the outcome of a denied call, [resume_strands_input],
      [paused_input_takes_foreign_execution], [create_session_normalizes_twice], [shutdown_before_state_closed].

    ** Not modelled

    The file and SQL stores and the etcd directory (I/O around the same models), the transports of the gateway
    and of plugins (HTTP and gRPC with generated code), the plugins, the terminal interface, the command line,
    configuration and telemetry (I/O and wiring).  Of the runtime: the submission of local operations
    (operation_local.go), the hosting of agents behind their requests, and the registry of hosted executions
    behind [CancelExecution].  The calls that the gateway's backend makes of a runtime are answers of the
    model's environment, so its theorems hold for whatever a runtime answers. *)

From stdpp Require Export base tactics option list strings gmap sorting.
From stdpp Require Import numbers.
From Stdlib Require Export ZArith Lia Ascii.

#[global] Open Scope Z_scope.
#[global] Set Default Goal Selector "!".

(** ** Machine integers of Go

    [uint64], [uint32] and [int] values are [Z]; the wrap-around of the increments the code
    performs is written out with these functions. *)

Definition two64 : Z := 18446744073709551616.
Definition two32 : Z := 4294967296.
Definition two63 : Z := 9223372036854775808.

Definition u64 (z : Z) : Z := z mod two64.
Definition u32 (z : Z) : Z := z mod two32.
Definition i64 (z : Z) : Z := (z + two63) mod two64 - two63.

(** ** Instants and durations

    A [time.Time] is the number of nanoseconds since Go's zero time (January 1 of year 1, UTC), so
    the zero value is [0] and the conversion [UTC()], which keeps the instant, is the identity.  A
    [time.Duration] is a signed 64-bit number of nanoseconds. *)

Abbreviation time := Z (only parsing).
Abbreviation duration := Z (only parsing).

Definition zeroTime : time := 0.
Definition IsZero (t : time) : bool := t =? zeroTime.
Definition After (a b : time) : bool := b <? a.
Definition Before (a b : time) : bool := a <? b.
Definition time_Add (t : time) (d : duration) : time := t + d.

(** [Time.Sub] saturates at the ends of the duration range. *)
Definition time_Sub (a b : time) : duration :=
  Z.max (- two63) (Z.min (two63 - 1) (a - b)).

(** The three-valued comparisons [time.Time.Compare], [strings.Compare] and [cmp.Compare]. *)
Definition int_of_comparison (c : comparison) : Z :=
  match c with Lt => -1 | Eq => 0 | Gt => 1 end.

Definition Z_Compare (a b : Z) : Z := int_of_comparison (a ?= b).
Definition strings_Compare (a b : string) : Z := int_of_comparison (String.compare a b).

(** ** Errors and results

    Go's exported error values are the sentinels; every other error is the format string of its
    [errors.New] or [fmt.Errorf] with the arguments, and with the wrapped error where the format
    has a [%w].  [Joined] is [errors.Join] of errors that are not nil. *)

Inductive sentinel :=
  | ContextCanceled
  | ErrOperationNotFound
  | ErrOperationConflict
  | ErrOperationClaimed
  | ErrOperationFence
  | ErrNoDelivery
  | ErrDeliveryLease
  | ErrTrajectoryNotFound
  | ErrTrajectoryEntryNotFound
  | ErrTrajectoryExists
  | ErrTrajectoryConflict
  | ErrTrajectoryReferenced
  | ErrTrajectoryVersion
  | ErrTrajectoryExecution
  | ErrTrajectoryClaimed
  | ErrTrajectoryFence
  | ErrInvalidRequest
  | ErrInstanceNotFound
  | ErrInstanceConflict
  | ErrLeaseNotFound
  | ErrLeaseExpired
  | ErrLeaseFenced
  | ErrCursorExpired
  | ErrClosed
  | DeadlineExceeded
  | ErrContextInjectionInterrupt
  | ErrRuntimeClosed
  | ErrRuntimeDraining
  | ErrExecutionNotFound
  | ErrExecutionNotRecoverable
  | ErrStoreClosed
  | ErrSessionNotFound
  | ErrSessionExists
  | ErrSessionConflict
  | ErrInputNotFound
  | ErrInputConflict
  | ErrInteractionNotFound
  | ErrInteractionConflict
  | ErrForbidden
  | ErrPluginAmbiguous
  | ErrPluginNotBound
  | ErrBindingStale
  | ErrGatewayDraining
  | ErrExecutionActive
  | GatewayErrInvalidRequest
  | GatewayErrExecutionNotFound.

#[export] Instance sentinel_eq_dec : EqDecision sentinel.
Proof. solve_decision. Defined.

Inductive arg :=
  | AStr (s : string)
  | ANum (z : Z).

Inductive error :=
  | Sentinel (s : sentinel)
  | Errorf (format : string) (args : list arg)
  | Wrapf (format : string) (args : list arg) (inner : error)
  | Wrap2 (outer inner : error)
  | Joined (errs : list error).

(** [errors.New] is [Errorf] with no argument. *)
Abbreviation errors_New msg := (Errorf msg []).

(** [errors.Is], for the sentinels. *)
Fixpoint errors_Is (e : error) (s : sentinel) : bool :=
  match e with
  | Sentinel s' => bool_decide (s = s')
  | Errorf _ _ => false
  | Wrapf _ _ inner => errors_Is inner s
  | Wrap2 outer inner => errors_Is outer s || errors_Is inner s
  | Joined errs => existsb (λ e, errors_Is e s) errs
  end.

Inductive result (A : Type) :=
  | Ok (a : A)
  | Err (e : error).
Arguments Ok {A} a.
Arguments Err {A} e.

Definition result_bind {A B} (m : result A) (f : A → result B) : result B :=
  match m with Ok a => f a | Err e => Err e end.

Declare Scope go_scope.
Delimit Scope go_scope with go.
#[global] Open Scope go_scope.

(** [x, err := m; if err != nil { return err }; k]. *)
Notation "'let?' x := m 'in' k" := (result_bind m (fun x => k))
  (at level 10, x name, m at level 100, k at level 200) : go_scope.

Notation "'let?' ' p := m 'in' k" := (result_bind m (fun x => match x with p => k end))
  (at level 10, p strict pattern, m at level 100, k at level 200) : go_scope.

(** [if err := m; err != nil { return err }; k]. *)
Notation "'try?' m ; k" := (result_bind m (fun _ => k))
  (at level 10, m at level 100, k at level 200) : go_scope.

(** [if c { return e }; k]. *)
Notation "'fail_if' c 'with' e ; k" := (if c then Err e else k)
  (at level 10, c at level 100, e at level 100, k at level 200) : go_scope.

Definition is_Ok {A} (m : result A) : Prop := ∃ a, m = Ok a.

Definition result_ok {A} (m : result A) : bool :=
  match m with Ok _ => true | Err _ => false end.

(** A [context.Context] is the value of its [Err()] at the time of the call: [None] while the
    context is live. *)
Abbreviation context := (option error) (only parsing).

Definition ctx_Err (ctx : context) : result unit :=
  match ctx with None => Ok tt | Some e => Err e end.

(** [if x == "" { x = d }]. *)
Definition string_default (x d : string) : string :=
  if String.eqb x "" then d else x.

Definition is_empty (s : string) : bool := String.eqb s "".

(** ** Sorting

    [slices.SortFunc] takes a three-valued comparison.  Its result is specified only up to the
    order of elements that compare equal; [SortFunc_unique] states when that leaves one result. *)

Definition cmp_le {A} (cmp : A → A → Z) (x y : A) : Prop := cmp x y ≤ 0.

#[export] Instance cmp_le_dec {A} (cmp : A → A → Z) x y : Decision (cmp_le cmp x y).
Proof. unfold cmp_le. apply _. Defined.

Definition SortFunc {A} (cmp : A → A → Z) (l : list A) : list A := merge_sort (cmp_le cmp) l.

(** [if order := c1; order != 0 { return order }; return c2], also [cmp.Or]. *)
Definition cmp_or (c1 c2 : Z) : Z := if c1 =? 0 then c2 else c1.

(** The values of a Go map, in the model's iteration order.  Every use of it is followed by a
    theorem that the result does not depend on that order. *)
Definition map_values {A} (m : gmap string A) : list A := snd <$> map_to_list m.

(** Where the order of a [range] over a map can show in the result, the order is a parameter: Go
    chooses one anew for every loop, so it depends on the loop (the number) and on the map. *)
Class MapOrder := {
  range_map {A : Type} : nat → gmap string A → list (string * A);
  range_map_perm {A : Type} (loop : nat) (m : gmap string A) : range_map loop m ≡ₚ map_to_list m;
}.

(** The value of a result that is known to be one. *)
Definition get {A} (d : A) (m : result A) : A := match m with Ok a => a | Err _ => d end.

(** ** Lemmas on results *)

Lemma bind_Ok {A B} (m : result A) (f : A → result B) b :
  result_bind m f = Ok b ↔ ∃ a, m = Ok a ∧ f a = Ok b.
Proof. destruct m; simpl; split; [eauto|intros (?&[= ->]&?); done|done|by intros (?&?&?)]. Qed.

Lemma ctx_Err_Ok ctx u : ctx_Err ctx = Ok u → ctx = None.
Proof. by destruct ctx. Qed.

Lemma is_empty_true s : is_empty s = true ↔ s = "".
Proof. apply String.eqb_eq. Qed.

Lemma is_empty_false s : is_empty s = false ↔ s ≠ "".
Proof. apply String.eqb_neq. Qed.

Lemma IsZero_true t : IsZero t = true ↔ t = 0.
Proof. unfold IsZero, zeroTime. lia. Qed.

Lemma IsZero_false t : IsZero t = false ↔ t ≠ 0.
Proof. unfold IsZero, zeroTime. lia. Qed.

Lemma After_true a b : After a b = true ↔ b < a.
Proof. unfold After. lia. Qed.

Lemma After_false a b : After a b = false ↔ a ≤ b.
Proof. unfold After. lia. Qed.

Lemma Before_true a b : Before a b = true ↔ a < b.
Proof. unfold Before. lia. Qed.

Lemma Before_false a b : Before a b = false ↔ b ≤ a.
Proof. unfold Before. lia. Qed.

Lemma bool_decide_true_iff (P : Prop) `{!Decision P} : bool_decide P = true ↔ P.
Proof. apply bool_decide_eq_true. Qed.

Lemma bool_decide_false_iff (P : Prop) `{!Decision P} : bool_decide P = false ↔ ¬ P.
Proof. apply bool_decide_eq_false. Qed.

(** The boolean guards of the code as propositions. *)
Create Rewrite HintDb gobool.
#[export] Hint Rewrite
  orb_true_iff orb_false_iff andb_true_iff andb_false_iff negb_true_iff negb_false_iff
  is_empty_true is_empty_false IsZero_true IsZero_false After_true After_false
  Before_true Before_false Z.ltb_lt Z.ltb_ge Z.leb_le Z.leb_gt Z.eqb_eq Z.eqb_neq
  @bool_decide_true_iff @bool_decide_false_iff : gobool.

Ltac gobool := autorewrite with gobool in *.

(** [inv_ok]: decompose every hypothesis that says a function of the model returned without an
    error, one early return at a time. *)
Ltac inv_ok_step :=
  match goal with
  | H : result_bind _ _ = Ok _ |- _ => apply bind_Ok in H; destruct H as (? & ? & H)
  | H : (if ?c then Err _ else _) = Ok _ |- _ => destruct c eqn:?; [discriminate H|]
  | H : (if ?c then _ else Err _) = Ok _ |- _ => destruct c eqn:?; [|discriminate H]
  | H : Ok _ = Ok _ |- _ => injection H; clear H; intros; subst
  | H : Err _ = Ok _ |- _ => discriminate H
  | H : ctx_Err _ = Ok _ |- _ => apply ctx_Err_Ok in H; subst
  | H : (let '(_, _) := ?p in _) = Ok _ |- _ => destruct p eqn:?
  | H : (match ?o with Some _ => _ | None => Err _ end) = Ok _ |- _ =>
      destruct o eqn:?; [|discriminate H]
  | H : (match ?o with Some _ => Err _ | None => _ end) = Ok _ |- _ =>
      destruct o eqn:?; [discriminate H|]
  end.

Ltac inv_ok := repeat (inv_ok_step; simpl in *).

(** ** Lemmas on machine integers *)

Lemma u64_small z : 0 ≤ z < two64 → u64 z = z.
Proof. intros. by apply Z.mod_small. Qed.

Lemma u64_range z : 0 ≤ u64 z < two64.
Proof. by apply Z.mod_pos_bound. Qed.

Lemma u64_add_l a b : u64 (u64 a + b) = u64 (a + b).
Proof. apply Zplus_mod_idemp_l. Qed.

Lemma i64_small z : - two63 ≤ z < two63 → i64 z = z.
Proof.
  unfold i64, two63, two64. intros. rewrite Z.mod_small; lia.
Qed.

(** ** Comparisons and sorting *)

Record cmp_ok {A} (cmp : A → A → Z) : Prop := {
  cmp_anti x y : cmp y x = - cmp x y;
  cmp_trans x y z : cmp x y ≤ 0 → cmp y z ≤ 0 → cmp x z ≤ 0;
}.

Lemma Z_Compare_ok : cmp_ok Z_Compare.
Proof.
  split; unfold Z_Compare; intros.
  - rewrite (Z.compare_antisym x y). by destruct (x ?= y).
  - revert H H0. destruct (Z.compare_spec x y), (Z.compare_spec y z), (Z.compare_spec x z); simpl; lia.
Qed.

Lemma ascii_compare_trans a b c r :
  Ascii.compare a b = r → Ascii.compare b c = r → Ascii.compare a c = r.
Proof.
  unfold Ascii.compare. destruct r; rewrite ?N.compare_eq_iff, ?N.compare_lt_iff, ?N.compare_gt_iff; lia.
Qed.

Lemma string_compare_refl a : String.compare a a = Eq.
Proof.
  induction a as [|x a IH]; [done|]. simpl. unfold Ascii.compare. by rewrite N.compare_refl.
Qed.

Lemma string_compare_trans a b c :
  String.compare a b ≠ Gt → String.compare b c ≠ Gt → String.compare a c ≠ Gt.
Proof.
  revert b c. induction a as [|x a IH]; intros [|y b] [|z c]; simpl; try done.
  destruct (Ascii.compare x y) eqn:Hxy, (Ascii.compare y z) eqn:Hyz; try done;
    intros H1 H2.
  - rewrite (ascii_compare_trans _ _ _ _ Hxy Hyz). eauto.
  - apply Ascii.compare_eq_iff in Hxy. subst. by rewrite Hyz.
  - apply Ascii.compare_eq_iff in Hyz. subst. by rewrite Hxy.
  - by rewrite (ascii_compare_trans _ _ _ _ Hxy Hyz).
Qed.

Lemma strings_Compare_le a b : strings_Compare a b ≤ 0 ↔ String.compare a b ≠ Gt.
Proof. unfold strings_Compare. destruct (String.compare a b); simpl; split; done || lia. Qed.

Lemma strings_Compare_eq a b : strings_Compare a b = 0 ↔ a = b.
Proof.
  unfold strings_Compare. split.
  - destruct (String.compare a b) eqn:E; simpl; intros ?; try lia. by apply String.compare_eq_iff.
  - intros ->. by rewrite string_compare_refl.
Qed.

Lemma strings_Compare_ok : cmp_ok strings_Compare.
Proof.
  split.
  - intros x y. unfold strings_Compare. rewrite String.compare_antisym.
    by destruct (String.compare x y).
  - intros x y z. rewrite !strings_Compare_le. apply string_compare_trans.
Qed.

Lemma cmp_ok_on {A B} (f : A → B) cmp : cmp_ok cmp → cmp_ok (λ x y, cmp (f x) (f y)).
Proof. intros [H1 H2]. split; eauto. Qed.

Lemma cmp_ok_or {A} (c1 c2 : A → A → Z) :
  cmp_ok c1 → cmp_ok c2 → cmp_ok (λ x y, cmp_or (c1 x y) (c2 x y)).
Proof.
  intros [A1 T1] [A2 T2]. unfold cmp_or. split.
  - intros x y. rewrite (A1 x y), (A2 x y). repeat case_match; lia.
  - intros x y z Hxy Hyz.
    pose proof (T1 x y z) as Ht. pose proof (T1 z x y) as Hzy. pose proof (T1 y z x) as Hyx.
    pose proof (T2 x y z). pose proof (A1 y z). pose proof (A1 x y). pose proof (A1 x z).
    destruct (Z.eqb_spec (c1 x y) 0), (Z.eqb_spec (c1 y z) 0), (Z.eqb_spec (c1 x z) 0); lia.
Qed.

Lemma cmp_or_zero a b : cmp_or a b = 0 ↔ a = 0 ∧ b = 0.
Proof. unfold cmp_or. case_match; lia. Qed.

Create HintDb gocmp.
#[export] Hint Resolve Z_Compare_ok strings_Compare_ok cmp_ok_on cmp_ok_or : gocmp.

Section sort.
Context {A : Type} (cmp : A → A → Z) (Hcmp : cmp_ok cmp).

#[local] Instance cmp_le_trans : Transitive (cmp_le cmp).
Proof. intros x y z. apply Hcmp. Qed.

#[local] Instance cmp_le_total : Total (cmp_le cmp).
Proof. intros x y. unfold cmp_le. rewrite (cmp_anti _ Hcmp x y). lia. Qed.

Lemma SortFunc_perm l : SortFunc cmp l ≡ₚ l.
Proof. apply merge_sort_Permutation. Qed.

Lemma SortFunc_sorted l : StronglySorted (cmp_le cmp) (SortFunc cmp l).
Proof. apply StronglySorted_merge_sort; apply _. Qed.

(** When no two different elements compare equal, every sorted permutation is the same list: the
    result of [slices.SortFunc] is determined, and so is the result of sorting any permutation. *)
Lemma SortFunc_unique l l' :
  (∀ x y, x ∈ l → y ∈ l → cmp x y = 0 → x = y) →
  l' ≡ₚ l → StronglySorted (cmp_le cmp) l' → l' = SortFunc cmp l.
Proof using Hcmp.
  intros Hinj Hp Hs. apply (StronglySorted_unique_strong (cmp_le cmp)).
  - intros x y Hx Hy Hxy Hyx. unfold cmp_le in *.
    rewrite Hp in Hx. rewrite SortFunc_perm in Hy.
    apply Hinj; [done..|]. rewrite (cmp_anti _ Hcmp x y) in Hyx. lia.
  - done.
  - apply SortFunc_sorted.
  - by rewrite Hp, SortFunc_perm.
Qed.

Lemma SortFunc_perm_eq l l' :
  (∀ x y, x ∈ l → y ∈ l → cmp x y = 0 → x = y) →
  l' ≡ₚ l → SortFunc cmp l' = SortFunc cmp l.
Proof using Hcmp.
  intros Hinj Hp. apply SortFunc_unique; [done| |apply SortFunc_sorted].
  by rewrite SortFunc_perm.
Qed.
End sort.

Lemma elem_of_SortFunc {A} (cmp : A → A → Z) l x : x ∈ SortFunc cmp l ↔ x ∈ l.
Proof. by rewrite SortFunc_perm. Qed.

Lemma elem_of_map_values {A} (m : gmap string A) x : x ∈ map_values m ↔ ∃ k, m !! k = Some x.
Proof.
  unfold map_values. rewrite list_elem_of_fmap. split.
  - intros ([k y] & -> & H). apply elem_of_map_to_list in H. eauto.
  - intros [k H]. exists (k, x). split; [done|]. by apply elem_of_map_to_list.
Qed.

(** ** Deleting the entries a loop over a map selects *)

Lemma lookup_foldr_delete {A B} (f : A → string) (l : list A) (m : gmap string B) k :
  foldr (λ x m, delete (f x) m) m l !! k = if bool_decide (k ∈ f <$> l) then None else m !! k.
Proof.
  induction l as [|x l IH]; simpl; [done|]. rewrite lookup_delete, IH.
  destruct (decide (f x = k)) as [->|Hne].
  - by rewrite bool_decide_eq_true_2 by set_solver.
  - destruct (bool_decide (k ∈ f <$> l)) eqn:E; gobool.
    + by rewrite bool_decide_eq_true_2 by set_solver.
    + by rewrite bool_decide_eq_false_2 by set_solver.
Qed.

Lemma size_foldr_delete {B} (l : list (string * B)) (m : gmap string B) :
  NoDup l.*1 → (∀ k v, (k, v) ∈ l → m !! k = Some v) →
  (length l + size (foldr (λ x m, delete x.1 m) m l) = size m)%nat.
Proof.
  induction l as [|[k v] l IH]; simpl; [done|]. intros [Hk Hnd]%list.NoDup_cons Hin.
  rewrite <-IH by set_solver. assert (is_Some (foldr (λ x m, delete x.1 m) m l !! k)) as Hs.
  { rewrite (lookup_foldr_delete fst), bool_decide_eq_false_2 by done.
    rewrite (Hin k v) by set_solver. eauto. }
  rewrite (map_size_delete_Some _ _ Hs).
  assert (size (foldr (λ x m, delete x.1 m) m l) ≠ 0%nat); [|lia].
  intros Hz%map_size_empty_inv. rewrite Hz, lookup_empty in Hs. by destruct Hs.
Qed.

Lemma elem_of_snoc {A} (l : list A) x y : y ∈ l ++ [x] ↔ y ∈ l ∨ y = x.
Proof. by rewrite elem_of_app, list_elem_of_singleton. Qed.

(** ** Sorted lists *)

Lemma StronglySorted_ext {A} (R R' : A → A → Prop) l :
  (∀ x y, x ∈ l → y ∈ l → R x y → R' x y) → StronglySorted R l → StronglySorted R' l.
Proof.
  intros Himp Hs. induction Hs as [|x l _ IH Hall]; constructor; [apply IH; set_solver|].
  rewrite list.Forall_forall in *. intros y Hy. apply Himp; [set_solver..|by apply Hall].
Qed.

Lemma StronglySorted_snoc {A} (R : A → A → Prop) l x :
  StronglySorted R l → (∀ y, y ∈ l → R y x) → StronglySorted R (l ++ [x]).
Proof.
  intros Hs Hx. induction Hs as [|y l _ IH Hall]; simpl; repeat constructor.
  - apply IH. set_solver.
  - rewrite list.Forall_forall in *. intros z [?| ->]%elem_of_snoc; [by apply Hall|apply Hx; set_solver].
Qed.

Lemma StronglySorted_filter' {A} (R : A → A → Prop) (P : A → Prop) `{!∀ x, Decision (P x)} l :
  StronglySorted R l → StronglySorted R (filter P l).
Proof.
  induction 1 as [|x l _ IH Hall]; [constructor|]. rewrite filter_cons. case_decide; [|done].
  constructor; [done|]. rewrite list.Forall_forall in *. intros y [_ Hy]%list_elem_of_filter. by apply Hall.
Qed.

(** ** The values of a map *)

Lemma map_values_insert {A} (m : gmap string A) k x :
  m !! k = None → map_values (<[k := x]> m) ≡ₚ x :: map_values m.
Proof. intros H. unfold map_values. by rewrite map_to_list_insert. Qed.

Lemma map_values_delete {A} (m : gmap string A) k x :
  m !! k = Some x → x :: map_values (delete k m) ≡ₚ map_values m.
Proof. intros H. unfold map_values. by rewrite <-(map_to_list_delete m k x H). Qed.

Lemma list_filter_ext {A} (P Q : A → Prop) `{!∀ x, Decision (P x), !∀ x, Decision (Q x)} (l : list A) :
  (∀ x, x ∈ l → P x ↔ Q x) → filter P l = filter Q l.
Proof.
  induction l as [|x l IH]; intros Hiff; [done|]. rewrite !filter_cons, IH by set_solver.
  destruct (decide (P x)) as [HP|HP], (decide (Q x)) as [HQ|HQ]; [done|..|done];
    exfalso; pose proof (Hiff x ltac:(set_solver)); tauto.
Qed.

(** The values of a map in which every value knows its key are distinct. *)
Lemma NoDup_map_values {A} (f : A → string) (m : gmap string A) :
  (∀ k x, m !! k = Some x → f x = k) → NoDup (map_values m).
Proof.
  intros Hf. unfold map_values. apply NoDup_fmap_2_strong; [|apply NoDup_map_to_list].
  intros [i x] [j y] Hx%elem_of_map_to_list Hy%elem_of_map_to_list. simpl. intros ->.
  f_equal. rewrite <-(Hf _ _ Hx). by apply Hf.
Qed.

Lemma filter_fmap {A B} (f : A → B) (P : B → Prop) `{!∀ x, Decision (P x)} (l : list A) :
  filter P (f <$> l) = f <$> filter (λ x, P (f x)) l.
Proof.
  induction l as [|x l IH]; [done|]. rewrite fmap_cons, !filter_cons, IH. by case_decide.
Qed.

(** ** Map iteration *)

(** The order of the model's own maps, and its reverse. *)
Definition forward_order : MapOrder :=
  {| range_map A _ m := map_to_list m; range_map_perm A _ m := Permutation_refl _ |}.

Definition backward_order : MapOrder :=
  {| range_map A _ m := rev (map_to_list m);
     range_map_perm A _ m := Permutation_sym (Permutation_rev _) |}.

Lemma elem_of_range_map `{!MapOrder} {A} loop (m : gmap string A) k x :
  (k, x) ∈ range_map loop m ↔ m !! k = Some x.
Proof. by rewrite range_map_perm, elem_of_map_to_list. Qed.

Lemma NoDup_range_map `{!MapOrder} {A} loop (m : gmap string A) : NoDup (range_map loop m).*1.
Proof. rewrite range_map_perm. apply NoDup_fst_map_to_list. Qed.

(** Two comparisons that agree on the elements sort them in the same way. *)
Lemma SortFunc_ext {A} (c1 c2 : A → A → Z) l1 l2 :
  cmp_ok c1 → cmp_ok c2 → l1 ≡ₚ l2 →
  (∀ x y, x ∈ l2 → y ∈ l2 → c1 x y = c2 x y) →
  (∀ x y, x ∈ l2 → y ∈ l2 → c2 x y = 0 → x = y) → SortFunc c1 l1 = SortFunc c2 l2.
Proof.
  intros H1 H2 Hp Heq Hinj. apply SortFunc_unique; [done|done|by rewrite SortFunc_perm|].
  eapply StronglySorted_ext; [|by apply SortFunc_sorted].
  intros x y Hx Hy. rewrite elem_of_SortFunc, Hp in Hx, Hy. unfold cmp_le. by rewrite Heq.
Qed.

(** Sorting looks at the comparison only for the elements of the list. *)
Section merge_ext.
Context {A : Type} (R R' : relation A) `{!∀ x y, Decision (R x y), !∀ x y, Decision (R' x y)}.
Context (X : A → Prop) (HR : ∀ x y, X x → X y → R x y ↔ R' x y).

Lemma list_merge_ext l1 l2 : Forall X l1 → Forall X l2 → list_merge R l1 l2 = list_merge R' l1 l2.
Proof using HR.
  intros H1 H2. revert l2 H2. induction H1 as [|x l1 Hx H1 IH1]; intros l2 H2; [by destruct l2|].
  induction H2 as [|y l2 Hy H2 IH2]; [done|]. simpl.
  destruct (decide (R x y)) as [Hr|Hr]; rewrite (HR x y Hx Hy) in Hr.
  - rewrite decide_True by done. f_equal. apply IH1. by constructor.
  - rewrite decide_False by done. f_equal. apply IH2.
Qed.

Lemma Forall_list_merge l1 l2 : Forall X l1 → Forall X l2 → Forall X (list_merge R l1 l2).
Proof using Type.
  intros H1 H2. rewrite (merge_Permutation R l1 l2). by apply Forall_app.
Qed.

Lemma merge_list_to_stack_ext st l :
  Forall (λ o, ∀ k, o = Some k → Forall X k) st → Forall X l →
  merge_list_to_stack R st l = merge_list_to_stack R' st l ∧
  Forall (λ o, ∀ k, o = Some k → Forall X k) (merge_list_to_stack R st l).
Proof using HR.
  intros Hst. revert l. induction Hst as [|[k|] st Hk Hst IH]; intros l Hl; simpl.
  - split; [done|]. repeat constructor. intros k. naive_solver.
  - destruct (IH (list_merge R k l)) as [Heq Hall]; [apply Forall_list_merge; eauto|].
    rewrite <-list_merge_ext by eauto. rewrite <-Heq. split; [done|]. by constructor.
  - split; [done|]. constructor; [naive_solver|done].
Qed.

Lemma merge_stack_ext st :
  Forall (λ o, ∀ k, o = Some k → Forall X k) st →
  merge_stack R st = merge_stack R' st ∧ Forall X (merge_stack R st).
Proof using HR.
  induction 1 as [|[k|] st Hk Hst [IH1 IH2]]; simpl; [split; [done|constructor]| |done].
  rewrite <-IH1, <-list_merge_ext by eauto. split; [done|]. apply Forall_list_merge; eauto.
Qed.

Lemma merge_sort_ext l : Forall X l → merge_sort R l = merge_sort R' l.
Proof using HR.
  unfold merge_sort. intros Hl. assert (Forall (λ o, ∀ k, o = Some k → Forall X k) []) as Hst by constructor.
  revert Hst. generalize ([] : list (option (list A))). induction Hl as [|x l Hx Hl IH]; intros st Hst; simpl.
  - by apply merge_stack_ext.
  - destruct (merge_list_to_stack_ext st [x]) as [Heq Hst']; [done|by repeat constructor|].
    rewrite <-Heq. by apply IH.
Qed.
End merge_ext.

Lemma SortFunc_pointwise {A} (c1 c2 : A → A → Z) l :
  (∀ x y, x ∈ l → y ∈ l → c1 x y = c2 x y) → SortFunc c1 l = SortFunc c2 l.
Proof.
  intros Heq. apply (merge_sort_ext _ _ (λ x, x ∈ l)).
  - intros x y Hx Hy. unfold cmp_le. by rewrite Heq.
  - by apply list.Forall_forall.
Qed.
