(* ===== verification/GoText.v ===== *)
(** Text of the Go standard library the sources use: [strings.TrimSpace], hexadecimal and decimal
    printing, and [json.Valid] as the byte-driven state machine of [encoding/json].  Strings are
    sequences of bytes, as in Go. *)
From S2P Require Import Prelude.

(** ** [strings.TrimSpace]

    The UTF-8 encodings of the runes for which [unicode.IsSpace] holds, by their number of
    bytes. *)

Definition byte (c : ascii) : N := N_of_ascii c.

Definition space1 (a : N) : bool :=
  (N.leb 9 a && N.leb a 13) || N.eqb a 32.

Definition space2 (a b : N) : bool :=
  N.eqb a 194 && (N.eqb b 133 || N.eqb b 160).

Definition space3 (a b c : N) : bool :=
  (N.eqb a 225 && N.eqb b 154 && N.eqb c 128) ||
  (N.eqb a 226 && N.eqb b 128 &&
     ((N.leb 128 c && N.leb c 138) || N.eqb c 168 || N.eqb c 169 || N.eqb c 175)) ||
  (N.eqb a 226 && N.eqb b 129 && N.eqb c 159) ||
  (N.eqb a 227 && N.eqb b 128 && N.eqb c 128).

(** The number of bytes of the space rune at the front of the string, [0] when there is none. *)
Definition space_prefix (s : list N) : nat :=
  match s with
  | a :: b :: c :: _ => if space1 a then 1 else if space2 a b then 2 else if space3 a b c then 3 else 0
  | [a; b] => if space1 a then 1 else if space2 a b then 2 else 0
  | [a] => if space1 a then 1 else 0
  | [] => 0
  end.

(** The same at the end of the string, whose bytes are given last byte first. *)
Definition space_suffix (s : list N) : nat :=
  match s with
  | c :: b :: a :: _ => if space1 c then 1 else if space2 b c then 2 else if space3 a b c then 3 else 0
  | [c; b] => if space1 c then 1 else if space2 b c then 2 else 0
  | [c] => if space1 c then 1 else 0
  | [] => 0
  end.

Fixpoint trim_front (count : list N → nat) (fuel : nat) (s : list ascii) : list ascii :=
  match fuel with
  | O => s
  | S fuel =>
      match count (byte <$> take 3 s) with
      | O => s
      | n => trim_front count fuel (drop n s)
      end
  end.

Definition TrimSpace (s : string) : string :=
  let bytes := String.list_ascii_of_string s in
  let front := trim_front space_prefix (length bytes) bytes in
  let back := trim_front space_suffix (length front) (reverse front) in
  String.string_of_list_ascii (reverse back).

(** [strings.TrimSpace(s) == ""]. *)
Definition blank (s : string) : bool := is_empty (TrimSpace s).

(** ** Printing of numbers *)

Definition hex_digit (n : N) : ascii :=
  if (n <? 10)%N then ascii_of_N (48 + n) else ascii_of_N (87 + n).

Definition hex_byte (b : N) : string :=
  String (hex_digit (b / 16)) (String (hex_digit (b mod 16)) "").

(** [hex.EncodeToString]. *)
Fixpoint hex_EncodeToString (bytes : list N) : string :=
  match bytes with
  | [] => ""
  | b :: rest => (hex_byte b ++ hex_EncodeToString rest)%string
  end.

(** [fmt.Sprintf] of a [%d] with a natural number: the digits, most significant first. *)
Fixpoint decimal_digits (fuel : nat) (n : N) (acc : string) : string :=
  match fuel with
  | O => acc
  | S fuel =>
      let acc := String (ascii_of_N (48 + n mod 10)) acc in
      if (n <? 10)%N then acc else decimal_digits fuel (n / 10) acc
  end.

Definition decimal_N (n : N) : string := decimal_digits (S (N.to_nat (N.log2 n))) n "".

Definition decimal (z : Z) : string :=
  if z <? 0 then String "-"%char (decimal_N (Z.to_N (- z))) else decimal_N (Z.to_N z).

(** ** [json.Valid]

    The scanner of [encoding/json]: one state per step function of the scanner, and the stack of
    enclosing objects and arrays, of which at most [maxNestingDepth] may be open. *)

Module Json.

Inductive context := ParseObjectKey | ParseObjectValue | ParseArrayValue.

Inductive state :=
  | BeginValue
  | BeginValueOrEmpty
  | BeginStringOrEmpty
  | BeginString
  | EndValue
  | EndTop
  | InString
  | InStringEsc
  | InStringEscU (remaining : nat)
  | Neg
  | One
  | Zero
  | Dot
  | Dot0
  | E
  | ESign
  | E0
  | Literal (rest : list N).

Definition maxNestingDepth : Z := 10000.

Definition is_space (c : N) : bool := N.eqb c 32 || N.eqb c 9 || N.eqb c 13 || N.eqb c 10.
Definition is_digit (c : N) : bool := N.leb 48 c && N.leb c 57.
Definition is_digit19 (c : N) : bool := N.leb 49 c && N.leb c 57.
Definition is_hex (c : N) : bool :=
  is_digit c || (N.leb 97 c && N.leb c 102) || (N.leb 65 c && N.leb c 70).

Definition step_result := option (state * list context).

Definition push (s : state) (c : context) (stack : list context) : step_result :=
  if Z.of_nat (length stack) <? maxNestingDepth then Some (s, c :: stack) else None.

(** [popParseState]: the state after an enclosing object or array closes. *)
Definition pop (stack : list context) : step_result :=
  match stack with
  | _ :: ((_ :: _) as rest) => Some (EndValue, rest)
  | _ => Some (EndTop, [])
  end.

(** [stateEndValue], entered after a complete value with the stack of its enclosing contexts. *)
Definition end_value (stack : list context) (c : N) : step_result :=
  match stack with
  | [] => if is_space c then Some (EndTop, []) else None
  | top :: rest =>
      if is_space c then Some (EndValue, stack) else
      match top with
      | ParseObjectKey =>
          if N.eqb c 58 then Some (BeginValue, ParseObjectValue :: rest) else None
      | ParseObjectValue =>
          if N.eqb c 44 then Some (BeginString, ParseObjectKey :: rest)
          else if N.eqb c 125 then pop stack else None
      | ParseArrayValue =>
          if N.eqb c 44 then Some (BeginValue, stack)
          else if N.eqb c 93 then pop stack else None
      end
  end.

Definition begin_value (stack : list context) (c : N) : step_result :=
  if is_space c then Some (BeginValue, stack)
  else if N.eqb c 123 then push BeginStringOrEmpty ParseObjectKey stack
  else if N.eqb c 91 then push BeginValueOrEmpty ParseArrayValue stack
  else if N.eqb c 34 then Some (InString, stack)
  else if N.eqb c 45 then Some (Neg, stack)
  else if N.eqb c 48 then Some (Zero, stack)
  else if N.eqb c 116 then Some (Literal [114; 117; 101]%N, stack)
  else if N.eqb c 102 then Some (Literal [97; 108; 115; 101]%N, stack)
  else if N.eqb c 110 then Some (Literal [117; 108; 108]%N, stack)
  else if is_digit19 c then Some (One, stack)
  else None.

Definition begin_string (stack : list context) (c : N) : step_result :=
  if is_space c then Some (BeginString, stack)
  else if N.eqb c 34 then Some (InString, stack) else None.

Definition after_zero (stack : list context) (c : N) : step_result :=
  if N.eqb c 46 then Some (Dot, stack)
  else if N.eqb c 101 || N.eqb c 69 then Some (E, stack)
  else end_value stack c.

Definition step (s : state) (stack : list context) (c : N) : step_result :=
  match s with
  | BeginValue => begin_value stack c
  | BeginValueOrEmpty =>
      if is_space c then Some (BeginValueOrEmpty, stack)
      else if N.eqb c 93 then end_value stack c else begin_value stack c
  | BeginStringOrEmpty =>
      if is_space c then Some (BeginStringOrEmpty, stack)
      else if N.eqb c 125 then
        match stack with
        | _ :: rest => end_value (ParseObjectValue :: rest) c
        | [] => None
        end
      else begin_string stack c
  | BeginString => begin_string stack c
  | EndValue => end_value stack c
  | EndTop => if is_space c then Some (EndTop, stack) else None
  | InString =>
      if N.eqb c 34 then Some (EndValue, stack)
      else if N.eqb c 92 then Some (InStringEsc, stack)
      else if N.ltb c 32 then None else Some (InString, stack)
  | InStringEsc =>
      if N.eqb c 98 || N.eqb c 102 || N.eqb c 110 || N.eqb c 114 || N.eqb c 116 ||
         N.eqb c 92 || N.eqb c 47 || N.eqb c 34
      then Some (InString, stack)
      else if N.eqb c 117 then Some (InStringEscU 3, stack) else None
  | InStringEscU n =>
      if is_hex c
      then Some (match n with O => InString | S n => InStringEscU n end, stack)
      else None
  | Neg =>
      if N.eqb c 48 then Some (Zero, stack)
      else if is_digit19 c then Some (One, stack) else None
  | One => if is_digit c then Some (One, stack) else after_zero stack c
  | Zero => after_zero stack c
  | Dot => if is_digit c then Some (Dot0, stack) else None
  | Dot0 =>
      if is_digit c then Some (Dot0, stack)
      else if N.eqb c 101 || N.eqb c 69 then Some (E, stack) else end_value stack c
  | E =>
      if N.eqb c 43 || N.eqb c 45 then Some (ESign, stack)
      else if is_digit c then Some (E0, stack) else None
  | ESign => if is_digit c then Some (E0, stack) else None
  | E0 => if is_digit c then Some (E0, stack) else end_value stack c
  | Literal [] => end_value stack c
  | Literal (x :: rest) =>
      if N.eqb c x
      then Some (match rest with [] => EndValue | _ => Literal rest end, stack)
      else None
  end.

Fixpoint scan (s : state) (stack : list context) (bytes : string) : step_result :=
  match bytes with
  | EmptyString => Some (s, stack)
  | String c rest =>
      match step s stack (byte c) with
      | Some (s', stack') => scan s' stack' rest
      | None => None
      end
  end.

(** At the end of the input the scanner feeds one space and asks for the end of the top value. *)
Definition Valid (data : string) : bool :=
  match scan BeginValue [] data with
  | Some (EndTop, _) => true
  | Some (s, stack) =>
      match step s stack 32 with Some (EndTop, _) => true | _ => false end
  | None => false
  end.

End Json.

Abbreviation json_Valid := Json.Valid.

Example json_object : json_Valid (String "{" (String "034" "a" ++ String "034" ":[1,-2.5e3,null,{}]}"))%string = true.
Proof. vm_compute. reflexivity. Qed.

Example json_bad : (json_Valid "", json_Valid "01", json_Valid "[1,]", json_Valid "tru", json_Valid " 0 ") =
  (false, false, false, false, true).
Proof. vm_compute. reflexivity. Qed.

Example trim_example :
  (TrimSpace "  a b
 ", blank " 	 ", blank (String "194" (String "160" ""))) = ("a b", true, true).
Proof. vm_compute. reflexivity. Qed.

(** ** [TrimSpace] is idempotent *)

Lemma trim_front_drop count fuel s : ∃ k, trim_front count fuel s = drop k s.
Proof.
  revert s. induction fuel as [|fuel IH]; intros s; simpl; [by exists 0%nat|].
  destruct (count _) as [|n]; [by exists 0%nat|]. destruct (IH (drop (S n) s)) as [k ->].
  rewrite drop_drop. eauto.
Qed.

Lemma trim_front_stop count fuel s :
  count [] = 0%nat → (length s ≤ fuel)%nat → count (byte <$> take 3 (trim_front count fuel s)) = 0%nat.
Proof.
  intros H0. revert s. induction fuel as [|fuel IH]; intros s Hf.
  { assert (s = []) as -> by (apply length_zero_iff_nil; lia). done. }
  simpl. destruct (count (byte <$> take 3 s)) as [|n] eqn:E; [done|]. apply IH. rewrite length_drop.
  destruct s; [|simpl in *; lia]. simpl in E. congruence.
Qed.

Lemma trim_front_fix count fuel s : count (byte <$> take 3 s) = 0%nat → trim_front count fuel s = s.
Proof. intros H. destruct fuel as [|fuel]; [done|]. simpl. by rewrite H. Qed.

(** A shorter string has no space rune at its front that the longer one does not have. *)
Lemma space_prefix_take j l : space_prefix l = 0%nat → space_prefix (take j l) = 0%nat.
Proof.
  destruct j as [|[|[|j]]], l as [|a [|b [|c l]]]; simpl; try done;
    destruct (space1 a); try done; destruct (space2 a b); done.
Qed.

Lemma TrimSpace_idem s : TrimSpace (TrimSpace s) = TrimSpace s.
Proof.
  unfold TrimSpace at 2 3.
  set (bytes := String.list_ascii_of_string s). set (front := trim_front space_prefix (length bytes) bytes).
  set (back := trim_front space_suffix (length front) (reverse front)).
  assert (space_prefix (byte <$> take 3 front) = 0%nat) as Hfront by (by apply trim_front_stop).
  assert (space_suffix (byte <$> take 3 back) = 0%nat) as Hback
    by (apply trim_front_stop; [done|rewrite length_reverse; lia]).
  assert (space_prefix (byte <$> take 3 (reverse back)) = 0%nat) as Hrev.
  { destruct (trim_front_drop space_suffix (length front) (reverse front)) as [k Hk]. fold back in Hk.
    rewrite Hk, reverse_drop, reverse_involutive, length_reverse, take_take.
    rewrite Nat.min_comm, <-take_take, fmap_take. by apply space_prefix_take. }
  unfold TrimSpace. rewrite String.list_ascii_of_string_of_list_ascii.
  rewrite (trim_front_fix space_prefix _ _ Hrev), reverse_involutive, (trim_front_fix space_suffix _ _ Hback). done.
Qed.

(** ** UTF-8 as Go reads it, [unicode/utf8]: a byte that does not start a well-formed sequence is one [RuneError]. *)

Module Utf8.
Abbreviation rune := Z (only parsing).

Definition RuneError : rune := 65533.

(** [utf8.RuneStart]. *)
Definition RuneStart (b : N) : bool := negb (N.eqb (N.land b 192) 128).

Definition continuation (b : N) : bool := N.leb 128 b && N.leb b 191.

Definition low6 (b : N) : Z := Z.of_N (N.land b 63).

(** The range of the second byte of a sequence of three or four bytes. *)
Definition second_ok (a b : N) : bool :=
  if N.eqb a 224 then N.leb 160 b && N.leb b 191
  else if N.eqb a 237 then N.leb 128 b && N.leb b 159
  else if N.eqb a 240 then N.leb 144 b && N.leb b 191
  else if N.eqb a 244 then N.leb 128 b && N.leb b 143
  else continuation b.

(** [utf8.DecodeRune] of a text that is not empty: the rune and its width. *)
Definition DecodeRune (s : list N) : rune * nat :=
  match s with
  | [] => (RuneError, 0%nat)
  | a :: rest =>
      if N.ltb a 128 then (Z.of_N a, 1%nat)
      else if N.leb 194 a && N.leb a 223 then
        match rest with
        | b :: _ => if continuation b then (Z.of_N (N.land a 31) * 64 + low6 b, 2%nat) else (RuneError, 1%nat)
        | _ => (RuneError, 1%nat)
        end
      else if N.leb 224 a && N.leb a 239 then
        match rest with
        | b :: c :: _ =>
            if second_ok a b && continuation c then (Z.of_N (N.land a 15) * 4096 + low6 b * 64 + low6 c, 3%nat) else (RuneError, 1%nat)
        | _ => (RuneError, 1%nat)
        end
      else if N.leb 240 a && N.leb a 244 then
        match rest with
        | b :: c :: d :: _ =>
            if second_ok a b && continuation c && continuation d
            then (Z.of_N (N.land a 7) * 262144 + low6 b * 4096 + low6 c * 64 + low6 d, 4%nat) else (RuneError, 1%nat)
        | _ => (RuneError, 1%nat)
        end
      else (RuneError, 1%nat)
  end.

Fixpoint decode_runes (fuel : nat) (s : list N) : list rune :=
  match fuel, s with
  | _, [] => []
  | O, _ => []
  | S fuel, _ => let '(r, width) := DecodeRune s in r :: decode_runes fuel (drop width s)
  end.

(** [[]rune(s)]; every rune takes at least one byte. *)
Definition runes (s : string) : list rune :=
  let bytes := byte <$> String.list_ascii_of_string s in decode_runes (length bytes) bytes.

Lemma DecodeRune_width s : s ≠ [] → (1 ≤ (DecodeRune s).2 ≤ 4)%nat ∧ ((DecodeRune s).2 ≤ length s)%nat.
Proof.
  destruct s as [|a [|b [|c [|d rest]]]]; intros Hne; [done|..]; cbn; repeat case_match; cbn; lia.
Qed.

Lemma decode_runes_fuel fuel s : (length s ≤ fuel)%nat → decode_runes fuel s = decode_runes (length s) s.
Proof.
  assert (∀ n fuel s, (length s ≤ n)%nat → (length s ≤ fuel)%nat → decode_runes fuel s = decode_runes (length s) s) as H; [|by apply (H (length s))].
  intros n. induction n as [|n IH]; intros f t Hn Hf; destruct t as [|a t]; [by destruct f|cbn in Hn; lia|by destruct f|].
  destruct f as [|f]; [cbn in Hf; lia|]. cbn [decode_runes length].
  destruct (DecodeRune (a :: t)) as [r width] eqn:Hd. pose proof (DecodeRune_width (a :: t) ltac:(done)) as [[H1 _] _]. rewrite Hd in H1. cbn in H1.
  assert (length (drop width (a :: t)) ≤ length t)%nat by (rewrite length_drop; cbn; lia). cbn in Hn, Hf.
  f_equal. rewrite (IH f) by lia. symmetry. rewrite (IH (length t)) by lia. done.
Qed.

Lemma runes_ascii s : Forall (λ b, (b < 128)%N) (byte <$> String.list_ascii_of_string s) →
  runes s = Z.of_N <$> (byte <$> String.list_ascii_of_string s).
Proof.
  unfold runes. generalize (byte <$> String.list_ascii_of_string s). intros l Hl. induction Hl as [|b l Hb Hl IH]; [done|].
  cbn [length decode_runes DecodeRune]. rewrite (proj2 (N.ltb_lt _ _) Hb). cbn. by f_equal.
Qed.

Example runes_euro : runes (String (ascii_of_N 226) (String (ascii_of_N 130) (String (ascii_of_N 172) "a"))) = [8364; 97].
Proof. by vm_compute. Qed.

Example runes_broken : runes (String (ascii_of_N 226) (String (ascii_of_N 130) "a")) = [RuneError; RuneError; 97].
Proof. by vm_compute. Qed.

End Utf8.

