(* ===== verification/Names.v ===== *)
(** Names and identities of the shared kernel: resource names and manifests of [sdk/plugin.go] and
    the identifiers of [sdk/id.go]. *)

From S2P Require Import Prelude GoText.

(** ** Resource names *)

Definition alnum (c : ascii) : bool :=
  let n := byte c in
  (N.leb 65 n && N.leb n 90) || (N.leb 97 n && N.leb n 122) || (N.leb 48 n && N.leb n 57).

Definition name_char (c : ascii) : bool :=
  let n := byte c in alnum c || N.eqb n 46 || N.eqb n 95 || N.eqb n 45.

Fixpoint string_forallb (f : ascii → bool) (s : string) : bool :=
  match s with EmptyString => true | String c rest => f c && string_forallb f rest end.

(** The pattern [^[A-Za-z0-9][A-Za-z0-9._-]{0,127}$]. *)
Definition resourceNamePattern (name : string) : bool :=
  match name with
  | EmptyString => false
  | String c rest => alnum c && string_forallb name_char rest && (String.length rest <=? 127)%nat
  end.

Definition ValidateResourceName (kind name : string) : result unit :=
  if negb (resourceNamePattern name)
  then Err (Errorf "%s name %q must match %s" [AStr kind; AStr name])
  else Ok tt.

(** ** Identifiers

    [rand.Read] either fills sixteen bytes or fails; the fallback prints the wall clock. *)

Record entropy := {
  rand_bytes : option (list N);
  unix_nano : Z;
}.

Definition entropy_ok (e : entropy) : Prop :=
  match rand_bytes e with
  | Some raw => length raw = 16%nat ∧ Forall (λ b, b < 256)%N raw
  | None => True
  end.

Definition NewID (e : entropy) : string :=
  match rand_bytes e with
  | None => decimal (unix_nano e)
  | Some raw => hex_EncodeToString raw
  end.

(** ** Manifests *)

Definition APIVersion : Z := 1.

Record Manifest := {
  mf_Name : string;
  mf_Version : string;
  mf_Description : string;
  mf_APIVersion : Z;
  mf_MinAPIVersion : Z;
  mf_MaxAPIVersion : Z;
  mf_Requires : list string;
  mf_Conflicts : list string;
  mf_Registers : list string;
}.

Definition APIRange (manifest : Manifest) : Z * Z :=
  let minimum := if negb (mf_MinAPIVersion manifest =? 0)
                 then mf_MinAPIVersion manifest else mf_APIVersion manifest in
  let maximum := if negb (mf_MaxAPIVersion manifest =? 0)
                 then mf_MaxAPIVersion manifest else mf_APIVersion manifest in
  (minimum, maximum).

Fixpoint validateUniqueStrings_loop (owner : string) (seen : gset string) (values : list string) : result unit :=
  match values with
  | [] => Ok tt
  | value :: rest =>
      fail_if blank value with Errorf "plugin %q contains an empty resource reference" [AStr owner];
      fail_if bool_decide (value ∈ seen) with
        Errorf "plugin %q contains duplicate resource reference %q" [AStr owner; AStr value];
      validateUniqueStrings_loop owner ({[value]} ∪ seen) rest
  end.

Definition validateUniqueStrings (owner : string) (values : list string) : result unit :=
  validateUniqueStrings_loop owner ∅ values.

Definition Manifest_Validate (manifest : Manifest) : result unit :=
  try? ValidateResourceName "plugin" (mf_Name manifest);
  fail_if blank (mf_Version manifest) with errors_New "plugin version is empty";
  fail_if blank (mf_Description manifest) with errors_New "plugin description is empty";
  let '(minimum, maximum) := APIRange manifest in
  fail_if (minimum <? 1) || (maximum <? minimum) with
    Errorf "plugin %q has invalid API version range %d..%d"
      [AStr (mf_Name manifest); ANum minimum; ANum maximum];
  fail_if (APIVersion <? minimum) || (APIVersion >? maximum) with
    Errorf "plugin %q API versions %d..%d are incompatible with SDK API version %d"
      [AStr (mf_Name manifest); ANum minimum; ANum maximum; ANum APIVersion];
  validateUniqueStrings (mf_Name manifest)
    (mf_Registers manifest ++ mf_Requires manifest ++ mf_Conflicts manifest).

(** ** Lemmas *)

Definition valid_name (name : string) : Prop := resourceNamePattern name = true.

Lemma ValidateResourceName_Ok kind name u :
  ValidateResourceName kind name = Ok u ↔ valid_name name.
Proof.
  unfold ValidateResourceName, valid_name. destruct u.
  destruct (resourceNamePattern name); simpl; split; congruence.
Qed.

Lemma valid_name_nonempty name : valid_name name → name ≠ "".
Proof. unfold valid_name. by destruct name. Qed.

Lemma string_forallb_app f a b :
  string_forallb f (a ++ b) = string_forallb f a && string_forallb f b.
Proof. induction a as [|c a IH]; [done|]. simpl. by rewrite IH, andb_assoc. Qed.

Lemma hex_digit_alnum n : (n < 16)%N → alnum (hex_digit n) = true.
Proof.
  intros Hn. assert (n ∈ (N.of_nat <$> seq 0 16)) as Hin.
  { apply list_elem_of_fmap. exists (N.to_nat n). rewrite N2Nat.id, elem_of_seq. lia. }
  assert (Forall (λ k, alnum (hex_digit k) = true) (N.of_nat <$> seq 0 16)) as Hall
    by (vm_compute; repeat constructor).
  by rewrite Forall_forall in Hall; apply Hall.
Qed.

Lemma alnum_name_char c : alnum c = true → name_char c = true.
Proof. unfold name_char. by intros ->. Qed.

Lemma hex_EncodeToString_chars raw :
  Forall (λ b, b < 256)%N raw → string_forallb alnum (hex_EncodeToString raw) = true.
Proof.
  induction 1 as [|b raw Hb _ IH]; [done|].
  cbn [hex_EncodeToString]. rewrite string_forallb_app, IH, andb_true_r.
  cbn [hex_byte string_forallb]. rewrite !hex_digit_alnum; [done| |].
  - apply N.mod_lt. lia.
  - apply N.Div0.div_lt_upper_bound. lia.
Qed.

Lemma hex_EncodeToString_length raw :
  String.length (hex_EncodeToString raw) = (2 * length raw)%nat.
Proof.
  induction raw as [|b raw IH]; [done|].
  cbn [hex_EncodeToString length].
  change (S (S (String.length (hex_EncodeToString raw))) = (2 * S (length raw))%nat). lia.
Qed.

Lemma string_forallb_impl (f g : ascii → bool) s :
  (∀ c, f c = true → g c = true) → string_forallb f s = true → string_forallb g s = true.
Proof.
  intros Hfg. induction s as [|c s IH]; [done|]. simpl. rewrite !andb_true_iff. naive_solver.
Qed.

Lemma NewID_length e raw :
  entropy_ok e → rand_bytes e = Some raw → String.length (NewID e) = 32%nat.
Proof.
  unfold entropy_ok, NewID. intros Hok Hr. rewrite Hr in *.
  rewrite hex_EncodeToString_length. destruct Hok as [-> _]. done.
Qed.

Lemma decimal_digits_nonempty fuel n acc : acc ≠ "" → decimal_digits fuel n acc ≠ "".
Proof.
  revert n acc. induction fuel as [|fuel IH]; intros n acc Hacc; [done|].
  simpl. case_match; [done|]. by apply IH.
Qed.

Lemma decimal_nonempty z : decimal z ≠ "".
Proof.
  unfold decimal, decimal_N. case_match; [done|]. simpl. case_match; [done|].
  by apply decimal_digits_nonempty.
Qed.

Lemma NewID_nonempty e : entropy_ok e → NewID e ≠ "".
Proof.
  intros Hok. destruct (rand_bytes e) as [raw|] eqn:Hr.
  - intros Hz. pose proof (NewID_length e raw Hok Hr) as Hl. by rewrite Hz in Hl.
  - unfold NewID. rewrite Hr. apply decimal_nonempty.
Qed.

Lemma NewID_valid e raw :
  entropy_ok e → rand_bytes e = Some raw → valid_name (NewID e).
Proof.
  intros Hok Hr. pose proof (NewID_length e raw Hok Hr) as Hl. revert Hl.
  unfold entropy_ok in Hok. unfold NewID, valid_name. rewrite Hr in *.
  destruct Hok as [_ Hb]. pose proof (hex_EncodeToString_chars _ Hb) as Hc. revert Hc.
  destruct (hex_EncodeToString raw) as [|c s]; [done|]. simpl.
  rewrite andb_true_iff. intros [-> Hs] Hl.
  rewrite (string_forallb_impl _ _ _ alnum_name_char Hs). simpl. apply Nat.leb_le. lia.
Qed.

(** A concrete random source for the examples. *)
Definition ex_entropy (b : N) : entropy := {| rand_bytes := Some (replicate 16 b); unix_nano := 0 |}.

Lemma ex_entropy_ok b : (b < 256)%N → entropy_ok (ex_entropy b).
Proof. intros H. split; [done|]. by apply Forall_replicate. Qed.

(** ** Composite keys

    Names joined by NUL bytes can be told apart, since a valid name contains none. *)

Definition NUL : string := String "000"%char "".

Definition no_NUL (s : string) : bool := string_forallb (λ c, negb (Ascii.eqb c "000")) s.

Lemma NUL_split a a' b b' :
  no_NUL a = true → no_NUL a' = true → (a ++ NUL ++ b = a' ++ NUL ++ b')%string → a = a' ∧ b = b'.
Proof.
  revert a'. induction a as [|x a IH]; intros [|y a'] Ha Ha' H.
  - injection H as H. done.
  - injection H as <- H. simpl in Ha'. done.
  - injection H as -> H. simpl in Ha. done.
  - injection H as -> H. unfold no_NUL in *. simpl in Ha, Ha'. gobool.
    destruct (IH a') as [-> ->]; tauto.
Qed.

Lemma name_char_no_NUL c : name_char c = true → negb (Ascii.eqb c "000") = true.
Proof. destruct (Ascii.eqb_spec c "000") as [->|]; [vm_compute|]; done. Qed.

Lemma valid_name_no_NUL s : valid_name s → no_NUL s = true.
Proof.
  unfold valid_name, no_NUL. destruct s as [|c s]; [done|]. simpl. gobool.
  intros [[Hc Hs] _]. split.
  - apply negb_true_iff, name_char_no_NUL. by apply alnum_name_char.
  - by apply (string_forallb_impl name_char); [apply name_char_no_NUL|].
Qed.

(** A valid name has no space around it. *)
Lemma name_char_byte c : name_char c = true → space1 (byte c) = false ∧ (byte c < 128)%N.
Proof. destruct c as [[] [] [] [] [] [] [] []]; vm_compute; intros H; split; first [done|discriminate H]. Qed.

Lemma name_no_space (l : list N) :
  (∀ b, b ∈ l → space1 b = false ∧ (b < 128)%N) → space_prefix l = 0%nat ∧ space_suffix l = 0%nat.
Proof.
  intros H. assert (∀ b, (b < 128)%N → ∀ x y, space2 b x = false ∧ space3 b x y = false) as Hb.
  { intros b Hb x y. unfold space2, space3.
    rewrite (proj2 (N.eqb_neq b 194)), (proj2 (N.eqb_neq b 225)), (proj2 (N.eqb_neq b 226)), (proj2 (N.eqb_neq b 227)) by lia.
    done. }
  destruct l as [|a [|b [|c l]]]; simpl; [done|..].
  all: repeat match goal with |- context [space1 ?x] =>
         rewrite (proj1 (H x ltac:(set_solver))) end.
  - done.
  - rewrite (proj1 (Hb a (proj2 (H a ltac:(set_solver))) b 0%N)), (proj1 (Hb b (proj2 (H b ltac:(set_solver))) a 0%N)). done.
  - destruct (Hb a (proj2 (H a ltac:(set_solver))) b c) as [-> ->].
    destruct (Hb b (proj2 (H b ltac:(set_solver))) a 0%N) as [-> _].
    destruct (Hb c (proj2 (H c ltac:(set_solver))) b a) as [_ ->]. done.
Qed.

Lemma TrimSpace_name name : valid_name name → TrimSpace name = name.
Proof.
  intros Hv. assert (∀ c, c ∈ String.list_ascii_of_string name → name_char c = true) as Hc.
  { unfold valid_name in Hv. destruct name as [|c0 s]; [done|]. simpl in Hv. gobool. destruct Hv as [[H0 Hs] _].
    intros c [->|Hin]%elem_of_cons; [by apply alnum_name_char|].
    revert Hs Hin. induction s as [|c1 s IH]; simpl; [by intros _ ?%not_elem_of_nil|]. gobool.
    intros [H1 Hs] [->|Hin]%elem_of_cons; [done|by apply IH]. }
  assert (∀ l, (∀ c, c ∈ l → name_char c = true) → ∀ b, b ∈ byte <$> take 3 l → space1 b = false ∧ (b < 128)%N) as Hl.
  { intros l Hl b (c & -> & Hin)%list_elem_of_fmap. apply name_char_byte, Hl.
    rewrite <-(take_drop 3 l). apply elem_of_app. by left. }
  unfold TrimSpace. rewrite (trim_front_fix space_prefix) by (apply name_no_space, Hl, Hc).
  rewrite (trim_front_fix space_suffix) by (apply name_no_space, Hl; intros c; rewrite elem_of_reverse; apply Hc).
  rewrite reverse_involutive. apply String.string_of_list_ascii_of_string.
Qed.
