(* ===== verification/Invocation.v ===== *)
(** Invocations of [sdk/invocation.go]: the coordinates of one node of an invocation graph and
    their validation. *)

From S2P Require Import Prelude GoText Names.

Record Invocation := {
  inv_ID : string;
  inv_RootID : string;
  inv_ParentID : string;
  inv_GroupID : string;
  inv_SessionID : string;
  inv_TargetSessionID : string;
  inv_ExecutionID : string;
  inv_Dependencies : list string;
  inv_Ordinal : Z;
}.

#[export] Instance Invocation_eq_dec : EqDecision Invocation.
Proof. solve_decision. Defined.

Definition zeroInvocation : Invocation :=
  {| inv_ID := ""; inv_RootID := ""; inv_ParentID := ""; inv_GroupID := ""; inv_SessionID := "";
     inv_TargetSessionID := ""; inv_ExecutionID := ""; inv_Dependencies := []; inv_Ordinal := 0 |}.

Definition Invocation_Empty (invocation : Invocation) : bool :=
  is_empty (inv_ID invocation) &&
  is_empty (inv_RootID invocation) &&
  is_empty (inv_ParentID invocation) &&
  is_empty (inv_GroupID invocation) &&
  is_empty (inv_SessionID invocation) &&
  is_empty (inv_TargetSessionID invocation) &&
  is_empty (inv_ExecutionID invocation) &&
  (length (inv_Dependencies invocation) =? 0)%nat &&
  (inv_Ordinal invocation =? 0).

(** The loop over the required fields. *)
Fixpoint validate_required (fields : list (string * string)) : result unit :=
  match fields with
  | [] => Ok tt
  | (kind, value) :: rest =>
      fail_if is_empty value with Errorf "%s is empty" [AStr kind];
      try? ValidateResourceName kind value;
      validate_required rest
  end.

(** The loop over the optional fields. *)
Fixpoint validate_optional (fields : list (string * string)) : result unit :=
  match fields with
  | [] => Ok tt
  | (kind, value) :: rest =>
      try? (if negb (is_empty value) then ValidateResourceName kind value else Ok tt);
      validate_optional rest
  end.

Fixpoint validate_dependencies (id : string) (seen : gset string) (dependencies : list string) : result unit :=
  match dependencies with
  | [] => Ok tt
  | dependency :: rest =>
      try? ValidateResourceName "invocation dependency" dependency;
      fail_if bool_decide (dependency = id) with
        Errorf "invocation %q cannot depend on itself" [AStr id];
      fail_if bool_decide (dependency ∈ seen) with
        Errorf "invocation %q contains duplicate dependency %q" [AStr id; AStr dependency];
      validate_dependencies id ({[dependency]} ∪ seen) rest
  end.

Definition ValidateInvocation (invocation : Invocation) : result unit :=
  if Invocation_Empty invocation then Ok tt else
  fail_if is_empty (inv_ID invocation) with errors_New "invocation ID is empty";
  try? validate_required
    [("invocation", inv_ID invocation);
     ("invocation root", inv_RootID invocation);
     ("invocation session", inv_SessionID invocation);
     ("invocation execution", inv_ExecutionID invocation)];
  try? validate_optional
    [("invocation parent", inv_ParentID invocation);
     ("invocation group", inv_GroupID invocation);
     ("invocation target session", inv_TargetSessionID invocation)];
  validate_dependencies (inv_ID invocation) ∅ (inv_Dependencies invocation).

(** ** Lemmas *)

Lemma validate_dependencies_Ok id seen deps u :
  validate_dependencies id seen deps = Ok u ↔
  Forall valid_name deps ∧ id ∉ deps ∧ NoDup deps ∧ (∀ d, d ∈ deps → d ∉ seen).
Proof.
  revert seen. induction deps as [|d deps IH]; intros seen; simpl; destruct u.
  - split; [|done]. intros _. split_and!; [constructor|set_solver|constructor|set_solver].
  - rewrite bind_Ok. setoid_rewrite ValidateResourceName_Ok.
    rewrite Forall_cons, NoDup_cons. split.
    + intros ([] & Hn & H). inv_ok. gobool. apply IH in H. set_solver.
    + intros ((? & ?) & ? & (? & ?) & Hs). exists tt. split; [done|].
      rewrite bool_decide_eq_false_2 by set_solver.
      rewrite bool_decide_eq_false_2 by set_solver. apply IH. set_solver.
Qed.

(** An accepted non-empty invocation has valid coordinates and distinct dependencies, none of them
    the node itself. *)
Lemma ValidateInvocation_Ok i u :
  ValidateInvocation i = Ok u → Invocation_Empty i = false →
  valid_name (inv_ID i) ∧ valid_name (inv_RootID i) ∧ valid_name (inv_SessionID i) ∧
  valid_name (inv_ExecutionID i) ∧ Forall valid_name (inv_Dependencies i) ∧
  inv_ID i ∉ inv_Dependencies i ∧ NoDup (inv_Dependencies i).
Proof.
  unfold ValidateInvocation. intros H He. rewrite He in H. simpl in H. inv_ok.
  rewrite validate_dependencies_Ok in H.
  repeat match goal with
  | H : ValidateResourceName _ _ = Ok _ |- _ => apply ValidateResourceName_Ok in H
  end. naive_solver.
Qed.
