(* ===== verification/Operation.v ===== *)
(** Operations: the aggregate of [sdk/operation.go] and its lifecycle rules in
    [sdk/storage/internal/operationmodel/model.go].  Every rule is a function from a record to the
    next record or an error; [wall] is the value of [time.Now()] and [e] the randomness of the
    [sdk.NewID()] a rule draws. *)

From S2P Require Import Prelude GoText Names Invocation.

(** ** Data *)

(** [Other] stands for every string that is none of the named constants. *)
Inductive OperationKind :=
  | OperationKindProvider
  | OperationKindTool
  | OperationKindAgent
  | OperationKindWorkflow
  | OperationKindCapability
  | OperationKindOther (text : string).

Inductive OperationState :=
  | OperationPending
  | OperationRunning
  | OperationSucceeded
  | OperationFailed
  | OperationCancelled
  | OperationStateOther (text : string).

Record Operation := {
  op_ID : string;
  op_IdempotencyKey : string;
  op_State : OperationState;
  op_Revision : Z;
  op_Output : string;
  op_Error : string;
  op_SubmittedAt : time;
  op_UpdatedAt : time;
}.

Record OperationLease := {
  ol_Owner : string;
  ol_Token : string;
  ol_ExpiresAt : time;
}.

Record OperationRecord := {
  or_Operation : Operation;
  or_Kind : OperationKind;
  or_Resource : string;
  or_ResourceRevision : string;
  or_Input : string;
  or_Invocation : Invocation;
  or_Execution : option OperationLease;
}.

#[export] Instance OperationKind_eq_dec : EqDecision OperationKind.
Proof. solve_decision. Defined.
#[export] Instance OperationState_eq_dec : EqDecision OperationState.
Proof. solve_decision. Defined.
#[export] Instance Operation_eq_dec : EqDecision Operation.
Proof. solve_decision. Defined.
#[export] Instance OperationLease_eq_dec : EqDecision OperationLease.
Proof. solve_decision. Defined.
#[export] Instance OperationRecord_eq_dec : EqDecision OperationRecord.
Proof. solve_decision. Defined.

Definition kind_text (kind : OperationKind) : string :=
  match kind with
  | OperationKindProvider => "provider"
  | OperationKindTool => "tool"
  | OperationKindAgent => "agent"
  | OperationKindWorkflow => "workflow"
  | OperationKindCapability => "capability"
  | OperationKindOther text => text
  end.

Definition state_text (state : OperationState) : string :=
  match state with
  | OperationPending => "pending"
  | OperationRunning => "running"
  | OperationSucceeded => "succeeded"
  | OperationFailed => "failed"
  | OperationCancelled => "cancelled"
  | OperationStateOther text => text
  end.

(** ** [sdk/operation.go] *)

Definition state_terminal (state : OperationState) : bool :=
  match state with
  | OperationSucceeded | OperationFailed | OperationCancelled => true
  | _ => false
  end.

Definition Operation_Terminal (operation : Operation) : bool := state_terminal (op_State operation).

Definition ValidateOperationTransition (current next : OperationState) : result unit :=
  let invalid := Err (Errorf "invalid operation transition %q -> %q"
                        [AStr (state_text current); AStr (state_text next)]) in
  match current with
  | OperationPending | OperationRunning =>
      match next with
      | OperationRunning | OperationSucceeded | OperationFailed | OperationCancelled => Ok tt
      | _ => invalid
      end
  | OperationSucceeded | OperationFailed | OperationCancelled =>
      Err (Errorf "terminal operation in state %q cannot transition" [AStr (state_text current)])
  | OperationStateOther _ => invalid
  end.

Definition ValidateOperation (operation : Operation) : result unit :=
  let id := AStr (op_ID operation) in
  fail_if is_empty (op_ID operation) with errors_New "operation ID is empty";
  fail_if is_empty (op_IdempotencyKey operation) with
    Errorf "operation %q idempotency key is empty" [id];
  fail_if op_Revision operation =? 0 with Errorf "operation %q revision must be positive" [id];
  match op_State operation with
  | OperationPending | OperationRunning =>
      fail_if negb (is_empty (op_Output operation)) || negb (is_empty (op_Error operation)) with
        Errorf "unfinished operation %q contains a result" [id];
      Ok tt
  | OperationSucceeded =>
      fail_if negb (json_Valid (op_Output operation)) with
        Errorf "operation %q output is invalid JSON" [id];
      fail_if negb (is_empty (op_Error operation)) with
        Errorf "succeeded operation %q contains an error" [id];
      Ok tt
  | OperationFailed =>
      fail_if is_empty (op_Error operation) with Errorf "failed operation %q has no error" [id];
      Ok tt
  | OperationCancelled => Ok tt
  | OperationStateOther text => Err (Errorf "operation %q has invalid state %q" [id; AStr text])
  end.

Definition ValidateOperationProgress (current next : Operation) : result unit :=
  let id := AStr (op_ID current) in
  try? ValidateOperation current;
  try? ValidateOperation next;
  fail_if negb (bool_decide (op_ID next = op_ID current)) with
    Errorf "operation poll returned ID %q, expected %q" [AStr (op_ID next); id];
  fail_if negb (bool_decide (op_IdempotencyKey next = op_IdempotencyKey current)) with
    Errorf "operation %q idempotency key changed during poll" [id];
  fail_if op_Revision next <? op_Revision current with
    Errorf "operation %q revision regressed from %d to %d"
      [id; ANum (op_Revision current); ANum (op_Revision next)];
  if op_Revision next =? op_Revision current then
    fail_if negb (bool_decide (op_State next = op_State current)) with
      Errorf "operation %q changed state without a revision increment" [id];
    fail_if negb (bool_decide (op_Error next = op_Error current)) ||
            negb (bool_decide (op_Output next = op_Output current)) with
      Errorf "operation %q changed result without a revision increment" [id];
    Ok tt
  else
    match ValidateOperationTransition (op_State current) (op_State next) with
    | Err err =>
        Err (Wrapf "invalid operation progress %q -> %q over %d revisions: %w"
               [AStr (state_text (op_State current)); AStr (state_text (op_State next));
                ANum (op_Revision next - op_Revision current)] err)
    | Ok _ => Ok tt
    end.

(** ** [operationmodel] *)

Definition op_NormalizeMutationTime (wall value : time) : time :=
  if IsZero value then wall else value.

Definition op_ValidateNewRecord (record : OperationRecord) : result unit :=
  fail_if is_empty (op_ID (or_Operation record)) with errors_New "operation ID is empty";
  fail_if is_empty (op_IdempotencyKey (or_Operation record)) with
    errors_New "operation idempotency key is empty";
  match or_Kind record with
  | OperationKindOther text => Err (Errorf "invalid operation kind %q" [AStr text])
  | _ =>
      try? ValidateResourceName (kind_text (or_Kind record)) (or_Resource record);
      fail_if negb (json_Valid (or_Input record)) with errors_New "operation input is invalid JSON";
      try? ValidateInvocation (or_Invocation record);
      Ok tt
  end.

(** The record with the operation fields every lifecycle rule rewrites. *)
Definition with_operation (record : OperationRecord) (operation : Operation)
    (execution : option OperationLease) : OperationRecord :=
  {| or_Operation := operation;
     or_Kind := or_Kind record;
     or_Resource := or_Resource record;
     or_ResourceRevision := or_ResourceRevision record;
     or_Input := or_Input record;
     or_Invocation := or_Invocation record;
     or_Execution := execution |}.

(** [State = state; Revision++; Output = output; Error = text; UpdatedAt = now]. *)
Definition advance (operation : Operation) (state : OperationState) (output text : string)
    (now : time) : Operation :=
  {| op_ID := op_ID operation;
     op_IdempotencyKey := op_IdempotencyKey operation;
     op_State := state;
     op_Revision := u64 (op_Revision operation + 1);
     op_Output := output;
     op_Error := text;
     op_SubmittedAt := op_SubmittedAt operation;
     op_UpdatedAt := now |}.

Definition PrepareNewRecord (record : OperationRecord) (now wall : time) (e : entropy) : result OperationRecord :=
  let operation := or_Operation record in
  let id := if is_empty (op_ID operation) then NewID e else op_ID operation in
  let named := with_operation record
    {| op_ID := id; op_IdempotencyKey := op_IdempotencyKey operation;
       op_State := op_State operation; op_Revision := op_Revision operation;
       op_Output := op_Output operation; op_Error := op_Error operation;
       op_SubmittedAt := op_SubmittedAt operation; op_UpdatedAt := op_UpdatedAt operation |}
    (or_Execution record) in
  try? op_ValidateNewRecord named;
  let now := op_NormalizeMutationTime wall now in
  let submittedAt := if IsZero (op_SubmittedAt operation) then now else op_SubmittedAt operation in
  let prepared := with_operation record
    {| op_ID := id; op_IdempotencyKey := op_IdempotencyKey operation;
       op_State := OperationPending; op_Revision := 1; op_Output := ""; op_Error := "";
       op_SubmittedAt := submittedAt; op_UpdatedAt := submittedAt |} None in
  try? ValidateOperation (or_Operation prepared);
  Ok prepared.

Definition op_ValidateLeaseDuration (ttl : duration) : result unit :=
  fail_if ttl <=? 0 with errors_New "operation lease TTL must be positive"; Ok tt.

Definition op_ValidateClaim (owner : string) (ttl : duration) : result unit :=
  fail_if blank owner with errors_New "operation lease owner is empty";
  op_ValidateLeaseDuration ttl.

Definition op_ValidateCompletionState (state : OperationState) : result unit :=
  match state with
  | OperationSucceeded | OperationFailed => Ok tt
  | _ => Err (Errorf "claimed operation cannot complete as %q" [AStr (state_text state)])
  end.

Definition op_ValidateExpectedRevision (record : OperationRecord) (expectedRevision : Z) : result unit :=
  fail_if negb (op_Revision (or_Operation record) =? expectedRevision) with
    Wrapf "%w: operation %s has revision %d, expected %d"
      [AStr (op_ID (or_Operation record)); ANum (op_Revision (or_Operation record));
       ANum expectedRevision] (Sentinel ErrOperationConflict);
  Ok tt.

Definition op_Transition (record : OperationRecord) (expectedRevision : Z) (state : OperationState)
    (output operationError : string) (now wall : time) : result OperationRecord :=
  try? op_ValidateExpectedRevision record expectedRevision;
  try? ValidateOperationTransition (op_State (or_Operation record)) state;
  let now := op_NormalizeMutationTime wall now in
  let next := with_operation record
    (advance (or_Operation record) state output operationError now)
    (if negb (bool_decide (state = OperationRunning)) then None else or_Execution record) in
  try? ValidateOperation (or_Operation next);
  Ok next.

Definition op_Cancel (record : OperationRecord) (expectedRevision : Z) (now wall : time) : result OperationRecord :=
  op_Transition record expectedRevision OperationCancelled "" "" now wall.

Definition op_Fail (record : OperationRecord) (expectedRevision : Z) (operationError : string)
    (now wall : time) : result OperationRecord :=
  op_Transition record expectedRevision OperationFailed "" operationError now wall.

Definition op_Claim (record : OperationRecord) (owner : string) (now : time) (ttl : duration)
    (wall : time) (e : entropy) : result OperationRecord :=
  let operation := or_Operation record in
  try? op_ValidateClaim owner ttl;
  let now := op_NormalizeMutationTime wall now in
  fail_if Operation_Terminal operation with
    Errorf "terminal operation %q cannot be claimed" [AStr (op_ID operation)];
  let claimed := with_operation record
    (advance operation OperationRunning (op_Output operation) (op_Error operation) now)
    (Some {| ol_Owner := owner; ol_Token := NewID e; ol_ExpiresAt := time_Add now ttl |}) in
  match or_Execution record with
  | Some lease =>
      fail_if After (ol_ExpiresAt lease) now with
        Wrapf "%w: operation %s is owned by %s until %s"
          [AStr (op_ID operation); AStr (ol_Owner lease); ANum (ol_ExpiresAt lease)]
          (Sentinel ErrOperationClaimed);
      Ok claimed
  | None => Ok claimed
  end.

(** The guard [State != Running || Execution == nil || Execution.Token != token]: the lease the
    caller still holds. *)
Definition held_lease (record : OperationRecord) (token : string) : option OperationLease :=
  match or_Execution record with
  | Some lease =>
      if bool_decide (op_State (or_Operation record) = OperationRunning) &&
         bool_decide (ol_Token lease = token)
      then Some lease else None
  | None => None
  end.

Definition op_fence (record : OperationRecord) (text : string) : error :=
  Wrapf text [AStr (op_ID (or_Operation record))] (Sentinel ErrOperationFence).

Definition op_Renew (record : OperationRecord) (token : string) (now : time) (ttl : duration)
    (wall : time) : result OperationRecord :=
  let operation := or_Operation record in
  try? op_ValidateLeaseDuration ttl;
  let now := op_NormalizeMutationTime wall now in
  match held_lease record token with
  | None => Err (op_fence record "%w: operation %s token is stale or expired")
  | Some lease =>
      fail_if negb (After (ol_ExpiresAt lease) now) with
        op_fence record "%w: operation %s token is stale or expired";
      Ok (with_operation record
            (advance operation (op_State operation) (op_Output operation) (op_Error operation) now)
            (Some {| ol_Owner := ol_Owner lease; ol_Token := ol_Token lease;
                     ol_ExpiresAt := time_Add now ttl |}))
  end.

Definition op_Complete (record : OperationRecord) (token : string) (state : OperationState)
    (output operationError : string) (now wall : time) : result OperationRecord :=
  try? op_ValidateCompletionState state;
  let now := op_NormalizeMutationTime wall now in
  match held_lease record token with
  | None => Err (op_fence record "%w: operation %s token is stale or expired")
  | Some lease =>
      fail_if negb (After (ol_ExpiresAt lease) now) with
        op_fence record "%w: operation %s token is stale or expired";
      let next := with_operation record
        (advance (or_Operation record) state output operationError now) None in
      try? ValidateOperation (or_Operation next);
      Ok next
  end.

Definition op_Release (record : OperationRecord) (token : string) (now wall : time) : result OperationRecord :=
  let operation := or_Operation record in
  let now := op_NormalizeMutationTime wall now in
  match held_lease record token with
  | None => Err (op_fence record "%w: operation %s token is stale")
  | Some _ =>
      Ok (with_operation record
            (advance operation (op_State operation) (op_Output operation) (op_Error operation) now)
            None)
  end.

Definition op_RecoverableAt (record : OperationRecord) (now wall : time) : bool :=
  if Operation_Terminal (or_Operation record) then false else
  let now := op_NormalizeMutationTime wall now in
  match or_Execution record with
  | None => true
  | Some lease => negb (After (ol_ExpiresAt lease) now)
  end.

Definition IdempotencyIndex (record : OperationRecord) : string :=
  (kind_text (or_Kind record) ++ NUL ++ or_Resource record ++ NUL ++
   or_ResourceRevision record ++ NUL ++ op_IdempotencyKey (or_Operation record))%string.

Definition SameSubmission (left right : OperationRecord) : bool :=
  bool_decide (or_Input left = or_Input right) &&
  bool_decide (inv_ID (or_Invocation left) = inv_ID (or_Invocation right)) &&
  bool_decide (inv_RootID (or_Invocation left) = inv_RootID (or_Invocation right)) &&
  bool_decide (inv_ParentID (or_Invocation left) = inv_ParentID (or_Invocation right)) &&
  bool_decide (inv_GroupID (or_Invocation left) = inv_GroupID (or_Invocation right)) &&
  bool_decide (inv_SessionID (or_Invocation left) = inv_SessionID (or_Invocation right)) &&
  bool_decide (inv_TargetSessionID (or_Invocation left) = inv_TargetSessionID (or_Invocation right)) &&
  bool_decide (inv_ExecutionID (or_Invocation left) = inv_ExecutionID (or_Invocation right)) &&
  bool_decide (inv_Ordinal (or_Invocation left) = inv_Ordinal (or_Invocation right)) &&
  bool_decide (inv_Dependencies (or_Invocation left) = inv_Dependencies (or_Invocation right)).

Definition op_ValidateLoadedRecord (record : OperationRecord) : result unit :=
  try? op_ValidateNewRecord record;
  try? ValidateOperation (or_Operation record);
  match or_Execution record with
  | None => Ok tt
  | Some lease =>
      fail_if negb (bool_decide (op_State (or_Operation record) = OperationRunning)) ||
              blank (ol_Owner lease) || is_empty (ol_Token lease) || IsZero (ol_ExpiresAt lease)
      with errors_New "operation execution lease is invalid";
      Ok tt
  end.

(** ** Well-formed records *)

Definition op_valid (record : OperationRecord) : Prop := op_ValidateLoadedRecord record = Ok tt.

(** What no lifecycle rule changes. *)
Definition op_identity (record : OperationRecord) :=
  (op_ID (or_Operation record), op_IdempotencyKey (or_Operation record),
   op_SubmittedAt (or_Operation record), or_Kind record, or_Resource record,
   or_ResourceRevision record, or_Input record, or_Invocation record).

(** One accepted lifecycle step: the identity is kept, the revision is the next one, the state
    moves along a permitted transition, and the new record is again loadable. *)
Record op_evolves (record next : OperationRecord) : Prop := {
  evolves_identity : op_identity next = op_identity record;
  evolves_revision :
    op_Revision (or_Operation next) = op_Revision (or_Operation record) + 1;
  evolves_transition :
    ValidateOperationTransition (op_State (or_Operation record)) (op_State (or_Operation next)) = Ok tt;
  evolves_valid : op_valid next;
}.

Definition op_revision (record : OperationRecord) : Z := op_Revision (or_Operation record).

(** ** Lemmas *)

Lemma op_ValidateNewRecord_identity r r' :
  op_identity r' = op_identity r → op_ValidateNewRecord r' = op_ValidateNewRecord r.
Proof.
  unfold op_identity, op_ValidateNewRecord. intros [= -> -> _ -> -> _ -> ->]. done.
Qed.

Lemma with_operation_identity r state output text now lease :
  op_identity (with_operation r (advance (or_Operation r) state output text now) lease) =
  op_identity r.
Proof. done. Qed.

Lemma op_valid_inv r :
  op_valid r ↔
  op_ValidateNewRecord r = Ok tt ∧ ValidateOperation (or_Operation r) = Ok tt ∧
  match or_Execution r with
  | None => True
  | Some lease =>
      op_State (or_Operation r) = OperationRunning ∧ blank (ol_Owner lease) = false ∧
      ol_Token lease ≠ "" ∧ ol_ExpiresAt lease ≠ 0
  end.
Proof.
  unfold op_valid, op_ValidateLoadedRecord. split.
  - intros H. apply bind_Ok in H as ([] & ? & H). apply bind_Ok in H as ([] & ? & H).
    split_and!; [done..|]. destruct (or_Execution r); [|done]. inv_ok. gobool. tauto.
  - intros (-> & -> & H). simpl. destruct (or_Execution r) as [l|]; [|done].
    destruct H as (-> & -> & Ht & He). simpl.
    rewrite (proj2 (is_empty_false _)), (proj2 (IsZero_false _)) by done. done.
Qed.

Lemma ValidateOperation_unfinished op :
  ValidateOperation op = Ok tt → Operation_Terminal op = false →
  (op_State op = OperationPending ∨ op_State op = OperationRunning) ∧ op_Output op = "" ∧ op_Error op = "".
Proof.
  unfold ValidateOperation, Operation_Terminal, state_terminal. intros H Ht. inv_ok.
  destruct (op_State op); try done; inv_ok; gobool; tauto.
Qed.

(** Moving an unfinished operation to [running] keeps it valid: it has no result to clear. *)
Lemma ValidateOperation_running op now :
  ValidateOperation op = Ok tt → Operation_Terminal op = false → 0 < op_Revision op → op_Revision op + 1 < two64 →
  ValidateOperation (advance op OperationRunning (op_Output op) (op_Error op) now) = Ok tt.
Proof.
  intros Hv Ht Hr1 Hr2. destruct (ValidateOperation_unfinished _ Hv Ht) as (_ & Ho & He).
  unfold ValidateOperation in *. inv_ok. unfold advance. simpl. rewrite Ho, He, u64_small by lia.
  destruct (is_empty (op_ID op)), (is_empty (op_IdempotencyKey op)); try done. simpl.
  rewrite (proj2 (Z.eqb_neq _ _)) by lia. done.
Qed.

Lemma nonterminal_transition op state :
  ValidateOperation op = Ok tt → Operation_Terminal op = false →
  state = OperationRunning ∨ state_terminal state = true →
  ValidateOperationTransition (op_State op) state = Ok tt.
Proof.
  intros Hv Ht Hs. destruct (ValidateOperation_unfinished _ Hv Ht) as ([-> | ->] & _);
    destruct Hs as [-> | Hs]; try done; by destruct state.
Qed.

Lemma running_transition_inv op :
  ValidateOperation op = Ok tt → op_State op = OperationRunning → Operation_Terminal op = false.
Proof. unfold Operation_Terminal. by intros _ ->. Qed.

Section evolves.
Context (r : OperationRecord) (Hv : op_valid r) (Hlow : 0 < op_revision r)
        (Hhigh : op_revision r + 1 < two64).

Lemma evolves_intro state output text now lease :
  ValidateOperationTransition (op_State (or_Operation r)) state = Ok tt →
  ValidateOperation (advance (or_Operation r) state output text now) = Ok tt →
  match lease with
  | None => True
  | Some lease => state = OperationRunning ∧ blank (ol_Owner lease) = false ∧
                  ol_Token lease ≠ "" ∧ ol_ExpiresAt lease ≠ 0
  end →
  op_evolves r (with_operation r (advance (or_Operation r) state output text now) lease).
Proof using Hv Hlow Hhigh.
  intros Ht Hval Hl. split; [done| |done|].
  - simpl. unfold op_revision in *. rewrite u64_small; lia.
  - apply op_valid_inv. apply op_valid_inv in Hv as (Hn & _ & _). split_and!; [|done|done].
    by rewrite (op_ValidateNewRecord_identity r).
Qed.

Lemma op_Transition_evolves rev state output text now wall r' :
  state ≠ OperationRunning → op_Transition r rev state output text now wall = Ok r' → op_evolves r r'.
Proof using Hv Hlow Hhigh.
  intros Hs H. unfold op_Transition in H.
  apply bind_Ok in H as (_ & _ & H). apply bind_Ok in H as ([] & Ht & H).
  apply bind_Ok in H as ([] & Hval & [= <-]). simpl in Hval.
  rewrite bool_decide_eq_false_2 by done. by apply evolves_intro.
Qed.

Lemma op_Claim_evolves owner now ttl wall e r' :
  entropy_ok e → 0 ≤ now → 0 < wall →
  op_Claim r owner now ttl wall e = Ok r' → op_evolves r r'.
Proof using Hv Hlow Hhigh.
  intros He Hnow Hwall H. unfold op_Claim, op_ValidateClaim, op_ValidateLeaseDuration in H.
  apply bind_Ok in H as ([] & Hc & H). inv_ok.
  pose proof Hv as (_ & Hval & _)%op_valid_inv.
  match goal with H : Operation_Terminal _ = false |- _ => rename H into Hterm end.
  assert (r' = with_operation r (advance (or_Operation r) OperationRunning
    (op_Output (or_Operation r)) (op_Error (or_Operation r)) (op_NormalizeMutationTime wall now))
    (Some {| ol_Owner := owner; ol_Token := NewID e;
             ol_ExpiresAt := time_Add (op_NormalizeMutationTime wall now) ttl |})) as ->.
  { destruct (or_Execution r) as [lease|]; [|by injection H]. destruct (After _ _); [done|by injection H]. }
  apply evolves_intro.
  - apply nonterminal_transition; auto.
  - by apply ValidateOperation_running.
  - gobool. split_and!; [done..|by apply NewID_nonempty|].
    unfold time_Add, op_NormalizeMutationTime. destruct (IsZero now) eqn:?; gobool; simpl; lia.
Qed.

Lemma held_lease_inv token lease :
  held_lease r token = Some lease →
  or_Execution r = Some lease ∧ op_State (or_Operation r) = OperationRunning ∧ ol_Token lease = token.
Proof.
  unfold held_lease. destruct (or_Execution r); [|done].
  destruct (_ && _) eqn:E; [|done]. gobool. intros [= <-]. tauto.
Qed.

Lemma held_valid token lease :
  held_lease r token = Some lease →
  Operation_Terminal (or_Operation r) = false ∧ blank (ol_Owner lease) = false ∧
  ol_Token lease ≠ "" ∧ ValidateOperation (or_Operation r) = Ok tt.
Proof using Hv.
  intros (He & Hs & _)%held_lease_inv. pose proof Hv as (_ & Hval & Hl)%op_valid_inv.
  rewrite He in Hl. unfold Operation_Terminal. rewrite Hs. tauto.
Qed.

Lemma op_Renew_evolves token now ttl wall r' :
  0 ≤ now → 0 < wall → op_Renew r token now ttl wall = Ok r' → op_evolves r r'.
Proof using Hv Hlow Hhigh.
  intros Hnow Hwall H. unfold op_Renew, op_ValidateLeaseDuration in H.
  apply bind_Ok in H as ([] & Hc & H). inv_ok. gobool.
  match goal with H : held_lease _ _ = Some _ |- _ => rename H into Hheld end.
  destruct (held_lease_inv _ _ Hheld) as (_ & Hs & _).
  destruct (held_valid _ _ Hheld) as (Ht & Hb & Htok & Hval).
  rewrite Hs. apply evolves_intro.
  - rewrite Hs. done.
  - by apply ValidateOperation_running.
  - split_and!; [done..|]. simpl. unfold time_Add, op_NormalizeMutationTime in *.
    destruct (IsZero now) eqn:?; gobool; lia.
Qed.

Lemma op_Complete_evolves token state output text now wall r' :
  op_Complete r token state output text now wall = Ok r' → op_evolves r r'.
Proof using Hv Hlow Hhigh.
  intros H. unfold op_Complete in H. apply bind_Ok in H as ([] & Hc & H).
  destruct (held_lease r token) as [lease|] eqn:Hheld; [|done].
  destruct (negb _); [done|]. apply bind_Ok in H as ([] & Hval & [= <-]).
  destruct (held_valid _ _ Hheld) as (Ht & _ & _ & Hv0).
  apply evolves_intro; [|done|done]. apply nonterminal_transition; auto.
  destruct state; simpl in *; auto; done.
Qed.

Lemma op_Release_evolves token now wall r' :
  op_Release r token now wall = Ok r' → op_evolves r r'.
Proof using Hv Hlow Hhigh.
  intros H. unfold op_Release in H.
  destruct (held_lease r token) as [lease|] eqn:Hheld; [|done]. injection H as <-.
  destruct (held_lease_inv _ _ Hheld) as (_ & Hs & _).
  destruct (held_valid _ _ Hheld) as (Ht & _ & _ & Hval).
  rewrite Hs. apply evolves_intro; [by rewrite Hs| |done]. by apply ValidateOperation_running.
Qed.
End evolves.

Definition lease_token (record : OperationRecord) : option string := ol_Token <$> or_Execution record.

(** The lifecycle rules as one step relation on a record, with the lease tokens a step mints. *)
Inductive op_step : list string → OperationRecord → OperationRecord → Prop :=
  | op_step_Cancel r rev now wall r' : op_Cancel r rev now wall = Ok r' → op_step [] r r'
  | op_step_Fail r rev text now wall r' : op_Fail r rev text now wall = Ok r' → op_step [] r r'
  | op_step_Claim r owner now ttl wall e r' :
      entropy_ok e → 0 ≤ now → 0 < wall →
      op_Claim r owner now ttl wall e = Ok r' → op_step [NewID e] r r'
  | op_step_Renew r token now ttl wall r' :
      0 ≤ now → 0 < wall → op_Renew r token now ttl wall = Ok r' → op_step [] r r'
  | op_step_Complete r token state output text now wall r' :
      op_Complete r token state output text now wall = Ok r' → op_step [] r r'
  | op_step_Release r token now wall r' : op_Release r token now wall = Ok r' → op_step [] r r'.

Create HintDb operation.
#[export] Hint Constructors op_step : operation.

Lemma op_step_evolves tokens r r' :
  op_valid r → 0 < op_revision r → op_revision r + 1 < two64 → op_step tokens r r' → op_evolves r r'.
Proof.
  intros Hv Hl Hh Hs. destruct Hs.
  - by eapply (op_Transition_evolves r) with (state := OperationCancelled).
  - by eapply (op_Transition_evolves r) with (state := OperationFailed).
  - by eapply op_Claim_evolves.
  - by eapply op_Renew_evolves.
  - by eapply op_Complete_evolves.
  - by eapply op_Release_evolves.
Qed.

(** No step restores a lease: the token after a step is the one before it or a new one. *)
Lemma op_step_token tokens r r' :
  op_step tokens r r' →
  lease_token r' = None ∨ lease_token r' = lease_token r ∨ ∃ t, t ∈ tokens ∧ lease_token r' = Some t.
Proof.
  intros Hs. destruct Hs as [r rev now wall r' H|r rev text now wall r' H
    |r owner now ttl wall e r' _ _ _ H|r token now ttl wall r' _ _ H
    |r token state output text now wall r' H|r token now wall r' H].
  - unfold op_Cancel, op_Transition in H. inv_ok. auto.
  - unfold op_Fail, op_Transition in H. inv_ok. auto.
  - right; right. exists (NewID e). split; [set_solver|]. unfold op_Claim in H.
    apply bind_Ok in H as (_ & _ & H). destruct (Operation_Terminal _); [done|].
    destruct (or_Execution r); [destruct (After _ _); [done|]|]; by injection H as <-.
  - right; left. unfold op_Renew in H. apply bind_Ok in H as (_ & _ & H).
    destruct (held_lease r token) as [l|] eqn:Hh; [|done]. destruct (negb _); [done|].
    apply held_lease_inv in Hh as (He & _ & _). injection H as <-. unfold lease_token. by rewrite He.
  - left. unfold op_Complete in H. apply bind_Ok in H as (_ & _ & H).
    destruct (held_lease _ _); [|done]. destruct (negb _); [done|]. by inv_ok.
  - left. unfold op_Release in H. destruct (held_lease _ _); [|done]. by injection H as <-.
Qed.
