(* ===== verification/Paging.v ===== *)
(** Keyset pagination: [pageWindow] of [sdk/storage/storage.go] over the page requests of
    [sdk/page.go]. *)

From S2P Require Import Prelude.

Definition DefaultPageSize : Z := 100.
Definition MaxPageSize : Z := 1000.

Record PageRequest := {
  pr_After : string;
  pr_Limit : Z;
}.

Section page.
Context {T : Type} (id : T → string).

(** The loop that looks for the cursor: the position after the first item with that ID. *)
Fixpoint cursor_start (after : string) (index : nat) (items : list T) : option nat :=
  match items with
  | [] => None
  | item :: rest =>
      if bool_decide (id item = after) then Some (S index) else cursor_start after (S index) rest
  end.

Definition pageWindow (items : list T) (request : PageRequest) : result (list T * string) :=
  let limit := if pr_Limit request =? 0 then DefaultPageSize else pr_Limit request in
  fail_if limit <? 0 with errors_New "page limit cannot be negative";
  fail_if limit >? MaxPageSize with
    Errorf "page limit %d exceeds maximum %d" [ANum limit; ANum MaxPageSize];
  let? start :=
    (if negb (is_empty (pr_After request)) then
       match cursor_start (pr_After request) 0 items with
       | Some start => Ok start
       | None => Err (Errorf "pagination cursor %q was not found" [AStr (pr_After request)])
       end
     else Ok 0%nat) in
  let stop := Nat.min (start + Z.to_nat limit) (length items) in
  let page := take (stop - start) (drop start items) in
  let next :=
    if (stop <? length items)%nat && (0 <? length page)%nat
    then match last page with Some item => id item | None => "" end
    else "" in
  Ok (page, next).

(** A client that follows the cursor until it is empty. *)
Fixpoint all_pages (fuel : nat) (items : list T) (limit : Z) (after : string) : result (list T) :=
  match fuel with
  | O => Err (errors_New "page loop ran out of fuel")
  | S fuel =>
      let? '(page, next) := pageWindow items {| pr_After := after; pr_Limit := limit |} in
      if is_empty next then Ok page else
      let? rest := all_pages fuel items limit next in
      Ok (page ++ rest)
  end.

(** ** Lemmas *)

Lemma cursor_start_app pre x post k :
  id x ∉ (id <$> pre) → cursor_start (id x) k (pre ++ x :: post) = Some (k + S (length pre))%nat.
Proof.
  revert k. induction pre as [|y pre IH]; intros k Hnin; simpl.
  - rewrite bool_decide_eq_true_2 by done. f_equal. lia.
  - rewrite fmap_cons, not_elem_of_cons in Hnin. destruct Hnin as [Hne Hnin].
    rewrite bool_decide_eq_false_2 by congruence. rewrite IH by done. f_equal. lia.
Qed.

(** The cursor for position [n]: empty at the start, the ID of the last returned item later. *)
Definition cursor_at (items : list T) (n : nat) (after : string) : Prop :=
  (n = 0%nat ∧ after = "") ∨
  ∃ pre x post, items = pre ++ x :: post ∧ n = S (length pre) ∧ after = id x.

Section window.
Context (items : list T) (Hid : NoDup (id <$> items)) (Hne : ∀ x, x ∈ items → id x ≠ "").
Context (limit : Z) (Hl : 0 < limit ≤ MaxPageSize).

Lemma pageWindow_at n after :
  cursor_at items n after →
  pageWindow items {| pr_After := after; pr_Limit := limit |} =
  Ok (take (Z.to_nat limit) (drop n items),
      if (n + Z.to_nat limit <? length items)%nat
      then match last (take (Z.to_nat limit) (drop n items)) with Some x => id x | None => "" end
      else "").
Proof using Hid Hne Hl.
  intros Hc. unfold pageWindow. simpl.
  rewrite (proj2 (Z.eqb_neq _ _)) by lia.
  rewrite (proj2 (Z.ltb_ge _ _)) by lia.
  replace (limit >? MaxPageSize) with false by lia.
  assert ((if negb (is_empty after) then
             match cursor_start after 0 items with
             | Some start => Ok start
             | None => Err (Errorf "pagination cursor %q was not found" [AStr after])
             end else Ok 0%nat) = Ok n ∧ (n ≤ length items)%nat) as [-> Hn].
  { destruct Hc as [[-> ->] | (pre & x & post & -> & -> & ->)]; simpl; [split; [done|lia]|].
    rewrite (proj2 (is_empty_false _)) by (apply Hne; set_solver). simpl.
    rewrite cursor_start_app.
    - split; [done|]. rewrite length_app. simpl. lia.
    - rewrite fmap_app, fmap_cons in Hid. apply NoDup_app in Hid as (_ & Hd & _). set_solver. }
  simpl. pose proof (length_take (drop n items) (Z.to_nat limit)) as Hlt.
  rewrite length_drop in Hlt.
  destruct (Nat.ltb_spec (n + Z.to_nat limit) (length items)).
  - rewrite Nat.min_l by lia. replace (n + Z.to_nat limit - n)%nat with (Z.to_nat limit) by lia.
    rewrite (proj2 (Nat.ltb_lt _ _)) by lia. rewrite (proj2 (Nat.ltb_lt _ _)) by lia. done.
  - rewrite Nat.min_r by lia. rewrite Nat.ltb_irrefl. simpl.
    rewrite !take_ge; [done|rewrite length_drop; lia..].
Qed.

Lemma cursor_at_next n :
  (n + Z.to_nat limit < length items)%nat →
  ∃ x, last (take (Z.to_nat limit) (drop n items)) = Some x ∧ x ∈ items ∧
       cursor_at items (n + Z.to_nat limit) (id x).
Proof using Hl.
  intros Hn. set (m := (n + Z.to_nat limit - 1)%nat).
  destruct (lookup_lt_is_Some_2 items m) as [x Hx]; [lia|]. exists x. split_and!.
  - rewrite last_lookup, length_take, length_drop.
    rewrite lookup_take_lt by lia. rewrite lookup_drop, <-Hx. f_equal. lia.
  - by eapply list_elem_of_lookup_2.
  - right. exists (take m items), x, (drop (S m) items). split_and!; [|rewrite length_take; lia|done].
    by rewrite take_drop_middle.
Qed.

Lemma all_pages_from fuel n after :
  cursor_at items n after → (length items - n < fuel)%nat →
  all_pages fuel items limit after = Ok (drop n items).
Proof using Hid Hne Hl.
  revert n after. induction fuel as [|fuel IH]; intros n after Hc Hf; [lia|].
  cbn [all_pages]. rewrite (pageWindow_at n after Hc). cbn [result_bind].
  destruct (Nat.ltb_spec (n + Z.to_nat limit) (length items)) as [Hn|Hn].
  - destruct (cursor_at_next n Hn) as (x & -> & Hin & Hc').
    rewrite (proj2 (is_empty_false _)) by eauto.
    rewrite (IH _ _ Hc') by lia. cbn [result_bind]. by rewrite <-drop_drop, take_drop.
  - simpl. rewrite take_ge; [done|]. rewrite length_drop. lia.
Qed.
End window.
End page.

(** A client that follows the cursors of [pageWindow] from the start, with any page size the code
    accepts, reads every item exactly once and in order, and needs at most one page more than there
    are items. *)
Theorem pages_cover {T} (id : T → string) items limit :
  NoDup (id <$> items) → (∀ x, x ∈ items → id x ≠ "") → 0 < limit ≤ MaxPageSize →
  all_pages id (S (length items)) items limit "" = Ok items.
Proof.
  intros Hid Hne Hl. rewrite (all_pages_from id items Hid Hne limit Hl _ 0 ""); [done|by left|lia].
Qed.

Lemma pages_cover_witness : all_pages (λ x, x) 4 ["a"; "b"; "c"] 2 "" = Ok ["a"; "b"; "c"].
Proof.
  apply (pages_cover (λ x, x) ["a"; "b"; "c"] 2).
  - apply (bool_decide_unpack _). vm_compute. exact I.
  - intros x Hx. apply (bool_decide_unpack (x ≠ "")). repeat (apply elem_of_cons in Hx as [->|Hx]; [vm_compute; exact I|]).
    by apply not_elem_of_nil in Hx.
  - unfold MaxPageSize. lia.
Defined.
