(* ===== verification/OperationStore.v ===== *)
(** The in-memory operation store of [sdk/storage/operation_memory.go]: an operation map and an
    idempotency index under one lock, so every method is one atomic step.  A method that returns an
    error leaves the store as it was, which the result type says; [wall] is the value of
    [time.Now()] inside the call. *)

From S2P Require Import Prelude GoText Names Invocation Operation Paging.

Record memoryOperationStore := {
  operations : gmap string OperationRecord;
  keys : gmap string string;
}.

Definition newMemoryOperationStore : memoryOperationStore := {| operations := ∅; keys := ∅ |}.

Abbreviation ostore := memoryOperationStore (only parsing).

Definition ostore_not_found (id : string) : error :=
  Wrapf "%w: %s" [AStr id] (Sentinel ErrOperationNotFound).

Definition ostore_Submit (st : ostore) (ctx : context) (record : OperationRecord) (wall : time) (e : entropy)
    : result (OperationRecord * bool * ostore) :=
  try? ctx_Err ctx;
  let? record := PrepareNewRecord record wall wall e in
  let key := IdempotencyIndex record in
  let id := op_ID (or_Operation record) in
  match keys st !! key with
  | Some existing_id =>
      (* a missing map entry reads as the zero record *)
      match operations st !! existing_id with
      | Some existing =>
          fail_if negb (SameSubmission existing record) with
            Errorf "operation idempotency key %q was reused with a different submission"
              [AStr (op_IdempotencyKey (or_Operation record))];
          Ok (existing, false, st)
      | None =>
          Err (Errorf "operation idempotency key %q was reused with a different submission"
                 [AStr (op_IdempotencyKey (or_Operation record))])
      end
  | None =>
      fail_if bool_decide (is_Some (operations st !! id)) with
        Errorf "operation ID %q already exists" [AStr id];
      Ok (record, true,
          {| operations := <[id := record]> (operations st); keys := <[key := id]> (keys st) |})
  end.

Definition ostore_Get (st : ostore) (ctx : context) (id : string) : result OperationRecord :=
  try? ctx_Err ctx;
  match operations st !! id with
  | Some record => Ok record
  | None => Err (ostore_not_found id)
  end.

Definition ostore_mutate (st : ostore) (ctx : context) (id : string)
    (mutation : OperationRecord → result OperationRecord) : result (OperationRecord * ostore) :=
  try? ctx_Err ctx;
  match operations st !! id with
  | None => Err (ostore_not_found id)
  | Some record =>
      let? record := mutation record in
      Ok (record, {| operations := <[id := record]> (operations st); keys := keys st |})
  end.

Definition ostore_Cancel (st : ostore) (ctx : context) (id : string) (expectedRevision : Z) (wall : time)
    : result (OperationRecord * ostore) :=
  ostore_mutate st ctx id (λ record, op_Cancel record expectedRevision wall wall).

Definition ostore_Fail (st : ostore) (ctx : context) (id : string) (expectedRevision : Z)
    (operationError : string) (wall : time) : result (OperationRecord * ostore) :=
  ostore_mutate st ctx id (λ record, op_Fail record expectedRevision operationError wall wall).

Definition ostore_Claim (st : ostore) (ctx : context) (id owner : string) (now : time) (ttl : duration)
    (wall : time) (e : entropy) : result (OperationRecord * ostore) :=
  try? ctx_Err ctx;
  try? op_ValidateClaim owner ttl;
  let now := op_NormalizeMutationTime wall now in
  ostore_mutate st ctx id (λ record, op_Claim record owner now ttl wall e).

Definition ostore_Renew (st : ostore) (ctx : context) (id token : string) (now : time) (ttl : duration)
    (wall : time) : result (OperationRecord * ostore) :=
  try? ctx_Err ctx;
  try? op_ValidateLeaseDuration ttl;
  let now := op_NormalizeMutationTime wall now in
  ostore_mutate st ctx id (λ record, op_Renew record token now ttl wall).

Definition ostore_Complete (st : ostore) (ctx : context) (id token : string) (state : OperationState)
    (output operationError : string) (wall : time) : result (OperationRecord * ostore) :=
  try? ctx_Err ctx;
  try? op_ValidateCompletionState state;
  ostore_mutate st ctx id (λ record, op_Complete record token state output operationError wall wall).

Definition ostore_Release (st : ostore) (ctx : context) (id token : string) (wall : time)
    : result (OperationRecord * ostore) :=
  ostore_mutate st ctx id (λ record, op_Release record token wall wall).

(** The comparison of [List] and [sortOperationRecords]. *)
Definition compareOperationRecords (left right : OperationRecord) : Z :=
  cmp_or (Z_Compare (op_SubmittedAt (or_Operation left)) (op_SubmittedAt (or_Operation right)))
         (strings_Compare (op_ID (or_Operation left)) (op_ID (or_Operation right))).

Definition sortOperationRecords (records : list OperationRecord) : list OperationRecord :=
  SortFunc compareOperationRecords records.

Definition ostore_List (st : ostore) (ctx : context) : result (list OperationRecord) :=
  try? ctx_Err ctx;
  Ok (sortOperationRecords (map_values (operations st))).

Definition ostore_ListByInvocationRoot (st : ostore) (ctx : context) (rootID : string)
    : result (list OperationRecord) :=
  try? ValidateResourceName "invocation root" rootID;
  let? records := ostore_List st ctx in
  Ok (filter (λ record, inv_RootID (or_Invocation record) = rootID) records).

Definition ostore_ListNonTerminal (st : ostore) (ctx : context) : result (list OperationRecord) :=
  try? ctx_Err ctx;
  Ok (sortOperationRecords
        (filter (λ record, Operation_Terminal (or_Operation record) = false)
           (map_values (operations st)))).

Definition ostore_ListRecoverable (st : ostore) (ctx : context) (now wall : time)
    : result (list OperationRecord) :=
  try? ctx_Err ctx;
  let now := op_NormalizeMutationTime wall now in
  Ok (sortOperationRecords
        (filter (λ record, op_RecoverableAt record now wall = true)
           (map_values (operations st)))).

Definition ostore_ListPage (st : ostore) (ctx : context) (request : PageRequest)
    : result (list OperationRecord * string) :=
  let? items := ostore_List st ctx in
  pageWindow (λ item, op_ID (or_Operation item)) items request.

Definition op_purgeable (before : time) (record : OperationRecord) : bool :=
  Operation_Terminal (or_Operation record) && Before (op_UpdatedAt (or_Operation record)) before.

Definition ostore_PurgeTerminal (st : ostore) (ctx : context) (before : time) : result (Z * ostore) :=
  try? ctx_Err ctx;
  fail_if IsZero before with errors_New "operation purge cutoff is required";
  let purged := filter (λ entry, op_purgeable before entry.2 = true) (map_to_list (operations st)) in
  Ok (Z.of_nat (length purged),
      {| operations := foldr (λ entry m, delete entry.1 m) (operations st) purged;
         keys := foldr (λ entry m, delete (IdempotencyIndex entry.2) m) (keys st) purged |}).

(** ** Behaviour as a transition system

    The calls that change the store, each with the lease tokens it mints.  Time arguments are
    instants after the zero time, as every clock reading is, and identifiers come from a working
    random source. *)

Inductive ostore_step : list string → ostore → ostore → Prop :=
  | step_Submit st ctx record wall e r created st' :
      entropy_ok e → 0 < wall →
      ostore_Submit st ctx record wall e = Ok (r, created, st') → ostore_step [] st st'
  | step_Cancel st ctx id rev wall r st' :
      ostore_Cancel st ctx id rev wall = Ok (r, st') → ostore_step [] st st'
  | step_Fail st ctx id rev text wall r st' :
      ostore_Fail st ctx id rev text wall = Ok (r, st') → ostore_step [] st st'
  | step_Claim st ctx id owner now ttl wall e r st' :
      entropy_ok e → 0 ≤ now → 0 < wall →
      ostore_Claim st ctx id owner now ttl wall e = Ok (r, st') → ostore_step [NewID e] st st'
  | step_Renew st ctx id token now ttl wall r st' :
      0 ≤ now → 0 < wall →
      ostore_Renew st ctx id token now ttl wall = Ok (r, st') → ostore_step [] st st'
  | step_Complete st ctx id token state output text wall r st' :
      ostore_Complete st ctx id token state output text wall = Ok (r, st') → ostore_step [] st st'
  | step_Release st ctx id token wall r st' :
      ostore_Release st ctx id token wall = Ok (r, st') → ostore_step [] st st'.

Inductive ostore_purge : ostore → ostore → Prop :=
  | step_Purge st ctx before n st' :
      ostore_PurgeTerminal st ctx before = Ok (n, st') → ostore_purge st st'.

(** [ostore_run n minted st st']: [st'] is reached from [st] by [n] calls that mint the tokens
    [minted], none of which purges. *)
Inductive ostore_run : nat → list string → ostore → ostore → Prop :=
  | run_refl st : ostore_run 0 [] st st
  | run_step n minted st st' st'' tokens :
      ostore_run n minted st st' → ostore_step tokens st' st'' →
      ostore_run (S n) (tokens ++ minted) st st''.

(** [ostore_calls minted st st']: [st'] is reached from [st] by any number of calls of any kind, purges
    included, that mint the tokens [minted]. *)
Inductive ostore_calls : list string → ostore → ostore → Prop :=
  | calls_refl st : ostore_calls [] st st
  | calls_step minted st st' st'' tokens :
      ostore_calls minted st st' → ostore_step tokens st' st'' → ostore_calls (tokens ++ minted) st st''
  | calls_purge minted st st' st'' :
      ostore_calls minted st st' → ostore_purge st' st'' → ostore_calls minted st st''.

(** [ostore_reach n st]: the store after [n] calls of any kind on a new store. *)
Inductive ostore_reach : nat → ostore → Prop :=
  | reach_new : ostore_reach 0 newMemoryOperationStore
  | reach_step n tokens st st' :
      ostore_reach n st → ostore_step tokens st st' → ostore_reach (S n) st'
  | reach_purge n st st' : ostore_reach n st → ostore_purge st st' → ostore_reach (S n) st'.

(** ** The store invariant *)

Record ostore_wf (n : Z) (st : ostore) : Prop := {
  wf_id id r : operations st !! id = Some r → op_ID (or_Operation r) = id;
  wf_valid id r : operations st !! id = Some r → op_valid r;
  wf_revision id r : operations st !! id = Some r → 0 < op_revision r ≤ n + 1;
  wf_index id r : operations st !! id = Some r → keys st !! IdempotencyIndex r = Some id;
  wf_keys key id : keys st !! key = Some id →
    ∃ r, operations st !! id = Some r ∧ IdempotencyIndex r = key;
}.

(** A record as it is seen by a later reader of the same store. *)
Definition op_leads (record next : OperationRecord) : Prop :=
  next = record ∨
  (op_identity next = op_identity record ∧ op_revision record < op_revision next ∧
   ValidateOperationTransition (op_State (or_Operation record)) (op_State (or_Operation next)) = Ok tt).

(** ** Lemmas *)

Lemma IdempotencyIndex_identity r r' :
  op_identity r' = op_identity r → IdempotencyIndex r' = IdempotencyIndex r.
Proof. unfold op_identity, IdempotencyIndex. intros [= _ -> _ -> -> -> _ _]. done. Qed.

Lemma op_ID_identity r r' :
  op_identity r' = op_identity r → op_ID (or_Operation r') = op_ID (or_Operation r).
Proof. unfold op_identity. intros [= -> _ _ _ _ _ _ _]. done. Qed.

Lemma PrepareNewRecord_spec record now wall e r :
  PrepareNewRecord record now wall e = Ok r →
  op_valid r ∧ op_revision r = 1 ∧ op_State (or_Operation r) = OperationPending ∧
  or_Execution r = None ∧ or_Kind r = or_Kind record ∧ or_Resource r = or_Resource record ∧
  or_ResourceRevision r = or_ResourceRevision record ∧ or_Input r = or_Input record ∧
  or_Invocation r = or_Invocation record ∧
  op_IdempotencyKey (or_Operation r) = op_IdempotencyKey (or_Operation record).
Proof.
  unfold PrepareNewRecord. intros H.
  apply bind_Ok in H as ([] & Hn & H). apply bind_Ok in H as ([] & Hv & [= <-]).
  split_and!; try done. by apply op_valid_inv.
Qed.

(** Every successful mutation rewrites one record, which evolves. *)
Lemma ostore_mutate_Ok st ctx id f r st' :
  ostore_mutate st ctx id f = Ok (r, st') →
  ∃ r0, operations st !! id = Some r0 ∧ f r0 = Ok r ∧
        st' = {| operations := <[id := r]> (operations st); keys := keys st |}.
Proof.
  unfold ostore_mutate. intros H. apply bind_Ok in H as (_ & _ & H).
  destruct (operations st !! id) as [r0|]; [|done].
  apply bind_Ok in H as (r1 & Hf & [= <- <-]). eauto.
Qed.

Lemma NormalizeMutationTime_nonneg wall now :
  0 ≤ now → 0 < wall → 0 ≤ op_NormalizeMutationTime wall now.
Proof. unfold op_NormalizeMutationTime. case_match; lia. Qed.

(** The shape of a step: a repeated submission, a new record, or a step of one record. *)
Lemma ostore_step_inv tokens st st' :
  ostore_step tokens st st' →
  (tokens = [] ∧ st' = st) ∨
  (∃ r, tokens = [] ∧ op_valid r ∧ op_revision r = 1 ∧ or_Execution r = None ∧
        operations st !! op_ID (or_Operation r) = None ∧ keys st !! IdempotencyIndex r = None ∧
        st' = {| operations := <[op_ID (or_Operation r) := r]> (operations st);
                 keys := <[IdempotencyIndex r := op_ID (or_Operation r)]> (keys st) |}) ∨
  (∃ id r0 r, operations st !! id = Some r0 ∧ op_step tokens r0 r ∧
        st' = {| operations := <[id := r]> (operations st); keys := keys st |}).
Proof.
  intros [st0 ctx record wall e r created st1 He Hw H|st0 ctx id rev wall r st1 H
    |st0 ctx id rev text wall r st1 H|st0 ctx id owner now ttl wall e r st1 He Hnow Hw H
    |st0 ctx id token now ttl wall r st1 Hnow Hw H|st0 ctx id token state output text wall r st1 H
    |st0 ctx id token wall r st1 H].
  { unfold ostore_Submit in H. apply bind_Ok in H as (_ & _ & H).
    apply bind_Ok in H as (r1 & Hp & H). simpl in H.
    destruct (keys st0 !! IdempotencyIndex r1) eqn:Hk.
    + destruct (operations st0 !! _); [|done]. destruct (negb _); [done|]. injection H as _ _ <-. auto.
    + destruct (bool_decide (is_Some _)) eqn:Hid; [done|]. injection H as <- _ <-. right; left.
      apply bool_decide_eq_false, eq_None_not_Some in Hid.
      destruct (PrepareNewRecord_spec _ _ _ _ _ Hp) as (? & ? & ? & ? & _). exists r1. by split_and!. }
  all: right; right;
    unfold ostore_Claim, ostore_Renew, ostore_Complete, ostore_Cancel, ostore_Fail, ostore_Release in H;
    repeat match type of H with result_bind _ _ = _ => apply bind_Ok in H as (_ & _ & H) end;
    apply ostore_mutate_Ok in H as (r0 & Hl & Hf & ->); exists id, r0, r;
    eauto 6 using NormalizeMutationTime_nonneg with operation.
Qed.

Lemma ostore_wf_weaken n m st : n ≤ m → ostore_wf n st → ostore_wf m st.
Proof.
  intros Hnm [H1 H2 H3 H4 H5]. split; [done..| |done|done].
  intros id r H. specialize (H3 id r H). lia.
Qed.

Lemma ostore_wf_new : ostore_wf 0 newMemoryOperationStore.
Proof. split; simpl; intros *; by rewrite lookup_empty. Qed.

Lemma ostore_wf_insert n st r :
  ostore_wf n st → 0 ≤ n → op_valid r → op_revision r = 1 →
  operations st !! op_ID (or_Operation r) = None → keys st !! IdempotencyIndex r = None →
  ostore_wf n {| operations := <[op_ID (or_Operation r) := r]> (operations st);
                 keys := <[IdempotencyIndex r := op_ID (or_Operation r)]> (keys st) |}.
Proof.
  intros Hwf Hn Hv Hr Hid Hk. split; simpl.
  - intros id r' [[<- <-]|[_ H]]%lookup_insert_Some; [done|]. by eapply wf_id.
  - intros id r' [[<- <-]|[_ H]]%lookup_insert_Some; [done|]. by eapply wf_valid.
  - intros id r' [[<- <-]|[_ H]]%lookup_insert_Some; [lia|]. by eapply wf_revision.
  - intros id r' [[<- <-]|[_ H]]%lookup_insert_Some; [apply lookup_insert_eq|].
    pose proof (wf_index _ _ Hwf _ _ H) as Hi. rewrite lookup_insert_ne; [done|]. congruence.
  - intros key id [[<- <-]|[_ H]]%lookup_insert_Some; [exists r; split; [apply lookup_insert_eq|done]|].
    destruct (wf_keys _ _ Hwf _ _ H) as (r' & Hr' & <-). exists r'. split; [|done].
    rewrite lookup_insert_ne; [done|]. congruence.
Qed.

Lemma ostore_wf_evolve n st id r0 r :
  ostore_wf n st → operations st !! id = Some r0 → op_evolves r0 r →
  ostore_wf (n + 1) {| operations := <[id := r]> (operations st); keys := keys st |}.
Proof.
  intros Hwf Hr0 [Hi Hrev _ Hv].
  pose proof (op_ID_identity _ _ Hi) as HID. pose proof (IdempotencyIndex_identity _ _ Hi) as HIX.
  split; simpl.
  - intros id' r' [[<- <-]|[_ H]]%lookup_insert_Some; [|by eapply wf_id].
    rewrite HID. by eapply wf_id.
  - intros id' r' [[<- <-]|[_ H]]%lookup_insert_Some; [done|by eapply wf_valid].
  - intros id' r' [[<- <-]|[_ H]]%lookup_insert_Some.
    + pose proof (wf_revision _ _ Hwf _ _ Hr0). unfold op_revision in *. lia.
    + pose proof (wf_revision _ _ Hwf _ _ H). lia.
  - intros id' r' [[<- <-]|[_ H]]%lookup_insert_Some; [rewrite HIX|]; by eapply wf_index.
  - intros key id' H. destruct (wf_keys _ _ Hwf _ _ H) as (r' & Hr' & <-).
    destruct (decide (id = id')) as [<-|Hne].
    + exists r. rewrite lookup_insert_eq. split; [done|]. congruence.
    + exists r'. by rewrite lookup_insert_ne.
Qed.

Lemma ostore_record_step n st id r0 r tokens :
  ostore_wf n st → n + 2 < two64 → operations st !! id = Some r0 → op_step tokens r0 r → op_evolves r0 r.
Proof.
  intros Hwf Hn Hl Hs. pose proof (wf_revision _ _ Hwf _ _ Hl).
  eapply op_step_evolves; [by eapply wf_valid|lia|lia|done].
Qed.

Lemma ostore_wf_step n tokens st st' :
  ostore_wf n st → 0 ≤ n → n + 2 < two64 → ostore_step tokens st st' → ostore_wf (n + 1) st'.
Proof.
  intros Hwf H0 Hn Hs. destruct (ostore_step_inv _ _ _ Hs) as
    [[_ ->]|[(r & _ & Hv & Hr & _ & Hid & Hk & ->)|(id & r0 & r & Hl & Hop & ->)]].
  - eapply ostore_wf_weaken; [|done]. lia.
  - apply (ostore_wf_weaken n); [lia|]. by apply ostore_wf_insert.
  - eapply ostore_wf_evolve; [done..|]. by eapply ostore_record_step.
Qed.

(** *** Purging *)

Lemma ostore_Purge_lookup st ctx before n st' id :
  ostore_PurgeTerminal st ctx before = Ok (n, st') →
  operations st' !! id =
    (r ← operations st !! id; if op_purgeable before r then None else Some r).
Proof.
  unfold ostore_PurgeTerminal. intros H. inv_ok. rewrite lookup_foldr_delete.
  destruct (operations st !! id) as [r|] eqn:Hl; simpl; [|by case_match].
  destruct (op_purgeable before r) eqn:Hp.
  - rewrite bool_decide_eq_true_2; [done|]. apply list_elem_of_fmap.
    exists (id, r). split; [done|]. apply list_elem_of_filter. by rewrite elem_of_map_to_list.
  - rewrite bool_decide_eq_false_2; [done|]. intros ([id' r'] & -> & Hin)%list_elem_of_fmap.
    apply list_elem_of_filter in Hin as [Hp' Hin%elem_of_map_to_list]. simpl in *. congruence.
Qed.

Lemma ostore_Purge_keys n0 st ctx before n st' key :
  ostore_wf n0 st → ostore_PurgeTerminal st ctx before = Ok (n, st') →
  keys st' !! key =
    (id ← keys st !! key; if decide (is_Some (operations st' !! id)) then Some id else None).
Proof.
  intros Hwf Hp. pose proof (λ id, ostore_Purge_lookup _ _ _ _ _ id Hp) as Hlk.
  unfold ostore_PurgeTerminal in Hp. inv_ok. rewrite lookup_foldr_delete.
  destruct (keys st !! key) as [id|] eqn:Hk; simpl; [|by case_match].
  destruct (wf_keys _ _ Hwf _ _ Hk) as (r & Hr & <-). rewrite Hlk, Hr. simpl.
  destruct (op_purgeable before r) eqn:Hpb.
  - rewrite bool_decide_eq_true_2; [rewrite decide_False; [done|by intros []]|].
    apply list_elem_of_fmap. exists (id, r). split; [done|].
    apply list_elem_of_filter. by rewrite elem_of_map_to_list.
  - rewrite decide_True by eauto. rewrite bool_decide_eq_false_2; [done|].
    intros ([id' r'] & Heq & Hin)%list_elem_of_fmap. simpl in Heq.
    apply list_elem_of_filter in Hin as [Hp' Hin%elem_of_map_to_list].
    pose proof (wf_index _ _ Hwf _ _ Hin). pose proof (wf_index _ _ Hwf _ _ Hr). simpl in *.
    rewrite Heq in *. congruence.
Qed.

Lemma ostore_wf_purge n st st' : ostore_wf n st → ostore_purge st st' → ostore_wf n st'.
Proof.
  intros Hwf Hs. destruct Hs as [st ctx before k st' Hp].
  pose proof (λ id, ostore_Purge_lookup _ _ _ _ _ id Hp) as Hlk.
  pose proof (λ key, ostore_Purge_keys _ _ _ _ _ _ key Hwf Hp) as Hky.
  assert (∀ id r, operations st' !! id = Some r → operations st !! id = Some r) as Hold.
  { intros id r. rewrite Hlk. destruct (operations st !! id); simpl; [|done]. case_match; congruence. }
  split; [by eauto using wf_id|by eauto using wf_valid|by eauto using wf_revision| |].
  - intros id r Hr. rewrite Hky, (wf_index _ _ Hwf id r) by eauto. simpl.
    rewrite decide_True by eauto. done.
  - intros key id. rewrite Hky. destruct (keys st !! key) as [id'|] eqn:Hk; simpl; [|done].
    destruct (decide _) as [[r Hr]|]; [|done]. intros [= <-]. exists r. split; [done|].
    destruct (wf_keys _ _ Hwf _ _ Hk) as (r' & Hr' & <-). apply Hold in Hr. congruence.
Qed.

Lemma ostore_reach_wf n st :
  ostore_reach n st → Z.of_nat n + 1 < two64 → ostore_wf (Z.of_nat n) st.
Proof.
  intros Hr. induction Hr as [|n tokens st st' Hr IH Hs|n st st' Hr IH Hs]; intros Hn.
  - apply ostore_wf_new.
  - rewrite Nat2Z.inj_succ. unfold Z.succ. eapply ostore_wf_step; [apply IH; lia|lia|lia|done].
  - eapply ostore_wf_weaken; [|eapply ostore_wf_purge; [apply IH; lia|done]]. lia.
Qed.

(** *** Runs *)

Lemma transition_trans a b c :
  ValidateOperationTransition a b = Ok tt → ValidateOperationTransition b c = Ok tt →
  ValidateOperationTransition a c = Ok tt.
Proof. destruct a, b, c; simpl; done. Qed.

Lemma op_leads_evolves r r' r'' : op_leads r r' → op_evolves r' r'' → op_leads r r''.
Proof.
  intros Hl [Hi Hr Ht _]. right. unfold op_revision in *. destruct Hl as [->|(Hi' & Hr' & Ht')].
  - split_and!; [done|unfold op_revision; lia|done].
  - unfold op_revision in *. split_and!; [congruence|lia|by eapply transition_trans].
Qed.

Lemma ostore_run_wf k n minted st st' :
  ostore_wf n st → 0 ≤ n → n + Z.of_nat k + 1 < two64 → ostore_run k minted st st' →
  ostore_wf (n + Z.of_nat k) st'.
Proof.
  intros Hwf H0 Hn Hr. induction Hr as [st|k minted st st' st'' tokens Hr IH Hs].
  - by rewrite Z.add_0_r.
  - replace (n + Z.of_nat (S k)) with (n + Z.of_nat k + 1) by lia.
    eapply ostore_wf_step; [apply IH; [done|lia]|lia|lia|done].
Qed.

(** A record present before a run is present after it, and has only moved forward; a token that it
    did not hold and that was not minted is not held afterwards. *)
Lemma ostore_run_leads k n minted st st' id r :
  ostore_wf n st → 0 ≤ n → n + Z.of_nat k + 1 < two64 → ostore_run k minted st st' →
  operations st !! id = Some r →
  ∃ r', operations st' !! id = Some r' ∧ op_leads r r' ∧
        (lease_token r' = None ∨ lease_token r' = lease_token r ∨ ∃ t, t ∈ minted ∧ lease_token r' = Some t).
Proof.
  intros Hwf H0 Hn Hr Hl.
  induction Hr as [st|k minted st st' st'' tokens Hr IH Hs].
  { exists r. split_and!; [done|by left|auto]. }
  destruct IH as (r' & Hr' & Hleads & Htok); [done|lia|done|].
  assert (ostore_wf (n + Z.of_nat k) st') as Hwf' by (eapply ostore_run_wf; [done..|lia|done]).
  destruct (ostore_step_inv _ _ _ Hs) as
    [[-> ->]|[(rn & -> & _ & _ & _ & Hid & _ & ->)|(id' & r0 & rn & Hl' & Hop & ->)]].
  - by exists r'.
  - exists r'. simpl. rewrite lookup_insert_ne by congruence. by split_and!.
  - simpl. destruct (decide (id' = id)) as [->|Hne].
    + exists rn. rewrite lookup_insert_eq. assert (r0 = r') as -> by congruence.
      assert (op_evolves r' rn) by (eapply ostore_record_step; [done|lia|done..]).
      split_and!; [done|by eapply op_leads_evolves|].
      destruct (op_step_token _ _ _ Hop) as [?|[->|(t & ? & ?)]]; [by left| |right; right; set_solver].
      destruct Htok as [?|[?|(t & ? & ?)]]; [by left|by right; left|right; right; set_solver].
    + exists r'. rewrite lookup_insert_ne by done. split_and!; [done..|].
      destruct Htok as [?|[?|(t & ? & ?)]]; [by left|by right; left|right; right; set_solver].
Qed.

(** A token that an operation does not hold and that is not minted stays unheld, purges included: a purged
    operation holds none, and neither does one submitted anew. *)
Lemma ostore_calls_token minted st st' id token :
  ostore_calls minted st st' → token ∉ minted →
  (∀ r, operations st !! id = Some r → lease_token r ≠ Some token) →
  ∀ r, operations st' !! id = Some r → lease_token r ≠ Some token.
Proof.
  intros Hr. induction Hr as [st|minted st st' st'' tokens Hr IH Hs|minted st st' st'' Hr IH Hs]; intros Hm Hst; [done|..].
  - assert (token ∉ tokens ∧ token ∉ minted) as [Hm1 Hm2] by set_solver. specialize (IH Hm2 Hst). intros r.
    destruct (ostore_step_inv _ _ _ Hs) as
      [[-> ->]|[(rn & -> & _ & _ & Hlease & _ & _ & ->)|(id' & r0 & rn & Hl' & Hop & ->)]]; [apply IH|..]; simpl;
      rewrite lookup_insert; case_decide as Hid; try apply IH; intros [= <-].
    + unfold lease_token. by rewrite Hlease.
    + subst id'. destruct (op_step_token _ _ _ Hop) as [->|[->|(t & ? & ->)]]; [done|by apply IH|].
      intros [= ->]. done.
  - specialize (IH Hm Hst). intros r. destruct Hs as [st0 ctx before k st1 Hp].
    rewrite (ostore_Purge_lookup _ _ _ _ _ id Hp). destruct (operations st0 !! id) as [r0|] eqn:Hl; simpl; [|done].
    case_match; [done|]. intros [= <-]. by apply IH.
Qed.

Lemma ValidateOperationProgress_leads r r' :
  op_valid r → op_valid r' → op_leads r r' →
  ValidateOperationProgress (or_Operation r) (or_Operation r') = Ok tt.
Proof.
  intros (_ & Hv & _)%op_valid_inv (_ & Hv' & _)%op_valid_inv Hl. unfold ValidateOperationProgress.
  rewrite Hv, Hv'. simpl. destruct Hl as [->|(Hi & Hr & Ht)].
  - rewrite !bool_decide_eq_true_2 by done. simpl.
    by rewrite Z.ltb_irrefl, Z.eqb_refl.
  - unfold op_identity, op_revision in *. injection Hi as HID HK _ _ _ _ _ _.
    rewrite HID, HK, !bool_decide_eq_true_2 by done. simpl.
    rewrite (proj2 (Z.ltb_ge _ _)) by lia. rewrite (proj2 (Z.eqb_neq _ _)) by lia. by rewrite Ht.
Qed.

Lemma op_leads_terminal r r' : Operation_Terminal (or_Operation r) = true → op_leads r r' → r' = r.
Proof.
  unfold Operation_Terminal, state_terminal. intros Ht [->|(_ & _ & H)]; [done|].
  by destruct (op_State (or_Operation r)).
Qed.

Lemma stale_token_fenced r token :
  lease_token r ≠ Some token → held_lease r token = None.
Proof.
  unfold lease_token, held_lease. destruct (or_Execution r); simpl; [|done]. intros Hne.
  rewrite (bool_decide_eq_false_2 (ol_Token _ = _)) by congruence. by rewrite andb_false_r.
Qed.

(** *** Listing *)

Lemma compareOperationRecords_ok : cmp_ok compareOperationRecords.
Proof.
  unfold compareOperationRecords. apply cmp_ok_or.
  - apply (cmp_ok_on (λ r, op_SubmittedAt (or_Operation r))), Z_Compare_ok.
  - apply (cmp_ok_on (λ r, op_ID (or_Operation r))), strings_Compare_ok.
Qed.

Lemma compareOperationRecords_inj n st x y :
  ostore_wf n st → x ∈ map_values (operations st) → y ∈ map_values (operations st) →
  compareOperationRecords x y = 0 → x = y.
Proof.
  intros Hwf [i Hx]%elem_of_map_values [j Hy]%elem_of_map_values [_ Hid]%cmp_or_zero.
  apply strings_Compare_eq in Hid.
  rewrite (wf_id _ _ Hwf _ _ Hx), (wf_id _ _ Hwf _ _ Hy) in Hid. congruence.
Qed.

(** *** Submission *)

Lemma SameSubmission_refl r r' :
  or_Input r = or_Input r' → or_Invocation r = or_Invocation r' → SameSubmission r r' = true.
Proof.
  intros Hi Hv. unfold SameSubmission. rewrite Hi, Hv. by rewrite !bool_decide_eq_true_2.
Qed.

Lemma PrepareNewRecord_index record now wall e r :
  PrepareNewRecord record now wall e = Ok r → IdempotencyIndex r = IdempotencyIndex record.
Proof.
  intros (_ & _ & _ & _ & Hk & Hr & Hrr & _ & _ & Hi)%PrepareNewRecord_spec.
  unfold IdempotencyIndex. by rewrite Hk, Hr, Hrr, Hi.
Qed.

Lemma PrepareNewRecord_again record record2 now wall e now2 wall2 e2 p :
  PrepareNewRecord record now wall e = Ok p → entropy_ok e2 →
  or_Kind record2 = or_Kind record → or_Resource record2 = or_Resource record →
  or_Input record2 = or_Input record → or_Invocation record2 = or_Invocation record →
  op_IdempotencyKey (or_Operation record2) = op_IdempotencyKey (or_Operation record) →
  ∃ p2, PrepareNewRecord record2 now2 wall2 e2 = Ok p2.
Proof.
  intros H He HK HR HI HV HIK. unfold PrepareNewRecord in *.
  apply bind_Ok in H as ([] & Hn & _). unfold op_ValidateNewRecord in *. simpl in *.
  rewrite HK, HR, HI, HV, HIK. destruct (is_empty (if is_empty _ then _ else _)) in Hn; [done|].
  assert (is_empty (if is_empty (op_ID (or_Operation record2)) then NewID e2
                    else op_ID (or_Operation record2)) = false) as Hid2.
  { destruct (is_empty (op_ID (or_Operation record2))) eqn:E; [|done].
    apply is_empty_false, NewID_nonempty, He. }
  rewrite Hid2. destruct (is_empty (op_IdempotencyKey (or_Operation record))) eqn:Hk; [done|].
  rewrite Hn. simpl. unfold ValidateOperation. simpl. rewrite Hid2, Hk. simpl. eauto.
Qed.

Lemma ostore_Submit_prepared st ctx record wall e out :
  ostore_Submit st ctx record wall e = Ok out → ∃ p, PrepareNewRecord record wall wall e = Ok p.
Proof.
  unfold ostore_Submit. intros H. apply bind_Ok in H as (_ & _ & H).
  apply bind_Ok in H as (p & Hp & _). eauto.
Qed.

Lemma ostore_Submit_stored n st ctx record wall e r created st' :
  ostore_wf n st → ostore_Submit st ctx record wall e = Ok (r, created, st') →
  operations st' !! op_ID (or_Operation r) = Some r ∧
  keys st' !! IdempotencyIndex record = Some (op_ID (or_Operation r)) ∧
  SameSubmission r record = true.
Proof.
  intros Hwf H. unfold ostore_Submit in H. apply bind_Ok in H as (_ & _ & H).
  apply bind_Ok in H as (r1 & Hp & H). simpl in H. pose proof (PrepareNewRecord_index _ _ _ _ _ Hp) as Hix.
  destruct (PrepareNewRecord_spec _ _ _ _ _ Hp) as (_ & _ & _ & _ & _ & _ & _ & Hin & Hinv & _).
  destruct (keys st !! IdempotencyIndex r1) as [id|] eqn:Hk.
  - destruct (operations st !! id) as [r0|] eqn:Ho; [|done].
    destruct (SameSubmission r0 r1) eqn:Hs; [|done]. injection H as <- <- <-.
    rewrite (wf_id _ _ Hwf _ _ Ho), <-Hix. split_and!; [done..|].
    unfold SameSubmission in *. by rewrite <-Hin, <-Hinv.
  - destruct (bool_decide _); [done|]. injection H as <- <- <-. simpl.
    rewrite lookup_insert_eq, Hix, lookup_insert_eq. split_and!; [done..|].
    by apply SameSubmission_refl.
Qed.

Lemma op_NormalizeMutationTime_wall wall : op_NormalizeMutationTime wall wall = wall.
Proof. unfold op_NormalizeMutationTime. by case_match. Qed.

Lemma NormalizeMutationTime_pos wall now :
  0 ≤ now → 0 < wall → 0 < op_NormalizeMutationTime wall now.
Proof. unfold op_NormalizeMutationTime. destruct (IsZero now) eqn:?; gobool; lia. Qed.

Lemma op_NormalizeMutationTime_idem wall now :
  op_NormalizeMutationTime wall (op_NormalizeMutationTime wall now) = op_NormalizeMutationTime wall now.
Proof. unfold op_NormalizeMutationTime. destruct (IsZero now) eqn:?, (IsZero wall) eqn:?; simpl; rewrite ?Heqb, ?Heqb0; done. Qed.

(** Claiming succeeds exactly on recoverable records. *)
Lemma op_Claim_Ok_iff r owner now ttl wall e :
  op_ValidateClaim owner ttl = Ok tt →
  (is_Ok (op_Claim r owner now ttl wall e) ↔ op_RecoverableAt r now wall = true).
Proof.
  intros Hv. unfold op_Claim, op_RecoverableAt, is_Ok. rewrite Hv. simpl.
  destruct (Operation_Terminal (or_Operation r)); [split; [by intros []|done]|].
  destruct (or_Execution r) as [l|]; [|split; eauto].
  destruct (After (ol_ExpiresAt l) _); simpl; (split; [first [by intros []|done]|first [done|by eauto]]).
Qed.

Lemma op_Claim_result r owner now ttl wall e r' :
  op_Claim r owner now ttl wall e = Ok r' →
  r' = with_operation r (advance (or_Operation r) OperationRunning (op_Output (or_Operation r))
         (op_Error (or_Operation r)) (op_NormalizeMutationTime wall now))
       (Some {| ol_Owner := owner; ol_Token := NewID e;
                ol_ExpiresAt := time_Add (op_NormalizeMutationTime wall now) ttl |}) ∧
  Operation_Terminal (or_Operation r) = false.
Proof.
  unfold op_Claim. intros H. apply bind_Ok in H as (_ & _ & H).
  destruct (Operation_Terminal _); [done|]. split; [|done].
  destruct (or_Execution r); [destruct (After _ _); [done|]|]; by injection H as <-.
Qed.

Lemma ostore_Claim_inv st ctx id owner now ttl wall e r st' :
  ostore_Claim st ctx id owner now ttl wall e = Ok (r, st') →
  op_ValidateClaim owner ttl = Ok tt ∧
  ∃ r0, operations st !! id = Some r0 ∧
        op_Claim r0 owner (op_NormalizeMutationTime wall now) ttl wall e = Ok r ∧
        st' = {| operations := <[id := r]> (operations st); keys := keys st |}.
Proof.
  unfold ostore_Claim. intros H. apply bind_Ok in H as (_ & _ & H).
  apply bind_Ok in H as ([] & Hv & H). split; [done|]. by apply ostore_mutate_Ok in H.
Qed.

Lemma ostore_Get_Ok st id r : ostore_Get st None id = Ok r ↔ operations st !! id = Some r.
Proof. unfold ostore_Get. simpl. destruct (operations st !! id); split; congruence. Qed.

Lemma ostore_Purge_count st before removed st' :
  ostore_PurgeTerminal st None before = Ok (removed, st') →
  removed + Z.of_nat (size (operations st')) = Z.of_nat (size (operations st)).
Proof.
  unfold ostore_PurgeTerminal. intros H. inv_ok. rewrite <-Nat2Z.inj_add. f_equal.
  apply size_foldr_delete.
  - eapply sublist_NoDup; [apply (NoDup_fst_map_to_list (operations st))|].
    apply fmap_sublist, sublist_filter.
  - intros k v [_ Hin]%list_elem_of_filter. by apply elem_of_map_to_list.
Qed.

(** *** The idempotency index *)

Definition kind_known (kind : OperationKind) : Prop :=
  match kind with OperationKindOther _ => False | _ => True end.

Lemma kind_text_no_NUL kind : kind_known kind → no_NUL (kind_text kind) = true.
Proof. by destruct kind. Qed.

Lemma kind_text_inj k1 k2 : kind_known k1 → kind_known k2 → kind_text k1 = kind_text k2 → k1 = k2.
Proof. by destruct k1, k2. Qed.

Lemma op_ValidateNewRecord_names r :
  op_ValidateNewRecord r = Ok tt → kind_known (or_Kind r) ∧ valid_name (or_Resource r).
Proof.
  unfold op_ValidateNewRecord. intros H. inv_ok.
  destruct (or_Kind r); inv_ok; (split; [done|]; by eapply ValidateResourceName_Ok).
Qed.

(** ** Theorems *)

(** Invariant of the operation store: after fewer than 2^64 - 1 calls of any kind on a new
    store, every stored record is filed under its own ID, passes the loader's validation, is found
    through its idempotency key, and every idempotency key leads to a stored record. *)
Theorem ostore_invariant n st :
  ostore_reach n st → Z.of_nat n + 1 < two64 →
  (∀ id r, operations st !! id = Some r →
     op_ID (or_Operation r) = id ∧ op_ValidateLoadedRecord r = Ok tt ∧
     keys st !! IdempotencyIndex r = Some id) ∧
  (∀ key id, keys st !! key = Some id →
     ∃ r, operations st !! id = Some r ∧ IdempotencyIndex r = key).
Proof.
  intros Hr Hn. pose proof (ostore_reach_wf _ _ Hr Hn) as Hwf. split.
  - intros id r Hl. split_and!; [by eapply wf_id|by eapply wf_valid|by eapply wf_index].
  - intros key id. by eapply wf_keys.
Qed.

(** What a poller relies on: two reads of one operation, with any calls but a purge between
    them, are accepted by [ValidateOperationProgress]. *)
Theorem ostore_poll_progress n k minted st st' id r r' :
  ostore_reach n st → ostore_run k minted st st' → Z.of_nat (n + k) + 1 < two64 →
  ostore_Get st None id = Ok r → ostore_Get st' None id = Ok r' →
  ValidateOperationProgress (or_Operation r) (or_Operation r') = Ok tt.
Proof.
  intros Hr Hrun Hn Hg Hg'. apply ostore_Get_Ok in Hg, Hg'.
  pose proof (ostore_reach_wf _ _ Hr ltac:(lia)) as Hwf.
  pose proof (ostore_run_wf k _ minted _ _ Hwf ltac:(lia) ltac:(lia) Hrun) as Hwf'.
  destruct (ostore_run_leads k _ minted _ _ id r Hwf ltac:(lia) ltac:(lia) Hrun Hg) as (r1 & Hr1 & Hl & _).
  assert (r1 = r') as -> by congruence.
  apply ValidateOperationProgress_leads; [by eapply (wf_valid _ _ Hwf)|by eapply (wf_valid _ _ Hwf')|done].
Qed.

(** A terminal operation is final: no call but a purge changes its record again. *)
Theorem ostore_terminal_final n k minted st st' id r :
  ostore_reach n st → ostore_run k minted st st' → Z.of_nat (n + k) + 1 < two64 →
  ostore_Get st None id = Ok r → Operation_Terminal (or_Operation r) = true →
  ostore_Get st' None id = Ok r.
Proof.
  intros Hr Hrun Hn Hg Ht. apply ostore_Get_Ok in Hg. apply ostore_Get_Ok.
  pose proof (ostore_reach_wf _ _ Hr ltac:(lia)) as Hwf.
  destruct (ostore_run_leads k _ minted _ _ id r Hwf ltac:(lia) ltac:(lia) Hrun Hg) as (r1 & Hr1 & Hl & _).
  by rewrite (op_leads_terminal _ _ Ht Hl) in Hr1.
Qed.

(** C25. Fencing: a worker whose token is not the current lease token of an operation, and is not minted again,
    can from then on neither renew, complete nor release the operation, whatever calls of any kind are made in
    between, purges and resubmissions under the same ID included: every attempt is refused, with
    [ErrOperationFence] as long as the store holds the operation, and with [ErrOperationNotFound] while it is
    purged. *)
Theorem ostore_stale_token_fenced minted st st' id r token now ttl wall state output text :
  ostore_calls minted st st' →
  ostore_Get st None id = Ok r → lease_token r ≠ Some token → token ∉ minted →
  0 < ttl → op_ValidateCompletionState state = Ok tt →
  let refusal := if bool_decide (is_Some (operations st' !! id)) then ErrOperationFence else ErrOperationNotFound in
  ∃ e1 e2 e3,
    ostore_Renew st' None id token now ttl wall = Err e1 ∧
    ostore_Complete st' None id token state output text wall = Err e2 ∧
    ostore_Release st' None id token wall = Err e3 ∧
    errors_Is e1 refusal = true ∧ errors_Is e2 refusal = true ∧ errors_Is e3 refusal = true.
Proof.
  intros Hrun Hg Hst Hm Httl Hcs refusal. apply ostore_Get_Ok in Hg.
  assert (∀ r', operations st' !! id = Some r' → held_lease r' token = None) as Hh.
  { intros r' Hr'. eapply stale_token_fenced, ostore_calls_token; [done|done| |done].
    intros r0 Hr0. by assert (r0 = r) as -> by congruence. }
  unfold refusal, ostore_Renew, ostore_Complete, ostore_Release, ostore_mutate. rewrite Hcs. simpl.
  unfold op_ValidateLeaseDuration. rewrite (proj2 (Z.leb_gt _ _)) by done. simpl.
  destruct (operations st' !! id) as [r'|]; [|by eauto 10].
  unfold op_Renew, op_Complete, op_Release, op_ValidateLeaseDuration.
  rewrite Hcs, (Hh r' eq_refl), (proj2 (Z.leb_gt _ _)) by done. simpl. eauto 10.
Qed.

(** Claiming and recovery agree: a claim on a stored operation succeeds exactly when the
    operation is in the list of recoverable ones, and a claim refused because of a live lease
    reports [ErrOperationClaimed]. *)
Theorem ostore_claim_iff_recoverable n st id r owner now ttl wall e :
  ostore_reach n st → Z.of_nat n + 1 < two64 → ostore_Get st None id = Ok r →
  op_ValidateClaim owner ttl = Ok tt →
  (is_Ok (ostore_Claim st None id owner now ttl wall e) ↔
   ∃ records, ostore_ListRecoverable st None now wall = Ok records ∧ r ∈ records) ∧
  (∀ lease, or_Execution r = Some lease → Operation_Terminal (or_Operation r) = false →
     After (ol_ExpiresAt lease) (op_NormalizeMutationTime wall now) = true →
     ∃ err, ostore_Claim st None id owner now ttl wall e = Err err ∧
            errors_Is err ErrOperationClaimed = true).
Proof.
  intros Hr Hn Hg Hv. apply ostore_Get_Ok in Hg.
  unfold ostore_Claim, ostore_mutate. rewrite Hv. simpl. rewrite Hg. split.
  - pose proof (op_Claim_Ok_iff r owner (op_NormalizeMutationTime wall now) ttl wall e Hv) as Hiff.
    unfold ostore_ListRecoverable. simpl. split.
    + intros [[r' st'] H]. apply bind_Ok in H as (r1 & H & _). eexists. split; [done|].
      apply elem_of_SortFunc, list_elem_of_filter. split; [apply Hiff; by exists r1|].
      apply elem_of_map_values. eauto.
    + intros (records & [= <-] & Hin). apply elem_of_SortFunc, list_elem_of_filter in Hin as [Hrec _].
      apply Hiff in Hrec as [r1 ->]. eexists. done.
  - intros lease Hl Ht Ha. unfold op_Claim. rewrite Hv, Ht, Hl. simpl.
    rewrite op_NormalizeMutationTime_idem, Ha. eexists. done.
Qed.

(** A claimed operation can be completed: before the lease ends, the holder of the minted
    token completes it with a JSON output, and every later read sees the output and no lease. *)
Theorem ostore_claim_complete n st id owner now ttl wall e r st1 wall2 output :
  ostore_reach n st → Z.of_nat n + 3 < two64 → entropy_ok e → 0 ≤ now → 0 < wall → 0 < wall2 →
  ostore_Claim st None id owner now ttl wall e = Ok (r, st1) →
  wall2 < op_NormalizeMutationTime wall now + ttl → json_Valid output = true →
  ∃ r2 st2,
    ostore_Complete st1 None id (NewID e) OperationSucceeded output "" wall2 = Ok (r2, st2) ∧
    ostore_Get st2 None id = Ok r2 ∧ op_State (or_Operation r2) = OperationSucceeded ∧
    op_Output (or_Operation r2) = output ∧ or_Execution r2 = None ∧
    op_revision r2 = op_revision r + 1.
Proof.
  intros Hr Hn He Hnow Hw Hw2 Hc Hexp Hj.
  pose proof (ostore_reach_wf _ _ Hr ltac:(lia)) as Hwf.
  destruct (ostore_Claim_inv _ _ _ _ _ _ _ _ _ _ Hc) as (_ & r0 & Hl & Hop & ->).
  assert (op_evolves r0 r) as Hev.
  { eapply ostore_record_step; [done|lia|done|]. apply (op_step_Claim _ owner (op_NormalizeMutationTime wall now) ttl wall e);
      auto using NormalizeMutationTime_nonneg. }
  destruct (op_Claim_result _ _ _ _ _ _ _ Hop) as [-> _].
  destruct Hev as [_ Hrev _ (_ & Hv & _)%op_valid_inv].
  pose proof (wf_revision _ _ Hwf _ _ Hl) as Hb. unfold op_revision in *.
  unfold ostore_Complete, ostore_mutate. simpl. rewrite lookup_insert_eq. unfold op_Complete. simpl.
  unfold held_lease. simpl. rewrite !bool_decide_eq_true_2 by done. simpl.
  rewrite op_NormalizeMutationTime_idem, (proj2 (After_true _ _))
    by (unfold time_Add; rewrite op_NormalizeMutationTime_wall; lia).
  cbn [negb]. unfold ValidateOperation in Hv |- *. simpl in Hv, Hrev |- *.
  destruct (is_empty (op_ID _)); [done|]. destruct (is_empty (op_IdempotencyKey _)); [done|].
  rewrite !Hrev, u64_small by lia. rewrite (proj2 (Z.eqb_neq _ _)) by lia. rewrite Hj. simpl.
  eexists _, _. split; [done|]. unfold ostore_Get. simpl. rewrite lookup_insert_eq. split_and!; try done.
  simpl. rewrite u64_small; lia.
Qed.

(** Submission is idempotent: after a submission was accepted, and after any calls but a
    purge, submitting the same work again returns the operation as it is now, creates nothing and
    leaves the store unchanged, whatever ID and times the second submission carries. *)
Theorem ostore_submit_idempotent n k minted st record wall e r created st1 st2 record2 wall2 e2 :
  ostore_reach n st → ostore_Submit st None record wall e = Ok (r, created, st1) →
  entropy_ok e → 0 < wall → ostore_run k minted st1 st2 → Z.of_nat (n + k) + 2 < two64 →
  entropy_ok e2 →
  or_Kind record2 = or_Kind record → or_Resource record2 = or_Resource record →
  or_ResourceRevision record2 = or_ResourceRevision record → or_Input record2 = or_Input record →
  or_Invocation record2 = or_Invocation record →
  op_IdempotencyKey (or_Operation record2) = op_IdempotencyKey (or_Operation record) →
  ∃ r2, ostore_Submit st2 None record2 wall2 e2 = Ok (r2, false, st2) ∧
        op_ID (or_Operation r2) = op_ID (or_Operation r) ∧ op_leads r r2.
Proof.
  intros Hr Hs He Hw Hrun Hn He2 HK HR HRR HI HV HIK.
  pose proof (ostore_reach_wf _ _ Hr ltac:(lia)) as Hwf.
  assert (ostore_wf (Z.of_nat n + 1) st1) as Hwf1
    by (eapply ostore_wf_step; [done|lia|lia|exact (step_Submit _ _ _ _ _ _ _ _ He Hw Hs)]).
  destruct (ostore_Submit_stored _ _ _ _ _ _ _ _ _ Hwf Hs) as (Hop & Hky & Hsame).
  destruct (ostore_run_leads k _ minted _ _ _ r Hwf1 ltac:(lia) ltac:(lia) Hrun Hop) as (r2 & Hr2 & Hl & _).
  pose proof (ostore_run_wf k _ minted _ _ Hwf1 ltac:(lia) ltac:(lia) Hrun) as Hwf2.
  assert (op_identity r2 = op_identity r) as Hid by (destruct Hl as [->|(? & _)]; done).
  assert (IdempotencyIndex record2 = IdempotencyIndex record) as Hix
    by (unfold IdempotencyIndex; by rewrite HK, HR, HRR, HIK).
  assert (IdempotencyIndex r = IdempotencyIndex record) as Hixr
    by (destruct (wf_keys _ _ Hwf1 _ _ Hky) as (? & ? & <-); congruence).
  pose proof (wf_index _ _ Hwf2 _ _ Hr2) as Hk2.
  rewrite (IdempotencyIndex_identity _ _ Hid), Hixr, <-Hix in Hk2.
  destruct (ostore_Submit_prepared _ _ _ _ _ _ Hs) as [p0 Hp0].
  destruct (PrepareNewRecord_again _ record2 _ _ _ wall2 wall2 e2 _ Hp0) as [p Hp]; [done..|].
  exists r2. split_and!; [|by apply op_ID_identity|done].
  unfold ostore_Submit. simpl. rewrite Hp. simpl.
  rewrite (PrepareNewRecord_index _ _ _ _ _ Hp), Hk2, Hr2.
  assert (SameSubmission r2 p = true) as ->; [|done].
  destruct (PrepareNewRecord_spec _ _ _ _ _ Hp) as (_ & _ & _ & _ & _ & _ & _ & Hpi & Hpv & _).
  unfold op_identity in Hid. injection Hid as _ _ _ _ _ _ Hi2 Hv2.
  unfold SameSubmission in *. by rewrite Hi2, Hv2, Hpi, Hpv, HI, HV.
Qed.

(** Listing does not depend on Go's map iteration order nor on how the unstable sort breaks
    ties: whatever permutation of the stored records is iterated, and whatever sorted permutation
    of it the sort returns, is the list the model returns. *)
Theorem ostore_list_deterministic n st iterated sorted :
  ostore_reach n st → Z.of_nat n + 1 < two64 →
  iterated ≡ₚ map_values (operations st) → sorted ≡ₚ iterated →
  StronglySorted (cmp_le compareOperationRecords) sorted →
  ostore_List st None = Ok sorted.
Proof.
  intros Hr Hn Hi Hs Hsorted. unfold ostore_List. simpl. f_equal. symmetry.
  pose proof (ostore_reach_wf _ _ Hr Hn) as Hwf.
  apply (SortFunc_unique _ compareOperationRecords_ok); [|by rewrite Hs|done].
  intros x y. by eapply compareOperationRecords_inj.
Qed.

(** Purging removes exactly the terminal operations last updated before the cutoff, reports
    how many they were, and drops exactly their idempotency keys. *)
Theorem ostore_purge_exact n st before removed st' :
  ostore_reach n st → Z.of_nat n + 1 < two64 →
  ostore_PurgeTerminal st None before = Ok (removed, st') →
  (∀ id r, ostore_Get st' None id = Ok r ↔
     ostore_Get st None id = Ok r ∧
     ¬ (Operation_Terminal (or_Operation r) = true ∧ op_UpdatedAt (or_Operation r) < before)) ∧
  (∀ key id, keys st' !! key = Some id ↔
     keys st !! key = Some id ∧ is_Some (operations st' !! id)) ∧
  removed + Z.of_nat (size (operations st')) = Z.of_nat (size (operations st)).
Proof.
  intros Hr Hn Hp. pose proof (ostore_reach_wf _ _ Hr Hn) as Hwf.
  pose proof (λ id, ostore_Purge_lookup _ _ _ _ _ id Hp) as Hlk.
  pose proof (λ key, ostore_Purge_keys _ _ _ _ _ _ key Hwf Hp) as Hky. split_and!.
  - intros id r. rewrite !ostore_Get_Ok, Hlk. destruct (operations st !! id) as [r0|]; simpl; [|naive_solver].
    unfold op_purgeable. destruct (_ && _) eqn:E; gobool; split.
    + done.
    + by intros [[= ->] []].
    + intros [= ->]. split; [done|]. intros []. destruct E; [congruence|lia].
    + by intros [[= ->] _].
  - intros key id. rewrite Hky. destruct (keys st !! key); simpl; [|naive_solver].
    case_decide; naive_solver.
  - eapply ostore_Purge_count; done.
Qed.

(** The idempotency index separates submissions: two valid records whose resource revisions
    contain no NUL byte share an index only when kind, resource, resource revision and idempotency
    key are all equal. *)
Theorem IdempotencyIndex_injective r1 r2 :
  op_ValidateNewRecord r1 = Ok tt → op_ValidateNewRecord r2 = Ok tt →
  no_NUL (or_ResourceRevision r1) = true → no_NUL (or_ResourceRevision r2) = true →
  IdempotencyIndex r1 = IdempotencyIndex r2 →
  or_Kind r1 = or_Kind r2 ∧ or_Resource r1 = or_Resource r2 ∧
  or_ResourceRevision r1 = or_ResourceRevision r2 ∧
  op_IdempotencyKey (or_Operation r1) = op_IdempotencyKey (or_Operation r2).
Proof.
  intros [Hk1 Hn1]%op_ValidateNewRecord_names [Hk2 Hn2]%op_ValidateNewRecord_names Hr1 Hr2 H.
  unfold IdempotencyIndex in H.
  apply NUL_split in H as [Hk H]; [|by apply kind_text_no_NUL..].
  apply NUL_split in H as [Hres H]; [|by apply valid_name_no_NUL..].
  apply NUL_split in H as [Hrev H]; [|done..].
  split_and!; [by apply kind_text_inj|done..].
Qed.

(** ** Witnesses

    One operation submitted at instant 1000, claimed at 2000 for 500, completed at 2100; then a
    second claim after a release. *)

Definition ex_record (id : string) : OperationRecord :=
  {| or_Operation :=
       {| op_ID := id; op_IdempotencyKey := "key-1"; op_State := OperationPending; op_Revision := 0;
          op_Output := ""; op_Error := ""; op_SubmittedAt := 0; op_UpdatedAt := 0 |};
     or_Kind := OperationKindTool; or_Resource := "bash"; or_ResourceRevision := "r1";
     or_Input := "{}"; or_Invocation := zeroInvocation; or_Execution := None |}.

Definition ex_submit := get (ex_record "", false, newMemoryOperationStore)
  (ostore_Submit newMemoryOperationStore None (ex_record "op-1") 1000 (ex_entropy 1)).
Definition ex_st1 := ex_submit.2.
Definition ex_claim := get (ex_record "", ex_st1)
  (ostore_Claim ex_st1 None "op-1" "worker-1" 2000 500 2000 (ex_entropy 2)).
Definition ex_st2 := ex_claim.2.
Definition ex_complete := get (ex_record "", ex_st2)
  (ostore_Complete ex_st2 None "op-1" (NewID (ex_entropy 2)) OperationSucceeded "{}" "" 2100).
Definition ex_st3 := ex_complete.2.

Lemma ex_step1 : ostore_step [] newMemoryOperationStore ex_st1.
Proof.
  apply (step_Submit _ None (ex_record "op-1") 1000 (ex_entropy 1) ex_submit.1.1 true);
    [by apply ex_entropy_ok|done|by vm_compute].
Qed.

Lemma ex_step2 : ostore_step [NewID (ex_entropy 2)] ex_st1 ex_st2.
Proof.
  apply (step_Claim _ None "op-1" "worker-1" 2000 500 2000 (ex_entropy 2) ex_claim.1);
    [by apply ex_entropy_ok|done|done|by vm_compute].
Qed.

Lemma ex_step3 : ostore_step [] ex_st2 ex_st3.
Proof.
  apply (step_Complete _ None "op-1" (NewID (ex_entropy 2)) OperationSucceeded "{}" "" 2100 ex_complete.1).
  by vm_compute.
Qed.

Lemma ex_reach1 : ostore_reach 1 ex_st1.
Proof. eapply reach_step; [apply reach_new|apply ex_step1]. Qed.

Lemma ex_reach2 : ostore_reach 2 ex_st2.
Proof. eapply reach_step; [apply ex_reach1|apply ex_step2]. Qed.

Lemma ex_reach3 : ostore_reach 3 ex_st3.
Proof. eapply reach_step; [apply ex_reach2|apply ex_step3]. Qed.

Lemma ex_run12 : ostore_run 1 [NewID (ex_entropy 2)] ex_st1 ex_st2.
Proof. apply (run_step 0 [] ex_st1 ex_st1 ex_st2 [NewID (ex_entropy 2)]); [apply run_refl|apply ex_step2]. Qed.

Lemma ex_run13 : ostore_run 2 [NewID (ex_entropy 2)] ex_st1 ex_st3.
Proof. apply (run_step 1 [NewID (ex_entropy 2)] ex_st1 ex_st2 ex_st3 []); [apply ex_run12|apply ex_step3]. Qed.

Lemma ostore_invariant_witness :
  keys ex_st3 !! IdempotencyIndex ex_complete.1 = Some "op-1".
Proof.
  apply (proj1 (ostore_invariant 3 ex_st3 ex_reach3 ltac:(by vm_compute)) "op-1" ex_complete.1).
  by vm_compute.
Defined.

Lemma ostore_poll_progress_witness :
  ValidateOperationProgress (or_Operation ex_submit.1.1) (or_Operation ex_complete.1) = Ok tt.
Proof.
  apply (ostore_poll_progress 1 2 _ ex_st1 ex_st3 "op-1" _ _ ex_reach1 ex_run13); by vm_compute.
Defined.

Lemma ostore_terminal_final_witness :
  ostore_Get ex_st3 None "op-1" = Ok ex_complete.1.
Proof.
  apply (ostore_terminal_final 3 0 [] ex_st3 ex_st3 "op-1" ex_complete.1 ex_reach3 (run_refl _));
    by vm_compute.
Defined.

Lemma ex_calls24 : ostore_calls [] ex_st2 newMemoryOperationStore.
Proof.
  eapply calls_purge; [eapply (calls_step [] _ _ ex_st3 []); [apply calls_refl|apply ex_step3]|].
  apply (step_Purge ex_st3 None 3000 1). by vm_compute.
Qed.

(** Completed by its holder and purged, the operation is gone for a worker with a stale token. *)
Lemma ostore_stale_token_fenced_witness :
  ∃ e1 e2 e3,
    ostore_Renew newMemoryOperationStore None "op-1" "stale" 2100 500 2100 = Err e1 ∧
    ostore_Complete newMemoryOperationStore None "op-1" "stale" OperationSucceeded "{}" "" 2100 = Err e2 ∧
    ostore_Release newMemoryOperationStore None "op-1" "stale" 2100 = Err e3 ∧
    errors_Is e1 ErrOperationNotFound = true ∧ errors_Is e2 ErrOperationNotFound = true ∧
    errors_Is e3 ErrOperationNotFound = true.
Proof.
  apply (ostore_stale_token_fenced [] ex_st2 newMemoryOperationStore "op-1" ex_claim.1
           "stale" 2100 500 2100 OperationSucceeded "{}" "" ex_calls24); try by vm_compute.
  apply not_elem_of_nil.
Defined.

Lemma ostore_claim_iff_recoverable_witness :
  ∃ err, ostore_Claim ex_st2 None "op-1" "worker-2" 2100 500 2100 (ex_entropy 3) = Err err ∧
         errors_Is err ErrOperationClaimed = true.
Proof.
  eapply (proj2 (ostore_claim_iff_recoverable 2 ex_st2 "op-1" ex_claim.1 "worker-2" 2100 500 2100
            (ex_entropy 3) ex_reach2 ltac:(by vm_compute) ltac:(by vm_compute) ltac:(by vm_compute)));
    by vm_compute.
Defined.

Lemma ostore_claim_complete_witness :
  ∃ r2 st2,
    ostore_Complete ex_st2 None "op-1" (NewID (ex_entropy 2)) OperationSucceeded "{}" "" 2100 = Ok (r2, st2) ∧
    ostore_Get st2 None "op-1" = Ok r2 ∧ op_State (or_Operation r2) = OperationSucceeded ∧
    op_Output (or_Operation r2) = "{}" ∧ or_Execution r2 = None ∧
    op_revision r2 = op_revision ex_claim.1 + 1.
Proof.
  apply (ostore_claim_complete 1 ex_st1 "op-1" "worker-1" 2000 500 2000 (ex_entropy 2) ex_claim.1
           ex_st2 2100 "{}" ex_reach1); first [by apply ex_entropy_ok|by vm_compute].
Defined.

Lemma ostore_submit_idempotent_witness :
  ∃ r2, ostore_Submit ex_st3 None (ex_record "other-id") 9000 (ex_entropy 7) = Ok (r2, false, ex_st3) ∧
        op_ID (or_Operation r2) = "op-1" ∧ op_leads ex_submit.1.1 r2.
Proof.
  apply (ostore_submit_idempotent 0 2 [NewID (ex_entropy 2)] newMemoryOperationStore (ex_record "op-1")
           1000 (ex_entropy 1) ex_submit.1.1 true ex_st1 ex_st3 (ex_record "other-id") 9000 (ex_entropy 7));
    first [by apply ex_entropy_ok|apply reach_new|apply ex_run13|by vm_compute].
Defined.

Lemma ostore_list_deterministic_witness : ostore_List ex_st3 None = Ok [ex_complete.1].
Proof.
  apply (ostore_list_deterministic 3 ex_st3 [ex_complete.1] [ex_complete.1] ex_reach3);
    first [by vm_compute|repeat constructor].
Defined.

Lemma ostore_purge_exact_witness :
  ∃ st', ostore_PurgeTerminal ex_st3 None 3000 = Ok (1, st') ∧
         1 + Z.of_nat (size (operations st')) = Z.of_nat (size (operations ex_st3)).
Proof.
  exists newMemoryOperationStore. split; [by vm_compute|].
  apply (ostore_purge_exact 3 ex_st3 3000 1 newMemoryOperationStore ex_reach3); by vm_compute.
Defined.

Lemma IdempotencyIndex_injective_witness :
  or_Kind (ex_record "a") = or_Kind (ex_record "b").
Proof.
  apply (IdempotencyIndex_injective (ex_record "a") (ex_record "b")); by vm_compute.
Defined.
