(* ===== verification/OperationWorker.v ===== *)
(** The operation worker of [internal/operationworker]: [runner.go] claims an operation, validates
    and executes it under a lease that a heartbeat goroutine renews, and records the outcome;
    [target.go] addresses operations; [pluginpolicy.InvokeOperation] shields the executor.

    A worker is the goroutine of [Runner.Run] with its heartbeat.  Its store calls are atomic; between
    any two of them other workers and other callers of the store run, so the state is a store with
    a pool of workers and a step is one store call or one decision of one worker.  The clock
    reading, the randomness and the state of the finalization context are arguments of a step.
    [Runner.Store] is not nil: both hosts set it. *)

From S2P Require Import Prelude GoText Names Invocation Operation OperationStore.

(** ** Targets *)

Record OperationRequest := {
  oq_IdempotencyKey : string;
  oq_Input : string;
  oq_Invocation : Invocation;
}.

Record OperationTarget := {
  ot_Kind : OperationKind;
  ot_Resource : string;
  ot_ResourceRevision : string;
}.

Definition OperationTarget_Record (target : OperationTarget) (request : OperationRequest) : OperationRecord :=
  {| or_Operation :=
       {| op_ID := ""; op_IdempotencyKey := oq_IdempotencyKey request;
          op_State := OperationStateOther ""; op_Revision := 0; op_Output := ""; op_Error := "";
          op_SubmittedAt := zeroTime; op_UpdatedAt := zeroTime |};
     or_Kind := ot_Kind target; or_Resource := ot_Resource target;
     or_ResourceRevision := ot_ResourceRevision target; or_Input := oq_Input request;
     or_Invocation := oq_Invocation request; or_Execution := None |}.

Definition OperationTarget_ValidateTarget (target : OperationTarget) (record : OperationRecord) : result unit :=
  fail_if negb (bool_decide (or_Kind record = ot_Kind target)) ||
          negb (bool_decide (or_Resource record = ot_Resource target)) with
    Errorf "operation %q belongs to %s %q, not %s %q"
      [AStr (op_ID (or_Operation record)); AStr (kind_text (or_Kind record)); AStr (or_Resource record);
       AStr (kind_text (ot_Kind target)); AStr (ot_Resource target)];
  Ok tt.

Definition OperationTarget_Validate (target : OperationTarget) (record : OperationRecord) : result unit :=
  try? OperationTarget_ValidateTarget target record;
  fail_if negb (is_empty (or_ResourceRevision record)) && negb (is_empty (ot_ResourceRevision target)) &&
          negb (bool_decide (or_ResourceRevision record = ot_ResourceRevision target)) with
    Errorf "operation %q resource revision %s does not match current revision %s"
      [AStr (op_ID (or_Operation record)); AStr (or_ResourceRevision record);
       AStr (ot_ResourceRevision target)];
  Ok tt.

(** ** The worker *)

(** What the executor does when it is called. *)
Inductive execution :=
  | Returns (output : string)
  | Fails (err : error)
  | Panics (recovered stack : string).

Definition InvokeOperation (x : execution) : result string :=
  match x with
  | Returns output => Ok output
  | Fails err => Err err
  | Panics recovered stack =>
      Err (Errorf "%s: %v\n%s" [AStr "plugin operation panic"; AStr recovered; AStr stack])
  end.

(** What is recorded of an operation: the answer of the executor, or the refusal of the validator. *)
Inductive verdict :=
  | Answered (answer : result string)
  | Invalid (err : error).

(** How [Run] returned. *)
Inductive run_outcome :=
  | NotClaimed (err : error)
  | NoLease
  | Panicked
  | LeaseLost (err : error)
  | Completed (v : verdict) (record : OperationRecord)
  | NotCompleted (v : verdict) (err : error)
  | Released (record : OperationRecord)
  | NotReleased (err : error).

(** Where [Run] is: before [Claim], before [validate], inside [execute], waiting for the heartbeat,
    before [Complete], before [Release]. *)
Inductive run_phase :=
  | Claiming
  | Validating (record : OperationRecord)
  | Executing (record : OperationRecord)
  | Joining (record : OperationRecord) (answer : result string)
  | Completing (record : OperationRecord) (v : verdict)
  | Releasing (record : OperationRecord)
  | Returned (o : run_outcome).

(** The goroutine [renewLease]: not started, between two ticks, after a refused renewal, ended. *)
Inductive heartbeat :=
  | BeatOff
  | Beating
  | BeatRefused (err : error)
  | BeatDone.

Record worker := {
  wk_id : string;
  wk_owner : string;
  wk_lease : duration;
  wk_validate : OperationRecord → result unit;   (* a nil validator accepts every record *)
  wk_phase : run_phase;
  wk_cancelled : bool;            (* [ctx], the context of the execution slot, is done *)
  wk_beat : heartbeat;
  wk_lost : option error;         (* the channel [leaseLost] *)
  wk_execCancelled : bool;        (* [cancelExecution] was called *)
}.

Definition newWorker (id owner : string) (lease : duration) (validate : OperationRecord → result unit) : worker :=
  {| wk_id := id; wk_owner := owner; wk_lease := lease; wk_validate := validate; wk_phase := Claiming;
     wk_cancelled := false; wk_beat := BeatOff; wk_lost := None; wk_execCancelled := false |}.

Definition with_phase (w : worker) (p : run_phase) : worker :=
  {| wk_id := wk_id w; wk_owner := wk_owner w; wk_lease := wk_lease w; wk_validate := wk_validate w;
     wk_phase := p; wk_cancelled := wk_cancelled w; wk_beat := wk_beat w; wk_lost := wk_lost w;
     wk_execCancelled := wk_execCancelled w |}.

Definition with_beat (w : worker) (b : heartbeat) (lost : option error) (execCancelled : bool) : worker :=
  {| wk_id := wk_id w; wk_owner := wk_owner w; wk_lease := wk_lease w; wk_validate := wk_validate w;
     wk_phase := wk_phase w; wk_cancelled := wk_cancelled w; wk_beat := b; wk_lost := lost;
     wk_execCancelled := execCancelled |}.

Definition with_cancelled (w : worker) : worker :=
  {| wk_id := wk_id w; wk_owner := wk_owner w; wk_lease := wk_lease w; wk_validate := wk_validate w;
     wk_phase := wk_phase w; wk_cancelled := true; wk_beat := wk_beat w; wk_lost := wk_lost w;
     wk_execCancelled := wk_execCancelled w |}.

Definition context_Canceled : error := errors_New "context canceled".

Definition worker_ctx (w : worker) : context := if wk_cancelled w then Some context_Canceled else None.

(** [heartbeatCtx] is a child of [ctx] that [stopHeartbeat] ends. *)
Definition heartbeat_stopped (w : worker) : bool :=
  wk_cancelled w || match wk_phase w with Executing _ => false | _ => true end.

Definition heartbeat_ctx (w : worker) : context :=
  if heartbeat_stopped w then Some context_Canceled else None.

Definition claimed_token (record : OperationRecord) : string :=
  match or_Execution record with Some lease => ol_Token lease | None => "" end.

Section run.
(** [err.Error()]. *)
Context (error_text : error → string).

Definition run_claim (st : ostore) (w : worker) (wall : time) (e : entropy) : ostore * worker :=
  match ostore_Claim st (worker_ctx w) (wk_id w) (wk_owner w) wall (wk_lease w) wall e with
  | Err err => (st, with_phase w (Returned (NotClaimed err)))
  | Ok (record, st') =>
      (st', with_phase w (match or_Execution record with
                          | None => Returned NoLease
                          | Some _ => Validating record
                          end))
  end.

Definition run_validate (w : worker) (record : OperationRecord) : worker :=
  match wk_validate w record with
  | Err err =>
      if wk_cancelled w then with_phase w (Releasing record)
      else with_phase w (Completing record (Invalid err))
  | Ok _ => with_beat (with_phase w (Executing record)) Beating None false
  end.

Definition run_execute (w : worker) (record : OperationRecord) (x : execution) : worker :=
  with_phase w (Joining record (InvokeOperation x)).

(** After [<-heartbeatDone]. *)
Definition run_join (w : worker) (record : OperationRecord) (answer : result string) : worker :=
  match wk_lost w with
  | Some err => with_phase w (Returned (LeaseLost err))
  | None =>
      if wk_cancelled w then with_phase w (Releasing record)
      else with_phase w (Completing record (Answered answer))
  end.

(** State, output and error text of a completion: the end of [Run] and [failClaimedInvalid]. *)
Definition verdict_state (v : verdict) : OperationState :=
  match v with Answered (Ok _) => OperationSucceeded | _ => OperationFailed end.

Definition verdict_output (v : verdict) : string :=
  match v with Answered (Ok output) => output | _ => "" end.

Definition verdict_error (v : verdict) : string :=
  match v with Answered (Ok _) => "" | Answered (Err err) | Invalid err => error_text err end.

Definition run_complete (st : ostore) (w : worker) (record : OperationRecord) (v : verdict)
    (finalization : context) (wall : time) : ostore * worker :=
  match ostore_Complete st finalization (wk_id w) (claimed_token record) (verdict_state v)
          (verdict_output v) (verdict_error v) wall with
  | Ok (completed, st') => (st', with_phase w (Returned (Completed v completed)))
  | Err err => (st, with_phase w (Returned (NotCompleted v err)))
  end.

Definition releaseClaimed (st : ostore) (w : worker) (record : OperationRecord)
    (finalization : context) (wall : time) : ostore * worker :=
  match ostore_Release st finalization (wk_id w) (claimed_token record) wall with
  | Ok (released, st') => (st', with_phase w (Returned (Released released)))
  | Err err => (st, with_phase w (Returned (NotReleased err)))
  end.

(** One tick of the heartbeat: the call of [Renew], and what follows a refusal. *)
Definition renew_tick (st : ostore) (w : worker) (token : string) (now wall : time) : ostore * worker :=
  match ostore_Renew st (heartbeat_ctx w) (wk_id w) token now (wk_lease w) wall with
  | Ok (_, st') => (st', w)
  | Err err => (st, with_beat w (BeatRefused err) (wk_lost w) (wk_execCancelled w))
  end.

Definition renew_refused (w : worker) (err : error) : worker :=
  if heartbeat_stopped w then with_beat w BeatDone (wk_lost w) (wk_execCancelled w)
  else with_beat w BeatDone (Some err) true.

(** The record a worker claimed, while it has one. *)
Definition claimed (w : worker) : option OperationRecord :=
  match wk_phase w with
  | Validating record | Executing record | Joining record _ | Completing record _ | Releasing record =>
      Some record
  | Claiming | Returned _ => None
  end.

(** [worker_step tokens st w st' w']: one step of a worker, minting [tokens]. *)
Inductive worker_step : list string → ostore → worker → ostore → worker → Prop :=
  | step_claim st w wall e st' w' :
      wk_phase w = Claiming → entropy_ok e → 0 < wall → run_claim st w wall e = (st', w') →
      worker_step [NewID e] st w st' w'
  | step_validate st w record :
      wk_phase w = Validating record → worker_step [] st w st (run_validate w record)
  | step_validate_panic st w record :
      wk_phase w = Validating record → worker_step [] st w st (with_phase w (Returned Panicked))
  | step_execute st w record x :
      wk_phase w = Executing record → worker_step [] st w st (run_execute w record x)
  | step_join st w record answer :
      wk_phase w = Joining record answer → wk_beat w = BeatDone →
      worker_step [] st w st (run_join w record answer)
  | step_complete st w record v finalization wall st' w' :
      wk_phase w = Completing record v → run_complete st w record v finalization wall = (st', w') →
      worker_step [] st w st' w'
  | step_release st w record finalization wall st' w' :
      wk_phase w = Releasing record → releaseClaimed st w record finalization wall = (st', w') →
      worker_step [] st w st' w'
  | step_tick st w record now wall st' w' :
      claimed w = Some record → wk_beat w = Beating → 0 ≤ now → 0 < wall →
      renew_tick st w (claimed_token record) now wall = (st', w') → worker_step [] st w st' w'
  | step_refused st w err :
      wk_beat w = BeatRefused err → worker_step [] st w st (renew_refused w err)
  | step_stopped st w :
      wk_beat w = Beating → heartbeat_stopped w = true →
      worker_step [] st w st (with_beat w BeatDone (wk_lost w) (wk_execCancelled w))
  | step_cancel st w : worker_step [] st w st (with_cancelled w).

(** The store and the workers that use it. *)
Record world := {
  wd_store : ostore;
  wd_pool : list worker;
}.

Inductive workers_step : list string → world → world → Prop :=
  | workers_call tokens st st' pool :
      ostore_step tokens st st' →
      workers_step tokens {| wd_store := st; wd_pool := pool |} {| wd_store := st'; wd_pool := pool |}
  | workers_spawn st pool id owner lease validate :
      workers_step [] {| wd_store := st; wd_pool := pool |}
        {| wd_store := st; wd_pool := pool ++ [newWorker id owner lease validate] |}
  | workers_work tokens st st' pool i w w' :
      pool !! i = Some w → worker_step tokens st w st' w' →
      workers_step tokens {| wd_store := st; wd_pool := pool |} {| wd_store := st'; wd_pool := <[i := w']> pool |}.

(** [workers_run n minted w w']: [n] steps that mint the tokens [minted]. *)
Inductive workers_run : nat → list string → world → world → Prop :=
  | workers_refl w : workers_run 0 [] w w
  | workers_next n minted tokens w w' w'' :
      workers_run n minted w w' → workers_step tokens w' w'' → workers_run (S n) (tokens ++ minted) w w''.

(** A world that [n] steps reach from a new store without workers. *)
Definition workers_reach (n : nat) (w : world) : Prop :=
  ∃ minted, workers_run n minted {| wd_store := newMemoryOperationStore; wd_pool := [] |} w.
End run.

(** ** The invariant of the pool *)

(** The claimed record, and what the store holds of it now. *)
Definition claim_ok (st : ostore) (w : worker) (record : OperationRecord) : Prop :=
  0 < wk_lease w ∧ is_Some (or_Execution record) ∧
  ∃ r, operations st !! wk_id w = Some r ∧ op_leads record r.

(** What the validator said of the record behind a verdict. *)
Definition verdict_ok (validate : OperationRecord → result unit) (record : OperationRecord) (v : verdict) : Prop :=
  match v with
  | Answered _ => validate record = Ok tt
  | Invalid err => validate record = Err err
  end.

(** The operation is in the store as the worker settled it. *)
Record settled (error_text : error → string) (st : ostore) (id : string)
    (validate : OperationRecord → result unit) (v : verdict) (r : OperationRecord) : Prop := {
  settled_stored : operations st !! id = Some r;
  settled_state : op_State (or_Operation r) = verdict_state v;
  settled_output : op_Output (or_Operation r) = verdict_output v;
  settled_error : op_Error (or_Operation r) = verdict_error error_text v;
  settled_lease : or_Execution r = None;
  settled_verdict : ∃ record, op_identity record = op_identity r ∧ verdict_ok validate record v;
}.

Definition beat_quiet (w : worker) : Prop := wk_beat w = BeatOff ∨ wk_beat w = BeatDone.

Definition phase_ok (error_text : error → string) (st : ostore) (w : worker) : Prop :=
  match wk_phase w with
  | Claiming => wk_beat w = BeatOff
  | Validating record => claim_ok st w record ∧ wk_beat w = BeatOff
  | Executing record | Joining record _ =>
      claim_ok st w record ∧ wk_validate w record = Ok tt ∧ wk_beat w ≠ BeatOff
  | Completing record v => claim_ok st w record ∧ verdict_ok (wk_validate w) record v ∧ beat_quiet w
  | Releasing record => claim_ok st w record ∧ beat_quiet w
  | Returned (Completed v r) => settled error_text st (wk_id w) (wk_validate w) v r ∧ beat_quiet w
  | Returned (LeaseLost err) => errors_Is err ErrOperationFence = true ∧ beat_quiet w
  | Returned _ => beat_quiet w
  end.

Record worker_ok (error_text : error → string) (st : ostore) (w : worker) : Prop := {
  ok_phase : phase_ok error_text st w;
  ok_lost err : wk_lost w = Some err → errors_Is err ErrOperationFence = true;
  ok_refused err : wk_beat w = BeatRefused err →
    heartbeat_stopped w = true ∨ errors_Is err ErrOperationFence = true;
}.

Definition completed (w : worker) : bool :=
  match wk_phase w with Returned (Completed _ _) => true | _ => false end.

Record world_ok (error_text : error → string) (n : Z) (wd : world) : Prop := {
  ok_store : ostore_wf n (wd_store wd);
  ok_pool : Forall (worker_ok error_text (wd_store wd)) (wd_pool wd);
  ok_once i j wi wj : wd_pool wd !! i = Some wi → wd_pool wd !! j = Some wj →
    wk_id wi = wk_id wj → completed wi = true → completed wj = true → i = j;
}.

(** *** The store behind the workers *)

Lemma op_leads_trans r1 r2 r3 : op_leads r1 r2 → op_leads r2 r3 → op_leads r1 r3.
Proof.
  intros [->|(Hi & Hr & Ht)]; [done|]. intros [->|(Hi' & Hr' & Ht')]; [by right|].
  right. split_and!; [congruence|lia|by eapply transition_trans].
Qed.

Lemma ostore_step_leads n tokens st st' id r :
  ostore_wf n st → 0 ≤ n → n + 2 < two64 → ostore_step tokens st st' → operations st !! id = Some r →
  ∃ r', operations st' !! id = Some r' ∧ op_leads r r' ∧
        (lease_token r' = None ∨ lease_token r' = lease_token r ∨ ∃ t, t ∈ tokens ∧ lease_token r' = Some t).
Proof.
  intros Hwf H0 Hn Hs Hl.
  destruct (ostore_run_leads 1 n (tokens ++ []) st st' id r Hwf H0 ltac:(lia)) as (r' & ? & ? & Ht);
    [by eapply run_step; [apply run_refl|]|done|].
  rewrite app_nil_r in Ht. eauto.
Qed.

Lemma claim_ok_step n tokens st st' w record :
  ostore_wf n st → 0 ≤ n → n + 2 < two64 → ostore_step tokens st st' →
  claim_ok st w record → claim_ok st' w record.
Proof.
  intros Hwf H0 Hn Hs (Hle & He & r & Hl & Hlead). split_and!; [done..|].
  destruct (ostore_step_leads _ _ _ _ _ _ Hwf H0 Hn Hs Hl) as (r' & Hl' & Hlead' & _).
  exists r'. split; [done|]. by eapply op_leads_trans.
Qed.

Lemma settled_terminal error_text st id validate v r :
  settled error_text st id validate v r → Operation_Terminal (or_Operation r) = true.
Proof. intros [_ Hs _ _ _ _]. unfold Operation_Terminal. rewrite Hs. by destruct v as [[]|]. Qed.

Lemma settled_step error_text n tokens st st' id validate v r :
  ostore_wf n st → 0 ≤ n → n + 2 < two64 → ostore_step tokens st st' →
  settled error_text st id validate v r → settled error_text st' id validate v r.
Proof.
  intros Hwf H0 Hn Hs Hset. pose proof (settled_terminal _ _ _ _ _ _ Hset) as Ht.
  destruct Hset as [Hl H1 H2 H3 H4 H5].
  destruct (ostore_step_leads _ _ _ _ _ _ Hwf H0 Hn Hs Hl) as (r' & Hl' & Hlead & _).
  rewrite (op_leads_terminal _ _ Ht Hlead) in Hl'. by split.
Qed.

(** A worker keeps its invariant while others use the store. *)
Lemma worker_ok_step error_text n tokens st st' w :
  ostore_wf n st → 0 ≤ n → n + 2 < two64 → ostore_step tokens st st' →
  worker_ok error_text st w → worker_ok error_text st' w.
Proof.
  intros Hwf H0 Hn Hs [Hp Hl Hr]. split; [|done..]. unfold phase_ok in *.
  destruct (wk_phase w) as [| | | | | |[]]; naive_solver eauto using claim_ok_step, settled_step.
Qed.

(** Every step of a worker is at most one call of the store. *)
Lemma worker_step_store error_text tokens st w st' w' :
  worker_step error_text tokens st w st' w' → st' = st ∨ ostore_step tokens st st'.
Proof.
  intros Hs. destruct Hs as [st w wall e st' w' Hp He Hw H| | | | |st w record v fin wall st' w' Hp H
    |st w record fin wall st' w' Hp H|st w record now wall st' w' Hc Hb Hnow Hw H| | |]; auto.
  - unfold run_claim in H. destruct (ostore_Claim _ _ _ _ _ _ _ _) as [[r st1]|err] eqn:E; simplify_eq; [|auto].
    right. eapply step_Claim; [done| |done|exact E]. lia.
  - unfold run_complete in H. destruct (ostore_Complete _ _ _ _ _ _ _ _) as [[r st1]|err] eqn:E; simplify_eq; [|auto].
    right. by eapply step_Complete.
  - unfold releaseClaimed in H. destruct (ostore_Release _ _ _ _ _) as [[r st1]|err] eqn:E; simplify_eq; [|auto].
    right. by eapply step_Release.
  - unfold renew_tick in H. destruct (ostore_Renew _ _ _ _ _ _ _) as [[r st1]|err] eqn:E; simplify_eq; [|auto].
    right. by eapply step_Renew.
Qed.

(** *** The store calls of a worker *)

Lemma ostore_Claim_claims st ctx w wall e record st' :
  ostore_Claim st ctx (wk_id w) (wk_owner w) wall (wk_lease w) wall e = Ok (record, st') →
  claim_ok st' w record ∧ lease_token record = Some (NewID e).
Proof.
  intros H. apply ostore_Claim_inv in H as (Hv & r0 & Hl & Hop & ->).
  apply op_Claim_result in Hop as [-> _]. unfold op_ValidateClaim, op_ValidateLeaseDuration in Hv. inv_ok. gobool.
  split; [|done]. split_and!; [done|by eexists|]. simpl. rewrite lookup_insert_eq. eexists. split; [done|by left].
Qed.

Lemma op_Complete_result r token state output text now wall r' :
  op_Complete r token state output text now wall = Ok r' →
  r' = with_operation r (advance (or_Operation r) state output text (op_NormalizeMutationTime wall now)) None ∧
  ∃ lease, held_lease r token = Some lease ∧ op_NormalizeMutationTime wall now < ol_ExpiresAt lease.
Proof.
  unfold op_Complete. intros H. apply bind_Ok in H as (_ & _ & H).
  destruct (held_lease r token) as [lease|]; [|done]. destruct (negb _) eqn:Ha; [done|].
  apply bind_Ok in H as (_ & _ & [= <-]). gobool. eauto.
Qed.

Lemma ostore_Complete_inv st ctx id token state output text wall r st' :
  ostore_Complete st ctx id token state output text wall = Ok (r, st') →
  ∃ r0, operations st !! id = Some r0 ∧ op_Complete r0 token state output text wall wall = Ok r ∧
        st' = {| operations := <[id := r]> (operations st); keys := keys st |}.
Proof.
  unfold ostore_Complete. intros H. apply bind_Ok in H as (_ & _ & H). apply bind_Ok in H as (_ & _ & H).
  by apply ostore_mutate_Ok in H.
Qed.

Lemma ostore_Complete_settles error_text st w record v ctx token wall r st' :
  claim_ok st w record → verdict_ok (wk_validate w) record v →
  ostore_Complete st ctx (wk_id w) token (verdict_state v) (verdict_output v) (verdict_error error_text v) wall
    = Ok (r, st') →
  settled error_text st' (wk_id w) (wk_validate w) v r.
Proof.
  intros (_ & _ & r1 & Hl1 & Hlead) Hv (r0 & Hl & Hop & ->)%ostore_Complete_inv.
  assert (r1 = r0) as -> by congruence.
  destruct (op_Complete_result _ _ _ _ _ _ _ _ Hop) as [-> _].
  split; [apply lookup_insert_eq|done..|]. exists record. split; [|done].
  by destruct Hlead as [->|(<- & _)].
Qed.

(** A live heartbeat is refused only by the fence. *)
Lemma ostore_Renew_fence st w record token now wall err :
  claim_ok st w record → ostore_Renew st None (wk_id w) token now (wk_lease w) wall = Err err →
  errors_Is err ErrOperationFence = true.
Proof.
  intros (Hle & _ & r & Hl & _). unfold ostore_Renew, ostore_mutate, op_Renew, op_ValidateLeaseDuration.
  rewrite (proj2 (Z.leb_gt _ _)) by done. simpl. rewrite Hl. simpl.
  destruct (held_lease r token) as [lease|]; simpl; [|by intros [= <-]].
  destruct (negb _); simpl; [by intros [= <-]|done].
Qed.

Lemma heartbeat_ctx_live w : heartbeat_stopped w = false → heartbeat_ctx w = None.
Proof. unfold heartbeat_ctx. by intros ->. Qed.

(** A claimed worker has its claim in every phase but the first and the last. *)
Lemma phase_ok_claimed error_text st w record :
  phase_ok error_text st w → claimed w = Some record → claim_ok st w record.
Proof. unfold phase_ok, claimed. destruct (wk_phase w); naive_solver. Qed.

(** The heartbeat lives only while [Run] is inside or just after [execute]. *)
Lemma phase_ok_beat error_text st w b lost execCancelled :
  phase_ok error_text st w → wk_beat w ≠ BeatOff → wk_beat w ≠ BeatDone → b ≠ BeatOff →
  phase_ok error_text st (with_beat w b lost execCancelled).
Proof.
  unfold phase_ok, beat_quiet. intros Hp H1 H2 H3. simpl.
  destruct (wk_phase w) as [| | | | | |[]]; try (exfalso; naive_solver);
    destruct Hp as (? & ? & _); by split_and!.
Qed.

(** *** Preservation *)

Lemma worker_step_ok error_text n tokens st w st' w' :
  ostore_wf n st → 0 ≤ n → n + 2 < two64 → worker_step error_text tokens st w st' w' →
  worker_ok error_text st w → worker_ok error_text st' w'.
Proof.
  intros Hwf H0 Hn Hstep Hok. pose proof (worker_step_store _ _ _ _ _ _ Hstep) as Hst.
  assert (worker_ok error_text st' w) as Hok'
    by (destruct Hst as [->|Hst]; [done|by eapply worker_ok_step]).
  destruct Hok as [Hp Hlost Href].
  destruct Hstep as [st w wall e st' w' Hph He Hw H|st w record Hph|st w record Hph|st w record x Hph
    |st w record answer Hph Hb|st w record v fin wall st' w' Hph H|st w record fin wall st' w' Hph H
    |st w record now wall st' w' Hc Hb Hnow Hw H|st w err Hb|st w Hb Hstop|st w];
    pose proof Hp as Hp0; unfold phase_ok in Hp; try rewrite Hph in Hp.
  - unfold run_claim in H. destruct (ostore_Claim _ _ _ _ _ _ _ _) as [[r st1]|err] eqn:E; simplify_eq.
    + apply ostore_Claim_claims in E as [Hcl _]. pose proof Hcl as (_ & [l Hl] & _). rewrite Hl.
      split; [by split|done|]. simpl. intros err. by rewrite Hp.
    + split; [by left|done|]. simpl. intros err'. by rewrite Hp.
  - destruct Hp as [Hcl Hb]. unfold run_validate. destruct (wk_validate w record) as [[]|err] eqn:Hv.
    + split; [by split_and!|done..].
    + destruct (wk_cancelled w); (split; [unfold phase_ok, beat_quiet; simpl; auto|done|]); simpl;
        intros err'; by rewrite Hb.
  - split; [left; apply Hp|done|]. simpl. intros err. destruct Hp as [_ ->]. done.
  - split; [done|done|]. simpl. intros err Hb. left. unfold heartbeat_stopped. simpl. by rewrite orb_true_r.
  - destruct Hp as (Hcl & Hv & _). unfold run_join. destruct (wk_lost w) as [err|] eqn:El.
    + split; [split; [by apply Hlost|by right]|simpl; rewrite El; naive_solver|]. simpl. intros err'. by rewrite Hb.
    + destruct (wk_cancelled w); (split; [unfold phase_ok, beat_quiet; simpl; auto|simpl; by rewrite El|]); simpl;
        intros err'; by rewrite Hb.
  - destruct Hp as (Hcl & Hv & Hq). unfold run_complete in H.
    destruct (ostore_Complete _ _ _ _ _ _ _ _) as [[r st1]|err] eqn:E; simplify_eq.
    + split; [split; [|done]|done|by simpl; intros ? ?; destruct Hq; congruence].
      by eapply ostore_Complete_settles.
    + split; [done|done|]. simpl. intros ? ?; destruct Hq; congruence.
  - destruct Hp as [Hcl Hq]. unfold releaseClaimed in H.
    destruct (ostore_Release _ _ _ _ _) as [[r st1]|err] eqn:E; simplify_eq;
      (split; [done|done|by simpl; intros ? ?; destruct Hq; congruence]).
  - unfold renew_tick in H. destruct (ostore_Renew _ _ _ _ _ _ _) as [[r st1]|err] eqn:E; simplify_eq; [done|].
    assert (heartbeat_stopped w = true ∨ errors_Is err ErrOperationFence = true) as Hf.
    { destruct (heartbeat_stopped w) eqn:Hst'; [by left|right]. rewrite (heartbeat_ctx_live _ Hst') in E.
      eapply ostore_Renew_fence; [by eapply phase_ok_claimed|done]. }
    split; [by apply phase_ok_beat; [|rewrite Hb..|]|done|by simpl; intros ? [= <-]].
  - unfold renew_refused. destruct (heartbeat_stopped w) eqn:Hs;
      (split; [by apply phase_ok_beat; [|rewrite Hb..|]|simpl|done]); [done|].
    intros err' [= <-]. by destruct (Href err Hb).
  - split; [by apply phase_ok_beat; [|rewrite Hb..|]|done..].
  - split; [|done|]; simpl; [apply Hok'|]. intros err Hb. left. done.
Qed.

Lemma worker_step_config error_text tokens st w st' w' :
  worker_step error_text tokens st w st' w' →
  wk_id w' = wk_id w ∧ wk_owner w' = wk_owner w ∧ wk_lease w' = wk_lease w ∧ wk_validate w' = wk_validate w.
Proof.
  intros []; simplify_eq;
    unfold run_claim, run_validate, run_join, run_complete, releaseClaimed, renew_tick, renew_refused in *;
    repeat case_match; simplify_eq; done.
Qed.

(** A worker becomes completed only by a [Complete] under its own lease, so the operation was not
    terminal before. *)
Lemma worker_step_completed error_text tokens st w st' w' :
  worker_step error_text tokens st w st' w' → completed w' = true →
  completed w = true ∨
  ∃ record r, claimed w = Some record ∧ operations st !! wk_id w = Some r ∧
    is_Some (held_lease r (claimed_token record)) ∧ Operation_Terminal (or_Operation r) = false.
Proof.
  intros Hs Hc. destruct Hs as [st w wall e st' w' Hph He Hw H|st w record Hph|st w record Hph|st w record x Hph
    |st w record answer Hph Hb|st w record v fin wall st' w' Hph H|st w record fin wall st' w' Hph H
    |st w record now wall st' w' Hcl Hb Hnow Hw H|st w err Hb|st w Hb Hstop|st w];
    unfold run_claim, run_validate, run_join, run_complete, releaseClaimed, renew_tick, renew_refused in *;
    try (repeat case_match; simplify_eq; by auto).
  unfold claimed. rewrite Hph.
  destruct (ostore_Complete _ _ _ _ _ _ _ _) as [[r st1]|err] eqn:E; simplify_eq. right.
  apply ostore_Complete_inv in E as (r0 & Hl & Hop & _).
  destruct (op_Complete_result _ _ _ _ _ _ _ _ Hop) as (_ & lease & Hh & _).
  exists record, r0. split_and!; [done..|by eexists|].
  apply held_lease_inv in Hh as (_ & Hr & _). unfold Operation_Terminal. by rewrite Hr.
Qed.

Lemma completed_terminal error_text st w :
  worker_ok error_text st w → completed w = true →
  ∃ r, operations st !! wk_id w = Some r ∧ Operation_Terminal (or_Operation r) = true.
Proof.
  intros [Hp _ _]. unfold completed, phase_ok in *. destruct (wk_phase w) as [| | | | | |[]]; try done.
  destruct Hp as [Hs _]. intros _. eexists. split; [apply Hs|by eapply settled_terminal].
Qed.

Lemma world_ok_step error_text n tokens wd wd' :
  world_ok error_text n wd → 0 ≤ n → n + 2 < two64 → workers_step error_text tokens wd wd' →
  world_ok error_text (n + 1) wd'.
Proof.
  intros [Hwf Hpool Honce] H0 Hn Hs.
  destruct Hs as [tokens st st' pool Hs|st pool id owner lease validate|tokens st st' pool i w w' Hi Hs]; simpl in *.
  - split; simpl; [by eapply ostore_wf_step| |done].
    eapply Forall_impl; [done|]. intros w. by eapply worker_ok_step.
  - split; simpl; [eapply ostore_wf_weaken; [|done]; lia| |].
    + apply Forall_app. split; [done|]. by repeat constructor.
    + intros j k wj wk [Hj|[_ Hj]]%lookup_app_Some [Hk|[_ Hk]]%lookup_app_Some; [by eapply Honce|..];
        try apply list_lookup_singleton_Some in Hj as [_ <-];
        try apply list_lookup_singleton_Some in Hk as [_ <-]; done.
  - pose proof (worker_step_store _ _ _ _ _ _ Hs) as Hst.
    pose proof (Forall_lookup_1 _ _ _ _ Hpool Hi) as Hok.
    pose proof (worker_step_config _ _ _ _ _ _ Hs) as (Hid & _).
    assert (∀ v, worker_ok error_text st v → worker_ok error_text st' v) as Hmono
      by (intros v Hv; destruct Hst as [->|Hst]; [done|by eapply worker_ok_step]).
    split; simpl.
    + destruct Hst as [->|Hst]; [eapply ostore_wf_weaken; [|done]; lia|by eapply ostore_wf_step].
    + apply Forall_insert; [by eapply Forall_impl|by eapply worker_step_ok].
    + assert (∀ j wj, j ≠ i → pool !! j = Some wj → wk_id wj = wk_id w → completed wj = true →
               completed w' = true → False) as Hone.
      { intros j wj Hne Hj Hidj Hcj Hc.
        destruct (worker_step_completed _ _ _ _ _ _ Hs Hc) as [Hcw|(rec & r & _ & Hl & _ & Ht)];
          [by apply Hne, (Honce j i wj w)|].
        destruct (completed_terminal _ _ _ (Forall_lookup_1 _ _ _ _ Hpool Hj) Hcj) as (r' & Hl' & Ht').
        rewrite Hidj in Hl'. congruence. }
      intros j k wj wk [(<- & <- & _)|[Hji Hj]]%list_lookup_insert_Some
        [(<- & <- & _)|[Hki Hk]]%list_lookup_insert_Some Hidjk Hcj Hck; [done|..|by eapply Honce].
      * exfalso. eapply Hone; [|done|..]; congruence.
      * exfalso. eapply Hone; [|done|..]; congruence.
Qed.

Lemma world_ok_run error_text k n minted wd wd' :
  world_ok error_text n wd → 0 ≤ n → n + Z.of_nat k + 1 < two64 → workers_run error_text k minted wd wd' →
  world_ok error_text (n + Z.of_nat k) wd'.
Proof.
  intros Hok H0 Hn Hr. induction Hr as [wd|k minted tokens wd wd1 wd2 Hr IH Hs].
  - by rewrite Z.add_0_r.
  - replace (n + Z.of_nat (S k)) with (n + Z.of_nat k + 1) by lia.
    eapply world_ok_step; [apply IH; [done|lia]|lia|lia|done].
Qed.

Lemma workers_reach_ok error_text n wd :
  workers_reach error_text n wd → Z.of_nat n + 1 < two64 → world_ok error_text (Z.of_nat n) wd.
Proof.
  intros [minted Hr] Hn. apply (world_ok_run error_text n 0 minted _ _) in Hr; [done| |done|lia].
  split; [apply ostore_wf_new|constructor|done].
Qed.

(** ** Theorems *)

(** C12. Exactly one worker settles an operation, and truthfully.  On a store from which nothing is purged (the
    other callers may make every call but [PurgeTerminal], which would remove the settled record), and however
    workers and those callers interleave: when [Run] returned with its outcome recorded, the store holds that
    record from then on, with the state, output and error of the executor's answer (or of the validator's
    refusal), without a lease; the executor's answer was recorded only for a record the validator accepted; and
    no other worker of the pool ever records an outcome for that operation. *)
Theorem worker_settles_once error_text n wd i w v r :
  workers_reach error_text n wd → Z.of_nat n + 1 < two64 →
  wd_pool wd !! i = Some w → wk_phase w = Returned (Completed v r) →
  ostore_Get (wd_store wd) None (wk_id w) = Ok r ∧
  match v with
  | Answered (Ok output) =>
      op_State (or_Operation r) = OperationSucceeded ∧ op_Output (or_Operation r) = output ∧
      op_Error (or_Operation r) = ""
  | Answered (Err err) | Invalid err =>
      op_State (or_Operation r) = OperationFailed ∧ op_Output (or_Operation r) = "" ∧
      op_Error (or_Operation r) = error_text err
  end ∧
  or_Execution r = None ∧
  (∃ record, op_identity record = op_identity r ∧ verdict_ok (wk_validate w) record v) ∧
  (∀ j w', wd_pool wd !! j = Some w' → wk_id w' = wk_id w → completed w' = true → j = i).
Proof.
  intros Hr Hn Hi Hph. destruct (workers_reach_ok _ _ _ Hr Hn) as [_ Hpool Honce].
  pose proof (ok_phase _ _ _ (Forall_lookup_1 _ _ _ _ Hpool Hi)) as Hp. unfold phase_ok in Hp. rewrite Hph in Hp.
  destruct Hp as [[Hl H1 H2 H3 H4 H5] _]. split_and!; [by apply ostore_Get_Ok|by destruct v as [[]|]|done..|].
  intros j w' Hj Hid Hc. eapply Honce; [done|done|done|done|]. unfold completed. by rewrite Hph.
Qed.

(** A worker whose lease is gone: its token is not the one in the store. *)
Definition superseded (st : ostore) (w : worker) (record : OperationRecord) : Prop :=
  ∃ r, operations st !! wk_id w = Some r ∧ lease_token r ≠ Some (claimed_token record).

Lemma superseded_step n tokens st st' w record :
  ostore_wf n st → 0 ≤ n → n + 2 < two64 → ostore_step tokens st st' → claimed_token record ∉ tokens →
  superseded st w record → superseded st' w record.
Proof.
  intros Hwf H0 Hn Hs Hfresh (r & Hl & Hne).
  destruct (ostore_step_leads _ _ _ _ _ _ Hwf H0 Hn Hs Hl) as (r' & Hl' & _ & Ht).
  exists r'. split; [done|]. destruct Ht as [->|[->|(t & Hin & ->)]]; [done|done|]. by intros [= ->].
Qed.

(** A worker keeps its phase, claims, moves on with its claim, or returns. *)
Lemma worker_step_phase error_text tokens st w st' w' :
  worker_step error_text tokens st w st' w' →
  wk_phase w' = wk_phase w ∨ wk_phase w = Claiming ∨
  ∃ record, claimed w = Some record ∧ (claimed w' = Some record ∨ ∃ o, wk_phase w' = Returned o).
Proof.
  intros Hs. destruct Hs as [st w wall e st' w' Hph He Hw H|st w record Hph|st w record Hph|st w record x Hph
    |st w record answer Hph Hb|st w record v fin wall st' w' Hph H|st w record fin wall st' w' Hph H
    |st w record now wall st' w' Hcl Hb Hnow Hw H|st w err Hb|st w Hb Hstop|st w]; [by auto|..];
    [right; right; exists record; unfold claimed; rewrite Hph; split; [done|]..| | | |by left].
  1-6: unfold run_validate, run_execute, run_join, run_complete, releaseClaimed in *; repeat case_match;
    simplify_eq; simpl in *; simplify_eq; eauto.
  all: left; unfold renew_tick, renew_refused in *; repeat case_match; simplify_eq; done.
Qed.

(** Its own steps do not record anything either. *)
Lemma superseded_own error_text n tokens st w st' w' record :
  ostore_wf n st → worker_step error_text tokens st w st' w' → claimed w = Some record → superseded st w record →
  completed w' = false ∧ (claimed w' = Some record ∨ ∃ o, wk_phase w' = Returned o).
Proof.
  intros Hwf Hs Hc (r & Hl & Hne). split.
  - destruct (completed w') eqn:Hc'; [|done].
    destruct (worker_step_completed _ _ _ _ _ _ Hs Hc') as [Hcw|(rec & r' & Hc2 & Hl' & [l Hh] & _)].
    + unfold completed, claimed in *. by destruct (wk_phase w) as [| | | | | |[]].
    + rewrite Hc in Hc2. injection Hc2 as <-. rewrite Hl in Hl'. injection Hl' as <-.
      by rewrite stale_token_fenced in Hh.
  - destruct (worker_step_phase _ _ _ _ _ _ Hs) as [Heq|[Heq|(record' & Hc' & Hw')]].
    + left. unfold claimed in *. by rewrite Heq.
    + unfold claimed in Hc. by rewrite Heq in Hc.
    + rewrite Hc in Hc'. injection Hc' as <-. done.
Qed.

(** A worker that lost its lease is fenced: once the store's record of the operation does not carry
    the token of the worker's claim (it was cancelled, released, settled, or claimed by another worker),
    then whatever everyone does, as long as no identifier repeats that token, this [Run] never
    records an outcome. *)
Theorem worker_superseded_never_settles error_text n k minted wd wd' i w record :
  workers_reach error_text n wd → workers_run error_text k minted wd wd' → Z.of_nat (n + k) + 1 < two64 →
  wd_pool wd !! i = Some w → claimed w = Some record → superseded (wd_store wd) w record →
  claimed_token record ∉ minted →
  ∃ w', wd_pool wd' !! i = Some w' ∧ completed w' = false ∧ wk_id w' = wk_id w ∧
        (claimed w' = Some record ∧ superseded (wd_store wd') w' record ∨ ∃ o, wk_phase w' = Returned o).
Proof.
  intros Hr Hrun Hn Hi Hc Hsup Hfresh.
  pose proof (workers_reach_ok _ _ _ Hr ltac:(lia)) as Hok.
  induction Hrun as [wd|k minted tokens wd wd1 wd2 Hrun IH Hs].
  { exists w. split_and!; [done| |done|by left]. unfold completed, claimed in *. by destruct (wk_phase w) as [| | | | | |[]]. }
  apply not_elem_of_app in Hfresh as [Hf1 Hf2].
  destruct (IH Hr ltac:(lia) Hi Hsup Hf2 Hok) as (w1 & Hi1 & Hc1 & Hid1 & Hw1). clear IH.
  pose proof (world_ok_run _ k (Z.of_nat n) _ _ _ Hok ltac:(lia) ltac:(lia) Hrun) as [Hwf _ _].
  assert (∀ st', ostore_step tokens (wd_store wd1) st' → superseded (wd_store wd1) w1 record → superseded st' w1 record) as Hmono
    by (intros st' Hst; eapply superseded_step; [exact Hwf|lia|lia|done|done]).
  destruct Hs as [tokens st st' pool Hs|st pool id owner lease validate|tokens st st' pool j u u' Hj Hs]; simpl in *.
  - exists w1. naive_solver.
  - exists w1. rewrite (lookup_app_l_Some _ _ _ _ Hi1). naive_solver.
  - destruct (decide (j = i)) as [->|Hne].
    + assert (u = w1) as -> by congruence. exists u'. rewrite list_lookup_insert_eq by (by eapply lookup_lt_Some).
      destruct (worker_step_config _ _ _ _ _ _ Hs) as (Hid & _). rewrite Hid, Hid1. split; [done|].
      destruct Hw1 as [[Hcl Hs1]|[o Ho]].
      * destruct (superseded_own _ _ _ _ _ _ _ _ Hwf Hs Hcl Hs1) as [? [?|?]]; split_and!; auto. left. split; [done|].
        unfold superseded. rewrite Hid. destruct (worker_step_store _ _ _ _ _ _ Hs) as [->|Hst]; [done|by apply Hmono].
      * assert (wk_phase u' = Returned o) as Ho'
          by (destruct (worker_step_phase _ _ _ _ _ _ Hs) as [?|[?|(? & Hcl & _)]]; [congruence..|];
              unfold claimed in Hcl; by rewrite Ho in Hcl).
        unfold completed in *. rewrite Ho', Ho in *. eauto.
    + exists w1. rewrite list_lookup_insert_ne by done. split_and!; [done..|].
      destruct Hw1 as [[Hcl Hs1]|?]; [|by right]. left. split; [done|].
      destruct (worker_step_store _ _ _ _ _ _ Hs) as [->|Hst]; [done|by apply Hmono].
Qed.

(** What [ValidateOperation] accepts as a result. *)
Definition recordable (error_text : error → string) (v : verdict) : bool :=
  match v with
  | Answered (Ok output) => json_Valid output
  | Answered (Err err) | Invalid err => negb (is_empty (error_text err))
  end.

Lemma ValidateOperation_completion error_text op v now :
  ValidateOperation op = Ok tt → 0 < op_Revision op → op_Revision op + 1 < two64 →
  let op' := advance op (verdict_state v) (verdict_output v) (verdict_error error_text v) now in
  if recordable error_text v then ValidateOperation op' = Ok tt
  else ∃ err, ValidateOperation op' = Err err ∧ ∀ s, errors_Is err s = false.
Proof.
  intros Hv Hlo Hhi. cbv zeta. unfold ValidateOperation in *. simpl.
  destruct (is_empty (op_ID op)); [done|]. destruct (is_empty (op_IdempotencyKey op)); [done|].
  rewrite u64_small, (proj2 (Z.eqb_neq _ _)) by lia. unfold recordable.
  destruct v as [[output|err]|err]; simpl.
  - destruct (json_Valid output); simpl; eauto.
  - destruct (is_empty (error_text err)); simpl; eauto.
  - destruct (is_empty (error_text err)); simpl; eauto.
Qed.

(** The call of [Complete] at the end of a run, refused and accepted. *)
Definition complete_refused error_text (st : ostore) w record v wall (fence : bool) : Prop :=
  ∃ err, run_complete error_text st w record v None wall = (st, with_phase w (Returned (NotCompleted v err))) ∧
         errors_Is err ErrOperationFence = fence.

Definition complete_accepted error_text (st : ostore) w record v wall (r : OperationRecord) : Prop :=
  ∃ r' st', run_complete error_text st w record v None wall = (st', with_phase w (Returned (Completed v r'))) ∧
            ostore_Get st' None (wk_id w) = Ok r' ∧ op_revision r' = op_revision r + 1 ∧
            op_identity r' = op_identity r.

Lemma run_complete_outcome error_text n st w record v wall r :
  ostore_wf n st → n + 2 < two64 → operations st !! wk_id w = Some r →
  match held_lease r (claimed_token record) with
  | None => complete_refused error_text st w record v wall true
  | Some lease =>
      if negb (wall <? ol_ExpiresAt lease) then complete_refused error_text st w record v wall true
      else if recordable error_text v then complete_accepted error_text st w record v wall r
      else complete_refused error_text st w record v wall false
  end.
Proof.
  intros Hwf Hn Hl. pose proof (wf_valid _ _ Hwf _ _ Hl) as (_ & Hv & _)%op_valid_inv.
  pose proof (wf_revision _ _ Hwf _ _ Hl) as Hrev. unfold op_revision in *.
  pose proof (ValidateOperation_completion error_text (or_Operation r) v wall Hv ltac:(lia) ltac:(lia)) as Hval.
  unfold complete_refused, complete_accepted, run_complete, ostore_Complete, ostore_mutate, op_Complete.
  assert (op_ValidateCompletionState (verdict_state v) = Ok tt) as -> by (by destruct v as [[]|]).
  cbn [ctx_Err result_bind]. rewrite Hl, op_NormalizeMutationTime_wall. cbn [result_bind].
  destruct (held_lease r (claimed_token record)) as [lease|]; cbn [result_bind]; [|eauto].
  unfold After. destruct (wall <? ol_ExpiresAt lease) eqn:Hexp; cbn [negb]; [|cbn [result_bind]; eauto].
  cbn [or_Operation with_operation] in *. cbv zeta in Hval. destruct (recordable error_text v).
  - rewrite Hval. cbn [result_bind]. eexists _, _. split; [done|]. unfold op_revision. simpl.
    rewrite u64_small by lia. split_and!; [|done..]. apply ostore_Get_Ok, lookup_insert_eq.
  - destruct Hval as (err & -> & Hf). cbn [result_bind]. eauto.
Qed.

(** What the last step of [Run] does, on every branch: the executor's answer (or the validator's
    refusal) is recorded exactly when the worker still holds the lease, the lease has not ended, and
    the answer is a valid result; then the operation has one more revision.  A worker without the lease
    is refused with [ErrOperationFence]; an answer that is no valid result (output that is not JSON, or
    an error with no text) is refused with another error.  Both refusals leave the store as it was. *)
Theorem worker_complete_outcome error_text n wd i w record v wall :
  workers_reach error_text n wd → Z.of_nat n + 2 < two64 →
  wd_pool wd !! i = Some w → wk_phase w = Completing record v →
  ∃ r, ostore_Get (wd_store wd) None (wk_id w) = Ok r ∧ op_leads record r ∧
    match held_lease r (claimed_token record) with
    | None => complete_refused error_text (wd_store wd) w record v wall true
    | Some lease =>
        if negb (wall <? ol_ExpiresAt lease) then complete_refused error_text (wd_store wd) w record v wall true
        else if recordable error_text v then complete_accepted error_text (wd_store wd) w record v wall r
        else complete_refused error_text (wd_store wd) w record v wall false
    end.
Proof.
  intros Hr Hn Hi Hph. destruct (workers_reach_ok _ _ _ Hr ltac:(lia)) as [Hwf Hpool _].
  destruct (phase_ok_claimed error_text (wd_store wd) w record) as (_ & _ & r & Hl & Hlead);
    [apply (Forall_lookup_1 _ _ _ _ Hpool Hi)|unfold claimed; by rewrite Hph|].
  exists r. split_and!; [by apply ostore_Get_Ok|done|]. by eapply run_complete_outcome.
Qed.

(** The steps a worker has left, renewals aside. *)
Definition phase_rank (p : run_phase) : nat :=
  match p with
  | Claiming => 5
  | Validating _ => 4
  | Executing _ => 3
  | Joining _ _ => 2
  | Completing _ _ | Releasing _ => 1
  | Returned _ => 0
  end.

Definition beat_rank (b : heartbeat) : nat :=
  match b with Beating => 2 | BeatRefused _ => 1 | BeatOff | BeatDone => 0 end.

Definition worker_measure (w : worker) : nat := 3 * phase_rank (wk_phase w) + beat_rank (wk_beat w).

Lemma worker_step_measure error_text tokens st w st' w' :
  worker_step error_text tokens st w st' w' →
  (w' = w ∧ wk_beat w = Beating) ∨ w' = with_cancelled w ∨ (worker_measure w' < worker_measure w)%nat.
Proof.
  intros Hs. destruct Hs as [st w wall e st' w' Hph He Hw H|st w record Hph|st w record Hph|st w record x Hph
    |st w record answer Hph Hb|st w record v fin wall st' w' Hph H|st w record fin wall st' w' Hph H
    |st w record now wall st' w' Hcl Hb Hnow Hw H|st w err Hb|st w Hb Hstop|st w]; [..|by auto];
    unfold worker_measure; rewrite ?Hph, ?Hb;
    unfold run_claim, run_validate, run_execute, run_join, run_complete, releaseClaimed, renew_tick, renew_refused in *;
    repeat case_match; simplify_eq; auto; right; right; simpl; rewrite ?Hb; simpl; try lia;
    destruct (wk_beat w); simpl; lia.
Qed.

(** A worker that has not returned can move on. *)
Lemma worker_enabled error_text st w (x : execution) :
  worker_ok error_text st w →
  (∃ o, wk_phase w = Returned o) ∨
  ∃ tokens st' w', worker_step error_text tokens st w st' w' ∧ (worker_measure w' < worker_measure w)%nat.
Proof.
  intros [Hp _ _].
  assert ((∃ o, wk_phase w = Returned o) ∨ ∃ tokens st' w', worker_step error_text tokens st w st' w' ∧
            w' ≠ with_cancelled w ∧ (w' ≠ w ∨ wk_beat w ≠ Beating)) as [?|(tokens & st' & w' & Hs & Hne & Hne')];
    [|by left|right; exists tokens, st', w'; split; [done|];
      by destruct (worker_step_measure _ _ _ _ _ _ Hs) as [[]|[]]; [destruct Hne'|..]].
  assert (∀ p, p ≠ wk_phase w → with_phase w p ≠ with_cancelled w ∧ (with_phase w p ≠ w ∨ wk_beat w ≠ Beating)) as Hneq
    by (intros p Hne; split; [|left]; intros Heq; apply (f_equal wk_phase) in Heq; done).
  unfold phase_ok in Hp. destruct (wk_phase w) as [|record|record|record answer|record v|record|o] eqn:Hph; [..|eauto].
  all: right.
  - destruct (run_claim st w 1 (ex_entropy 1)) as [st' w'] eqn:H. exists [NewID (ex_entropy 1)], st', w'.
    split; [apply (step_claim _ _ _ 1 (ex_entropy 1)); [done|by apply ex_entropy_ok|done|done]|]. unfold run_claim in H.
    repeat case_match; simplify_eq; by apply Hneq.
  - exists [], st, (run_validate w record). split; [by apply step_validate|]. unfold run_validate.
    repeat case_match; [|by apply Hneq..]. destruct (Hneq (Executing record)) as [Hn _]; [done|].
    split; [|left]; intros Heq; apply (f_equal wk_phase) in Heq; simpl in Heq; congruence.
  - exists [], st, (run_execute w record x). split; [by apply step_execute|by apply Hneq].
  - destruct Hp as (_ & _ & Hb). destruct (wk_beat w) eqn:Hbeat; [done|..].
    + exists [], st, (with_beat w BeatDone (wk_lost w) (wk_execCancelled w)). split.
      * apply step_stopped; [done|]. unfold heartbeat_stopped. rewrite Hph. by rewrite orb_true_r.
      * split; [|left]; intros Heq; apply (f_equal wk_beat) in Heq; simpl in Heq; congruence.
    + exists [], st, (renew_refused w err). split; [by apply step_refused|].
      split; [|by right]. unfold renew_refused. intros Heq; apply (f_equal wk_beat) in Heq.
      case_match; simpl in Heq; congruence.
    + exists [], st, (run_join w record answer). split; [by apply step_join|].
      unfold run_join. repeat case_match; by apply Hneq.
  - destruct (run_complete error_text st w record v None 1) as [st' w'] eqn:H. exists [], st', w'.
    split; [by eapply step_complete|]. unfold run_complete in H. repeat case_match; simplify_eq; by apply Hneq.
  - destruct (releaseClaimed st w record None 1) as [st' w'] eqn:H. exists [], st', w'.
    split; [by eapply step_release|]. unfold releaseClaimed in H. repeat case_match; simplify_eq; by apply Hneq.
Qed.

(** [Run] returns: a worker has at most 15 steps to take, renewals and the arrival of a cancellation
    aside, whatever the rest of the pool does; renewals stop with the heartbeat, and until it has
    returned a worker always has a next step (inside [execute] it is the executor that answers), so
    waiting for the heartbeat goroutine never blocks it. *)
Theorem worker_progress error_text n wd i w x :
  workers_reach error_text n wd → Z.of_nat n + 1 < two64 → wd_pool wd !! i = Some w →
  (worker_measure w ≤ 15)%nat ∧
  (∀ tokens st' w', worker_step error_text tokens (wd_store wd) w st' w' →
     (w' = w ∧ wk_beat w = Beating) ∨ w' = with_cancelled w ∨ (worker_measure w' < worker_measure w)%nat) ∧
  ((∃ o, wk_phase w = Returned o) ∨
   ∃ tokens st' w', worker_step error_text tokens (wd_store wd) w st' w' ∧
     (worker_measure w' < worker_measure w)%nat ∧
     (∀ record, wk_phase w = Executing record → w' = run_execute w record x)).
Proof.
  intros Hr Hn Hi. destruct (workers_reach_ok _ _ _ Hr Hn) as [_ Hpool _].
  pose proof (Forall_lookup_1 _ _ _ _ Hpool Hi) as Hok. split_and!.
  - destruct Hok as [Hp _ _]. unfold worker_measure, phase_ok, beat_quiet in *.
    destruct (wk_phase w) as [| | | | | |[]]; destruct (wk_beat w); simpl; try lia; naive_solver.
  - intros tokens st' w'. apply worker_step_measure.
  - destruct (wk_phase w) as [| |record| | | |] eqn:Hph.
    3: { right. exists [], (wd_store wd), (run_execute w record x).
         split; [by apply step_execute|]. split; [|by intros ? [= <-]].
         unfold worker_measure, run_execute. rewrite Hph. simpl. lia. }
    all: destruct (worker_enabled _ _ _ x Hok) as [[o1 Ho]|(tokens & st' & w' & Hs & Hm)]; [left; exists o1; congruence|].
    all: right; exists tokens, st', w'; split_and!; done.
Qed.

(** An answer that cannot be recorded is not recorded as a failure either: when the executor
    succeeds with an output that is not JSON, or fails with an error that has no text, the refused
    [Complete] is only logged.  The operation stays running under the worker's lease although [Run] has
    returned, and once the lease has ended it is handed out for execution again. *)
Theorem worker_unrecordable_answer_repeats error_text n wd i w record v wall r lease now wall2 :
  workers_reach error_text n wd → Z.of_nat n + 2 < two64 →
  wd_pool wd !! i = Some w → wk_phase w = Completing record v → recordable error_text v = false →
  ostore_Get (wd_store wd) None (wk_id w) = Ok r → held_lease r (claimed_token record) = Some lease →
  ol_ExpiresAt lease ≤ now → 0 < now →
  ∃ err records,
    run_complete error_text (wd_store wd) w record v None wall =
      (wd_store wd, with_phase w (Returned (NotCompleted v err))) ∧
    op_State (or_Operation r) = OperationRunning ∧
    ostore_ListRecoverable (wd_store wd) None now wall2 = Ok records ∧ r ∈ records.
Proof.
  intros Hr Hn Hi Hph Hv Hg Hh Hexp Hnow. destruct (workers_reach_ok _ _ _ Hr ltac:(lia)) as [Hwf _ _].
  pose proof (run_complete_outcome error_text _ _ w record v wall r Hwf Hn ltac:(by apply ostore_Get_Ok)) as Hout.
  rewrite Hh, Hv in Hout.
  assert (∃ fence, complete_refused error_text (wd_store wd) w record v wall fence) as (fence & err & Herr & _)
    by (destruct (negb _); eauto).
  pose proof (held_lease_inv _ _ _ Hh) as (He & Hs & _). eexists err, _. split_and!; [done..|].
  apply elem_of_SortFunc, list_elem_of_filter. split; [|apply elem_of_map_values; exists (wk_id w); by apply ostore_Get_Ok].
  unfold op_RecoverableAt, Operation_Terminal. rewrite Hs, He. simpl. unfold op_NormalizeMutationTime.
  rewrite !(proj2 (IsZero_false now)) by lia. apply negb_true_iff, After_false. done.
Qed.

(** ** Witnesses

    The operation of [OperationStore]'s witnesses: a worker claims it at 2000 for 500, the executor
    answers, the heartbeat stops, and the worker records the answer at 2100. *)

Definition ex_text (_ : error) : string := "failed".

Definition ex_worker : worker := newWorker "op-1" "worker-1" 500 (λ _, Ok tt).

Definition ex_claimed : ostore * worker := run_claim ex_st1 ex_worker 2000 (ex_entropy 2).
Definition ex_executing : ostore * worker := (ex_claimed.1, run_validate ex_claimed.2 ex_claim.1).
Definition ex_joining (x : execution) : ostore * worker :=
  (ex_executing.1, run_execute ex_executing.2 ex_claim.1 x).
Definition ex_stopped (x : execution) : ostore * worker :=
  (ex_executing.1, with_beat (ex_joining x).2 BeatDone None false).
Definition ex_completing (x : execution) : ostore * worker :=
  (ex_executing.1, run_join (ex_stopped x).2 ex_claim.1 (InvokeOperation x)).
Definition ex_settled (x : execution) : ostore * worker :=
  run_complete ex_text ex_executing.1 (ex_completing x).2 ex_claim.1 (Answered (InvokeOperation x)) None 2100.

Definition ex_world (c : ostore * worker) : world := {| wd_store := c.1; wd_pool := [c.2] |}.

Lemma workers_next_one error_text n minted tokens w c c' :
  workers_run error_text n minted w (ex_world c) → worker_step error_text tokens c.1 c.2 c'.1 c'.2 →
  workers_run error_text (S n) (tokens ++ minted) w (ex_world c').
Proof. intros Hr Hs. eapply workers_next; [done|]. by apply (workers_work _ tokens c.1 c'.1 [c.2] 0 c.2 c'.2). Qed.

Definition ex_start : world := {| wd_store := newMemoryOperationStore; wd_pool := [] |}.

Lemma ex_pool2 : workers_run ex_text 2 [] ex_start (ex_world (ex_st1, ex_worker)).
Proof.
  apply (workers_next _ 1 [] [] _ {| wd_store := ex_st1; wd_pool := [] |}); [|apply (workers_spawn _ _ [])].
  apply (workers_next _ 0 [] [] _ ex_start); [apply workers_refl|apply workers_call, ex_step1].
Qed.

Lemma ex_pool4 : workers_run ex_text 4 [NewID (ex_entropy 2)] ex_start (ex_world ex_executing).
Proof.
  apply (workers_next_one _ 3 _ [] _ ex_claimed); [|by apply step_validate].
  apply (workers_next_one _ 2 [] [NewID (ex_entropy 2)] _ (ex_st1, ex_worker)); [apply ex_pool2|].
  apply (step_claim _ _ _ 2000); [done|by apply ex_entropy_ok|done|by vm_compute].
Qed.

Lemma ex_pool7 answer : workers_run ex_text 7 [NewID (ex_entropy 2)] ex_start (ex_world (ex_completing answer)).
Proof.
  apply (workers_next_one _ 6 _ [] _ (ex_stopped answer)); [|apply step_join; [done|done]].
  apply (workers_next_one _ 5 _ [] _ (ex_joining answer)); [|apply step_stopped; [done|done]].
  apply (workers_next_one _ 4 _ [] _ ex_executing); [|apply step_execute; done].
  apply ex_pool4.
Qed.

Lemma ex_pool8 : workers_reach ex_text 8 (ex_world (ex_settled (Returns "{}"))).
Proof.
  eexists. apply (workers_next_one _ 7 [NewID (ex_entropy 2)] [] _ (ex_completing (Returns "{}"))); [apply ex_pool7|].
  apply (step_complete _ _ _ ex_claim.1 (Answered (Ok "{}")) None 2100); [done|].
  unfold ex_settled. apply surjective_pairing.
Qed.

Lemma worker_settles_once_witness :
  ostore_Get (ex_settled (Returns "{}")).1 None "op-1" = Ok ex_complete.1 ∧
  op_Output (or_Operation ex_complete.1) = "{}".
Proof.
  destruct (worker_settles_once ex_text 8 (ex_world (ex_settled (Returns "{}"))) 0 (ex_settled (Returns "{}")).2
              (Answered (Ok "{}")) ex_complete.1 ex_pool8) as (? & (_ & ? & _) & _); [by vm_compute..|done].
Defined.

(** The same operation, cancelled while it is executed. *)
Definition ex_cancelled : ostore :=
  (get (ex_record "", ex_st2) (ostore_Cancel ex_st2 None "op-1" 2 2050)).2.

Definition ex_late (x : execution) : ostore * worker :=
  (ex_cancelled, run_execute ex_executing.2 ex_claim.1 x).

Lemma ex_pool5 :
  workers_reach ex_text 5 (ex_world (ex_cancelled, ex_executing.2)).
Proof.
  eexists. apply (workers_next _ 4 [NewID (ex_entropy 2)] [] _ (ex_world ex_executing)); [apply ex_pool4|].
  apply (workers_call _ [] ex_executing.1 ex_cancelled [ex_executing.2]).
  apply (step_Cancel _ None "op-1" 2 2050 (get (ex_record "", ex_st2) (ostore_Cancel ex_st2 None "op-1" 2 2050)).1).
  by vm_compute.
Qed.

Lemma worker_superseded_never_settles_witness :
  ∃ w', wd_pool (ex_world (ex_late (Returns "{}"))) !! 0%nat = Some w' ∧ completed w' = false.
Proof.
  destruct (worker_superseded_never_settles ex_text 5 1 []
    (ex_world (ex_cancelled, ex_executing.2)) (ex_world (ex_late (Returns "{}"))) 0
    ex_executing.2 ex_claim.1 ex_pool5) as (w' & Hw & Hc & _); [|by vm_compute..| | |eauto].
  - apply (workers_next_one _ 0 [] [] _ (ex_cancelled, ex_executing.2)); [apply workers_refl|].
    by apply step_execute.
  - eexists. split; by vm_compute.
  - apply not_elem_of_nil.
Defined.

Lemma worker_complete_outcome_witness :
  complete_accepted ex_text ex_st2 (ex_completing (Returns "{}")).2 ex_claim.1 (Answered (Ok "{}")) 2100 ex_claim.1 ∧
  complete_refused ex_text ex_st2 (ex_completing (Returns "oops")).2 ex_claim.1 (Answered (Ok "oops")) 2100 false.
Proof.
  split.
  - destruct (worker_complete_outcome ex_text 7 (ex_world (ex_completing (Returns "{}"))) 0 (ex_completing (Returns "{}")).2
      ex_claim.1 (Answered (Ok "{}")) 2100 ltac:(eexists; apply ex_pool7) ltac:(by vm_compute) eq_refl eq_refl)
      as (r & Hr & _ & H).
    vm_compute in Hr. injection Hr as <-. exact H.
  - destruct (worker_complete_outcome ex_text 7 (ex_world (ex_completing (Returns "oops"))) 0 (ex_completing (Returns "oops")).2
      ex_claim.1 (Answered (Ok "oops")) 2100 ltac:(eexists; apply ex_pool7) ltac:(by vm_compute) eq_refl eq_refl)
      as (r & Hr & _ & H).
    vm_compute in Hr. injection Hr as <-. exact H.
Defined.

Lemma worker_progress_witness : (worker_measure ex_executing.2 ≤ 15)%nat.
Proof.
  apply (worker_progress ex_text 4 (ex_world ex_executing) 0 ex_executing.2 (Returns "{}"));
    [eexists; apply ex_pool4|by vm_compute..].
Defined.

Lemma worker_unrecordable_answer_repeats_witness :
  ∃ err records,
    run_complete ex_text ex_st2 (ex_completing (Returns "oops")).2 ex_claim.1 (Answered (Ok "oops")) None 2100 =
      (ex_st2, with_phase (ex_completing (Returns "oops")).2 (Returned (NotCompleted (Answered (Ok "oops")) err))) ∧
    op_State (or_Operation ex_claim.1) = OperationRunning ∧
    ostore_ListRecoverable ex_st2 None 2500 2500 = Ok records ∧ ex_claim.1 ∈ records.
Proof.
  apply (worker_unrecordable_answer_repeats ex_text 7 (ex_world (ex_completing (Returns "oops"))) 0
    (ex_completing (Returns "oops")).2 ex_claim.1 (Answered (Ok "oops")) 2100 ex_claim.1
    {| ol_Owner := "worker-1"; ol_Token := NewID (ex_entropy 2); ol_ExpiresAt := 2500 |} 2500 2500);
    first [eexists; apply ex_pool7|by vm_compute].
Defined.
