(* ===== verification/OperationHost.v ===== *)
(** The host side of the operation worker, [internal/operationworker]: the retry loop of
    [mutation.go] behind [cancel.go] and [failure.go], the recovery schedule of [recovery.go], the
    in-flight registry of [inflight.go] and the host of [host.go] that ties them to the runner.

    [mutateNonTerminalOperation] reads and writes the store in two calls, between which others use the
    store, so it is a state machine of its own; the registry and the host are a second one, whose
    steps are the critical sections of [Inflight.mu] and the calls of a host.  [Host.Inflight] and
    [Runner.Store] are not nil: both hosts set them. *)

From S2P Require Import Prelude GoText Names Invocation Operation OperationStore OperationWorker.

(** ** The retry loop *)

(** What [mutate] returns: the record, whether the store was changed, and the store. *)
Abbreviation mutation := (ostore → OperationRecord → time → result (OperationRecord * bool * ostore)) (only parsing).

Inductive loop_state :=
  | Reading
  | Mutating (record : OperationRecord)
  | Done (res : result (OperationRecord * bool)).

Definition mutate_read (st : ostore) (ctx : context) (id : string) : loop_state :=
  match ostore_Get st ctx id with
  | Err err => Done (Err err)
  | Ok record =>
      if Operation_Terminal (or_Operation record) then Done (Ok (record, false)) else Mutating record
  end.

Definition mutate_write (mutate : mutation) (st : ostore) (record : OperationRecord) (wall : time)
    : ostore * loop_state :=
  match mutate st record wall with
  | Err err => if errors_Is err ErrOperationConflict then (st, Reading) else (st, Done (Err err))
  | Ok (updated, changed, st') => (st', Done (Ok (updated, changed)))
  end.

(** The closure of [requestCancel]; [None] is a nil validator. *)
Definition requestCancel_mutate (ctx : context) (id : string)
    (validate : option (OperationRecord → result unit)) : mutation := λ st record wall,
  try? match validate with Some f => f record | None => Ok tt end;
  let? '(cancelled, st') := ostore_Cancel st ctx id (op_Revision (or_Operation record)) wall in
  Ok (cancelled, true, st').

(** The closure of [FailInvalid]. *)
Definition FailInvalid_mutate (error_text : error → string) (ctx : context) (id : string)
    (validate : option (OperationRecord → result unit)) : mutation := λ st record wall,
  match validate with
  | None => Ok (record, false, st)
  | Some f =>
      match f record with
      | Ok _ => Ok (record, false, st)
      | Err invalidErr =>
          let? '(failedRecord, st') :=
            ostore_Fail st ctx id (op_Revision (or_Operation record)) (error_text invalidErr) wall in
          Ok (failedRecord, true, st')
      end
  end.

(** [loop_run k m (st, s) (st', s')]: the loop takes [m] steps of its own while others make [k] calls. *)
Inductive loop_run (ctx : context) (id : string) (mutate : mutation)
    : nat → nat → ostore * loop_state → ostore * loop_state → Prop :=
  | loop_refl c : loop_run ctx id mutate 0 0 c c
  | loop_other k m c st s st' tokens :
      loop_run ctx id mutate k m c (st, s) → ostore_step tokens st st' →
      loop_run ctx id mutate (S k) m c (st', s)
  | loop_read k m c st :
      loop_run ctx id mutate k m c (st, Reading) →
      loop_run ctx id mutate k (S m) c (st, mutate_read st ctx id)
  | loop_write k m c st record wall :
      loop_run ctx id mutate k m c (st, Mutating record) →
      loop_run ctx id mutate k (S m) c (mutate_write mutate st record wall).

(** ** Recovery *)

Record RecoveryCandidate := {
  rc_OperationID : string;
  rc_Delay : duration;
}.

Definition RecoveryCandidateFromRecord (record : OperationRecord) (now wall : time)
    : option RecoveryCandidate :=
  if Operation_Terminal (or_Operation record) then None else
  let now := if IsZero now then wall else now in
  let delay := match or_Execution record with
               | Some lease =>
                   if After (ol_ExpiresAt lease) now then time_Sub (ol_ExpiresAt lease) now else 0
               | None => 0
               end in
  Some {| rc_OperationID := op_ID (or_Operation record); rc_Delay := delay |}.

Fixpoint recovery_loop (records : list OperationRecord) (now wall : time) : result (list RecoveryCandidate) :=
  match records with
  | [] => Ok []
  | record :: rest =>
      match RecoveryCandidateFromRecord record now wall with
      | None =>
          Err (Wrapf "%w: operation %s returned by non-terminal index is terminal"
                 [AStr (op_ID (or_Operation record))] (Sentinel ErrOperationConflict))
      | Some candidate =>
          let? candidates := recovery_loop rest now wall in
          Ok (candidate :: candidates)
      end
  end.

Definition ListRecoveryCandidates (st : ostore) (ctx : context) (now wall : time)
    : result (list RecoveryCandidate) :=
  match ostore_ListNonTerminal st ctx with
  | Err err => Err (Wrapf "list non-terminal operations: %w" [] err)
  | Ok records => recovery_loop records now wall
  end.

(** ** Lemmas of the loop *)

Lemma ostore_Get_inv st ctx id r : ostore_Get st ctx id = Ok r → operations st !! id = Some r.
Proof. unfold ostore_Get. intros ([] & _ & H)%bind_Ok. destruct (operations st !! id); congruence. Qed.

Lemma op_Transition_stale r rev state output text now wall :
  op_revision r ≠ rev →
  ∃ err, op_Transition r rev state output text now wall = Err err ∧ errors_Is err ErrOperationConflict = true.
Proof.
  intros Hne. unfold op_Transition, op_ValidateExpectedRevision, op_revision in *.
  rewrite (proj2 (Z.eqb_neq _ _)) by done. simpl. eauto.
Qed.

(** At the revision that was read, an operation that was not terminal is cancelled. *)
Lemma op_Cancel_fresh n st id r wall :
  ostore_wf n st → n + 2 < two64 → operations st !! id = Some r → Operation_Terminal (or_Operation r) = false →
  ∃ r', op_Cancel r (op_revision r) wall wall = Ok r' ∧ op_State (or_Operation r') = OperationCancelled.
Proof.
  intros Hwf Hn Hl Ht. pose proof (wf_valid _ _ Hwf _ _ Hl) as (_ & Hv & _)%op_valid_inv.
  pose proof (wf_revision _ _ Hwf _ _ Hl) as Hrev. unfold op_revision in *.
  unfold op_Cancel, op_Transition, op_ValidateExpectedRevision. rewrite Z.eqb_refl. simpl.
  rewrite (nonterminal_transition _ OperationCancelled Hv Ht) by (by right). simpl.
  unfold ValidateOperation in Hv |- *. simpl.
  destruct (is_empty (op_ID _)); [done|]. destruct (is_empty (op_IdempotencyKey _)); [done|].
  rewrite u64_small, (proj2 (Z.eqb_neq _ _)) by lia. simpl. eauto.
Qed.

(** What the loop knows between its calls. *)
Definition loop_ok (id : string) (st : ostore) (s : loop_state) : Prop :=
  match s with
  | Mutating record =>
      Operation_Terminal (or_Operation record) = false ∧
      ∃ r, operations st !! id = Some r ∧ op_leads record r
  | _ => True
  end.

Lemma loop_ok_step n tokens id st st' s :
  ostore_wf n st → 0 ≤ n → n + 2 < two64 → ostore_step tokens st st' → loop_ok id st s → loop_ok id st' s.
Proof.
  intros Hwf H0 Hn Hs. destruct s as [|record|]; [done| |done]. simpl. intros (Ht & r & Hl & Hlead).
  destruct (ostore_step_leads _ _ _ _ _ _ Hwf H0 Hn Hs Hl) as (r' & Hl' & Hlead' & _).
  split; [done|]. exists r'. split; [done|by eapply op_leads_trans].
Qed.

Lemma loop_ok_read st ctx id : loop_ok id st (mutate_read st ctx id).
Proof.
  unfold mutate_read. destruct (ostore_Get st ctx id) as [r|] eqn:Hg; [|done].
  destruct (Operation_Terminal _) eqn:Ht; [done|]. simpl. split; [done|]. exists r.
  split; [by eapply ostore_Get_inv|by left].
Qed.

(** The same revision means the same record. *)
Lemma op_leads_revision r r' : op_leads r r' → op_revision r' = op_revision r → r' = r.
Proof. intros [->|(_ & Hr & _)]; [done|lia]. Qed.

Section cancel.
Context (id : string) (validate : option (OperationRecord → result unit)).

Definition validated (record : OperationRecord) : result unit :=
  match validate with Some f => f record | None => Ok tt end.

Abbreviation cancel_write := (mutate_write (requestCancel_mutate None id validate)).

(** The write of [requestCancel]: refused by the validator, overtaken by another caller, or done. *)
Lemma cancel_write_cases n st record wall :
  ostore_wf n st → n + 2 < two64 → loop_ok id st (Mutating record) →
  match validated record with
  | Err err => cancel_write st record wall =
      (st, if errors_Is err ErrOperationConflict then Reading else Done (Err err))
  | Ok _ =>
      (∃ r, operations st !! id = Some r ∧ op_revision record < op_revision r ∧
            cancel_write st record wall = (st, Reading)) ∨
      (∃ r st', cancel_write st record wall = (st', Done (Ok (r, true))) ∧ operations st' !! id = Some r ∧
                op_State (or_Operation r) = OperationCancelled ∧ operations st !! id = Some record ∧
                ostore_step [] st st')
  end.
Proof.
  intros Hwf Hn (Ht & r & Hl & Hlead). unfold mutate_write, requestCancel_mutate. fold (validated record).
  destruct (validated record) as [[]|err]; cbn [result_bind]; [|by destruct (errors_Is _ _)].
  destruct (decide (op_revision r = op_revision record)) as [Heq|Hne].
  - right. apply (op_leads_revision _ _ Hlead) in Heq as ->.
    destruct (op_Cancel_fresh n st id record wall Hwf Hn Hl Ht) as (r' & Hc & Hs).
    assert (ostore_Cancel st None id (op_Revision (or_Operation record)) wall =
              Ok (r', {| operations := <[id := r']> (operations st); keys := keys st |})) as E.
    { unfold ostore_Cancel, ostore_mutate. simpl. rewrite Hl. unfold op_revision in Hc. by rewrite Hc. }
    rewrite E. cbn [result_bind]. eexists _, _. split; [done|].
    split_and!; [apply lookup_insert_eq|done|done|by eapply step_Cancel].
  - left. exists r. split; [done|].
    split; [destruct Hlead as [->|(_ & ? & _)]; [done|done]|].
    unfold ostore_Cancel, ostore_mutate, op_Cancel. simpl. rewrite Hl.
    destruct (op_Transition_stale r (op_Revision (or_Operation record)) OperationCancelled "" "" wall wall Hne)
      as (err & -> & Hf). simpl. by rewrite Hf.
Qed.

(** What a finished cancellation says of the store. *)
Definition cancel_ok (st : ostore) (s : loop_state) : Prop :=
  loop_ok id st s ∧
  match s with
  | Done (Ok (record, requested)) =>
      operations st !! id = Some record ∧ Operation_Terminal (or_Operation record) = true ∧
      (requested = true → op_State (or_Operation record) = OperationCancelled)
  | Done (Err err) => errors_Is err ErrOperationNotFound = true ∨ ∃ record, validated record = Err err
  | _ => True
  end.

Lemma cancel_ok_step n tokens st st' s :
  ostore_wf n st → 0 ≤ n → n + 2 < two64 → ostore_step tokens st st' → cancel_ok st s → cancel_ok st' s.
Proof.
  intros Hwf H0 Hn Hs [Hl Hd]. split; [by eapply loop_ok_step|].
  destruct s as [| |[[record requested]|err]]; try done. destruct Hd as (Hr & Ht & Hc).
  destruct (ostore_step_leads _ _ _ _ _ _ Hwf H0 Hn Hs Hr) as (r' & Hl' & Hlead & _).
  rewrite (op_leads_terminal _ _ Ht Hlead) in Hl'. done.
Qed.

Lemma cancel_ok_read st : cancel_ok st (mutate_read st None id).
Proof.
  split; [apply loop_ok_read|]. unfold mutate_read. destruct (ostore_Get st None id) as [r|err] eqn:Hg.
  - destruct (Operation_Terminal _) eqn:Ht; [|done]. by split; [apply ostore_Get_Ok|].
  - left. unfold ostore_Get in Hg. simpl in Hg. destruct (operations st !! id); [done|]. by injection Hg as <-.
Qed.

Lemma cancel_run_ok n k m c c' :
  loop_run None id (requestCancel_mutate None id validate) k m c c' →
  ostore_wf n c.1 → 0 ≤ n → n + Z.of_nat (k + m) + 1 < two64 → cancel_ok c.1 c.2 →
  ostore_wf (n + Z.of_nat (k + m)) c'.1 ∧ cancel_ok c'.1 c'.2.
Proof.
  intros Hr Hwf H0 Hn Hok.
  induction Hr as [c|k m c st s st' tokens Hr IH Hs|k m c st Hr IH|k m c st record wall Hr IH].
  - by rewrite Z.add_0_r.
  - destruct IH as [Hwf1 Hok1]; [done|lia|done|]. simpl in *. split.
    + eapply (ostore_wf_weaken (n + Z.of_nat (k + m) + 1)); [lia|]. eapply ostore_wf_step; [done|lia|lia|done].
    + eapply cancel_ok_step; [done|lia|lia|done|done].
  - destruct IH as [Hwf1 Hok1]; [done|lia|done|]. simpl in *.
    split; [eapply ostore_wf_weaken; [|done]; lia|apply cancel_ok_read].
  - destruct IH as [Hwf1 [Hl _]]; [done|lia|done|]. cbn [fst snd] in *.
    pose proof (cancel_write_cases _ st record wall Hwf1 ltac:(lia) Hl) as Hw.
    assert (ostore_wf (n + Z.of_nat (k + S m)) st) as Hwf2 by (eapply ostore_wf_weaken; [|done]; lia).
    destruct (validated record) as [[]|err] eqn:Hv.
    + destruct Hw as [(r & _ & _ & ->)|(r & st' & -> & Hs & Hc & _ & Hstep)]; [by split|]. cbn [fst snd]. split.
      * eapply (ostore_wf_weaken (n + Z.of_nat (k + m) + 1)); [lia|]. eapply ostore_wf_step; [done|lia|lia|done].
      * split; [done|]. split_and!; [done| |done]. unfold Operation_Terminal. by rewrite Hc.
    + rewrite Hw. split; [done|]. simpl. destruct (errors_Is err ErrOperationConflict); [done|].
      split; [done|]. right. eauto.
Qed.
End cancel.

(** ** Theorems *)

(** [requestCancel] under interference: however the calls of other callers fall between its reads and
    writes, when it returns a record, that record is terminal and is what the store holds from then on,
    cancelled if the call reports that it requested the cancellation; the only errors it returns are
    that there is no such operation and those of the validator, never a conflict or a refused
    transition; and it goes round again only because another caller advanced the operation since it
    was read, or because the validator asked for it with a conflict. *)
Theorem cancel_settles_operation id validate n k m st0 st s :
  ostore_reach n st0 → Z.of_nat (n + k + m) + 2 < two64 →
  loop_run None id (requestCancel_mutate None id validate) k m (st0, Reading) (st, s) →
  match s with
  | Done (Ok (record, requested)) =>
      ostore_Get st None id = Ok record ∧ Operation_Terminal (or_Operation record) = true ∧
      (requested = true → op_State (or_Operation record) = OperationCancelled)
  | Done (Err err) =>
      errors_Is err ErrOperationNotFound = true ∨ ∃ record, validated validate record = Err err
  | Mutating record =>
      ∀ wall, match mutate_write (requestCancel_mutate None id validate) st record wall with
      | (st', Reading) => st' = st ∧
          ((∃ r, ostore_Get st None id = Ok r ∧ op_revision record < op_revision r) ∨
           ∃ err, validated validate record = Err err ∧ errors_Is err ErrOperationConflict = true)
      | (_, Mutating _) => False
      | (_, Done _) => True
      end
  | Reading => ∃ s', mutate_read st None id = s' ∧ s' ≠ Reading
  end.
Proof.
  intros Hr Hn Hrun. pose proof (ostore_reach_wf _ _ Hr ltac:(lia)) as Hwf.
  destruct (cancel_run_ok id validate _ _ _ _ _ Hrun Hwf ltac:(lia) ltac:(lia)) as [Hwf' [Hl Hok]]; [done|].
  simpl in *. destruct s as [|record|[[record requested]|err]].
  - eexists. split; [done|]. unfold mutate_read. repeat case_match; done.
  - intros wall. pose proof (cancel_write_cases id validate _ st record wall Hwf' ltac:(lia) Hl) as Hw.
    destruct (validated validate record) as [[]|err] eqn:Hv.
    + destruct Hw as [(r & Hl' & Hlt & ->)|(r & st' & -> & _)]; [|done]. split; [done|left].
      exists r. by rewrite ostore_Get_Ok.
    + rewrite Hw. destruct (errors_Is err ErrOperationConflict) eqn:E; [|done]. eauto 6.
  - destruct Hok as (? & ? & ?). by rewrite ostore_Get_Ok.
  - done.
Qed.

(** [FailInvalid] on a record at the revision that was read: a record the validator accepts is returned
    as it is and the store is not touched; a record it refuses is failed with the text of the refusal. *)
Theorem fail_invalid_outcome error_text id f n st record wall :
  ostore_reach n st → Z.of_nat n + 2 < two64 → ostore_Get st None id = Ok record →
  Operation_Terminal (or_Operation record) = false →
  let '(st', s) := mutate_write (FailInvalid_mutate error_text None id (Some f)) st record wall in
  match f record with
  | Ok _ => st' = st ∧ s = Done (Ok (record, false))
  | Err err =>
      if is_empty (error_text err) then st' = st ∧ ∃ err', s = Done (Err err')
      else ∃ r, s = Done (Ok (r, true)) ∧ ostore_Get st' None id = Ok r ∧
                op_State (or_Operation r) = OperationFailed ∧ op_Error (or_Operation r) = error_text err
  end.
Proof.
  intros Hr Hn Hg Ht. pose proof (ostore_reach_wf _ _ Hr ltac:(lia)) as Hwf. apply ostore_Get_Ok in Hg.
  pose proof (wf_valid _ _ Hwf _ _ Hg) as (_ & Hv & _)%op_valid_inv.
  pose proof (wf_revision _ _ Hwf _ _ Hg) as Hrev. unfold op_revision in *.
  pose proof (ValidateOperation_completion error_text (or_Operation record)) as Hval.
  unfold mutate_write, FailInvalid_mutate. destruct (f record) as [[]|err]; [done|].
  specialize (Hval (Invalid err) wall Hv ltac:(lia) ltac:(lia)). simpl in Hval.
  unfold ostore_Fail, ostore_mutate, op_Fail, op_Transition, op_ValidateExpectedRevision. simpl.
  rewrite Hg, Z.eqb_refl. simpl. rewrite (nonterminal_transition _ OperationFailed Hv Ht) by (by right). simpl.
  rewrite op_NormalizeMutationTime_wall. destruct (is_empty (error_text err)) eqn:He; simpl in Hval.
  - destruct Hval as (err' & -> & Hs). simpl. rewrite Hs. eauto.
  - rewrite Hval. simpl. eexists. split; [done|]. rewrite ostore_Get_Ok. by split; [apply lookup_insert_eq|].
Qed.

Lemma recovery_loop_spec records now wall :
  (∀ r, r ∈ records → Operation_Terminal (or_Operation r) = false) →
  ∃ candidates, recovery_loop records now wall = Ok candidates ∧
    rc_OperationID <$> candidates = (λ r, op_ID (or_Operation r)) <$> records ∧
    ∀ c, c ∈ candidates ↔ ∃ r, r ∈ records ∧ RecoveryCandidateFromRecord r now wall = Some c.
Proof.
  induction records as [|r records IH]; intros Ht; [exists []; set_solver|].
  destruct IH as (cs & Hc & Hid & Hin); [set_solver|].
  unfold recovery_loop; fold recovery_loop. pose proof (Ht r ltac:(set_solver)) as Htr.
  destruct (RecoveryCandidateFromRecord r now wall) as [c|] eqn:Hr;
    [|unfold RecoveryCandidateFromRecord in Hr; by rewrite Htr in Hr].
  rewrite Hc. simpl. eexists. split; [done|]. split.
  - rewrite !fmap_cons, Hid. f_equal. unfold RecoveryCandidateFromRecord in Hr. rewrite Htr in Hr. by simplify_eq.
  - intros c'. rewrite elem_of_cons, Hin. setoid_rewrite elem_of_cons. naive_solver.
Qed.

(** Until the delay is over a claim is refused, and when it is over a claim is accepted. *)
Lemma recovery_delay st id r now wall owner ttl wall' e c :
  operations st !! id = Some r → op_ID (or_Operation r) = id → 0 < now → op_ValidateClaim owner ttl = Ok tt →
  RecoveryCandidateFromRecord r now wall = Some c →
  0 ≤ rc_Delay c ∧
  (∀ t, now ≤ t < now + rc_Delay c →
     ∃ err, ostore_Claim st None id owner t ttl wall' e = Err err ∧ errors_Is err ErrOperationClaimed = true) ∧
  (rc_Delay c < two63 - 1 → is_Ok (ostore_Claim st None id owner (now + rc_Delay c) ttl wall' e)).
Proof.
  intros Hl Hid Hnow Hv Hc. unfold RecoveryCandidateFromRecord in Hc.
  destruct (Operation_Terminal (or_Operation r)) eqn:Ht; [done|]. injection Hc as <-. cbn [rc_Delay].
  rewrite (proj2 (IsZero_false now)) by lia.
  assert (∀ t, 0 < t → op_NormalizeMutationTime wall' t = t) as Hnorm
    by (intros t Hpos; unfold op_NormalizeMutationTime; by rewrite (proj2 (IsZero_false t)) by lia).
  assert (∀ t, 0 < t → ostore_Claim st None id owner t ttl wall' e =
    let? r' := op_Claim r owner t ttl wall' e in
    Ok (r', {| operations := <[id := r']> (operations st); keys := keys st |})) as Hclaim.
  { intros t Hpos. unfold ostore_Claim, ostore_mutate. rewrite Hv. simpl. by rewrite Hl, Hnorm. }
  destruct (or_Execution r) as [lease|] eqn:He.
  - destruct (After (ol_ExpiresAt lease) now) eqn:Ha; gobool; unfold time_Sub.
    + split; [unfold two63 in *; lia|]. split.
      * intros t Hr. rewrite Hclaim by lia. unfold op_Claim. rewrite Hv, Ht, He. simpl. rewrite Hnorm by lia.
        rewrite (proj2 (After_true _ _)) by (unfold two63 in *; lia). simpl. eauto.
      * intros Hd. rewrite Hclaim by (unfold two63 in *; lia). unfold op_Claim. rewrite Hv, Ht, He. simpl.
        rewrite Hnorm by (unfold two63 in *; lia).
        rewrite (proj2 (After_false _ _)) by (unfold two63 in *; lia). eexists. done.
    + split; [lia|]. split; [lia|]. intros _. rewrite Hclaim by lia. unfold op_Claim. rewrite Hv, Ht, He. simpl.
      rewrite Hnorm, (proj2 (After_false _ _)) by lia. eexists. done.
  - split; [lia|]. split; [lia|]. intros _. rewrite Hclaim by lia. unfold op_Claim. rewrite Hv, Ht, He. simpl.
    eexists. done.
Qed.

(** The recovery schedule is exact: it lists every operation of the store that is not terminal, once,
    and nothing else (the conflict between index and record it guards against cannot happen); a
    claim of a listed operation is refused with [ErrOperationClaimed] at every instant before its delay
    is over and accepted when it is over, unless the delay is the largest [time.Duration]. *)
Theorem recovery_schedule_exact n st now wall owner ttl :
  ostore_reach n st → Z.of_nat n + 1 < two64 → 0 < now → op_ValidateClaim owner ttl = Ok tt →
  ∃ candidates,
    ListRecoveryCandidates st None now wall = Ok candidates ∧ NoDup (rc_OperationID <$> candidates) ∧
    (∀ id, id ∈ rc_OperationID <$> candidates ↔
       ∃ r, ostore_Get st None id = Ok r ∧ Operation_Terminal (or_Operation r) = false) ∧
    (∀ c, c ∈ candidates →
       (∀ t wall' e, now ≤ t < now + rc_Delay c →
          ∃ err, ostore_Claim st None (rc_OperationID c) owner t ttl wall' e = Err err ∧
                 errors_Is err ErrOperationClaimed = true) ∧
       (∀ wall' e, rc_Delay c < two63 - 1 →
          is_Ok (ostore_Claim st None (rc_OperationID c) owner (now + rc_Delay c) ttl wall' e))).
Proof.
  intros Hr Hn Hnow Hv. pose proof (ostore_reach_wf _ _ Hr Hn) as Hwf.
  unfold ListRecoveryCandidates, ostore_ListNonTerminal. cbn [ctx_Err result_bind].
  set (records := sortOperationRecords _).
  assert (∀ r, r ∈ records ↔ Operation_Terminal (or_Operation r) = false ∧
                operations st !! op_ID (or_Operation r) = Some r) as Hrec.
  { intros r. unfold records, sortOperationRecords. rewrite elem_of_SortFunc, list_elem_of_filter, elem_of_map_values.
    split; intros [Ht H]; (split; [done|]); [destruct H as [k Hk]; by rewrite (wf_id _ _ Hwf _ _ Hk)|eauto]. }
  destruct (recovery_loop_spec records now wall) as (cs & Hc & Hid & Hin); [naive_solver|].
  exists cs. split; [done|]. split_and!.
  - rewrite Hid. unfold records, sortOperationRecords. rewrite SortFunc_perm.
    apply NoDup_fmap_2_strong; [|apply NoDup_filter, (NoDup_map_values (λ r, op_ID (or_Operation r))); intros k r; apply (wf_id _ _ Hwf)].
    intros x y [_ [i Hx]%elem_of_map_values]%list_elem_of_filter [_ [j Hy]%elem_of_map_values]%list_elem_of_filter.
    rewrite (wf_id _ _ Hwf _ _ Hx), (wf_id _ _ Hwf _ _ Hy). congruence.
  - intros id. rewrite Hid, list_elem_of_fmap. setoid_rewrite Hrec. setoid_rewrite ostore_Get_Ok. split.
    + intros (r & -> & Ht & Hl). eauto.
    + intros (r & Hl & Ht). exists r. by rewrite (wf_id _ _ Hwf _ _ Hl).
  - intros c Hcin. apply Hin in Hcin as (r & [Ht Hl]%Hrec & Hc').
    assert (rc_OperationID c = op_ID (or_Operation r)) as ->
      by (unfold RecoveryCandidateFromRecord in Hc'; rewrite Ht in Hc'; by injection Hc' as <-).
    split.
    + intros t wall' e. eapply (recovery_delay st _ r now wall owner ttl wall' e c); done.
    + intros wall' e. eapply (recovery_delay st _ r now wall owner ttl wall' e c); done.
Qed.

(** ** The in-flight registry *)

(** The context and the [finish] of an [ExecutionSlot]. *)
Record slot := {
  sl_id : string;
  sl_finished : bool;      (* [finishOnce] has run *)
  sl_cancelled : bool;     (* the slot's context is done *)
}.

(** [if_cancel] maps an operation to the slot whose [CancelFunc] it holds; [if_slots] are the slots ever
    handed out. *)
Record Inflight := {
  if_done : bool;          (* [inflight.context] is done *)
  if_slots : list slot;
  if_cancel : gmap string nat;
}.

Definition NewInflight : Inflight := {| if_done := false; if_slots := []; if_cancel := ∅ |}.

Definition Inflight_Start (f : Inflight) (id : string) : Inflight * option nat :=
  match if_cancel f !! id with
  | Some _ => (f, None)
  | None =>
      let i := length (if_slots f) in
      ({| if_done := if_done f;
          if_slots := if_slots f ++ [{| sl_id := id; sl_finished := false; sl_cancelled := if_done f |}];
          if_cancel := <[id := i]> (if_cancel f) |}, Some i)
  end.

Definition slot_cancel (s : slot) : slot :=
  {| sl_id := sl_id s; sl_finished := sl_finished s; sl_cancelled := true |}.

Definition ExecutionSlot_Finish (f : Inflight) (i : nat) : Inflight :=
  match if_slots f !! i with
  | None => f
  | Some s =>
      if sl_finished s then f
      else {| if_done := if_done f;
              if_slots := <[i := {| sl_id := sl_id s; sl_finished := true; sl_cancelled := true |}]> (if_slots f);
              if_cancel := delete (sl_id s) (if_cancel f) |}
  end.

Definition Inflight_Cancel (f : Inflight) (id : string) : Inflight * bool :=
  match if_cancel f !! id with
  | None => (f, false)
  | Some i =>
      ({| if_done := if_done f; if_slots := alter slot_cancel i (if_slots f); if_cancel := if_cancel f |}, true)
  end.

(** The root context ends: [AfterFunc] cancels every slot that has not stopped it. *)
Definition Inflight_stop (f : Inflight) : Inflight :=
  {| if_done := true;
     if_slots := (λ s, if sl_finished s then s else slot_cancel s) <$> if_slots f;
     if_cancel := if_cancel f |}.

(** ** The host *)

(** A goroutine of [StartReservedAsync], which holds the slot of its own index: inside [Runner.Run],
    after [slot.Finish], after [onDone]. *)
Inductive task :=
  | TaskRunning
  | TaskFinished
  | TaskDone.

#[export] Instance task_eq_dec : EqDecision task.
Proof. solve_decision. Defined.

(** [ho_reserved] is the lifecycle counter that [onDone] decrements; [ho_pending] counts the reservations
    whose call of [SubmitReserved] or [StartReservedAsync] has not come yet. *)
Record Host := {
  ho_store : ostore;
  ho_inflight : Inflight;
  ho_tasks : list task;
  ho_reserved : Z;
  ho_pending : Z;
}.

Definition newHost : Host :=
  {| ho_store := newMemoryOperationStore; ho_inflight := NewInflight; ho_tasks := []; ho_reserved := 0; ho_pending := 0 |}.

Definition host_reserve (h : Host) (reserved pending : Z) : Host :=
  {| ho_store := ho_store h; ho_inflight := ho_inflight h; ho_tasks := ho_tasks h;
     ho_reserved := ho_reserved h + reserved; ho_pending := ho_pending h + pending |}.

Definition host_onDone (h : Host) : Host := host_reserve h (-1) 0.

Definition with_inflight (h : Host) (f : Inflight) (tasks : list task) : Host :=
  {| ho_store := ho_store h; ho_inflight := f; ho_tasks := tasks; ho_reserved := ho_reserved h;
     ho_pending := ho_pending h |}.

Definition with_store (h : Host) (st : ostore) : Host :=
  {| ho_store := st; ho_inflight := ho_inflight h; ho_tasks := ho_tasks h; ho_reserved := ho_reserved h;
     ho_pending := ho_pending h |}.

Definition StartReservedAsync (h : Host) (id : string) : Host :=
  match Inflight_Start (ho_inflight h) id with
  | (_, None) => host_onDone h
  | (f, Some _) => with_inflight h f (ho_tasks h ++ [TaskRunning])
  end.

Definition SubmitReserved (h : Host) (ctx : context) (target : OperationTarget) (request : OperationRequest)
    (wall : time) (e : entropy) : Host * result Operation :=
  match ostore_Submit (ho_store h) ctx (OperationTarget_Record target request) wall e with
  | Err err => (host_onDone h, Err err)
  | Ok (record, _, st') =>
      let h := with_store h st' in
      if Operation_Terminal (or_Operation record) then (host_onDone h, Ok (or_Operation record))
      else (StartReservedAsync h (op_ID (or_Operation record)), Ok (or_Operation record))
  end.

(** [Host.Cancel] once [requestCancel] has returned. *)
Definition Host_Cancel (h : Host) (id : string) (res : result (OperationRecord * bool))
    : Host * result OperationRecord :=
  match res with
  | Err err => (h, Err err)
  | Ok (cancelled, requested) =>
      (if requested then with_inflight h (Inflight_Cancel (ho_inflight h) id).1 (ho_tasks h) else h, Ok cancelled)
  end.

Inductive host_step : Host → Host → Prop :=
  | host_store h st' tokens : ostore_step tokens (ho_store h) st' → host_step h (with_store h st')
  | host_begin h : host_step h (host_reserve h 1 1)
  | host_submit h ctx target request wall e h' res :
      0 < ho_pending h → SubmitReserved (host_reserve h 0 (-1)) ctx target request wall e = (h', res) →
      host_step h h'
  | host_start h id :
      0 < ho_pending h → host_step h (StartReservedAsync (host_reserve h 0 (-1)) id)
  | host_finish h i :
      ho_tasks h !! i = Some TaskRunning →
      host_step h (with_inflight h (ExecutionSlot_Finish (ho_inflight h) i) (<[i := TaskFinished]> (ho_tasks h)))
  | host_done h i :
      ho_tasks h !! i = Some TaskFinished →
      host_step h (host_onDone (with_inflight h (ho_inflight h) (<[i := TaskDone]> (ho_tasks h))))
  | host_finish_again h i : (* a second call of [Finish] *)
      ho_tasks h !! i ≠ Some TaskRunning →
      host_step h (with_inflight h (ExecutionSlot_Finish (ho_inflight h) i) (ho_tasks h))
  | host_cancel h id res h' res' : Host_Cancel h id res = (h', res') → host_step h h'
  | host_stop h : host_step h (with_inflight h (Inflight_stop (ho_inflight h)) (ho_tasks h)).

Definition host_reach : Host → Prop := rtc host_step newHost.

(** *** The invariant *)

Definition task_live (t : task) : nat := match t with TaskDone => 0 | _ => 1 end.

Definition live_tasks (tasks : list task) : nat := sum_list_with task_live tasks.

Definition slot_open (f : Inflight) (i : nat) (id : string) : Prop :=
  ∃ s, if_slots f !! i = Some s ∧ sl_id s = id ∧ sl_finished s = false.

Record host_ok (h : Host) : Prop := {
  ho_keys id i : if_cancel (ho_inflight h) !! id = Some i ↔ slot_open (ho_inflight h) i id;
  ho_aligned i : (∃ id, slot_open (ho_inflight h) i id) ↔ ho_tasks h !! i = Some TaskRunning;
  ho_length : length (if_slots (ho_inflight h)) = length (ho_tasks h);
  ho_count : ho_reserved h = ho_pending h + Z.of_nat (live_tasks (ho_tasks h));
}.

Lemma live_tasks_insert tasks i t t' :
  tasks !! i = Some t → (live_tasks (<[i := t']> tasks) + task_live t = live_tasks tasks + task_live t')%nat.
Proof.
  unfold live_tasks. revert i. induction tasks as [|u tasks IH]; intros [|i]; simpl; try done.
  - intros [= ->]. lia.
  - intros Hi. specialize (IH i Hi). simpl in *. lia.
Qed.

Lemma live_tasks_app tasks t : live_tasks (tasks ++ [t]) = (live_tasks tasks + task_live t)%nat.
Proof. unfold live_tasks. rewrite sum_list_with_app. simpl. lia. Qed.

(** Slots that are only cancelled stay as open as they were. *)
Lemma slot_open_ext f slots i id :
  (∀ s', slots !! i = Some s' → ∃ s, if_slots f !! i = Some s ∧ sl_id s' = sl_id s ∧ sl_finished s' = sl_finished s) →
  (∀ s, if_slots f !! i = Some s → ∃ s', slots !! i = Some s' ∧ sl_id s' = sl_id s ∧ sl_finished s' = sl_finished s) →
  ∀ done' keys', slot_open {| if_done := done'; if_slots := slots; if_cancel := keys' |} i id ↔ slot_open f i id.
Proof.
  intros H1 H2 d k. unfold slot_open. simpl. split.
  - intros (s' & Hs & Hid & Hf). destruct (H1 _ Hs) as (s & ? & ? & ?). exists s. split_and!; congruence.
  - intros (s & Hs & Hid & Hf). destruct (H2 _ Hs) as (s' & ? & ? & ?). exists s'. split_and!; congruence.
Qed.

Lemma slot_open_Start f id f' i0 i id' :
  Inflight_Start f id = (f', Some i0) →
  i0 = length (if_slots f) ∧ if_cancel f !! id = None ∧
  (slot_open f' i id' ↔ slot_open f i id' ∨ (i = i0 ∧ id' = id)).
Proof.
  unfold Inflight_Start. destruct (if_cancel f !! id) eqn:Hk; [done|]. intros [= <- <-].
  split_and!; [done..|]. unfold slot_open. simpl. split.
  - intros (s & [Hs|[Hlen [Hi <-]%list_lookup_singleton_Some]]%lookup_app_Some & Hid & Hf); [left; eauto|right].
    simpl in *. split; [lia|done].
  - intros [(s & Hs & Hid & Hf)|[-> ->]].
    + exists s. by rewrite (lookup_app_l_Some _ _ _ _ Hs).
    + eexists. rewrite lookup_app_r, Nat.sub_diag by lia. done.
Qed.

Lemma slot_open_Finish f i0 id0 i id :
  slot_open f i0 id0 →
  if_cancel (ExecutionSlot_Finish f i0) = delete id0 (if_cancel f) ∧
  (slot_open (ExecutionSlot_Finish f i0) i id ↔ slot_open f i id ∧ i ≠ i0).
Proof.
  intros (s0 & Hs0 & <- & Hf0). unfold ExecutionSlot_Finish. rewrite Hs0, Hf0. split; [done|].
  unfold slot_open. simpl. split.
  - intros (s & [(-> & <- & _)|[Hne Hs]]%list_lookup_insert_Some & Hid & Hf); [done|]. eauto 6.
  - intros [(s & Hs & Hid & Hf) Hne]. exists s. by rewrite list_lookup_insert_ne.
Qed.

(** [Finish] of a slot that is not open changes nothing, whoever holds the operation now. *)
Lemma Finish_closed f i : (¬ ∃ id, slot_open f i id) → ExecutionSlot_Finish f i = f.
Proof.
  intros Hn. unfold ExecutionSlot_Finish. destruct (if_slots f !! i) as [s|] eqn:Hs; [|done].
  destruct (sl_finished s) eqn:Hf; [done|]. destruct Hn. exists (sl_id s), s. done.
Qed.

(** A host whose slots are as open as before. *)
Lemma host_ok_same h h' :
  host_ok h → if_cancel (ho_inflight h') = if_cancel (ho_inflight h) → ho_tasks h' = ho_tasks h →
  length (if_slots (ho_inflight h')) = length (if_slots (ho_inflight h)) →
  (∀ i id, slot_open (ho_inflight h') i id ↔ slot_open (ho_inflight h) i id) →
  ho_reserved h' - ho_pending h' = ho_reserved h - ho_pending h → host_ok h'.
Proof.
  intros [Hk Ha Hl Hc] Ek Et El Eo Er. split.
  - intros id i. by rewrite Ek, Eo.
  - intros i. setoid_rewrite Eo. by rewrite Et.
  - by rewrite El, Et.
  - rewrite Et. lia.
Qed.

Lemma host_ok_start h id :
  host_ok h → host_ok (StartReservedAsync (host_reserve h 0 (-1)) id).
Proof.
  intros Hok. pose proof Hok as [Hk Ha Hl Hc]. unfold StartReservedAsync. simpl.
  destruct (Inflight_Start (ho_inflight h) id) as [f' [i0|]] eqn:Hs.
  2: { eapply (host_ok_same h); try done. simpl. lia. }
  destruct (slot_open_Start _ _ _ _ 0 id Hs) as (Hi0 & Hnone & _).
  pose proof (λ i id', proj2 (proj2 (slot_open_Start _ _ _ _ i id' Hs))) as Ho.
  assert (if_cancel f' = <[id := i0]> (if_cancel (ho_inflight h)) ∧
          length (if_slots f') = S (length (if_slots (ho_inflight h)))) as [Hk' Hl'].
  { unfold Inflight_Start in Hs. rewrite Hnone in Hs. simplify_eq. simpl. rewrite length_app. simpl. split; [done|lia]. }
  split; simpl.
  - intros id' i. rewrite Hk', Ho. destruct (decide (id' = id)) as [->|Hne].
    + rewrite lookup_insert_eq. split; [intros [= <-]; auto|]. intros [H|[-> _]]; [|done].
      apply Hk in H. congruence.
    + rewrite lookup_insert_ne, Hk by done. naive_solver.
  - intros i. setoid_rewrite Ho. rewrite lookup_app_Some, list_lookup_singleton_Some, <-Ha. split.
    + intros [id' [H|[-> _]]]; [left; eauto|right]. split; [lia|]. split; [lia|done].
    + intros [[id' H]|(? & ? & _)]; [eauto|]. exists id. right. split; [lia|done].
  - rewrite Hl', length_app, Hl. simpl. lia.
  - rewrite live_tasks_app. simpl. lia.
Qed.

Lemma host_ok_step h h' : host_ok h → host_step h h' → host_ok h'.
Proof.
  intros Hok Hs. destruct Hs as [h st' tokens Hs|h|h ctx target request wall e h' res Hp Hs|h id Hp
    |h i Hi|h i Hi|h i Hi|h id res h' res' Hs|h].
  - by eapply (host_ok_same h).
  - eapply (host_ok_same h); try done. simpl. lia.
  - unfold SubmitReserved in Hs. simpl in Hs.
    destruct (ostore_Submit _ _ _ _ _) as [[[record created] st']|err].
    + destruct (Operation_Terminal _); injection Hs as <- _.
      * eapply (host_ok_same h); try done. simpl. lia.
      * apply (host_ok_start (with_store h st')). by eapply (host_ok_same h).
    + injection Hs as <- _. eapply (host_ok_same h); try done. simpl. lia.
  - by apply host_ok_start.
  - destruct Hok as [Hk Ha Hl Hc]. destruct (proj2 (Ha i) Hi) as [id0 Hopen].
    destruct (slot_open_Finish _ _ _ 0 id0 Hopen) as [Hdel _].
    pose proof (λ j id, proj2 (slot_open_Finish _ _ _ j id Hopen)) as Ho. split; simpl.
    + intros id j. rewrite Hdel, Ho, lookup_delete_Some, Hk. split; intros [H1 H2].
      * split; [done|]. intros ->. apply H1. destruct H2 as (s & ? & <- & _), Hopen as (s' & ? & <- & _). congruence.
      * split; [|done]. intros ->. apply H2. apply Hk in H1, Hopen. congruence.
    + intros j. setoid_rewrite Ho. destruct (decide (j = i)) as [->|Hne].
      * rewrite list_lookup_insert_eq by (by eapply lookup_lt_Some). naive_solver.
      * rewrite list_lookup_insert_ne, <-Ha by done. naive_solver.
    + rewrite length_insert, <-Hl. unfold ExecutionSlot_Finish. repeat case_match; simpl; by rewrite ?length_insert.
    + pose proof (live_tasks_insert _ _ _ TaskFinished Hi). simpl in *. lia.
  - destruct Hok as [Hk Ha Hl Hc]. split; simpl; [done| |by rewrite length_insert|].
    + intros j. rewrite Ha. destruct (decide (j = i)) as [->|Hne].
      * rewrite Hi, list_lookup_insert_eq by (by eapply lookup_lt_Some). done.
      * by rewrite list_lookup_insert_ne.
    + pose proof (live_tasks_insert _ _ _ TaskDone Hi). simpl in *. lia.
  - rewrite Finish_closed by (rewrite (ho_aligned _ Hok); done). by eapply (host_ok_same h).
  - unfold Host_Cancel in Hs. destruct res as [[cancelled [|]]|err]; injection Hs as <- _; [|done..].
    unfold Inflight_Cancel. destruct (if_cancel _ !! id) as [k|]; [|by eapply (host_ok_same h)].
    eapply (host_ok_same h); try done; simpl; [by rewrite length_alter|].
    intros j id'. apply slot_open_ext.
    + intros s'. destruct (decide (j = k)) as [->|Hne].
      * rewrite list_lookup_alter_eq. intros (s & Hs & ->)%fmap_Some. eauto.
      * rewrite list_lookup_alter_ne by done. eauto.
    + intros s Hs. destruct (decide (j = k)) as [->|Hne].
      * rewrite list_lookup_alter_eq, Hs. eauto.
      * rewrite list_lookup_alter_ne by done. eauto.
  - eapply (host_ok_same h); try done; simpl; [by rewrite length_fmap|]. intros j id'. apply slot_open_ext.
    + intros s' (s & -> & Hs)%list_lookup_fmap_Some. eexists. split; [done|]. by destruct (sl_finished s) eqn:?.
    + intros s Hs. rewrite list_lookup_fmap, Hs. eexists. split; [done|]. by destruct (sl_finished s) eqn:?.
Qed.

Lemma host_reach_ok h : host_reach h → host_ok h.
Proof.
  intros Hr. eapply (rtc_ind_r host_ok); [|intros; by eapply host_ok_step|exact Hr].
  split; simpl; [|intros i|done|done].
  - intros id i. rewrite lookup_empty. split; [done|]. by intros (s & Hs & _).
  - split; [|done]. by intros (id & s & Hs & _).
Qed.

(** The host executes an operation at most once at a time and keeps its books: in every state that
    submissions, recoveries, cancellations, returning workers, repeated [Finish] calls and the shutdown
    of the root context reach, two goroutines inside [Runner.Run] work on different operations; the
    lifecycle counter is the number of reservations not yet used plus the goroutines that have not
    called [onDone], so every reservation is given back exactly once; and cancelling an operation
    reports true exactly when one of the goroutines is executing it, and then ends the context of that
    slot and of no other. *)
Theorem host_slots_exclusive h :
  host_reach h →
  (∀ i j si sj, ho_tasks h !! i = Some TaskRunning → ho_tasks h !! j = Some TaskRunning →
     if_slots (ho_inflight h) !! i = Some si → if_slots (ho_inflight h) !! j = Some sj →
     sl_id si = sl_id sj → i = j) ∧
  ho_reserved h = ho_pending h + Z.of_nat (live_tasks (ho_tasks h)) ∧
  (∀ id, (Inflight_Cancel (ho_inflight h) id).2 = true ↔
     ∃ i s, ho_tasks h !! i = Some TaskRunning ∧ if_slots (ho_inflight h) !! i = Some s ∧ sl_id s = id) ∧
  (∀ id i s, if_slots (ho_inflight h) !! i = Some s →
     if_slots (Inflight_Cancel (ho_inflight h) id).1 !! i =
       Some (if bool_decide (ho_tasks h !! i = Some TaskRunning ∧ sl_id s = id) then slot_cancel s else s)).
Proof.
  intros Hr%host_reach_ok. pose proof Hr as [Hk Ha Hl Hc].
  assert (∀ i s, ho_tasks h !! i = Some TaskRunning → if_slots (ho_inflight h) !! i = Some s →
            if_cancel (ho_inflight h) !! sl_id s = Some i) as Hrun.
  { intros i s Ht Hs. apply Hk. apply Ha in Ht as (id & s' & Hs' & <- & Hf). exists s. split_and!; congruence. }
  assert (∀ id i, if_cancel (ho_inflight h) !! id = Some i →
            ∃ s, ho_tasks h !! i = Some TaskRunning ∧ if_slots (ho_inflight h) !! i = Some s ∧ sl_id s = id) as Hkey.
  { intros id i Hki. apply Hk in Hki. pose proof (proj1 (Ha i) ltac:(eauto)) as Ht.
    destruct Hki as (s & Hs & Hid & _). eauto. }
  split_and!.
  - intros i j si sj Hi Hj Hsi Hsj Heq. pose proof (Hrun _ _ Hi Hsi). pose proof (Hrun _ _ Hj Hsj). congruence.
  - done.
  - intros id. unfold Inflight_Cancel. destruct (if_cancel (ho_inflight h) !! id) as [i|] eqn:Hi; simpl.
    + apply Hkey in Hi as (s & ? & ? & ?). split; [eauto|done].
    + split; [done|]. intros (i & s & Ht & Hs & <-). by rewrite (Hrun _ _ Ht Hs) in Hi.
  - intros id i s Hs. unfold Inflight_Cancel. destruct (if_cancel (ho_inflight h) !! id) as [k|] eqn:Hki; simpl.
    + destruct (decide (i = k)) as [->|Hne].
      * apply Hkey in Hki as (s' & Ht & Hs' & Hid). rewrite list_lookup_alter_eq, Hs. simpl.
        rewrite bool_decide_eq_true_2; [done|]. split; [done|congruence].
      * rewrite list_lookup_alter_ne by done. rewrite bool_decide_eq_false_2; [done|].
        intros [Ht <-]. rewrite (Hrun _ _ Ht Hs) in Hki. congruence.
    + rewrite bool_decide_eq_false_2; [done|]. intros [Ht <-]. by rewrite (Hrun _ _ Ht Hs) in Hki.
Qed.

(** ** Witnesses *)

Lemma cancel_settles_operation_witness :
  ∃ record, ostore_Get ex_cancelled None "op-1" = Ok record ∧
            op_State (or_Operation record) = OperationCancelled.
Proof.
  pose (m := requestCancel_mutate None "op-1" None).
  assert (loop_run None "op-1" m 0 2 (ex_st2, Reading)
            (mutate_write m ex_st2 ex_claim.1 2050)) as Hrun.
  { apply (loop_write None "op-1" m 0 1 _ ex_st2 ex_claim.1 2050).
    apply (loop_read None "op-1" m 0 0 _ ex_st2). apply loop_refl. }
  assert (mutate_write m ex_st2 ex_claim.1 2050 =
            (ex_cancelled, Done (Ok ((get (ex_record "", ex_st2) (ostore_Cancel ex_st2 None "op-1" 2 2050)).1, true))))
    as E by (by vm_compute).
  rewrite E in Hrun.
  destruct (cancel_settles_operation "op-1" None 2 0 2 ex_st2 _ _ ex_reach2 ltac:(by vm_compute) Hrun) as (? & _ & Hc).
  eexists. split; [done|]. by apply Hc.
Defined.

Lemma recovery_schedule_exact_witness :
  ∃ candidates, ListRecoveryCandidates ex_st2 None 2100 2100 = Ok candidates ∧
    NoDup (rc_OperationID <$> candidates) ∧ candidates = [{| rc_OperationID := "op-1"; rc_Delay := 400 |}].
Proof.
  destruct (recovery_schedule_exact 2 ex_st2 2100 2100 "worker-2" 500 ex_reach2) as (cs & Hc & Hd & _);
    [by vm_compute..|]. exists cs. split_and!; [done..|]. vm_compute in Hc. by injection Hc as <-.
Defined.

Lemma fail_invalid_outcome_witness :
  ∃ r, op_State (or_Operation r) = OperationFailed ∧ op_Error (or_Operation r) = "failed".
Proof.
  pose proof (fail_invalid_outcome ex_text "op-1" (λ _, Err (errors_New "gone")) 2 ex_st2 ex_claim.1 2050 ex_reach2
    ltac:(by vm_compute) ltac:(by vm_compute) ltac:(by vm_compute)) as H.
  destruct (mutate_write _ _ _ _) as [st' s]. destruct H as (r & _ & _ & ? & ?). eauto.
Defined.

(** One submission reserved and started: one goroutine runs "op-1". *)
Definition ex_host : Host := StartReservedAsync (host_reserve (host_reserve newHost 1 1) 0 (-1)) "op-1".

Lemma host_slots_exclusive_witness :
  ho_reserved ex_host = 1 ∧ (Inflight_Cancel (ho_inflight ex_host) "op-1").2 = true.
Proof.
  destruct (host_slots_exclusive ex_host) as (_ & Hc & Hx & _).
  { eapply rtc_l; [apply host_begin|]. eapply rtc_l; [apply (host_start _ "op-1"); by vm_compute|]. apply rtc_refl. }
  split; [by vm_compute in Hc|]. apply Hx. eexists 0%nat, _. by split_and!.
Defined.
