(* ===== verification/OperationAwait.v ===== *)
(** Waiting for an operation, [sdk/runtime/operation_await.go]: a caller that submitted an operation watches or
    polls it until it is terminal, and cancels it when its own context ends. *)

From S2P Require Import Prelude GoText Names Invocation Operation OperationStore OperationWorker OperationHost.

(** ** The host

    Reading the context, waiting, and asking whether the runtime is closing are calls that may take time, so
    each returns the world after it. *)

Class AwaitRuntime (W : Type) := {
  aw_ctxErr : W → option error * W;
  aw_waitContext : W → bool * W;
  aw_handoff : W → bool * W;
}.

Definition observation (W : Type) : Type := string → Z → W → result Operation * W.

Record operationAwait (W : Type) := {
  oa_expectedIdempotencyKey : string;
  oa_initial : Operation;
  oa_poll : option (observation W);
  oa_watch : option (observation W);
  oa_cancel : option (string → W → result Operation * W);
}.
Arguments oa_expectedIdempotencyKey {_} _.
Arguments oa_initial {_} _.
Arguments oa_poll {_} _.
Arguments oa_watch {_} _.
Arguments oa_cancel {_} _.

Definition operationAwaitForRequest {W} (request : OperationRequest) (initial : Operation) (poll : option (observation W))
    (cancel : option (string → W → result Operation * W)) (watch : list (observation W)) : operationAwait W :=
  {| oa_expectedIdempotencyKey := oq_IdempotencyKey request; oa_initial := initial; oa_poll := poll;
     oa_watch := head watch; oa_cancel := cancel |}.

(** A terminal state that is not success is an error that carries the operation. *)
Inductive await_outcome :=
  | AwaitSucceeded (operation : Operation)
  | AwaitTerminal (operation : Operation)
  | AwaitFailed (err : error).

Definition zeroOperation : Operation :=
  {| op_ID := ""; op_IdempotencyKey := ""; op_State := OperationStateOther ""; op_Revision := 0; op_Output := "";
     op_Error := ""; op_SubmittedAt := 0; op_UpdatedAt := 0 |}.

Definition sameOperationObservation (left right : Operation) : bool :=
  bool_decide (op_ID left = op_ID right) && bool_decide (op_IdempotencyKey left = op_IdempotencyKey right) &&
  bool_decide (op_State left = op_State right) && bool_decide (op_Revision left = op_Revision right) &&
  bool_decide (op_Error left = op_Error right) && bool_decide (op_Output left = op_Output right).

Definition await_join (errs : list (option error)) : option error :=
  match omap id errs with [] => None | errs => Some (Joined errs) end.

(** [Operation{}] with an error that may be nil. *)
Definition failed_observation (err : option error) : result Operation :=
  match err with Some err => Err err | None => Ok zeroOperation end.

Section await.
Context {W : Type} `{!AwaitRuntime W}.
Context (poll : observation W) (watch : option (observation W)) (cancel : string → W → result Operation * W).

Definition cancelAwaitedOperation (current : Operation) (w : W) : option error * W :=
  let '(active, w) := aw_handoff w in
  if active then aw_ctxErr w else
  let '(cancelled, w) := cancel (op_ID current) w in
  let '(cause, w) := aw_ctxErr w in
  (await_join [cause; match cancelled with Err err => Some err | Ok _ => None end], w).

Definition waitOrCancelAwaitedOperation (current : Operation) (w : W) : option error * W :=
  let '(elapsed, w) := aw_waitContext w in
  if elapsed then (None, w) else cancelAwaitedOperation current w.

Definition pollAwaitedOperation (current : Operation) (w : W) : result Operation * W :=
  let '(next, w) := poll (op_ID current) (op_Revision current) w in
  match next with
  | Ok next => (Ok next, w)
  | Err err =>
      let '(cause, w) := aw_ctxErr w in
      match cause with
      | Some _ => let '(err, w) := cancelAwaitedOperation current w in (failed_observation err, w)
      | None => (Err err, w)
      end
  end.

Definition waitAndPollAwaitedOperation (current : Operation) (w : W) : result Operation * W :=
  let '(err, w) := waitOrCancelAwaitedOperation current w in
  match err with Some err => (Err err, w) | None => pollAwaitedOperation current w end.

Definition pollAfterUnchangedWatch (current : Operation) (w : W) : result Operation * W :=
  let '(next, w) := pollAwaitedOperation current w in
  match next with
  | Err err => (Err err, w)
  | Ok next =>
      if sameOperationObservation current next && negb (Operation_Terminal next) then
        let '(err, w) := waitOrCancelAwaitedOperation current w in
        (match err with Some err => Err err | None => Ok next end, w)
      else (Ok next, w)
  end.

Definition observeOperation (current : Operation) (w : W) : result Operation * W :=
  match watch with
  | None => waitAndPollAwaitedOperation current w
  | Some watch =>
      let '(next, w) := watch (op_ID current) (op_Revision current) w in
      match next with
      | Ok next =>
          if sameOperationObservation current next && negb (Operation_Terminal next) then
            let '(cause, w) := aw_ctxErr w in
            match cause with
            | Some _ => let '(err, w) := cancelAwaitedOperation current w in (failed_observation err, w)
            | None => pollAfterUnchangedWatch current w
            end
          else (Ok next, w)
      | Err _ =>
          let '(cause, w) := aw_ctxErr w in
          match cause with
          | Some _ => let '(err, w) := cancelAwaitedOperation current w in (failed_observation err, w)
          | None => waitAndPollAwaitedOperation current w
          end
      end
  end.

(** One round of the loop: an observation that is valid progress. *)
Definition await_round (current : Operation) (w : W) : result Operation * W :=
  let '(next, w) := observeOperation current w in
  (let? next := next in
   try? ValidateOperationProgress current next;
   Ok next, w).

Definition await_end (current : Operation) : await_outcome :=
  match op_State current with
  | OperationSucceeded => AwaitSucceeded current
  | OperationFailed | OperationCancelled => AwaitTerminal current
  | state =>
      AwaitFailed (Errorf "operation %q reached unsupported terminal state %q" [AStr (op_ID current); AStr (state_text state)])
  end.

(** The loop of [awaitOperation]; [None] when the fuel runs out. *)
Fixpoint await_loop (fuel : nat) (current : Operation) (w : W) : option await_outcome * W :=
  if Operation_Terminal current then (Some (await_end current), w) else
  match fuel with
  | O => (None, w)
  | S fuel =>
      let '(next, w) := await_round current w in
      match next with
      | Err err => (Some (AwaitFailed err), w)
      | Ok next => await_loop fuel next w
      end
  end.
End await.

Definition awaitOperation {W} `{!AwaitRuntime W} (fuel : nat) (await : operationAwait W) (w : W) : option await_outcome * W :=
  let current := oa_initial await in
  match ValidateOperation current with
  | Err err => (Some (AwaitFailed err), w)
  | Ok _ =>
      if is_empty (oa_expectedIdempotencyKey await)
      then (Some (AwaitFailed (errors_New "operation idempotency key is empty")), w)
      else if negb (bool_decide (op_IdempotencyKey current = oa_expectedIdempotencyKey await))
      then (Some (AwaitFailed (Errorf "operation %q returned idempotency key %q, expected %q"
              [AStr (op_ID current); AStr (op_IdempotencyKey current); AStr (oa_expectedIdempotencyKey await)])), w)
      else
        match oa_poll await, oa_cancel await with
        | None, _ => (Some (AwaitFailed (errors_New "operation poll function is nil")), w)
        | Some _, None => (Some (AwaitFailed (errors_New "operation cancel function is nil")), w)
        | Some poll, Some cancel => await_loop poll (oa_watch await) cancel fuel current w
        end
  end.

Definition wrapOperationLabel (label : string) (err : error) : error :=
  if is_empty label then err else Wrapf "%s: %w" [AStr label] err.

(** The output of the operation, decoded, or the error of the wait. *)
Definition await_output {W A} (label : string) (decode : Operation → result A) (r : option await_outcome * W)
    : option (result A + Operation) * W :=
  let '(outcome, w) := r in
  (match outcome with
   | None => None
   | Some (AwaitSucceeded operation) => Some (inl (decode operation))
   | Some (AwaitTerminal operation) => Some (inr operation)
   | Some (AwaitFailed err) => Some (inl (Err (wrapOperationLabel label err)))
   end, w).

(** [json.Unmarshal] into the type of the result is a parameter. *)
Definition awaitOperationJSON {W A} `{!AwaitRuntime W} (unmarshal : string → result A) (fuel : nat) (await : operationAwait W)
    (awaitLabel decodeLabel : string) (w : W) : option (result A + Operation) * W :=
  await_output awaitLabel (λ operation,
    match unmarshal (op_Output operation) with
    | Err err => Err (Wrapf "decode %s: %w" [AStr decodeLabel] err)
    | Ok value => Ok value
    end) (awaitOperation fuel await w).

Definition awaitOperationRawJSON {W} `{!AwaitRuntime W} (fuel : nat) (await : operationAwait W)
    (awaitLabel outputLabel : string) (w : W) : option (result string + Operation) * W :=
  await_output awaitLabel (λ operation,
    fail_if negb (json_Valid (op_Output operation)) with Errorf "%s returned invalid JSON" [AStr outputLabel];
    Ok (op_Output operation)) (awaitOperation fuel await w).

(** ** Local operations of [operation_local.go] *)

Definition loadLocalOperation (st : ostore) (ctx : context) (identity : OperationTarget) (id : string) : result OperationRecord :=
  let? record := ostore_Get st ctx id in
  try? OperationTarget_Validate identity record;
  Ok record.

(** [work] is the answer of [beginOperationWork]. *)
Definition pollLocalOperation (st : ostore) (work : result unit) (ctx : context) (identity : OperationTarget) (id : string)
    : result Operation :=
  try? work;
  let? record := loadLocalOperation st ctx identity id in
  Ok (or_Operation record).

Definition submitLocalOperation (h : Host) (work : result unit) (ctx : context) (target : OperationTarget)
    (request : OperationRequest) (wall : time) (e : entropy) : Host * result Operation :=
  match work with
  | Err err => (h, Err err)
  | Ok _ => SubmitReserved (host_reserve h 1 0) ctx target request wall e
  end.

(** ** Waiting is sound *)

(** [r] is how the operation [initial] ends: the same operation at a later revision. *)
Definition ends_as (initial operation : Operation) : Prop :=
  op_ID operation = op_ID initial ∧ op_IdempotencyKey operation = op_IdempotencyKey initial ∧
  op_Revision initial ≤ op_Revision operation ∧ ValidateOperation operation = Ok tt.

Lemma ends_as_trans a b c : ends_as a b → ends_as b c → ends_as a c.
Proof. intros (H1 & H2 & H3 & _) (H4 & H5 & H6 & H7). split_and!; [congruence..|lia|done]. Qed.

Lemma ValidateOperationProgress_inv current next :
  ValidateOperationProgress current next = Ok tt →
  ends_as current next ∧ ValidateOperation current = Ok tt ∧
  (op_Revision next = op_Revision current →
     op_State next = op_State current ∧ op_Error next = op_Error current ∧ op_Output next = op_Output current).
Proof.
  unfold ValidateOperationProgress. intros ([] & Hc & H1)%bind_Ok. apply bind_Ok in H1 as ([] & Hn & H1).
  case_bool_decide as Hid; [|done]. cbn [negb] in H1. case_bool_decide as Hk; [|done]. cbn [negb] in H1.
  destruct (Z.ltb_spec (op_Revision next) (op_Revision current)) as [|Hrev]; [done|].
  split; [split_and!; [done|done|lia|done]|]. split; [done|]. intros Heq. rewrite Heq, Z.eqb_refl in H1.
  case_bool_decide as Hs; [|done]. cbn [negb] in H1.
  destruct (bool_decide (op_Error next = op_Error current)) eqn:He; [|done].
  destruct (bool_decide (op_Output next = op_Output current)) eqn:Ho; [|done].
  apply bool_decide_eq_true in He, Ho. done.
Qed.
