(* ===== verification/OperationAwaitProperties.v ===== *)
(** Waiting for an operation: the outcome is the one in the store, the wait sleeps between unchanged
    observations, and it cancels at most once and only when it gives up.  Waiting for an operation of the local
    store: the store moves on between observations by any calls that do not purge, and the wait returns what the
    store says as soon as the operation has ended. *)

From S2P Require Import Prelude GoText Names Invocation Operation OperationStore OperationWorker OperationHost OperationAwait.

(** The context of the caller: once it has ended it stays so, whatever is called, and reports an error. *)
Class AwaitLaws (W : Type) `{!AwaitRuntime W} (cancel : string → W → result Operation * W) := {
  aw_ended : W → Prop;
  law_wait w w' : aw_waitContext w = (false, w') → aw_ended w';
  law_ctx_seen w e w' : aw_ctxErr w = (Some e, w') → aw_ended w';
  law_ctx_ended w c w' : aw_ended w → aw_ctxErr w = (c, w') → c ≠ None ∧ aw_ended w';
  law_handoff_ended w a w' : aw_ended w → aw_handoff w = (a, w') → aw_ended w';
  law_cancel_ended id w r w' : aw_ended w → cancel id w = (r, w') → aw_ended w';
}.

(** ** Counting waits and cancellations *)

Record tally (W : Type) := {
  tl_world : W;
  tl_waits : nat;
  tl_cancels : list string;
}.
Arguments tl_world {_} _.
Arguments tl_waits {_} _.
Arguments tl_cancels {_} _.

Section tally.
Context {W : Type} `{!AwaitRuntime W}.

Definition tally_put (t : tally W) (w : W) : tally W := {| tl_world := w; tl_waits := tl_waits t; tl_cancels := tl_cancels t |}.
Definition tally_call {A} (f : W → A * W) (t : tally W) : A * tally W := let '(a, w) := f (tl_world t) in (a, tally_put t w).

#[export] Instance tally_runtime : AwaitRuntime (tally W) := {|
  aw_ctxErr := tally_call aw_ctxErr;
  aw_waitContext t :=
    let '(elapsed, w) := aw_waitContext (tl_world t) in
    (elapsed, {| tl_world := w; tl_waits := S (tl_waits t); tl_cancels := tl_cancels t |});
  aw_handoff := tally_call aw_handoff;
|}.

Definition tally_observe (f : observation W) : observation (tally W) := λ id revision, tally_call (f id revision).
Definition tally_cancel (f : string → W → result Operation * W) (id : string) (t : tally W) : result Operation * tally W :=
  let '(r, w) := f id (tl_world t) in
  (r, {| tl_world := w; tl_waits := tl_waits t; tl_cancels := tl_cancels t ++ [id] |}).

Definition tally_await (await : operationAwait W) : operationAwait (tally W) :=
  {| oa_expectedIdempotencyKey := oa_expectedIdempotencyKey await; oa_initial := oa_initial await;
     oa_poll := tally_observe <$> oa_poll await; oa_watch := tally_observe <$> oa_watch await;
     oa_cancel := tally_cancel <$> oa_cancel await |}.

Definition tally_start (w : W) : tally W := {| tl_world := w; tl_waits := 0; tl_cancels := [] |}.

Context (poll : observation W) (watch : option (observation W)) (cancel : string → W → result Operation * W).
Abbreviation tpoll := (tally_observe poll).
Abbreviation twatch := (tally_observe <$> watch).
Abbreviation tcancel := (tally_cancel cancel).

(** What a part of a round did: it slept [n] times, and cancelled or not. *)
Definition did (t t' : tally W) (n : nat) (ids : list string) : Prop :=
  tl_waits t' = (tl_waits t + n)%nat ∧ tl_cancels t' = tl_cancels t ++ ids.

Lemma did_refl t w : did t (tally_put t w) 0 [].
Proof. split; cbn; [lia|by rewrite app_nil_r]. Qed.

Lemma did_trans t1 t2 t3 n m ids ids' : did t1 t2 n ids → did t2 t3 m ids' → did t1 t3 (n + m) (ids ++ ids').
Proof. intros [H1 H2] [H3 H4]. split; [lia|by rewrite H4, H2, app_assoc]. Qed.

Lemma did_call {A} (f : W → A * W) t a t' : tally_call f t = (a, t') → did t t' 0 [].
Proof. unfold tally_call. destruct (f (tl_world t)) as [a' w]. intros [= <- <-]. apply did_refl. Qed.

Lemma call_world {A} (f : W → A * W) t a t' : tally_call f t = (a, t') → f (tl_world t) = (a, tl_world t').
Proof. unfold tally_call. destruct (f (tl_world t)) as [a' w]. by intros [= <- <-]. Qed.

Context `{!AwaitLaws W cancel}.

(** Giving up after the context has ended: an error, and at most one cancellation. *)
Lemma cancel_did current t err t' :
  aw_ended (tl_world t) → cancelAwaitedOperation tcancel current t = (err, t') →
  err ≠ None ∧ (did t t' 0 [] ∨ did t t' 0 [op_ID current]).
Proof.
  intros He. unfold cancelAwaitedOperation. destruct (aw_handoff t) as [active t1] eqn:H1.
  pose proof (law_handoff_ended _ _ _ He (call_world _ _ _ _ H1)) as He1. apply did_call in H1.
  destruct active.
  - intros H2. destruct (law_ctx_ended _ _ _ He1 (call_world _ _ _ _ H2)) as [Hne _]. apply did_call in H2.
    split; [done|]. left. exact (did_trans _ _ _ _ _ _ _ H1 H2).
  - destruct (tcancel (op_ID current) t1) as [r t2] eqn:H2. destruct (aw_ctxErr t2) as [c t3] eqn:H3.
    unfold tally_cancel in H2. destruct (cancel (op_ID current) (tl_world t1)) as [r' w] eqn:Hc. injection H2 as _ <-.
    pose proof (law_cancel_ended _ _ _ _ He1 Hc) as He2.
    destruct (law_ctx_ended _ _ _ He2 (call_world _ _ _ _ H3)) as [Hne _]. apply did_call in H3.
    intros [= <- <-]. split; [by destruct c|]. right. eapply (did_trans _ _ _ 0 0 [] [op_ID current]); [exact H1|].
    eapply (did_trans _ _ _ 0 0 [op_ID current] []); [|exact H3]. split; cbn; [lia|done].
Qed.

(** The two ends of a part of a round: it goes on without a cancellation, or gives up. *)
Definition part {A} (current : Operation) (goes_on : A → nat → Prop) (t : tally W) (r : result A) (t' : tally W) : Prop :=
  match r with
  | Ok a => ∃ n, goes_on a n ∧ did t t' n []
  | Err _ => ∃ n ids, did t t' n ids ∧ (ids = [] ∨ ids = [op_ID current])
  end.

Lemma part_after {A} current (P Q : A → nat → Prop) t t1 r t' n :
  did t t1 n [] → (∀ a m, P a m → Q a (n + m)%nat) → part current P t1 r t' → part current Q t r t'.
Proof.
  intros Hd HPQ. destruct r as [a|err]; cbn.
  - intros (m & HP & Hm). exists (n + m)%nat. split; [by apply HPQ|exact (did_trans _ _ _ _ _ _ _ Hd Hm)].
  - intros (m & ids & Hm & Hids). exists (n + m)%nat, ids. split; [exact (did_trans _ _ _ _ _ _ _ Hd Hm)|done].
Qed.

Lemma wait_part current t err t' :
  waitOrCancelAwaitedOperation tcancel current t = (err, t') →
  part current (λ _ n, n = 1%nat) t (match err with Some err => Err err | None => Ok tt end) t'.
Proof.
  unfold waitOrCancelAwaitedOperation. destruct (aw_waitContext t) as [elapsed t1] eqn:H1.
  cbn in H1. destruct (aw_waitContext (tl_world t)) as [e w] eqn:Hw. injection H1 as <- <-.
  assert (did t {| tl_world := w; tl_waits := S (tl_waits t); tl_cancels := tl_cancels t |} 1 []) as Hd
    by (split; cbn; [lia|by rewrite app_nil_r]).
  destruct e; [intros [= <- <-]; by exists 1%nat|].
  intros H2. destruct (cancel_did _ {| tl_world := w; tl_waits := S (tl_waits t); tl_cancels := tl_cancels t |} _ _
    (law_wait _ _ Hw) H2) as [Hne [Hc|Hc]]; (destruct err; [|done]);
    (eexists _, _; split; [exact (did_trans _ _ _ _ _ _ _ Hd Hc)|cbn; auto]).
Qed.

Lemma ended_part {A} current (P : A → nat → Prop) (f : option error → result A) t r t' :
  aw_ended (tl_world t) → (∀ e, f (Some e) = Err e) →
  (let '(err, t1) := cancelAwaitedOperation tcancel current t in (f err, t1)) = (r, t') → part current P t r t'.
Proof.
  intros He Hf. destruct (cancelAwaitedOperation tcancel current t) as [err t1] eqn:Hc.
  destruct (cancel_did _ _ _ _ He Hc) as [Hne Hd]. intros [= <- <-]. destruct err as [e|]; [|done]. rewrite Hf.
  destruct Hd; eexists _, _; eauto.
Qed.

Lemma poll_part current t r t' :
  pollAwaitedOperation tpoll tcancel current t = (r, t') → part current (λ _ n, n = 0%nat) t r t'.
Proof.
  unfold pollAwaitedOperation. destruct (tpoll (op_ID current) (op_Revision current) t) as [next t1] eqn:H1.
  apply did_call in H1. destruct next as [next|err]; [intros [= <- <-]; by exists 0%nat|].
  destruct (aw_ctxErr t1) as [cause t2] eqn:H2. pose proof (call_world _ _ _ _ H2) as Hw. apply did_call in H2.
  pose proof (did_trans _ _ _ _ _ _ _ H1 H2) as Hd. destruct cause as [c|].
  - intros H3. eapply part_after; [exact Hd| |eapply (ended_part _ (λ _ n, n = 0%nat) failed_observation); [by eapply law_ctx_seen|done|exact H3]].
    intros a m ->. done.
  - intros [= <- <-]. eexists _, _. eauto.
Qed.

Lemma wait_poll_part current t r t' :
  waitAndPollAwaitedOperation tpoll tcancel current t = (r, t') → part current (λ _ n, n = 1%nat) t r t'.
Proof.
  unfold waitAndPollAwaitedOperation. destruct (waitOrCancelAwaitedOperation tcancel current t) as [err t1] eqn:H1.
  apply wait_part in H1. destruct err as [err|].
  - intros [= <- <-]. exact H1.
  - destruct H1 as (n & -> & Hd). intros H2%poll_part. eapply part_after; [exact Hd| |exact H2]. by intros a m ->.
Qed.

(** An observation that was not slept for is not the one the caller already has. *)
Definition paced (current next : Operation) (n : nat) : Prop :=
  (1 ≤ n)%nat ∨ sameOperationObservation current next = false ∨ Operation_Terminal next = true.

Lemma paced_not_same current next n :
  sameOperationObservation current next && negb (Operation_Terminal next) = false → paced current next n.
Proof. intros [?|?%negb_false_iff]%andb_false_iff; [by right; left|by right; right]. Qed.

Lemma unchanged_part current t r t' :
  pollAfterUnchangedWatch tpoll tcancel current t = (r, t') → part current (paced current) t r t'.
Proof.
  unfold pollAfterUnchangedWatch. destruct (pollAwaitedOperation tpoll tcancel current t) as [next t1] eqn:H1.
  apply poll_part in H1. destruct next as [next|err]; [|by intros [= <- <-]].
  destruct H1 as (n & -> & Hd). destruct (sameOperationObservation current next && _) eqn:Hs.
  - destruct (waitOrCancelAwaitedOperation tcancel current t1) as [err t2] eqn:H2. apply wait_part in H2.
    intros [= <- <-]. eapply part_after; [exact Hd| |]; [intros a m; exact id|].
    destruct err as [err|]; [exact H2|]. destruct H2 as (m & -> & Hm). exists 1%nat. split; [by left|done].
  - intros [= <- <-]. exists 0%nat. split; [by apply paced_not_same|done].
Qed.

Lemma observe_part current t r t' :
  observeOperation tpoll twatch tcancel current t = (r, t') → part current (paced current) t r t'.
Proof.
  assert (∀ t1 n, did t t1 n [] → waitAndPollAwaitedOperation tpoll tcancel current t1 = (r, t') →
    part current (paced current) t r t') as Hwait.
  { intros t1 n Hd H1%wait_poll_part. eapply part_after; [exact Hd| |exact H1]. intros a m ->. left. lia. }
  unfold observeOperation. destruct watch as [f|]; cbn [fmap option_fmap option_map];
    [|by apply (Hwait t 0%nat); split; [lia|by rewrite app_nil_r]].
  destruct (tally_observe f _ _ t) as [next t1] eqn:H1. apply did_call in H1.
  destruct next as [next|err].
  - destruct (sameOperationObservation current next && _) eqn:Hs;
      [|intros [= <- <-]; exists 0%nat; split; [by apply paced_not_same|done]].
    destruct (aw_ctxErr t1) as [cause t2] eqn:H2. pose proof (call_world _ _ _ _ H2) as Hw. apply did_call in H2.
    pose proof (did_trans _ _ _ _ _ _ _ H1 H2) as Hd. destruct cause as [c|].
    + intros H3. eapply part_after; [exact Hd|intros a m; exact id|].
      eapply (ended_part _ _ failed_observation); [by eapply law_ctx_seen|done|exact H3].
    + intros H3%unchanged_part. eapply part_after; [exact Hd|intros a m; exact id|exact H3].
  - destruct (aw_ctxErr t1) as [cause t2] eqn:H2. pose proof (call_world _ _ _ _ H2) as Hw. apply did_call in H2.
    pose proof (did_trans _ _ _ _ _ _ _ H1 H2) as Hd. destruct cause as [c|]; [|exact (Hwait _ _ Hd)].
    intros H3. eapply part_after; [exact Hd|intros a m; exact id|].
    eapply (ended_part _ _ failed_observation); [by eapply law_ctx_seen|done|exact H3].
Qed.

(** A round that goes on has slept, or the operation has a new revision, or it has ended. *)
Definition advances (current next : Operation) (n : nat) : Prop :=
  ends_as current next ∧ ((1 ≤ n)%nat ∨ op_Revision current < op_Revision next ∨ Operation_Terminal next = true).

Lemma round_part current t r t' :
  await_round tpoll twatch tcancel current t = (r, t') → part current (advances current) t r t'.
Proof.
  unfold await_round. destruct (observeOperation tpoll twatch tcancel current t) as [next t1] eqn:H1.
  apply observe_part in H1. destruct next as [next|err]; cbn; [|by intros [= <- <-]].
  destruct H1 as (n & Hp & Hd). destruct (ValidateOperationProgress current next) as [[]|err] eqn:Hv; cbn;
    intros [= <- <-]; [|by exists n, []; auto].
  apply ValidateOperationProgress_inv in Hv as (He & _ & Hsame). exists n. split; [|done]. split; [done|].
  destruct Hp as [?|[Hs|?]]; [by left| |by right; right]. right. left.
  destruct He as (Hid & Hk & Hrev & _). destruct (Z.eq_dec (op_Revision next) (op_Revision current)) as [Heq|]; [|lia].
  destruct (Hsame Heq) as (Hst & Herr & Hout). exfalso. revert Hs. unfold sameOperationObservation.
  by rewrite Hid, Hk, Heq, Hst, Herr, Hout, !bool_decide_eq_true_2.
Qed.

(** What the loop did by the time it stopped. *)
Definition loop_summary (initial : Operation) (outcome : await_outcome) (ids : list string) : Prop :=
  match outcome with
  | AwaitSucceeded operation => ends_as initial operation ∧ op_State operation = OperationSucceeded ∧ ids = []
  | AwaitTerminal operation =>
      ends_as initial operation ∧ (op_State operation = OperationFailed ∨ op_State operation = OperationCancelled) ∧ ids = []
  | AwaitFailed _ => ids = [] ∨ ids = [op_ID initial]
  end.

Lemma loop_summary_sound fuel current t outcome t' :
  ValidateOperation current = Ok tt →
  await_loop tpoll twatch tcancel fuel current t = (Some outcome, t') →
  ∃ n ids, did t t' n ids ∧ loop_summary current outcome ids.
Proof.
  assert (∀ t, did t t 0 []) as Hrefl by (intros t0; split; [lia|by rewrite app_nil_r]).
  revert current t. induction fuel as [|fuel IH]; intros current t Hv; cbn [await_loop];
    (destruct (Operation_Terminal current) eqn:Ht;
      [intros [= <- <-]; exists 0%nat, []; split; [apply Hrefl|]; unfold await_end;
       destruct (op_State current) eqn:Hs; cbn; unfold ends_as; auto 10 with lia|]); [done|].
  destruct (await_round tpoll twatch tcancel current t) as [next t1] eqn:H1. apply round_part in H1.
  destruct next as [next|err].
  - destruct H1 as (n & [He _] & Hd). intros H2. destruct (IH next t1) as (m & ids & Hm & Hs); [apply He|done|].
    exists (n + m)%nat, ids. split; [exact (did_trans _ _ _ _ _ _ _ Hd Hm)|].
    pose proof He as (Hid & _). destruct outcome; cbn in *; [| |by rewrite <- Hid].
    + destruct Hs as (Hs & ? & ?). split_and!; [by eapply ends_as_trans|done..].
    + destruct Hs as (Hs & ? & ?). split_and!; [by eapply ends_as_trans|done..].
  - intros [= <- <-]. destruct H1 as (n & ids & Hd & Hids). by exists n, ids.
Qed.

End tally.

(** ** Where an observation comes from *)

Section observed.
Context {W : Type} `{!AwaitRuntime W} (poll : observation W) (watch : option (observation W)) (cancel : string → W → result Operation * W).

(** [next] was returned by the poll or the watch; [Operation{}] stands for a cancellation without an error. *)
Definition observed (next : Operation) : Prop :=
  next = zeroOperation ∨
  ∃ f id revision w w', (f = poll ∨ watch = Some f) ∧ f id revision w = (Ok next, w').

Lemma failed_observed err next : failed_observation err = Ok next → observed next.
Proof. destruct err; [done|]. intros [= <-]. by left. Qed.

Lemma poll_observed current w next w' : pollAwaitedOperation poll cancel current w = (Ok next, w') → observed next.
Proof.
  unfold pollAwaitedOperation. destruct (poll _ _ w) as [[n|err] w1] eqn:H1.
  - intros [= <- <-]. right. eauto 10.
  - destruct (aw_ctxErr w1) as [[c|] w2]; [|done]. destruct (cancelAwaitedOperation _ _ _) as [e w3].
    intros [= Hf _]. by eapply failed_observed.
Qed.

Lemma wait_poll_observed current w next w' :
  waitAndPollAwaitedOperation poll cancel current w = (Ok next, w') → observed next.
Proof.
  unfold waitAndPollAwaitedOperation. destruct (waitOrCancelAwaitedOperation _ _ _) as [[e|] w1]; [done|].
  apply poll_observed.
Qed.

Lemma unchanged_observed current w next w' :
  pollAfterUnchangedWatch poll cancel current w = (Ok next, w') → observed next.
Proof.
  unfold pollAfterUnchangedWatch. destruct (pollAwaitedOperation _ _ _ _) as [[n|e] w1] eqn:H1; [|done].
  apply poll_observed in H1. destruct (_ && _); [|by intros [= <- _]].
  destruct (waitOrCancelAwaitedOperation _ _ _) as [[e|] w2]; [done|by intros [= <- _]].
Qed.

Lemma observe_observed current w next w' :
  observeOperation poll watch cancel current w = (Ok next, w') → observed next.
Proof.
  unfold observeOperation. destruct watch as [f|] eqn:Hw; [|intros H1; by eapply wait_poll_observed].
  destruct (f _ _ w) as [[n|err] w1] eqn:H1.
  - destruct (_ && _); [|intros [= <- _]; right; rewrite Hw; eauto 10].
    destruct (aw_ctxErr w1) as [[c|] w2]; [|intros H2; by eapply unchanged_observed].
    destruct (cancelAwaitedOperation _ _ _) as [e w3]. intros [= Hf _]. by eapply failed_observed.
  - destruct (aw_ctxErr w1) as [[c|] w2]; [|intros H2; by eapply wait_poll_observed].
    destruct (cancelAwaitedOperation _ _ _) as [e w3]. intros [= Hf _]. by eapply failed_observed.
Qed.

(** The observation of a round that goes on is a real one: [Operation{}] is not valid. *)
Lemma round_observed current w next w' :
  await_round poll watch cancel current w = (Ok next, w') →
  ∃ f id revision w1 w2, (f = poll ∨ watch = Some f) ∧ f id revision w1 = (Ok next, w2).
Proof.
  unfold await_round. destruct (observeOperation _ _ _ _ _) as [[n|e] w1] eqn:H1; cbn; [|done].
  destruct (ValidateOperationProgress current n) as [[]|e] eqn:Hv; cbn; [|done]. intros [= <- _].
  apply observe_observed in H1 as [->|Ho]; [|done].
  by apply ValidateOperationProgress_inv in Hv as ((_ & _ & _ & Hz) & _ & _).
Qed.
End observed.

Section paced_loop.
Context {W : Type} `{!AwaitRuntime W} (poll : observation W) (watch : option (observation W)) (cancel : string → W → result Operation * W).
Context `{!AwaitLaws W cancel}.

(** Every revision that is observed is at most [limit]. *)
Definition revisions_bounded (limit : Z) : Prop :=
  ∀ f id revision w op w', f = poll ∨ watch = Some f → f id revision w = (Ok op, w') → op_Revision op ≤ limit.

Lemma tally_bounded limit f id revision t op t' :
  revisions_bounded limit → f = tally_observe poll ∨ tally_observe <$> watch = Some f →
  f id revision t = (Ok op, t') → op_Revision op ≤ limit.
Proof.
  intros Hb [->|(g & Hg & ->)%fmap_Some] Hf; apply call_world in Hf; eapply Hb; eauto.
Qed.

(** Rounds are paid for by sleeping or by revisions. *)
Lemma loop_paced fuel limit current t t' :
  revisions_bounded limit → op_Revision current ≤ limit →
  await_loop (tally_observe poll) (tally_observe <$> watch) (tally_cancel cancel) fuel current t = (None, t') →
  tl_cancels t' = tl_cancels t ∧
  Z.of_nat fuel + Z.of_nat (tl_waits t) ≤ Z.of_nat (tl_waits t') + (limit - op_Revision current).
Proof.
  intros Hb. revert current t. induction fuel as [|fuel IH]; intros current t Hl; cbn [await_loop];
    (destruct (Operation_Terminal current) eqn:Ht; [done|]); [intros [= <-]; split; [done|lia]|].
  destruct (await_round _ _ _ current t) as [next t1] eqn:H1. destruct next as [next|err]; [|done].
  pose proof (round_observed _ _ _ _ _ _ _ H1) as (f & id & revision & w1 & w2 & Hf & Hn).
  pose proof (round_part _ _ _ _ _ _ _ H1) as (n & [He Hadv] & [Hw Hc]).
  pose proof (tally_bounded _ _ _ _ _ _ _ Hb Hf Hn) as Hl'. intros H2.
  destruct He as (_ & _ & Hrev & _). destruct fuel as [|fuel'].
  - cbn [await_loop] in H2. destruct (Operation_Terminal next) eqn:Ht'; [done|]. injection H2 as <-.
    rewrite app_nil_r in Hc. split; [done|]. destruct Hadv as [?|[?|?]]; [lia|lia|done].
  - destruct (IH _ _ Hl' H2) as [Hc' Hw']. rewrite app_nil_r in Hc. split; [congruence|].
    destruct Hadv as [?|[?|Ht']]; [lia|lia|]. cbn [await_loop] in H2. by rewrite Ht' in H2.
Qed.
End paced_loop.

(** ** The tally only watches *)

Section untally.
Context {W : Type} `{!AwaitRuntime W} (poll : observation W) (watch : option (observation W)) (cancel : string → W → result Operation * W).

Definition untally {A} (p : A * tally W) : A * W := (p.1, tl_world p.2).

Lemma untally_call {A} (f : W → A * W) t : untally (tally_call f t) = f (tl_world t).
Proof. unfold tally_call. by destruct (f _). Qed.

Lemma untally_wait t : untally (aw_waitContext t) = aw_waitContext (tl_world t).
Proof. cbn. by destruct (aw_waitContext _). Qed.

Lemma untally_tcancel id t : untally (tally_cancel cancel id t) = cancel id (tl_world t).
Proof. unfold tally_cancel. by destruct (cancel _ _). Qed.

(** Reading a call of the tallied world as a call of the world below it. *)
Ltac untally_step :=
  match goal with
  | |- context [tally_call ?f ?t] =>
      let E := fresh in pose proof (untally_call f t) as E; destruct (tally_call f t) as [? ?]; rewrite <- E; clear E
  | |- context [@aw_waitContext (tally W) _ ?t] =>
      let E := fresh in pose proof (untally_wait t) as E; destruct (@aw_waitContext (tally W) _ t) as [? ?]; rewrite <- E; clear E
  | |- context [tally_cancel cancel ?id ?t] =>
      let E := fresh in pose proof (untally_tcancel id t) as E; destruct (tally_cancel cancel id t) as [? ?]; rewrite <- E; clear E
  end.
Ltac untally_solve := cbn [untally fst snd aw_ctxErr aw_handoff tally_runtime]; repeat (first [done | untally_step | case_match]; cbn [untally fst snd]).

Lemma untally_cancelAwaited current t :
  untally (cancelAwaitedOperation (tally_cancel cancel) current t) = cancelAwaitedOperation cancel current (tl_world t).
Proof. unfold cancelAwaitedOperation. untally_solve. Qed.

(** The same for a part of a round, by its own lemma. *)
Ltac by_part lem :=
  let E := fresh in
  pose proof lem as E;
  match type of E with untally ?p = _ => destruct p as [? ?]; rewrite <- E; clear E end; cbn [untally fst snd].

Lemma untally_waitOrCancel current t :
  untally (waitOrCancelAwaitedOperation (tally_cancel cancel) current t) =
  waitOrCancelAwaitedOperation cancel current (tl_world t).
Proof. unfold waitOrCancelAwaitedOperation. by_part (untally_wait t). case_match; [done|]. apply untally_cancelAwaited. Qed.

Lemma untally_pollAwaited current t :
  untally (pollAwaitedOperation (tally_observe poll) (tally_cancel cancel) current t) =
  pollAwaitedOperation poll cancel current (tl_world t).
Proof.
  unfold pollAwaitedOperation, tally_observe. by_part (untally_call (poll (op_ID current) (op_Revision current)) t).
  case_match; [done|]. cbn [aw_ctxErr tally_runtime]. by_part (untally_call aw_ctxErr t0).
  case_match; [|done]. by by_part (untally_cancelAwaited current t1).
Qed.

Lemma untally_waitAndPoll current t :
  untally (waitAndPollAwaitedOperation (tally_observe poll) (tally_cancel cancel) current t) =
  waitAndPollAwaitedOperation poll cancel current (tl_world t).
Proof.
  unfold waitAndPollAwaitedOperation. by_part (untally_waitOrCancel current t). case_match; [done|]. apply untally_pollAwaited.
Qed.

Lemma untally_unchanged current t :
  untally (pollAfterUnchangedWatch (tally_observe poll) (tally_cancel cancel) current t) =
  pollAfterUnchangedWatch poll cancel current (tl_world t).
Proof.
  unfold pollAfterUnchangedWatch. by_part (untally_pollAwaited current t). do 2 (case_match; [|done]).
  by by_part (untally_waitOrCancel current t0).
Qed.

Lemma untally_observeOperation current t :
  untally (observeOperation (tally_observe poll) (tally_observe <$> watch) (tally_cancel cancel) current t) =
  observeOperation poll watch cancel current (tl_world t).
Proof.
  unfold observeOperation. destruct watch as [f|]; cbn [fmap option_fmap option_map]; [|apply untally_waitAndPoll].
  unfold tally_observe at 1. by_part (untally_call (f (op_ID current) (op_Revision current)) t).
  cbn [aw_ctxErr tally_runtime]. destruct r as [next|err]; [case_match; [|done]|];
    (by_part (untally_call aw_ctxErr t0)); (case_match; [by by_part (untally_cancelAwaited current t1)|]).
  - apply untally_unchanged.
  - apply untally_waitAndPoll.
Qed.

Lemma untally_loop fuel current t :
  untally (await_loop (tally_observe poll) (tally_observe <$> watch) (tally_cancel cancel) fuel current t) =
  await_loop poll watch cancel fuel current (tl_world t).
Proof.
  revert current t. induction fuel as [|fuel IH]; intros current t; cbn [await_loop]; (case_match; [done|]); [done|].
  unfold await_round. by_part (untally_observeOperation current t). case_match; [apply IH|done].
Qed.
End untally.

Lemma untally_await {W} `{!AwaitRuntime W} fuel (await : operationAwait W) t :
  untally (awaitOperation fuel (tally_await await) t) = awaitOperation fuel await (tl_world t).
Proof.
  unfold awaitOperation, tally_await; cbn [oa_initial oa_expectedIdempotencyKey oa_poll oa_cancel oa_watch].
  destruct (ValidateOperation _); [|done]. destruct (is_empty _); [done|]. destruct (negb _); [done|].
  destruct (oa_poll await), (oa_cancel await); cbn [fmap option_fmap option_map]; [apply untally_loop|done..].
Qed.

(** A wait that comes to an end is accounted for: a success or a terminal failure is the awaited operation
    itself, at a revision not before the one the caller had, and nothing was cancelled; when the wait gives up,
    at most one cancellation was sent, and it named the awaited operation. *)
Theorem await_outcome_accounted {W} `{!AwaitRuntime W} fuel (await : operationAwait W) cancel w outcome t' :
  oa_cancel await = Some cancel → AwaitLaws W cancel →
  awaitOperation fuel (tally_await await) (tally_start w) = (Some outcome, t') →
  awaitOperation fuel await w = (Some outcome, tl_world t') ∧
  loop_summary (oa_initial await) outcome (tl_cancels t') ∧
  (∀ operation, outcome = AwaitSucceeded operation ∨ outcome = AwaitTerminal operation →
     op_IdempotencyKey operation = oa_expectedIdempotencyKey await).
Proof.
  intros Hc HL Hrun. split; [by rewrite <- (untally_await fuel await (tally_start w)), Hrun|]. revert Hrun. unfold awaitOperation, tally_await; cbn [oa_initial oa_expectedIdempotencyKey oa_poll oa_cancel oa_watch].
  assert (∀ err, (Some (AwaitFailed err), tally_start w) = (Some outcome, t') →
    loop_summary (oa_initial await) outcome (tl_cancels t') ∧
    (∀ operation, outcome = AwaitSucceeded operation ∨ outcome = AwaitTerminal operation →
       op_IdempotencyKey operation = oa_expectedIdempotencyKey await)) as Hfail.
  { intros err [= <- <-]. split; [by left|]. by intros operation [?|?]. }
  destruct (ValidateOperation (oa_initial await)) as [[]|err] eqn:Hv; [|apply Hfail].
  destruct (is_empty _); [apply Hfail|]. case_bool_decide as Hk; [|apply Hfail]. cbn [negb].
  destruct (oa_poll await) as [poll|]; [|apply Hfail]. rewrite Hc. cbn [fmap option_fmap option_map].
  intros H1. destruct (loop_summary_sound _ _ _ _ _ _ _ _ Hv H1) as (n & ids & (_ & Hids) & Hs).
  cbn in Hids. rewrite Hids. split; [done|]. intros operation [-> | ->]; destruct Hs as ((_ & Hk' & _) & _); congruence.
Qed.


(** The wait does not spin: a wait still going on after [fuel] rounds has cancelled nothing, and has slept
    at least once for every round that brought no new revision of the operation. *)
Theorem await_paced {W} `{!AwaitRuntime W} fuel (await : operationAwait W) poll cancel limit w t' :
  oa_poll await = Some poll → oa_cancel await = Some cancel → AwaitLaws W cancel →
  revisions_bounded poll (oa_watch await) limit → op_Revision (oa_initial await) ≤ limit →
  awaitOperation fuel (tally_await await) (tally_start w) = (None, t') →
  awaitOperation fuel await w = (None, tl_world t') ∧ tl_cancels t' = [] ∧
  Z.of_nat fuel ≤ Z.of_nat (tl_waits t') + (limit - op_Revision (oa_initial await)).
Proof.
  intros Hp Hc HL Hb Hl Hrun. split; [by rewrite <- (untally_await fuel await (tally_start w)), Hrun|]. revert Hrun.
  unfold awaitOperation, tally_await; cbn [oa_initial oa_expectedIdempotencyKey oa_poll oa_cancel oa_watch].
  rewrite Hp, Hc. cbn [fmap option_fmap option_map].
  destruct (ValidateOperation _); [|done]. destruct (is_empty _); [done|]. destruct (negb _); [done|].
  intros H1. destruct (loop_paced _ _ _ _ _ _ _ _ Hb Hl H1) as [H2 H3]. cbn in H2, H3. split; [done|lia].
Qed.

(** ** A caller beside the store

    [sw_next] is what the store will be after each coming sleep; [sw_left] the number of sleeps after which the
    context of the caller ends, if it ever does. *)
Record store_world := {
  sw_now : ostore;
  sw_next : list ostore;
  sw_left : option nat;
  sw_closing : bool;
}.

Definition sw_cause (w : store_world) : context :=
  match sw_left w with Some O => Some (Sentinel ContextCanceled) | _ => None end.

Definition sw_tick (w : store_world) : store_world :=
  {| sw_now := default (sw_now w) (head (sw_next w)); sw_next := tail (sw_next w); sw_left := pred <$> sw_left w;
     sw_closing := sw_closing w |}.

#[export] Instance store_runtime : AwaitRuntime store_world := {|
  aw_ctxErr w := (sw_cause w, w);
  aw_waitContext w := match sw_cause w with Some _ => (false, w) | None => (true, sw_tick w) end;
  aw_handoff w := (sw_closing w, w);
|}.

(** [localOperationTarget.poll]. *)
Definition store_poll (target : OperationTarget) : observation store_world := λ id _ w,
  (pollLocalOperation (sw_now w) (Ok tt) (sw_cause w) target id, w).

(** [localOperationTarget.cancel] with a detached context, when nobody else changes the operation meanwhile. *)
Definition store_cancel (target : OperationTarget) (wall : time) (id : string) (w : store_world) : result Operation * store_world :=
  match mutate_read (sw_now w) None id with
  | Mutating record =>
      match mutate_write (requestCancel_mutate None id (Some (OperationTarget_Validate target))) (sw_now w) record wall with
      | (st, Done (Ok (updated, _))) =>
          (Ok (or_Operation updated), {| sw_now := st; sw_next := sw_next w; sw_left := sw_left w; sw_closing := sw_closing w |})
      | (_, Done (Err err)) => (Err err, w)
      | (_, _) => (Err (Sentinel ErrOperationConflict), w)
      end
  | Done (Ok (record, _)) => (Ok (or_Operation record), w)
  | Done (Err err) => (Err err, w)
  | Reading => (Err (Sentinel ErrOperationConflict), w)
  end.

#[export] Program Instance store_laws target wall : AwaitLaws store_world (store_cancel target wall) := {|
  aw_ended w := sw_left w = Some O;
|}.
Next Obligation. intros target wall w w'. cbn. unfold sw_cause. destruct (sw_left w) as [[|?]|] eqn:E; by intros [= <-]. Qed.
Next Obligation. intros target wall w e w'. cbn. unfold sw_cause. destruct (sw_left w) as [[|?]|] eqn:E; by intros [= _ <-]. Qed.
Next Obligation. intros target wall w c w' He. cbn. unfold sw_cause. rewrite He. by intros [= <- <-]. Qed.
Next Obligation. intros target wall w a w' He. cbn. by intros [= _ <-]. Qed.
Next Obligation. intros target wall id w r w' He. unfold store_cancel. repeat case_match; by intros [= _ <-]. Qed.

(** ** The calls made on the store between observations *)

(** [schedule n st stages m]: the store [st], after [n] calls, becomes each of the [stages] in turn by calls
    that do not purge, [m] calls in all. *)
Inductive schedule : nat → ostore → list ostore → nat → Prop :=
  | schedule_end n st : schedule n st [] n
  | schedule_next n k minted st st' stages m :
      ostore_run k minted st st' → schedule (n + k) st' stages m → schedule n st (st' :: stages) m.

Lemma run_reach n k minted st st' : ostore_reach n st → ostore_run k minted st st' → ostore_reach (n + k) st'.
Proof.
  intros Hr H1. induction H1 as [st|k minted st st' st'' tokens H1 IH Hs]; [by rewrite Nat.add_0_r|].
  rewrite Nat.add_succ_r. eapply reach_step; [by apply IH|done].
Qed.

Lemma schedule_le n st stages m : schedule n st stages m → (n ≤ m)%nat.
Proof. induction 1; lia. Qed.

Section store_wait.
Context (target : OperationTarget) (id : string) (watch : bool) (cancel : string → store_world → result Operation * store_world).
Abbreviation poll := (store_poll target).
Abbreviation watching := (if watch then Some poll else None).

(** The caller knows [rc]; the store holds [rn], has been called [n] times and will be [m] times. *)
Record following (rc rn : OperationRecord) (n m : nat) (w : store_world) : Prop := {
  fol_reach : ostore_reach n (sw_now w);
  fol_schedule : schedule n (sw_now w) (sw_next w) m;
  fol_bound : Z.of_nat m + 1 < two64;
  fol_now : operations (sw_now w) !! id = Some rn;
  fol_target : OperationTarget_Validate target rn = Ok tt;
  fol_leads : op_leads rc rn;
  fol_valid : op_valid rc;
}.

Lemma following_wf rc rn n m w : following rc rn n m w → ostore_wf (Z.of_nat n) (sw_now w).
Proof.
  intros F. pose proof (schedule_le _ _ _ _ (fol_schedule _ _ _ _ _ F)). pose proof (fol_bound _ _ _ _ _ F).
  eapply ostore_reach_wf; [apply F|lia].
Qed.

Lemma target_identity r r' : op_identity r' = op_identity r → OperationTarget_Validate target r = Ok tt → OperationTarget_Validate target r' = Ok tt.
Proof.
  intros Hi. unfold OperationTarget_Validate, OperationTarget_ValidateTarget, op_identity in *.
  injection Hi as Hid _ _ HK HR HRR _ _. by rewrite Hid, HK, HR, HRR.
Qed.

(** The context of the caller outlives [k] more sleeps. *)
Definition outlives (k : nat) (w : store_world) : Prop :=
  match sw_left w with Some sleeps => (k < sleeps)%nat | None => True end.

Lemma outlives_now k w : outlives k w → sw_cause w = None.
Proof. unfold outlives, sw_cause. destruct (sw_left w) as [[|]|]; [lia|done..]. Qed.

Lemma outlives_tick k w : outlives (S k) w → outlives k (sw_tick w).
Proof. unfold outlives, sw_tick; cbn. destruct (sw_left w); cbn; lia. Qed.

Lemma outlives_le k k' w : (k' ≤ k)%nat → outlives k w → outlives k' w.
Proof. unfold outlives. destruct (sw_left w); lia. Qed.

(** The store at the end of the schedule. *)
Definition sw_last (w : store_world) : ostore := default (sw_now w) (last (sw_next w)).

Lemma following_tick rc rn n m w :
  following rc rn n m w →
  ∃ rn' n', following rc rn' n' m (sw_tick w) ∧ op_leads rn rn' ∧
    sw_next (sw_tick w) = tail (sw_next w) ∧ sw_last (sw_tick w) = sw_last w ∧ (sw_next w = [] → rn' = rn).
Proof.
  intros F. pose proof (following_wf _ _ _ _ _ F) as Hwf. destruct F as [Hreach Hs Hb Hnow Ht Hl Hv].
  unfold sw_tick, sw_last. destruct (sw_next w) as [|st stages] eqn:Hn; cbn.
  { exists rn, n. split_and!; [|by left|done..]. by split. }
  inversion Hs as [|? k minted ? ? ? ? Hrun Hs']; subst. pose proof (schedule_le _ _ _ _ Hs').
  destruct (ostore_run_leads k _ minted _ _ id rn Hwf ltac:(lia) ltac:(lia) Hrun Hnow) as (rn' & Hnow' & Hl' & _).
  exists rn', (n + k)%nat. split_and!; [|done|done|rewrite last_cons; by destruct (last stages)|done].
  split; cbn; try done.
  - by eapply run_reach.
  - destruct Hl' as [->|(Hi & _)]; [done|by eapply target_identity].
  - by eapply op_leads_trans.
Qed.

(** What the store holds at the end comes after what it holds now. *)
Lemma following_last rc rn n m w :
  following rc rn n m w → ∃ rl, operations (sw_last w) !! id = Some rl ∧ op_leads rn rl.
Proof.
  remember (sw_next w) as stages eqn:Hn. revert rn n w Hn. induction stages as [|st stages IH]; intros rn n w Hn F.
  - exists rn. unfold sw_last. rewrite <- Hn. split; [apply F|by left].
  - destruct (following_tick _ _ _ _ _ F) as (rn' & n' & F' & Hl & Hn' & Hlast & _).
    destruct (IH rn' n' (sw_tick w)) as (rl & Hrl & Hl'); [by rewrite Hn', <- Hn|done|].
    exists rl. rewrite <- Hlast. split; [done|by eapply op_leads_trans].
Qed.

Lemma following_poll rc rn n m w current revision :
  following rc rn n m w → sw_cause w = None → op_ID current = id →
  poll (op_ID current) revision w = (Ok (or_Operation rn), w).
Proof.
  intros F Hc ->. unfold store_poll, pollLocalOperation, loadLocalOperation, ostore_Get. rewrite Hc. cbn. rewrite (fol_now _ _ _ _ _ F). cbn. by rewrite (fol_target _ _ _ _ _ F).
Qed.

(** The caller takes over what the store holds. *)
Lemma following_seen rc rn n m w : following rc rn n m w → following rn rn n m w.
Proof.
  intros F. pose proof (following_wf _ _ _ _ _ F) as Hwf. destruct F as [Hreach Hs Hb Hnow Ht Hl Hv].
  split; [done..|by left|]. by eapply (wf_valid _ _ Hwf).
Qed.

Lemma following_progress rc rn n m w :
  following rc rn n m w → ValidateOperationProgress (or_Operation rc) (or_Operation rn) = Ok tt.
Proof.
  intros F. apply ValidateOperationProgress_leads; [apply F|by eapply fol_valid, following_seen|apply F].
Qed.

Lemma following_id rc rn n m w : following rc rn n m w → op_ID (or_Operation rc) = id.
Proof.
  intros F. pose proof (following_progress _ _ _ _ _ F) as ((Hid & _) & _)%ValidateOperationProgress_inv.
  pose proof (following_wf _ _ _ _ _ F) as Hwf. rewrite <- (wf_id _ _ Hwf _ _ (fol_now _ _ _ _ _ F)). done.
Qed.

Lemma same_observation_refl op : sameOperationObservation op op = true.
Proof. unfold sameOperationObservation. by rewrite !bool_decide_eq_true_2. Qed.

Lemma fresh_observation rc rn : op_leads rc rn → rn ≠ rc → sameOperationObservation (or_Operation rc) (or_Operation rn) = false.
Proof.
  intros [?|(_ & Hrev & _)] Hne; [done|]. unfold op_revision in Hrev. unfold sameOperationObservation.
  rewrite (bool_decide_eq_false_2 (op_Revision _ = _)) by lia. by rewrite andb_false_r.
Qed.

(** One round: the caller sees what the store holds, or, already knowing it, sleeps. *)
Lemma following_round rc rn n m w :
  following rc rn n m w → outlives 1 w → Operation_Terminal (or_Operation rc) = false →
  ∃ rc' rn' n' w', await_round poll watching cancel (or_Operation rc) w = (Ok (or_Operation rc'), w') ∧
    following rc' rn' n' m w' ∧ sw_last w' = sw_last w ∧
    ((rn' = rc' ∧ rn ≠ rc ∧ w' = w) ∨
     (w' = sw_tick w ∧ (rn' = rc' ∨ rn = rc) ∧ (sw_next w = [] → rn' = rn))).
Proof.
  intros F Hout Ht. pose proof (following_id _ _ _ _ _ F) as Hid. pose proof (outlives_now _ _ Hout) as Hlive.
  pose proof (outlives_now _ _ (outlives_tick _ _ Hout)) as Hlivet.
  destruct (following_tick _ _ _ _ _ F) as (rt & nt & Ft & Hlt & Hnext & Hlast & Hend).
  assert (aw_waitContext w = (true, sw_tick w)) as Hwait by (cbn; by rewrite Hlive).
  assert (aw_ctxErr w = (None, w)) as Hctx by (cbn; by rewrite Hlive).
  unfold await_round, observeOperation. destruct watch; cbn [fmap option_fmap option_map].
  - rewrite (following_poll _ _ _ _ _ (or_Operation rc) _ F Hlive Hid). destruct (decide (rn = rc)) as [->|Hne].
    + rewrite same_observation_refl, Ht, Hctx by done. cbn [andb negb].
      unfold pollAfterUnchangedWatch, pollAwaitedOperation, waitOrCancelAwaitedOperation.
      rewrite (following_poll _ _ _ _ _ (or_Operation rc) _ F Hlive Hid). rewrite same_observation_refl, Ht, Hwait by done.
      cbn [andb negb]. cbn [result_bind]. rewrite (following_progress _ _ _ _ _ F). cbn [result_bind].
      exists rc, rt, nt, (sw_tick w). split_and!; [done..|]. right. auto.
    + rewrite (fresh_observation _ _ (fol_leads _ _ _ _ _ F) Hne). cbn [andb result_bind].
      rewrite (following_progress _ _ _ _ _ F). cbn [result_bind]. exists rn, rn, n, w.
      split_and!; [done|by eapply following_seen|done|]. left. auto.
  - unfold waitAndPollAwaitedOperation, waitOrCancelAwaitedOperation, pollAwaitedOperation. rewrite Hwait by done.
    rewrite (following_poll _ _ _ _ _ (or_Operation rc) _ Ft Hlivet Hid). cbn [result_bind].
    rewrite (following_progress _ _ _ _ _ Ft). cbn [result_bind]. exists rt, rt, nt, (sw_tick w).
    split_and!; [done|by eapply following_seen|done|]. right. auto.
Qed.

Lemma following_returns fuel rc rn n m w rl :
  following rc rn n m w → operations (sw_last w) !! id = Some rl → Operation_Terminal (or_Operation rl) = true →
  (2 * length (sw_next w) + (if decide (rn = rc) then 0 else 1) ≤ fuel)%nat →
  outlives (2 * length (sw_next w) + (if decide (rn = rc) then 0 else 1)) w →
  ∃ w', await_loop poll watching cancel fuel (or_Operation rc) w = (Some (await_end (or_Operation rl)), w').
Proof.
  revert rc rn n w. induction fuel as [|fuel IH]; intros rc rn n w F Hrl Htl Hf Hout; cbn [await_loop];
    destruct (following_last _ _ _ _ _ F) as (rl' & Hrl' & Hll); (assert (rl' = rl) as -> by congruence);
    (destruct (Operation_Terminal (or_Operation rc)) eqn:Ht;
      [pose proof (op_leads_terminal _ _ Ht (fol_leads _ _ _ _ _ F)); subst rn;
       rewrite (op_leads_terminal _ _ Ht Hll); by eexists|]).
  all: assert (sw_next w = [] → rn = rl) as Hlastnow by
    (intros Hn; unfold sw_last in Hrl; rewrite Hn in Hrl; cbn in Hrl; rewrite (fol_now _ _ _ _ _ F) in Hrl; congruence).
  all: assert (1 ≤ 2 * length (sw_next w) + (if decide (rn = rc) then 0 else 1))%nat as Hone by
    (destruct (sw_next w) as [|? ?] eqn:Hn; cbn; [|lia]; specialize (Hlastnow eq_refl) as ->;
     case_decide; [congruence|lia]).
  - lia.
  - destruct (following_round _ _ _ _ _ F (outlives_le _ _ _ Hone Hout) Ht)
      as (rc' & rn' & n' & w' & -> & F' & Hlast & Hcase).
    destruct Hcase as [(-> & Hne & ->)|(-> & Hsame & Hend)].
    + rewrite (decide_False) in Hf, Hout by done.
      apply (IH rc' rc' n' w F'); [done|done|rewrite decide_True by done; lia|].
      eapply outlives_le, Hout. rewrite decide_True by done. lia.
    + set (k := (2 * length (sw_next (sw_tick w)) + (if decide (rn' = rc') then 0 else 1))%nat).
      assert (S k ≤ 2 * length (sw_next w) + (if decide (rn = rc) then 0 else 1))%nat as Hk.
      { unfold k; cbn. destruct (sw_next w) as [|st stages] eqn:Hn; cbn; [|repeat case_decide; lia].
        specialize (Hend eq_refl). specialize (Hlastnow eq_refl). subst rn' rn.
        destruct Hsame as [-> | ->]; [rewrite (decide_True (P := rc' = rc')) by done; case_decide; [congruence|lia]|congruence]. }
      apply (IH rc' rn' n' (sw_tick w) F'); [by rewrite Hlast|done|fold k; lia|].
      eapply outlives_tick, outlives_le, Hout. done.
Qed.
End store_wait.

(** C13. Waiting for an operation of the store ends when the operation does.  The caller polls a store whose state
    changes while it sleeps, by any calls but a purge; its polls are admitted (the host is not closing) and its
    context, if it ends at all, outlives two sleeps for each of those changes.  If the changes leave the
    operation ended, the wait returns after at most two rounds for each of them and one more, with the outcome
    that the store records. *)
Theorem await_store_returns target request id watch cancel n m st stages sleeps closing r rl fuel :
  ostore_reach n st → schedule n st stages m → Z.of_nat m + 1 < two64 →
  ostore_Get st None id = Ok r → OperationTarget_Validate target r = Ok tt →
  oq_IdempotencyKey request = op_IdempotencyKey (or_Operation r) →
  ostore_Get (default st (last stages)) None id = Ok rl → Operation_Terminal (or_Operation rl) = true →
  (2 * length stages ≤ fuel)%nat → match sleeps with Some sleeps => (2 * length stages < sleeps)%nat | None => True end →
  fst (awaitOperation fuel (operationAwaitForRequest request (or_Operation r) (Some (store_poll target)) (Some cancel)
         (if watch : bool then [store_poll target] else []))
       {| sw_now := st; sw_next := stages; sw_left := sleeps; sw_closing := closing |}) =
  Some (await_end (or_Operation rl)).
Proof.
  intros Hr Hs Hm Hg Ht Hk Hgl Htl Hf Hleft. apply ostore_Get_Ok in Hg, Hgl.
  set (w := {| sw_now := st; sw_next := stages; sw_left := sleeps; sw_closing := closing |}).
  pose proof (schedule_le _ _ _ _ Hs). pose proof (ostore_reach_wf _ _ Hr ltac:(lia)) as Hwf.
  assert (following target id r r n m w) as F.
  { split; cbn; try done; [by left|by eapply (wf_valid _ _ Hwf)]. }
  destruct (following_returns target id watch cancel fuel r r n m w rl F) as (w' & Hloop);
    [done..|rewrite decide_True by done; cbn; lia|rewrite decide_True, Nat.add_0_r by done; exact Hleft|].
  pose proof (following_progress _ _ _ _ _ _ _ F) as (_ & Hv & _)%ValidateOperationProgress_inv.
  unfold awaitOperation, operationAwaitForRequest; cbn [oa_initial oa_expectedIdempotencyKey oa_poll oa_cancel oa_watch].
  rewrite Hv, Hk. destruct (is_empty _) eqn:He.
  - exfalso. revert Hv. unfold ValidateOperation. cbn zeta. rewrite He. destruct (is_empty (op_ID _)); discriminate.
  - rewrite bool_decide_eq_true_2 by done. cbn [negb].
    replace (head _) with (if watch then Some (store_poll target) else None) by (by destruct watch). by rewrite Hloop.
Qed.

(** ** Witnesses *)

Definition ex_await_target : OperationTarget := {| ot_Kind := OperationKindTool; ot_Resource := "bash"; ot_ResourceRevision := "r1" |}.
Definition ex_await_cancel := store_cancel ex_await_target 3000.
Definition ex_await_request : OperationRequest :=
  {| oq_IdempotencyKey := "key-1"; oq_Input := "{}"; oq_Invocation := zeroInvocation |}.
Definition ex_await (watch : list (observation store_world)) : operationAwait store_world :=
  operationAwaitForRequest ex_await_request (or_Operation ex_submit.1.1) (Some (store_poll ex_await_target)) (Some ex_await_cancel) watch.
Definition ex_patient (left : option nat) : store_world :=
  {| sw_now := ex_st1; sw_next := [ex_st1; ex_st2; ex_st3]; sw_left := left; sw_closing := false |}.

Lemma await_store_returns_witness :
  fst (awaitOperation 6 (ex_await []) (ex_patient (Some 7%nat))) = Some (AwaitSucceeded (or_Operation ex_complete.1)).
Proof.
  apply (await_store_returns ex_await_target ex_await_request "op-1" false ex_await_cancel 1 3 ex_st1 [ex_st1; ex_st2; ex_st3]
    (Some 7%nat) false ex_submit.1.1 ex_complete.1 6); [apply ex_reach1| |by vm_compute..|cbn; lia|cbn; lia].
  eapply (schedule_next 1 0); [apply run_refl|]. eapply (schedule_next 1 1); [apply ex_run12|].
  eapply (schedule_next 2 1 ([] ++ [])); [eapply run_step; [apply run_refl|apply ex_step3]|]. apply schedule_end.
Defined.

(** A caller that is cancelled after one sleep cancels the operation, once. *)
Lemma await_outcome_accounted_witness :
  ∃ err t', awaitOperation 6 (tally_await (ex_await [])) (tally_start (ex_patient (Some 1%nat))) = (Some (AwaitFailed err), t') ∧
    tl_cancels t' = ["op-1"] ∧ loop_summary (or_Operation ex_submit.1.1) (AwaitFailed err) (tl_cancels t').
Proof.
  destruct (awaitOperation 6 (tally_await (ex_await [])) (tally_start (ex_patient (Some 1%nat)))) as [o t'] eqn:E.
  destruct o as [[op|op|err]|].
  all: try (exfalso; vm_compute in E; done).
  exists err, t'. split; [done|]. split; [vm_compute in E; by injection E as _ <-|].
  apply (await_outcome_accounted 6 (ex_await []) ex_await_cancel (ex_patient (Some 1%nat)) _ _ eq_refl (store_laws _ _) E).
Defined.

(** A caller beside a store in which nothing happens; the world counts the sleeps. *)
Definition idle_poll : observation nat := λ _ _ w, (Ok (or_Operation ex_submit.1.1), w).
Definition idle_cancel (id : string) (w : nat) : result Operation * nat := (Err (Sentinel ErrOperationNotFound), w).

Definition idle_runtime : AwaitRuntime nat :=
  {| aw_ctxErr w := (None, w); aw_waitContext w := (true, S w); aw_handoff w := (false, w) |}.

Definition idle_laws : @AwaitLaws nat idle_runtime idle_cancel.
Proof. refine (@Build_AwaitLaws nat idle_runtime idle_cancel (λ _, False) _ _ _ _ _); by intros. Defined.

Definition idle_await : operationAwait nat :=
  operationAwaitForRequest ex_await_request (or_Operation ex_submit.1.1) (Some idle_poll) (Some idle_cancel) [].

Lemma await_paced_witness :
  5 ≤ Z.of_nat (tl_waits (@awaitOperation (tally nat) (@tally_runtime nat idle_runtime) 5 (tally_await idle_await) (tally_start 0%nat)).2).
Proof.
  destruct (@awaitOperation (tally nat) (@tally_runtime nat idle_runtime) 5 (tally_await idle_await) (tally_start 0%nat)) as [o t'] eqn:E.
  assert (o = None) as -> by (by vm_compute in E; injection E as <- _). cbn.
  assert (revisions_bounded idle_poll None 1) as Hb.
  { intros f id revision w op w' [-> | [=]] [= <- _]. vm_compute. discriminate. }
  destruct (@await_paced nat idle_runtime 5 idle_await idle_poll idle_cancel 1 0%nat t' eq_refl eq_refl idle_laws Hb
    ltac:(by vm_compute) E) as (_ & _ & Hw).
  assert (op_Revision (oa_initial idle_await) = 1) as Hi by (by vm_compute). rewrite Hi in Hw. lia.
Defined.
