(* ===== verification/TopoSort.v ===== *)
(** Kahn's algorithm, as the invocation graph of [sdk/invocation_graph.go] and the workflow
    validation of [sdk/runtime/orchestration_workflow.go] both use it: the inner loop that lowers
    the in-degree of the successors of a finished node, the invariant of the outer loop, and what
    the invariant says when no node is ready any more.  The two outer loops, which differ in the
    node they take next, are in the files of their components. *)

From S2P Require Import Prelude.

(** [m[k]] of a Go [map[string]int]: the zero value for a missing key. *)
Definition map_count (m : gmap string Z) (k : string) : Z := default 0 (m !! k).

(** [for _, target := range targets { inbound[target]--; if inbound[target] == 0 { ready =
    append(ready, target) } }]. *)
Fixpoint relax (targets : list string) (inbound : gmap string Z) (ready : list string)
    : gmap string Z * list string :=
  match targets with
  | [] => (inbound, ready)
  | target :: rest =>
      let count := map_count inbound target - 1 in
      relax rest (<[target := count]> inbound)
        (if count =? 0 then ready ++ [target] else ready)
  end.

(** [u] stands before [v] in [l]. *)
Definition before (l : list string) (u v : string) : Prop :=
  ∃ l1 l2, l = l1 ++ v :: l2 ∧ u ∈ l1.

(** Every element comes after all of its predecessors. *)
Definition topological (edge : string → string → Prop) (l : list string) : Prop :=
  ∀ u v, v ∈ l → edge u v → before l u v.

Definition acyclic (edge : string → string → Prop) : Prop := ∀ v, ¬ tc edge v v.

(** ** The inner loop *)

Lemma map_count_insert m k x j :
  map_count (<[k := x]> m) j = if decide (k = j) then x else map_count m j.
Proof. unfold map_count. rewrite lookup_insert. by case_decide. Qed.

Lemma relax_inbound targets inbound ready v :
  NoDup targets →
  map_count (relax targets inbound ready).1 v =
  map_count inbound v - (if decide (v ∈ targets) then 1 else 0).
Proof.
  revert inbound ready. induction targets as [|t ts IH]; intros inbound ready Hnd; cbn [relax].
  - rewrite decide_False by set_solver. simpl. lia.
  - apply list.NoDup_cons in Hnd as [Ht Hnd]. rewrite IH by done. rewrite map_count_insert.
    destruct (decide (t = v)) as [->|Hne].
    + rewrite (decide_False (P := v ∈ ts)) by done. rewrite decide_True by set_solver. lia.
    + f_equal. apply decide_ext. set_solver.
Qed.

Lemma relax_dom targets inbound ready :
  (∀ v, v ∈ targets → v ∈ dom inbound) → dom (relax targets inbound ready).1 = dom inbound.
Proof.
  revert inbound ready. induction targets as [|t ts IH]; intros inbound ready Hd; cbn [relax]; [done|].
  assert (dom (<[t := map_count inbound t - 1]> inbound) = dom inbound) as Heq.
  { rewrite dom_insert_L. set_solver. }
  rewrite IH; [done|]. rewrite Heq. set_solver.
Qed.

Lemma relax_ready targets inbound ready :
  NoDup targets →
  (relax targets inbound ready).2 = ready ++ filter (λ v, map_count inbound v = 1) targets.
Proof.
  revert inbound ready. induction targets as [|t ts IH]; intros inbound ready Hnd; cbn [relax].
  - by rewrite app_nil_r.
  - apply list.NoDup_cons in Hnd as [Ht Hnd]. rewrite IH by done.
    rewrite (list_filter_ext (λ v, map_count (<[t := _]> inbound) v = 1)
      (λ v, map_count inbound v = 1)).
    + rewrite filter_cons. destruct (Z.eqb_spec (map_count inbound t - 1) 0).
      * rewrite decide_True by lia. by rewrite <-app_assoc.
      * rewrite decide_False by lia. done.
    + intros v Hv. rewrite map_count_insert, decide_False by set_solver. done.
Qed.

(** ** Lists in topological order *)

Lemma before_app_l l l' u v : before l u v → before (l ++ l') u v.
Proof. intros (l1 & l2 & -> & Hu). exists l1, (l2 ++ l'). by rewrite <-app_assoc. Qed.

Lemma topological_no_cycle edge l :
  NoDup l → topological edge l → ∀ u v, v ∈ l → tc edge u v → before l u v.
Proof.
  intros Hnd Ht u v Hv Huv. revert Hv. induction Huv as [u v He|u w v He Hwv IH]; intros Hv.
  - by apply Ht.
  - destruct (IH Hv) as (l1 & l2 & -> & Hw).
    destruct (Ht u w) as (m1 & m2 & Heq & Hu); [set_solver|done|].
    exists l1, l2. split; [done|].
    apply list_elem_of_split in Hw as (k1 & k2 & ->).
    rewrite <-app_assoc in Heq. simpl in Heq.
    assert (k1 = m1) as ->; [|set_solver].
    rewrite <-app_assoc in Hnd. simpl in Hnd. clear -Heq Hnd.
    revert m1 Heq. induction k1 as [|x k1 IH]; intros [|y m1] Heq; simpl in *; [done|..];
      apply list.NoDup_cons in Hnd as [Hn Hnd]; injection Heq; intros Hrest Hx; subst.
    + exfalso. apply Hn. rewrite Hrest. set_solver.
    + exfalso. apply Hn. set_solver.
    + f_equal. by apply IH.
Qed.

Lemma before_irrefl l v : NoDup l → ¬ before l v v.
Proof.
  intros Hnd (l1 & l2 & -> & Hv). apply NoDup_app in Hnd as (_ & Hd & _). apply (Hd v); set_solver.
Qed.

Lemma acyclic_ext (e1 e2 : string → string → Prop) :
  (∀ u v, e1 u v ↔ e2 u v) → acyclic e1 ↔ acyclic e2.
Proof.
  assert (∀ (e1 e2 : string → string → Prop), (∀ u v, e1 u v → e2 u v) → acyclic e2 → acyclic e1) as Himp.
  { intros f1 f2 Hf Ha v Hv. apply (Ha v). revert Hv. generalize v at 1 3. intros u Hv.
    induction Hv as [u w He|u w x He _ IH]; [by apply tc_once, Hf|]. eapply tc_l; [by apply Hf|done]. }
  intros Heq. split; apply Himp; naive_solver.
Qed.

Section topo.
Context (nodes : gset string) (edge : string → string → Prop).
Context `{!∀ u v, Decision (edge u v)}.
Context (Hedge : ∀ u v, edge u v → u ∈ nodes ∧ v ∈ nodes).

(** The predecessors of [v] that are not finished. *)
Definition pending (finished : list string) (v : string) : gset string :=
  filter (λ u, edge u v ∧ u ∉ finished) nodes.

Definition indegree (finished : list string) (v : string) : Z := Z.of_nat (size (pending finished v)).

Record topo_inv (inbound : gmap string Z) (ready ordered : list string) : Prop := {
  ti_count v : v ∈ nodes → map_count inbound v = indegree ordered v;
  ti_nodup : NoDup (ordered ++ ready);
  ti_members v : v ∈ ordered ++ ready ↔ v ∈ nodes ∧ indegree ordered v = 0;
  ti_sorted : topological edge ordered;
}.

Lemma elem_of_pending finished u v : u ∈ pending finished v ↔ edge u v ∧ u ∉ finished.
Proof using Hedge. unfold pending. rewrite elem_of_filter. naive_solver. Qed.

Lemma indegree_zero finished v :
  indegree finished v = 0 ↔ ∀ u, edge u v → u ∈ finished.
Proof using Hedge.
  unfold indegree. split.
  - intros Hz u Hu. destruct (decide (u ∈ finished)); [done|].
    assert (u ∈ pending finished v) as Hp by by apply elem_of_pending.
    assert (size (pending finished v) ≠ 0%nat); [|lia].
    apply size_non_empty_iff. set_solver.
  - intros Hall. assert (pending finished v ≡ ∅) as ->; [|by rewrite size_empty].
    intros u. rewrite elem_of_pending. set_solver.
Qed.

Lemma indegree_snoc finished id v :
  id ∈ nodes → id ∉ finished →
  indegree (finished ++ [id]) v = indegree finished v - (if decide (edge id v) then 1 else 0).
Proof using Hedge.
  intros Hid Hnew. unfold indegree. destruct (decide (edge id v)) as [He|He].
  - assert (pending finished v ≡ {[id]} ∪ pending (finished ++ [id]) v) as ->.
    { intros u. rewrite elem_of_union, elem_of_singleton, !elem_of_pending, elem_of_snoc.
      destruct (decide (u = id)); naive_solver. }
    rewrite size_union, size_singleton; [lia|].
    intros u. rewrite elem_of_singleton, elem_of_pending, elem_of_snoc. tauto.
  - assert (pending (finished ++ [id]) v ≡ pending finished v) as ->; [|lia].
    intros u. rewrite !elem_of_pending, elem_of_snoc. naive_solver.
Qed.

(** The order of the ready nodes does not matter to the invariant. *)
Lemma topo_inv_perm inbound ready ready' ordered :
  ready' ≡ₚ ready → topo_inv inbound ready ordered → topo_inv inbound ready' ordered.
Proof using Hedge.
  intros Hp [Hc Hnd Hm Hs]. split; [done|by rewrite Hp| |done].
  intros v. by rewrite Hp.
Qed.

Lemma topo_inv_init inbound ready :
  (∀ v, v ∈ nodes → map_count inbound v = indegree [] v) →
  NoDup ready → (∀ v, v ∈ ready ↔ v ∈ nodes ∧ map_count inbound v = 0) →
  topo_inv inbound ready [].
Proof using Hedge.
  intros Hc Hnd Hm. split; [done|done| |intros ?; set_solver].
  intros v. simpl. rewrite Hm. split; intros [Hv Hz]; (split; [done|]); rewrite <-Hz; [symmetry|]; by apply Hc.
Qed.

(** One round of the outer loop. *)
Lemma topo_inv_step inbound id ready ordered targets :
  topo_inv inbound (id :: ready) ordered →
  NoDup targets → (∀ v, v ∈ targets ↔ edge id v) →
  topo_inv (relax targets inbound ready).1 (relax targets inbound ready).2 (ordered ++ [id]).
Proof using Hedge.
  intros [Hc Hnd Hm Hs] Htnd Ht.
  assert (id ∈ nodes ∧ indegree ordered id = 0) as [Hid Hz] by (apply Hm; set_solver).
  assert (id ∉ ordered) as Hnew by (apply NoDup_app in Hnd as (_ & Hd & _); set_solver).
  assert (∀ v, v ∈ nodes → map_count (relax targets inbound ready).1 v =
                           indegree (ordered ++ [id]) v) as Hc'.
  { intros v Hv. rewrite relax_inbound, indegree_snoc, Hc by done.
    f_equal. apply decide_ext, Ht. }
  assert (∀ v, v ∈ targets → v ∉ ordered ++ id :: ready) as Hfresh.
  { intros v He%Ht Hv. apply Hm in Hv as [_ Hv]. rewrite indegree_zero in Hv.
    by apply Hnew, Hv. }
  assert (∀ v, edge id v → v ∈ nodes) as Hn by (intros v He; apply (Hedge _ _ He)).
  rewrite relax_ready by done. split; [done|..].
  - rewrite <-app_assoc. simpl. rewrite app_comm_cons, app_assoc.
    apply NoDup_app. split; [done|]. split; [|by apply NoDup_filter].
    intros v Hv [_ Hf]%list_elem_of_filter. by apply (Hfresh v).
  - intros v. rewrite <-app_assoc. simpl. rewrite app_comm_cons, app_assoc, elem_of_app, Hm,
      list_elem_of_filter, Ht.
    destruct (decide (v ∈ nodes)) as [Hv|Hv]; [|naive_solver].
    rewrite Hc, indegree_snoc by done. destruct (decide (edge id v)) as [He|He].
    + assert (indegree ordered v ≠ 0); [|split; [intros [[_ ?]|[? _]]|intros [_ ?]; right]; split; (done || lia)].
      intros H0. rewrite indegree_zero in H0. by apply Hnew, H0.
    + naive_solver lia.
  - intros u v [Hv| ->]%elem_of_snoc He.
    + by apply before_app_l, Hs.
    + exists ordered, []. split; [done|]. rewrite indegree_zero in Hz. by apply Hz.
Qed.

Lemma topo_inv_length inbound ready ordered :
  topo_inv inbound ready ordered → (length ordered + length ready ≤ size nodes)%nat.
Proof using Hedge.
  intros [Hc Hnd Hm Hs]. rewrite <-length_app, <-(size_list_to_set (C := gset string)) by done.
  apply subseteq_size. intros v. rewrite elem_of_list_to_set, Hm. tauto.
Qed.

(** A set in which every element has a predecessor in the set contains a cycle. *)
Lemma backward_cycle_aux (X : gset string) n (path : list string) x :
  (∀ v, v ∈ X → ∃ u, u ∈ X ∧ edge u v) →
  (size X - length path ≤ n)%nat → NoDup path → x ∈ path →
  (∀ v, v ∈ path → v ∈ X ∧ rtc edge x v) → ¬ acyclic edge.
Proof using Hedge.
  intros Hpred. revert path x. induction n as [|n IH]; intros path x Hn Hnd Hx Hpath Hac;
    destruct (Hpred x) as (u & Hu & He); try (by apply Hpath);
    destruct (decide (u ∈ path)) as [Hin|Hin];
    try (apply (Hac u), (tc_rtc_r _ x); [by constructor|by apply Hpath]).
  - assert (length (u :: path) ≤ size X)%nat; [|simpl in *; lia].
    rewrite <-(size_list_to_set (C := gset string)) by (by constructor).
    apply subseteq_size. intros v. rewrite elem_of_list_to_set, elem_of_cons.
    intros [->|Hv]; [done|by apply Hpath].
  - refine (IH (u :: path) u _ _ _ _ Hac); [simpl; lia|by constructor|set_solver|].
    intros v [->|Hv]%elem_of_cons; [done|]. destruct (Hpath v Hv). split; [done|].
    by eapply rtc_l.
Qed.

Lemma backward_cycle (X : gset string) x :
  x ∈ X → (∀ v, v ∈ X → ∃ u, u ∈ X ∧ edge u v) → ¬ acyclic edge.
Proof using Hedge.
  intros Hx Hpred. apply (backward_cycle_aux X (size X) [x] x); [done|lia|apply NoDup_singleton|set_solver|].
  intros v ->%list_elem_of_singleton. done.
Qed.

(** A complete order holds every node. *)
Lemma topo_inv_complete inbound ready ordered :
  topo_inv inbound ready ordered → length ordered = size nodes →
  ∀ v, v ∈ ordered ↔ v ∈ nodes.
Proof using Hedge.
  intros [Hc Hnd Hm Hs] Hlen v. apply NoDup_app in Hnd as (Hnd & _ & _).
  assert ((list_to_set ordered : gset string) = nodes) as <-; [|by rewrite elem_of_list_to_set].
  apply set_subseteq_size_eq.
  - intros w. rewrite elem_of_list_to_set. intros Hw. apply Hm. set_solver.
  - rewrite size_list_to_set by done. lia.
Qed.

(** When no node is ready, the finished nodes are all of them exactly when the graph is acyclic. *)
Lemma topo_inv_final inbound ordered :
  topo_inv inbound [] ordered → length ordered = size nodes ↔ acyclic edge.
Proof using Hedge.
  intros Hinv. split.
  - intros Hlen v Hcyc. pose proof (topo_inv_complete _ _ _ Hinv Hlen v) as Hv.
    destruct Hinv as [Hc Hnd Hm Hs]. rewrite app_nil_r in Hnd.
    apply (before_irrefl ordered v Hnd), (topological_no_cycle edge); [done..| |done].
    apply Hv. clear -Hcyc Hedge. by induction Hcyc as [? ? He|]; [apply (Hedge _ _ He)|].
  - intros Hac. destruct Hinv as [Hc Hnd Hm Hs]. rewrite app_nil_r in *.
    rewrite <-(size_list_to_set (C := gset string)) by done. f_equal. apply set_eq. intros w.
    rewrite elem_of_list_to_set. split; [intros Hw; by apply Hm|intros Hw].
    destruct (decide (w ∈ ordered)) as [|Hnw]; [done|].
    exfalso. refine (backward_cycle (nodes ∖ list_to_set ordered) w _ _ Hac); [set_solver|].
    intros v [Hv Hnv]%elem_of_difference. rewrite elem_of_list_to_set in Hnv.
    destruct (set_choose_or_empty (pending ordered v)) as [[u Hu]|He].
    + apply elem_of_pending in Hu as [Hu Hn]. exists u. split; [|done].
      apply elem_of_difference. rewrite elem_of_list_to_set. split; [apply (Hedge _ _ Hu)|done].
    + exfalso. apply Hnv, Hm. split; [done|]. unfold indegree. by rewrite He, size_empty.
Qed.
End topo.
