(* ===== verification/InvocationGraph.v ===== *)
(** The invocation graph of [sdk/invocation_graph.go]: the projection of the operation records of
    one invocation root into nodes with parents, children, dependencies and dependents, in an order
    in which every node follows its parent and its dependencies.  The order in which Go iterates
    over the node map is a parameter of every operation. *)

From S2P Require Import Prelude GoText Names Invocation Operation OperationStore TopoSort.

(** ** Data *)

Record InvocationNode := {
  in_ID : string;
  in_Invocation : Invocation;
  in_Record : option OperationRecord;
  in_ParentID : string;
  in_Children : list string;
  in_Dependencies : list string;
  in_Dependents : list string;
}.

Record InvocationGraph := {
  ig_RootID : string;
  ig_Nodes : list InvocationNode;
  ig_Operations : list OperationRecord;
}.

#[export] Instance InvocationNode_eq_dec : EqDecision InvocationNode.
Proof. solve_decision. Defined.

Abbreviation node_map := (gmap string InvocationNode) (only parsing).

(** [&InvocationNode{ID: id}]. *)
Definition synthetic_node (id : string) : InvocationNode :=
  {| in_ID := id; in_Invocation := zeroInvocation; in_Record := None; in_ParentID := "";
     in_Children := []; in_Dependencies := []; in_Dependents := [] |}.

(** The node of an operation record. *)
Definition record_node (record : OperationRecord) : InvocationNode :=
  {| in_ID := inv_ID (or_Invocation record); in_Invocation := or_Invocation record;
     in_Record := Some record; in_ParentID := inv_ParentID (or_Invocation record);
     in_Children := []; in_Dependencies := inv_Dependencies (or_Invocation record);
     in_Dependents := [] |}.

Definition with_children (node : InvocationNode) (children : list string) : InvocationNode :=
  {| in_ID := in_ID node; in_Invocation := in_Invocation node; in_Record := in_Record node;
     in_ParentID := in_ParentID node; in_Children := children;
     in_Dependencies := in_Dependencies node; in_Dependents := in_Dependents node |}.

Definition with_dependents (node : InvocationNode) (dependents : list string) : InvocationNode :=
  {| in_ID := in_ID node; in_Invocation := in_Invocation node; in_Record := in_Record node;
     in_ParentID := in_ParentID node; in_Children := in_Children node;
     in_Dependencies := in_Dependencies node; in_Dependents := dependents |}.

(** ** The order of nodes *)

Definition invocationNodeID (node : option InvocationNode) : string :=
  match node with None => "" | Some node => in_ID node end.

Definition compareRootInvocationNode (rootID : string) (left right : option InvocationNode) : Z :=
  let leftRoot := String.eqb (invocationNodeID left) rootID in
  let rightRoot := String.eqb (invocationNodeID right) rootID in
  if leftRoot && negb rightRoot then -1
  else if rightRoot && negb leftRoot then 1
  else 0.

Definition node_record (node : option InvocationNode) : option OperationRecord :=
  match node with None => None | Some node => in_Record node end.

Definition compareInvocationRecordPresence (left right : option InvocationNode) : Z :=
  let leftHasRecord := bool_decide (is_Some (node_record left)) in
  let rightHasRecord := bool_decide (is_Some (node_record right)) in
  if leftHasRecord && negb rightHasRecord then -1
  else if rightHasRecord && negb leftHasRecord then 1
  else 0.

Definition compareInvocationRecordTime (left right : option InvocationNode) : Z :=
  match node_record left, node_record right with
  | Some l, Some r =>
      cmp_or (Z_Compare (op_SubmittedAt (or_Operation l)) (op_SubmittedAt (or_Operation r)))
        (strings_Compare (op_ID (or_Operation l)) (op_ID (or_Operation r)))
  | _, _ => compareInvocationRecordPresence left right
  end.

Definition node_invocation (node : option InvocationNode) : Invocation :=
  match node with None => zeroInvocation | Some node => in_Invocation node end.

Definition compareInvocationGraphNodes (rootID : string) (left right : option InvocationNode) : Z :=
  let order := compareRootInvocationNode rootID left right in
  if negb (order =? 0) then order else
  let leftOrdinal := inv_Ordinal (node_invocation left) in
  let rightOrdinal := inv_Ordinal (node_invocation right) in
  if negb (leftOrdinal =? rightOrdinal) then (if leftOrdinal <? rightOrdinal then -1 else 1) else
  let order := compareInvocationRecordTime left right in
  if negb (order =? 0) then order else
  strings_Compare (invocationNodeID left) (invocationNodeID right).

(** The closure [compare] of [BuildInvocationGraph]. *)
Definition node_compare (rootID : string) (nodes : node_map) (left right : string) : Z :=
  compareInvocationGraphNodes rootID (nodes !! left) (nodes !! right).

Definition sortInvocationIDs (compare : string → string → Z) (values : list string) : list string :=
  SortFunc compare values.

(** ** Building the nodes *)

Definition ensureInvocationNode (nodes : node_map) (id : string) : node_map :=
  match nodes !! id with Some _ => nodes | None => <[id := synthetic_node id]> nodes end.

Definition appendUniqueInvocationID (values : list string) (value : string) : list string :=
  if bool_decide (value ∈ values) then values else values ++ [value].

(** The loop over the records. *)
Fixpoint graph_records (rootID : string) (nodes : node_map) (records : list OperationRecord)
    : result node_map :=
  match records with
  | [] => Ok nodes
  | record :: rest =>
      if negb (String.eqb (inv_RootID (or_Invocation record)) rootID) then
        graph_records rootID nodes rest else
      let id := inv_ID (or_Invocation record) in
      if is_empty id then graph_records rootID nodes rest else
      fail_if bool_decide (is_Some (node_record (nodes !! id))) with
        Errorf "invocation graph %q contains duplicate node %q" [AStr rootID; AStr id];
      graph_records rootID (<[id := record_node record]> nodes) rest
  end.

(** The parent and the dependencies a node names. *)
Definition node_references (node : InvocationNode) : list string :=
  (if is_empty (in_ParentID node) then [] else [in_ParentID node]) ++ in_Dependencies node.

(** The closure [addEdge]. *)
Definition addEdge (nodes : node_map) (source target : string) (child : bool) : node_map :=
  if is_empty source || is_empty target || String.eqb source target then nodes else
  let nodes := ensureInvocationNode nodes source in
  alter (λ node,
    if child then with_children node (appendUniqueInvocationID (in_Children node) target)
    else with_dependents node (appendUniqueInvocationID (in_Dependents node) target)) source nodes.

(** ** Ordering the nodes *)

(** The maps [inbound] and [outbound]. *)
Definition order_edges := (gmap string Z * gmap string (list string))%type.

Definition out_of (outbound : gmap string (list string)) (id : string) : list string :=
  default [] (outbound !! id).

(** The closure [addOrderEdge]. *)
Definition addOrderEdge (nodes : node_map) (edges : order_edges) (source target : string) : order_edges :=
  let '(inbound, outbound) := edges in
  if is_empty source || is_empty target || String.eqb source target ||
     bool_decide (nodes !! source = None) || bool_decide (nodes !! target = None) then edges else
  if bool_decide (target ∈ out_of outbound source) then edges else
  (<[target := map_count inbound target + 1]> inbound,
   <[source := out_of outbound source ++ [target]]> outbound).

(** The loop [for len(ready) > 0].  The in-place sort of [outbound[id]] is not seen again, since
    every node is taken once. *)
Fixpoint graph_loop (fuel : nat) (compare : string → string → Z) (outbound : gmap string (list string))
    (inbound : gmap string Z) (ready ordered : list string) : option (list string) :=
  match ready with
  | [] => Some ordered
  | id :: ready =>
      match fuel with
      | O => None
      | S fuel =>
          let targets := sortInvocationIDs compare (out_of outbound id) in
          let '(inbound, ready) := relax targets inbound ready in
          graph_loop fuel compare outbound inbound (sortInvocationIDs compare ready) (ordered ++ [id])
      end
  end.

Section graph.
Context `{!MapOrder}.

Definition graph_references (nodes : node_map) : list string :=
  concat (node_references <$> (range_map 0 nodes).*2).

(** The loop that adds the edges of every node. *)
Definition link_nodes (nodes : node_map) : node_map :=
  foldl (λ nodes node,
    foldl (λ nodes dependency, addEdge nodes dependency (in_ID node) false)
      (addEdge nodes (in_ParentID node) (in_ID node) true) (in_Dependencies node))
    nodes (range_map 1 nodes).*2.

Definition count_edges (nodes : node_map) : order_edges :=
  foldl (λ edges node,
    foldl (λ edges dependency, addOrderEdge nodes edges dependency (in_ID node))
      (addOrderEdge nodes edges (in_ParentID node) (in_ID node)) (in_Dependencies node))
    (foldl (λ inbound id, <[id := 0]> inbound) ∅ (range_map 2 nodes).*1, ∅)
    (range_map 3 nodes).*2.

Definition sortInvocationGraphNodes (rootID : string) (nodes : node_map)
    (compare : string → string → Z) : result (list string) :=
  let '(inbound, outbound) := count_edges nodes in
  let ready := (filter (λ entry, entry.2 = 0) (range_map 4 inbound)).*1 in
  match graph_loop (size nodes) compare outbound inbound (sortInvocationIDs compare ready) [] with
  | None => Err (errors_New "invocation graph loop ran out of fuel")
  | Some ordered =>
      fail_if negb (length ordered =? size nodes)%nat with
        Errorf "invocation graph %q contains a parent/dependency cycle" [AStr rootID];
      Ok ordered
  end.

(** The map [positions]. *)
Fixpoint graph_positions (index : Z) (ordered : list string) (positions : gmap string Z) : gmap string Z :=
  match ordered with
  | [] => positions
  | id :: rest => graph_positions (index + 1) rest (<[id := index]> positions)
  end.

Definition byGraphOrder (positions : gmap string Z) (compare : string → string → Z)
    (left right : string) : Z :=
  match positions !! left, positions !! right with
  | Some leftPosition, Some rightPosition =>
      if negb (leftPosition =? rightPosition) then (if leftPosition <? rightPosition then -1 else 1)
      else compare left right
  | _, _ => compare left right
  end.

(** Every node is updated in place, independently of the others. *)
Definition sortInvocationGraphEdges (nodes : node_map) (ordered : list string)
    (compare : string → string → Z) : node_map :=
  let order := byGraphOrder (graph_positions 0 ordered ∅) compare in
  (λ node, with_dependents (with_children node (sortInvocationIDs order (in_Children node)))
     (sortInvocationIDs order (in_Dependents node))) <$> nodes.

Definition BuildInvocationGraph (rootID : string) (records : list OperationRecord)
    : result InvocationGraph :=
  try? ValidateResourceName "invocation root" rootID;
  let? nodes := graph_records rootID {[rootID := synthetic_node rootID]} records in
  let nodes := foldl ensureInvocationNode nodes (graph_references nodes) in
  let nodes := link_nodes nodes in
  let compare := node_compare rootID nodes in
  let? ordered := sortInvocationGraphNodes rootID nodes compare in
  let nodes := sortInvocationGraphEdges nodes ordered compare in
  let graphNodes := omap (λ id, nodes !! id) ordered in
  Ok {| ig_RootID := rootID; ig_Nodes := graphNodes; ig_Operations := omap in_Record graphNodes |}.

(** The store is known by its [ListByInvocationRoot], [None] a nil store; the in-memory operation
    store implements it. *)
Definition LoadInvocationGraph (store : option (string → result (list OperationRecord)))
    (rootID : string) : result InvocationGraph :=
  match store with
  | None => Err (errors_New "invocation graph store is nil")
  | Some ListByInvocationRoot =>
      try? ValidateResourceName "invocation root" rootID;
      let? records := ListByInvocationRoot rootID in
      BuildInvocationGraph rootID
        (filter (λ record, inv_RootID (or_Invocation record) = rootID) records)
  end.
End graph.

Definition OrderedOperations (graph : InvocationGraph) : list OperationRecord :=
  match ig_Nodes graph with
  | [] => ig_Operations graph
  | nodes => omap in_Record nodes
  end.

(** ** The comparison is a total order of the nodes *)

Definition bool_rank (b : bool) : Z := if b then 0 else 1.

Definition record_presence (node : option InvocationNode) : bool := bool_decide (is_Some (node_record node)).

Definition record_time (node : option InvocationNode) : Z :=
  match node_record node with Some r => op_SubmittedAt (or_Operation r) | None => 0 end.

Definition record_id (node : option InvocationNode) : string :=
  match node_record node with Some r => op_ID (or_Operation r) | None => "" end.

(** The comparison of the code, as one lexicographic order. *)
Definition node_order (rootID : string) (left right : option InvocationNode) : Z :=
  cmp_or (Z_Compare (bool_rank (String.eqb (invocationNodeID left) rootID))
            (bool_rank (String.eqb (invocationNodeID right) rootID)))
 (cmp_or (Z_Compare (inv_Ordinal (node_invocation left)) (inv_Ordinal (node_invocation right)))
 (cmp_or (Z_Compare (bool_rank (record_presence left)) (bool_rank (record_presence right)))
 (cmp_or (Z_Compare (record_time left) (record_time right))
 (cmp_or (strings_Compare (record_id left) (record_id right))
         (strings_Compare (invocationNodeID left) (invocationNodeID right)))))).

Lemma Z_Compare_cases a b :
  Z_Compare a b = if a =? b then 0 else if a <? b then -1 else 1.
Proof.
  unfold Z_Compare. destruct (Z.compare_spec a b); simpl;
    destruct (Z.eqb_spec a b), (Z.ltb_spec a b); lia.
Qed.

Lemma strings_Compare_refl a : strings_Compare a a = 0.
Proof. by apply strings_Compare_eq. Qed.

Lemma cmp_or_assoc a b c : cmp_or (cmp_or a b) c = cmp_or a (cmp_or b c).
Proof. unfold cmp_or. destruct (a =? 0) eqn:E; by rewrite ?E. Qed.

Lemma cmp_or_0_l c : cmp_or 0 c = c.
Proof. done. Qed.

Lemma record_time_order left right c :
  cmp_or (compareInvocationRecordTime left right) c =
  cmp_or (Z_Compare (bool_rank (record_presence left)) (bool_rank (record_presence right)))
 (cmp_or (Z_Compare (record_time left) (record_time right))
 (cmp_or (strings_Compare (record_id left) (record_id right)) c)).
Proof.
  unfold compareInvocationRecordTime, compareInvocationRecordPresence, record_presence, record_time,
    record_id.
  destruct (node_record left) as [l|], (node_record right) as [r|].
  - by rewrite cmp_or_assoc.
  - done.
  - done.
  - by rewrite strings_Compare_refl.
Qed.

Lemma compareInvocationGraphNodes_order rootID left right :
  compareInvocationGraphNodes rootID left right = node_order rootID left right.
Proof.
  unfold node_order. rewrite <-record_time_order.
  unfold compareInvocationGraphNodes, compareRootInvocationNode.
  rewrite !(Z_Compare_cases (bool_rank _)), (Z_Compare_cases (inv_Ordinal _)).
  destruct (String.eqb (invocationNodeID left) rootID), (String.eqb (invocationNodeID right) rootID);
    simpl; rewrite ?cmp_or_0_l; try done;
    destruct (inv_Ordinal (node_invocation left) =? inv_Ordinal (node_invocation right)); simpl;
    rewrite ?cmp_or_0_l; try (by destruct (_ <? _)); unfold cmp_or; by destruct (_ =? 0).
Qed.

Lemma node_compare_ok rootID nodes : cmp_ok (node_compare rootID nodes).
Proof.
  assert (cmp_ok (node_order rootID)) as Hok.
  { unfold node_order. repeat apply cmp_ok_or;
      first [apply (cmp_ok_on _ Z_Compare), Z_Compare_ok|apply (cmp_ok_on _ strings_Compare), strings_Compare_ok]. }
  destruct Hok as [H1 H2]. unfold node_compare.
  split; intros *; rewrite ?compareInvocationGraphNodes_order; eauto.
Qed.

(** No two different nodes compare equal. *)
Lemma node_compare_inj rootID nodes x y :
  invocationNodeID (nodes !! x) = x → invocationNodeID (nodes !! y) = y →
  node_compare rootID nodes x y = 0 → x = y.
Proof.
  intros Hx Hy. unfold node_compare. rewrite compareInvocationGraphNodes_order. unfold node_order.
  rewrite !cmp_or_zero, Hx, Hy, !strings_Compare_eq. tauto.
Qed.
