(* ===== verification/InvocationGraphOrder.v ===== *)
(** The loops of [BuildInvocationGraph]: the nodes they build, the edges they count, and the order
    [sortInvocationGraphNodes] computes. *)

From S2P Require Import Prelude GoText Names Invocation Operation OperationStore TopoSort InvocationGraph.

(** ** Nested loops *)

Lemma foldl_nested {A B C} (f : A → C → A) (h : B → C) (g : B → string → C) (ds : B → list string)
    (a : A) (l : list B) :
  foldl (λ a x, foldl (λ a d, f a (g x d)) (f a (h x)) (ds x)) a l =
  foldl f a (concat ((λ x, h x :: (g x <$> ds x)) <$> l)).
Proof.
  revert a. induction l as [|x l IH]; intros a; [done|]. simpl. rewrite IH, foldl_app. f_equal.
  generalize (f a (h x)). induction (ds x) as [|d l' IH']; intros b; simpl; auto.
Qed.

Lemma elem_of_concat_map {A B} (f : A → list B) l e : e ∈ concat (f <$> l) ↔ ∃ x, x ∈ l ∧ e ∈ f x.
Proof. induction l as [|x l IH]; simpl; [set_solver|]. rewrite elem_of_app, IH. set_solver. Qed.

(** ** The records of a root *)

Definition rec_id (record : OperationRecord) : string := inv_ID (or_Invocation record).

Definition rooted (rootID : string) (records : list OperationRecord) : list OperationRecord :=
  filter (λ record, inv_RootID (or_Invocation record) = rootID ∧ rec_id record ≠ "") records.

Definition record_nodes (nodes : node_map) (records : list OperationRecord) : node_map :=
  foldl (λ nodes record, <[rec_id record := record_node record]> nodes) nodes records.

Definition duplicate_node (rootID id : string) : error :=
  Errorf "invocation graph %q contains duplicate node %q" [AStr rootID; AStr id].

Lemma rooted_cons rootID r records :
  rooted rootID (r :: records) =
  if negb (String.eqb (inv_RootID (or_Invocation r)) rootID) || is_empty (rec_id r)
  then rooted rootID records else r :: rooted rootID records.
Proof.
  unfold rooted. rewrite filter_cons. destruct (String.eqb_spec (inv_RootID (or_Invocation r)) rootID); simpl.
  - destruct (is_empty (rec_id r)) eqn:E; gobool; [rewrite decide_False by tauto|rewrite decide_True by tauto]; done.
  - by rewrite decide_False by tauto.
Qed.

(** The loop over the records: it stops at the first identity that occurs twice. *)
Lemma graph_records_cases rootID nodes records :
  (graph_records rootID nodes records = Ok (record_nodes nodes (rooted rootID records)) ∧
   NoDup (rec_id <$> rooted rootID records) ∧
   ∀ r, r ∈ rooted rootID records → node_record (nodes !! rec_id r) = None) ∨
  (∃ l1 r l2, rooted rootID records = l1 ++ r :: l2 ∧
     graph_records rootID nodes records = Err (duplicate_node rootID (rec_id r)) ∧
     (is_Some (node_record (nodes !! rec_id r)) ∨ rec_id r ∈ rec_id <$> l1)).
Proof.
  revert nodes. induction records as [|r records IH]; intros nodes.
  { left. split_and!; [done|constructor|set_solver]. }
  rewrite rooted_cons. cbn [graph_records].
  destruct (negb (String.eqb (inv_RootID (or_Invocation r)) rootID)); [apply IH|].
  change (inv_ID (or_Invocation r)) with (rec_id r).
  destruct (is_empty (rec_id r)) eqn:He; [apply IH|]. simpl.
  destruct (node_record (nodes !! rec_id r)) as [r'|] eqn:Hr.
  { right. exists [], r, (rooted rootID records). rewrite bool_decide_eq_true_2 by done.
    rewrite Hr. split_and!; [done|done|left; done]. }
  rewrite bool_decide_eq_false_2 by (by intros []).
  assert (∀ r', node_record (<[rec_id r := record_node r]> nodes !! rec_id r') =
    if decide (rec_id r = rec_id r') then Some r else node_record (nodes !! rec_id r')) as Hl.
  { intros r'. rewrite lookup_insert. by case_decide. }
  destruct (IH (<[rec_id r := record_node r]> nodes)) as [(Heq & Hnd & Hall)|(l1 & r' & l2 & Heq & Herr & Hd)].
  - left. split; [done|]. rewrite list.NoDup_cons. split_and!.
    + intros (r' & Hrr & Hr')%list_elem_of_fmap. specialize (Hall r' Hr').
      rewrite Hl, decide_True in Hall by done. done.
    + done.
    + intros r' [->|Hr']%elem_of_cons; [done|]. specialize (Hall r' Hr'). rewrite Hl in Hall.
      by case_decide.
  - right. exists (r :: l1), r', l2. split_and!; [by rewrite Heq|done|].
    rewrite Hl in Hd. rewrite fmap_cons, elem_of_cons. case_decide; naive_solver.
Qed.

Lemma lookup_record_nodes_out nodes l k :
  k ∉ rec_id <$> l → record_nodes nodes l !! k = nodes !! k.
Proof.
  unfold record_nodes. revert nodes. induction l as [|r l IH]; intros nodes Hk; [done|]. simpl.
  rewrite fmap_cons, not_elem_of_cons in Hk. rewrite IH by tauto. by rewrite lookup_insert_ne by naive_solver.
Qed.

Lemma lookup_record_nodes_in nodes l r :
  NoDup (rec_id <$> l) → r ∈ l → record_nodes nodes l !! rec_id r = Some (record_node r).
Proof.
  unfold record_nodes. revert nodes. induction l as [|r' l IH]; intros nodes Hnd Hr; [set_solver|].
  rewrite fmap_cons, list.NoDup_cons in Hnd. destruct Hnd as [Hn Hnd]. simpl.
  apply elem_of_cons in Hr as [->|Hr]; [|by apply IH].
  pose proof (lookup_record_nodes_out (<[rec_id r' := record_node r']> nodes) l (rec_id r') Hn) as Heq.
  unfold record_nodes in Heq. rewrite Heq. apply lookup_insert_eq.
Qed.

(** ** Nodes for references *)

Lemma lookup_ensure nodes refs k :
  foldl ensureInvocationNode nodes refs !! k =
  match nodes !! k with
  | Some n => Some n
  | None => if decide (k ∈ refs) then Some (synthetic_node k) else None
  end.
Proof.
  revert nodes. induction refs as [|r refs IH]; intros nodes; cbn [foldl].
  - rewrite decide_False by set_solver. by destruct (nodes !! k).
  - rewrite IH. unfold ensureInvocationNode. destruct (decide (r = k)) as [->|Hne].
    + destruct (nodes !! k) as [n|] eqn:Hk; [by rewrite Hk|].
      rewrite lookup_insert_eq. by rewrite decide_True by set_solver.
    + assert (match nodes !! r with Some _ => nodes | None => <[r := synthetic_node r]> nodes end !! k
              = nodes !! k) as ->.
      { destruct (nodes !! r); [done|]. by rewrite lookup_insert_ne. }
      destruct (nodes !! k); [done|].
      destruct (decide (k ∈ refs)); [rewrite decide_True by set_solver|rewrite decide_False by set_solver]; done.
Qed.

(** ** Linking the nodes *)

(** What linking does not change. *)
Definition core (node : InvocationNode) : InvocationNode := with_dependents (with_children node []) [].

Lemma core_fields n n' :
  core n = core n' →
  in_ID n = in_ID n' ∧ in_Invocation n = in_Invocation n' ∧ in_Record n = in_Record n' ∧
  in_ParentID n = in_ParentID n' ∧ in_Dependencies n = in_Dependencies n'.
Proof. destruct n, n'. unfold core, with_dependents, with_children. simpl. by intros [=]. Qed.

Lemma core_eq n n' :
  core n = core n' → in_Children n = in_Children n' → in_Dependents n = in_Dependents n' → n = n'.
Proof.
  intros (? & ? & ? & ? & ?)%core_fields ? ?. destruct n, n'; simpl in *. by simplify_eq.
Qed.

Definition link_ok (source target : string) : Prop := source ≠ "" ∧ target ≠ "" ∧ source ≠ target.

#[export] Instance link_ok_dec source target : Decision (link_ok source target).
Proof. unfold link_ok. apply _. Defined.

Lemma link_guard source target :
  is_empty source || is_empty target || String.eqb source target = negb (bool_decide (link_ok source target)).
Proof.
  unfold link_ok. destruct (is_empty source) eqn:E1, (is_empty target) eqn:E2,
    (String.eqb_spec source target); gobool; simpl; symmetry; gobool;
    rewrite ?bool_decide_eq_true, ?bool_decide_eq_false; tauto.
Qed.

(** [nodes] is [nodes0] with the children and the dependents of the edges in [P]. *)
Definition linked_node (P : list (string * string * bool)) (k : string) (n0 n : InvocationNode) : Prop :=
  core n = core n0 ∧
  NoDup (in_Children n) ∧ (∀ v, v ∈ in_Children n ↔ (k, v, true) ∈ P ∧ link_ok k v) ∧
  NoDup (in_Dependents n) ∧ (∀ v, v ∈ in_Dependents n ↔ (k, v, false) ∈ P ∧ link_ok k v).

Definition linked (nodes0 : node_map) (P : list (string * string * bool)) (nodes : node_map) : Prop :=
  map_Forall2 (linked_node P) nodes0 nodes.

Lemma appendUnique_NoDup values value :
  NoDup values → NoDup (appendUniqueInvocationID values value).
Proof.
  unfold appendUniqueInvocationID. case_bool_decide; [done|]. intros. apply NoDup_app.
  split_and!; [done|set_solver|apply NoDup_singleton].
Qed.

Lemma elem_of_appendUnique values value v :
  v ∈ appendUniqueInvocationID values value ↔ v ∈ values ∨ v = value.
Proof. unfold appendUniqueInvocationID. case_bool_decide; rewrite ?elem_of_snoc; naive_solver. Qed.

Lemma linked_step nodes0 P nodes s t c :
  linked nodes0 P nodes → (link_ok s t → is_Some (nodes0 !! s)) →
  linked nodes0 (P ++ [(s, t, c)]) (addEdge nodes s t c).
Proof.
  intros HL Hs k. specialize (HL k) as Hk. unfold addEdge. rewrite link_guard.
  destruct (decide (link_ok s t)) as [Hok|Hok].
  - rewrite bool_decide_eq_true_2 by done. simpl.
    assert (ensureInvocationNode nodes s = nodes) as ->.
    { destruct (Hs Hok) as [n0 Hn0]. specialize (HL s). rewrite Hn0 in HL. unfold ensureInvocationNode.
      inversion HL as [? ? ? Heq H1|]. done. }
    rewrite lookup_alter. destruct (decide (s = k)) as [->|Hne].
    + destruct Hk as [n0 n (Hc & Hn1 & Hc1 & Hn2 & Hc2)|]; constructor. destruct c; simpl.
      * split_and!; [done|by apply appendUnique_NoDup| |done|].
        -- intros v. simpl. rewrite elem_of_appendUnique, Hc1, elem_of_snoc. naive_solver.
        -- intros v. simpl. rewrite Hc2, elem_of_snoc. naive_solver.
      * split_and!; [done|done| |by apply appendUnique_NoDup|].
        -- intros v. simpl. rewrite Hc1, elem_of_snoc. naive_solver.
        -- intros v. simpl. rewrite elem_of_appendUnique, Hc2, elem_of_snoc. naive_solver.
    + destruct Hk as [n0 n (Hc & Hn1 & Hc1 & Hn2 & Hc2)|]; constructor.
      split_and!; try done; intros v; rewrite ?Hc1, ?Hc2, elem_of_snoc; naive_solver.
  - rewrite bool_decide_eq_false_2 by done. simpl.
    destruct Hk as [n0 n (Hc & Hn1 & Hc1 & Hn2 & Hc2)|]; constructor.
    split_and!; try done; intros v; rewrite ?Hc1, ?Hc2, elem_of_snoc; naive_solver.
Qed.

Lemma linked_fold nodes0 P Q nodes :
  linked nodes0 P nodes → (∀ s t c, (s, t, c) ∈ Q → link_ok s t → is_Some (nodes0 !! s)) →
  linked nodes0 (P ++ Q) (foldl (λ nodes e, addEdge nodes e.1.1 e.1.2 e.2) nodes Q).
Proof.
  revert P nodes. induction Q as [|[[s t] c] Q IH]; intros P nodes HL HQ; simpl.
  - by rewrite app_nil_r.
  - rewrite cons_middle, app_assoc. apply IH; [|set_solver]. apply linked_step; [done|set_solver].
Qed.

(** The edges of a node, as the loop adds them. *)
Definition node_edges (node : InvocationNode) : list (string * string * bool) :=
  (in_ParentID node, in_ID node, true) :: ((λ d, (d, in_ID node, false)) <$> in_Dependencies node).

(** The nodes as they are before linking: no children, and every name a node refers to is a node. *)
Record unlinked (nodes : node_map) : Prop := {
  ul_key k n : nodes !! k = Some n → in_ID n = k;
  ul_core k n : nodes !! k = Some n → core n = n;
  ul_closed k n u : nodes !! k = Some n → u ∈ in_ParentID n :: in_Dependencies n → u ≠ "" →
    is_Some (nodes !! u);
}.

Section link.
Context `{!MapOrder} (nodes : node_map) (Hn : unlinked nodes).

Lemma link_nodes_flat :
  link_nodes nodes =
  foldl (λ nodes e, addEdge nodes e.1.1 e.1.2 e.2) nodes (concat (node_edges <$> (range_map 1 nodes).*2)).
Proof using Type.
  unfold link_nodes, node_edges.
  apply (foldl_nested (λ nodes e, addEdge nodes e.1.1 e.1.2 e.2)
    (λ n, (in_ParentID n, in_ID n, true)) (λ n d, (d, in_ID n, false)) in_Dependencies).
Qed.

Lemma elem_of_concat_edges {B} (f : InvocationNode → list B) loop e :
  e ∈ concat (f <$> (range_map loop nodes).*2) ↔ ∃ k n, nodes !! k = Some n ∧ e ∈ f n.
Proof using Type.
  rewrite elem_of_concat_map. setoid_rewrite list_elem_of_fmap. split.
  - intros (n & ([k n'] & -> & Hk%elem_of_range_map) & He). eauto.
  - intros (k & n & Hk & He). exists n. split; [|done]. exists (k, n). by rewrite elem_of_range_map.
Qed.

Lemma link_nodes_linked :
  linked nodes (concat (node_edges <$> (range_map 1 nodes).*2)) (link_nodes nodes).
Proof using Hn.
  rewrite link_nodes_flat. apply (linked_fold nodes []).
  - intros k. destruct (nodes !! k) as [n|] eqn:Hk; constructor.
    rewrite <-(ul_core _ Hn _ _ Hk). simpl.
    split_and!; [done|constructor|set_solver|constructor|set_solver].
  - intros s t c (k & n & Hk & He)%elem_of_concat_edges [Hs _].
    apply (ul_closed _ Hn k n); [done| |done]. unfold node_edges in He.
    apply elem_of_cons in He as [?|(d & ? & ?)%list_elem_of_fmap]; simplify_eq; set_solver.
Qed.

(** What linking yields: the nodes with their children and their dependents. *)
Lemma link_nodes_lookup k :
  match nodes !! k, link_nodes nodes !! k with
  | Some n0, Some n =>
      core n = core n0 ∧
      NoDup (in_Children n) ∧
      (∀ v, v ∈ in_Children n ↔ ∃ c, nodes !! v = Some c ∧ in_ParentID c = k ∧ link_ok k v) ∧
      NoDup (in_Dependents n) ∧
      (∀ v, v ∈ in_Dependents n ↔ ∃ c, nodes !! v = Some c ∧ k ∈ in_Dependencies c ∧ link_ok k v)
  | None, None => True
  | _, _ => False
  end.
Proof using Hn.
  pose proof (link_nodes_linked k) as Hk.
  destruct Hk as [n0 n (Hc & Hn1 & Hc1 & Hn2 & Hc2)|]; [|done].
  split_and!; [done|done| |done|]; intros v.
  - rewrite Hc1, elem_of_concat_edges. unfold node_edges. split.
    + intros ((k' & c & Hk' & He) & Hok). pose proof (ul_key _ Hn _ _ Hk').
      apply elem_of_cons in He as [?|(d & ? & ?)%list_elem_of_fmap]; simplify_eq. eauto.
    + intros (c & Hv & <- & Hok). split; [|done]. exists v, c. split; [done|].
      rewrite (ul_key _ Hn _ _ Hv). left.
  - rewrite Hc2, elem_of_concat_edges. unfold node_edges. split.
    + intros ((k' & c & Hk' & He) & Hok). pose proof (ul_key _ Hn _ _ Hk').
      apply elem_of_cons in He as [?|(d & ? & ?)%list_elem_of_fmap]; simplify_eq. eauto.
    + intros (c & Hv & Hd & Hok). split; [|done]. exists v, c. split; [done|].
      rewrite (ul_key _ Hn _ _ Hv). right. apply list_elem_of_fmap. eauto.
Qed.
End link.

(** ** Counting the edges *)

(** The edge from a parent or a dependency to the node that names it. *)
Definition graph_edge (nodes : node_map) (u v : string) : Prop :=
  match nodes !! v with
  | Some n => u ∈ in_ParentID n :: in_Dependencies n ∧ link_ok u v ∧ is_Some (nodes !! u)
  | None => False
  end.

#[export] Instance graph_edge_dec nodes u v : Decision (graph_edge nodes u v).
Proof. unfold graph_edge. destruct (nodes !! v); apply _. Defined.

Definition edge_ok (nodes : node_map) (u v : string) : Prop :=
  link_ok u v ∧ is_Some (nodes !! u) ∧ is_Some (nodes !! v).

#[export] Instance edge_ok_dec nodes u v : Decision (edge_ok nodes u v).
Proof. unfold edge_ok. apply _. Defined.

Record counted (nodes : node_map) (P : list (string * string)) (edges : order_edges) : Prop := {
  ct_dom : dom edges.1 = dom nodes;
  ct_nodup u : NoDup (out_of edges.2 u);
  ct_out u v : v ∈ out_of edges.2 u ↔ (u, v) ∈ P ∧ edge_ok nodes u v;
  ct_count v : map_count edges.1 v =
    Z.of_nat (size (filter (λ u, v ∈ out_of edges.2 u) (dom nodes)));
}.

Lemma addOrderEdge_cases nodes inbound outbound s t :
  addOrderEdge nodes (inbound, outbound) s t =
  if decide (edge_ok nodes s t ∧ t ∉ out_of outbound s)
  then (<[t := map_count inbound t + 1]> inbound, <[s := out_of outbound s ++ [t]]> outbound)
  else (inbound, outbound).
Proof.
  unfold addOrderEdge. rewrite link_guard.
  assert (negb (bool_decide (link_ok s t)) || bool_decide (nodes !! s = None) || bool_decide (nodes !! t = None) =
          negb (bool_decide (edge_ok nodes s t))) as ->.
  { pose proof (not_eq_None_Some (nodes !! s)). pose proof (not_eq_None_Some (nodes !! t)).
    repeat case_bool_decide; unfold edge_ok in *; simpl; done || (exfalso; tauto). }
  repeat case_bool_decide; simpl; case_decide; done || (exfalso; tauto).
Qed.

Lemma out_of_insert outbound s l u :
  out_of (<[s := l]> outbound) u = if decide (s = u) then l else out_of outbound u.
Proof. unfold out_of. rewrite lookup_insert. by case_decide. Qed.

Lemma counted_step nodes P edges s t :
  counted nodes P edges → counted nodes (P ++ [(s, t)]) (addOrderEdge nodes edges s t).
Proof.
  destruct edges as [inbound outbound]. intros [Hd Hnd Ho Hc]. cbn [fst snd] in *.
  rewrite addOrderEdge_cases. case_decide as Hnew.
  - destruct Hnew as [Hok Hnew]. assert (is_Some (nodes !! t)) as Ht by apply Hok.
    assert (∀ u v, v ∈ out_of (<[s := out_of outbound s ++ [t]]> outbound) u ↔
              v ∈ out_of outbound u ∨ (u = s ∧ v = t)) as Hmem.
    { intros u v. rewrite out_of_insert. case_decide; rewrite ?elem_of_snoc; naive_solver. }
    split; simpl.
    + rewrite dom_insert_L, Hd. apply elem_of_dom in Ht. set_solver.
    + intros u. rewrite out_of_insert. case_decide; [|done]. subst. apply NoDup_app.
      split_and!; [done|set_solver|apply NoDup_singleton].
    + intros u v. rewrite Hmem, Ho, elem_of_snoc. naive_solver.
    + intros v. rewrite map_count_insert, !Hc. case_decide as Hv; [subst v|].
      * assert (filter (λ u, t ∈ out_of (<[s := out_of outbound s ++ [t]]> outbound) u) (dom nodes) ≡
                {[s]} ∪ filter (λ u, t ∈ out_of outbound u) (dom nodes)) as ->.
        { intros u. rewrite elem_of_union, elem_of_singleton, !elem_of_filter, Hmem.
          assert (s ∈ dom nodes) by (apply elem_of_dom, Hok). naive_solver. }
        rewrite size_union, size_singleton; [lia|].
        intros u. rewrite elem_of_singleton, elem_of_filter. naive_solver.
      * do 2 f_equal. apply set_eq. intros u. rewrite !elem_of_filter, Hmem. naive_solver.
  - split; simpl; [done..| |done].
    intros u v. rewrite Ho, elem_of_snoc. split; [naive_solver|].
    intros [[?|?] Hok]; [done|]. simplify_eq. split; [|done].
    destruct (decide ((s, t) ∈ P)); [done|]. exfalso. apply Hnew. rewrite Ho. tauto.
Qed.

Lemma counted_fold nodes P Q edges :
  counted nodes P edges →
  counted nodes (P ++ Q) (foldl (λ edges e, addOrderEdge nodes edges e.1 e.2) edges Q).
Proof.
  revert P edges. induction Q as [|[s t] Q IH]; intros P edges HC; simpl.
  - by rewrite app_nil_r.
  - rewrite cons_middle, app_assoc. by apply IH, counted_step.
Qed.

Lemma fold_zero (l : list string) (m : gmap string Z) k :
  foldl (λ m id, <[id := 0]> m) m l !! k = if decide (k ∈ l) then Some 0 else m !! k.
Proof.
  revert m. induction l as [|x l IH]; intros m; cbn [foldl].
  - by rewrite decide_False by set_solver.
  - rewrite IH, lookup_insert. destruct (decide (k ∈ l)); [by rewrite decide_True by set_solver|].
    destruct (decide (x = k)); [by rewrite decide_True by set_solver|by rewrite decide_False by set_solver].
Qed.

Section order.
Context `{!MapOrder} (nodes : node_map).
Context (Hkey : ∀ k n, nodes !! k = Some n → in_ID n = k).

Definition node_pairs (node : InvocationNode) : list (string * string) :=
  (in_ParentID node, in_ID node) :: ((λ d, (d, in_ID node)) <$> in_Dependencies node).

Lemma count_edges_counted :
  counted nodes (concat (node_pairs <$> (range_map 3 nodes).*2)) (count_edges nodes).
Proof using Hkey.
  unfold count_edges.
  rewrite (foldl_nested (λ edges e, addOrderEdge nodes edges e.1 e.2)
    (λ n, (in_ParentID n, in_ID n)) (λ n d, (d, in_ID n)) in_Dependencies).
  apply (counted_fold nodes []). split; simpl.
  - apply set_eq. intros k. rewrite !elem_of_dom, fold_zero.
    assert (k ∈ (range_map 2 nodes).*1 ↔ is_Some (nodes !! k)) as Hk.
    { rewrite range_map_perm. rewrite list_elem_of_fmap. split.
      - intros ([k' x] & -> & Hx%elem_of_map_to_list). eauto.
      - intros [x Hx]. exists (k, x). by rewrite elem_of_map_to_list. }
    case_decide; rewrite <-Hk; [done|]. rewrite lookup_empty. split; [by intros []|done].
  - intros u. constructor.
  - intros u v. unfold out_of. rewrite lookup_empty. set_solver.
  - intros v. unfold map_count, out_of. rewrite fold_zero, lookup_empty.
    assert (filter (λ u : string, v ∈ default [] ((∅ : gmap string (list string)) !! u)) (dom nodes) ≡ ∅) as ->.
    { intros u. rewrite elem_of_filter, lookup_empty. set_solver. }
    rewrite size_empty. by case_decide.
Qed.

Lemma graph_edge_pairs u v :
  (u, v) ∈ concat (node_pairs <$> (range_map 3 nodes).*2) ∧ edge_ok nodes u v ↔ graph_edge nodes u v.
Proof using Hkey.
  rewrite elem_of_concat_edges. unfold edge_ok, graph_edge, node_pairs. split.
  - intros ((k & n & Hk & He) & Hok & Hu & _). pose proof (Hkey _ _ Hk).
    apply elem_of_cons in He as [?|(d & ? & ?)%list_elem_of_fmap]; simplify_eq; rewrite Hk; set_solver.
  - destruct (nodes !! v) as [n|] eqn:Hv; [|done]. intros (He & Hok & Hu). split; [|eauto].
    exists v, n. split; [done|]. rewrite (Hkey _ _ Hv).
    apply elem_of_cons in He as [->|He]; [left|]. right. apply list_elem_of_fmap. eauto.
Qed.

Lemma graph_edge_dom u v : graph_edge nodes u v → u ∈ dom nodes ∧ v ∈ dom nodes.
Proof using Hkey.
  unfold graph_edge. rewrite !elem_of_dom. destruct (nodes !! v); naive_solver.
Qed.

(** The successors and the in-degrees [sortInvocationGraphNodes] starts from. *)
Lemma count_edges_spec :
  let edges := count_edges nodes in
  dom edges.1 = dom nodes ∧
  (∀ u, NoDup (out_of edges.2 u)) ∧
  (∀ u v, v ∈ out_of edges.2 u ↔ graph_edge nodes u v) ∧
  (∀ v, map_count edges.1 v = indegree (dom nodes) (graph_edge nodes) [] v).
Proof using Hkey.
  destruct count_edges_counted as [Hd Hnd Ho Hc].
  assert (∀ u v, v ∈ out_of (count_edges nodes).2 u ↔ graph_edge nodes u v) as Ho'.
  { intros u v. by rewrite Ho, graph_edge_pairs. }
  split_and!; [done|done|done|]. intros v. rewrite Hc. unfold indegree, pending.
  do 2 f_equal. apply set_eq. intros u. rewrite !elem_of_filter, Ho'. set_solver.
Qed.
End order.

(** ** The order *)

Definition cycle_error (rootID : string) : error :=
  Errorf "invocation graph %q contains a parent/dependency cycle" [AStr rootID].

Section sort.
Context `{!MapOrder} (nodes : node_map).
Context (Hkey : ∀ k n, nodes !! k = Some n → in_ID n = k).

Abbreviation inv := (topo_inv (dom nodes) (graph_edge nodes)).

Lemma graph_loop_spec fuel compare outbound inbound ready ordered :
  (∀ u, NoDup (out_of outbound u)) → (∀ u v, v ∈ out_of outbound u ↔ graph_edge nodes u v) →
  inv inbound ready ordered → (size (dom nodes) ≤ fuel + length ordered)%nat →
  ∃ inbound' ordered', graph_loop fuel compare outbound inbound ready ordered = Some ordered' ∧
    inv inbound' [] ordered'.
Proof using Hkey.
  intros Hnd Hout. revert inbound ready ordered.
  induction fuel as [|fuel IH]; intros inbound [|id ready] ordered Hinv Hfuel; cbn [graph_loop]; [by eauto| |by eauto|].
  - pose proof (topo_inv_length _ _ (graph_edge_dom nodes Hkey) _ _ _ Hinv) as Hlen. simpl in *. lia.
  - set (targets := sortInvocationIDs compare (out_of outbound id)).
    destruct (relax targets inbound ready) as [inbound' ready'] eqn:Hr. apply IH.
    + apply (topo_inv_perm _ _ (graph_edge_dom nodes Hkey) _ ready'); [apply SortFunc_perm|].
      assert (inbound' = (relax targets inbound ready).1) as -> by by rewrite Hr.
      assert (ready' = (relax targets inbound ready).2) as -> by by rewrite Hr.
      apply topo_inv_step; [apply graph_edge_dom, Hkey|done|..]; unfold targets, sortInvocationIDs.
      * by rewrite SortFunc_perm.
      * intros v. by rewrite elem_of_SortFunc.
    + rewrite length_app. simpl. lia.
Qed.

Lemma elem_of_ready (inbound : gmap string Z) loop v :
  v ∈ (filter (λ entry, entry.2 = 0) (range_map loop inbound)).*1 ↔
  v ∈ dom inbound ∧ map_count inbound v = 0.
Proof using Type.
  rewrite list_elem_of_fmap, elem_of_dom. unfold map_count. split.
  - intros ([k x] & -> & [Hx Hk%elem_of_range_map]%list_elem_of_filter). simpl in *. by rewrite Hk.
  - intros [[x Hx] Hz]. exists (v, x). split; [done|]. rewrite list_elem_of_filter, elem_of_range_map.
    rewrite Hx in Hz. done.
Qed.

Lemma NoDup_ready (inbound : gmap string Z) loop :
  NoDup (filter (λ entry, entry.2 = 0) (range_map loop inbound)).*1.
Proof using Type.
  apply (sublist_NoDup _ (range_map loop inbound).*1); [apply NoDup_range_map|]. apply fmap_sublist, sublist_filter.
Qed.

Lemma sort_start :
  inv (count_edges nodes).1 (filter (λ entry, entry.2 = 0) (range_map 4 (count_edges nodes).1)).*1 [].
Proof using Hkey.
  destruct (count_edges_spec nodes Hkey) as (Hd & _ & _ & Hc).
  apply topo_inv_init; [apply graph_edge_dom, Hkey|done|apply NoDup_ready|].
  intros v. by rewrite elem_of_ready, Hd.
Qed.

(** [sortInvocationGraphNodes] yields a topological order of all the nodes, or the cycle error when
    there is none; the loop never runs out of fuel. *)
Lemma sort_nodes_spec rootID compare :
  (acyclic (graph_edge nodes) ∧ ∃ ordered, sortInvocationGraphNodes rootID nodes compare = Ok ordered ∧
     NoDup ordered ∧ (∀ v, v ∈ ordered ↔ v ∈ dom nodes) ∧ topological (graph_edge nodes) ordered) ∨
  (¬ acyclic (graph_edge nodes) ∧
   sortInvocationGraphNodes rootID nodes compare = Err (cycle_error rootID)).
Proof using Hkey.
  destruct (count_edges_spec nodes Hkey) as (Hd & Hnd & Hout & Hc). pose proof sort_start as Hstart.
  unfold sortInvocationGraphNodes. destruct (count_edges nodes) as [inbound outbound]. simpl in *.
  set (ready := (filter _ (range_map 4 inbound)).*1) in *.
  destruct (graph_loop_spec (size nodes) compare outbound inbound (sortInvocationIDs compare ready) [])
    as (inbound' & ordered & Hloop & Hinv); [done..| | |].
  { apply (topo_inv_perm _ _ (graph_edge_dom nodes Hkey) _ ready); [apply SortFunc_perm|done]. }
  { rewrite size_dom. simpl. lia. }
  rewrite Hloop. pose proof (topo_inv_final _ _ (graph_edge_dom nodes Hkey) _ _ Hinv) as Hfin.
  rewrite size_dom in Hfin. destruct (Nat.eqb_spec (length ordered) (size nodes)) as [Hl|Hl]; simpl.
  - left. split; [tauto|]. exists ordered. split; [done|].
    assert (∀ v, v ∈ ordered ↔ v ∈ dom nodes) as Hall.
    { apply (topo_inv_complete _ _ (graph_edge_dom nodes Hkey) _ _ _ Hinv). by rewrite size_dom. }
    destruct Hinv as [_ Hn _ Ht]. by rewrite app_nil_r in Hn.
  - right. split; [tauto|done].
Qed.
End sort.

(** ** The order does not depend on the order of iteration *)

Definition same_nodes (nodes1 nodes2 : node_map) : Prop :=
  map_Forall2 (λ _ n1 n2, core n1 = core n2) nodes1 nodes2.

Lemma same_nodes_lookup nodes1 nodes2 k :
  same_nodes nodes1 nodes2 → core <$> (nodes1 !! k) = core <$> (nodes2 !! k).
Proof. intros Hs. destruct (Hs k) as [n1 n2 Hc|]; simpl; congruence. Qed.

Lemma same_nodes_dom nodes1 nodes2 : same_nodes nodes1 nodes2 → dom nodes1 = dom nodes2.
Proof.
  intros Hs. apply set_eq. intros k. rewrite !elem_of_dom, <-!not_eq_None_Some.
  pose proof (same_nodes_lookup _ _ k Hs). destruct (nodes1 !! k), (nodes2 !! k); naive_solver.
Qed.

Lemma same_nodes_edge nodes1 nodes2 u v :
  same_nodes nodes1 nodes2 → graph_edge nodes1 u v ↔ graph_edge nodes2 u v.
Proof.
  intros Hs. unfold graph_edge. pose proof (same_nodes_dom _ _ Hs) as Hd.
  assert (is_Some (nodes1 !! u) ↔ is_Some (nodes2 !! u)) as Hu by (by rewrite <-!elem_of_dom, Hd).
  destruct (Hs v) as [n1 n2 (_ & _ & _ & -> & ->)%core_fields|]; tauto.
Qed.

Lemma same_nodes_compare rootID nodes1 nodes2 x y :
  same_nodes nodes1 nodes2 → node_compare rootID nodes1 x y = node_compare rootID nodes2 x y.
Proof.
  intros Hs. unfold node_compare. rewrite !compareInvocationGraphNodes_order.
  assert (∀ k, invocationNodeID (nodes1 !! k) = invocationNodeID (nodes2 !! k) ∧
    node_invocation (nodes1 !! k) = node_invocation (nodes2 !! k) ∧
    node_record (nodes1 !! k) = node_record (nodes2 !! k)) as Hk.
  { intros k. destruct (Hs k) as [n1 n2 (Hi & Hv & Hr & _)%core_fields|]; done. }
  destruct (Hk x) as (Hx1 & Hx2 & Hx3), (Hk y) as (Hy1 & Hy2 & Hy3).
  unfold node_order, record_presence, record_time, record_id.
  by rewrite Hx1, Hx2, Hx3, Hy1, Hy2, Hy3.
Qed.

Section determinism.
Context (O1 O2 : MapOrder) (rootID : string) (nodes1 nodes2 : node_map).
Context (Hkey1 : ∀ k n, nodes1 !! k = Some n → in_ID n = k).
Context (Hkey2 : ∀ k n, nodes2 !! k = Some n → in_ID n = k).
Context (Hs : same_nodes nodes1 nodes2).

Lemma sort_ids_det l1 l2 :
  l1 ≡ₚ l2 → (∀ x, x ∈ l2 → x ∈ dom nodes2) →
  sortInvocationIDs (node_compare rootID nodes1) l1 = sortInvocationIDs (node_compare rootID nodes2) l2.
Proof using Hkey1 Hkey2 Hs.
  intros Hp Hd. apply SortFunc_ext; [apply node_compare_ok|apply node_compare_ok|done|..].
  - intros x y _ _. by apply same_nodes_compare.
  - intros x y Hx%Hd Hy%Hd. rewrite elem_of_dom in Hx, Hy. destruct Hx as [nx Hx], Hy as [ny Hy].
    apply node_compare_inj; [rewrite Hx|rewrite Hy]; by apply Hkey2.
Qed.

Lemma graph_loop_det fuel out1 out2 inbound ready ordered :
  (∀ u, out_of out1 u ≡ₚ out_of out2 u) → (∀ u v, v ∈ out_of out2 u → v ∈ dom nodes2) →
  (∀ u, NoDup (out_of out2 u)) → (∀ x, x ∈ ready → x ∈ dom nodes2) →
  graph_loop fuel (node_compare rootID nodes1) out1 inbound ready ordered =
  graph_loop fuel (node_compare rootID nodes2) out2 inbound ready ordered.
Proof using Hkey1 Hkey2 Hs.
  intros Hp Hd Hnd. revert inbound ready ordered.
  induction fuel as [|fuel IH]; intros inbound [|id ready] ordered Hr; cbn [graph_loop]; [done..|].
  rewrite (sort_ids_det _ _ (Hp id)) by eauto.
  set (targets := sortInvocationIDs _ (out_of out2 id)).
  assert (∀ x, x ∈ (relax targets inbound ready).2 → x ∈ dom nodes2) as Hr'.
  { intros x. rewrite relax_ready by (unfold targets, sortInvocationIDs; by rewrite SortFunc_perm).
    rewrite elem_of_app, list_elem_of_filter. intros [Hx|[_ Hx]]; [apply Hr; set_solver|].
    unfold targets, sortInvocationIDs in Hx. rewrite elem_of_SortFunc in Hx. eauto. }
  destruct (relax targets inbound ready) as [inbound' ready']. simpl in Hr'.
  rewrite (sort_ids_det ready' ready') by done. apply IH.
  intros x. unfold sortInvocationIDs. rewrite elem_of_SortFunc. apply Hr'.
Qed.

Lemma sort_nodes_det :
  @sortInvocationGraphNodes O1 rootID nodes1 (node_compare rootID nodes1) =
  @sortInvocationGraphNodes O2 rootID nodes2 (node_compare rootID nodes2).
Proof using Hkey1 Hkey2 Hs.
  destruct (@count_edges_spec O1 nodes1 Hkey1) as (Hd1 & Hnd1 & Hout1 & Hc1).
  destruct (@count_edges_spec O2 nodes2 Hkey2) as (Hd2 & Hnd2 & Hout2 & Hc2).
  pose proof (same_nodes_dom _ _ Hs) as Hdom.
  unfold sortInvocationGraphNodes.
  destruct (@count_edges O1 nodes1) as [in1 out1], (@count_edges O2 nodes2) as [in2 out2]. simpl in *.
  assert (in1 = in2) as ->.
  { assert (∀ k, map_count in1 k = map_count in2 k) as Hcount.
    { intros k. rewrite Hc1, Hc2. unfold indegree, pending. do 2 f_equal. apply set_eq. intros u.
      rewrite !elem_of_filter, Hdom, (same_nodes_edge _ _ _ _ Hs). done. }
    apply map_eq. intros k. specialize (Hcount k). unfold map_count in Hcount.
    assert (k ∈ dom in1 ↔ k ∈ dom in2) as Hk by (by rewrite Hd1, Hd2, Hdom).
    rewrite !elem_of_dom in Hk. destruct (in1 !! k), (in2 !! k); simpl in *; [by subst|..|done].
    - by destruct Hk as [[? ?] _].
    - by destruct Hk as [_ [? ?]]. }
  assert (size nodes1 = size nodes2) as -> by (by rewrite <-!(size_dom (D := gset string)), Hdom).
  rewrite (sort_ids_det _ (filter (λ entry, entry.2 = 0) (@range_map O2 _ 4%nat in2)).*1).
  - rewrite (graph_loop_det _ out1 out2); [done|..].
    + intros u. apply NoDup_Permutation; [done..|]. intros v. by rewrite Hout1, Hout2, same_nodes_edge.
    + intros u v. rewrite Hout2. apply graph_edge_dom, Hkey2.
    + done.
    + intros x. unfold sortInvocationIDs. rewrite elem_of_SortFunc, elem_of_ready, Hd2. tauto.
  - by rewrite !range_map_perm.
  - intros x. rewrite elem_of_ready, Hd2. tauto.
Qed.
End determinism.
