(* ===== verification/InvocationGraphProperties.v ===== *)
(** What [BuildInvocationGraph] guarantees: which records it accepts, that its nodes are in an order
    in which every node follows its parent and its dependencies, that the relations it reports are
    those of the records, and that the result does not depend on Go's iteration order. *)

From S2P Require Import Prelude GoText Names Invocation Operation OperationStore TopoSort.
From S2P Require Import InvocationGraph InvocationGraphOrder.

(** ** Lists with distinct keys *)

Lemma NoDup_fmap_key {A B} (f : A → B) (l : list A) x y :
  NoDup (f <$> l) → x ∈ l → y ∈ l → f x = f y → x = y.
Proof.
  induction l as [|z l IH]; [set_solver|]. rewrite fmap_cons, list.NoDup_cons, !elem_of_cons.
  intros [Hz Hnd] [->|Hx] [->|Hy] Heq; [done|..|by apply IH]; exfalso; apply Hz, list_elem_of_fmap; eauto.
Qed.

(** ** The graph of the records *)

(** The names the records of a root refer to. *)
Definition record_references (rootID : string) (records : list OperationRecord) : list string :=
  concat ((λ r, node_references (record_node r)) <$> rooted rootID records).

(** [u] is the parent or a dependency of the node [v]. *)
Definition precedes (rootID : string) (records : list OperationRecord) (u v : string) : Prop :=
  ∃ r, r ∈ rooted rootID records ∧ rec_id r = v ∧
    (u = inv_ParentID (or_Invocation r) ∨ u ∈ inv_Dependencies (or_Invocation r)) ∧ u ≠ "" ∧ u ≠ v.

(** The identities of the nodes. *)
Definition graph_ids (rootID : string) (records : list OperationRecord) (id : string) : Prop :=
  id = rootID ∨ id ∈ rec_id <$> rooted rootID records ∨ id ∈ record_references rootID records.

(** The nodes before linking. *)
Definition base_nodes `{!MapOrder} (rootID : string) (records : list OperationRecord) : node_map :=
  let nodes := record_nodes {[rootID := synthetic_node rootID]} (rooted rootID records) in
  foldl ensureInvocationNode nodes (graph_references nodes).

Section base.
Context `{!MapOrder} (rootID : string) (records : list OperationRecord).
Context (Hnd : NoDup (rec_id <$> rooted rootID records)).

Let start : node_map := {[rootID := synthetic_node rootID]}.

Lemma lookup_start_records k :
  (∃ r, r ∈ rooted rootID records ∧ rec_id r = k ∧
     record_nodes start (rooted rootID records) !! k = Some (record_node r)) ∨
  (k ∉ rec_id <$> rooted rootID records ∧
   record_nodes start (rooted rootID records) !! k = if decide (k = rootID) then Some (synthetic_node k) else None).
Proof using Hnd.
  destruct (decide (k ∈ rec_id <$> rooted rootID records)) as [Hk|Hk].
  - left. apply list_elem_of_fmap in Hk as (r & -> & Hr). exists r. split_and!; [done|done|].
    by apply lookup_record_nodes_in.
  - right. split; [done|]. rewrite lookup_record_nodes_out by done. unfold start.
    rewrite lookup_singleton. destruct (decide (rootID = k)), (decide (k = rootID)); by subst.
Qed.

Lemma elem_of_graph_references k :
  k ∈ graph_references (record_nodes start (rooted rootID records)) ↔
  k ∈ record_references rootID records.
Proof using Hnd.
  unfold graph_references, record_references. rewrite elem_of_concat_edges, elem_of_concat_map. split.
  - intros (k' & n & Hk' & He). destruct (lookup_start_records k') as [(r & Hr & <- & Heq)|[_ Heq]];
      rewrite Heq in Hk'; simplify_eq; [by eauto|]. case_decide; simplify_eq. simpl in He. set_solver.
  - intros (r & Hr & He). exists (rec_id r), (record_node r). split; [|done]. by apply lookup_record_nodes_in.
Qed.

(** Every node is the node of a record, or a synthetic one for the root or a reference. *)
Lemma base_lookup k :
  (∃ r, r ∈ rooted rootID records ∧ rec_id r = k ∧ base_nodes rootID records !! k = Some (record_node r)) ∨
  (k ∉ rec_id <$> rooted rootID records ∧ graph_ids rootID records k ∧
   base_nodes rootID records !! k = Some (synthetic_node k)) ∨
  (¬ graph_ids rootID records k ∧ base_nodes rootID records !! k = None).
Proof using Hnd.
  unfold base_nodes. rewrite lookup_ensure.
  destruct (lookup_start_records k) as [(r & Hr & Hk & Heq)|[Hk Heq]]; unfold start in Heq; rewrite Heq.
  - left. eauto.
  - right. unfold graph_ids. destruct (decide (k = rootID)) as [->|Hne]; [left; eauto|].
    pose proof (elem_of_graph_references k) as Href. unfold start in Href.
    case_decide; rewrite Href in *; [left|right]; tauto.
Qed.

Lemma base_unlinked : unlinked (base_nodes rootID records).
Proof using Hnd.
  split.
  - intros k n Hk. destruct (base_lookup k) as [(r & _ & <- & Heq)|[(_ & _ & Heq)|(_ & Heq)]];
      rewrite Heq in Hk; by simplify_eq.
  - intros k n Hk. destruct (base_lookup k) as [(r & _ & <- & Heq)|[(_ & _ & Heq)|(_ & Heq)]];
      rewrite Heq in Hk; by simplify_eq.
  - intros k n u Hk Hu Hne.
    destruct (base_lookup k) as [(r & Hr & <- & Heq)|[(_ & _ & Heq)|(_ & Heq)]]; rewrite Heq in Hk;
      simplify_eq; simpl in Hu; [|set_solver].
    destruct (base_lookup u) as [(r' & _ & _ & ->)|[(_ & _ & ->)|(Hn & _)]]; [done..|].
    exfalso. apply Hn. right. right. unfold record_references. rewrite elem_of_concat_map.
    exists r. split; [done|]. unfold node_references. simpl.
    apply elem_of_cons in Hu as [->|Hu]; [|set_solver].
    destruct (is_empty _) eqn:E; gobool; [done|set_solver].
Qed.

Lemma base_dom k : k ∈ dom (base_nodes rootID records) ↔ graph_ids rootID records k.
Proof using Hnd.
  rewrite elem_of_dom. destruct (base_lookup k) as [(r & Hr & <- & ->)|[(_ & ? & ->)|(? & ->)]].
  - split; [|done]. intros _. right. left. apply list_elem_of_fmap. eauto.
  - split; done.
  - split; [by intros []|done].
Qed.

Lemma base_edge u v : graph_edge (base_nodes rootID records) u v ↔ precedes rootID records u v.
Proof using Hnd.
  unfold graph_edge, precedes. split.
  - destruct (base_lookup v) as [(r & Hr & <- & ->)|[(_ & _ & ->)|(_ & ->)]]; [| |done].
    + intros (Hu & (? & ? & ?) & _). exists r. simpl in Hu. rewrite elem_of_cons in Hu. tauto.
    + simpl. intros (Hu & (? & ? & ?) & _). set_solver.
  - intros (r & Hr & <- & Hu & Hne & Hne'). 
    destruct (base_lookup (rec_id r)) as [(r' & Hr' & Hid & Heq)|[(Hn & _)|(Hn & _)]].
    + assert (r' = r) as -> by (eapply (NoDup_fmap_key rec_id); eauto).
      rewrite Heq. assert (u ∈ in_ParentID (record_node r) :: in_Dependencies (record_node r)) as Hin
        by (rewrite elem_of_cons; tauto).
      split_and!; [done|split_and!; [done| |done]|eapply (ul_closed _ base_unlinked); eauto].
      unfold rooted in Hr. apply list_elem_of_filter in Hr. tauto.
    + exfalso. apply Hn, list_elem_of_fmap. eauto.
    + exfalso. apply Hn. right. left. apply list_elem_of_fmap. eauto.
Qed.
End base.

(** ** Positions *)

Lemma graph_positions_out i l m k :
  k ∉ l → graph_positions i l m !! k = m !! k.
Proof.
  revert i m. induction l as [|x l IH]; intros i m Hk; [done|]. rewrite not_elem_of_cons in Hk. cbn [graph_positions].
  rewrite IH by tauto. by rewrite lookup_insert_ne by naive_solver.
Qed.

Lemma graph_positions_in i l1 k l2 m :
  NoDup (l1 ++ k :: l2) →
  graph_positions i (l1 ++ k :: l2) m !! k = Some (i + Z.of_nat (length l1)).
Proof.
  revert i m. induction l1 as [|x l1 IH]; intros i m Hnd; cbn [app graph_positions];
    apply list.NoDup_cons in Hnd as [Hx Hnd].
  - rewrite graph_positions_out by done. rewrite lookup_insert_eq. f_equal. simpl. lia.
  - rewrite IH by done. f_equal. simpl. lia.
Qed.

Definition position (ordered : list string) (k : string) : Z :=
  default (-1) (graph_positions 0 ordered ∅ !! k).

Lemma position_split l1 k l2 :
  NoDup (l1 ++ k :: l2) → position (l1 ++ k :: l2) k = Z.of_nat (length l1).
Proof. intros Hnd. unfold position. rewrite graph_positions_in by done. simpl. lia. Qed.

Lemma position_before l u v :
  NoDup l → u ∈ l → v ∈ l → position l u < position l v → before l u v.
Proof.
  intros Hnd (u1 & u2 & Hu)%list_elem_of_split (v1 & v2 & Hv)%list_elem_of_split Hlt.
  exists v1, v2. split; [done|].
  assert (position l u = Z.of_nat (length u1)) as Hpu by (subst l; by apply position_split).
  assert (position l v = Z.of_nat (length v1)) as Hpv by (rewrite Hv in *; by apply position_split).
  assert (take (length v1) l = v1) as <- by (rewrite Hv; apply take_app_length).
  apply list_elem_of_lookup. exists (length u1). rewrite lookup_take_lt by lia.
  rewrite Hu. by apply list_lookup_middle.
Qed.

Lemma position_inj l u v : NoDup l → u ∈ l → v ∈ l → position l u = position l v → u = v.
Proof.
  intros Hnd (u1 & u2 & Hu)%list_elem_of_split (v1 & v2 & Hv)%list_elem_of_split Heq.
  assert (position l u = Z.of_nat (length u1)) as Hpu by (subst l; by apply position_split).
  assert (position l v = Z.of_nat (length v1)) as Hpv by (rewrite Hv in *; by apply position_split).
  assert (l !! length u1 = Some u) as H1 by (rewrite Hu; by apply list_lookup_middle).
  assert (l !! length v1 = Some v) as H2 by (rewrite Hv; by apply list_lookup_middle).
  assert (length u1 = length v1) as Hl by lia. rewrite Hl in H1. congruence.
Qed.

Lemma position_cmp_ok ordered : cmp_ok (λ x y, Z_Compare (position ordered x) (position ordered y)).
Proof. apply (cmp_ok_on _ Z_Compare), Z_Compare_ok. Qed.

(** Among the nodes of the order, [byGraphOrder] compares positions. *)
Lemma byGraphOrder_sort ordered compare l :
  NoDup ordered → (∀ x, x ∈ l → x ∈ ordered) →
  sortInvocationIDs (byGraphOrder (graph_positions 0 ordered ∅) compare) l =
  sortInvocationIDs (λ x y, if decide (x = y) then compare x y else Z_Compare (position ordered x) (position ordered y)) l.
Proof.
  intros Hnd Hl. apply SortFunc_pointwise. intros x y Hx%Hl Hy%Hl.
  assert (∀ z, z ∈ ordered → graph_positions 0 ordered ∅ !! z = Some (position ordered z)) as Hp.
  { intros z (z1 & z2 & ->)%list_elem_of_split. unfold position. by rewrite graph_positions_in. }
  unfold byGraphOrder. rewrite !Hp, Z_Compare_cases by done.
  destruct (decide (x = y)) as [->|Hne]; [by rewrite Z.eqb_refl|].
  destruct (Z.eqb_spec (position ordered x) (position ordered y)) as [He|He]; [|done].
  exfalso. by apply Hne, (position_inj ordered).
Qed.

Lemma byGraphOrder_unique ordered compare l :
  NoDup ordered → NoDup l → (∀ x, x ∈ l → x ∈ ordered) → (∀ x, compare x x = 0) →
  sortInvocationIDs (byGraphOrder (graph_positions 0 ordered ∅) compare) l =
  SortFunc (λ x y, Z_Compare (position ordered x) (position ordered y)) l.
Proof.
  intros Hnd Hndl Hl Hrefl. rewrite byGraphOrder_sort by done. apply SortFunc_pointwise.
  intros x y _ _. case_decide as Heq; [|done]. subst. rewrite Hrefl.
  rewrite Z_Compare_cases, Z.eqb_refl. done.
Qed.

Lemma position_sorted ordered l :
  NoDup ordered → NoDup l → (∀ x, x ∈ l → x ∈ ordered) →
  StronglySorted (before ordered) (SortFunc (λ x y, Z_Compare (position ordered x) (position ordered y)) l).
Proof.
  intros Hnd Hndl Hl. set (cmp := λ x y : string, _).
  pose proof (SortFunc_sorted cmp (position_cmp_ok ordered) l) as Hs.
  assert (NoDup (SortFunc cmp l)) as Hnds by by rewrite SortFunc_perm.
  assert (∀ x, x ∈ SortFunc cmp l → x ∈ ordered) as Hin by (intros x; rewrite elem_of_SortFunc; apply Hl).
  clear Hndl Hl. induction Hs as [|x k Hs IH Hall]; [constructor|].
  apply list.NoDup_cons in Hnds as [Hx Hnds]. constructor; [apply IH; [done|set_solver]|].
  rewrite list.Forall_forall in *. intros y Hy. apply position_before; [done|set_solver..|].
  specialize (Hall y Hy). unfold cmp_le, cmp in Hall. rewrite Z_Compare_cases in Hall.
  destruct (Z.eqb_spec (position ordered x) (position ordered y)) as [He|He].
  - exfalso. apply Hx. apply position_inj in He; [by subst|done|set_solver..].
  - destruct (Z.ltb_spec (position ordered x) (position ordered y)); [done|lia].
Qed.

(** ** The graph that is built *)

Definition final_nodes `{!MapOrder} (rootID : string) (records : list OperationRecord)
    (ordered : list string) : node_map :=
  let nodes := link_nodes (base_nodes rootID records) in
  sortInvocationGraphEdges nodes ordered (node_compare rootID nodes).

Definition final_graph (rootID : string) (nodes : node_map) (ordered : list string) : InvocationGraph :=
  let graphNodes := omap (λ id, nodes !! id) ordered in
  {| ig_RootID := rootID; ig_Nodes := graphNodes; ig_Operations := omap in_Record graphNodes |}.

Lemma omap_lookup_all {A} (f : A → string) (m : gmap string A) (l : list string) :
  (∀ k, k ∈ l → ∃ x, m !! k = Some x ∧ f x = k) → f <$> omap (λ k, m !! k) l = l.
Proof.
  induction l as [|k l IH]; intros Hl; [done|]. simpl.
  destruct (Hl k) as (x & -> & Hx); [set_solver|]. simpl. rewrite Hx. f_equal. apply IH. set_solver.
Qed.

Section build.
Context `{!MapOrder} (rootID : string) (records : list OperationRecord).
Context (Hroot : valid_name rootID) (Hnd : NoDup (rec_id <$> rooted rootID records)).

Abbreviation base := (base_nodes rootID records).
Abbreviation linked_nodes := (link_nodes base).

Lemma linked_same : same_nodes linked_nodes base.
Proof using Hnd.
  intros k. pose proof (link_nodes_lookup base (base_unlinked rootID records Hnd) k) as Hk.
  destruct (base !! k), (linked_nodes !! k); try done; constructor. apply Hk.
Qed.

Lemma linked_key k n : linked_nodes !! k = Some n → in_ID n = k.
Proof using Hnd.
  intros Hk. pose proof (linked_same k) as Hs. rewrite Hk in Hs. inversion Hs as [? n' Hc H1 H2|].
  apply core_fields in Hc as [-> _]. by apply (ul_key _ (base_unlinked rootID records Hnd)).
Qed.

Lemma linked_edge u v : graph_edge linked_nodes u v ↔ precedes rootID records u v.
Proof using Hnd. by rewrite (same_nodes_edge _ _ _ _ linked_same), base_edge. Qed.

Lemma build_unfold :
  BuildInvocationGraph rootID records =
  let? ordered := sortInvocationGraphNodes rootID linked_nodes (node_compare rootID linked_nodes) in
  Ok (final_graph rootID (final_nodes rootID records ordered) ordered).
Proof using Hroot Hnd.
  unfold BuildInvocationGraph. rewrite (proj2 (ValidateResourceName_Ok _ _ tt) Hroot). simpl.
  destruct (graph_records_cases rootID {[rootID := synthetic_node rootID]} records)
    as [(-> & _ & _)|(l1 & r & l2 & Heq & _ & [Hr|Hr])]; [done|..].
  - exfalso. rewrite lookup_singleton in Hr. case_decide; by destruct Hr.
  - exfalso. rewrite Heq, fmap_app, fmap_cons in Hnd. apply NoDup_app in Hnd as (_ & Hd & _).
    apply (Hd (rec_id r)); [done|left].
Qed.

Lemma build_cases :
  (acyclic (precedes rootID records) ∧ ∃ ordered,
     sortInvocationGraphNodes rootID linked_nodes (node_compare rootID linked_nodes) = Ok ordered ∧
     BuildInvocationGraph rootID records = Ok (final_graph rootID (final_nodes rootID records ordered) ordered) ∧
     NoDup ordered ∧ (∀ v, v ∈ ordered ↔ graph_ids rootID records v) ∧
     topological (precedes rootID records) ordered) ∨
  (¬ acyclic (precedes rootID records) ∧ BuildInvocationGraph rootID records = Err (cycle_error rootID)).
Proof using Hroot Hnd.
  rewrite build_unfold, <-(acyclic_ext _ _ linked_edge).
  destruct (sort_nodes_spec linked_nodes linked_key rootID (node_compare rootID linked_nodes))
    as [(Ha & ordered & -> & Ho & Hall & Ht)|[Ha ->]]; [left|by right].
  split; [done|]. exists ordered. split_and!; [done|done|done| |].
  - intros v. by rewrite Hall, (same_nodes_dom _ _ linked_same), base_dom.
  - intros u v Hv He. apply Ht; [done|]. by apply linked_edge.
Qed.

(** The node of the result with a given identity. *)
Lemma final_lookup ordered k :
  NoDup ordered → (∀ v, v ∈ ordered ↔ graph_ids rootID records v) →
  let pos := λ x y, Z_Compare (position ordered x) (position ordered y) in
  match base !! k with
  | None => final_nodes rootID records ordered !! k = None
  | Some n0 => ∃ children dependents,
      final_nodes rootID records ordered !! k =
        Some (with_dependents (with_children n0 (SortFunc pos children)) (SortFunc pos dependents)) ∧
      NoDup children ∧ (∀ v, v ∈ children ↔ ∃ c, base !! v = Some c ∧ in_ParentID c = k ∧ link_ok k v) ∧
      NoDup dependents ∧ (∀ v, v ∈ dependents ↔ ∃ c, base !! v = Some c ∧ k ∈ in_Dependencies c ∧ link_ok k v)
  end.
Proof using Hnd.
  intros Ho Hall pos. pose proof (link_nodes_lookup base (base_unlinked rootID records Hnd) k) as Hk.
  unfold final_nodes, sortInvocationGraphEdges. rewrite lookup_fmap.
  destruct (base !! k) as [n0|] eqn:Hb, (linked_nodes !! k) as [n|] eqn:Hl; try done.
  destruct Hk as (Hc & Hn1 & Hc1 & Hn2 & Hc2). exists (in_Children n), (in_Dependents n).
  split_and!; [|done|done|done|done]. simpl. f_equal.
  assert (∀ x, node_compare rootID linked_nodes x x = 0) as Hrefl.
  { intros x. pose proof (cmp_anti _ (node_compare_ok rootID linked_nodes) x x). lia. }
  assert (∀ v c, base !! v = Some c → v ∈ ordered) as Hin.
  { intros v c Hv. apply Hall, (base_dom rootID records Hnd), elem_of_dom. eauto. }
  rewrite !byGraphOrder_unique; [|done|done|intros x (c & Hx & _)%Hc2; eauto|done|done|done
    |intros x (c & Hx & _)%Hc1; eauto|done].
  apply core_fields in Hc as (H1 & H2 & H3 & H4 & H5).
  unfold with_dependents, with_children. simpl. by rewrite H1, H2, H3, H4, H5.
Qed.

Lemma final_ids ordered :
  NoDup ordered → (∀ v, v ∈ ordered ↔ graph_ids rootID records v) →
  in_ID <$> ig_Nodes (final_graph rootID (final_nodes rootID records ordered) ordered) = ordered.
Proof using Hnd.
  intros Ho Hall. apply omap_lookup_all. intros k Hk%Hall.
  pose proof (final_lookup ordered k Ho Hall) as Hl.
  apply (base_dom rootID records Hnd), elem_of_dom in Hk as [n0 Hn0]. rewrite Hn0 in Hl.
  destruct Hl as (ch & de & -> & _). eexists. split; [done|].
  apply (ul_key _ (base_unlinked rootID records Hnd) _ _ Hn0).
Qed.
End build.

Section results.
Context `{!MapOrder} (rootID : string) (records : list OperationRecord).

(** The node that is built for an identity, in terms of the records. *)
Lemma final_node_record ordered k n :
  NoDup (rec_id <$> rooted rootID records) →
  NoDup ordered → (∀ v, v ∈ ordered ↔ graph_ids rootID records v) →
  final_nodes rootID records ordered !! k = Some n →
  in_ID n = k ∧
  ((∃ r, r ∈ rooted rootID records ∧ rec_id r = k ∧ in_Record n = Some r ∧
      in_ParentID n = inv_ParentID (or_Invocation r) ∧
      in_Dependencies n = inv_Dependencies (or_Invocation r)) ∨
   (k ∉ rec_id <$> rooted rootID records ∧ in_Record n = None)).
Proof using Type.
  intros Hnd Ho Hall Hk. pose proof (final_lookup rootID records Hnd ordered k Ho Hall) as Hl.
  pose proof (base_lookup rootID records Hnd k) as Hb.
  destruct Hb as [(r & Hr & <- & Hb)|[(Hn & _ & Hb)|(_ & Hb)]]; rewrite Hb in Hl.
  - destruct Hl as (ch & de & Heq & _). rewrite Heq in Hk. simplify_eq. split; [done|]. left. by exists r.
  - destruct Hl as (ch & de & Heq & _). rewrite Heq in Hk. simplify_eq. split; [done|]. by right.
  - congruence.
Qed.

Lemma elem_of_final_graph ordered n :
  n ∈ ig_Nodes (final_graph rootID (final_nodes rootID records ordered) ordered) ↔
  ∃ k, k ∈ ordered ∧ final_nodes rootID records ordered !! k = Some n.
Proof using Type. simpl. by rewrite list_elem_of_omap. Qed.

Lemma records_sublist (L : list InvocationNode) :
  (∀ n r, n ∈ L → in_Record n = Some r → rec_id r = in_ID n) →
  rec_id <$> omap in_Record L `sublist_of` in_ID <$> L.
Proof using Type.
  induction L as [|n L IH]; intros HL; simpl; [constructor|].
  destruct (in_Record n) as [r|] eqn:Hr; simpl.
  - rewrite (HL n r) by (done || left). constructor. apply IH. intros. apply HL; [by right|done].
  - constructor. apply IH. intros. apply HL; [by right|done].
Qed.

Lemma final_operations ordered :
  NoDup (rec_id <$> rooted rootID records) →
  NoDup ordered → (∀ v, v ∈ ordered ↔ graph_ids rootID records v) →
  ig_Operations (final_graph rootID (final_nodes rootID records ordered) ordered) ≡ₚ rooted rootID records.
Proof using Type.
  intros Hnd Ho Hall. pose proof (final_ids rootID records Hnd ordered Ho Hall) as Hids.
  apply NoDup_Permutation.
  - apply (NoDup_fmap_1 rec_id). apply (sublist_NoDup _
      (in_ID <$> ig_Nodes (final_graph rootID (final_nodes rootID records ordered) ordered))); [by rewrite Hids|].
    apply records_sublist. intros n r (k & Hk & Hn)%elem_of_final_graph Hr.
    apply final_node_record in Hn as [-> [(r' & _ & <- & Hr' & _)|[_ Hr']]]; try done; congruence.
  - by apply (NoDup_fmap_1 rec_id).
  - intros r. cbn [final_graph ig_Operations]. rewrite list_elem_of_omap. setoid_rewrite list_elem_of_omap. split.
    + intros (n & (k & Hk & Hn) & Hr).
      apply final_node_record in Hn as [_ [(r' & Hr' & _ & Heq & _)|[_ Heq]]]; try done; congruence.
    + intros Hr. assert (rec_id r ∈ ordered) as Hin.
      { apply Hall. right. left. apply list_elem_of_fmap. eauto. }
      destruct (final_nodes rootID records ordered !! rec_id r) as [n|] eqn:Hn.
      * exists n. split; [by exists (rec_id r)|].
        apply final_node_record in Hn as [_ [(r' & Hr' & Hid & Heq & _)|[Hnot _]]]; [|exfalso|done..].
        -- rewrite Heq. f_equal. eapply (NoDup_fmap_key rec_id); eauto.
        -- apply Hnot, list_elem_of_fmap. eauto.
      * exfalso. pose proof (final_lookup rootID records Hnd ordered (rec_id r) Ho Hall) as Hl.
        apply Hall, (base_dom rootID records Hnd), elem_of_dom in Hin as [n0 Hn0]. rewrite Hn0 in Hl.
        destruct Hl as (ch & de & Heq & _). congruence.
Qed.

(** [BuildInvocationGraph] succeeds exactly when the root is a valid name, no two records of the
    root name the same node, and the parent and dependency references have no cycle (a node that
    names itself does not count); it reports a repeated node by its identity, and a cycle
    otherwise.  The ordering loop always ends. *)
Theorem invocation_graph_outcome :
  match BuildInvocationGraph rootID records with
  | Ok _ => valid_name rootID ∧ NoDup (rec_id <$> rooted rootID records) ∧ acyclic (precedes rootID records)
  | Err e =>
      (¬ valid_name rootID ∧ ValidateResourceName "invocation root" rootID = Err e) ∨
      (∃ l1 r l2, rooted rootID records = l1 ++ r :: l2 ∧ rec_id r ∈ rec_id <$> l1 ∧
         e = duplicate_node rootID (rec_id r)) ∨
      (NoDup (rec_id <$> rooted rootID records) ∧ ¬ acyclic (precedes rootID records) ∧
       e = cycle_error rootID)
  end.
Proof using Type.
  destruct (ValidateResourceName "invocation root" rootID) as [[]|e] eqn:Hv.
  - pose proof (proj1 (ValidateResourceName_Ok _ _ tt) Hv) as Hroot.
    destruct (graph_records_cases rootID {[rootID := synthetic_node rootID]} records)
      as [(_ & Hnd & _)|(l1 & r & l2 & Heq & Herr & Hdup)].
    + destruct (build_cases rootID records Hroot Hnd) as [(Ha & ordered & _ & -> & _)|[Ha ->]]; [done|].
      right. right. done.
    + unfold BuildInvocationGraph. rewrite Hv. simpl. rewrite Herr. simpl. right. left.
      exists l1, r, l2. split_and!; [done| |done]. destruct Hdup as [Hr|Hr]; [|done].
      exfalso. rewrite lookup_singleton in Hr. case_decide; by destruct Hr.
  - unfold BuildInvocationGraph. rewrite Hv. simpl. left. split; [|done].
    intros Hn%(ValidateResourceName_Ok "invocation root" rootID tt). congruence.
Qed.

Lemma build_ok_inv g :
  BuildInvocationGraph rootID records = Ok g →
  NoDup (rec_id <$> rooted rootID records) ∧ ∃ ordered,
    g = final_graph rootID (final_nodes rootID records ordered) ordered ∧
    NoDup ordered ∧ (∀ v, v ∈ ordered ↔ graph_ids rootID records v) ∧
    topological (precedes rootID records) ordered.
Proof using Type.
  intros Hg. assert (valid_name rootID) as Hroot.
  { unfold BuildInvocationGraph in Hg. inv_ok. by eapply ValidateResourceName_Ok. }
  assert (NoDup (rec_id <$> rooted rootID records)) as Hnd.
  { destruct (graph_records_cases rootID {[rootID := synthetic_node rootID]} records)
      as [(_ & Hnd & _)|(l1 & r & l2 & Heq & Herr & Hdup)]; [done|].
    unfold BuildInvocationGraph in Hg. rewrite Herr in Hg. inv_ok. }
  split; [done|].
  destruct (build_cases rootID records Hroot Hnd) as [(Ha & ordered & _ & Heq & Ho & Hall & Ht)|[_ Heq]];
    rewrite Heq in Hg; simplify_eq. eauto.
Qed.

(** C28. A built graph holds one node for the root, for every record of the root and for every name
    they refer to, each once, in an order in which every node stands after its parent and after all
    its dependencies; its operations are the records of the root, each once, and
    [OrderedOperations] returns them in that order. *)
Theorem invocation_graph_topological g :
  BuildInvocationGraph rootID records = Ok g →
  let ids := in_ID <$> ig_Nodes g in
  NoDup ids ∧ (∀ id, id ∈ ids ↔ graph_ids rootID records id) ∧
  topological (precedes rootID records) ids ∧
  ig_Operations g ≡ₚ rooted rootID records ∧ OrderedOperations g = ig_Operations g.
Proof using Type.
  intros (Hnd & ordered & -> & Ho & Hall & Ht)%build_ok_inv. cbv zeta.
  rewrite (final_ids rootID records Hnd ordered Ho Hall).
  split_and!; [done|done|done|by apply final_operations|].
  unfold OrderedOperations, final_graph. simpl. by destruct (omap _ ordered).
Qed.

(** The relations a built graph reports are those of the records, in both directions: a node
    lists as children exactly the nodes whose record names it as parent and as dependents exactly
    those whose record names it as dependency, each once and in graph order, and a node with a
    record carries that record's parent and dependencies. *)
Theorem invocation_graph_relations g node :
  BuildInvocationGraph rootID records = Ok g → node ∈ ig_Nodes g →
  let ids := in_ID <$> ig_Nodes g in
  let related (f : OperationRecord → Prop) (l : list string) :=
    StronglySorted (before ids) l ∧
    ∀ v, v ∈ l ↔ ∃ r, r ∈ rooted rootID records ∧ rec_id r = v ∧ f r ∧ in_ID node ≠ "" ∧ in_ID node ≠ v in
  related (λ r, inv_ParentID (or_Invocation r) = in_ID node) (in_Children node) ∧
  related (λ r, in_ID node ∈ inv_Dependencies (or_Invocation r)) (in_Dependents node) ∧
  (∀ r, in_Record node = Some r → r ∈ rooted rootID records ∧ rec_id r = in_ID node ∧
     in_ParentID node = inv_ParentID (or_Invocation r) ∧
     in_Dependencies node = inv_Dependencies (or_Invocation r)).
Proof using Type.
  intros (Hnd & ordered & -> & Ho & Hall & Ht)%build_ok_inv (k & Hk & Hn)%elem_of_final_graph. cbv zeta.
  rewrite (final_ids rootID records Hnd ordered Ho Hall).
  pose proof (final_lookup rootID records Hnd ordered k Ho Hall) as Hl.
  destruct (final_node_record ordered k node Hnd Ho Hall Hn) as [Hid Hrec].
  destruct (base_nodes rootID records !! k) as [n0|] eqn:Hb; [|congruence].
  destruct Hl as (ch & de & Heq & Hn1 & Hc1 & Hn2 & Hc2). rewrite Heq in Hn.
  assert (in_Children node = SortFunc (λ x y, Z_Compare (position ordered x) (position ordered y)) ch) as ->
    by (injection Hn as <-; done).
  assert (in_Dependents node = SortFunc (λ x y, Z_Compare (position ordered x) (position ordered y)) de) as ->
    by (injection Hn as <-; done).
  assert (∀ v c, base_nodes rootID records !! v = Some c → v ∈ ordered) as Hin.
  { intros v c Hv. apply Hall, (base_dom rootID records Hnd), elem_of_dom. eauto. }
  assert (∀ (f : InvocationNode → Prop) v, (f (synthetic_node v) → False ∨ k = "") →
    (∃ c, base_nodes rootID records !! v = Some c ∧ f c ∧ link_ok k v) ↔
    ∃ r, r ∈ rooted rootID records ∧ rec_id r = v ∧ f (record_node r) ∧ k ≠ "" ∧ k ≠ v) as Hrel.
  { intros f v Hsyn. unfold link_ok. split.
    - intros (c & Hv & Hf & ? & ? & ?).
      destruct (base_lookup rootID records Hnd v) as [(r & Hr & ? & Hb')|[(_ & _ & Hb')|(_ & Hb')]];
        rewrite Hb' in Hv; simplify_eq; [by exists r|]. by destruct (Hsyn Hf).
    - intros (r & Hr & <- & Hf & ? & ?). exists (record_node r). split_and!; [|done..| |done].
      + destruct (base_lookup rootID records Hnd (rec_id r)) as [(r' & Hr' & Hid' & Hb')|[(Hx & _)|(Hx & _)]].
        * rewrite Hb'. do 2 f_equal. eapply (NoDup_fmap_key rec_id); eauto.
        * exfalso. apply Hx, list_elem_of_fmap. eauto.
        * exfalso. apply Hx. right. left. apply list_elem_of_fmap. eauto.
      + unfold rooted in Hr. apply list_elem_of_filter in Hr. tauto. }
  rewrite Hid. split_and!.
  - apply position_sorted; [done|done|]. intros x (c & Hx & _)%Hc1. eauto.
  - intros v. rewrite elem_of_SortFunc, Hc1. apply (Hrel (λ c, in_ParentID c = k)). simpl. auto.
  - apply position_sorted; [done|done|]. intros x (c & Hx & _)%Hc2. eauto.
  - intros v. rewrite elem_of_SortFunc, Hc2. apply (Hrel (λ c, k ∈ in_Dependencies c)). simpl. set_solver.
  - intros r Hr. destruct Hrec as [(r' & Hr' & ? & ? & ? & ?)|[_ ?]]; [|congruence].
    assert (r' = r) as -> by congruence. done.
Qed.
End results.

(** ** Independence of the iteration order *)

Section independence.
Context (O1 O2 : MapOrder) (rootID : string) (records : list OperationRecord).
Context (Hnd : NoDup (rec_id <$> rooted rootID records)).

Lemma base_nodes_det : @base_nodes O1 rootID records = @base_nodes O2 rootID records.
Proof using Hnd.
  apply map_eq. intros k.
  destruct (@base_lookup O1 rootID records Hnd k) as [(r & Hr & Hk & ->)|[(Hk & Hg & ->)|(Hg & ->)]],
    (@base_lookup O2 rootID records Hnd k) as [(r' & Hr' & Hk' & ->)|[(Hk' & Hg' & ->)|(Hg' & ->)]];
    try done.
  - do 2 f_equal. eapply (NoDup_fmap_key rec_id); eauto. congruence.
  - exfalso. apply Hk', list_elem_of_fmap. eauto.
  - exfalso. apply Hg'. right. left. apply list_elem_of_fmap. eauto.
  - exfalso. apply Hk, list_elem_of_fmap. eauto.
  - exfalso. apply Hg. right. left. apply list_elem_of_fmap. eauto.
Qed.

Lemma linked_det :
  same_nodes (@link_nodes O1 (@base_nodes O1 rootID records)) (@link_nodes O2 (@base_nodes O2 rootID records)).
Proof using Hnd.
  intros k. pose proof (@linked_same O1 rootID records Hnd k) as H1.
  pose proof (@linked_same O2 rootID records Hnd k) as H2. rewrite base_nodes_det in H1 at 2.
  destruct H2 as [n2 n Hc2|].
  - inversion H1 as [n1 n' Hc1 Heq1 Heq2|]. constructor. congruence.
  - inversion H1. constructor.
Qed.

Lemma final_nodes_det ordered :
  NoDup ordered → (∀ v, v ∈ ordered ↔ graph_ids rootID records v) →
  @final_nodes O1 rootID records ordered = @final_nodes O2 rootID records ordered.
Proof using Hnd.
  intros Ho Hall. apply map_eq. intros k.
  pose proof (@final_lookup O1 rootID records Hnd ordered k Ho Hall) as H1.
  pose proof (@final_lookup O2 rootID records Hnd ordered k Ho Hall) as H2.
  cbv zeta in H1, H2. rewrite base_nodes_det in H1.
  assert (∀ v c, @base_nodes O2 rootID records !! v = Some c → v ∈ ordered) as Hin.
  { intros v c Hv. apply Hall, (@base_dom O2 rootID records Hnd), elem_of_dom. eauto. }
  destruct (@base_nodes O2 rootID records !! k) as [n0|]; [|by rewrite H1, H2].
  destruct H1 as (ch1 & de1 & -> & Hn1 & Hc1 & Hm1 & Hd1).
  destruct H2 as (ch2 & de2 & -> & Hn2 & Hc2 & Hm2 & Hd2).
  assert (ch1 ≡ₚ ch2) as Hch by (apply NoDup_Permutation; [done..|]; intros v; by rewrite Hc1, Hc2).
  assert (de1 ≡ₚ de2) as Hde by (apply NoDup_Permutation; [done..|]; intros v; by rewrite Hd1, Hd2).
  assert (∀ l : list string, (∀ x, x ∈ l → x ∈ ordered) → ∀ x y, x ∈ l → y ∈ l →
    Z_Compare (position ordered x) (position ordered y) = 0 → x = y) as Hinj.
  { intros l Hl x y Hx%Hl Hy%Hl. rewrite Z_Compare_cases.
    destruct (Z.eqb_spec (position ordered x) (position ordered y)); [intros _; by apply (position_inj ordered)|].
    by case_match. }
  rewrite (SortFunc_perm_eq _ (position_cmp_ok ordered) ch2 ch1), (SortFunc_perm_eq _ (position_cmp_ok ordered) de2 de1);
    [done| |done| |done]; apply Hinj.
  - intros x (c & Hx & _)%Hd2. eauto.
  - intros x (c & Hx & _)%Hc2. eauto.
Qed.
End independence.

(** The graph is a function of the records: whatever orders Go picks for its loops over the node
    maps, [BuildInvocationGraph] returns the same graph or the same error. *)
Theorem invocation_graph_deterministic (O1 O2 : MapOrder) rootID records :
  @BuildInvocationGraph O1 rootID records = @BuildInvocationGraph O2 rootID records.
Proof.
  destruct (ValidateResourceName "invocation root" rootID) as [[]|e] eqn:Hv;
    [|unfold BuildInvocationGraph; by rewrite Hv].
  pose proof (proj1 (ValidateResourceName_Ok _ _ tt) Hv) as Hroot.
  destruct (graph_records_cases rootID {[rootID := synthetic_node rootID]} records)
    as [(_ & Hnd & _)|(l1 & r & l2 & Heq & Herr & Hdup)];
    [|unfold BuildInvocationGraph; by rewrite Hv, Herr].
  pose proof (sort_nodes_det O1 O2 rootID _ _ (@linked_key O1 rootID records Hnd)
    (@linked_key O2 rootID records Hnd) (linked_det O1 O2 rootID records Hnd)) as Hsort.
  destruct (@build_cases O1 rootID records Hroot Hnd) as [(Ha & o1 & Hs1 & -> & Ho & Hall & _)|[Ha ->]],
    (@build_cases O2 rootID records Hroot Hnd) as [(Ha' & o2 & Hs2 & -> & _)|[Ha' ->]]; try tauto.
  rewrite Hs1, Hs2 in Hsort. injection Hsort as ->.
  by rewrite (final_nodes_det O1 O2 rootID records Hnd o2 Ho Hall).
Qed.

(** ** Witnesses *)

(** A workflow of three nodes under the root: [c] depends on [a] and [b]; [b] depends on [old], whose
    record is gone. *)
Definition ex_node_record (id parent : string) (dependencies : list string) (ordinal : Z) : OperationRecord :=
  let r := ex_record id in
  {| or_Operation := or_Operation r; or_Kind := or_Kind r; or_Resource := or_Resource r;
     or_ResourceRevision := or_ResourceRevision r; or_Input := or_Input r;
     or_Invocation :=
       {| inv_ID := id; inv_RootID := "root"; inv_ParentID := parent; inv_GroupID := "";
          inv_SessionID := "s"; inv_TargetSessionID := ""; inv_ExecutionID := "e";
          inv_Dependencies := dependencies; inv_Ordinal := ordinal |};
     or_Execution := None |}.

Definition ex_graph_records : list OperationRecord :=
  [ex_node_record "c" "root" ["b"; "a"] 2; ex_node_record "a" "root" [] 0;
   ex_node_record "b" "root" ["old"] 1].

Definition ex_graph : InvocationGraph :=
  get {| ig_RootID := ""; ig_Nodes := []; ig_Operations := [] |}
    (@BuildInvocationGraph forward_order "root" ex_graph_records).

Example ex_graph_order : in_ID <$> ig_Nodes ex_graph = ["root"; "a"; "old"; "b"; "c"].
Proof. vm_compute. reflexivity. Qed.

(** A cycle is refused under either iteration order. *)
Example ex_graph_cycle :
  @BuildInvocationGraph backward_order "root"
    [ex_node_record "a" "b" [] 0; ex_node_record "b" "root" ["a"] 1] = Err (cycle_error "root").
Proof. vm_compute. reflexivity. Qed.

Definition ex_b_node : InvocationNode :=
  match ig_Nodes ex_graph !! 3%nat with Some n => n | None => synthetic_node "" end.

Lemma invocation_graph_topological_witness :
  @BuildInvocationGraph forward_order "root" ex_graph_records = Ok ex_graph ∧
  topological (precedes "root" ex_graph_records) (in_ID <$> ig_Nodes ex_graph).
Proof.
  assert (@BuildInvocationGraph forward_order "root" ex_graph_records = Ok ex_graph) as H
    by (vm_compute; reflexivity).
  split; [exact H|]. apply (@invocation_graph_topological forward_order "root" ex_graph_records ex_graph H).
Defined.

Lemma invocation_graph_relations_witness :
  in_Dependents ex_b_node = ["c"] ∧
  StronglySorted (before (in_ID <$> ig_Nodes ex_graph)) (in_Children ex_b_node).
Proof.
  split; [vm_compute; reflexivity|].
  apply (@invocation_graph_relations forward_order "root" ex_graph_records ex_graph ex_b_node);
    [vm_compute; reflexivity|].
  apply (list_elem_of_lookup_2 _ 3%nat). vm_compute. reflexivity.
Defined.
