(* ===== verification/Delivery.v ===== *)
(** Deliveries: the aggregate of [sdk/delivery.go] and its lifecycle rules in
    [sdk/storage/internal/deliverymodel/model.go].  A delivery carries an event to one plugin
    subscription; it is leased for an attempt and then acknowledged, retried or dead-lettered. *)

From S2P Require Import Prelude GoText Names.

(** ** Data *)

Inductive DeliveryState :=
  | DeliveryPending
  | DeliveryLeased
  | DeliveryDelivered
  | DeliveryDeadLetter
  | DeliveryStateOther (text : string).

Record Event := {
  ev_ID : string;
  ev_Name : string;
  ev_SessionID : string;
  ev_Generation : Z;
  ev_Payload : string;
}.

Record Delivery := {
  dl_ID : string;
  dl_Sequence : Z;
  dl_Plugin : string;
  dl_PluginVersion : string;
  dl_Subscription : string;
  dl_ResourceRevision : string;
  dl_Partition : string;
  dl_Event : Event;
  dl_State : DeliveryState;
  dl_Attempt : Z;
  dl_AvailableAt : time;
  dl_LeaseToken : string;
  dl_LeaseExpiresAt : time;
  dl_LastError : string;
  dl_CreatedAt : time;
  dl_UpdatedAt : time;
}.

#[export] Instance DeliveryState_eq_dec : EqDecision DeliveryState.
Proof. solve_decision. Defined.
#[export] Instance Event_eq_dec : EqDecision Event.
Proof. solve_decision. Defined.
#[export] Instance Delivery_eq_dec : EqDecision Delivery.
Proof. solve_decision. Defined.

Definition delivery_state_text (state : DeliveryState) : string :=
  match state with
  | DeliveryPending => "pending"
  | DeliveryLeased => "leased"
  | DeliveryDelivered => "delivered"
  | DeliveryDeadLetter => "dead_letter"
  | DeliveryStateOther text => text
  end.

Definition Delivery_Terminal (delivery : Delivery) : bool :=
  match dl_State delivery with
  | DeliveryDelivered | DeliveryDeadLetter => true
  | _ => false
  end.

(** ** [deliverymodel] *)

Definition dl_NormalizeMutationTime (wall value : time) : time :=
  if IsZero value then wall else value.

Definition dl_ValidateLeaseDuration (ttl : duration) : result unit :=
  fail_if ttl <=? 0 with errors_New "delivery lease duration must be positive";
  Ok tt.

Definition dl_ValidateNew (delivery : Delivery) : result unit :=
  fail_if is_empty (dl_ID delivery) with errors_New "delivery ID is empty";
  try? ValidateResourceName "plugin" (dl_Plugin delivery);
  try? ValidateResourceName "subscription" (dl_Subscription delivery);
  fail_if is_empty (ev_ID (dl_Event delivery)) || is_empty (ev_Name (dl_Event delivery)) with
    errors_New "delivery event ID and name are required";
  fail_if negb (json_Valid (ev_Payload (dl_Event delivery))) with
    errors_New "delivery event payload is invalid JSON";
  Ok tt.

Definition dl_ValidateLoaded (delivery : Delivery) : result unit :=
  try? dl_ValidateNew delivery;
  fail_if dl_Attempt delivery <? 0 with errors_New "delivery attempt cannot be negative";
  match dl_State delivery with
  | DeliveryLeased =>
      fail_if (dl_Attempt delivery =? 0) || is_empty (dl_LeaseToken delivery)
              || IsZero (dl_LeaseExpiresAt delivery) with
        errors_New "leased delivery has an invalid lease";
      Ok tt
  | DeliveryPending | DeliveryDelivered | DeliveryDeadLetter =>
      fail_if negb (is_empty (dl_LeaseToken delivery)) || negb (IsZero (dl_LeaseExpiresAt delivery)) with
        errors_New "unleased delivery contains a lease";
      Ok tt
  | DeliveryStateOther text => Err (Errorf "delivery has invalid state %q" [AStr text])
  end.

(** [Partition]: the explicit partition, or the subscription of the plugin. *)
Definition dl_partition (delivery : Delivery) : string :=
  if is_empty (dl_Partition delivery)
  then dl_Plugin delivery +:+ "/" +:+ dl_Subscription delivery
  else dl_Partition delivery.

Definition dl_PrepareNew (delivery : Delivery) (now wall : time) : result Delivery :=
  try? dl_ValidateNew delivery;
  let now := dl_NormalizeMutationTime wall now in
  let createdAt := if IsZero (dl_CreatedAt delivery) then now else dl_CreatedAt delivery in
  let availableAt := if IsZero (dl_AvailableAt delivery) then createdAt else dl_AvailableAt delivery in
  Ok {| dl_ID := dl_ID delivery; dl_Sequence := dl_Sequence delivery;
        dl_Plugin := dl_Plugin delivery; dl_PluginVersion := dl_PluginVersion delivery;
        dl_Subscription := dl_Subscription delivery;
        dl_ResourceRevision := dl_ResourceRevision delivery;
        dl_Partition := dl_partition delivery; dl_Event := dl_Event delivery;
        dl_State := DeliveryPending; dl_Attempt := 0; dl_AvailableAt := availableAt;
        dl_LeaseToken := ""; dl_LeaseExpiresAt := zeroTime;
        dl_LastError := dl_LastError delivery;
        dl_CreatedAt := createdAt; dl_UpdatedAt := createdAt |}.

Definition dl_SameIdentity (left right : Delivery) : bool :=
  bool_decide (dl_ID left = dl_ID right) &&
  bool_decide (dl_Plugin left = dl_Plugin right) &&
  bool_decide (dl_PluginVersion left = dl_PluginVersion right) &&
  bool_decide (dl_Subscription left = dl_Subscription right) &&
  bool_decide (dl_ResourceRevision left = dl_ResourceRevision right) &&
  bool_decide (dl_Partition left = dl_Partition right) &&
  bool_decide (ev_ID (dl_Event left) = ev_ID (dl_Event right)) &&
  bool_decide (ev_Name (dl_Event left) = ev_Name (dl_Event right)) &&
  bool_decide (ev_SessionID (dl_Event left) = ev_SessionID (dl_Event right)) &&
  bool_decide (ev_Generation (dl_Event left) = ev_Generation (dl_Event right)) &&
  bool_decide (ev_Payload (dl_Event left) = ev_Payload (dl_Event right)).

(** The loop of [PrepareNewBatch], with the map [byID] of the deliveries prepared so far. *)
Fixpoint dl_prepare_loop (byID : gmap string Delivery) (deliveries : list Delivery) (now wall : time)
    : result (list Delivery) :=
  match deliveries with
  | [] => Ok []
  | delivery :: rest =>
      let? normalized := dl_PrepareNew delivery now wall in
      fail_if (match byID !! dl_ID normalized with
               | Some existing => negb (dl_SameIdentity existing normalized)
               | None => false
               end) with
        Errorf "delivery %q appears more than once with different identity" [AStr (dl_ID normalized)];
      let? prepared := dl_prepare_loop (<[dl_ID normalized := normalized]> byID) rest now wall in
      Ok (normalized :: prepared)
  end.

Definition dl_PrepareNewBatch (deliveries : list Delivery) (now wall : time) : result (list Delivery) :=
  dl_prepare_loop ∅ deliveries now wall.

Definition dl_Compare (left right : Delivery) : Z :=
  let by_time :=
    cmp_or (Z_Compare (dl_AvailableAt left) (dl_AvailableAt right))
   (cmp_or (Z_Compare (dl_CreatedAt left) (dl_CreatedAt right))
           (strings_Compare (dl_ID left) (dl_ID right))) in
  if negb (dl_Sequence left =? 0) || negb (dl_Sequence right =? 0) then
    if dl_Sequence left <? dl_Sequence right then -1
    else if dl_Sequence left >? dl_Sequence right then 1
    else by_time
  else by_time.

Definition dl_LeaseAvailable (delivery : Delivery) (now wall : time) : bool :=
  let now := dl_NormalizeMutationTime wall now in
  match dl_State delivery with
  | DeliveryPending => negb (After (dl_AvailableAt delivery) now)
  | DeliveryLeased => negb (After (dl_LeaseExpiresAt delivery) now)
  | _ => false
  end.

Definition dl_Lease (delivery : Delivery) (token : string) (now : time) (ttl : duration) (wall : time)
    : result Delivery :=
  try? dl_ValidateLeaseDuration ttl;
  fail_if is_empty token with errors_New "delivery lease token is empty";
  let now := dl_NormalizeMutationTime wall now in
  fail_if negb (dl_LeaseAvailable delivery now wall) with Sentinel ErrNoDelivery;
  let leased :=
    {| dl_ID := dl_ID delivery; dl_Sequence := dl_Sequence delivery;
       dl_Plugin := dl_Plugin delivery; dl_PluginVersion := dl_PluginVersion delivery;
       dl_Subscription := dl_Subscription delivery;
       dl_ResourceRevision := dl_ResourceRevision delivery;
       dl_Partition := dl_Partition delivery; dl_Event := dl_Event delivery;
       dl_State := DeliveryLeased; dl_Attempt := i64 (dl_Attempt delivery + 1);
       dl_AvailableAt := dl_AvailableAt delivery;
       dl_LeaseToken := token; dl_LeaseExpiresAt := time_Add now ttl;
       dl_LastError := dl_LastError delivery;
       dl_CreatedAt := dl_CreatedAt delivery; dl_UpdatedAt := now |} in
  try? dl_ValidateLoaded leased;
  Ok leased.

Definition dl_FinishLease (delivery : Delivery) (token : string) (now : time) (state : DeliveryState)
    (availableAt : time) (lastError : string) (wall : time) : result Delivery :=
  let now := dl_NormalizeMutationTime wall now in
  fail_if bool_decide (dl_State delivery ≠ DeliveryLeased)
          || bool_decide (dl_LeaseToken delivery ≠ token) with
    Wrapf "%w: %s" [AStr (dl_ID delivery)] (Sentinel ErrDeliveryLease);
  fail_if (match state with
           | DeliveryPending | DeliveryDelivered | DeliveryDeadLetter => false
           | _ => true
           end) with
    Errorf "leased delivery cannot transition to %q" [AStr (delivery_state_text state)];
  let finished :=
    {| dl_ID := dl_ID delivery; dl_Sequence := dl_Sequence delivery;
       dl_Plugin := dl_Plugin delivery; dl_PluginVersion := dl_PluginVersion delivery;
       dl_Subscription := dl_Subscription delivery;
       dl_ResourceRevision := dl_ResourceRevision delivery;
       dl_Partition := dl_Partition delivery; dl_Event := dl_Event delivery;
       dl_State := state; dl_Attempt := dl_Attempt delivery;
       dl_AvailableAt := availableAt;
       dl_LeaseToken := ""; dl_LeaseExpiresAt := zeroTime;
       dl_LastError :=
         if bool_decide (state ≠ DeliveryDelivered) || negb (is_empty lastError)
         then lastError else dl_LastError delivery;
       dl_CreatedAt := dl_CreatedAt delivery; dl_UpdatedAt := now |} in
  try? dl_ValidateLoaded finished;
  Ok finished.

(** ** Derived notions and lemmas *)

Definition dl_valid (delivery : Delivery) : Prop := dl_ValidateLoaded delivery = Ok tt.

(** What no transition changes. *)
Definition dl_identity (d : Delivery) :=
  (dl_ID d, dl_Sequence d, dl_Plugin d, dl_PluginVersion d, dl_Subscription d,
   dl_ResourceRevision d, dl_Partition d, dl_Event d, dl_CreatedAt d).

Lemma dl_ValidateNew_identity d d' :
  dl_identity d = dl_identity d' → dl_ValidateNew d = dl_ValidateNew d'.
Proof. unfold dl_identity, dl_ValidateNew. intros [= -> _ -> _ -> _ _ -> _]. done. Qed.

Lemma dl_partition_nonempty d : dl_ValidateNew d = Ok tt → dl_partition d ≠ "".
Proof.
  unfold dl_ValidateNew, dl_partition. intros H. inv_ok.
  destruct (is_empty (dl_Partition d)) eqn:E; gobool; [|done].
  match goal with H : ValidateResourceName _ (dl_Plugin d) = _ |- _ =>
    apply ValidateResourceName_Ok, valid_name_nonempty in H end.
  by destruct (dl_Plugin d).
Qed.

(** Preparing gives a valid pending delivery of the same identity, in its partition. *)
Lemma dl_PrepareNew_spec d now wall d' :
  dl_PrepareNew d now wall = Ok d' →
  dl_valid d' ∧ dl_State d' = DeliveryPending ∧ dl_Attempt d' = 0 ∧ dl_ID d' = dl_ID d ∧
  dl_Partition d' = dl_partition d ∧ dl_partition d' = dl_partition d ∧
  dl_ValidateNew d = Ok tt.
Proof.
  unfold dl_PrepareNew. intros H. apply bind_Ok in H as ([] & Hv & [= <-]).
  pose proof (dl_partition_nonempty _ Hv) as Hne. split_and!; try done.
  - unfold dl_valid, dl_ValidateLoaded, dl_ValidateNew in *. simpl. by rewrite Hv.
  - unfold dl_partition at 1. simpl. by rewrite (proj2 (is_empty_false _) Hne).
Qed.

Lemma dl_SameIdentity_true l r :
  dl_SameIdentity l r = true ↔
  dl_ID l = dl_ID r ∧ dl_Plugin l = dl_Plugin r ∧ dl_PluginVersion l = dl_PluginVersion r ∧
  dl_Subscription l = dl_Subscription r ∧ dl_ResourceRevision l = dl_ResourceRevision r ∧
  dl_Partition l = dl_Partition r ∧ dl_Event l = dl_Event r.
Proof.
  unfold dl_SameIdentity. gobool. split.
  - intros. destruct l as [??????? []], r as [??????? []]; simpl in *. naive_solver.
  - intros (-> & -> & -> & -> & -> & -> & ->). tauto.
Qed.

Lemma dl_Compare_lex l r :
  dl_Compare l r =
  cmp_or (Z_Compare (dl_Sequence l) (dl_Sequence r))
 (cmp_or (Z_Compare (dl_AvailableAt l) (dl_AvailableAt r))
 (cmp_or (Z_Compare (dl_CreatedAt l) (dl_CreatedAt r))
         (strings_Compare (dl_ID l) (dl_ID r)))).
Proof.
  unfold dl_Compare. set (c := cmp_or (Z_Compare (dl_AvailableAt l) _) _). clearbody c.
  unfold cmp_or at 1, Z_Compare.
  destruct (Z.eqb_spec (dl_Sequence l) 0), (Z.eqb_spec (dl_Sequence r) 0),
    (Z.ltb_spec (dl_Sequence l) (dl_Sequence r)), (Z.compare_spec (dl_Sequence l) (dl_Sequence r)),
    (dl_Sequence l >? dl_Sequence r) eqn:?; simpl; lia.
Qed.

Lemma dl_Compare_ok : cmp_ok dl_Compare.
Proof.
  assert (cmp_ok (λ l r, cmp_or (Z_Compare (dl_Sequence l) (dl_Sequence r))
    (cmp_or (Z_Compare (dl_AvailableAt l) (dl_AvailableAt r))
    (cmp_or (Z_Compare (dl_CreatedAt l) (dl_CreatedAt r))
            (strings_Compare (dl_ID l) (dl_ID r)))))) as [H1 H2].
  { apply cmp_ok_or; [apply (cmp_ok_on dl_Sequence), Z_Compare_ok|].
    apply cmp_ok_or; [apply (cmp_ok_on dl_AvailableAt), Z_Compare_ok|].
    apply cmp_ok_or; [apply (cmp_ok_on dl_CreatedAt), Z_Compare_ok|].
    apply (cmp_ok_on dl_ID), strings_Compare_ok. }
  split; [intros x y|intros x y z]; rewrite !dl_Compare_lex; auto. apply H2.
Qed.

Lemma dl_Compare_zero l r : dl_Compare l r = 0 → dl_ID l = dl_ID r.
Proof. rewrite dl_Compare_lex, !cmp_or_zero, strings_Compare_eq. tauto. Qed.

Lemma dl_Compare_sequence l r : dl_Compare l r ≤ 0 → dl_Sequence l ≤ dl_Sequence r.
Proof.
  rewrite dl_Compare_lex. set (c := cmp_or (Z_Compare (dl_AvailableAt l) _) _). clearbody c.
  unfold cmp_or, Z_Compare.
  destruct (Z.compare_spec (dl_Sequence l) (dl_Sequence r)); simpl; lia.
Qed.

(** The two ways a stored delivery changes. *)
Inductive dl_step : list string → Delivery → Delivery → Prop :=
  | dl_step_Lease d token now ttl wall d' :
      0 ≤ now → 0 < wall → dl_Lease d token now ttl wall = Ok d' → dl_step [token] d d'
  | dl_step_Finish d token now state availableAt lastError wall d' :
      dl_FinishLease d token now state availableAt lastError wall = Ok d' → dl_step [] d d'.

Lemma dl_NormalizeMutationTime_idem wall now :
  dl_NormalizeMutationTime wall (dl_NormalizeMutationTime wall now) = dl_NormalizeMutationTime wall now.
Proof.
  unfold dl_NormalizeMutationTime. destruct (IsZero now) eqn:?, (IsZero wall) eqn:?; simpl;
    rewrite ?Heqb, ?Heqb0; done.
Qed.

Lemma dl_Lease_Ok d token now ttl wall d' :
  dl_Lease d token now ttl wall = Ok d' →
  dl_valid d' ∧ dl_identity d' = dl_identity d ∧ dl_State d' = DeliveryLeased ∧
  dl_LeaseToken d' = token ∧ dl_Attempt d' = i64 (dl_Attempt d + 1) ∧ dl_LastError d' = dl_LastError d ∧
  dl_LeaseExpiresAt d' = dl_NormalizeMutationTime wall now + ttl ∧ 0 < ttl ∧ token ≠ "" ∧
  dl_LeaseAvailable d now wall = true.
Proof.
  unfold dl_Lease, dl_ValidateLeaseDuration. intros H. apply bind_Ok in H as ([] & Ht & H).
  destruct (is_empty token) eqn:E; [done|]. destruct (negb _) eqn:Ha in H; [done|].
  apply bind_Ok in H as ([] & Hv & [= <-]). inv_ok. gobool. split_and!; try done.
  unfold dl_LeaseAvailable in *. by rewrite dl_NormalizeMutationTime_idem in Ha.
Qed.

Lemma dl_FinishLease_Ok d token now state availableAt lastError wall d' :
  dl_FinishLease d token now state availableAt lastError wall = Ok d' →
  dl_valid d' ∧ dl_identity d' = dl_identity d ∧ dl_State d' = state ∧
  dl_LeaseToken d' = "" ∧ dl_Attempt d' = dl_Attempt d ∧
  dl_State d = DeliveryLeased ∧ dl_LeaseToken d = token ∧ state ≠ DeliveryLeased ∧
  dl_UpdatedAt d' = dl_NormalizeMutationTime wall now.
Proof.
  unfold dl_FinishLease. intros H. destruct (bool_decide _ || bool_decide _) eqn:E; [done|]. gobool.
  destruct E as [E1 E2]. apply dec_stable in E1, E2.
  destruct state; try done; apply bind_Ok in H as ([] & Hv & [= <-]); by split_and!.
Qed.

Lemma dl_step_spec tokens d d' :
  dl_step tokens d d' →
  dl_valid d' ∧ dl_identity d' = dl_identity d ∧ Delivery_Terminal d = false ∧
  dl_Attempt d' ≤ Z.max (dl_Attempt d) (i64 (dl_Attempt d + 1)) ∧
  (dl_State d' = DeliveryLeased → tokens = [dl_LeaseToken d']).
Proof.
  intros [d1 token now ttl wall d2 _ _ H|d1 token now state avail err wall d2 H].
  - apply dl_Lease_Ok in H as (Hv & Hi & Hs & Ht & Ha & _ & _ & _ & _ & Hav). split_and!; try done.
    + unfold dl_LeaseAvailable in Hav. unfold Delivery_Terminal. by destruct (dl_State d1).
    + lia.
    + intros _. by rewrite Ht.
  - apply dl_FinishLease_Ok in H as (Hv & Hi & Hs & Ht & Ha & Hl & _ & Hns & _). split_and!; try done.
    + unfold Delivery_Terminal. by rewrite Hl.
    + lia.
    + intros ?. congruence.
Qed.

Create HintDb delivery.
#[export] Hint Resolve dl_Compare_ok : delivery.
#[export] Hint Constructors dl_step : delivery.
