(* ===== verification/DeliveryStore.v ===== *)
(** The in-memory delivery store of [sdk/storage/delivery_memory.go] and the queue it implements:
    one first-in first-out queue per partition, whose head is the only delivery that can be leased.
    Every method runs under the store's lock, so it is one atomic step; a method that returns an
    error leaves the store as it was. *)

From S2P Require Import Prelude GoText Names Delivery Paging.

Record memoryDeliveryStore := {
  deliveries : gmap string Delivery;
  nextSequence : Z;
}.

Definition newMemoryDeliveryStore : memoryDeliveryStore := {| deliveries := ∅; nextSequence := 0 |}.

Abbreviation dstore := memoryDeliveryStore (only parsing).

(** The first loop of [Enqueue]: no prepared delivery contradicts a stored one. *)
Fixpoint dstore_check (st : dstore) (prepared : list Delivery) : result unit :=
  match prepared with
  | [] => Ok tt
  | delivery :: rest =>
      match deliveries st !! dl_ID delivery with
      | Some existing =>
          if dl_SameIdentity existing delivery then dstore_check st rest
          else Err (Errorf "delivery %q already exists with different identity" [AStr (dl_ID delivery)])
      | None => dstore_check st rest
      end
  end.

Definition with_sequence (d : Delivery) (sequence : Z) : Delivery :=
  {| dl_ID := dl_ID d; dl_Sequence := sequence; dl_Plugin := dl_Plugin d;
     dl_PluginVersion := dl_PluginVersion d; dl_Subscription := dl_Subscription d;
     dl_ResourceRevision := dl_ResourceRevision d; dl_Partition := dl_Partition d;
     dl_Event := dl_Event d; dl_State := dl_State d; dl_Attempt := dl_Attempt d;
     dl_AvailableAt := dl_AvailableAt d; dl_LeaseToken := dl_LeaseToken d;
     dl_LeaseExpiresAt := dl_LeaseExpiresAt d; dl_LastError := dl_LastError d;
     dl_CreatedAt := dl_CreatedAt d; dl_UpdatedAt := dl_UpdatedAt d |}.

(** The body of the second loop of [Enqueue]. *)
Definition dstore_insert (st : dstore) (delivery : Delivery) : dstore :=
  match deliveries st !! dl_ID delivery with
  | Some _ => st
  | None =>
      let sequence := u64 (nextSequence st + 1) in
      {| deliveries := <[dl_ID delivery := with_sequence delivery sequence]> (deliveries st);
         nextSequence := sequence |}
  end.

Definition dstore_Enqueue (st : dstore) (ctx : context) (batch : list Delivery) (wall : time)
    : result dstore :=
  try? ctx_Err ctx;
  let? prepared := dl_PrepareNewBatch batch wall wall in
  try? dstore_check st prepared;
  Ok (foldl dstore_insert st prepared).

(** The body of the loop of [Lease] that finds the head of every partition. *)
Definition dstore_head (heads : gmap string Delivery) (delivery : Delivery) : gmap string Delivery :=
  if Delivery_Terminal delivery then heads else
  let partition := dl_partition delivery in
  match heads !! partition with
  | Some head =>
      if dl_Sequence delivery <? dl_Sequence head then <[partition := delivery]> heads else heads
  | None => <[partition := delivery]> heads
  end.

Definition dstore_heads (iteration : list Delivery) : gmap string Delivery :=
  foldl dstore_head ∅ iteration.

Definition dstore_candidates (heads : list Delivery) (now wall : time) : list Delivery :=
  filter (λ delivery, dl_LeaseAvailable delivery now wall = true) heads.

Definition dstore_Lease (st : dstore) (ctx : context) (now : time) (ttl : duration) (wall : time)
    (e : entropy) : result (Delivery * dstore) :=
  try? ctx_Err ctx;
  try? dl_ValidateLeaseDuration ttl;
  let now := dl_NormalizeMutationTime wall now in
  let heads := dstore_heads (map_values (deliveries st)) in
  match SortFunc dl_Compare (dstore_candidates (map_values heads) now wall) with
  | [] => Err (Sentinel ErrNoDelivery)
  | delivery :: _ =>
      let? delivery := dl_Lease delivery (NewID e) now ttl wall in
      Ok (delivery, {| deliveries := <[dl_ID delivery := delivery]> (deliveries st);
                       nextSequence := nextSequence st |})
  end.

Definition dstore_transition (st : dstore) (ctx : context) (id token : string) (now : time)
    (state : DeliveryState) (availableAt : time) (lastError : string) (wall : time) : result dstore :=
  try? ctx_Err ctx;
  match deliveries st !! id with
  | None => Err (Wrapf "%w: %s" [AStr id] (Sentinel ErrDeliveryLease))
  | Some delivery =>
      let? delivery := dl_FinishLease delivery token now state availableAt lastError wall in
      Ok {| deliveries := <[id := delivery]> (deliveries st); nextSequence := nextSequence st |}
  end.

Definition dstore_Ack (st : dstore) (ctx : context) (id token : string) (now wall : time) : result dstore :=
  dstore_transition st ctx id token now DeliveryDelivered zeroTime "" wall.

Definition dstore_Retry (st : dstore) (ctx : context) (id token : string) (availableAt : time)
    (lastError : string) (wall : time) : result dstore :=
  dstore_transition st ctx id token wall DeliveryPending availableAt lastError wall.

Definition dstore_DeadLetter (st : dstore) (ctx : context) (id token : string) (now : time)
    (lastError : string) (wall : time) : result dstore :=
  dstore_transition st ctx id token now DeliveryDeadLetter zeroTime lastError wall.

Definition dstore_List (st : dstore) (ctx : context) : result (list Delivery) :=
  try? ctx_Err ctx;
  Ok (SortFunc dl_Compare (map_values (deliveries st))).

Definition dstore_ListNonTerminal (st : dstore) (ctx : context) : result (list Delivery) :=
  try? ctx_Err ctx;
  Ok (SortFunc dl_Compare (filter (λ d, Delivery_Terminal d = false) (map_values (deliveries st)))).

Definition dstore_ListPage (st : dstore) (ctx : context) (request : PageRequest)
    : result (list Delivery * string) :=
  let? items := dstore_List st ctx in
  pageWindow dl_ID items request.

Definition dl_purgeable (before : time) (delivery : Delivery) : bool :=
  Delivery_Terminal delivery && Before (dl_UpdatedAt delivery) before.

Definition dstore_PurgeTerminal (st : dstore) (ctx : context) (before : time) : result (Z * dstore) :=
  try? ctx_Err ctx;
  fail_if IsZero before with errors_New "delivery purge cutoff is required";
  let purged := filter (λ entry, dl_purgeable before entry.2 = true) (map_to_list (deliveries st)) in
  Ok (Z.of_nat (length purged),
      {| deliveries := foldr (λ entry m, delete entry.1 m) (deliveries st) purged;
         nextSequence := nextSequence st |}).

(** ** Behaviour as a transition system

    The calls that change the store, each with the lease tokens it mints and its weight: 1,
    or the number of deliveries of an enqueued batch. *)

Inductive dstore_step : list string → nat → dstore → dstore → Prop :=
  | dstep_Enqueue st ctx batch wall st' :
      dstore_Enqueue st ctx batch wall = Ok st' → dstore_step [] (length batch) st st'
  | dstep_Lease st ctx now ttl wall e d st' :
      0 ≤ now → 0 < wall →
      dstore_Lease st ctx now ttl wall e = Ok (d, st') → dstore_step [NewID e] 1 st st'
  | dstep_Ack st ctx id token now wall st' :
      dstore_Ack st ctx id token now wall = Ok st' → dstore_step [] 1 st st'
  | dstep_Retry st ctx id token availableAt lastError wall st' :
      dstore_Retry st ctx id token availableAt lastError wall = Ok st' → dstore_step [] 1 st st'
  | dstep_DeadLetter st ctx id token now lastError wall st' :
      dstore_DeadLetter st ctx id token now lastError wall = Ok st' → dstore_step [] 1 st st'.

Inductive dstore_purge : dstore → dstore → Prop :=
  | dstep_Purge st ctx before n st' :
      dstore_PurgeTerminal st ctx before = Ok (n, st') → dstore_purge st st'.

Inductive dstore_run : nat → list string → dstore → dstore → Prop :=
  | drun_refl st : dstore_run 0 [] st st
  | drun_step n k minted tokens st st' st'' :
      dstore_run n minted st st' → dstore_step tokens k st' st'' →
      dstore_run (k + n) (tokens ++ minted) st st''.

(** [dstore_reach n st]: [st] is the store after calls of total weight [n] and any number of
    purges. *)
Inductive dstore_reach : nat → dstore → Prop :=
  | dreach_new : dstore_reach 0 newMemoryDeliveryStore
  | dreach_step n k tokens st st' :
      dstore_reach n st → dstore_step tokens k st st' → dstore_reach (k + n) st'
  | dreach_purge n st st' : dstore_reach n st → dstore_purge st st' → dstore_reach n st'.

(** ** The store invariant *)

Record dstore_wf (n : Z) (st : dstore) : Prop := {
  dwf_id id d : deliveries st !! id = Some d → dl_ID d = id;
  dwf_valid id d : deliveries st !! id = Some d → dl_valid d;
  dwf_attempt id d : deliveries st !! id = Some d → 0 ≤ dl_Attempt d ≤ n;
  dwf_next : 0 ≤ nextSequence st ≤ n;
  dwf_sequence id d : deliveries st !! id = Some d → 0 < dl_Sequence d ≤ nextSequence st;
  dwf_unique id1 d1 id2 d2 : deliveries st !! id1 = Some d1 → deliveries st !! id2 = Some d2 →
    dl_Sequence d1 = dl_Sequence d2 → id1 = id2;
  (* only the oldest unfinished delivery of a partition is ever leased *)
  dwf_head id1 d1 id2 d2 : deliveries st !! id1 = Some d1 → deliveries st !! id2 = Some d2 →
    dl_State d1 = DeliveryLeased → Delivery_Terminal d2 = false →
    dl_partition d1 = dl_partition d2 → dl_Sequence d1 ≤ dl_Sequence d2;
}.

(** ** Lemmas *)

(** *** Heads *)

Definition is_head (l : list Delivery) (partition : string) (h : Delivery) : Prop :=
  h ∈ l ∧ Delivery_Terminal h = false ∧ dl_partition h = partition ∧
  ∀ d, d ∈ l → Delivery_Terminal d = false → dl_partition d = partition → dl_Sequence h ≤ dl_Sequence d.

Lemma dstore_heads_spec l partition :
  match dstore_heads l !! partition with
  | Some h => is_head l partition h
  | None => ∀ d, d ∈ l → Delivery_Terminal d = false → dl_partition d ≠ partition
  end.
Proof.
  unfold dstore_heads, is_head. induction l as [|x l IH] using rev_ind; [set_solver|].
  rewrite foldl_app. cbn [foldl]. set (m := foldl dstore_head ∅ l) in *. clearbody m.
  unfold dstore_head. destruct (Delivery_Terminal x) eqn:Hx.
  { destruct (m !! partition) as [h|].
    - destruct IH as (? & ? & ? & Hmin). split_and!; [set_solver|done..|].
      intros d [Hin| ->]%elem_of_snoc; [by apply Hmin|congruence].
    - intros d [Hin| ->]%elem_of_snoc; [by apply IH|congruence]. }
  destruct (decide (dl_partition x = partition)) as [<-|Hne].
  - destruct (m !! dl_partition x) as [h|] eqn:Hh.
    + destruct IH as (? & ? & Hp & Hmin). destruct (Z.ltb_spec (dl_Sequence x) (dl_Sequence h)).
      * rewrite lookup_insert_eq. split_and!; [set_solver|done..|].
        intros d [Hin| ->]%elem_of_snoc ? ?; [|lia].
        specialize (Hmin d ltac:(done) ltac:(done) ltac:(done)). lia.
      * rewrite Hh. split_and!; [set_solver|done..|].
        intros d [Hin| ->]%elem_of_snoc ? ?; [by apply Hmin|lia].
    + rewrite lookup_insert_eq. split_and!; [set_solver|done..|].
      intros d [Hin| ->]%elem_of_snoc ? ?; [by destruct (IH d)|lia].
  - assert ((match m !! dl_partition x with
             | Some head => if dl_Sequence x <? dl_Sequence head then <[dl_partition x := x]> m else m
             | None => <[dl_partition x := x]> m end) !! partition = m !! partition) as ->.
    { repeat case_match; by rewrite ?lookup_insert_ne. }
    destruct (m !! partition) as [h|].
    + destruct IH as (? & ? & ? & Hmin). split_and!; [set_solver|done..|].
      intros d [Hin| ->]%elem_of_snoc ? ?; [by apply Hmin|done].
    + intros d [Hin| ->]%elem_of_snoc ?; [by apply IH|done].
Qed.

(** Under distinct sequence numbers the heads do not depend on the order of the iteration. *)
Lemma dstore_heads_perm l l' :
  (∀ x y, x ∈ l → y ∈ l → dl_Sequence x = dl_Sequence y → x = y) →
  l' ≡ₚ l → dstore_heads l' = dstore_heads l.
Proof.
  intros Hinj Hp. apply map_eq. intros p.
  pose proof (dstore_heads_spec l p) as H. pose proof (dstore_heads_spec l' p) as H'.
  destruct (dstore_heads l !! p) as [h|], (dstore_heads l' !! p) as [h'|]; [|exfalso..|done].
  - destruct H as (Hi & Ht & Hpp & Hmin), H' as (Hi' & Ht' & Hpp' & Hmin').
    rewrite Hp in Hi'. f_equal. apply Hinj; [done..|].
    specialize (Hmin h' Hi' Ht' Hpp'). specialize (Hmin' h). rewrite Hp in Hmin'.
    specialize (Hmin' Hi Ht Hpp). lia.
  - destruct H as (Hi & Ht & Hpp & _). rewrite <-Hp in Hi. by apply (H' h).
  - destruct H' as (Hi & Ht & Hpp & _). rewrite Hp in Hi. by apply (H h').
Qed.

(** *** Inversion of the calls *)

Lemma dl_prepare_loop_spec byID batch now wall prepared :
  dl_prepare_loop byID batch now wall = Ok prepared →
  Forall2 (λ d p, dl_PrepareNew d now wall = Ok p) batch prepared.
Proof.
  revert byID prepared. induction batch as [|d batch IH]; simpl; intros byID prepared H.
  { injection H as <-. constructor. }
  apply bind_Ok in H as (p & Hp & H). destruct (match byID !! _ with Some _ => _ | None => _ end); [done|].
  apply bind_Ok in H as (ps & Hps & [= <-]). constructor; eauto.
Qed.

Definition dl_fresh (d : Delivery) : Prop :=
  dl_valid d ∧ dl_State d = DeliveryPending ∧ dl_Attempt d = 0.

Lemma dstore_Enqueue_Ok st ctx batch wall st' :
  dstore_Enqueue st ctx batch wall = Ok st' →
  ∃ prepared, Forall2 (λ d p, dl_PrepareNew d wall wall = Ok p) batch prepared ∧
    Forall dl_fresh prepared ∧ dstore_check st prepared = Ok tt ∧
    st' = foldl dstore_insert st prepared.
Proof.
  unfold dstore_Enqueue. intros H. apply bind_Ok in H as (_ & _ & H).
  apply bind_Ok in H as (prepared & Hp & H). apply bind_Ok in H as ([] & Hc & [= <-]).
  apply dl_prepare_loop_spec in Hp. exists prepared. split_and!; try done.
  clear Hc. induction Hp as [|d p l l' Hd]; constructor; [|done].
  destruct (dl_PrepareNew_spec _ _ _ _ Hd) as (? & ? & ? & _). done.
Qed.

Lemma dstore_transition_Ok st ctx id token now state avail err wall st' :
  dstore_transition st ctx id token now state avail err wall = Ok st' →
  ∃ d0 d, deliveries st !! id = Some d0 ∧
    dl_FinishLease d0 token now state avail err wall = Ok d ∧
    st' = {| deliveries := <[id := d]> (deliveries st); nextSequence := nextSequence st |}.
Proof.
  unfold dstore_transition. intros H. apply bind_Ok in H as (_ & _ & H).
  destruct (deliveries st !! id) as [d0|]; [|done]. apply bind_Ok in H as (d & Hd & [= <-]). eauto.
Qed.

(** The lease is given on a head with the lowest sequence number of all available heads. *)
Lemma dstore_Lease_Ok n st ctx now ttl wall e d st' :
  dstore_wf n st → dstore_Lease st ctx now ttl wall e = Ok (d, st') →
  ∃ d0, deliveries st !! dl_ID d0 = Some d0 ∧
    is_head (map_values (deliveries st)) (dl_partition d0) d0 ∧
    (∀ partition h, is_head (map_values (deliveries st)) partition h →
       dl_LeaseAvailable h (dl_NormalizeMutationTime wall now) wall = true →
       dl_Sequence d0 ≤ dl_Sequence h) ∧
    dl_Lease d0 (NewID e) (dl_NormalizeMutationTime wall now) ttl wall = Ok d ∧
    st' = {| deliveries := <[dl_ID d0 := d]> (deliveries st); nextSequence := nextSequence st |}.
Proof.
  intros Hwf H. unfold dstore_Lease in H.
  apply bind_Ok in H as (_ & _ & H). apply bind_Ok in H as (_ & _ & H). simpl in H.
  set (now' := dl_NormalizeMutationTime wall now) in *.
  set (heads := dstore_heads (map_values (deliveries st))) in *.
  set (cands := dstore_candidates (map_values heads) now' wall) in *.
  pose proof (SortFunc_sorted _ dl_Compare_ok cands) as Hs.
  pose proof (SortFunc_perm dl_Compare cands) as Hp.
  destruct (SortFunc dl_Compare cands) as [|d0 rest]; [done|].
  apply bind_Ok in H as (d1 & Hd & [= -> <-]).
  pose proof (dl_Lease_Ok _ _ _ _ _ _ Hd) as (_ & Hi & _).
  assert (d0 ∈ cands) as Hc by (rewrite <-Hp; set_solver).
  apply list_elem_of_filter in Hc as [_ [p Hhead]%elem_of_map_values].
  pose proof (dstore_heads_spec (map_values (deliveries st)) p) as Hh.
  unfold heads in Hhead. rewrite Hhead in Hh. pose proof Hh as (Hin & _ & <- & _).
  apply elem_of_map_values in Hin as [id Hin]. pose proof (dwf_id _ _ Hwf _ _ Hin) as <-.
  assert (dl_ID d = dl_ID d0) as Hid by (unfold dl_identity in Hi; congruence).
  exists d0. split_and!; [done..| |done|by rewrite Hid].
  intros partition h Hhd Hav. pose proof Hhd as (Hhin & Hht & Hhp & Hhm).
  pose proof (dstore_heads_spec (map_values (deliveries st)) partition) as Hph.
  destruct (dstore_heads _ !! partition) as [h'|] eqn:Hl; [|by destruct (Hph h Hhin Hht Hhp)].
  destruct Hph as (Hin' & Ht' & Hp' & Hm').
  assert (h' = h) as ->.
  { pose proof (Hm' h Hhin Hht Hhp). pose proof (Hhm h' Hin' Ht' Hp').
    apply elem_of_map_values in Hhin as [i Hi1], Hin' as [j Hj1].
    pose proof (dwf_unique _ _ Hwf _ _ _ _ Hi1 Hj1 ltac:(lia)). congruence. }
  assert (h ∈ cands) as Hhc
    by (apply list_elem_of_filter; split; [done|apply elem_of_map_values; eauto]).
  rewrite <-Hp in Hhc. apply StronglySorted_inv in Hs as [_ Hall]. rewrite Forall_forall in Hall.
  apply elem_of_cons in Hhc as [->|Hr]; [done|]. apply dl_Compare_sequence. by apply Hall.
Qed.

(** *** The invariant is preserved *)

Lemma dl_partition_identity d d' : dl_identity d' = dl_identity d → dl_partition d' = dl_partition d.
Proof. unfold dl_identity, dl_partition. intros [= _ _ -> _ -> _ -> _ _]. done. Qed.

Lemma dl_valid_attempt d : dl_valid d → 0 ≤ dl_Attempt d.
Proof. unfold dl_valid, dl_ValidateLoaded. intros H. inv_ok. gobool. done. Qed.

Lemma dl_fresh_sequence d s : dl_fresh d → dl_fresh (with_sequence d s).
Proof. done. Qed.

Lemma dwf_new : dstore_wf 0 newMemoryDeliveryStore.
Proof. split; simpl; intros *; rewrite ?lookup_empty; done || lia. Qed.

Lemma dwf_weaken n m st : n ≤ m → dstore_wf n st → dstore_wf m st.
Proof.
  intros Hnm Hwf. pose proof (dwf_next _ _ Hwf).
  split; [apply Hwf..| |lia|apply Hwf|apply Hwf|apply Hwf].
  intros id d H1. pose proof (dwf_attempt _ _ Hwf _ _ H1). lia.
Qed.

Lemma dwf_insert n st d :
  dstore_wf n st → n + 1 < two63 → dl_fresh d → dstore_wf (n + 1) (dstore_insert st d).
Proof.
  intros Hwf Hn Hf. unfold dstore_insert.
  destruct (deliveries st !! dl_ID d) eqn:Hnone; [by apply (dwf_weaken n); [lia|]|].
  pose proof (dwf_next _ _ Hwf) as Hnext. rewrite u64_small by (unfold two63, two64 in *; lia).
  apply (dl_fresh_sequence _ (nextSequence st + 1)) in Hf as Hf'.
  destruct Hf' as (Hv & Hs & Ha). split; simpl.
  - intros id d' [[<- <-]|[_ H]]%lookup_insert_Some; [done|by eapply dwf_id].
  - intros id d' [[<- <-]|[_ H]]%lookup_insert_Some; [done|by eapply dwf_valid].
  - intros id d' [[<- <-]|[_ H]]%lookup_insert_Some; [rewrite Ha; lia|].
    pose proof (dwf_attempt _ _ Hwf _ _ H). lia.
  - lia.
  - intros id d' [[<- <-]|[_ H]]%lookup_insert_Some; simpl; [lia|].
    pose proof (dwf_sequence _ _ Hwf _ _ H). lia.
  - intros id1 d1 id2 d2 [[<- <-]|[_ H1]]%lookup_insert_Some [[<- <-]|[_ H2]]%lookup_insert_Some;
      simpl; intros Heq; [done|..|by eapply dwf_unique];
      [pose proof (dwf_sequence _ _ Hwf _ _ H2)|pose proof (dwf_sequence _ _ Hwf _ _ H1)]; lia.
  - intros id1 d1 id2 d2 [[<- <-]|[_ H1]]%lookup_insert_Some [[<- <-]|[_ H2]]%lookup_insert_Some ? ? ?;
      simpl in *; [done|congruence|..|by eapply (dwf_head _ _ Hwf)].
    pose proof (dwf_sequence _ _ Hwf _ _ H1). lia.
Qed.

Lemma dwf_insert_all n st prepared :
  dstore_wf n st → n + Z.of_nat (length prepared) < two63 → Forall dl_fresh prepared →
  dstore_wf (n + Z.of_nat (length prepared)) (foldl dstore_insert st prepared).
Proof.
  intros Hwf Hn Hf. revert n st Hwf Hn. induction Hf as [|d l Hd _ IH]; simpl; intros n st Hwf Hn.
  { by rewrite Z.add_0_r. }
  replace (n + Z.of_nat (S (length l))) with (n + 1 + Z.of_nat (length l)) by lia.
  apply IH; [|lia]. apply dwf_insert; [done|lia|done].
Qed.

Lemma dwf_update n st id tokens d0 d :
  dstore_wf n st → n + 1 < two63 → deliveries st !! id = Some d0 → dl_step tokens d0 d →
  (dl_State d = DeliveryLeased → is_head (map_values (deliveries st)) (dl_partition d0) d0) →
  dstore_wf (n + 1) {| deliveries := <[id := d]> (deliveries st); nextSequence := nextSequence st |}.
Proof.
  intros Hwf Hn Hl Hstep Hhead. destruct (dl_step_spec _ _ _ Hstep) as (Hv & Hi & Ht & Ha & _).
  pose proof (dl_partition_identity _ _ Hi) as Hp.
  assert (dl_ID d = dl_ID d0 ∧ dl_Sequence d = dl_Sequence d0) as [HID Hseq]
    by (unfold dl_identity in Hi; by simplify_eq).
  pose proof (dwf_attempt _ _ Hwf _ _ Hl) as Hat. rewrite i64_small in Ha by lia.
  pose proof (dl_valid_attempt _ Hv). split; simpl.
  - intros id' d' [[<- <-]|[_ H']]%lookup_insert_Some; [rewrite HID|]; by eapply dwf_id.
  - intros id' d' [[<- <-]|[_ H']]%lookup_insert_Some; [done|by eapply dwf_valid].
  - intros id' d' [[<- <-]|[_ H']]%lookup_insert_Some; [lia|].
    pose proof (dwf_attempt _ _ Hwf _ _ H'). lia.
  - pose proof (dwf_next _ _ Hwf). lia.
  - intros id' d' [[<- <-]|[_ H']]%lookup_insert_Some; [rewrite Hseq|]; by eapply dwf_sequence.
  - intros id1 d1 id2 d2 [[<- <-]|[_ H1]]%lookup_insert_Some [[<- <-]|[_ H2]]%lookup_insert_Some;
      rewrite ?Hseq; try done; by eapply dwf_unique.
  - intros id1 d1 id2 d2 [[<- <-]|[_ H1]]%lookup_insert_Some [[<- <-]|[_ H2]]%lookup_insert_Some;
      rewrite ?Hseq, ?Hp; try done.
    + intros Hs Ht2 Hpp. apply (Hhead Hs); [apply elem_of_map_values; eauto|done..].
    + intros Hs _ Hpp. by eapply (dwf_head _ _ Hwf).
    + by eapply (dwf_head _ _ Hwf).
Qed.

(** A step is an enqueued batch or a step of one delivery. *)
Lemma dstore_step_inv n tokens k st st' :
  dstore_wf n st → dstore_step tokens k st st' →
  (∃ prepared, tokens = [] ∧ k = length prepared ∧ Forall dl_fresh prepared ∧
     dstore_check st prepared = Ok tt ∧ st' = foldl dstore_insert st prepared) ∨
  (∃ id d0 d, k = 1%nat ∧ deliveries st !! id = Some d0 ∧ dl_step tokens d0 d ∧
     (dl_State d = DeliveryLeased → is_head (map_values (deliveries st)) (dl_partition d0) d0) ∧
     st' = {| deliveries := <[id := d]> (deliveries st); nextSequence := nextSequence st |}).
Proof.
  intros Hwf Hs. destruct Hs as [st0 ctx batch wall st1 H|st0 ctx now ttl wall e d st1 Hnow Hw H
    |st0 ctx id token now wall st1 H|st0 ctx id token avail err wall st1 H|st0 ctx id token now err wall st1 H].
  { left. apply dstore_Enqueue_Ok in H as (prepared & Hp & Hf & Hc & ->). exists prepared.
    split_and!; try done. by eapply Forall2_length. }
  { right. eapply dstore_Lease_Ok in H as (d0 & Hl & Hh & _ & Hd & ->); [|done].
    exists (dl_ID d0), d0, d. split_and!; try done.
    eapply dl_step_Lease; [|done..]. unfold dl_NormalizeMutationTime. case_match; lia. }
  all: right; apply dstore_transition_Ok in H as (d0 & d & Hl & Hd & ->); exists id, d0, d;
    pose proof (dl_FinishLease_Ok _ _ _ _ _ _ _ _ Hd) as (_ & _ & Hs & _);
    pose proof (dl_step_Finish _ _ _ _ _ _ _ _ Hd);
    split_and!; [done|done|done|congruence|done].
Qed.

Lemma dwf_step n tokens k st st' :
  dstore_wf n st → n + Z.of_nat k < two63 → dstore_step tokens k st st' → dstore_wf (n + Z.of_nat k) st'.
Proof.
  intros Hwf Hn Hs. destruct (dstore_step_inv _ _ _ _ _ Hwf Hs) as
    [(prepared & _ & -> & Hf & _ & ->)|(id & d0 & d & -> & Hl & Hop & Hh & ->)].
  - by apply dwf_insert_all.
  - eapply (dwf_update n); [done|lia|done..].
Qed.

(** *** Purging *)

Lemma dstore_Purge_lookup st ctx before n st' id :
  dstore_PurgeTerminal st ctx before = Ok (n, st') →
  deliveries st' !! id =
    (d ← deliveries st !! id; if dl_purgeable before d then None else Some d).
Proof.
  unfold dstore_PurgeTerminal. intros H. inv_ok. rewrite lookup_foldr_delete.
  destruct (deliveries st !! id) as [r|] eqn:Hl; simpl; [|by case_match].
  destruct (dl_purgeable before r) eqn:Hp.
  - rewrite bool_decide_eq_true_2; [done|]. apply list_elem_of_fmap.
    exists (id, r). split; [done|]. apply list_elem_of_filter. by rewrite elem_of_map_to_list.
  - rewrite bool_decide_eq_false_2; [done|]. intros ([id' r'] & -> & Hin)%list_elem_of_fmap.
    apply list_elem_of_filter in Hin as [Hp' Hin%elem_of_map_to_list]. simpl in *. congruence.
Qed.

Lemma bind_purge (o : option Delivery) before d :
  (d ← o; if dl_purgeable before d then None else Some d) = Some d ↔
  o = Some d ∧ ¬ (Delivery_Terminal d = true ∧ dl_UpdatedAt d < before).
Proof.
  destruct o as [d0|]; simpl; [|naive_solver]. unfold dl_purgeable. destruct (_ && _) eqn:E; gobool.
  - split; [done|]. by intros [[= ->] []].
  - split; [intros [= ->]|by intros [[= ->] _]]. split; [done|]. intros []. destruct E; [congruence|lia].
Qed.

Lemma dstore_Purge_count st before removed st' :
  dstore_PurgeTerminal st None before = Ok (removed, st') →
  removed + Z.of_nat (size (deliveries st')) = Z.of_nat (size (deliveries st)).
Proof.
  unfold dstore_PurgeTerminal. intros H. inv_ok. rewrite <-Nat2Z.inj_add. f_equal.
  apply size_foldr_delete.
  - eapply sublist_NoDup; [apply (NoDup_fst_map_to_list (deliveries st))|].
    apply fmap_sublist, sublist_filter.
  - intros k v [_ Hin]%list_elem_of_filter. by apply elem_of_map_to_list.
Qed.

Lemma dwf_purge n st st' : dstore_wf n st → dstore_purge st st' → dstore_wf n st'.
Proof.
  intros Hwf Hs. destruct Hs as [st ctx before k st' Hp].
  assert (∀ id d, deliveries st' !! id = Some d → deliveries st !! id = Some d) as Hold.
  { intros id d. rewrite (dstore_Purge_lookup _ _ _ _ _ _ Hp).
    destruct (deliveries st !! id); simpl; [|done]. case_match; congruence. }
  assert (nextSequence st' = nextSequence st) as Hnext
    by (unfold dstore_PurgeTerminal in Hp; by inv_ok).
  split; rewrite ?Hnext; [by eauto using dwf_id|by eauto using dwf_valid|by eauto using dwf_attempt|
    by apply Hwf|by eauto using dwf_sequence|by eauto using dwf_unique|].
  intros id1 d1 id2 d2 ? ?. by eapply (dwf_head _ _ Hwf); apply Hold.
Qed.

Lemma dstore_reach_wf n st : dstore_reach n st → Z.of_nat n < two63 → dstore_wf (Z.of_nat n) st.
Proof.
  intros Hr. induction Hr as [|n k tokens st st' Hr IH Hs|n st st' Hr IH Hs]; intros Hn.
  - apply dwf_new.
  - rewrite Nat.add_comm, Nat2Z.inj_add. eapply dwf_step; [apply IH; lia|lia|done].
  - eapply dwf_purge; [by apply IH|done].
Qed.

Lemma dstore_run_wf n k minted st st' :
  dstore_wf n st → n + Z.of_nat k < two63 → dstore_run k minted st st' → dstore_wf (n + Z.of_nat k) st'.
Proof.
  intros Hwf Hn Hr. induction Hr as [st|k m minted tokens st st' st'' Hr IH Hs]; [by rewrite Z.add_0_r|].
  replace (n + Z.of_nat (m + k)) with (n + Z.of_nat k + Z.of_nat m) by lia.
  eapply dwf_step; [apply IH; [done|lia]|lia|done].
Qed.

(** *** Runs *)

Lemma dstore_insert_keeps st prepared id d :
  deliveries st !! id = Some d → deliveries (foldl dstore_insert st prepared) !! id = Some d.
Proof.
  revert st. induction prepared as [|p l IH]; simpl; intros st H; [done|]. apply IH.
  unfold dstore_insert. destruct (deliveries st !! dl_ID p) eqn:E; [done|]. simpl.
  rewrite lookup_insert_ne; [done|]. congruence.
Qed.

(** A stored delivery stays, keeps its identity, stays as it is once terminal, and carries a lease
    token it did not have only when a call minted it. *)
Lemma dstore_run_leads n k minted st st' id d :
  dstore_wf n st → n + Z.of_nat k < two63 → dstore_run k minted st st' →
  deliveries st !! id = Some d →
  ∃ d', deliveries st' !! id = Some d' ∧ dl_identity d' = dl_identity d ∧
        (Delivery_Terminal d = true → d' = d) ∧
        (dl_State d' = DeliveryLeased →
           (dl_State d = DeliveryLeased ∧ dl_LeaseToken d' = dl_LeaseToken d) ∨
           dl_LeaseToken d' ∈ minted).
Proof.
  intros Hwf Hn Hr Hl. induction Hr as [st|k m minted tokens st st' st'' Hr IH Hs].
  { exists d. split_and!; try done. auto. }
  destruct IH as (d' & Hl' & Hi & Hterm & Htok); [done|lia|done|].
  assert (dstore_wf (n + Z.of_nat k) st') as Hwf' by (eapply dstore_run_wf; [done|lia|done]).
  destruct (dstore_step_inv _ _ _ _ _ Hwf' Hs) as
    [(prepared & -> & -> & _ & _ & ->)|(id' & d0 & d1 & -> & Hl0 & Hop & _ & ->)].
  { exists d'. split_and!; [by apply dstore_insert_keeps|done..]. }
  simpl. destruct (decide (id' = id)) as [->|Hne].
  - exists d1. rewrite lookup_insert_eq. assert (d0 = d') as -> by congruence.
    destruct (dl_step_spec _ _ _ Hop) as (_ & Hi1 & Ht1 & _ & Htok1). split_and!; [done|congruence| |].
    + intros Ht. specialize (Hterm Ht). subst. congruence.
    + intros Hs1. right. rewrite (Htok1 Hs1). set_solver.
  - exists d'. rewrite lookup_insert_ne by done. split_and!; [done..|].
    intros Hs'. destruct (Htok Hs') as [?|?]; [by left|right; set_solver].
Qed.

(** *** The abstract queues

    [dstore_queue st p] is the queue the store stands for: the IDs of the unfinished deliveries of
    partition [p], oldest first. *)

Definition in_partition (p : string) (d : Delivery) : Prop :=
  Delivery_Terminal d = false ∧ dl_partition d = p.

#[export] Instance in_partition_dec p d : Decision (in_partition p d).
Proof. unfold in_partition. apply _. Defined.

Definition dstore_queue (st : dstore) (p : string) : list string :=
  dl_ID <$> SortFunc dl_Compare (filter (in_partition p) (map_values (deliveries st))).

(** The IDs that a batch adds to the queue of a partition: the first occurrence of every ID that is
    not known yet. *)
Fixpoint fresh_ids (known : gset string) (p : string) (batch : list Delivery) : list string :=
  match batch with
  | [] => []
  | d :: rest =>
      if decide (dl_ID d ∈ known) then fresh_ids known p rest
      else (if decide (dl_partition d = p) then [dl_ID d] else []) ++
           fresh_ids ({[dl_ID d]} ∪ known) p rest
  end.

Definition queued (st : dstore) (p id : string) : Prop :=
  ∃ d, deliveries st !! id = Some d ∧ in_partition p d.

Definition seq_of (st : dstore) (id : string) : Z := default 0 (dl_Sequence <$> deliveries st !! id).

Abbreviation older st := (λ a b, seq_of st a < seq_of st b).

Lemma seq_of_Some st id d : deliveries st !! id = Some d → seq_of st id = dl_Sequence d.
Proof. unfold seq_of. by intros ->. Qed.

Section queue.
Context (n : Z) (st : dstore) (Hwf : dstore_wf n st).

Lemma map_values_inj x y :
  x ∈ map_values (deliveries st) → y ∈ map_values (deliveries st) → dl_ID x = dl_ID y → x = y.
Proof using Hwf.
  intros [i Hx]%elem_of_map_values [j Hy]%elem_of_map_values Heq.
  rewrite (dwf_id _ _ Hwf _ _ Hx), (dwf_id _ _ Hwf _ _ Hy) in Heq. congruence.
Qed.

Lemma map_values_sequence_inj x y :
  x ∈ map_values (deliveries st) → y ∈ map_values (deliveries st) → dl_Sequence x = dl_Sequence y → x = y.
Proof using Hwf.
  intros [i Hx]%elem_of_map_values [j Hy]%elem_of_map_values Heq.
  pose proof (dwf_unique _ _ Hwf _ _ _ _ Hx Hy Heq). congruence.
Qed.

Lemma map_values_NoDup : NoDup (map_values (deliveries st)).
Proof using Hwf. apply (NoDup_map_values dl_ID), Hwf. Qed.

Lemma elem_of_queue p id : id ∈ dstore_queue st p ↔ queued st p id.
Proof using Hwf.
  unfold dstore_queue, queued. rewrite list_elem_of_fmap. split.
  - intros (d & -> & [Hp [i Hd]%elem_of_map_values]%elem_of_SortFunc%list_elem_of_filter).
    exists d. split; [|done]. by rewrite (dwf_id _ _ Hwf _ _ Hd).
  - intros (d & Hd & Hp). exists d. split; [by rewrite (dwf_id _ _ Hwf _ _ Hd)|].
    apply elem_of_SortFunc, list_elem_of_filter. split; [done|]. apply elem_of_map_values. eauto.
Qed.

Lemma queue_sorted p : StronglySorted (older st) (dstore_queue st p).
Proof using Hwf.
  unfold dstore_queue. set (l := filter _ _).
  assert (∀ x, x ∈ SortFunc dl_Compare l → x ∈ map_values (deliveries st)) as Hin.
  { intros x Hx%elem_of_SortFunc. by apply list_elem_of_filter in Hx as [_ ?]. }
  assert (NoDup (SortFunc dl_Compare l)) as Hnd
    by (rewrite SortFunc_perm; apply NoDup_filter, map_values_NoDup).
  pose proof (SortFunc_sorted _ dl_Compare_ok l) as Hs. revert Hin Hnd.
  induction Hs as [|x s _ IH Hall]; simpl; intros Hin Hnd; constructor.
  - apply IH; [set_solver|]. by apply NoDup_cons_1_2 in Hnd.
  - apply Forall_forall. intros id (y & -> & Hy)%list_elem_of_fmap.
    assert (x ∈ map_values (deliveries st)) as Hx' by (apply Hin; set_solver).
    assert (y ∈ map_values (deliveries st)) as Hy' by (apply Hin; set_solver).
    pose proof Hx' as [i Hi]%elem_of_map_values. pose proof Hy' as [j Hj]%elem_of_map_values.
    rewrite (dwf_id _ _ Hwf _ _ Hi), (dwf_id _ _ Hwf _ _ Hj).
    rewrite (seq_of_Some _ _ _ Hi), (seq_of_Some _ _ _ Hj).
    rewrite Forall_forall in Hall. pose proof (dl_Compare_sequence _ _ (Hall y Hy)).
    assert (dl_Sequence x ≠ dl_Sequence y); [|lia].
    intros ->%map_values_sequence_inj; [|done..]. by apply NoDup_cons_1_1 in Hnd.
Qed.
End queue.

Lemma older_unique (f : string → Z) q1 q2 :
  StronglySorted (λ a b, f a < f b) q1 → StronglySorted (λ a b, f a < f b) q2 →
  (∀ id, id ∈ q1 ↔ id ∈ q2) → q1 = q2.
Proof.
  intros H1 H2 Hiff.
  assert (∀ q, StronglySorted (λ a b, f a < f b) q → NoDup q) as Hnd.
  { intros q Hq. induction Hq as [|x q _ IH Hall]; constructor; [|done].
    intros Hx. rewrite Forall_forall in Hall. specialize (Hall x Hx). lia. }
  apply (StronglySorted_unique_strong (λ a b, f a < f b)); [|done..|].
  - intros x y _ _ ? ?. lia.
  - apply NoDup_Permutation; eauto.
Qed.

Lemma queue_char n st p q :
  dstore_wf n st → (∀ id, id ∈ q ↔ queued st p id) → StronglySorted (older st) q →
  dstore_queue st p = q.
Proof.
  intros Hwf Hq Hs. apply (older_unique (seq_of st)); [by eapply queue_sorted|done|].
  intros id. by rewrite Hq, (elem_of_queue _ _ Hwf).
Qed.

Section update.
Context (n : Z) (st : dstore) (Hwf : dstore_wf n st).
Context (id : string) (d0 d : Delivery) (Hl : deliveries st !! id = Some d0).
Context (Hi : dl_identity d = dl_identity d0) (Ht0 : Delivery_Terminal d0 = false).

#[local] Abbreviation st' := {| deliveries := <[id := d]> (deliveries st); nextSequence := nextSequence st |}.
Context (m : Z) (Hwf' : dstore_wf m st').

Lemma seq_of_update x : seq_of st' x = seq_of st x.
Proof using Hl Hi.
  unfold seq_of. simpl. rewrite lookup_insert. case_decide as Hx; [subst x|done].
  rewrite Hl. simpl. unfold dl_identity in Hi. congruence.
Qed.

Lemma queued_update p x : x ≠ id → queued st' p x ↔ queued st p x.
Proof. intros Hx. unfold queued. simpl. by rewrite lookup_insert_ne. Qed.

Lemma queue_same p : Delivery_Terminal d = false ∨ dl_partition d0 ≠ p → dstore_queue st' p = dstore_queue st p.
Proof using Hwf Hwf' Hl Hi Ht0.
  intros Hor. eapply queue_char; [done|..].
  - intros x. rewrite (elem_of_queue _ _ Hwf). destruct (decide (x = id)) as [->|Hx];
      [|by rewrite queued_update].
    unfold queued, in_partition. simpl. rewrite lookup_insert_eq.
    pose proof (dl_partition_identity _ _ Hi) as Hp.
    split; intros (d1 & Heq & Hd1 & Hd2); [exists d|exists d0]; simplify_eq.
    + rewrite Hp. split_and!; [done| |done]. by destruct Hor.
    + by rewrite <-Hp.
  - eapply StronglySorted_ext; [|by eapply queue_sorted]. simpl. intros. by rewrite !seq_of_update.
Qed.

Lemma queue_head :
  dl_State d0 = DeliveryLeased ∨ is_head (map_values (deliveries st)) (dl_partition d0) d0 →
  ∃ rest, dstore_queue st (dl_partition d0) = id :: rest ∧
          (Delivery_Terminal d = true → dstore_queue st' (dl_partition d0) = rest).
Proof using Hwf Hwf' Hl Hi Ht0.
  intros Hh. assert (∀ x, queued st (dl_partition d0) x → seq_of st id ≤ seq_of st x) as Hmin.
  { intros x (dx & Hx & Htx & Hpx). rewrite (seq_of_Some _ _ _ Hx), (seq_of_Some _ _ _ Hl).
    destruct Hh as [Hh|(_ & _ & _ & Hh)]; [by eapply (dwf_head _ _ Hwf)|].
    apply Hh; [|done..]. apply elem_of_map_values. eauto. }
  assert (id ∈ dstore_queue st (dl_partition d0)) as Hin
    by (apply (elem_of_queue _ _ Hwf); by exists d0).
  pose proof (queue_sorted _ _ Hwf (dl_partition d0)) as Hs.
  pose proof (elem_of_queue _ _ Hwf (dl_partition d0)) as Hq.
  destruct (dstore_queue st (dl_partition d0)) as [|x rest]; [by apply not_elem_of_nil in Hin|].
  apply StronglySorted_inv in Hs as [Hs Hall]. rewrite Forall_forall in Hall.
  apply elem_of_cons in Hin as [<-|Hin].
  2: { specialize (Hall id Hin). pose proof (Hmin x (proj1 (Hq x) ltac:(set_solver))). simpl in *. lia. }
  exists rest. split; [done|]. intros Ht. eapply queue_char; [done|..].
  - intros y. destruct (decide (y = id)) as [->|Hne].
    + split; [intros Hr; specialize (Hall id Hr); simpl in *; lia|].
      intros (d1 & Hd1 & Ht1 & _). simpl in Hd1.
      rewrite lookup_insert_eq in Hd1. congruence.
    + rewrite queued_update, <-Hq by done. set_solver.
  - eapply StronglySorted_ext; [|done]. simpl. intros. by rewrite !seq_of_update.
Qed.
End update.

Lemma queue_insert n st d p :
  dstore_wf n st → n + 1 < two63 → dl_fresh d →
  dstore_queue (dstore_insert st d) p = dstore_queue st p ++ fresh_ids (dom (deliveries st)) p [d].
Proof.
  intros Hwf Hn Hf. pose proof (dwf_insert n st d Hwf Hn Hf) as Hwf'. simpl. rewrite app_nil_r.
  pose proof Hf as (_ & Hs & _).
  unfold dstore_insert in *. destruct (deliveries st !! dl_ID d) as [d'|] eqn:Hd.
  { rewrite decide_True by (by apply elem_of_dom_2 in Hd). by rewrite app_nil_r. }
  rewrite decide_False by (by apply not_elem_of_dom). pose proof (dwf_next _ _ Hwf) as Hnx.
  rewrite u64_small in * by (unfold two63, two64 in *; lia).
  set (st' := {| deliveries := _ |}) in *.
  assert (∀ x, queued st' p x ↔ queued st p x ∨ x = dl_ID d ∧ dl_partition d = p) as Hqd.
  { intros x. unfold queued, st', in_partition. simpl. rewrite lookup_insert. case_decide as Hx; [subst x|].
    - rewrite Hd. unfold Delivery_Terminal, dl_partition. split.
      + intros (? & [= <-] & ? & <-). right. done.
      + intros [(? & ? & _)|[_ <-]]; [done|]. eexists. split; [done|]. simpl. by rewrite Hs.
    - split; [auto|]. intros [?|[-> _]]; done. }
  assert (∀ x, queued st p x → seq_of st' x = seq_of st x ∧ seq_of st x ≤ nextSequence st) as Hold.
  { intros x (dx & Hx & _). unfold seq_of, st'. simpl. rewrite lookup_insert_ne by congruence.
    rewrite Hx. simpl. split; [done|]. by apply (dwf_sequence _ _ Hwf _ _ Hx). }
  assert (StronglySorted (older st') (dstore_queue st p)) as Hsort.
  { eapply StronglySorted_ext; [|by apply (queue_sorted n)]. simpl.
    intros x y Hx%(elem_of_queue _ _ Hwf) Hy%(elem_of_queue _ _ Hwf). by destruct (Hold x Hx) as [-> _], (Hold y Hy) as [-> _]. }
  eapply queue_char; [done|..].
  - intros x. rewrite Hqd, elem_of_app, (elem_of_queue _ _ Hwf). case_decide; set_solver.
  - case_decide; [|by rewrite app_nil_r]. apply StronglySorted_snoc; [done|]. simpl.
    intros y Hy%(elem_of_queue _ _ Hwf). destruct (Hold y Hy) as [-> ?].
    rewrite (seq_of_Some st' _ (with_sequence d (nextSequence st + 1)))
      by (unfold st'; simpl; apply lookup_insert_eq). simpl. lia.
Qed.

Lemma fresh_ids_cons known p d l :
  fresh_ids known p (d :: l) = fresh_ids known p [d] ++ fresh_ids ({[dl_ID d]} ∪ known) p l.
Proof.
  simpl. case_decide as Hd; [|by rewrite app_nil_r].
  by replace ({[dl_ID d]} ∪ known) with known by set_solver.
Qed.

Lemma dstore_insert_dom st d :
  dom (deliveries (dstore_insert st d)) = {[dl_ID d]} ∪ dom (deliveries st).
Proof.
  unfold dstore_insert. destruct (deliveries st !! dl_ID d) eqn:E; simpl; [|by rewrite dom_insert_L].
  apply elem_of_dom_2 in E. set_solver.
Qed.

Lemma queue_insert_all n st prepared p :
  dstore_wf n st → n + Z.of_nat (length prepared) < two63 → Forall dl_fresh prepared →
  dstore_queue (foldl dstore_insert st prepared) p =
  dstore_queue st p ++ fresh_ids (dom (deliveries st)) p prepared.
Proof.
  intros Hwf Hn Hf. revert n st Hwf Hn. induction Hf as [|d l Hd _ IH]; intros n st Hwf Hn.
  { simpl. by rewrite app_nil_r. }
  rewrite fresh_ids_cons. cbn [foldl length] in *.
  rewrite (IH (n + 1)) by (lia || apply dwf_insert; done || lia).
  rewrite (queue_insert n), dstore_insert_dom by (done || lia). by rewrite <-app_assoc.
Qed.

Lemma fresh_ids_prepared known p batch prepared now wall :
  Forall2 (λ d q, dl_PrepareNew d now wall = Ok q) batch prepared →
  fresh_ids known p prepared = fresh_ids known p batch.
Proof.
  intros H. revert known. induction H as [|d q l l' Hd _ IH]; intros known; [done|]. simpl.
  apply dl_PrepareNew_spec in Hd as (_ & _ & _ & -> & _ & -> & _). by rewrite !IH.
Qed.

(** *** Submitting a batch again *)

Definition dl_same (d : Delivery) :=
  (dl_ID d, dl_Plugin d, dl_PluginVersion d, dl_Subscription d, dl_ResourceRevision d,
   dl_Partition d, dl_Event d).

Lemma dl_SameIdentity_same l r : dl_SameIdentity l r = bool_decide (dl_same l = dl_same r).
Proof.
  apply eq_true_iff_eq. rewrite dl_SameIdentity_true, bool_decide_eq_true. unfold dl_same. split.
  - intros (-> & -> & -> & -> & -> & -> & ->). done.
  - intros. simplify_eq. done.
Qed.

Lemma dl_same_identity d d' : dl_identity d = dl_identity d' → dl_same d = dl_same d'.
Proof. unfold dl_identity, dl_same. congruence. Qed.

Lemma dstore_check_Ok st prepared :
  dstore_check st prepared = Ok tt ↔
  ∀ p s, p ∈ prepared → deliveries st !! dl_ID p = Some s → dl_same s = dl_same p.
Proof.
  induction prepared as [|q l IH]; cbn [dstore_check]; [set_solver|].
  assert ((∀ p s, p ∈ q :: l → deliveries st !! dl_ID p = Some s → dl_same s = dl_same p) ↔
          (∀ s, deliveries st !! dl_ID q = Some s → dl_same s = dl_same q) ∧
          (∀ p s, p ∈ l → deliveries st !! dl_ID p = Some s → dl_same s = dl_same p)) as ->.
  { split; [intros H; split; intros; apply H; set_solver|].
    intros [H1 H2] p s [->|Hp]%elem_of_cons; [apply H1|by apply H2]. }
  destruct (deliveries st !! dl_ID q) as [s|]; [|rewrite IH; split; [by split|by intros [_ ?]]].
  rewrite dl_SameIdentity_same. case_bool_decide.
  { rewrite IH. split; [split; [by intros ? [= <-]|done]|by intros [_ ?]]. }
  split; [done|]. intros [H1 _]. by destruct (H1 s).
Qed.

Lemma dl_PrepareNew_same d now wall now2 wall2 p :
  dl_PrepareNew d now wall = Ok p →
  ∃ p2, dl_PrepareNew d now2 wall2 = Ok p2 ∧ dl_same p2 = dl_same p ∧ dl_fresh p2.
Proof.
  intros H. unfold dl_PrepareNew in H. apply bind_Ok in H as ([] & Hv & [= <-]).
  assert (∃ p2, dl_PrepareNew d now2 wall2 = Ok p2) as [p2 Hp2]
    by (unfold dl_PrepareNew; rewrite Hv; by eexists).
  exists p2. destruct (dl_PrepareNew_spec _ _ _ _ Hp2) as (? & ? & ? & _). split_and!; try done.
  unfold dl_PrepareNew in Hp2. rewrite Hv in Hp2. by injection Hp2 as <-.
Qed.

Lemma dl_prepare_loop_again byID byID2 batch now wall now2 wall2 prepared :
  (∀ id, dl_same <$> byID !! id = dl_same <$> byID2 !! id) →
  dl_prepare_loop byID batch now wall = Ok prepared →
  ∃ prepared2, dl_prepare_loop byID2 batch now2 wall2 = Ok prepared2 ∧
    Forall2 (λ p p2, dl_same p2 = dl_same p) prepared prepared2 ∧ Forall dl_fresh prepared2.
Proof.
  revert byID byID2 prepared. induction batch as [|d batch IH]; intros byID byID2 prepared Heq H.
  { injection H as <-. exists []. by repeat constructor. }
  cbn [dl_prepare_loop] in *. apply bind_Ok in H as (p & Hp & H).
  destruct (dl_PrepareNew_same _ _ _ now2 wall2 _ Hp) as (p2 & -> & Hs & Hf). cbn [result_bind].
  assert (dl_ID p2 = dl_ID p) as Hid by (unfold dl_same in Hs; congruence).
  pose proof (Heq (dl_ID p)) as Hip. rewrite Hid.
  assert (match byID2 !! dl_ID p with
          | Some existing => negb (dl_SameIdentity existing p2) | None => false end =
          match byID !! dl_ID p with
          | Some existing => negb (dl_SameIdentity existing p) | None => false end) as ->.
  { revert Hip. destruct (byID !! dl_ID p), (byID2 !! dl_ID p); try done.
    cbn. intros Hip%(inj Some).
    rewrite !dl_SameIdentity_same. do 2 f_equal. by rewrite Hs, <-Hip. }
  destruct (match byID !! dl_ID p with Some _ => _ | None => _ end); [done|].
  apply bind_Ok in H as (ps & Hps & [= <-]).
  destruct (λ H, IH (<[dl_ID p := p]> byID) (<[dl_ID p := p2]> byID2) ps H Hps) as (ps2 & -> & Hf2 & Hff).
  { intros id. rewrite !lookup_insert. case_decide; [simpl; by rewrite Hs|done]. }
  exists (p2 :: ps2). split_and!; [done|by constructor..].
Qed.

(** Within a prepared batch an ID has one identity. *)
Lemma dl_prepare_loop_unique byID batch now wall prepared :
  dl_prepare_loop byID batch now wall = Ok prepared →
  (∀ p b, p ∈ prepared → byID !! dl_ID p = Some b → dl_same b = dl_same p) ∧
  (∀ p q, p ∈ prepared → q ∈ prepared → dl_ID p = dl_ID q → dl_same p = dl_same q).
Proof.
  revert byID prepared. induction batch as [|d batch IH]; intros byID prepared H.
  { injection H as <-. split; intros *; by intros ?%not_elem_of_nil. }
  cbn [dl_prepare_loop] in H. apply bind_Ok in H as (r & _ & H).
  destruct (match byID !! _ with Some _ => _ | None => _ end) eqn:Hr; [done|].
  apply bind_Ok in H as (ps & Hps & [= <-]). destruct (IH _ _ Hps) as [IH1 IH2].
  assert (∀ p, p ∈ ps → dl_ID p = dl_ID r → dl_same r = dl_same p) as Hr1.
  { intros p Hp Hid. apply IH1; [done|]. by rewrite Hid, lookup_insert_eq. }
  assert (∀ b, byID !! dl_ID r = Some b → dl_same b = dl_same r) as Hr2.
  { intros b Hb. rewrite Hb, dl_SameIdentity_same in Hr. gobool. done. }
  split.
  - intros p b [->|Hp]%elem_of_cons Hb; [by apply Hr2|].
    destruct (decide (dl_ID p = dl_ID r)) as [Heq|Hne].
    + rewrite <-(Hr1 p Hp Heq). apply Hr2. congruence.
    + apply IH1; [done|]. by rewrite lookup_insert_ne.
  - intros p q [->|Hp]%elem_of_cons [->|Hq]%elem_of_cons Heq; [done|by apply Hr1| |by apply IH2].
    symmetry. by apply Hr1.
Qed.

(** After the loop every prepared delivery is stored, under its identity. *)
Lemma dstore_insert_all_stored st prepared :
  (∀ p q, p ∈ prepared → q ∈ prepared → dl_ID p = dl_ID q → dl_same p = dl_same q) →
  dstore_check st prepared = Ok tt →
  ∀ p, p ∈ prepared →
    ∃ s, deliveries (foldl dstore_insert st prepared) !! dl_ID p = Some s ∧ dl_same s = dl_same p.
Proof.
  revert st. induction prepared as [|r l IH]; intros st Huniq Hc p Hp; [by apply not_elem_of_nil in Hp|].
  rewrite dstore_check_Ok in Hc. cbn [foldl].
  assert (∃ s, deliveries (dstore_insert st r) !! dl_ID r = Some s ∧ dl_same s = dl_same r) as (s & Hs & Hss).
  { unfold dstore_insert. destruct (deliveries st !! dl_ID r) as [s|] eqn:E.
    - exists s. split; [done|]. apply Hc; [set_solver|done].
    - eexists. simpl. rewrite lookup_insert_eq. done. }
  apply elem_of_cons in Hp as [->|Hp]; [exists s; split; [by apply dstore_insert_keeps|done]|].
  apply IH; [set_solver| |done]. apply dstore_check_Ok. intros q s' Hq Hs'.
  destruct (decide (dl_ID q = dl_ID r)) as [Heq|Hne].
  - assert (s' = s) as -> by congruence. rewrite Hss. apply Huniq; [set_solver..|done].
  - unfold dstore_insert in Hs'. destruct (deliveries st !! dl_ID r); [by apply Hc; [set_solver|]|].
    simpl in Hs'. rewrite lookup_insert_ne in Hs' by done. by apply Hc; [set_solver|].
Qed.

Lemma dstore_insert_all_noop st prepared :
  (∀ p, p ∈ prepared → is_Some (deliveries st !! dl_ID p)) → foldl dstore_insert st prepared = st.
Proof.
  induction prepared as [|p l IH]; intros H; [done|]. cbn [foldl].
  assert (dstore_insert st p = st) as ->; [|apply IH; set_solver].
  unfold dstore_insert. destruct (H p) as [s ->]; [set_solver|done].
Qed.

Lemma dl_ValidateLoaded_New d : dl_valid d → dl_ValidateNew d = Ok tt.
Proof. unfold dl_valid, dl_ValidateLoaded. intros H. apply bind_Ok in H as ([] & ? & _). done. Qed.

(** An available delivery can be leased. *)
Lemma dl_Lease_succeeds d token now ttl wall :
  dl_valid d → dl_Attempt d + 1 < two63 → token ≠ "" → 0 < ttl → 0 ≤ now → 0 < wall →
  dl_LeaseAvailable d now wall = true → is_Ok (dl_Lease d token now ttl wall).
Proof.
  intros Hv Ha Ht Httl Hnow Hw Hav. pose proof (dl_valid_attempt _ Hv) as Hge.
  unfold dl_Lease, dl_ValidateLeaseDuration. rewrite (proj2 (Z.leb_gt _ _)) by done. cbn [result_bind].
  rewrite (proj2 (is_empty_false _)) by done.
  assert (dl_LeaseAvailable d (dl_NormalizeMutationTime wall now) wall = true) as ->
    by (unfold dl_LeaseAvailable in *; by rewrite dl_NormalizeMutationTime_idem).
  cbn [negb]. unfold dl_ValidateLoaded. rewrite (dl_ValidateNew_identity _ d) by done.
  rewrite (dl_ValidateLoaded_New _ Hv). cbn [result_bind dl_Attempt dl_State dl_LeaseToken dl_LeaseExpiresAt].
  rewrite i64_small by (unfold two63 in *; lia).
  rewrite (proj2 (Z.ltb_ge _ _)), (proj2 (Z.eqb_neq _ _)), (proj2 (is_empty_false _)) by (done || lia).
  assert (IsZero (time_Add (dl_NormalizeMutationTime wall now) ttl) = false) as ->; [|eexists; done].
  apply IsZero_false. unfold time_Add, dl_NormalizeMutationTime. case_match; lia.
Qed.

Lemma queue_head_iff n st d0 :
  dstore_wf n st → deliveries st !! dl_ID d0 = Some d0 →
  head (dstore_queue st (dl_partition d0)) = Some (dl_ID d0) ↔
  is_head (map_values (deliveries st)) (dl_partition d0) d0.
Proof.
  intros Hwf Hl. pose proof (queue_sorted _ _ Hwf (dl_partition d0)) as Hs.
  pose proof (elem_of_queue _ _ Hwf (dl_partition d0)) as Hq. split.
  - destruct (dstore_queue st (dl_partition d0)) as [|x rest]; [done|]. intros [= ->].
    destruct (proj1 (Hq (dl_ID d0))) as (d1 & Hd1 & Ht & _); [set_solver|].
    assert (d1 = d0) as -> by congruence. split_and!; [apply elem_of_map_values; eauto|done..|].
    intros d Hin Htd Hpd. apply elem_of_map_values in Hin as [i Hi].
    rewrite <-(seq_of_Some _ _ _ Hi), <-(seq_of_Some _ _ _ Hl).
    assert (i ∈ dl_ID d0 :: rest) as [->|Hin]%elem_of_cons by (apply Hq; by exists d); [done|].
    apply StronglySorted_inv in Hs as [_ Hall]. rewrite Forall_forall in Hall.
    specialize (Hall i Hin). simpl in Hall. lia.
  - intros Hh. pose proof Hh as (_ & Ht & _).
    assert ({| deliveries := <[dl_ID d0 := d0]> (deliveries st); nextSequence := nextSequence st |} = st)
      as Hst by (rewrite insert_id by done; by destruct st).
    edestruct (queue_head n st Hwf (dl_ID d0) d0 d0 Hl eq_refl Ht n) as (rest & -> & _);
      [by rewrite Hst|by right|done].
Qed.

Lemma dstore_heads_complete n st partition h :
  dstore_wf n st → is_head (map_values (deliveries st)) partition h →
  dstore_heads (map_values (deliveries st)) !! partition = Some h.
Proof.
  intros Hwf (Hin & Ht & Hp & Hm). pose proof (dstore_heads_spec (map_values (deliveries st)) partition) as Hs.
  destruct (dstore_heads _ !! partition) as [h'|]; [|by destruct (Hs h Hin Ht Hp)].
  destruct Hs as (Hin' & Ht' & Hp' & Hm'). f_equal. eapply map_values_sequence_inj; [done..|].
  pose proof (Hm h' Hin' Ht' Hp'). pose proof (Hm' h Hin Ht Hp). lia.
Qed.

Lemma queue_heads n st p id d :
  dstore_wf n st → head (dstore_queue st p) = Some id → deliveries st !! id = Some d →
  is_head (map_values (deliveries st)) p d.
Proof.
  intros Hwf Hq Hl. pose proof (dwf_id _ _ Hwf _ _ Hl) as <-.
  destruct (proj1 (elem_of_queue _ _ Hwf p (dl_ID d))) as (d' & Hd' & _ & Hp).
  { destruct (dstore_queue st p); [done|]. injection Hq as ->. set_solver. }
  assert (d' = d) as -> by congruence. subst p. by eapply queue_head_iff.
Qed.

Lemma dstore_heads_in st x :
  x ∈ map_values (dstore_heads (map_values (deliveries st))) → x ∈ map_values (deliveries st).
Proof.
  intros [p Hp]%elem_of_map_values. pose proof (dstore_heads_spec (map_values (deliveries st)) p) as H.
  rewrite Hp in H. apply H.
Qed.

Lemma dstore_Lease_Err n st now ttl wall e err :
  dstore_wf (Z.of_nat n) st → Z.of_nat n + 1 < two63 → 0 ≤ now → 0 < wall → 0 < ttl → entropy_ok e →
  dstore_Lease st None now ttl wall e = Err err →
  err = Sentinel ErrNoDelivery ∧
  ∀ p h, is_head (map_values (deliveries st)) p h →
    dl_LeaseAvailable h (dl_NormalizeMutationTime wall now) wall = false.
Proof.
  intros Hwf Hn Hnow Hw Httl He. unfold dstore_Lease, dl_ValidateLeaseDuration. cbn [ctx_Err result_bind].
  rewrite (proj2 (Z.leb_gt _ _)) by done. cbn [result_bind]. set (now' := dl_NormalizeMutationTime wall now).
  set (cands := dstore_candidates _ now' wall). pose proof (SortFunc_perm dl_Compare cands) as Hp.
  destruct (SortFunc dl_Compare cands) as [|d rest].
  - intros [= <-]. split; [done|]. intros p h Hh%(dstore_heads_complete _ _ _ _ Hwf).
    destruct (dl_LeaseAvailable h now' wall) eqn:E; [|done].
    assert (h ∈ cands) as Hin by (apply list_elem_of_filter; split; [done|apply elem_of_map_values; eauto]).
    rewrite <-Hp in Hin. by apply not_elem_of_nil in Hin.
  - assert (d ∈ cands) as Hin by (rewrite <-Hp; set_solver).
    apply list_elem_of_filter in Hin as [Hav [i Hd]%dstore_heads_in%elem_of_map_values].
    pose proof (dwf_attempt _ _ Hwf _ _ Hd).
    destruct (dl_Lease_succeeds d (NewID e) now' ttl wall) as [d' ->]; [by eapply dwf_valid|lia|
      by apply NewID_nonempty|done|unfold now', dl_NormalizeMutationTime; case_match; lia|done..].
Qed.

(** *** The effect of each call on the queues *)

Section refinement.
Context (n : nat) (st : dstore) (Hwf : dstore_wf (Z.of_nat n) st) (Hn : Z.of_nat n + 1 < two63).

Lemma queue_Enqueue batch wall st' p :
  Z.of_nat (n + length batch) < two63 → dstore_Enqueue st None batch wall = Ok st' →
  dstore_queue st' p = dstore_queue st p ++ fresh_ids (dom (deliveries st)) p batch.
Proof using Hwf.
  intros Hb H. apply dstore_Enqueue_Ok in H as (prepared & Hp & Hf & _ & ->).
  pose proof (Forall2_length _ _ _ Hp) as Hlen.
  rewrite (queue_insert_all (Z.of_nat n)) by (done || lia). by erewrite fresh_ids_prepared.
Qed.

Lemma queue_Lease now ttl wall e d st' :
  0 ≤ now → 0 < wall → dstore_Lease st None now ttl wall e = Ok (d, st') →
  head (dstore_queue st (dl_partition d)) = Some (dl_ID d) ∧
  ∀ p, dstore_queue st' p = dstore_queue st p.
Proof using Hwf Hn.
  intros Hnow Hw H. pose proof (dstep_Lease _ _ _ _ _ _ _ _ Hnow Hw H) as Hs.
  pose proof (dwf_step _ _ 1 _ _ Hwf ltac:(lia) Hs) as Hwf'.
  destruct (dstore_Lease_Ok _ _ _ _ _ _ _ _ _ Hwf H) as (d0 & Hl & Hh & _ & Hd & ->).
  pose proof (dl_Lease_Ok _ _ _ _ _ _ Hd) as (_ & Hi & Hsd & _). pose proof Hh as (_ & Ht0 & _).
  assert (dl_ID d = dl_ID d0) as HID by (unfold dl_identity in Hi; congruence).
  rewrite (dl_partition_identity _ _ Hi), HID. split; [by eapply queue_head_iff|].
  intros p. eapply (queue_same _ _ Hwf); [done..|]. left. unfold Delivery_Terminal. by rewrite Hsd.
Qed.

Lemma queue_Retry id token avail err wall st' p :
  dstore_Retry st None id token avail err wall = Ok st' → dstore_queue st' p = dstore_queue st p.
Proof using Hwf Hn.
  intros H. pose proof (dstep_Retry _ _ _ _ _ _ _ _ H) as Hs.
  pose proof (dwf_step _ _ 1 _ _ Hwf ltac:(lia) Hs) as Hwf'.
  apply dstore_transition_Ok in H as (d0 & d & Hl & Hd & ->).
  pose proof (dl_FinishLease_Ok _ _ _ _ _ _ _ _ Hd) as (_ & Hi & Hsd & _ & _ & Hs0 & _).
  eapply (queue_same _ _ Hwf); [done|done| |done|left]; unfold Delivery_Terminal;
    [by rewrite Hs0|by rewrite Hsd].
Qed.

Lemma queue_Finish id token now err wall st' :
  dstore_Ack st None id token now wall = Ok st' ∨
  dstore_DeadLetter st None id token now err wall = Ok st' →
  ∃ p, dstore_queue st p = id :: dstore_queue st' p ∧
       ∀ p', p' ≠ p → dstore_queue st' p' = dstore_queue st p'.
Proof using Hwf Hn.
  intros H. assert (dstore_wf (Z.of_nat n + Z.of_nat 1) st') as Hwf'
    by (eapply dwf_step; [done|lia|]; destruct H; [by eapply dstep_Ack|by eapply dstep_DeadLetter]).
  assert (∃ state, (state = DeliveryDelivered ∨ state = DeliveryDeadLetter) ∧
            ∃ text, dstore_transition st None id token now state zeroTime text wall = Ok st')
    as (state & Hstate & text & Htr) by (destruct H; eauto 10).
  apply dstore_transition_Ok in Htr as (d0 & d & Hl & Hd & ->).
  pose proof (dl_FinishLease_Ok _ _ _ _ _ _ _ _ Hd) as (_ & Hi & Hsd & _ & _ & Hs0 & _).
  assert (Delivery_Terminal d0 = false) as Ht0 by (unfold Delivery_Terminal; by rewrite Hs0).
  destruct (queue_head _ _ Hwf id d0 d Hl Hi Ht0 _ Hwf' ltac:(by left)) as (rest & Hq & Hrest).
  exists (dl_partition d0). rewrite Hq, Hrest; [split; [done|]|].
  - intros p' Hp'. eapply (queue_same _ _ Hwf); eauto.
  - unfold Delivery_Terminal. rewrite Hsd. by destruct Hstate as [->| ->].
Qed.
End refinement.

(** ** Theorems *)

(** Invariant of the delivery store: every stored delivery is filed under its ID, passes the
    loader's validation and has a sequence number of its own; and a leased delivery is the oldest
    unfinished delivery of its partition, so no partition has two deliveries in flight and none
    overtakes an earlier one. *)
Theorem dstore_invariant n st :
  dstore_reach n st → Z.of_nat n < two63 →
  (∀ id d, deliveries st !! id = Some d →
     dl_ID d = id ∧ dl_ValidateLoaded d = Ok tt ∧ 0 < dl_Sequence d ≤ nextSequence st) ∧
  (∀ id1 d1 id2 d2, deliveries st !! id1 = Some d1 → deliveries st !! id2 = Some d2 →
     dl_Sequence d1 = dl_Sequence d2 → id1 = id2) ∧
  (∀ id1 d1 id2 d2, deliveries st !! id1 = Some d1 → deliveries st !! id2 = Some d2 →
     dl_State d1 = DeliveryLeased → dl_partition d1 = dl_partition d2 → id1 ≠ id2 →
     Delivery_Terminal d2 = false → dl_Sequence d1 < dl_Sequence d2 ∧ dl_State d2 = DeliveryPending).
Proof.
  intros Hr Hn. pose proof (dstore_reach_wf _ _ Hr Hn) as Hwf. split_and!.
  - intros id d H. split_and!; [by eapply dwf_id|by eapply dwf_valid|by eapply (dwf_sequence _ _ Hwf)..].
  - intros. by eapply dwf_unique.
  - intros id1 d1 id2 d2 H1 H2 Hs Hp Hne Ht.
    pose proof (dwf_head _ _ Hwf _ _ _ _ H1 H2 Hs Ht Hp).
    assert (dl_Sequence d1 ≠ dl_Sequence d2) by (intros ?; by eapply Hne, dwf_unique). split; [lia|].
    pose proof (dwf_valid _ _ Hwf _ _ H2) as Hv. unfold dl_valid, dl_ValidateLoaded in Hv.
    unfold Delivery_Terminal in Ht. destruct (dl_State d2) eqn:Hs2; try done; [|by inv_ok].
    assert (Delivery_Terminal d1 = false) as Ht1 by (unfold Delivery_Terminal; by rewrite Hs).
    pose proof (dwf_head _ _ Hwf _ _ _ _ H2 H1 Hs2 Ht1 (eq_sym Hp)). lia.
Qed.

(** C24. Refinement: the store implements one first-in first-out queue per partition.  Enqueuing
    appends the new IDs of the batch in order; leasing gives the head of a queue and moves nothing;
    retrying moves nothing; acknowledging and dead-lettering remove the head of one queue. *)
Theorem dstore_refines_queues n st :
  dstore_reach n st → Z.of_nat n + 1 < two63 →
  (∀ batch wall st', Z.of_nat (n + length batch) < two63 → dstore_Enqueue st None batch wall = Ok st' →
     ∀ p, dstore_queue st' p = dstore_queue st p ++ fresh_ids (dom (deliveries st)) p batch) ∧
  (∀ now ttl wall e d st', 0 ≤ now → 0 < wall → dstore_Lease st None now ttl wall e = Ok (d, st') →
     head (dstore_queue st (dl_partition d)) = Some (dl_ID d) ∧
     ∀ p, dstore_queue st' p = dstore_queue st p) ∧
  (∀ id token availableAt lastError wall st',
     dstore_Retry st None id token availableAt lastError wall = Ok st' →
     ∀ p, dstore_queue st' p = dstore_queue st p) ∧
  (∀ id token now lastError wall st',
     dstore_Ack st None id token now wall = Ok st' ∨
     dstore_DeadLetter st None id token now lastError wall = Ok st' →
     ∃ p, dstore_queue st p = id :: dstore_queue st' p ∧
          ∀ p', p' ≠ p → dstore_queue st' p' = dstore_queue st p').
Proof.
  intros Hr Hn. pose proof (dstore_reach_wf _ _ Hr ltac:(lia)) as Hwf.
  split_and!; eauto using queue_Enqueue, queue_Lease, queue_Retry, queue_Finish.
Qed.

(** Leasing is complete: a lease call fails only with [ErrNoDelivery], and only when no queue
    has an available head; otherwise it leases, for one more attempt and under the minted token,
    the available head with the lowest sequence number. *)
Theorem dstore_lease_progress n st now ttl wall e :
  dstore_reach n st → Z.of_nat n + 1 < two63 → 0 ≤ now → 0 < wall → 0 < ttl → entropy_ok e →
  match dstore_Lease st None now ttl wall e with
  | Ok (d, _) =>
      ∃ d0, deliveries st !! dl_ID d = Some d0 ∧ dl_LeaseAvailable d0 now wall = true ∧
        head (dstore_queue st (dl_partition d0)) = Some (dl_ID d) ∧
        dl_LeaseToken d = NewID e ∧ dl_Attempt d = dl_Attempt d0 + 1 ∧
        dl_LeaseExpiresAt d = dl_NormalizeMutationTime wall now + ttl ∧
        (∀ p id d1, head (dstore_queue st p) = Some id → deliveries st !! id = Some d1 →
           dl_LeaseAvailable d1 now wall = true → dl_Sequence d ≤ dl_Sequence d1)
  | Err err =>
      err = Sentinel ErrNoDelivery ∧
      ∀ p id d1, head (dstore_queue st p) = Some id → deliveries st !! id = Some d1 →
        dl_LeaseAvailable d1 now wall = false
  end.
Proof.
  intros Hr Hn Hnow Hw Httl He. pose proof (dstore_reach_wf _ _ Hr ltac:(lia)) as Hwf.
  assert (∀ d1, dl_LeaseAvailable d1 (dl_NormalizeMutationTime wall now) wall = dl_LeaseAvailable d1 now wall)
    as Hav by (intros; unfold dl_LeaseAvailable; by rewrite dl_NormalizeMutationTime_idem).
  assert (∀ p id d1, head (dstore_queue st p) = Some id → deliveries st !! id = Some d1 →
            is_head (map_values (deliveries st)) p d1) as Hheads by eauto using queue_heads.
  destruct (dstore_Lease st None now ttl wall e) as [[d st']|err] eqn:H.
  - destruct (dstore_Lease_Ok _ _ _ _ _ _ _ _ _ Hwf H) as (d0 & Hl & Hh & Hmin & Hd & ->).
    destruct (dl_Lease_Ok _ _ _ _ _ _ Hd) as (_ & Hi & _ & Ht & Ha & _ & Hexp & _ & _ & Hav0).
    assert (dl_ID d = dl_ID d0 ∧ dl_Sequence d = dl_Sequence d0) as [HID Hseq]
      by (unfold dl_identity in Hi; split; congruence).
    exists d0. rewrite HID, Hseq. pose proof (dwf_attempt _ _ Hwf _ _ Hl).
    rewrite i64_small in Ha by (unfold two63 in *; lia). rewrite dl_NormalizeMutationTime_idem in Hexp.
    split_and!; [done|by rewrite <-Hav|by eapply queue_head_iff|done..|].
    intros p id d1 Hq Hl1 Hav1. eapply Hmin; [by eapply Hheads|by rewrite Hav].
  - apply dstore_Lease_Err with (n := n) in H as [-> Hnone]; [|done..]. split; [done|].
    intros p id d1 Hq Hl1. destruct (dl_LeaseAvailable d1 now wall) eqn:E; [|done].
    rewrite <-Hav in E. by rewrite (Hnone p d1 (Hheads p id d1 Hq Hl1)) in E.
Qed.

(** Neither the iteration order of Go's maps nor the choices of [slices.SortFunc] are visible:
    for any order in which [Lease] visits the store and the heads, and for any sorted result, the
    lease is the one of the model, and the listing is the list of the model. *)
Theorem dstore_order_independent n st iteration heads candidates sorted now ttl wall e :
  dstore_reach n st → Z.of_nat n < two63 → 0 < ttl →
  iteration ≡ₚ map_values (deliveries st) → heads ≡ₚ map_values (dstore_heads iteration) →
  candidates = dstore_candidates heads (dl_NormalizeMutationTime wall now) wall →
  sorted ≡ₚ candidates → StronglySorted (cmp_le dl_Compare) sorted →
  dstore_Lease st None now ttl wall e =
    match sorted with
    | [] => Err (Sentinel ErrNoDelivery)
    | d :: _ =>
        let? d := dl_Lease d (NewID e) (dl_NormalizeMutationTime wall now) ttl wall in
        Ok (d, {| deliveries := <[dl_ID d := d]> (deliveries st); nextSequence := nextSequence st |})
    end ∧
  dstore_List st None = Ok (SortFunc dl_Compare iteration).
Proof.
  intros Hr Hn Httl Hit Hh -> Hp Hs. pose proof (dstore_reach_wf _ _ Hr Hn) as Hwf.
  unfold dstore_Lease, dstore_List, dl_ValidateLeaseDuration. cbn [ctx_Err result_bind].
  rewrite (proj2 (Z.leb_gt _ _)) by done. cbn [result_bind].
  rewrite (dstore_heads_perm (map_values (deliveries st)) iteration) in Hh
    by (try done; intros x y; by eapply map_values_sequence_inj). split.
  - erewrite (SortFunc_unique _ dl_Compare_ok _ sorted); [done| |by rewrite Hp; unfold dstore_candidates; rewrite Hh|done].
    intros x y Hx Hy Hc%dl_Compare_zero. apply list_elem_of_filter in Hx as [_ Hx], Hy as [_ Hy].
    eapply map_values_inj; [done|by apply dstore_heads_in..|done].
  - f_equal. symmetry. apply (SortFunc_perm_eq _ dl_Compare_ok); [|done].
    intros x y Hx Hy Hc%dl_Compare_zero. by eapply map_values_inj.
Qed.

(** A worker that lost its lease cannot touch the delivery: when the delivery is not leased
    under its token, then after any further calls that do not mint the token again, acknowledging,
    retrying and dead-lettering with it all fail with [ErrDeliveryLease]. *)
Theorem dstore_stale_token_refused n k minted st st' id d token now avail text wall :
  dstore_reach n st → dstore_run k minted st st' → Z.of_nat (n + k) < two63 →
  deliveries st !! id = Some d → ¬ (dl_State d = DeliveryLeased ∧ dl_LeaseToken d = token) →
  token ∉ minted →
  ∃ e1 e2 e3,
    dstore_Ack st' None id token now wall = Err e1 ∧
    dstore_Retry st' None id token avail text wall = Err e2 ∧
    dstore_DeadLetter st' None id token now text wall = Err e3 ∧
    errors_Is e1 ErrDeliveryLease = true ∧ errors_Is e2 ErrDeliveryLease = true ∧
    errors_Is e3 ErrDeliveryLease = true.
Proof.
  intros Hr Hrun Hn Hl Hst Hm. pose proof (dstore_reach_wf _ _ Hr ltac:(lia)) as Hwf.
  destruct (dstore_run_leads _ k _ _ _ _ _ Hwf ltac:(lia) Hrun Hl) as (d' & Hl' & _ & _ & Htok).
  assert (bool_decide (dl_State d' ≠ DeliveryLeased) || bool_decide (dl_LeaseToken d' ≠ token) = true) as Hg.
  { gobool. destruct (decide (dl_State d' = DeliveryLeased)) as [Hs|]; [right|by left].
    intros <-. destruct (Htok Hs) as [[? ?]|?]; [by apply Hst|done]. }
  unfold dstore_Ack, dstore_Retry, dstore_DeadLetter, dstore_transition, dl_FinishLease.
  simpl. rewrite Hl', Hg. simpl. eauto 10.
Qed.

(** A delivered or dead-lettered delivery is final: no call but a purge changes it, so it is
    never handed out again. *)
Theorem dstore_terminal_final n k minted st st' id d :
  dstore_reach n st → dstore_run k minted st st' → Z.of_nat (n + k) < two63 →
  deliveries st !! id = Some d → Delivery_Terminal d = true →
  deliveries st' !! id = Some d.
Proof.
  intros Hr Hrun Hn Hl Ht. pose proof (dstore_reach_wf _ _ Hr ltac:(lia)) as Hwf.
  destruct (dstore_run_leads _ k _ _ _ _ _ Hwf ltac:(lia) Hrun Hl) as (d' & Hl' & _ & Hd & _).
  by rewrite (Hd Ht) in Hl'.
Qed.

(** Enqueuing is idempotent: once a batch was accepted, and after any calls but a purge,
    enqueuing it again is accepted and changes nothing, so no delivery is sent or renumbered twice. *)
Theorem dstore_enqueue_idempotent n k minted st batch wall st1 st2 wall2 :
  dstore_reach n st → dstore_Enqueue st None batch wall = Ok st1 → dstore_run k minted st1 st2 →
  Z.of_nat (n + length batch + k) < two63 →
  dstore_Enqueue st2 None batch wall2 = Ok st2.
Proof.
  intros Hr He Hrun Hn. pose proof (dstore_reach_wf _ _ Hr ltac:(lia)) as Hwf.
  pose proof (dwf_step _ [] (length batch) _ _ Hwf ltac:(lia) (dstep_Enqueue _ _ _ _ _ He)) as Hwf1.
  unfold dstore_Enqueue in He |- *. cbn [ctx_Err result_bind] in *.
  apply bind_Ok in He as (prepared & Hp & He). apply bind_Ok in He as ([] & Hc & [= <-]).
  destruct (dl_prepare_loop_unique _ _ _ _ _ Hp) as [_ Huniq].
  pose proof (dstore_insert_all_stored _ _ Huniq Hc) as Hstored.
  destruct (dl_prepare_loop_again ∅ ∅ batch wall wall wall2 wall2 prepared ltac:(done) Hp)
    as (prepared2 & Hp2 & Hsame & _).
  unfold dl_PrepareNewBatch. rewrite Hp2. cbn [result_bind].
  assert (∀ p2, p2 ∈ prepared2 → ∃ s, deliveries st2 !! dl_ID p2 = Some s ∧ dl_same s = dl_same p2) as Hall.
  { intros p2 [i Hi]%list_elem_of_lookup.
    destruct (Forall2_lookup_r _ _ _ _ _ Hsame Hi) as (p & Hpi & Hpp).
    destruct (Hstored p) as (s & Hs & Hss); [by eapply list_elem_of_lookup_2|].
    assert (dl_ID p2 = dl_ID p) as -> by (unfold dl_same in Hpp; congruence).
    destruct (dstore_run_leads _ k _ _ _ _ _ Hwf1 ltac:(lia) Hrun Hs) as (s' & Hs' & Hi' & _).
    exists s'. split; [done|]. rewrite (dl_same_identity _ _ Hi'). congruence. }
  rewrite (proj2 (dstore_check_Ok st2 prepared2)).
  - cbn [result_bind]. f_equal. apply dstore_insert_all_noop. intros p Hpin.
    destruct (Hall p Hpin) as (s & -> & _). eauto.
  - intros p s Hpin Hs. destruct (Hall p Hpin) as (s' & Hs' & ?). congruence.
Qed.

(** Purging removes exactly the finished deliveries last updated before the cutoff, reports
    their number, and leaves every queue as it was. *)
Theorem dstore_purge_exact n st before removed st' :
  dstore_reach n st → Z.of_nat n < two63 →
  dstore_PurgeTerminal st None before = Ok (removed, st') →
  (∀ id d, deliveries st' !! id = Some d ↔
     deliveries st !! id = Some d ∧ ¬ (Delivery_Terminal d = true ∧ dl_UpdatedAt d < before)) ∧
  (∀ p, dstore_queue st' p = dstore_queue st p) ∧
  removed + Z.of_nat (size (deliveries st')) = Z.of_nat (size (deliveries st)).
Proof.
  intros Hr Hn Hp. pose proof (dstore_reach_wf _ _ Hr Hn) as Hwf.
  pose proof (dwf_purge _ _ _ Hwf (dstep_Purge _ _ _ _ _ Hp)) as Hwf'.
  assert (∀ id d, deliveries st' !! id = Some d ↔
     deliveries st !! id = Some d ∧ ¬ (Delivery_Terminal d = true ∧ dl_UpdatedAt d < before)) as Hlk.
  { intros id d. rewrite (dstore_Purge_lookup _ _ _ _ _ _ Hp). apply bind_purge. }
  split_and!; [done| |by eapply dstore_Purge_count]. intros p. eapply queue_char; [done|..].
  - intros id. rewrite (elem_of_queue _ _ Hwf). unfold queued, in_partition. split.
    + intros (d & Hd & Ht & ?). exists d. rewrite Hlk. split_and!; try done. intros []. congruence.
    + intros (d & [Hd _]%Hlk & ?). eauto.
  - eapply StronglySorted_ext; [|by eapply queue_sorted]. simpl.
    intros x y (dx & Hx & Htx & _)%(elem_of_queue _ _ Hwf) (dy & Hy & Hty & _)%(elem_of_queue _ _ Hwf).
    unfold seq_of. rewrite Hx, Hy, (proj2 (Hlk x dx)), (proj2 (Hlk y dy)); [done|..];
      (split; [done|intros []; congruence]).
Qed.

(** ** Witnesses

    Two deliveries of one subscription are enqueued at instant 1000; the first is leased at 2000
    for 500 and acknowledged at 2100. *)

Definition ex_event (id : string) : Event :=
  {| ev_ID := id; ev_Name := "turn.end"; ev_SessionID := "s-1"; ev_Generation := 1; ev_Payload := "{}" |}.

Definition ex_delivery (id : string) : Delivery :=
  {| dl_ID := id; dl_Sequence := 0; dl_Plugin := "memory"; dl_PluginVersion := "1";
     dl_Subscription := "recorder"; dl_ResourceRevision := ""; dl_Partition := "";
     dl_Event := ex_event "e-1"; dl_State := DeliveryPending; dl_Attempt := 0; dl_AvailableAt := 0;
     dl_LeaseToken := ""; dl_LeaseExpiresAt := 0; dl_LastError := ""; dl_CreatedAt := 0; dl_UpdatedAt := 0 |}.

Definition ex_batch : list Delivery := [ex_delivery "d-1"; ex_delivery "d-2"; ex_delivery "d-1"].
Definition ex_ds1 := get newMemoryDeliveryStore (dstore_Enqueue newMemoryDeliveryStore None ex_batch 1000).
Definition ex_lease := get (ex_delivery "", ex_ds1) (dstore_Lease ex_ds1 None 2000 500 2000 (ex_entropy 4)).
Definition ex_ds2 := ex_lease.2.
Definition ex_ds3 := get ex_ds2 (dstore_Ack ex_ds2 None "d-1" (NewID (ex_entropy 4)) 2100 2100).
Definition ex_d1 := default (ex_delivery "") (deliveries ex_ds1 !! "d-1").
Definition ex_d3 := default (ex_delivery "") (deliveries ex_ds3 !! "d-1").

Lemma ex_dstep1 : dstore_step [] 3 newMemoryDeliveryStore ex_ds1.
Proof. apply (dstep_Enqueue _ None ex_batch 1000). by vm_compute. Qed.

Lemma ex_dstep2 : dstore_step [NewID (ex_entropy 4)] 1 ex_ds1 ex_ds2.
Proof. apply (dstep_Lease _ None 2000 500 2000 (ex_entropy 4) ex_lease.1); by vm_compute. Qed.

Lemma ex_dstep3 : dstore_step [] 1 ex_ds2 ex_ds3.
Proof. apply (dstep_Ack _ None "d-1" (NewID (ex_entropy 4)) 2100 2100). by vm_compute. Qed.

Lemma ex_dreach1 : dstore_reach 3 ex_ds1.
Proof. apply (dreach_step 0 3 [] newMemoryDeliveryStore); [apply dreach_new|apply ex_dstep1]. Qed.

Lemma ex_dreach2 : dstore_reach 4 ex_ds2.
Proof. eapply (dreach_step 3 1 _ ex_ds1); [apply ex_dreach1|apply ex_dstep2]. Qed.

Lemma ex_dreach3 : dstore_reach 5 ex_ds3.
Proof. eapply (dreach_step 4 1 _ ex_ds2); [apply ex_dreach2|apply ex_dstep3]. Qed.

Lemma ex_drun12 : dstore_run 1 [NewID (ex_entropy 4)] ex_ds1 ex_ds2.
Proof. apply (drun_step 0 1 [] [NewID (ex_entropy 4)] ex_ds1 ex_ds1 ex_ds2); [apply drun_refl|apply ex_dstep2]. Qed.

Lemma ex_drun13 : dstore_run 2 [NewID (ex_entropy 4)] ex_ds1 ex_ds3.
Proof. apply (drun_step 1 1 [NewID (ex_entropy 4)] [] ex_ds1 ex_ds2 ex_ds3); [apply ex_drun12|apply ex_dstep3]. Qed.

Lemma dstore_invariant_witness :
  ∃ d2, deliveries ex_ds2 !! "d-2" = Some d2 ∧ dl_Sequence ex_lease.1 < dl_Sequence d2.
Proof.
  eexists. split; [by vm_compute|].
  eapply (proj2 (proj2 (dstore_invariant 4 ex_ds2 ex_dreach2 ltac:(by vm_compute))) "d-1" ex_lease.1 "d-2");
    by vm_compute.
Defined.

Lemma dstore_refines_queues_witness :
  ∃ p, dstore_queue ex_ds2 p = "d-1" :: dstore_queue ex_ds3 p ∧
       ∀ p', p' ≠ p → dstore_queue ex_ds3 p' = dstore_queue ex_ds2 p'.
Proof.
  apply (proj2 (proj2 (proj2 (dstore_refines_queues 4 ex_ds2 ex_dreach2 ltac:(by vm_compute))))
    "d-1" (NewID (ex_entropy 4)) 2100 "" 2100). left. by vm_compute.
Defined.

Lemma dstore_lease_progress_witness :
  dstore_Lease ex_ds2 None 2100 500 2100 (ex_entropy 5) = Err (Sentinel ErrNoDelivery) ∧
  ∀ p id d1, head (dstore_queue ex_ds2 p) = Some id → deliveries ex_ds2 !! id = Some d1 →
    dl_LeaseAvailable d1 2100 2100 = false.
Proof.
  pose proof (dstore_lease_progress 4 ex_ds2 2100 500 2100 (ex_entropy 5) ex_dreach2 ltac:(by vm_compute)
    ltac:(done) ltac:(done) ltac:(done) ltac:(by apply ex_entropy_ok)) as H.
  assert (dstore_Lease ex_ds2 None 2100 500 2100 (ex_entropy 5) = Err (Sentinel ErrNoDelivery)) as E
    by (by vm_compute).
  split; [exact E|]. rewrite E in H. apply H.
Defined.

Lemma dstore_order_independent_witness :
  dstore_List ex_ds1 None = Ok (SortFunc dl_Compare (rev (map_values (deliveries ex_ds1)))).
Proof.
  apply (dstore_order_independent 3 ex_ds1 (rev (map_values (deliveries ex_ds1)))
    (map_values (dstore_heads (rev (map_values (deliveries ex_ds1)))))
    [ex_d1] [ex_d1] 2000 500 2000 (ex_entropy 4) ex_dreach1);
    first [by vm_compute|apply Permutation_sym, Permutation_rev|done|repeat constructor].
Defined.

Lemma dstore_stale_token_refused_witness :
  ∃ e1 e2 e3,
    dstore_Ack ex_ds2 None "d-1" "stale" 2100 2100 = Err e1 ∧
    dstore_Retry ex_ds2 None "d-1" "stale" 3000 "late" 2100 = Err e2 ∧
    dstore_DeadLetter ex_ds2 None "d-1" "stale" 2100 "late" 2100 = Err e3 ∧
    errors_Is e1 ErrDeliveryLease = true ∧ errors_Is e2 ErrDeliveryLease = true ∧
    errors_Is e3 ErrDeliveryLease = true.
Proof.
  apply (dstore_stale_token_refused 3 1 [NewID (ex_entropy 4)] ex_ds1 ex_ds2 "d-1" ex_d1 "stale" 2100 3000
    "late" 2100 ex_dreach1 ex_drun12); try by vm_compute.
  - vm_compute. by intros [? _].
  - vm_compute. by intros [H|H]%elem_of_cons; [|inversion H].
Defined.

Lemma dstore_terminal_final_witness : deliveries ex_ds3 !! "d-1" = Some ex_d3.
Proof.
  apply (dstore_terminal_final 5 0 [] ex_ds3 ex_ds3 "d-1" ex_d3 ex_dreach3 (drun_refl _)); by vm_compute.
Defined.

Lemma dstore_enqueue_idempotent_witness : dstore_Enqueue ex_ds3 None ex_batch 9000 = Ok ex_ds3.
Proof.
  apply (dstore_enqueue_idempotent 0 2 [NewID (ex_entropy 4)] newMemoryDeliveryStore ex_batch 1000 ex_ds1);
    first [apply dreach_new|apply ex_drun13|by vm_compute].
Defined.

Lemma dstore_purge_exact_witness :
  ∃ st', dstore_PurgeTerminal ex_ds3 None 3000 = Ok (1, st') ∧
         ∀ p, dstore_queue st' p = dstore_queue ex_ds3 p.
Proof.
  eexists. split; [by vm_compute|].
  eapply (dstore_purge_exact 5 ex_ds3 3000 1 _ ex_dreach3); by vm_compute.
Defined.
