(* ===== verification/DeliveryWorker.v ===== *)
(** The delivery worker of [internal/deliveryworker]: [target.go] derives deliveries from events,
    [runner.go] leases a delivery, runs the subscriber and records the outcome.  The worker is
    written against the interface of a delivery store ([DeliveryQueue], with the laws it relies on in
    [DeliveryQueueLaws]); the in-memory store of [DeliveryStore] is an instance. *)

From S2P Require Import Prelude GoText Names Delivery DeliveryStore.

(** ** Targets *)

Record Target := {
  tg_Plugin : string;
  tg_PluginVersion : string;
  tg_Subscription : string;
  tg_ResourceRevision : string;
}.

Definition Target_deliveryID (target : Target) (event : Event) : string :=
  let id := ev_ID event +:+ "." +:+ tg_Subscription target in
  if is_empty (tg_ResourceRevision target) then id
  else id +:+ "." +:+ tg_ResourceRevision target.

Definition Target_partition (target : Target) (event : Event) : string :=
  let partition := tg_Subscription target in
  if negb (is_empty (ev_SessionID event)) then partition +:+ "/" +:+ ev_SessionID event else partition.

Definition Target_Record (target : Target) (event : Event) (now : time) : Delivery :=
  {| dl_ID := Target_deliveryID target event; dl_Sequence := 0;
     dl_Plugin := tg_Plugin target; dl_PluginVersion := tg_PluginVersion target;
     dl_Subscription := tg_Subscription target;
     dl_ResourceRevision := tg_ResourceRevision target;
     dl_Partition := Target_partition target event; dl_Event := event;
     dl_State := DeliveryStateOther ""; dl_Attempt := 0; dl_AvailableAt := zeroTime;
     dl_LeaseToken := ""; dl_LeaseExpiresAt := zeroTime; dl_LastError := "";
     dl_CreatedAt := now; dl_UpdatedAt := zeroTime |}.

Definition Target_Validate (target : Target) (delivery : Delivery) : result unit :=
  fail_if bool_decide (dl_Plugin delivery ≠ tg_Plugin target)
          || bool_decide (dl_Subscription delivery ≠ tg_Subscription target) with
    Errorf "delivery targets plugin %s subscriber %s; current target is plugin %s subscriber %s"
      [AStr (dl_Plugin delivery); AStr (dl_Subscription delivery);
       AStr (tg_Plugin target); AStr (tg_Subscription target)];
  fail_if negb (is_empty (dl_PluginVersion delivery))
          && bool_decide (dl_PluginVersion delivery ≠ tg_PluginVersion target) with
    Errorf "delivery targets plugin version %q, current version is %q"
      [AStr (dl_PluginVersion delivery); AStr (tg_PluginVersion target)];
  fail_if negb (is_empty (dl_ResourceRevision delivery))
          && bool_decide (dl_ResourceRevision delivery ≠ tg_ResourceRevision target) with
    Errorf "delivery resource revision %q does not match current revision %q"
      [AStr (dl_ResourceRevision delivery); AStr (tg_ResourceRevision target)];
  Ok tt.

Definition Target_Matches (target : Target) (delivery : Delivery) : bool :=
  result_ok (Target_Validate target delivery).

Definition Targets_Matches (targets : gmap string Target) (delivery : Delivery) : bool :=
  match targets !! dl_Subscription delivery with
  | Some target => Target_Matches target delivery
  | None => false
  end.

Definition Targets_MatchesAny (targets : gmap string Target) (deliveries : list Delivery) : bool :=
  existsb (Targets_Matches targets) deliveries.

(** ** The interface of a delivery store *)

Class DeliveryQueue (S : Type) := {
  q_Lease : S → context → time → duration → time → entropy → result (Delivery * S);
  q_Ack : S → context → string → string → time → time → result S;
  q_Retry : S → context → string → string → time → string → time → result S;
  q_DeadLetter : S → context → string → string → time → string → time → result S;
  (* the delivery stored under an ID *)
  q_view : S → string → option Delivery;
}.

(** What a finished lease leaves: the state, the next attempt's time and the error. *)
Record finished (d d' : Delivery) (state : DeliveryState) (availableAt : time) (lastError : string)
    : Prop := {
  finished_state : dl_State d' = state;
  finished_identity : dl_identity d' = dl_identity d;
  finished_attempt : dl_Attempt d' = dl_Attempt d;
  finished_available : dl_AvailableAt d' = availableAt;
  finished_error : dl_LastError d' = lastError;
  finished_token : dl_LeaseToken d' = "";
}.

Class DeliveryQueueLaws (S : Type) `{DeliveryQueue S} := {
  q_ok : S → Prop;
  law_Lease st ctx now ttl wall e d st' :
    q_ok st → q_Lease st ctx now ttl wall e = Ok (d, st') →
    q_view st' (dl_ID d) = Some d ∧ dl_State d = DeliveryLeased ∧ dl_valid d;
  law_Ack st d now wall :
    q_view st (dl_ID d) = Some d → dl_State d = DeliveryLeased → dl_valid d →
    ∃ st' d', q_Ack st None (dl_ID d) (dl_LeaseToken d) now wall = Ok st' ∧
      q_view st' (dl_ID d) = Some d' ∧ finished d d' DeliveryDelivered zeroTime (dl_LastError d);
  law_Retry st d availableAt lastError wall :
    q_view st (dl_ID d) = Some d → dl_State d = DeliveryLeased → dl_valid d →
    ∃ st' d', q_Retry st None (dl_ID d) (dl_LeaseToken d) availableAt lastError wall = Ok st' ∧
      q_view st' (dl_ID d) = Some d' ∧ finished d d' DeliveryPending availableAt lastError;
  law_DeadLetter st d now lastError wall :
    q_view st (dl_ID d) = Some d → dl_State d = DeliveryLeased → dl_valid d →
    ∃ st' d', q_DeadLetter st None (dl_ID d) (dl_LeaseToken d) now lastError wall = Ok st' ∧
      q_view st' (dl_ID d) = Some d' ∧ finished d d' DeliveryDeadLetter zeroTime lastError;
}.

(** ** The runner *)

Record Runner := {
  rn_Lease : duration;
  rn_Poll : duration;
  rn_MaxAttempts : Z;
}.

(** How the handler ends: without an error, with an error (its text, and the text of the cause when
    a [permanentError] is in its chain), or with a panic. *)
Inductive handler_outcome :=
  | HandlerOk
  | HandlerError (text : string) (permanent : option string)
  | HandlerPanic (recovered stack : string).

Definition NL : string := String "010" "".

(** [invokeHandler] with [permanentCause]: the error text and the permanent cause, if any. *)
Definition invokeHandler (outcome : handler_outcome) : option (string * option string) :=
  match outcome with
  | HandlerOk => None
  | HandlerError text permanent => Some (text, permanent)
  | HandlerPanic recovered stack =>
      Some ("delivery handler panic: " +:+ recovered +:+ NL +:+ stack, None)
  end.

Definition maxRetryDelay : duration := 30 * 1000000000.

Definition retryDelay (poll : duration) (attempt : Z) : duration :=
  let shift := Z.min (Z.max (i64 (attempt - 1)) 0) 10 in
  let delay := i64 (poll * Z.shiftl 1 shift) in
  Z.min delay maxRetryDelay.

Section runner.
Context {S : Type} `{DeliveryQueue S}.

(** The store's errors are logged; the store is then as it was. *)
Definition logged (st : S) (m : result S) : S := match m with Ok st' => st' | Err _ => st end.

Definition Runner_deadLetter (st : S) (fctx : context) (delivery : Delivery) (cause : string) (wall : time) : S :=
  logged st (q_DeadLetter st fctx (dl_ID delivery) (dl_LeaseToken delivery) wall cause wall).

Definition Runner_retry (runner : Runner) (st : S) (fctx : context) (delivery : Delivery) (cause : string)
    (wall : time) : S :=
  logged st
    (if dl_Attempt delivery >=? rn_MaxAttempts runner
     then q_DeadLetter st fctx (dl_ID delivery) (dl_LeaseToken delivery) wall cause wall
     else q_Retry st fctx (dl_ID delivery) (dl_LeaseToken delivery)
            (time_Add wall (retryDelay (rn_Poll runner) (dl_Attempt delivery))) cause wall).

(** [releaseCancelled] for a cancelled worker; the handler's error is not nil here. *)
Definition Runner_release (st : S) (fctx : context) (delivery : Delivery) (cause : string) (wall : time) : S :=
  logged st (q_Retry st fctx (dl_ID delivery) (dl_LeaseToken delivery) wall cause wall).

(** [ctx] is the worker's context when the handler returns, [fctx] the detached context the outcome
    is recorded under. *)
Definition Runner_deliver (runner : Runner) (st : S) (ctx fctx : context) (delivery : Delivery)
    (outcome : handler_outcome) (wall : time) : S :=
  match invokeHandler outcome with
  | None => logged st (q_Ack st fctx (dl_ID delivery) (dl_LeaseToken delivery) wall wall)
  | Some (err, permanent) =>
      if bool_decide (is_Some ctx) then Runner_release st fctx delivery err wall else
      match permanent with
      | Some cause => Runner_deadLetter st fctx delivery cause wall
      | None => Runner_retry runner st fctx delivery err wall
      end
  end.

(** One turn of [Run]: whether the loop goes on, and the store.  [handle] is the handler, [ctx] and
    [ctx'] the worker's context before and after it ran, [waited] the result of [wait]. *)
Definition Runner_runOnce (runner : Runner) (st : S) (ctx ctx' fctx : context) (e : entropy)
    (handle : Delivery → handler_outcome) (wall wall' : time) (waited : bool) : bool * S :=
  if bool_decide (is_Some ctx) then (false, st) else
  match q_Lease st ctx wall (rn_Lease runner) wall e with
  | Err err =>
      if errors_Is err ErrNoDelivery then (waited, st)
      else if bool_decide (is_Some ctx') then (false, st) else (waited, st)
  | Ok (delivery, st) =>
      (true, Runner_deliver runner st ctx' fctx delivery (handle delivery) wall')
  end.
End runner.

(** ** The in-memory store is a delivery queue *)

#[export] Instance memory_queue : DeliveryQueue memoryDeliveryStore := {
  q_Lease := dstore_Lease;
  q_Ack := dstore_Ack;
  q_Retry := dstore_Retry;
  q_DeadLetter := dstore_DeadLetter;
  q_view st id := deliveries st !! id;
}.

Definition finishing (state : DeliveryState) : Prop :=
  match state with DeliveryPending | DeliveryDelivered | DeliveryDeadLetter => True | _ => False end.

(** The holder of a lease can always finish it. *)
Lemma dl_FinishLease_finished d now state availableAt lastError wall :
  dl_State d = DeliveryLeased → dl_valid d → finishing state →
  ∃ d', dl_FinishLease d (dl_LeaseToken d) now state availableAt lastError wall = Ok d' ∧
        finished d d' state availableAt
          (if bool_decide (state ≠ DeliveryDelivered) || negb (is_empty lastError)
           then lastError else dl_LastError d).
Proof.
  intros Hs Hv Hf. pose proof (dl_ValidateLoaded_New _ Hv) as Hnew. pose proof (dl_valid_attempt _ Hv).
  unfold dl_FinishLease. rewrite Hs, !bool_decide_eq_false_2 by (by intros []). cbn [orb].
  assert (match state with
          | DeliveryPending | DeliveryDelivered | DeliveryDeadLetter => false | _ => true end = false)
    as -> by (by destruct state).
  unfold dl_ValidateLoaded. rewrite (dl_ValidateNew_identity _ d) by done. rewrite Hnew.
  cbn [result_bind dl_Attempt dl_State dl_LeaseToken dl_LeaseExpiresAt].
  rewrite (proj2 (Z.ltb_ge _ _)) by done. destruct state; try done; (eexists; split; [done|by split]).
Qed.

Lemma dstore_transition_finished st d now state availableAt lastError wall :
  deliveries st !! dl_ID d = Some d → dl_State d = DeliveryLeased → dl_valid d → finishing state →
  ∃ st' d',
    dstore_transition st None (dl_ID d) (dl_LeaseToken d) now state availableAt lastError wall = Ok st' ∧
    deliveries st' !! dl_ID d = Some d' ∧
    finished d d' state availableAt
      (if bool_decide (state ≠ DeliveryDelivered) || negb (is_empty lastError)
       then lastError else dl_LastError d).
Proof.
  intros Hl Hs Hv Hf.
  destruct (dl_FinishLease_finished d now state availableAt lastError wall Hs Hv Hf) as (d' & Hd & Hfin).
  unfold dstore_transition. simpl. rewrite Hl, Hd. simpl. eexists _, d'. split; [done|].
  split; [|done]. apply lookup_insert_eq.
Qed.

#[export] Instance memory_queue_laws : DeliveryQueueLaws memoryDeliveryStore.
Proof.
  refine {| q_ok st := ∃ n, dstore_wf n st |}; simpl.
  - intros st ctx now ttl wall e d st' [n Hwf] Hlease.
    destruct (dstore_Lease_Ok _ _ _ _ _ _ _ _ _ Hwf Hlease) as (d0 & _ & _ & _ & Hd & ->).
    destruct (dl_Lease_Ok _ _ _ _ _ _ Hd) as (Hv & Hi & Hs & _).
    assert (dl_ID d = dl_ID d0) as -> by (unfold dl_identity in Hi; congruence).
    split_and!; [apply lookup_insert_eq|done..].
  - intros st d now wall Hl Hs Hv. by apply dstore_transition_finished.
  - intros st d avail err wall Hl Hs Hv. by apply dstore_transition_finished.
  - intros st d now err wall Hl Hs Hv. by apply dstore_transition_finished.
Defined.

(** ** Lemmas *)

Section outcome.
Context {S : Type} `{DeliveryQueueLaws S}.

(** The decision table of [deliver]. *)
Definition outcome_spec (runner : Runner) (ctx : context) (outcome : handler_outcome) (wall : time)
    (d d' : Delivery) : Prop :=
  match invokeHandler outcome with
  | None => finished d d' DeliveryDelivered zeroTime (dl_LastError d)
  | Some (err, permanent) =>
      match ctx, permanent with
      | Some _, _ => finished d d' DeliveryPending wall err
      | None, Some cause => finished d d' DeliveryDeadLetter zeroTime cause
      | None, None =>
          if dl_Attempt d >=? rn_MaxAttempts runner
          then finished d d' DeliveryDeadLetter zeroTime err
          else finished d d' DeliveryPending (wall + retryDelay (rn_Poll runner) (dl_Attempt d)) err
      end
  end.

Lemma deliver_outcome runner (st : S) ctx outcome wall d :
  q_view st (dl_ID d) = Some d → dl_State d = DeliveryLeased → dl_valid d →
  ∃ d', q_view (Runner_deliver runner st ctx None d outcome wall) (dl_ID d) = Some d' ∧
        outcome_spec runner ctx outcome wall d d'.
Proof.
  intros Hl Hs Hv. unfold Runner_deliver, outcome_spec.
  destruct (invokeHandler outcome) as [[err permanent]|].
  - destruct ctx as [c|]; [rewrite bool_decide_eq_true_2 by done|rewrite bool_decide_eq_false_2 by (by intros [])].
    + destruct (law_Retry st d wall err wall Hl Hs Hv) as (st' & d' & Heq & ? & ?).
      unfold Runner_release, logged. rewrite Heq. eauto.
    + destruct permanent as [cause|].
      * destruct (law_DeadLetter st d wall cause wall Hl Hs Hv) as (st' & d' & Heq & ? & ?).
        unfold Runner_deadLetter, logged. rewrite Heq. eauto.
      * unfold Runner_retry, logged. destruct (dl_Attempt d >=? rn_MaxAttempts runner).
        -- destruct (law_DeadLetter st d wall err wall Hl Hs Hv) as (st' & d' & -> & ? & ?). eauto.
        -- destruct (law_Retry st d (time_Add wall (retryDelay (rn_Poll runner) (dl_Attempt d))) err wall Hl Hs Hv)
             as (st' & d' & -> & ? & ?). eauto.
  - destruct (law_Ack st d wall wall Hl Hs Hv) as (st' & d' & Heq & ? & ?).
    unfold logged. rewrite Heq. eauto.
Qed.
End outcome.

Lemma retryDelay_exact poll attempt :
  0 < poll → poll * 1024 < two63 → 1 ≤ attempt < two63 →
  retryDelay poll attempt = Z.min (poll * 2 ^ Z.min (attempt - 1) 10) maxRetryDelay.
Proof.
  intros Hp Hb Ha. unfold retryDelay. rewrite (i64_small (attempt - 1)) by (unfold two63 in *; lia).
  rewrite Z.max_l by lia. rewrite Z.shiftl_1_l. rewrite i64_small; [done|].
  assert (0 < 2 ^ Z.min (attempt - 1) 10) by (apply Z.pow_pos_nonneg; lia).
  assert (2 ^ Z.min (attempt - 1) 10 ≤ 2 ^ 10) by (apply Z.pow_le_mono_r; lia).
  unfold two63 in *. nia.
Qed.

(** *** A delivery whose subscriber always fails *)

(** [n] turns of a worker whose handler fails with [text], at the given times. *)
Fixpoint failing_turns (runner : Runner) (text : string) (st : memoryDeliveryStore)
    (turns : list (time * entropy)) : memoryDeliveryStore :=
  match turns with
  | [] => st
  | (now, e) :: rest =>
      failing_turns runner text
        (Runner_runOnce runner st None None None e (λ _, HandlerError text None) now now true).2 rest
  end.

(** Turns that are at least the longest retry delay apart, the first not before [start]. *)
Fixpoint spaced (start : time) (turns : list (time * entropy)) : Prop :=
  match turns with
  | [] => True
  | (now, e) :: rest => start ≤ now ∧ 0 < now ∧ entropy_ok e ∧ spaced (now + maxRetryDelay) rest
  end.

(** The store has one unfinished queue, whose head is [d]. *)
Definition only_queue (st : memoryDeliveryStore) (p : string) (d : Delivery) (rest : list string) : Prop :=
  deliveries st !! dl_ID d = Some d ∧ dstore_queue st p = dl_ID d :: rest ∧
  ∀ p', p' ≠ p → dstore_queue st p' = [].

Lemma only_queue_lease n st p d rest now ttl e :
  dstore_wf (Z.of_nat n) st → Z.of_nat n + 1 < two63 → only_queue st p d rest →
  dl_State d = DeliveryPending → dl_AvailableAt d ≤ now → 0 < now → 0 < ttl → entropy_ok e →
  ∃ d1 st1, dstore_Lease st None now ttl now e = Ok (d1, st1) ∧ dl_ID d1 = dl_ID d ∧
    dl_Attempt d1 = dl_Attempt d + 1 ∧ dl_State d1 = DeliveryLeased ∧ dl_valid d1 ∧
    dstore_wf (Z.of_nat (n + 1)) st1 ∧ only_queue st1 p d1 rest.
Proof.
  intros Hwf Hn (Hl & Hq & Hother) Hs Hav Hnow Httl He.
  assert (is_head (map_values (deliveries st)) p d) as Hh
    by (eapply queue_heads; [done| |done]; by rewrite Hq).
  assert (dl_NormalizeMutationTime now now = now) as Hnorm by (unfold dl_NormalizeMutationTime; by case_match).
  destruct (dstore_Lease st None now ttl now e) as [[d1 st1]|err] eqn:H.
  2: { apply (dstore_Lease_Err n) in H as [_ Hnone]; [|done || lia..]. specialize (Hnone p d Hh).
       unfold dl_LeaseAvailable in Hnone. rewrite Hs, !Hnorm in Hnone. gobool. lia. }
  exists d1, st1. split; [done|].
  destruct (queue_Lease n st Hwf Hn now ttl now e d1 st1 ltac:(lia) Hnow H) as [Hhd Hsame].
  pose proof (dwf_step _ _ 1 _ _ Hwf ltac:(lia) (dstep_Lease st None now ttl now e d1 st1 ltac:(lia) Hnow H)) as Hwf1.
  destruct (dstore_Lease_Ok _ _ _ _ _ _ _ _ _ Hwf H) as (d0 & Hl0 & Hh0 & _ & Hd & ->).
  destruct (dl_Lease_Ok _ _ _ _ _ _ Hd) as (Hv & Hi & Hsd & _ & Ha & _).
  pose proof (dl_partition_identity _ _ Hi) as Hp.
  assert (dl_ID d1 = dl_ID d0) as HID by (unfold dl_identity in Hi; congruence).
  assert (dl_partition d0 = p) as Hdp.
  { destruct (decide (dl_partition d0 = p)) as [|Hne]; [done|]. by rewrite Hp, Hother in Hhd. }
  rewrite Hp, Hdp, Hq in Hhd. injection Hhd as Hid.
  assert (d0 = d) as -> by congruence.
  pose proof (dwf_attempt _ _ Hwf _ _ Hl). rewrite i64_small in Ha by (unfold two63 in *; lia).
  split_and!; [done..|by rewrite Nat2Z.inj_add|].
  unfold only_queue. rewrite HID. split_and!; [apply lookup_insert_eq| |].
  - by rewrite Hsame.
  - intros p' Hp'. rewrite Hsame. by apply Hother.
Qed.

Lemma failing_turn_retry n st p d rest runner text now e :
  dstore_wf (Z.of_nat n) st → Z.of_nat n + 2 < two63 → only_queue st p d rest →
  dl_State d = DeliveryPending → dl_AvailableAt d ≤ now → 0 < now → 0 < rn_Lease runner → entropy_ok e →
  let st' := (Runner_runOnce runner st None None None e (λ _, HandlerError text None) now now true).2 in
  dstore_wf (Z.of_nat (n + 2)) st' ∧
  ∃ d', dl_ID d' = dl_ID d ∧ dl_Attempt d' = dl_Attempt d + 1 ∧ deliveries st' !! dl_ID d = Some d' ∧
    if dl_Attempt d + 1 >=? rn_MaxAttempts runner
    then dl_State d' = DeliveryDeadLetter ∧ dl_LastError d' = text ∧ dstore_queue st' p = rest
    else dl_State d' = DeliveryPending ∧
         dl_AvailableAt d' = now + retryDelay (rn_Poll runner) (dl_Attempt d + 1) ∧ only_queue st' p d' rest.
Proof.
  intros Hwf Hn Hq Hs Hav Hnow Httl He. unfold Runner_runOnce. simpl.
  destruct (only_queue_lease n st p d rest now (rn_Lease runner) e) as
    (d1 & st1 & Hle & HID & Hat & Hs1 & Hv1 & Hwf1 & Hl1 & Hq1 & Ho1); [done || lia..|].
  cbn [q_Lease memory_queue]. rewrite Hle. simpl.
  unfold Runner_deliver, Runner_retry. simpl. rewrite Hat.
  destruct (dl_Attempt d + 1 >=? rn_MaxAttempts runner).
  - destruct (dstore_transition_finished st1 d1 now DeliveryDeadLetter zeroTime text now Hl1 Hs1 Hv1 I)
      as (st2 & d2 & Htr & Hl2 & [Hst Hi2 Ha2 _ He2 _]).
    unfold dstore_DeadLetter. rewrite Htr. simpl. split.
    + replace (n + 2)%nat with (n + 1 + 1)%nat by lia. rewrite (Nat2Z.inj_add (n + 1)).
      eapply (dwf_step _ _ 1 _ _ Hwf1); [lia|]. by eapply (dstep_DeadLetter st1 None).
    + exists d2. rewrite <-HID. split_and!; [unfold dl_identity in Hi2; congruence|lia|done..|].
      destruct (queue_Finish (n + 1) st1 Hwf1 ltac:(lia) (dl_ID d1) (dl_LeaseToken d1) now text now st2
        ltac:(by right)) as (p' & Hp' & Ho').
      destruct (decide (p' = p)) as [->|Hne]; [rewrite Hq1 in Hp'; by injection Hp' as ->|].
      by rewrite (Ho1 p') in Hp'.
  - set (delay := time_Add _ _).
    destruct (dstore_transition_finished st1 d1 now DeliveryPending delay text now Hl1 Hs1 Hv1 I)
      as (st2 & d2 & Htr & Hl2 & [Hst Hi2 Ha2 Hav2 _ _]).
    unfold dstore_Retry. rewrite Htr. simpl.
    assert (dl_ID d2 = dl_ID d1) as HID2 by (unfold dl_identity in Hi2; congruence).
    pose proof (λ p', queue_Retry (n + 1) st1 Hwf1 ltac:(lia) (dl_ID d1) (dl_LeaseToken d1) delay text now
                  st2 p' Htr) as Hsame.
    split.
    + replace (n + 2)%nat with (n + 1 + 1)%nat by lia. rewrite (Nat2Z.inj_add (n + 1)).
      eapply (dwf_step _ _ 1 _ _ Hwf1); [lia|]. by eapply (dstep_Retry st1 None).
    + exists d2. rewrite <-HID. split_and!; [done|lia|done..|]. unfold only_queue. rewrite HID2.
      split_and!; [done|by rewrite Hsame|intros p' Hp'; rewrite Hsame; by apply Ho1].
Qed.

Lemma retryDelay_le poll attempt : retryDelay poll attempt ≤ maxRetryDelay.
Proof. unfold retryDelay. lia. Qed.

Lemma failing_turns_dead n st p d rest runner text turns :
  dstore_wf (Z.of_nat n) st → Z.of_nat (n + 2 * length turns) < two63 → only_queue st p d rest →
  dl_State d = DeliveryPending → 0 < rn_Lease runner → spaced (dl_AvailableAt d) turns →
  dl_Attempt d + Z.of_nat (length turns) = rn_MaxAttempts runner → turns ≠ [] →
  let st' := failing_turns runner text st turns in
  dstore_queue st' p = rest ∧
  ∃ d', deliveries st' !! dl_ID d = Some d' ∧ dl_State d' = DeliveryDeadLetter ∧
        dl_LastError d' = text ∧ dl_Attempt d' = rn_MaxAttempts runner.
Proof.
  revert n st d. induction turns as [|[now e] turns IH]; intros n st d Hwf Hn Hq Hs Httl Hsp Hlen Hne; [done|].
  destruct Hsp as (Hav & Hnow & He & Hsp). cbn [failing_turns length] in *.
  destruct (failing_turn_retry n st p d rest runner text now e) as (Hwf' & d' & HID & Hat & Hl' & Hcase);
    [done || lia..|].
  set (st1 := (Runner_runOnce runner st None None None e _ now now true).2) in *. clearbody st1.
  destruct turns as [|t turns].
  - simpl in Hlen. assert (dl_Attempt d + 1 >=? rn_MaxAttempts runner = true) as E by lia.
    rewrite E in Hcase. destruct Hcase as (? & ? & ?). simpl. split; [done|].
    exists d'. split_and!; [done..|lia].
  - assert (dl_Attempt d + 1 >=? rn_MaxAttempts runner = false) as E by (simpl in Hlen; lia).
    rewrite E in Hcase. destruct Hcase as (Hs' & Hav' & Hq'). rewrite <-HID.
    apply (IH (n + 2)%nat); [done|simpl in *; lia|done..| |simpl in *; lia|done].
    rewrite Hav'. pose proof (retryDelay_le (rn_Poll runner) (dl_Attempt d + 1)).
    destruct t. destruct Hsp as [? Hrest]. split; [lia|done].
Qed.

(** ** Theorems *)

(** The worker records every outcome of the subscriber: a delivery that was leased and then
    handled is acknowledged on success; released for immediate retry, with the error, when the
    worker itself was cancelled; dead-lettered on a permanent error or once its attempts are used
    up; and rescheduled with the back-off delay otherwise.  It holds for every delivery store that
    keeps the laws of the interface. *)
Theorem worker_records_outcome {S} `{DeliveryQueueLaws S} runner (st st1 : S) now ttl wall e d ctx outcome wall' :
  q_ok st → q_Lease st None now ttl wall e = Ok (d, st1) →
  ∃ d', q_view (Runner_deliver runner st1 ctx None d outcome wall') (dl_ID d) = Some d' ∧
        outcome_spec runner ctx outcome wall' d d'.
Proof.
  intros Hok Hl. destruct (law_Lease _ _ _ _ _ _ _ _ Hok Hl) as (Hview & Hs & Hv).
  by apply deliver_outcome.
Qed.

(** A poisonous delivery does not block its queue for ever: when the subscriber fails every
    time, the head of the queue is dead-lettered with the error after exactly the attempts it had
    left, and the queue moves on.  Turns that are the longest retry delay apart are enough. *)
Theorem worker_poison_dead_lettered n st p d rest runner text turns :
  dstore_reach n st → Z.of_nat (n + 2 * length turns) < two63 →
  deliveries st !! dl_ID d = Some d → dl_State d = DeliveryPending →
  dstore_queue st p = dl_ID d :: rest → (∀ p', p' ≠ p → dstore_queue st p' = []) →
  0 < rn_Lease runner → spaced (dl_AvailableAt d) turns → turns ≠ [] →
  dl_Attempt d + Z.of_nat (length turns) = rn_MaxAttempts runner →
  let st' := failing_turns runner text st turns in
  dstore_queue st' p = rest ∧
  ∃ d', deliveries st' !! dl_ID d = Some d' ∧ dl_State d' = DeliveryDeadLetter ∧
        dl_LastError d' = text ∧ dl_Attempt d' = rn_MaxAttempts runner.
Proof.
  intros Hr Hn Hl Hs Hq Ho Httl Hsp Hne Hlen.
  eapply (failing_turns_dead n); [apply dstore_reach_wf; [done|lia]|done..].
Qed.

(** C33. The back-off is exponential and bounded: for a poll interval whose 1024-fold fits the
    64-bit duration, the delay after attempt [a] is the poll interval doubled [a - 1] times, ten at
    most, capped at 30 seconds; it is positive and never shrinks from one attempt to the next. *)
Theorem retryDelay_bounds poll attempt :
  0 < poll → poll * 1024 < two63 → 1 ≤ attempt → attempt + 1 < two63 →
  retryDelay poll attempt = Z.min (poll * 2 ^ Z.min (attempt - 1) 10) (30 * 10 ^ 9) ∧
  0 < retryDelay poll attempt ≤ 30 * 10 ^ 9 ∧
  retryDelay poll attempt ≤ retryDelay poll (attempt + 1).
Proof.
  intros Hp Hb H1 H2. rewrite !retryDelay_exact by lia. change (30 * 10 ^ 9) with maxRetryDelay.
  assert (0 < 2 ^ Z.min (attempt - 1) 10) by (apply Z.pow_pos_nonneg; lia).
  assert (2 ^ Z.min (attempt - 1) 10 ≤ 2 ^ Z.min (attempt + 1 - 1) 10) by (apply Z.pow_le_mono_r; lia).
  split; [done|]. unfold maxRetryDelay. split; nia.
Qed.

(** A delivery derived from an event reaches the subscriber it was made for: it is accepted by
    the store's validation, keeps the partition of its subscription and session, and is still
    matched by its target once prepared; two events of one session share a partition. *)
Theorem target_record_accepted target event now wall :
  valid_name (tg_Plugin target) → valid_name (tg_Subscription target) →
  ev_ID event ≠ "" → ev_Name event ≠ "" → json_Valid (ev_Payload event) = true →
  ∃ d, dl_PrepareNew (Target_Record target event now) now wall = Ok d ∧
    Target_Matches target d = true ∧ dl_Event d = event ∧
    dl_Partition d = Target_partition target event ∧
    ∀ event', ev_SessionID event' = ev_SessionID event →
      Target_partition target event' = dl_Partition d.
Proof.
  intros Hp Hs Hid Hname Hj. unfold dl_PrepareNew.
  assert (dl_ValidateNew (Target_Record target event now) = Ok tt) as ->.
  { unfold dl_ValidateNew. simpl. unfold ValidateResourceName. rewrite Hp, Hs, Hj. simpl.
    rewrite !(proj2 (is_empty_false _)); [done|done..|].
    unfold Target_deliveryID. destruct (ev_ID event); [done|]. by case_match. }
  assert (Target_partition target event ≠ "") as Hpart.
  { unfold Target_partition. apply valid_name_nonempty in Hs.
    destruct (tg_Subscription target); [done|]. by case_match. }
  eexists. split; [done|]. simpl. unfold dl_partition. simpl.
  rewrite (proj2 (is_empty_false _) Hpart). split_and!; [|done..|].
  - unfold Target_Matches, Target_Validate. simpl.
    rewrite !bool_decide_eq_false_2 by (intros Hne; by apply Hne). by rewrite !andb_false_r.
  - intros event' Heq. unfold Target_partition. by rewrite Heq.
Qed.

(** ** Witnesses *)

Definition ex_runner : Runner := {| rn_Lease := 500; rn_Poll := 100; rn_MaxAttempts := 2 |}.

Lemma worker_records_outcome_witness :
  ∃ d', q_view (Runner_deliver ex_runner ex_ds2 None None ex_lease.1 (HandlerError "boom" None) 2100) "d-1"
          = Some d' ∧
        outcome_spec ex_runner None (HandlerError "boom" None) 2100 ex_lease.1 d'.
Proof.
  apply (worker_records_outcome ex_runner ex_ds1 ex_ds2 2000 500 2000 (ex_entropy 4) ex_lease.1 None
    (HandlerError "boom" None) 2100); [|by vm_compute].
  exists 3. apply (dstore_reach_wf 3); [apply ex_dreach1|by vm_compute].
Defined.

Lemma worker_poison_dead_lettered_witness :
  dstore_queue (failing_turns ex_runner "boom" ex_ds1
    [(2000, ex_entropy 1); (60000000000, ex_entropy 2)]) "memory/recorder" = ["d-2"].
Proof.
  apply (worker_poison_dead_lettered 3 ex_ds1 "memory/recorder" ex_d1 ["d-2"] ex_runner "boom"
    [(2000, ex_entropy 1); (60000000000, ex_entropy 2)] ex_dreach1); try by vm_compute.
  - intros p Hp. eapply queue_char; [apply (dstore_reach_wf 3 _ ex_dreach1); by vm_compute| |constructor].
    intros id. split; [by intros ?%not_elem_of_nil|]. intros (d & Hd & _ & Hpd). destruct Hp. revert Hd Hpd.
    unfold ex_ds1. vm_compute. intros Hd <-.
    repeat match type of Hd with context [match ?x with _ => _ end] => destruct x end; by simplify_eq.
  - repeat split; first [by apply ex_entropy_ok|by vm_compute].
Defined.

Lemma retryDelay_bounds_witness : retryDelay 100000000 4 = 800000000 ∧ retryDelay 100000000 4 ≤ retryDelay 100000000 5.
Proof.
  split; [apply (retryDelay_bounds 100000000 4); by vm_compute|].
  apply (retryDelay_bounds 100000000 4); by vm_compute.
Defined.

Definition ex_target : Target :=
  {| tg_Plugin := "memory"; tg_PluginVersion := "1"; tg_Subscription := "recorder"; tg_ResourceRevision := "r1" |}.

Lemma target_record_accepted_witness :
  ∃ d, dl_PrepareNew (Target_Record ex_target (ex_event "e-1") 1000) 1000 1000 = Ok d ∧
    Target_Matches ex_target d = true ∧ dl_Event d = ex_event "e-1" ∧
    dl_Partition d = Target_partition ex_target (ex_event "e-1") ∧
    ∀ event', ev_SessionID event' = "s-1" → Target_partition ex_target event' = dl_Partition d.
Proof. apply (target_record_accepted ex_target (ex_event "e-1") 1000 1000); by vm_compute. Defined.
