(* ===== verification/Message.v ===== *)
(** Messages of [sdk/resource.go] and their deep copies of [sdk/hook.go].  [reflect.DeepEqual]
    distinguishes a nil slice from an empty one, so the slices it can see inside a message are
    options: [None] is nil. *)
From S2P Require Import Prelude.

Inductive Role :=
  | RoleSystem
  | RoleUser
  | RoleAssistant
  | RoleTool
  | RoleOther (text : string).

Record ToolCall := {
  tc_ID : string;
  tc_Name : string;
  tc_Arguments : option string;
}.

Record Message := {
  msg_Role : Role;
  msg_Content : string;
  msg_ToolCalls : option (list ToolCall);
  msg_ToolCallID : string;
  msg_IsError : bool;
}.

#[export] Instance Role_eq_dec : EqDecision Role.
Proof. solve_decision. Defined.
#[export] Instance ToolCall_eq_dec : EqDecision ToolCall.
Proof. solve_decision. Defined.
#[export] Instance Message_eq_dec : EqDecision Message.
Proof. solve_decision. Defined.

(** [append(json.RawMessage(nil), value...)]: an empty value becomes nil. *)
Definition clone_bytes (value : option string) : option string :=
  match value with Some "" => None | _ => value end.

Definition CloneToolCalls (calls : option (list ToolCall)) : option (list ToolCall) :=
  match calls with
  | None => None
  | Some calls =>
      Some ((λ call, {| tc_ID := tc_ID call; tc_Name := tc_Name call;
                        tc_Arguments := clone_bytes (tc_Arguments call) |}) <$> calls)
  end.

Definition CloneMessage (message : Message) : Message :=
  {| msg_Role := msg_Role message; msg_Content := msg_Content message;
     msg_ToolCalls := CloneToolCalls (msg_ToolCalls message);
     msg_ToolCallID := msg_ToolCallID message; msg_IsError := msg_IsError message |}.

Definition CloneMessages (messages : list Message) : list Message := CloneMessage <$> messages.

(** ** Lemmas *)

Lemma CloneMessage_idem m : CloneMessage (CloneMessage m) = CloneMessage m.
Proof.
  unfold CloneMessage. simpl. f_equal. destruct (msg_ToolCalls m) as [calls|]; [|done]. simpl. f_equal.
  rewrite <-list_fmap_compose. apply list_fmap_ext. intros i [id name args] _. simpl. f_equal.
  by destruct args as [[]|].
Qed.

Lemma CloneMessages_idem ms : CloneMessages (CloneMessages ms) = CloneMessages ms.
Proof.
  unfold CloneMessages. rewrite <-list_fmap_compose. apply list_fmap_ext.
  intros i m _. simpl. apply CloneMessage_idem.
Qed.

Lemma CloneMessages_nil ms : CloneMessages ms = [] ↔ ms = [].
Proof. by destruct ms. Qed.

(** ** The environment a trajectory records: the plugins and resource specifications of
    [sdk/plugin.go], [sdk/resource.go], [sdk/agent.go] and [sdk/hook.go] that were mounted when it
    was created.  A decoded JSON object ([map[string]any]) is its canonical text. *)

Definition json_map := string.

Record ProviderSpec := {
  ps_Name : string;
  ps_Model : string;
}.

Record ToolSpec := {
  ts_Name : string;
  ts_Description : string;
  ts_Parameters : json_map;
  ts_InterruptBehavior : string;
  ts_Concurrency : string;
}.

(** [Tools] is an allowlist: nil inherits every tool. *)
Record AgentSpec := {
  as_Name : string;
  as_Description : string;
  as_Provider : string;
  as_System : string;
  as_MaxTurns : Z;
  as_Tools : option (list string);
}.

Record HookSpec := {
  hs_Name : string;
  hs_Event : string;
  hs_Priority : Z;
  hs_FailurePolicy : string;
  hs_Timeout : duration;
}.

Record SubscriberSpec := {
  ss_Name : string;
  ss_Events : list string;
  ss_Timeout : duration;
}.

Record CapabilitySpec := {
  cs_Name : string;
  cs_Description : string;
  cs_InputSchema : json_map;
  cs_OutputSchema : json_map;
}.

Record EventContract := {
  ec_Name : string;
  ec_MutableFields : list string;
  ec_AllowBlock : bool;
  ec_AllowAction : bool;
}.

Definition AllowsEffect (contract : EventContract) : bool :=
  negb (length (ec_MutableFields contract) =? 0)%nat || ec_AllowBlock contract || ec_AllowAction contract.

Record TrajectoryPlugin := {
  tp_Name : string;
  tp_Version : string;
  tp_Registers : list string;
}.

Record TrajectoryEnvironment := {
  env_SDKAPIVersion : Z;
  env_RuntimeVersion : string;
  env_CreatedGeneration : Z;
  env_ParentSessionID : string;
  env_OriginInvocationID : string;
  env_OriginInvocationRootID : string;
  env_OriginForkInvocationID : string;
  env_OriginMode : string;
  env_RequestedProvider : string;
  env_SystemDigest : string;
  env_CompositionDigest : string;
  env_Plugins : list TrajectoryPlugin;
  env_Providers : list ProviderSpec;
  env_Tools : list ToolSpec;
  env_Agents : list AgentSpec;
  env_Hooks : list HookSpec;
  env_Subscribers : list SubscriberSpec;
  env_Capabilities : list CapabilitySpec;
  env_Events : list EventContract;
}.

Definition zeroEnvironment : TrajectoryEnvironment :=
  {| env_SDKAPIVersion := 0; env_RuntimeVersion := ""; env_CreatedGeneration := 0;
     env_ParentSessionID := ""; env_OriginInvocationID := ""; env_OriginInvocationRootID := "";
     env_OriginForkInvocationID := ""; env_OriginMode := ""; env_RequestedProvider := "";
     env_SystemDigest := ""; env_CompositionDigest := ""; env_Plugins := []; env_Providers := [];
     env_Tools := []; env_Agents := []; env_Hooks := []; env_Subscribers := [];
     env_Capabilities := []; env_Events := [] |}.

