(* ===== verification/ContextInjection.v ===== *)
(** Context injections of [sdk/context_injection.go] with the rules of
    [sdk/storage/internal/contextinjectionmodel/model.go], and the in-memory store of
    [sdk/storage/context_injection_memory.go], which implements a queue in enqueue order. *)

From S2P Require Import Prelude GoText Names Message.

(** ** Data *)

(** [Other] stands for every string that is none of the named constants, the empty one included. *)
Inductive ContextInjectionPriority :=
  | ContextInjectionNow
  | ContextInjectionNext
  | ContextInjectionLater
  | PriorityOther (text : string).

Inductive ContextInjectionMode :=
  | ContextInjectionPrompt
  | ContextInjectionHook
  | ContextInjectionPermission
  | ContextInjectionTaskNotification
  | ContextInjectionInterAgent
  | ContextInjectionLocalCommand
  | ContextInjectionSystem
  | ModeOther (text : string).

#[export] Instance ContextInjectionPriority_eq_dec : EqDecision ContextInjectionPriority.
Proof. solve_decision. Defined.
#[export] Instance ContextInjectionMode_eq_dec : EqDecision ContextInjectionMode.
Proof. solve_decision. Defined.

Definition priority_Valid (priority : ContextInjectionPriority) : bool :=
  match priority with PriorityOther text => is_empty text | _ => true end.

Definition priority_Effective (priority : ContextInjectionPriority) : ContextInjectionPriority :=
  match priority with
  | PriorityOther text => if is_empty text then ContextInjectionNext else priority
  | _ => priority
  end.

Definition mode_Valid (mode : ContextInjectionMode) : bool :=
  match mode with ModeOther text => is_empty text | _ => true end.

Definition mode_Effective (mode : ContextInjectionMode) : ContextInjectionMode :=
  match mode with
  | ModeOther text => if is_empty text then ContextInjectionPrompt else mode
  | _ => mode
  end.

Definition priority_text (priority : ContextInjectionPriority) : string :=
  match priority with
  | ContextInjectionNow => "now"
  | ContextInjectionNext => "next"
  | ContextInjectionLater => "later"
  | PriorityOther text => text
  end.

Definition mode_text (mode : ContextInjectionMode) : string :=
  match mode with
  | ContextInjectionPrompt => "prompt"
  | ContextInjectionHook => "hook"
  | ContextInjectionPermission => "permission"
  | ContextInjectionTaskNotification => "task_notification"
  | ContextInjectionInterAgent => "inter_agent"
  | ContextInjectionLocalCommand => "local_command"
  | ContextInjectionSystem => "system"
  | ModeOther text => text
  end.

Record ContextInjection := {
  ci_ID : string;
  ci_Priority : ContextInjectionPriority;
  ci_Mode : ContextInjectionMode;
  ci_Origin : string;
  ci_TargetSessionID : string;
  ci_TargetExecutionID : string;
  ci_IsMeta : bool;
  ci_Messages : list Message;
  ci_Attributes : gmap string string;
  ci_CreatedAt : time;
}.

Record ContextInjectionQuery := {
  cq_TargetSessionID : string;
  cq_TargetExecutionID : string;
  cq_Limit : Z;
}.

(** [Record] of the storage model. *)
Record InjectionRecord := {
  ir_Sequence : Z;
  ir_Injection : ContextInjection;
}.

(** ** Normalization *)

(** A name that may be empty. *)
Definition validate_target (kind name : string) : result unit :=
  if negb (is_empty name) then ValidateResourceName kind name else Ok tt.

Definition NormalizeContextInjection (injection : ContextInjection) (now wall : time) (e : entropy)
    : result ContextInjection :=
  try? (if is_empty (ci_ID injection) then Ok tt
        else ValidateResourceName "context injection" (ci_ID injection));
  let id := if is_empty (ci_ID injection) then NewID e else ci_ID injection in
  fail_if negb (priority_Valid (ci_Priority injection)) with
    Errorf "unknown context injection priority %q" [AStr (priority_text (ci_Priority injection))];
  fail_if negb (mode_Valid (ci_Mode injection)) with
    Errorf "unknown context injection mode %q" [AStr (mode_text (ci_Mode injection))];
  try? validate_target "context injection target session" (ci_TargetSessionID injection);
  try? validate_target "context injection target execution" (ci_TargetExecutionID injection);
  fail_if bool_decide (ci_Messages injection = []) with
    errors_New "context injection contains no messages";
  let now := if IsZero now then wall else now in
  Ok {| ci_ID := id;
        ci_Priority := priority_Effective (ci_Priority injection);
        ci_Mode := mode_Effective (ci_Mode injection);
        ci_Origin := ci_Origin injection;
        ci_TargetSessionID := ci_TargetSessionID injection;
        ci_TargetExecutionID := ci_TargetExecutionID injection;
        ci_IsMeta := ci_IsMeta injection;
        ci_Messages := CloneMessages (ci_Messages injection);
        ci_Attributes := ci_Attributes injection;
        ci_CreatedAt := if IsZero (ci_CreatedAt injection) then now else ci_CreatedAt injection |}.

(** ** [contextinjectionmodel] *)

Definition ci_SameIdentity (left right : ContextInjection) : bool :=
  bool_decide (ci_ID left = ci_ID right) &&
  bool_decide (ci_Priority left = ci_Priority right) &&
  bool_decide (ci_Mode left = ci_Mode right) &&
  bool_decide (ci_Origin left = ci_Origin right) &&
  bool_decide (ci_TargetSessionID left = ci_TargetSessionID right) &&
  bool_decide (ci_TargetExecutionID left = ci_TargetExecutionID right) &&
  bool_decide (ci_IsMeta left = ci_IsMeta right) &&
  bool_decide (ci_CreatedAt left = ci_CreatedAt right) &&
  bool_decide (ci_Attributes left = ci_Attributes right) &&
  bool_decide (ci_Messages left = ci_Messages right).

(** The loop of [PrepareBatch]; [es] is the randomness of the IDs it may draw, one per item. *)
Fixpoint ci_prepare_loop (seen : gmap string ContextInjection) (injections : list ContextInjection)
    (now wall : time) (es : nat → entropy) : result (list ContextInjection) :=
  match injections with
  | [] => Ok []
  | injection :: rest =>
      let? normalized := NormalizeContextInjection injection now wall (es 0%nat) in
      match seen !! ci_ID normalized with
      | Some existing =>
          if ci_SameIdentity existing normalized
          then ci_prepare_loop seen rest now wall (λ i, es (S i))
          else Err (Errorf "context injection %q appears more than once with different identity"
                      [AStr (ci_ID normalized)])
      | None =>
          let? prepared :=
            ci_prepare_loop (<[ci_ID normalized := normalized]> seen) rest now wall (λ i, es (S i)) in
          Ok (normalized :: prepared)
      end
  end.

Definition ci_PrepareBatch (injections : list ContextInjection) (now wall : time) (es : nat → entropy)
    : result (list ContextInjection) :=
  let now := if IsZero now then wall else now in
  ci_prepare_loop ∅ injections now wall es.

Definition ci_ValidateLoaded (injection : ContextInjection) (wall : time) (e : entropy) : result unit :=
  fail_if IsZero (ci_CreatedAt injection) with errors_New "context injection created_at is empty";
  let? normalized := NormalizeContextInjection injection (ci_CreatedAt injection) wall e in
  fail_if negb (ci_SameIdentity normalized injection) with
    Errorf "context injection %q is not normalized" [AStr (ci_ID injection)];
  Ok tt.

Definition ValidateLoadedRecord (record : InjectionRecord) (wall : time) (e : entropy) : result unit :=
  fail_if ir_Sequence record =? 0 with errors_New "context injection sequence is empty";
  ci_ValidateLoaded (ir_Injection record) wall e.

Definition ValidateQuery (query : ContextInjectionQuery) : result unit :=
  try? validate_target "context injection target session" (cq_TargetSessionID query);
  try? validate_target "context injection target execution" (cq_TargetExecutionID query);
  fail_if cq_Limit query <? 0 with errors_New "context injection query limit cannot be negative";
  Ok tt.

Fixpoint ValidateConsumeIDs (ids : list string) : result unit :=
  match ids with
  | [] => Ok tt
  | id :: rest =>
      try? (match ValidateResourceName "context injection" id with
            | Ok _ => Ok tt
            | Err err => Err (Wrapf "consume context injection %q: %w" [AStr id] err)
            end);
      ValidateConsumeIDs rest
  end.

Definition MatchesQuery (injection : ContextInjection) (query : ContextInjectionQuery) : bool :=
  negb (negb (is_empty (cq_TargetSessionID query)) &&
        negb (is_empty (ci_TargetSessionID injection)) &&
        bool_decide (ci_TargetSessionID injection ≠ cq_TargetSessionID query)) &&
  negb (negb (is_empty (cq_TargetExecutionID query)) &&
        negb (is_empty (ci_TargetExecutionID injection)) &&
        bool_decide (ci_TargetExecutionID injection ≠ cq_TargetExecutionID query)).

Definition compareRecords (left right : InjectionRecord) : Z :=
  if ir_Sequence left <? ir_Sequence right then -1
  else if ir_Sequence left >? ir_Sequence right then 1
  else 0.

Definition SortRecords (records : list InjectionRecord) : list InjectionRecord :=
  SortFunc compareRecords records.

(** ** The in-memory store *)

Record memoryContextInjectionStore := {
  injections : gmap string InjectionRecord;
  ci_nextSequence : Z;
}.

Definition newMemoryContextInjectionStore : memoryContextInjectionStore :=
  {| injections := ∅; ci_nextSequence := 0 |}.

Abbreviation cstore := memoryContextInjectionStore (only parsing).

Fixpoint cstore_check (st : cstore) (prepared : list ContextInjection) : result unit :=
  match prepared with
  | [] => Ok tt
  | injection :: rest =>
      match injections st !! ci_ID injection with
      | Some existing =>
          if ci_SameIdentity (ir_Injection existing) injection then cstore_check st rest
          else Err (Errorf "context injection %q already exists with different identity"
                      [AStr (ci_ID injection)])
      | None => cstore_check st rest
      end
  end.

Definition cstore_insert (st : cstore) (injection : ContextInjection) : cstore :=
  match injections st !! ci_ID injection with
  | Some _ => st
  | None =>
      let sequence := u64 (ci_nextSequence st + 1) in
      {| injections := <[ci_ID injection := {| ir_Sequence := sequence; ir_Injection := injection |}]>
                         (injections st);
         ci_nextSequence := sequence |}
  end.

Definition cstore_Enqueue (st : cstore) (ctx : context) (batch : list ContextInjection) (wall : time)
    (es : nat → entropy) : result cstore :=
  try? ctx_Err ctx;
  let? prepared := ci_PrepareBatch batch wall wall es in
  try? cstore_check st prepared;
  Ok (foldl cstore_insert st prepared).

Definition cstore_List (st : cstore) (ctx : context) (query : ContextInjectionQuery)
    : result (list ContextInjection) :=
  try? ctx_Err ctx;
  try? ValidateQuery query;
  let records := SortRecords (filter (λ record, MatchesQuery (ir_Injection record) query = true)
                                (map_values (injections st))) in
  let records :=
    if (0 <? cq_Limit query) && (cq_Limit query <? Z.of_nat (length records))
    then take (Z.to_nat (cq_Limit query)) records else records in
  Ok (ir_Injection <$> records).

Definition cstore_Consume (st : cstore) (ctx : context) (ids : list string) : result cstore :=
  try? ctx_Err ctx;
  try? ValidateConsumeIDs ids;
  Ok {| injections := foldl (λ m id, delete id m) (injections st) ids;
        ci_nextSequence := ci_nextSequence st |}.

(** ** Normal injections *)

Definition random_ok (e : entropy) : Prop := entropy_ok e ∧ is_Some (rand_bytes e).

(** What normalization establishes. *)
Record ci_normal (x : ContextInjection) : Prop := {
  normal_ID : valid_name (ci_ID x);
  normal_Priority : priority_Valid (ci_Priority x) = true ∧ priority_Effective (ci_Priority x) = ci_Priority x;
  normal_Mode : mode_Valid (ci_Mode x) = true ∧ mode_Effective (ci_Mode x) = ci_Mode x;
  normal_session : validate_target "context injection target session" (ci_TargetSessionID x) = Ok tt;
  normal_execution : validate_target "context injection target execution" (ci_TargetExecutionID x) = Ok tt;
  normal_Messages : ci_Messages x ≠ [] ∧ CloneMessages (ci_Messages x) = ci_Messages x;
  normal_CreatedAt : ci_CreatedAt x ≠ 0;
}.

Lemma Effective_idem p : priority_Valid p = true →
  priority_Valid (priority_Effective p) = true ∧
  priority_Effective (priority_Effective p) = priority_Effective p.
Proof. destruct p; simpl; try done. intros ->. done. Qed.

Lemma mode_Effective_idem m : mode_Valid m = true →
  mode_Valid (mode_Effective m) = true ∧ mode_Effective (mode_Effective m) = mode_Effective m.
Proof. destruct m; simpl; try done. intros ->. done. Qed.

Lemma Normalize_Ok x now wall e y :
  NormalizeContextInjection x now wall e = Ok y → random_ok e → 0 < wall → 0 ≤ now → 0 ≤ ci_CreatedAt x →
  ci_normal y ∧ ci_ID y = (if is_empty (ci_ID x) then NewID e else ci_ID x) ∧
  ci_CreatedAt y = (if IsZero (ci_CreatedAt x) then (if IsZero now then wall else now) else ci_CreatedAt x).
Proof.
  unfold NormalizeContextInjection. intros H [He [raw Hraw]] Hw Hnow Hc.
  apply bind_Ok in H as ([] & Hid & H). cbv zeta in H. inv_ok. gobool.
  match goal with H : ci_Messages x ≠ [] |- _ => rename H into Hm end.
  repeat match goal with u : unit |- _ => destruct u end. split; [|done]. split; simpl.
  - destruct (is_empty (ci_ID x)); [by eapply NewID_valid|by eapply ValidateResourceName_Ok].
  - by apply Effective_idem.
  - by apply mode_Effective_idem.
  - done.
  - done.
  - by rewrite CloneMessages_nil, CloneMessages_idem.
  - unfold IsZero, zeroTime. repeat case_match; lia.
Qed.

Lemma Normalize_normal x now wall e : ci_normal x → NormalizeContextInjection x now wall e = Ok x.
Proof.
  intros [Hid [Hp1 Hp2] [Hm1 Hm2] Hs He [Hms1 Hms2] Hc]. unfold NormalizeContextInjection.
  rewrite (proj2 (is_empty_false _)) by (by apply valid_name_nonempty).
  rewrite (proj2 (ValidateResourceName_Ok _ _ tt)) by done. cbn [result_bind].
  rewrite Hp1, Hm1, Hs, He, Hp2, Hm2, Hms2. cbn [negb result_bind].
  rewrite bool_decide_eq_false_2 by done. rewrite (proj2 (IsZero_false _)) by done. by destruct x.
Qed.

Lemma ci_SameIdentity_eq x y : ci_SameIdentity x y = true ↔ x = y.
Proof.
  unfold ci_SameIdentity. gobool. split; [|by intros ->].
  intros. destruct x, y; simpl in *. naive_solver.
Qed.

Lemma ci_ValidateLoaded_normal x wall e : ci_normal x → ci_ValidateLoaded x wall e = Ok tt.
Proof.
  intros Hn. unfold ci_ValidateLoaded. rewrite (proj2 (IsZero_false _)) by apply Hn.
  rewrite Normalize_normal by done. cbn [result_bind]. by rewrite (proj2 (ci_SameIdentity_eq x x)).
Qed.

(** ** The store invariant *)

Inductive cstore_step : nat → cstore → cstore → Prop :=
  | cstep_Enqueue st ctx batch wall es st' :
      0 < wall → (∀ i, random_ok (es i)) → (∀ x, x ∈ batch → 0 ≤ ci_CreatedAt x) →
      cstore_Enqueue st ctx batch wall es = Ok st' → cstore_step (length batch) st st'
  | cstep_Consume st ctx ids st' :
      cstore_Consume st ctx ids = Ok st' → cstore_step 0 st st'.

(** [cstore_reach n st]: [st] is reached from the new store by calls that enqueue [n] injections. *)
Inductive cstore_reach : nat → cstore → Prop :=
  | creach_new : cstore_reach 0 newMemoryContextInjectionStore
  | creach_step n k st st' : cstore_reach n st → cstore_step k st st' → cstore_reach (k + n) st'.

Record cstore_wf (n : Z) (st : cstore) : Prop := {
  cwf_id id r : injections st !! id = Some r → ci_ID (ir_Injection r) = id;
  cwf_normal id r : injections st !! id = Some r → ci_normal (ir_Injection r);
  cwf_next : 0 ≤ ci_nextSequence st ≤ n;
  cwf_sequence id r : injections st !! id = Some r → 0 < ir_Sequence r ≤ ci_nextSequence st;
  cwf_unique i x j y : injections st !! i = Some x → injections st !! j = Some y →
    ir_Sequence x = ir_Sequence y → i = j;
}.

Lemma ci_prepare_loop_Ok seen batch now wall es prepared :
  ci_prepare_loop seen batch now wall es = Ok prepared →
  (length prepared ≤ length batch)%nat ∧
  ∀ p, p ∈ prepared → ∃ x i, x ∈ batch ∧ NormalizeContextInjection x now wall (es i) = Ok p.
Proof.
  revert seen es prepared. induction batch as [|x batch IH]; intros seen es prepared H.
  { injection H as <-. split; [done|]. by intros p ?%not_elem_of_nil. }
  cbn [ci_prepare_loop] in H. apply bind_Ok in H as (y & Hy & H).
  assert (∀ ps : list ContextInjection, (∀ p, p ∈ ps → ∃ x i, x ∈ batch ∧ NormalizeContextInjection x now wall (es (S i)) = Ok p) →
            ∀ p, p ∈ ps → ∃ x' i, x' ∈ x :: batch ∧ NormalizeContextInjection x' now wall (es i) = Ok p) as Hmap.
  { intros ps Hps p (x' & i & ? & ?)%Hps. exists x', (S i). set_solver. }
  destruct (seen !! ci_ID y) as [b|].
  - destruct (ci_SameIdentity b y); [|done]. apply IH in H as [Hlen H]. simpl. split; [lia|by apply Hmap].
  - apply bind_Ok in H as (ps & Hps & [= <-]). apply IH in Hps as [Hlen Hps]. simpl. split; [lia|].
    intros p [->|Hp]%elem_of_cons; [exists x, 0%nat; set_solver|by eapply Hmap].
Qed.

Lemma cstore_Enqueue_Ok st ctx batch wall es st' :
  0 < wall → (∀ i, random_ok (es i)) → (∀ x, x ∈ batch → 0 ≤ ci_CreatedAt x) →
  cstore_Enqueue st ctx batch wall es = Ok st' →
  ∃ prepared, ci_PrepareBatch batch wall wall es = Ok prepared ∧ (length prepared ≤ length batch)%nat ∧
    Forall ci_normal prepared ∧ cstore_check st prepared = Ok tt ∧ st' = foldl cstore_insert st prepared.
Proof.
  intros Hw He Hc H. unfold cstore_Enqueue in H. apply bind_Ok in H as (_ & _ & H).
  apply bind_Ok in H as (prepared & Hp & H). apply bind_Ok in H as ([] & Hch & [= <-]).
  exists prepared. unfold ci_PrepareBatch in *. pose proof Hp as [Hlen Hall]%ci_prepare_loop_Ok.
  split_and!; try done. apply Forall_forall. intros p (x & i & Hx & Hn)%Hall.
  eapply (Normalize_Ok x); [done|done|done| |by apply Hc]. case_match; lia.
Qed.

Lemma cwf_new : cstore_wf 0 newMemoryContextInjectionStore.
Proof. split; simpl; intros *; rewrite ?lookup_empty; done || lia. Qed.

Lemma cwf_insert n st x :
  cstore_wf n st → n + 1 < two64 → ci_normal x → cstore_wf (n + 1) (cstore_insert st x).
Proof.
  intros Hwf Hn Hx. pose proof (cwf_next _ _ Hwf) as Hnext. unfold cstore_insert.
  destruct (injections st !! ci_ID x) eqn:E.
  { split; [apply Hwf..|lia|apply Hwf|apply Hwf]. }
  rewrite u64_small by lia. split; simpl.
  - intros id r [[<- <-]|[_ H]]%lookup_insert_Some; [done|by eapply cwf_id].
  - intros id r [[<- <-]|[_ H]]%lookup_insert_Some; [done|by eapply cwf_normal].
  - lia.
  - intros id r [[<- <-]|[_ H]]%lookup_insert_Some; simpl; [lia|].
    pose proof (cwf_sequence _ _ Hwf _ _ H). lia.
  - intros i y j z [[<- <-]|[_ H1]]%lookup_insert_Some [[<- <-]|[_ H2]]%lookup_insert_Some;
      simpl; intros Heq; [done|..|by eapply cwf_unique];
      [pose proof (cwf_sequence _ _ Hwf _ _ H2)|pose proof (cwf_sequence _ _ Hwf _ _ H1)]; lia.
Qed.

Lemma foldl_delete_lookup {A} (m : gmap string A) ids id :
  foldl (λ m id, delete id m) m ids !! id = if bool_decide (id ∈ ids) then None else m !! id.
Proof.
  revert m. induction ids as [|i ids IH]; intros m; simpl; [done|]. rewrite IH.
  destruct (decide (i = id)) as [->|Hne].
  - rewrite lookup_delete_eq. rewrite (bool_decide_eq_true_2 (id ∈ id :: ids)) by set_solver. by case_match.
  - rewrite lookup_delete_ne by done.
    by rewrite (bool_decide_ext (id ∈ i :: ids) (id ∈ ids)) by set_solver.
Qed.

Lemma cwf_consume n st ctx ids st' :
  cstore_wf n st → cstore_Consume st ctx ids = Ok st' → cstore_wf n st'.
Proof.
  intros Hwf H. unfold cstore_Consume in H. apply bind_Ok in H as (_ & _ & H).
  apply bind_Ok in H as (_ & _ & [= <-]).
  assert (∀ id r, foldl (λ m id, delete id m) (injections st) ids !! id = Some r →
            injections st !! id = Some r) as Hold.
  { intros id r. rewrite foldl_delete_lookup. by case_match. }
  split; simpl; [by eauto using cwf_id|by eauto using cwf_normal|by apply Hwf|
    by eauto using cwf_sequence|by eauto using cwf_unique].
Qed.

Lemma cwf_insert_all n st prepared :
  cstore_wf n st → n + Z.of_nat (length prepared) < two64 → Forall ci_normal prepared →
  cstore_wf (n + Z.of_nat (length prepared)) (foldl cstore_insert st prepared).
Proof.
  intros Hwf Hn Hf. revert n st Hwf Hn. induction Hf as [|d l Hd _ IH]; simpl; intros n st Hwf Hn.
  { by rewrite Z.add_0_r. }
  replace (n + Z.of_nat (S (length l))) with (n + 1 + Z.of_nat (length l)) by lia.
  apply IH; [|lia]. apply cwf_insert; [done|lia|done].
Qed.

Lemma cwf_weaken n m st : n ≤ m → cstore_wf n st → cstore_wf m st.
Proof.
  intros Hnm Hwf. pose proof (cwf_next _ _ Hwf). split; [apply Hwf..|lia|apply Hwf|apply Hwf].
Qed.

Lemma cstore_reach_wf n st : cstore_reach n st → Z.of_nat n < two64 → cstore_wf (Z.of_nat n) st.
Proof.
  intros Hr. induction Hr as [|n k st st' Hr IH Hs]; intros Hn; [apply cwf_new|].
  rewrite Nat.add_comm, Nat2Z.inj_add. specialize (IH ltac:(lia)).
  destruct Hs as [st ctx batch wall es st' Hw He Hc H|st ctx ids st' H].
  - apply cstore_Enqueue_Ok in H as (prepared & _ & Hlen & Hf & _ & ->); [|done..].
    apply (cwf_weaken (Z.of_nat n + Z.of_nat (length prepared))); [lia|].
    apply cwf_insert_all; [done|lia|done].
  - rewrite Z.add_0_r. by eapply cwf_consume.
Qed.

(** ** The abstract queue

    [pending st] is the queue the store stands for: the injections in enqueue order. *)

Definition records (st : cstore) : list InjectionRecord := SortRecords (map_values (injections st)).
Definition pending (st : cstore) : list ContextInjection := ir_Injection <$> records st.

Lemma compareRecords_Z l r : compareRecords l r = Z_Compare (ir_Sequence l) (ir_Sequence r).
Proof.
  unfold compareRecords, Z_Compare. destruct (Z.compare_spec (ir_Sequence l) (ir_Sequence r)),
    (Z.ltb_spec (ir_Sequence l) (ir_Sequence r)), (ir_Sequence l >? ir_Sequence r) eqn:?; simpl; lia.
Qed.

Lemma compareRecords_ok : cmp_ok compareRecords.
Proof.
  destruct (cmp_ok_on ir_Sequence _ Z_Compare_ok) as [H1 H2].
  split; intros *; rewrite !compareRecords_Z; [apply H1|apply H2].
Qed.

Lemma compareRecords_le l r : cmp_le compareRecords l r ↔ ir_Sequence l ≤ ir_Sequence r.
Proof.
  unfold cmp_le. rewrite compareRecords_Z. unfold Z_Compare.
  destruct (Z.compare_spec (ir_Sequence l) (ir_Sequence r)); simpl; lia.
Qed.

Lemma compareRecords_inj n st x y :
  cstore_wf n st → x ∈ map_values (injections st) → y ∈ map_values (injections st) →
  compareRecords x y = 0 → x = y.
Proof.
  intros Hwf [i Hx]%elem_of_map_values [j Hy]%elem_of_map_values Hc.
  assert (ir_Sequence x = ir_Sequence y) as Heq.
  { rewrite compareRecords_Z in Hc. unfold Z_Compare in Hc.
    destruct (Z.compare_spec (ir_Sequence x) (ir_Sequence y)); simpl in Hc; lia. }
  pose proof (cwf_unique _ _ Hwf _ _ _ _ Hx Hy Heq). congruence.
Qed.

Lemma records_unique n st l :
  cstore_wf n st → l ≡ₚ map_values (injections st) → StronglySorted (cmp_le compareRecords) l →
  records st = l.
Proof.
  intros Hwf Hp Hs. symmetry. apply (SortFunc_unique _ compareRecords_ok); [|done..].
  intros x y. by eapply compareRecords_inj.
Qed.

Lemma records_perm st : records st ≡ₚ map_values (injections st).
Proof. apply SortFunc_perm. Qed.

Lemma records_sorted st : StronglySorted (cmp_le compareRecords) (records st).
Proof. apply SortFunc_sorted, compareRecords_ok. Qed.

Lemma pending_insert n st x :
  cstore_wf n st → n + 1 < two64 → ci_normal x →
  pending (cstore_insert st x) =
  pending st ++ (if bool_decide (is_Some (injections st !! ci_ID x)) then [] else [x]).
Proof.
  intros Hwf Hn Hx. pose proof (cwf_insert _ _ _ Hwf Hn Hx) as Hwf'. pose proof (cwf_next _ _ Hwf) as Hnext.
  unfold cstore_insert in *. destruct (injections st !! ci_ID x) as [r|] eqn:E.
  { rewrite bool_decide_eq_true_2 by done. by rewrite app_nil_r. }
  rewrite bool_decide_eq_false_2 by (by intros []). rewrite u64_small in * by lia.
  set (r := {| ir_Sequence := _ |}) in *. set (st' := {| injections := _ |}) in *.
  assert (records st' = records st ++ [r]) as Hr; [|unfold pending; by rewrite Hr, fmap_app].
  eapply records_unique; [done|..].
  - simpl. rewrite map_values_insert by done. by rewrite records_perm, Permutation_app_comm.
  - apply StronglySorted_snoc; [apply records_sorted|]. intros y Hy. rewrite records_perm in Hy.
    apply elem_of_map_values in Hy as [i Hy]. apply compareRecords_le. simpl.
    pose proof (cwf_sequence _ _ Hwf _ _ Hy). lia.
Qed.

Lemma ci_prepare_loop_NoDup seen batch now wall es prepared :
  ci_prepare_loop seen batch now wall es = Ok prepared →
  NoDup (ci_ID <$> prepared) ∧ ∀ p, p ∈ prepared → seen !! ci_ID p = None.
Proof.
  revert seen es prepared. induction batch as [|x batch IH]; intros seen es prepared H.
  { injection H as <-. split; [constructor|]. by intros p ?%not_elem_of_nil. }
  cbn [ci_prepare_loop] in H. apply bind_Ok in H as (y & Hy & H).
  destruct (seen !! ci_ID y) as [b|] eqn:Eb; [destruct (ci_SameIdentity b y); [by eapply IH|done]|].
  apply bind_Ok in H as (ps & Hps & [= <-]). apply IH in Hps as [Hnd Hps]. split.
  - rewrite fmap_cons. constructor; [|done]. intros (p & Heq & Hp)%list_elem_of_fmap.
    specialize (Hps p Hp). by rewrite <-Heq, lookup_insert_eq in Hps.
  - intros p [->|Hp]%elem_of_cons; [done|]. specialize (Hps p Hp).
    by apply lookup_insert_None in Hps as [? _].
Qed.

Definition unknown (st : cstore) (p : ContextInjection) : Prop := injections st !! ci_ID p = None.

#[export] Instance unknown_dec st p : Decision (unknown st p).
Proof. unfold unknown. destruct (injections st !! ci_ID p); [right; done|left; done]. Defined.

Lemma pending_insert_all n st prepared :
  cstore_wf n st → n + Z.of_nat (length prepared) < two64 → Forall ci_normal prepared →
  NoDup (ci_ID <$> prepared) →
  pending (foldl cstore_insert st prepared) = pending st ++ filter (unknown st) prepared.
Proof.
  intros Hwf Hn Hf. revert n st Hwf Hn. induction Hf as [|x l Hx _ IH]; intros n st Hwf Hn Hnd.
  { simpl. by rewrite app_nil_r. }
  rewrite fmap_cons in Hnd. pose proof (NoDup_cons_1_1 _ _ Hnd) as Hnin. apply NoDup_cons_1_2 in Hnd.
  cbn [foldl length] in *. rewrite (IH (n + 1)) by (done || lia || apply cwf_insert; done || lia).
  rewrite (pending_insert n) by (done || lia). rewrite <-app_assoc, filter_cons.
  assert (filter (unknown (cstore_insert st x)) l = filter (unknown st) l) as ->.
  { apply list_filter_ext. intros y Hy. unfold unknown, cstore_insert.
    destruct (injections st !! ci_ID x); [done|]. simpl. rewrite lookup_insert_ne; [done|].
    intros Heq. apply Hnin. rewrite Heq. by apply list_elem_of_fmap_2. }
  case_decide as Hu; unfold unknown in Hu.
  - rewrite Hu, bool_decide_eq_false_2 by (by intros []). done.
  - apply not_eq_None_Some in Hu. by rewrite bool_decide_eq_true_2 by done.
Qed.

Lemma pending_consume n st ctx ids st' :
  cstore_wf n st → cstore_Consume st ctx ids = Ok st' →
  pending st' = filter (λ x, ci_ID x ∉ ids) (pending st).
Proof.
  intros Hwf H. pose proof (cwf_consume _ _ _ _ _ Hwf H) as Hwf'.
  unfold pending. rewrite filter_fmap. f_equal. eapply records_unique; [done|..].
  - unfold cstore_Consume in H. apply bind_Ok in H as (_ & _ & H). apply bind_Ok in H as (_ & _ & [= <-]).
    rewrite records_perm. apply NoDup_Permutation.
    + apply NoDup_filter, (NoDup_map_values (λ r, ci_ID (ir_Injection r))), Hwf.
    + apply (NoDup_map_values (λ r, ci_ID (ir_Injection r))), Hwf'.
    + intros r. rewrite list_elem_of_filter, !elem_of_map_values. simpl.
      setoid_rewrite foldl_delete_lookup. split.
      * intros [Hnin [i Hr]]. exists i. rewrite <-(cwf_id _ _ Hwf _ _ Hr).
        rewrite bool_decide_eq_false_2 by done. by rewrite (cwf_id _ _ Hwf _ _ Hr).
      * intros [i Hr]. case_bool_decide; [done|]. rewrite (cwf_id _ _ Hwf _ _ Hr). eauto.
  - apply StronglySorted_filter', records_sorted.
Qed.

Lemma cstore_List_pending n st query :
  cstore_wf n st → ValidateQuery query = Ok tt →
  cstore_List st None query =
  Ok (let matching := filter (λ x, MatchesQuery x query = true) (pending st) in
      if cq_Limit query =? 0 then matching else take (Z.to_nat (cq_Limit query)) matching).
Proof.
  intros Hwf Hq. unfold cstore_List. rewrite Hq. cbn [ctx_Err result_bind]. f_equal. cbv zeta.
  assert (0 ≤ cq_Limit query) as Hl by (unfold ValidateQuery in Hq; inv_ok; gobool; done).
  assert (SortRecords (filter (λ record, MatchesQuery (ir_Injection record) query = true)
            (map_values (injections st))) =
          filter (λ record, MatchesQuery (ir_Injection record) query = true) (records st)) as ->.
  { symmetry. apply (SortFunc_unique _ compareRecords_ok).
    - intros x y [_ Hx]%list_elem_of_filter [_ Hy]%list_elem_of_filter. by eapply compareRecords_inj.
    - by rewrite records_perm.
    - apply StronglySorted_filter', records_sorted. }
  unfold pending. rewrite filter_fmap. set (l := filter _ (records st)). clearbody l.
  destruct (Z.ltb_spec 0 (cq_Limit query)), (Z.eqb_spec (cq_Limit query) 0); try lia; cbn [andb]; [|done].
  rewrite <-fmap_take. destruct (Z.ltb_spec (cq_Limit query) (Z.of_nat (length l))); [done|].
  by rewrite take_ge by lia.
Qed.

Lemma cstore_check_Ok st prepared :
  (∀ p r, p ∈ prepared → injections st !! ci_ID p = Some r → ir_Injection r = p) →
  cstore_check st prepared = Ok tt.
Proof.
  induction prepared as [|p l IH]; intros H; [done|]. cbn [cstore_check].
  destruct (injections st !! ci_ID p) as [r|] eqn:E; [|apply IH; set_solver].
  rewrite (proj2 (ci_SameIdentity_eq _ _)) by (apply H; [set_solver|done]). apply IH. set_solver.
Qed.

Lemma cstore_check_inv st prepared p r :
  cstore_check st prepared = Ok tt → p ∈ prepared → injections st !! ci_ID p = Some r → ir_Injection r = p.
Proof.
  induction prepared as [|q l IH]; intros H Hp Hr; [by apply not_elem_of_nil in Hp|].
  cbn [cstore_check] in H. apply elem_of_cons in Hp as [->|Hp].
  - rewrite Hr in H. destruct (ci_SameIdentity _ q) eqn:E; [|done]. by apply ci_SameIdentity_eq.
  - apply IH; [|done..]. destruct (injections st !! ci_ID q); [by destruct (ci_SameIdentity _ q)|done].
Qed.

Lemma cstore_insert_keeps st prepared id r :
  injections st !! id = Some r → injections (foldl cstore_insert st prepared) !! id = Some r.
Proof.
  revert st. induction prepared as [|p l IH]; simpl; intros st H; [done|]. apply IH.
  unfold cstore_insert. destruct (injections st !! ci_ID p) eqn:E; [done|]. simpl.
  rewrite lookup_insert_ne; [done|]. congruence.
Qed.

Lemma cstore_insert_stored st prepared p :
  NoDup (ci_ID <$> prepared) → cstore_check st prepared = Ok tt → p ∈ prepared →
  ∃ r, injections (foldl cstore_insert st prepared) !! ci_ID p = Some r ∧ ir_Injection r = p.
Proof.
  revert st. induction prepared as [|q l IH]; intros st Hnd Hc Hp; [by apply not_elem_of_nil in Hp|].
  rewrite fmap_cons in Hnd. pose proof (NoDup_cons_1_1 _ _ Hnd) as Hnin. apply NoDup_cons_1_2 in Hnd.
  cbn [foldl]. apply elem_of_cons in Hp as [->|Hp].
  - unfold cstore_insert at 2. destruct (injections st !! ci_ID q) as [r|] eqn:E.
    + exists r. split; [by apply cstore_insert_keeps|]. eapply cstore_check_inv; [done|set_solver|done].
    + eexists. split; [apply cstore_insert_keeps; simpl; apply lookup_insert_eq|done].
  - apply IH; [done| |done]. apply cstore_check_Ok. intros x r Hx Hr.
    eapply cstore_check_inv; [done|set_solver|]. unfold cstore_insert in Hr.
    destruct (injections st !! ci_ID q); [done|]. simpl in Hr. rewrite lookup_insert_ne in Hr; [done|].
    intros Heq. apply Hnin. rewrite Heq. by apply list_elem_of_fmap_2.
Qed.

(** Preparing a batch whose items carry an ID and a creation time does not depend on the clock or
    on randomness. *)
Lemma Normalize_stamped x now wall e now2 wall2 e2 :
  ci_ID x ≠ "" → ci_CreatedAt x ≠ 0 →
  NormalizeContextInjection x now wall e = NormalizeContextInjection x now2 wall2 e2.
Proof.
  intros Hid Hc. unfold NormalizeContextInjection.
  by rewrite (proj2 (is_empty_false _) Hid), (proj2 (IsZero_false _) Hc).
Qed.

Lemma ci_prepare_loop_stamped seen batch now wall es now2 wall2 es2 :
  (∀ x, x ∈ batch → ci_ID x ≠ "" ∧ ci_CreatedAt x ≠ 0) →
  ci_prepare_loop seen batch now wall es = ci_prepare_loop seen batch now2 wall2 es2.
Proof.
  revert seen es es2. induction batch as [|x batch IH]; intros seen es es2 Hst; [done|].
  cbn [ci_prepare_loop]. destruct (Hst x ltac:(set_solver)) as [Hid Hc].
  rewrite (Normalize_stamped x now wall (es 0%nat) now2 wall2 (es2 0%nat)) by done.
  assert (∀ seen es es2, ci_prepare_loop seen batch now wall es =
            ci_prepare_loop seen batch now2 wall2 es2) as IH' by (intros; apply IH; set_solver).
  destruct (NormalizeContextInjection x _ _ _) as [y|]; [|done]. cbn [result_bind].
  destruct (seen !! ci_ID y); [|by rewrite (IH' _ _ (λ i, es2 (S i)))].
  by rewrite (IH' _ _ (λ i, es2 (S i))).
Qed.

(** ** Theorems *)

(** Normalization is a projection: what it returns passes the loader's validation and is
    returned unchanged by every later normalization, whatever the clock and the random source. *)
Theorem Normalize_idempotent x now wall e y now2 wall2 e2 :
  NormalizeContextInjection x now wall e = Ok y →
  random_ok e → 0 < wall → 0 ≤ now → 0 ≤ ci_CreatedAt x →
  NormalizeContextInjection y now2 wall2 e2 = Ok y ∧ ci_ValidateLoaded y wall2 e2 = Ok tt.
Proof.
  intros H He Hw Hn Hc. destruct (Normalize_Ok _ _ _ _ _ H He Hw Hn Hc) as [Hnorm _].
  split; [by apply Normalize_normal|by apply ci_ValidateLoaded_normal].
Qed.

(** C35. Refinement: the store is a queue in enqueue order.  Enqueuing appends the prepared
    injections whose IDs are not pending, in order; listing returns the matching injections in
    enqueue order, cut at the limit; consuming removes the given IDs and keeps the order of the
    rest. *)
Theorem cstore_refines_queue n st :
  cstore_reach n st → Z.of_nat n < two64 →
  (∀ batch wall es st', 0 < wall → (∀ i, random_ok (es i)) → (∀ x, x ∈ batch → 0 ≤ ci_CreatedAt x) →
     Z.of_nat (n + length batch) < two64 → cstore_Enqueue st None batch wall es = Ok st' →
     ∃ prepared, ci_PrepareBatch batch wall wall es = Ok prepared ∧
       pending st' = pending st ++ filter (unknown st) prepared) ∧
  (∀ query, ValidateQuery query = Ok tt →
     cstore_List st None query =
       Ok (let matching := filter (λ x, MatchesQuery x query = true) (pending st) in
           if cq_Limit query =? 0 then matching else take (Z.to_nat (cq_Limit query)) matching)) ∧
  (∀ ids st', cstore_Consume st None ids = Ok st' →
     pending st' = filter (λ x, ci_ID x ∉ ids) (pending st)).
Proof.
  intros Hr Hn. pose proof (cstore_reach_wf _ _ Hr Hn) as Hwf. split_and!.
  - intros batch wall es st' Hw He Hc Hb H.
    apply cstore_Enqueue_Ok in H as (prepared & Hp & Hlen & Hf & _ & ->); [|done..].
    exists prepared. split; [done|]. unfold ci_PrepareBatch in Hp. apply ci_prepare_loop_NoDup in Hp as [Hnd _].
    apply (pending_insert_all (Z.of_nat n)); [done|lia|done..].
  - intros query Hq. by eapply cstore_List_pending.
  - intros ids st' H. by eapply pending_consume.
Qed.

(** Every pending injection is filed under its own ID, passes the loader's validation of its
    record, and has a sequence number of its own. *)
Theorem cstore_invariant n st :
  cstore_reach n st → Z.of_nat n < two64 →
  (∀ id r wall e, injections st !! id = Some r →
     ci_ID (ir_Injection r) = id ∧ ValidateLoadedRecord r wall e = Ok tt) ∧
  (∀ i x j y, injections st !! i = Some x → injections st !! j = Some y →
     ir_Sequence x = ir_Sequence y → i = j).
Proof.
  intros Hr Hn. pose proof (cstore_reach_wf _ _ Hr Hn) as Hwf. split.
  - intros id r wall e H. split; [by eapply cwf_id|]. pose proof (cwf_sequence _ _ Hwf _ _ H).
    unfold ValidateLoadedRecord. rewrite (proj2 (Z.eqb_neq _ _)) by lia.
    by eapply ci_ValidateLoaded_normal, cwf_normal.
  - intros i x j y. by eapply (cwf_unique _ _ Hwf).
Qed.

(** Enqueuing a batch again is accepted and changes nothing, provided every injection carries
    its ID and its creation time. *)
Theorem cstore_enqueue_idempotent st batch wall es st1 wall2 es2 :
  (∀ x, x ∈ batch → ci_ID x ≠ "" ∧ 0 < ci_CreatedAt x) →
  cstore_Enqueue st None batch wall es = Ok st1 →
  cstore_Enqueue st1 None batch wall2 es2 = Ok st1.
Proof.
  intros Hst H. unfold cstore_Enqueue in *. cbn [ctx_Err result_bind] in *.
  apply bind_Ok in H as (prepared & Hp & H). apply bind_Ok in H as ([] & Hc & [= <-]).
  assert (ci_PrepareBatch batch wall2 wall2 es2 = Ok prepared) as ->.
  { rewrite <-Hp. apply ci_prepare_loop_stamped. intros x [? ?]%Hst. split; [done|lia]. }
  cbn [result_bind]. unfold ci_PrepareBatch in Hp. apply ci_prepare_loop_NoDup in Hp as [Hnd _].
  assert (∀ p, p ∈ prepared → ∃ r, injections (foldl cstore_insert st prepared) !! ci_ID p = Some r ∧
            ir_Injection r = p) as Hall by (intros p; by apply cstore_insert_stored).
  set (st1 := foldl cstore_insert st prepared) in *. clearbody st1.
  rewrite cstore_check_Ok; [|intros p r Hin Hr'; destruct (Hall p Hin) as (r' & ? & ?); congruence].
  cbn [result_bind]. f_equal. revert Hall. clear. induction prepared as [|p l IH]; intros Hall; [done|].
  cbn [foldl]. assert (cstore_insert st1 p = st1) as ->; [|apply IH; set_solver].
  unfold cstore_insert. by destruct (Hall p ltac:(set_solver)) as (r & -> & _).
Qed.

(** Without a creation time the identity of an injection depends on the clock: the same
    injection enqueued again at a later instant is refused, although its ID is the same. *)
Theorem cstore_reenqueue_unstamped_refused x wall es st1 wall2 es2 :
  ci_ID x ≠ "" → ci_CreatedAt x = 0 → 0 < wall → 0 < wall2 → wall2 ≠ wall →
  cstore_Enqueue newMemoryContextInjectionStore None [x] wall es = Ok st1 →
  ∃ err, cstore_Enqueue st1 None [x] wall2 es2 = Err err.
Proof.
  intros Hid Hc Hw Hw2 Hne H. unfold cstore_Enqueue, ci_PrepareBatch in *.
  cbn [ctx_Err result_bind ci_prepare_loop] in *.
  rewrite (proj2 (IsZero_false wall)) in H by lia. rewrite (proj2 (IsZero_false wall2)) by lia.
  apply bind_Ok in H as (prepared & Hp & H). apply bind_Ok in Hp as (y & Hy & Hp).
  rewrite lookup_empty in Hp. injection Hp as <-.
  simpl in H. unfold cstore_insert in H. simpl in H. rewrite !lookup_empty in H. injection H as <-.
  assert (∃ y2, NormalizeContextInjection x wall2 wall2 (es2 0%nat) = Ok y2 ∧ ci_ID y2 = ci_ID x ∧
            ci_CreatedAt y2 = wall2) as (y2 & -> & Hid2 & Hc2).
  { unfold NormalizeContextInjection in *. rewrite (proj2 (is_empty_false _) Hid), Hc in *.
    rewrite (proj2 (IsZero_false wall2)) by lia.
    repeat match type of Hy with
    | result_bind ?m _ = Ok _ => destruct m; [cbn [result_bind] in *|discriminate Hy]
    | (if ?c then Err _ else _) = Ok _ => destruct c; [discriminate Hy|]
    end. eexists. split; [done|]. simpl. done. }
  assert (ci_ID y = ci_ID x ∧ ci_CreatedAt y = wall) as [Hidy Hcy].
  { unfold NormalizeContextInjection in Hy. rewrite (proj2 (is_empty_false _) Hid), Hc in Hy.
    rewrite (proj2 (IsZero_false wall)) in Hy by lia. cbv zeta in Hy. inv_ok. done. }
  cbn [result_bind]. rewrite lookup_empty. cbn [result_bind cstore_check]. simpl.
  rewrite Hid2, Hidy, lookup_insert_eq. simpl.
  assert (ci_SameIdentity y y2 = false) as ->; [|by eexists].
  destruct (ci_SameIdentity y y2) eqn:E; [|done]. apply ci_SameIdentity_eq in E. congruence.
Qed.

(** ** Witnesses *)

Definition ex_message : Message :=
  {| msg_Role := RoleUser; msg_Content := "hello"; msg_ToolCalls := None; msg_ToolCallID := "";
     msg_IsError := false |}.

Definition ex_injection (id : string) (created : time) : ContextInjection :=
  {| ci_ID := id; ci_Priority := PriorityOther ""; ci_Mode := ModeOther ""; ci_Origin := "host";
     ci_TargetSessionID := "s-1"; ci_TargetExecutionID := ""; ci_IsMeta := false;
     ci_Messages := [ex_message]; ci_Attributes := ∅; ci_CreatedAt := created |}.

Definition ex_es (i : nat) : entropy := ex_entropy 9.

Lemma ex_es_ok i : random_ok (ex_es i).
Proof. split; [by apply ex_entropy_ok|by eexists]. Qed.

Definition ex_injections : list ContextInjection := [ex_injection "i-2" 10; ex_injection "i-1" 20].
Definition ex_cs1 := get newMemoryContextInjectionStore
  (cstore_Enqueue newMemoryContextInjectionStore None ex_injections 1000 ex_es).
Definition ex_cs2 := get newMemoryContextInjectionStore
  (cstore_Enqueue newMemoryContextInjectionStore None [ex_injection "i-1" 0] 1000 ex_es).

Lemma ex_creach1 : cstore_reach 2 ex_cs1.
Proof.
  apply (creach_step 0 2 newMemoryContextInjectionStore); [apply creach_new|].
  apply (cstep_Enqueue _ None ex_injections 1000 ex_es); [done|apply ex_es_ok| |by vm_compute].
  by intros x [->|[->|?%not_elem_of_nil]%elem_of_cons]%elem_of_cons.
Qed.

Lemma Normalize_idempotent_witness :
  ∃ y, NormalizeContextInjection (ex_injection "" 0) 5 5 (ex_entropy 3) = Ok y ∧
       NormalizeContextInjection y 7 7 (ex_entropy 4) = Ok y ∧ ci_ValidateLoaded y 7 (ex_entropy 4) = Ok tt.
Proof.
  eexists. split; [by vm_compute|].
  eapply (Normalize_idempotent (ex_injection "" 0) 5 5 (ex_entropy 3));
    [by vm_compute|split; [by apply ex_entropy_ok|by eexists]|done..].
Defined.

Lemma cstore_refines_queue_witness :
  cstore_List ex_cs1 None {| cq_TargetSessionID := "s-1"; cq_TargetExecutionID := ""; cq_Limit := 1 |} =
    Ok (take 1 (pending ex_cs1)) ∧ (ci_ID <$> pending ex_cs1) = ["i-2"; "i-1"].
Proof.
  split; [|by vm_compute].
  rewrite (proj1 (proj2 (cstore_refines_queue 2 ex_cs1 ex_creach1 ltac:(by vm_compute)))); by vm_compute.
Defined.

Lemma cstore_invariant_witness :
  ∃ r, injections ex_cs1 !! "i-1" = Some r ∧ ValidateLoadedRecord r 3000 (ex_entropy 1) = Ok tt.
Proof.
  eexists. split; [by vm_compute|].
  eapply (proj1 (cstore_invariant 2 ex_cs1 ex_creach1 ltac:(by vm_compute)) "i-1"). by vm_compute.
Defined.

Lemma cstore_enqueue_idempotent_witness : cstore_Enqueue ex_cs1 None ex_injections 9000 ex_es = Ok ex_cs1.
Proof.
  apply (cstore_enqueue_idempotent newMemoryContextInjectionStore ex_injections 1000 ex_es);
    [|by vm_compute].
  intros x [->|[->|?%not_elem_of_nil]%elem_of_cons]%elem_of_cons; done.
Defined.

Lemma cstore_reenqueue_unstamped_refused_witness :
  ∃ err, cstore_Enqueue ex_cs2 None [ex_injection "i-1" 0] 9000 ex_es = Err err.
Proof.
  apply (cstore_reenqueue_unstamped_refused (ex_injection "i-1" 0) 1000 ex_es); by vm_compute.
Defined.
