(* ===== verification/Trajectory.v ===== *)
(** Trajectories: the aggregate of [sdk/trajectory.go] and its rules in
    [sdk/storage/internal/trajectorymodel/model.go].  A trajectory is a tree of entries with a head,
    the latest checkpoint on the branch of the head, and at most one execution. *)

From S2P Require Import Prelude GoText Names Message.

(** ** Data *)

Definition TrajectorySchemaVersion : Z := 3.
Definition TrajectoryPayloadVersion : Z := 1.

Inductive TrajectoryKind :=
  | TrajectoryKindUserMessage
  | TrajectoryKindAgentStart
  | TrajectoryKindProviderRequest
  | TrajectoryKindProviderResponse
  | TrajectoryKindToolCall
  | TrajectoryKindToolResult
  | TrajectoryKindDecision
  | TrajectoryKindCheckpoint
  | TrajectoryKindTerminal
  | TrajectoryKindRestore
  | TrajectoryKindRollback
  | TrajectoryKindOther (text : string).

#[export] Instance TrajectoryKind_eq_dec : EqDecision TrajectoryKind.
Proof. solve_decision. Defined.

Definition trajectory_kind_text (kind : TrajectoryKind) : string :=
  match kind with
  | TrajectoryKindUserMessage => "user_message"
  | TrajectoryKindAgentStart => "agent_start"
  | TrajectoryKindProviderRequest => "provider_request"
  | TrajectoryKindProviderResponse => "provider_response"
  | TrajectoryKindToolCall => "tool_call"
  | TrajectoryKindToolResult => "tool_result"
  | TrajectoryKindDecision => "decision"
  | TrajectoryKindCheckpoint => "checkpoint"
  | TrajectoryKindTerminal => "terminal"
  | TrajectoryKindRestore => "restore"
  | TrajectoryKindRollback => "rollback"
  | TrajectoryKindOther text => text
  end.

Definition TrajectoryKind_Valid (kind : TrajectoryKind) : bool :=
  match kind with TrajectoryKindOther _ => false | _ => true end.

Record TrajectoryEntryFields := {
  tf_Turn : option Z;
  tf_ExecutionID : string;
  tf_OperationKey : string;
  tf_CorrelationID : string;
  tf_Provider : string;
  tf_Model : string;
  tf_ToolName : string;
  tf_ToolCallID : string;
  tf_FinishReason : string;
  tf_InputTokens : Z;
  tf_OutputTokens : Z;
  tf_IsError : option bool;
  tf_CauseCode : string;
  tf_ActionKind : string;
}.

Record BlockSummary := {
  bs_Reason : string;
  bs_Kind : string;
}.

Record ActionSummary := {
  asum_Kind : string;
  asum_CauseCode : string;
  asum_CauseFinal : bool;
  asum_MessageCount : Z;
}.

Record EffectResolution := {
  res_Outcome : string;
  res_Block : option BlockSummary;
  res_BlockStep : option Z;
  res_Action : option ActionSummary;
  res_ActionSteps : list Z;
  res_ActionRule : string;
  res_PatchFields : list string;
  res_Error : string;
}.

Record HookAuditStep := {
  ha_Index : Z;
  ha_Plugin : string;
  ha_PluginVersion : string;
  ha_Hook : string;
  ha_Priority : Z;
  ha_Sequence : Z;
  ha_FailurePolicy : string;
  ha_Duration : duration;
  ha_InputHash : string;
  ha_OutputHash : string;
  ha_PatchFields : list string;
  ha_Overwrites : list string;
  ha_Block : option BlockSummary;
  ha_Action : option ActionSummary;
  ha_Error : string;
  ha_Outcome : string;
  ha_Attributes : gmap string string;
}.

Record EventAudit := {
  ea_EventID : string;
  ea_EventName : string;
  ea_Generation : Z;
  ea_InputHash : string;
  ea_OutputHash : string;
  ea_Steps : list HookAuditStep;
  ea_Resolution : EffectResolution;
}.

Record TrajectoryEntry := {
  te_ID : string;
  te_TrajectoryID : string;
  te_ParentID : string;
  te_Ordinal : Z;
  te_Depth : Z;
  te_Kind : TrajectoryKind;
  te_Timestamp : time;
  te_Generation : Z;
  te_Fields : TrajectoryEntryFields;
  te_Audit : list EventAudit;
  te_PayloadVersion : Z;
  te_Payload : string;
  te_Attributes : gmap string string;
}.

Inductive TrajectoryExecutionState :=
  | TrajectoryExecutionPending
  | TrajectoryExecutionRunning
  | TrajectoryExecutionSucceeded
  | TrajectoryExecutionFailed
  | TrajectoryExecutionCancelled
  | TrajectoryExecutionStateOther (text : string).

#[export] Instance TrajectoryExecutionState_eq_dec : EqDecision TrajectoryExecutionState.
Proof. solve_decision. Defined.

Definition execution_state_text (state : TrajectoryExecutionState) : string :=
  match state with
  | TrajectoryExecutionPending => "pending"
  | TrajectoryExecutionRunning => "running"
  | TrajectoryExecutionSucceeded => "succeeded"
  | TrajectoryExecutionFailed => "failed"
  | TrajectoryExecutionCancelled => "cancelled"
  | TrajectoryExecutionStateOther text => text
  end.

Record TrajectoryExecution := {
  ex_ID : string;
  ex_State : TrajectoryExecutionState;
  ex_Revision : Z;
  ex_BaseHead : string;
  ex_InputEntryID : string;
  ex_Provider : string;
  ex_System : string;
  ex_MaxTurns : Z;
  ex_Owner : string;
  ex_LeaseToken : string;
  ex_LeaseExpiresAt : time;
  ex_LastError : string;
  ex_CreatedAt : time;
  ex_UpdatedAt : time;
}.

Record TrajectoryExecutionStart := {
  es_ID : string;
  es_Provider : string;
  es_System : string;
  es_MaxTurns : Z;
}.

Record TrajectoryExecutionCommit := {
  ecm_TrajectoryID : string;
  ecm_ExecutionID : string;
  ecm_LeaseToken : string;
  ecm_ExpectedHead : string;
  ecm_Entries : list TrajectoryEntry;
  ecm_State : TrajectoryExecutionState;
  ecm_Error : string;
}.

Record TrajectoryExecutionCancelCommit := {
  ecc_TrajectoryID : string;
  ecc_ExecutionID : string;
  ecc_ExpectedHead : string;
  ecc_Reason : string;
  ecc_At : time;
  ecc_Entries : list TrajectoryEntry;
}.

Record Trajectory := {
  tj_SchemaVersion : Z;
  tj_ID : string;
  tj_ParentID : string;
  tj_ParentEntryID : string;
  tj_CreatedAt : time;
  tj_UpdatedAt : time;
  tj_Head : string;
  tj_Checkpoint : string;
  tj_Execution : option TrajectoryExecution;
  tj_Environment : TrajectoryEnvironment;
  tj_Entries : list TrajectoryEntry;
}.

Record TrajectoryMetadata := {
  tm_SchemaVersion : Z;
  tm_ID : string;
  tm_ParentID : string;
  tm_ParentEntryID : string;
  tm_CreatedAt : time;
  tm_UpdatedAt : time;
  tm_Head : string;
  tm_Checkpoint : string;
  tm_Execution : option TrajectoryExecution;
  tm_Environment : TrajectoryEnvironment;
  tm_EntryCount : Z;
  tm_OwnedEntryCount : Z;
}.

Record TrajectorySummary := {
  tsm_SchemaVersion : Z;
  tsm_ID : string;
  tsm_ParentID : string;
  tsm_ParentEntryID : string;
  tsm_CreatedAt : time;
  tsm_UpdatedAt : time;
  tsm_Head : string;
  tsm_Checkpoint : string;
  tsm_ExecutionID : string;
  tsm_ExecutionState : TrajectoryExecutionState;
  tsm_EntryCount : Z;
  tsm_OwnedEntryCount : Z;
}.

Record TrajectoryEntryQuery := {
  tq_TrajectoryID : string;
  tq_ExecutionID : string;
  tq_OperationKey : string;
  tq_Kind : TrajectoryKind;
  tq_Provider : string;
  tq_ToolName : string;
  tq_CorrelationID : string;
  tq_Limit : Z;
}.

(** ** Executions *)

Definition execution_state_terminal (state : TrajectoryExecutionState) : bool :=
  match state with
  | TrajectoryExecutionSucceeded | TrajectoryExecutionFailed | TrajectoryExecutionCancelled => true
  | _ => false
  end.

Definition Execution_Terminal (execution : TrajectoryExecution) : bool :=
  execution_state_terminal (ex_State execution).

Definition RecoveryDelay (execution : TrajectoryExecution) (now wall : time) : duration :=
  let now := if IsZero now then wall else now in
  if bool_decide (ex_State execution = TrajectoryExecutionRunning) && After (ex_LeaseExpiresAt execution) now
  then time_Sub (ex_LeaseExpiresAt execution) now
  else 0.

Definition Execution_RecoverableAt (execution : TrajectoryExecution) (now wall : time) : bool :=
  negb (Execution_Terminal execution) && (RecoveryDelay execution now wall <=? 0).

(** The fields the transitions change. *)
Definition with_lease (execution : TrajectoryExecution) (state : TrajectoryExecutionState) (revision : Z)
    (owner token : string) (expires : time) (system lastError : string) (updated : time) : TrajectoryExecution :=
  {| ex_ID := ex_ID execution; ex_State := state; ex_Revision := revision;
     ex_BaseHead := ex_BaseHead execution; ex_InputEntryID := ex_InputEntryID execution;
     ex_Provider := ex_Provider execution; ex_System := system; ex_MaxTurns := ex_MaxTurns execution;
     ex_Owner := owner; ex_LeaseToken := token; ex_LeaseExpiresAt := expires;
     ex_LastError := lastError; ex_CreatedAt := ex_CreatedAt execution; ex_UpdatedAt := updated |}.

Definition no_lease (execution : TrajectoryExecution) : bool :=
  is_empty (ex_Owner execution) && is_empty (ex_LeaseToken execution) && IsZero (ex_LeaseExpiresAt execution).

Definition ValidateTrajectoryExecution (execution : TrajectoryExecution) : result unit :=
  let id := AStr (ex_ID execution) in
  try? ValidateResourceName "trajectory execution" (ex_ID execution);
  fail_if ex_Revision execution =? 0 with
    Errorf "trajectory execution %q revision must be positive" [id];
  try? ValidateResourceName "trajectory execution input entry" (ex_InputEntryID execution);
  fail_if ex_MaxTurns execution <? 1 with
    Errorf "trajectory execution %q max_turns must be positive" [id];
  fail_if IsZero (ex_CreatedAt execution) || IsZero (ex_UpdatedAt execution) with
    Errorf "trajectory execution %q timestamps are required" [id];
  match ex_State execution with
  | TrajectoryExecutionPending =>
      fail_if negb (no_lease execution) with
        Errorf "pending trajectory execution %q contains a lease" [id];
      Ok tt
  | TrajectoryExecutionRunning =>
      fail_if blank (ex_Owner execution) || is_empty (ex_LeaseToken execution)
              || IsZero (ex_LeaseExpiresAt execution) with
        Errorf "running trajectory execution %q has an invalid lease" [id];
      Ok tt
  | TrajectoryExecutionSucceeded | TrajectoryExecutionFailed | TrajectoryExecutionCancelled =>
      fail_if negb (no_lease execution) with
        Errorf "terminal trajectory execution %q contains a lease" [id];
      fail_if bool_decide (ex_State execution = TrajectoryExecutionSucceeded)
              && negb (is_empty (ex_LastError execution)) with
        Errorf "succeeded trajectory execution %q contains an error" [id];
      Ok tt
  | TrajectoryExecutionStateOther text =>
      Err (Errorf "trajectory execution %q has invalid state %q" [id; AStr text])
  end.

Definition PrepareTrajectoryExecutionStart (start : TrajectoryExecutionStart) (baseHead inputEntryID : string)
    (now : time) : result TrajectoryExecution :=
  try? ValidateResourceName "trajectory execution" (es_ID start);
  fail_if es_MaxTurns start <? 1 with errors_New "trajectory execution max_turns must be positive";
  let execution :=
    {| ex_ID := es_ID start; ex_State := TrajectoryExecutionPending; ex_Revision := 1;
       ex_BaseHead := baseHead; ex_InputEntryID := inputEntryID; ex_Provider := es_Provider start;
       ex_System := es_System start; ex_MaxTurns := es_MaxTurns start; ex_Owner := "";
       ex_LeaseToken := ""; ex_LeaseExpiresAt := zeroTime; ex_LastError := "";
       ex_CreatedAt := now; ex_UpdatedAt := now |} in
  try? ValidateTrajectoryExecution execution;
  Ok execution.

Definition ClaimTrajectoryExecution (execution : TrajectoryExecution) (owner : string) (now : time)
    (ttl : duration) (wall : time) (e : entropy) : result TrajectoryExecution :=
  fail_if blank owner with errors_New "trajectory execution lease owner is empty";
  fail_if ttl <=? 0 with errors_New "trajectory execution lease TTL must be positive";
  fail_if Execution_Terminal execution with
    Wrapf "%w: execution %s is terminal" [AStr (ex_ID execution)] (Sentinel ErrTrajectoryExecution);
  fail_if 0 <? RecoveryDelay execution now wall with
    Wrapf "%w: execution %s is owned by %s until %s"
      [AStr (ex_ID execution); AStr (ex_Owner execution); ANum (ex_LeaseExpiresAt execution)]
      (Sentinel ErrTrajectoryClaimed);
  let claimed := with_lease execution TrajectoryExecutionRunning (u64 (ex_Revision execution + 1))
                   owner (NewID e) (time_Add now ttl) (ex_System execution) (ex_LastError execution) now in
  try? ValidateTrajectoryExecution claimed;
  Ok claimed.

Definition execution_fenced (execution : TrajectoryExecution) (executionID token : string) (now : time) : bool :=
  bool_decide (ex_ID execution ≠ executionID) ||
  bool_decide (ex_State execution ≠ TrajectoryExecutionRunning) ||
  bool_decide (ex_LeaseToken execution ≠ token) ||
  negb (After (ex_LeaseExpiresAt execution) now).

Definition fence_error (executionID : string) : error :=
  Wrapf "%w: execution %s token is stale or expired" [AStr executionID] (Sentinel ErrTrajectoryFence).

Definition RenewTrajectoryExecution (execution : TrajectoryExecution) (executionID token : string)
    (now : time) (ttl : duration) : result TrajectoryExecution :=
  fail_if ttl <=? 0 with errors_New "trajectory execution lease TTL must be positive";
  fail_if execution_fenced execution executionID token now with fence_error executionID;
  let renewed := with_lease execution (ex_State execution) (u64 (ex_Revision execution + 1))
                   (ex_Owner execution) (ex_LeaseToken execution) (time_Add now ttl)
                   (ex_System execution) (ex_LastError execution) now in
  try? ValidateTrajectoryExecution renewed;
  Ok renewed.

(** [commit.State == ""] or running: the execution goes on under its lease. *)
Definition commit_continues (state : TrajectoryExecutionState) : bool :=
  match state with
  | TrajectoryExecutionRunning => true
  | TrajectoryExecutionStateOther text => is_empty text
  | _ => false
  end.

Definition CommitTrajectoryExecution (execution : TrajectoryExecution) (commit : TrajectoryExecutionCommit)
    (now : time) : result TrajectoryExecution :=
  fail_if execution_fenced execution (ecm_ExecutionID commit) (ecm_LeaseToken commit) now with
    fence_error (ecm_ExecutionID commit);
  let revision := u64 (ex_Revision execution + 1) in
  if commit_continues (ecm_State commit) then
    let continued := with_lease execution (ex_State execution) revision (ex_Owner execution)
                       (ex_LeaseToken execution) (ex_LeaseExpiresAt execution) (ex_System execution)
                       (ex_LastError execution) now in
    try? ValidateTrajectoryExecution continued;
    Ok continued
  else
  fail_if (match ecm_State commit with
           | TrajectoryExecutionPending | TrajectoryExecutionSucceeded
           | TrajectoryExecutionFailed | TrajectoryExecutionCancelled => false
           | _ => true
           end) with
    Errorf "trajectory execution cannot commit state %q" [AStr (execution_state_text (ecm_State commit))];
  let committed := with_lease execution (ecm_State commit) revision "" "" zeroTime
                     (if execution_state_terminal (ecm_State commit) then "" else ex_System execution)
                     (if bool_decide (ecm_State commit = TrajectoryExecutionSucceeded) then ""
                      else ecm_Error commit) now in
  try? ValidateTrajectoryExecution committed;
  Ok committed.

Definition CancelTrajectoryExecution (execution : TrajectoryExecution) (executionID reason : string) (now : time)
    : result (TrajectoryExecution * bool) :=
  fail_if is_empty executionID with errors_New "trajectory execution cancellation has no execution ID";
  fail_if bool_decide (ex_ID execution ≠ executionID) with
    Wrapf "%w: execution %s is no longer current" [AStr executionID] (Sentinel ErrTrajectoryFence);
  if bool_decide (ex_State execution = TrajectoryExecutionCancelled) then Ok (execution, false) else
  fail_if Execution_Terminal execution with
    Wrapf "%w: execution %s is already %s"
      [AStr (ex_ID execution); AStr (execution_state_text (ex_State execution))]
      (Sentinel ErrTrajectoryExecution);
  let cancelled := with_lease execution TrajectoryExecutionCancelled (u64 (ex_Revision execution + 1))
                     "" "" zeroTime (ex_System execution) reason now in
  try? ValidateTrajectoryExecution cancelled;
  Ok (cancelled, true).

Definition tj_NormalizeMutationTime (wall now : time) : time := if IsZero now then wall else now.

(** ** Entries *)

Definition ValidateTrajectoryKind (kind : TrajectoryKind) : result unit :=
  fail_if negb (TrajectoryKind_Valid kind) || blank (trajectory_kind_text kind) with
    Errorf "unsupported trajectory kind %q" [AStr (trajectory_kind_text kind)];
  Ok tt.

Definition requireTurn (entry : TrajectoryEntry) : result unit :=
  fail_if (match tf_Turn (te_Fields entry) with None => true | Some turn => turn <? 0 end) with
    Errorf "trajectory entry %q kind %q requires a non-negative turn"
      [AStr (te_ID entry); AStr (trajectory_kind_text (te_Kind entry))];
  Ok tt.

Definition ValidateTrajectoryEntryFields (entry : TrajectoryEntry) : result unit :=
  let fields := te_Fields entry in
  let args := [AStr (te_ID entry); AStr (trajectory_kind_text (te_Kind entry))] in
  let require_operation_key :=
    (fail_if blank (tf_OperationKey fields) with
       Errorf "trajectory entry %q kind %q requires operation_key" args; Ok tt) in
  let require_is_error :=
    (fail_if bool_decide (tf_IsError fields = None) with
       Errorf "trajectory entry %q kind %q requires is_error" args; Ok tt) in
  match te_Kind entry with
  | TrajectoryKindProviderRequest =>
      try? requireTurn entry;
      fail_if blank (tf_Provider fields) with Errorf "trajectory entry %q kind %q requires a provider" args;
      require_operation_key
  | TrajectoryKindProviderResponse =>
      try? requireTurn entry;
      fail_if blank (tf_Provider fields) with Errorf "trajectory entry %q kind %q requires a provider" args;
      require_is_error
  | TrajectoryKindToolCall =>
      try? requireTurn entry;
      fail_if blank (tf_ToolName fields) || blank (tf_ToolCallID fields) with
        Errorf "trajectory entry %q kind %q requires tool_name and tool_call_id" args;
      require_operation_key
  | TrajectoryKindToolResult =>
      try? requireTurn entry;
      fail_if blank (tf_ToolName fields) || blank (tf_ToolCallID fields) with
        Errorf "trajectory entry %q kind %q requires tool_name and tool_call_id" args;
      require_is_error
  | TrajectoryKindDecision => requireTurn entry
  | _ => Ok tt
  end.

(** [EntryLookup]: the entry of an ID, or none, or an error. *)
Definition EntryLookup := string → result (option TrajectoryEntry).

(** [BindTrajectoryExecutionEntries]. *)
Definition bind_fields (fields : TrajectoryEntryFields) (executionID : string) : TrajectoryEntryFields :=
  {| tf_Turn := tf_Turn fields; tf_ExecutionID := executionID; tf_OperationKey := tf_OperationKey fields;
     tf_CorrelationID := tf_CorrelationID fields; tf_Provider := tf_Provider fields;
     tf_Model := tf_Model fields; tf_ToolName := tf_ToolName fields; tf_ToolCallID := tf_ToolCallID fields;
     tf_FinishReason := tf_FinishReason fields; tf_InputTokens := tf_InputTokens fields;
     tf_OutputTokens := tf_OutputTokens fields; tf_IsError := tf_IsError fields;
     tf_CauseCode := tf_CauseCode fields; tf_ActionKind := tf_ActionKind fields |}.

Definition with_fields (entry : TrajectoryEntry) (fields : TrajectoryEntryFields) : TrajectoryEntry :=
  {| te_ID := te_ID entry; te_TrajectoryID := te_TrajectoryID entry; te_ParentID := te_ParentID entry;
     te_Ordinal := te_Ordinal entry; te_Depth := te_Depth entry; te_Kind := te_Kind entry;
     te_Timestamp := te_Timestamp entry; te_Generation := te_Generation entry; te_Fields := fields;
     te_Audit := te_Audit entry; te_PayloadVersion := te_PayloadVersion entry;
     te_Payload := te_Payload entry; te_Attributes := te_Attributes entry |}.

Fixpoint BindTrajectoryExecutionEntries (executionID : string) (entries : list TrajectoryEntry)
    : result (list TrajectoryEntry) :=
  match entries with
  | [] => Ok []
  | entry :: rest =>
      let current := tf_ExecutionID (te_Fields entry) in
      fail_if negb (is_empty current) && bool_decide (current ≠ executionID) with
        Errorf "trajectory entry %q belongs to execution %q, not %q"
          [AStr (te_ID entry); AStr current; AStr executionID];
      let? bound := BindTrajectoryExecutionEntries executionID rest in
      Ok (with_fields entry (bind_fields (te_Fields entry) executionID) :: bound)
  end.

(** The coordinates [PrepareTrajectoryEntries] fills in. *)
Definition with_coordinates (entry : TrajectoryEntry) (trajectoryID : string) (ordinal depth : Z)
    (timestamp : time) (payloadVersion : Z) : TrajectoryEntry :=
  {| te_ID := te_ID entry; te_TrajectoryID := trajectoryID; te_ParentID := te_ParentID entry;
     te_Ordinal := ordinal; te_Depth := depth; te_Kind := te_Kind entry; te_Timestamp := timestamp;
     te_Generation := te_Generation entry; te_Fields := te_Fields entry; te_Audit := te_Audit entry;
     te_PayloadVersion := payloadVersion; te_Payload := te_Payload entry;
     te_Attributes := te_Attributes entry |}.

(** The parent of an entry to be appended: none for a root entry, an entry of the batch, or an entry
    that exists already. *)
Definition entry_parent (hasHistory : bool) (prepared : gmap string TrajectoryEntry) (entry : TrajectoryEntry)
    (lookup : EntryLookup) : result (option TrajectoryEntry) :=
  if is_empty (te_ParentID entry) then
    fail_if (hasHistory || negb (bool_decide (prepared = ∅)))
            && bool_decide (te_Kind entry ≠ TrajectoryKindRestore) with
      Errorf "trajectory entry %q has no parent in a non-empty trajectory" [AStr (te_ID entry)];
    Ok None
  else
    match prepared !! te_ParentID entry with
    | Some candidate => Ok (Some candidate)
    | None =>
        let? found := lookup (te_ParentID entry) in
        match found with
        | Some parent => Ok (Some parent)
        | None =>
            Err (Errorf "trajectory entry %q has unknown parent %q"
                   [AStr (te_ID entry); AStr (te_ParentID entry)])
        end
    end.

(** The body of the loop of [PrepareTrajectoryEntries]; [nextOrdinal] is the incremented counter
    and [wall] the clock of this turn. *)
Definition prepare_entry (trajectoryID : string) (nextOrdinal : Z) (hasHistory : bool)
    (prepared : gmap string TrajectoryEntry) (entry : TrajectoryEntry) (lookup : EntryLookup) (wall : time)
    : result TrajectoryEntry :=
  let id := AStr (te_ID entry) in
  try? ValidateResourceName "trajectory entry" (te_ID entry);
  fail_if bool_decide (is_Some (prepared !! te_ID entry)) with
    Errorf "trajectory entry %q already exists" [id];
  let? duplicate := lookup (te_ID entry) in
  fail_if bool_decide (is_Some duplicate) with Errorf "trajectory entry %q already exists" [id];
  fail_if negb (TrajectoryKind_Valid (te_Kind entry)) with
    Errorf "trajectory entry %q has unsupported kind %q" [id; AStr (trajectory_kind_text (te_Kind entry))];
  try? ValidateTrajectoryEntryFields entry;
  fail_if negb (json_Valid (te_Payload entry)) with
    Errorf "trajectory entry %q payload is invalid JSON" [id];
  let? parent := entry_parent hasHistory prepared entry lookup in
  fail_if negb (is_empty (te_TrajectoryID entry)) && bool_decide (te_TrajectoryID entry ≠ trajectoryID) with
    Errorf "trajectory entry %q belongs to trajectory %q, not %q"
      [id; AStr (te_TrajectoryID entry); AStr trajectoryID];
  fail_if negb (te_Ordinal entry =? 0) && negb (te_Ordinal entry =? nextOrdinal) with
    Errorf "trajectory entry %q has ordinal %d, expected %d"
      [id; ANum (te_Ordinal entry); ANum nextOrdinal];
  let expectedDepth := match parent with Some parent => u64 (te_Depth parent + 1) | None => 1 end in
  fail_if negb (te_Depth entry =? 0) && negb (te_Depth entry =? expectedDepth) with
    Errorf "trajectory entry %q has depth %d, expected %d"
      [id; ANum (te_Depth entry); ANum expectedDepth];
  let timestamp := if IsZero (te_Timestamp entry) then wall else te_Timestamp entry in
  let payloadVersion := if te_PayloadVersion entry =? 0 then TrajectoryPayloadVersion
                        else te_PayloadVersion entry in
  fail_if payloadVersion >? TrajectoryPayloadVersion with
    Wrapf "%w: entry %q payload version %d, maximum supported is %d"
      [id; ANum payloadVersion; ANum TrajectoryPayloadVersion] (Sentinel ErrTrajectoryVersion);
  Ok (with_coordinates entry trajectoryID nextOrdinal expectedDepth timestamp payloadVersion).

(** [clock i] is the clock of the turn for the [i]th entry of the batch. *)
Fixpoint prepare_entries (trajectoryID : string) (nextOrdinal : Z) (hasHistory : bool)
    (prepared : gmap string TrajectoryEntry) (input : list TrajectoryEntry) (lookup : EntryLookup)
    (clock : nat → time) : result (list TrajectoryEntry) :=
  match input with
  | [] => Ok []
  | source :: rest =>
      let nextOrdinal := u64 (nextOrdinal + 1) in
      let? entry := prepare_entry trajectoryID nextOrdinal hasHistory prepared source lookup (clock 0%nat) in
      let? entries := prepare_entries trajectoryID nextOrdinal hasHistory
                        (<[te_ID entry := entry]> prepared) rest lookup (λ i, clock (S i)) in
      Ok (entry :: entries)
  end.

Definition PrepareTrajectoryEntries (trajectoryID : string) (nextOrdinal : Z) (hasHistory : bool)
    (input : list TrajectoryEntry) (lookup : EntryLookup) (clock : nat → time)
    : result (list TrajectoryEntry) :=
  fail_if (length input =? 0)%nat with errors_New "trajectory append contains no entries";
  prepare_entries trajectoryID nextOrdinal hasHistory ∅ input lookup clock.

(** ** Branches

    [walkBranch] follows parent links from a cursor until the root, a stop of the visitor, an error
    or a cycle.  The fuel bounds the number of turns; [OutOfFuel] is no error of the code, and
    [walk_loop_terminates] shows how much fuel rules it out. *)

Definition OutOfFuel : error := errors_New "walk ran out of fuel".

Definition branchCycleError (trajectoryID cursor : string) : error :=
  if is_empty trajectoryID then Errorf "trajectory contains a cycle at %q" [AStr cursor]
  else Errorf "trajectory %q contains a cycle at %q" [AStr trajectoryID; AStr cursor].

Definition branchUnknownEntryError (trajectoryID cursor : string) : error :=
  if is_empty trajectoryID then Errorf "trajectory branch references unknown entry %q" [AStr cursor]
  else Errorf "trajectory %q branch references unknown entry %q" [AStr trajectoryID; AStr cursor].

(** The visitor returns its new state and whether to keep going; [cycle] and [unknown] are the
    errors for a cycle and for an entry that is not found. *)
Fixpoint walk_loop {A} (fuel : nat) (cycle unknown : string → error) (seen : gset string) (cursor : string)
    (lookup : EntryLookup) (visit : string → TrajectoryEntry → A → A * bool) (acc : A) : result A :=
  match fuel with
  | O => Err OutOfFuel
  | S fuel =>
      if is_empty cursor then Ok acc else
      fail_if bool_decide (cursor ∈ seen) with cycle cursor;
      let? found := lookup cursor in
      match found with
      | None => Err (unknown cursor)
      | Some entry =>
          let '(acc, keepGoing) := visit cursor entry acc in
          if keepGoing
          then walk_loop fuel cycle unknown ({[cursor]} ∪ seen) (te_ParentID entry) lookup visit acc
          else Ok acc
      end
  end.

Definition walkBranch {A} (fuel : nat) (trajectoryID head : string) (lookup : EntryLookup)
    (visit : string → TrajectoryEntry → A → A * bool) (acc : A) : result A :=
  walk_loop fuel (branchCycleError trajectoryID) (branchUnknownEntryError trajectoryID) ∅ head
    lookup visit acc.

Definition FindEntryOnBranch (fuel : nat) (trajectoryID head entryID : string) (lookup : EntryLookup)
    : result (option TrajectoryEntry) :=
  walkBranch fuel trajectoryID head lookup
    (λ cursor entry result,
       if bool_decide (cursor = entryID) then (Some entry, false) else (result, true)) None.

Definition ResolveBranch (fuel : nat) (trajectoryID head : string) (lookup : EntryLookup)
    : result (list TrajectoryEntry) :=
  let? result := walkBranch fuel trajectoryID head lookup
                   (λ _ entry result, (result ++ [entry], true)) [] in
  Ok (reverse result).

Definition LatestEntry (fuel : nat) (head : string) (kind : TrajectoryKind) (lookup : EntryLookup)
    : result (option TrajectoryEntry) :=
  walkBranch fuel "" head lookup
    (λ _ entry result,
       if bool_decide (te_Kind entry = kind) then (Some entry, false) else (result, true)) None.

(** The loop of [LatestCheckpointAfterAppend]: through the prepared entries, then the cached
    checkpoint of the old head or a walk from where the new branch leaves it. *)
Fixpoint checkpoint_walk (fuel walk_fuel : nat) (seen : gset string) (currentHead currentCheckpoint cursor : string)
    (prepared : gmap string TrajectoryEntry) (lookup : EntryLookup) : result string :=
  match fuel with
  | O => Err OutOfFuel
  | S fuel =>
      if is_empty cursor then Ok "" else
      fail_if bool_decide (cursor ∈ seen) with Errorf "trajectory contains a cycle at %q" [AStr cursor];
      match prepared !! cursor with
      | None =>
          if bool_decide (cursor = currentHead) then Ok currentCheckpoint else
          let? checkpoint := LatestEntry walk_fuel cursor TrajectoryKindCheckpoint lookup in
          Ok (match checkpoint with Some entry => te_ID entry | None => "" end)
      | Some entry =>
          if bool_decide (te_Kind entry = TrajectoryKindCheckpoint) then Ok (te_ID entry)
          else checkpoint_walk fuel walk_fuel ({[cursor]} ∪ seen) currentHead currentCheckpoint
                 (te_ParentID entry) prepared lookup
      end
  end.

Definition LatestCheckpointAfterAppend (walk_fuel : nat) (currentHead currentCheckpoint newHead : string)
    (prepared : gmap string TrajectoryEntry) (lookup : EntryLookup) : result string :=
  checkpoint_walk (S (size prepared)) walk_fuel ∅ currentHead currentCheckpoint newHead prepared lookup.

(** The last entry of a kind on a branch given root first. *)
Definition FindLatestInBranch (branch : list TrajectoryEntry) (kind : TrajectoryKind) : option TrajectoryEntry :=
  List.find (λ entry, bool_decide (te_Kind entry = kind)) (reverse branch).

(** ** Trajectories *)

Definition ValidateTrajectoryParent (trajectory : Trajectory) : result unit :=
  fail_if negb (Bool.eqb (is_empty (tj_ParentID trajectory)) (is_empty (tj_ParentEntryID trajectory))) with
    errors_New "trajectory parent_id and parent_entry_id must be set together";
  if is_empty (tj_ParentID trajectory) then Ok tt else
  try? ValidateResourceName "trajectory parent" (tj_ParentID trajectory);
  ValidateResourceName "trajectory parent entry" (tj_ParentEntryID trajectory).

Definition version_error (got : Z) : error :=
  Wrapf "%w: got %d, maximum supported is %d" [ANum got; ANum TrajectorySchemaVersion]
    (Sentinel ErrTrajectoryVersion).

Definition ValidateNewTrajectory (trajectory : Trajectory) : result unit :=
  fail_if tj_SchemaVersion trajectory >? TrajectorySchemaVersion with
    version_error (tj_SchemaVersion trajectory);
  try? ValidateResourceName "trajectory" (tj_ID trajectory);
  fail_if negb (is_empty (tj_Head trajectory)) || negb (is_empty (tj_Checkpoint trajectory))
          || bool_decide (is_Some (tj_Execution trajectory))
          || negb (length (tj_Entries trajectory) =? 0)%nat with
    errors_New "new trajectory must not contain entries, a head, a checkpoint, or an execution";
  ValidateTrajectoryParent trajectory.

Definition with_payload_version (entry : TrajectoryEntry) (version : Z) : TrajectoryEntry :=
  with_coordinates entry (te_TrajectoryID entry) (te_Ordinal entry) (te_Depth entry) (te_Timestamp entry) version.

Definition NormalizeTrajectory (trajectory : Trajectory) : Trajectory :=
  {| tj_SchemaVersion :=
       if tj_SchemaVersion trajectory =? 0 then TrajectorySchemaVersion else tj_SchemaVersion trajectory;
     tj_ID := tj_ID trajectory; tj_ParentID := tj_ParentID trajectory;
     tj_ParentEntryID := tj_ParentEntryID trajectory; tj_CreatedAt := tj_CreatedAt trajectory;
     tj_UpdatedAt := tj_UpdatedAt trajectory; tj_Head := tj_Head trajectory;
     tj_Checkpoint := tj_Checkpoint trajectory; tj_Execution := tj_Execution trajectory;
     tj_Environment := tj_Environment trajectory;
     tj_Entries :=
       (λ entry, if te_PayloadVersion entry =? 0 then with_payload_version entry TrajectoryPayloadVersion
                 else entry) <$> tj_Entries trajectory |}.

(** The state of a trajectory apart from its identity and its entries. *)
Definition with_state (trajectory : Trajectory) (updated : time) (head checkpoint : string)
    (execution : option TrajectoryExecution) : Trajectory :=
  {| tj_SchemaVersion := tj_SchemaVersion trajectory; tj_ID := tj_ID trajectory;
     tj_ParentID := tj_ParentID trajectory; tj_ParentEntryID := tj_ParentEntryID trajectory;
     tj_CreatedAt := tj_CreatedAt trajectory; tj_UpdatedAt := updated; tj_Head := head;
     tj_Checkpoint := checkpoint; tj_Execution := execution;
     tj_Environment := tj_Environment trajectory; tj_Entries := tj_Entries trajectory |}.

(** [PreparedNewTrajectory] is a pair of the trajectory and the inherited entry count. *)
Definition PrepareNewTrajectory (trajectory : Trajectory) (now wall : time) : result (Trajectory * Z) :=
  let trajectory := NormalizeTrajectory trajectory in
  try? ValidateNewTrajectory trajectory;
  let now := if IsZero now then wall else now in
  let created := if IsZero (tj_CreatedAt trajectory) then now else tj_CreatedAt trajectory in
  let updated := if IsZero (tj_UpdatedAt trajectory) then created else tj_UpdatedAt trajectory in
  Ok ({| tj_SchemaVersion := tj_SchemaVersion trajectory; tj_ID := tj_ID trajectory;
         tj_ParentID := tj_ParentID trajectory; tj_ParentEntryID := tj_ParentEntryID trajectory;
         tj_CreatedAt := created; tj_UpdatedAt := updated; tj_Head := tj_Head trajectory;
         tj_Checkpoint := tj_Checkpoint trajectory; tj_Execution := tj_Execution trajectory;
         tj_Environment := tj_Environment trajectory; tj_Entries := [] |}, 0).

Definition PrepareNewTrajectoryFork (prepared : Trajectory * Z) (inheritedBranch : list TrajectoryEntry)
    : result (Trajectory * Z) :=
  let trajectory := prepared.1 in
  if is_empty (tj_ParentID trajectory) then Ok prepared else
  fail_if (length inheritedBranch =? 0)%nat with
    Errorf "trajectory %q fork branch is empty" [AStr (tj_ID trajectory)];
  let checkpoint :=
    match FindLatestInBranch inheritedBranch TrajectoryKindCheckpoint with
    | Some checkpoint => te_ID checkpoint
    | None => tj_Checkpoint trajectory
    end in
  Ok (with_state trajectory (tj_UpdatedAt trajectory) (tj_ParentEntryID trajectory) checkpoint
        (tj_Execution trajectory),
      Z.of_nat (length inheritedBranch)).

Definition trajectoryMetadata (trajectory : Trajectory) (entryCount ownedEntryCount : Z) : TrajectoryMetadata :=
  {| tm_SchemaVersion := tj_SchemaVersion trajectory; tm_ID := tj_ID trajectory;
     tm_ParentID := tj_ParentID trajectory; tm_ParentEntryID := tj_ParentEntryID trajectory;
     tm_CreatedAt := tj_CreatedAt trajectory; tm_UpdatedAt := tj_UpdatedAt trajectory;
     tm_Head := tj_Head trajectory; tm_Checkpoint := tj_Checkpoint trajectory;
     tm_Execution := tj_Execution trajectory; tm_Environment := tj_Environment trajectory;
     tm_EntryCount := entryCount; tm_OwnedEntryCount := ownedEntryCount |}.

Definition SummarizeTrajectory (trajectory : Trajectory) (entryCount ownedEntryCount : Z) : TrajectorySummary :=
  {| tsm_SchemaVersion := tj_SchemaVersion trajectory; tsm_ID := tj_ID trajectory;
     tsm_ParentID := tj_ParentID trajectory; tsm_ParentEntryID := tj_ParentEntryID trajectory;
     tsm_CreatedAt := tj_CreatedAt trajectory; tsm_UpdatedAt := tj_UpdatedAt trajectory;
     tsm_Head := tj_Head trajectory; tsm_Checkpoint := tj_Checkpoint trajectory;
     tsm_ExecutionID := match tj_Execution trajectory with Some x => ex_ID x | None => "" end;
     tsm_ExecutionState :=
       match tj_Execution trajectory with Some x => ex_State x | None => TrajectoryExecutionStateOther "" end;
     tsm_EntryCount := entryCount; tsm_OwnedEntryCount := ownedEntryCount |}.

Definition ProjectTrajectoryBranch (metadata : TrajectoryMetadata) (head : string)
    (branch : list TrajectoryEntry) : Trajectory :=
  {| tj_SchemaVersion := tm_SchemaVersion metadata; tj_ID := tm_ID metadata;
     tj_ParentID := tm_ParentID metadata; tj_ParentEntryID := tm_ParentEntryID metadata;
     tj_CreatedAt := tm_CreatedAt metadata; tj_UpdatedAt := tm_UpdatedAt metadata; tj_Head := head;
     tj_Checkpoint :=
       match FindLatestInBranch branch TrajectoryKindCheckpoint with Some x => te_ID x | None => "" end;
     tj_Execution := tm_Execution metadata; tj_Environment := tm_Environment metadata;
     tj_Entries := branch |}.

(** [Trajectory.Branch]: the walk over an index of the trajectory's own entries; of entries with the
    same ID the last one counts. *)
Definition entry_index (entries : list TrajectoryEntry) : gmap string TrajectoryEntry :=
  foldl (λ index entry, <[te_ID entry := entry]> index) ∅ entries.

Definition Trajectory_Branch (trajectory : Trajectory) (head : string) : result (list TrajectoryEntry) :=
  if is_empty head then Ok [] else
  let index := entry_index (tj_Entries trajectory) in
  let? result :=
    walk_loop (S (S (size index)))
      (λ cursor, Errorf "trajectory %q contains a cycle at %q" [AStr (tj_ID trajectory); AStr cursor])
      (λ cursor, Errorf "trajectory %q branch references unknown entry %q"
                   [AStr (tj_ID trajectory); AStr cursor])
      ∅ head (λ cursor, Ok (index !! cursor))
      (λ _ entry result, (result ++ [entry], true)) [] in
  Ok (reverse result).

(** [ValidateLoadedTrajectory]: the entries of old schema versions get the coordinates they lack. *)
Definition load_entry (trajectory : Trajectory) (index : Z) (known : gmap string TrajectoryEntry)
    (entry : TrajectoryEntry) : result TrajectoryEntry :=
  let id := AStr (te_ID entry) in
  fail_if negb (TrajectoryKind_Valid (te_Kind entry)) with
    Errorf "trajectory entry %q has unsupported kind %q" [id; AStr (trajectory_kind_text (te_Kind entry))];
  try? (if 2 <=? tj_SchemaVersion trajectory then ValidateTrajectoryEntryFields entry else Ok tt);
  fail_if te_PayloadVersion entry >? TrajectoryPayloadVersion with
    Wrapf "%w: entry %q payload version %d, maximum supported is %d"
      [id; ANum (te_PayloadVersion entry); ANum TrajectoryPayloadVersion] (Sentinel ErrTrajectoryVersion);
  if tj_SchemaVersion trajectory <? 2 then
    let depth :=
      if te_Depth entry =? 0
      then match known !! te_ParentID entry with Some parent => u64 (te_Depth parent + 1) | None => 1 end
      else te_Depth entry in
    Ok (with_coordinates entry (string_default (te_TrajectoryID entry) (tj_ID trajectory))
          (if te_Ordinal entry =? 0 then u64 (index + 1) else te_Ordinal entry) depth
          (te_Timestamp entry) (te_PayloadVersion entry))
  else
    fail_if bool_decide (te_TrajectoryID entry ≠ tj_ID trajectory) with
      Errorf "trajectory entry %q belongs to trajectory %q, not %q"
        [id; AStr (te_TrajectoryID entry); AStr (tj_ID trajectory)];
    fail_if negb (te_Ordinal entry =? u64 (index + 1)) with
      Errorf "trajectory entry %q has ordinal %d, expected %d" [id; ANum (te_Ordinal entry); ANum (index + 1)];
    fail_if te_Depth entry =? 0 with Errorf "trajectory entry %q has zero depth" [id];
    Ok entry.

Fixpoint load_entries (trajectory : Trajectory) (index : Z) (known : gmap string TrajectoryEntry)
    (entries : list TrajectoryEntry) : result (list TrajectoryEntry * gmap string TrajectoryEntry) :=
  match entries with
  | [] => Ok ([], known)
  | entry :: rest =>
      let? entry := load_entry trajectory index known entry in
      let? '(entries, known) := load_entries trajectory (index + 1) (<[te_ID entry := entry]> known) rest in
      Ok (entry :: entries, known)
  end.

Definition with_entries (trajectory : Trajectory) (entries : list TrajectoryEntry) : Trajectory :=
  {| tj_SchemaVersion := tj_SchemaVersion trajectory; tj_ID := tj_ID trajectory;
     tj_ParentID := tj_ParentID trajectory; tj_ParentEntryID := tj_ParentEntryID trajectory;
     tj_CreatedAt := tj_CreatedAt trajectory; tj_UpdatedAt := tj_UpdatedAt trajectory;
     tj_Head := tj_Head trajectory; tj_Checkpoint := tj_Checkpoint trajectory;
     tj_Execution := tj_Execution trajectory; tj_Environment := tj_Environment trajectory;
     tj_Entries := entries |}.

Definition ValidateLoadedTrajectory (trajectory : Trajectory) : result Trajectory :=
  fail_if tj_SchemaVersion trajectory >? TrajectorySchemaVersion with
    version_error (tj_SchemaVersion trajectory);
  let trajectory := NormalizeTrajectory trajectory in
  try? ValidateTrajectoryParent trajectory;
  try? (match tj_Execution trajectory with
        | Some execution => ValidateTrajectoryExecution execution
        | None => Ok tt
        end);
  let? '(entries, known) := load_entries trajectory 0 ∅ (tj_Entries trajectory) in
  match tj_Execution trajectory with
  | Some execution =>
      fail_if bool_decide (known !! ex_InputEntryID execution = None) with
        Errorf "trajectory execution %q references unknown input entry %q"
          [AStr (ex_ID execution); AStr (ex_InputEntryID execution)];
      Ok (with_entries trajectory entries)
  | None => Ok (with_entries trajectory entries)
  end.
