(* ===== verification/Sha256.v ===== *)
(** [crypto/sha256]: [sha256.Sum256] as FIPS 180-4 defines it, over bytes as [N].  The runtime
    derives the identities of invocations from it. *)

From S2P Require Import Prelude GoText.

#[local] Open Scope N_scope.

Definition word_mask : N := 4294967295.
Definition word (x : N) : N := N.land x word_mask.
Definition add32 (a b : N) : N := word (a + b).
Definition rotr (n x : N) : N := N.lor (N.shiftr x n) (word (N.shiftl x (32 - n))).
Definition shr (n x : N) : N := N.shiftr x n.

Definition Ch (x y z : N) : N := N.lxor (N.land x y) (N.land (N.lxor x word_mask) z).
Definition Maj (x y z : N) : N := N.lxor (N.lxor (N.land x y) (N.land x z)) (N.land y z).
Definition Sigma0 (x : N) : N := N.lxor (N.lxor (rotr 2 x) (rotr 13 x)) (rotr 22 x).
Definition Sigma1 (x : N) : N := N.lxor (N.lxor (rotr 6 x) (rotr 11 x)) (rotr 25 x).
Definition sigma0 (x : N) : N := N.lxor (N.lxor (rotr 7 x) (rotr 18 x)) (shr 3 x).
Definition sigma1 (x : N) : N := N.lxor (N.lxor (rotr 17 x) (rotr 19 x)) (shr 10 x).

(** The constants are the first 32 bits of the fractional parts of roots of the primes. *)
Fixpoint prime_with (n : nat) (d : nat) : bool :=
  match d with
  | O | S O => true
  | S d' => negb (n mod d =? 0)%nat && prime_with n d'
  end.

Definition primes : list N :=
  Eval vm_compute in N.of_nat <$> filter (λ n, prime_with n (pred n) = true) (seq 2 310).

(** The greatest [r] with [r]^3 at most [n], bit by bit from the top. *)
Fixpoint cube_root (bits : nat) (n r : N) : N :=
  match bits with
  | O => r
  | S bits =>
      let r' := (r + 2 ^ N.of_nat bits)%N in
      cube_root bits n (if (r' * r' * r' <=? n)%N then r' else r)
  end.

Definition K : list N :=
  Eval vm_compute in (λ p, (cube_root 40 (p * 2 ^ 96) 0 mod 2 ^ 32)%N) <$> primes.

Record digest_state := {
  ha : N; hb : N; hc : N; hd : N; he : N; hf : N; hg : N; hh : N;
}.

Definition H0 : digest_state :=
  Eval vm_compute in
  match (λ p, (N.sqrt (p * 2 ^ 64) mod 2 ^ 32)%N) <$> take 8 primes with
  | [a; b; c; d; e; f; g; h] => {| ha := a; hb := b; hc := c; hd := d; he := e; hf := f; hg := g; hh := h |}
  | _ => {| ha := 0; hb := 0; hc := 0; hd := 0; he := 0; hf := 0; hg := 0; hh := 0 |}
  end.

(** The [i] low bytes of a number, most significant first. *)
Fixpoint be_bytes (i : nat) (x : N) : list N :=
  match i with O => [] | S i => N.land (N.shiftr x (8 * N.of_nat i)) 255 :: be_bytes i x end.

(** Padding to a multiple of 64 bytes: a one bit, zeros, and the length in bits. *)
Definition pad (message : list N) : list N :=
  let zeros := ((119 - length message mod 64) mod 64)%nat in
  message ++ 128 :: replicate zeros 0 ++ be_bytes 8 (8 * N.of_nat (length message)).

Fixpoint words_of (bytes : list N) : list N :=
  match bytes with
  | a :: b :: c :: d :: rest =>
      N.lor (N.shiftl a 24) (N.lor (N.shiftl b 16) (N.lor (N.shiftl c 8) d)) :: words_of rest
  | _ => []
  end.

(** The message schedule, newest word first. *)
Fixpoint schedule (rounds : nat) (w : list N) : list N :=
  match rounds with
  | O => w
  | S rounds =>
      let at_ i := nth i w 0 in
      schedule rounds
        (add32 (add32 (sigma1 (at_ 1%nat)) (at_ 6%nat)) (add32 (sigma0 (at_ 14%nat)) (at_ 15%nat)) :: w)
  end.

Definition round (s : digest_state) (k w : N) : digest_state :=
  let t1 := add32 (add32 (add32 (hh s) (Sigma1 (he s))) (add32 (Ch (he s) (hf s) (hg s)) k)) w in
  let t2 := add32 (Sigma0 (ha s)) (Maj (ha s) (hb s) (hc s)) in
  {| ha := add32 t1 t2; hb := ha s; hc := hb s; hd := hc s;
     he := add32 (hd s) t1; hf := he s; hg := hf s; hh := hg s |}.

Fixpoint rounds (ks ws : list N) (s : digest_state) : digest_state :=
  match ks, ws with
  | k :: ks, w :: ws => rounds ks ws (round s k w)
  | _, _ => s
  end.

Definition compress (s : digest_state) (block : list N) : digest_state :=
  let r := rounds K (rev (schedule 48 (rev (words_of block)))) s in
  {| ha := add32 (ha s) (ha r); hb := add32 (hb s) (hb r); hc := add32 (hc s) (hc r);
     hd := add32 (hd s) (hd r); he := add32 (he s) (he r); hf := add32 (hf s) (hf r);
     hg := add32 (hg s) (hg r); hh := add32 (hh s) (hh r) |}.

Fixpoint blocks (count : nat) (bytes : list N) (s : digest_state) : digest_state :=
  match count with
  | O => s
  | S count => blocks count (drop 64 bytes) (compress s (take 64 bytes))
  end.

Definition Sum256 (message : list N) : list N :=
  let padded := pad message in
  let s := blocks (length padded / 64) padded H0 in
  concat (be_bytes 4 <$> [ha s; hb s; hc s; hd s; he s; hf s; hg s; hh s]).

(** [hex.EncodeToString(sum[:])] of [sha256.Sum256([]byte(text))]. *)
Definition sha256_hex (text : string) : string :=
  hex_EncodeToString (Sum256 (byte <$> String.list_ascii_of_string text)).

(** The vectors of FIPS 180-4. *)
Example sha256_empty :
  sha256_hex "" = "e3b0c44298fc1c149afbf4c8996fb92427ae41e4649b934ca495991b7852b855"%string.
Proof. vm_compute. reflexivity. Qed.

Example sha256_abc :
  sha256_hex "abc" = "ba7816bf8f01cfea414140de5dae2223b00361a396177a9cb410ff61f20015ad"%string.
Proof. vm_compute. reflexivity. Qed.

Example sha256_two_blocks :
  sha256_hex "abcdbcdecdefdefgefghfghighijhijkijkljklmklmnlmnomnopnopq" =
  "248d6a61d20638b8e5c026930c3e6039a33ce45964ff2167f6ecedd419db06c1"%string.
Proof. vm_compute. reflexivity. Qed.

(** ** Lemmas *)

Lemma be_bytes_length i x : length (be_bytes i x) = i.
Proof. induction i; simpl; auto. Qed.

Lemma be_bytes_range i x : Forall (λ b, b < 256) (be_bytes i x).
Proof.
  induction i as [|i IH]; simpl; constructor; [|done].
  change 255 with (N.ones 8). rewrite N.land_ones. by apply N.mod_lt.
Qed.

Lemma Sum256_length message : length (Sum256 message) = 32%nat.
Proof. done. Qed.

Lemma Sum256_range message : Forall (λ b, b < 256) (Sum256 message).
Proof.
  unfold Sum256. rewrite Forall_concat, list.Forall_forall. intros l (x & -> & _)%list_elem_of_fmap.
  apply be_bytes_range.
Qed.
