(* ===== verification/Agent.v ===== *)
(** Agent requests of [sdk/agent.go] and the coordinates of the invocations they start:
    [sdk/runtime/invocation_scope.go], the request validation and the key derivation of
    [sdk/runtime/orchestration_agent.go], and the lineage of agent sessions in
    [sdk/runtime/session_lineage.go]. *)

From S2P Require Import Prelude GoText Names Sha256 Invocation Message ContextInjection.

(** ** Data *)

(** An [AgentSessionMode] is a string. *)
Definition AgentSessionNew : string := "new".
Definition AgentSessionFork : string := "fork".
Definition AgentSessionResume : string := "resume".

Record AgentRequest := {
  ar_Agent : string;
  ar_Prompt : string;
  ar_SessionID : string;
  ar_Mode : string;
  ar_IdempotencyKey : string;
  ar_Group : string;
  ar_Dependencies : list string;
  ar_Ordinal : Z;
}.

Record Cause := {
  ca_Code : string;
  ca_Detail : string;
  ca_Final : bool;
}.

Record AgentResult := {
  rs_InvocationID : string;
  rs_SessionID : string;
  rs_Output : string;
  rs_Messages : list Message;
  rs_ContextInjections : list ContextInjection;
  rs_Turns : Z;
  rs_ToolCalls : Z;
  rs_InputTokens : Z;
  rs_OutputTokens : Z;
  rs_Generation : Z;
  rs_Cause : Cause;
}.

Definition zeroAgentResult : AgentResult :=
  {| rs_InvocationID := ""; rs_SessionID := ""; rs_Output := ""; rs_Messages := [];
     rs_ContextInjections := []; rs_Turns := 0; rs_ToolCalls := 0; rs_InputTokens := 0;
     rs_OutputTokens := 0; rs_Generation := 0; rs_Cause := {| ca_Code := ""; ca_Detail := ""; ca_Final := false |} |}.

Definition with_mode (request : AgentRequest) (mode : string) : AgentRequest :=
  {| ar_Agent := ar_Agent request; ar_Prompt := ar_Prompt request; ar_SessionID := ar_SessionID request;
     ar_Mode := mode; ar_IdempotencyKey := ar_IdempotencyKey request; ar_Group := ar_Group request;
     ar_Dependencies := ar_Dependencies request; ar_Ordinal := ar_Ordinal request |}.

Definition with_key (request : AgentRequest) (key : string) : AgentRequest :=
  {| ar_Agent := ar_Agent request; ar_Prompt := ar_Prompt request; ar_SessionID := ar_SessionID request;
     ar_Mode := ar_Mode request; ar_IdempotencyKey := key; ar_Group := ar_Group request;
     ar_Dependencies := ar_Dependencies request; ar_Ordinal := ar_Ordinal request |}.

Definition with_session (request : AgentRequest) (session : string) : AgentRequest :=
  {| ar_Agent := ar_Agent request; ar_Prompt := ar_Prompt request; ar_SessionID := session;
     ar_Mode := ar_Mode request; ar_IdempotencyKey := ar_IdempotencyKey request; ar_Group := ar_Group request;
     ar_Dependencies := ar_Dependencies request; ar_Ordinal := ar_Ordinal request |}.

(** ** Requests *)

(** The request is updated in place: an empty mode becomes [AgentSessionNew]. *)
Definition validateAgentRequest (request : AgentRequest) : result AgentRequest :=
  try? ValidateResourceName "agent" (ar_Agent request);
  fail_if is_empty (TrimSpace (ar_Prompt request)) with errors_New "agent prompt is empty";
  let request := if is_empty (ar_Mode request) then with_mode request AgentSessionNew else request in
  fail_if String.eqb (ar_Mode request) AgentSessionResume && is_empty (ar_SessionID request) with
    errors_New "agent resume requires a session ID";
  fail_if negb (String.eqb (ar_Mode request) AgentSessionNew ||
                String.eqb (ar_Mode request) AgentSessionFork ||
                String.eqb (ar_Mode request) AgentSessionResume) with
    Errorf "unknown agent session mode %q" [AStr (ar_Mode request)];
  try? (if negb (is_empty (ar_IdempotencyKey request))
        then ValidateResourceName "agent idempotency key" (ar_IdempotencyKey request)
        else Ok tt);
  Ok request.

Definition DefaultAgentResumeIdempotencyKey (sessionID parentInvocationID : string) (ordinal : Z) : string :=
  "resume-" ++ String.substring 0 24 (sha256_hex
    (sessionID ++ NUL ++ parentInvocationID ++ NUL ++ decimal ordinal)).

Definition ensureAgentIdempotencyKey (request : AgentRequest) (parentInvocation : Invocation)
    : result AgentRequest :=
  let? request :=
    (if is_empty (ar_IdempotencyKey request) then
       if String.eqb (ar_Mode request) AgentSessionResume then
         fail_if is_empty (ar_SessionID request) with errors_New "agent resume requires a session ID";
         fail_if is_empty (inv_ID parentInvocation) with
           errors_New "agent resume idempotency key is required without a parent invocation";
         Ok (with_key request (DefaultAgentResumeIdempotencyKey (ar_SessionID request)
               (inv_ID parentInvocation) (ar_Ordinal request)))
       else
         fail_if is_empty (ar_SessionID request) with
           errors_New "agent idempotency key is required unless session ID is provided";
         Ok (with_key request (ar_SessionID request))
     else Ok request) in
  try? ValidateResourceName "agent idempotency key" (ar_IdempotencyKey request);
  Ok request.

(** ** Invocations *)

(** The part of a [Session] the coordinates of its invocations depend on. *)
Record Session := {
  se_ID : string;
  se_Head : string;
  se_ExecutionID : string;
  se_CausalRootID : string;
  se_CausalParentID : string;
}.

Record invocationScope := {
  sc_rootID : string;
  sc_parentID : string;
  sc_sessionID : string;
  sc_executionID : string;
}.

Record childInvocationConfig := {
  cc_kind : string;
  cc_coordinate : string;
  cc_groupCoordinate : string;
  cc_targetSessionID : string;
  cc_dependencies : list string;
  cc_ordinal : Z;
}.

Definition executionOperationKey (session : Session) (kind coordinate : string) : string :=
  if is_empty (se_ExecutionID session) then se_Head session else
  sha256_hex (se_ExecutionID session ++ NUL ++ kind ++ NUL ++ coordinate).

Definition scope_invocation (scope : invocationScope) (id groupID targetSessionID : string)
    (dependencies : list string) (ordinal : Z) : Invocation :=
  {| inv_ID := id; inv_RootID := sc_rootID scope; inv_ParentID := sc_parentID scope;
     inv_GroupID := groupID; inv_SessionID := sc_sessionID scope;
     inv_TargetSessionID := targetSessionID; inv_ExecutionID := sc_executionID scope;
     inv_Dependencies := dependencies; inv_Ordinal := ordinal |}.

Definition newExecutionInvocationScope (session : Session) : invocationScope :=
  {| sc_rootID := string_default (se_CausalRootID session) (se_ExecutionID session);
     sc_parentID := string_default (se_CausalParentID session) (se_ExecutionID session);
     sc_sessionID := se_ID session; sc_executionID := se_ExecutionID session |}.

Definition newChildInvocationScope (parent : Invocation) : invocationScope :=
  {| sc_rootID := string_default (inv_RootID parent) (inv_ID parent);
     sc_parentID := inv_ID parent; sc_sessionID := inv_SessionID parent;
     sc_executionID := inv_ExecutionID parent |}.

Definition executionInvocation (session : Session) (kind coordinate groupCoordinate : string)
    (dependencies : list string) (ordinal : Z) : Invocation :=
  let groupID :=
    if negb (is_empty groupCoordinate) then executionOperationKey session "group" groupCoordinate else "" in
  scope_invocation (newExecutionInvocationScope session)
    (executionOperationKey session kind coordinate) groupID "" dependencies ordinal.

Definition childInvocation (parentSession : Session) (parentInvocation : Invocation)
    (config : childInvocationConfig) : Invocation :=
  let groupID :=
    if negb (is_empty (cc_groupCoordinate config))
    then executionOperationKey parentSession "group" (cc_groupCoordinate config) else "" in
  scope_invocation (newChildInvocationScope parentInvocation)
    (executionOperationKey parentSession (cc_kind config)
       (inv_ID parentInvocation ++ "/" ++ cc_coordinate config))
    groupID (cc_targetSessionID config) (cc_dependencies config) (cc_ordinal config).

Definition causalInvocationScopeFromTrajectoryOrigin (environment : TrajectoryEnvironment)
    : option (string * string) :=
  if is_empty (env_OriginInvocationID environment) then None else
  Some (string_default (env_OriginInvocationRootID environment) (env_OriginInvocationID environment),
        env_OriginInvocationID environment).

Definition causalInvocationScopeFromInvocation (invocation : Invocation) : string * string :=
  (string_default (inv_RootID invocation) (inv_ID invocation), inv_ID invocation).

Definition with_causal (session : Session) (scope : string * string) : Session :=
  {| se_ID := se_ID session; se_Head := se_Head session; se_ExecutionID := se_ExecutionID session;
     se_CausalRootID := scope.1; se_CausalParentID := scope.2 |}.

Definition applyTrajectoryOrigin (session : Session) (environment : TrajectoryEnvironment) : Session :=
  match causalInvocationScopeFromTrajectoryOrigin environment with
  | Some scope => with_causal session scope
  | None => session
  end.

Definition applyInvocationScope (session : Session) (invocation : Invocation) : Session :=
  with_causal session (causalInvocationScopeFromInvocation invocation).

(** [s[:n]]: a slice expression past the end of the string panics. *)
Definition string_prefix (n : nat) (s : string) : result string :=
  if (n <=? String.length s)%nat then Ok (String.substring 0 n s)
  else Err (errors_New "panic: slice bounds out of range").

(** The part of [InvokeAgent] that derives the request and the invocation it submits: from the
    idempotency key to the validated invocation. *)
Definition prepareAgentInvocation (parentSession : Session) (parentInvocation : Invocation)
    (request : AgentRequest) : result (AgentRequest * Invocation) :=
  let? request := ensureAgentIdempotencyKey request parentInvocation in
  let coordinate := (ar_Agent request ++ "/" ++ ar_IdempotencyKey request)%string in
  let groupCoordinate := if negb (is_empty (ar_Group request)) then ("agents/" ++ ar_Group request)%string else "" in
  let invocation := childInvocation parentSession parentInvocation
    {| cc_kind := "agent"; cc_coordinate := coordinate; cc_groupCoordinate := groupCoordinate;
       cc_targetSessionID := ar_SessionID request; cc_dependencies := ar_Dependencies request;
       cc_ordinal := ar_Ordinal request |} in
  let? '(request, invocation) :=
    (if is_empty (ar_SessionID request) then
       let? prefix := string_prefix 24 (inv_ID invocation) in
       let session := ("agent-" ++ prefix)%string in
       Ok (with_session request session,
           {| inv_ID := inv_ID invocation; inv_RootID := inv_RootID invocation;
              inv_ParentID := inv_ParentID invocation; inv_GroupID := inv_GroupID invocation;
              inv_SessionID := inv_SessionID invocation; inv_TargetSessionID := session;
              inv_ExecutionID := inv_ExecutionID invocation;
              inv_Dependencies := inv_Dependencies invocation; inv_Ordinal := inv_Ordinal invocation |})
     else Ok (request, invocation)) in
  try? ValidateResourceName "agent session" (ar_SessionID request);
  try? ValidateInvocation invocation;
  Ok (request, invocation).

(** ** Identities are hexadecimal digests *)

Lemma hex_valid raw :
  Forall (λ b, b < 256)%N raw → (0 < length raw ≤ 64)%nat → valid_name (hex_EncodeToString raw).
Proof.
  intros Hb Hl. pose proof (hex_EncodeToString_length raw) as Hlen.
  pose proof (hex_EncodeToString_chars raw Hb) as Hc. unfold valid_name.
  destruct (hex_EncodeToString raw) as [|c s]; [simpl in Hlen; lia|]. simpl in *.
  rewrite andb_true_iff in Hc. destruct Hc as [-> Hs].
  rewrite (string_forallb_impl _ _ _ alnum_name_char Hs). simpl. apply Nat.leb_le. lia.
Qed.

Lemma sha256_hex_valid text : valid_name (sha256_hex text).
Proof. apply hex_valid; [apply Sum256_range|]. rewrite Sum256_length. lia. Qed.

Lemma sha256_hex_length text : String.length (sha256_hex text) = 64%nat.
Proof. unfold sha256_hex. by rewrite hex_EncodeToString_length, Sum256_length. Qed.

Lemma hex_digit_inj a b : (a < 16)%N → (b < 16)%N → hex_digit a = hex_digit b → a = b.
Proof.
  intros Ha Hb Heq.
  assert (∀ n, (n < 16)%N → n ∈ (N.of_nat <$> seq 0 16)) as Hin.
  { intros n Hn. apply list_elem_of_fmap. exists (N.to_nat n). rewrite N2Nat.id, elem_of_seq. lia. }
  assert (Forall (λ a, Forall (λ b, hex_digit a = hex_digit b → a = b) (N.of_nat <$> seq 0 16))
            (N.of_nat <$> seq 0 16)) as Hall by (vm_compute; repeat constructor; intros [=]; done).
  rewrite list.Forall_forall in Hall. specialize (Hall a (Hin a Ha)).
  rewrite list.Forall_forall in Hall. by apply Hall, Heq; apply Hin.
Qed.

Lemma hex_inj raw raw' :
  Forall (λ b, b < 256)%N raw → Forall (λ b, b < 256)%N raw' →
  hex_EncodeToString raw = hex_EncodeToString raw' → raw = raw'.
Proof.
  intros H. revert raw'. induction H as [|b raw Hb H IH]; intros raw' H'; destruct H' as [|b' raw' Hb' H'];
    [done|done|done|]. cbn [hex_EncodeToString hex_byte String.append]. intros [= H1 H2 H3].
  f_equal; [|by apply IH].
  apply hex_digit_inj in H1; [|apply N.Div0.div_lt_upper_bound; lia..].
  apply hex_digit_inj in H2; [|apply N.mod_lt; lia..].
  rewrite (N.div_mod' b 16), (N.div_mod' b' 16). congruence.
Qed.

(** A collision of SHA-256: two texts with the same digest. *)
Definition sha256_collision : Prop :=
  ∃ a b, a ≠ b ∧ Sum256 (byte <$> String.list_ascii_of_string a) = Sum256 (byte <$> String.list_ascii_of_string b).

Lemma sha256_hex_inj a b : sha256_hex a = sha256_hex b → a = b ∨ sha256_collision.
Proof.
  intros Heq%hex_inj; [|apply Sum256_range..]. destruct (decide (a = b)); [by left|right]. by exists a, b.
Qed.

(** ** What identifies an agent invocation *)

Lemma sep_split c a a' b b' :
  string_forallb (λ x, negb (Ascii.eqb x c)) a = true →
  string_forallb (λ x, negb (Ascii.eqb x c)) a' = true →
  (a ++ String c b = a' ++ String c b')%string → a = a' ∧ b = b'.
Proof.
  revert a'. induction a as [|x a IH]; intros [|y a'] Ha Ha' H; simpl in *; gobool.
  - injection H as H. done.
  - injection H as <- H. destruct Ha' as [Hy _]. by rewrite Ascii.eqb_refl in Hy.
  - injection H as -> H. destruct Ha as [Hy _]. by rewrite Ascii.eqb_refl in Hy.
  - injection H as -> H. destruct (IH a') as [-> ->]; tauto.
Qed.

Lemma valid_name_no_slash s : valid_name s → string_forallb (λ x, negb (Ascii.eqb x "/")) s = true.
Proof.
  assert (∀ c, name_char c = true → negb (Ascii.eqb c "/") = true) as Hc.
  { intros c. destruct (Ascii.eqb_spec c "/") as [->|]; [vm_compute|]; done. }
  unfold valid_name. destruct s as [|c s]; [done|]. simpl. rewrite !andb_true_iff.
  intros [[Ha Hs] _]. split; [by apply Hc, alnum_name_char|]. by apply (string_forallb_impl name_char).
Qed.

Lemma string_app_inv_head (a b c : string) : (a ++ b = a ++ c → b = c)%string.
Proof. induction a as [|x a IH]; simpl; [done|]. intros [= H]. auto. Qed.

(** The preimages of two keys of one session differ when their kinds or coordinates do. *)
Lemma executionOperationKey_inj session kind coordinate kind' coordinate' :
  se_ExecutionID session ≠ "" → no_NUL kind = true → no_NUL kind' = true →
  executionOperationKey session kind coordinate = executionOperationKey session kind' coordinate' →
  (kind = kind' ∧ coordinate = coordinate') ∨ sha256_collision.
Proof.
  intros Hne Hk Hk'. unfold executionOperationKey. rewrite (proj2 (is_empty_false _)) by done.
  intros [Heq|]%sha256_hex_inj; [left|by right].
  apply string_app_inv_head, (string_app_inv_head NUL) in Heq. by apply NUL_split.
Qed.

Lemma prepareAgentInvocation_inv session parent request request' invocation :
  prepareAgentInvocation session parent request = Ok (request', invocation) →
  ∃ keyed, ensureAgentIdempotencyKey request parent = Ok keyed ∧
    ar_Agent request' = ar_Agent request ∧ ar_IdempotencyKey request' = ar_IdempotencyKey keyed ∧
    inv_ID invocation = executionOperationKey session "agent"
      (inv_ID parent ++ "/" ++ ar_Agent request ++ "/" ++ ar_IdempotencyKey request') ∧
    inv_ParentID invocation = inv_ID parent ∧
    inv_RootID invocation = string_default (inv_RootID parent) (inv_ID parent) ∧
    inv_TargetSessionID invocation = ar_SessionID request' ∧
    valid_name (ar_SessionID request') ∧ valid_name (ar_IdempotencyKey request') ∧
    ValidateInvocation invocation = Ok tt.
Proof.
  unfold prepareAgentInvocation. intros H. apply bind_Ok in H as (keyed & Hk & H).
  assert (ar_Agent keyed = ar_Agent request ∧ valid_name (ar_IdempotencyKey keyed)) as [Ha Hv].
  { unfold ensureAgentIdempotencyKey in Hk. apply bind_Ok in Hk as (r & Hr & Hk).
    apply bind_Ok in Hk as ([] & Hn & [= ->]). apply ValidateResourceName_Ok in Hn. split; [|done].
    repeat case_match; inv_ok; done. }
  exists keyed. apply bind_Ok in H as ([r i] & Hri & H).
  apply bind_Ok in H as ([] & Hs & H). apply bind_Ok in H as ([] & Hi & [= -> ->]).
  apply ValidateResourceName_Ok in Hs.
  destruct (is_empty (ar_SessionID keyed)) eqn:E.
  - apply bind_Ok in Hri as (p & _ & Hri). injection Hri as <- <-. simpl in *. rewrite <-Ha. by split_and!.
  - injection Hri as <- <-. simpl in *. rewrite <-Ha. by split_and!.
Qed.

(** Inside one execution the identity of an agent invocation is its idempotency coordinate: two
    requests under the same parent get the same invocation ID exactly when they name the same agent
    and end up with the same idempotency key, unless SHA-256 collides; and the invocation is
    attached to its parent, in the parent's root, targeting the session of the request. *)
Theorem agent_invocation_identity session parent request1 request2 prepared1 prepared2 i1 i2 :
  se_ExecutionID session ≠ "" → valid_name (ar_Agent request1) → valid_name (ar_Agent request2) →
  prepareAgentInvocation session parent request1 = Ok (prepared1, i1) →
  prepareAgentInvocation session parent request2 = Ok (prepared2, i2) →
  (ar_Agent request1 = ar_Agent request2 ∧ ar_IdempotencyKey prepared1 = ar_IdempotencyKey prepared2 →
     inv_ID i1 = inv_ID i2) ∧
  (inv_ID i1 = inv_ID i2 →
     (ar_Agent request1 = ar_Agent request2 ∧ ar_IdempotencyKey prepared1 = ar_IdempotencyKey prepared2) ∨
     sha256_collision) ∧
  inv_ParentID i1 = inv_ID parent ∧ inv_RootID i1 = string_default (inv_RootID parent) (inv_ID parent) ∧
  inv_TargetSessionID i1 = ar_SessionID prepared1.
Proof.
  intros Hne Ha1 Ha2 H1 H2.
  apply prepareAgentInvocation_inv in H1 as (k1 & _ & _ & _ & Hi1 & Hp & Hr & Ht & _).
  apply prepareAgentInvocation_inv in H2 as (k2 & _ & _ & _ & Hi2 & _).
  split_and!; [intros [Ha Hk]; congruence| |done..].
  rewrite Hi1, Hi2. intros [[_ Heq]|]%executionOperationKey_inj; [left|by right|done..].
  apply string_app_inv_head, (string_app_inv_head "/") in Heq.
  by apply (sep_split "/") in Heq; [|apply valid_name_no_slash..].
Qed.

(** ** Witnesses *)

Definition ex_session : Session :=
  {| se_ID := "session-1"; se_Head := "entry-9"; se_ExecutionID := "execution-1";
     se_CausalRootID := ""; se_CausalParentID := "" |}.

Definition ex_parent_invocation : Invocation :=
  executionInvocation ex_session "tool" "turn-1/call-1" "" [] 0.

Definition ex_agent_request (key : string) : AgentRequest :=
  {| ar_Agent := "reviewer"; ar_Prompt := "look"; ar_SessionID := ""; ar_Mode := AgentSessionNew;
     ar_IdempotencyKey := key; ar_Group := ""; ar_Dependencies := []; ar_Ordinal := 0 |}.

Definition ex_prepared (key : string) : AgentRequest * Invocation :=
  get (ex_agent_request "", zeroInvocation)
    (prepareAgentInvocation ex_session ex_parent_invocation (ex_agent_request key)).

Lemma agent_invocation_identity_witness :
  String.length (inv_ID (ex_prepared "a").2) = 64%nat ∧
  inv_ParentID (ex_prepared "a").2 = inv_ID ex_parent_invocation.
Proof.
  split; [vm_compute; reflexivity|].
  apply (agent_invocation_identity ex_session ex_parent_invocation (ex_agent_request "a") (ex_agent_request "b")
    (ex_prepared "a").1 (ex_prepared "b").1 (ex_prepared "a").2 (ex_prepared "b").2);
    [done|vm_compute; reflexivity..].
Defined.
