(* ===== verification/Lineage.v ===== *)
(** The lineage of agent sessions ([sdk/runtime/session_lineage.go]): what a session created for an
    invocation records about its origin, and the check that lets a retried invocation reopen the
    session it created before, and only that one. *)

From S2P Require Import Prelude GoText Names Invocation Message ContextInjection Trajectory Agent.

Record trajectorySessionLineage := {
  ln_parentSessionID : string;
  ln_parentEntryID : string;
  ln_originInvocationID : string;
  ln_originInvocationRootID : string;
  ln_originForkInvocationID : string;
  ln_mode : string;
}.

Record trajectoryForkAnchor := {
  fa_parentEntryID : string;
  fa_originForkInvocationID : string;
}.

(** The parent session is [None] for nil. *)
Definition newTrajectorySessionLineage (parent : option Session) (mode : string) (invocation : Invocation)
    (forkAnchor : trajectoryForkAnchor) : result trajectorySessionLineage :=
  match parent with
  | None => Err (errors_New "trajectory lineage parent session is nil")
  | Some parent =>
      let root := string_default (inv_RootID invocation) (inv_ID invocation) in
      if negb (String.eqb mode AgentSessionFork) then
        Ok {| ln_parentSessionID := se_ID parent; ln_parentEntryID := "";
              ln_originInvocationID := inv_ID invocation; ln_originInvocationRootID := root;
              ln_originForkInvocationID := ""; ln_mode := mode |}
      else
      fail_if is_empty (fa_parentEntryID forkAnchor) with
        errors_New "cannot fork agent session without a parent trajectory fork anchor";
      Ok {| ln_parentSessionID := se_ID parent; ln_parentEntryID := fa_parentEntryID forkAnchor;
            ln_originInvocationID := inv_ID invocation; ln_originInvocationRootID := root;
            ln_originForkInvocationID :=
              string_default (fa_originForkInvocationID forkAnchor) (inv_ParentID invocation);
            ln_mode := mode |}
  end.

Definition lineage_applyEnvironment (lineage : trajectorySessionLineage) (environment : TrajectoryEnvironment)
    : TrajectoryEnvironment :=
  {| env_SDKAPIVersion := env_SDKAPIVersion environment; env_RuntimeVersion := env_RuntimeVersion environment;
     env_CreatedGeneration := env_CreatedGeneration environment;
     env_ParentSessionID := ln_parentSessionID lineage;
     env_OriginInvocationID := ln_originInvocationID lineage;
     env_OriginInvocationRootID := ln_originInvocationRootID lineage;
     env_OriginForkInvocationID := ln_originForkInvocationID lineage;
     env_OriginMode := ln_mode lineage;
     env_RequestedProvider := env_RequestedProvider environment;
     env_SystemDigest := env_SystemDigest environment;
     env_CompositionDigest := env_CompositionDigest environment;
     env_Plugins := env_Plugins environment; env_Providers := env_Providers environment;
     env_Tools := env_Tools environment; env_Agents := env_Agents environment;
     env_Hooks := env_Hooks environment; env_Subscribers := env_Subscribers environment;
     env_Capabilities := env_Capabilities environment; env_Events := env_Events environment |}.

Definition lineage_trajectory (lineage : trajectorySessionLineage) (id : string)
    (environment : TrajectoryEnvironment) : Trajectory :=
  let fork := String.eqb (ln_mode lineage) AgentSessionFork in
  {| tj_SchemaVersion := 0; tj_ID := id;
     tj_ParentID := if fork then ln_parentSessionID lineage else "";
     tj_ParentEntryID := if fork then ln_parentEntryID lineage else "";
     tj_CreatedAt := 0; tj_UpdatedAt := 0; tj_Head := ""; tj_Checkpoint := ""; tj_Execution := None;
     tj_Environment := environment; tj_Entries := [] |}.

Definition validateExistingResumeNew (metadata : TrajectoryMetadata) (sessionID : string) : result unit :=
  fail_if negb (is_empty (tm_ParentID metadata)) || negb (is_empty (tm_ParentEntryID metadata)) with
    Errorf "agent session %q already forks trajectory %q at %q"
      [AStr sessionID; AStr (tm_ParentID metadata); AStr (tm_ParentEntryID metadata)];
  Ok tt.

Definition validateExistingResumeFork (lineage : trajectorySessionLineage) (metadata : TrajectoryMetadata)
    (sessionID : string) : result unit :=
  fail_if negb (String.eqb (tm_ParentID metadata) (ln_parentSessionID lineage)) ||
          is_empty (tm_ParentEntryID metadata) with
    Errorf "agent session %q already forks trajectory %q at %q, not %q"
      [AStr sessionID; AStr (tm_ParentID metadata); AStr (tm_ParentEntryID metadata);
       AStr (ln_parentSessionID lineage)];
  Ok tt.

Definition validateExistingResume (lineage : trajectorySessionLineage) (metadata : TrajectoryMetadata)
    (sessionID : string) : result unit :=
  let environment := tm_Environment metadata in
  fail_if negb (String.eqb (env_ParentSessionID environment) (ln_parentSessionID lineage)) with
    Errorf "agent session %q belongs to parent %q, not %q"
      [AStr sessionID; AStr (env_ParentSessionID environment); AStr (ln_parentSessionID lineage)];
  if String.eqb (env_OriginMode environment) AgentSessionNew then
    validateExistingResumeNew metadata sessionID
  else if String.eqb (env_OriginMode environment) AgentSessionFork then
    validateExistingResumeFork lineage metadata sessionID
  else if is_empty (env_OriginMode environment) then
    if is_empty (tm_ParentID metadata) && is_empty (tm_ParentEntryID metadata) then Ok tt
    else validateExistingResumeFork lineage metadata sessionID
  else
    Err (Errorf "agent session %q already belongs to %q mode"
           [AStr sessionID; AStr (env_OriginMode environment)]).

Definition validateExisting (lineage : trajectorySessionLineage) (metadata : TrajectoryMetadata)
    (sessionID : string) : result unit :=
  let environment := tm_Environment metadata in
  if String.eqb (ln_mode lineage) AgentSessionResume then validateExistingResume lineage metadata sessionID else
  fail_if negb (String.eqb (env_OriginInvocationID environment) (ln_originInvocationID lineage)) ||
          negb (String.eqb (env_ParentSessionID environment) (ln_parentSessionID lineage)) with
    Errorf "agent session %q already belongs to invocation %q from parent %q"
      [AStr sessionID; AStr (env_OriginInvocationID environment); AStr (env_ParentSessionID environment)];
  fail_if negb (is_empty (env_OriginInvocationRootID environment)) &&
          negb (String.eqb (env_OriginInvocationRootID environment) (ln_originInvocationRootID lineage)) with
    Errorf "agent session %q already belongs to invocation root %q"
      [AStr sessionID; AStr (env_OriginInvocationRootID environment)];
  fail_if negb (is_empty (env_OriginMode environment)) &&
          negb (String.eqb (env_OriginMode environment) (ln_mode lineage)) with
    Errorf "agent session %q already belongs to %q mode"
      [AStr sessionID; AStr (env_OriginMode environment)];
  if String.eqb (ln_mode lineage) AgentSessionFork then
    fail_if negb (String.eqb (tm_ParentID metadata) (ln_parentSessionID lineage)) ||
            negb (String.eqb (tm_ParentEntryID metadata) (ln_parentEntryID lineage)) with
      Errorf "agent session %q already forks trajectory %q at %q, not %q at %q"
        [AStr sessionID; AStr (tm_ParentID metadata); AStr (tm_ParentEntryID metadata);
         AStr (ln_parentSessionID lineage); AStr (ln_parentEntryID lineage)];
    fail_if negb (is_empty (env_OriginForkInvocationID environment)) &&
            negb (String.eqb (env_OriginForkInvocationID environment) (ln_originForkInvocationID lineage)) with
      Errorf "agent session %q already forks from invocation %q"
        [AStr sessionID; AStr (env_OriginForkInvocationID environment)];
    Ok tt
  else if String.eqb (ln_mode lineage) AgentSessionNew then
    fail_if negb (is_empty (tm_ParentID metadata)) || negb (is_empty (tm_ParentEntryID metadata)) with
      Errorf "agent session %q already forks trajectory %q at %q"
        [AStr sessionID; AStr (tm_ParentID metadata); AStr (tm_ParentEntryID metadata)];
    Ok tt
  else Ok tt.

Definition trajectorySessionOriginMode (metadata : TrajectoryMetadata) : string :=
  if negb (is_empty (env_OriginMode (tm_Environment metadata))) then env_OriginMode (tm_Environment metadata)
  else if negb (is_empty (tm_ParentID metadata)) || negb (is_empty (tm_ParentEntryID metadata))
  then AgentSessionFork
  else "".

(** ** Properties *)

(** The metadata of a trajectory created with a lineage. *)
Definition created_with (lineage : trajectorySessionLineage) (metadata : TrajectoryMetadata) : Prop :=
  ∃ id environment,
    let trajectory := lineage_trajectory lineage id (lineage_applyEnvironment lineage environment) in
    tm_ParentID metadata = tj_ParentID trajectory ∧ tm_ParentEntryID metadata = tj_ParentEntryID trajectory ∧
    tm_Environment metadata = tj_Environment trajectory.

Lemma newLineage_inv parent mode invocation anchor lineage :
  newTrajectorySessionLineage parent mode invocation anchor = Ok lineage →
  ln_mode lineage = mode ∧ ln_originInvocationID lineage = inv_ID invocation ∧
  (∃ p, parent = Some p ∧ ln_parentSessionID lineage = se_ID p) ∧
  (mode = AgentSessionFork → ln_parentEntryID lineage = fa_parentEntryID anchor ∧ ln_parentEntryID lineage ≠ "").
Proof.
  unfold newTrajectorySessionLineage. destruct parent as [p|]; [|done].
  destruct (String.eqb_spec mode AgentSessionFork) as [->|Hne]; simpl; intros H; inv_ok; simpl;
    split_and!; eauto; intros; gobool; done.
Qed.

(** Reopening is exact for retries: the session an invocation created is accepted when the same
    invocation opens it again, and for an agent session in mode [new] or [fork] a session that was
    created for another invocation or from another parent session is refused. *)
Theorem lineage_reopen_exact parent mode invocation anchor lineage parent' invocation' anchor' lineage' metadata sessionID :
  mode = AgentSessionNew ∨ mode = AgentSessionFork →
  newTrajectorySessionLineage parent mode invocation anchor = Ok lineage →
  newTrajectorySessionLineage parent' mode invocation' anchor' = Ok lineage' →
  created_with lineage metadata →
  validateExisting lineage metadata sessionID = Ok tt ∧
  (validateExisting lineage' metadata sessionID = Ok tt →
     inv_ID invocation' = inv_ID invocation ∧ se_ID <$> parent' = se_ID <$> parent ∧
     (mode = AgentSessionFork → fa_parentEntryID anchor' = fa_parentEntryID anchor)).
Proof.
  intros Hmode Hl Hl' (id & env & H1 & H2 & H3). simpl in *.
  apply newLineage_inv in Hl as (Hm & Ho & (p & -> & Hp) & Hf).
  apply newLineage_inv in Hl' as (Hm' & Ho' & (p' & -> & Hp') & Hf').
  assert (String.eqb mode AgentSessionResume = false) as Hr by (by destruct Hmode as [-> | ->]).
  split.
  - unfold validateExisting. rewrite H1, H2, H3, Hm, Hr. simpl. rewrite Hm, !String.eqb_refl. simpl.
    rewrite !andb_false_r. destruct Hmode as [-> | ->]; simpl; [done|]. by rewrite !String.eqb_refl.
  - unfold validateExisting. rewrite H1, H2, H3, Hm', Hr. simpl. rewrite Hm.
    intros H. apply (f_equal result_ok) in H.
    destruct (String.eqb_spec (ln_originInvocationID lineage) (ln_originInvocationID lineage')) as [Hi|]; [|done].
    destruct (String.eqb_spec (ln_parentSessionID lineage) (ln_parentSessionID lineage')) as [Hpp|]; [|done].
    split_and!; [congruence|simpl; congruence|]. intros ->. simpl in H.
    destruct (String.eqb_spec (ln_parentEntryID lineage) (ln_parentEntryID lineage')) as [He|];
      [by destruct (Hf eq_refl), (Hf' eq_refl); congruence|].
    exfalso. revert H. destruct (negb _ && negb _); [done|]. by rewrite orb_true_r.
Qed.

(** ** Witnesses *)

Definition ex_anchor : trajectoryForkAnchor :=
  {| fa_parentEntryID := "entry-9"; fa_originForkInvocationID := "" |}.

Definition ex_lineage : trajectorySessionLineage :=
  get {| ln_parentSessionID := ""; ln_parentEntryID := ""; ln_originInvocationID := "";
         ln_originInvocationRootID := ""; ln_originForkInvocationID := ""; ln_mode := "" |}
    (newTrajectorySessionLineage (Some ex_session) AgentSessionFork ex_parent_invocation ex_anchor).

Definition ex_fork_metadata : TrajectoryMetadata :=
  trajectoryMetadata (lineage_trajectory ex_lineage "child" (lineage_applyEnvironment ex_lineage zeroEnvironment)) 0 0.

Lemma lineage_reopen_exact_witness :
  tm_ParentEntryID ex_fork_metadata = "entry-9" ∧
  validateExisting ex_lineage ex_fork_metadata "child" = Ok tt.
Proof.
  split; [vm_compute; reflexivity|].
  apply (lineage_reopen_exact (Some ex_session) AgentSessionFork ex_parent_invocation ex_anchor ex_lineage
    (Some ex_session) ex_parent_invocation ex_anchor ex_lineage);
    [by right|vm_compute; reflexivity..|]. by exists "child", zeroEnvironment.
Defined.
