(* ===== verification/Workflow.v ===== *)
(** Workflows: the validation of a request and the wave scheduler of
    [sdk/runtime/orchestration_workflow.go] over the data of [sdk/workflow.go].

    A wave runs its nodes in parallel.  What the agents of a wave return, and in which order they
    finish, is the parameter [run_wave]: the results [runParallelIndexed] leaves in the outcomes of
    the wave, one for every ready node ([Parallel] models that function). *)

From S2P Require Import Prelude GoText Names Invocation Message ContextInjection TopoSort Agent.

(** ** Data *)

Record WorkflowNode := {
  wn_ID : string;
  wn_Agent : AgentRequest;
  wn_DependsOn : list string;
  wn_IncludeDependencyOutputs : bool;
}.

Record WorkflowRequest := {
  wr_Name : string;
  wr_IdempotencyKey : string;
  wr_Nodes : list WorkflowNode;
  wr_MaxConcurrency : Z;
  wr_Group : string;
  wr_Dependencies : list string;
  wr_Ordinal : Z;
}.

Record WorkflowNodeResult := {
  nr_ID : string;
  nr_Result : AgentResult;
}.

Record WorkflowResult := {
  wfr_InvocationID : string;
  wfr_Nodes : list WorkflowNodeResult;
}.

Definition with_agent (node : WorkflowNode) (agent : AgentRequest) : WorkflowNode :=
  {| wn_ID := wn_ID node; wn_Agent := agent; wn_DependsOn := wn_DependsOn node;
     wn_IncludeDependencyOutputs := wn_IncludeDependencyOutputs node |}.

Definition with_nodes (request : WorkflowRequest) (nodes : list WorkflowNode) : WorkflowRequest :=
  {| wr_Name := wr_Name request; wr_IdempotencyKey := wr_IdempotencyKey request; wr_Nodes := nodes;
     wr_MaxConcurrency := wr_MaxConcurrency request; wr_Group := wr_Group request;
     wr_Dependencies := wr_Dependencies request; wr_Ordinal := wr_Ordinal request |}.

(** ** Validation *)

Definition validateWorkflowNodeAgentRequest (node : WorkflowNode) : result unit :=
  fail_if negb (is_empty (ar_Group (wn_Agent node))) with
    errors_New "agent group is owned by workflow scheduling";
  fail_if negb (length (ar_Dependencies (wn_Agent node)) =? 0)%nat with
    errors_New "agent dependencies are owned by workflow scheduling";
  fail_if negb (ar_Ordinal (wn_Agent node) =? 0) with
    errors_New "agent ordinal is owned by workflow scheduling";
  Ok tt.

Definition node_error (node : WorkflowNode) (err : error) : error :=
  Wrapf "workflow node %q: %w" [AStr (wn_ID node)] err.

Definition wrap_err {A} (wrap : error → error) (m : result A) : result A :=
  match m with Ok a => Ok a | Err e => Err (wrap e) end.

(** The loop over the nodes; the agent requests are normalized in place. *)
Fixpoint workflow_nodes (name : string) (seen : gset string) (nodes : list WorkflowNode)
    : result (list WorkflowNode * gset string) :=
  match nodes with
  | [] => Ok ([], seen)
  | node :: rest =>
      try? ValidateResourceName "workflow node" (wn_ID node);
      fail_if bool_decide (wn_ID node ∈ seen) with
        Errorf "workflow %q contains duplicate node %q" [AStr name; AStr (wn_ID node)];
      let? agent := wrap_err (node_error node) (validateAgentRequest (wn_Agent node)) in
      let node := with_agent node agent in
      try? wrap_err (node_error node) (validateWorkflowNodeAgentRequest node);
      let? '(rest, seen) := workflow_nodes name ({[wn_ID node]} ∪ seen) rest in
      Ok (node :: rest, seen)
  end.

(** The loop over the dependencies of one node. *)
Fixpoint node_dependencies (id : string) (nodes seen : gset string) (dependencies : list string) : result unit :=
  match dependencies with
  | [] => Ok tt
  | dependency :: rest =>
      fail_if String.eqb dependency id with
        Errorf "workflow node %q cannot depend on itself" [AStr id];
      fail_if bool_decide (dependency ∉ nodes) with
        Errorf "workflow node %q depends on unknown node %q" [AStr id; AStr dependency];
      fail_if bool_decide (dependency ∈ seen) with
        Errorf "workflow node %q contains duplicate dependency %q" [AStr id; AStr dependency];
      node_dependencies id nodes ({[dependency]} ∪ seen) rest
  end.

Fixpoint workflow_dependencies (nodes : gset string) (list : list WorkflowNode) : result unit :=
  match list with
  | [] => Ok tt
  | node :: rest =>
      try? node_dependencies (wn_ID node) nodes ∅ (wn_DependsOn node);
      workflow_dependencies nodes rest
  end.

Definition dependents_of (dependents : gmap string (list string)) (id : string) : list string :=
  default [] (dependents !! id).

(** The maps [indegree] and [dependents]. *)
Definition workflow_edges (nodes : list WorkflowNode) : gmap string Z * gmap string (list string) :=
  foldl (λ '(indegree, dependents) node,
    (<[wn_ID node := Z.of_nat (length (wn_DependsOn node))]> indegree,
     foldl (λ dependents dependency,
       <[dependency := dependents_of dependents dependency ++ [wn_ID node]]> dependents)
       dependents (wn_DependsOn node)))
    (∅, ∅) nodes.

(** The loop [for len(ready) > 0], which takes the newest ready node; the number of visited nodes. *)
Fixpoint workflow_visit (fuel : nat) (dependents : gmap string (list string)) (indegree : gmap string Z)
    (ready : list string) (visited : Z) : option Z :=
  match last ready with
  | None => Some visited
  | Some id =>
      match fuel with
      | O => None
      | S fuel =>
          let ready := take (length ready - 1) ready in
          let '(indegree, ready) := relax (dependents_of dependents id) indegree ready in
          workflow_visit fuel dependents indegree ready (visited + 1)
      end
  end.

Definition workflow_cycle (name : string) : error :=
  Errorf "workflow %q dependency graph contains a cycle" [AStr name].

Section validation.
Context `{!MapOrder}.

Definition workflow_acyclic (name : string) (nodes : list WorkflowNode) : result unit :=
  let '(indegree, dependents) := workflow_edges nodes in
  let ready := (filter (λ entry, entry.2 = 0) (range_map 0 indegree)).*1 in
  match workflow_visit (length nodes) dependents indegree ready 0 with
  | None => Err (errors_New "workflow validation ran out of fuel")
  | Some visited =>
      fail_if negb (visited =? Z.of_nat (length nodes)) with workflow_cycle name;
      Ok tt
  end.

(** The validated request, with the modes of its agent requests filled in. *)
Definition validateWorkflowRequest (request : WorkflowRequest) : result WorkflowRequest :=
  try? ValidateResourceName "workflow" (wr_Name request);
  try? (if negb (is_empty (wr_IdempotencyKey request))
        then ValidateResourceName "workflow idempotency key" (wr_IdempotencyKey request)
        else Ok tt);
  fail_if (length (wr_Nodes request) =? 0)%nat with
    Errorf "workflow %q contains no nodes" [AStr (wr_Name request)];
  fail_if wr_MaxConcurrency request <? 0 with
    Errorf "workflow %q max concurrency cannot be negative" [AStr (wr_Name request)];
  let? '(nodes, seen) := workflow_nodes (wr_Name request) ∅ (wr_Nodes request) in
  try? workflow_dependencies seen nodes;
  try? workflow_acyclic (wr_Name request) nodes;
  Ok (with_nodes request nodes).
End validation.

(** ** Scheduling *)

(** The map [index], from node identity to position. *)
Fixpoint workflow_index (i : nat) (nodes : list WorkflowNode) (index : gmap string nat) : gmap string nat :=
  match nodes with
  | [] => index
  | node :: rest => workflow_index (S i) rest (<[wn_ID node := i]> index)
  end.

Definition index_of (index : gmap string nat) (id : string) : nat := default O (index !! id).

Definition zeroNodeResult : WorkflowNodeResult := {| nr_ID := ""; nr_Result := zeroAgentResult |}.

(** [results[i]] and [completed[i]] at an index in range. *)
Definition result_at (results : list WorkflowNodeResult) (i : nat) : WorkflowNodeResult :=
  default zeroNodeResult (results !! i).
Definition completed_at (completed : list bool) (i : nat) : bool := default false (completed !! i).

Definition newline : string := String "010"%char "".

Definition appendWorkflowDependencyOutputs (prompt : string) (dependencies : list string)
    (index : gmap string nat) (results : list WorkflowNodeResult) : string :=
  match dependencies with
  | [] => prompt
  | _ =>
      foldl (λ text dependency,
        (text ++ "- " ++ dependency ++ ": " ++
           rs_Output (nr_Result (result_at results (index_of index dependency))) ++ newline)%string)
        (prompt ++ newline ++ newline ++ "Dependency outputs:" ++ newline)%string dependencies
  end.

Definition node_ready (index : gmap string nat) (completed : list bool) (node : WorkflowNode) : bool :=
  forallb (λ dependency, completed_at completed (index_of index dependency)) (wn_DependsOn node).

(** The loop that collects the ready nodes. *)
Fixpoint ready_nodes (index : gmap string nat) (completed : list bool) (i : nat) (nodes : list WorkflowNode)
    : list nat :=
  match nodes with
  | [] => []
  | node :: rest =>
      if completed_at completed i then ready_nodes index completed (S i) rest
      else if node_ready index completed node then i :: ready_nodes index completed (S i) rest
      else ready_nodes index completed (S i) rest
  end.

(** The agent request of a node in a wave. *)
Definition wave_request (invocationID : string) (wave : Z) (index : gmap string nat)
    (results : list WorkflowNodeResult) (nodeIndex : nat) (node : WorkflowNode) : AgentRequest :=
  let agent := wn_Agent node in
  {| ar_Agent := ar_Agent agent;
     ar_Prompt :=
       if wn_IncludeDependencyOutputs node
       then appendWorkflowDependencyOutputs (ar_Prompt agent) (wn_DependsOn node) index results
       else ar_Prompt agent;
     ar_SessionID := ar_SessionID agent; ar_Mode := ar_Mode agent;
     ar_IdempotencyKey := string_default (ar_IdempotencyKey agent) (wn_ID node);
     ar_Group := invocationID ++ "-wave-" ++ decimal wave;
     ar_Dependencies :=
       (λ dependency, rs_InvocationID (nr_Result (result_at results (index_of index dependency))))
         <$> wn_DependsOn node;
     ar_Ordinal := u32 (Z.of_nat nodeIndex) |}.

Definition zeroNode : WorkflowNode :=
  {| wn_ID := ""; wn_Agent := {| ar_Agent := ""; ar_Prompt := ""; ar_SessionID := ""; ar_Mode := "";
                                 ar_IdempotencyKey := ""; ar_Group := ""; ar_Dependencies := [];
                                 ar_Ordinal := 0 |};
     wn_DependsOn := []; wn_IncludeDependencyOutputs := false |}.

Definition node_at (nodes : list WorkflowNode) (i : nat) : WorkflowNode := default zeroNode (nodes !! i).

Record wave_state := {
  ws_results : list WorkflowNodeResult;
  ws_completed : list bool;
  ws_remaining : Z;
}.

(** The loop over the outcomes of a wave. *)
Fixpoint settle_wave (nodes : list WorkflowNode) (ready : list nat) (outcomes : list (result AgentResult))
    (state : wave_state) (errs : list error) : wave_state * list error :=
  match ready, outcomes with
  | nodeIndex :: ready, outcome :: outcomes =>
      match outcome with
      | Err e => settle_wave nodes ready outcomes state (errs ++ [node_error (node_at nodes nodeIndex) e])
      | Ok r =>
          settle_wave nodes ready outcomes
            {| ws_results := <[nodeIndex := {| nr_ID := wn_ID (node_at nodes nodeIndex); nr_Result := r |}]>
                               (ws_results state);
               ws_completed := <[nodeIndex := true]> (ws_completed state);
               ws_remaining := ws_remaining state - 1 |} errs
      end
  | _, _ => (state, errs)
  end.

Section run.
(** The outcomes of the nodes of a wave, from its number and the requests made in it. *)
Context (run_wave : Z → list (nat * AgentRequest) → list (result AgentResult)).

(** The loop over the waves, with the requests made in each wave; [None] when out of fuel. *)
Fixpoint workflow_loop (fuel : nat) (name : string) (nodes : list WorkflowNode) (index : gmap string nat)
    (invocationID : string) (state : wave_state) (wave : Z)
    : list (list (nat * AgentRequest)) * option (result WorkflowResult) :=
  if negb (0 <? ws_remaining state) then
    ([], Some (Ok {| wfr_InvocationID := invocationID; wfr_Nodes := ws_results state |}))
  else
  match fuel with
  | O => ([], None)
  | S fuel =>
      let ready := ready_nodes index (ws_completed state) 0 nodes in
      if (length ready =? 0)%nat then ([], Some (Err (workflow_cycle name))) else
      let requests := (λ i, (i, wave_request invocationID wave index (ws_results state) i (node_at nodes i)))
                        <$> ready in
      let '(state, errs) := settle_wave nodes ready (run_wave wave requests) state [] in
      match errs with
      | _ :: _ => ([requests], Some (Err (Joined errs)))
      | [] =>
          let '(log, out) := workflow_loop fuel name nodes index invocationID state (wave + 1) in
          (requests :: log, out)
      end
  end.

Definition runWorkflow (request : WorkflowRequest) (invocation : Invocation)
    : list (list (nat * AgentRequest)) * option (result WorkflowResult) :=
  let nodes := wr_Nodes request in
  let count := length nodes in
  workflow_loop count (wr_Name request) nodes (workflow_index 0 nodes ∅) (inv_ID invocation)
    {| ws_results := replicate count zeroNodeResult; ws_completed := replicate count false;
       ws_remaining := Z.of_nat count |} 0.
End run.

(** The part of [ExecuteWorkflow] before the operation is submitted. *)
Definition prepareWorkflow `{!MapOrder} (parentSession : Session) (parentInvocation : Invocation)
    (request : WorkflowRequest) : result (WorkflowRequest * Invocation) :=
  let? request := validateWorkflowRequest request in
  fail_if is_empty (wr_IdempotencyKey request) with errors_New "workflow idempotency key is required";
  let invocation := childInvocation parentSession parentInvocation
    {| cc_kind := "workflow"; cc_coordinate := wr_Name request ++ "/" ++ wr_IdempotencyKey request;
       cc_groupCoordinate := if negb (is_empty (wr_Group request)) then ("workflows/" ++ wr_Group request)%string else "";
       cc_targetSessionID := ""; cc_dependencies := wr_Dependencies request;
       cc_ordinal := wr_Ordinal request |} in
  try? ValidateInvocation invocation;
  Ok (request, invocation).
