(* ===== verification/WorkflowProperties.v ===== *)
(** What workflow validation accepts, and how the scheduler runs an accepted workflow. *)

From S2P Require Import Prelude GoText Names Invocation Message ContextInjection TopoSort.
From S2P Require Import Agent Workflow.

(** ** The dependency graph *)

(** [u] is a dependency of the node [v]. *)
Definition wf_edge (nodes : list WorkflowNode) (u v : string) : Prop :=
  Exists (λ n, wn_ID n = v ∧ u ∈ wn_DependsOn n) nodes.

#[export] Instance wf_edge_dec nodes u v : Decision (wf_edge nodes u v).
Proof. unfold wf_edge. apply _. Defined.

Lemma wf_edge_iff nodes u v : wf_edge nodes u v ↔ ∃ n, n ∈ nodes ∧ wn_ID n = v ∧ u ∈ wn_DependsOn n.
Proof. unfold wf_edge. by rewrite list.Exists_exists. Qed.

(** Nodes with distinct identities, whose dependencies are distinct nodes other than themselves. *)
Record nodes_ok (nodes : list WorkflowNode) : Prop := {
  no_ids : NoDup (wn_ID <$> nodes);
  no_deps n : n ∈ nodes → NoDup (wn_DependsOn n) ∧ wn_ID n ∉ wn_DependsOn n ∧
    ∀ d, d ∈ wn_DependsOn n → d ∈ wn_ID <$> nodes;
}.

Lemma nodes_key (nodes : list WorkflowNode) n n' :
  NoDup (wn_ID <$> nodes) → n ∈ nodes → n' ∈ nodes → wn_ID n = wn_ID n' → n = n'.
Proof.
  induction nodes as [|x l IH]; [set_solver|]. rewrite fmap_cons, list.NoDup_cons, !elem_of_cons.
  intros [Hz Hnd] [->|Hx] [->|Hy] Heq; [done|..|by apply IH]; exfalso; apply Hz, list_elem_of_fmap; eauto.
Qed.

(** ** The loops of the validation *)

Lemma workflow_nodes_Ok name seen nodes nodes' seen' :
  workflow_nodes name seen nodes = Ok (nodes', seen') →
  Forall2 (λ n n', ∃ agent, validateAgentRequest (wn_Agent n) = Ok agent ∧ n' = with_agent n agent ∧
    validateWorkflowNodeAgentRequest n' = Ok tt) nodes nodes' ∧
  Forall valid_name (wn_ID <$> nodes) ∧ NoDup (wn_ID <$> nodes) ∧
  (∀ n, n ∈ nodes → wn_ID n ∉ seen) ∧ seen' = list_to_set (wn_ID <$> nodes) ∪ seen.
Proof.
  revert seen nodes' seen'. induction nodes as [|n nodes IH]; intros seen nodes' seen' H; cbn [workflow_nodes] in H.
  { injection H as <- <-. simpl. split_and!; [constructor..|set_solver|set_solver]. }
  apply bind_Ok in H as ([] & Hn & H). apply ValidateResourceName_Ok in Hn.
  destruct (bool_decide (wn_ID n ∈ seen)) eqn:Hs; [done|]. gobool.
  apply bind_Ok in H as (agent & Ha & H). apply bind_Ok in H as ([] & Hw & H).
  apply bind_Ok in H as ([rest seen1] & Hrest & [= <- <-]).
  apply IH in Hrest as (Hf & Hv & Hnd & Hseen & ->). rewrite !fmap_cons.
  assert (validateAgentRequest (wn_Agent n) = Ok agent) by (by destruct (validateAgentRequest (wn_Agent n)); simplify_eq/=).
  assert (validateWorkflowNodeAgentRequest (with_agent n agent) = Ok tt)
    by (by destruct (validateWorkflowNodeAgentRequest (with_agent n agent)) as [[]|]).
  split_and!.
  - constructor; [by exists agent|done].
  - by constructor.
  - apply list.NoDup_cons. split; [|done]. intros (n' & Heq & Hn')%list_elem_of_fmap.
    apply (Hseen n' Hn'). simpl. rewrite <-Heq. set_solver.
  - intros n' [->|Hn']%elem_of_cons; [done|]. specialize (Hseen n' Hn'). set_solver.
  - simpl. set_solver.
Qed.

Lemma workflow_nodes_complete name seen nodes :
  Forall valid_name (wn_ID <$> nodes) → NoDup (wn_ID <$> nodes) → (∀ n, n ∈ nodes → wn_ID n ∉ seen) →
  Forall (λ n, ∃ agent, validateAgentRequest (wn_Agent n) = Ok agent ∧
    validateWorkflowNodeAgentRequest (with_agent n agent) = Ok tt) nodes →
  ∃ out, workflow_nodes name seen nodes = Ok out.
Proof.
  revert seen. induction nodes as [|n nodes IH]; intros seen Hv Hnd Hs Ha; cbn [workflow_nodes]; [by eauto|].
  rewrite fmap_cons in *. apply list.NoDup_cons in Hnd as [Hn Hnd]. apply list.Forall_cons in Hv as [Hvn Hv].
  apply list.Forall_cons in Ha as [(agent & Hag & Hw) Ha].
  rewrite (proj2 (ValidateResourceName_Ok _ _ tt) Hvn). simpl.
  rewrite bool_decide_eq_false_2 by (apply Hs; set_solver). rewrite Hag. simpl. rewrite Hw. simpl.
  destruct (IH ({[wn_ID n]} ∪ seen)) as [[rest seen'] ->]; [done|done| |done|by eauto].
  intros n' Hn'. assert (wn_ID n' ≠ wn_ID n) by (intros Heq; apply Hn, list_elem_of_fmap; eauto).
  assert (wn_ID n' ∉ seen) by (apply Hs; set_solver). set_solver.
Qed.

Lemma node_dependencies_Ok id nodes seen deps :
  node_dependencies id nodes seen deps = Ok tt ↔
  id ∉ deps ∧ (∀ d, d ∈ deps → d ∈ nodes ∧ d ∉ seen) ∧ NoDup deps.
Proof.
  revert seen. induction deps as [|d deps IH]; intros seen; cbn [node_dependencies].
  - split; [|done]. intros _. split_and!; [set_solver|set_solver|constructor].
  - rewrite list.NoDup_cons, not_elem_of_cons. destruct (String.eqb_spec d id) as [->|Hne].
    { split; [done|]. tauto. }
    destruct (bool_decide (d ∉ nodes)) eqn:E1; gobool.
    { split; [done|]. intros (_ & Hd & _). exfalso. apply E1, Hd. left. }
    destruct (bool_decide (d ∈ seen)) eqn:E2; gobool.
    { split; [done|]. intros (_ & Hd & _). exfalso. destruct (Hd d) as [_ ?]; [left|done]. }
    rewrite IH. destruct (decide (d ∈ nodes)) as [Hdn|]; [|tauto]. split.
    + intros (Hid & Hd & Hnd). split_and!; [done|done| |set_solver|done].
      intros x [->|Hx]%elem_of_cons; [done|]. destruct (Hd x Hx). set_solver.
    + intros ((_ & Hid) & Hd & Hx & Hnd). split_and!; [done| |done].
      intros x Hxd. destruct (Hd x) as [? ?]; [by right|]. set_solver.
Qed.

Lemma workflow_dependencies_Ok nodes list :
  workflow_dependencies nodes list = Ok tt ↔
  ∀ n, n ∈ list → wn_ID n ∉ wn_DependsOn n ∧ (∀ d, d ∈ wn_DependsOn n → d ∈ nodes) ∧ NoDup (wn_DependsOn n).
Proof.
  induction list as [|n l IH]; cbn [workflow_dependencies]; [set_solver|].
  rewrite bind_Ok. setoid_rewrite IH. split.
  - intros ([] & H & Hl) n' [->|Hn']%elem_of_cons; [|by apply Hl].
    apply node_dependencies_Ok in H as (? & Hd & ?). split_and!; [done| |done]. intros d ?%Hd. tauto.
  - intros Hl. exists tt. split; [|intros n' Hn'; apply Hl; by right].
    apply node_dependencies_Ok. destruct (Hl n) as (? & ? & ?); [left|]. split_and!; [done| |done]. set_solver.
Qed.

(** ** The in-degrees and the dependents *)

Definition node_dependents (id : string) (dependents : gmap string (list string)) (deps : list string) :=
  foldl (λ dependents d, <[d := dependents_of dependents d ++ [id]]> dependents) dependents deps.

Lemma node_dependents_spec id dependents deps u :
  NoDup deps →
  dependents_of (node_dependents id dependents deps) u =
  dependents_of dependents u ++ (if decide (u ∈ deps) then [id] else []).
Proof.
  unfold node_dependents. revert dependents. induction deps as [|d deps IH]; intros dependents Hnd; cbn [foldl].
  - rewrite decide_False by set_solver. by rewrite app_nil_r.
  - apply list.NoDup_cons in Hnd as [Hd Hnd]. rewrite IH by done.
    unfold dependents_of at 1. rewrite lookup_insert. destruct (decide (d = u)) as [->|Hne]; simpl.
    + rewrite (decide_False (P := u ∈ deps)) by done. rewrite decide_True by set_solver.
      by rewrite app_nil_r.
    + fold (dependents_of dependents u). f_equal.
      destruct (decide (u ∈ deps)); [rewrite decide_True by set_solver|rewrite decide_False by set_solver]; done.
Qed.

Lemma workflow_edges_snoc nodes n :
  workflow_edges (nodes ++ [n]) =
  (<[wn_ID n := Z.of_nat (length (wn_DependsOn n))]> (workflow_edges nodes).1,
   node_dependents (wn_ID n) (workflow_edges nodes).2 (wn_DependsOn n)).
Proof.
  unfold workflow_edges, node_dependents. rewrite foldl_app. cbn [foldl].
  by destruct (foldl _ (∅, ∅) nodes).
Qed.

Lemma workflow_edges_spec nodes :
  NoDup (wn_ID <$> nodes) → (∀ n, n ∈ nodes → NoDup (wn_DependsOn n)) →
  (∀ k, k ∈ dom (workflow_edges nodes).1 ↔ k ∈ wn_ID <$> nodes) ∧
  (∀ n, n ∈ nodes → map_count (workflow_edges nodes).1 (wn_ID n) = Z.of_nat (length (wn_DependsOn n))) ∧
  (∀ u, NoDup (dependents_of (workflow_edges nodes).2 u)) ∧
  (∀ u v, v ∈ dependents_of (workflow_edges nodes).2 u ↔ wf_edge nodes u v).
Proof.
  induction nodes as [|n nodes IH] using rev_ind; intros Hnd Hdeps.
  { simpl. split_and!; [set_solver|set_solver|intros u; constructor|]. intros u v. rewrite wf_edge_iff.
    unfold dependents_of. rewrite lookup_empty. set_solver. }
  rewrite fmap_app in Hnd. apply NoDup_app in Hnd as (Hnd & Hd & _).
  assert (wn_ID n ∉ wn_ID <$> nodes) as Hn by (intros Hn; apply (Hd _ Hn); set_solver).
  destruct IH as (I1 & I2 & I3 & I4); [done|set_solver|].
  rewrite workflow_edges_snoc. cbn [fst snd].
  assert (NoDup (wn_DependsOn n)) as Hnn by (apply Hdeps; set_solver).
  split_and!.
  - intros k. rewrite dom_insert, elem_of_union, elem_of_singleton, I1, fmap_app, elem_of_app.
    cbn [fmap list_fmap]. rewrite list_elem_of_singleton. tauto.
  - intros n' [Hn'| ->]%elem_of_snoc; rewrite map_count_insert.
    + rewrite decide_False; [by apply I2|]. intros Heq. apply Hn, list_elem_of_fmap. eauto.
    + by rewrite decide_True.
  - intros u. rewrite node_dependents_spec by done. case_decide; [|by rewrite app_nil_r].
    apply NoDup_app. split_and!; [done| |apply NoDup_singleton].
    intros v Hv ->%list_elem_of_singleton. apply I4, wf_edge_iff in Hv as (n' & Hn' & Heq & _).
    apply Hn, list_elem_of_fmap. eauto.
  - intros u v. rewrite node_dependents_spec by done. rewrite elem_of_app, I4, !wf_edge_iff. split.
    + intros [(n' & Hn' & ?)|Hv]; [exists n'; rewrite elem_of_snoc; tauto|].
      case_decide; [|set_solver]. apply list_elem_of_singleton in Hv as ->. exists n.
      rewrite elem_of_snoc. tauto.
    + intros (n' & [Hn'| ->]%elem_of_snoc & Hv & Hu); [left; eauto|].
      right. rewrite decide_True by done. by apply list_elem_of_singleton.
Qed.

(** ** The visit *)

Section visit.
Context (nodes : list WorkflowNode) (Hok : nodes_ok nodes).

Abbreviation ids := (list_to_set (wn_ID <$> nodes) : gset string).

Lemma wf_edge_dom u v : wf_edge nodes u v → u ∈ ids ∧ v ∈ ids.
Proof using Hok.
  intros (n & Hn & <- & Hu)%wf_edge_iff. rewrite !elem_of_list_to_set. split.
  - by apply (no_deps _ Hok n Hn).
  - apply list_elem_of_fmap. eauto.
Qed.

Lemma wf_indegree n :
  n ∈ nodes → indegree ids (wf_edge nodes) [] (wn_ID n) = Z.of_nat (length (wn_DependsOn n)).
Proof using Hok.
  intros Hn. unfold indegree. f_equal. destruct (no_deps _ Hok n Hn) as (Hnd & _ & _).
  rewrite <-(size_list_to_set (C := gset string)) by done. f_equal. apply set_eq. intros u.
  rewrite (elem_of_pending ids (wf_edge nodes) wf_edge_dom), elem_of_list_to_set, wf_edge_iff. split.
  - intros [(n' & Hn' & Heq & Hu) _]. apply (nodes_key nodes) in Heq as ->; [done|apply Hok|done..].
  - intros Hu. split; [by exists n|set_solver].
Qed.

Lemma last_take (l : list string) x : last l = Some x → l ≡ₚ x :: take (length l - 1) l.
Proof using Type.
  intros Hl. destruct (last_Some l x) as [[l' ->] _]; [done|].
  rewrite length_app. simpl. replace (length l' + 1 - 1)%nat with (length l') by lia.
  rewrite take_app_length. by rewrite Permutation_app_comm.
Qed.

Lemma workflow_visit_spec fuel dependents indegrees ready ordered :
  (∀ u, NoDup (dependents_of dependents u)) →
  (∀ u v, v ∈ dependents_of dependents u ↔ wf_edge nodes u v) →
  topo_inv ids (wf_edge nodes) indegrees ready ordered →
  (size ids ≤ fuel + length ordered)%nat →
  ∃ indegrees' ordered',
    workflow_visit fuel dependents indegrees ready (Z.of_nat (length ordered)) = Some (Z.of_nat (length ordered')) ∧
    topo_inv ids (wf_edge nodes) indegrees' [] ordered'.
Proof using Hok.
  intros Hnd Hdep. revert indegrees ready ordered.
  induction fuel as [|fuel IH]; intros indegrees ready ordered Hinv Hfuel; cbn [workflow_visit];
    destruct (last ready) as [id|] eqn:Hl.
  2,4: apply last_None in Hl as ->; eauto.
  - pose proof (topo_inv_length _ _ wf_edge_dom _ _ _ Hinv) as Hlen.
    apply last_take in Hl. rewrite Hl in Hlen. simpl in *. lia.
  - apply last_take in Hl. set (rest := take (length ready - 1) ready) in *.
    apply (topo_inv_perm _ _ wf_edge_dom _ _ (id :: rest)) in Hinv; [|by rewrite <-Hl].
    pose proof (topo_inv_step _ _ wf_edge_dom indegrees id rest ordered (dependents_of dependents id)
      Hinv (Hnd id) (Hdep id)) as Hinv'.
    destruct (relax (dependents_of dependents id) indegrees rest) as [indegrees' ready'].
    destruct (IH indegrees' ready' (ordered ++ [id]) Hinv') as (i2 & o2 & Heq & Hi2).
    { rewrite length_app. simpl. lia. }
    exists i2, o2. split; [|done]. rewrite <-Heq, length_app. f_equal. simpl. lia.
Qed.

Lemma workflow_acyclic_spec `{!MapOrder} name :
  (acyclic (wf_edge nodes) ∧ workflow_acyclic name nodes = Ok tt) ∨
  (¬ acyclic (wf_edge nodes) ∧ workflow_acyclic name nodes = Err (workflow_cycle name)).
Proof using Hok.
  destruct (workflow_edges_spec nodes) as (Hd & Hc & Hnd & Hdep);
    [apply Hok|intros n Hn; by apply (no_deps _ Hok)|].
  unfold workflow_acyclic. destruct (workflow_edges nodes) as [indegrees dependents]. cbn [fst snd] in *.
  set (ready := (filter (λ entry, entry.2 = 0) (range_map 0 indegrees)).*1).
  assert (topo_inv ids (wf_edge nodes) indegrees ready []) as Hinv.
  { apply topo_inv_init; [apply wf_edge_dom|..].
    - intros v. rewrite elem_of_list_to_set. intros (n & -> & Hn)%list_elem_of_fmap.
      by rewrite Hc, wf_indegree.
    - unfold ready. apply (sublist_NoDup _ (range_map 0 indegrees).*1); [apply NoDup_range_map|].
      apply fmap_sublist, sublist_filter.
    - intros v. unfold ready. rewrite elem_of_list_to_set, <-Hd, list_elem_of_fmap, elem_of_dom.
      unfold map_count. split.
      + intros ([k x] & -> & [Hx Hk%elem_of_range_map]%list_elem_of_filter). simpl in *. by rewrite Hk.
      + intros [[x Hx] Hz]. exists (v, x). split; [done|]. rewrite list_elem_of_filter, elem_of_range_map.
        rewrite Hx in Hz. done. }
  assert (size ids = length nodes) as Hsize.
  { rewrite size_list_to_set by apply Hok. apply length_fmap. }
  destruct (workflow_visit_spec (length nodes) dependents indegrees ready []) as (i2 & o2 & Heq & Hi2);
    [done..|simpl; lia|].
  change (Z.of_nat (length [])) with 0 in Heq. cbv zeta. fold ready. rewrite Heq. pose proof (topo_inv_final _ _ wf_edge_dom _ _ Hi2) as Hfin. rewrite Hsize in Hfin.
  destruct (Z.eqb_spec (Z.of_nat (length o2)) (Z.of_nat (length nodes))) as [He|He]; simpl.
  - left. split; [|done]. apply Hfin. lia.
  - right. split; [|done]. intros Ha%Hfin. lia.
Qed.
End visit.

(** ** What is accepted *)

(** The agent request of a workflow node. *)
Record node_agent_ok (request : AgentRequest) : Prop := {
  na_agent : valid_name (ar_Agent request);
  na_prompt : TrimSpace (ar_Prompt request) ≠ "";
  na_mode : ar_Mode request ∈ [""; AgentSessionNew; AgentSessionFork; AgentSessionResume];
  na_resume : ar_Mode request = AgentSessionResume → ar_SessionID request ≠ "";
  na_key : ar_IdempotencyKey request = "" ∨ valid_name (ar_IdempotencyKey request);
  na_owned : ar_Group request = "" ∧ ar_Dependencies request = [] ∧ ar_Ordinal request = 0;
}.

(** All that validation asks for but the absence of cycles. *)
Record workflow_wf (request : WorkflowRequest) : Prop := {
  ww_name : valid_name (wr_Name request);
  ww_key : wr_IdempotencyKey request = "" ∨ valid_name (wr_IdempotencyKey request);
  ww_nonempty : wr_Nodes request ≠ [];
  ww_concurrency : 0 ≤ wr_MaxConcurrency request;
  ww_names : Forall valid_name (wn_ID <$> wr_Nodes request);
  ww_agents : Forall (λ n, node_agent_ok (wn_Agent n)) (wr_Nodes request);
  ww_nodes : nodes_ok (wr_Nodes request);
}.

Lemma try_Ok {B} (m : result unit) (k : result B) b :
  (try? m; k) = Ok b ↔ m = Ok tt ∧ k = Ok b.
Proof. destruct m as [[]|e]; simpl; naive_solver. Qed.

Lemma optional_name kind name :
  (if negb (is_empty name) then ValidateResourceName kind name else Ok tt) = Ok tt ↔
  name = "" ∨ valid_name name.
Proof.
  destruct (is_empty name) eqn:E; gobool; simpl; [tauto|]. rewrite ValidateResourceName_Ok. tauto.
Qed.

Lemma validateAgentRequest_Ok request agent :
  validateAgentRequest request = Ok agent ↔
  agent = (if is_empty (ar_Mode request) then with_mode request AgentSessionNew else request) ∧
  valid_name (ar_Agent request) ∧ TrimSpace (ar_Prompt request) ≠ "" ∧
  ar_Mode request ∈ [""; AgentSessionNew; AgentSessionFork; AgentSessionResume] ∧
  (ar_Mode request = AgentSessionResume → ar_SessionID request ≠ "") ∧
  (ar_IdempotencyKey request = "" ∨ valid_name (ar_IdempotencyKey request)).
Proof.
  unfold validateAgentRequest. rewrite try_Ok, ValidateResourceName_Ok.
  set (normal := if is_empty (ar_Mode request) then with_mode request AgentSessionNew else request).
  assert (ar_IdempotencyKey normal = ar_IdempotencyKey request ∧ ar_SessionID normal = ar_SessionID request ∧
    ar_Mode normal = string_default (ar_Mode request) AgentSessionNew) as (Hk & Hs & Hm).
  { unfold normal, string_default, is_empty. by destruct (String.eqb _ _). }
  destruct (is_empty (TrimSpace (ar_Prompt request))) eqn:E; gobool.
  { split; [by intros [_ [=]]|]. tauto. }
  rewrite Hs, Hm, !elem_of_cons, elem_of_nil. unfold string_default. clearbody normal.
  destruct (String.eqb_spec (ar_Mode request) "") as [He|He].
  - rewrite He. simpl. rewrite try_Ok, optional_name, Hk. naive_solver.
  - destruct (String.eqb_spec (ar_Mode request) AgentSessionResume) as [Hr|Hr].
    + destruct (is_empty (ar_SessionID request)) eqn:Hse; gobool; simpl.
      { split; [by intros [_ [=]]|]. tauto. }
      rewrite !orb_true_r. simpl. rewrite try_Ok, optional_name, Hk. naive_solver.
    + simpl. destruct (String.eqb_spec (ar_Mode request) AgentSessionNew),
        (String.eqb_spec (ar_Mode request) AgentSessionFork); simpl;
        try (split; [by intros [_ [=]]|tauto]);
        rewrite try_Ok, optional_name, Hk; naive_solver.
Qed.

Lemma node_agent_iff n :
  (∃ agent, validateAgentRequest (wn_Agent n) = Ok agent ∧
     validateWorkflowNodeAgentRequest (with_agent n agent) = Ok tt) ↔ node_agent_ok (wn_Agent n).
Proof.
  assert (∀ agent, ar_Group agent = ar_Group (wn_Agent n) → ar_Dependencies agent = ar_Dependencies (wn_Agent n) →
    ar_Ordinal agent = ar_Ordinal (wn_Agent n) →
    validateWorkflowNodeAgentRequest (with_agent n agent) = Ok tt ↔
    ar_Group (wn_Agent n) = "" ∧ ar_Dependencies (wn_Agent n) = [] ∧ ar_Ordinal (wn_Agent n) = 0) as Hown.
  { intros agent Hg Hd Ho. unfold validateWorkflowNodeAgentRequest. simpl. rewrite Hg, Hd, Ho.
    destruct (is_empty (ar_Group (wn_Agent n))) eqn:E1; gobool; simpl; [|naive_solver].
    destruct (ar_Dependencies (wn_Agent n)) as [|d ds] eqn:E2; simpl; [|naive_solver].
    destruct (Z.eqb_spec (ar_Ordinal (wn_Agent n)) 0); simpl; naive_solver. }
  setoid_rewrite validateAgentRequest_Ok. split.
  - intros (agent & (-> & ? & ? & ? & ? & ?) & Hw).
    apply Hown in Hw; [by split|by case_match..].
  - intros []. eexists. split; [by split_and!|]. apply Hown; [by case_match..|done].
Qed.

Lemma nodes_ok_ext nodes nodes' :
  Forall2 (λ n n', wn_ID n' = wn_ID n ∧ wn_DependsOn n' = wn_DependsOn n) nodes nodes' →
  wn_ID <$> nodes' = wn_ID <$> nodes ∧ (nodes_ok nodes' ↔ nodes_ok nodes) ∧
  (∀ u v, wf_edge nodes' u v ↔ wf_edge nodes u v).
Proof.
  intros Hf. assert (wn_ID <$> nodes' = wn_ID <$> nodes) as Hids.
  { clear -Hf. induction Hf as [|n n' l l' [H1 _] _ IH]; [done|]. rewrite !fmap_cons. by f_equal. }
  assert (∀ (Q : string → list string → Prop),
    (∀ n, n ∈ nodes' → Q (wn_ID n) (wn_DependsOn n)) ↔ (∀ n, n ∈ nodes → Q (wn_ID n) (wn_DependsOn n))) as HQ.
  { intros Q. clear Hids. rewrite <-!list.Forall_forall.
    induction Hf as [|n n' l l' [H1 H2] _ IH]; [done|]. by rewrite !list.Forall_cons, H1, H2, IH. }
  split_and!; [done| |].
  - split; intros [H1 H2]; split.
    + by rewrite <-Hids.
    + apply (HQ (λ id ds, NoDup ds ∧ id ∉ ds ∧ ∀ d, d ∈ ds → d ∈ wn_ID <$> nodes)). by rewrite <-Hids.
    + by rewrite Hids.
    + apply (HQ (λ id ds, NoDup ds ∧ id ∉ ds ∧ ∀ d, d ∈ ds → d ∈ wn_ID <$> nodes')). by rewrite Hids.
  - intros u v. unfold wf_edge. clear HQ Hids.
    induction Hf as [|n n' l l' [H1 H2] _ IH]; [by rewrite !List.Exists_nil|].
    by rewrite !List.Exists_cons, H1, H2, IH.
Qed.

Section outcome.
Context `{!MapOrder} (request : WorkflowRequest).

Lemma validate_wf :
  workflow_wf request →
  ∃ nodes seen, workflow_nodes (wr_Name request) ∅ (wr_Nodes request) = Ok (nodes, seen) ∧
    Forall2 (λ n n', wn_ID n' = wn_ID n ∧ wn_DependsOn n' = wn_DependsOn n) (wr_Nodes request) nodes ∧
    validateWorkflowRequest request =
      (try? workflow_acyclic (wr_Name request) nodes; Ok (with_nodes request nodes)).
Proof using Type.
  intros [Hn Hk Hne Hc Hnames Hagents [Hids Hdeps]]. unfold validateWorkflowRequest.
  destruct (workflow_nodes_complete (wr_Name request) ∅ (wr_Nodes request)) as [[nodes seen] Heq];
    [done|done|set_solver| |].
  { eapply list.Forall_impl; [exact Hagents|]. intros n. by rewrite <-node_agent_iff. }
  apply workflow_nodes_Ok in Heq as Hinv. destruct Hinv as (Hf & _ & _ & _ & Hseen).
  assert (Forall2 (λ n n', wn_ID n' = wn_ID n ∧ wn_DependsOn n' = wn_DependsOn n) (wr_Nodes request) nodes) as Hf'.
  { eapply Forall2_impl; [exact Hf|]. intros n n' (agent & _ & -> & _). done. }
  exists nodes, seen. split_and!; [done|done|].
  rewrite (proj2 (ValidateResourceName_Ok _ _ tt) Hn). simpl. rewrite (proj2 (optional_name _ _) Hk). simpl.
  assert ((length (wr_Nodes request) =? 0)%nat = false) as -> by (by destruct (wr_Nodes request)).
  destruct (Z.ltb_spec (wr_MaxConcurrency request) 0); [lia|]. rewrite Heq. simpl.
  replace (workflow_dependencies seen nodes) with (Ok tt : result unit); [done|]. symmetry.
  apply workflow_dependencies_Ok. intros n Hn'.
  apply (nodes_ok_ext _ _) in Hf' as (Hids' & Hiff & _).
  destruct (proj2 Hiff) as [_ Hd']; [by split|]. destruct (Hd' n Hn') as (? & ? & Hin).
  split_and!; [done| |done]. intros d Hd. rewrite Hseen. rewrite Hids' in Hin.
  apply Hin in Hd. set_solver.
Qed.

Lemma validate_Ok_wf r : validateWorkflowRequest request = Ok r → workflow_wf request.
Proof using Type.
  unfold validateWorkflowRequest. intros Hv.
  apply bind_Ok in Hv as ([] & Hn & Hv). apply ValidateResourceName_Ok in Hn.
  apply bind_Ok in Hv as ([] & Hk & Hv). apply optional_name in Hk.
  destruct (length (wr_Nodes request) =? 0)%nat eqn:Hl; [done|].
  destruct (Z.ltb_spec (wr_MaxConcurrency request) 0) as [|Hc]; [done|].
  apply bind_Ok in Hv as ([nodes seen] & Hnodes & Hv). apply bind_Ok in Hv as ([] & Hd & Hv).
  apply workflow_nodes_Ok in Hnodes as (Hf & Hnames & Hnd & _ & ->).
  assert (Forall2 (λ n n', wn_ID n' = wn_ID n ∧ wn_DependsOn n' = wn_DependsOn n) (wr_Nodes request) nodes) as Hf'.
  { eapply Forall2_impl; [exact Hf|]. intros n n' (agent & _ & -> & _). done. }
  apply nodes_ok_ext in Hf' as (Hids & Hiff & _).
  split; [done|done| |done|done| |].
  - intros He. by rewrite He in Hl.
  - clear -Hf. induction Hf as [|n n' l l' (agent & H1 & -> & H2) _ IH]; constructor; [|done].
    apply node_agent_iff. eauto.
  - apply Hiff. split; [by rewrite Hids|]. intros n Hn'. rewrite workflow_dependencies_Ok in Hd.
    destruct (Hd n Hn') as (? & Hin & ?). split_and!; [done|done|]. intros d Hdd%Hin. rewrite Hids.
    rewrite elem_of_union, elem_of_list_to_set in Hdd. set_solver.
Qed.

(** Workflow validation accepts exactly the well-formed acyclic requests: valid names, distinct
    nodes, dependencies that are other nodes of the workflow named once, agent requests that leave
    scheduling to the workflow, and no dependency cycle.  A request that is well-formed but cyclic
    is refused with the cycle error; the visit always ends, and the verdict does not depend on Go's
    map order. *)
Theorem workflow_validation_exact :
  ((∃ r, validateWorkflowRequest request = Ok r) ↔
     workflow_wf request ∧ acyclic (wf_edge (wr_Nodes request))) ∧
  (workflow_wf request ∧ ¬ acyclic (wf_edge (wr_Nodes request)) →
     validateWorkflowRequest request = Err (workflow_cycle (wr_Name request))).
Proof using Type.
  assert (workflow_wf request →
    (acyclic (wf_edge (wr_Nodes request)) ∧ ∃ r, validateWorkflowRequest request = Ok r) ∨
    (¬ acyclic (wf_edge (wr_Nodes request)) ∧
     validateWorkflowRequest request = Err (workflow_cycle (wr_Name request)))) as Hcases.
  { intros Hwf. destruct (validate_wf Hwf) as (nodes & seen & _ & Hf & ->).
    apply nodes_ok_ext in Hf as (_ & Hiff & Hedge).
    pose proof (acyclic_ext _ _ Hedge) as Hac.
    destruct (workflow_acyclic_spec nodes (proj2 Hiff (ww_nodes _ Hwf)) (wr_Name request)) as [[Ha ->]|[Ha ->]];
      simpl; [left|right]; rewrite <-Hac; eauto. }
  split; [split|].
  - intros [r Hr]. assert (workflow_wf request) as Hwf by (by eapply validate_Ok_wf).
    split; [done|]. destruct (Hcases Hwf) as [[? _]|[_ ?]]; [done|congruence].
  - intros [Hwf Ha]. destruct (Hcases Hwf) as [[_ ?]|[? _]]; [done|tauto].
  - intros [Hwf Ha]. destruct (Hcases Hwf) as [[? _]|[_ ?]]; [tauto|done].
Qed.
End outcome.
