(* ===== verification/WorkflowRun.v ===== *)
(** How the scheduler runs an accepted workflow: every node once, after its dependencies and with
    their results, until all are done or a wave fails. *)

From S2P Require Import Prelude GoText Names Invocation Message ContextInjection TopoSort.
From S2P Require Import Agent Workflow WorkflowProperties.

(** ** The position of a node *)

Lemma workflow_index_out i nodes index k :
  k ∉ wn_ID <$> nodes → workflow_index i nodes index !! k = index !! k.
Proof.
  revert i index. induction nodes as [|n nodes IH]; intros i index Hk; [done|].
  rewrite fmap_cons, not_elem_of_cons in Hk. cbn [workflow_index]. rewrite IH by tauto.
  by rewrite lookup_insert_ne by naive_solver.
Qed.

Lemma workflow_index_in i nodes index k n :
  NoDup (wn_ID <$> nodes) → nodes !! k = Some n →
  workflow_index i nodes index !! wn_ID n = Some (i + k)%nat.
Proof.
  revert i index k. induction nodes as [|n' nodes IH]; intros i index k Hnd Hk; [done|].
  rewrite fmap_cons, list.NoDup_cons in Hnd. destruct Hnd as [Hn Hnd]. cbn [workflow_index].
  destruct k as [|k]; simpl in Hk.
  - injection Hk as ->. rewrite workflow_index_out by done. rewrite lookup_insert_eq. f_equal. lia.
  - rewrite (IH _ _ k) by done. f_equal. lia.
Qed.

Section run.
Context (name invocationID : string) (nodes : list WorkflowNode).
Context (Hok : nodes_ok nodes) (Hacyclic : acyclic (wf_edge nodes)).

Abbreviation index := (workflow_index 0 nodes ∅).
Abbreviation count := (length nodes).

Lemma index_node i n : nodes !! i = Some n → index_of index (wn_ID n) = i.
Proof using Hok.
  intros Hi. unfold index_of. rewrite (workflow_index_in 0 nodes ∅ i n) by (done || apply Hok). done.
Qed.

Lemma dependency_index n d :
  n ∈ nodes → d ∈ wn_DependsOn n → ∃ j m, nodes !! j = Some m ∧ wn_ID m = d ∧ index_of index d = j.
Proof using Hok.
  intros Hn Hd. destruct (no_deps _ Hok n Hn) as (_ & _ & Hin).
  apply Hin, list_elem_of_fmap in Hd as (m & -> & Hm).
  apply list_elem_of_lookup in Hm as [j Hj]. exists j, m. by rewrite (index_node j m Hj).
Qed.

(** ** The ready nodes *)

Lemma elem_of_ready_nodes completed i0 l i :
  i ∈ ready_nodes index completed i0 l ↔
  ∃ k n, i = (i0 + k)%nat ∧ l !! k = Some n ∧ completed_at completed i = false ∧ node_ready index completed n = true.
Proof using Type.
  revert i0. induction l as [|n l IH]; intros i0; cbn [ready_nodes].
  - rewrite elem_of_nil. split; [done|]. by intros (k & n & _ & Hk & _).
  - assert (i ∈ ready_nodes index completed (S i0) l ↔
      ∃ k m, i = (i0 + k)%nat ∧ (∃ k', k = S k' ∧ l !! k' = Some m) ∧ completed_at completed i = false ∧
        node_ready index completed m = true) as Hrec.
    { rewrite IH. split.
      - intros (k & m & -> & Hk & Hc & Hr). exists (S k), m. split_and!; [lia|eauto|done|done].
      - intros (k & m & -> & (k' & -> & Hk) & Hc & Hr). exists k', m. split_and!; [lia|done|done|done]. }
    assert ((∃ k m, i = (i0 + k)%nat ∧ (n :: l) !! k = Some m ∧ completed_at completed i = false ∧
        node_ready index completed m = true) ↔
      (i = i0 ∧ completed_at completed i0 = false ∧ node_ready index completed n = true) ∨
      i ∈ ready_nodes index completed (S i0) l) as ->.
    { rewrite Hrec. split.
      - intros ([|k] & m & -> & Hk & Hc & Hr); simpl in Hk.
        + injection Hk as ->. left. rewrite Nat.add_0_r in *. done.
        + right. exists (S k), m. split_and!; [done|eauto|done|done].
      - intros [(-> & Hc & Hr)|(k & m & -> & (k' & -> & Hk) & Hc & Hr)].
        + exists O, n. rewrite Nat.add_0_r. done.
        + exists (S k'), m. done. }
    destruct (completed_at completed i0) eqn:Hc; [naive_solver|].
    destruct (node_ready index completed n) eqn:Hr; [rewrite elem_of_cons|]; naive_solver.
Qed.

Lemma NoDup_ready_nodes completed i0 l : NoDup (ready_nodes index completed i0 l).
Proof using Type.
  revert i0. induction l as [|n l IH]; intros i0; cbn [ready_nodes]; [constructor|].
  destruct (completed_at completed i0); [apply IH|]. destruct (node_ready index completed n); [|apply IH].
  constructor; [|apply IH]. rewrite elem_of_ready_nodes. intros (k & m & ? & _). lia.
Qed.

Lemma node_ready_iff completed n :
  node_ready index completed n = true ↔
  ∀ d, d ∈ wn_DependsOn n → completed_at completed (index_of index d) = true.
Proof using Type.
  clear Hok Hacyclic. unfold node_ready. induction (wn_DependsOn n) as [|d ds IH]; simpl; [set_solver|].
  rewrite andb_true_iff, IH. set_solver.
Qed.

(** While a node is missing, some node is ready: the dependencies have no cycle. *)
Lemma some_ready completed i :
  (i < count)%nat → completed_at completed i = false → ready_nodes index completed 0 nodes ≠ [].
Proof using Hok Hacyclic.
  intros Hi Hc Hnil.
  set (missing := list_to_set (wn_ID <$> filter (λ n, completed_at completed (index_of index (wn_ID n)) = false) nodes)
       : gset string).
  assert (∀ j n, nodes !! j = Some n → completed_at completed j = false → wn_ID n ∈ missing) as Hin.
  { intros j n Hj Hcj. unfold missing. rewrite elem_of_list_to_set, list_elem_of_fmap. exists n.
    split; [done|]. rewrite list_elem_of_filter, (index_node j n Hj). split; [done|].
    by eapply list_elem_of_lookup_2. }
  destruct (lookup_lt_is_Some_2 nodes i Hi) as [n0 Hn0].
  refine (backward_cycle _ (wf_edge nodes) (wf_edge_dom nodes Hok) missing (wn_ID n0) (Hin _ _ Hn0 Hc) _ Hacyclic).
  intros v Hv. unfold missing in Hv. rewrite elem_of_list_to_set, list_elem_of_fmap in Hv.
  destruct Hv as (n & -> & [Hcn Hn]%list_elem_of_filter).
  destruct (decide (Exists (λ d, completed_at completed (index_of index d) = false) (wn_DependsOn n))) as [Hex|Hall].
  - apply list.Exists_exists in Hex as (d & Hd & Hcd).
    destruct (dependency_index n d Hn Hd) as (j & m & Hj & <- & Hidx). exists (wn_ID m). split.
    + apply (Hin j); [done|]. by rewrite <-Hidx.
    + apply wf_edge_iff. eauto.
  - exfalso. apply list_elem_of_lookup in Hn as [j Hj].
    assert (j ∈ ready_nodes index completed 0 nodes) as Hr; [|rewrite Hnil in Hr; set_solver].
    apply elem_of_ready_nodes. exists j, n. split_and!; [done|done| |].
    + by rewrite <-(index_node j n Hj).
    + apply node_ready_iff. intros d Hd. destruct (completed_at completed (index_of index d)) eqn:E; [done|].
      exfalso. apply Hall, list.Exists_exists. eauto.
Qed.

(** ** One wave *)

(** The errors of the nodes of a wave that failed. *)
Definition wave_errors (wave : list nat) (outcomes : list (result AgentResult)) : list error :=
  omap (λ '(i, outcome), match outcome with Ok _ => None | Err e => Some (node_error (node_at nodes i) e) end)
    (zip wave outcomes).

Lemma settle_wave_errors ready outcomes state errs :
  length outcomes = length ready →
  (settle_wave nodes ready outcomes state errs).2 = errs ++ wave_errors ready outcomes.
Proof using Type.
  revert outcomes state errs. induction ready as [|i ready IH]; intros [|o outcomes] state errs Hl; simpl in Hl;
    try lia; cbn [settle_wave]; [by rewrite app_nil_r|]. unfold wave_errors. simpl.
  destruct o as [r|e]; simpl; rewrite IH by lia; [done|]. by rewrite <-app_assoc.
Qed.

Lemma settle_wave_ok ready outcomes state errs :
  NoDup ready → length outcomes = length ready → wave_errors ready outcomes = [] →
  (∀ i, i ∈ ready → (i < length (ws_results state))%nat ∧ (i < length (ws_completed state))%nat) →
  let state' := (settle_wave nodes ready outcomes state errs).1 in
  length (ws_results state') = length (ws_results state) ∧
  length (ws_completed state') = length (ws_completed state) ∧
  ws_remaining state' = ws_remaining state - Z.of_nat (length ready) ∧
  (∀ i, i ∉ ready → ws_results state' !! i = ws_results state !! i ∧
                    ws_completed state' !! i = ws_completed state !! i) ∧
  (∀ k i, ready !! k = Some i → ws_completed state' !! i = Some true ∧
     ∃ r, outcomes !! k = Some (Ok r) ∧
       ws_results state' !! i = Some {| nr_ID := wn_ID (node_at nodes i); nr_Result := r |}).
Proof using Type.
  revert outcomes state errs. induction ready as [|i ready IH]; intros [|o outcomes] state errs Hnd Hl He Hin;
    simpl in Hl; try lia; cbn [settle_wave].
  { simpl. split_and!; [done|done|lia|done|done]. }
  apply list.NoDup_cons in Hnd as [Hi Hnd]. unfold wave_errors in He. simpl in He.
  destruct o as [r|e]; [|done]. simpl in He.
  destruct (Hin i) as [Hi1 Hi2]; [left|].
  set (state1 := {| ws_results := <[i := _]> (ws_results state); ws_completed := _; ws_remaining := _ |}).
  specialize (IH outcomes state1 errs Hnd ltac:(lia) He).
  destruct IH as (H1 & H2 & H3 & H4 & H5).
  { intros j Hj. simpl. rewrite !length_insert. apply Hin. by right. }
  simpl in *. rewrite length_insert in H1. rewrite length_insert in H2. split_and!; [done|done|lia|..].
  - intros j Hj. rewrite not_elem_of_cons in Hj. destruct (H4 j) as [-> ->]; [tauto|].
    rewrite !list_lookup_insert_ne by naive_solver. done.
  - intros [|k] j Hk; simpl in Hk.
    + injection Hk as ->. destruct (H4 j Hi) as [-> ->].
      rewrite !list_lookup_insert_eq by done. split; [done|]. by exists r.
    + by apply H5.
Qed.

(** ** The waves *)

Context (run_wave : Z → list (nat * AgentRequest) → list (result AgentResult)).
Context (Hrun : ∀ wave requests, length (run_wave wave requests) = length requests).

Abbreviation wave_log := (list (list (nat * AgentRequest))) (only parsing).

(** Node [i] ran in wave [w] of the log and returned [r]. *)
Definition ran (log : wave_log) (w i : nat) (r : AgentResult) : Prop :=
  ∃ wave k request, log !! w = Some wave ∧ wave !! k = Some (i, request) ∧
    run_wave (Z.of_nat w) wave !! k = Some (Ok r).

(** Each node runs at most once, as a request of its own agent in the group of its wave, and only
    after each of its dependencies returned in an earlier wave; the request carries the invocations
    of those dependencies, in the order the node names them. *)
Record scheduled (log : wave_log) : Prop := {
  sd_once : NoDup (concat log).*1;
  sd_request w wave i request : log !! w = Some wave → (i, request) ∈ wave →
    ∃ node, nodes !! i = Some node ∧
      ar_Agent request = ar_Agent (wn_Agent node) ∧
      ar_Group request = (invocationID ++ "-wave-" ++ decimal (Z.of_nat w))%string ∧
      Forall2 (λ d id, ∃ w' j m r, (w' < w)%nat ∧ nodes !! j = Some m ∧ wn_ID m = d ∧
                 ran log w' j r ∧ id = rs_InvocationID r)
        (wn_DependsOn node) (ar_Dependencies request);
}.

Record run_inv (log : wave_log) (state : wave_state) : Prop := {
  ri_results : length (ws_results state) = count;
  ri_completed : length (ws_completed state) = count;
  ri_remaining : ws_remaining state = Z.of_nat (length (filter (λ b, b = false) (ws_completed state)));
  ri_done i : completed_at (ws_completed state) i = true ↔ i ∈ (concat log).*1;
  ri_value i : completed_at (ws_completed state) i = true →
    ∃ w node r, ran log w i r ∧ nodes !! i = Some node ∧
      ws_results state !! i = Some {| nr_ID := wn_ID node; nr_Result := r |};
  ri_scheduled : scheduled log;
}.

Lemma ran_app log log' w i r : ran log w i r → ran (log ++ log') w i r.
Proof using Type.
  intros (wave & k & request & Hw & Hk & Hr). exists wave, k, request.
  split_and!; [|done|done]. by apply lookup_app_l_Some.
Qed.

Lemma ran_lt log w i r : ran log w i r → (w < length log)%nat.
Proof using Type. intros (wave & k & request & Hw & _). by apply lookup_lt_Some in Hw. Qed.

Lemma count_false_insert (l : list bool) (set : list nat) l' :
  length l' = length l → NoDup set →
  (∀ i, i ∈ set → l !! i = Some false ∧ l' !! i = Some true) → (∀ i, i ∉ set → l' !! i = l !! i) →
  (length (filter (λ b, b = false) l) = length (filter (λ b, b = false) l') + length set)%nat.
Proof using Type.
  clear. revert l. induction set as [|i set IH]; intros l Hl Hnd Hin Hout.
  - assert (l' = l) as ->; [|simpl; lia]. apply list_eq. intros i. apply Hout. set_solver.
  - apply list.NoDup_cons in Hnd as [Hi Hnd]. destruct (Hin i) as [Hf Ht]; [left|].
    assert (length (filter (λ b, b = false) l) = S (length (filter (λ b, b = false) (<[i := true]> l)))) as ->.
    { apply list_elem_of_split_length in Hf as (l1 & l2 & -> & ->).
      rewrite insert_app_r_alt, Nat.sub_diag by lia. simpl.
      rewrite !filter_app, !length_app, !filter_cons. simpl. lia. }
    rewrite (IH (<[i := true]> l)); [simpl; lia|..].
    + by rewrite length_insert.
    + done.
    + intros j Hj. assert (j ≠ i) by set_solver. rewrite list_lookup_insert_ne by done.
      apply Hin. by right.
    + intros j Hj. destruct (decide (j = i)) as [->|Hne].
      * rewrite list_lookup_insert_eq; [done|]. by eapply lookup_lt_Some.
      * rewrite list_lookup_insert_ne by done. apply Hout. set_solver.
Qed.

Lemma run_inv_init :
  run_inv [] {| ws_results := replicate count zeroNodeResult; ws_completed := replicate count false;
                ws_remaining := Z.of_nat count |}.
Proof using Hok Hacyclic Hrun.
  assert (∀ i, completed_at (replicate count false) i = false) as Hf.
  { intros i. unfold completed_at. destruct (replicate count false !! i) as [b|] eqn:E; [|done].
    by apply lookup_replicate in E as [-> _]. }
  split; simpl.
  - by rewrite length_replicate.
  - by rewrite length_replicate.
  - clear. induction nodes as [|n l IH]; [done|]. cbn [length replicate]. rewrite filter_cons_True by done. simpl. lia.
  - intros i. rewrite Hf. set_solver.
  - intros i. by rewrite Hf.
  - split; [constructor|done].
Qed.

Lemma node_at_lookup i node : nodes !! i = Some node → node_at nodes i = node.
Proof using Type. intros Hi. unfold node_at. by rewrite Hi. Qed.

(** The ready nodes are missing nodes of the workflow whose dependencies are done. *)
Lemma ready_spec completed i :
  i ∈ ready_nodes index completed 0 nodes →
  ∃ node, nodes !! i = Some node ∧ completed_at completed i = false ∧
    ∀ d, d ∈ wn_DependsOn node → completed_at completed (index_of index d) = true.
Proof using Type.
  rewrite elem_of_ready_nodes. intros (k & n & -> & Hk & Hc & Hr). exists n.
  split_and!; [done|done|]. by apply node_ready_iff.
Qed.

Definition requests_of (state : wave_state) (wave : Z) : list (nat * AgentRequest) :=
  (λ i, (i, wave_request invocationID wave index (ws_results state) i (node_at nodes i)))
    <$> ready_nodes index (ws_completed state) 0 nodes.

Lemma requests_of_fst state wave :
  (requests_of state wave).*1 = ready_nodes index (ws_completed state) 0 nodes.
Proof using Type.
  unfold requests_of. rewrite <-list_fmap_compose. rewrite <-(list_fmap_id (ready_nodes _ _ _ _)) at 2.
  by apply list_fmap_ext.
Qed.

(** The requests of the next wave keep the log well-scheduled. *)
Lemma scheduled_snoc log state :
  run_inv log state → scheduled (log ++ [requests_of state (Z.of_nat (length log))]).
Proof using Hok.
  intros Hinv. destruct (ri_scheduled _ _ Hinv) as [Honce Hreq]. split.
  - rewrite concat_app, fmap_app. cbn [concat]. rewrite app_nil_r, requests_of_fst.
    apply NoDup_app. split_and!; [done| |apply NoDup_ready_nodes].
    intros i Hi (node & _ & Hc & _)%ready_spec. apply (ri_done _ _ Hinv) in Hi. congruence.
  - intros w wave i request Hw Hi. apply lookup_snoc_Some in Hw as [[Hlt Hw]|[-> <-]].
    + destruct (Hreq w wave i request Hw Hi) as (node & Hn & Ha & Hg & Hf). exists node.
      split_and!; [done|done|done|]. eapply Forall2_impl; [exact Hf|].
      intros d id (w' & j & m & r & ? & ? & ? & Hr & ?). exists w', j, m, r. split_and!; try done. by apply ran_app.
    + unfold requests_of in Hi. apply list_elem_of_fmap in Hi as (i' & [= -> ->] & Hi).
      destruct (ready_spec _ _ Hi) as (node & Hn & Hc & Hd). exists node.
      rewrite (node_at_lookup _ _ Hn). split_and!; [done|done|done|]. simpl.
      apply Forall2_fmap_r. apply Forall_Forall2_diag, list.Forall_forall. intros d Hdd.
      assert (node ∈ nodes) as Hnn by (by eapply list_elem_of_lookup_2).
      destruct (dependency_index node d Hnn Hdd) as (j & m & Hj & Hid & Hidx).
      pose proof (Hd d Hdd) as Hcd. rewrite Hidx in Hcd.
      destruct (ri_value _ _ Hinv j Hcd) as (w & m' & r & Hr & Hm' & Hres).
      exists w, j, m, r. split_and!; [by eapply ran_lt|done|done|by apply ran_app|].
      simpl. unfold result_at. by rewrite Hidx, Hres.
Qed.

(** A wave in which every node succeeds. *)
Lemma run_inv_step log state :
  run_inv log state →
  let requests := requests_of state (Z.of_nat (length log)) in
  let ready := ready_nodes index (ws_completed state) 0 nodes in
  let outcomes := run_wave (Z.of_nat (length log)) requests in
  wave_errors ready outcomes = [] →
  let state' := (settle_wave nodes ready outcomes state []).1 in
  run_inv (log ++ [requests]) state' ∧ ws_remaining state' = ws_remaining state - Z.of_nat (length ready).
Proof using Hok Hrun.
  intros Hinv requests ready outcomes Herr state'.
  assert (∀ i, i ∈ ready → ∃ node, nodes !! i = Some node ∧ completed_at (ws_completed state) i = false ∧
    (i < count)%nat) as Hready.
  { intros i Hi. destruct (ready_spec _ _ Hi) as (node & Hn & Hc & _). exists node.
    split_and!; [done|done|]. by eapply lookup_lt_Some. }
  destruct (settle_wave_ok ready outcomes state []) as (H1 & H2 & H3 & H4 & H5).
  { apply NoDup_ready_nodes. }
  { unfold outcomes, requests. by rewrite Hrun, <-(length_fmap fst), requests_of_fst. }
  { done. }
  { intros i Hi. destruct (Hready i Hi) as (_ & _ & _ & Hlt).
    rewrite (ri_results _ _ Hinv), (ri_completed _ _ Hinv). done. }
  fold state' in H1, H2, H3, H4, H5. split; [|done].
  assert (∀ i, i ∈ (concat (log ++ [requests])).*1 ↔ i ∈ (concat log).*1 ∨ i ∈ ready) as Hcat.
  { intros i. rewrite concat_app, fmap_app, elem_of_app. cbn [concat].
    rewrite app_nil_r. unfold requests. by rewrite requests_of_fst. }
  assert (∀ i, i ∈ ready → completed_at (ws_completed state') i = true) as Hdone.
  { intros i [k Hk]%list_elem_of_lookup. unfold completed_at. by destruct (H5 k i Hk) as [-> _]. }
  assert (∀ i, i ∉ ready → completed_at (ws_completed state') i = completed_at (ws_completed state) i) as Hsame.
  { intros i Hi. unfold completed_at. by destruct (H4 i Hi) as [_ ->]. }
  split.
  - by rewrite H1, (ri_results _ _ Hinv).
  - by rewrite H2, (ri_completed _ _ Hinv).
  - rewrite H3, (ri_remaining _ _ Hinv).
    rewrite (count_false_insert (ws_completed state) ready (ws_completed state')); [lia|done|apply NoDup_ready_nodes|..].
    + intros i Hi. destruct (Hready i Hi) as (node & _ & Hc & Hlt). split.
      * rewrite <-(ri_completed _ _ Hinv) in Hlt. apply lookup_lt_is_Some_2 in Hlt as [b Hb].
        unfold completed_at in Hc. rewrite Hb in Hc. simpl in Hc. by subst.
      * apply list_elem_of_lookup in Hi as [k Hk]. by destruct (H5 k i Hk).
    + intros i Hi. by destruct (H4 i Hi).
  - intros i. rewrite Hcat, <-(ri_done _ _ Hinv). destruct (decide (i ∈ ready)) as [Hi|Hi].
    + rewrite Hdone by done. tauto.
    + rewrite Hsame by done. tauto.
  - intros i Hc. destruct (decide (i ∈ ready)) as [Hi|Hi].
    + destruct (Hready i Hi) as (node & Hn & _ & _). apply list_elem_of_lookup in Hi as [k Hk].
      destruct (H5 k i Hk) as (_ & r & Hr & Hres). exists (length log), node, r.
      rewrite Hres, (node_at_lookup _ _ Hn). split_and!; [|done|done].
      assert (requests.*1 !! k = Some i) as Hq by (unfold requests; by rewrite requests_of_fst).
      apply list_lookup_fmap_Some_1 in Hq as ([i' q] & -> & Hq).
      exists requests, k, q. split_and!; [by apply list_lookup_middle|done|done].
    + rewrite Hsame in Hc by done. destruct (ri_value _ _ Hinv i Hc) as (w & node & r & Hr & Hn & Hres).
      exists w, node, r. destruct (H4 i Hi) as [-> _]. split_and!; [by apply ran_app|done|done].
  - by apply scheduled_snoc.
Qed.

(** What a finished run says about the waves it made. *)
Definition run_outcome (log : wave_log) (out : result WorkflowResult) : Prop :=
  match out with
  | Ok r =>
      wfr_InvocationID r = invocationID ∧ length (wfr_Nodes r) = count ∧
      ∀ i node, nodes !! i = Some node →
        ∃ w res, ran log w i res ∧ wfr_Nodes r !! i = Some {| nr_ID := wn_ID node; nr_Result := res |}
  | Err e =>
      ∃ before wave, log = before ++ [wave] ∧
        let errs := wave_errors wave.*1 (run_wave (Z.of_nat (length before)) wave) in
        errs ≠ [] ∧ e = Joined errs
  end.

(** Nothing remains exactly when every node is completed. *)
Lemma run_all_done log state i node :
  run_inv log state → ws_remaining state ≤ 0 → nodes !! i = Some node →
  completed_at (ws_completed state) i = true.
Proof using Type.
  intros Hinv Hrem Hi. rewrite (ri_remaining _ _ Hinv) in Hrem. unfold completed_at.
  destruct (ws_completed state !! i) as [[]|] eqn:Hb; [done|exfalso..].
  - assert (false ∈ filter (λ b, b = false) (ws_completed state)) as Hin.
    { apply list_elem_of_filter. split; [done|]. by eapply list_elem_of_lookup_2. }
    destruct (filter (λ b, b = false) (ws_completed state)); [by apply elem_of_nil in Hin|simpl in Hrem; lia].
  - apply lookup_ge_None in Hb. apply lookup_lt_Some in Hi. rewrite (ri_completed _ _ Hinv) in Hb. lia.
Qed.

Lemma run_some_missing log state :
  run_inv log state → 0 < ws_remaining state →
  ∃ i, (i < count)%nat ∧ completed_at (ws_completed state) i = false.
Proof using Type.
  intros Hinv Hrem. rewrite (ri_remaining _ _ Hinv) in Hrem.
  destruct (filter (λ b, b = false) (ws_completed state)) as [|b l] eqn:Hf; [simpl in Hrem; lia|].
  assert (b ∈ filter (λ b, b = false) (ws_completed state)) as Hb by (rewrite Hf; left).
  apply list_elem_of_filter in Hb as [-> [i Hi]%list_elem_of_lookup]. exists i.
  rewrite <-(ri_completed _ _ Hinv). split; [by eapply lookup_lt_Some|]. unfold completed_at. by rewrite Hi.
Qed.

Lemma run_finished log state :
  run_inv log state → ws_remaining state ≤ 0 →
  run_outcome log (Ok {| wfr_InvocationID := invocationID; wfr_Nodes := ws_results state |}).
Proof using Type.
  intros Hinv Hrem. split_and!; [done|apply (ri_results _ _ Hinv)|]. intros i node Hi.
  pose proof (run_all_done log state i node Hinv Hrem Hi) as Hc.
  destruct (ri_value _ _ Hinv i Hc) as (w & node' & r & Hr & Hn & Hres). simplify_eq. by exists w, r.
Qed.

Lemma workflow_loop_spec fuel log state :
  run_inv log state → ws_remaining state ≤ Z.of_nat fuel →
  ∃ rest out, workflow_loop run_wave fuel name nodes index invocationID state (Z.of_nat (length log)) = (rest, Some out) ∧
    scheduled (log ++ rest) ∧ run_outcome (log ++ rest) out ∧ Z.of_nat (length rest) ≤ Z.max 0 (ws_remaining state).
Proof using Hok Hacyclic Hrun.
  revert log state. induction fuel as [|fuel IH]; intros log state Hinv Hfuel; cbn [workflow_loop];
    destruct (Z.ltb_spec 0 (ws_remaining state)) as [Hrem|Hrem]; simpl; try lia.
  1, 3: exists [], (Ok {| wfr_InvocationID := invocationID; wfr_Nodes := ws_results state |});
    rewrite app_nil_r; split_and!; [done|apply (ri_scheduled _ _ Hinv)|by apply run_finished|simpl; lia].
  destruct (run_some_missing log state Hinv Hrem) as (i & Hi & Hci).
  pose proof (some_ready _ i Hi Hci) as Hne.
  fold (requests_of state (Z.of_nat (length log))).
  set (requests := requests_of state (Z.of_nat (length log))).
  set (ready := ready_nodes index (ws_completed state) 0 nodes) in *.
  assert ((length ready =? 0)%nat = false) as -> by (by destruct ready).
  assert (length (run_wave (Z.of_nat (length log)) requests) = length ready) as Hlen.
  { rewrite Hrun. unfold requests. rewrite <-(length_fmap fst). by rewrite requests_of_fst. }
  pose proof (settle_wave_errors ready _ state [] Hlen) as Herrs. simpl in Herrs.
  pose proof (run_inv_step log state Hinv) as Hstep. cbv zeta in Hstep. fold requests ready in Hstep.
  destruct (settle_wave nodes ready (run_wave (Z.of_nat (length log)) requests) state []) as [state' errs].
  simpl in Herrs, Hstep. subst errs.
  destruct (wave_errors ready (run_wave (Z.of_nat (length log)) requests)) as [|e errs] eqn:He.
  - destruct (Hstep eq_refl) as [Hinv' Hrem'].
    assert (1 ≤ Z.of_nat (length ready)) by (destruct ready; [done|simpl; lia]).
    destruct (IH _ _ Hinv') as (rest & out & Heq & Hs & Ho & Hl); [lia|].
    rewrite length_app in Heq. simpl in Heq.
    replace (Z.of_nat (length log + 1)) with (Z.of_nat (length log) + 1) in Heq by lia. rewrite Heq.
    exists (requests :: rest), out. rewrite <-app_assoc in Hs, Ho. split_and!; [done|done|done|simpl; lia].
  - exists [requests], (Err (Joined (e :: errs))).
    split_and!; [done|by apply scheduled_snoc| |simpl; lia].
    exists log, requests. split; [done|]. cbv zeta.
    assert (requests.*1 = ready) as -> by (unfold requests; by rewrite requests_of_fst). by rewrite He.
Qed.
End run.

Lemma validated_nodes `{!MapOrder} request0 request :
  validateWorkflowRequest request0 = Ok request →
  nodes_ok (wr_Nodes request) ∧ acyclic (wf_edge (wr_Nodes request)).
Proof.
  intros Hv. pose proof (validate_Ok_wf request0 request Hv) as Hwf.
  destruct (validate_wf request0 Hwf) as (nodes & seen & _ & Hf & Heq). rewrite Heq in Hv.
  apply nodes_ok_ext in Hf as (_ & Hiff & _). pose proof (proj2 Hiff (ww_nodes _ Hwf)) as Hok.
  destruct (workflow_acyclic_spec nodes Hok (wr_Name request0)) as [[Ha Hc]|[_ Hc]]; rewrite Hc in Hv; [|done].
  simpl in Hv. injection Hv as <-. done.
Qed.

Lemma runWorkflow_spec `{!MapOrder} run_wave request0 request invocation :
  (∀ wave requests, length (run_wave wave requests) = length requests) →
  validateWorkflowRequest request0 = Ok request →
  ∃ log out, runWorkflow run_wave request invocation = (log, Some out) ∧
    scheduled (inv_ID invocation) (wr_Nodes request) run_wave log ∧
    run_outcome (inv_ID invocation) (wr_Nodes request) run_wave log out ∧
    (length log ≤ length (wr_Nodes request))%nat.
Proof.
  intros Hrun [Hok Hac]%validated_nodes. unfold runWorkflow.
  destruct (workflow_loop_spec (wr_Name request) (inv_ID invocation) (wr_Nodes request) Hok Hac run_wave Hrun
    (length (wr_Nodes request)) [] _ (run_inv_init (inv_ID invocation) _ Hok Hac run_wave Hrun))
    as (log & out & Heq & Hs & Ho & Hl); [done|]. simpl in Hl.
  exists log, out. split_and!; [done|done|done|lia].
Qed.

(** A validated workflow always finishes, within as many waves as it has nodes, and never with
    the cycle error: it returns one result per node, in the order of the request, each the result of
    a run of that node; or, when nodes of a wave failed, exactly the errors of the failed nodes of
    that wave, and no later wave is started. *)
Theorem workflow_run_finishes `{!MapOrder} run_wave request0 request invocation :
  (∀ wave requests, length (run_wave wave requests) = length requests) →
  validateWorkflowRequest request0 = Ok request →
  ∃ log out, runWorkflow run_wave request invocation = (log, Some out) ∧
    run_outcome (inv_ID invocation) (wr_Nodes request) run_wave log out ∧
    (length log ≤ length (wr_Nodes request))%nat.
Proof.
  intros Hrun Hv. destruct (runWorkflow_spec run_wave request0 request invocation Hrun Hv) as (log & out & Hspec).
  exists log, out. tauto.
Qed.

(** C26. The schedule respects the dependencies, whatever the agents return: every node is invoked at
    most once, and only in a wave after waves in which all its dependencies succeeded; its request
    names its own agent, the group of its wave, and the invocations of its dependencies in order. *)
Theorem workflow_schedule `{!MapOrder} run_wave request0 request invocation log out :
  (∀ wave requests, length (run_wave wave requests) = length requests) →
  validateWorkflowRequest request0 = Ok request →
  runWorkflow run_wave request invocation = (log, out) →
  scheduled (inv_ID invocation) (wr_Nodes request) run_wave log.
Proof.
  intros Hrun Hv Heq. destruct (runWorkflow_spec run_wave request0 request invocation Hrun Hv) as (log' & out' & Hspec).
  rewrite Heq in Hspec. naive_solver.
Qed.

(** ** Witnesses *)

(** A diamond: [d] needs [b] and [c], which need [a]. *)
Definition ex_workflow_node (id : string) (deps : list string) : WorkflowNode :=
  {| wn_ID := id;
     wn_Agent := {| ar_Agent := "reviewer"; ar_Prompt := "check"; ar_SessionID := ""; ar_Mode := "";
                    ar_IdempotencyKey := ""; ar_Group := ""; ar_Dependencies := []; ar_Ordinal := 0 |};
     wn_DependsOn := deps; wn_IncludeDependencyOutputs := true |}.

Definition ex_workflow : WorkflowRequest :=
  {| wr_Name := "release"; wr_IdempotencyKey := "k1";
     wr_Nodes := [ex_workflow_node "d" ["b"; "c"]; ex_workflow_node "b" ["a"]; ex_workflow_node "c" ["a"];
                  ex_workflow_node "a" []];
     wr_MaxConcurrency := 2; wr_Group := ""; wr_Dependencies := []; wr_Ordinal := 0 |}.

Definition ex_validated : WorkflowRequest := get ex_workflow (@validateWorkflowRequest forward_order ex_workflow).

(** Agents that answer with their idempotency key. *)
Definition ex_run_wave (wave : Z) (requests : list (nat * AgentRequest)) : list (result AgentResult) :=
  (λ '(_, request), Ok
    {| rs_InvocationID := "inv-" ++ ar_IdempotencyKey request; rs_SessionID := "s"; rs_Output := "done";
       rs_Messages := []; rs_ContextInjections := []; rs_Turns := 1; rs_ToolCalls := 0; rs_InputTokens := 0;
       rs_OutputTokens := 0; rs_Generation := 0;
       rs_Cause := {| ca_Code := ""; ca_Detail := ""; ca_Final := false |} |}) <$> requests.

Lemma ex_run_wave_length wave requests : length (ex_run_wave wave requests) = length requests.
Proof. apply length_fmap. Qed.

Example ex_workflow_waves :
  map (map (λ '(i, request), (i, ar_Dependencies request)))
    (runWorkflow ex_run_wave ex_validated ex_parent_invocation).1 =
  [[(3%nat, [])]; [(1%nat, ["inv-a"]); (2%nat, ["inv-a"])]; [(0%nat, ["inv-b"; "inv-c"])]].
Proof. vm_compute. reflexivity. Qed.

Lemma workflow_run_finishes_witness :
  @validateWorkflowRequest forward_order ex_workflow = Ok ex_validated ∧
  ∃ log out, runWorkflow ex_run_wave ex_validated ex_parent_invocation = (log, Some out) ∧
    (length log ≤ 4)%nat.
Proof.
  assert (@validateWorkflowRequest forward_order ex_workflow = Ok ex_validated) as Hv
    by (vm_compute; reflexivity).
  split; [exact Hv|].
  destruct (@workflow_run_finishes forward_order ex_run_wave ex_workflow ex_validated ex_parent_invocation
    ex_run_wave_length Hv) as (log & out & H1 & _ & H2).
  exists log, out. split; [exact H1|exact H2].
Defined.

Lemma workflow_schedule_witness :
  length (runWorkflow ex_run_wave ex_validated ex_parent_invocation).1 = 3%nat ∧
  NoDup (concat (runWorkflow ex_run_wave ex_validated ex_parent_invocation).1).*1.
Proof.
  split; [vm_compute; reflexivity|].
  apply (@workflow_schedule forward_order ex_run_wave ex_workflow ex_validated ex_parent_invocation
    (runWorkflow ex_run_wave ex_validated ex_parent_invocation).1
    (runWorkflow ex_run_wave ex_validated ex_parent_invocation).2 ex_run_wave_length);
    [vm_compute; reflexivity|apply surjective_pairing].
Defined.
