(* ===== verification/Parallel.v ===== *)
(** [runParallelIndexed] of [sdk/runtime/runtime_parallel.go]: a pool of workers that runs the tasks
    [0 .. count-1], at most [Limit] at a time.  Its goroutines are a step relation: a step is one
    action of the dispatcher, of a worker, or of the context, in any interleaving. *)

From S2P Require Import Prelude.

Record parallelIndexedOptions := {
  po_Limit : Z;
  po_CancelOnError : bool;
}.

(** Where a worker is with its task: it has received the index, or it is inside [run]. *)
Inductive phase := Received | Running.

Record pool := {
  pl_next : nat;                       (** the next index the dispatcher sends *)
  pl_active : gmap nat phase;          (** the tasks the workers hold *)
  pl_errs : list (option error);
  pl_cancelled : bool;                 (** [runCtx] is done *)
  pl_started : list nat;               (** the calls of [run], oldest first *)
}.

Section pool.
Context (count : nat) (options : parallelIndexedOptions) (ctxErr : error).

Definition limited : bool := 0 <? po_Limit options.

Definition workers : nat :=
  if limited && (po_Limit options <? Z.of_nat count) then Z.to_nat (po_Limit options) else count.

Definition pool_start : pool :=
  {| pl_next := 0; pl_active := ∅; pl_errs := replicate count None; pl_cancelled := false; pl_started := [] |}.

(** The end of a task: its error is stored, and an error cancels the others when asked to. *)
Definition pool_store (s : pool) (index : nat) (taskErr : option error) : pool :=
  {| pl_next := pl_next s; pl_active := delete index (pl_active s);
     pl_errs := <[index := taskErr]> (pl_errs s);
     pl_cancelled := pl_cancelled s || (bool_decide (is_Some taskErr) && po_CancelOnError options);
     pl_started := pl_started s |}.

Inductive pool_step : pool → pool → Prop :=
  (** an idle worker receives the next index *)
  | step_send s :
      (pl_next s < count)%nat → (size (pl_active s) < workers)%nat →
      pool_step s {| pl_next := S (pl_next s); pl_active := <[pl_next s := Received]> (pl_active s);
                     pl_errs := pl_errs s; pl_cancelled := pl_cancelled s; pl_started := pl_started s |}
  (** [runParallelIndexedTask] with a limit finds the context done *)
  | step_skip s index :
      pl_active s !! index = Some Received → limited = true → pl_cancelled s = true →
      pool_step s (pool_store s index (Some ctxErr))
  (** it calls [run] *)
  | step_run s index :
      pl_active s !! index = Some Received → limited && pl_cancelled s = false →
      pool_step s {| pl_next := pl_next s; pl_active := <[index := Running]> (pl_active s);
                     pl_errs := pl_errs s; pl_cancelled := pl_cancelled s;
                     pl_started := pl_started s ++ [index] |}
  (** [run] returns, or panics and is recovered as an error *)
  | step_return s index taskErr :
      pl_active s !! index = Some Running → pool_step s (pool_store s index taskErr)
  (** the context of the caller is cancelled *)
  | step_cancel s :
      pl_cancelled s = false →
      pool_step s {| pl_next := pl_next s; pl_active := pl_active s; pl_errs := pl_errs s;
                     pl_cancelled := true; pl_started := pl_started s |}.

(** Every index was sent and every worker is idle: [wait.Wait()] returns. *)
Definition pool_done (s : pool) : Prop := pl_next s = count ∧ pl_active s = ∅.

(** ** Invariant *)

Record pool_inv (s : pool) : Prop := {
  pi_next : (pl_next s ≤ count)%nat;
  pi_workers : (size (pl_active s) ≤ workers)%nat;
  pi_errs : length (pl_errs s) = count;
  pi_active i p : pl_active s !! i = Some p → (i < pl_next s)%nat;
  pi_started i : i ∈ pl_started s → (i < pl_next s)%nat;
  pi_once : NoDup (pl_started s);
  pi_received i : pl_active s !! i = Some Received → i ∉ pl_started s;
  pi_running i : pl_active s !! i = Some Running → i ∈ pl_started s;
  pi_skipped i : (i < pl_next s)%nat → pl_active s !! i = None → i ∉ pl_started s →
    pl_errs s !! i = Some (Some ctxErr) ∧ limited = true ∧ pl_cancelled s = true;
}.

Lemma pool_inv_start : pool_inv pool_start.
Proof.
  split; simpl; try done; try lia.
  - rewrite map_size_empty. lia.
  - by rewrite length_replicate.
  - intros i. set_solver.
  - constructor.
Qed.

Lemma pool_inv_store s index taskErr p :
  pool_inv s → pl_active s !! index = Some p →
  (p = Received → taskErr = Some ctxErr ∧ limited = true ∧ pl_cancelled s = true) →
  pool_inv (pool_store s index taskErr).
Proof.
  intros [Hn Hw He Ha Hst Ho Hr Hrun Hsk] Hp Hskip.
  assert (index < count)%nat as Hlt by (specialize (Ha index p Hp); lia).
  split; simpl; try done.
  - rewrite map_size_delete. case_match; simpl; lia.
  - by rewrite length_insert.
  - intros i q. rewrite lookup_delete. case_decide; [done|]. by eauto.
  - intros i. rewrite lookup_delete. case_decide; [done|]. by apply Hr.
  - intros i. rewrite lookup_delete. case_decide; [done|]. by apply Hrun.
  - intros i Hi. rewrite lookup_delete. destruct (decide (index = i)) as [->|Hne].
    + intros _ Hns. destruct p; [|by apply Hrun in Hp].
      destruct (Hskip eq_refl) as (-> & Hl & ->). rewrite list_lookup_insert_eq by lia. done.
    + intros Hi' Hns. rewrite list_lookup_insert_ne by done.
      destruct (Hsk i Hi Hi' Hns) as (-> & Hl & ->). done.
Qed.

Lemma pool_inv_step s s' : pool_inv s → pool_step s s' → pool_inv s'.
Proof.
  intros Hinv Hstep. destruct Hstep as [s Hlt Hsize|s i Hi Hl Hc|s i Hi Hg|s i e Hi|s Hc].
  - destruct Hinv as [Hn Hw He Ha Hst Ho Hr Hrun Hsk].
    assert (pl_active s !! pl_next s = None) as Hnone.
    { destruct (pl_active s !! pl_next s) eqn:E; [|done]. apply Ha in E. lia. }
    assert (pl_next s ∉ pl_started s) as Hns by (intros Hx%Hst; lia).
    split; simpl; try done.
    + rewrite map_size_insert, Hnone. lia.
    + intros i p. rewrite lookup_insert. case_decide; [lia|]. intros Hp%Ha. lia.
    + intros i Hx%Hst. lia.
    + intros i. rewrite lookup_insert. case_decide as Hx; [by subst|]. apply Hr.
    + intros i. rewrite lookup_insert. case_decide as Hx; [done|]. apply Hrun.
    + intros i Hi. rewrite lookup_insert. case_decide as Hx; [done|]. apply Hsk. lia.
  - by apply (pool_inv_store s i _ Received).
  - destruct Hinv as [Hn Hw He Ha Hst Ho Hr Hrun Hsk].
    split; simpl; try done.
    + rewrite map_size_insert, Hi. done.
    + intros j p. rewrite lookup_insert. case_decide as Hx; [subst; intros _; by eapply Ha|]. apply Ha.
    + intros j [Hj| ->]%elem_of_snoc; [by apply Hst|by eapply Ha].
    + apply NoDup_app. split_and!; [done| |apply NoDup_singleton].
      intros j Hj ->%list_elem_of_singleton. by apply (Hr i).
    + intros j. rewrite lookup_insert, elem_of_snoc. case_decide as Hx; [done|]. intros Hj [?| ->]; [by apply (Hr j)|done].
    + intros j. rewrite lookup_insert, elem_of_snoc. case_decide as Hx; [by right|]. intros Hj. left. by apply Hrun.
    + intros j Hj. rewrite lookup_insert, elem_of_snoc. case_decide as Hx; [done|]. intros Hj' Hns. apply Hsk; tauto.
  - by apply (pool_inv_store s i e Running).
  - destruct Hinv as [Hn Hw He Ha Hst Ho Hr Hrun Hsk]. split; simpl; try done.
    intros i Hi Hi' Hns. destruct (Hsk i Hi Hi' Hns) as (? & ? & ?). done.
Qed.

Lemma pool_inv_reach s : rtc pool_step pool_start s → pool_inv s.
Proof.
  intros Hr. assert (∀ a b, rtc pool_step a b → pool_inv a → pool_inv b) as Hgen.
  { induction 1; eauto using pool_inv_step. }
  eapply Hgen; [done|apply pool_inv_start].
Qed.

(** ** Termination *)

Definition phase_weight (p : phase) : nat := match p with Received => 2 | Running => 1 end.

Definition active_weight (m : gmap nat phase) : nat := map_fold (λ _ p n, (phase_weight p + n)%nat) O m.

Lemma active_weight_insert m i p :
  m !! i = None → active_weight (<[i := p]> m) = (phase_weight p + active_weight m)%nat.
Proof.
  intros Hi. unfold active_weight. rewrite map_fold_insert_L; [done| |done]. intros. lia.
Qed.

Lemma active_weight_delete m i p :
  m !! i = Some p → active_weight m = (phase_weight p + active_weight (delete i m))%nat.
Proof.
  intros Hi. rewrite <-(insert_delete_id m i p Hi) at 1. apply active_weight_insert, lookup_delete_eq.
Qed.

(** What is left to do. *)
Definition pool_weight (s : pool) : nat :=
  (3 * (count - pl_next s) + active_weight (pl_active s) + (if pl_cancelled s then 0 else 1))%nat.

Lemma pool_weight_step s s' : pool_inv s → pool_step s s' → (pool_weight s' < pool_weight s)%nat.
Proof.
  intros Hinv Hstep. unfold pool_weight. destruct Hstep as [s Hlt Hsize|s i Hi Hl Hc|s i Hi Hg|s i e Hi|s Hc]; simpl.
  - rewrite active_weight_insert; [simpl; case_match; lia|].
    destruct (pl_active s !! pl_next s) eqn:E; [|done]. apply (pi_active _ Hinv) in E. lia.
  - rewrite (active_weight_delete _ _ _ Hi), Hc. simpl. lia.
  - rewrite <-insert_delete_eq, active_weight_insert by apply lookup_delete_eq.
    rewrite (active_weight_delete _ _ _ Hi). simpl. case_match; lia.
  - rewrite (active_weight_delete _ _ _ Hi). destruct (pl_cancelled s); simpl; [lia|]. case_match; lia.
  - rewrite Hc. lia.
Qed.

(** A pool that is not done can take a step of its own: one that moves a task, not only the
    cancellation of the context. *)
Lemma pool_progress s :
  pool_inv s → ¬ pool_done s → ∃ s', pool_step s s' ∧ pl_active s' ≠ pl_active s.
Proof.
  intros Hinv Hnd.
  assert (∀ s' i p, pl_active s !! i = Some p → pl_active s' !! i ≠ Some p → pl_active s' ≠ pl_active s) as Hne.
  { intros s' i p Hi Hi' Heq. apply Hi'. by rewrite Heq. }
  destruct (map_choose_or_empty (pl_active s)) as [(i & p & Hi)|Hempty].
  - destruct p.
    + destruct (limited && pl_cancelled s) eqn:Hg.
      * gobool. destruct Hg as [Hl Hc]. eexists. split; [by eapply step_skip|].
        eapply Hne; [exact Hi|]. simpl. by rewrite lookup_delete_eq.
      * eexists. split; [by eapply step_run|]. eapply Hne; [exact Hi|]. simpl. by rewrite lookup_insert_eq.
    + exists (pool_store s i None). split; [by apply step_return|].
      eapply Hne; [exact Hi|]. simpl. by rewrite lookup_delete_eq.
  - assert (pl_next s < count)%nat as Hlt.
    { pose proof (pi_next _ Hinv). destruct (decide (pl_next s = count)); [|lia]. by destruct Hnd. }
    eexists. split; [apply step_send; [done|]|].
    + rewrite Hempty, map_size_empty. unfold workers, limited.
      destruct (Z.ltb_spec 0 (po_Limit options)); simpl; [|lia]. case_match; lia.
    + simpl. rewrite Hempty. apply insert_non_empty.
Qed.

(** The pool runs every task at most once and never more than [Limit] of them at a time, in any
    interleaving; when it returns there is one entry per task, and a task that was not run was
    skipped because a limited pool was cancelled: its entry is the error of the context. *)
Theorem parallel_pool_correct s :
  rtc pool_step pool_start s →
  (size (pl_active s) ≤ workers)%nat ∧ (workers ≤ count)%nat ∧
  (0 < po_Limit options → (workers ≤ Z.to_nat (po_Limit options))%nat) ∧
  NoDup (pl_started s) ∧
  (pool_done s →
     length (pl_errs s) = count ∧
     ∀ i, (i < count)%nat → i ∈ pl_started s ∨
       (pl_errs s !! i = Some (Some ctxErr) ∧ 0 < po_Limit options ∧ pl_cancelled s = true)).
Proof.
  intros Hinv%pool_inv_reach. split_and!.
  - apply (pi_workers _ Hinv).
  - unfold workers. case_match; [gobool; lia|lia].
  - intros Hl. unfold workers, limited. destruct (Z.ltb_spec 0 (po_Limit options)); [|lia]. simpl.
    case_match; gobool; lia.
  - apply (pi_once _ Hinv).
  - intros [Hnext Hempty]. split; [apply (pi_errs _ Hinv)|]. intros i Hi.
    destruct (decide (i ∈ pl_started s)); [by left|right].
    destruct (pi_skipped _ Hinv i) as (? & Hl & ?); [lia|by rewrite Hempty|done|].
    unfold limited in Hl. gobool. done.
Qed.

(** The pool terminates: no execution takes more than [3 * count + 1] steps, and until it is done
    some task can move. *)
Theorem parallel_pool_terminates n s :
  nsteps pool_step n pool_start s →
  (n ≤ 3 * count + 1)%nat ∧ (¬ pool_done s → ∃ s', pool_step s s' ∧ pl_active s' ≠ pl_active s).
Proof.
  intros Hn. assert (∀ n a b, nsteps pool_step n a b → pool_inv a → (n + pool_weight b ≤ pool_weight a)%nat) as Hgen.
  { intros m a b. induction 1 as [|m a b c Hab Hbc IH]; intros Ha; [done|].
    pose proof (pool_weight_step a b Ha Hab). pose proof (IH (pool_inv_step a b Ha Hab)). lia. }
  split.
  - pose proof (Hgen n _ _ Hn pool_inv_start) as Hle. unfold pool_weight at 2 in Hle. simpl in Hle.
    unfold active_weight in Hle. rewrite map_fold_empty in Hle. lia.
  - apply pool_progress, pool_inv_reach. by eapply rtc_nsteps_2.
Qed.
End pool.

(** ** Witnesses *)

(** Two tasks, one worker; the first one fails, which cancels the second. *)
Definition ex_options : parallelIndexedOptions := {| po_Limit := 1; po_CancelOnError := true |}.
Definition ex_err : error := Sentinel ContextCanceled.

Definition ex_pool1 : pool :=
  {| pl_next := 1; pl_active := {[0%nat := Received]}; pl_errs := [None; None]; pl_cancelled := false; pl_started := [] |}.

Lemma ex_pool_step1 : pool_step 2 ex_options ex_err (pool_start 2) ex_pool1.
Proof. apply (step_send 2 ex_options ex_err (pool_start 2)); vm_compute; lia. Qed.

Lemma parallel_pool_correct_witness :
  rtc (pool_step 2 ex_options ex_err) (pool_start 2) ex_pool1 ∧ (size (pl_active ex_pool1) ≤ 1)%nat.
Proof.
  assert (rtc (pool_step 2 ex_options ex_err) (pool_start 2) ex_pool1) as H
    by (apply rtc_once, ex_pool_step1).
  split; [exact H|]. exact (proj1 (parallel_pool_correct 2 ex_options ex_err ex_pool1 H)).
Defined.

Lemma parallel_pool_terminates_witness :
  nsteps (pool_step 2 ex_options ex_err) 1 (pool_start 2) ex_pool1 ∧
  ∃ s', pool_step 2 ex_options ex_err ex_pool1 s' ∧ pl_active s' ≠ pl_active ex_pool1.
Proof.
  assert (nsteps (pool_step 2 ex_options ex_err) 1 (pool_start 2) ex_pool1) as H
    by (apply nsteps_once, ex_pool_step1).
  split; [exact H|]. apply (parallel_pool_terminates 2 ex_options ex_err 1 ex_pool1 H).
  intros [Hn _]. discriminate Hn.
Defined.
