(* ===== verification/Registrar.v ===== *)
(** The staging registrar of [internal/plugincontract/registrar.go]: what a plugin contributes is
    collected and validated here before the runtime publishes it.

    The contributed values are interfaces; a value is its identity with the interfaces it
    implements.  A [nil] contribution is [None].  A nil [map[string]any] is the canonical text
    [null] (see [Environment]). *)

From S2P Require Import Prelude GoText Names Message.

(** ** Resource names of [sdk/plugin.go] *)

Inductive ResourceKind :=
  | KindPlugin | KindProvider | KindTool | KindAgent | KindHook | KindSubscriber | KindCapability | KindEvent.

Definition resource_kind_text (kind : ResourceKind) : string :=
  match kind with
  | KindPlugin => "plugin" | KindProvider => "provider" | KindTool => "tool" | KindAgent => "agent"
  | KindHook => "hook" | KindSubscriber => "subscriber" | KindCapability => "capability" | KindEvent => "event"
  end.

Definition ResourceName (kind : ResourceKind) (name : string) : string := resource_kind_text kind +:+ ":" +:+ name.

Definition PluginResource := ResourceName KindPlugin.
Definition ProviderResource := ResourceName KindProvider.
Definition ToolResource := ResourceName KindTool.
Definition AgentResource := ResourceName KindAgent.
Definition HookResource := ResourceName KindHook.
Definition SubscriberResource := ResourceName KindSubscriber.
Definition CapabilityResource := ResourceName KindCapability.
Definition EventResource := ResourceName KindEvent.

(** ** Specifications *)

Definition nil_map : json_map := "null".

Definition InterruptBehavior_Valid (behavior : string) : bool :=
  String.eqb behavior "" || String.eqb behavior "block" || String.eqb behavior "cancel".

Definition Concurrency_Valid (concurrency : string) : bool :=
  String.eqb concurrency "" || String.eqb concurrency "exclusive" || String.eqb concurrency "parallel".

Definition validateProviderSpec (spec : ProviderSpec) : result unit :=
  try? ValidateResourceName "provider" (ps_Name spec);
  fail_if blank (ps_Model spec) with Errorf "provider %q model is empty" [AStr (ps_Name spec)];
  Ok tt.

Definition ValidateToolSpec (spec : ToolSpec) : result unit :=
  try? ValidateResourceName "tool" (ts_Name spec);
  fail_if blank (ts_Description spec) with Errorf "tool %q description is empty" [AStr (ts_Name spec)];
  fail_if String.eqb (ts_Parameters spec) nil_map with
    Errorf "tool %q parameters schema is nil" [AStr (ts_Name spec)];
  fail_if negb (InterruptBehavior_Valid (ts_InterruptBehavior spec)) with
    Errorf "tool %q interrupt behavior %q is unsupported" [AStr (ts_Name spec); AStr (ts_InterruptBehavior spec)];
  fail_if negb (Concurrency_Valid (ts_Concurrency spec)) with
    Errorf "tool %q concurrency %q is unsupported" [AStr (ts_Name spec); AStr (ts_Concurrency spec)];
  Ok tt.

(** The loops over names that must be well formed and distinct. *)
Fixpoint validate_names (kind : string) (duplicate : string → error) (seen : gset string)
    (names : list string) : result unit :=
  match names with
  | [] => Ok tt
  | name :: rest =>
      try? ValidateResourceName kind name;
      fail_if bool_decide (name ∈ seen) with duplicate name;
      validate_names kind duplicate ({[name]} ∪ seen) rest
  end.

Definition validateAgentSpec (spec : AgentSpec) : result unit :=
  try? ValidateResourceName "agent" (as_Name spec);
  fail_if blank (as_Description spec) with Errorf "agent %q description is empty" [AStr (as_Name spec)];
  try? (if negb (is_empty (as_Provider spec)) then ValidateResourceName "agent provider" (as_Provider spec)
        else Ok tt);
  fail_if (as_MaxTurns spec <? 0) with Errorf "agent %q max turns cannot be negative" [AStr (as_Name spec)];
  validate_names "agent tool"
    (λ tool, Errorf "agent %q contains duplicate tool %q" [AStr (as_Name spec); AStr tool])
    ∅ (default [] (as_Tools spec)).

Definition FailurePolicyFailClosed : string := "fail_closed".
Definition FailurePolicyContinue : string := "continue".

Definition validateHookSpec (spec : HookSpec) : result unit :=
  try? ValidateResourceName "hook" (hs_Name spec);
  try? ValidateResourceName "event" (hs_Event spec);
  fail_if (hs_Priority spec <? 0) with Errorf "hook %q priority cannot be negative" [AStr (hs_Name spec)];
  fail_if negb (String.eqb (hs_FailurePolicy spec) "" ||
                String.eqb (hs_FailurePolicy spec) FailurePolicyFailClosed ||
                String.eqb (hs_FailurePolicy spec) FailurePolicyContinue) with
    Errorf "hook %q has invalid failure policy %q" [AStr (hs_Name spec); AStr (hs_FailurePolicy spec)];
  fail_if (hs_Timeout spec <? 0) with Errorf "hook %q timeout cannot be negative" [AStr (hs_Name spec)];
  Ok tt.

Definition validateSubscriberSpec (spec : SubscriberSpec) : result unit :=
  try? ValidateResourceName "subscriber" (ss_Name spec);
  fail_if (length (ss_Events spec) =? 0)%nat with Errorf "subscriber %q has no events" [AStr (ss_Name spec)];
  try? validate_names "event"
    (λ event, Errorf "subscriber %q contains duplicate event %q" [AStr (ss_Name spec); AStr event])
    ∅ (ss_Events spec);
  fail_if (ss_Timeout spec <? 0) with Errorf "subscriber %q timeout cannot be negative" [AStr (ss_Name spec)];
  Ok tt.

Definition validateCapabilitySpec (spec : CapabilitySpec) : result unit :=
  try? ValidateResourceName "capability" (cs_Name spec);
  fail_if blank (cs_Description spec) with Errorf "capability %q description is empty" [AStr (cs_Name spec)];
  fail_if String.eqb (cs_InputSchema spec) nil_map || String.eqb (cs_OutputSchema spec) nil_map with
    Errorf "capability %q input and output schemas are required" [AStr (cs_Name spec)];
  Ok tt.

(** [slices.Compact]: of every run of equal elements, the first. *)
Fixpoint Compact (l : list string) : list string :=
  match l with
  | [] => []
  | x :: rest =>
      match rest with
      | [] => [x]
      | y :: _ => if String.eqb x y then Compact rest else x :: Compact rest
      end
  end.

Definition sort_strings (l : list string) : list string := SortFunc strings_Compare l.

Fixpoint validate_fields (fields : list string) : result unit :=
  match fields with
  | [] => Ok tt
  | field :: rest => try? ValidateResourceName "event field" field; validate_fields rest
  end.

Definition validateEventContract (contract : EventContract) : result unit :=
  try? ValidateResourceName "event" (ec_Name contract);
  let mutableFields := Compact (sort_strings (ec_MutableFields contract)) in
  fail_if negb (length (ec_MutableFields contract) =? length mutableFields)%nat with
    Errorf "event %q has duplicate mutable fields" [AStr (ec_Name contract)];
  validate_fields (ec_MutableFields contract).

(** ** Contributions *)

Record Impl := {
  im_Handle : Z;
  im_Async : bool;
  im_Sync : bool;
}.

Record Contribution (Spec : Type) := {
  cn_Value : Impl;
  cn_Spec : Spec;
}.
Arguments cn_Value {Spec}.
Arguments cn_Spec {Spec}.

Record Registrar := {
  rg_Providers : gmap string (Contribution ProviderSpec);
  rg_Tools : gmap string (Contribution ToolSpec);
  rg_Agents : gmap string AgentSpec;
  rg_Hooks : gmap string (Contribution HookSpec);
  rg_HookOrder : list string;
  rg_Subscribers : gmap string (Contribution SubscriberSpec);
  rg_Capabilities : gmap string (Contribution CapabilitySpec);
  rg_Events : gmap string EventContract;
}.

Definition NewRegistrar : Registrar :=
  {| rg_Providers := ∅; rg_Tools := ∅; rg_Agents := ∅; rg_Hooks := ∅; rg_HookOrder := [];
     rg_Subscribers := ∅; rg_Capabilities := ∅; rg_Events := ∅ |}.

Definition register {Spec} (resources : gmap string (Contribution Spec)) (kind name : string)
    (value : Impl) (spec : Spec) : result (gmap string (Contribution Spec)) :=
  match resources !! name with
  | Some _ => Err (Errorf "%s %q registered twice" [AStr kind; AStr name])
  | None => Ok (<[name := {| cn_Value := value; cn_Spec := spec |}]> resources)
  end.

Definition RegisterProvider (r : Registrar) (provider : option (Contribution ProviderSpec)) : result Registrar :=
  match provider with
  | None => Err (errors_New "provider is nil")
  | Some {| cn_Value := value; cn_Spec := spec |} =>
      try? validateProviderSpec spec;
      fail_if negb (im_Async value) && negb (im_Sync value) with
        Errorf "provider %q implements neither AsyncProvider nor SyncProvider" [AStr (ps_Name spec)];
      let? providers := register (rg_Providers r) "provider" (ps_Name spec) value spec in
      Ok {| rg_Providers := providers; rg_Tools := rg_Tools r; rg_Agents := rg_Agents r; rg_Hooks := rg_Hooks r;
            rg_HookOrder := rg_HookOrder r; rg_Subscribers := rg_Subscribers r;
            rg_Capabilities := rg_Capabilities r; rg_Events := rg_Events r |}
  end.

Definition RegisterTool (r : Registrar) (tool : option (Contribution ToolSpec)) : result Registrar :=
  match tool with
  | None => Err (errors_New "tool is nil")
  | Some {| cn_Value := value; cn_Spec := spec |} =>
      try? ValidateToolSpec spec;
      fail_if negb (im_Async value) && negb (im_Sync value) with
        Errorf "tool %q implements neither AsyncTool nor SyncTool" [AStr (ts_Name spec)];
      let? tools := register (rg_Tools r) "tool" (ts_Name spec) value spec in
      Ok {| rg_Providers := rg_Providers r; rg_Tools := tools; rg_Agents := rg_Agents r; rg_Hooks := rg_Hooks r;
            rg_HookOrder := rg_HookOrder r; rg_Subscribers := rg_Subscribers r;
            rg_Capabilities := rg_Capabilities r; rg_Events := rg_Events r |}
  end.

Definition RegisterAgent (r : Registrar) (spec : AgentSpec) : result Registrar :=
  try? validateAgentSpec spec;
  match rg_Agents r !! as_Name spec with
  | Some _ => Err (Errorf "agent %q registered twice" [AStr (as_Name spec)])
  | None =>
      Ok {| rg_Providers := rg_Providers r; rg_Tools := rg_Tools r;
            rg_Agents := <[as_Name spec := spec]> (rg_Agents r); rg_Hooks := rg_Hooks r;
            rg_HookOrder := rg_HookOrder r; rg_Subscribers := rg_Subscribers r;
            rg_Capabilities := rg_Capabilities r; rg_Events := rg_Events r |}
  end.

Definition RegisterHook (r : Registrar) (hook : option (Contribution HookSpec)) : result Registrar :=
  match hook with
  | None => Err (errors_New "hook is nil")
  | Some {| cn_Value := value; cn_Spec := spec |} =>
      try? validateHookSpec spec;
      let? hooks := register (rg_Hooks r) "hook" (hs_Name spec) value spec in
      Ok {| rg_Providers := rg_Providers r; rg_Tools := rg_Tools r; rg_Agents := rg_Agents r; rg_Hooks := hooks;
            rg_HookOrder := rg_HookOrder r ++ [hs_Name spec]; rg_Subscribers := rg_Subscribers r;
            rg_Capabilities := rg_Capabilities r; rg_Events := rg_Events r |}
  end.

Definition RegisterSubscriber (r : Registrar) (subscriber : option (Contribution SubscriberSpec)) : result Registrar :=
  match subscriber with
  | None => Err (errors_New "subscriber is nil")
  | Some {| cn_Value := value; cn_Spec := spec |} =>
      try? validateSubscriberSpec spec;
      let? subscribers := register (rg_Subscribers r) "subscriber" (ss_Name spec) value spec in
      Ok {| rg_Providers := rg_Providers r; rg_Tools := rg_Tools r; rg_Agents := rg_Agents r; rg_Hooks := rg_Hooks r;
            rg_HookOrder := rg_HookOrder r; rg_Subscribers := subscribers;
            rg_Capabilities := rg_Capabilities r; rg_Events := rg_Events r |}
  end.

Definition RegisterCapability (r : Registrar) (capability : option (Contribution CapabilitySpec)) : result Registrar :=
  match capability with
  | None => Err (errors_New "capability is nil")
  | Some {| cn_Value := value; cn_Spec := spec |} =>
      try? validateCapabilitySpec spec;
      fail_if negb (im_Async value) && negb (im_Sync value) with
        Errorf "capability %q implements neither AsyncCapability nor SyncCapability" [AStr (cs_Name spec)];
      let? capabilities := register (rg_Capabilities r) "capability" (cs_Name spec) value spec in
      Ok {| rg_Providers := rg_Providers r; rg_Tools := rg_Tools r; rg_Agents := rg_Agents r; rg_Hooks := rg_Hooks r;
            rg_HookOrder := rg_HookOrder r; rg_Subscribers := rg_Subscribers r;
            rg_Capabilities := capabilities; rg_Events := rg_Events r |}
  end.

Definition RegisterEvent (r : Registrar) (contract : EventContract) : result Registrar :=
  try? validateEventContract contract;
  match rg_Events r !! ec_Name contract with
  | Some _ => Err (Errorf "event %q registered twice" [AStr (ec_Name contract)])
  | None =>
      Ok {| rg_Providers := rg_Providers r; rg_Tools := rg_Tools r; rg_Agents := rg_Agents r; rg_Hooks := rg_Hooks r;
            rg_HookOrder := rg_HookOrder r; rg_Subscribers := rg_Subscribers r;
            rg_Capabilities := rg_Capabilities r; rg_Events := <[ec_Name contract := contract]> (rg_Events r) |}
  end.

(** ** The manifest against what was installed *)

Definition appendNames {V} (target : list string) (resources : gmap string V) (name : string → string)
    : list string :=
  target ++ (name <$> (map_to_list resources).*1).

Definition staged_Resources (r : Registrar) : list string :=
  let resources := appendNames [] (rg_Providers r) ProviderResource in
  let resources := appendNames resources (rg_Tools r) ToolResource in
  let resources := appendNames resources (rg_Agents r) AgentResource in
  let resources := appendNames resources (rg_Hooks r) HookResource in
  let resources := appendNames resources (rg_Subscribers r) SubscriberResource in
  let resources := appendNames resources (rg_Capabilities r) CapabilityResource in
  let resources := appendNames resources (rg_Events r) EventResource in
  sort_strings resources.

(** The error names both lists; the arguments are left out. *)
Definition ValidateManifest (r : Registrar) (manifest : Manifest) : result unit :=
  let actual := staged_Resources r in
  let declared := sort_strings (mf_Registers manifest) in
  fail_if bool_decide (actual ≠ declared) with
    Errorf "plugin %q manifest registers %v, but install registered %v" [AStr (mf_Name manifest)];
  Ok tt.

(** What [Install] leaves in the staging registrar: any sequence of accepted registrations. *)
Inductive contribution :=
  | AddProvider (c : option (Contribution ProviderSpec))
  | AddTool (c : option (Contribution ToolSpec))
  | AddAgent (spec : AgentSpec)
  | AddHook (c : option (Contribution HookSpec))
  | AddSubscriber (c : option (Contribution SubscriberSpec))
  | AddCapability (c : option (Contribution CapabilitySpec))
  | AddEvent (contract : EventContract).

Definition register_contribution (r : Registrar) (c : contribution) : result Registrar :=
  match c with
  | AddProvider c => RegisterProvider r c
  | AddTool c => RegisterTool r c
  | AddAgent spec => RegisterAgent r spec
  | AddHook c => RegisterHook r c
  | AddSubscriber c => RegisterSubscriber r c
  | AddCapability c => RegisterCapability r c
  | AddEvent contract => RegisterEvent r contract
  end.

Inductive registrar_reach : Registrar → Prop :=
  | reach_new : registrar_reach NewRegistrar
  | reach_register r c r' : registrar_reach r → register_contribution r c = Ok r' → registrar_reach r'.

(** ** Names *)

Lemma ResourceName_inj kind kind' name name' :
  ResourceName kind name = ResourceName kind' name' → kind = kind' ∧ name = name'.
Proof. destruct kind, kind'; cbn; intros [=]; auto. Qed.

Lemma validate_names_Ok kind duplicate seen names :
  validate_names kind duplicate seen names = Ok tt ↔
  Forall valid_name names ∧ NoDup names ∧ ∀ name, name ∈ names → name ∉ seen.
Proof.
  revert seen. induction names as [|name rest IH]; intros seen; simpl.
  { split; [|done]. intros _. split; [done|]. split; [constructor|]. intros ? []%elem_of_nil. }
  destruct (ValidateResourceName kind name) as [[]|e] eqn:Hv; simpl.
  - rewrite ValidateResourceName_Ok in Hv. case_bool_decide as Hs.
    + split; [done|]. intros (_ & _ & Hd). destruct (Hd name); set_solver.
    + rewrite IH, list.Forall_cons, list.NoDup_cons. set_solver.
  - split; [done|]. rewrite list.Forall_cons. intros ((Hname & _) & _).
    by apply (ValidateResourceName_Ok kind name tt) in Hname; rewrite Hname in Hv.
Qed.

(** ** Duplicates among sorted names *)

Lemma elem_of_Compact x l : x ∈ Compact l → x ∈ l.
Proof.
  induction l as [|y l IH]; [done|]. simpl. destruct l as [|z l].
  { done. }
  destruct (String.eqb y z); set_solver.
Qed.

Lemma Compact_length l : (length (Compact l) ≤ length l)%nat.
Proof.
  induction l as [|y l IH]; [done|]. simpl. destruct l as [|z l]; [simpl; lia|].
  destruct (String.eqb y z); simpl in *; lia.
Qed.

Lemma Compact_NoDup l :
  StronglySorted (cmp_le strings_Compare) l → length l = length (Compact l) ↔ NoDup l.
Proof.
  induction 1 as [|x l Hs IH Hx]; [split; [constructor|done]|].
  destruct l as [|y l].
  { split; [|done]. intros _. repeat constructor. set_solver. }
  change (Compact (x :: y :: l)) with
    (if String.eqb x y then Compact (y :: l) else x :: Compact (y :: l)).
  pose proof (Compact_length (y :: l)) as Hlen.
  destruct (String.eqb_spec x y) as [->|Hne].
  - split; [cbn [length] in *; lia|]. rewrite list.NoDup_cons. set_solver.
  - cbn [length] in *. rewrite list.NoDup_cons, <- IH. split; [|lia].
    intros Heq. split; [|lia]. intros Hin. apply elem_of_cons in Hin as [->|Hin]; [done|].
    apply list.Forall_cons in Hx as [Hxy _]. inversion Hs as [|? ? _ Hy]; subst.
    rewrite list.Forall_forall in Hy. specialize (Hy _ Hin). apply Hne, strings_Compare_eq.
    unfold cmp_le in *. rewrite (cmp_anti _ strings_Compare_ok) in Hy. lia.
Qed.

Lemma validateEventContract_Ok contract :
  validateEventContract contract = Ok tt →
  valid_name (ec_Name contract) ∧ NoDup (ec_MutableFields contract) ∧ Forall valid_name (ec_MutableFields contract).
Proof.
  unfold validateEventContract. intros Hok. inv_ok.
  match goal with H : ValidateResourceName _ _ = Ok _ |- _ => apply ValidateResourceName_Ok in H end.
  split; [done|]. split.
  - gobool. match goal with H : (_ =? _)%nat = true |- _ => apply Nat.eqb_eq in H; rename H into Hl end.
    rewrite <- (SortFunc_perm strings_Compare). apply Compact_NoDup.
    + apply SortFunc_sorted, strings_Compare_ok.
    + rewrite SortFunc_perm at 1. done.
  - clear -Hok. induction (ec_MutableFields contract) as [|field rest IH]; [constructor|].
    simpl in Hok. inv_ok. constructor; [|eauto]. by eapply ValidateResourceName_Ok.
Qed.

(** ** What a plugin can stage

    Every staged resource is filed under the name of its specification, its specification passed
    its validator, and a provider, a tool or a capability can be executed one way or the other. *)

Definition filed {V} (name : V → string) (ok : V → Prop) (m : gmap string V) : Prop :=
  ∀ key value, m !! key = Some value → name value = key ∧ ok value.

Definition runnable (value : Impl) : Prop := im_Async value = true ∨ im_Sync value = true.

Record registrar_wf (r : Registrar) : Prop := {
  rwf_Providers : filed (ps_Name ∘ cn_Spec) (λ c, validateProviderSpec (cn_Spec c) = Ok tt ∧ runnable (cn_Value c))
                    (rg_Providers r);
  rwf_Tools : filed (ts_Name ∘ cn_Spec) (λ c, ValidateToolSpec (cn_Spec c) = Ok tt ∧ runnable (cn_Value c))
                (rg_Tools r);
  rwf_Agents : filed as_Name (λ spec, validateAgentSpec spec = Ok tt) (rg_Agents r);
  rwf_Hooks : filed (hs_Name ∘ cn_Spec) (λ c, validateHookSpec (cn_Spec c) = Ok tt) (rg_Hooks r);
  rwf_HookOrder : rg_HookOrder r ≡ₚ (map_to_list (rg_Hooks r)).*1;
  rwf_Subscribers : filed (ss_Name ∘ cn_Spec) (λ c, validateSubscriberSpec (cn_Spec c) = Ok tt) (rg_Subscribers r);
  rwf_Capabilities : filed (cs_Name ∘ cn_Spec)
                       (λ c, validateCapabilitySpec (cn_Spec c) = Ok tt ∧ runnable (cn_Value c)) (rg_Capabilities r);
  rwf_Events : filed ec_Name (λ contract, validateEventContract contract = Ok tt) (rg_Events r);
}.

Lemma filed_empty {V} (name : V → string) ok : filed name ok ∅.
Proof. intros ? ?. by rewrite lookup_empty. Qed.

Lemma filed_insert {V} (name : V → string) ok m key value :
  filed name ok m → name value = key → ok value → filed name ok (<[key := value]> m).
Proof.
  intros Hm Hkey Hok k v. rewrite lookup_insert. case_decide as Hk; [|apply Hm].
  intros [= <-]. subst. done.
Qed.

Lemma register_Ok {Spec} (m m' : gmap string (Contribution Spec)) kind name value spec :
  register m kind name value spec = Ok m' →
  m !! name = None ∧ m' = <[name := {| cn_Value := value; cn_Spec := spec |}]> m.
Proof. unfold register. intros H. by inv_ok. Qed.

Lemma runnable_of value : negb (im_Async value) && negb (im_Sync value) = false → runnable value.
Proof. unfold runnable. destruct (im_Async value), (im_Sync value); auto. Qed.

Lemma registrar_wf_register r c r' : registrar_wf r → register_contribution r c = Ok r' → registrar_wf r'.
Proof.
  intros [] H. destruct c as [[[]|]|[[]|]|spec|[[]|]|[[]|]|[[]|]|contract]; simpl in H; try done.
  all: try (unfold RegisterAgent in H); try (unfold RegisterEvent in H); inv_ok;
    repeat match goal with
    | u : unit |- _ => destruct u
    | H : register _ _ _ _ _ = Ok _ |- _ => apply register_Ok in H as [? ->]
    | H : negb _ && negb _ = false |- _ => apply runnable_of in H
    end.
  all: split; simpl; try done; try (apply filed_insert; [done|done|simpl; auto]).
  rewrite map_to_list_insert by done. rewrite (Permutation_app_comm _ [_]). simpl. by f_equiv.
Qed.

Lemma registrar_reach_wf r : registrar_reach r → registrar_wf r.
Proof.
  induction 1 as [|r c r' _ IH Hc]; [|by eapply registrar_wf_register].
  split; try apply filed_empty. simpl. by rewrite map_to_list_empty.
Qed.

(** The names a registrar claims, without the order of its lists. *)
Lemma elem_of_staged_Resources r x :
  x ∈ staged_Resources r ↔
  (∃ n v, rg_Providers r !! n = Some v ∧ x = ProviderResource n) ∨
  (∃ n v, rg_Tools r !! n = Some v ∧ x = ToolResource n) ∨
  (∃ n v, rg_Agents r !! n = Some v ∧ x = AgentResource n) ∨
  (∃ n v, rg_Hooks r !! n = Some v ∧ x = HookResource n) ∨
  (∃ n v, rg_Subscribers r !! n = Some v ∧ x = SubscriberResource n) ∨
  (∃ n v, rg_Capabilities r !! n = Some v ∧ x = CapabilityResource n) ∨
  (∃ n v, rg_Events r !! n = Some v ∧ x = EventResource n).
Proof.
  assert (∀ V (m : gmap string V) f, x ∈ f <$> (map_to_list m).*1 ↔ ∃ n v, m !! n = Some v ∧ x = f n) as Hm.
  { intros V m f. rewrite list_elem_of_fmap. split.
    - intros (n & -> & Hn). apply list_elem_of_fmap in Hn as ([k v] & -> & Hn).
      apply elem_of_map_to_list in Hn. simpl. eauto.
    - intros (n & v & Hn & ->). exists n. split; [done|]. apply list_elem_of_fmap.
      exists (n, v). split; [done|]. by apply elem_of_map_to_list. }
  unfold staged_Resources, sort_strings, appendNames.
  rewrite elem_of_SortFunc, !elem_of_app, !Hm, elem_of_nil. tauto.
Qed.

Lemma NoDup_appendNames {V} target (m : gmap string V) kind :
  NoDup target → (∀ n, ResourceName kind n ∉ target) → NoDup (appendNames target m (ResourceName kind)).
Proof.
  intros Ht Hk. unfold appendNames. apply NoDup_app. split; [done|]. split.
  - intros x Hx (n & -> & _)%list_elem_of_fmap. by eapply Hk.
  - apply NoDup_fmap_2; [|apply NoDup_fst_map_to_list]. intros n n' Heq. by apply ResourceName_inj in Heq as [_ ?].
Qed.

Lemma appendNames_other {V} target (m : gmap string V) kind kind' n :
  ResourceName kind' n ∉ target → kind ≠ kind' → ResourceName kind' n ∉ appendNames target m (ResourceName kind).
Proof.
  intros Ht Hne [?|(n' & Heq & _)%list_elem_of_fmap]%elem_of_app; [done|]. by apply ResourceName_inj in Heq as [? _].
Qed.

(** A plugin never stages a name twice. *)
Lemma NoDup_staged_Resources r : NoDup (staged_Resources r).
Proof.
  unfold staged_Resources, sort_strings. rewrite SortFunc_perm.
  repeat apply NoDup_appendNames; [apply NoDup_nil_2|..]; intros n;
    repeat (apply appendNames_other; [|done]); apply not_elem_of_nil.
Qed.

Lemma validateSubscriberSpec_Ok spec :
  validateSubscriberSpec spec = Ok tt →
  valid_name (ss_Name spec) ∧ ss_Events spec ≠ [] ∧ NoDup (ss_Events spec) ∧ Forall valid_name (ss_Events spec) ∧
  0 ≤ ss_Timeout spec.
Proof.
  unfold validateSubscriberSpec. intros Hok. inv_ok. destruct x0.
  match goal with H : validate_names _ _ _ _ = Ok _ |- _ => apply validate_names_Ok in H as (Hv & Hd & _) end.
  match goal with H : ValidateResourceName _ _ = Ok _ |- _ => apply ValidateResourceName_Ok in H end.
  gobool. split_and!; try done. intros He. by rewrite He in *.
Qed.

(** The registrations that a plugin attempts, in order, with the ones that were accepted: one that is refused
    leaves the registrar as it was, and the plugin may go on. *)
Fixpoint register_all (r : Registrar) (attempts : list contribution) : Registrar * list contribution :=
  match attempts with
  | [] => (r, [])
  | c :: attempts =>
      match register_contribution r c with
      | Err _ => register_all r attempts
      | Ok r' => let '(last, accepted) := register_all r' attempts in (last, c :: accepted)
      end
  end.

Definition hook_name (c : contribution) : option string :=
  match c with AddHook (Some c) => Some (hs_Name (cn_Spec c)) | _ => None end.

Definition contribution_resource (c : contribution) : option string :=
  match c with
  | AddProvider c => ProviderResource ∘ ps_Name ∘ cn_Spec <$> c
  | AddTool c => ToolResource ∘ ts_Name ∘ cn_Spec <$> c
  | AddAgent spec => Some (AgentResource (as_Name spec))
  | AddHook c => HookResource ∘ hs_Name ∘ cn_Spec <$> c
  | AddSubscriber c => SubscriberResource ∘ ss_Name ∘ cn_Spec <$> c
  | AddCapability c => CapabilityResource ∘ cs_Name ∘ cn_Spec <$> c
  | AddEvent contract => Some (EventResource (ec_Name contract))
  end.

Lemma appendNames_insert {V} (target : list string) (m : gmap string V) key value f :
  m !! key = None → appendNames target (<[key := value]> m) f ≡ₚ f key :: appendNames target m f.
Proof.
  intros Hk. unfold appendNames. rewrite map_to_list_insert by done. simpl. by rewrite <-Permutation_middle.
Qed.

Lemma appendNames_cons {V} x (target : list string) (m : gmap string V) f :
  appendNames (x :: target) m f = x :: appendNames target m f.
Proof. done. Qed.

Lemma appendNames_perm {V} (target target' : list string) (m : gmap string V) f :
  target ≡ₚ target' → appendNames target m f ≡ₚ appendNames target' m f.
Proof. unfold appendNames. by intros ->. Qed.

(** What a registration that succeeds adds. *)
Lemma register_contribution_adds r c r' :
  register_contribution r c = Ok r' →
  rg_HookOrder r' = rg_HookOrder r ++ option_list (hook_name c) ∧
  staged_Resources r' ≡ₚ option_list (contribution_resource c) ++ staged_Resources r.
Proof.
  intros H. destruct c as [[[]|]|[[]|]|spec|[[]|]|[[]|]|[[]|]|contract]; simpl in H; try done.
  all: try (unfold RegisterAgent in H); try (unfold RegisterEvent in H); inv_ok;
    repeat match goal with H : register _ _ _ _ _ = Ok _ |- _ => apply register_Ok in H as [? ->] end.
  all: simpl; rewrite ?app_nil_r; (split; [done|]).
  all: unfold staged_Resources, sort_strings; rewrite !SortFunc_perm; simpl.
  all: repeat (first [by apply appendNames_insert | rewrite <-appendNames_cons; apply appendNames_perm]).
Qed.

Lemma register_all_adds attempts : ∀ r,
  let '(last, accepted) := register_all r attempts in
  (registrar_reach r → registrar_reach last) ∧
  rg_HookOrder last = rg_HookOrder r ++ omap hook_name accepted ∧
  staged_Resources last ≡ₚ omap contribution_resource accepted ++ staged_Resources r.
Proof.
  induction attempts as [|c attempts IH]; intros r; simpl.
  { rewrite app_nil_r. done. }
  destruct (register_contribution r c) as [r'|e] eqn:Hc; [|apply IH].
  specialize (IH r'). destruct (register_all r' attempts) as [last accepted] eqn:Hall.
  destruct IH as (Hreach & Horder & Hnames). apply register_contribution_adds in Hc as Hadds.
  destruct Hadds as [Ho Hn]. split; [intros Hr; apply Hreach; by econstructor|].
  cbn [omap list_omap]. rewrite Horder, Hnames, Ho, Hn.
  destruct (hook_name c), (contribution_resource c); simpl; rewrite <-?(assoc_L (++)); simpl;
    rewrite ?Permutation_middle; done.
Qed.

(** C36. The registrar types what a plugin contributes.  Whatever registrations a plugin attempts, the
    registrar then holds only specifications that pass their validators, each under its own name, and
    providers, tools and capabilities that can be executed; the order of its hooks is the order in which the
    accepted ones were registered, without repetition; the resource names it stages are exactly those of the
    accepted registrations, none twice; subscribers name distinct, well-formed events, and event contracts
    distinct, well-formed mutable fields. *)
Theorem registrar_contents_valid attempts :
  let '(r, accepted) := register_all NewRegistrar attempts in
  registrar_wf r ∧
  rg_HookOrder r = omap hook_name accepted ∧ NoDup (rg_HookOrder r) ∧
  staged_Resources r ≡ₚ omap contribution_resource accepted ∧ NoDup (staged_Resources r) ∧
  (∀ k c, rg_Subscribers r !! k = Some c →
    ss_Events (cn_Spec c) ≠ [] ∧ NoDup (ss_Events (cn_Spec c)) ∧ Forall valid_name (ss_Events (cn_Spec c))) ∧
  (∀ k contract, rg_Events r !! k = Some contract →
    NoDup (ec_MutableFields contract) ∧ Forall valid_name (ec_MutableFields contract)).
Proof.
  pose proof (register_all_adds attempts NewRegistrar) as Hall.
  destruct (register_all NewRegistrar attempts) as [r accepted]. destruct Hall as (Hr & Horder & Hnames).
  pose proof (registrar_reach_wf r (Hr reach_new)) as Hwf. split; [done|]. split; [done|]. split.
  { rewrite (rwf_HookOrder _ Hwf). apply NoDup_fst_map_to_list. }
  split; [by rewrite Hnames, app_nil_r|]. split; [apply NoDup_staged_Resources|]. split.
  - intros k c [_ Hc]%(rwf_Subscribers _ Hwf). by apply validateSubscriberSpec_Ok in Hc as (_ & ? & ? & ? & _).
  - intros k c [_ Hc]%(rwf_Events _ Hwf). by apply validateEventContract_Ok in Hc as (_ & ? & ?).
Qed.
