(* ===== verification/Composition.v ===== *)
(** The published composition of [sdk/runtime/composition_snapshot.go] and
    [sdk/runtime/composition_catalog.go]: an immutable snapshot of the mounted plugins and of the
    resources they own, and the two changes of it, [add] and [without].

    A [*mountState] is an address with the fields that never change after [newMountState]; its
    counters live in [Mounts].  [clone] copies every container, so it is the identity here; the
    specifications are never mutated after publication. *)

From S2P Require Import Prelude GoText Names Message Registrar.

(** ** Data *)

Record mount := {
  mt_ID : Z;
  mt_Manifest : Manifest;
  mt_Source : string;
}.

Definition mt_Name (state : mount) : string := mf_Name (mt_Manifest state).

(** [owner == state], on pointers. *)
Definition same_mount (a b : mount) : bool := mt_ID a =? mt_ID b.

Record ownedResource (Spec : Type) := {
  or_Value : Impl;
  or_Spec : Spec;
  or_Owner : mount;
}.
Arguments or_Value {Spec}.
Arguments or_Spec {Spec}.
Arguments or_Owner {Spec}.

Definition ownResource {Spec} (owner : mount) (resource : Contribution Spec) : ownedResource Spec :=
  {| or_Value := cn_Value resource; or_Spec := cn_Spec resource; or_Owner := owner |}.

Definition ownAsyncResource {Spec} (owner : mount) (kind name : string) (value : Impl) (spec : Spec)
    : result (ownedResource Spec) :=
  fail_if negb (im_Async value) with
    Errorf "%s %q has no asynchronous execution implementation" [AStr kind; AStr name];
  Ok {| or_Value := value; or_Spec := spec; or_Owner := owner |}.

Record ownedHook := {
  oh_Value : Impl;
  oh_Spec : HookSpec;
  oh_Owner : mount;
  oh_Seq : Z;
}.

(** The events of the runtime itself have no owner. *)
Record ownedEvent := {
  oe_Owner : option mount;
  oe_Contract : EventContract;
}.

Record ownedAgent := {
  oa_Owner : mount;
  oa_Spec : AgentSpec;
}.

Record registrySnapshot := {
  sn_generation : Z;
  sn_plugins : gmap string mount;
  sn_providers : gmap string (ownedResource ProviderSpec);
  sn_tools : gmap string (ownedResource ToolSpec);
  sn_agents : gmap string ownedAgent;
  sn_hooks : gmap string (list ownedHook);
  sn_subscribers : gmap string (ownedResource SubscriberSpec);
  sn_capabilities : gmap string (ownedResource CapabilitySpec);
  sn_events : gmap string ownedEvent;
}.

(** ** The events of the runtime *)

Record builtinEventContract := {
  be_Contract : EventContract;
  be_sessionExecutionScoped : bool;
  be_trajectoryEnvironmentScoped : bool;
}.

Definition trajectoryEnvironmentEvent (contract : EventContract) : builtinEventContract :=
  {| be_Contract := contract; be_sessionExecutionScoped := true; be_trajectoryEnvironmentScoped := true |}.

Definition sessionExecutionEvent (contract : EventContract) : builtinEventContract :=
  {| be_Contract := contract; be_sessionExecutionScoped := true; be_trajectoryEnvironmentScoped := false |}.

Definition contract_of (name : string) (mutable : list string) (block action : bool) : EventContract :=
  {| ec_Name := name; ec_MutableFields := mutable; ec_AllowBlock := block; ec_AllowAction := action |}.

Definition EventPluginMounted : string := "plugin_mounted".
Definition EventPluginUnmounted : string := "plugin_unmounted".

Definition builtinEventContracts : list builtinEventContract :=
  [ trajectoryEnvironmentEvent (contract_of "before_agent_start" ["messages"; "system"] true false);
    trajectoryEnvironmentEvent (contract_of "agent_start" [] false false);
    trajectoryEnvironmentEvent (contract_of "turn_start" [] false false);
    trajectoryEnvironmentEvent
      (contract_of "before_provider" ["messages"; "provider"; "system"; "tools"] false false);
    sessionExecutionEvent (contract_of "provider_outcome" [] false false);
    trajectoryEnvironmentEvent (contract_of "after_provider" [] false false);
    trajectoryEnvironmentEvent (contract_of "before_tool" ["call"] true false);
    trajectoryEnvironmentEvent (contract_of "tool_error" ["result"] false false);
    trajectoryEnvironmentEvent (contract_of "after_tool" ["result"] false false);
    trajectoryEnvironmentEvent (contract_of "decide" [] false true);
    trajectoryEnvironmentEvent (contract_of "turn_end" [] false false);
    trajectoryEnvironmentEvent (contract_of "agent_end" [] false false);
    {| be_Contract := contract_of EventPluginMounted [] false false;
       be_sessionExecutionScoped := false; be_trajectoryEnvironmentScoped := false |};
    {| be_Contract := contract_of EventPluginUnmounted [] false false;
       be_sessionExecutionScoped := false; be_trajectoryEnvironmentScoped := false |};
    trajectoryEnvironmentEvent (contract_of "trajectory_appended" [] false false);
    trajectoryEnvironmentEvent (contract_of "trajectory_restored" [] false false);
    trajectoryEnvironmentEvent (contract_of "trajectory_rolled_back" [] false false) ].

Fixpoint find_builtin (name : string) (contracts : list builtinEventContract) : option builtinEventContract :=
  match contracts with
  | [] => None
  | contract :: rest =>
      if String.eqb (ec_Name (be_Contract contract)) name then Some contract else find_builtin name rest
  end.

Definition builtinEventInSessionExecution (name : string) : bool :=
  match find_builtin name builtinEventContracts with
  | Some contract => be_sessionExecutionScoped contract | None => false end.

Definition builtinEventInTrajectoryEnvironment (name : string) : bool :=
  match find_builtin name builtinEventContracts with
  | Some contract => be_trajectoryEnvironmentScoped contract | None => false end.

Definition builtin_events : gmap string ownedEvent :=
  foldl (λ events builtin,
    <[ec_Name (be_Contract builtin) := {| oe_Owner := None; oe_Contract := be_Contract builtin |}]> events)
    ∅ builtinEventContracts.

Definition initialSnapshot : registrySnapshot :=
  {| sn_generation := 1; sn_plugins := ∅; sn_providers := ∅; sn_tools := ∅; sn_agents := ∅; sn_hooks := ∅;
     sn_subscribers := ∅; sn_capabilities := ∅; sn_events := builtin_events |}.

(** ** Resources and requirements *)

(** The loop [for name := range m { resources[kind(name)] = struct{}{} }]. *)
Definition resource_names {V} (kind : string → string) (m : gmap string V) : gset string :=
  list_to_set (kind <$> (map_to_list m).*1).

Definition resources (snapshot : registrySnapshot) : gset string :=
  resource_names PluginResource (sn_plugins snapshot) ∪
  resource_names ProviderResource (sn_providers snapshot) ∪
  resource_names ToolResource (sn_tools snapshot) ∪
  resource_names AgentResource (sn_agents snapshot) ∪
  list_to_set ((λ hook, HookResource (hs_Name (oh_Spec hook))) <$> concat (map_values (sn_hooks snapshot))) ∪
  resource_names SubscriberResource (sn_subscribers snapshot) ∪
  resource_names CapabilityResource (sn_capabilities snapshot) ∪
  resource_names EventResource (sn_events snapshot).

Definition Contains_colon (value : string) : bool :=
  existsb (λ c, Ascii.eqb c ":") (String.list_ascii_of_string value).

Definition normalizeRequirement (reference : string) : string :=
  let value := TrimSpace reference in
  if Contains_colon value then value else PluginResource value.

Fixpoint check_conflicts (manifest : Manifest) (resources : gset string) (conflicts : list string) : result unit :=
  match conflicts with
  | [] => Ok tt
  | conflict :: rest =>
      let resource := normalizeRequirement conflict in
      fail_if bool_decide (resource ∈ resources) with
        Errorf "plugin %q conflicts with resource %q" [AStr (mf_Name manifest); AStr resource];
      check_conflicts manifest resources rest
  end.

Fixpoint check_requires (manifest : Manifest) (resources : gset string) (requires : list string) : result unit :=
  match requires with
  | [] => Ok tt
  | required :: rest =>
      let resource := normalizeRequirement required in
      fail_if bool_decide (resource ∉ resources) with
        Errorf "plugin %q requires unavailable resource %q" [AStr (mf_Name manifest); AStr resource];
      check_requires manifest resources rest
  end.

Definition validatePluginResources (manifest : Manifest) (resources : gset string) : result unit :=
  try? check_conflicts manifest resources (mf_Conflicts manifest);
  check_requires manifest resources (mf_Requires manifest).

Fixpoint check_tools (plugin agent : string) (resources : gset string) (tools : list string) : result unit :=
  match tools with
  | [] => Ok tt
  | tool :: rest =>
      fail_if bool_decide (ToolResource tool ∉ resources) with
        Errorf "plugin %q agent %q references unavailable tool %q" [AStr plugin; AStr agent; AStr tool];
      check_tools plugin agent resources rest
  end.

Definition validateAgentResources (plugin : string) (spec : AgentSpec) (resources : gset string) : result unit :=
  fail_if negb (is_empty (as_Provider spec)) && bool_decide (ProviderResource (as_Provider spec) ∉ resources) with
    Errorf "plugin %q agent %q references unavailable provider %q"
      [AStr plugin; AStr (as_Name spec); AStr (as_Provider spec)];
  check_tools plugin (as_Name spec) resources (default [] (as_Tools spec)).

(** A loop that returns the first error. *)
Fixpoint for_each {A} (check : A → result unit) (l : list A) : result unit :=
  match l with
  | [] => Ok tt
  | x :: rest => try? check x; for_each check rest
  end.

(** ** Hooks *)

Definition compareOwnedHooks (left right : ownedHook) : Z :=
  if hs_Priority (oh_Spec left) <? hs_Priority (oh_Spec right) then -1
  else if hs_Priority (oh_Spec left) >? hs_Priority (oh_Spec right) then 1
  else if oh_Seq left <? oh_Seq right then -1
  else if oh_Seq left >? oh_Seq right then 1
  else 0.

Definition PriorityNormal : Z := 500.

Definition normalizeHookSpec (spec : HookSpec) (contract : EventContract) (defaultTimeout : duration) : HookSpec :=
  {| hs_Name := hs_Name spec; hs_Event := hs_Event spec;
     hs_Priority := if hs_Priority spec =? 0 then PriorityNormal else hs_Priority spec;
     hs_FailurePolicy :=
       if is_empty (hs_FailurePolicy spec) then
         if AllowsEffect contract then FailurePolicyFailClosed else FailurePolicyContinue
       else hs_FailurePolicy spec;
     hs_Timeout := if hs_Timeout spec =? 0 then defaultTimeout else hs_Timeout spec |}.

Definition zeroContract : EventContract := contract_of "" [] false false.

Definition zeroHook : Contribution HookSpec :=
  {| cn_Value := {| im_Handle := 0; im_Async := false; im_Sync := false |};
     cn_Spec := {| hs_Name := ""; hs_Event := ""; hs_Priority := 0; hs_FailurePolicy := ""; hs_Timeout := 0 |} |}.

Definition event_contract (events : gmap string ownedEvent) (name : string) : EventContract :=
  match events !! name with Some event => oe_Contract event | None => zeroContract end.

(** The last loop of [add]: the hooks in registration order, numbered on. *)
Fixpoint add_hooks (state : mount) (staged : gmap string (Contribution HookSpec)) (events : gmap string ownedEvent)
    (defaultHookTimeout : duration) (order : list string) (hooks : gmap string (list ownedHook)) (next : Z)
    : gmap string (list ownedHook) * Z :=
  match order with
  | [] => (hooks, next)
  | hookName :: rest =>
      let hook := default zeroHook (staged !! hookName) in
      let eventName := hs_Event (cn_Spec hook) in
      let spec := normalizeHookSpec (cn_Spec hook) (event_contract events eventName) defaultHookTimeout in
      let owned := {| oh_Value := cn_Value hook; oh_Spec := spec; oh_Owner := state; oh_Seq := next |} in
      let list := SortFunc compareOwnedHooks (default [] (hooks !! eventName) ++ [owned]) in
      add_hooks state staged events defaultHookTimeout rest (<[eventName := list]> hooks) (u64 (next + 1))
  end.

(** ** [add] and [without] *)

(** The loop that claims the resources of the plugin. *)
Fixpoint claim_resources (plugin : string) (resources : gset string) (names : list string) : result (gset string) :=
  match names with
  | [] => Ok resources
  | resource :: rest =>
      fail_if bool_decide (resource ∈ resources) with
        Errorf "plugin %q cannot register existing resource %q" [AStr plugin; AStr resource];
      claim_resources plugin ({[resource]} ∪ resources) rest
  end.

(** The loops that give the staged resources an owner. *)
Fixpoint own_all {Spec} (state : mount) (kind : string) (name : Spec → string)
    (staged : list (string * Contribution Spec)) (owned : gmap string (ownedResource Spec))
    : result (gmap string (ownedResource Spec)) :=
  match staged with
  | [] => Ok owned
  | (key, resource) :: rest =>
      let? value := ownAsyncResource state kind (name (cn_Spec resource)) (cn_Value resource) (cn_Spec resource) in
      own_all state kind name rest (<[key := value]> owned)
  end.

(** [for name, x := range added { m[name] = x }]. *)
Definition copy_into {V} (added m : gmap string V) : gmap string V :=
  foldl (λ m entry, <[entry.1 := entry.2]> m) m (map_to_list added).

Definition known_event (snapshot : registrySnapshot) (staged : Registrar) (event : string) : bool :=
  bool_decide (is_Some (sn_events snapshot !! event)) || bool_decide (is_Some (rg_Events staged !! event)).

Section add.
Context `{!MapOrder}.

Definition validateComposition (snapshot : registrySnapshot) : result unit :=
  let resources := resources snapshot in
  try? for_each (λ plugin, validatePluginResources (mt_Manifest plugin.2) resources)
         (range_map 0 (sn_plugins snapshot));
  for_each (λ agent, validateAgentResources (mt_Name (oa_Owner agent.2)) (oa_Spec agent.2) resources)
    (range_map 1 (sn_agents snapshot)).

(** The checks of [add], which change nothing; the resources afterwards are the result. *)
Definition add_checks (snapshot : registrySnapshot) (state : mount) (staged : Registrar) : result unit :=
  let name := mt_Name state in
  fail_if bool_decide (is_Some (sn_plugins snapshot !! name)) with
    Errorf "plugin %q is already mounted" [AStr name];
  let? resources := claim_resources name ({[PluginResource name]} ∪ resources snapshot) (staged_Resources staged) in
  try? for_each (λ plugin, validatePluginResources (mt_Manifest plugin.2) resources)
         (range_map 2 (sn_plugins snapshot));
  try? validatePluginResources (mt_Manifest state) resources;
  try? for_each (λ agent, validateAgentResources name agent.2 resources) (range_map 3 (rg_Agents staged));
  try? for_each (λ hookName,
           let event := hs_Event (cn_Spec (default zeroHook (rg_Hooks staged !! hookName))) in
           fail_if negb (known_event snapshot staged event) with
             Errorf "plugin %q hook targets unknown event %q" [AStr name; AStr event];
           Ok tt)
         (rg_HookOrder staged);
  for_each (λ subscriber,
      for_each (λ event,
          fail_if negb (known_event snapshot staged event) with
            Errorf "plugin %q subscriber %q targets unknown event %q"
              [AStr name; AStr (ss_Name (cn_Spec subscriber.2)); AStr event];
          Ok tt)
        (ss_Events (cn_Spec subscriber.2)))
    (range_map 4 (rg_Subscribers staged)).

Definition add (snapshot : registrySnapshot) (state : mount) (staged : Registrar) (nextSequence : Z)
    (defaultHookTimeout : duration) : result (registrySnapshot * Z) :=
  try? add_checks snapshot state staged;
  let? providers := own_all state "provider" ps_Name (range_map 5 (rg_Providers staged)) ∅ in
  let? tools := own_all state "tool" ts_Name (range_map 6 (rg_Tools staged)) ∅ in
  let? capabilities := own_all state "capability" cs_Name (range_map 7 (rg_Capabilities staged)) ∅ in
  let events := copy_into ((λ contract, {| oe_Owner := Some state; oe_Contract := contract |}) <$> rg_Events staged)
                  (sn_events snapshot) in
  let '(hooks, nextSequence) :=
    add_hooks state (rg_Hooks staged) events defaultHookTimeout (rg_HookOrder staged) (sn_hooks snapshot)
      nextSequence in
  Ok ({| sn_generation := sn_generation snapshot;
         sn_plugins := <[mt_Name state := state]> (sn_plugins snapshot);
         sn_providers := copy_into providers (sn_providers snapshot);
         sn_tools := copy_into tools (sn_tools snapshot);
         sn_agents := copy_into ((λ spec, {| oa_Owner := state; oa_Spec := spec |}) <$> rg_Agents staged)
                        (sn_agents snapshot);
         sn_hooks := hooks;
         sn_subscribers := copy_into (ownResource state <$> rg_Subscribers staged) (sn_subscribers snapshot);
         sn_capabilities := copy_into capabilities (sn_capabilities snapshot);
         sn_events := events |}, nextSequence).
End add.

Definition owned_by (owner : option mount) (state : mount) : bool :=
  match owner with Some o => same_mount o state | None => false end.

(** [for name, x := range m { if x.owner == state { delete(m, name) } }]. *)
Definition drop_owned {V} (owner : V → option mount) (state : mount) (m : gmap string V) : gmap string V :=
  filter (λ entry, owned_by (owner entry.2) state = false) m.

Definition drop_hooks (state : mount) (hooks : gmap string (list ownedHook)) : gmap string (list ownedHook) :=
  omap (λ hooks,
    match filter (λ hook, same_mount (oh_Owner hook) state = false) hooks with
    | [] => None
    | filtered => Some filtered
    end) hooks.

Definition without (snapshot : registrySnapshot) (state : mount) : registrySnapshot :=
  {| sn_generation := sn_generation snapshot;
     sn_plugins := delete (mt_Name state) (sn_plugins snapshot);
     sn_providers := drop_owned (λ r, Some (or_Owner r)) state (sn_providers snapshot);
     sn_tools := drop_owned (λ r, Some (or_Owner r)) state (sn_tools snapshot);
     sn_agents := drop_owned (λ r, Some (oa_Owner r)) state (sn_agents snapshot);
     sn_hooks := drop_hooks state (sn_hooks snapshot);
     sn_subscribers := drop_owned (λ r, Some (or_Owner r)) state (sn_subscribers snapshot);
     sn_capabilities := drop_owned (λ r, Some (or_Owner r)) state (sn_capabilities snapshot);
     sn_events := drop_owned oe_Owner state (sn_events snapshot) |}.

(** ** Reading the composition *)

Definition selectProviderName `{!MapOrder} (snapshot : registrySnapshot) (requested : string) : result string :=
  if negb (is_empty requested) then
    match sn_providers snapshot !! requested with
    | None => Err (Errorf "provider %q is not mounted" [AStr requested])
    | Some _ => Ok requested
    end
  else if (size (sn_providers snapshot) =? 0)%nat then Err (errors_New "no provider is mounted")
  else if (1 <? size (sn_providers snapshot))%nat then
    Err (errors_New "multiple providers are mounted; session provider is required")
  else
    match range_map 0 (sn_providers snapshot) with
    | (name, _) :: _ => Ok name
    | [] => Err (errors_New "no provider is mounted")
    end.

Definition snapshotToolSpecs (snapshot : registrySnapshot) : list ToolSpec :=
  SortFunc (λ left right, strings_Compare (ts_Name left) (ts_Name right))
    (or_Spec <$> map_values (sn_tools snapshot)).

Record advertisedTool := {
  at_Value : Impl;
  at_Spec : ToolSpec;
}.

Fixpoint resolve_loop (snapshot : registrySnapshot) (specs : list ToolSpec) (result : list ToolSpec)
    (index : gmap string advertisedTool) : Prelude.result (list ToolSpec * gmap string advertisedTool) :=
  match specs with
  | [] => Ok (result, index)
  | spec :: rest =>
      try? ValidateToolSpec spec;
      match sn_tools snapshot !! ts_Name spec with
      | None => Err (Errorf "before_provider advertised unregistered tool %q" [AStr (ts_Name spec)])
      | Some owned =>
          fail_if bool_decide (is_Some (index !! ts_Name spec)) with
            Errorf "before_provider advertised tool %q twice" [AStr (ts_Name spec)];
          let advertised :=
            {| ts_Name := ts_Name spec; ts_Description := ts_Description spec; ts_Parameters := ts_Parameters spec;
               ts_InterruptBehavior := ts_InterruptBehavior (or_Spec owned);
               ts_Concurrency := ts_Concurrency (or_Spec owned) |} in
          resolve_loop snapshot rest (result ++ [advertised])
            (<[ts_Name spec := {| at_Value := or_Value owned; at_Spec := or_Spec owned |}]> index)
      end
  end.

Definition resolveAdvertisedTools (snapshot : registrySnapshot) (specs : list ToolSpec)
    : result (list ToolSpec * gmap string advertisedTool) :=
  resolve_loop snapshot specs [] ∅.

(** ** Publication: the composition part of [Runtime.Mount] and [Runtime.unmount]

    [adaptSynchronousResources] wraps a synchronous value in an adapter that runs it as a local
    operation; what it wraps is the same implementation. *)

Definition adapt_value (value : Impl) : Impl :=
  if im_Async value then value else {| im_Handle := im_Handle value; im_Async := true; im_Sync := false |}.

Definition adapt {Spec} (c : Contribution Spec) : Contribution Spec :=
  {| cn_Value := adapt_value (cn_Value c); cn_Spec := cn_Spec c |}.

Definition adaptSynchronousResources (staged : Registrar) : Registrar :=
  {| rg_Providers := adapt <$> rg_Providers staged; rg_Tools := adapt <$> rg_Tools staged;
     rg_Agents := rg_Agents staged; rg_Hooks := rg_Hooks staged; rg_HookOrder := rg_HookOrder staged;
     rg_Subscribers := rg_Subscribers staged; rg_Capabilities := adapt <$> rg_Capabilities staged;
     rg_Events := rg_Events staged |}.

Definition with_generation (s : registrySnapshot) (generation : Z) : registrySnapshot :=
  {| sn_generation := generation; sn_plugins := sn_plugins s; sn_providers := sn_providers s;
     sn_tools := sn_tools s; sn_agents := sn_agents s; sn_hooks := sn_hooks s;
     sn_subscribers := sn_subscribers s; sn_capabilities := sn_capabilities s; sn_events := sn_events s |}.

Definition next_generation (s : registrySnapshot) : registrySnapshot :=
  with_generation s (u64 (sn_generation s + 1)).

(** What [Runtime.Close] publishes: no plugin. *)
Definition closed_snapshot (current : registrySnapshot) : registrySnapshot :=
  with_generation initialSnapshot (u64 (sn_generation current + 1)).

(** The composition [Mount] publishes for what [Install] staged, and the next hook number. *)
Definition mount_plugin `{!MapOrder} (current : registrySnapshot) (state : mount) (staged : Registrar)
    (nextSequence : Z) (hookTimeout : duration) : result (registrySnapshot * Z) :=
  try? Manifest_Validate (mt_Manifest state);
  try? ValidateManifest staged (mt_Manifest state);
  let? '(next, nextSequence) :=
    add current state (adaptSynchronousResources staged) nextSequence hookTimeout in
  Ok (next_generation next, nextSequence).

(** The composition [unmount] publishes; [None] when the plugin is not the mounted one. *)
Definition unmount_plugin `{!MapOrder} (current : registrySnapshot) (state : mount)
    : result (option registrySnapshot) :=
  match sn_plugins current !! mt_Name state with
  | None => Ok None
  | Some active =>
      if negb (same_mount active state) then Ok None
      else
        let next := without current state in
        match validateComposition next with
        | Err e => Err (Wrapf "unmount plugin %q: %w" [AStr (mt_Name state)] e)
        | Ok _ => Ok (Some (next_generation next))
        end
  end.
