(* ===== verification/CompositionProperties.v ===== *)
(** The published composition keeps its promises: whatever is mounted and unmounted, every resource
    belongs to a mounted plugin and every requirement, conflict and agent reference is respected;
    unmounting a plugin takes back exactly what mounting it added. *)

From S2P Require Import Prelude GoText Names Message Registrar Composition.

(** ** Loops *)

Lemma for_each_Ok {A} (check : A → result unit) l :
  for_each check l = Ok tt ↔ ∀ x, x ∈ l → check x = Ok tt.
Proof.
  induction l as [|x l IH]; simpl.
  - split; [|done]. intros _ ? []%elem_of_nil.
  - destruct (check x) as [[]|e] eqn:Hx; simpl.
    + rewrite IH. set_solver.
    + split; [done|]. intros H. rewrite H in Hx; [done|set_solver].
Qed.

Lemma for_each_map_Ok `{!MapOrder} {V} loop (check : string * V → result unit) (m : gmap string V) :
  for_each check (range_map loop m) = Ok tt ↔ ∀ k v, m !! k = Some v → check (k, v) = Ok tt.
Proof.
  rewrite for_each_Ok. split.
  - intros H' k v Hk. apply H'. by apply elem_of_range_map.
  - intros H' [k v] Hk. apply elem_of_range_map in Hk. auto.
Qed.

Lemma claim_resources_Ok plugin known names claimed :
  claim_resources plugin known names = Ok claimed ↔
  NoDup names ∧ (∀ x, x ∈ names → x ∉ known) ∧ claimed = list_to_set names ∪ known.
Proof.
  revert known. induction names as [|name rest IH]; intros known; simpl.
  - split.
    + intros [= <-]. split; [constructor|]. split; [set_solver|]. apply leibniz_equiv. set_solver.
    + intros (_ & _ & ->). f_equal. apply leibniz_equiv. set_solver.
  - case_bool_decide as Hk.
    + split; [done|]. intros (_ & Hd & _). destruct (Hd name); set_solver.
    + rewrite IH, list.NoDup_cons.
      assert (∀ X : gset string, list_to_set rest ∪ ({[name]} ∪ X) = {[name]} ∪ list_to_set rest ∪ X) as Hassoc
        by (intros; set_solver).
      rewrite Hassoc. set_solver.
Qed.

Lemma foldl_insert_union {V} (l : list (string * V)) (m : gmap string V) :
  NoDup l.*1 → foldl (λ m entry, <[entry.1 := entry.2]> m) m l = list_to_map l ∪ m.
Proof.
  revert m. induction l as [|[k v] l IH]; intros m; simpl.
  - intros _. by rewrite map_empty_union.
  - rewrite list.NoDup_cons. intros [Hk Hl]. rewrite IH by done.
    rewrite <- insert_union_r by (by apply not_elem_of_list_to_map_1). by rewrite insert_union_l.
Qed.

Lemma copy_into_union {V} (added m : gmap string V) : copy_into added m = added ∪ m.
Proof.
  unfold copy_into. rewrite foldl_insert_union by apply NoDup_fst_map_to_list.
  by rewrite list_to_map_to_list.
Qed.

Lemma own_all_foldl {Spec} state kind (name : Spec → string) l owned owned' :
  own_all state kind name l owned = Ok owned' ↔
  (∀ k c, (k, c) ∈ l → im_Async (cn_Value c) = true) ∧
  owned' = foldl (λ m entry, <[entry.1 := entry.2]> m) owned (prod_map id (ownResource state) <$> l).
Proof.
  revert owned. induction l as [|[k c] l IH]; intros owned; simpl.
  - split; [|by intros [_ ->]]. intros [= <-]. split; [|done]. intros ? ? []%elem_of_nil.
  - unfold ownAsyncResource. destruct (im_Async (cn_Value c)) eqn:Ha; simpl.
    + rewrite IH. split; intros [H1 H2]; (split; [|exact H2]); set_solver.
    + split; [done|]. intros [H1 _]. rewrite (H1 k c) in Ha; [done|set_solver].
Qed.

Lemma own_all_Ok `{!MapOrder} {Spec} state kind (name : Spec → string) loop m owned :
  own_all state kind name (range_map loop m) ∅ = Ok owned ↔
  (∀ k c, m !! k = Some c → im_Async (cn_Value c) = true) ∧ owned = ownResource state <$> m.
Proof.
  rewrite own_all_foldl.
  assert (foldl (λ m entry, <[entry.1 := entry.2]> m) ∅ (prod_map id (ownResource state) <$> range_map loop m)
          = ownResource state <$> m) as ->.
  { rewrite foldl_insert_union, map_union_empty.
    - rewrite list_to_map_fmap. f_equal.
      etransitivity; [|apply list_to_map_to_list].
      apply list_to_map_proper; [apply NoDup_range_map|apply range_map_perm].
    - rewrite <- list_fmap_compose. apply NoDup_range_map. }
  split; intros [H1 H2]; (split; [|exact H2]); intros k c Hk; apply (H1 k c); by apply elem_of_range_map in Hk || apply elem_of_range_map.
Qed.

(** ** Requirements *)

Definition requirements_met (manifest : Manifest) (resources : gset string) : Prop :=
  (∀ c, c ∈ mf_Conflicts manifest → normalizeRequirement c ∉ resources) ∧
  (∀ r, r ∈ mf_Requires manifest → normalizeRequirement r ∈ resources).

Definition references_met (spec : AgentSpec) (resources : gset string) : Prop :=
  (as_Provider spec ≠ "" → ProviderResource (as_Provider spec) ∈ resources) ∧
  (∀ tool, tool ∈ default [] (as_Tools spec) → ToolResource tool ∈ resources).

Lemma validatePluginResources_Ok manifest known :
  validatePluginResources manifest known = Ok tt ↔ requirements_met manifest known.
Proof.
  unfold validatePluginResources, requirements_met.
  assert (∀ l, check_conflicts manifest known l = Ok tt ↔ ∀ c, c ∈ l → normalizeRequirement c ∉ known) as Hc.
  { induction l as [|c l IH]; simpl; [set_solver|]. case_bool_decide; [|rewrite IH]; set_solver. }
  assert (∀ l, check_requires manifest known l = Ok tt ↔ ∀ r, r ∈ l → normalizeRequirement r ∈ known) as Hr.
  { induction l as [|c l IH]; simpl; [set_solver|]. case_bool_decide; [|rewrite IH]; set_solver. }
  rewrite <- Hc, <- Hr. destruct (check_conflicts _ _ _) as [[]|e]; simpl; naive_solver.
Qed.

Lemma validateAgentResources_Ok plugin spec known :
  validateAgentResources plugin spec known = Ok tt ↔ references_met spec known.
Proof.
  unfold validateAgentResources, references_met.
  assert (∀ l, check_tools plugin (as_Name spec) known l = Ok tt ↔ ∀ t, t ∈ l → ToolResource t ∈ known) as Ht.
  { induction l as [|c l IH]; simpl; [set_solver|]. case_bool_decide; [|rewrite IH]; set_solver. }
  rewrite <- Ht. destruct (is_empty (as_Provider spec)) eqn:He; simpl; gobool.
  - rewrite He. naive_solver.
  - case_bool_decide; naive_solver.
Qed.

Definition composition_valid (s : registrySnapshot) : Prop :=
  (∀ k plugin, sn_plugins s !! k = Some plugin → requirements_met (mt_Manifest plugin) (resources s)) ∧
  (∀ k agent, sn_agents s !! k = Some agent → references_met (oa_Spec agent) (resources s)).

Lemma validateComposition_Ok `{!MapOrder} s : validateComposition s = Ok tt ↔ composition_valid s.
Proof.
  unfold validateComposition, composition_valid.
  setoid_rewrite <- validatePluginResources_Ok.
  assert (∀ l, for_each (λ agent : string * ownedAgent,
      validateAgentResources (mt_Name (oa_Owner agent.2)) (oa_Spec agent.2) (resources s)) l = Ok tt ↔
      ∀ x, x ∈ l → references_met (oa_Spec x.2) (resources s)) as Ha.
  { intros l. rewrite for_each_Ok. by setoid_rewrite validateAgentResources_Ok. }
  rewrite <- (for_each_map_Ok 0 (λ plugin, validatePluginResources (mt_Manifest plugin.2) (resources s))).
  destruct (for_each _ _) as [[]|e]; simpl; [|naive_solver].
  rewrite Ha. split.
  - intros H1. split; [done|]. intros k a Hk. apply (H1 (k, a)). by apply elem_of_range_map.
  - intros [_ H1] [k a] Hk. apply elem_of_range_map in Hk. eauto.
Qed.

(** ** Hooks *)

Lemma compareOwnedHooks_alt a b :
  compareOwnedHooks a b =
  cmp_or (Z_Compare (hs_Priority (oh_Spec a)) (hs_Priority (oh_Spec b))) (Z_Compare (oh_Seq a) (oh_Seq b)).
Proof.
  unfold compareOwnedHooks, cmp_or, Z_Compare. rewrite !Z.gtb_ltb.
  destruct (Z.compare_spec (hs_Priority (oh_Spec a)) (hs_Priority (oh_Spec b)));
    destruct (Z.compare_spec (oh_Seq a) (oh_Seq b)); simpl; repeat case_match; lia.
Qed.

Lemma compareOwnedHooks_ok : cmp_ok compareOwnedHooks.
Proof.
  assert (cmp_ok (λ a b,
    cmp_or (Z_Compare (hs_Priority (oh_Spec a)) (hs_Priority (oh_Spec b))) (Z_Compare (oh_Seq a) (oh_Seq b))))
    as [Ha Ht].
  { apply (cmp_ok_or (λ a b, Z_Compare (hs_Priority (oh_Spec a)) (hs_Priority (oh_Spec b)))
             (λ a b, Z_Compare (oh_Seq a) (oh_Seq b))); [apply (cmp_ok_on (λ a, hs_Priority (oh_Spec a)))|
      apply (cmp_ok_on oh_Seq)]; apply Z_Compare_ok. }
  split; intros *; rewrite !compareOwnedHooks_alt; eauto.
Qed.

Lemma compareOwnedHooks_seq a b : compareOwnedHooks a b = 0 → oh_Seq a = oh_Seq b.
Proof.
  rewrite compareOwnedHooks_alt, cmp_or_zero. intros [_ H]. unfold Z_Compare in H.
  by destruct (Z.compare_spec (oh_Seq a) (oh_Seq b)).
Qed.

(** The hooks of one event: sorted by priority and then by registration, each with its own number
    below [next]. *)
Record hook_list_ok (next : Z) (l : list ownedHook) : Prop := {
  hl_nonempty : l ≠ [];
  hl_sorted : StronglySorted (cmp_le compareOwnedHooks) l;
  hl_seq : NoDup (oh_Seq <$> l);
  hl_next : Forall (λ h, 0 ≤ oh_Seq h < next) l;
}.

Definition hooks_ok (next : Z) (hooks : gmap string (list ownedHook)) : Prop :=
  ∀ event l, hooks !! event = Some l → hook_list_ok next l.

Definition hook_in (hooks : gmap string (list ownedHook)) (event : string) (h : ownedHook) : Prop :=
  h ∈ default [] (hooks !! event).

Lemma hook_seq_inj next l x y : hook_list_ok next l → x ∈ l → y ∈ l → compareOwnedHooks x y = 0 → x = y.
Proof.
  intros Hl Hx Hy Hc%compareOwnedHooks_seq.
  apply list_elem_of_lookup in Hx as [i Hi], Hy as [j Hj].
  assert (i = j) as ->.
  { eapply NoDup_lookup; [apply (hl_seq _ _ Hl)|by rewrite list_lookup_fmap, Hi|].
    by rewrite list_lookup_fmap, Hj, Hc. }
  congruence.
Qed.

Lemma hook_list_ok_add next l owned :
  l = [] ∨ hook_list_ok next l → oh_Seq owned = next → 0 ≤ next →
  hook_list_ok (next + 1) (SortFunc compareOwnedHooks (l ++ [owned])).
Proof.
  intros Hl Hseq Hn.
  assert (NoDup (oh_Seq <$> l) ∧ Forall (λ h, 0 ≤ oh_Seq h < next) l) as [Hd Hlt].
  { destruct Hl as [->|[]]; [|done]. split; constructor. }
  split.
  - intros H. pose proof (SortFunc_perm compareOwnedHooks (l ++ [owned])) as Hp. rewrite H in Hp.
    apply Permutation_nil in Hp. by destruct l.
  - apply SortFunc_sorted, compareOwnedHooks_ok.
  - rewrite SortFunc_perm, fmap_app. apply NoDup_app. split; [done|]. split; [|apply NoDup_singleton].
    intros x Hx Hx'. apply list_elem_of_singleton in Hx' as ->. apply list_elem_of_fmap in Hx as (h & Hh & Hin).
    rewrite list.Forall_forall in Hlt. specialize (Hlt _ Hin). lia.
  - rewrite SortFunc_perm. apply Forall_app. split; [|repeat constructor; lia].
    eapply Forall_impl; [exact Hlt|]. simpl. lia.
Qed.

Lemma hooks_ok_weaken next next' hooks : next ≤ next' → hooks_ok next hooks → hooks_ok next' hooks.
Proof.
  intros Hn H event l Hl. destruct (H _ _ Hl). split; try done. eapply Forall_impl; [done|]. simpl. lia.
Qed.

Definition kept (state : mount) (l : list ownedHook) : list ownedHook :=
  filter (λ hook, same_mount (oh_Owner hook) state = false) l.

Lemma lookup_drop_hooks state hooks event :
  drop_hooks state hooks !! event =
  match kept state (default [] (hooks !! event)) with [] => None | filtered => Some filtered end.
Proof. unfold drop_hooks. rewrite lookup_omap. by destruct (hooks !! event). Qed.

Section add_hooks.
Context (state : mount) (staged : gmap string (Contribution HookSpec)) (events : gmap string ownedEvent)
  (timeout : duration).

Definition new_hook (hookName : string) (seq : Z) : ownedHook :=
  let hook := default zeroHook (staged !! hookName) in
  {| oh_Value := cn_Value hook;
     oh_Spec := normalizeHookSpec (cn_Spec hook) (event_contract events (hs_Event (cn_Spec hook))) timeout;
     oh_Owner := state; oh_Seq := seq |}.

Definition one_hook (hookName : string) (hooks : gmap string (list ownedHook)) (next : Z) :=
  let owned := new_hook hookName next in
  let event := hs_Event (oh_Spec owned) in
  <[event := SortFunc compareOwnedHooks (default [] (hooks !! event) ++ [owned])]> hooks.

Lemma add_hooks_cons hookName rest hooks next :
  add_hooks state staged events timeout (hookName :: rest) hooks next =
  add_hooks state staged events timeout rest (one_hook hookName hooks next) (u64 (next + 1)).
Proof. done. Qed.

Lemma one_hook_ok hookName hooks next :
  0 ≤ next → hooks_ok next hooks → hooks_ok (next + 1) (one_hook hookName hooks next).
Proof.
  intros Hn Hh event l. unfold one_hook. rewrite lookup_insert. case_decide as He.
  - intros [= <-]. apply hook_list_ok_add; [|done|done].
    destruct (hooks !! _) as [l|] eqn:Hl; [right; simpl; by eapply Hh|by left].
  - intros Hl. destruct (Hh _ _ Hl). split; try done. eapply Forall_impl; [done|]. simpl. lia.
Qed.

Lemma one_hook_in hookName hooks next event h :
  hook_in (one_hook hookName hooks next) event h ↔
  hook_in hooks event h ∨ h = new_hook hookName next ∧ event = hs_Event (oh_Spec h).
Proof.
  unfold hook_in, one_hook. rewrite lookup_insert. case_decide as He; simpl.
  - rewrite elem_of_SortFunc, elem_of_snoc, <- He. naive_solver.
  - split; [by left|]. intros [?|[-> ?]]; [done|congruence].
Qed.

Lemma kept_one_hook hookName hooks next event :
  0 ≤ next → hooks_ok next hooks →
  kept state (default [] (one_hook hookName hooks next !! event)) = kept state (default [] (hooks !! event)).
Proof.
  intros Hn Hh. pose proof (one_hook_ok hookName _ _ Hn Hh) as Hok. revert Hok. unfold one_hook.
  rewrite lookup_insert. case_decide as He; [|done]. subst event. simpl.
  set (event := hs_Event _). set (l := default [] (hooks !! event)). intros Hok.
  specialize (Hok event). rewrite lookup_insert_eq in Hok. specialize (Hok _ eq_refl).
  assert (kept state (SortFunc compareOwnedHooks (l ++ [new_hook hookName next])) ≡ₚ kept state l) as Hp.
  { unfold kept. rewrite SortFunc_perm, filter_app, filter_cons_False, filter_nil, app_nil_r; [done|].
    unfold same_mount. simpl. rewrite Z.eqb_refl. done. }
  assert (∀ x y, x ∈ kept state l → y ∈ kept state l → compareOwnedHooks x y = 0 → x = y) as Hinj.
  { intros x y Hx Hy. apply list_elem_of_filter in Hx as [_ Hx], Hy as [_ Hy].
    eapply hook_seq_inj; [exact Hok|..]; rewrite elem_of_SortFunc, elem_of_app; auto. }
  transitivity (SortFunc compareOwnedHooks (kept state l)).
  - apply SortFunc_unique; [apply compareOwnedHooks_ok|done|done|].
    apply StronglySorted_filter'. apply (hl_sorted _ _ Hok).
  - symmetry. apply SortFunc_unique; [apply compareOwnedHooks_ok|done|done|].
    apply StronglySorted_filter'. unfold l. destruct (hooks !! event) as [l'|] eqn:Hl; [|constructor].
    apply (hl_sorted _ _ (Hh _ _ Hl)).
Qed.

Lemma add_hooks_spec order hooks next hooks' next' :
  0 ≤ next → next + Z.of_nat (length order) < two64 → hooks_ok next hooks →
  add_hooks state staged events timeout order hooks next = (hooks', next') →
  next' = next + Z.of_nat (length order) ∧ hooks_ok next' hooks' ∧
  (∀ event h, hook_in hooks' event h ↔ hook_in hooks event h ∨
     ∃ i hookName, order !! i = Some hookName ∧ h = new_hook hookName (next + Z.of_nat i) ∧
       event = hs_Event (oh_Spec h)) ∧
  (∀ event, kept state (default [] (hooks' !! event)) = kept state (default [] (hooks !! event))).
Proof.
  revert hooks next. induction order as [|hookName rest IH]; intros hooks next Hn Hb Hh.
  - intros [= <- <-]. simpl. rewrite Z.add_0_r. split_and!; [done|done| |done].
    intros event h. split; [by left|]. intros [?|(i & ? & Hi & _)]; [done|]. by destruct i.
  - rewrite add_hooks_cons. cbn [length] in Hb. rewrite u64_small by lia. intros Heq.
    apply IH in Heq as (-> & Hok & Hin & Hkept); [|lia|lia|by apply one_hook_ok].
    cbn [length]. split_and!; [lia|eapply hooks_ok_weaken; [|done]; lia| |].
    + intros event h. rewrite Hin, one_hook_in. split.
      * intros [[?|[-> ->]]|(i & name & Hi & -> & ->)]; [by left|right..].
        { exists 0%nat, hookName. simpl. by rewrite Z.add_0_r. }
        exists (S i), name. split; [done|]. split; [|done]. f_equal. lia.
      * intros [?|(i & name & Hi & -> & ->)]; [by left; left|]. destruct i as [|i]; simpl in Hi.
        { injection Hi as <-. left. right. by rewrite Z.add_0_r. }
        right. exists i, name. split; [done|]. split; [|done]. f_equal. lia.
    + intros event. rewrite Hkept. by apply kept_one_hook.
Qed.
End add_hooks.

(** ** What [add] accepts and publishes *)

(** The resources after the plugin is mounted. *)
Definition resources_with (s : registrySnapshot) (state : mount) (staged : Registrar) : gset string :=
  list_to_set (staged_Resources staged) ∪ ({[PluginResource (mt_Name state)]} ∪ resources s).

Definition event_known (s : registrySnapshot) (staged : Registrar) (event : string) : Prop :=
  is_Some (sn_events s !! event) ∨ is_Some (rg_Events staged !! event).

Record mountable (s : registrySnapshot) (state : mount) (staged : Registrar) : Prop := {
  mb_new : sn_plugins s !! mt_Name state = None;
  mb_distinct : NoDup (staged_Resources staged);
  mb_unclaimed : ∀ x, x ∈ staged_Resources staged → x ∉ {[PluginResource (mt_Name state)]} ∪ resources s;
  mb_others : ∀ k plugin, sn_plugins s !! k = Some plugin →
    requirements_met (mt_Manifest plugin) (resources_with s state staged);
  mb_self : requirements_met (mt_Manifest state) (resources_with s state staged);
  mb_agents : ∀ k spec, rg_Agents staged !! k = Some spec → references_met spec (resources_with s state staged);
  mb_hooks : ∀ hookName, hookName ∈ rg_HookOrder staged →
    event_known s staged (hs_Event (cn_Spec (default zeroHook (rg_Hooks staged !! hookName))));
  mb_subscribers : ∀ k c event, rg_Subscribers staged !! k = Some c → event ∈ ss_Events (cn_Spec c) →
    event_known s staged event;
}.

Record all_async (staged : Registrar) : Prop := {
  aa_Providers : ∀ k c, rg_Providers staged !! k = Some c → im_Async (cn_Value c) = true;
  aa_Tools : ∀ k c, rg_Tools staged !! k = Some c → im_Async (cn_Value c) = true;
  aa_Capabilities : ∀ k c, rg_Capabilities staged !! k = Some c → im_Async (cn_Value c) = true;
}.

Definition published_events (s : registrySnapshot) (state : mount) (staged : Registrar) : gmap string ownedEvent :=
  ((λ contract, {| oe_Owner := Some state; oe_Contract := contract |}) <$> rg_Events staged) ∪ sn_events s.

(** The snapshot [add] leaves: the union of the old one with the owned contributions. *)
Definition published (s : registrySnapshot) (state : mount) (staged : Registrar)
    (hooks : gmap string (list ownedHook)) : registrySnapshot :=
  {| sn_generation := sn_generation s;
     sn_plugins := <[mt_Name state := state]> (sn_plugins s);
     sn_providers := (ownResource state <$> rg_Providers staged) ∪ sn_providers s;
     sn_tools := (ownResource state <$> rg_Tools staged) ∪ sn_tools s;
     sn_agents := ((λ spec, {| oa_Owner := state; oa_Spec := spec |}) <$> rg_Agents staged) ∪ sn_agents s;
     sn_hooks := hooks;
     sn_subscribers := (ownResource state <$> rg_Subscribers staged) ∪ sn_subscribers s;
     sn_capabilities := (ownResource state <$> rg_Capabilities staged) ∪ sn_capabilities s;
     sn_events := published_events s state staged |}.

Lemma known_event_iff s staged event : known_event s staged event = true ↔ event_known s staged event.
Proof. unfold known_event, event_known. rewrite orb_true_iff, !bool_decide_eq_true. done. Qed.

Section exact.
Context `{!MapOrder}.

Lemma try_iff {A} (m : result unit) (k : result A) (a : A) : (try? m; k) = Ok a ↔ m = Ok tt ∧ k = Ok a.
Proof. destruct m as [[]|e]; simpl; naive_solver. Qed.

Lemma fail_if_iff {A} (c : bool) e (k : result A) (a : A) : (fail_if c with e; k) = Ok a ↔ c = false ∧ k = Ok a.
Proof. destruct c; naive_solver. Qed.

Lemma add_checks_Ok s state staged : add_checks s state staged = Ok tt ↔ mountable s state staged.
Proof.
  unfold add_checks. rewrite fail_if_iff, bool_decide_eq_false, <- eq_None_not_Some, bind_Ok.
  assert (∀ e (event : string),
    (fail_if negb (known_event s staged event) with e; Ok tt) = Ok tt ↔ event_known s staged event) as Hk.
  { intros e event. rewrite fail_if_iff, negb_false_iff, known_event_iff. naive_solver. }
  split.
  - intros (Hnew & known & (Hd & Hu & ->)%claim_resources_Ok & Hc). rewrite !try_iff, !for_each_map_Ok in Hc.
    destruct Hc as (Hp & Hself & Ha & Hh & Hs). rewrite for_each_Ok in Hh.
    split; try done.
    + intros k plugin Hpl. by apply validatePluginResources_Ok, (Hp k).
    + by apply validatePluginResources_Ok.
    + intros k spec Hspec. eapply validateAgentResources_Ok, (Ha k spec Hspec).
    + intros hookName Hin. specialize (Hh _ Hin). by apply Hk in Hh.
    + intros k c event Hc Hin. specialize (Hs k c Hc). rewrite for_each_Ok in Hs.
      specialize (Hs _ Hin). by apply Hk in Hs.
  - intros []. split; [done|]. exists (resources_with s state staged).
    split; [by apply claim_resources_Ok|]. rewrite !try_iff, !for_each_map_Ok, for_each_Ok. split_and!.
    + intros k plugin Hpl. apply validatePluginResources_Ok; eauto.
    + by apply validatePluginResources_Ok.
    + intros k spec Hspec. apply validateAgentResources_Ok; eauto.
    + intros hookName Hin. apply Hk; eauto.
    + intros k c Hc. apply for_each_Ok. intros event Hin. apply Hk; eauto.
Qed.

Lemma add_Ok_iff s state staged next timeout s' next' :
  add s state staged next timeout = Ok (s', next') ↔
  mountable s state staged ∧ all_async staged ∧
  ∃ hooks, add_hooks state (rg_Hooks staged) (published_events s state staged) timeout (rg_HookOrder staged)
             (sn_hooks s) next = (hooks, next') ∧ s' = published s state staged hooks.
Proof.
  unfold add. rewrite try_iff, add_checks_Ok. split.
  - intros (Hm & (p & (Hp & ->)%own_all_Ok & (t & (Ht & ->)%own_all_Ok &
      (c & (Hc & ->)%own_all_Ok & Hr)%bind_Ok)%bind_Ok)%bind_Ok). split; [done|]. split; [by split|].
    rewrite !copy_into_union in Hr. unfold published_events.
    destruct (add_hooks _ _ _ _ _ _ _) as [hooks n] eqn:Hh. injection Hr as <- <-. exists hooks. done.
  - intros (Hm & [Hp Ht Hc] & hooks & Hh & ->). split; [done|].
    do 3 (apply bind_Ok; eexists; split; [by apply own_all_Ok|]).
    rewrite !copy_into_union. unfold published_events in Hh. by rewrite Hh.
Qed.
End exact.

(** ** The names of a composition *)

Lemma elem_of_resource_names {V} kind (m : gmap string V) x :
  x ∈ resource_names kind m ↔ ∃ n, is_Some (m !! n) ∧ x = kind n.
Proof.
  unfold resource_names. rewrite elem_of_list_to_set, list_elem_of_fmap. split.
  - intros (n & -> & Hn). apply list_elem_of_fmap in Hn as ([k v] & -> & Hn).
    apply elem_of_map_to_list in Hn. simpl. eauto.
  - intros (n & [v Hn] & ->). exists n. split; [done|]. apply list_elem_of_fmap. exists (n, v).
    split; [done|]. by apply elem_of_map_to_list.
Qed.

Lemma elem_of_hook_names (hooks : gmap string (list ownedHook)) x :
  x ∈ (list_to_set ((λ h, HookResource (hs_Name (oh_Spec h))) <$> concat (map_values hooks)) : gset string) ↔
  ∃ event h, hook_in hooks event h ∧ x = HookResource (hs_Name (oh_Spec h)).
Proof.
  rewrite elem_of_list_to_set, list_elem_of_fmap. unfold hook_in. split.
  - intros (h & -> & Hh). apply list_elem_of_In, in_concat in Hh as (l & Hl & Hh).
    apply list_elem_of_In, elem_of_map_values in Hl as [event Hl]. apply list_elem_of_In in Hh.
    exists event, h. by rewrite Hl.
  - intros (event & h & Hh & ->). exists h. split; [done|]. apply list_elem_of_In, in_concat.
    destruct (hooks !! event) as [l|] eqn:Hl; [|by apply elem_of_nil in Hh].
    exists l. split; [|by apply list_elem_of_In]. apply list_elem_of_In, elem_of_map_values. eauto.
Qed.

Lemma elem_of_resources s x :
  x ∈ resources s ↔
  (∃ n, is_Some (sn_plugins s !! n) ∧ x = PluginResource n) ∨
  (∃ n, is_Some (sn_providers s !! n) ∧ x = ProviderResource n) ∨
  (∃ n, is_Some (sn_tools s !! n) ∧ x = ToolResource n) ∨
  (∃ n, is_Some (sn_agents s !! n) ∧ x = AgentResource n) ∨
  (∃ event h, hook_in (sn_hooks s) event h ∧ x = HookResource (hs_Name (oh_Spec h))) ∨
  (∃ n, is_Some (sn_subscribers s !! n) ∧ x = SubscriberResource n) ∨
  (∃ n, is_Some (sn_capabilities s !! n) ∧ x = CapabilityResource n) ∨
  (∃ n, is_Some (sn_events s !! n) ∧ x = EventResource n).
Proof.
  unfold resources. rewrite !elem_of_union, !elem_of_resource_names, elem_of_hook_names. tauto.
Qed.

Lemma exists_union {V W} (P : string → Prop) (f : V → W) (a : gmap string V) (m : gmap string W) :
  (∃ n, is_Some (((f <$> a) ∪ m) !! n) ∧ P n) ↔ (∃ n v, a !! n = Some v ∧ P n) ∨ (∃ n, is_Some (m !! n) ∧ P n).
Proof. setoid_rewrite lookup_union_is_Some. setoid_rewrite lookup_fmap. setoid_rewrite fmap_is_Some. unfold is_Some. naive_solver. Qed.

(** The hooks after [add_hooks], as a set. *)
Definition hooks_extend (state : mount) (staged : Registrar) (events : gmap string ownedEvent) (timeout next : Z)
    (hooks hooks' : gmap string (list ownedHook)) : Prop :=
  ∀ event h, hook_in hooks' event h ↔ hook_in hooks event h ∨
    ∃ i hookName, rg_HookOrder staged !! i = Some hookName ∧
      h = new_hook state (rg_Hooks staged) events timeout hookName (next + Z.of_nat i) ∧
      event = hs_Event (oh_Spec h).

Lemma elem_of_HookOrder staged hookName :
  registrar_wf staged → hookName ∈ rg_HookOrder staged ↔ is_Some (rg_Hooks staged !! hookName).
Proof.
  intros Hwf. rewrite (rwf_HookOrder _ Hwf), list_elem_of_fmap. split.
  - intros ([k v] & -> & Hk). apply elem_of_map_to_list in Hk. eauto.
  - intros [v Hv]. exists (hookName, v). split; [done|]. by apply elem_of_map_to_list.
Qed.

Lemma new_hook_name state staged events timeout hookName seq :
  registrar_wf staged → hookName ∈ rg_HookOrder staged →
  hs_Name (oh_Spec (new_hook state (rg_Hooks staged) events timeout hookName seq)) = hookName.
Proof.
  intros Hwf [c Hc]%elem_of_HookOrder; [|done]. simpl. rewrite Hc. by apply (rwf_Hooks _ Hwf) in Hc as [Hn _].
Qed.

Lemma resources_published s state staged events timeout next hooks :
  registrar_wf staged → hooks_extend state staged events timeout next (sn_hooks s) hooks →
  resources (published s state staged hooks) = resources_with s state staged.
Proof.
  intros Hwf Hext. apply set_eq. intros x. unfold resources_with.
  rewrite !elem_of_union, elem_of_list_to_set, elem_of_singleton, elem_of_staged_Resources, !elem_of_resources.
  cbn [published sn_plugins sn_providers sn_tools sn_agents sn_hooks sn_subscribers sn_capabilities sn_events].
  unfold published_events. rewrite !exists_union.
  assert ((∃ n, is_Some (<[mt_Name state:=state]> (sn_plugins s) !! n) ∧ x = PluginResource n) ↔
          x = PluginResource (mt_Name state) ∨ ∃ n, is_Some (sn_plugins s !! n) ∧ x = PluginResource n) as ->.
  { setoid_rewrite lookup_insert_is_Some'. naive_solver. }
  assert ((∃ event h, hook_in hooks event h ∧ x = HookResource (hs_Name (oh_Spec h))) ↔
          (∃ event h, hook_in (sn_hooks s) event h ∧ x = HookResource (hs_Name (oh_Spec h))) ∨
          (∃ n v, rg_Hooks staged !! n = Some v ∧ x = HookResource n)) as ->.
  { split.
    - intros (event & h & [?|(i & name & Hi & -> & _)]%Hext & ->); [left; eauto|right].
      apply list_elem_of_lookup_2 in Hi. rewrite new_hook_name by done.
      apply elem_of_HookOrder in Hi as [v Hv]; [|done]. eauto.
    - intros [(event & h & Hh & ->)|(n & v & Hn & ->)].
      { exists event, h. split; [|done]. apply Hext. by left. }
      assert (n ∈ rg_HookOrder staged) as Hin by (apply elem_of_HookOrder; eauto).
      pose proof Hin as [i Hi]%list_elem_of_lookup. eexists _, _.
      split; [apply Hext; right; by eauto 10|]. by rewrite new_hook_name. }
  tauto.
Qed.
