(* ===== verification/CompositionInvariant.v ===== *)
(** The invariant of the published composition, preserved by every mount and unmount, and the round
    trip of the two. *)
From S2P Require Import Prelude GoText Names Message Registrar Composition CompositionProperties.

(** ** Well-formed compositions *)

Definition mounted (plugins : gmap string mount) (owner : mount) : Prop :=
  plugins !! mt_Name owner = Some owner.

(** Every resource is filed under its name, belongs to a mounted plugin and passed its validator. *)
Definition owned_ok {V} (name : V → string) (owner : V → mount) (ok : V → Prop) (plugins : gmap string mount)
    (m : gmap string V) : Prop :=
  ∀ k v, m !! k = Some v → name v = k ∧ mounted plugins (owner v) ∧ ok v.

Definition event_ok (plugins : gmap string mount) (k : string) (e : ownedEvent) : Prop :=
  ec_Name (oe_Contract e) = k ∧
  match oe_Owner e with
  | None => builtin_events !! k = Some e
  | Some owner => mounted plugins owner ∧ validateEventContract (oe_Contract e) = Ok tt
  end.

(** A published hook has a positive priority and a failure policy: the defaults are filled in. *)
Definition hook_ok (plugins : gmap string mount) (event : string) (h : ownedHook) : Prop :=
  hs_Event (oh_Spec h) = event ∧ mounted plugins (oh_Owner h) ∧ 0 < hs_Priority (oh_Spec h) ∧
  (hs_FailurePolicy (oh_Spec h) = FailurePolicyFailClosed ∨ hs_FailurePolicy (oh_Spec h) = FailurePolicyContinue).

Record snapshot_wf (next : Z) (s : registrySnapshot) : Prop := {
  swf_next : 0 ≤ next;
  swf_plugins : ∀ k m, sn_plugins s !! k = Some m → mt_Name m = k;
  swf_ids : ∀ k k' m m', sn_plugins s !! k = Some m → sn_plugins s !! k' = Some m' → mt_ID m = mt_ID m' → m = m';
  swf_providers : owned_ok (ps_Name ∘ or_Spec) or_Owner
    (λ r, validateProviderSpec (or_Spec r) = Ok tt ∧ im_Async (or_Value r) = true) (sn_plugins s) (sn_providers s);
  swf_tools : owned_ok (ts_Name ∘ or_Spec) or_Owner
    (λ r, ValidateToolSpec (or_Spec r) = Ok tt ∧ im_Async (or_Value r) = true) (sn_plugins s) (sn_tools s);
  swf_agents : owned_ok (as_Name ∘ oa_Spec) oa_Owner (λ r, validateAgentSpec (oa_Spec r) = Ok tt)
    (sn_plugins s) (sn_agents s);
  swf_subscribers : owned_ok (ss_Name ∘ or_Spec) or_Owner (λ r, validateSubscriberSpec (or_Spec r) = Ok tt)
    (sn_plugins s) (sn_subscribers s);
  swf_capabilities : owned_ok (cs_Name ∘ or_Spec) or_Owner
    (λ r, validateCapabilitySpec (or_Spec r) = Ok tt ∧ im_Async (or_Value r) = true)
    (sn_plugins s) (sn_capabilities s);
  swf_events : ∀ k e, sn_events s !! k = Some e → event_ok (sn_plugins s) k e;
  swf_builtin : ∀ k e, builtin_events !! k = Some e → sn_events s !! k = Some e;
  swf_hooks : hooks_ok next (sn_hooks s);
  swf_hook : ∀ event h, hook_in (sn_hooks s) event h → hook_ok (sn_plugins s) event h;
  swf_hook_names : ∀ event h event' h', hook_in (sn_hooks s) event h → hook_in (sn_hooks s) event' h' →
    hs_Name (oh_Spec h) = hs_Name (oh_Spec h') → h = h';
  swf_valid : composition_valid s;
}.

Lemma builtin_names : map_Forall (λ k e, ec_Name (oe_Contract e) = k ∧ oe_Owner e = None) builtin_events.
Proof. apply map_Forall_to_list. vm_compute. repeat constructor. Qed.

Lemma snapshot_wf_initial : snapshot_wf 0 initialSnapshot.
Proof.
  split; simpl; try (intros *; by rewrite lookup_empty); try done.
  - intros k e He. split; [by apply builtin_names in He as [? _]|].
    pose proof (builtin_names _ _ He) as [_ Ho]. by rewrite Ho.
  - intros event h. unfold hook_in. by rewrite lookup_empty, elem_of_nil.
  - intros event h event' h'. unfold hook_in. by rewrite lookup_empty, elem_of_nil.
Qed.

(** ** Unmounting *)

Lemma lookup_drop_owned {V} (owner : V → option mount) state (m : gmap string V) k v :
  drop_owned owner state m !! k = Some v ↔ m !! k = Some v ∧ owned_by (owner v) state = false.
Proof. unfold drop_owned. apply map_lookup_filter_Some. Qed.

Lemma hook_in_drop state hooks event h :
  hook_in (drop_hooks state hooks) event h ↔ hook_in hooks event h ∧ same_mount (oh_Owner h) state = false.
Proof.
  unfold hook_in. rewrite lookup_drop_hooks.
  assert (default [] (match kept state (default [] (hooks !! event)) with [] => None | f => Some f end) =
          kept state (default [] (hooks !! event))) as -> by (by destruct (kept _ _)).
  unfold kept. rewrite list_elem_of_filter. tauto.
Qed.

Lemma mounted_delete plugins state owner :
  (∀ k m, plugins !! k = Some m → mt_Name m = k) → plugins !! mt_Name state = Some state →
  mounted plugins owner → same_mount owner state = false → mounted (delete (mt_Name state) plugins) owner.
Proof.
  intros Hk Hs Ho Hne. unfold mounted in *. rewrite lookup_delete_ne; [done|]. intros Heq.
  rewrite <- Heq, Hs in Ho. injection Ho as ->. unfold same_mount in Hne. by rewrite Z.eqb_refl in Hne.
Qed.

Lemma owned_ok_drop {V} name (owner : V → mount) ok plugins state m :
  (∀ k p, plugins !! k = Some p → mt_Name p = k) → plugins !! mt_Name state = Some state →
  owned_ok name owner ok plugins m →
  owned_ok name owner ok (delete (mt_Name state) plugins) (drop_owned (λ v, Some (owner v)) state m).
Proof.
  intros Hk Hs Hm k v [Hv Hne]%lookup_drop_owned. apply Hm in Hv as (? & ? & ?).
  split_and!; [done| |done]. by apply mounted_delete.
Qed.

Lemma hook_list_ok_kept next state l : hook_list_ok next l → kept state l ≠ [] → hook_list_ok next (kept state l).
Proof.
  intros [Hne Hs Hd Hn] Hk. split; [done| | |].
  - by apply StronglySorted_filter'.
  - eapply sublist_NoDup; [exact Hd|]. apply fmap_sublist, sublist_filter.
  - rewrite list.Forall_forall in *. intros x [_ Hx]%list_elem_of_filter. auto.
Qed.

Lemma snapshot_wf_without next s state :
  snapshot_wf next s → sn_plugins s !! mt_Name state = Some state → composition_valid (without s state) →
  snapshot_wf next (without s state).
Proof.
  intros Hwf Hs Hv. destruct Hwf as [Hn Hp Hids Hpr Ht Ha Hsu Hc He Hb Hh Hho Hnames _].
  split; try done; cbn [without sn_plugins sn_providers sn_tools sn_agents sn_subscribers sn_capabilities sn_events
    sn_hooks]; try by apply owned_ok_drop.
  - intros k m [_ Hk]%lookup_delete_Some. eauto.
  - intros k k' m m' [_ Hk]%lookup_delete_Some [_ Hk']%lookup_delete_Some. eauto.
  - intros k e [Hk Hne]%lookup_drop_owned. apply He in Hk as [? Hk]. split; [done|].
    destruct (oe_Owner e) as [owner|]; [|done]. destruct Hk. split; [|done]. by apply mounted_delete.
  - intros k e Hk. apply lookup_drop_owned. split; [by apply Hb|].
    by apply builtin_names in Hk as [_ ->].
  - intros event l Hl. rewrite lookup_drop_hooks in Hl. destruct (sn_hooks s !! event) as [l'|] eqn:Hl'; [|done].
    simpl in Hl. destruct (kept state l') eqn:Hk; [done|]. injection Hl as <-. rewrite <- Hk.
    apply hook_list_ok_kept; [by eapply Hh|]. by rewrite Hk.
  - intros event h [Hin Hne]%hook_in_drop. apply Hho in Hin as (? & ? & ?). split; [done|].
    split; [by apply mounted_delete|done].
  - intros event h event' h' [Hin _]%hook_in_drop [Hin' _]%hook_in_drop. eauto.
Qed.

(** ** Mounting *)

Lemma references_weaken spec known known' : known ⊆ known' → references_met spec known → references_met spec known'.
Proof. intros Hsub [H1 H2]. split; set_solver. Qed.

Lemma filter_id {A} (P : A → Prop) `{!∀ x, Decision (P x)} (l : list A) : (∀ x, x ∈ l → P x) → filter P l = l.
Proof.
  induction l as [|x l IH]; [done|]. intros Hl. rewrite filter_cons_True by (apply Hl; set_solver).
  f_equal. apply IH. set_solver.
Qed.

Lemma snapshot_eq a b :
  sn_generation a = sn_generation b → sn_plugins a = sn_plugins b → sn_providers a = sn_providers b →
  sn_tools a = sn_tools b → sn_agents a = sn_agents b → sn_hooks a = sn_hooks b →
  sn_subscribers a = sn_subscribers b → sn_capabilities a = sn_capabilities b → sn_events a = sn_events b → a = b.
Proof. destruct a, b. simpl. congruence. Qed.

Section mount.
Context (s : registrySnapshot) (state : mount) (staged : Registrar) (next timeout : Z)
  (hooks : gmap string (list ownedHook)) (next' : Z).
Context (Hwf : snapshot_wf next s) (Hst : registrar_wf staged) (Hasync : all_async staged)
  (Hm : mountable s state staged)
  (Hfresh : ∀ k p, sn_plugins s !! k = Some p → mt_ID p ≠ mt_ID state)
  (Hbound : next + Z.of_nat (length (rg_HookOrder staged)) < two64)
  (Hhooks : add_hooks state (rg_Hooks staged) (published_events s state staged) timeout (rg_HookOrder staged)
              (sn_hooks s) next = (hooks, next')).

Lemma mounted_insert owner : mounted (sn_plugins s) owner → mounted (<[mt_Name state := state]> (sn_plugins s)) owner.
Proof using Hm.
  unfold mounted. intros Ho. rewrite lookup_insert_ne; [done|]. intros Heq.
  pose proof (mb_new _ _ _ Hm) as Hn. by rewrite Heq, Ho in Hn.
Qed.

Lemma mounted_state : mounted (<[mt_Name state := state]> (sn_plugins s)) state.
Proof using. apply lookup_insert_eq. Qed.

Lemma owned_ok_union {V W} (name : V → string) owner ok (f : W → V) (name' : W → string) ok' (a : gmap string W) m :
  owned_ok name owner ok (sn_plugins s) m → filed name' ok' a →
  (∀ w, name (f w) = name' w ∧ owner (f w) = state) → (∀ k w, a !! k = Some w → ok' w → ok (f w)) →
  owned_ok name owner ok (<[mt_Name state := state]> (sn_plugins s)) ((f <$> a) ∪ m).
Proof using Hm.
  intros Hmm Ha Hf Hok k v. rewrite lookup_union_Some_raw, lookup_fmap. intros [Hk|[_ Hk]].
  - destruct (a !! k) as [w|] eqn:Hw; simplify_eq/=. pose proof (Ha _ _ Hw) as [Hn Hk].
    destruct (Hf w) as [-> ->]. split_and!; [done|apply mounted_state|eauto].
  - apply Hmm in Hk as (? & ? & ?). split_and!; [done|by apply mounted_insert|done].
Qed.

Lemma new_hook_ok hookName seq :
  hookName ∈ rg_HookOrder staged →
  let h := new_hook state (rg_Hooks staged) (published_events s state staged) timeout hookName seq in
  hook_ok (<[mt_Name state := state]> (sn_plugins s)) (hs_Event (oh_Spec h)) h.
Proof using Hst.
  intros [c Hc]%elem_of_HookOrder; [|done]. unfold new_hook. rewrite Hc. simpl.
  apply (rwf_Hooks _ Hst) in Hc as [_ Hc]. unfold validateHookSpec in Hc. inv_ok.
  split; [done|]. split; [apply mounted_state|]. simpl. gobool. split.
  - destruct (Z.eqb_spec (hs_Priority (cn_Spec c)) 0); [unfold PriorityNormal|]; lia.
  - destruct (is_empty (hs_FailurePolicy (cn_Spec c))) eqn:Hp; [by destruct (AllowsEffect _); auto|].
    gobool. rewrite !String.eqb_eq in *. naive_solver.
Qed.

(** A staged name is not taken. *)
Lemma unclaimed_name x : x ∈ staged_Resources staged → x ∉ resources s.
Proof using Hm. intros Hx%(mb_unclaimed _ _ _ Hm). by apply not_elem_of_union in Hx as [_ ?]. Qed.

(** [unclaimed kind]: no staged resource of this kind is mounted. *)
Ltac unclaimed kind :=
  intros n [v Hv]; apply eq_None_not_Some; intros Hs;
  apply (unclaimed_name (ResourceName kind n)); [apply elem_of_staged_Resources|apply elem_of_resources]; eauto 10.

Lemma unclaimed_event n : is_Some (rg_Events staged !! n) → sn_events s !! n = None.
Proof using Hm.
  revert n. unclaimed KindEvent.
Qed.

Lemma unclaimed_hook hookName event h :
  hookName ∈ rg_HookOrder staged → hook_in (sn_hooks s) event h → hs_Name (oh_Spec h) ≠ hookName.
Proof using Hm Hst.
  intros [v Hv]%elem_of_HookOrder Hin; [|done]. intros <-.
  apply (unclaimed_name (HookResource (hs_Name (oh_Spec h)))).
  - apply elem_of_staged_Resources. eauto 10.
  - apply elem_of_resources. eauto 10.
Qed.

Lemma added_hooks :
  next' = next + Z.of_nat (length (rg_HookOrder staged)) ∧ hooks_ok next' hooks ∧
  hooks_extend state staged (published_events s state staged) timeout next (sn_hooks s) hooks ∧
  (∀ event, kept state (default [] (hooks !! event)) = kept state (default [] (sn_hooks s !! event))).
Proof using Hwf Hbound Hhooks.
  eapply add_hooks_spec; [apply Hwf|done|apply Hwf|exact Hhooks].
Qed.

Lemma added_hook_names event h event' h' :
  hook_in hooks event h → hook_in hooks event' h' → hs_Name (oh_Spec h) = hs_Name (oh_Spec h') → h = h'.
Proof using Hwf Hbound Hhooks Hst Hm.
  destruct added_hooks as (_ & _ & Hext & _).
  intros [Hh|(i & n & Hi & -> & _)]%Hext [Hh'|(i' & n' & Hi' & -> & _)]%Hext Heq.
  - eapply (swf_hook_names _ _ Hwf); eauto.
  - pose proof (list_elem_of_lookup_2 _ _ _ Hi') as Hin. rewrite new_hook_name in Heq by done.
    by apply (unclaimed_hook _ _ _ Hin) in Hh.
  - pose proof (list_elem_of_lookup_2 _ _ _ Hi) as Hin. rewrite new_hook_name in Heq by done.
    by apply (unclaimed_hook _ _ _ Hin) in Hh'.
  - rewrite !new_hook_name in Heq by (done || by eapply list_elem_of_lookup_2). subst n'.
    assert (i = i') as ->; [|done].
    apply (NoDup_lookup (rg_HookOrder staged) i i' n); [rewrite (rwf_HookOrder _ Hst); apply NoDup_fst_map_to_list|done|done].
Qed.

Lemma snapshot_wf_published : snapshot_wf next' (published s state staged hooks).
Proof using All.
  destruct added_hooks as (Hnext & Hok & Hext & _).
  destruct Hst as [RP RT RA RH RO RS RC RE]. destruct Hasync as [AP AT AC].
  pose proof (swf_next _ _ Hwf) as Hn0.
  split; cbn [published sn_plugins sn_providers sn_tools sn_agents sn_subscribers sn_capabilities sn_events sn_hooks].
  - lia.
  - intros k m. rewrite lookup_insert_Some. intros [[? <-]|[_ Hk]]; [done|by eapply swf_plugins].
  - intros k k' m m'. rewrite !lookup_insert_Some. intros [[_ <-]|[_ Hk]] [[_ <-]|[_ Hk']] Heq; try done.
    + by apply Hfresh in Hk'.
    + by apply Hfresh in Hk.
    + by eapply (swf_ids _ _ Hwf).
  - eapply owned_ok_union; [apply Hwf|exact RP|done|]. simpl. naive_solver.
  - eapply owned_ok_union; [apply Hwf|exact RT|done|]. simpl. naive_solver.
  - eapply owned_ok_union; [apply Hwf|exact RA|done|]. simpl. naive_solver.
  - eapply owned_ok_union; [apply Hwf|exact RS|done|]. simpl. naive_solver.
  - eapply owned_ok_union; [apply Hwf|exact RC|done|]. simpl. naive_solver.
  - intros k e. unfold published_events. rewrite lookup_union_Some_raw, lookup_fmap. intros [Hk|[_ Hk]].
    + destruct (rg_Events staged !! k) as [c|] eqn:Hc; simplify_eq/=. apply RE in Hc as [? ?].
      split; [done|]. simpl. split; [apply mounted_state|done].
    + apply (swf_events _ _ Hwf) in Hk as [? Hk]. split; [done|]. destruct (oe_Owner e); [|done].
      destruct Hk. split; [by apply mounted_insert|done].
  - intros k e Hk%(swf_builtin _ _ Hwf). unfold published_events. apply lookup_union_Some_raw. right.
    split; [|done]. rewrite lookup_fmap. destruct (rg_Events staged !! k) eqn:Hc; [|done].
    rewrite unclaimed_event in Hk by eauto. done.
  - done.
  - intros event h [Hh|(i & n & Hi & -> & ->)]%Hext.
    + apply (swf_hook _ _ Hwf) in Hh as (? & ? & ?). split; [done|]. split; [by apply mounted_insert|done].
    + apply new_hook_ok. by eapply list_elem_of_lookup_2.
  - apply added_hook_names.
  - unfold composition_valid. rewrite (resources_published _ _ _ _ _ _ _ Hst Hext). split.
    + intros k plugin. simpl. rewrite lookup_insert_Some. intros [[_ <-]|[_ Hk]]; [apply Hm|].
      by eapply (mb_others _ _ _ Hm).
    + intros k agent. simpl. rewrite lookup_union_Some_raw, lookup_fmap. intros [Hk|[_ Hk]].
      * destruct (rg_Agents staged !! k) eqn:Hc; simplify_eq/=. by eapply (mb_agents _ _ _ Hm).
      * eapply references_weaken; [|by eapply (swf_valid _ _ Hwf)]. unfold resources_with. set_solver.
Qed.

(** ** Unmounting takes back what mounting added *)

Lemma not_owned owner : mounted (sn_plugins s) owner → same_mount owner state = false.
Proof using Hfresh. intros Ho. apply Z.eqb_neq. by eapply Hfresh. Qed.

Lemma drop_owned_union {V W} (owner : V → option mount) (f : W → V) (a : gmap string W) m :
  (∀ k, is_Some (a !! k) → m !! k = None) → (∀ w, owner (f w) = Some state) →
  (∀ k v, m !! k = Some v → owned_by (owner v) state = false) →
  drop_owned owner state ((f <$> a) ∪ m) = m.
Proof using.
  intros Hd Hf Hm'. apply map_eq. intros k. apply option_eq. intros v.
  rewrite lookup_drop_owned, lookup_union_Some_raw, lookup_fmap. split.
  - intros [[Hk|[_ Hk]] Ho]; [|done]. destruct (a !! k) as [w|]; simplify_eq/=.
    unfold owned_by, same_mount in Ho. by rewrite Hf, Z.eqb_refl in Ho.
  - intros Hk. split; [|eauto]. right. split; [|done]. destruct (a !! k) eqn:Hak; [|done].
    rewrite Hd in Hk; [done|by rewrite Hak].
Qed.

Lemma kept_all event : kept state (default [] (sn_hooks s !! event)) = default [] (sn_hooks s !! event).
Proof using Hwf Hfresh.
  apply filter_id. intros h Hh.
  apply (swf_hook _ _ Hwf event) in Hh as (_ & Ho & _). by apply not_owned.
Qed.

Lemma without_published : without (published s state staged hooks) state = s.
Proof using All.
  destruct added_hooks as (_ & _ & _ & Hkept).
  apply snapshot_eq; cbn [without published sn_generation sn_plugins sn_providers sn_tools sn_agents sn_hooks
    sn_subscribers sn_capabilities sn_events].
  - done.
  - apply delete_insert_id. apply Hm.
  - apply drop_owned_union; [unclaimed KindProvider|done|]. intros k v (_ & ? & _)%(swf_providers _ _ Hwf). by apply not_owned.
  - apply drop_owned_union; [unclaimed KindTool|done|]. intros k v (_ & ? & _)%(swf_tools _ _ Hwf). by apply not_owned.
  - apply drop_owned_union; [unclaimed KindAgent|done|]. intros k v (_ & ? & _)%(swf_agents _ _ Hwf). by apply not_owned.
  - apply map_eq. intros event. rewrite lookup_drop_hooks, Hkept, kept_all.
    destruct (sn_hooks s !! event) as [l|] eqn:Hl; [|done]. simpl.
    apply (swf_hooks _ _ Hwf) in Hl as [Hne _ _ _]. by destruct l.
  - apply drop_owned_union; [unclaimed KindSubscriber|done|]. intros k v (_ & ? & _)%(swf_subscribers _ _ Hwf). by apply not_owned.
  - apply drop_owned_union; [unclaimed KindCapability|done|]. intros k v (_ & ? & _)%(swf_capabilities _ _ Hwf). by apply not_owned.
  - apply drop_owned_union; [apply unclaimed_event|done|]. intros k e [_ He]%(swf_events _ _ Hwf).
    destruct (oe_Owner e); [|done]. destruct He. by apply not_owned.
Qed.
End mount.

(** ** Reachable compositions *)

Lemma filed_adapt {Spec} (name : Spec → string) ok (m : gmap string (Contribution Spec)) :
  filed (name ∘ cn_Spec) (λ c, ok (cn_Spec c) ∧ runnable (cn_Value c)) m →
  filed (name ∘ cn_Spec) (λ c, ok (cn_Spec c) ∧ runnable (cn_Value c)) (adapt <$> m).
Proof.
  intros Hm k v. rewrite lookup_fmap. destruct (m !! k) as [c|] eqn:Hk; intros; simplify_eq/=.
  apply Hm in Hk as [? [? _]]. split; [done|]. split; [done|]. left. unfold adapt_value. simpl.
  by destruct (im_Async (cn_Value c)) eqn:Ha.
Qed.

Lemma adapt_wf staged : registrar_wf staged → registrar_wf (adaptSynchronousResources staged).
Proof.
  intros []. split; try done.
  - by apply (filed_adapt ps_Name (λ spec, validateProviderSpec spec = Ok tt)).
  - by apply (filed_adapt ts_Name (λ spec, ValidateToolSpec spec = Ok tt)).
  - by apply (filed_adapt cs_Name (λ spec, validateCapabilitySpec spec = Ok tt)).
Qed.

Lemma adapt_async staged : all_async (adaptSynchronousResources staged).
Proof.
  assert (∀ Spec (m : gmap string (Contribution Spec)) k c,
    (adapt <$> m) !! k = Some c → im_Async (cn_Value c) = true) as Ha.
  { intros Spec m k c. rewrite lookup_fmap. destruct (m !! k) as [c'|]; intros; simplify_eq/=.
    unfold adapt_value. by destruct (im_Async (cn_Value c')) eqn:Hc. }
  split; intros k c; simpl; apply Ha.
Qed.

(** A pointer made by [newMountState] is no mounted one, and a pointer that is a mounted one has its
    fields. *)
Definition fresh_mount (s : registrySnapshot) (state : mount) : Prop :=
  ∀ k p, sn_plugins s !! k = Some p → mt_ID p ≠ mt_ID state.

Definition same_object (s : registrySnapshot) (state : mount) : Prop :=
  ∀ k p, sn_plugins s !! k = Some p → mt_ID p = mt_ID state → p = state.

Inductive comp_reach : Z → registrySnapshot → Prop :=
  | comp_initial : comp_reach 0 initialSnapshot
  | comp_mount (order : MapOrder) next s state staged timeout next' s' :
      comp_reach next s → registrar_reach staged → fresh_mount s state →
      next + Z.of_nat (length (rg_HookOrder staged)) < two64 →
      mount_plugin s state staged next timeout = Ok (s', next') → comp_reach next' s'
  | comp_unmount (order : MapOrder) next s state s' :
      comp_reach next s → same_object s state →
      unmount_plugin s state = Ok (Some s') → comp_reach next s'
  | comp_skip next s next' : (* a mount that failed after it numbered its hooks *)
      comp_reach next s → next ≤ next' → comp_reach next' s
  | comp_close next s : comp_reach next s → comp_reach next (closed_snapshot s).

Lemma snapshot_wf_generation next s generation : snapshot_wf next s → snapshot_wf next (with_generation s generation).
Proof. intros []. by split. Qed.

Lemma snapshot_wf_skip next s next' : snapshot_wf next s → next ≤ next' → snapshot_wf next' s.
Proof. intros [] Hle. split; try done; [lia|]. by eapply hooks_ok_weaken. Qed.

Lemma mount_plugin_Ok `{!MapOrder} s state staged next timeout s' next' :
  mount_plugin s state staged next timeout = Ok (s', next') →
  let adapted := adaptSynchronousResources staged in
  mountable s state adapted ∧
  ∃ hooks, add_hooks state (rg_Hooks adapted) (published_events s state adapted) timeout (rg_HookOrder adapted)
             (sn_hooks s) next = (hooks, next') ∧ s' = next_generation (published s state adapted hooks).
Proof.
  unfold mount_plugin. intros Hok. inv_ok.
  match goal with H : add _ _ _ _ _ = Ok _ |- _ => apply add_Ok_iff in H as (Hm & _ & hooks & Hh & ->) end.
  simpl in *. eauto.
Qed.

Lemma unmount_plugin_Ok `{!MapOrder} s state s' :
  same_object s state → unmount_plugin s state = Ok (Some s') →
  sn_plugins s !! mt_Name state = Some state ∧ composition_valid (without s state) ∧
  s' = next_generation (without s state).
Proof.
  unfold unmount_plugin. intros Hs. destruct (sn_plugins s !! mt_Name state) as [active|] eqn:Ha; [|done].
  destruct (same_mount active state) eqn:Hsame; simpl; [|done].
  apply Z.eqb_eq in Hsame. apply (Hs _ _ Ha) in Hsame as ->.
  destruct (validateComposition (without s state)) as [[]|e] eqn:Hv; [|done]. intros [= <-].
  split; [done|]. split; [|done]. by apply validateComposition_Ok.
Qed.

Lemma comp_reach_wf next s : comp_reach next s → snapshot_wf next s.
Proof.
  induction 1 as [|order next s state staged timeout next' s' _ IH Hst Hf Hb Hok
                  |order next s state s' _ IH Hs Hok|next s next' _ IH Hle|next s _ IH].
  - apply snapshot_wf_initial.
  - apply mount_plugin_Ok in Hok as (Hm & hooks & Hh & ->). apply snapshot_wf_generation.
    eapply snapshot_wf_published; [exact IH|by apply adapt_wf, registrar_reach_wf|apply adapt_async|..]; done.
  - apply unmount_plugin_Ok in Hok as (Ha & Hv & ->); [|done].
    apply snapshot_wf_generation. by apply snapshot_wf_without.
  - by eapply snapshot_wf_skip.
  - apply snapshot_wf_generation. eapply snapshot_wf_skip; [apply snapshot_wf_initial|apply IH].
Qed.

(** ** What the composition promises: the theorems on mounting and unmounting, with a composition of
    three plugins that shows them at work. *)

Section theorems.
Context `{!MapOrder}.

(** C1. Whatever plugins are mounted and unmounted, every published composition is well formed: each
    resource is filed under its name, belongs to a mounted plugin and has a valid specification
    (providers, tools and capabilities run asynchronously); the hooks of an event are sorted by
    priority and registration with distinct numbers and names and normalised specifications; the
    runtime's own events are untouched; and every requirement, conflict and agent reference of the
    mounted plugins is respected, which [validateComposition] confirms. *)
Theorem composition_invariant next s :
  comp_reach next s → snapshot_wf next s ∧ validateComposition s = Ok tt.
Proof. intros Hwf%comp_reach_wf. split; [done|]. by apply validateComposition_Ok, Hwf. Qed.

(** A mount succeeds exactly when the manifest is valid, declares what was installed, and the
    plugin is mountable: its name and every resource it registers are free, the requirements and
    conflicts of all plugins hold with it, the agents find their provider and tools, and its hooks
    and subscribers name known events.  The answer does not depend on the order in which Go ranges
    over the maps. *)
Theorem mount_outcome s state staged next timeout :
  is_Ok (mount_plugin s state staged next timeout) ↔
  Manifest_Validate (mt_Manifest state) = Ok tt ∧
  staged_Resources staged = sort_strings (mf_Registers (mt_Manifest state)) ∧
  mountable s state (adaptSynchronousResources staged).
Proof.
  unfold mount_plugin, is_Ok. split.
  - intros [[s' next'] Hok]. rewrite !try_iff in Hok. destruct Hok as (Hm & Hv & Hok).
    split; [done|]. unfold ValidateManifest in Hv. rewrite fail_if_iff, bool_decide_eq_false in Hv.
    destruct Hv as [Hv _]. split; [by apply dec_stable|]. apply bind_Ok in Hok as ([s1 n1] & Hadd & _).
    by apply add_Ok_iff in Hadd as [? _].
  - intros (-> & Heq & Hm). unfold ValidateManifest. rewrite bool_decide_eq_false_2 by (by intros []). simpl.
    destruct (add_hooks state (rg_Hooks staged) (published_events s state (adaptSynchronousResources staged)) timeout
      (rg_HookOrder staged) (sn_hooks s) next) as [hooks next'] eqn:Hh.
    assert (add s state (adaptSynchronousResources staged) next timeout =
            Ok (published s state (adaptSynchronousResources staged) hooks, next')) as ->.
    { apply add_Ok_iff. split; [done|]. split; [apply adapt_async|]. eauto. }
    simpl. eauto.
Qed.

End theorems.

(** C29. Unmounting the plugin that was just mounted succeeds and gives back the composition before
    the mount, two generations later: nothing a plugin contributed survives it, and nothing of the
    others is lost. *)
Theorem mount_unmount_roundtrip (order order' : MapOrder) next s state staged timeout next' s' :
  comp_reach next s → registrar_reach staged → fresh_mount s state →
  next + Z.of_nat (length (rg_HookOrder staged)) < two64 →
  @mount_plugin order s state staged next timeout = Ok (s', next') →
  @unmount_plugin order' s' state = Ok (Some (with_generation s (u64 (u64 (sn_generation s + 1) + 1)))).
Proof.
  intros Hwf%comp_reach_wf Hst Hf Hb Hok. apply mount_plugin_Ok in Hok as (Hm & hooks & Hh & ->).
  assert (without (published s state (adaptSynchronousResources staged) hooks) state = s) as Hw.
  { eapply without_published; [exact Hwf|by apply adapt_wf, registrar_reach_wf|apply adapt_async|..]; done. }
  unfold unmount_plugin. simpl. rewrite lookup_insert_eq. unfold same_mount. rewrite Z.eqb_refl. simpl.
  replace (without (next_generation (published s state (adaptSynchronousResources staged) hooks)) state)
    with (next_generation s) by (rewrite <- Hw at 1; done).
  assert (validateComposition (next_generation s) = Ok tt) as ->; [|done].
  apply validateComposition_Ok. by apply (swf_valid next), snapshot_wf_generation.
Qed.

(** ** A composition

    A plugin that declares an event, one that hooks it, and one with a tool. *)

Definition ex_impl : Impl := {| im_Handle := 7; im_Async := false; im_Sync := true |}.

Definition ex_manifest (name : string) (registers : list string) : Manifest :=
  {| mf_Name := name; mf_Version := "1.0.0"; mf_Description := "example"; mf_APIVersion := 1;
     mf_MinAPIVersion := 0; mf_MaxAPIVersion := 0; mf_Requires := []; mf_Conflicts := [];
     mf_Registers := registers |}.

Definition ex_deploy : mount :=
  {| mt_ID := 1; mt_Manifest := ex_manifest "deploy" ["event:deploy.done"]; mt_Source := "builtin" |}.
Definition ex_audit : mount :=
  {| mt_ID := 2; mt_Manifest := ex_manifest "audit" ["hook:audit.log"]; mt_Source := "builtin" |}.
Definition ex_shell : mount :=
  {| mt_ID := 3; mt_Manifest := ex_manifest "shell" ["hook:shell.guard"; "tool:bash"]; mt_Source := "rpc" |}.

Definition ex_staged (contributions : list contribution) : Registrar :=
  foldl (λ r c, get r (register_contribution r c)) NewRegistrar contributions.

Definition ex_hook (name event : string) (priority : Z) : contribution :=
  AddHook (Some {| cn_Value := ex_impl;
                   cn_Spec := {| hs_Name := name; hs_Event := event; hs_Priority := priority;
                                 hs_FailurePolicy := ""; hs_Timeout := 0 |} |}).

Definition ex_deploy_staged : Registrar := ex_staged [AddEvent (contract_of "deploy.done" ["note"] false false)].
Definition ex_audit_staged : Registrar := ex_staged [ex_hook "audit.log" "deploy.done" 0].
Definition ex_shell_staged : Registrar :=
  ex_staged [ex_hook "shell.guard" "deploy.done" 100;
             AddTool (Some {| cn_Value := ex_impl;
                              cn_Spec := {| ts_Name := "bash"; ts_Description := "run"; ts_Parameters := "{}";
                                            ts_InterruptBehavior := ""; ts_Concurrency := "exclusive" |} |})].

Definition ex_mount (s : registrySnapshot * Z) (state : mount) (staged : Registrar) : registrySnapshot * Z :=
  get s (@mount_plugin forward_order s.1 state staged s.2 5000).

Definition ex_s1 : registrySnapshot * Z := ex_mount (initialSnapshot, 0) ex_deploy ex_deploy_staged.
Definition ex_s2 : registrySnapshot * Z := ex_mount ex_s1 ex_audit ex_audit_staged.
Definition ex_s3 : registrySnapshot * Z := ex_mount ex_s2 ex_shell ex_shell_staged.

(** The guard runs before the audit although it was mounted after it. *)
Example ex_hook_order :
  (λ h, (hs_Name (oh_Spec h), hs_Priority (oh_Spec h), hs_FailurePolicy (oh_Spec h), oh_Seq h)) <$>
    default [] (sn_hooks ex_s3.1 !! "deploy.done") =
  [("shell.guard", 100, "fail_closed", 1); ("audit.log", 500, "fail_closed", 0)].
Proof. vm_compute. reflexivity. Qed.

Lemma ex_staged_reach contributions : registrar_reach (ex_staged contributions).
Proof.
  unfold ex_staged. assert (registrar_reach NewRegistrar) as Hr by constructor. revert Hr.
  generalize NewRegistrar as r. induction contributions as [|c l IH]; intros r Hr; [done|]. simpl. apply IH.
  destruct (register_contribution r c) eqn:Hc; [by econstructor|done].
Qed.

(** Decidable forms of the side conditions of a mount. *)
Lemma fresh_mount_compute s state :
  forallb (λ p, negb (mt_ID p.2 =? mt_ID state)) (map_to_list (sn_plugins s)) = true → fresh_mount s state.
Proof.
  intros H k p Hk. rewrite forallb_forall in H. apply elem_of_map_to_list, list_elem_of_In in Hk.
  specialize (H _ Hk). simpl in H. gobool. done.
Qed.

Lemma ex_comp_mount next s state staged :
  comp_reach next s → registrar_reach staged →
  forallb (λ p, negb (mt_ID p.2 =? mt_ID state)) (map_to_list (sn_plugins s)) = true →
  next + Z.of_nat (length (rg_HookOrder staged)) < two64 →
  result_ok (@mount_plugin forward_order s state staged next 5000) = true →
  comp_reach (ex_mount (s, next) state staged).2 (ex_mount (s, next) state staged).1.
Proof.
  intros Hr Hst Hf Hb Hok. unfold ex_mount. cbn [fst snd].
  destruct (@mount_plugin forward_order s state staged next 5000) as [[s' n']|] eqn:Hm; [|done].
  simpl. eapply (comp_mount forward_order); eauto using fresh_mount_compute.
Qed.

Lemma ex_comp_reach1 : comp_reach ex_s1.2 ex_s1.1.
Proof. apply ex_comp_mount; [constructor|apply ex_staged_reach|by vm_compute..]. Qed.

Lemma ex_comp_reach2 : comp_reach ex_s2.2 ex_s2.1.
Proof.
  replace ex_s2 with (ex_mount (ex_s1.1, ex_s1.2) ex_audit ex_audit_staged) by (by rewrite <- surjective_pairing).
  apply ex_comp_mount; [apply ex_comp_reach1|apply ex_staged_reach|by vm_compute..].
Qed.

Lemma ex_comp_reach3 : comp_reach ex_s3.2 ex_s3.1.
Proof.
  replace ex_s3 with (ex_mount (ex_s2.1, ex_s2.2) ex_shell ex_shell_staged) by (by rewrite <- surjective_pairing).
  apply ex_comp_mount; [apply ex_comp_reach2|apply ex_staged_reach|by vm_compute..].
Qed.

Lemma composition_invariant_witness :
  sn_generation ex_s3.1 = 4 ∧ snapshot_wf 2 ex_s3.1 ∧ @validateComposition backward_order ex_s3.1 = Ok tt.
Proof.
  split; [by vm_compute|]. apply (@composition_invariant backward_order). exact ex_comp_reach3.
Defined.

Lemma mount_unmount_roundtrip_witness :
  sn_generation ex_s3.1 = 4 ∧
  @unmount_plugin backward_order ex_s3.1 ex_shell = Ok (Some (with_generation ex_s2.1 5)).
Proof.
  split; [by vm_compute|].
  apply (mount_unmount_roundtrip forward_order backward_order ex_s2.2 ex_s2.1 ex_shell ex_shell_staged 5000 ex_s3.2 ex_s3.1).
  - exact ex_comp_reach2.
  - apply ex_staged_reach.
  - by apply fresh_mount_compute; vm_compute.
  - by vm_compute.
  - vm_compute. reflexivity.
Defined.

(** ** The event of a hook

    [add] refuses a hook on an unknown event; [unmount] does not look at hooks. *)

Definition ex_s4 : registrySnapshot :=
  default initialSnapshot (get None (@unmount_plugin forward_order ex_s2.1 ex_deploy)).

(** A hook can outlive its event: the plugin that declares an event can be unmounted while the
    hook of another plugin is mounted on it.  The resulting composition passes
    [validateComposition], and holds a hook with which no mount would be accepted. *)
Theorem unmount_keeps_hook_of_unknown_event :
  ∃ next s event h,
    comp_reach next s ∧ @validateComposition forward_order s = Ok tt ∧
    hook_in (sn_hooks s) event h ∧ sn_events s !! event = None ∧
    ¬ is_Ok (@mount_plugin forward_order (without s (oh_Owner h)) (oh_Owner h) ex_audit_staged next 5000).
Proof.
  exists 1, ex_s4, "deploy.done", (default (new_hook ex_audit ∅ ∅ 0 "" 0) (default [] (sn_hooks ex_s4 !! "deploy.done") !! 0%nat)).
  split_and!.
  - eapply (comp_unmount forward_order _ ex_s2.1 ex_deploy); [exact ex_comp_reach2| |by vm_compute].
    intros k p Hk Hid. eapply (swf_ids _ _ (comp_reach_wf _ _ ex_comp_reach2) _ "deploy"); [exact Hk| |exact Hid].
    by vm_compute.
  - by vm_compute.
  - vm_compute. constructor.
  - by vm_compute.
  - vm_compute. intros [a Ha]. done.
Qed.

