(* ===== verification/Mounts.v ===== *)
(** The lifecycle of mounted plugins: [mountState], [snapshotLease], [Mount], [unmount] and the
    shutdown of [sdk/runtime/composition_mount.go] and [sdk/runtime/runtime.go], with their
    interleavings.

    A [mountState] has an address; the heap gives its counters.  [runtime.mu] serialises the
    changes of the composition and the acquisitions, which take the mounts of an index one at a
    time; leases are given back one mount at a time, without [runtime.mu], by other goroutines.  A
    step of [rt_step] is one critical section of a mount's own mutex, or the publication. *)

From S2P Require Import Prelude GoText Names Message Registrar Composition CompositionProperties.
From S2P Require Import CompositionInvariant.

(** ** [mountState] *)

(** [mc_closes] counts the goroutines that close the connection, [mc_underflow] records
    [errMountReferenceUnderflow] in [closeErr]. *)
Record mountCell := {
  mc_refs : nat;
  mc_retired : bool;
  mc_closing : bool;
  mc_underflow : bool;
  mc_closes : nat;
}.

Definition newMountState : mountCell :=
  {| mc_refs := 0; mc_retired := false; mc_closing := false; mc_underflow := false; mc_closes := 0 |}.

Definition startCloseLocked (c : mountCell) : mountCell :=
  if negb (mc_retired c) || negb (mc_refs c =? 0)%nat || mc_closing c then c
  else {| mc_refs := mc_refs c; mc_retired := mc_retired c; mc_closing := true; mc_underflow := mc_underflow c;
          mc_closes := S (mc_closes c) |}.

(** [None] is the error "plugin %q mount is closing". *)
Definition cell_acquire (c : mountCell) : option mountCell :=
  if mc_closing c then None
  else Some {| mc_refs := S (mc_refs c); mc_retired := mc_retired c; mc_closing := mc_closing c;
               mc_underflow := mc_underflow c; mc_closes := mc_closes c |}.

Definition cell_release (c : mountCell) : mountCell :=
  if (mc_refs c =? 0)%nat then
    startCloseLocked {| mc_refs := mc_refs c; mc_retired := mc_retired c; mc_closing := mc_closing c;
                        mc_underflow := true; mc_closes := mc_closes c |}
  else
    startCloseLocked {| mc_refs := pred (mc_refs c); mc_retired := mc_retired c; mc_closing := mc_closing c;
                        mc_underflow := mc_underflow c; mc_closes := mc_closes c |}.

Definition cell_retire (c : mountCell) : mountCell :=
  startCloseLocked {| mc_refs := mc_refs c; mc_retired := true; mc_closing := mc_closing c;
                      mc_underflow := mc_underflow c; mc_closes := mc_closes c |}.

(** ** The runtime *)

(** The mounts of a lease that are still held; [release] sets the flag and then gives them back. *)
Record lease := {
  le_mounts : list Z;
  le_released : bool;
}.

(** What the holder of [runtime.mu] does once every mount of the index is acquired: hand out the
    lease, or publish a composition and retire the unmounted plugin. *)
Inductive purpose :=
  | ForLease
  | ForPublish (next : registrySnapshot) (retired : option Z).

(** [acquireMountsLocked] under way; [bd_live] when the index is the composition that is, or is about
    to be, current. *)
Record builder := {
  bd_todo : list Z;
  bd_acquired : list Z;
  bd_purpose : purpose;
  bd_live : bool;
}.

Record runtime := {
  rt_current : registrySnapshot;
  rt_nextSequence : Z;
  rt_closed : bool;
  rt_objects : gmap Z mount;
  rt_cells : gmap Z mountCell;
  rt_leases : list lease;
  rt_busy : option builder;
}.

Definition NewRuntime : runtime :=
  {| rt_current := initialSnapshot; rt_nextSequence := 0; rt_closed := false; rt_objects := ∅; rt_cells := ∅;
     rt_leases := []; rt_busy := None |}.

Definition with_busy (rt : runtime) (busy : option builder) : runtime :=
  {| rt_current := rt_current rt; rt_nextSequence := rt_nextSequence rt; rt_closed := rt_closed rt;
     rt_objects := rt_objects rt; rt_cells := rt_cells rt; rt_leases := rt_leases rt; rt_busy := busy |}.

Definition with_cells (rt : runtime) (cells : gmap Z mountCell) : runtime :=
  {| rt_current := rt_current rt; rt_nextSequence := rt_nextSequence rt; rt_closed := rt_closed rt;
     rt_objects := rt_objects rt; rt_cells := cells; rt_leases := rt_leases rt; rt_busy := rt_busy rt |}.

Definition with_leases (rt : runtime) (leases : list lease) : runtime :=
  {| rt_current := rt_current rt; rt_nextSequence := rt_nextSequence rt; rt_closed := rt_closed rt;
     rt_objects := rt_objects rt; rt_cells := rt_cells rt; rt_leases := leases; rt_busy := rt_busy rt |}.

Definition with_current (rt : runtime) (current : registrySnapshot) (closed : bool) : runtime :=
  {| rt_current := current; rt_nextSequence := rt_nextSequence rt; rt_closed := closed;
     rt_objects := rt_objects rt; rt_cells := rt_cells rt; rt_leases := rt_leases rt; rt_busy := rt_busy rt |}.

(** A new mount state at a fresh address, its hooks numbered. *)
Definition with_object (rt : runtime) (state : mount) (nextSequence : Z) : runtime :=
  {| rt_current := rt_current rt; rt_nextSequence := nextSequence; rt_closed := rt_closed rt;
     rt_objects := <[mt_ID state := state]> (rt_objects rt);
     rt_cells := <[mt_ID state := newMountState]> (rt_cells rt);
     rt_leases := rt_leases rt; rt_busy := rt_busy rt |}.

Definition on_cell (f : mountCell → mountCell) (id : Z) (cells : gmap Z mountCell) : gmap Z mountCell :=
  alter f id cells.

(** The addresses of a composition, in any order. *)
Definition mount_index (plugins : gmap string mount) (ids : list Z) : Prop :=
  ids ≡ₚ mt_ID <$> map_values plugins.

Definition start (ids : list Z) (p : purpose) (live : bool) : option builder :=
  Some {| bd_todo := ids; bd_acquired := []; bd_purpose := p; bd_live := live |}.

(** The end of a critical section: the lease is handed out, the composition published. *)
Definition finish (rt : runtime) (b : builder) : runtime :=
  let rt := with_leases (with_busy rt None) ({| le_mounts := bd_acquired b; le_released := false |} :: rt_leases rt) in
  match bd_purpose b with
  | ForLease => rt
  | ForPublish next None => with_current rt next (rt_closed rt)
  | ForPublish next (Some id) =>
      with_cells (with_current rt next (rt_closed rt)) (on_cell cell_retire id (rt_cells rt))
  end.

Inductive rt_step : runtime → runtime → Prop :=
  | step_acquireSnapshot rt ids :
      rt_busy rt = None → rt_closed rt = false → mount_index (sn_plugins (rt_current rt)) ids →
      rt_step rt (with_busy rt (start ids ForLease true))
  | step_acquireMounts rt ids : (* also [acquireRegistrySnapshot]: any mounts ever created *)
      rt_busy rt = None → rt_closed rt = false → (∀ id, id ∈ ids → is_Some (rt_objects rt !! id)) →
      rt_step rt (with_busy rt (start ids ForLease false))
  | step_Mount rt (order : MapOrder) state staged timeout next nextSequence ids :
      rt_busy rt = None → rt_closed rt = false → rt_objects rt !! mt_ID state = None → registrar_reach staged →
      rt_nextSequence rt + Z.of_nat (length (rg_HookOrder staged)) < two64 →
      mount_plugin (rt_current rt) state staged (rt_nextSequence rt) timeout = Ok (next, nextSequence) →
      mount_index (sn_plugins next) ids →
      rt_step rt (with_busy (with_object rt state nextSequence) (start ids (ForPublish next None) true))
  | step_unmount rt (order : MapOrder) state next ids :
      rt_busy rt = None → rt_objects rt !! mt_ID state = Some state →
      unmount_plugin (rt_current rt) state = Ok (Some next) → mount_index (sn_plugins next) ids →
      rt_step rt (with_busy rt (start ids (ForPublish next (Some (mt_ID state))) true))
  | step_acquire rt b id rest c c' :
      rt_busy rt = Some b → bd_todo b = id :: rest → rt_cells rt !! id = Some c → cell_acquire c = Some c' →
      rt_step rt (with_busy (with_cells rt (<[id := c']> (rt_cells rt)))
        (Some {| bd_todo := rest; bd_acquired := id :: bd_acquired b; bd_purpose := bd_purpose b; bd_live := bd_live b |}))
  | step_acquire_refused rt b id rest c :
      rt_busy rt = Some b → bd_todo b = id :: rest → rt_cells rt !! id = Some c → cell_acquire c = None →
      rt_step rt (with_leases (with_busy rt None) ({| le_mounts := bd_acquired b; le_released := true |} :: rt_leases rt))
  | step_finish rt b :
      rt_busy rt = Some b → bd_todo b = [] → rt_step rt (finish rt b)
  | step_event_refused rt b next retired : (* the lifecycle event could not be prepared *)
      rt_busy rt = Some b → bd_todo b = [] → bd_purpose b = ForPublish next retired →
      rt_step rt (with_leases (with_busy rt None) ({| le_mounts := bd_acquired b; le_released := true |} :: rt_leases rt))
  | step_release rt l1 l l2 :
      rt_leases rt = l1 ++ l :: l2 →
      rt_step rt (with_leases rt (l1 ++ {| le_mounts := le_mounts l; le_released := true |} :: l2))
  | step_release_mount rt l1 l l2 id rest :
      rt_leases rt = l1 ++ l :: l2 → le_released l = true → le_mounts l = id :: rest →
      rt_step rt (with_cells (with_leases rt (l1 ++ {| le_mounts := rest; le_released := true |} :: l2))
        (on_cell cell_release id (rt_cells rt)))
  | step_Close rt ids :
      rt_busy rt = None → rt_closed rt = false → mount_index (sn_plugins (rt_current rt)) ids →
      rt_step rt (with_cells (with_current rt (closed_snapshot (rt_current rt)) true)
        (foldr (on_cell cell_retire) (rt_cells rt) ids)).

Inductive rt_reach : runtime → Prop :=
  | rt_new : rt_reach NewRuntime
  | rt_next rt rt' : rt_reach rt → rt_step rt rt' → rt_reach rt'.

(** ** Cells *)

(** A mount is closing exactly when it is retired and nobody holds it; its connection was closed once
    if so, and never otherwise; no reference was released twice. *)
Definition cell_ok (c : mountCell) : Prop :=
  mc_closing c = mc_retired c && (mc_refs c =? 0)%nat ∧ mc_underflow c = false ∧
  mc_closes c = (if mc_closing c then 1 else 0)%nat.

Lemma startCloseLocked_fields c :
  mc_refs (startCloseLocked c) = mc_refs c ∧ mc_retired (startCloseLocked c) = mc_retired c.
Proof. unfold startCloseLocked. by case_match. Qed.

Lemma startCloseLocked_ok c :
  (mc_closing c = true → mc_retired c = true ∧ mc_refs c = 0%nat) → mc_underflow c = false →
  mc_closes c = (if mc_closing c then 1 else 0)%nat → cell_ok (startCloseLocked c).
Proof.
  intros Hc Hu Hn. unfold startCloseLocked, cell_ok.
  destruct (mc_retired c) eqn:Hr, (mc_refs c =? 0)%nat eqn:H0, (mc_closing c) eqn:Hcl; simpl;
    rewrite ?Hr, ?H0, ?Hcl; try done; try (by rewrite Hn);
    destruct (Hc eq_refl) as [? Hz]; rewrite ?Hz in *; done.
Qed.

Lemma cell_ok_closing c : cell_ok c → mc_closing c = true → mc_retired c = true ∧ mc_refs c = 0%nat.
Proof. intros [Hc _]. rewrite Hc. intros [? ?%Nat.eqb_eq]%andb_true_iff. done. Qed.

Lemma newMountState_ok : cell_ok newMountState.
Proof. done. Qed.

Lemma cell_acquire_ok c c' :
  cell_ok c → cell_acquire c = Some c' →
  cell_ok c' ∧ mc_refs c' = S (mc_refs c) ∧ mc_retired c' = mc_retired c.
Proof.
  unfold cell_acquire, cell_ok. intros (Hc & Hu & Hn). destruct (mc_closing c) eqn:Hcl; [done|].
  intros [= <-]. simpl. by rewrite andb_false_r.
Qed.

Lemma cell_release_ok c n :
  cell_ok c → mc_refs c = S n →
  cell_ok (cell_release c) ∧ mc_refs (cell_release c) = n ∧ mc_retired (cell_release c) = mc_retired c.
Proof.
  intros Hok Hn. unfold cell_release. rewrite Hn. simpl. split.
  - destruct Hok as (Hc & Hu & Hcl). rewrite Hn, andb_false_r in Hc.
    apply startCloseLocked_ok; simpl; rewrite ?Hc in *; done.
  - match goal with |- context [startCloseLocked ?d] => destruct (startCloseLocked_fields d) as [-> ->] end. done.
Qed.

Lemma cell_retire_ok c :
  cell_ok c → cell_ok (cell_retire c) ∧ mc_refs (cell_retire c) = mc_refs c ∧ mc_retired (cell_retire c) = true.
Proof.
  intros Hok. unfold cell_retire. split.
  - pose proof (cell_ok_closing _ Hok) as Hcl. destruct Hok as (Hc & Hu & Hn).
    apply startCloseLocked_ok; simpl; [|done|done]. intros ?. by destruct Hcl.
  - match goal with |- context [startCloseLocked ?d] => destruct (startCloseLocked_fields d) as [-> ->] end. done.
Qed.

(** ** The invariant *)

Definition held (l : list Z) (id : Z) : nat := count_occ Z.eq_dec l id.

#[local] Arguments held : simpl never.

Definition lease_holders (leases : list lease) : list Z := concat (le_mounts <$> leases).

Definition holders (rt : runtime) : list Z :=
  match rt_busy rt with Some b => bd_acquired b | None => [] end ++ lease_holders (rt_leases rt).

Definition not_retired (cells : gmap Z mountCell) (id : Z) : Prop :=
  ∃ c, cells !! id = Some c ∧ mc_retired c = false.

Definition live_plugins (rt : runtime) (s : registrySnapshot) : Prop :=
  ∀ k p, sn_plugins s !! k = Some p → rt_objects rt !! mt_ID p = Some p ∧ not_retired (rt_cells rt) (mt_ID p).

Record busy_ok (rt : runtime) (b : builder) : Prop := {
  bo_known : ∀ id, id ∈ bd_todo b → is_Some (rt_objects rt !! id);
  bo_live : bd_live b = true → ∀ id, id ∈ bd_todo b → not_retired (rt_cells rt) id;
  bo_publish : ∀ next retired, bd_purpose b = ForPublish next retired →
    comp_reach (rt_nextSequence rt) next ∧ live_plugins rt next ∧
    ∀ k p, sn_plugins next !! k = Some p → retired ≠ Some (mt_ID p);
}.

Record rt_inv (rt : runtime) : Prop := {
  ri_heap : ∀ id, is_Some (rt_objects rt !! id) ↔ is_Some (rt_cells rt !! id);
  ri_ids : ∀ id m, rt_objects rt !! id = Some m → mt_ID m = id;
  ri_refs : ∀ id c, rt_cells rt !! id = Some c → mc_refs c = held (holders rt) id;
  ri_cells : ∀ id c, rt_cells rt !! id = Some c → cell_ok c;
  ri_known : ∀ id, id ∈ holders rt → is_Some (rt_objects rt !! id);
  ri_comp : comp_reach (rt_nextSequence rt) (rt_current rt);
  ri_current : live_plugins rt (rt_current rt);
  ri_busy : ∀ b, rt_busy rt = Some b → busy_ok rt b;
}.

Lemma held_app l1 l2 id : held (l1 ++ l2) id = (held l1 id + held l2 id)%nat.
Proof. apply count_occ_app. Qed.

Lemma held_cons x l id : held (x :: l) id = ((if decide (x = id) then 1 else 0) + held l id)%nat.
Proof. unfold held. simpl. destruct (Z.eq_dec x id), (decide (x = id)); done. Qed.

Lemma held_perm l1 l2 id : l1 ≡ₚ l2 → held l1 id = held l2 id.
Proof. intros Hp. unfold held. revert id. by apply (Permutation_count_occ Z.eq_dec). Qed.

Lemma held_zero l id : id ∉ l → held l id = 0%nat.
Proof. intros Hl. apply count_occ_not_In. by rewrite <- list_elem_of_In. Qed.

Lemma held_pos l id : id ∈ l → (0 < held l id)%nat.
Proof. intros Hl. apply count_occ_In. by apply list_elem_of_In. Qed.

(** Changing one cell without reviving a mount. *)
Lemma not_retired_insert cells id id' c c' :
  cells !! id = Some c → mc_retired c' = mc_retired c → not_retired cells id' → not_retired (<[id := c']> cells) id'.
Proof.
  intros Hc Hr (d & Hd & Hf). unfold not_retired. rewrite lookup_insert. case_decide; [|eauto].
  subst. exists c'. rewrite Hc in Hd. injection Hd as ->. by rewrite Hr.
Qed.

Lemma index_known rt next ids id :
  live_plugins rt next → mount_index (sn_plugins next) ids → id ∈ ids →
  is_Some (rt_objects rt !! id) ∧ not_retired (rt_cells rt) id.
Proof.
  intros Hl Hi Hid. unfold mount_index in Hi. rewrite Hi in Hid. apply list_elem_of_fmap in Hid as (p & -> & Hp).
  apply elem_of_map_values in Hp as [k Hp]. apply Hl in Hp as [-> ?]. eauto.
Qed.

Lemma live_mono rt rt' s :
  (∀ id m, rt_objects rt !! id = Some m → rt_objects rt' !! id = Some m) →
  (∀ id, not_retired (rt_cells rt) id → not_retired (rt_cells rt') id) → live_plugins rt s → live_plugins rt' s.
Proof. intros Ho Hc Hl k p Hp. apply Hl in Hp as [? ?]. auto. Qed.

Lemma busy_mono rt rt' b :
  rt_objects rt' = rt_objects rt → rt_nextSequence rt' = rt_nextSequence rt →
  (∀ id, not_retired (rt_cells rt) id → not_retired (rt_cells rt') id) → busy_ok rt b → busy_ok rt' b.
Proof.
  intros Ho Hn Hc [Hk Hl Hp]. split.
  - by rewrite Ho.
  - auto.
  - intros next retired Hb. rewrite Hn. apply Hp in Hb as (? & ? & ?). split_and!; [done| |done].
    eapply live_mono; [|done|done]. by rewrite Ho.
Qed.

(** A change of one cell that keeps its bookkeeping. *)
Lemma rt_inv_cell rt rt' id c c' :
  rt_inv rt → rt_cells rt !! id = Some c → rt_cells rt' = <[id := c']> (rt_cells rt) →
  rt_objects rt' = rt_objects rt → rt_nextSequence rt' = rt_nextSequence rt → rt_current rt' = rt_current rt →
  cell_ok c' → mc_retired c' = mc_retired c →
  mc_refs c' = held (holders rt') id → (∀ id', id' ≠ id → held (holders rt') id' = held (holders rt) id') →
  (∀ id', id' ∈ holders rt' → id' ∈ holders rt ∨ id' = id) →
  (∀ b, rt_busy rt' = Some b → busy_ok rt' b) → rt_inv rt'.
Proof.
  intros [Hh Hi Hr Hc Hk Hco Hcu Hb] Hid Hcells Ho Hn Hcur Hok Hret Hrefs Hother Hin Hbusy.
  assert (∀ id', not_retired (rt_cells rt) id' → not_retired (rt_cells rt') id') as Hnr.
  { intros id' Hnr. rewrite Hcells. by eapply not_retired_insert. }
  split; rewrite ?Ho, ?Hn, ?Hcur; try done.
  - intros id'. rewrite Hcells, lookup_insert_is_Some', Hh. split; [by auto|]. intros [<-|?]; eauto.
  - intros id' d. rewrite Hcells, lookup_insert_Some. intros [[<- <-]|[Hne Hd]]; [done|].
    rewrite Hother by done. by apply Hr.
  - intros id' d. rewrite Hcells, lookup_insert_Some. intros [[<- <-]|[Hne Hd]]; [done|by eapply Hc].
  - intros id' [?| ->]%Hin; [by apply Hk|]. apply Hh. eauto.
  - eapply live_mono; [|done|done]. by rewrite Ho.
Qed.

Lemma rt_inv_start rt ids p live :
  rt_inv rt → rt_busy rt = None →
  busy_ok rt {| bd_todo := ids; bd_acquired := []; bd_purpose := p; bd_live := live |} →
  rt_inv (with_busy rt (start ids p live)).
Proof.
  intros [Hh Hi Hr Hc Hk Hco Hcu _] Hn Hb.
  assert (holders (with_busy rt (start ids p live)) = holders rt) as Hhold
    by (unfold holders; simpl; by rewrite Hn).
  split; rewrite ?Hhold; try done. intros b [= <-]. eapply busy_mono; [..|exact Hb]; done.
Qed.

Lemma held_new_lease rt b acquired released id :
  rt_busy rt = Some b → acquired = bd_acquired b →
  held (holders (with_leases (with_busy rt None) ({| le_mounts := acquired; le_released := released |} :: rt_leases rt))) id
  = held (holders rt) id.
Proof. intros Hb ->. unfold holders, lease_holders. simpl. rewrite Hb. done. Qed.

(** Giving up [runtime.mu] with a new lease. *)
Lemma rt_inv_lease rt b released :
  rt_inv rt → rt_busy rt = Some b →
  rt_inv (with_leases (with_busy rt None) ({| le_mounts := bd_acquired b; le_released := released |} :: rt_leases rt)).
Proof.
  intros [Hh Hi Hr Hc Hk Hco Hcu _] Hb.
  split; try done.
  - intros id c Hid. rewrite (held_new_lease _ b) by done. by apply Hr.
  - intros id Hid. apply Hk. revert Hid. unfold holders, lease_holders. simpl. by rewrite Hb.
Qed.

(** ** Every step preserves it *)

Lemma mount_plugin_next `{!MapOrder} next s state staged timeout s' next' :
  comp_reach next s → next + Z.of_nat (length (rg_HookOrder staged)) < two64 →
  mount_plugin s state staged next timeout = Ok (s', next') →
  next ≤ next' ∧ sn_plugins s' = <[mt_Name state := state]> (sn_plugins s).
Proof.
  intros Hwf%comp_reach_wf Hb Hok. apply mount_plugin_Ok in Hok as (_ & hooks & Hh & ->). split; [|done].
  apply add_hooks_spec in Hh as (-> & _); [lia|apply Hwf|done|apply Hwf].
Qed.

Lemma rt_inv_object rt state nextSequence :
  rt_inv rt → rt_busy rt = None → rt_objects rt !! mt_ID state = None → rt_nextSequence rt ≤ nextSequence →
  rt_inv (with_object rt state nextSequence).
Proof.
  intros [Hh Hi Hr Hc Hk Hco Hcu _] Hn Hf Hle.
  assert (rt_cells rt !! mt_ID state = None) as Hfc.
  { apply eq_None_not_Some. intros Hs%Hh. rewrite Hf in Hs. by destruct Hs. }
  assert (∀ id, not_retired (rt_cells rt) id → not_retired (<[mt_ID state := newMountState]> (rt_cells rt)) id) as Hnr.
  { intros id (c & Hid & Hret). exists c. rewrite lookup_insert_ne; [done|]. intros <-. congruence. }
  split; cbn [with_object rt_objects rt_cells rt_nextSequence rt_current rt_busy].
  - intros id. by rewrite !lookup_insert_is_Some', Hh.
  - intros id m. rewrite lookup_insert_Some. intros [[? <-]|[_ Hm]]; [done|by apply Hi].
  - intros id c. rewrite lookup_insert_Some. intros [[<- <-]|[_ Hm]]; [|by apply Hr].
    symmetry. apply held_zero. intros Hin%Hk. rewrite Hf in Hin. by destruct Hin.
  - intros id c. rewrite lookup_insert_Some. intros [[<- <-]|[_ Hm]]; [apply newMountState_ok|by eapply Hc].
  - intros id Hid%Hk. apply lookup_insert_is_Some'. by right.
  - by eapply comp_skip.
  - eapply live_mono; [|exact Hnr|exact Hcu]. intros id m Hm. simpl. rewrite lookup_insert_ne; [done|].
    intros <-. congruence.
  - by rewrite Hn.
Qed.

Lemma rt_inv_Mount rt (order : MapOrder) state staged timeout next nextSequence ids :
  rt_inv rt → rt_busy rt = None → rt_objects rt !! mt_ID state = None → registrar_reach staged →
  rt_nextSequence rt + Z.of_nat (length (rg_HookOrder staged)) < two64 →
  mount_plugin (rt_current rt) state staged (rt_nextSequence rt) timeout = Ok (next, nextSequence) →
  mount_index (sn_plugins next) ids →
  rt_inv (with_busy (with_object rt state nextSequence) (start ids (ForPublish next None) true)).
Proof.
  intros Hinv Hn Hf Hst Hb Hok Hids.
  assert (fresh_mount (rt_current rt) state) as Hfresh.
  { intros k p Hp Heq. apply (ri_current _ Hinv) in Hp as [Hp _]. congruence. }
  pose proof (comp_mount _ _ _ _ _ _ _ _ (ri_comp _ Hinv) Hst Hfresh Hb Hok) as Hcomp.
  apply mount_plugin_next in Hok as [Hle Hplugins]; [|apply Hinv|done].
  assert (rt_inv (with_object rt state nextSequence)) as Hinv' by by apply rt_inv_object.
  assert (live_plugins (with_object rt state nextSequence) next) as Hlive.
  { intros k p. rewrite Hplugins, lookup_insert_Some. intros [[_ <-]|[_ Hp]].
    - split; [apply lookup_insert_eq|]. exists newMountState. split; [apply lookup_insert_eq|done].
    - exact (ri_current _ Hinv' k p Hp). }
  apply rt_inv_start; [done|done|].
  split; simpl.
  - intros id Hid. by destruct (index_known _ _ _ _ Hlive Hids Hid) as [? _].
  - intros _ id Hid. by destruct (index_known _ _ _ _ Hlive Hids Hid) as [_ ?].
  - intros ? ? [= <- <-]. done.
Qed.

Lemma rt_inv_unmount rt (order : MapOrder) state next ids :
  rt_inv rt → rt_busy rt = None → rt_objects rt !! mt_ID state = Some state →
  unmount_plugin (rt_current rt) state = Ok (Some next) → mount_index (sn_plugins next) ids →
  rt_inv (with_busy rt (start ids (ForPublish next (Some (mt_ID state))) true)).
Proof.
  intros Hinv Hn Ho Hok Hids.
  assert (same_object (rt_current rt) state) as Hsame.
  { intros k p Hp Heq. apply (ri_current _ Hinv) in Hp as [Hp _]. congruence. }
  pose proof (comp_unmount _ _ _ _ _ (ri_comp _ Hinv) Hsame Hok) as Hcomp.
  pose proof (comp_reach_wf _ _ (ri_comp _ Hinv)) as Hwf.
  apply unmount_plugin_Ok in Hok as (Ha & _ & ->); [|done].
  assert (live_plugins rt (next_generation (without (rt_current rt) state))) as Hlive.
  { intros k p. simpl. intros [_ Hp]%lookup_delete_Some. exact (ri_current _ Hinv k p Hp). }
  apply rt_inv_start; [done|done|]. split; simpl.
  - intros id Hid. by destruct (index_known _ _ _ _ Hlive Hids Hid) as [? _].
  - intros _ id Hid. by destruct (index_known _ _ _ _ Hlive Hids Hid) as [_ ?].
  - intros ? ? [= <- <-]. split; [done|]. split; [done|].
    intros k p Hp [= Heq]. simpl in Hp. apply lookup_delete_Some in Hp as [Hne Hp].
    rewrite (Hsame _ _ Hp) in Hp by congruence. apply (swf_plugins _ _ Hwf) in Hp. done.
Qed.

Lemma on_cell_insert f id c cells : cells !! id = Some c → on_cell f id cells = <[id := f c]> cells.
Proof.
  intros Hc. apply map_eq. intros id'. unfold on_cell. rewrite lookup_alter, lookup_insert.
  case_decide; [subst; by rewrite Hc|done].
Qed.

Lemma held_release l1 l l2 id rest id' :
  le_mounts l = id :: rest →
  held (lease_holders (l1 ++ l :: l2)) id' =
  ((if decide (id = id') then 1 else 0) +
   held (lease_holders (l1 ++ {| le_mounts := rest; le_released := true |} :: l2)) id')%nat.
Proof.
  intros Hl. unfold lease_holders. rewrite !fmap_app, !concat_app, !fmap_cons. cbn [concat le_mounts].
  rewrite Hl, <- app_comm_cons, !held_app, held_cons, !held_app. lia.
Qed.

Lemma elem_of_release l1 l l2 id rest id' :
  le_mounts l = id :: rest →
  id' ∈ lease_holders (l1 ++ {| le_mounts := rest; le_released := true |} :: l2) →
  id' ∈ lease_holders (l1 ++ l :: l2).
Proof.
  intros Hl. unfold lease_holders. rewrite !fmap_app, !concat_app. simpl. rewrite Hl. set_solver.
Qed.

Lemma rt_inv_release_mount rt l1 l l2 id rest :
  rt_inv rt → rt_leases rt = l1 ++ l :: l2 → le_mounts l = id :: rest →
  rt_inv (with_cells (with_leases rt (l1 ++ {| le_mounts := rest; le_released := true |} :: l2))
    (on_cell cell_release id (rt_cells rt))).
Proof.
  intros Hinv Hl Hm.
  assert (id ∈ holders rt) as Hin.
  { unfold holders. apply elem_of_app. right. rewrite Hl. unfold lease_holders.
    rewrite fmap_app, concat_app. simpl. rewrite Hm. set_solver. }
  destruct (proj1 (ri_heap _ Hinv id) (ri_known _ Hinv _ Hin)) as [c Hc].
  assert (∀ id', held (holders rt) id' = ((if decide (id = id') then 1 else 0) +
    held (holders (with_leases rt (l1 ++ {| le_mounts := rest; le_released := true |} :: l2))) id')%nat) as Hheld.
  { intros id'. unfold holders. simpl. rewrite Hl, !held_app, (held_release _ _ _ _ _ _ Hm). lia. }
  destruct (cell_release_ok c (pred (mc_refs c))) as (Hok & Hrefs & Hret).
  { by eapply (ri_cells _ Hinv). }
  { rewrite (ri_refs _ Hinv _ _ Hc). pose proof (held_pos _ _ Hin). lia. }
  apply (rt_inv_cell rt _ id c (cell_release c)); try done.
  - simpl. by apply on_cell_insert.
  - rewrite Hrefs, (ri_refs _ Hinv _ _ Hc), Hheld, decide_True by done. done.
  - intros id' Hne. rewrite Hheld, decide_False by congruence. done.
  - intros id'. unfold holders. simpl. rewrite Hl, !elem_of_app. intros [?|Hr]; [by left; left|].
    left. right. by eapply elem_of_release.
  - intros b Hb. eapply busy_mono; [..|by apply (ri_busy _ Hinv)]; try done.
    intros id' Hnr. simpl. rewrite (on_cell_insert _ _ _ _ Hc). by eapply not_retired_insert.
Qed.

Lemma rt_inv_acquire rt b id rest c c' :
  rt_inv rt → rt_busy rt = Some b → bd_todo b = id :: rest → rt_cells rt !! id = Some c → cell_acquire c = Some c' →
  rt_inv (with_busy (with_cells rt (<[id := c']> (rt_cells rt)))
    (Some {| bd_todo := rest; bd_acquired := id :: bd_acquired b; bd_purpose := bd_purpose b; bd_live := bd_live b |})).
Proof.
  intros Hinv Hb Ht Hc Ha.
  destruct (cell_acquire_ok c c') as (Hok & Hrefs & Hret); [by eapply (ri_cells _ Hinv)|done|].
  pose proof (ri_busy _ Hinv _ Hb) as [Hk Hl Hp].
  apply (rt_inv_cell rt _ id c c'); try done.
  - rewrite Hrefs, (ri_refs _ Hinv _ _ Hc). unfold holders. simpl. rewrite Hb, held_cons, decide_True by done. done.
  - intros id' Hne. unfold holders. cbn [with_busy with_cells rt_busy rt_leases bd_acquired].
    rewrite Hb, <- app_comm_cons, held_cons, decide_False by congruence. done.
  - intros id'. unfold holders. simpl. rewrite Hb. set_solver.
  - intros b' [= <-].
    assert (∀ id', not_retired (rt_cells rt) id' → not_retired (<[id := c']> (rt_cells rt)) id') as Hnr.
    { intros id'. by eapply not_retired_insert. }
    split; simpl.
    + intros id' Hid. apply Hk. rewrite Ht. by right.
    + intros Hlive id' Hid. apply Hnr, Hl; [done|]. rewrite Ht. by right.
    + intros next retired Hpub. apply Hp in Hpub as (? & ? & ?). split_and!; [done| |done].
      by apply (live_mono rt).
Qed.

(** Retiring a mount that no live composition has. *)
Lemma not_retired_retire cells id id' :
  id' ≠ id → not_retired cells id' → not_retired (on_cell cell_retire id cells) id'.
Proof. intros Hne (c & Hc & Hr). exists c. unfold on_cell. by rewrite lookup_alter_ne by done. Qed.

Lemma lookup_retire id cells id' c :
  on_cell cell_retire id cells !! id' = Some c →
  ∃ c0, cells !! id' = Some c0 ∧ (c = c0 ∨ c = cell_retire c0).
Proof.
  unfold on_cell. rewrite lookup_alter. case_decide as He; [subst id'|by eauto].
  destruct (cells !! id) as [c0|]; [|done]. intros [= <-]. eauto.
Qed.

Lemma rt_inv_retire rt id current closed :
  rt_inv rt → rt_busy rt = None → comp_reach (rt_nextSequence rt) current → live_plugins rt current →
  (∀ k p, sn_plugins current !! k = Some p → mt_ID p ≠ id) →
  rt_inv (with_cells (with_current rt current closed) (on_cell cell_retire id (rt_cells rt))).
Proof.
  intros [Hh Hi Hr Hc Hk Hco Hcu _] Hn Hcomp Hlive Hne.
  split; cbn [with_cells with_current rt_objects rt_cells rt_nextSequence rt_current rt_busy]; try done.
  - intros id'. unfold on_cell. by rewrite lookup_alter_is_Some, Hh.
  - intros id' c (c0 & Hc0 & [->| ->])%lookup_retire; [by apply Hr|].
    destruct (cell_retire_ok c0) as (_ & -> & _); [by eapply Hc|by apply Hr].
  - intros id' c (c0 & Hc0 & [->| ->])%lookup_retire; [by eapply Hc|]. apply cell_retire_ok. by eapply Hc.
  - intros k p Hp. split; [by apply (Hlive k)|]. apply not_retired_retire; [by eapply Hne|]. by apply (Hlive k).
  - by rewrite Hn.
Qed.

Lemma rt_inv_current rt current closed :
  rt_inv rt → rt_busy rt = None → comp_reach (rt_nextSequence rt) current → live_plugins rt current →
  rt_inv (with_current rt current closed).
Proof. intros [Hh Hi Hr Hc Hk Hco Hcu _] Hn Hcomp Hlive. split; try done. simpl. by rewrite Hn. Qed.

Lemma rt_inv_finish rt b : rt_inv rt → rt_busy rt = Some b → rt_inv (finish rt b).
Proof.
  intros Hinv Hb. pose proof (rt_inv_lease _ _ false Hinv Hb) as Hinv'.
  pose proof (bo_publish _ _ (ri_busy _ Hinv _ Hb)) as Hp. unfold finish.
  destruct (bd_purpose b) as [|next [id|]]; [done|..]; destruct (Hp _ _ eq_refl) as (Hcomp & Hlive & Hne).
  - apply rt_inv_retire; try done. intros k p Hk Heq. eapply Hne; [done|]. by rewrite Heq.
  - by apply rt_inv_current.
Qed.

Lemma rt_inv_Close rt ids :
  rt_inv rt → rt_busy rt = None →
  rt_inv (with_cells (with_current rt (closed_snapshot (rt_current rt)) true)
    (foldr (on_cell cell_retire) (rt_cells rt) ids)).
Proof.
  intros Hinv Hn. assert (∀ s, live_plugins s (closed_snapshot (rt_current rt))) as Hlive.
  { intros s k p. simpl. by rewrite lookup_empty. }
  assert (rt_inv (with_current rt (closed_snapshot (rt_current rt)) true)) as Hinv0.
  { apply rt_inv_current; [done|done|apply comp_close, Hinv|done]. }
  revert Hinv0. set (rt0 := with_current rt _ true). intros Hinv0.
  assert (∀ ids, rt_inv (with_cells rt0 (foldr (on_cell cell_retire) (rt_cells rt) ids))) as Hall; [|apply Hall].
  clear ids. induction ids as [|id ids IH]; [by destruct rt|]. simpl.
  apply (rt_inv_retire _ id (closed_snapshot (rt_current rt)) true) in IH; [done|done|apply Hinv0|done|].
  intros k p. simpl. by rewrite lookup_empty.
Qed.

Lemma rt_inv_step rt rt' : rt_inv rt → rt_step rt rt' → rt_inv rt'.
Proof.
  intros Hinv Hstep. destruct Hstep as [rt ids Hn Hcl Hids|rt ids Hn Hcl Hids| | |rt b id rest c c' Hb Ht Hc Ha
    |rt b id rest c Hb Ht Hc Ha|rt b Hb Ht|rt b next retired Hb Ht Hp|rt l1 l l2 Hl|rt l1 l l2 id rest Hl Hr Hm|].
  - apply rt_inv_start; [done|done|].
    pose proof (index_known rt (rt_current rt) ids) as Hk. split; simpl; [| |done].
    + intros id Hid. by apply Hk; [apply Hinv| |].
    + intros _ id Hid. by apply Hk; [apply Hinv| |].
  - by apply rt_inv_start; [done|done|].
  - by eapply rt_inv_Mount.
  - by eapply rt_inv_unmount.
  - by eapply rt_inv_acquire.
  - by apply rt_inv_lease.
  - by apply rt_inv_finish.
  - by apply rt_inv_lease.
  - assert (holders (with_leases rt (l1 ++ {| le_mounts := le_mounts l; le_released := true |} :: l2)) = holders rt) as Hh.
    { unfold holders, lease_holders. simpl. by rewrite Hl, !fmap_app. }
    destruct Hinv as [? ? ? ? ? ? ? Hbusy]. split; rewrite ?Hh; try done.
    intros b Hb. eapply busy_mono; [..|by apply Hbusy]; done.
  - by eapply rt_inv_release_mount.
  - by apply rt_inv_Close.
Qed.

Lemma rt_reach_inv rt : rt_reach rt → rt_inv rt.
Proof.
  induction 1 as [|rt rt' _ IH Hs]; [|by eapply rt_inv_step].
  split; simpl; try done.
  - intros id. by rewrite !lookup_empty.
  - intros id []%elem_of_nil.
  - apply comp_initial.
Qed.

(** ** What the lifecycle promises *)

(** C5. No connection is closed under a lease: whatever is mounted, unmounted, acquired, released and
    shut down, in any interleaving, a mount that some lease still holds is not closing and its
    connection was never closed by it, even after the plugin was unmounted or the runtime closed.  The
    connection of a mount that failed is closed by [Mount] itself, which never published it; that
    close is not a step of this system. *)
Theorem lease_keeps_connection_open rt l id :
  rt_reach rt → l ∈ rt_leases rt → id ∈ le_mounts l →
  ∃ c, rt_cells rt !! id = Some c ∧ mc_closing c = false ∧ mc_closes c = 0%nat ∧ (0 < mc_refs c)%nat.
Proof.
  intros Hinv%rt_reach_inv Hl Hid.
  assert (id ∈ holders rt) as Hin.
  { unfold holders. apply elem_of_app. right. apply list_elem_of_In, in_concat. exists (le_mounts l).
    rewrite <- !list_elem_of_In. split; [|done]. apply list_elem_of_fmap. eauto. }
  destruct (proj1 (ri_heap _ Hinv id) (ri_known _ Hinv _ Hin)) as [c Hc].
  pose proof (held_pos _ _ Hin) as Hpos. rewrite <- (ri_refs _ Hinv _ _ Hc) in Hpos.
  destruct (ri_cells _ Hinv _ _ Hc) as (Hcl & _ & Hn). exists c.
  rewrite (proj2 (Nat.eqb_neq (mc_refs c) 0)), andb_false_r in Hcl by lia. rewrite Hcl in Hn. done.
Qed.

(** The connection of a mount is closed exactly when the mount is retired and nobody holds it,
    and then exactly once; the count of references is the number of holders, and no reference is
    ever released twice. *)
Theorem connection_closed_once rt id c :
  rt_reach rt → rt_cells rt !! id = Some c →
  mc_refs c = held (holders rt) id ∧ mc_underflow c = false ∧
  (mc_closes c = 1%nat ↔ mc_retired c = true ∧ id ∉ holders rt) ∧ (mc_closes c ≤ 1)%nat.
Proof.
  intros Hinv%rt_reach_inv Hc. destruct (ri_cells _ Hinv _ _ Hc) as (Hcl & Hu & Hn).
  pose proof (ri_refs _ Hinv _ _ Hc) as Hr. split; [done|]. split; [done|]. rewrite Hn, Hcl. split.
  - destruct (mc_retired c); simpl; [|by split; [|intros []]].
    destruct (Nat.eqb_spec (mc_refs c) 0) as [H0|H0].
    + split; [|done]. intros _. split; [done|]. intros Hin%held_pos. lia.
    + split; [done|]. intros [_ Hin%held_zero]. lia.
  - by destruct (_ && _); lia.
Qed.

(** The plugins of the current composition can always be acquired: while [acquireSnapshot],
    [Mount] or [unmount] collects the mounts of the composition that is, or is about to be, current,
    no acquisition is refused; and the current composition is well formed in every state. *)
Theorem current_composition_available rt :
  rt_reach rt →
  snapshot_wf (rt_nextSequence rt) (rt_current rt) ∧
  (∀ k p, sn_plugins (rt_current rt) !! k = Some p →
    ∃ c, rt_cells rt !! mt_ID p = Some c ∧ mc_closing c = false ∧ is_Some (cell_acquire c)) ∧
  (∀ b id, rt_busy rt = Some b → bd_live b = true → id ∈ bd_todo b →
    ∃ c, rt_cells rt !! id = Some c ∧ is_Some (cell_acquire c)).
Proof.
  intros Hinv%rt_reach_inv.
  assert (∀ id, not_retired (rt_cells rt) id →
    ∃ c, rt_cells rt !! id = Some c ∧ mc_closing c = false ∧ is_Some (cell_acquire c)) as Hnr.
  { intros id (c & Hc & Hr). exists c. destruct (ri_cells _ Hinv _ _ Hc) as (Hcl & _). rewrite Hr in Hcl.
    simpl in Hcl. unfold cell_acquire. rewrite Hcl. eauto. }
  split; [apply comp_reach_wf, Hinv|]. split.
  - intros k p Hp. apply Hnr. by apply (ri_current _ Hinv k).
  - intros b id Hb Hl Hid. destruct (Hnr id) as (c & ? & _ & ?); [|eauto].
    by apply (bo_live _ _ (ri_busy _ Hinv _ Hb)).
Qed.

(** ** A plugin is unmounted while a session still uses it *)

Definition ex_b0 : builder :=
  {| bd_todo := [1]; bd_acquired := []; bd_purpose := ForPublish ex_s1.1 None; bd_live := true |}.
Definition ex_rt1 : runtime := with_busy (with_object NewRuntime ex_deploy 0) (Some ex_b0).
Definition ex_b1 : builder :=
  {| bd_todo := []; bd_acquired := [1]; bd_purpose := ForPublish ex_s1.1 None; bd_live := true |}.
Definition ex_cell1 : mountCell :=
  {| mc_refs := 1; mc_retired := false; mc_closing := false; mc_underflow := false; mc_closes := 0 |}.
Definition ex_rt2 : runtime := with_busy (with_cells ex_rt1 (<[1 := ex_cell1]> (rt_cells ex_rt1))) (Some ex_b1).
Definition ex_rt3 : runtime := finish ex_rt2 ex_b1.
Definition ex_unmounted : registrySnapshot :=
  default initialSnapshot (get None (@unmount_plugin forward_order ex_s1.1 ex_deploy)).
Definition ex_b3 : builder :=
  {| bd_todo := []; bd_acquired := []; bd_purpose := ForPublish ex_unmounted (Some 1); bd_live := true |}.
Definition ex_rt4 : runtime := with_busy ex_rt3 (Some ex_b3).
Definition ex_rt5 : runtime := finish ex_rt4 ex_b3.

Lemma ex_rt2_reach : rt_reach ex_rt2.
Proof.
  apply rt_next with ex_rt1.
  - apply rt_next with NewRuntime; [constructor|].
    eapply (step_Mount NewRuntime forward_order ex_deploy ex_deploy_staged 5000 ex_s1.1 ex_s1.2 [1]); try done.
    + apply ex_staged_reach.
    + vm_compute. reflexivity.
  - apply (step_acquire ex_rt1 ex_b0 1 [] newMountState ex_cell1); [done|done|by vm_compute|done].
Qed.

Lemma ex_rt5_reach : rt_reach ex_rt5.
Proof.
  apply rt_next with ex_rt4; [|by apply step_finish].
  apply rt_next with ex_rt3; [|].
  - apply rt_next with ex_rt2; [apply ex_rt2_reach|by apply step_finish].
  - eapply (step_unmount ex_rt3 forward_order ex_deploy ex_unmounted []); [done|by vm_compute| |].
    + vm_compute. reflexivity.
    + unfold mount_index. vm_compute. reflexivity.
Qed.

Lemma lease_keeps_connection_open_witness :
  sn_plugins (rt_current ex_rt5) !! "deploy" = None ∧
  ∃ c, rt_cells ex_rt5 !! 1 = Some c ∧ mc_closing c = false ∧ mc_closes c = 0%nat ∧ (0 < mc_refs c)%nat.
Proof.
  split; [by vm_compute|].
  apply (lease_keeps_connection_open ex_rt5 {| le_mounts := [1]; le_released := false |} 1 ex_rt5_reach).
  - simpl. right. left.
  - left.
Defined.

Definition ex_retired : mountCell :=
  {| mc_refs := 1; mc_retired := true; mc_closing := false; mc_underflow := false; mc_closes := 0 |}.

Lemma connection_closed_once_witness : 1%nat = held (holders ex_rt5) 1 ∧ (mc_closes ex_retired ≤ 1)%nat.
Proof.
  destruct (connection_closed_once ex_rt5 1 ex_retired ex_rt5_reach) as (Hr & _ & _ & Hc);
    [vm_compute; reflexivity|].
  split; [exact Hr|exact Hc].
Defined.

Lemma current_composition_available_witness :
  is_Some (cell_acquire newMountState) ∧ snapshot_wf 0 (rt_current ex_rt2).
Proof.
  split; [vm_compute; eauto|]. apply (current_composition_available ex_rt2 ex_rt2_reach).
Defined.
