(* ===== verification/EventDispatch.v ===== *)
(** Event dispatch: the effects of [sdk/hook.go] and the hook loop of
    [sdk/runtime/execution_events.go], with the audit it records, and the plan of subscriber
    deliveries of [sdk/runtime/delivery_worker.go] and [sdk/runtime/event_postcommit.go].

    A hook is known by its answers ([invokeHook]), the clock by the durations it measures, and
    [encoding/json] by the two functions the code uses on payloads; [Unmarshal] distinguishes a JSON
    object from [null], which Go decodes into a nil map. *)

From S2P Require Import Prelude GoText Names Sha256 Message ContextInjection Delivery.
From S2P Require Import DeliveryStore DeliveryWorker Trajectory Agent Registrar Composition.

(** ** Data *)

Record Block := {
  bk_Reason : string;
  bk_Kind : string;
}.

Definition ActionStep : string := "step".
Definition ActionStop : string := "stop".
Definition ActionInject : string := "inject".

Record Action := {
  ac_Kind : string;
  ac_Cause : option Cause;
  ac_Messages : list Message;
}.

(** A nil patch and an empty one behave alike. *)
Record Effect := {
  ef_Patch : gmap string string;
  ef_Block : option Block;
  ef_Action : option Action;
}.

Definition zeroEffect : Effect := {| ef_Patch := ∅; ef_Block := None; ef_Action := None |}.

Inductive eventDispatchScope := eventDispatchEmit | eventDispatchExecution | eventDispatchPostCommit.

#[export] Instance eventDispatchScope_eq_dec : EqDecision eventDispatchScope.
Proof. solve_decision. Defined.

Record eventDispatchOptions := {
  eo_scope : eventDispatchScope;
  eo_enqueueSubscriberDeliveries : bool;
  eo_invokeHooks : bool;
}.

Definition emitEventDispatchOptions : eventDispatchOptions :=
  {| eo_scope := eventDispatchEmit; eo_enqueueSubscriberDeliveries := true; eo_invokeHooks := true |}.

Definition executionEventDispatchOptions : eventDispatchOptions :=
  {| eo_scope := eventDispatchExecution; eo_enqueueSubscriberDeliveries := true; eo_invokeHooks := true |}.

Definition executionObservationEventDispatchOptions : eventDispatchOptions :=
  {| eo_scope := eventDispatchExecution; eo_enqueueSubscriberDeliveries := true; eo_invokeHooks := false |}.

Definition isPostCommit (options : eventDispatchOptions) : bool :=
  bool_decide (eo_scope options = eventDispatchPostCommit).

Definition returnSubscriberFailures (options : eventDispatchOptions) : bool :=
  negb (bool_decide (eo_scope options = eventDispatchExecution)).

Record DispatchResult := {
  dr_Event : Event;
  dr_Block : option Block;
  dr_Actions : list Action;
  dr_Audit : EventAudit;
  dr_actionSteps : list Z;
}.

(** ** Audit *)

Definition payloadHash (payload : string) : string := "sha256:" ++ sha256_hex payload.

Definition zeroResolution (outcome : string) : EffectResolution :=
  {| res_Outcome := outcome; res_Block := None; res_BlockStep := None; res_Action := None;
     res_ActionSteps := []; res_ActionRule := ""; res_PatchFields := []; res_Error := "" |}.

Definition newEventAudit (event : Event) : EventAudit :=
  let hash := payloadHash (ev_Payload event) in
  {| ea_EventID := ev_ID event; ea_EventName := ev_Name event; ea_Generation := ev_Generation event;
     ea_InputHash := hash; ea_OutputHash := hash; ea_Steps := [];
     ea_Resolution := zeroResolution "no_effect" |}.

Definition newHookAuditStep (index : Z) (owned : ownedHook) (payload : string) : HookAuditStep :=
  let hash := payloadHash payload in
  {| ha_Index := index; ha_Plugin := mt_Name (oh_Owner owned);
     ha_PluginVersion := mf_Version (mt_Manifest (oh_Owner owned));
     ha_Hook := hs_Name (oh_Spec owned); ha_Priority := hs_Priority (oh_Spec owned);
     ha_Sequence := oh_Seq owned; ha_FailurePolicy := hs_FailurePolicy (oh_Spec owned);
     ha_Duration := 0; ha_InputHash := hash; ha_OutputHash := hash; ha_PatchFields := [];
     ha_Overwrites := []; ha_Block := None; ha_Action := None; ha_Error := "";
     ha_Outcome := "no_effect"; ha_Attributes := ∅ |}.

(** The fields of a step the dispatch loop sets. *)
Definition with_outcome (step : HookAuditStep) (duration : duration) (output : string)
    (fields overwrites : list string) (block : option BlockSummary) (action : option ActionSummary)
    (error outcome : string) : HookAuditStep :=
  {| ha_Index := ha_Index step; ha_Plugin := ha_Plugin step; ha_PluginVersion := ha_PluginVersion step;
     ha_Hook := ha_Hook step; ha_Priority := ha_Priority step; ha_Sequence := ha_Sequence step;
     ha_FailurePolicy := ha_FailurePolicy step; ha_Duration := duration;
     ha_InputHash := ha_InputHash step; ha_OutputHash := output; ha_PatchFields := fields;
     ha_Overwrites := overwrites; ha_Block := block; ha_Action := action; ha_Error := error;
     ha_Outcome := outcome; ha_Attributes := ha_Attributes step |}.

Definition sortedPatchFields (patch : gmap string string) : list string :=
  sort_strings (map_to_list patch).*1.

Definition overwrittenPatchFields (fields : list string) (patchedBy : gmap string Z) : list string :=
  filter (λ field, is_Some (patchedBy !! field)) fields.

Definition auditPatchFields (steps : list HookAuditStep) : list string :=
  let seen : gset string := list_to_set (concat (ha_PatchFields <$> steps)) in
  sort_strings (elements seen).

Definition summarizeBlock (block : option Block) : option BlockSummary :=
  match block with
  | None => None
  | Some block => Some {| bs_Reason := bk_Reason block; bs_Kind := bk_Kind block |}
  end.

Definition summarizeAction (action : option Action) : option ActionSummary :=
  match action with
  | None => None
  | Some action => Some
      {| asum_Kind := ac_Kind action;
         asum_CauseCode := match ac_Cause action with Some cause => ca_Code cause | None => "" end;
         asum_CauseFinal := match ac_Cause action with Some cause => ca_Final cause | None => false end;
         asum_MessageCount := Z.of_nat (length (ac_Messages action)) |}
  end.

Definition hookAuditOutcome (effect : Effect) : string :=
  match ef_Block effect with
  | Some _ => "blocked"
  | None =>
      match ef_Action effect with
      | Some _ => "action"
      | None => if bool_decide (ef_Patch effect = ∅) then "no_effect" else "patched"
      end
  end.

Definition hasHookAuditOutcome (steps : list HookAuditStep) (outcome : string) : bool :=
  existsb (λ step, String.eqb (ha_Outcome step) outcome) steps.

(** [index] runs over the hooks after the one that blocked. *)
Fixpoint appendSkippedHookAuditSteps (index : Z) (hooks : list ownedHook) (payload : string)
    : list HookAuditStep :=
  match hooks with
  | [] => []
  | owned :: rest =>
      let step := newHookAuditStep index owned payload in
      with_outcome step 0 (ha_OutputHash step) [] [] None None "" "skipped" ::
        appendSkippedHookAuditSteps (index + 1) rest payload
  end.

Definition with_audit (result : DispatchResult) (output : string) (steps : list HookAuditStep)
    (resolution : EffectResolution) : DispatchResult :=
  let audit := dr_Audit result in
  {| dr_Event := dr_Event result; dr_Block := dr_Block result; dr_Actions := dr_Actions result;
     dr_Audit := {| ea_EventID := ea_EventID audit; ea_EventName := ea_EventName audit;
                    ea_Generation := ea_Generation audit; ea_InputHash := ea_InputHash audit;
                    ea_OutputHash := output; ea_Steps := steps; ea_Resolution := resolution |};
     dr_actionSteps := dr_actionSteps result |}.

Definition finalizeDispatchAudit (result : DispatchResult) : DispatchResult :=
  let output := payloadHash (ev_Payload (dr_Event result)) in
  let steps := ea_Steps (dr_Audit result) in
  let resolution := ea_Resolution (dr_Audit result) in
  let fields := auditPatchFields steps in
  if String.eqb (res_Outcome resolution) "blocked" || String.eqb (res_Outcome resolution) "error" then
    with_audit result output steps
      (if (length (res_PatchFields resolution) =? 0)%nat then
         {| res_Outcome := res_Outcome resolution; res_Block := res_Block resolution;
            res_BlockStep := res_BlockStep resolution; res_Action := res_Action resolution;
            res_ActionSteps := res_ActionSteps resolution; res_ActionRule := res_ActionRule resolution;
            res_PatchFields := fields; res_Error := res_Error resolution |}
       else resolution)
  else if (0 <? length (dr_Actions result))%nat then
    with_audit result output steps
      {| res_Outcome := "action"; res_Block := None; res_BlockStep := None;
         res_Action := summarizeAction (last (dr_Actions result));
         res_ActionSteps := dr_actionSteps result; res_ActionRule := "proposed";
         res_PatchFields := fields; res_Error := "" |}
  else if hasHookAuditOutcome steps "error" then
    with_audit result output steps
      {| res_Outcome := "error"; res_Block := None; res_BlockStep := None; res_Action := None;
         res_ActionSteps := []; res_ActionRule := ""; res_PatchFields := fields; res_Error := "" |}
  else if (0 <? length fields)%nat then
    with_audit result output steps
      {| res_Outcome := "patched"; res_Block := None; res_BlockStep := None; res_Action := None;
         res_ActionSteps := []; res_ActionRule := ""; res_PatchFields := fields; res_Error := "" |}
  else with_audit result output steps (zeroResolution "no_effect").

(** ** Effects *)

(** The loop over the fields of a patch, in the order Go picks. *)
Fixpoint patch_allowed (name : string) (allowed : gset string) (fields : list string) : result unit :=
  match fields with
  | [] => Ok tt
  | field :: rest =>
      fail_if bool_decide (field ∉ allowed) with
        Errorf "event %q does not allow field %q to be patched" [AStr name; AStr field];
      patch_allowed name allowed rest
  end.

Definition validateAction (contract : EventContract) (action : Action) : result unit :=
  fail_if negb (ec_AllowAction contract) with
    Errorf "event %q does not allow actions" [AStr (ec_Name contract)];
  if String.eqb (ac_Kind action) ActionStep then
    fail_if bool_decide (is_Some (ac_Cause action)) || negb (length (ac_Messages action) =? 0)%nat with
      errors_New "step action cannot carry cause or messages";
    Ok tt
  else if String.eqb (ac_Kind action) ActionStop then
    match ac_Cause action with
    | None => Err (errors_New "stop action requires a cause")
    | Some cause =>
        fail_if is_empty (ca_Code cause) with errors_New "stop action requires a cause";
        Ok tt
    end
  else if String.eqb (ac_Kind action) ActionInject then
    fail_if (length (ac_Messages action) =? 0)%nat with errors_New "inject action requires messages";
    Ok tt
  else Err (Errorf "unknown action kind %q" [AStr (ac_Kind action)]).

Section effects.
Context `{!MapOrder}.

Definition validateEffect (contract : EventContract) (effect : Effect) : result unit :=
  try? patch_allowed (ec_Name contract) (list_to_set (ec_MutableFields contract)) (range_map 0 (ef_Patch effect)).*1;
  try? match ef_Block effect with
       | None => Ok tt
       | Some block =>
           fail_if negb (ec_AllowBlock contract) with
             Errorf "event %q does not allow blocking" [AStr (ec_Name contract)];
           fail_if is_empty (bk_Reason block) with errors_New "block reason is empty";
           Ok tt
       end;
  match ef_Action effect with None => Ok tt | Some action => validateAction contract action end.

(** The outcome of [applyPatch]: a payload, an error, or the panic of an assignment to a nil map. *)
Inductive patch_outcome :=
  | PatchOk (payload : string)
  | PatchErr (e : error)
  | PatchPanic.

(** [object[field] = value] for every field of the patch, [None] being the nil map. *)
Fixpoint patch_fields (mutableFields : list string) (object : option (gmap string string))
    (fields : list (string * string)) : option (gmap string string) + patch_outcome :=
  match fields with
  | [] => inl object
  | (field, value) :: rest =>
      if bool_decide (field ∉ mutableFields) then
        inr (PatchErr (Errorf "field %q is not mutable" [AStr field]))
      else if negb (Json.Valid value) then
        inr (PatchErr (Errorf "patch field %q is not valid JSON" [AStr field]))
      else
        match object with
        | None => inr PatchPanic
        | Some object => patch_fields mutableFields (Some (<[field := value]> object)) rest
        end
  end.

(** [json.Unmarshal] into a [map[string]json.RawMessage] and [json.Marshal] of one. *)
Context (Unmarshal : string → option (option (gmap string string))).
Context (Marshal : option (gmap string string) → result string).
Context (decodeError : string → error).

Definition applyPatch (payload : string) (patch : gmap string string) (mutableFields : list string)
    : patch_outcome :=
  match Unmarshal payload with
  | None => PatchErr (Wrapf "decode event payload for patch: %w" [] (decodeError payload))
  | Some object =>
      match patch_fields mutableFields object (range_map 1 patch) with
      | inr outcome => outcome
      | inl object =>
          match Marshal object with
          | Err e => PatchErr (Wrapf "encode patched event payload: %w" [] e)
          | Ok payload => PatchOk payload
          end
      end
  end.

(** ** Dispatch *)

(** The answer of each hook to the event, [err.Error()], and the measured durations. *)
Context (invokeHook : Z → ownedHook → Event → result Effect).
Context (error_text : error → string).
Context (elapsed : Z → duration).

(** ** Dispatch state *)

Record dispatch_state := {
  st_result : DispatchResult;
  st_patchedBy : gmap string Z;
}.

(** How a round of the loop ends. *)
Inductive flow :=
  | Continue (s : dispatch_state)
  | Break (s : dispatch_state)
  | Return (r : DispatchResult) (e : error)
  | Panic.

(** [handleHookDispatchError]. *)
Definition handleHookDispatchError (s : dispatch_state) (owned : ownedHook) (step : HookAuditStep)
    (auditErr dispatchErr : error) (allowFailurePolicyContinue : bool) (options : eventDispatchOptions) : flow :=
  let result := st_result s in
  let step := with_outcome step (ha_Duration step) (ha_OutputHash step) (ha_PatchFields step)
                (ha_Overwrites step) (ha_Block step) (ha_Action step) (error_text auditErr) "error" in
  let steps := ea_Steps (dr_Audit result) ++ [step] in
  if isPostCommit options ||
     (allowFailurePolicyContinue && String.eqb (hs_FailurePolicy (oh_Spec owned)) FailurePolicyContinue) then
    Continue {| st_result := with_audit result (ea_OutputHash (dr_Audit result)) steps (ea_Resolution (dr_Audit result));
                st_patchedBy := st_patchedBy s |}
  else
    Return (with_audit result (payloadHash (ev_Payload (dr_Event result))) steps
              {| res_Outcome := "error"; res_Block := None; res_BlockStep := None; res_Action := None;
                 res_ActionSteps := []; res_ActionRule := ""; res_PatchFields := [];
                 res_Error := error_text dispatchErr |}) dispatchErr.

Definition with_payload (event : Event) (payload : string) : Event :=
  {| ev_ID := ev_ID event; ev_Name := ev_Name event; ev_SessionID := ev_SessionID event;
     ev_Generation := ev_Generation event; ev_Payload := payload |}.

Definition CloneAction (action : Action) : Action :=
  {| ac_Kind := ac_Kind action; ac_Cause := ac_Cause action; ac_Messages := CloneMessages (ac_Messages action) |}.

(** The end of a round, after the effect was accepted and the patch applied. *)
Definition commit_effect (s : dispatch_state) (index : Z) (rest : list ownedHook) (step : HookAuditStep)
    (effect : Effect) (payload : string) (patchedBy : gmap string Z) : flow :=
  let result := st_result s in
  let event := with_payload (dr_Event result) payload in
  let step := with_outcome step (ha_Duration step) (payloadHash payload) (ha_PatchFields step)
                (ha_Overwrites step) (ha_Block step) (ha_Action step) "" (hookAuditOutcome effect) in
  let audit := dr_Audit result in
  let steps := ea_Steps audit ++ [step] in
  let update block actions actionSteps steps resolution :=
    {| st_result :=
         {| dr_Event := event; dr_Block := block; dr_Actions := actions;
            dr_Audit := {| ea_EventID := ea_EventID audit; ea_EventName := ea_EventName audit;
                           ea_Generation := ea_Generation audit; ea_InputHash := ea_InputHash audit;
                           ea_OutputHash := ea_OutputHash audit; ea_Steps := steps;
                           ea_Resolution := resolution |};
            dr_actionSteps := actionSteps |};
       st_patchedBy := patchedBy |} in
  match dr_Block result, ef_Block effect with
  | None, Some block =>
      Break (update (Some block) (dr_Actions result) (dr_actionSteps result)
        (steps ++ appendSkippedHookAuditSteps (index + 1) rest payload)
        {| res_Outcome := "blocked"; res_Block := summarizeBlock (Some block);
           res_BlockStep := Some index; res_Action := None; res_ActionSteps := []; res_ActionRule := "";
           res_PatchFields := auditPatchFields steps; res_Error := "" |})
  | _, _ =>
      match ef_Action effect with
      | Some action =>
          Continue (update (dr_Block result) (dr_Actions result ++ [CloneAction action])
            (dr_actionSteps result ++ [index]) steps (ea_Resolution audit))
      | None =>
          Continue (update (dr_Block result) (dr_Actions result) (dr_actionSteps result) steps (ea_Resolution audit))
      end
  end.

Definition hook_error (format : string) (owned : ownedHook) (more : list arg) (e : error) : error :=
  Wrapf format (AStr (hs_Name (oh_Spec owned)) :: AStr (mt_Name (oh_Owner owned)) :: more) e.

(** One round: [rest] are the hooks after this one. *)
Definition dispatch_hook (contract : EventContract) (options : eventDispatchOptions) (index : Z)
    (owned : ownedHook) (rest : list ownedHook) (s : dispatch_state) : flow :=
  let event := dr_Event (st_result s) in
  let step := newHookAuditStep index owned (ev_Payload event) in
  let step := with_outcome step (elapsed index) (ha_InputHash step) [] [] None None "" "no_effect" in
  match invokeHook index owned event with
  | Err hookErr =>
      handleHookDispatchError s owned step hookErr
        (hook_error "hook %q from plugin %q failed on event %q: %w" owned [AStr (ev_Name event)] hookErr)
        true options
  | Ok effect =>
      let fields := sortedPatchFields (ef_Patch effect) in
      let step := with_outcome step (ha_Duration step) (ha_OutputHash step) fields
                    (overwrittenPatchFields fields (st_patchedBy s)) (summarizeBlock (ef_Block effect))
                    (summarizeAction (ef_Action effect)) "" "no_effect" in
      match validateEffect contract effect with
      | Err e =>
          let e := hook_error "hook %q from plugin %q returned invalid effect: %w" owned [] e in
          handleHookDispatchError s owned step e e false options
      | Ok _ =>
          if bool_decide (ef_Patch effect = ∅) then
            commit_effect s index rest step effect (ev_Payload event) (st_patchedBy s)
          else
            match applyPatch (ev_Payload event) (ef_Patch effect) (ec_MutableFields contract) with
            | PatchPanic => Panic
            | PatchErr e =>
                let e := hook_error "hook %q from plugin %q returned invalid patch: %w" owned [] e in
                handleHookDispatchError s owned step e e false options
            | PatchOk payload =>
                commit_effect s index rest step effect payload
                  (foldl (λ patchedBy field, <[field := index]> patchedBy) (st_patchedBy s) fields)
            end
      end
  end.

(** How the loop over the hooks ends. *)
Inductive dispatch_end :=
  | Finished (r : DispatchResult)
  | Failed (r : DispatchResult) (e : error)
  | Panicked.

Fixpoint dispatch_loop (contract : EventContract) (options : eventDispatchOptions) (index : Z)
    (hooks : list ownedHook) (s : dispatch_state) : dispatch_end :=
  match hooks with
  | [] => Finished (st_result s)
  | owned :: rest =>
      match dispatch_hook contract options index owned rest s with
      | Continue s => dispatch_loop contract options (index + 1) rest s
      | Break s => Finished (st_result s)
      | Return r e => Failed r e
      | Panic => Panicked
      end
  end.

Definition dispatch_start (event : Event) : dispatch_state :=
  {| st_result := {| dr_Event := event; dr_Block := None; dr_Actions := []; dr_Audit := newEventAudit event;
                     dr_actionSteps := [] |};
     st_patchedBy := ∅ |}.

Definition zeroEvent : Event :=
  {| ev_ID := ""; ev_Name := ""; ev_SessionID := ""; ev_Generation := 0; ev_Payload := "" |}.

Definition zeroDispatchResult : DispatchResult :=
  {| dr_Event := zeroEvent; dr_Block := None; dr_Actions := [];
     dr_Audit := {| ea_EventID := ""; ea_EventName := ""; ea_Generation := 0; ea_InputHash := "";
                    ea_OutputHash := ""; ea_Steps := []; ea_Resolution := zeroResolution "" |};
     dr_actionSteps := [] |}.

(** ** Subscriber deliveries *)

(** [ResourceIdentity], here of a subscriber, and its JSON encoding. *)
Record ResourceIdentity := {
  rid_Plugin : string;
  rid_PluginVersion : string;
  rid_Kind : ResourceKind;
  rid_Name : string;
  rid_Spec : SubscriberSpec;
}.

Context (json_identity : ResourceIdentity → option string).

Definition Revision (identity : ResourceIdentity) : string :=
  let nul := String "000" "" in
  let raw := match json_identity identity with
             | Some raw => raw
             | None => rid_Plugin identity +:+ nul +:+ rid_PluginVersion identity +:+ nul +:+
                       resource_kind_text (rid_Kind identity) +:+ nul +:+ rid_Name identity
             end in
  sha256_hex raw.

Definition resourceIdentity (kind : ResourceKind) (name : string) (owned : ownedResource SubscriberSpec)
    : ResourceIdentity :=
  {| rid_Plugin := mt_Name (or_Owner owned); rid_PluginVersion := mf_Version (mt_Manifest (or_Owner owned));
     rid_Kind := kind; rid_Name := name; rid_Spec := or_Spec owned |}.

Definition newSubscriberDeliveryTarget (name : string) (owned : ownedResource SubscriberSpec) : Target :=
  {| tg_Plugin := mt_Name (or_Owner owned); tg_PluginVersion := mf_Version (mt_Manifest (or_Owner owned));
     tg_Subscription := name; tg_ResourceRevision := Revision (resourceIdentity KindSubscriber name owned) |}.

Definition planSubscriberDeliveries (snapshot : option registrySnapshot) (event : Event) (now : time)
    : list Delivery :=
  match snapshot with
  | None => []
  | Some snapshot =>
      let subscribers := sn_subscribers snapshot in
      let names := sort_strings
        (filter (λ entry, ev_Name event ∈ ss_Events (or_Spec entry.2)) (map_to_list subscribers)).*1 in
      omap (λ name, (λ owned, Target_Record (newSubscriberDeliveryTarget name owned) event now) <$> subscribers !! name)
        names
  end.

(** The delivery store of the runtime: its state and what [Enqueue] does to it. *)
Context {S : Type} (store_Enqueue : S → list Delivery → S * option error).

Definition enqueueSubscribers (snapshot : option registrySnapshot) (event : Event) (now : time) (store : S)
    : S * option error :=
  let deliveries := planSubscriberDeliveries snapshot event now in
  if (length deliveries =? 0)%nat then (store, None)
  else
    match store_Enqueue store deliveries with
    | (store, Some e) =>
        (store, Some (Wrapf "persist subscriber deliveries for event %s: %w" [AStr (ev_ID event)] e))
    | (store, None) => (store, None)
    end.

(** ** Dispatching an event *)

Definition marshalEventPayload (payload : result string) : result string :=
  let? raw := payload in
  match Unmarshal raw with
  | None => Err (errors_New "event payload must encode as a JSON object")
  | Some _ => Ok raw
  end.

(** [payload] is what [json.Marshal] makes of the payload. *)
Definition newDispatchEvent (snapshot : option registrySnapshot) (eventName sessionID : string)
    (payload : result string) (e : entropy) : result Event :=
  match snapshot with
  | None => Err (errors_New "event registry snapshot is nil")
  | Some snapshot =>
      match sn_events snapshot !! eventName with
      | None => Err (Errorf "event %q is not registered" [AStr eventName])
      | Some _ =>
          match marshalEventPayload payload with
          | Err err => Err (Wrapf "encode %s event: %w" [AStr eventName] err)
          | Ok raw =>
              Ok {| ev_ID := NewID e; ev_Name := eventName; ev_SessionID := sessionID;
                    ev_Generation := sn_generation snapshot; ev_Payload := raw |}
          end
      end
  end.

Definition dispatchPreparedEvent (snapshot : option registrySnapshot) (event : Event)
    (options : eventDispatchOptions) (now : time) (store : S) : dispatch_end * S :=
  match snapshot with
  | None => (Failed zeroDispatchResult (errors_New "event registry snapshot is nil"), store)
  | Some s =>
      match sn_events s !! ev_Name event with
      | None => (Failed zeroDispatchResult (Errorf "event %q is not registered" [AStr (ev_Name event)]), store)
      | Some owned =>
          let hooks := if eo_invokeHooks options then default [] (sn_hooks s !! ev_Name event) else [] in
          match dispatch_loop (oe_Contract owned) options 0 hooks (dispatch_start event) with
          | Finished r =>
              let r := finalizeDispatchAudit r in
              if eo_enqueueSubscriberDeliveries options then
                match enqueueSubscribers snapshot (dr_Event r) now store with
                | (store, Some e) =>
                    if returnSubscriberFailures options then (Failed zeroDispatchResult e, store)
                    else (Finished r, store)
                | (store, None) => (Finished r, store)
                end
              else (Finished r, store)
          | outcome => (outcome, store)
          end
      end
  end.

(** ** Events around a durable mutation *)

Inductive postCommitDeliveryBoundary := AfterDispatch | HostOutbox.

Record postCommitDelivery := {
  pd_afterDispatch : bool;
  pd_hostOutbox : list Delivery;
}.

Definition subscriberDeliveryStableBeforeDispatch (snapshot : option registrySnapshot) (eventName : string) : bool :=
  match snapshot with
  | None => false
  | Some s => match sn_events s !! eventName with None => false | Some owned => negb (AllowsEffect (oe_Contract owned)) end
  end.

Definition newPostCommitDelivery (snapshot : option registrySnapshot) (event : Event)
    (boundary : postCommitDeliveryBoundary) (now : time) : postCommitDelivery :=
  match boundary with
  | HostOutbox =>
      if subscriberDeliveryStableBeforeDispatch snapshot (ev_Name event) then
        {| pd_afterDispatch := false; pd_hostOutbox := planSubscriberDeliveries snapshot event now |}
      else {| pd_afterDispatch := true; pd_hostOutbox := [] |}
  | AfterDispatch => {| pd_afterDispatch := true; pd_hostOutbox := [] |}
  end.

Definition postCommitEventDispatchOptions (delivery : postCommitDelivery) : eventDispatchOptions :=
  {| eo_scope := eventDispatchPostCommit; eo_enqueueSubscriberDeliveries := pd_afterDispatch delivery;
     eo_invokeHooks := true |}.

(** The subject of a plan serves its log lines and the session of the event. *)
Record postCommitEventPlan := {
  pl_snapshot : option registrySnapshot;
  pl_event : Event;
  pl_delivery : postCommitDelivery;
}.

Definition preparePostCommitEventPlan (snapshot : option registrySnapshot) (eventName sessionID : string)
    (payload : result string) (boundary : postCommitDeliveryBoundary) (e : entropy) (now : time)
    : result postCommitEventPlan :=
  match newDispatchEvent snapshot eventName sessionID payload e with
  | Err err => Err (Wrapf "prepare post-commit %s event: %w" [AStr eventName] err)
  | Ok event =>
      Ok {| pl_snapshot := snapshot; pl_event := event;
            pl_delivery := newPostCommitDelivery snapshot event boundary now |}
  end.

(** Errors are logged; [None] is a panic. *)
Definition plan_dispatchAfterCommit (plan : postCommitEventPlan) (now : time) (store : S) : option S :=
  if is_empty (ev_ID (pl_event plan)) then Some store
  else
    match dispatchPreparedEvent (pl_snapshot plan) (pl_event plan)
            (postCommitEventDispatchOptions (pl_delivery plan)) now store with
    | (Panicked, _) => None
    | (_, store) => Some store
    end.

Fixpoint bundle_dispatchAfterCommit (bundle : list postCommitEventPlan) (now : time) (store : S) : option S :=
  match bundle with
  | [] => Some store
  | plan :: rest =>
      match plan_dispatchAfterCommit plan now store with
      | None => None
      | Some store => bundle_dispatchAfterCommit rest now store
      end
  end.

Definition bundle_hostOutboxDeliveries (bundle : list postCommitEventPlan) : list Delivery :=
  concat ((λ plan, if is_empty (ev_ID (pl_event plan)) then [] else pd_hostOutbox (pl_delivery plan)) <$> bundle).
End effects.
