(* ===== verification/EventDispatchProperties.v ===== *)
(** What the dispatch of an event guarantees: a complete and chained audit, one block at most, only
    mutable fields changed, failures kept from committed work, and subscriber deliveries that are
    planned once. *)

From S2P Require Import Prelude GoText Names Sha256 Message ContextInjection Delivery.
From S2P Require Import DeliveryStore DeliveryWorker Trajectory Agent Registrar Composition.
From S2P Require Import CompositionProperties CompositionInvariant EventDispatch.

(** ** Audit trails *)

(** The step names its hook. *)
Record step_of (index : Z) (owned : ownedHook) (step : HookAuditStep) : Prop := {
  so_Index : ha_Index step = index;
  so_Plugin : ha_Plugin step = mt_Name (oh_Owner owned);
  so_Hook : ha_Hook step = hs_Name (oh_Spec owned);
  so_Sequence : ha_Sequence step = oh_Seq owned;
  so_Policy : ha_FailurePolicy step = hs_FailurePolicy (oh_Spec owned);
}.

(** One step for every hook, in order, each starting from the payload the one before left. *)
Inductive audit_chain : string → Z → list ownedHook → list HookAuditStep → string → Prop :=
  | chain_nil hash index : audit_chain hash index [] [] hash
  | chain_cons hash index owned hooks step steps last :
      step_of index owned step → ha_InputHash step = hash →
      audit_chain (ha_OutputHash step) (index + 1) hooks steps last →
      audit_chain hash index (owned :: hooks) (step :: steps) last.

Lemma audit_chain_snoc hash index hooks steps middle owned step :
  audit_chain hash index hooks steps middle → step_of (index + Z.of_nat (length hooks)) owned step →
  ha_InputHash step = middle →
  audit_chain hash index (hooks ++ [owned]) (steps ++ [step]) (ha_OutputHash step).
Proof.
  induction 1 as [hash index|hash index owned' hooks step' steps last Hs Hi Hc IH]; simpl; intros Hso Hin.
  - rewrite Z.add_0_r in Hso. repeat constructor; apply Hso || done.
  - constructor; [done|done|]. apply IH; [|done].
    by replace (index + 1 + Z.of_nat (length hooks)) with (index + Z.of_nat (S (length hooks))) by lia.
Qed.

Lemma audit_chain_app hash index h1 s1 middle h2 s2 last :
  audit_chain hash index h1 s1 middle → audit_chain middle (index + Z.of_nat (length h1)) h2 s2 last →
  audit_chain hash index (h1 ++ h2) (s1 ++ s2) last.
Proof.
  induction 1 as [hash index|hash index owned' hooks step' steps last' Hs Hi Hc IH]; simpl; intros H2.
  - by rewrite Z.add_0_r in H2.
  - constructor; [done|done|]. apply IH.
    by replace (index + 1 + Z.of_nat (length hooks)) with (index + Z.of_nat (S (length hooks))) by lia.
Qed.

Lemma audit_chain_length hash index hooks steps last :
  audit_chain hash index hooks steps last → length steps = length hooks.
Proof. induction 1; simpl; congruence. Qed.

Lemma skipped_chain index hooks payload :
  audit_chain (payloadHash payload) index hooks (appendSkippedHookAuditSteps index hooks payload) (payloadHash payload).
Proof. revert index. induction hooks as [|h hooks IH]; intros index; simpl; repeat constructor. apply IH. Qed.

Lemma skipped_outcome index hooks payload step :
  step ∈ appendSkippedHookAuditSteps index hooks payload → ha_Outcome step = "skipped".
Proof.
  revert index. induction hooks as [|h hooks IH]; intros index; simpl; [by intros []%elem_of_nil|].
  intros [->|Hin]%elem_of_cons; [done|by eapply IH].
Qed.

Lemma hookAuditOutcome_block effect :
  hookAuditOutcome effect = "blocked" ↔ is_Some (ef_Block effect).
Proof.
  unfold hookAuditOutcome. destruct (ef_Block effect); [by split; eauto|].
  split; [|by intros []]. repeat case_match; done.
Qed.

Lemma hookAuditOutcome_other effect :
  hookAuditOutcome effect ≠ "skipped" ∧ hookAuditOutcome effect ≠ "error".
Proof. unfold hookAuditOutcome. repeat case_match; done. Qed.

Lemma patch_fields_spec mutable m fields :
  match patch_fields mutable (Some m) fields with
  | inl o => ∃ m', o = Some m' ∧ ∀ field, field ∉ fields.*1 → m' !! field = m !! field
  | inr PatchPanic => False
  | inr (PatchOk _) => False
  | inr (PatchErr _) => True
  end.
Proof.
  revert m. induction fields as [|[field value] rest IH]; intros m; simpl; [by eauto|].
  case_bool_decide; [done|]. destruct (Json.Valid value); [|done]. simpl.
  specialize (IH (<[field := value]> m)). destruct (patch_fields _ _ _) as [o|[| |]]; try done.
  destruct IH as (m' & -> & Hm). exists m'. split; [done|]. intros f Hf. rewrite Hm by set_solver.
  apply lookup_insert_ne. set_solver.
Qed.

Section dispatch.
Context `{!MapOrder}.
Context (Unmarshal : string → option (option (gmap string string)))
  (Marshal : option (gmap string string) → result string) (decodeError : string → error)
  (invokeHook : Z → ownedHook → Event → result Effect) (error_text : error → string) (elapsed : Z → duration).

Abbreviation apply_patch := (applyPatch Unmarshal Marshal decodeError).
Abbreviation hook_round := (dispatch_hook Unmarshal Marshal decodeError invokeHook error_text elapsed).
Abbreviation run_hooks := (dispatch_loop Unmarshal Marshal decodeError invokeHook error_text elapsed).

(** ** One round *)

(** A permitted patch that makes the code assign to a nil map. *)
Definition panics (contract : EventContract) (payload : string) : Prop :=
  ∃ patch, patch ≠ ∅ ∧ (∀ field, is_Some (patch !! field) → field ∈ ec_MutableFields contract) ∧
    apply_patch payload patch (ec_MutableFields contract) = PatchPanic.

(** What a round may do to the payload. *)
Definition payload_step (contract : EventContract) (payload payload' : string) : Prop :=
  payload' = payload ∨
  ∃ patch, patch ≠ ∅ ∧ (∀ field, is_Some (patch !! field) → field ∈ ec_MutableFields contract) ∧
    apply_patch payload patch (ec_MutableFields contract) = PatchOk payload'.

Abbreviation payload_of r := (ev_Payload (dr_Event r)).
Abbreviation steps_of r := (ea_Steps (dr_Audit r)).

(** The audit step of a round that was not skipped. *)
Record round_step (index : Z) (owned : ownedHook) (r r' : DispatchResult) (step : HookAuditStep) : Prop := {
  rs_step : step_of index owned step;
  rs_input : ha_InputHash step = payloadHash (payload_of r);
  rs_output : ha_OutputHash step = payloadHash (payload_of r');
  rs_event : dr_Event r' = with_payload (dr_Event r) (payload_of r');
}.

Record round_next (contract : EventContract) (options : eventDispatchOptions) (index : Z) (owned : ownedHook)
    (r r' : DispatchResult) : Prop := {
  rn_audited : ∃ step, round_step index owned r r' step ∧ steps_of r' = steps_of r ++ [step] ∧
    ha_Outcome step ≠ "skipped" ∧ (dr_Block r = None → ha_Outcome step ≠ "blocked") ∧
    (ha_Outcome step = "error" → isPostCommit options = true ∨
       hs_FailurePolicy (oh_Spec owned) = FailurePolicyContinue);
  rn_payload : payload_step contract (payload_of r) (payload_of r');
  rn_block : dr_Block r' = dr_Block r;
  rn_resolution : ea_Resolution (dr_Audit r') = ea_Resolution (dr_Audit r);
}.

Record round_block (contract : EventContract) (index : Z) (owned : ownedHook) (rest : list ownedHook)
    (r r' : DispatchResult) : Prop := {
  rb_audited : ∃ step, round_step index owned r r' step ∧ ha_Outcome step = "blocked" ∧
    steps_of r' = steps_of r ++ step :: appendSkippedHookAuditSteps (index + 1) rest (payload_of r');
  rb_payload : payload_step contract (payload_of r) (payload_of r');
  rb_block : ∃ effect block, invokeHook index owned (dr_Event r) = Ok effect ∧ ef_Block effect = Some block ∧
    dr_Block r' = Some block ∧ ec_AllowBlock contract = true;
  rb_resolution : res_Outcome (ea_Resolution (dr_Audit r')) = "blocked" ∧
    res_BlockStep (ea_Resolution (dr_Audit r')) = Some index;
}.

Record round_fail (options : eventDispatchOptions) (index : Z) (owned : ownedHook) (r r' : DispatchResult)
    (e : error) : Prop := {
  rf_audited : ∃ step, round_step index owned r r' step ∧ ha_Outcome step = "error" ∧
    steps_of r' = steps_of r ++ [step];
  rf_payload : payload_of r' = payload_of r;
  rf_strict : isPostCommit options = false;
  rf_resolution : res_Outcome (ea_Resolution (dr_Audit r')) = "error" ∧
    res_Error (ea_Resolution (dr_Audit r')) = error_text e;
}.

Lemma patch_allowed_Ok name allowed fields :
  patch_allowed name allowed fields = Ok tt → ∀ field, field ∈ fields → field ∈ allowed.
Proof.
  induction fields as [|f l IH]; simpl; [set_solver|]. case_bool_decide as Hf; [done|].
  intros Hok field [->|Hin]%elem_of_cons; [exact Hf|auto].
Qed.

Lemma validateEffect_patch contract effect field :
  validateEffect contract effect = Ok tt → is_Some (ef_Patch effect !! field) → field ∈ ec_MutableFields contract.
Proof.
  unfold validateEffect. intros Hok [value Hv]. apply bind_Ok in Hok as ([] & Hp & _).
  eapply patch_allowed_Ok in Hp; [by apply elem_of_list_to_set in Hp|].
  apply list_elem_of_fmap. exists (field, value). split; [done|]. by apply elem_of_range_map.
Qed.

Lemma validateEffect_block contract effect block :
  validateEffect contract effect = Ok tt → ef_Block effect = Some block → ec_AllowBlock contract = true.
Proof.
  unfold validateEffect. intros Hok Hb. apply bind_Ok in Hok as ([] & _ & Hok). rewrite Hb in Hok.
  apply bind_Ok in Hok as ([] & Hblock & _). inv_ok. by destruct (ec_AllowBlock contract).
Qed.

Lemma validateEffect_action contract effect action :
  validateEffect contract effect = Ok tt → ef_Action effect = Some action → ec_AllowAction contract = true.
Proof.
  unfold validateEffect. intros Hok Ha. apply bind_Ok in Hok as ([] & _ & Hok).
  apply bind_Ok in Hok as ([] & _ & Hact). rewrite Ha in Hact. unfold validateAction in Hact.
  by destruct (ec_AllowAction contract).
Qed.

Lemma handle_error_spec s owned index step auditErr dispatchErr allow options :
  step_of index owned step → ha_InputHash step = payloadHash (payload_of (st_result s)) →
  ha_OutputHash step = payloadHash (payload_of (st_result s)) →
  match handleHookDispatchError error_text s owned step auditErr dispatchErr allow options with
  | Continue s' => ∀ contract, round_next contract options index owned (st_result s) (st_result s')
  | Return r e => round_fail options index owned (st_result s) r e ∧ e = dispatchErr ∧ dr_Block r = dr_Block (st_result s)
  | _ => False
  end.
Proof.
  intros Hs Hi Ho. unfold handleHookDispatchError.
  set (failed := with_outcome _ _ _ _ _ _ _ _ _).
  assert (∀ r', dr_Event r' = dr_Event (st_result s) → round_step index owned (st_result s) r' failed) as Hround.
  { intros r' He. destruct Hs. split; [by split|done| |].
    - simpl. by rewrite Ho, He.
    - rewrite He. by destruct (dr_Event (st_result s)). }
  destruct (isPostCommit options || _) eqn:Hc.
  - intros contract. split; [|by left|done|done]. exists failed. split; [by apply Hround|].
    split_and!; [done|done|done|]. intros _. apply orb_true_iff in Hc as [?|Hc]; [by left|right].
    apply andb_true_iff in Hc as [_ Hc]. by apply String.eqb_eq.
  - split; [|done]. apply orb_false_iff in Hc as [Hp _].
    split; [|done|done|done]. exists failed. split; [by apply Hround|done].
Qed.

Lemma commit_effect_spec contract options s index owned rest step effect payload patchedBy :
  step_of index owned step → ha_InputHash step = payloadHash (payload_of (st_result s)) →
  payload_step contract (payload_of (st_result s)) payload →
  invokeHook index owned (dr_Event (st_result s)) = Ok effect → validateEffect contract effect = Ok tt →
  match commit_effect s index rest step effect payload patchedBy with
  | Continue s' => round_next contract options index owned (st_result s) (st_result s') ∧
      dr_Actions (st_result s') = dr_Actions (st_result s) ++
        match ef_Action effect with Some a => [CloneAction a] | None => [] end
  | Break s' => dr_Block (st_result s) = None ∧
      round_block contract index owned rest (st_result s) (st_result s')
  | _ => False
  end.
Proof.
  intros Hs Hi Hp Hinv Hv. unfold commit_effect.
  set (done_step := with_outcome _ _ _ _ _ _ _ _ _).
  assert (∀ r', dr_Event r' = with_payload (dr_Event (st_result s)) payload →
    round_step index owned (st_result s) r' done_step) as Hround.
  { intros r' He. destruct Hs. split; [by split|done| |]; rewrite He; done. }
  assert (∀ r', dr_Event r' = with_payload (dr_Event (st_result s)) payload → dr_Block r' = dr_Block (st_result s) →
    steps_of r' = steps_of (st_result s) ++ [done_step] →
    ea_Resolution (dr_Audit r') = ea_Resolution (dr_Audit (st_result s)) →
    (dr_Block (st_result s) = None → ef_Block effect = None) →
    round_next contract options index owned (st_result s) r') as Hnext.
  { intros r' He Hb Hst Hres Hno. split; [|by rewrite He|done|done].
    exists done_step. split; [by apply Hround|]. split; [done|]. simpl.
    pose proof (hookAuditOutcome_other effect) as [? ?]. split_and!; [done| |done].
    intros Hnone%Hno Hblk%hookAuditOutcome_block. rewrite Hnone in Hblk. by destruct Hblk. }
  destruct (dr_Block (st_result s)) as [old|] eqn:Hb.
  { destruct (ef_Action effect); (split; [by apply Hnext|]); by rewrite ?app_nil_r. }
  destruct (ef_Block effect) as [block|] eqn:Hblock.
  - split; [done|]. split; [|done| |done].
    + exists done_step. split; [by apply Hround|]. split; [|by rewrite <- app_assoc].
      simpl. apply hookAuditOutcome_block. by rewrite Hblock.
    + exists effect, block. split_and!; [done..|]. by eapply validateEffect_block.
  - destruct (ef_Action effect); (split; [by apply Hnext|]); by rewrite ?app_nil_r.
Qed.

Definition round_spec (contract : EventContract) (options : eventDispatchOptions) (index : Z) (owned : ownedHook)
    (rest : list ownedHook) (s : dispatch_state) (f : flow) : Prop :=
  match f with
  | Continue s' => round_next contract options index owned (st_result s) (st_result s')
  | Break s' => dr_Block (st_result s) = None ∧ round_block contract index owned rest (st_result s) (st_result s')
  | Return r e => round_fail options index owned (st_result s) r e
  | Panic => panics contract (payload_of (st_result s))
  end.

Lemma dispatch_hook_spec contract options index owned rest s :
  round_spec contract options index owned rest s (hook_round contract options index owned rest s).
Proof.
  unfold dispatch_hook. set (event := dr_Event (st_result s)).
  set (step := with_outcome _ _ _ _ _ _ _ _ _).
  assert (∀ step' auditErr dispatchErr allow, step_of index owned step' →
    ha_InputHash step' = payloadHash (ev_Payload event) → ha_OutputHash step' = payloadHash (ev_Payload event) →
    round_spec contract options index owned rest s
      (handleHookDispatchError error_text s owned step' auditErr dispatchErr allow options)) as Herr.
  { intros step' auditErr dispatchErr allow H1 H2 H3.
    pose proof (handle_error_spec s owned index step' auditErr dispatchErr allow options H1 H2 H3) as Hspec.
    destruct (handleHookDispatchError _ _ _ _ _ _ _ _); [apply Hspec|done|apply Hspec|done]. }
  destruct (invokeHook index owned event) as [effect|e] eqn:Hinv; [|by apply Herr].
  set (step' := with_outcome _ _ _ _ _ _ _ _ _).
  destruct (validateEffect contract effect) as [[]|e] eqn:Hv; [|by apply Herr].
  assert (∀ payload patchedBy, payload_step contract (ev_Payload event) payload →
    round_spec contract options index owned rest s
      (commit_effect s index rest step' effect payload patchedBy)) as Hcommit.
  { intros payload patchedBy Hp.
    assert (step_of index owned step') as Hso by done.
    pose proof (commit_effect_spec contract options s index owned rest step' effect payload patchedBy
      Hso eq_refl Hp Hinv Hv) as Hspec.
    destruct (commit_effect _ _ _ _ _ _ _); [apply Hspec|exact Hspec|done|done]. }
  case_bool_decide as Hempty; [by apply Hcommit; left|].
  destruct (apply_patch _ _ _) as [payload|e|] eqn:Hpatch; [|by apply Herr|].
  - apply Hcommit. right. exists (ef_Patch effect). eauto using validateEffect_patch.
  - exists (ef_Patch effect). eauto using validateEffect_patch.
Qed.

(** ** The whole loop *)

Definition neither (step : HookAuditStep) : Prop := ha_Outcome step ≠ "blocked" ∧ ha_Outcome step ≠ "skipped".

(** The block of the result is that of the only blocking step; the hooks after it did not run. *)
Definition block_audited (steps : list HookAuditStep) (r : DispatchResult) : Prop :=
  match dr_Block r with
  | None => Forall neither steps
  | Some _ => ∃ before step after,
      steps = before ++ step :: after ∧ Forall neither before ∧ ha_Outcome step = "blocked" ∧
      Forall (λ step, ha_Outcome step = "skipped") after ∧
      res_Outcome (ea_Resolution (dr_Audit r)) = "blocked" ∧
      res_BlockStep (ea_Resolution (dr_Audit r)) = Some (ha_Index step)
  end.

Record finished_spec (contract : EventContract) (index : Z) (hooks : list ownedHook) (r r' : DispatchResult) : Prop := {
  fs_audit : ∃ steps, steps_of r' = steps_of r ++ steps ∧
    audit_chain (payloadHash (payload_of r)) index hooks steps (payloadHash (payload_of r')) ∧
    block_audited steps r';
  fs_payload : rtc (payload_step contract) (payload_of r) (payload_of r');
  fs_event : dr_Event r' = with_payload (dr_Event r) (payload_of r');
}.

(** The error of a strict hook ends the dispatch: the audit covers the hooks up to it. *)
Record failed_spec (contract : EventContract) (options : eventDispatchOptions) (index : Z) (hooks : list ownedHook)
    (r r' : DispatchResult) (e : error) : Prop := {
  xs_audit : ∃ n steps step, steps_of r' = steps_of r ++ steps ++ [step] ∧ (n < length hooks)%nat ∧
    audit_chain (payloadHash (payload_of r)) index (take (S n) hooks) (steps ++ [step]) (payloadHash (payload_of r')) ∧
    Forall neither steps ∧ ha_Outcome step = "error";
  xs_payload : rtc (payload_step contract) (payload_of r) (payload_of r');
  xs_event : dr_Event r' = with_payload (dr_Event r) (payload_of r');
  xs_strict : isPostCommit options = false;
  xs_resolution : res_Outcome (ea_Resolution (dr_Audit r')) = "error" ∧
    res_Error (ea_Resolution (dr_Audit r')) = error_text e;
}.

Lemma with_payload_twice event p p' : with_payload (with_payload event p) p' = with_payload event p'.
Proof. done. Qed.

Lemma with_payload_same event : with_payload event (ev_Payload event) = event.
Proof. by destruct event. Qed.

(** A round put in front of a finished loop. *)
Lemma finished_cons contract options index owned hooks r r' r'' :
  dr_Block r = None → round_next contract options index owned r r' →
  finished_spec contract (index + 1) hooks r' r'' → finished_spec contract index (owned :: hooks) r r''.
Proof.
  intros Hb [(step & [Hs Hi Ho He] & Hsteps & Hsk & Hbl & _) Hp Hblock _] [(steps & Hst & Hc & Hba) Hpay Hev].
  split.
  - exists (step :: steps). split; [by rewrite Hst, Hsteps, <- app_assoc|]. split.
    + econstructor; [done|done|]. by rewrite Ho.
    + assert (neither step) as Hn by (split; auto). revert Hba. unfold block_audited.
      destruct (dr_Block r''); [|by constructor].
      intros (before & bstep & after & -> & Hbefore & ?). exists (step :: before), bstep, after.
      split; [done|]. split; [by constructor|done].
  - eapply rtc_l; done.
  - rewrite Hev, He at 1. by rewrite with_payload_twice.
Qed.

Lemma failed_cons contract options index owned hooks r r' r'' e :
  dr_Block r = None → round_next contract options index owned r r' →
  failed_spec contract options (index + 1) hooks r' r'' e →
  failed_spec contract options index (owned :: hooks) r r'' e.
Proof.
  intros Hb [(step & [Hs Hi Ho He] & Hsteps & Hsk & Hbl & _) Hp Hblock _]
    [(n & steps & last & Hst & Hn & Hc & Hnei & Hout) Hpay Hev Hstrict Hres].
  split; [|by eapply rtc_l| |done|done].
  - exists (S n), (step :: steps), last. split; [by rewrite Hst, Hsteps, <- app_assoc|]. split; [simpl; lia|].
    split; [|split; [|done]].
    + change (take (S (S n)) (owned :: hooks)) with (owned :: take (S n) hooks). simpl app.
      econstructor; [done|done|]. by rewrite Ho.
    + constructor; [|done]. split; auto.
  - rewrite Hev, He at 1. by rewrite with_payload_twice.
Qed.

Lemma run_hooks_spec contract options index hooks s :
  dr_Block (st_result s) = None →
  match run_hooks contract options index hooks s with
  | Finished r => finished_spec contract index hooks (st_result s) r
  | Failed r e => failed_spec contract options index hooks (st_result s) r e
  | Panicked => ∃ payload, rtc (payload_step contract) (payload_of (st_result s)) payload ∧ panics contract payload
  end.
Proof.
  revert index s. induction hooks as [|owned hooks IH]; intros index s Hb; simpl.
  - split; [|done|by rewrite with_payload_same]. exists []. rewrite app_nil_r. split; [done|].
    split; [constructor|]. unfold block_audited. rewrite Hb. constructor.
  - pose proof (dispatch_hook_spec contract options index owned hooks s) as Hround.
    destruct (hook_round contract options index owned hooks s) as [s'|s'|r e|]; cbn [round_spec] in Hround.
    + assert (dr_Block (st_result s') = None) as Hb' by (by rewrite (rn_block _ _ _ _ _ _ Hround)).
      specialize (IH (index + 1) s' Hb').
      destruct (run_hooks contract options (index + 1) hooks s') as [r|r e|].
      * by eapply finished_cons.
      * by eapply failed_cons.
      * destruct IH as (payload & Hr & Hpanic). exists payload. split; [|done].
        eapply rtc_l; [apply Hround|done].
    + destruct Hround as [_ [(step & [Hs Hi Ho He] & Hout & Hsteps) Hp (effect & block & _ & _ & Hblk & _) [Hres Hbs]]].
      split; [|by apply rtc_once|done]. eexists. split; [exact Hsteps|]. split.
      * econstructor; [done|done|]. rewrite Ho. apply skipped_chain.
      * unfold block_audited. rewrite Hblk. eexists [], step, _. split; [done|]. split_and!; try done.
        -- apply list.Forall_forall. intros x. apply skipped_outcome.
        -- rewrite Hbs. f_equal. symmetry. apply Hs.
    + destruct Hround as [(step & [Hs Hi Ho He] & Hout & Hsteps) Hp Hstrict Hres].
      split; [|by rewrite Hp|done|done|done]. exists 0%nat, [], step. split; [done|]. simpl. split; [lia|].
      split; [|done]. econstructor; [done|done|]. rewrite Ho. constructor.
    + eauto using rtc_refl.
Qed.

Lemma finalize_spec r :
  dr_Event (finalizeDispatchAudit r) = dr_Event r ∧ dr_Block (finalizeDispatchAudit r) = dr_Block r ∧
  dr_Actions (finalizeDispatchAudit r) = dr_Actions r ∧ steps_of (finalizeDispatchAudit r) = steps_of r ∧
  ea_OutputHash (dr_Audit (finalizeDispatchAudit r)) = payloadHash (payload_of r).
Proof. unfold finalizeDispatchAudit. repeat case_match; done. Qed.

Lemma finalize_blocked r :
  res_Outcome (ea_Resolution (dr_Audit r)) = "blocked" →
  res_Outcome (ea_Resolution (dr_Audit (finalizeDispatchAudit r))) = "blocked" ∧
  res_BlockStep (ea_Resolution (dr_Audit (finalizeDispatchAudit r))) = res_BlockStep (ea_Resolution (dr_Audit r)).
Proof. intros Hb. unfold finalizeDispatchAudit. rewrite Hb. simpl. by destruct (_ =? _)%nat. Qed.

Lemma finished_finalize contract index hooks r r' :
  finished_spec contract index hooks r r' → finished_spec contract index hooks r (finalizeDispatchAudit r').
Proof.
  destruct (finalize_spec r') as (He & Hb & _ & Hs & _).
  intros [(steps & Hst & Hc & Hba) Hp Hev]. split; rewrite ?He, ?Hs; try done.
  exists steps. split_and!; [done|done|]. revert Hba. unfold block_audited. rewrite Hb.
  destruct (dr_Block r'); [|done]. intros (before & step & after & -> & ? & ? & ? & Ho & Hbs).
  destruct (finalize_blocked _ Ho) as [? Hbs']. exists before, step, after. rewrite Hbs'. done.
Qed.

(** ** Events of the runtime *)

Context (json_identity : ResourceIdentity → option string) {S : Type}
  (store_Enqueue : S → list Delivery → S * option error).

Abbreviation dispatch :=
  (dispatchPreparedEvent Unmarshal Marshal decodeError invokeHook error_text elapsed json_identity store_Enqueue).
Abbreviation enqueue := (enqueueSubscribers json_identity store_Enqueue).
Abbreviation planned := (planSubscriberDeliveries json_identity).

(** The hooks that run for an event. *)
Definition hooks_of (s : registrySnapshot) (event : Event) (options : eventDispatchOptions) : list ownedHook :=
  if eo_invokeHooks options then default [] (sn_hooks s !! ev_Name event) else [].

(** A dispatch that succeeds has audited every hook of the event exactly once, in order: each
    step names its hook and starts from the payload hash the step before ended with, from the hash
    of the event to the hash of the result; at most one step blocked, its index is recorded, and all
    hooks after it were skipped.  A dispatch that a hook fails reports that hook as the last step,
    records the error, and ran no hook after it; this never happens after a commit.  Otherwise only
    the enqueueing of deliveries can fail it. *)
Theorem dispatch_outcome s owned event options now store :
  sn_events s !! ev_Name event = Some owned →
  let start := st_result (dispatch_start event) in
  let hooks := hooks_of s event options in
  match dispatch (Some s) event options now store with
  | (Finished r, store') => finished_spec (oe_Contract owned) 0 hooks start r ∧
      ea_OutputHash (dr_Audit r) = payloadHash (payload_of r) ∧
      store' = (if eo_enqueueSubscriberDeliveries options then (enqueue (Some s) (dr_Event r) now store).1 else store)
  | (Failed r e, store') =>
      failed_spec (oe_Contract owned) options 0 hooks start r e ∧ store' = store ∨
      returnSubscriberFailures options = true ∧
        ∃ event', (store', Some e) = enqueue (Some s) event' now store
  | (Panicked, store') => store' = store
  end.
Proof.
  intros Ho. unfold dispatchPreparedEvent. rewrite Ho.
  pose proof (run_hooks_spec (oe_Contract owned) options 0 (hooks_of s event options) (dispatch_start event) eq_refl) as Hrun.
  fold (hooks_of s event options).
  destruct (run_hooks (oe_Contract owned) options 0 (hooks_of s event options) (dispatch_start event)) as [r|r e|];
    [|by left|done].
  apply finished_finalize in Hrun. destruct (finalize_spec r) as (He & _ & _ & _ & Hout).
  rewrite <- He in Hout. destruct (eo_enqueueSubscriberDeliveries options); [|done].
  destruct (enqueue (Some s) (dr_Event (finalizeDispatchAudit r)) now store) as [store' [e|]] eqn:Hen.
  - destruct (returnSubscriberFailures options); [|by rewrite Hen]. right. eauto.
  - by rewrite Hen.
Qed.

(** ** Patches

    [encoding/json] round-trips an object up to the layout of its values: [R] relates two texts of
    the same value. *)

Section codec.
Context (R : relation string) `{!Equivalence R}.
Context (marshal_faithful : ∀ m p, Marshal (Some m) = Ok p →
  ∃ m', Unmarshal p = Some (Some m') ∧ ∀ field, option_Forall2 R (m !! field) (m' !! field)).

(** Equal outside the mutable fields. *)
Definition same_elsewhere (mutable : list string) (m m' : gmap string string) : Prop :=
  ∀ field, field ∉ mutable → option_Forall2 R (m !! field) (m' !! field).

Lemma apply_patch_spec payload m patch mutable :
  Unmarshal payload = Some (Some m) →
  match apply_patch payload patch mutable with
  | PatchOk payload' => (∀ field, is_Some (patch !! field) → field ∈ mutable) →
      ∃ m', Unmarshal payload' = Some (Some m') ∧ same_elsewhere mutable m m'
  | PatchErr _ => True
  | PatchPanic => False
  end.
Proof using marshal_faithful.
  intros Hu. unfold applyPatch. rewrite Hu.
  pose proof (patch_fields_spec mutable m (range_map 1 patch)) as Hp.
  destruct (patch_fields _ _ _) as [o|[| |]]; try done. destruct Hp as (m' & -> & Hm').
  destruct (Marshal (Some m')) as [payload'|e] eqn:Hmar; [|done]. intros Hall.
  apply marshal_faithful in Hmar as (m'' & Hu' & Hr). exists m''. split; [done|].
  intros field Hf. rewrite <- Hm'; [apply Hr|].
  intros ([k v] & -> & Hin)%list_elem_of_fmap. apply elem_of_range_map in Hin. apply Hf, Hall. by exists v.
Qed.

Lemma payload_steps_spec contract payload payload' m :
  rtc (payload_step contract) payload payload' → Unmarshal payload = Some (Some m) →
  ∃ m', Unmarshal payload' = Some (Some m') ∧ same_elsewhere (ec_MutableFields contract) m m'.
Proof using marshal_faithful Equivalence0.
  intros Hr. revert m. induction Hr as [payload|payload payload1 payload2 Hs _ IH]; intros m Hu.
  - exists m. split; [done|]. intros field _. reflexivity.
  - assert (∃ m1, Unmarshal payload1 = Some (Some m1) ∧ same_elsewhere (ec_MutableFields contract) m m1)
      as (m1 & Hu1 & Hm1).
    { destruct Hs as [->|(patch & _ & Hall & Hp)].
      - exists m. split; [done|]. intros field _. reflexivity.
      - pose proof (apply_patch_spec _ _ patch (ec_MutableFields contract) Hu) as Hspec. rewrite Hp in Hspec. auto. }
    destruct (IH _ Hu1) as (m2 & Hu2 & Hm2). exists m2. split; [done|]. intros field Hf.
    etransitivity; [by apply Hm1|by apply Hm2].
Qed.

(** C11. Hooks change nothing but the mutable fields: when the payload of the event is a JSON object,
    dispatching it never panics, and the payload of the result is a JSON object with the same value
    in every field outside the contract's [MutableFields]; the rest of the event is untouched. *)
Theorem dispatch_patches_mutable_only s owned event options now store m :
  sn_events s !! ev_Name event = Some owned → Unmarshal (ev_Payload event) = Some (Some m) →
  (dispatch (Some s) event options now store).1 ≠ Panicked ∧
  ∀ r, (dispatch (Some s) event options now store).1 = Finished r →
    dr_Event r = with_payload event (payload_of r) ∧
    ∃ m', Unmarshal (payload_of r) = Some (Some m') ∧ same_elsewhere (ec_MutableFields (oe_Contract owned)) m m'.
Proof using marshal_faithful Equivalence0.
  intros Ho Hu. unfold dispatchPreparedEvent. rewrite Ho. fold (hooks_of s event options).
  pose proof (run_hooks_spec (oe_Contract owned) options 0 (hooks_of s event options) (dispatch_start event) eq_refl) as Hrun.
  destruct (run_hooks (oe_Contract owned) options 0 (hooks_of s event options) (dispatch_start event)) as [r|r e|].
  - apply finished_finalize in Hrun.
    assert (∀ r', finalizeDispatchAudit r = r' → dr_Event r' = with_payload event (payload_of r') ∧
      ∃ m', Unmarshal (payload_of r') = Some (Some m') ∧ same_elsewhere (ec_MutableFields (oe_Contract owned)) m m').
    { intros r' <-. split; [apply Hrun|]. eapply payload_steps_spec; [apply Hrun|done]. }
    destruct (eo_enqueueSubscriberDeliveries options);
      [destruct (enqueue _ _ _ _) as [store' [e|]]; [destruct (returnSubscriberFailures options)|]|];
      (split; [done|]); intros r' [= <-]; auto.
  - done.
  - destruct Hrun as (payload & Hr & patch & _ & _ & Hp). eapply payload_steps_spec in Hr as (m' & Hu' & _); [|exact Hu].
    pose proof (apply_patch_spec _ _ patch (ec_MutableFields (oe_Contract owned)) Hu') as Hspec. by rewrite Hp in Hspec.
Qed.
End codec.

(** ** Deliveries around a commit *)

Abbreviation prepare_plan := (preparePostCommitEventPlan Unmarshal json_identity).
Abbreviation dispatch_plan :=
  (plan_dispatchAfterCommit Unmarshal Marshal decodeError invokeHook error_text elapsed json_identity store_Enqueue).

Lemma inert_payload contract payload payload' :
  AllowsEffect contract = false → rtc (payload_step contract) payload payload' → payload' = payload.
Proof.
  unfold AllowsEffect. intros Ha Hr. induction Hr as [|p1 p2 p3 Hs _ ->]; [done|].
  destruct Hs as [->|(patch & Hne & Hall & _)]; [done|]. exfalso. apply Hne. apply map_empty.
  intros field. apply eq_None_not_Some. intros Hf%Hall. by destruct (ec_MutableFields contract); [apply elem_of_nil in Hf|].
Qed.

Lemma inert_panics contract payload : AllowsEffect contract = false → ¬ panics contract payload.
Proof.
  unfold AllowsEffect. intros Ha (patch & Hne & Hall & _). apply Hne. apply map_empty.
  intros field. apply eq_None_not_Some. intros Hf%Hall. by destruct (ec_MutableFields contract); [apply elem_of_nil in Hf|].
Qed.

Lemma dispatch_finished_store s event options now store r store' :
  dispatch (Some s) event options now store = (Finished r, store') →
  store' = (if eo_enqueueSubscriberDeliveries options then (enqueue (Some s) (dr_Event r) now store).1 else store).
Proof.
  unfold dispatchPreparedEvent. destruct (sn_events s !! ev_Name event); [|done].
  destruct (run_hooks _ _ _ _ _) as [r0|r0 e|]; try done.
  destruct (eo_enqueueSubscriberDeliveries options); [|by intros [= <- <-]].
  destruct (enqueue _ _ _ _) as [store0 [e|]] eqn:He; [destruct (returnSubscriberFailures options); [done|]|];
    intros [= <- <-]; by rewrite He.
Qed.

(** Hooks on an event whose contract allows no effect only observe it. *)
Lemma dispatch_inert s owned event options now store :
  sn_events s !! ev_Name event = Some owned → AllowsEffect (oe_Contract owned) = false →
  isPostCommit options = true → eo_enqueueSubscriberDeliveries options = false →
  ∃ r, dispatch (Some s) event options now store = (Finished r, store) ∧ dr_Event r = event.
Proof.
  intros Ho Ha Hpost Henq. unfold dispatchPreparedEvent. rewrite Ho, Henq.
  fold (hooks_of s event options).
  pose proof (run_hooks_spec (oe_Contract owned) options 0 (hooks_of s event options) (dispatch_start event) eq_refl) as Hrun.
  destruct (run_hooks (oe_Contract owned) options 0 (hooks_of s event options) (dispatch_start event)) as [r|r e|].
  - apply finished_finalize in Hrun. eexists. split; [done|]. rewrite (fs_event _ _ _ _ _ Hrun).
    rewrite (inert_payload _ _ _ Ha (fs_payload _ _ _ _ _ Hrun)). apply with_payload_same.
  - pose proof (xs_strict _ _ _ _ _ _ _ Hrun). congruence.
  - destruct Hrun as (payload & _ & Hp). by apply inert_panics in Hp.
Qed.

(** The deliveries of an event around a durable mutation are planned once.  Either they go into
    the host outbox, and then dispatching the event afterwards leaves the delivery store alone,
    cannot panic, and dispatches the very event they were planned for; or the outbox is empty and
    the dispatch enqueues the deliveries of the event as the hooks left it. *)
Theorem postcommit_deliveries_once s name session payload boundary e now plan :
  prepare_plan (Some s) name session payload boundary e now = Ok plan →
  let event := pl_event plan in
  let delivery := pl_delivery plan in
  pd_hostOutbox delivery = planned (Some s) event now ∧ pd_afterDispatch delivery = false ∧
    (∀ now' store, dispatch_plan plan now' store = Some store ∧
      ∃ r, dispatch (Some s) event (postCommitEventDispatchOptions delivery) now' store = (Finished r, store) ∧
        dr_Event r = event) ∨
  pd_hostOutbox delivery = [] ∧ pd_afterDispatch delivery = true ∧
    (∀ now' store r store',
      dispatch (Some s) event (postCommitEventDispatchOptions delivery) now' store = (Finished r, store') →
      store' = (enqueue (Some s) (dr_Event r) now' store).1).
Proof.
  unfold preparePostCommitEventPlan. intros Hok.
  destruct (newDispatchEvent Unmarshal (Some s) name session payload e) as [event|] eqn:He; [|done].
  injection Hok as <-. cbn [pl_event pl_delivery].
  assert (∃ owned, sn_events s !! ev_Name event = Some owned) as [owned Ho].
  { unfold newDispatchEvent in He. destruct (sn_events s !! name) as [owned|] eqn:Ho; [|done].
    destruct (marshalEventPayload _ _); [|done]. injection He as <-. eauto. }
  assert (∀ now' store r store', dispatch (Some s) event
      (postCommitEventDispatchOptions {| pd_afterDispatch := true; pd_hostOutbox := [] |}) now' store = (Finished r, store') →
    store' = (enqueue (Some s) (dr_Event r) now' store).1) as Hafter.
  { intros now' store r store' Hd. by apply dispatch_finished_store in Hd. }
  assert (newPostCommitDelivery json_identity (Some s) event boundary now = {| pd_afterDispatch := true; pd_hostOutbox := [] |} ∨
    AllowsEffect (oe_Contract owned) = false ∧
    newPostCommitDelivery json_identity (Some s) event boundary now =
      {| pd_afterDispatch := false; pd_hostOutbox := planned (Some s) event now |}) as [->|[Ha ->]].
  { unfold newPostCommitDelivery, subscriberDeliveryStableBeforeDispatch. rewrite Ho.
    destruct boundary, (AllowsEffect (oe_Contract owned)); auto. }
  - right. eauto.
  - left. split; [done|]. split; [done|]. intros now' store.
    destruct (dispatch_inert s owned event (postCommitEventDispatchOptions
      {| pd_afterDispatch := false; pd_hostOutbox := planned (Some s) event now |}) now' store Ho Ha eq_refl eq_refl)
      as (r & Hd & Hev).
    split; [|eauto]. unfold plan_dispatchAfterCommit. cbn [pl_event pl_delivery pl_snapshot].
    rewrite Hd. by destruct (is_empty (ev_ID event)).
Qed.

(** ** A null payload

    [json.Unmarshal] decodes [null] into a nil map without an error. *)

Lemma range_map_singleton {A} loop k (x : A) : range_map loop {[k := x]} = [(k, x)].
Proof using.
  apply Permutation_length_1_inv. rewrite range_map_perm. by rewrite map_to_list_singleton.
Qed.

Definition patch_one (field value : string) : Effect :=
  {| ef_Patch := {[field := value]}; ef_Block := None; ef_Action := None |}.

(** An event payload that encodes as [null] is accepted as a JSON object, and the first hook that
    patches a mutable field of it makes the dispatch panic. *)
Theorem null_payload_panics s owned name session raw e h rest field value :
  sn_events s !! name = Some owned → sn_hooks s !! name = Some (h :: rest) → Unmarshal raw = Some None →
  field ∈ ec_MutableFields (oe_Contract owned) → Json.Valid value = true →
  (∀ event, invokeHook 0 h event = Ok (patch_one field value)) →
  ∃ event, newDispatchEvent Unmarshal (Some s) name session (Ok raw) e = Ok event ∧
    ∀ now store, dispatch (Some s) event emitEventDispatchOptions now store = (Panicked, store).
Proof.
  intros Ho Hh Hu Hf Hv Hi. unfold newDispatchEvent. rewrite Ho. simpl. rewrite Hu. eexists. split; [done|].
  intros now store. unfold dispatchPreparedEvent. simpl. rewrite Ho, Hh. simpl.
  assert (hook_round (oe_Contract owned) emitEventDispatchOptions 0 h rest (dispatch_start
    {| ev_ID := NewID e; ev_Name := name; ev_SessionID := session; ev_Generation := sn_generation s; ev_Payload := raw |})
    = Panic) as ->; [|done].
  unfold dispatch_hook. rewrite Hi. unfold validateEffect. simpl. rewrite range_map_singleton. simpl.
  rewrite bool_decide_eq_false_2 by (intros []; by apply elem_of_list_to_set). simpl.
  rewrite bool_decide_eq_false_2 by (intros Hemp; by apply (f_equal (lookup field)) in Hemp; rewrite lookup_singleton_eq in Hemp).
  unfold applyPatch. simpl. rewrite Hu, range_map_singleton. simpl.
  rewrite bool_decide_eq_false_2 by (by intros []). by rewrite Hv.
Qed.
End dispatch.

(** ** A dispatch at work

    A codec of JSON objects that satisfies the laws, and the hook of [ex_s2] on "deploy.done". *)

Fixpoint bits_of (p : positive) : string :=
  match p with xH => "" | xO p => String "0" (bits_of p) | xI p => String "1" (bits_of p) end.

Fixpoint of_bits (s : string) : option positive :=
  match s with
  | EmptyString => Some xH
  | String c rest => if Ascii.eqb c "0" then xO <$> of_bits rest else if Ascii.eqb c "1" then xI <$> of_bits rest else None
  end.

Definition ex_Unmarshal (s : string) : option (option (gmap string string)) :=
  if String.eqb s "null" then Some None else p ← of_bits s; Some <$> decode p.

Definition ex_Marshal (o : option (gmap string string)) : result string :=
  match o with None => Ok "null" | Some m => Ok (bits_of (encode m)) end.

Lemma of_bits_of p : of_bits (bits_of p) = Some p.
Proof. induction p as [p IH|p IH|]; simpl; by rewrite ?IH. Qed.

Lemma ex_marshal_faithful m p :
  ex_Marshal (Some m) = Ok p →
  ∃ m', ex_Unmarshal p = Some (Some m') ∧ ∀ field : string, option_Forall2 (=) (m !! field) (m' !! field).
Proof.
  intros [= <-]. exists m. split; [|by intros; destruct (m !! field); constructor]. unfold ex_Unmarshal.
  assert (String.eqb (bits_of (encode m)) "null" = false) as -> by (by destruct (encode m)).
  rewrite of_bits_of. simpl. by rewrite decode_encode.
Qed.

Definition ex_object : gmap string string := {["note" := "1"; "kind" := "2"]}.

Definition ex_dispatched (payload : string) : Event :=
  {| ev_ID := "e-1"; ev_Name := "deploy.done"; ev_SessionID := ""; ev_Generation := 3; ev_Payload := payload |}.

Definition ex_run (payload : string) : dispatch_end * list Delivery :=
  @dispatchPreparedEvent forward_order ex_Unmarshal ex_Marshal (λ _, errors_New "syntax")
    (λ _ _ _, Ok (patch_one "note" "9")) (λ _, "") (λ _, 5) (λ _, None) (list Delivery)
    (λ store batch, (store ++ batch, None)) (Some ex_s2.1) (ex_dispatched payload) emitEventDispatchOptions 0 [].

Definition ex_deploy_event : ownedEvent :=
  {| oe_Owner := Some ex_deploy; oe_Contract := contract_of "deploy.done" ["note"] false false |}.

Lemma dispatch_outcome_witness :
  sn_events ex_s2.1 !! "deploy.done" = Some ex_deploy_event ∧
  match ex_run (bits_of (encode ex_object)) with
  | (Finished r, _) => ∃ steps, ea_Steps (dr_Audit r) = [] ++ steps ∧ length steps = 1%nat
  | _ => False
  end.
Proof.
  split; [by vm_compute|].
  pose proof (@dispatch_outcome forward_order ex_Unmarshal ex_Marshal (λ _, errors_New "syntax")
    (λ _ _ _, Ok (patch_one "note" "9")) (λ _, "") (λ _, 5) (λ _, None) (list Delivery)
    (λ store batch, (store ++ batch, None)) ex_s2.1 ex_deploy_event (ex_dispatched (bits_of (encode ex_object)))
    emitEventDispatchOptions 0 [] ltac:(vm_compute; reflexivity)) as H.
  cbv zeta in H. unfold ex_run.
  destruct (dispatchPreparedEvent _ _ _ _ _ _ _ _ _ _ _ _ _) as [[r|r e|] store] eqn:Hd; [|vm_compute in Hd; discriminate..].
  destruct H as ([(steps & Hs & Hc & _) _ _] & _). exists steps. split; [exact Hs|].
  rewrite (audit_chain_length _ _ _ _ _ Hc). vm_compute. reflexivity.
Defined.

Lemma dispatch_patches_mutable_only_witness :
  ex_Unmarshal (bits_of (encode ex_object)) = Some (Some ex_object) ∧
  (ex_run (bits_of (encode ex_object))).1 ≠ Panicked.
Proof.
  split; [by vm_compute|].
  apply (@dispatch_patches_mutable_only forward_order ex_Unmarshal ex_Marshal (λ _, errors_New "syntax")
    (λ _ _ _, Ok (patch_one "note" "9")) (λ _, "") (λ _, 5) (λ _, None) (list Delivery)
    (λ store batch, (store ++ batch, None)) (=) _ ex_marshal_faithful ex_s2.1 ex_deploy_event
    (ex_dispatched (bits_of (encode ex_object))) emitEventDispatchOptions 0 [] ex_object); vm_compute; reflexivity.
Defined.

Lemma null_payload_panics_witness :
  sn_events ex_s2.1 !! "deploy.done" = Some ex_deploy_event ∧
  ∃ event, @newDispatchEvent ex_Unmarshal (Some ex_s2.1) "deploy.done" "" (Ok "null") (ex_entropy 4) = Ok event.
Proof.
  split; [by vm_compute|].
  destruct (@null_payload_panics forward_order ex_Unmarshal ex_Marshal (λ _, errors_New "syntax")
    (λ _ _ _, Ok (patch_one "note" "9")) (λ _, "") (λ _, 5) (λ _, None) (list Delivery)
    (λ store batch, (store ++ batch, None)) ex_s2.1 ex_deploy_event "deploy.done" "" "null" (ex_entropy 4)
    (default (new_hook ex_audit ∅ ∅ 0 "" 0) (default [] (sn_hooks ex_s2.1 !! "deploy.done") !! 0%nat)) []
    "note" "9") as (event & He & _).
  - vm_compute. reflexivity.
  - vm_compute. reflexivity.
  - reflexivity.
  - left.
  - vm_compute. reflexivity.
  - reflexivity.
  - exists event. exact He.
Defined.

Lemma postcommit_deliveries_once_witness :
  is_Some (sn_events ex_s2.1 !! "turn_end") ∧
  ∃ plan, preparePostCommitEventPlan ex_Unmarshal (λ _, None) (Some ex_s2.1) "turn_end" "s-1"
            (Ok (bits_of (encode ex_object))) HostOutbox (ex_entropy 4) 7 = Ok plan ∧
    (pd_afterDispatch (pl_delivery plan) = false ∨ pd_hostOutbox (pl_delivery plan) = []).
Proof.
  split; [by vm_compute; eauto|].
  destruct (preparePostCommitEventPlan ex_Unmarshal (λ _, None) (Some ex_s2.1) "turn_end" "s-1"
    (Ok (bits_of (encode ex_object))) HostOutbox (ex_entropy 4) 7) as [plan|] eqn:Hp; [|vm_compute in Hp; discriminate].
  exists plan. split; [reflexivity|].
  destruct (@postcommit_deliveries_once forward_order ex_Unmarshal ex_Marshal (λ _, errors_New "syntax")
    (λ _ _ _, Ok (patch_one "note" "9")) (λ _, "") (λ _, 5) (λ _, None) (list Delivery)
    (λ store batch, (store ++ batch, None)) ex_s2.1 "turn_end" "s-1" (Ok (bits_of (encode ex_object))) HostOutbox
    (ex_entropy 4) 7 plan Hp) as [(_ & Ha & _)|(Hb & _)]; [left; exact Ha|right; exact Hb].
Defined.
