(* ===== verification/TrajectoryBranch.v ===== *)
(** Theory of branch walks: the chain of entries from a cursor to the root, what the walks of
    [trajectorymodel] compute on it, and the termination of the walk loop. *)

From S2P Require Import Prelude GoText Names Trajectory.

(** [chain lookup c l]: following parent links from [c] reads the entries [l] and ends at a root. *)
Inductive chain (lookup : EntryLookup) : string → list TrajectoryEntry → Prop :=
  | chain_root : chain lookup "" []
  | chain_step c e l :
      c ≠ "" → lookup c = Ok (Some e) → chain lookup (te_ParentID e) l → chain lookup c (e :: l).

(** A lookup returns entries under their own IDs. *)
Definition lookup_ids (lookup : EntryLookup) : Prop :=
  ∀ c e, lookup c = Ok (Some e) → te_ID e = c.

(** Every entry a lookup returns has its whole chain there. *)
Definition lookup_closed (lookup : EntryLookup) : Prop :=
  ∀ c e, c ≠ "" → lookup c = Ok (Some e) → ∃ l, chain lookup c (e :: l).

Create HintDb branch.
#[export] Hint Constructors chain : branch.

Lemma chain_det lookup c l l' : chain lookup c l → chain lookup c l' → l = l'.
Proof.
  intros H. revert l'. induction H as [|c e l Hc He _ IH]; intros l' H'; inversion H'; subst; try done.
  assert (e = e0) as <- by congruence. f_equal. by apply IH.
Qed.

Lemma chain_mono (lk lk' : EntryLookup) c l :
  (∀ c e, lk c = Ok (Some e) → lk' c = Ok (Some e)) → chain lk c l → chain lk' c l.
Proof. intros Hm H. induction H; eauto with branch. Qed.

(** The chain depends only on the lookups it makes. *)
Lemma chain_ext (lk lk' : EntryLookup) c l :
  (∀ e, e ∈ l → lk (te_ID e) = Ok (Some e) → lk' (te_ID e) = Ok (Some e)) → lookup_ids lk →
  chain lk c l → chain lk' c l.
Proof.
  intros Hm Hid H. induction H as [|c e l Hc He _ IH]; [constructor|].
  constructor; [done| |apply IH; intros; apply Hm; [set_solver|done]].
  rewrite <-(Hid _ _ He). apply Hm; [set_solver|]. by rewrite (Hid _ _ He).
Qed.

(** [findb p l]: the first element on which [p] holds. *)
Abbreviation findb p l := (List.find p l).

Section chain.
Context (lookup : EntryLookup) (Hid : lookup_ids lookup).

Lemma chain_suffix c l1 e l2 : chain lookup c (l1 ++ e :: l2) → chain lookup (te_ID e) (e :: l2).
Proof using Hid.
  revert c. induction l1 as [|x l1 IH]; intros c H; inversion H; subst; [|by eapply IH].
  rewrite (Hid c e) by done. done.
Qed.

Lemma chain_NoDup c l : chain lookup c l → NoDup (te_ID <$> l).
Proof using Hid.
  intros H. induction H as [|c e l Hc He Hch IH]; [constructor|]. rewrite fmap_cons. constructor; [|done].
  intros (e' & Heq & (l1 & l2 & ->)%list_elem_of_split)%list_elem_of_fmap.
  pose proof (chain_suffix _ _ _ _ Hch) as Hsuf. rewrite <-Heq, (Hid _ _ He) in Hsuf.
  assert (chain lookup c (e :: l1 ++ e' :: l2)) as Hfull by (by constructor).
  pose proof (chain_det _ _ _ _ Hfull Hsuf) as Hl. apply (f_equal length) in Hl.
  simpl in Hl. rewrite length_app in Hl. simpl in Hl. lia.
Qed.

Lemma chain_found c l e : chain lookup c l → e ∈ l → lookup (te_ID e) = Ok (Some e) ∧ te_ID e ≠ "".
Proof using Hid.
  intros H. induction H as [|c x l Hc Hx _ IH]; intros Hin; [by apply not_elem_of_nil in Hin|].
  apply elem_of_cons in Hin as [->|Hin]; [|by apply IH]. by rewrite (Hid _ _ Hx).
Qed.

(** What a visitor computes on the entries of a chain. *)
Fixpoint visit_all {A} (visit : string → TrajectoryEntry → A → A * bool) (l : list TrajectoryEntry) (acc : A) : A :=
  match l with
  | [] => acc
  | e :: l => let '(acc, keepGoing) := visit (te_ID e) e acc in if keepGoing then visit_all visit l acc else acc
  end.

Lemma walk_loop_chain {A} fuel cycle unknown seen c l (visit : string → TrajectoryEntry → A → A * bool) acc :
  chain lookup c l → (∀ e, e ∈ l → te_ID e ∉ seen) → (length l < fuel)%nat →
  walk_loop fuel cycle unknown seen c lookup visit acc = Ok (visit_all visit l acc).
Proof using Hid.
  intros H. revert fuel seen acc. induction H as [|c e l Hc He Hch IH]; intros fuel seen acc Hseen Hf.
  { destruct fuel; [simpl in Hf; lia|done]. }
  destruct fuel as [|fuel]; [simpl in Hf; lia|]. cbn [walk_loop visit_all].
  pose proof (Hid _ _ He) as HID. rewrite (proj2 (is_empty_false _) Hc).
  rewrite bool_decide_eq_false_2 by (rewrite <-HID; apply Hseen; set_solver).
  rewrite He. cbn [result_bind]. rewrite HID. destruct (visit c e acc) as [acc' []]; [|done].
  apply IH; [|simpl in Hf; lia]. intros x Hx.
  apply not_elem_of_union. split; [|apply Hseen; set_solver].
  assert (chain lookup c (e :: l)) as Hfull by (by constructor).
  apply chain_NoDup in Hfull. rewrite fmap_cons in Hfull. apply NoDup_cons_1_1 in Hfull.
  intros Hx2%elem_of_singleton. apply Hfull. rewrite HID, <-Hx2. apply list_elem_of_fmap. eauto.
Qed.

Lemma walkBranch_chain {A} fuel id c l (visit : string → TrajectoryEntry → A → A * bool) acc :
  chain lookup c l → (length l < fuel)%nat →
  walkBranch fuel id c lookup visit acc = Ok (visit_all visit l acc).
Proof using Hid. intros. apply walk_loop_chain; [done|set_solver|done]. Qed.

Lemma ResolveBranch_chain fuel id c l :
  chain lookup c l → (length l < fuel)%nat → ResolveBranch fuel id c lookup = Ok (reverse l).
Proof using Hid.
  intros Hc Hf. unfold ResolveBranch. rewrite (walkBranch_chain _ _ _ l) by done. cbn [result_bind]. f_equal.
  f_equal. assert (∀ acc, visit_all (λ _ entry result, (result ++ [entry], true)) l acc = acc ++ l) as Hall;
    [|by rewrite Hall].
  clear. induction l as [|e l IH]; intros acc; simpl; [by rewrite app_nil_r|]. by rewrite IH, <-app_assoc.
Qed.

Lemma visit_find (p : string → TrajectoryEntry → bool) l acc :
  visit_all (λ c e r, if p c e then (Some e, false) else (r, true)) l acc =
  match findb (λ e, p (te_ID e) e) l with Some e => Some e | None => acc end.
Proof. induction l as [|e l IH]; simpl; [done|]. by destruct (p (te_ID e) e). Qed.

Lemma FindEntryOnBranch_chain fuel id c x l :
  chain lookup c l → (length l < fuel)%nat →
  FindEntryOnBranch fuel id c x lookup = Ok (findb (λ e, bool_decide (te_ID e = x)) l).
Proof using Hid.
  intros Hc Hf. unfold FindEntryOnBranch. rewrite (walkBranch_chain _ _ _ l) by done.
  rewrite (visit_find (λ c _, bool_decide (c = x))). by case_match.
Qed.

Lemma LatestEntry_chain fuel c kind l :
  chain lookup c l → (length l < fuel)%nat →
  LatestEntry fuel c kind lookup = Ok (findb (λ e, bool_decide (te_Kind e = kind)) l).
Proof using Hid.
  intros Hc Hf. unfold LatestEntry. rewrite (walkBranch_chain _ _ _ l) by done.
  rewrite (visit_find (λ _ e, bool_decide (te_Kind e = kind))). by case_match.
Qed.
End chain.

(** Finding an ID in a list of entries with distinct IDs. *)
Lemma find_ID_Some l x e :
  findb (λ e, bool_decide (te_ID e = x)) l = Some e → e ∈ l ∧ te_ID e = x.
Proof.
  induction l as [|y l IH]; simpl; [done|]. case_bool_decide; [intros [= ->]; set_solver|].
  intros [? ?]%IH. set_solver.
Qed.

Lemma find_ID_NoDup l x e :
  NoDup (te_ID <$> l) → e ∈ l → te_ID e = x → findb (λ e, bool_decide (te_ID e = x)) l = Some e.
Proof.
  induction l as [|y l IH]; intros Hnd Hin Heq; [by apply not_elem_of_nil in Hin|]. simpl.
  rewrite fmap_cons in Hnd. pose proof (NoDup_cons_1_1 _ _ Hnd) as Hnin. apply NoDup_cons_1_2 in Hnd.
  apply elem_of_cons in Hin as [->|Hin]; [by rewrite bool_decide_eq_true_2|].
  rewrite bool_decide_eq_false_2; [by apply IH|]. intros Hy. apply Hnin. rewrite Hy, <-Heq.
  apply list_elem_of_fmap. eauto.
Qed.

Lemma find_ID_None l x : findb (λ e, bool_decide (te_ID e = x)) l = None ↔ ∀ e, e ∈ l → te_ID e ≠ x.
Proof.
  induction l as [|y l IH]; simpl; [set_solver|]. case_bool_decide as Hy.
  - split; [done|]. intros H. by destruct (H y); [set_solver|].
  - rewrite IH. split; [intros H e [->|?]%elem_of_cons; [done|by apply H]|intros H e He; apply H; set_solver].
Qed.

(** *** Termination of the walk loop *)

(** Each turn of the loop marks a new entry ID, so the loop ends before the fuel does. *)
Lemma walk_loop_terminates {A} fuel (cycle unknown : string → error) seen c (lookup : EntryLookup) (U : gset string)
    (visit : string → TrajectoryEntry → A → A * bool) acc :
  (∀ x, cycle x ≠ OutOfFuel) → (∀ x, unknown x ≠ OutOfFuel) →
  (∀ c e, lookup c = Ok (Some e) → c ∈ U) → (∀ c, lookup c ≠ Err OutOfFuel) →
  (size (U ∖ seen) < fuel)%nat →
  walk_loop fuel cycle unknown seen c lookup visit acc ≠ Err OutOfFuel.
Proof.
  intros Hcy Hun HU Herr. revert seen c acc. induction fuel as [|fuel IH]; intros seen c acc Hf; [lia|].
  cbn [walk_loop]. destruct (is_empty c); [done|].
  case_bool_decide as Hseen; [intros [= E]; by apply (Hcy c)|].
  destruct (lookup c) as [[e|]|err] eqn:He; cbn [result_bind].
  - destruct (visit c e acc) as [acc' []]; [|done]. apply IH. apply HU in He.
    assert (size (U ∖ ({[c]} ∪ seen)) < size (U ∖ seen))%nat; [|lia].
    apply subset_size. set_solver.
  - intros [= E]. by apply (Hun c).
  - intros [= ->]. by destruct (Herr c).
Qed.

(** What the collecting walk returns is a chain. *)
Lemma walk_loop_collects fuel cycle unknown seen c (lookup : EntryLookup) acc r :
  walk_loop fuel cycle unknown seen c lookup (λ _ entry result, (result ++ [entry], true)) acc = Ok r →
  ∃ l, chain lookup c l ∧ r = acc ++ l.
Proof.
  revert seen c acc. induction fuel as [|fuel IH]; intros seen c acc H; [done|]. cbn [walk_loop] in H.
  destruct (is_empty c) eqn:Ec.
  { apply is_empty_true in Ec as ->. injection H as <-. exists []. split; [constructor|by rewrite app_nil_r]. }
  apply is_empty_false in Ec. inv_ok_step. apply bind_Ok in H as ([e|] & He & H); [|done].
  apply IH in H as (l & Hl & ->). exists (e :: l). split; [by constructor|]. by rewrite <-app_assoc.
Qed.

(** ** Appending entries *)

(** The lookup after entries were added under fresh IDs. *)
Definition overlay (m : gmap string TrajectoryEntry) (lookup : EntryLookup) : EntryLookup :=
  λ c, match m !! c with Some e => Ok (Some e) | None => lookup c end.

Lemma entry_index_snoc l e : entry_index (l ++ [e]) = <[te_ID e := e]> (entry_index l).
Proof. unfold entry_index. by rewrite foldl_app. Qed.

(** The depth of an entry is one more than its parent's. *)
Definition depth_ok (lookup : EntryLookup) (e : TrajectoryEntry) : Prop :=
  (te_ParentID e = "" → te_Depth e = 1) ∧
  ∀ p, te_ParentID e ≠ "" → lookup (te_ParentID e) = Ok (Some p) → te_Depth e = u64 (te_Depth p + 1).

(** What the preparation of a batch establishes about the map of the entries prepared so far. *)
Record prepared_ok (id : string) (lookup : EntryLookup) (m : gmap string TrajectoryEntry) : Prop := {
  prepared_id c e : m !! c = Some e → te_ID e = c ∧ valid_name c ∧ te_TrajectoryID e = id;
  prepared_fresh c e : m !! c = Some e → lookup c = Ok None;
  prepared_chain c e : m !! c = Some e → ∃ l, chain (overlay m lookup) c (e :: l);
  prepared_depth c e : m !! c = Some e → depth_ok (overlay m lookup) e;
}.

Section prepare.
Context (id : string) (lookup : EntryLookup).
Context (Hid : lookup_ids lookup) (Hclosed : lookup_closed lookup).

Lemma overlay_insert_mono m c0 e0 c e :
  m !! c0 = None → lookup c0 = Ok None →
  overlay m lookup c = Ok (Some e) → overlay (<[c0 := e0]> m) lookup c = Ok (Some e).
Proof.
  intros Hm Hl. unfold overlay. destruct (decide (c0 = c)) as [->|Hne].
  - by rewrite Hm, Hl.
  - by rewrite lookup_insert_ne.
Qed.

Lemma overlay_mono m c e :
  (∀ c e, m !! c = Some e → lookup c = Ok None) →
  lookup c = Ok (Some e) → overlay m lookup c = Ok (Some e).
Proof.
  intros Hf Hl. unfold overlay. destruct (m !! c) eqn:E; [|done]. rewrite (Hf _ _ E) in Hl. done.
Qed.

Lemma entry_parent_Ok hasHistory m entry parent :
  prepared_ok id lookup m → entry_parent hasHistory m entry lookup = Ok parent →
  match parent with
  | None => te_ParentID entry = ""
  | Some p => te_ParentID entry ≠ "" ∧ overlay m lookup (te_ParentID entry) = Ok (Some p) ∧
              ∃ l, chain (overlay m lookup) (te_ParentID entry) (p :: l)
  end.
Proof using Hclosed.
  intros Hm. unfold entry_parent. destruct (is_empty (te_ParentID entry)) eqn:Ep.
  { intros H. inv_ok. by apply is_empty_true. }
  apply is_empty_false in Ep. destruct (m !! te_ParentID entry) as [p|] eqn:Ec.
  - intros [= <-]. split_and!; [done|unfold overlay; by rewrite Ec|by eapply prepared_chain].
  - intros H. apply bind_Ok in H as (found & Hf & H). destruct found as [p|]; [|done]. injection H as <-.
    split_and!; [done|unfold overlay; by rewrite Ec|].
    destruct (Hclosed _ _ Ep Hf) as [l Hl]. exists l. eapply chain_mono; [|done].
    intros c e. apply overlay_mono, Hm.
Qed.

Lemma prepare_entry_Ok nextOrdinal hasHistory m source wall entry :
  prepared_ok id lookup m → prepare_entry id nextOrdinal hasHistory m source lookup wall = Ok entry →
  te_ID entry = te_ID source ∧ te_ParentID entry = te_ParentID source ∧ te_Kind entry = te_Kind source ∧
  te_Payload entry = te_Payload source ∧ te_Fields entry = te_Fields source ∧
  te_Ordinal entry = nextOrdinal ∧ te_TrajectoryID entry = id ∧ m !! te_ID entry = None ∧
  lookup (te_ID entry) = Ok None ∧ valid_name (te_ID entry) ∧
  te_PayloadVersion entry ≤ TrajectoryPayloadVersion ∧ TrajectoryKind_Valid (te_Kind entry) = true ∧
  ValidateTrajectoryEntryFields entry = ValidateTrajectoryEntryFields source ∧
  ValidateTrajectoryEntryFields source = Ok tt ∧
  depth_ok (overlay m lookup) entry ∧
  (te_ParentID entry ≠ "" → ∃ p l, chain (overlay m lookup) (te_ParentID entry) (p :: l)).
Proof using Hclosed.
  intros Hm H. unfold prepare_entry in H. apply bind_Ok in H as ([] & Hn & H).
  destruct (bool_decide (is_Some (m !! te_ID source))) eqn:Hdup; [done|].
  apply bind_Ok in H as (dup & Hlk & H). destruct (bool_decide (is_Some dup)) eqn:Hd; [done|].
  destruct (negb (TrajectoryKind_Valid _)) eqn:Hk; [done|]. apply bind_Ok in H as ([] & Hfields & H).
  destruct (negb (json_Valid _)) eqn:Hj; [done|]. apply bind_Ok in H as (parent & Hp & H).
  cbv zeta in H. repeat (inv_ok_step; []). simpl. rewrite ?Z.gtb_ltb in *. gobool.
  apply ValidateResourceName_Ok in Hn. apply eq_None_not_Some in Hdup, Hd. subst dup.
  pose proof (entry_parent_Ok _ _ _ _ Hm Hp) as Hpar.
  split_and!; try done.
  - unfold depth_ok. simpl. destruct parent as [p|].
    + destruct Hpar as (Hne & Hlook & _). split; [done|]. intros p' _ Hp'. rewrite Hlook in Hp'. by injection Hp' as ->.
    + split; [done|]. intros p' Hne. by destruct Hne.
  - destruct parent as [p|]; [|done]. destruct Hpar as (_ & _ & l & Hl). eauto.
Qed.

Lemma prepared_ok_insert m entry :
  prepared_ok id lookup m → te_TrajectoryID entry = id → m !! te_ID entry = None →
  lookup (te_ID entry) = Ok None → valid_name (te_ID entry) →
  (te_ParentID entry ≠ "" → ∃ p l, chain (overlay m lookup) (te_ParentID entry) (p :: l)) →
  depth_ok (overlay m lookup) entry →
  prepared_ok id lookup (<[te_ID entry := entry]> m).
Proof.
  intros Hm Ht Hnone Hl Hv Hp Hdep. split.
  - intros c e [[<- <-]|[_ H]]%lookup_insert_Some; [done|by eapply prepared_id].
  - intros c e [[<- <-]|[_ H]]%lookup_insert_Some; [done|by eapply prepared_fresh].
  - assert (∀ c l, chain (overlay m lookup) c l → chain (overlay (<[te_ID entry := entry]> m) lookup) c l) as Hmono.
    { intros c l. apply chain_mono. intros *. by apply overlay_insert_mono. }
    intros c e [[<- <-]|[_ H]]%lookup_insert_Some.
    + assert (overlay (<[te_ID entry := entry]> m) lookup (te_ID entry) = Ok (Some entry)) as Ho
        by (unfold overlay; by rewrite lookup_insert_eq).
      pose proof (valid_name_nonempty _ Hv) as Hne.
      destruct (decide (te_ParentID entry = "")) as [Hroot|Hpar].
      * exists []. constructor; [done|done|]. rewrite Hroot. constructor.
      * destruct (Hp Hpar) as (p & l & Hch). exists (p :: l). constructor; [done|done|by apply Hmono].
    + destruct (prepared_chain _ _ _ Hm _ _ H) as [l Hch]. exists l. by apply Hmono.
  - assert (∀ e, (te_ParentID e ≠ "" → ∃ p, overlay m lookup (te_ParentID e) = Ok (Some p)) →
              depth_ok (overlay m lookup) e → depth_ok (overlay (<[te_ID entry := entry]> m) lookup) e) as Hkeep.
    { intros e Hex [H1 H2]. split; [done|]. intros p Hne Hlook. destruct (Hex Hne) as [p' Hp'].
      pose proof (overlay_insert_mono m (te_ID entry) entry _ _ Hnone Hl Hp') as Heq.
      rewrite Heq in Hlook. injection Hlook as <-. by apply H2. }
    intros c e [[<- <-]|[_ H]]%lookup_insert_Some; apply Hkeep; [|done| |by eapply prepared_depth].
    + intros (p & l & Hch)%Hp. inversion Hch. eauto.
    + intros Hne. destruct (prepared_chain _ _ _ Hm _ _ H) as [l Hch]. inversion Hch; subst.
      match goal with H : chain _ (te_ParentID e) _ |- _ => inversion H; subst; [done|eauto] end.
Qed.

Lemma prepared_ok_empty : prepared_ok id lookup ∅.
Proof. split; intros c e; by rewrite lookup_empty. Qed.

(** The entry that the loop stores for a source entry. *)
Definition prepared_from (source entry : TrajectoryEntry) : Prop :=
  te_ID entry = te_ID source ∧ te_ParentID entry = te_ParentID source ∧ te_Kind entry = te_Kind source ∧
  te_Payload entry = te_Payload source ∧ te_Fields entry = te_Fields source.

Abbreviation insert_entries m ps := (foldl (λ index entry, <[te_ID entry := entry]> index) m ps).

Lemma prepare_entries_Ok nextOrdinal hasHistory m input clock ps :
  prepared_ok id lookup m → prepare_entries id nextOrdinal hasHistory m input lookup clock = Ok ps →
  prepared_ok id lookup (insert_entries m ps) ∧ Forall2 prepared_from input ps ∧
  NoDup (te_ID <$> ps) ∧ (∀ p, p ∈ ps → m !! te_ID p = None) ∧
  (∀ i p, ps !! i = Some p → te_Ordinal p = u64 (nextOrdinal + 1 + Z.of_nat i)).
Proof using Hclosed.
  revert nextOrdinal m clock ps. induction input as [|source input IH]; intros n m clock ps Hm H.
  { injection H as <-. split_and!; [done|constructor|constructor|..]; [|done].
    by intros p ?%not_elem_of_nil. }
  cbn [prepare_entries] in H. apply bind_Ok in H as (entry & He & H).
  apply bind_Ok in H as (rest & Hrest & [= <-]).
  destruct (prepare_entry_Ok _ _ _ _ _ _ Hm He) as
    (HID & HP & HK & HPl & HF & Hord & Htj & Hnone & Hlk & Hv & _ & _ & _ & _ & Hdep & Hpar).
  assert (prepared_ok id lookup (<[te_ID entry := entry]> m)) as Hm' by (by apply prepared_ok_insert).
  destruct (IH _ _ _ _ Hm' Hrest) as (Hok & Hfrom & Hnd & Hfresh & Hords). split_and!.
  - done.
  - constructor; [done|done].
  - rewrite fmap_cons. constructor; [|done]. intros (p & Heq & Hp)%list_elem_of_fmap.
    specialize (Hfresh p Hp). by rewrite <-Heq, lookup_insert_eq in Hfresh.
  - intros p [->|Hp]%elem_of_cons; [done|]. specialize (Hfresh p Hp).
    by apply lookup_insert_None in Hfresh as [? _].
  - intros [|i] p Hp; simpl in Hp.
    + injection Hp as ->. rewrite Hord. f_equal. lia.
    + rewrite (Hords _ _ Hp), <-Z.add_assoc, u64_add_l. f_equal. lia.
Qed.

(** The ID of the latest checkpoint of a chain given newest first. *)
Definition latest_checkpoint (l : list TrajectoryEntry) : string :=
  match findb (λ e, bool_decide (te_Kind e = TrajectoryKindCheckpoint)) l with
  | Some e => te_ID e
  | None => ""
  end.

Lemma overlay_ids m : prepared_ok id lookup m → lookup_ids (overlay m lookup).
Proof using Hid.
  intros Hm c e. unfold overlay. destruct (m !! c) eqn:E; [|apply Hid].
  intros [= ->]. by apply (prepared_id _ _ _ Hm) in E as [? _].
Qed.

Lemma checkpoint_walk_chain fuel walk_fuel seen currentHead lc cursor l m :
  prepared_ok id lookup m → chain lookup currentHead lc → chain (overlay m lookup) cursor l →
  (∀ e, e ∈ l → te_ID e ∉ seen) → (size (dom m ∖ seen) < fuel)%nat →
  (∀ c l, chain lookup c l → (length l < walk_fuel)%nat) →
  checkpoint_walk fuel walk_fuel seen currentHead (latest_checkpoint lc) cursor m lookup =
    Ok (latest_checkpoint l).
Proof using Hid Hclosed.
  intros Hm Hlc Hch. revert fuel seen. pose proof (overlay_ids _ Hm) as Hids.
  induction Hch as [|c e l Hc He Hch IH]; intros fuel seen Hseen Hf Hw.
  { destruct fuel; [lia|done]. }
  destruct fuel as [|fuel]; [lia|]. cbn [checkpoint_walk]. rewrite (proj2 (is_empty_false _) Hc).
  pose proof (Hids _ _ He) as HID.
  rewrite bool_decide_eq_false_2 by (rewrite <-HID; apply Hseen; set_solver).
  destruct (m !! c) as [e'|] eqn:Em.
  - assert (e' = e) as -> by (unfold overlay in He; rewrite Em in He; congruence).
    unfold latest_checkpoint at 2. cbn [List.find]. case_bool_decide; [done|].
    apply IH; [| |done].
    + intros x Hx. apply not_elem_of_union. split; [|apply Hseen; set_solver].
      assert (chain (overlay m lookup) c (e :: l)) as Hfull by (by constructor).
      apply (chain_NoDup _ Hids) in Hfull. rewrite fmap_cons in Hfull. apply NoDup_cons_1_1 in Hfull.
      intros Hx2%elem_of_singleton. apply Hfull. rewrite HID, <-Hx2. apply list_elem_of_fmap. eauto.
    + apply elem_of_dom_2 in Em. assert (c ∉ seen) by (rewrite <-HID; apply Hseen; set_solver).
      assert (size (dom m ∖ ({[c]} ∪ seen)) < size (dom m ∖ seen))%nat; [|lia].
      apply subset_size. set_solver.
  - assert (lookup c = Ok (Some e)) as Hlk by (unfold overlay in He; by rewrite Em in He).
    destruct (Hclosed _ _ Hc Hlk) as [l' Hl'].
    assert (chain (overlay m lookup) c (e :: l')) as Hov.
    { eapply chain_mono; [|done]. intros *. apply overlay_mono. intros x y. by apply (prepared_fresh _ _ _ Hm). }
    assert (e :: l' = e :: l) as Heq by (eapply chain_det; [done|by constructor]). rewrite <-Heq.
    case_bool_decide as Hhead.
    + rewrite Hhead in Hl'. by rewrite (chain_det _ _ _ _ Hlc Hl').
    + rewrite (LatestEntry_chain _ Hid _ _ _ _ Hl' (Hw _ _ Hl')). done.
Qed.
End prepare.
