(* ===== verification/TrajectoryStore.v ===== *)
(** The in-memory trajectory store of [sdk/storage/trajectory_memory.go], its cancellation
    ([trajectory_cancel.go]) and its analysis queries ([trajectory_analysis.go]).  A fork shares the
    entries of its parent up to the fork point and owns the entries appended to it.  Every method
    holds the store's lock, and changes a trajectory only after its last error return, so it is one
    atomic step that leaves the store as it was when it returns an error. *)

From S2P Require Import Prelude GoText Names Paging Message Trajectory.

Record memoryTrajectory := {
  mt_trajectory : Trajectory;
  mt_entries : gmap string TrajectoryEntry;
  mt_order : list string;
  mt_inheritedCount : Z;
}.

Record memoryTrajectoryStore := {
  trajectories : gmap string memoryTrajectory;
}.

Definition newMemoryTrajectoryStore : memoryTrajectoryStore := {| trajectories := ∅ |}.

Abbreviation tstore := memoryTrajectoryStore (only parsing).

Definition put (st : tstore) (id : string) (trajectory : memoryTrajectory) : tstore :=
  {| trajectories := <[id := trajectory]> (trajectories st) |}.

Definition trajectoryLocked (st : tstore) (id : string) : result memoryTrajectory :=
  try? ValidateResourceName "trajectory" id;
  match trajectories st !! id with
  | None => Err (Wrapf "%w: %s" [AStr id] (Sentinel ErrTrajectoryNotFound))
  | Some trajectory => Ok trajectory
  end.

(** ** Fuel

    A walk visits distinct entry IDs of the store, and the chain of parents visits distinct
    trajectories. *)

Definition entry_ids (st : tstore) : gset string :=
  map_fold (λ _ trajectory ids, dom (mt_entries trajectory) ∪ ids) ∅ (trajectories st).

Definition walk_fuel (st : tstore) : nat := S (size (entry_ids st)).
Definition lineage_fuel (st : tstore) : nat := S (size (trajectories st)).

(** ** Reading entries *)

Fixpoint entry_at (fuel : nat) (st : tstore) (id entryID : string) : result (option TrajectoryEntry) :=
  match fuel with
  | O => Err OutOfFuel
  | S fuel =>
      let? trajectory := trajectoryLocked st id in
      match mt_entries trajectory !! entryID with
      | Some entry => Ok (Some entry)
      | None =>
          let source := mt_trajectory trajectory in
          if (tj_SchemaVersion source <? 2) || is_empty (tj_ParentID source) then Ok None
          else
            (* entryOnBranchLocked *)
            FindEntryOnBranch (walk_fuel st) (tj_ParentID source) (tj_ParentEntryID source) entryID
              (entry_at fuel st (tj_ParentID source))
      end
  end.

Definition entryLocked (st : tstore) (id : string) : EntryLookup := entry_at (lineage_fuel st) st id.

Definition branchLocked (st : tstore) (id head : string) : result (list TrajectoryEntry) :=
  try? trajectoryLocked st id;
  ResolveBranch (walk_fuel st) id head (entryLocked st id).

Definition findLatestLocked (st : tstore) (id head : string) (kind : TrajectoryKind)
    : result (option TrajectoryEntry) :=
  try? trajectoryLocked st id;
  LatestEntry (walk_fuel st) head kind (entryLocked st id).

(** The own entries in append order; a missing map entry would read as a zero entry. *)
Definition own_entries (trajectory : memoryTrajectory) : list TrajectoryEntry :=
  omap (λ entryID, mt_entries trajectory !! entryID) (mt_order trajectory).

Definition materializeLocked (st : tstore) (id : string) : result Trajectory :=
  let? stored := trajectoryLocked st id in
  let trajectory := mt_trajectory stored in
  let? inherited :=
    (if (2 <=? tj_SchemaVersion trajectory) && negb (is_empty (tj_ParentID trajectory))
     then branchLocked st (tj_ParentID trajectory) (tj_ParentEntryID trajectory)
     else Ok []) in
  Ok (with_entries trajectory (inherited ++ own_entries stored)).

Definition mt_metadata (trajectory : memoryTrajectory) : TrajectoryMetadata :=
  trajectoryMetadata (mt_trajectory trajectory)
    (mt_inheritedCount trajectory + Z.of_nat (length (mt_order trajectory)))
    (Z.of_nat (length (mt_order trajectory))).

(** ** Operations *)

Definition tstore_Create (st : tstore) (ctx : context) (trajectory : Trajectory) (wall : time) : result tstore :=
  try? ctx_Err ctx;
  let? prepared := PrepareNewTrajectory trajectory wall wall in
  let id := tj_ID prepared.1 in
  fail_if bool_decide (is_Some (trajectories st !! id)) with
    Wrapf "%w: %s" [AStr id] (Sentinel ErrTrajectoryExists);
  let? prepared :=
    (if negb (is_empty (tj_ParentID prepared.1)) then
       match branchLocked st (tj_ParentID prepared.1) (tj_ParentEntryID prepared.1) with
       | Err err => Err (Wrapf "resolve trajectory %q fork point: %w" [AStr id] err)
       | Ok branch => PrepareNewTrajectoryFork prepared branch
       end
     else Ok prepared) in
  Ok (put st id {| mt_trajectory := prepared.1; mt_entries := ∅; mt_order := [];
                   mt_inheritedCount := prepared.2 |}).

(** [appendLocked], which returns the new head and the changed trajectory. *)
Definition appendLocked (st : tstore) (trajectory : memoryTrajectory) (id expectedHead : string)
    (entries : list TrajectoryEntry) (clock : nat → time) : result (string * memoryTrajectory) :=
  let source := mt_trajectory trajectory in
  fail_if bool_decide (tj_Head source ≠ expectedHead) with
    Wrapf "%w: trajectory %s has head %q, expected %q"
      [AStr id; AStr (tj_Head source); AStr expectedHead] (Sentinel ErrTrajectoryConflict);
  let? prepared := PrepareTrajectoryEntries id (Z.of_nat (length (mt_order trajectory)))
                     (negb (is_empty (tj_Head source))) entries (entryLocked st id) clock in
  let preparedIndex := entry_index prepared in
  match last prepared with
  | None => Err (errors_New "index out of range")
  | Some last =>
      let? checkpointID := LatestCheckpointAfterAppend (walk_fuel st) (tj_Head source) (tj_Checkpoint source)
                             (te_ID last) preparedIndex (entryLocked st id) in
      Ok (te_ID last,
          {| mt_trajectory := with_state source (te_Timestamp last) (te_ID last) checkpointID
                                (tj_Execution source);
             mt_entries := foldl (λ index entry, <[te_ID entry := entry]> index) (mt_entries trajectory) prepared;
             mt_order := mt_order trajectory ++ (te_ID <$> prepared);
             mt_inheritedCount := mt_inheritedCount trajectory |})
  end.

Definition set_execution (trajectory : memoryTrajectory) (execution : TrajectoryExecution) (updated : time)
    : memoryTrajectory :=
  let source := mt_trajectory trajectory in
  {| mt_trajectory := with_state source updated (tj_Head source) (tj_Checkpoint source) (Some execution);
     mt_entries := mt_entries trajectory; mt_order := mt_order trajectory;
     mt_inheritedCount := mt_inheritedCount trajectory |}.

Definition active_execution (trajectory : memoryTrajectory) : option TrajectoryExecution :=
  match tj_Execution (mt_trajectory trajectory) with
  | Some execution => if Execution_Terminal execution then None else Some execution
  | None => None
  end.

Definition active_error (format id : string) (execution : TrajectoryExecution) : error :=
  Wrapf format [AStr id; AStr (ex_ID execution)] (Sentinel ErrTrajectoryExecution).

Definition tstore_Append (st : tstore) (ctx : context) (id expectedHead : string)
    (entries : list TrajectoryEntry) (clock : nat → time) : result (string * tstore) :=
  try? ctx_Err ctx;
  let? trajectory := trajectoryLocked st id in
  match active_execution trajectory with
  | Some execution => Err (active_error "%w: trajectory %s has active execution %s" id execution)
  | None =>
      let? '(head, trajectory) := appendLocked st trajectory id expectedHead entries clock in
      Ok (head, put st id trajectory)
  end.

Definition tstore_BeginExecution (st : tstore) (ctx : context) (id expectedHead : string)
    (start : TrajectoryExecutionStart) (input : TrajectoryEntry) (wall : time) (clock : nat → time)
    : result (TrajectoryMetadata * tstore) :=
  try? ctx_Err ctx;
  fail_if bool_decide (te_Kind input ≠ TrajectoryKindUserMessage) with
    errors_New "trajectory execution input must be a user_message entry";
  let? execution := PrepareTrajectoryExecutionStart start expectedHead (te_ID input) wall in
  let? bound := BindTrajectoryExecutionEntries (ex_ID execution) [input] in
  let? trajectory := trajectoryLocked st id in
  match active_execution trajectory with
  | Some active => Err (active_error "%w: trajectory %s has active execution %s" id active)
  | None =>
      let? '(_, trajectory) := appendLocked st trajectory id expectedHead bound clock in
      let trajectory := set_execution trajectory execution (tj_UpdatedAt (mt_trajectory trajectory)) in
      Ok (mt_metadata trajectory, put st id trajectory)
  end.

Definition no_execution (id : string) : error :=
  Wrapf "%w: trajectory %s has no execution" [AStr id] (Sentinel ErrTrajectoryExecution).

Definition tstore_ClaimExecution (st : tstore) (ctx : context) (id owner : string) (now : time)
    (ttl : duration) (wall : time) (e : entropy) : result (TrajectoryExecution * tstore) :=
  try? ctx_Err ctx;
  let now := if IsZero now then wall else now in
  let? trajectory := trajectoryLocked st id in
  match tj_Execution (mt_trajectory trajectory) with
  | None => Err (no_execution id)
  | Some execution =>
      let? execution := ClaimTrajectoryExecution execution owner now ttl wall e in
      Ok (execution, put st id (set_execution trajectory execution now))
  end.

Definition tstore_RenewExecution (st : tstore) (ctx : context) (id executionID token : string) (now : time)
    (ttl : duration) (wall : time) : result (TrajectoryExecution * tstore) :=
  try? ctx_Err ctx;
  let now := if IsZero now then wall else now in
  let? trajectory := trajectoryLocked st id in
  match tj_Execution (mt_trajectory trajectory) with
  | None => Err (no_execution id)
  | Some execution =>
      let? execution := RenewTrajectoryExecution execution executionID token now ttl in
      Ok (execution, put st id (set_execution trajectory execution now))
  end.

Definition tstore_CommitExecution (st : tstore) (ctx : context) (commit : TrajectoryExecutionCommit)
    (wall : time) (clock : nat → time) : result (TrajectoryMetadata * tstore) :=
  try? ctx_Err ctx;
  let id := ecm_TrajectoryID commit in
  fail_if is_empty id with errors_New "trajectory execution commit has no trajectory ID";
  fail_if (length (ecm_Entries commit) =? 0)%nat
          && bool_decide (ecm_State commit = TrajectoryExecutionStateOther "") with
    errors_New "trajectory execution commit has no mutation";
  let? entries := BindTrajectoryExecutionEntries (ecm_ExecutionID commit) (ecm_Entries commit) in
  let? trajectory := trajectoryLocked st id in
  let head := tj_Head (mt_trajectory trajectory) in
  fail_if bool_decide (head ≠ ecm_ExpectedHead commit) with
    Wrapf "%w: trajectory %s has head %q, expected %q"
      [AStr id; AStr head; AStr (ecm_ExpectedHead commit)] (Sentinel ErrTrajectoryConflict);
  match tj_Execution (mt_trajectory trajectory) with
  | None => Err (no_execution id)
  | Some execution =>
      let? execution := CommitTrajectoryExecution execution commit wall in
      let? trajectory :=
        (if (0 <? length entries)%nat then
           let? '(_, trajectory) := appendLocked st trajectory id (ecm_ExpectedHead commit) entries clock in
           Ok trajectory
         else Ok trajectory) in
      let trajectory := set_execution trajectory execution wall in
      Ok (mt_metadata trajectory, put st id trajectory)
  end.

Definition tstore_CancelExecution (st : tstore) (ctx : context) (commit : TrajectoryExecutionCancelCommit)
    (wall : time) (clock : nat → time) : result (TrajectoryMetadata * bool * tstore) :=
  try? ctx_Err ctx;
  let id := ecc_TrajectoryID commit in
  let now := tj_NormalizeMutationTime wall (ecc_At commit) in
  let? entries := BindTrajectoryExecutionEntries (ecc_ExecutionID commit) (ecc_Entries commit) in
  let? trajectory := trajectoryLocked st id in
  match tj_Execution (mt_trajectory trajectory) with
  | None => Err (no_execution id)
  | Some execution =>
      let? '(execution, changed) :=
        CancelTrajectoryExecution execution (ecc_ExecutionID commit) (ecc_Reason commit) now in
      if changed then
        let? trajectory :=
          (if (0 <? length entries)%nat then
             let? '(_, trajectory) := appendLocked st trajectory id (ecc_ExpectedHead commit) entries clock in
             Ok trajectory
           else Ok trajectory) in
        let trajectory := set_execution trajectory execution now in
        Ok (mt_metadata trajectory, true, put st id trajectory)
      else Ok (mt_metadata trajectory, false, st)
  end.

Definition tstore_Delete (st : tstore) (ctx : context) (id : string) : result tstore :=
  try? ctx_Err ctx;
  let? target := trajectoryLocked st id in
  match active_execution target with
  | Some execution => Err (active_error "%w: trajectory %s execution %s is active" id execution)
  | None =>
      match List.find (λ trajectory, bool_decide (tj_ParentID (mt_trajectory trajectory) = id))
              (map_values (trajectories st)) with
      | Some child =>
          Err (Wrapf "%w: trajectory %s is parent of %s" [AStr id; AStr (tj_ID (mt_trajectory child))]
                 (Sentinel ErrTrajectoryReferenced))
      | None => Ok {| trajectories := delete id (trajectories st) |}
      end
  end.

(** ** Reads *)

Definition tstore_LoadMetadata (st : tstore) (ctx : context) (id : string) : result TrajectoryMetadata :=
  try? ctx_Err ctx;
  let? trajectory := trajectoryLocked st id in
  Ok (mt_metadata trajectory).

Definition tstore_LoadEntry (st : tstore) (ctx : context) (id entryID : string) : result TrajectoryEntry :=
  try? ctx_Err ctx;
  try? ValidateResourceName "trajectory entry" entryID;
  let? found := entryLocked st id entryID in
  match found with
  | None =>
      Err (Wrapf "%w: trajectory %s entry %s" [AStr id; AStr entryID] (Sentinel ErrTrajectoryEntryNotFound))
  | Some entry => Ok entry
  end.

Definition tstore_LoadBranch (st : tstore) (ctx : context) (id head : string) : result (list TrajectoryEntry) :=
  try? ctx_Err ctx;
  branchLocked st id head.

Definition tstore_LoadBranchView (st : tstore) (ctx : context) (id head : string) : result Trajectory :=
  try? ctx_Err ctx;
  let? trajectory := trajectoryLocked st id in
  let? branch := branchLocked st id head in
  Ok (ProjectTrajectoryBranch (mt_metadata trajectory) head branch).

Definition tstore_FindLatest (st : tstore) (ctx : context) (id head : string) (kind : TrajectoryKind)
    : result (option TrajectoryEntry) :=
  try? ctx_Err ctx;
  try? ValidateTrajectoryKind kind;
  findLatestLocked st id head kind.

Definition tstore_Load (st : tstore) (ctx : context) (id : string) : result Trajectory :=
  try? ctx_Err ctx;
  materializeLocked st id.

(** The execution of the metadata in the list is not nil. *)
Definition metadata_created (metadata : TrajectoryMetadata) : time :=
  match tm_Execution metadata with Some execution => ex_CreatedAt execution | None => 0 end.

Definition compareRecoverable (left right : TrajectoryMetadata) : Z :=
  cmp_or (Z_Compare (metadata_created left) (metadata_created right))
         (strings_Compare (tm_ID left) (tm_ID right)).

Definition recoverable (now wall : time) (trajectory : memoryTrajectory) : bool :=
  match tj_Execution (mt_trajectory trajectory) with
  | Some execution => Execution_RecoverableAt execution now wall
  | None => false
  end.

Definition tstore_ListRecoverable (st : tstore) (ctx : context) (now wall : time)
    : result (list TrajectoryMetadata) :=
  try? ctx_Err ctx;
  let now := if IsZero now then wall else now in
  Ok (SortFunc compareRecoverable
        (mt_metadata <$> filter (λ t, recoverable now wall t = true) (map_values (trajectories st)))).

Definition compareSummaries (left right : TrajectorySummary) : Z :=
  cmp_or (Z_Compare (tsm_CreatedAt left) (tsm_CreatedAt right)) (strings_Compare (tsm_ID left) (tsm_ID right)).

Definition mt_summary (trajectory : memoryTrajectory) : TrajectorySummary :=
  SummarizeTrajectory (mt_trajectory trajectory)
    (mt_inheritedCount trajectory + Z.of_nat (length (mt_order trajectory)))
    (Z.of_nat (length (mt_order trajectory))).

Definition tstore_List (st : tstore) (ctx : context) : result (list TrajectorySummary) :=
  try? ctx_Err ctx;
  Ok (SortFunc compareSummaries (mt_summary <$> map_values (trajectories st))).

Definition tstore_ListPage (st : tstore) (ctx : context) (request : PageRequest)
    : result (list TrajectorySummary * string) :=
  let? items := tstore_List st ctx in
  pageWindow tsm_ID items request.

(** ** Analysis *)

Definition validateTrajectoryAnalysisQuery (query : TrajectoryEntryQuery) : result Z :=
  try? (if negb (is_empty (tq_TrajectoryID query))
        then ValidateResourceName "trajectory" (tq_TrajectoryID query) else Ok tt);
  try? (if bool_decide (tq_Kind query ≠ TrajectoryKindOther "")
        then ValidateTrajectoryKind (tq_Kind query) else Ok tt);
  let limit := if tq_Limit query =? 0 then DefaultPageSize else tq_Limit query in
  fail_if (limit <? 0) || (limit >? MaxPageSize) with
    Errorf "trajectory analysis limit %d must be between 0 and %d" [ANum limit; ANum MaxPageSize];
  Ok limit.

(** A query field that is set differs from the entry's. *)
Definition field_differs (query value : string) : bool :=
  negb (is_empty query) && bool_decide (value ≠ query).

Definition trajectoryEntryMatchesQuery (entry : TrajectoryEntry) (query : TrajectoryEntryQuery) : bool :=
  let fields := te_Fields entry in
  negb (field_differs (tq_TrajectoryID query) (te_TrajectoryID entry) ||
        field_differs (tq_ExecutionID query) (tf_ExecutionID fields) ||
        field_differs (tq_OperationKey query) (tf_OperationKey fields) ||
        (bool_decide (tq_Kind query ≠ TrajectoryKindOther "") && bool_decide (te_Kind entry ≠ tq_Kind query)) ||
        field_differs (tq_Provider query) (tf_Provider fields) ||
        field_differs (tq_ToolName query) (tf_ToolName fields) ||
        field_differs (tq_CorrelationID query) (tf_CorrelationID fields)).

Definition compareTrajectoryAnalysisEntries (left right : TrajectoryEntry) : Z :=
  cmp_or (Z_Compare (te_Timestamp left) (te_Timestamp right))
 (cmp_or (strings_Compare (te_TrajectoryID left) (te_TrajectoryID right))
 (if te_Ordinal left <? te_Ordinal right then -1
  else if te_Ordinal left >? te_Ordinal right then 1
  else strings_Compare (te_ID left) (te_ID right))).

Definition limitTrajectoryAnalysisEntries (entries : list TrajectoryEntry) (limit : Z) : list TrajectoryEntry :=
  let entries := SortFunc compareTrajectoryAnalysisEntries entries in
  if Z.of_nat (length entries) >? limit then take (Z.to_nat limit) entries else entries.

Definition collect (query : TrajectoryEntryQuery) (trajectory : memoryTrajectory) : list TrajectoryEntry :=
  filter (λ entry, trajectoryEntryMatchesQuery entry query = true) (own_entries trajectory).

Definition tstore_AnalyzeEntries (st : tstore) (ctx : context) (query : TrajectoryEntryQuery)
    : result (list TrajectoryEntry) :=
  try? ctx_Err ctx;
  let? limit := validateTrajectoryAnalysisQuery query in
  if negb (is_empty (tq_TrajectoryID query)) then
    let? trajectory := trajectoryLocked st (tq_TrajectoryID query) in
    Ok (limitTrajectoryAnalysisEntries (collect query trajectory) limit)
  else
    Ok (limitTrajectoryAnalysisEntries (mbind (collect query) (map_values (trajectories st))) limit).
