(* ===== verification/TrajectoryInvariant.v ===== *)
(** The invariant of the trajectory store: what [entryLocked] computes along the lineage of a fork,
    and the well-formedness that every operation keeps. *)

From S2P Require Import Prelude GoText Names Message Trajectory TrajectoryBranch TrajectoryStore.

(** ** Lineages *)

Abbreviation parent_of t := (tj_ParentID (mt_trajectory t)).
Abbreviation fork_of t := (tj_ParentEntryID (mt_trajectory t)).
Abbreviation schema_of t := (tj_SchemaVersion (mt_trajectory t)).

(** [lineage st l]: the trajectories [l], newest first, are distinct, and the parent of each is an
    older one. *)
Fixpoint lineage (st : memoryTrajectoryStore) (l : list string) : Prop :=
  match l with
  | [] => True
  | id :: l =>
      id ∉ l ∧ (∀ t, trajectories st !! id = Some t → parent_of t = "" ∨ parent_of t ∈ l) ∧ lineage st l
  end.

(** What the lookups rely on. *)
Record base_wf (st : memoryTrajectoryStore) (l : list string) : Prop := {
  bw_lineage : lineage st l;
  bw_domain id : id ∈ l ↔ is_Some (trajectories st !! id);
  bw_name id : id ∈ l → valid_name id;
  bw_schema id t : trajectories st !! id = Some t → parent_of t ≠ "" → 2 ≤ schema_of t;
  bw_key id t c e : trajectories st !! id = Some t → mt_entries t !! c = Some e → te_ID e = c;
}.

Lemma walk_loop_ext {A} fuel cycle unknown seen c (lk lk' : EntryLookup)
    (visit : string → TrajectoryEntry → A → A * bool) acc :
  (∀ x, lk x = lk' x) →
  walk_loop fuel cycle unknown seen c lk visit acc = walk_loop fuel cycle unknown seen c lk' visit acc.
Proof.
  intros Heq. revert seen c acc. induction fuel as [|fuel IH]; intros seen c acc; [done|]. simpl.
  rewrite Heq. destruct (is_empty c); [done|]. case_bool_decide; [done|].
  destruct (lk' c) as [[e|]|]; [|done..]. simpl. destruct (visit c e acc) as [? []]; [apply IH|done].
Qed.

Lemma trajectoryLocked_Ok st id t : trajectoryLocked st id = Ok t ↔ valid_name id ∧ trajectories st !! id = Some t.
Proof.
  unfold trajectoryLocked. rewrite bind_Ok. setoid_rewrite ValidateResourceName_Ok. split.
  - intros (_ & Hv & H). split; [done|]. destruct (trajectories st !! id); congruence.
  - intros [Hv H]. exists tt. split; [done|]. by rewrite H.
Qed.

Lemma lineage_NoDup st l : lineage st l → NoDup l.
Proof. induction l as [|id l IH]; [constructor|]. intros (? & _ & ?). constructor; eauto. Qed.

Lemma lineage_parent st k id t :
  lineage st k → id ∈ k → trajectories st !! id = Some t → parent_of t ≠ "" → parent_of t ∈ k.
Proof.
  induction k as [|a k IH]; intros Hlin Hin Ht Hne; [by apply not_elem_of_nil in Hin|].
  destruct Hlin as (_ & Hpar & Hlin). apply elem_of_cons in Hin as [<-|Hin].
  - destruct (Hpar t Ht); [done|set_solver].
  - specialize (IH Hlin Hin Ht Hne). set_solver.
Qed.

Section base.
Context (st : memoryTrajectoryStore) (l : list string) (Hb : base_wf st l).

Lemma bw_size : size (trajectories st) = length l.
Proof using Hb.
  rewrite <-size_dom. erewrite <-(size_list_to_set (C := gset string) l); [|by eapply lineage_NoDup, Hb].
  f_equal. apply set_eq. intros id. rewrite elem_of_dom, elem_of_list_to_set. symmetry. apply Hb.
Qed.

(** More fuel than the lineage is long changes nothing. *)
Lemma entry_at_fuel k f1 f2 id x :
  lineage st k → (∀ i, i ∈ k → i ∈ l) → id ∈ k → (length k ≤ f1)%nat → (length k ≤ f2)%nat →
  entry_at f1 st id x = entry_at f2 st id x.
Proof using Hb.
  revert f1 f2 id x. induction k as [|a k IH]; intros f1 f2 id x Hk Hin Hid H1 H2;
    [by apply not_elem_of_nil in Hid|].
  destruct Hk as (_ & Hpar & Hk). apply elem_of_cons in Hid as [->|Hid].
  - destruct f1 as [|f1], f2 as [|f2]; simpl in H1, H2; try lia. cbn [entry_at].
    destruct (trajectoryLocked st a) as [t|] eqn:Ht; [|done]. cbn [result_bind].
    destruct (mt_entries t !! x); [done|]. destruct (_ || _) eqn:Ec; [done|].
    apply trajectoryLocked_Ok in Ht as [_ Ht]. gobool. destruct Ec as [_ Hne].
    destruct (Hpar t Ht) as [?|Hp]; [done|]. unfold FindEntryOnBranch, walkBranch. apply walk_loop_ext.
    intros y. apply IH; [done| |done|lia..]. intros. apply Hin. set_solver.
  - simpl in H1, H2. apply IH; [done| |done|lia..]. intros. apply Hin. set_solver.
Qed.

Lemma entryLocked_eq id t x :
  trajectories st !! id = Some t →
  entryLocked st id x =
    match mt_entries t !! x with
    | Some e => Ok (Some e)
    | None =>
        if is_empty (parent_of t) then Ok None
        else FindEntryOnBranch (walk_fuel st) (parent_of t) (fork_of t) x (entryLocked st (parent_of t))
    end.
Proof using Hb.
  intros Ht. assert (id ∈ l) as Hin by (apply Hb; eauto).
  unfold entryLocked at 1, lineage_fuel. cbn [entry_at].
  rewrite (proj2 (trajectoryLocked_Ok st id t)) by (split; [by eapply bw_name|done]). cbn [result_bind].
  destruct (mt_entries t !! x); [done|]. destruct (is_empty (parent_of t)) eqn:Ep.
  { by rewrite orb_true_r. }
  apply is_empty_false in Ep. pose proof (bw_schema _ _ Hb _ _ Ht Ep).
  rewrite (proj2 (Z.ltb_ge _ _)) by lia. cbn [orb]. unfold FindEntryOnBranch, walkBranch. apply walk_loop_ext.
  intros y. unfold entryLocked, lineage_fuel. rewrite bw_size.
  apply (entry_at_fuel l); [apply Hb|done| |lia..].
  by eapply lineage_parent; [apply Hb|..].
Qed.

(** Every entry found is an own entry of some trajectory. *)
Lemma FindEntry_found fuel id c x (lk : EntryLookup) e :
  FindEntryOnBranch fuel id c x lk = Ok (Some e) → lk x = Ok (Some e).
Proof.
  unfold FindEntryOnBranch, walkBranch. generalize (∅ : gset string). revert c.
  induction fuel as [|fuel IH]; intros c seen; simpl; [done|].
  destruct (is_empty c); [done|]. case_bool_decide; [done|].
  destruct (lk c) as [[y|]|] eqn:Ey; simpl; [|done..]. case_bool_decide as Hc; [|apply IH].
  intros [= ->]. by rewrite <-Hc.
Qed.

Lemma entry_at_owned fuel id x e :
  entry_at fuel st id x = Ok (Some e) →
  ∃ id' t, trajectories st !! id' = Some t ∧ mt_entries t !! x = Some e.
Proof.
  revert id. induction fuel as [|fuel IH]; intros id; [done|]. cbn [entry_at].
  intros (t & [_ Ht]%trajectoryLocked_Ok & H)%bind_Ok.
  destruct (mt_entries t !! x) as [e'|] eqn:Ee; [injection H as <-; eauto|].
  destruct (_ || _); [done|]. by apply FindEntry_found, IH in H.
Qed.

Lemma entryLocked_ids id : lookup_ids (entryLocked st id).
Proof using Hb. intros x e (id' & t & Ht & He)%entry_at_owned. by eapply bw_key. Qed.

Lemma elem_of_entry_ids c id t e :
  trajectories st !! id = Some t → mt_entries t !! c = Some e → c ∈ entry_ids st.
Proof.
  unfold entry_ids. clear Hb. revert id t.
  apply (map_fold_weak_ind (λ ids m, ∀ id t, m !! id = Some t → mt_entries t !! c = Some e → c ∈ ids)).
  - intros id t. by rewrite lookup_empty.
  - intros i x m r _ IH id t [[<- <-]|[_ Hm]]%lookup_insert_Some He; [apply elem_of_dom_2 in He; set_solver|].
    specialize (IH _ _ Hm He). set_solver.
Qed.

Lemma chain_length id c k : chain (entryLocked st id) c k → (length k < walk_fuel st)%nat.
Proof using Hb.
  intros Hch. unfold walk_fuel. pose proof (chain_NoDup _ (entryLocked_ids id) _ _ Hch) as Hnd.
  assert ((list_to_set (te_ID <$> k) : gset string) ⊆ entry_ids st) as Hsub.
  { intros x (e & -> & He)%elem_of_list_to_set%list_elem_of_fmap.
    destruct (chain_found _ (entryLocked_ids id) _ _ _ Hch He) as [Hlk _].
    apply entry_at_owned in Hlk as (id' & t & Ht & Hte). by eapply elem_of_entry_ids. }
  apply subseteq_size in Hsub. rewrite size_list_to_set in Hsub by done. rewrite length_fmap in Hsub. lia.
Qed.

(** A fork sees its own entries and those of its parent's branch at the fork point. *)
Lemma entryLocked_fork id t k x :
  trajectories st !! id = Some t → parent_of t ≠ "" → chain (entryLocked st (parent_of t)) (fork_of t) k →
  entryLocked st id x =
    match mt_entries t !! x with
    | Some e => Ok (Some e)
    | None => Ok (findb (λ e, bool_decide (te_ID e = x)) k)
    end.
Proof using Hb.
  intros Ht Hne Hch. rewrite (entryLocked_eq _ _ _ Ht). destruct (mt_entries t !! x); [done|].
  rewrite (proj2 (is_empty_false _) Hne).
  apply FindEntryOnBranch_chain; [apply entryLocked_ids|done|by eapply chain_length].
Qed.

Lemma entryLocked_own id t x :
  trajectories st !! id = Some t → parent_of t = "" → entryLocked st id x = Ok (mt_entries t !! x).
Proof using Hb.
  intros Ht Hp. rewrite (entryLocked_eq _ _ _ Ht), Hp. by destruct (mt_entries t !! x).
Qed.
End base.

(** ** The invariant of a trajectory *)

Record traj_wf (st : memoryTrajectoryStore) (id : string) (t : memoryTrajectory) : Prop := {
  tw_id : tj_ID (mt_trajectory t) = id;
  tw_root : parent_of t = "" → mt_inheritedCount t = 0 ∧ fork_of t = "";
  (* the fork point's branch is there, and no own entry shadows it *)
  tw_fork : parent_of t ≠ "" →
    ∃ k, chain (entryLocked st (parent_of t)) (fork_of t) k ∧ k ≠ [] ∧
         mt_inheritedCount t = Z.of_nat (length k) ∧
         ∀ x, x ∈ k → mt_entries t !! te_ID x = None;
  tw_own c e : mt_entries t !! c = Some e → valid_name c ∧ te_TrajectoryID e = id;
  tw_chain c e : mt_entries t !! c = Some e → ∃ k, chain (entryLocked st id) c (e :: k);
  tw_depth c e : mt_entries t !! c = Some e → depth_ok (entryLocked st id) e;
  tw_order : NoDup (mt_order t) ∧ ∀ c, c ∈ mt_order t ↔ is_Some (mt_entries t !! c);
  tw_ordinal i c e : mt_order t !! i = Some c → mt_entries t !! c = Some e →
    te_Ordinal e = u64 (Z.of_nat i + 1);
  (* the cached checkpoint is the latest one on the branch of the head *)
  tw_head : ∃ k, chain (entryLocked st id) (tj_Head (mt_trajectory t)) k ∧
                 tj_Checkpoint (mt_trajectory t) = latest_checkpoint k;
  tw_execution x : tj_Execution (mt_trajectory t) = Some x →
    ValidateTrajectoryExecution x = Ok tt ∧
    ∃ e, entryLocked st id (ex_InputEntryID x) = Ok (Some e);
}.

Definition tstore_wf (st : memoryTrajectoryStore) : Prop :=
  ∃ l, base_wf st l ∧ ∀ id t, trajectories st !! id = Some t → traj_wf st id t.

Section wf.
Context (st : memoryTrajectoryStore) (l : list string) (Hb : base_wf st l).
Context (Hall : ∀ id t, trajectories st !! id = Some t → traj_wf st id t).

(** The inherited branch is a branch of the fork too. *)
Lemma fork_chain id t k c k' :
  trajectories st !! id = Some t → parent_of t ≠ "" → chain (entryLocked st (parent_of t)) (fork_of t) k →
  (∀ x, x ∈ k' → x ∈ k) → chain (entryLocked st (parent_of t)) c k' → chain (entryLocked st id) c k'.
Proof using Hb Hall.
  intros Ht Hp Hk Hsub Hk'. eapply (chain_ext (entryLocked st (parent_of t))); [|by eapply entryLocked_ids|done].
  intros e He _. rewrite (entryLocked_fork _ _ Hb _ _ _ _ Ht Hp Hk).
  destruct (tw_fork _ _ _ (Hall _ _ Ht) Hp) as (k2 & Hk2 & _ & _ & Hsh).
  assert (k2 = k) as -> by (by eapply chain_det). rewrite Hsh by auto. f_equal.
  apply find_ID_NoDup; [|by apply Hsub|done]. eapply chain_NoDup; [by eapply entryLocked_ids|done].
Qed.

Lemma entryLocked_closed id t : trajectories st !! id = Some t → lookup_closed (entryLocked st id).
Proof using Hb Hall.
  intros Ht c e Hc He. pose proof (Hall _ _ Ht) as Hw.
  destruct (mt_entries t !! c) as [e'|] eqn:Eo.
  { rewrite (entryLocked_eq _ _ Hb _ _ _ Ht), Eo in He. injection He as <-. by eapply tw_chain. }
  destruct (decide (parent_of t = "")) as [Hp|Hp].
  { by rewrite (entryLocked_own _ _ Hb _ _ _ Ht Hp), Eo in He. }
  destruct (tw_fork _ _ _ Hw Hp) as (k & Hk & _). rewrite (entryLocked_fork _ _ Hb _ _ _ _ Ht Hp Hk), Eo in He.
  injection He as He. apply find_ID_Some in He as [Hin Hid].
  apply list_elem_of_split in Hin as (k1 & k2 & ->). exists k2.
  eapply fork_chain; [done|done|done| |]; [|rewrite <-Hid; eapply chain_suffix; [by eapply entryLocked_ids|done]].
  intros x Hx. set_solver.
Qed.

(** No lookup of an existing trajectory fails. *)
Lemma entryLocked_total id t x : trajectories st !! id = Some t → ∃ o, entryLocked st id x = Ok o.
Proof using Hb Hall.
  intros Ht. destruct (decide (parent_of t = "")) as [Hp|Hp].
  { rewrite (entryLocked_own _ _ Hb _ _ _ Ht Hp). eauto. }
  destruct (tw_fork _ _ _ (Hall _ _ Ht) Hp) as (k & Hk & _).
  rewrite (entryLocked_fork _ _ Hb _ _ _ _ Ht Hp Hk). case_match; eauto.
Qed.
End wf.

(** ** Transfer of the lookups to a later store

    The trajectories of both stores have the same fork points, and [grow id] holds the entries that
    [id] gained, under IDs that were not visible there. *)

Section transfer.
Context (st st' : memoryTrajectoryStore) (l l' : list string).
Context (Hb : base_wf st l) (Hall : ∀ id t, trajectories st !! id = Some t → traj_wf st id t).
Context (Hb' : base_wf st' l').
Context (grow : string → gmap string TrajectoryEntry).
Context (Hold : ∀ id t t', trajectories st !! id = Some t → trajectories st' !! id = Some t' →
  parent_of t' = parent_of t ∧ fork_of t' = fork_of t ∧
  ∀ x, mt_entries t' !! x = match grow id !! x with Some e => Some e | None => mt_entries t !! x end).
Context (Hfresh : ∀ id x e, is_Some (trajectories st !! id) → grow id !! x = Some e → entryLocked st id x = Ok None).

Lemma parent_survives id t' :
  trajectories st' !! id = Some t' → parent_of t' ≠ "" → is_Some (trajectories st' !! parent_of t').
Proof using Hb'.
  intros Ht Hne. apply (bw_domain _ _ Hb'). eapply lineage_parent; [apply Hb'| |done..].
  apply (bw_domain _ _ Hb'). by eexists.
Qed.

Lemma entryLocked_transfer_in k id x :
  lineage st k → (∀ i, i ∈ k → i ∈ l) → id ∈ k → is_Some (trajectories st' !! id) →
  entryLocked st' id x = overlay (grow id) (entryLocked st id) x.
Proof using Hb Hall Hb' Hold Hfresh.
  revert id x. induction k as [|a k IH]; intros id x Hk Hin Hid [t' Ht']; [by apply not_elem_of_nil in Hid|].
  destruct Hk as (_ & Hpar & Hk).
  apply elem_of_cons in Hid as [->|Hid]; [|apply IH; [done| |done|by eexists]; intros; apply Hin; set_solver].
  destruct (proj1 (bw_domain _ _ Hb a)) as [t Ht]; [apply Hin; set_solver|].
  destruct (Hold _ _ _ Ht Ht') as (Hp & Hf & Hent). unfold overlay.
  destruct (decide (parent_of t = "")) as [Hroot|Hne].
  { rewrite (entryLocked_own _ _ Hb' _ _ _ Ht') by congruence.
    rewrite (entryLocked_own _ _ Hb _ _ _ Ht Hroot), Hent. by case_match. }
  destruct (tw_fork _ _ _ (Hall _ _ Ht) Hne) as (kf & Hkf & _).
  destruct (Hpar t Ht) as [?|Hpk]; [done|].
  assert (is_Some (trajectories st' !! parent_of t)) as Hps
    by (rewrite <-Hp; eapply parent_survives; [done|congruence]).
  assert (chain (entryLocked st' (parent_of t)) (fork_of t) kf) as Hkf'.
  { eapply chain_mono; [|done]. intros c e Hce. rewrite IH; [|done|intros; apply Hin; set_solver|done..].
    apply overlay_mono; [|done]. intros c' e'. apply Hfresh. apply (bw_domain _ _ Hb), Hin. set_solver. }
  rewrite (entryLocked_fork _ _ Hb' _ _ kf _ Ht') by congruence.
  rewrite (entryLocked_fork _ _ Hb _ _ _ _ Ht Hne Hkf), Hent. by destruct (grow a !! x), (mt_entries t !! x).
Qed.

Lemma entryLocked_transfer id t x :
  trajectories st !! id = Some t → is_Some (trajectories st' !! id) →
  entryLocked st' id x = overlay (grow id) (entryLocked st id) x.
Proof using Hb Hall Hb' Hold Hfresh.
  intros Ht Ht'. apply (entryLocked_transfer_in l); [apply Hb|done| |done]. apply (bw_domain _ _ Hb). eauto.
Qed.

(** Chains persist. *)
Lemma chain_transfer id t c k :
  trajectories st !! id = Some t → is_Some (trajectories st' !! id) →
  chain (entryLocked st id) c k → chain (entryLocked st' id) c k.
Proof using Hb Hall Hb' Hold Hfresh.
  intros Ht Ht'. apply chain_mono. intros x e He. rewrite (entryLocked_transfer _ _ _ Ht Ht').
  apply overlay_mono; [|done]. intros c' e'. apply Hfresh. eauto.
Qed.
End transfer.

(** ** Preservation *)

Lemma insert_entries_lookup (m : gmap string TrajectoryEntry) ps x :
  foldl (λ index entry, <[te_ID entry := entry]> index) m ps !! x =
  match entry_index ps !! x with Some e => Some e | None => m !! x end.
Proof.
  unfold entry_index. induction ps as [|p ps IH] using rev_ind; [done|].
  rewrite !foldl_app. cbn [foldl]. destruct (decide (te_ID p = x)) as [->|Hne].
  - by rewrite !lookup_insert_eq.
  - by rewrite !lookup_insert_ne by done.
Qed.

Lemma entry_index_elem ps p : NoDup (te_ID <$> ps) → p ∈ ps → entry_index ps !! te_ID p = Some p.
Proof.
  unfold entry_index. induction ps as [|q ps IH] using rev_ind; intros Hnd Hp; [by apply not_elem_of_nil in Hp|].
  rewrite fmap_app in Hnd. apply NoDup_app in Hnd as (Hnd & Hdis & _). rewrite foldl_app. cbn [foldl].
  apply elem_of_snoc in Hp as [Hp| ->]; [|apply lookup_insert_eq].
  rewrite lookup_insert_ne; [by apply IH|]. intros Heq. apply (Hdis (te_ID p)); [by apply list_elem_of_fmap_2|].
  simpl. rewrite Heq. set_solver.
Qed.

Lemma entry_index_inv ps x e : entry_index ps !! x = Some e → e ∈ ps ∧ te_ID e = x.
Proof.
  unfold entry_index. induction ps as [|q ps IH] using rev_ind; [simpl; by rewrite lookup_empty|].
  rewrite foldl_app. cbn [foldl]. intros [[<- <-]|[_ H]]%lookup_insert_Some; [set_solver|].
  apply IH in H. set_solver.
Qed.

Lemma depth_ok_ext (lk lk' : EntryLookup) e :
  (te_ParentID e ≠ "" → ∃ p, lk (te_ParentID e) = Ok (Some p)) →
  (∀ x p, lk x = Ok (Some p) → lk' x = Ok (Some p)) → depth_ok lk e → depth_ok lk' e.
Proof.
  intros Hex Hm [H1 H2]. split; [done|]. intros p Hne Hp. destruct (Hex Hne) as [p' Hp'].
  apply H2; [done|]. pose proof (Hm _ _ Hp'). congruence.
Qed.

Lemma chain_parent lk c e k : chain lk c (e :: k) → te_ParentID e ≠ "" → ∃ p, lk (te_ParentID e) = Ok (Some p).
Proof. inversion 1; subst. intros Hne. match goal with H : chain _ (te_ParentID e) _ |- _ => inversion H; subst end; eauto. congruence. Qed.

Section keep.
Context (st st' : memoryTrajectoryStore) (l l' : list string).
Context (Hb : base_wf st l) (Hall : ∀ id t, trajectories st !! id = Some t → traj_wf st id t).
Context (Hb' : base_wf st' l').
Context (grow : string → gmap string TrajectoryEntry).
Context (Hold : ∀ id t t', trajectories st !! id = Some t → trajectories st' !! id = Some t' →
  parent_of t' = parent_of t ∧ fork_of t' = fork_of t ∧
  ∀ x, mt_entries t' !! x = match grow id !! x with Some e => Some e | None => mt_entries t !! x end).
Context (Hfresh : ∀ id x e, is_Some (trajectories st !! id) → grow id !! x = Some e → entryLocked st id x = Ok None).

(** A trajectory that did not grow, with a possibly new execution. *)
Lemma traj_wf_keep id t t' :
  trajectories st !! id = Some t → trajectories st' !! id = Some t' → grow id = ∅ →
  tj_ID (mt_trajectory t') = tj_ID (mt_trajectory t) → mt_order t' = mt_order t →
  mt_inheritedCount t' = mt_inheritedCount t → tj_Head (mt_trajectory t') = tj_Head (mt_trajectory t) →
  tj_Checkpoint (mt_trajectory t') = tj_Checkpoint (mt_trajectory t) →
  (∀ x, tj_Execution (mt_trajectory t') = Some x →
     ValidateTrajectoryExecution x = Ok tt ∧ ∃ e, entryLocked st id (ex_InputEntryID x) = Ok (Some e)) →
  traj_wf st' id t'.
Proof using Hb Hall Hb' Hold Hfresh.
  intros Ht Ht' Hg Hid Hor Hin Hhd Hck Hex. destruct (Hold _ _ _ Ht Ht') as (Hp & Hf & Hent).
  pose proof (Hall _ _ Ht) as Hw. rewrite Hg in Hent. setoid_rewrite lookup_empty in Hent.
  assert (is_Some (trajectories st' !! id)) as Hs by eauto.
  assert (∀ x, entryLocked st' id x = entryLocked st id x) as HL.
  { intros x. rewrite (entryLocked_transfer _ _ _ _ Hb Hall Hb' _ Hold Hfresh _ _ x Ht Hs), Hg.
    unfold overlay. by rewrite lookup_empty. }
  assert (∀ c k, chain (entryLocked st id) c k → chain (entryLocked st' id) c k) as Hch.
  { intros c k. apply chain_mono. intros x e. by rewrite HL. }
  split.
  - rewrite Hid. by eapply tw_id.
  - rewrite Hp, Hf, Hin. by eapply tw_root.
  - rewrite Hp, Hf, Hin. intros Hne. destruct (tw_fork _ _ _ Hw Hne) as (k & Hk & Hk0 & Hn & Hsh).
    exists k. split_and!; [|done|done|intros x Hx; rewrite Hent; by apply Hsh].
    assert (is_Some (trajectories st !! parent_of t)) as [tp Htp] by (by eapply (parent_survives st)).
    eapply (chain_transfer _ _ _ _ Hb Hall Hb' _ Hold Hfresh); [done| |done].
    rewrite <-Hp. eapply parent_survives; [done..|congruence].
  - intros c e. rewrite Hent. by eapply tw_own.
  - intros c e. rewrite Hent. intros He. destruct (tw_chain _ _ _ Hw _ _ He) as [k Hk]. eauto.
  - intros c e. rewrite Hent. intros He. destruct (tw_chain _ _ _ Hw _ _ He) as [k Hk].
    eapply depth_ok_ext; [by eapply chain_parent|intros x p; by rewrite HL|by eapply tw_depth].
  - rewrite Hor. setoid_rewrite Hent. by eapply tw_order.
  - intros i c e. rewrite Hor, Hent. by eapply tw_ordinal.
  - rewrite Hhd, Hck. destruct (tw_head _ _ _ Hw) as (k & Hk & ->). eauto.
  - intros x Hx. destruct (Hex x Hx) as (Hv & e & He). split; [done|]. exists e. by rewrite HL.
Qed.
End keep.

Lemma put_lookup st id t' id' :
  trajectories (put st id t') !! id' = if decide (id = id') then Some t' else trajectories st !! id'.
Proof. unfold put. simpl. by rewrite lookup_insert. Qed.

Lemma base_wf_put st l id t t' :
  base_wf st l → trajectories st !! id = Some t → parent_of t' = parent_of t → schema_of t' = schema_of t →
  (∀ c e, mt_entries t' !! c = Some e → te_ID e = c) → base_wf (put st id t') l.
Proof.
  intros Hb Ht Hp Hs Hk. split.
  - pose proof (bw_lineage _ _ Hb) as Hlin. revert Hlin. clear Hb. induction l as [|a k IH]; [done|].
    intros (Hn & Hpar & Hlin). split_and!; [done| |by apply IH]. intros u. rewrite put_lookup.
    case_decide; [subst a; intros [= <-]; rewrite Hp; by apply Hpar|apply Hpar].
  - intros id'. rewrite (bw_domain _ _ Hb), put_lookup. case_decide; [subst id'|done].
    rewrite Ht. split; intros _; by eexists.
  - apply Hb.
  - intros id' u. rewrite put_lookup. case_decide; [intros [= <-]; rewrite Hp, Hs; by apply (bw_schema _ _ Hb id)|by apply (bw_schema _ _ Hb id')].
  - intros id' u c e. rewrite put_lookup. case_decide; [intros [= <-]; apply Hk|by eapply bw_key].
Qed.

(** A change of the execution and of the time stamp. *)
Lemma wf_set_execution st id t x updated :
  tstore_wf st → trajectories st !! id = Some t → ValidateTrajectoryExecution x = Ok tt →
  (∃ e, entryLocked st id (ex_InputEntryID x) = Ok (Some e)) →
  tstore_wf (put st id (set_execution t x updated)).
Proof.
  intros (l & Hb & Hall) Ht Hv Hin. set (t' := set_execution t x updated).
  assert (base_wf (put st id t') l) as Hb'
    by (eapply base_wf_put; [done..|]; intros c e; apply (bw_key _ _ Hb _ _ _ _ Ht)).
  assert (∀ i u u', trajectories st !! i = Some u → trajectories (put st id t') !! i = Some u' →
    parent_of u' = parent_of u ∧ fork_of u' = fork_of u ∧ mt_entries u' = mt_entries u ∧
    tj_ID (mt_trajectory u') = tj_ID (mt_trajectory u) ∧ mt_order u' = mt_order u ∧
    mt_inheritedCount u' = mt_inheritedCount u ∧ tj_Head (mt_trajectory u') = tj_Head (mt_trajectory u) ∧
    tj_Checkpoint (mt_trajectory u') = tj_Checkpoint (mt_trajectory u)) as Hsame.
  { intros i u u' Hu. rewrite put_lookup. case_decide as Hi; [subst i|].
    - assert (u = t) as -> by congruence. by intros [= <-].
    - rewrite Hu. by intros [= <-]. }
  exists l. split; [done|]. intros i u' Hu'.
  assert (is_Some (trajectories st !! i)) as [u Hu]
    by (rewrite put_lookup in Hu'; case_decide; [subst i; by eexists|by eexists]).
  destruct (Hsame _ _ _ Hu Hu') as (_ & _ & _ & ? & ? & ? & ? & ?).
  eapply (traj_wf_keep st _ l l Hb Hall Hb' (λ _, ∅)); [|done|done..|].
  - intros i' w w' Hw Hw'. destruct (Hsame _ _ _ Hw Hw') as (? & ? & -> & _). split_and!; [done..|].
    intros y. by rewrite lookup_empty.
  - intros y Hy. rewrite put_lookup in Hu'. case_decide as Hi.
    + subst i. injection Hu' as <-. simpl in Hy. by injection Hy as <-.
    + assert (u = u') as -> by congruence. by eapply tw_execution; [apply Hall|].
Qed.

(** What [appendLocked] does. *)
Lemma appendLocked_Ok st l id t expectedHead entries clock head t' :
  base_wf st l → (∀ id t, trajectories st !! id = Some t → traj_wf st id t) →
  trajectories st !! id = Some t → appendLocked st t id expectedHead entries clock = Ok (head, t') →
  ∃ ps p k,
    tj_Head (mt_trajectory t) = expectedHead ∧ last ps = Some p ∧ head = te_ID p ∧
    prepared_ok id (entryLocked st id) (entry_index ps) ∧ Forall2 prepared_from entries ps ∧
    NoDup (te_ID <$> ps) ∧
    (∀ i q, ps !! i = Some q → te_Ordinal q = u64 (Z.of_nat (length (mt_order t)) + 1 + Z.of_nat i)) ∧
    chain (overlay (entry_index ps) (entryLocked st id)) head k ∧
    t' = {| mt_trajectory := with_state (mt_trajectory t) (te_Timestamp p) head (latest_checkpoint k)
                               (tj_Execution (mt_trajectory t));
            mt_entries := foldl (λ index entry, <[te_ID entry := entry]> index) (mt_entries t) ps;
            mt_order := mt_order t ++ (te_ID <$> ps);
            mt_inheritedCount := mt_inheritedCount t |}.
Proof.
  intros Hb Hall Ht H. unfold appendLocked in H. case_bool_decide as Hhd; [done|].
  apply bind_Ok in H as (ps & Hps & H). destruct (last ps) as [p|] eqn:Hlast; [|done].
  apply bind_Ok in H as (ck & Hck & [= <- <-]).
  pose proof (entryLocked_ids _ _ Hb id) as Hids. pose proof (entryLocked_closed _ _ Hb Hall _ _ Ht) as Hcl.
  unfold PrepareTrajectoryEntries in Hps. destruct (length entries =? 0)%nat; [done|].
  destruct (prepare_entries_Ok id _ Hcl _ _ _ _ _ _ (prepared_ok_empty _ _) Hps) as (Hok & Hfrom & Hnd & _ & Hord).
  change (foldl _ ∅ ps) with (entry_index ps) in Hok.
  assert (p ∈ ps) as Hp by (apply last_Some in Hlast as [ps' ->]; set_solver).
  destruct (prepared_chain _ _ _ Hok _ _ (entry_index_elem _ _ Hnd Hp)) as [k Hk].
  destruct (tw_head _ _ _ (Hall _ _ Ht)) as (kh & Hkh & Hckh).
  unfold LatestCheckpointAfterAppend in Hck. rewrite Hckh in Hck.
  erewrite (checkpoint_walk_chain id _ Hids Hcl) in Hck; [|done|done|done|set_solver| |].
  - injection Hck as <-. exists ps, p, (p :: k). split_and!; done.
  - rewrite difference_empty_L, size_dom. lia.
  - intros c k'. by eapply chain_length.
Qed.

Section append.
Context (st : memoryTrajectoryStore) (l : list string) (Hb : base_wf st l).
Context (Hall : ∀ id t, trajectories st !! id = Some t → traj_wf st id t).
Context (id : string) (t : memoryTrajectory) (Ht : trajectories st !! id = Some t).
Context (ps : list TrajectoryEntry) (Hok : prepared_ok id (entryLocked st id) (entry_index ps)).
Context (Hnd : NoDup (te_ID <$> ps)).
Context (t' : memoryTrajectory) (Hp : parent_of t' = parent_of t) (Hf : fork_of t' = fork_of t).
Context (Hsc : schema_of t' = schema_of t).
Context (Hent : mt_entries t' = foldl (λ index entry, <[te_ID entry := entry]> index) (mt_entries t) ps).

#[local] Abbreviation st' := (put st id t').
#[local] Abbreviation grow := (λ i, if decide (i = id) then entry_index ps else ∅).

Lemma append_lookup x :
  mt_entries t' !! x = match entry_index ps !! x with Some e => Some e | None => mt_entries t !! x end.
Proof using Hent. rewrite Hent. apply insert_entries_lookup. Qed.

Lemma append_base : base_wf st' l.
Proof using Hb Ht Hok Hp Hsc Hent.
  eapply base_wf_put; [done..|]. intros c e. rewrite append_lookup.
  destruct (entry_index ps !! c) eqn:E; [intros [= ->]; by apply (prepared_id _ _ _ Hok) in E as [? _]|].
  apply (bw_key _ _ Hb _ _ _ _ Ht).
Qed.

Lemma append_old i u u' : trajectories st !! i = Some u → trajectories st' !! i = Some u' →
  parent_of u' = parent_of u ∧ fork_of u' = fork_of u ∧
  ∀ x, mt_entries u' !! x = match grow i !! x with Some e => Some e | None => mt_entries u !! x end.
Proof using Ht Hp Hf Hent.
  intros Hu. rewrite put_lookup. case_decide as Hi.
  - subst i. intros [= <-]. assert (u = t) as -> by congruence.
    rewrite decide_True by done. split_and!; [done..|apply append_lookup].
  - intros Hu'. assert (u = u') as -> by congruence. rewrite decide_False by congruence.
    split_and!; [done..|]. intros x. by rewrite lookup_empty.
Qed.

Lemma append_fresh i x e :
  is_Some (trajectories st !! i) → grow i !! x = Some e → entryLocked st i x = Ok None.
Proof using Hok.
  intros _. simpl. destruct (decide (i = id)) as [->|Hi]; [apply (prepared_fresh _ _ _ Hok)|by rewrite lookup_empty].
Qed.

Lemma append_id_lookup x : entryLocked st' id x = overlay (entry_index ps) (entryLocked st id) x.
Proof using Hb Hall Ht Hok Hp Hf Hsc Hent.
  rewrite (entryLocked_transfer st st' l l Hb Hall append_base grow append_old append_fresh _ _ x Ht);
    [by rewrite decide_True|]. rewrite put_lookup, decide_True by done. by eexists.
Qed.

Lemma append_id_chain c k : chain (entryLocked st id) c k → chain (entryLocked st' id) c k.
Proof using Hb Hall Ht Hok Hp Hf Hsc Hent.
  apply (chain_transfer st st' l l Hb Hall append_base grow append_old append_fresh _ _ _ _ Ht).
  rewrite put_lookup, decide_True by done. by eexists.
Qed.

Lemma append_not_own c : is_Some (entry_index ps !! c) → mt_entries t !! c = None.
Proof using Hb Ht Hok.
  intros [e He]. apply (prepared_fresh _ _ _ Hok) in He. rewrite (entryLocked_eq _ _ Hb _ _ _ Ht) in He.
  by destruct (mt_entries t !! c).
Qed.

Context (Hids : tj_ID (mt_trajectory t') = tj_ID (mt_trajectory t)).
Context (Hinh : mt_inheritedCount t' = mt_inheritedCount t).
Context (Hor : mt_order t' = mt_order t ++ (te_ID <$> ps)).
Context (Hords : ∀ i q, ps !! i = Some q →
  te_Ordinal q = u64 (Z.of_nat (length (mt_order t)) + 1 + Z.of_nat i)).
Context (k : list TrajectoryEntry)
  (Hk : chain (overlay (entry_index ps) (entryLocked st id)) (tj_Head (mt_trajectory t')) k).
Context (Hck : tj_Checkpoint (mt_trajectory t') = latest_checkpoint k).
Context (Hex : ∀ x, tj_Execution (mt_trajectory t') = Some x → ValidateTrajectoryExecution x = Ok tt ∧
  ∃ e, entryLocked st' id (ex_InputEntryID x) = Ok (Some e)).

Lemma append_order : NoDup (mt_order t') ∧ ∀ c, c ∈ mt_order t' ↔ is_Some (mt_entries t' !! c).
Proof using Hb Hall Ht Hok Hnd Hent Hor.
  destruct (tw_order _ _ _ (Hall _ _ Ht)) as [Hnd0 Hdom]. rewrite Hor. split.
  - apply NoDup_app. split_and!; [done| |done]. intros c Hc (q & -> & Hq)%list_elem_of_fmap.
    apply Hdom in Hc as [e He]. rewrite append_not_own in He by (rewrite entry_index_elem by done; by eexists).
    done.
  - intros c. rewrite elem_of_app, Hdom, append_lookup. split.
    + intros [Hc|(q & -> & Hq)%list_elem_of_fmap]; [by case_match|]. by rewrite entry_index_elem by done.
    + destruct (entry_index ps !! c) eqn:E; [|by left]. intros _. right.
      apply entry_index_inv in E as [? <-]. by apply list_elem_of_fmap_2.
Qed.

Lemma append_ordinal i c e :
  mt_order t' !! i = Some c → mt_entries t' !! c = Some e → te_Ordinal e = u64 (Z.of_nat i + 1).
Proof using Hb Hall Ht Hok Hnd Hent Hor Hords.
  rewrite Hor, append_lookup. intros [Hc|[Hlen Hc]]%lookup_app_Some He.
  - assert (is_Some (mt_entries t !! c)) as Hown
      by (apply (tw_order _ _ _ (Hall _ _ Ht)); by eapply list_elem_of_lookup_2).
    destruct (entry_index ps !! c) eqn:E; [rewrite append_not_own in Hown by (by eexists); by destruct Hown|].
    by eapply tw_ordinal; [apply Hall|..].
  - apply list_lookup_fmap_Some in Hc as (q & -> & Hq).
    rewrite entry_index_elem in He by (done || by eapply list_elem_of_lookup_2). injection He as <-.
    rewrite (Hords _ _ Hq). f_equal. lia.
Qed.

Lemma append_traj_wf : traj_wf st' id t'.
Proof using Hb Hall Ht Hok Hnd Hp Hf Hsc Hent Hids Hinh Hor Hords Hk Hck Hex.
  pose proof (Hall _ _ Ht) as Hw. split.
  - rewrite Hids. by eapply tw_id.
  - rewrite Hp, Hf, Hinh. by eapply tw_root.
  - rewrite Hp, Hf, Hinh. intros Hne. destruct (tw_fork _ _ _ Hw Hne) as (kf & Hkf & Hk0 & Hn & Hsh).
    destruct (parent_survives st l Hb _ _ Ht Hne) as [tp Htp].
    exists kf. split_and!; [|done|done|].
    + eapply (chain_transfer st st' l l Hb Hall append_base grow append_old append_fresh); [done| |done].
      rewrite put_lookup. case_decide; by eexists.
    + intros x Hx. rewrite append_lookup. destruct (entry_index ps !! te_ID x) eqn:E; [|by apply Hsh].
      apply (prepared_fresh _ _ _ Hok) in E. rewrite (entryLocked_fork _ _ Hb _ _ _ _ Ht Hne Hkf) in E.
      rewrite Hsh in E by done. injection E as E. rewrite find_ID_None in E. by destruct (E x Hx).
  - intros c e. rewrite append_lookup. destruct (entry_index ps !! c) eqn:E; [|by eapply tw_own].
    intros [= ->]. by apply (prepared_id _ _ _ Hok) in E as (_ & ? & ?).
  - intros c e. rewrite append_lookup. destruct (entry_index ps !! c) eqn:E.
    + intros [= ->]. destruct (prepared_chain _ _ _ Hok _ _ E) as [k' Hk']. exists k'.
      eapply chain_mono; [|done]. intros x y. by rewrite append_id_lookup.
    + intros He. destruct (tw_chain _ _ _ Hw _ _ He) as [k' Hk']. exists k'. by apply append_id_chain.
  - intros c e. rewrite append_lookup. destruct (entry_index ps !! c) eqn:E.
    + intros [= ->]. destruct (prepared_chain _ _ _ Hok _ _ E) as [k' Hk'].
      eapply depth_ok_ext; [by eapply chain_parent| |by eapply prepared_depth].
      intros x p. by rewrite append_id_lookup.
    + intros He. destruct (tw_chain _ _ _ Hw _ _ He) as [k' Hk'].
      eapply depth_ok_ext; [by eapply chain_parent| |by eapply tw_depth].
      intros x p Hx. rewrite append_id_lookup. apply overlay_mono; [|done].
      intros c' e'. apply (prepared_fresh _ _ _ Hok).
  - apply append_order.
  - apply append_ordinal.
  - exists k. split; [|done]. eapply chain_mono; [|done]. intros x y. by rewrite append_id_lookup.
  - done.
Qed.

Lemma append_wf : tstore_wf st'.
Proof using Hb Hall Ht Hok Hnd Hp Hf Hsc Hent Hids Hinh Hor Hords Hk Hck Hex.
  exists l. split; [apply append_base|]. intros i u Hu. pose proof Hu as Hu'. rewrite put_lookup in Hu'.
  case_decide as Hi; [subst i; injection Hu' as <-; apply append_traj_wf|].
  apply (traj_wf_keep st st' l l Hb Hall append_base grow append_old append_fresh i u u); try done.
  - by rewrite decide_False by congruence.
  - intros x Hx. exact (tw_execution _ _ _ (Hall _ _ Hu') _ Hx).
Qed.
End append.

(** Stores that differ by trajectories added or removed share every lookup. *)
Lemma wf_same_trajectories st st' l l' :
  base_wf st l → (∀ id t, trajectories st !! id = Some t → traj_wf st id t) → base_wf st' l' →
  (∀ id t t', trajectories st !! id = Some t → trajectories st' !! id = Some t' → t' = t) →
  ∀ id t, trajectories st !! id = Some t → trajectories st' !! id = Some t → traj_wf st' id t.
Proof.
  intros Hb Hall Hb' Hsame id t Ht Ht'.
  eapply (traj_wf_keep st st' l l' Hb Hall Hb' (λ _, ∅)); [|done|done..|].
  - intros i u u' Hu Hu'. rewrite (Hsame _ _ _ Hu Hu'). split_and!; [done..|]. intros x. by rewrite lookup_empty.
  - intros x Hx. exact (tw_execution _ _ _ (Hall _ _ Ht) _ Hx).
Qed.

Lemma chain_same_trajectories st st' l l' id c k :
  base_wf st l → (∀ id t, trajectories st !! id = Some t → traj_wf st id t) → base_wf st' l' →
  (∀ id t t', trajectories st !! id = Some t → trajectories st' !! id = Some t' → t' = t) →
  is_Some (trajectories st !! id) → is_Some (trajectories st' !! id) →
  chain (entryLocked st id) c k → chain (entryLocked st' id) c k.
Proof.
  intros Hb Hall Hb' Hsame [t Ht] Hs'.
  eapply (chain_transfer st st' l l' Hb Hall Hb' (λ _, ∅)); [|done|done|done].
  intros i u u' Hu Hu'. rewrite (Hsame _ _ _ Hu Hu'). split_and!; [done..|]. intros x. by rewrite lookup_empty.
Qed.

(** A branch that can be read is a chain. *)
Lemma branchLocked_chain st l id head branch :
  base_wf st l → (∀ id t, trajectories st !! id = Some t → traj_wf st id t) →
  branchLocked st id head = Ok branch →
  is_Some (trajectories st !! id) ∧ ∃ k, chain (entryLocked st id) head k ∧ branch = reverse k.
Proof.
  intros Hb Hall H. unfold branchLocked in H. apply bind_Ok in H as (t & [_ Ht]%trajectoryLocked_Ok & H).
  split; [by eexists|]. pose proof (entryLocked_ids _ _ Hb id) as Hids.
  destruct (decide (head = "")) as [->|Hne].
  { exists []. split; [constructor|].
    rewrite (ResolveBranch_chain _ Hids _ _ _ []) in H; [congruence|constructor|unfold walk_fuel; simpl; lia]. }
  destruct (entryLocked_total _ _ Hb Hall _ _ head Ht) as [[e|] He].
  - destruct (entryLocked_closed _ _ Hb Hall _ _ Ht _ _ Hne He) as [k Hk]. exists (e :: k). split; [done|].
    rewrite (ResolveBranch_chain _ Hids _ _ _ _ Hk) in H by (by eapply chain_length). congruence.
  - unfold ResolveBranch, walkBranch, walk_fuel in H. cbn [walk_loop] in H.
    rewrite (proj2 (is_empty_false _) Hne), bool_decide_eq_false_2, He in H by set_solver. done.
Qed.

(** A trajectory that forks a parent is stored under a schema version that has forks. *)
Definition create_ok (trajectory : Trajectory) : Prop :=
  tj_ParentID trajectory ≠ "" → tj_SchemaVersion trajectory = 0 ∨ 2 ≤ tj_SchemaVersion trajectory.

(** What [Create] adds. *)
Lemma tstore_Create_Ok st l ctx trajectory wall st' :
  base_wf st l → (∀ id t, trajectories st !! id = Some t → traj_wf st id t) →
  create_ok trajectory → tstore_Create st ctx trajectory wall = Ok st' →
  ∃ id t, st' = put st id t ∧ trajectories st !! id = None ∧ valid_name id ∧ id = tj_ID trajectory ∧
    mt_entries t = ∅ ∧ mt_order t = [] ∧ tj_ID (mt_trajectory t) = id ∧
    tj_Execution (mt_trajectory t) = None ∧
    parent_of t = tj_ParentID trajectory ∧ fork_of t = tj_ParentEntryID trajectory ∧
    (parent_of t ≠ "" → 2 ≤ schema_of t) ∧
    if decide (parent_of t = "")
    then mt_inheritedCount t = 0 ∧ fork_of t = "" ∧ tj_Head (mt_trajectory t) = "" ∧
         tj_Checkpoint (mt_trajectory t) = ""
    else ∃ k, is_Some (trajectories st !! parent_of t) ∧
         chain (entryLocked st (parent_of t)) (fork_of t) k ∧ k ≠ [] ∧
         mt_inheritedCount t = Z.of_nat (length k) ∧ tj_Head (mt_trajectory t) = fork_of t ∧
         tj_Checkpoint (mt_trajectory t) = latest_checkpoint k.
Proof.
  intros Hb Hall Hok H. unfold tstore_Create in H. apply bind_Ok in H as (_ & _ & H).
  apply bind_Ok in H as ([tp n] & Hp & H). unfold PrepareNewTrajectory in Hp.
  apply bind_Ok in Hp as ([] & Hv & [= <- <-]). simpl in H.
  case_bool_decide as Hex; [done|]. apply eq_None_not_Some in Hex.
  unfold ValidateNewTrajectory in Hv. simpl in Hv. destruct (_ >? _) in Hv; [done|].
  apply bind_Ok in Hv as (? & Hname%ValidateResourceName_Ok & Hv).
  destruct (_ || _ || _ || _) eqn:Hflds in Hv; [done|]. gobool. destruct Hflds as [[[Hhead Hcheck] Hexec] _].
  apply eq_None_not_Some in Hexec.
  unfold ValidateTrajectoryParent in Hv. simpl in Hv.
  destruct (negb (Bool.eqb _ _)) eqn:Heq; [done|]. rewrite negb_false_iff, Bool.eqb_true_iff in Heq.
  destruct (is_empty (tj_ParentID trajectory)) eqn:Hpar; simpl in *.
  - injection H as <-. apply is_empty_true in Hpar. symmetry in Heq. apply is_empty_true in Heq.
    eexists _, _. split_and!; [done..|by rewrite Hpar|]. simpl. rewrite decide_True by done. by rewrite Hhead, Hcheck.
  - apply is_empty_false in Hpar.
    destruct (branchLocked st _ _) as [branch|] eqn:Hbr; [|done].
    apply bind_Ok in H as (prep & Hprep & [= <-]). unfold PrepareNewTrajectoryFork in Hprep. simpl in Hprep.
    rewrite (proj2 (is_empty_false _) Hpar) in Hprep.
    destruct (length branch =? 0)%nat eqn:Hlen; [done|]. injection Hprep as <-. simpl.
    destruct (branchLocked_chain _ _ _ _ _ Hb Hall Hbr) as (Hps & k & Hk & ->).
    eexists _, _. split_and!; [done..| |].
    + simpl. intros _. destruct (Hok Hpar) as [->|Hs]; [done|]. case_match; [done|lia].
    + simpl. rewrite decide_False by done. exists k. rewrite length_reverse in *. split_and!; try done.
      * intros ->. done.
      * unfold FindLatestInBranch, latest_checkpoint. rewrite reverse_involutive. by case_match.
Qed.

Lemma wf_create st ctx trajectory wall st' :
  tstore_wf st → create_ok trajectory → tstore_Create st ctx trajectory wall = Ok st' → tstore_wf st'.
Proof.
  intros (l & Hb & Hall) Hok H.
  destruct (tstore_Create_Ok _ _ _ _ _ _ Hb Hall Hok H) as
    (id & t & -> & Hnew & Hname & _ & Hent & Hord & Hid & Hexec & _ & _ & Hsch & Hcase).
  assert (id ∉ l) as Hnin by (rewrite (bw_domain _ _ Hb), Hnew; by intros []).
  assert (∀ i u, trajectories st !! i = Some u → trajectories (put st id t) !! i = Some u) as Hkeep.
  { intros i u Hu. rewrite put_lookup, decide_False; [done|]. congruence. }
  assert (base_wf (put st id t) (id :: l)) as Hb'.
  { split.
    - split_and!; [done| |].
      + intros u. rewrite put_lookup, decide_True by done. intros [= <-].
        destruct (decide (parent_of t = "")); [by left|right]. apply (bw_domain _ _ Hb).
        by destruct Hcase as (k & ? & _).
      + pose proof (bw_lineage _ _ Hb) as Hlin. revert Hnin Hlin. clear Hb.
        induction l as [|a k IH]; [done|]. intros Hnin (Ha & Hpar & Hlin).
        split_and!; [done| |apply IH; set_solver]. intros u. rewrite put_lookup, decide_False; [apply Hpar|set_solver].
    - intros i. rewrite elem_of_cons, put_lookup, (bw_domain _ _ Hb). destruct (decide (id = i)) as [Hi|Hi].
      + split; [intros _; by eexists|intros _; left; congruence].
      + split; [intros [?|?]; [congruence|done]|by right].
    - intros i [->|Hi]%elem_of_cons; [done|by apply (bw_name _ _ Hb)].
    - intros i u. rewrite put_lookup. destruct (decide (id = i)); [by intros [= <-]|by apply (bw_schema _ _ Hb)].
    - intros i u c e. rewrite put_lookup. destruct (decide (id = i)); [intros [= <-]; by rewrite Hent, lookup_empty|].
      by apply (bw_key _ _ Hb). }
  assert (∀ i u u', trajectories st !! i = Some u → trajectories (put st id t) !! i = Some u' → u' = u) as Hsame.
  { intros i u u' Hu Hu'. apply Hkeep in Hu. congruence. }
  exists (id :: l). split; [done|]. intros i u Hu. pose proof Hu as Hu2. rewrite put_lookup in Hu2.
  destruct (decide (id = i)) as [Hi|Hi]; [|by eapply (wf_same_trajectories st)]. subst i. injection Hu2 as <-.
  assert (∀ k c, k ≠ [] → parent_of t ≠ "" → is_Some (trajectories st !! parent_of t) →
    chain (entryLocked st (parent_of t)) (fork_of t) k →
    chain (entryLocked (put st id t) (parent_of t)) (fork_of t) k ∧
    (chain (entryLocked (put st id t) (parent_of t)) c k → chain (entryLocked (put st id t) id) c k)) as Hchain.
  { intros k c Hk0 Hne [tp Htp] Hk.
    assert (chain (entryLocked (put st id t) (parent_of t)) (fork_of t) k) as Hk'
      by (eapply (chain_same_trajectories st); [done..|by eexists|by eauto|done]).
    split; [done|]. intros Hc. eapply chain_ext; [|by eapply entryLocked_ids|done].
    intros e He _. rewrite (entryLocked_fork _ _ Hb' _ _ _ _ Hu Hne Hk'), Hent, lookup_empty. f_equal.
    apply find_ID_NoDup; [|done|done]. eapply chain_NoDup; [by eapply entryLocked_ids|done]. }
  split; rewrite ?Hent, ?Hord, ?Hexec; try by (intros *; rewrite ?lookup_empty).
  - intros Hp. rewrite decide_True in Hcase by done. tauto.
  - intros Hp. rewrite decide_False in Hcase by done. destruct Hcase as (k & Hps & Hk & Hk0 & Hn & _).
    exists k. split_and!; [by apply (Hchain k "" Hk0 Hp Hps Hk)|done|done|intros; by rewrite lookup_empty].
  - split; [constructor|]. intros c. rewrite lookup_empty. split; [by intros ?%not_elem_of_nil|by intros []].
  - destruct (decide (parent_of t = "")) as [Hp|Hp].
    + destruct Hcase as (_ & _ & -> & ->). exists []. split; [constructor|done].
    + destruct Hcase as (k & Hps & Hk & Hk0 & _ & -> & ->). exists k. split; [|done].
      destruct (Hchain k (fork_of t) Hk0 Hp Hps Hk) as [Hk' Himp]. by apply Himp.
Qed.

Lemma wf_delete st ctx id st' : tstore_wf st → tstore_Delete st ctx id = Ok st' → tstore_wf st'.
Proof.
  intros (l & Hb & Hall) H. unfold tstore_Delete in H. apply bind_Ok in H as (_ & _ & H).
  apply bind_Ok in H as (t & [_ Ht]%trajectoryLocked_Ok & H). destruct (active_execution t); [done|].
  destruct (List.find _ _) as [|] eqn:Hf; [done|]. injection H as <-.
  assert (∀ i u, trajectories st !! i = Some u → parent_of u ≠ id) as Hno.
  { intros i u Hu Hp. pose proof (find_none _ _ Hf u) as Hn.
    simpl in Hn. rewrite bool_decide_eq_true_2 in Hn by done. discriminate Hn.
    apply list_elem_of_In, elem_of_map_values. eauto. }
  assert (base_wf {| trajectories := delete id (trajectories st) |} (filter (λ i, i ≠ id) l)) as Hb'.
  { split; simpl.
    - pose proof (bw_lineage _ _ Hb) as Hlin. revert Hlin. clear Hb. induction l as [|a k IH]; [done|].
      intros (Ha & Hpar & Hlin). rewrite filter_cons. case_decide; [|by apply IH].
      split_and!; [by rewrite list_elem_of_filter; intros []| |by apply IH].
      simpl. intros u [_ Hu]%lookup_delete_Some. destruct (Hpar u Hu) as [?|Hin]; [by left|right].
      apply list_elem_of_filter. split; [by eapply Hno|done].
    - intros i. rewrite list_elem_of_filter, (bw_domain _ _ Hb). rewrite lookup_delete. case_decide.
      + split; [by intros [? _]; congruence|by intros []].
      + split; [by intros [_ ?]|by split; [congruence|]].
    - intros i [_ Hi]%list_elem_of_filter. by apply (bw_name _ _ Hb).
    - intros i u [_ Hu]%lookup_delete_Some. by apply (bw_schema _ _ Hb i).
    - intros i u c e [_ Hu]%lookup_delete_Some. by apply (bw_key _ _ Hb i). }
  exists (filter (λ i, i ≠ id) l). split; [done|]. intros i u Hu. pose proof Hu as Hu2. simpl in Hu2.
  apply lookup_delete_Some in Hu2 as [_ Hu2]. eapply (wf_same_trajectories st); [done..| |done|done].
  intros j v v' Hv Hv'. simpl in Hv'. apply lookup_delete_Some in Hv' as [_ Hv']. congruence.
Qed.
