(* ===== verification/TrajectoryHistory.v ===== *)
(** Runs of the trajectory store: every sequence of calls keeps the invariant of
    [TrajectoryInvariant], and only adds to the history of a trajectory. *)

From S2P Require Import Prelude GoText Names Paging Message Trajectory TrajectoryBranch.
From S2P Require Import TrajectoryStore TrajectoryInvariant.

(** ** Growth

    A later store has the same fork points, and holds more entries, under IDs that were not visible
    before. *)

Record grows (st st' : memoryTrajectoryStore) (id : string) (t t' : memoryTrajectory) : Prop := {
  grows_parent : parent_of t' = parent_of t;
  grows_fork : fork_of t' = fork_of t;
  grows_entries : mt_entries t ⊆ mt_entries t';
  grows_fresh x e : mt_entries t' !! x = Some e → mt_entries t !! x = None → entryLocked st id x = Ok None;
  grows_order : mt_order t `prefix_of` mt_order t';
}.

Definition extends (st st' : memoryTrajectoryStore) : Prop :=
  ∀ id t t', trajectories st !! id = Some t → trajectories st' !! id = Some t' → grows st st' id t t'.

Definition gained (st st' : memoryTrajectoryStore) (id : string) : gmap string TrajectoryEntry :=
  match trajectories st !! id, trajectories st' !! id with
  | Some t, Some t' => mt_entries t' ∖ mt_entries t
  | _, _ => ∅
  end.

Lemma grows_refl st st' id t : grows st st' id t t.
Proof. split; try done. congruence. Qed.

Section extends.
Context (st st' : memoryTrajectoryStore) (l l' : list string).
Context (Hb : base_wf st l) (Hall : ∀ id t, trajectories st !! id = Some t → traj_wf st id t).
Context (Hb' : base_wf st' l') (Hext : extends st st').

Lemma extends_old id t t' :
  trajectories st !! id = Some t → trajectories st' !! id = Some t' →
  parent_of t' = parent_of t ∧ fork_of t' = fork_of t ∧
  ∀ x, mt_entries t' !! x = match gained st st' id !! x with Some e => Some e | None => mt_entries t !! x end.
Proof using Hext.
  intros Ht Ht'. destruct (Hext _ _ _ Ht Ht') as [Hp Hf Hsub _ _]. split_and!; [done..|].
  intros x. unfold gained. rewrite Ht, Ht', lookup_difference.
  destruct (mt_entries t !! x) as [e|] eqn:E; [|by destruct (mt_entries t' !! x)].
  by apply (lookup_weaken _ (mt_entries t')) in E.
Qed.

Lemma extends_fresh id x e :
  is_Some (trajectories st !! id) → gained st st' id !! x = Some e → entryLocked st id x = Ok None.
Proof using Hext.
  intros [t Ht]. unfold gained. rewrite Ht.
  destruct (trajectories st' !! id) as [t'|] eqn:Ht'; [|by rewrite lookup_empty].
  intros [H1 H2]%lookup_difference_Some. by eapply (grows_fresh _ _ _ _ _ (Hext _ _ _ Ht Ht')).
Qed.

Lemma extends_chain id c k :
  is_Some (trajectories st !! id) → is_Some (trajectories st' !! id) →
  chain (entryLocked st id) c k → chain (entryLocked st' id) c k.
Proof using Hb Hall Hb' Hext.
  intros [t Ht] Ht'.
  by apply (chain_transfer st st' l l' Hb Hall Hb' (gained st st') extends_old extends_fresh _ _ _ _ Ht).
Qed.

Lemma extends_visible id c e :
  is_Some (trajectories st !! id) → is_Some (trajectories st' !! id) →
  entryLocked st id c = Ok (Some e) → entryLocked st' id c = Ok (Some e).
Proof using Hb Hall Hb' Hext.
  intros [t Ht] Ht' He.
  rewrite (entryLocked_transfer st st' l l' Hb Hall Hb' (gained st st') extends_old extends_fresh _ _ _ Ht Ht').
  apply overlay_mono; [|done]. intros x y. apply extends_fresh. eauto.
Qed.
End extends.

(** ** The effect of the operations that write one trajectory *)

(** [t2] is [t1] up to the execution and the time stamp. *)
Definition same_entries (t1 t2 : memoryTrajectory) : Prop :=
  ∃ updated execution,
    mt_trajectory t2 =
      with_state (mt_trajectory t1) updated (tj_Head (mt_trajectory t1)) (tj_Checkpoint (mt_trajectory t1)) execution ∧
    mt_entries t2 = mt_entries t1 ∧ mt_order t2 = mt_order t1 ∧ mt_inheritedCount t2 = mt_inheritedCount t1.

Lemma set_execution_same t x updated : same_entries t (set_execution t x updated).
Proof. by exists updated, (Some x). Qed.

Lemma same_entries_refl t : same_entries t t.
Proof.
  exists (tj_UpdatedAt (mt_trajectory t)), (tj_Execution (mt_trajectory t)).
  split_and!; [|done..]. by destruct (mt_trajectory t).
Qed.

Lemma extends_put st id t t' :
  trajectories st !! id = Some t → grows st (put st id t') id t t' → extends st (put st id t').
Proof.
  intros Ht Hg i u u' Hu. rewrite put_lookup. case_decide as Hi; [subst i; intros [= <-]; congruence|].
  rewrite Hu. intros [= <-]. apply grows_refl.
Qed.

Lemma effect_append st id t expectedHead entries clock head t1 t2 :
  tstore_wf st → trajectories st !! id = Some t →
  appendLocked st t id expectedHead entries clock = Ok (head, t1) → same_entries t1 t2 →
  (∀ x, tj_Execution (mt_trajectory t2) = Some x →
     ValidateTrajectoryExecution x = Ok tt ∧
     ((∃ e, entryLocked st id (ex_InputEntryID x) = Ok (Some e)) ∨ ex_InputEntryID x ∈ te_ID <$> entries)) →
  tstore_wf (put st id t2) ∧ extends st (put st id t2).
Proof.
  intros (l & Hb & Hall) Ht H (updated & execution & Hmt & Hent2 & Hord2 & Hinh2) Hex.
  destruct (appendLocked_Ok _ _ _ _ _ _ _ _ _ Hb Hall Ht H) as
    (ps & p & k & _ & Hlast & -> & Hok & Hfrom & Hnd & Hords & Hk & ->). simpl in *.
  assert (parent_of t2 = parent_of t) as Hp by (by rewrite Hmt).
  assert (fork_of t2 = fork_of t) as Hf by (by rewrite Hmt).
  assert (schema_of t2 = schema_of t) as Hs by (by rewrite Hmt).
  assert (∀ x, entryLocked (put st id t2) id x = overlay (entry_index ps) (entryLocked st id) x) as Hlk
    by (intros; by eapply append_id_lookup).
  split.
  - eapply (append_wf st l Hb Hall id t Ht ps Hok Hnd t2 Hp Hf Hs Hent2); [by rewrite Hmt|done|done|done| | |].
    + rewrite Hmt. exact Hk.
    + by rewrite Hmt.
    + intros x Hx. destruct (Hex x Hx) as [Hv Hin]. split; [done|]. rewrite Hlk.
      destruct Hin as [[e He]|(src & -> & Hsrc)%list_elem_of_fmap].
      * exists e. apply overlay_mono; [|done]. intros c y. apply (prepared_fresh _ _ _ Hok).
      * apply list_elem_of_lookup_1 in Hsrc as [i Hi].
        destruct (Forall2_lookup_l _ _ _ _ _ Hfrom Hi) as (q & Hq & Hid & _). exists q.
        unfold overlay. rewrite <-Hid, entry_index_elem; [done|done|by eapply list_elem_of_lookup_2].
  - eapply extends_put; [done|]. split; [done|done| | |].
    + apply map_subseteq_spec. intros x e He. rewrite Hent2, insert_entries_lookup.
      destruct (entry_index ps !! x) as [e'|] eqn:E; [|done].
      rewrite (append_not_own st l Hb id t Ht ps Hok x) in He by (by eexists). done.
    + intros x e. rewrite Hent2, insert_entries_lookup. destruct (entry_index ps !! x) as [e'|] eqn:E; [|congruence].
      intros _ _. by eapply (prepared_fresh _ _ _ Hok).
    + rewrite Hord2. by eexists.
Qed.

Lemma effect_set_execution st id t x updated :
  tstore_wf st → trajectories st !! id = Some t → ValidateTrajectoryExecution x = Ok tt →
  (∃ e, entryLocked st id (ex_InputEntryID x) = Ok (Some e)) →
  tstore_wf (put st id (set_execution t x updated)) ∧ extends st (put st id (set_execution t x updated)).
Proof.
  intros Hwf Ht Hv He. split; [by apply wf_set_execution|]. eapply extends_put; [done|].
  split; try done. simpl. congruence.
Qed.

(** ** Transitions of an execution *)

Create HintDb execution.

Lemma Validate_tail {A} (x : TrajectoryExecution) (k : result A) r :
  (try? ValidateTrajectoryExecution x; k) = Ok r → ValidateTrajectoryExecution x = Ok tt ∧ k = Ok r.
Proof. intros ([] & ? & ?)%bind_Ok. done. Qed.

Lemma Claim_Ok x owner now ttl wall e x' :
  ClaimTrajectoryExecution x owner now ttl wall e = Ok x' →
  ValidateTrajectoryExecution x' = Ok tt ∧ Execution_Terminal x = false ∧ RecoveryDelay x now wall ≤ 0 ∧
  x' = with_lease x TrajectoryExecutionRunning (u64 (ex_Revision x + 1)) owner (NewID e) (time_Add now ttl)
         (ex_System x) (ex_LastError x) now.
Proof.
  unfold ClaimTrajectoryExecution. intros H. do 4 inv_ok_step.
  apply Validate_tail in H as [? [= <-]]. gobool. done.
Qed.

Lemma Renew_Ok x executionID token now ttl x' :
  RenewTrajectoryExecution x executionID token now ttl = Ok x' →
  ValidateTrajectoryExecution x' = Ok tt ∧ execution_fenced x executionID token now = false ∧ 0 < ttl ∧
  x' = with_lease x (ex_State x) (u64 (ex_Revision x + 1)) (ex_Owner x) (ex_LeaseToken x) (time_Add now ttl)
         (ex_System x) (ex_LastError x) now.
Proof.
  unfold RenewTrajectoryExecution. intros H. do 2 inv_ok_step.
  apply Validate_tail in H as [? [= <-]]. split_and!; try done. lia.
Qed.

Lemma Commit_Ok x commit now x' :
  CommitTrajectoryExecution x commit now = Ok x' →
  ValidateTrajectoryExecution x' = Ok tt ∧
  execution_fenced x (ecm_ExecutionID commit) (ecm_LeaseToken commit) now = false ∧
  ex_ID x' = ex_ID x ∧ ex_InputEntryID x' = ex_InputEntryID x ∧ ex_Revision x' = u64 (ex_Revision x + 1) ∧
  ex_CreatedAt x' = ex_CreatedAt x ∧
  if commit_continues (ecm_State commit)
  then ex_State x' = ex_State x ∧ ex_Owner x' = ex_Owner x ∧ ex_LeaseToken x' = ex_LeaseToken x ∧
       ex_LeaseExpiresAt x' = ex_LeaseExpiresAt x
  else ex_State x' = ecm_State commit ∧ ex_State x' ≠ TrajectoryExecutionRunning ∧ ex_LeaseToken x' = "".
Proof.
  unfold CommitTrajectoryExecution. intros H. inv_ok_step.
  destruct (commit_continues (ecm_State commit)) eqn:Hc.
  - apply Validate_tail in H as [? [= <-]]. done.
  - inv_ok_step. apply Validate_tail in H as [? [= <-]]. split_and!; try done. simpl. by intros E; rewrite E in Hc.
Qed.

Lemma Cancel_Ok x executionID reason now x' changed :
  CancelTrajectoryExecution x executionID reason now = Ok (x', changed) →
  ex_ID x = executionID ∧
  if changed
  then ValidateTrajectoryExecution x' = Ok tt ∧ Execution_Terminal x = false ∧
       x' = with_lease x TrajectoryExecutionCancelled (u64 (ex_Revision x + 1)) "" "" zeroTime (ex_System x) reason now
  else x' = x ∧ ex_State x = TrajectoryExecutionCancelled.
Proof.
  unfold CancelTrajectoryExecution. intros H. do 2 inv_ok_step. gobool.
  assert (ex_ID x = executionID) as Hid by (by apply dec_stable). split; [done|].
  case_bool_decide; [by injection H as <- <-|]. inv_ok_step. apply Validate_tail in H as [? [= <- <-]]. done.
Qed.

Lemma Start_Ok start baseHead input now x :
  PrepareTrajectoryExecutionStart start baseHead input now = Ok x →
  ValidateTrajectoryExecution x = Ok tt ∧ ex_ID x = es_ID start ∧ ex_State x = TrajectoryExecutionPending ∧
  ex_Revision x = 1 ∧ ex_BaseHead x = baseHead ∧ ex_InputEntryID x = input ∧ ex_LeaseToken x = "".
Proof.
  unfold PrepareTrajectoryExecutionStart. intros H. do 2 inv_ok_step.
  apply Validate_tail in H as [? [= <-]]. done.
Qed.

Lemma Bind_Ok executionID entries bound :
  BindTrajectoryExecutionEntries executionID entries = Ok bound →
  bound = (λ e, with_fields e (bind_fields (te_Fields e) executionID)) <$> entries.
Proof.
  revert bound. induction entries as [|e entries IH]; intros bound H; [by injection H as <-|].
  cbn [BindTrajectoryExecutionEntries] in H. inv_ok_step. apply bind_Ok in H as (rest & Hr & [= <-]).
  by rewrite (IH _ Hr).
Qed.

Lemma Bind_IDs executionID entries bound :
  BindTrajectoryExecutionEntries executionID entries = Ok bound → te_ID <$> bound = te_ID <$> entries.
Proof. intros ->%Bind_Ok. rewrite <-list_fmap_compose. by apply list_fmap_ext. Qed.

(** ** Calls and runs *)

Inductive tstore_call :=
  | CallCreate (trajectory : Trajectory) (wall : time)
  | CallAppend (id expectedHead : string) (entries : list TrajectoryEntry) (clock : nat → time)
  | CallBegin (id expectedHead : string) (start : TrajectoryExecutionStart) (input : TrajectoryEntry)
      (wall : time) (clock : nat → time)
  | CallClaim (id owner : string) (now : time) (ttl : duration) (wall : time) (e : entropy)
  | CallRenew (id executionID token : string) (now : time) (ttl : duration) (wall : time)
  | CallCommit (commit : TrajectoryExecutionCommit) (wall : time) (clock : nat → time)
  | CallCancel (commit : TrajectoryExecutionCancelCommit) (wall : time) (clock : nat → time)
  | CallDelete (id : string).

Definition tstore_do (st : memoryTrajectoryStore) (ctx : context) (c : tstore_call) : result memoryTrajectoryStore :=
  match c with
  | CallCreate trajectory wall => tstore_Create st ctx trajectory wall
  | CallAppend id head entries clock => let? r := tstore_Append st ctx id head entries clock in Ok r.2
  | CallBegin id head start input wall clock =>
      let? r := tstore_BeginExecution st ctx id head start input wall clock in Ok r.2
  | CallClaim id owner now ttl wall e => let? r := tstore_ClaimExecution st ctx id owner now ttl wall e in Ok r.2
  | CallRenew id executionID token now ttl wall =>
      let? r := tstore_RenewExecution st ctx id executionID token now ttl wall in Ok r.2
  | CallCommit commit wall clock => let? r := tstore_CommitExecution st ctx commit wall clock in Ok r.2
  | CallCancel commit wall clock => let? r := tstore_CancelExecution st ctx commit wall clock in Ok r.2
  | CallDelete id => tstore_Delete st ctx id
  end.

(** A call that fails leaves the store as it was. *)
Definition tstore_exec (st : memoryTrajectoryStore) (c : context * tstore_call) : memoryTrajectoryStore :=
  get st (tstore_do st c.1 c.2).

Definition tstore_run (st : memoryTrajectoryStore) (calls : list (context * tstore_call)) : memoryTrajectoryStore :=
  foldl tstore_exec st calls.

Definition call_ok (c : tstore_call) : Prop :=
  match c with CallCreate trajectory _ => create_ok trajectory | _ => True end.

Definition calls_ok (calls : list (context * tstore_call)) : Prop := Forall (λ c, call_ok c.2) calls.

(** The trajectory a call writes. *)
Definition call_target (c : tstore_call) : string :=
  match c with
  | CallCreate trajectory _ => tj_ID trajectory
  | CallAppend id _ _ _ | CallBegin id _ _ _ _ _ | CallClaim id _ _ _ _ _ | CallRenew id _ _ _ _ _
  | CallDelete id => id
  | CallCommit commit _ _ => ecm_TrajectoryID commit
  | CallCancel commit _ _ => ecc_TrajectoryID commit
  end.

Lemma tstore_Append_Ok st ctx id expectedHead entries clock head st' :
  tstore_Append st ctx id expectedHead entries clock = Ok (head, st') →
  ctx = None ∧ ∃ t t1, trajectories st !! id = Some t ∧ active_execution t = None ∧
    appendLocked st t id expectedHead entries clock = Ok (head, t1) ∧ st' = put st id t1.
Proof.
  unfold tstore_Append. intros ([] & ->%ctx_Err_Ok & H)%bind_Ok. split; [done|].
  apply bind_Ok in H as (t & [_ Ht]%trajectoryLocked_Ok & H). destruct (active_execution t) eqn:Ha; [done|].
  apply bind_Ok in H as ([hd t1] & Happ & [= <- <-]). eauto 10.
Qed.

Lemma tstore_Begin_Ok st ctx id expectedHead start input wall clock m st' :
  tstore_BeginExecution st ctx id expectedHead start input wall clock = Ok (m, st') →
  ctx = None ∧ te_Kind input = TrajectoryKindUserMessage ∧ ∃ x bound t head t1,
    PrepareTrajectoryExecutionStart start expectedHead (te_ID input) wall = Ok x ∧
    BindTrajectoryExecutionEntries (ex_ID x) [input] = Ok bound ∧
    trajectories st !! id = Some t ∧ active_execution t = None ∧
    appendLocked st t id expectedHead bound clock = Ok (head, t1) ∧
    st' = put st id (set_execution t1 x (tj_UpdatedAt (mt_trajectory t1))).
Proof.
  unfold tstore_BeginExecution. intros ([] & ->%ctx_Err_Ok & H)%bind_Ok. split; [done|].
  case_bool_decide as Hk; [done|]. split; [done|]. apply bind_Ok in H as (x & Hx & H).
  apply bind_Ok in H as (bound & Hbound & H).
  apply bind_Ok in H as (t & [_ Ht]%trajectoryLocked_Ok & H). destruct (active_execution t) eqn:Ha; [done|].
  apply bind_Ok in H as ([hd t1] & Happ & [= <- <-]). eauto 20.
Qed.

Lemma tstore_Claim_Ok st ctx id owner now ttl wall e x' st' :
  tstore_ClaimExecution st ctx id owner now ttl wall e = Ok (x', st') →
  ctx = None ∧ ∃ t x, trajectories st !! id = Some t ∧ tj_Execution (mt_trajectory t) = Some x ∧
    ClaimTrajectoryExecution x owner (if IsZero now then wall else now) ttl wall e = Ok x' ∧
    st' = put st id (set_execution t x' (if IsZero now then wall else now)).
Proof.
  unfold tstore_ClaimExecution. intros ([] & ->%ctx_Err_Ok & H)%bind_Ok. split; [done|].
  apply bind_Ok in H as (t & [_ Ht]%trajectoryLocked_Ok & H).
  destruct (tj_Execution (mt_trajectory t)) as [x|] eqn:Hx; [|done].
  apply bind_Ok in H as (x2 & Hc & [= <- <-]). eauto 10.
Qed.

Lemma tstore_Renew_Ok st ctx id executionID token now ttl wall x' st' :
  tstore_RenewExecution st ctx id executionID token now ttl wall = Ok (x', st') →
  ctx = None ∧ ∃ t x, trajectories st !! id = Some t ∧ tj_Execution (mt_trajectory t) = Some x ∧
    RenewTrajectoryExecution x executionID token (if IsZero now then wall else now) ttl = Ok x' ∧
    st' = put st id (set_execution t x' (if IsZero now then wall else now)).
Proof.
  unfold tstore_RenewExecution. intros ([] & ->%ctx_Err_Ok & H)%bind_Ok. split; [done|].
  apply bind_Ok in H as (t & [_ Ht]%trajectoryLocked_Ok & H).
  destruct (tj_Execution (mt_trajectory t)) as [x|] eqn:Hx; [|done].
  apply bind_Ok in H as (x2 & Hc & [= <- <-]). eauto 10.
Qed.

(** The trajectory a commit or a cancellation leaves, before the execution is set. *)
Definition maybe_append st t id expectedHead entries clock t1 : Prop :=
  (entries = [] ∧ t1 = t) ∨
  (entries ≠ [] ∧ ∃ head, appendLocked st t id expectedHead entries clock = Ok (head, t1)).

Lemma maybe_append_Ok st t id expectedHead entries clock t1 :
  (if (0 <? length entries)%nat then
     let? '(_, trajectory) := appendLocked st t id expectedHead entries clock in Ok trajectory
   else Ok t) = Ok t1 →
  maybe_append st t id expectedHead entries clock t1.
Proof.
  destruct entries as [|e entries]; simpl; [intros [= <-]; by left|].
  intros ([hd t2] & Happ & [= <-])%bind_Ok. right. eauto.
Qed.

Lemma tstore_Commit_Ok st ctx commit wall clock m st' :
  tstore_CommitExecution st ctx commit wall clock = Ok (m, st') →
  let id := ecm_TrajectoryID commit in
  ctx = None ∧ ∃ entries t x x' t1,
    BindTrajectoryExecutionEntries (ecm_ExecutionID commit) (ecm_Entries commit) = Ok entries ∧
    trajectories st !! id = Some t ∧ tj_Head (mt_trajectory t) = ecm_ExpectedHead commit ∧
    tj_Execution (mt_trajectory t) = Some x ∧ CommitTrajectoryExecution x commit wall = Ok x' ∧
    maybe_append st t id (ecm_ExpectedHead commit) entries clock t1 ∧
    st' = put st id (set_execution t1 x' wall) ∧ m = mt_metadata (set_execution t1 x' wall).
Proof.
  unfold tstore_CommitExecution. intros ([] & ->%ctx_Err_Ok & H)%bind_Ok. split; [done|].
  do 2 inv_ok_step. apply bind_Ok in H as (entries & Hbind & H).
  apply bind_Ok in H as (t & [_ Ht]%trajectoryLocked_Ok & H). inv_ok_step. gobool.
  destruct (tj_Execution (mt_trajectory t)) as [x|] eqn:Hx; [|done].
  apply bind_Ok in H as (x2 & Hc & H). apply bind_Ok in H as (t1 & Happ%maybe_append_Ok & [= <- <-]).
  assert (tj_Head (mt_trajectory t) = ecm_ExpectedHead commit) by (by apply dec_stable). eauto 20.
Qed.

Lemma tstore_Cancel_Ok st ctx commit wall clock m changed st' :
  tstore_CancelExecution st ctx commit wall clock = Ok (m, changed, st') →
  let id := ecc_TrajectoryID commit in
  let now := tj_NormalizeMutationTime wall (ecc_At commit) in
  ctx = None ∧ ∃ entries t x x',
    BindTrajectoryExecutionEntries (ecc_ExecutionID commit) (ecc_Entries commit) = Ok entries ∧
    trajectories st !! id = Some t ∧ tj_Execution (mt_trajectory t) = Some x ∧
    CancelTrajectoryExecution x (ecc_ExecutionID commit) (ecc_Reason commit) now = Ok (x', changed) ∧
    if changed
    then ∃ t1, maybe_append st t id (ecc_ExpectedHead commit) entries clock t1 ∧
         st' = put st id (set_execution t1 x' now)
    else st' = st.
Proof.
  unfold tstore_CancelExecution. intros ([] & ->%ctx_Err_Ok & H)%bind_Ok. split; [done|].
  apply bind_Ok in H as (entries & Hbind & H).
  apply bind_Ok in H as (t & [_ Ht]%trajectoryLocked_Ok & H).
  destruct (tj_Execution (mt_trajectory t)) as [x|] eqn:Hx; [|done].
  apply bind_Ok in H as ([x2 ch] & Hc & H). destruct ch.
  - apply bind_Ok in H as (t1 & Happ%maybe_append_Ok & [= <- <- <-]). eauto 20.
  - injection H as <- <- <-. eauto 20.
Qed.

(** ** Every call keeps the invariant and extends the store *)

Lemma execution_input st l id t x x' :
  base_wf st l → (∀ id t, trajectories st !! id = Some t → traj_wf st id t) →
  trajectories st !! id = Some t → tj_Execution (mt_trajectory t) = Some x →
  ex_InputEntryID x' = ex_InputEntryID x → ∃ e, entryLocked st id (ex_InputEntryID x') = Ok (Some e).
Proof. intros Hb Hall Ht Hx ->. by apply (tw_execution _ _ _ (Hall _ _ Ht)). Qed.

Lemma effect_maybe_append st id t expectedHead entries clock t1 x x' updated :
  tstore_wf st → trajectories st !! id = Some t → tj_Execution (mt_trajectory t) = Some x →
  maybe_append st t id expectedHead entries clock t1 → ValidateTrajectoryExecution x' = Ok tt →
  ex_InputEntryID x' = ex_InputEntryID x →
  tstore_wf (put st id (set_execution t1 x' updated)) ∧ extends st (put st id (set_execution t1 x' updated)).
Proof.
  intros Hwf Ht Hx Happ Hv Hin. pose proof Hwf as (l & Hb & Hall).
  pose proof (execution_input _ _ _ _ _ _ Hb Hall Ht Hx Hin) as He.
  destruct Happ as [[_ ->]|(_ & head & Happ)]; [by apply effect_set_execution|].
  eapply effect_append; [done..|apply set_execution_same|]. simpl. intros y [= <-]. auto.
Qed.

Lemma extends_refl st : extends st st.
Proof. intros id t t' Ht Ht'. assert (t = t') as <- by congruence. apply grows_refl. Qed.

Lemma tstore_do_ok st ctx c st' :
  tstore_wf st → call_ok c → tstore_do st ctx c = Ok st' → tstore_wf st' ∧ extends st st'.
Proof.
  intros Hwf Hc H. pose proof Hwf as (l & Hb & Hall). destruct c; cbn [tstore_do] in H.
  - split; [by eapply wf_create|].
    destruct (tstore_Create_Ok _ _ _ _ _ _ Hb Hall Hc H) as (id & t & -> & Hnew & _).
    intros i u u' Hu. rewrite put_lookup. case_decide; [congruence|]. rewrite Hu. intros [= <-]. apply grows_refl.
  - apply bind_Ok in H as ([hd s] & H & [= <-]).
    apply tstore_Append_Ok in H as (_ & t & t1 & Ht & _ & Happ & ->).
    eapply effect_append; [done..|apply same_entries_refl|].
    destruct (appendLocked_Ok _ _ _ _ _ _ _ _ _ Hb Hall Ht Happ) as (ps & p & k & _ & _ & _ & _ & _ & _ & _ & _ & ->).
    simpl. intros x Hx. destruct (tw_execution _ _ _ (Hall _ _ Ht) _ Hx). auto.
  - apply bind_Ok in H as ([m s] & H & [= <-]).
    apply tstore_Begin_Ok in H as (_ & _ & x & bound & t & head & t1 & Hx & Hbd & Ht & _ & Happ & ->).
    apply Start_Ok in Hx as (Hv & _ & _ & _ & _ & Hin & _).
    eapply effect_append; [done..|apply set_execution_same|]. simpl. intros y [= <-]. split; [done|right].
    rewrite (Bind_IDs _ _ _ Hbd), Hin. set_solver.
  - apply bind_Ok in H as ([x' s] & H & [= <-]).
    apply tstore_Claim_Ok in H as (_ & t & x & Ht & Hx & (Hv & _ & _ & Heq)%Claim_Ok & ->).
    apply effect_set_execution; [done..|]. eapply execution_input; [done..|]. by rewrite Heq.
  - apply bind_Ok in H as ([x' s] & H & [= <-]).
    apply tstore_Renew_Ok in H as (_ & t & x & Ht & Hx & (Hv & _ & _ & Heq)%Renew_Ok & ->).
    apply effect_set_execution; [done..|]. eapply execution_input; [done..|]. by rewrite Heq.
  - apply bind_Ok in H as ([m s] & H & [= <-]).
    apply tstore_Commit_Ok in H as (_ & entries & t & x & x' & t1 & _ & Ht & _ & Hx & Hcm & Happ & -> & _).
    apply Commit_Ok in Hcm as (Hv & _ & _ & Hin & _). by eapply effect_maybe_append.
  - apply bind_Ok in H as ([[m ch] s] & H & [= <-]).
    apply tstore_Cancel_Ok in H as (_ & entries & t & x & x' & _ & Ht & Hx & [_ Hcc]%Cancel_Ok & Hst).
    destruct ch; [|subst s; split; [done|apply extends_refl]].
    destruct Hst as (t1 & Happ & ->), Hcc as (Hv & _ & ->). by eapply effect_maybe_append.
  - split; [by eapply wf_delete|]. unfold tstore_Delete in H. apply bind_Ok in H as (_ & _ & H).
    apply bind_Ok in H as (t & [_ Ht]%trajectoryLocked_Ok & H). destruct (active_execution t); [done|].
    destruct (List.find _ _); [done|]. injection H as <-. intros i u u' Hu; simpl; intros [_ Hu']%lookup_delete_Some.
    assert (u = u') as <- by congruence. apply grows_refl.
Qed.

Lemma tstore_exec_ok st c : tstore_wf st → call_ok c.2 → tstore_wf (tstore_exec st c) ∧ extends st (tstore_exec st c).
Proof.
  intros Hwf Hc. unfold tstore_exec. destruct (tstore_do st c.1 c.2) eqn:E; simpl; [by eapply tstore_do_ok|].
  split; [done|apply extends_refl].
Qed.

Lemma wf_empty : tstore_wf newMemoryTrajectoryStore.
Proof.
  exists []. split; [split|]; simpl; try done; intros *; rewrite ?lookup_empty; try done.
  - split; [by intros ?%not_elem_of_nil|by intros []].
  - by intros ?%not_elem_of_nil.
Qed.

Lemma tstore_run_wf st calls : tstore_wf st → calls_ok calls → tstore_wf (tstore_run st calls).
Proof.
  intros Hwf Hcs. revert st Hwf. induction Hcs as [|c calls Hc _ IH]; intros st Hwf; [done|].
  apply IH, tstore_exec_ok; done.
Qed.

#[export] Hint Resolve wf_empty tstore_run_wf : execution.
