(* ===== verification/TrajectoryProperties.v ===== *)
(** The properties of the trajectory store, for every run of calls from an empty store: branches are
    readable paths with correct depths, the cached checkpoint is the latest one, history is immutable
    under forks, appends are conditional on the head, and executions are fenced. *)

From S2P Require Import Prelude GoText Names Paging Message Trajectory TrajectoryBranch.
From S2P Require Import TrajectoryStore TrajectoryInvariant TrajectoryHistory.

(** ** Paths *)

(** [linked p d b]: the entries of [b] form a path below [p], at depths [d], [d + 1] and so on. *)
Fixpoint linked (parent : string) (depth : Z) (b : list TrajectoryEntry) : Prop :=
  match b with
  | [] => True
  | e :: b => te_ParentID e = parent ∧ te_Depth e = u64 depth ∧ linked (te_ID e) (depth + 1) b
  end.

Definition tip (b : list TrajectoryEntry) : string :=
  match last b with Some e => te_ID e | None => "" end.

Lemma linked_snoc p d b e :
  linked p d b → te_ParentID e = match last b with Some x => te_ID x | None => p end →
  te_Depth e = u64 (d + Z.of_nat (length b)) → linked p d (b ++ [e]).
Proof.
  revert p d. induction b as [|x b IH]; intros p d Hb Hp Hd; simpl in *.
  - split_and!; [done|rewrite Hd; f_equal; lia|done].
  - destruct Hb as (? & ? & Hb). split_and!; [done..|]. apply IH; [done| |rewrite Hd; f_equal; lia].
    rewrite Hp. rewrite last_cons. by destruct (last b).
Qed.

Section wf.
Context (st : memoryTrajectoryStore) (l : list string) (Hb : base_wf st l).
Context (Hall : ∀ id t, trajectories st !! id = Some t → traj_wf st id t).

(** An entry that a fork inherits has its branch in the parent. *)
Lemma inherited_chain id t c e k :
  trajectories st !! id = Some t → mt_entries t !! c = None → chain (entryLocked st id) c (e :: k) →
  parent_of t ≠ "" ∧ chain (entryLocked st (parent_of t)) c (e :: k).
Proof using Hb Hall.
  intros Ht Hno Hch. inversion Hch as [|? ? ? Hne He _]; subst.
  destruct (decide (parent_of t = "")) as [Hp|Hp].
  { by rewrite (entryLocked_own _ _ Hb _ _ _ Ht Hp), Hno in He. }
  split; [done|]. destruct (tw_fork _ _ _ (Hall _ _ Ht) Hp) as (kf & Hkf & _).
  rewrite (entryLocked_fork _ _ Hb _ _ _ _ Ht Hp Hkf), Hno in He. injection He as He.
  apply find_ID_Some in He as [Hin Hid]. apply list_elem_of_split in Hin as (k1 & k2 & ->).
  pose proof (chain_suffix _ (entryLocked_ids _ _ Hb _) _ _ _ _ Hkf) as Hsuf. rewrite Hid in Hsuf.
  assert (chain (entryLocked st id) c (e :: k2)) as Hch2
    by (eapply fork_chain; [done..| |done]; intros x Hx; set_solver).
  by rewrite (chain_det _ _ _ _ Hch Hch2).
Qed.

Lemma chain_depth_in ids id c e k :
  lineage st ids → (∀ i, i ∈ ids → i ∈ l) → id ∈ ids → chain (entryLocked st id) c (e :: k) →
  te_Depth e = u64 (Z.of_nat (length k) + 1).
Proof using Hb Hall.
  revert id c e k. induction ids as [|a ids IH]; intros id c e k Hlin Hsub Hid Hch; [by apply not_elem_of_nil in Hid|].
  destruct Hlin as (_ & Hpar & Hlin).
  apply elem_of_cons in Hid as [->|Hid]; [|by eapply IH; [|intros; apply Hsub; set_solver|..]].
  destruct (proj1 (bw_domain _ _ Hb a)) as [t Ht]; [apply Hsub; set_solver|].
  revert c e Hch. induction k as [|p k IHk]; intros c e Hch.
  all: destruct (mt_entries t !! c) as [e'|] eqn:Eo;
    [|destruct (inherited_chain _ _ _ _ _ Ht Eo Hch) as [Hne Hpc]; destruct (Hpar t Ht) as [?|Hin]; [done|];
      by eapply IH; [|intros; apply Hsub; set_solver|..]].
  all: assert (e' = e) as ->
    by (inversion Hch as [|? ? ? _ He _]; subst; rewrite (entryLocked_eq _ _ Hb _ _ _ Ht), Eo in He; congruence).
  all: destruct (tw_depth _ _ _ (Hall _ _ Ht) _ _ Eo) as [Hd0 Hd1];
    inversion Hch as [|? ? ? _ _ Hrest]; subst; inversion Hrest as [Hr|? ? ? Hpne Hp Hk]; subst.
  - by rewrite Hd0 by congruence.
  - rewrite (Hd1 p Hpne Hp), (IHk _ _ Hrest), u64_add_l. f_equal. cbn [length]. lia.
Qed.

Lemma chain_depth id t c e k :
  trajectories st !! id = Some t → chain (entryLocked st id) c (e :: k) →
  te_Depth e = u64 (Z.of_nat (length k) + 1).
Proof using Hb Hall.
  intros Ht. apply (chain_depth_in l); [apply Hb|done|]. apply (bw_domain _ _ Hb). eauto.
Qed.

Lemma chain_linked id t c k :
  trajectories st !! id = Some t → chain (entryLocked st id) c k →
  linked "" 1 (reverse k) ∧ tip (reverse k) = c.
Proof using Hb Hall.
  intros Ht Hch. induction Hch as [|c e k Hne He Hch IH]; [done|]. destruct IH as [Hl Htip].
  rewrite reverse_cons. unfold tip. rewrite last_snoc.
  split; [|by apply (entryLocked_ids _ _ Hb _) in He].
  apply linked_snoc; [done|by rewrite <-Htip; unfold tip; destruct (last (reverse k))|].
  rewrite (chain_depth id t c e k Ht) by (by constructor). rewrite length_reverse. f_equal. lia.
Qed.

Lemma LoadBranch_chain id t c k :
  trajectories st !! id = Some t → chain (entryLocked st id) c k →
  tstore_LoadBranch st None id c = Ok (reverse k).
Proof using Hb.
  intros Ht Hch. unfold tstore_LoadBranch, branchLocked. simpl.
  rewrite (proj2 (trajectoryLocked_Ok st id t)) by (split; [eapply bw_name; [done|by apply Hb; eauto]|done]).
  simpl. apply ResolveBranch_chain; [by eapply entryLocked_ids|done|by eapply chain_length].
Qed.

Lemma FindLatest_chain id t c k kind :
  trajectories st !! id = Some t → chain (entryLocked st id) c k → ValidateTrajectoryKind kind = Ok tt →
  tstore_FindLatest st None id c kind = Ok (findb (λ e, bool_decide (te_Kind e = kind)) k).
Proof using Hb.
  intros Ht Hch Hk. unfold tstore_FindLatest, findLatestLocked. simpl. rewrite Hk. simpl.
  rewrite (proj2 (trajectoryLocked_Ok st id t)) by (split; [eapply bw_name; [done|by apply Hb; eauto]|done]).
  simpl. apply LatestEntry_chain; [by eapply entryLocked_ids|done|by eapply chain_length].
Qed.

Lemma LoadMetadata_Ok id m :
  tstore_LoadMetadata st None id = Ok m → ∃ t, trajectories st !! id = Some t ∧ m = mt_metadata t.
Proof.
  unfold tstore_LoadMetadata. simpl. intros (t & [_ Ht]%trajectoryLocked_Ok & [= <-])%bind_Ok. eauto.
Qed.
End wf.

(** ** Loading a whole trajectory *)

Section load.
Context (st : memoryTrajectoryStore) (l : list string) (Hb : base_wf st l).
Context (Hall : ∀ id t, trajectories st !! id = Some t → traj_wf st id t).
Context (id : string) (t : memoryTrajectory) (Ht : trajectories st !! id = Some t).

Lemma own_entries_ids : te_ID <$> own_entries t = mt_order t.
Proof using Hb Hall Ht.
  destruct (tw_order _ _ _ (Hall _ _ Ht)) as [_ Hdom].
  assert (∀ c, c ∈ mt_order t → is_Some (mt_entries t !! c)) as Hin by (intros; by apply Hdom).
  unfold own_entries. clear Hdom. induction (mt_order t) as [|c k IH]; [done|]. cbn [omap list_omap].
  destruct (Hin c) as [e He]; [set_solver|]. rewrite He. rewrite fmap_cons, (bw_key _ _ Hb _ _ _ _ Ht He).
  f_equal. apply IH. intros. apply Hin. set_solver.
Qed.

Lemma elem_of_own_entries e : e ∈ own_entries t ↔ mt_entries t !! te_ID e = Some e.
Proof using Hb Hall Ht.
  unfold own_entries. rewrite list_elem_of_omap. split.
  - intros (c & _ & He). by rewrite (bw_key _ _ Hb _ _ _ _ Ht He).
  - intros He. exists (te_ID e). split; [|done]. apply (tw_order _ _ _ (Hall _ _ Ht)). by eexists.
Qed.

(** The inherited entries, root first. *)
Definition inherits (k : list TrajectoryEntry) : Prop :=
  (parent_of t = "" ∧ k = []) ∨ (parent_of t ≠ "" ∧ chain (entryLocked st (parent_of t)) (fork_of t) k).

Lemma load_entries_eq :
  ∃ k, inherits k ∧ mt_inheritedCount t = Z.of_nat (length k) ∧
       (∀ x, x ∈ k → mt_entries t !! te_ID x = None) ∧
       tstore_Load st None id = Ok (with_entries (mt_trajectory t) (reverse k ++ own_entries t)).
Proof using Hb Hall Ht.
  unfold tstore_Load, materializeLocked. simpl.
  rewrite (proj2 (trajectoryLocked_Ok st id t)) by (split; [eapply bw_name; [done|by apply Hb; eauto]|done]).
  cbn [result_bind]. destruct (decide (parent_of t = "")) as [Hp|Hp].
  - exists []. destruct (tw_root _ _ _ (Hall _ _ Ht) Hp) as [Hc _].
    rewrite (proj2 (is_empty_true _) Hp), andb_false_r. split_and!; [by left|done|set_solver|done].
  - destruct (tw_fork _ _ _ (Hall _ _ Ht) Hp) as (k & Hk & _ & Hn & Hsh). exists k.
    destruct (parent_survives st l Hb _ _ Ht Hp) as [tp Htp].
    pose proof (LoadBranch_chain st l Hb _ _ _ _ Htp Hk) as Hbr. unfold tstore_LoadBranch in Hbr. simpl in Hbr.
    rewrite (proj2 (is_empty_false _) Hp), (proj2 (Z.leb_le _ _)) by (by apply (bw_schema _ _ Hb _ _ Ht)).
    rewrite Hbr. split_and!; [by right|done..].
Qed.

Lemma inherits_NoDup k : inherits k → NoDup (te_ID <$> k).
Proof using Hb. intros [[_ ->]|[_ Hk]]; [constructor|]. eapply chain_NoDup; [by eapply entryLocked_ids|done]. Qed.

Lemma load_NoDup k :
  inherits k → (∀ x, x ∈ k → mt_entries t !! te_ID x = None) → NoDup (te_ID <$> reverse k ++ own_entries t).
Proof using Hb Hall Ht.
  intros Hk Hsh. rewrite fmap_app, own_entries_ids, fmap_reverse. apply NoDup_app. split_and!.
  - rewrite reverse_Permutation. by apply inherits_NoDup.
  - intros c Hc Ho. apply elem_of_reverse, list_elem_of_fmap in Hc as (x & -> & Hx).
    apply (tw_order _ _ _ (Hall _ _ Ht)) in Ho as [e He]. by rewrite Hsh in He.
  - apply (tw_order _ _ _ (Hall _ _ Ht)).
Qed.

Lemma load_lookup k x :
  inherits k → (∀ y, y ∈ k → mt_entries t !! te_ID y = None) →
  entryLocked st id x = Ok (entry_index (reverse k ++ own_entries t) !! x).
Proof using Hb Hall Ht.
  intros Hk Hsh. pose proof (load_NoDup _ Hk Hsh) as Hnd.
  assert (entryLocked st id x = Ok (match mt_entries t !! x with
            | Some e => Some e | None => findb (λ e, bool_decide (te_ID e = x)) k end)) as ->.
  { destruct Hk as [[Hp ->]|[Hp Hk]].
    - rewrite (entryLocked_own _ _ Hb _ _ _ Ht Hp). by destruct (mt_entries t !! x).
    - rewrite (entryLocked_fork _ _ Hb _ _ _ _ Ht Hp Hk). by destruct (mt_entries t !! x). }
  f_equal. destruct (mt_entries t !! x) as [e|] eqn:Eo.
  { pose proof (bw_key _ _ Hb _ _ _ _ Ht Eo) as <-. symmetry. apply entry_index_elem; [done|].
    apply elem_of_app. right. by apply elem_of_own_entries. }
  destruct (findb _ k) as [e|] eqn:Ef.
  { apply find_ID_Some in Ef as [Hin <-]. symmetry. apply entry_index_elem; [done|].
    apply elem_of_app. left. by apply elem_of_reverse. }
  destruct (entry_index _ !! x) as [e|] eqn:Ei; [|done]. apply entry_index_inv in Ei as [Hin Hid].
  apply elem_of_app in Hin as [Hin|Hin%elem_of_own_entries]; [|congruence].
  rewrite elem_of_reverse in Hin. rewrite find_ID_None in Ef. by destruct (Ef e Hin).
Qed.
End load.

(** ** A concrete run

    A trajectory with two entries, a fork at the first one, and an execution on the fork. *)

Definition ex_fields : TrajectoryEntryFields :=
  {| tf_Turn := None; tf_ExecutionID := ""; tf_OperationKey := ""; tf_CorrelationID := ""; tf_Provider := "";
     tf_Model := ""; tf_ToolName := ""; tf_ToolCallID := ""; tf_FinishReason := ""; tf_InputTokens := 0;
     tf_OutputTokens := 0; tf_IsError := None; tf_CauseCode := ""; tf_ActionKind := "" |}.

Definition ex_entry (id parent : string) (kind : TrajectoryKind) : TrajectoryEntry :=
  {| te_ID := id; te_TrajectoryID := ""; te_ParentID := parent; te_Ordinal := 0; te_Depth := 0; te_Kind := kind;
     te_Timestamp := 0; te_Generation := 0; te_Fields := ex_fields; te_Audit := []; te_PayloadVersion := 0;
     te_Payload := "{}"; te_Attributes := ∅ |}.

Definition ex_trajectory (id parent entry : string) : Trajectory :=
  {| tj_SchemaVersion := 0; tj_ID := id; tj_ParentID := parent; tj_ParentEntryID := entry; tj_CreatedAt := 0;
     tj_UpdatedAt := 0; tj_Head := ""; tj_Checkpoint := ""; tj_Execution := None;
     tj_Environment := zeroEnvironment; tj_Entries := [] |}.

Definition ex_start : TrajectoryExecutionStart :=
  {| es_ID := "x1"; es_Provider := "p"; es_System := "s"; es_MaxTurns := 5 |}.

Definition ex_clock (i : nat) : time := 10 + Z.of_nat i.

Definition ex_setup : list (context * tstore_call) :=
  [ (None, CallCreate (ex_trajectory "main" "" "") 1);
    (None, CallAppend "main" "" [ex_entry "e1" "" TrajectoryKindUserMessage;
                                 ex_entry "e2" "e1" TrajectoryKindCheckpoint] ex_clock);
    (None, CallCreate (ex_trajectory "fork" "main" "e2") 2);
    (None, CallBegin "fork" "e2" ex_start (ex_entry "f1" "e2" TrajectoryKindUserMessage) 3 ex_clock) ].

Definition ex_store : memoryTrajectoryStore := tstore_run newMemoryTrajectoryStore ex_setup.

Lemma ex_setup_ok : calls_ok ex_setup.
Proof. repeat constructor; simpl; auto. Qed.

Lemma ex_fork_metadata m :
  tstore_LoadMetadata ex_store None "fork" = Ok m → tm_Head m = "f1" ∧ tm_Checkpoint m = "e2".
Proof. intros Hm. vm_compute in Hm. injection Hm as <-. split; reflexivity. Qed.

(** Each call of the run succeeds. *)
Example ex_setup_runs :
  (length <$> match tstore_LoadBranch ex_store None "fork" "f1" with Ok b => Some b | Err _ => None end,
   result_ok (tstore_LoadMetadata ex_store None "main")) = (Some 3%nat, true).
Proof. vm_compute. reflexivity. Qed.

(** ** Reading *)

(** The branch of the head of every trajectory, and of every entry it can see, is read without an
    error: it is a path from a root entry to that entry, in which each entry is at its depth. *)
Theorem tstore_branches_readable calls id m :
  calls_ok calls → let st := tstore_run newMemoryTrajectoryStore calls in
  tstore_LoadMetadata st None id = Ok m →
  (∃ b, tstore_LoadBranch st None id (tm_Head m) = Ok b ∧ linked "" 1 b ∧ tip b = tm_Head m) ∧
  (∀ c e, tstore_LoadEntry st None id c = Ok e →
     ∃ b, tstore_LoadBranch st None id c = Ok (b ++ [e]) ∧ linked "" 1 (b ++ [e]) ∧ te_ID e = c).
Proof.
  intros Hc st (t & Ht & ->)%LoadMetadata_Ok.
  destruct (tstore_run_wf _ _ wf_empty Hc) as (l & Hb & Hall). fold st in Hb, Hall. split.
  - destruct (tw_head _ _ _ (Hall _ _ Ht)) as (k & Hk & _). exists (reverse k).
    split; [by eapply LoadBranch_chain|by eapply chain_linked].
  - intros c e He. unfold tstore_LoadEntry in He. simpl in He.
    apply bind_Ok in He as (? & Hv%ValidateResourceName_Ok & He). apply bind_Ok in He as ([e'|] & He & H); [|done].
    injection H as ->. destruct (entryLocked_closed _ _ Hb Hall _ _ Ht c e) as [k Hk]; [by apply valid_name_nonempty|done|].
    exists (reverse k). rewrite <-reverse_cons.
    split_and!; [by eapply LoadBranch_chain|by eapply chain_linked|by eapply entryLocked_ids].
Qed.

Lemma tstore_branches_readable_witness :
  calls_ok ex_setup ∧ ∃ b, tstore_LoadBranch ex_store None "fork" "f1" = Ok b ∧ linked "" 1 b ∧ tip b = "f1".
Proof.
  split; [apply ex_setup_ok|].
  destruct (tstore_LoadMetadata ex_store None "fork") as [m|] eqn:Hm; [|vm_compute in Hm; discriminate Hm].
  destruct (tstore_branches_readable ex_setup "fork" m ex_setup_ok Hm) as [H _].
  rewrite (proj1 (ex_fork_metadata m Hm)) in H. exact H.
Defined.

(** The checkpoint that a trajectory caches is the latest checkpoint entry on the branch of its
    head: the one [FindLatest] finds by walking, and the one [LoadBranchView] computes. *)
Theorem tstore_checkpoint_current calls id m :
  calls_ok calls → let st := tstore_run newMemoryTrajectoryStore calls in
  tstore_LoadMetadata st None id = Ok m →
  ∃ latest view,
    tstore_FindLatest st None id (tm_Head m) TrajectoryKindCheckpoint = Ok latest ∧
    tm_Checkpoint m = match latest with Some e => te_ID e | None => "" end ∧
    tstore_LoadBranchView st None id (tm_Head m) = Ok view ∧ tj_Checkpoint view = tm_Checkpoint m.
Proof.
  intros Hc st (t & Ht & ->)%LoadMetadata_Ok.
  destruct (tstore_run_wf _ _ wf_empty Hc) as (l & Hb & Hall). fold st in Hb, Hall.
  destruct (tw_head _ _ _ (Hall _ _ Ht)) as (k & Hk & Hck).
  eexists _, (ProjectTrajectoryBranch (mt_metadata t) (tj_Head (mt_trajectory t)) (reverse k)).
  split_and!; [by eapply FindLatest_chain|done| |].
  - unfold tstore_LoadBranchView. simpl.
    rewrite (proj2 (trajectoryLocked_Ok st id t)) by (split; [eapply bw_name; [done|by apply Hb; eauto]|done]).
    simpl. pose proof (LoadBranch_chain _ _ Hb _ _ _ _ Ht Hk) as Hbr. unfold tstore_LoadBranch in Hbr.
    simpl in Hbr. by rewrite Hbr.
  - simpl. rewrite Hck. unfold FindLatestInBranch. by rewrite reverse_involutive.
Qed.

Lemma tstore_checkpoint_current_witness :
  ∃ m latest view, tstore_LoadMetadata ex_store None "fork" = Ok m ∧ tm_Checkpoint m = "e2" ∧
    tstore_FindLatest ex_store None "fork" (tm_Head m) TrajectoryKindCheckpoint = Ok latest ∧
    tm_Checkpoint m = match latest with Some e => te_ID e | None => "" end ∧
    tstore_LoadBranchView ex_store None "fork" (tm_Head m) = Ok view.
Proof.
  destruct (tstore_LoadMetadata ex_store None "fork") as [m|] eqn:Hm; [|vm_compute in Hm; discriminate Hm].
  destruct (tstore_checkpoint_current ex_setup "fork" m ex_setup_ok Hm) as (latest & view & ? & ? & ? & _).
  exists m, latest, view. split_and!; try assumption; [reflexivity|apply (ex_fork_metadata m Hm)].
Defined.

Lemma entry_index_ids ps : lookup_ids (λ c, Ok (entry_index ps !! c)).
Proof. intros c e [= He]. by apply entry_index_inv in He as [_ ?]. Qed.

Lemma chain_index_length ps c k : chain (λ c, Ok (entry_index ps !! c)) c k → (length k ≤ size (entry_index ps))%nat.
Proof.
  intros Hch. pose proof (chain_NoDup _ (entry_index_ids ps) _ _ Hch) as Hnd.
  assert ((list_to_set (te_ID <$> k) : gset string) ⊆ dom (entry_index ps)) as Hsub.
  { intros x (e & -> & He)%elem_of_list_to_set%list_elem_of_fmap.
    destruct (chain_found _ (entry_index_ids ps) _ _ _ Hch He) as [[= Hlk] _]. by eapply elem_of_dom_2. }
  apply subseteq_size in Hsub. rewrite size_list_to_set, length_fmap, size_dom in Hsub by done. done.
Qed.

(** [Trajectory.Branch] on a chain of the loaded entries. *)
Lemma Trajectory_Branch_chain trajectory c k :
  chain (λ c, Ok (entry_index (tj_Entries trajectory) !! c)) c k → Trajectory_Branch trajectory c = Ok (reverse k).
Proof.
  intros Hch. unfold Trajectory_Branch. destruct (is_empty c) eqn:Ec.
  { apply is_empty_true in Ec as ->. inversion Hch; subst; done. }
  rewrite (walk_loop_chain _ (entry_index_ids _) _ _ _ _ _ k); [|done|set_solver|apply chain_index_length in Hch; lia].
  simpl. do 2 f_equal. assert (∀ acc, visit_all (λ _ entry result, (result ++ [entry], true)) k acc = acc ++ k) as Hv;
    [|by rewrite Hv].
  clear. induction k as [|e k IH]; intros acc; simpl; [by rewrite app_nil_r|]. by rewrite IH, <-app_assoc.
Qed.

(** Loading a trajectory whole succeeds: it returns every entry the trajectory can see exactly
    once, as many as its metadata counts, and the branches that [Trajectory.Branch] computes from the
    loaded copy are the ones the store reads entry by entry. *)
Theorem tstore_load_complete calls id m :
  calls_ok calls → let st := tstore_run newMemoryTrajectoryStore calls in
  tstore_LoadMetadata st None id = Ok m →
  ∃ trajectory, tstore_Load st None id = Ok trajectory ∧
    NoDup (te_ID <$> tj_Entries trajectory) ∧ Z.of_nat (length (tj_Entries trajectory)) = tm_EntryCount m ∧
    (∀ e, valid_name (te_ID e) → e ∈ tj_Entries trajectory ↔ tstore_LoadEntry st None id (te_ID e) = Ok e) ∧
    (∀ c b, tstore_LoadBranch st None id c = Ok b → Trajectory_Branch trajectory c = Ok b).
Proof.
  intros Hc st (t & Ht & ->)%LoadMetadata_Ok.
  destruct (tstore_run_wf _ _ wf_empty Hc) as (l & Hb & Hall). fold st in Hb, Hall.
  destruct (load_entries_eq st l Hb Hall id t Ht) as (k & Hk & Hcount & Hsh & Hload).
  pose proof (load_NoDup st l Hb Hall id t Ht k Hk Hsh) as Hnd.
  pose proof (λ x, load_lookup st l Hb Hall id t Ht k x Hk Hsh) as Hlk.
  eexists. split; [exact Hload|]. simpl. split_and!.
  - done.
  - rewrite Hcount, length_app, length_reverse, <-(own_entries_ids st l Hb Hall id t Ht), length_fmap. lia.
  - intros e Hv. unfold tstore_LoadEntry. simpl. rewrite (proj2 (ValidateResourceName_Ok _ _ tt) Hv). simpl.
    rewrite Hlk. simpl. split.
    + intros Hin. by rewrite entry_index_elem.
    + destruct (entry_index _ !! te_ID e) as [e'|] eqn:E; [|done]. intros [= <-]. by apply entry_index_inv in E as [? _].
  - intros c b Hbr. unfold tstore_LoadBranch in Hbr. simpl in Hbr.
    apply (branchLocked_chain _ _ _ _ _ Hb Hall) in Hbr as (_ & kc & Hkc & ->).
    apply Trajectory_Branch_chain. simpl. eapply chain_mono; [|done]. intros x e He. by rewrite <-Hlk.
Qed.

Lemma tstore_load_complete_witness :
  ∃ trajectory, tstore_Load ex_store None "fork" = Ok trajectory ∧ NoDup (te_ID <$> tj_Entries trajectory) ∧
    (∀ c b, tstore_LoadBranch ex_store None "fork" c = Ok b → Trajectory_Branch trajectory c = Ok b).
Proof.
  destruct (tstore_LoadMetadata ex_store None "fork") as [m|] eqn:Hm; [|vm_compute in Hm; discriminate Hm].
  destruct (tstore_load_complete ex_setup "fork" m ex_setup_ok Hm) as (tr & ? & ? & _ & _ & ?).
  exists tr. split_and!; assumption.
Defined.

(** ** History *)

Lemma exec_keeps st c id :
  c.2 ≠ CallDelete id → is_Some (trajectories st !! id) → is_Some (trajectories (tstore_exec st c) !! id).
Proof.
  intros Hc Hs. unfold tstore_exec. destruct (tstore_do st c.1 c.2) as [st'|] eqn:E; [|done]. simpl.
  assert (∀ i t, is_Some (trajectories (put st i t) !! id)) as Hput by (intros; rewrite put_lookup; by case_decide).
  destruct c as [ctx c]. simpl in *. destruct c; cbn [tstore_do] in E.
  - unfold tstore_Create in E. repeat inv_ok_step. apply Hput.
  - apply bind_Ok in E as ([a s] & H & [= <-]). apply tstore_Append_Ok in H as (_ & t & t1 & _ & _ & _ & ->). apply Hput.
  - apply bind_Ok in E as ([a s] & H & [= <-]).
    apply tstore_Begin_Ok in H as (_ & _ & x & b & t & h & t1 & _ & _ & _ & _ & _ & ->). apply Hput.
  - apply bind_Ok in E as ([a s] & H & [= <-]). apply tstore_Claim_Ok in H as (_ & t & x & _ & _ & _ & ->). apply Hput.
  - apply bind_Ok in E as ([a s] & H & [= <-]). apply tstore_Renew_Ok in H as (_ & t & x & _ & _ & _ & ->). apply Hput.
  - apply bind_Ok in E as ([a s] & H & [= <-]).
    apply tstore_Commit_Ok in H as (_ & en & t & x & x' & t1 & _ & _ & _ & _ & _ & _ & -> & _). apply Hput.
  - apply bind_Ok in E as ([[a ch] s] & H & [= <-]).
    apply tstore_Cancel_Ok in H as (_ & en & t & x & x' & _ & _ & _ & _ & H).
    destruct ch; [destruct H as (t1 & _ & ->); apply Hput|by subst].
  - unfold tstore_Delete in E. repeat inv_ok_step. simpl.
    by rewrite lookup_delete_ne by congruence.
Qed.

Lemma run_chain st calls id c k :
  tstore_wf st → calls_ok calls → Forall (λ c, c.2 ≠ CallDelete id) calls → is_Some (trajectories st !! id) →
  chain (entryLocked st id) c k →
  is_Some (trajectories (tstore_run st calls) !! id) ∧ chain (entryLocked (tstore_run st calls) id) c k.
Proof.
  intros Hwf Hok. revert st Hwf. induction Hok as [|a calls Ha _ IH]; intros st Hwf Hnd Hs Hk; [done|].
  apply Forall_cons in Hnd as [Hna Hnd]. destruct (tstore_exec_ok _ _ Hwf Ha) as [Hwf' Hext].
  pose proof (exec_keeps _ _ _ Hna Hs) as Hs'. apply (IH _ Hwf' Hnd Hs').
  destruct Hwf as (l & Hb & Hall), Hwf' as (l' & Hb' & _).
  by apply (extends_chain st (tstore_exec st a) l l' Hb Hall Hb' Hext).
Qed.

(** C3. History is immutable: on a store whose forks declare no legacy schema version (0, which stands for the current
    one, or at least 2; [calls_ok]), a branch that a trajectory can read stays readable with the same entries
    through every later call on any trajectory, until the trajectory itself is deleted.  In particular a fork
    keeps the snapshot of its parent, whatever is appended to the parent. *)
Theorem tstore_history_immutable before after id c b :
  calls_ok before → calls_ok after → Forall (λ call, call.2 ≠ CallDelete id) after →
  let st := tstore_run newMemoryTrajectoryStore before in
  tstore_LoadBranch st None id c = Ok b → tstore_LoadBranch (tstore_run st after) None id c = Ok b.
Proof.
  intros Hb1 Hb2 Hnd st Hbr. pose proof (tstore_run_wf _ _ wf_empty Hb1) as Hwf. fold st in Hwf.
  pose proof Hwf as (l & Hb & Hall). unfold tstore_LoadBranch in Hbr. simpl in Hbr.
  apply (branchLocked_chain _ _ _ _ _ Hb Hall) in Hbr as (Hs & k & Hk & ->).
  destruct (run_chain _ _ _ _ _ Hwf Hb2 Hnd Hs Hk) as [[t Ht] Hk'].
  destruct (tstore_run_wf _ _ Hwf Hb2) as (l' & Hbb & _). by eapply LoadBranch_chain.
Qed.

Definition ex_later : list (context * tstore_call) :=
  [ (None, CallAppend "main" "e2" [ex_entry "e3" "e2" TrajectoryKindUserMessage] ex_clock);
    (None, CallDelete "main") ].

Lemma tstore_history_immutable_witness :
  ∃ b, length b = 3%nat ∧ tstore_LoadBranch ex_store None "fork" "f1" = Ok b ∧
       tstore_LoadBranch (tstore_run ex_store ex_later) None "fork" "f1" = Ok b.
Proof.
  destruct (tstore_LoadBranch ex_store None "fork" "f1") as [b|] eqn:Hm; [|vm_compute in Hm; discriminate Hm].
  exists b. split_and!; [vm_compute in Hm; injection Hm as <-; reflexivity|reflexivity|].
  apply (tstore_history_immutable ex_setup ex_later "fork" "f1" b ex_setup_ok); [| |exact Hm].
  - repeat constructor.
  - repeat constructor; discriminate.
Defined.

(** ** Appending *)

Lemma own_entries_app t ps t2 :
  (∀ c, c ∈ mt_order t → entry_index ps !! c = None) → NoDup (te_ID <$> ps) →
  mt_entries t2 = foldl (λ index entry, <[te_ID entry := entry]> index) (mt_entries t) ps →
  mt_order t2 = mt_order t ++ (te_ID <$> ps) → own_entries t2 = own_entries t ++ ps.
Proof.
  intros Hold Hnd He Ho. unfold own_entries. rewrite Ho, omap_app. f_equal.
  - clear Ho. induction (mt_order t) as [|c k IH]; [done|]. cbn [omap list_omap].
    rewrite He, insert_entries_lookup, Hold by set_solver. rewrite <-He.
    rewrite IH by (intros; apply Hold; set_solver). done.
  - assert (∀ p, p ∈ ps → mt_entries t2 !! te_ID p = Some p) as Hin.
    { intros p Hp. by rewrite He, insert_entries_lookup, entry_index_elem. }
    clear -Hin. induction ps as [|p ps IH]; [done|]. rewrite fmap_cons. cbn [omap list_omap].
    rewrite Hin by set_solver. f_equal. apply IH. intros. apply Hin. set_solver.
Qed.

(** A later store inherits the same entries. *)
Lemma inherits_same st id t t2 k k' :
  tstore_wf st → trajectories st !! id = Some t → tstore_wf (put st id t2) → extends st (put st id t2) →
  parent_of t2 = parent_of t → fork_of t2 = fork_of t → inherits st t k → inherits (put st id t2) t2 k' → k' = k.
Proof.
  intros (l & Hb & Hall) Ht (l' & Hb' & _) Hext Hpp Hff Hk Hk'.
  destruct Hk as [[Hp ->]|[Hp Hk]], Hk' as [[Hp' ->]|[Hp' Hk']]; rewrite Hpp in Hp'; try done.
  rewrite Hpp, Hff in Hk'. eapply chain_det; [done|].
  assert (is_Some (trajectories st !! parent_of t)) as Hs by (by eapply parent_survives).
  eapply (extends_chain st _ l l' Hb Hall Hb' Hext); [done| |done]. rewrite put_lookup. by case_decide.
Qed.

(** What [Load] returns after the execution was set. *)
Lemma load_after_set st id t x updated old :
  tstore_wf st → trajectories st !! id = Some t →
  tstore_wf (put st id (set_execution t x updated)) → extends st (put st id (set_execution t x updated)) →
  tstore_Load st None id = Ok old →
  ∃ new, tstore_Load (put st id (set_execution t x updated)) None id = Ok new ∧
    tj_Entries new = tj_Entries old ∧ tj_Head new = tj_Head old ∧ tj_Execution new = Some x.
Proof.
  intros Hwf Ht Hwf' Hext Hold. set (t2 := set_execution t x updated) in *.
  pose proof Hwf as (l & Hb & Hall). pose proof Hwf' as (l' & Hb' & Hall').
  assert (trajectories (put st id t2) !! id = Some t2) as Ht2 by (by rewrite put_lookup, decide_True).
  destruct (load_entries_eq st l Hb Hall id t Ht) as (k & Hk & _ & _ & Hload).
  destruct (load_entries_eq _ l' Hb' Hall' id t2 Ht2) as (k' & Hk' & _ & _ & Hload').
  rewrite Hold in Hload. injection Hload as ->. eexists. split; [exact Hload'|]. simpl.
  by rewrite (inherits_same st id t t2 k k').
Qed.

(** What [Load] returns after entries were appended and the execution was set. *)
Lemma load_after_append st id t expectedHead entries clock head t1 t2 :
  tstore_wf st → trajectories st !! id = Some t →
  appendLocked st t id expectedHead entries clock = Ok (head, t1) → same_entries t1 t2 →
  tstore_wf (put st id t2) → extends st (put st id t2) →
  ∃ old new ps, tstore_Load st None id = Ok old ∧ tstore_Load (put st id t2) None id = Ok new ∧
    tj_Head old = expectedHead ∧ tj_Entries new = tj_Entries old ++ ps ∧ Forall2 prepared_from entries ps ∧
    tj_Head new = head ∧ tip ps = head ∧ head ≠ "" ∧ tj_Execution new = tj_Execution (mt_trajectory t2).
Proof.
  intros Hwf Ht Happ Hsame Hwf' Hext. pose proof Hwf as (l & Hb & Hall). pose proof Hwf' as (l' & Hb' & Hall').
  assert (trajectories (put st id t2) !! id = Some t2) as Ht2 by (by rewrite put_lookup, decide_True).
  destruct (load_entries_eq st l Hb Hall id t Ht) as (k & Hk & _ & _ & Hload).
  destruct (load_entries_eq _ l' Hb' Hall' id t2 Ht2) as (k' & Hk' & _ & _ & Hload').
  destruct (appendLocked_Ok _ _ _ _ _ _ _ _ _ Hb Hall Ht Happ) as
    (ps & p & kh & Hhd & Hlast & -> & Hok & Hfrom & Hnd & _ & _ & ->).
  destruct Hsame as (updated & execution & Hmt & He2 & Ho2 & _). simpl in Hmt, He2, Ho2.
  assert (k' = k) as -> by (eapply (inherits_same st id t t2); [done..| | |done|done]; by rewrite Hmt).
  eexists _, _, ps. split_and!; [exact Hload|exact Hload'|done| |done| | | |done].
  - simpl. rewrite (own_entries_app t ps t2); [by rewrite app_assoc| |done..].
    intros c Hc. apply (tw_order _ _ _ (Hall _ _ Ht)) in Hc. apply eq_None_not_Some. intros Hi.
    rewrite (append_not_own st l Hb id t Ht ps Hok c Hi) in Hc. by destruct Hc.
  - simpl. by rewrite Hmt.
  - unfold tip. by rewrite Hlast.
  - assert (p ∈ ps) as Hp by (apply last_Some in Hlast as [ps' ->]; set_solver).
    destruct (prepared_id _ _ _ Hok _ _ (entry_index_elem _ _ Hnd Hp)) as (_ & Hv & _). by apply valid_name_nonempty.
Qed.

Lemma put_metadata st id t2 i :
  i ≠ id → tstore_LoadMetadata (put st id t2) None i = tstore_LoadMetadata st None i.
Proof.
  intros Hne. unfold tstore_LoadMetadata, trajectoryLocked. simpl. by rewrite lookup_insert_ne by congruence.
Qed.

(** A successful [Append] was made at the current head, outside any active execution; it adds
    exactly the given entries, in order, after those already there, moves the head to the last of
    them, and touches no other trajectory. *)
Theorem tstore_append_spec calls id expectedHead entries clock head st' :
  calls_ok calls → let st := tstore_run newMemoryTrajectoryStore calls in
  tstore_Append st None id expectedHead entries clock = Ok (head, st') →
  (∃ old new ps, tstore_Load st None id = Ok old ∧ tstore_Load st' None id = Ok new ∧
    tj_Head old = expectedHead ∧ tj_Entries new = tj_Entries old ++ ps ∧ Forall2 prepared_from entries ps ∧
    tj_Head new = head ∧ tip ps = head ∧ tj_Execution new = tj_Execution old ∧
    (∀ x, tj_Execution old = Some x → Execution_Terminal x = true)) ∧
  ∀ i, i ≠ id → tstore_LoadMetadata st' None i = tstore_LoadMetadata st None i.
Proof.
  intros Hc st H. pose proof (tstore_run_wf _ _ wf_empty Hc) as Hwf. fold st in Hwf.
  assert (tstore_do st None (CallAppend id expectedHead entries clock) = Ok st') as Hdo by (cbn [tstore_do]; by rewrite H).
  destruct (tstore_do_ok _ _ (CallAppend id expectedHead entries clock) _ Hwf I Hdo) as [Hwf' Hext].
  apply tstore_Append_Ok in H as (_ & t & t1 & Ht & Hact & Happ & ->).
  destruct (load_after_append _ _ _ _ _ _ _ _ _ Hwf Ht Happ (same_entries_refl t1) Hwf' Hext) as
    (old & new & ps & Hold & Hnew & ? & ? & ? & ? & ? & _ & Hex).
  split; [|intros; by apply put_metadata]. exists old, new, ps.
  pose proof Hwf as (l & Hb & Hall). destruct (load_entries_eq st l Hb Hall id t Ht) as (k & _ & _ & _ & Hold').
  rewrite Hold in Hold'. injection Hold' as ->.
  destruct (appendLocked_Ok _ _ _ _ _ _ _ _ _ Hb Hall Ht Happ) as (? & ? & ? & _ & _ & _ & _ & _ & _ & _ & _ & ->).
  split_and!; try done. simpl. intros y Hy. unfold active_execution in Hact. rewrite Hy in Hact.
  by destruct (Execution_Terminal y).
Qed.

Lemma tstore_append_spec_witness :
  ∃ head st',
    tstore_Append ex_store None "main" "e2" [ex_entry "e3" "e2" TrajectoryKindUserMessage] ex_clock = Ok (head, st') ∧
    ∀ i, i ≠ "main" → tstore_LoadMetadata st' None i = tstore_LoadMetadata ex_store None i.
Proof.
  destruct (tstore_Append ex_store None "main" "e2" [ex_entry "e3" "e2" TrajectoryKindUserMessage] ex_clock)
    as [[head st']|] eqn:Hm; [|vm_compute in Hm; discriminate Hm].
  exists head, st'. split; [reflexivity|].
  apply (tstore_append_spec ex_setup "main" "e2" _ ex_clock head st' ex_setup_ok Hm).
Defined.

(** Appends and new executions are refused with [ErrTrajectoryExecution] while an execution is
    active, and with [ErrTrajectoryConflict] at a head that is no longer the current one. *)
Theorem tstore_append_refused st id m :
  tstore_LoadMetadata st None id = Ok m →
  (∀ x, tm_Execution m = Some x → Execution_Terminal x = false →
     (∀ expectedHead entries clock, ∃ err, tstore_Append st None id expectedHead entries clock = Err err ∧
        errors_Is err ErrTrajectoryExecution = true) ∧
     (∀ expectedHead start input wall clock r,
        tstore_BeginExecution st None id expectedHead start input wall clock ≠ Ok r)) ∧
  ((∀ x, tm_Execution m = Some x → Execution_Terminal x = true) →
   ∀ expectedHead entries clock, tm_Head m ≠ expectedHead →
     ∃ err, tstore_Append st None id expectedHead entries clock = Err err ∧
        errors_Is err ErrTrajectoryConflict = true).
Proof.
  unfold tstore_LoadMetadata. simpl. intros (t & Ht & [= <-])%bind_Ok. simpl. split.
  - intros x Hx Hterm. assert (active_execution t = Some x) as Ha by (unfold active_execution; by rewrite Hx, Hterm).
    split; [intros; unfold tstore_Append; simpl; rewrite Ht; simpl; rewrite Ha; eauto|].
    intros * H. destruct r as [r s]. apply tstore_Begin_Ok in H as (_ & _ & ? & ? & t' & ? & ? & _ & _ & Ht' & Hn & _).
    apply trajectoryLocked_Ok in Ht as [_ Ht]. congruence.
  - intros Hterm * Hne. unfold tstore_Append. simpl. rewrite Ht. simpl.
    assert (active_execution t = None) as ->.
    { unfold active_execution. destruct (tj_Execution _) as [x|] eqn:Hx; [|done]. by rewrite (Hterm x). }
    unfold appendLocked. rewrite bool_decide_eq_true_2 by done. simpl. eauto.
Qed.

Lemma tstore_append_refused_witness :
  ∃ err, tstore_Append ex_store None "fork" "f1" [] ex_clock = Err err ∧ errors_Is err ErrTrajectoryExecution = true.
Proof.
  destruct (tstore_LoadMetadata ex_store None "fork") as [m|] eqn:Hm; [|vm_compute in Hm; discriminate Hm].
  destruct (tstore_append_refused ex_store "fork" m Hm) as [H _]. vm_compute in Hm. injection Hm as <-.
  apply (H _ eq_refl eq_refl).
Defined.

(** ** Executions *)

Lemma append_execution st t id expectedHead entries clock head t1 :
  appendLocked st t id expectedHead entries clock = Ok (head, t1) →
  tj_Execution (mt_trajectory t1) = tj_Execution (mt_trajectory t).
Proof.
  unfold appendLocked. intros H. inv_ok_step. apply bind_Ok in H as (ps & _ & H).
  destruct (last ps); [|done]. apply bind_Ok in H as (ck & _ & [= _ <-]). done.
Qed.

(** The execution of a trajectory after a call: it is unchanged, or the call is one of the transitions
    of an execution, on this trajectory. *)
Inductive execution_step (c : tstore_call) (id : string) :
    option TrajectoryExecution → option TrajectoryExecution → Prop :=
  | execution_same x : execution_step c id x x
  | execution_begin x head start input wall clock x' :
      c = CallBegin id head start input wall clock →
      match x with Some x => Execution_Terminal x = true | None => True end →
      PrepareTrajectoryExecutionStart start head (te_ID input) wall = Ok x' → execution_step c id x (Some x')
  | execution_claim x owner now ttl wall e x' :
      c = CallClaim id owner now ttl wall e →
      ClaimTrajectoryExecution x owner (if IsZero now then wall else now) ttl wall e = Ok x' →
      execution_step c id (Some x) (Some x')
  | execution_renew x executionID token now ttl wall x' :
      c = CallRenew id executionID token now ttl wall →
      RenewTrajectoryExecution x executionID token (if IsZero now then wall else now) ttl = Ok x' →
      execution_step c id (Some x) (Some x')
  | execution_commit x commit wall clock x' :
      c = CallCommit commit wall clock → ecm_TrajectoryID commit = id →
      CommitTrajectoryExecution x commit wall = Ok x' → execution_step c id (Some x) (Some x')
  | execution_cancel x commit wall clock x' :
      c = CallCancel commit wall clock → ecc_TrajectoryID commit = id →
      CancelTrajectoryExecution x (ecc_ExecutionID commit) (ecc_Reason commit)
        (tj_NormalizeMutationTime wall (ecc_At commit)) = Ok (x', true) → execution_step c id (Some x) (Some x').

Lemma put_step st i t' c id t u' :
  trajectories st !! id = Some t → trajectories (put st i t') !! id = Some u' →
  (i = id → execution_step c id (tj_Execution (mt_trajectory t)) (tj_Execution (mt_trajectory t'))) →
  execution_step c id (tj_Execution (mt_trajectory t)) (tj_Execution (mt_trajectory u')).
Proof.
  intros Ht. rewrite put_lookup. case_decide as Hi; [intros [= <-] H; by apply H|].
  rewrite Ht. intros [= <-] _. constructor.
Qed.

Lemma tstore_do_execution st ctx c st' id t t' :
  tstore_do st ctx c = Ok st' → trajectories st !! id = Some t → trajectories st' !! id = Some t' →
  execution_step c id (tj_Execution (mt_trajectory t)) (tj_Execution (mt_trajectory t')).
Proof.
  intros H Ht Ht'. destruct c; cbn [tstore_do] in H.
  - unfold tstore_Create in H. repeat inv_ok_step. eapply put_step; [done..|]. intros <-. gobool.
    match goal with H : ¬ is_Some _ |- _ => destruct H; by eexists end.
  - apply bind_Ok in H as ([a s] & H & [= <-]). apply tstore_Append_Ok in H as (_ & u & u1 & Hu & _ & Happ & ->).
    eapply put_step; [done..|]. intros ->. assert (u = t) as -> by congruence.
    rewrite (append_execution _ _ _ _ _ _ _ _ Happ). constructor.
  - apply bind_Ok in H as ([a s] & H & [= <-]).
    apply tstore_Begin_Ok in H as (_ & _ & x & b & u & h & u1 & Hx & _ & Hu & Hact & _ & ->).
    eapply put_step; [done..|]. intros ->. assert (u = t) as -> by congruence.
    eapply execution_begin; [done| |done]. unfold active_execution in Hact.
    destruct (tj_Execution (mt_trajectory t)) as [y|]; [|done]. by destruct (Execution_Terminal y).
  - apply bind_Ok in H as ([a s] & H & [= <-]). apply tstore_Claim_Ok in H as (_ & u & x & Hu & Hx & Hc & ->).
    eapply put_step; [done..|]. intros ->. assert (u = t) as -> by congruence. rewrite Hx. by eapply execution_claim.
  - apply bind_Ok in H as ([a s] & H & [= <-]). apply tstore_Renew_Ok in H as (_ & u & x & Hu & Hx & Hc & ->).
    eapply put_step; [done..|]. intros ->. assert (u = t) as -> by congruence. rewrite Hx. by eapply execution_renew.
  - apply bind_Ok in H as ([a s] & H & [= <-]).
    apply tstore_Commit_Ok in H as (_ & en & u & x & x' & u1 & _ & Hu & _ & Hx & Hc & _ & -> & _).
    eapply put_step; [done..|]. intros Hi. rewrite Hi in Hu. assert (u = t) as -> by congruence.
    rewrite Hx. by eapply execution_commit.
  - apply bind_Ok in H as ([[a ch] s] & H & [= <-]).
    apply tstore_Cancel_Ok in H as (_ & en & u & x & x' & _ & Hu & Hx & Hc & H). destruct ch.
    + destruct H as (u1 & _ & ->). eapply put_step; [done..|]. intros Hi. rewrite Hi in Hu.
      assert (u = t) as -> by congruence. rewrite Hx. by eapply execution_cancel.
    + subst s. assert (t = t') as <- by congruence. constructor.
  - unfold tstore_Delete in H. repeat inv_ok_step. simpl in Ht'. apply lookup_delete_Some in Ht' as [_ Ht'].
    assert (t = t') as <- by congruence. constructor.
Qed.

Definition restarts (id : string) (c : tstore_call) : Prop :=
  match c with CallBegin i _ _ _ _ _ | CallDelete i => i = id | _ => False end.

Lemma terminal_step c id x o :
  Execution_Terminal x = true → ¬ restarts id c → execution_step c id (Some x) o → o = Some x.
Proof.
  intros Hterm Hc Hs. assert (∀ i tok now, execution_fenced x i tok now = true) as Hf.
  { intros. unfold execution_fenced. unfold Execution_Terminal in Hterm.
    rewrite (bool_decide_eq_true_2 (ex_State x ≠ _)), orb_true_r by (intros E; by rewrite E in Hterm). done. }
  inversion Hs; subst; try done.
  - match goal with H : ClaimTrajectoryExecution _ _ _ _ _ _ = _ |- _ => apply Claim_Ok in H as (_ & ? & _) end. congruence.
  - match goal with H : RenewTrajectoryExecution _ _ _ _ _ = _ |- _ => apply Renew_Ok in H as (_ & Hn & _) end.
    by rewrite Hf in Hn.
  - match goal with H : CommitTrajectoryExecution _ _ _ = _ |- _ => apply Commit_Ok in H as (_ & Hn & _) end.
    by rewrite Hf in Hn.
  - match goal with H : CancelTrajectoryExecution _ _ _ _ = _ |- _ => apply Cancel_Ok in H as (_ & _ & ? & _) end. congruence.
Qed.

Lemma LoadMetadata_lookup st id m t :
  tstore_LoadMetadata st None id = Ok m → trajectories st !! id = Some t → m = mt_metadata t.
Proof. intros (t' & Ht' & ->)%LoadMetadata_Ok Ht. congruence. Qed.

(** A terminal execution is final: no sequence of calls changes any of its fields, short of the start
    of a new execution on the trajectory or its deletion. *)
Theorem tstore_terminal_final st calls id m x :
  tstore_LoadMetadata st None id = Ok m → tm_Execution m = Some x → Execution_Terminal x = true →
  Forall (λ c, ¬ restarts id c.2) calls →
  ∃ m', tstore_LoadMetadata (tstore_run st calls) None id = Ok m' ∧ tm_Execution m' = Some x.
Proof.
  intros Hm Hx Hterm Hcs. revert st m Hm Hx.
  induction Hcs as [|c calls Hc _ IH]; intros st m Hm Hx; [eauto|].
  destruct (LoadMetadata_Ok _ _ _ Hm) as (t & Ht & ->). simpl in Hx.
  assert (is_Some (trajectories (tstore_exec st c) !! id)) as [t' Ht'].
  { apply exec_keeps; [|by eexists]. intros E. apply Hc. rewrite E. done. }
  assert (tj_Execution (mt_trajectory t') = Some x) as Hx'.
  { unfold tstore_exec in Ht'. destruct (tstore_do st c.1 c.2) as [st'|] eqn:Hdo; simpl in Ht'; [|congruence].
    pose proof (tstore_do_execution _ _ _ _ _ _ _ Hdo Ht Ht') as Hs. rewrite Hx in Hs. by eapply terminal_step. }
  apply (IH (tstore_exec st c) (mt_metadata t')); [|done].
  unfold tstore_LoadMetadata in *. simpl in *. apply bind_Ok in Hm as (u & [Hv _]%trajectoryLocked_Ok & _).
  by rewrite (proj2 (trajectoryLocked_Ok _ id t')).
Qed.

Definition ex_cancel : TrajectoryExecutionCancelCommit :=
  {| ecc_TrajectoryID := "fork"; ecc_ExecutionID := "x1"; ecc_ExpectedHead := "f1"; ecc_Reason := "stop";
     ecc_At := 50; ecc_Entries := [] |}.

Definition ex_cancelled : memoryTrajectoryStore := tstore_exec ex_store (None, CallCancel ex_cancel 50 ex_clock).

Lemma tstore_terminal_final_witness :
  ∃ m x m', tstore_LoadMetadata ex_cancelled None "fork" = Ok m ∧ tm_Execution m = Some x ∧
    tstore_LoadMetadata (tstore_run ex_cancelled [(None, CallClaim "fork" "w" 60 10 60 (ex_entropy 7))]) None "fork" = Ok m' ∧
    tm_Execution m' = Some x.
Proof.
  destruct (tstore_LoadMetadata ex_cancelled None "fork") as [m|] eqn:Hm; [|vm_compute in Hm; discriminate Hm].
  destruct (tm_Execution m) as [x|] eqn:Hx;
    [|vm_compute in Hm; injection Hm as <-; vm_compute in Hx; discriminate Hx].
  destruct (tstore_terminal_final ex_cancelled [(None, CallClaim "fork" "w" 60 10 60 (ex_entropy 7))] "fork" m x Hm Hx)
    as (m' & H1 & H2).
  - vm_compute in Hm. injection Hm as <-. vm_compute in Hx. injection Hx as <-. reflexivity.
  - repeat constructor. exact id.
  - exists m, x, m'. split_and!; [reflexivity|exact Hx|exact H1|exact H2].
Defined.

(** ** Leases *)

(** No running execution of the trajectory holds the token. *)
Definition lease_stale (st : memoryTrajectoryStore) (id token : string) : Prop :=
  ∀ t x, trajectories st !! id = Some t → tj_Execution (mt_trajectory t) = Some x →
    ex_State x = TrajectoryExecutionRunning → ex_LeaseToken x ≠ token.

Definition mints (token : string) (c : tstore_call) : Prop :=
  match c with CallClaim _ _ _ _ _ e => NewID e = token | _ => False end.

Lemma stale_step c id token o x' :
  (∀ x, o = Some x → ex_State x = TrajectoryExecutionRunning → ex_LeaseToken x ≠ token) →
  ¬ mints token c → execution_step c id o (Some x') → ex_State x' = TrajectoryExecutionRunning →
  ex_LeaseToken x' ≠ token.
Proof.
  intros Hold Hm Hs Hrun. inversion Hs; subst; try done.
  - by apply Hold.
  - match goal with H : PrepareTrajectoryExecutionStart _ _ _ _ = _ |- _ => apply Start_Ok in H as (_ & _ & H & _) end.
    congruence.
  - match goal with H : ClaimTrajectoryExecution _ _ _ _ _ _ = _ |- _ => apply Claim_Ok in H as (_ & _ & _ & ->) end.
    exact Hm.
  - match goal with H : RenewTrajectoryExecution _ _ _ _ _ = _ |- _ => apply Renew_Ok in H as (_ & _ & _ & ->) end.
    simpl in *; by apply Hold.
  - match goal with H : CommitTrajectoryExecution _ _ _ = _ |- _ => apply Commit_Ok in H as (_ & _ & _ & _ & _ & _ & Hcm) end.
    destruct (commit_continues _); [|by destruct Hcm as (_ & ? & _)]. destruct Hcm as (E & _ & -> & _). apply Hold; [done|congruence].
  - match goal with H : CancelTrajectoryExecution _ _ _ _ = _ |- _ => apply Cancel_Ok in H as (_ & _ & _ & ->) end.
    done.
Qed.

Lemma created_execution st ctx trajectory wall st' id t :
  tstore_Create st ctx trajectory wall = Ok st' → trajectories st !! id = None → trajectories st' !! id = Some t →
  tj_Execution (mt_trajectory t) = None.
Proof.
  unfold tstore_Create. intros (_ & _ & H)%bind_Ok Hn Ht. apply bind_Ok in H as ([p n] & Hp & H).
  unfold PrepareNewTrajectory in Hp. apply bind_Ok in Hp as ([] & Hv & [= <- <-]).
  unfold ValidateNewTrajectory in Hv. destruct (_ >? _) in Hv; [done|]. apply bind_Ok in Hv as (? & _ & Hv).
  destruct (_ || _ || _ || _) eqn:Hflds in Hv; [done|]. gobool. destruct Hflds as [[_ Hexec] _].
  apply eq_None_not_Some in Hexec. inv_ok_step.
  apply bind_Ok in H as (q & Hq & [= <-]). rewrite put_lookup in Ht. case_decide; [|congruence].
  injection Ht as <-. simpl. simpl in Hq. destruct (negb _) in Hq; [|by injection Hq as <-].
  destruct (branchLocked _ _ _) in Hq; [|done]. unfold PrepareNewTrajectoryFork in Hq. simpl in Hq.
  destruct (is_empty _) in Hq; [by injection Hq as <-|]. destruct (_ =? _)%nat in Hq; [done|]. by injection Hq as <-.
Qed.

Lemma do_new_trajectory st ctx c st' id t :
  tstore_do st ctx c = Ok st' → trajectories st !! id = None → trajectories st' !! id = Some t →
  tj_Execution (mt_trajectory t) = None.
Proof.
  intros H Hn Ht.
  assert (∀ i t1 t2, trajectories st !! i = Some t1 → trajectories (put st i t2) !! id = Some t → False) as Hno.
  { intros i t1 t2 Hi. rewrite put_lookup. case_decide; congruence. }
  destruct c; cbn [tstore_do] in H; [by eapply created_execution|..].
  1-6: apply bind_Ok in H as ([a s] & H & [= <-]).
  - apply tstore_Append_Ok in H as (_ & u & u1 & Hu & _ & _ & ->). by destruct (Hno _ _ _ Hu Ht).
  - apply tstore_Begin_Ok in H as (_ & _ & x & b & u & h & u1 & _ & _ & Hu & _ & _ & ->). by destruct (Hno _ _ _ Hu Ht).
  - apply tstore_Claim_Ok in H as (_ & u & x & Hu & _ & _ & ->). by destruct (Hno _ _ _ Hu Ht).
  - apply tstore_Renew_Ok in H as (_ & u & x & Hu & _ & _ & ->). by destruct (Hno _ _ _ Hu Ht).
  - apply tstore_Commit_Ok in H as (_ & en & u & x & x' & u1 & _ & Hu & _ & _ & _ & _ & -> & _).
    by destruct (Hno _ _ _ Hu Ht).
  - destruct a as [a ch]. apply tstore_Cancel_Ok in H as (_ & en & u & x & x' & _ & Hu & _ & _ & H).
    destruct ch; [destruct H as (u1 & _ & ->); by destruct (Hno _ _ _ Hu Ht)|]. simpl in *. congruence.
  - unfold tstore_Delete in H. repeat inv_ok_step. simpl in Ht. apply lookup_delete_Some in Ht as [_ ?]. congruence.
Qed.

Lemma stale_run st calls id token :
  lease_stale st id token → Forall (λ c, ¬ mints token c.2) calls → lease_stale (tstore_run st calls) id token.
Proof.
  intros Hst Hcs. revert st Hst. induction Hcs as [|c calls Hc _ IH]; intros st Hst; [done|].
  apply IH. intros t' x' Ht' Hx' Hrun. unfold tstore_exec in Ht'.
  destruct (tstore_do st c.1 c.2) as [st'|] eqn:Hdo; simpl in Ht'; [|by eapply Hst].
  destruct (trajectories st !! id) as [t|] eqn:Ht; [|by rewrite (do_new_trajectory _ _ _ _ _ _ Hdo Ht Ht') in Hx'].
  pose proof (tstore_do_execution _ _ _ _ _ _ _ Hdo Ht Ht') as Hs. rewrite Hx' in Hs.
  eapply stale_step; [|done|exact Hs|done]. intros x Hx. by apply (Hst t).
Qed.

Lemma stale_fenced st id token t x executionID now :
  lease_stale st id token → trajectories st !! id = Some t → tj_Execution (mt_trajectory t) = Some x →
  execution_fenced x executionID token now = true.
Proof.
  intros Hst Ht Hx. unfold execution_fenced. destruct (decide (ex_State x = TrajectoryExecutionRunning)) as [Hr|Hr].
  - rewrite (bool_decide_eq_true_2 (ex_LeaseToken x ≠ token)) by (by eapply Hst). by rewrite !orb_true_r.
  - rewrite (bool_decide_eq_true_2 (ex_State x ≠ _)) by done. by rewrite orb_true_r.
Qed.

(** Once an execution is claimed, any other token is fenced off for good: through every later
    sequence of calls that does not mint that token again, neither a commit nor a renewal with it
    succeeds, and a renewal reports [ErrTrajectoryFence]. *)
Theorem tstore_stale_token_fenced st id owner now ttl wall e x st' calls token :
  tstore_ClaimExecution st None id owner now ttl wall e = Ok (x, st') → token ≠ NewID e →
  Forall (λ c, ¬ mints token c.2) calls →
  let final := tstore_run st' calls in
  (∀ commit wall clock r, ecm_TrajectoryID commit = id → ecm_LeaseToken commit = token →
     tstore_CommitExecution final None commit wall clock ≠ Ok r) ∧
  (∀ executionID now ttl wall r, tstore_RenewExecution final None id executionID token now ttl wall ≠ Ok r) ∧
  (∀ m y executionID now ttl wall, tstore_LoadMetadata final None id = Ok m → tm_Execution m = Some y → 0 < ttl →
     ∃ err, tstore_RenewExecution final None id executionID token now ttl wall = Err err ∧
       errors_Is err ErrTrajectoryFence = true).
Proof.
  intros Hcl Htok Hcs final. assert (lease_stale final id token) as Hst.
  { apply stale_run; [|done]. apply tstore_Claim_Ok in Hcl as (_ & t & y & _ & _ & (_ & _ & _ & ->)%Claim_Ok & ->).
    intros t' z. rewrite put_lookup, decide_True by done. intros [= <-] [= <-] _. simpl. congruence. }
  split_and!.
  - intros commit w clock [m s] <- <- H.
    apply tstore_Commit_Ok in H as (_ & en & t & y & y' & t1 & _ & Ht & _ & Hy & Hc & _ & _ & _).
    apply Commit_Ok in Hc as (_ & Hf & _). by rewrite (stale_fenced _ _ _ _ _ _ _ Hst Ht Hy) in Hf.
  - intros executionID n d w [y' s] H. apply tstore_Renew_Ok in H as (_ & t & y & Ht & Hy & Hr & _).
    apply Renew_Ok in Hr as (_ & Hf & _). by rewrite (stale_fenced _ _ _ _ _ _ _ Hst Ht Hy) in Hf.
  - intros m y executionID n d w Hm Hy Hd. unfold tstore_LoadMetadata in Hm. simpl in Hm.
    apply bind_Ok in Hm as (t & Ht & [= <-]). simpl in Hy. unfold tstore_RenewExecution. simpl. rewrite Ht. simpl.
    rewrite Hy. unfold RenewTrajectoryExecution. rewrite (proj2 (Z.leb_gt _ _)) by lia.
    apply trajectoryLocked_Ok in Ht as [_ Ht]. rewrite (stale_fenced _ _ _ _ _ _ _ Hst Ht Hy). simpl. eauto.
Qed.

Definition ex_owned : result (TrajectoryExecution * memoryTrajectoryStore) :=
  tstore_ClaimExecution ex_store None "fork" "worker" 60 10 60 (ex_entropy 7).

Lemma tstore_stale_token_fenced_witness :
  ∃ x st', ex_owned = Ok (x, st') ∧
    ∀ executionID now ttl wall r, tstore_RenewExecution st' None "fork" executionID "old" now ttl wall ≠ Ok r.
Proof.
  destruct ex_owned as [[x st']|] eqn:Hm; [|vm_compute in Hm; discriminate Hm].
  exists x, st'. split; [reflexivity|].
  apply (tstore_stale_token_fenced ex_store "fork" "worker" 60 10 60 (ex_entropy 7) x st' [] "old" Hm);
    [vm_compute; discriminate|constructor].
Defined.

Lemma RecoveryDelay_pos x now wall : now ≠ 0 →
  0 < RecoveryDelay x now wall ↔ ex_State x = TrajectoryExecutionRunning ∧ now < ex_LeaseExpiresAt x.
Proof.
  intros Hnow. unfold RecoveryDelay. rewrite (proj2 (IsZero_false _) Hnow).
  case_bool_decide as Hr; simpl; [|split; [lia|by intros [? _]]].
  destruct (After _ _) eqn:Ha; gobool; [|split; [lia|lia]].
  unfold time_Sub, two63. split; [done|]. lia.
Qed.

(** A claim holds the execution exclusively: until the lease runs out, every other claim is refused
    with [ErrTrajectoryClaimed]. *)
Theorem tstore_claim_exclusive st id owner now ttl wall e x st' owner2 now2 ttl2 wall2 e2 :
  tstore_ClaimExecution st None id owner now ttl wall e = Ok (x, st') → 0 < now →
  blank owner2 = false → 0 < ttl2 → 0 < now2 < now + ttl →
  ∃ err, tstore_ClaimExecution st' None id owner2 now2 ttl2 wall2 e2 = Err err ∧
    errors_Is err ErrTrajectoryClaimed = true.
Proof.
  intros H Hnow Hown Httl Hnow2. pose proof H as Hv. unfold tstore_ClaimExecution in Hv. simpl in Hv.
  apply bind_Ok in Hv as (t0 & [Hv _]%trajectoryLocked_Ok & _).
  apply tstore_Claim_Ok in H as (_ & t & y & Ht & Hy & (_ & Hterm & _ & Hx)%Claim_Ok & ->).
  rewrite (proj2 (IsZero_false now)) in * by lia. unfold tstore_ClaimExecution. simpl.
  rewrite (proj2 (trajectoryLocked_Ok _ _ (set_execution t x now)))
    by (split; [done|by rewrite put_lookup, decide_True]).
  simpl. rewrite (proj2 (IsZero_false now2)) by lia. unfold ClaimTrajectoryExecution.
  rewrite Hown, (proj2 (Z.leb_gt ttl2 0)) by lia.
  assert (Execution_Terminal x = false) as -> by (by rewrite Hx).
  assert (0 < RecoveryDelay x now2 wall2) as Hd.
  { apply RecoveryDelay_pos; [lia|]. rewrite Hx. simpl. unfold time_Add. split; [done|lia]. }
  rewrite (proj2 (Z.ltb_lt _ _) Hd). simpl. eauto.
Qed.

Lemma tstore_claim_exclusive_witness :
  ∃ x st' err, ex_owned = Ok (x, st') ∧
    tstore_ClaimExecution st' None "fork" "other" 65 10 65 (ex_entropy 9) = Err err ∧
    errors_Is err ErrTrajectoryClaimed = true.
Proof.
  destruct ex_owned as [[x st']|] eqn:Hm; [|vm_compute in Hm; discriminate Hm].
  destruct (tstore_claim_exclusive ex_store "fork" "worker" 60 10 60 (ex_entropy 7) x st' "other" 65 10 65
    (ex_entropy 9) Hm) as (err & H1 & H2); [lia|reflexivity|lia|lia|].
  exists x, st', err. split_and!; [reflexivity|exact H1|exact H2].
Defined.

Lemma claimed_valid x owner token expires now :
  ValidateTrajectoryExecution x = Ok tt → blank owner = false → token ≠ "" → expires ≠ 0 → now ≠ 0 →
  u64 (ex_Revision x + 1) ≠ 0 →
  ValidateTrajectoryExecution (with_lease x TrajectoryExecutionRunning (u64 (ex_Revision x + 1)) owner token expires
    (ex_System x) (ex_LastError x) now) = Ok tt.
Proof.
  intros Hv Hown Htok Hexp Hnow Hrev. unfold ValidateTrajectoryExecution in *. simpl.
  apply bind_Ok in Hv as (u & Hid & Hv). rewrite Hid. simpl. rewrite (proj2 (Z.eqb_neq _ _) Hrev).
  destruct (ex_Revision x =? 0); [done|]. apply bind_Ok in Hv as (v & Hin & Hv). rewrite Hin. simpl.
  destruct (ex_MaxTurns x <? 1); [done|]. destruct (IsZero (ex_CreatedAt x)); [done|]. simpl in *.
  rewrite (proj2 (IsZero_false _) Hnow), Hown, (proj2 (is_empty_false _) Htok), (proj2 (IsZero_false _) Hexp). done.
Qed.

(** What [ListRecoverable] lists is exactly what can be claimed: for a named worker and a positive
    lease, [ClaimExecution] succeeds on a trajectory if and only if the list at that time contains it. *)
Theorem tstore_claim_iff_recoverable calls id owner now ttl wall e listed :
  calls_ok calls → let st := tstore_run newMemoryTrajectoryStore calls in
  blank owner = false → 0 < ttl → 0 < now → entropy_ok e →
  (∀ m x, tstore_LoadMetadata st None id = Ok m → tm_Execution m = Some x → u64 (ex_Revision x + 1) ≠ 0) →
  tstore_ListRecoverable st None now wall = Ok listed →
  is_Ok (tstore_ClaimExecution st None id owner now ttl wall e) ↔ id ∈ tm_ID <$> listed.
Proof.
  intros Hc st Hown Httl Hnow Htok%NewID_nonempty Hrev Hl.
  destruct (tstore_run_wf _ _ wf_empty Hc) as (l & Hb & Hall). fold st in Hb, Hall.
  unfold tstore_ListRecoverable in Hl. simpl in Hl. rewrite (proj2 (IsZero_false now)) in Hl by lia.
  injection Hl as <-.
  assert (id ∈ tm_ID <$> SortFunc compareRecoverable
            (mt_metadata <$> filter (λ t, recoverable now wall t = true) (map_values (trajectories st))) ↔
          ∃ t, trajectories st !! id = Some t ∧ recoverable now wall t = true) as ->.
  { rewrite list_elem_of_fmap. setoid_rewrite elem_of_SortFunc. setoid_rewrite list_elem_of_fmap.
    setoid_rewrite list_elem_of_filter. setoid_rewrite elem_of_map_values. split.
    - intros (m & -> & t & -> & Hr & i & Hi). exists t. simpl. by rewrite (tw_id _ _ _ (Hall _ _ Hi)).
    - intros (t & Ht & Hr). exists (mt_metadata t). split; [by rewrite <-(tw_id _ _ _ (Hall _ _ Ht))|]. eauto 10. }
  split.
  - intros [[x st'] (_ & t & y & Ht & Hy & (_ & Hterm & Hd & _)%Claim_Ok & _)%tstore_Claim_Ok].
    rewrite (proj2 (IsZero_false now)) in Hd by lia. exists t. split; [done|].
    unfold recoverable. rewrite Hy. unfold Execution_RecoverableAt. by rewrite Hterm, (proj2 (Z.leb_le _ _) Hd).
  - intros (t & Ht & Hr). unfold recoverable in Hr.
    destruct (tj_Execution (mt_trajectory t)) as [y|] eqn:Hy; [|done]. unfold Execution_RecoverableAt in Hr.
    gobool. destruct Hr as [Hterm Hd]. assert (valid_name id) as Hn by (eapply bw_name; [done|by apply Hb; eauto]).
    assert (trajectoryLocked st id = Ok t) as Hlk by (by apply trajectoryLocked_Ok).
    unfold is_Ok, tstore_ClaimExecution. simpl. rewrite Hlk. simpl. rewrite (proj2 (IsZero_false now)), Hy by lia.
    unfold ClaimTrajectoryExecution. rewrite Hown, (proj2 (Z.leb_gt ttl 0)), Hterm, (proj2 (Z.ltb_ge _ _) Hd) by lia.
    rewrite claimed_valid; [simpl; by eexists|by eapply tw_execution; [apply Hall|]|done|done|unfold time_Add; lia|lia|].
    apply (Hrev (mt_metadata t)); [|done]. unfold tstore_LoadMetadata. simpl. by rewrite Hlk.
Qed.

Lemma tstore_claim_iff_recoverable_witness :
  is_Ok (tstore_ClaimExecution ex_store None "fork" "worker" 60 10 60 (ex_entropy 7)).
Proof.
  destruct (tstore_ListRecoverable ex_store None 60 60) as [listed|] eqn:Hl; [|vm_compute in Hl; discriminate Hl].
  apply (tstore_claim_iff_recoverable ex_setup "fork" "worker" 60 10 60 (ex_entropy 7) listed ex_setup_ok);
    [reflexivity|lia|lia|by apply ex_entropy_ok| |exact Hl|].
  - intros m x Hm Hx. vm_compute in Hm. injection Hm as <-. vm_compute in Hx. injection Hx as <-.
    vm_compute. discriminate.
  - vm_compute in Hl. injection Hl as <-. vm_compute. left.
Defined.

(** ** Deletion *)

(** [Delete] succeeds exactly on a trajectory that exists, has no active execution and is the parent
    of no other; it removes that trajectory and nothing else. *)
Theorem tstore_delete_exact calls id :
  calls_ok calls → let st := tstore_run newMemoryTrajectoryStore calls in
  (is_Ok (tstore_Delete st None id) ↔
     ∃ m, tstore_LoadMetadata st None id = Ok m ∧
       (∀ x, tm_Execution m = Some x → Execution_Terminal x = true) ∧
       ∀ i n, tstore_LoadMetadata st None i = Ok n → tm_ParentID n ≠ id) ∧
  (∀ st', tstore_Delete st None id = Ok st' →
     trajectories st' !! id = None ∧ ∀ i, i ≠ id → trajectories st' !! i = trajectories st !! i).
Proof.
  intros Hc st. destruct (tstore_run_wf _ _ wf_empty Hc) as (l & Hb & _). fold st in Hb. split.
  - unfold tstore_Delete, tstore_LoadMetadata. simpl. split.
    + intros [st' (t & Ht & H)%bind_Ok]. exists (mt_metadata t). rewrite Ht. split_and!; [done| |].
      * intros x Hx. simpl in Hx. unfold active_execution in H. rewrite Hx in H. by destruct (Execution_Terminal x).
      * intros i n (u & [_ Hu]%trajectoryLocked_Ok & [= <-])%bind_Ok Hp. simpl in Hp.
        destruct (active_execution t); [done|]. destruct (List.find _ _) eqn:Hf; [done|].
        pose proof (find_none _ _ Hf u) as Hn. simpl in Hn. rewrite bool_decide_eq_true_2 in Hn by done.
        discriminate Hn. apply list_elem_of_In, elem_of_map_values. eauto.
    + intros (m & (t & Ht & [= <-])%bind_Ok & Hterm & Hno). rewrite Ht. simpl in *.
      assert (active_execution t = None) as ->.
      { unfold active_execution. destruct (tj_Execution _) as [x|]; [|done]. by rewrite Hterm. }
      destruct (List.find _ _) as [u|] eqn:Hf; [|by eexists]. apply find_some in Hf as [Hu Hp].
      apply list_elem_of_In, elem_of_map_values in Hu as [i Hi]. simpl in Hp. apply bool_decide_eq_true in Hp.
      exfalso. apply (Hno i (mt_metadata u)); [|done].
      rewrite (proj2 (trajectoryLocked_Ok st i u)); [done|]. split; [|done]. eapply bw_name; [done|by apply Hb; eauto].
  - intros st' H. unfold tstore_Delete in H. simpl in H. apply bind_Ok in H as (t & _ & H).
    destruct (active_execution t); [done|]. destruct (List.find _ _); [done|]. injection H as <-. simpl.
    split; [apply lookup_delete_eq|]. intros i Hi. by rewrite lookup_delete_ne.
Qed.

Lemma tstore_delete_exact_witness :
  result_ok (tstore_LoadMetadata ex_store None "main") = true ∧ ¬ is_Ok (tstore_Delete ex_store None "main").
Proof.
  split; [vm_compute; reflexivity|]. intros H. apply (tstore_delete_exact ex_setup "main" ex_setup_ok) in H as (m & _ & _ & H).
  destruct (tstore_LoadMetadata ex_store None "fork") as [n|] eqn:Hn; [|vm_compute in Hn; discriminate Hn].
  apply (H "fork" n Hn). vm_compute in Hn. injection Hn as <-. reflexivity.
Defined.

(** ** Cancellation and commits *)

(** Cancellation is idempotent: repeating it reports no change, returns the same metadata and leaves
    the store alone. *)
Theorem tstore_cancel_idempotent st commit wall clock m st' wall2 clock2 :
  tstore_CancelExecution st None commit wall clock = Ok (m, true, st') →
  tstore_CancelExecution st' None commit wall2 clock2 = Ok (m, false, st') ∧
  tstore_LoadMetadata st' None (ecc_TrajectoryID commit) = Ok m.
Proof.
  unfold tstore_CancelExecution at 1. simpl. intros (entries & Hbind & H)%bind_Ok.
  apply bind_Ok in H as (t & [Hn Ht]%trajectoryLocked_Ok & H).
  destruct (tj_Execution (mt_trajectory t)) as [x|] eqn:Hx; [|done].
  apply bind_Ok in H as ([x' ch] & Hc & H). destruct ch; [|done].
  apply bind_Ok in H as (t1 & _ & [= <- <-]).
  set (t2 := set_execution t1 x' _). assert (trajectoryLocked (put st (ecc_TrajectoryID commit) t2)
    (ecc_TrajectoryID commit) = Ok t2) as Hlk
    by (apply trajectoryLocked_Ok; split; [done|by rewrite put_lookup, decide_True]).
  unfold tstore_CancelExecution, tstore_LoadMetadata. simpl. rewrite Hbind. simpl. rewrite Hlk. simpl.
  split; [|done]. unfold CancelTrajectoryExecution in Hc |- *. destruct (is_empty _); [done|].
  destruct (bool_decide (ex_ID x ≠ _)) eqn:Hid; [done|].
  assert (ex_ID x' = ex_ID x ∧ ex_State x' = TrajectoryExecutionCancelled) as [Ei Es].
  { case_bool_decide as Hs; [by injection Hc as <-|]. inv_ok_step. by apply Validate_tail in Hc as [_ [= <-]]. }
  rewrite Ei, Hid, bool_decide_eq_true_2 by done. done.
Qed.

Lemma tstore_cancel_idempotent_witness :
  ∃ m st', tstore_CancelExecution ex_store None ex_cancel 50 ex_clock = Ok (m, true, st') ∧
    tstore_CancelExecution st' None ex_cancel 70 ex_clock = Ok (m, false, st').
Proof.
  destruct (tstore_CancelExecution ex_store None ex_cancel 50 ex_clock) as [[[m []] st']|] eqn:Hm;
    [|vm_compute in Hm; discriminate Hm..].
  exists m, st'. split; [reflexivity|].
  apply (tstore_cancel_idempotent ex_store ex_cancel 50 ex_clock m st' 70 ex_clock Hm).
Defined.

Definition committed_of (executionID : string) (source entry : TrajectoryEntry) : Prop :=
  te_ID entry = te_ID source ∧ te_ParentID entry = te_ParentID source ∧ te_Kind entry = te_Kind source ∧
  te_Payload entry = te_Payload source ∧ tf_ExecutionID (te_Fields entry) = executionID.

Lemma Forall2_bound executionID entries ps :
  Forall2 prepared_from ((λ e, with_fields e (bind_fields (te_Fields e) executionID)) <$> entries) ps →
  Forall2 (committed_of executionID) entries ps.
Proof.
  rewrite Forall2_fmap_l. intros H. eapply Forall2_impl; [exact H|]. intros x y (? & ? & ? & ? & Hf). unfold committed_of.
  rewrite Hf. done.
Qed.

(** C30. A commit is one atomic step under the lease, on a store whose forks declare no legacy schema version (0 or at
    least 2; [calls_ok]): the caller held the running execution's unexpired token and named the current head; the
    entries, stamped with the execution's ID, are added after those already there, and in the same step the
    execution takes the committed state, with its revision one higher and, unless it goes on running, without a
    lease. *)
Theorem tstore_commit_atomic calls commit wall clock m st' :
  calls_ok calls → let st := tstore_run newMemoryTrajectoryStore calls in
  tstore_CommitExecution st None commit wall clock = Ok (m, st') →
  ∃ old new x x' ps,
    tstore_Load st None (ecm_TrajectoryID commit) = Ok old ∧ tstore_Load st' None (ecm_TrajectoryID commit) = Ok new ∧
    tj_Execution old = Some x ∧ tj_Execution new = Some x' ∧
    execution_fenced x (ecm_ExecutionID commit) (ecm_LeaseToken commit) wall = false ∧
    tj_Head old = ecm_ExpectedHead commit ∧ tj_Entries new = tj_Entries old ++ ps ∧
    Forall2 (committed_of (ecm_ExecutionID commit)) (ecm_Entries commit) ps ∧
    tj_Head new = (if is_empty (tip ps) then tj_Head old else tip ps) ∧
    ex_ID x' = ex_ID x ∧ ex_Revision x' = u64 (ex_Revision x + 1) ∧
    (if commit_continues (ecm_State commit) then ex_State x' = TrajectoryExecutionRunning
     else ex_State x' = ecm_State commit ∧ ex_LeaseToken x' = "").
Proof.
  intros Hc st H. pose proof (tstore_run_wf _ _ wf_empty Hc) as Hwf. fold st in Hwf.
  assert (tstore_do st None (CallCommit commit wall clock) = Ok st') as Hdo by (cbn [tstore_do]; by rewrite H).
  destruct (tstore_do_ok _ _ (CallCommit commit wall clock) _ Hwf I Hdo) as [Hwf' Hext].
  apply tstore_Commit_Ok in H as (_ & entries & t & x & x' & t1 & Hbind & Ht & Hhd & Hx & Hcm & Happ & -> & _).
  apply Bind_Ok in Hbind. apply Commit_Ok in Hcm as (_ & Hf & Hid & _ & Hrev & _ & Hst).
  assert (ex_State x = TrajectoryExecutionRunning) as Hrun.
  { unfold execution_fenced in Hf. gobool. destruct Hf as [[[_ Hf] _] _]. by apply dec_stable. }
  pose proof Hwf as (l & Hb & Hall). destruct (load_entries_eq st l Hb Hall _ t Ht) as (k & _ & _ & _ & Hold).
  assert (if commit_continues (ecm_State commit) then ex_State x' = TrajectoryExecutionRunning
          else ex_State x' = ecm_State commit ∧ ex_LeaseToken x' = "") as Hst'.
  { destruct (commit_continues _); [by destruct Hst as [-> _]|by destruct Hst as (-> & _ & ->)]. }
  destruct Happ as [[He ->]|(Hne & head & Happ)].
  - destruct (load_after_set _ _ _ _ _ _ Hwf Ht Hwf' Hext Hold) as (new & Hnew & Hent & Hhn & Hxn).
    eexists _, new, x, x', []. rewrite app_nil_r.
    split_and!; [exact Hold|done|done|done|done|done|done| |done|done|done|done].
    rewrite He in Hbind. symmetry in Hbind. apply fmap_nil_inv in Hbind. rewrite Hbind. constructor.
  - destruct (load_after_append _ _ _ _ _ _ _ _ _ Hwf Ht Happ (set_execution_same t1 x' wall) Hwf' Hext) as
      (old & new & ps & Hold2 & Hnew & Hh0 & Hent & Hfrom & Hh & Htip & Hhne & Hex).
    rewrite Hold in Hold2. injection Hold2 as <-.
    eexists _, new, x, x', ps. rewrite Htip, (proj2 (is_empty_false _) Hhne).
    split_and!; [exact Hold|done|done|done|done|done|done| |done|done|done|done].
    apply Forall2_bound. by rewrite <-Hbind.
Qed.

Definition ex_commit : TrajectoryExecutionCommit :=
  {| ecm_TrajectoryID := "fork"; ecm_ExecutionID := "x1"; ecm_LeaseToken := NewID (ex_entropy 7);
     ecm_ExpectedHead := "f1"; ecm_Entries := [ex_entry "f2" "f1" TrajectoryKindTerminal];
     ecm_State := TrajectoryExecutionSucceeded; ecm_Error := "" |}.

Definition ex_claimed : list (context * tstore_call) :=
  ex_setup ++ [(None, CallClaim "fork" "worker" 60 10 60 (ex_entropy 7))].

Lemma ex_claimed_ok : calls_ok ex_claimed.
Proof. repeat constructor; simpl; auto. Qed.

Lemma tstore_commit_atomic_witness :
  ∃ m st' new x', tstore_CommitExecution (tstore_run newMemoryTrajectoryStore ex_claimed) None ex_commit 65 ex_clock
      = Ok (m, st') ∧
    tstore_Load st' None "fork" = Ok new ∧ tj_Execution new = Some x' ∧ ex_LeaseToken x' = "".
Proof.
  destruct (tstore_CommitExecution (tstore_run newMemoryTrajectoryStore ex_claimed) None ex_commit 65 ex_clock)
    as [[m st']|] eqn:Hm; [|vm_compute in Hm; discriminate Hm].
  destruct (tstore_commit_atomic ex_claimed ex_commit 65 ex_clock m st' ex_claimed_ok Hm) as
    (old & new & x & x' & ps & _ & Hnew & _ & Hx & _ & _ & _ & _ & _ & _ & _ & _ & Hl).
  exists m, st', new, x'. split_and!; [reflexivity|exact Hnew|exact Hx|exact Hl].
Defined.

(** ** The walk over a loaded trajectory *)

(** [Trajectory.Branch] terminates on every list of entries, cyclic or dangling ones included: it
    returns a list exactly when following the parents from the head ends at a root, and then that list
    is the path, root first; otherwise it reports an error. *)
Theorem Trajectory_Branch_total trajectory c :
  Trajectory_Branch trajectory c ≠ Err OutOfFuel ∧
  ∀ b, Trajectory_Branch trajectory c = Ok b ↔
       chain (λ x, Ok (entry_index (tj_Entries trajectory) !! x)) c (reverse b).
Proof.
  split.
  - unfold Trajectory_Branch. destruct (is_empty c); [done|]. intros H.
    destruct (walk_loop _ _ _ _ _ _ _ _) eqn:E in H; [done|]. injection H as ->.
    revert E. apply (walk_loop_terminates _ _ _ _ _ _ (dom (entry_index (tj_Entries trajectory)))); try done.
    + intros x e [= He]. by eapply elem_of_dom_2.
    + rewrite difference_empty_L, size_dom. lia.
  - intros b. split; intros H; [|rewrite <-(reverse_involutive b); by apply Trajectory_Branch_chain].
    unfold Trajectory_Branch in H. destruct (is_empty c) eqn:Ec.
    { apply is_empty_true in Ec as ->. injection H as <-. constructor. }
    apply bind_Ok in H as (r & (k & Hk & ->)%walk_loop_collects & [= <-]). by rewrite reverse_involutive.
Qed.

(** ** Forks below schema version 2 *)

(** [Create] accepts a fork that declares schema version 1: its head is the fork point, but the
    store reads no inherited entry for it, so the branch of its head cannot be read, and nothing can
    be appended below it. *)
Theorem schema1_fork_unreadable :
  let fork := {| tj_SchemaVersion := 1; tj_ID := "old"; tj_ParentID := "main"; tj_ParentEntryID := "e2";
                 tj_CreatedAt := 0; tj_UpdatedAt := 0; tj_Head := ""; tj_Checkpoint := ""; tj_Execution := None;
                 tj_Environment := zeroEnvironment; tj_Entries := [] |} in
  ∃ st m, tstore_Create ex_store None fork 5 = Ok st ∧ tstore_LoadMetadata st None "old" = Ok m ∧
    tm_Head m = "e2" ∧ tm_EntryCount m = 2 ∧
    result_ok (tstore_LoadBranch st None "old" (tm_Head m)) = false ∧
    result_ok (tstore_Append st None "old" "e2" [ex_entry "g1" "e2" TrajectoryKindUserMessage] ex_clock) = false.
Proof.
  intros fork. destruct (tstore_Create ex_store None fork 5) as [st|] eqn:H; [|vm_compute in H; discriminate H].
  destruct (tstore_LoadMetadata st None "old") as [m|] eqn:Hm;
    [|vm_compute in H; injection H as <-; vm_compute in Hm; discriminate Hm].
  exists st, m. split; [reflexivity|]. split; [assumption|]. vm_compute in H. injection H as <-.
  vm_compute in Hm. injection Hm as <-. split_and!; vm_compute; reflexivity.
Qed.
