(* ===== verification/Payload.v ===== *)
(** The payloads of trajectory entries: the event payloads of [sdk/events.go], the durable records
    of [sdk/runtime/internal/durability] and what [encoding/json] makes of them.

    Entries hold their payload as JSON text.  [PayloadCodec] is the part of [encoding/json] the code
    relies on: a payload that was encoded decodes to itself, up to what JSON does to its strings
    (invalid UTF-8 is replaced), to raw values (they are compacted; a nil one is [null]) and to empty
    slices marked [omitempty] (they come back nil). *)

From S2P Require Import Prelude GoText Names Message ContextInjection Trajectory Agent EventDispatch.

(** ** Deep copies of [sdk/context_injection.go] *)

Definition CloneContextInjection (injection : ContextInjection) : ContextInjection :=
  {| ci_ID := ci_ID injection; ci_Priority := ci_Priority injection; ci_Mode := ci_Mode injection;
     ci_Origin := ci_Origin injection; ci_TargetSessionID := ci_TargetSessionID injection;
     ci_TargetExecutionID := ci_TargetExecutionID injection; ci_IsMeta := ci_IsMeta injection;
     ci_Messages := CloneMessages (ci_Messages injection); ci_Attributes := ci_Attributes injection;
     ci_CreatedAt := ci_CreatedAt injection |}.

Definition CloneContextInjections (injections : list ContextInjection) : list ContextInjection :=
  CloneContextInjection <$> injections.

(** ** Event payloads *)

Record ModelResponse := {
  mr_Content : string;
  mr_ToolCalls : option (list ToolCall);
  mr_Model : string;
  mr_FinishReason : string;
  mr_InputTokens : Z;
  mr_OutputTokens : Z;
}.

Record ToolResult := {
  tr_Content : string;
  tr_IsError : bool;
}.

Definition ToolMessage (toolCallID : string) (result : ToolResult) : Message :=
  {| msg_Role := RoleTool; msg_Content := tr_Content result; msg_ToolCalls := None;
     msg_ToolCallID := toolCallID; msg_IsError := tr_IsError result |}.

Record AgentStartPayload := {
  sp_Messages : list Message;
  sp_System : string;
}.

Record AfterProviderPayload := {
  ap_Turn : Z;
  ap_Provider : string;
  ap_Response : option ModelResponse;
  ap_Error : string;
}.

Record AfterToolPayload := {
  at_Turn : Z;
  at_Call : ToolCall;
  at_Result : ToolResult;
}.

Record AgentEndPayload := {
  ae_Messages : list Message;
  ae_ContextInjections : list ContextInjection;
  ae_Output : string;
  ae_Turns : Z;
  ae_ToolCalls : Z;
  ae_InputTokens : Z;
  ae_OutputTokens : Z;
  ae_Cause : Cause;
}.

(** ** Durable records *)

(** The empty mode is the legacy snapshot. *)
Definition CheckpointMessagesSnapshot : string := "".
Definition CheckpointMessagesBranch : string := "branch".

Record Checkpoint := {
  cp_Messages : list Message;
  cp_MessageMode : string;
  cp_System : string;
  cp_Provider : string;
  cp_Output : string;
  cp_Turns : Z;
  cp_ToolCalls : Z;
  cp_InputTokens : Z;
  cp_OutputTokens : Z;
  cp_Generation : Z;
  cp_Action : Action;
  cp_ContextInjections : list ContextInjection;
  cp_ConsumedContextInjectionIDs : list string;
  cp_Dependencies : list string;
}.

(** Without the request of legacy entries, which new entries do not carry. *)
Record ProviderRequest := {
  pq_Turn : Z;
  pq_Provider : string;
  pq_Model : string;
  pq_OperationKey : string;
  pq_CorrelationID : string;
  pq_MessageCount : Z;
  pq_ToolCount : Z;
}.

Record ProviderResponse := {
  pr_After : AfterProviderPayload;
  pr_CorrelationID : string;
}.

Record DurableToolCall := {
  dc_Turn : Z;
  dc_Call : ToolCall;
  dc_OperationKey : string;
  dc_CorrelationID : string;
}.

Record DurableToolResult := {
  dt_After : AfterToolPayload;
  dt_CorrelationID : string;
}.

Record Decision := {
  de_Turn : Z;
  de_Action : Action;
}.

Record ExecutionInput := {
  ei_Message : Message;
  ei_BaseMessages : list Message;
  ei_Environment : TrajectoryEnvironment;
}.

(** The values the runtime encodes into entries; a restore or rollback entry holds where the head
    moved from and to. *)
Inductive payload :=
  | PInput (input : ExecutionInput)
  | PAgentStart (start : AgentStartPayload)
  | PProviderRequest (request : ProviderRequest)
  | PProviderResponse (response : ProviderResponse)
  | PToolCall (call : DurableToolCall)
  | PToolResult (result : DurableToolResult)
  | PDecision (decision : Decision)
  | PCheckpoint (checkpoint : Checkpoint)
  | PTerminal (end_ : AgentEndPayload)
  | PHeadMove (from to : string).

(** ** [EntryFields] *)

Definition zeroFields : TrajectoryEntryFields :=
  {| tf_Turn := None; tf_ExecutionID := ""; tf_OperationKey := ""; tf_CorrelationID := ""; tf_Provider := "";
     tf_Model := ""; tf_ToolName := ""; tf_ToolCallID := ""; tf_FinishReason := ""; tf_InputTokens := 0;
     tf_OutputTokens := 0; tf_IsError := None; tf_CauseCode := ""; tf_ActionKind := "" |}.

Definition cause_code (cause : option Cause) : string := match cause with Some c => ca_Code c | None => "" end.

Definition action_fields (turn : option Z) (action : Action) : TrajectoryEntryFields :=
  {| tf_Turn := turn; tf_ExecutionID := ""; tf_OperationKey := ""; tf_CorrelationID := ""; tf_Provider := "";
     tf_Model := ""; tf_ToolName := ""; tf_ToolCallID := ""; tf_FinishReason := ""; tf_InputTokens := 0;
     tf_OutputTokens := 0; tf_IsError := None; tf_CauseCode := cause_code (ac_Cause action);
     tf_ActionKind := ac_Kind action |}.

Definition EntryFields (p : payload) : TrajectoryEntryFields :=
  match p with
  | PProviderRequest value =>
      {| tf_Turn := Some (pq_Turn value); tf_ExecutionID := ""; tf_OperationKey := pq_OperationKey value;
         tf_CorrelationID := string_default (pq_CorrelationID value) (pq_OperationKey value);
         tf_Provider := pq_Provider value; tf_Model := pq_Model value; tf_ToolName := ""; tf_ToolCallID := "";
         tf_FinishReason := ""; tf_InputTokens := 0; tf_OutputTokens := 0; tf_IsError := None;
         tf_CauseCode := ""; tf_ActionKind := "" |}
  | PProviderResponse value =>
      let after := pr_After value in
      let get {A} (f : ModelResponse → A) (d : A) := match ap_Response after with Some r => f r | None => d end in
      {| tf_Turn := Some (ap_Turn after); tf_ExecutionID := ""; tf_OperationKey := "";
         tf_CorrelationID := pr_CorrelationID value; tf_Provider := ap_Provider after;
         tf_Model := get mr_Model ""; tf_ToolName := ""; tf_ToolCallID := "";
         tf_FinishReason := get mr_FinishReason ""; tf_InputTokens := get mr_InputTokens 0;
         tf_OutputTokens := get mr_OutputTokens 0; tf_IsError := Some (negb (is_empty (ap_Error after)));
         tf_CauseCode := ""; tf_ActionKind := "" |}
  | PToolCall value =>
      {| tf_Turn := Some (dc_Turn value); tf_ExecutionID := ""; tf_OperationKey := dc_OperationKey value;
         tf_CorrelationID := dc_CorrelationID value; tf_Provider := ""; tf_Model := "";
         tf_ToolName := tc_Name (dc_Call value); tf_ToolCallID := tc_ID (dc_Call value);
         tf_FinishReason := ""; tf_InputTokens := 0; tf_OutputTokens := 0; tf_IsError := None;
         tf_CauseCode := ""; tf_ActionKind := "" |}
  | PToolResult value =>
      let after := dt_After value in
      {| tf_Turn := Some (at_Turn after); tf_ExecutionID := ""; tf_OperationKey := "";
         tf_CorrelationID := dt_CorrelationID value; tf_Provider := ""; tf_Model := "";
         tf_ToolName := tc_Name (at_Call after); tf_ToolCallID := tc_ID (at_Call after);
         tf_FinishReason := ""; tf_InputTokens := 0; tf_OutputTokens := 0;
         tf_IsError := Some (tr_IsError (at_Result after)); tf_CauseCode := ""; tf_ActionKind := "" |}
  | PDecision value => action_fields (Some (de_Turn value)) (de_Action value)
  | PCheckpoint value =>
      action_fields (if 0 <? cp_Turns value then Some (cp_Turns value - 1) else None) (cp_Action value)
  | PTerminal value =>
      {| tf_Turn := None; tf_ExecutionID := ""; tf_OperationKey := ""; tf_CorrelationID := ""; tf_Provider := "";
         tf_Model := ""; tf_ToolName := ""; tf_ToolCallID := ""; tf_FinishReason := ""; tf_InputTokens := 0;
         tf_OutputTokens := 0; tf_IsError := None; tf_CauseCode := ca_Code (ae_Cause value); tf_ActionKind := "" |}
  | PInput _ | PAgentStart _ | PHeadMove _ _ => zeroFields
  end.

(** ** [encoding/json] on payloads *)

Definition ascii_text (s : string) : bool :=
  string_forallb (λ c, (nat_of_ascii c <? 128)%nat) s.

Section canonical.
(** What a string and the text of a raw value are after a round trip, and the context injections and
    environments a payload carries. *)
Context (json_text json_raw : string → string).
Context (json_injection : ContextInjection → ContextInjection)
        (json_environment : TrajectoryEnvironment → TrajectoryEnvironment).

Definition canon_role (role : Role) : Role :=
  match role with RoleOther text => RoleOther (json_text text) | _ => role end.

Definition canon_arguments (arguments : option string) : option string :=
  match clone_bytes arguments with Some text => Some (json_raw text) | None => Some "null" end.

Definition canon_call (call : ToolCall) : ToolCall :=
  {| tc_ID := json_text (tc_ID call); tc_Name := json_text (tc_Name call);
     tc_Arguments := canon_arguments (tc_Arguments call) |}.

Definition canon_calls (calls : option (list ToolCall)) : option (list ToolCall) :=
  match calls with
  | None | Some [] => None
  | Some calls => Some (canon_call <$> calls)
  end.

Definition canon_message (message : Message) : Message :=
  {| msg_Role := canon_role (msg_Role message); msg_Content := json_text (msg_Content message);
     msg_ToolCalls := canon_calls (msg_ToolCalls message); msg_ToolCallID := json_text (msg_ToolCallID message);
     msg_IsError := msg_IsError message |}.

Definition canon_response (response : ModelResponse) : ModelResponse :=
  {| mr_Content := json_text (mr_Content response); mr_ToolCalls := canon_calls (mr_ToolCalls response);
     mr_Model := json_text (mr_Model response); mr_FinishReason := json_text (mr_FinishReason response);
     mr_InputTokens := mr_InputTokens response; mr_OutputTokens := mr_OutputTokens response |}.

Definition canon_cause (cause : Cause) : Cause :=
  {| ca_Code := json_text (ca_Code cause); ca_Detail := json_text (ca_Detail cause); ca_Final := ca_Final cause |}.

Definition canon_action (action : Action) : Action :=
  {| ac_Kind := json_text (ac_Kind action); ac_Cause := canon_cause <$> ac_Cause action;
     ac_Messages := canon_message <$> ac_Messages action |}.

Definition canon_start (start : AgentStartPayload) : AgentStartPayload :=
  {| sp_Messages := canon_message <$> sp_Messages start; sp_System := json_text (sp_System start) |}.

Definition canon_after_provider (after : AfterProviderPayload) : AfterProviderPayload :=
  {| ap_Turn := ap_Turn after; ap_Provider := json_text (ap_Provider after);
     ap_Response := canon_response <$> ap_Response after; ap_Error := json_text (ap_Error after) |}.

Definition canon_after_tool (after : AfterToolPayload) : AfterToolPayload :=
  {| at_Turn := at_Turn after; at_Call := canon_call (at_Call after);
     at_Result := {| tr_Content := json_text (tr_Content (at_Result after));
                     tr_IsError := tr_IsError (at_Result after) |} |}.

Definition canon_end (end_ : AgentEndPayload) : AgentEndPayload :=
  {| ae_Messages := canon_message <$> ae_Messages end_;
     ae_ContextInjections := json_injection <$> ae_ContextInjections end_;
     ae_Output := json_text (ae_Output end_); ae_Turns := ae_Turns end_; ae_ToolCalls := ae_ToolCalls end_;
     ae_InputTokens := ae_InputTokens end_; ae_OutputTokens := ae_OutputTokens end_;
     ae_Cause := canon_cause (ae_Cause end_) |}.

Definition canon_checkpoint (c : Checkpoint) : Checkpoint :=
  {| cp_Messages := canon_message <$> cp_Messages c; cp_MessageMode := json_text (cp_MessageMode c);
     cp_System := json_text (cp_System c); cp_Provider := json_text (cp_Provider c);
     cp_Output := json_text (cp_Output c); cp_Turns := cp_Turns c; cp_ToolCalls := cp_ToolCalls c;
     cp_InputTokens := cp_InputTokens c; cp_OutputTokens := cp_OutputTokens c; cp_Generation := cp_Generation c;
     cp_Action := canon_action (cp_Action c); cp_ContextInjections := json_injection <$> cp_ContextInjections c;
     cp_ConsumedContextInjectionIDs := json_text <$> cp_ConsumedContextInjectionIDs c;
     cp_Dependencies := json_text <$> cp_Dependencies c |}.

Definition canon_input (input : ExecutionInput) : ExecutionInput :=
  {| ei_Message := canon_message (ei_Message input);
     ei_BaseMessages := canon_message <$> ei_BaseMessages input;
     ei_Environment := json_environment (ei_Environment input) |}.
End canonical.

(** Encoding can fail: a raw value may be no JSON. *)
Class PayloadCodec := {
  json_text : string → string;
  json_raw : string → string;
  json_injection : ContextInjection → ContextInjection;
  json_environment : TrajectoryEnvironment → TrajectoryEnvironment;
  Marshal_payload : payload → result string;
  Unmarshal_input : string → result ExecutionInput;
  Unmarshal_message : string → result Message;
  Unmarshal_start : string → result AgentStartPayload;
  Unmarshal_after_provider : string → result AfterProviderPayload;
  Unmarshal_after_tool : string → result AfterToolPayload;
  Unmarshal_checkpoint : string → result Checkpoint;
  Unmarshal_end : string → result AgentEndPayload;
}.

(** The documented behaviour of [encoding/json] the theorems use. *)
Class PayloadCodecLaws (codec : PayloadCodec) : Prop := {
  json_text_ascii s : ascii_text s = true → json_text s = s;
  json_text_idem s : json_text (json_text s) = json_text s;
  json_raw_nonempty s : json_raw s ≠ "";
  json_raw_idem s : json_raw (json_raw s) = json_raw s;
  json_raw_null : json_raw "null" = "null";
  roundtrip_input input s : Marshal_payload (PInput input) = Ok s →
    Unmarshal_input s = Ok (canon_input json_text json_raw json_environment input);
  roundtrip_start start s : Marshal_payload (PAgentStart start) = Ok s →
    Unmarshal_start s = Ok (canon_start json_text json_raw start);
  roundtrip_response response s : Marshal_payload (PProviderResponse response) = Ok s →
    Unmarshal_after_provider s = Ok (canon_after_provider json_text json_raw (pr_After response));
  roundtrip_result result s : Marshal_payload (PToolResult result) = Ok s →
    Unmarshal_after_tool s = Ok (canon_after_tool json_text json_raw (dt_After result));
  roundtrip_checkpoint checkpoint s : Marshal_payload (PCheckpoint checkpoint) = Ok s →
    Unmarshal_checkpoint s = Ok (canon_checkpoint json_text json_raw json_injection checkpoint);
  roundtrip_end end_ s : Marshal_payload (PTerminal end_) = Ok s →
    Unmarshal_end s = Ok (canon_end json_text json_raw json_injection end_);
}.

Abbreviation canon := (canon_message json_text json_raw).
