(* ===== verification/Durability.v ===== *)
(** Durable conversations: [sdk/runtime/internal/durability], which rebuilds the messages a model sees
    from the entries of a trajectory branch ([checkpoint.go], [execution_input.go]) and the variant
    that reads only the entries it needs ([trajectory_projection.go]).

    The trajectory store is the in-memory one of [TrajectoryStore]; the store that can list a branch
    without its payloads is a parameter. *)

From S2P Require Import Prelude GoText Names Message ContextInjection Trajectory TrajectoryStore.
From S2P Require Import Agent EventDispatch Payload.

Section durability.
Context `{!PayloadCodec}.

(** ** [execution_input.go] *)

Definition NewExecutionInput (message : Message) (environment : TrajectoryEnvironment)
    (baseMessages : list Message) : ExecutionInput :=
  {| ei_Message := CloneMessage message; ei_BaseMessages := CloneMessages baseMessages;
     ei_Environment := environment |}.

Record DecodedExecutionInput := {
  di_Message : Message;
  di_BaseMessages : list Message;
  di_Environment : TrajectoryEnvironment;
  di_HasEnvelope : bool;
  di_HasEnvironment : bool;
}.

Definition executionInputEnvelopeHasMessage (message : Message) : bool :=
  negb (bool_decide (msg_Role message = RoleOther "")) || negb (is_empty (msg_Content message)) ||
  match msg_ToolCalls message with None | Some [] => false | Some _ => true end ||
  negb (is_empty (msg_ToolCallID message)) || msg_IsError message.

Definition has_environment (environment : TrajectoryEnvironment) : bool :=
  negb (env_SDKAPIVersion environment =? 0) || negb (is_empty (env_CompositionDigest environment)).

Definition executionInputEnvelopeHasPayload (input : ExecutionInput) : bool :=
  executionInputEnvelopeHasMessage (ei_Message input) ||
  negb (length (ei_BaseMessages input) =? 0)%nat || has_environment (ei_Environment input).

Definition DecodeExecutionInput (trajectoryID : string) (entry : TrajectoryEntry) : result DecodedExecutionInput :=
  fail_if negb (bool_decide (te_Kind entry = TrajectoryKindUserMessage)) with
    Errorf "trajectory %q entry %q is %q, not %q"
      [AStr trajectoryID; AStr (te_ID entry); AStr (trajectory_kind_text (te_Kind entry)); AStr "user_message"];
  let legacy :=
    match Unmarshal_message (te_Payload entry) with
    | Err err =>
        Err (Wrapf "decode trajectory %q user message %q: %w" [AStr trajectoryID; AStr (te_ID entry)] err)
    | Ok message =>
        Ok {| di_Message := CloneMessage message; di_BaseMessages := []; di_Environment := zeroEnvironment;
              di_HasEnvelope := false; di_HasEnvironment := false |}
    end in
  match Unmarshal_input (te_Payload entry) with
  | Ok input =>
      if executionInputEnvelopeHasPayload input then
        Ok {| di_Message := CloneMessage (ei_Message input); di_BaseMessages := CloneMessages (ei_BaseMessages input);
              di_Environment := ei_Environment input; di_HasEnvelope := true;
              di_HasEnvironment := has_environment (ei_Environment input) |}
      else legacy
  | Err _ => legacy
  end.

Definition MessagesAfter (input : DecodedExecutionInput) (base : list Message) : list Message :=
  (if di_HasEnvelope input then CloneMessages (di_BaseMessages input) else CloneMessages base) ++
  [CloneMessage (di_Message input)].

(** ** The projection of a branch *)

Definition decode_error (trajectoryID : string) (entry : TrajectoryEntry) (err : error) : error :=
  Wrapf "decode trajectory %q %s entry %q: %w"
    [AStr trajectoryID; AStr (trajectory_kind_text (te_Kind entry)); AStr (te_ID entry)] err.

(** [decodeTrajectoryPayload]. *)
Definition decodeTrajectoryPayload {A} (unmarshal : string → result A) (trajectoryID : string)
    (entry : TrajectoryEntry) : result A :=
  match unmarshal (te_Payload entry) with
  | Ok value => Ok value
  | Err err => Err (decode_error trajectoryID entry err)
  end.

Definition with_messages (c : Checkpoint) (messages : list Message) : Checkpoint :=
  {| cp_Messages := messages; cp_MessageMode := cp_MessageMode c; cp_System := cp_System c;
     cp_Provider := cp_Provider c; cp_Output := cp_Output c; cp_Turns := cp_Turns c; cp_ToolCalls := cp_ToolCalls c;
     cp_InputTokens := cp_InputTokens c; cp_OutputTokens := cp_OutputTokens c; cp_Generation := cp_Generation c;
     cp_Action := cp_Action c; cp_ContextInjections := cp_ContextInjections c;
     cp_ConsumedContextInjectionIDs := cp_ConsumedContextInjectionIDs c; cp_Dependencies := cp_Dependencies c |}.

Definition with_injections (c : Checkpoint) (injections : list ContextInjection) : Checkpoint :=
  {| cp_Messages := cp_Messages c; cp_MessageMode := cp_MessageMode c; cp_System := cp_System c;
     cp_Provider := cp_Provider c; cp_Output := cp_Output c; cp_Turns := cp_Turns c; cp_ToolCalls := cp_ToolCalls c;
     cp_InputTokens := cp_InputTokens c; cp_OutputTokens := cp_OutputTokens c; cp_Generation := cp_Generation c;
     cp_Action := cp_Action c; cp_ContextInjections := injections;
     cp_ConsumedContextInjectionIDs := cp_ConsumedContextInjectionIDs c; cp_Dependencies := cp_Dependencies c |}.

Definition DecodeCheckpoint (trajectoryID : string) (entry : TrajectoryEntry) : result Checkpoint :=
  match Unmarshal_checkpoint (te_Payload entry) with
  | Err err =>
      Err (Wrapf "decode trajectory %q checkpoint %q: %w" [AStr trajectoryID; AStr (te_ID entry)] err)
  | Ok checkpoint =>
      fail_if negb (bool_decide (cp_MessageMode checkpoint = CheckpointMessagesSnapshot)) &&
              negb (bool_decide (cp_MessageMode checkpoint = CheckpointMessagesBranch)) with
        Errorf "decode trajectory %q checkpoint %q: unknown message mode %q"
          [AStr trajectoryID; AStr (te_ID entry); AStr (cp_MessageMode checkpoint)];
      Ok (with_injections (with_messages checkpoint (CloneMessages (cp_Messages checkpoint)))
            (CloneContextInjections (cp_ContextInjections checkpoint)))
  end.

(** [Messages] of an optional checkpoint. *)
Definition checkpoint_messages (checkpoint : option Checkpoint) : list Message :=
  match checkpoint with None => [] | Some c => CloneMessages (cp_Messages c) end.

Definition assistantMessage (response : ModelResponse) : Message :=
  {| msg_Role := RoleAssistant; msg_Content := mr_Content response;
     msg_ToolCalls := CloneToolCalls (mr_ToolCalls response); msg_ToolCallID := ""; msg_IsError := false |}.

Definition branchMessagesAfterEntry (trajectoryID : string) (messages : list Message) (entry : TrajectoryEntry)
    : result (list Message) :=
  match te_Kind entry with
  | TrajectoryKindUserMessage =>
      let? input := DecodeExecutionInput trajectoryID entry in Ok (MessagesAfter input messages)
  | TrajectoryKindAgentStart =>
      let? start := decodeTrajectoryPayload Unmarshal_start trajectoryID entry in
      Ok (CloneMessages (sp_Messages start))
  | TrajectoryKindProviderResponse =>
      let? after := decodeTrajectoryPayload Unmarshal_after_provider trajectoryID entry in
      Ok (match ap_Response after with
          | None => CloneMessages messages
          | Some response => CloneMessages messages ++ [assistantMessage response]
          end)
  | TrajectoryKindToolResult =>
      let? after := decodeTrajectoryPayload Unmarshal_after_tool trajectoryID entry in
      Ok (CloneMessages messages ++ [ToolMessage (tc_ID (at_Call after)) (at_Result after)])
  | TrajectoryKindCheckpoint =>
      let? checkpoint := DecodeCheckpoint trajectoryID entry in
      Ok (if bool_decide (cp_MessageMode checkpoint = CheckpointMessagesBranch) then
            CloneMessages messages ++
            (if bool_decide (ac_Kind (cp_Action checkpoint) = ActionInject)
             then CloneMessages (ac_Messages (cp_Action checkpoint)) else [])
          else checkpoint_messages (Some checkpoint))
  | TrajectoryKindTerminal =>
      let? end_ := decodeTrajectoryPayload Unmarshal_end trajectoryID entry in
      Ok (if (length (ae_Messages end_) =? 0)%nat then CloneMessages messages else CloneMessages (ae_Messages end_))
  | _ => Ok (CloneMessages messages)
  end.

Fixpoint replay_branch (trajectoryID : string) (messages : list Message) (entries : list TrajectoryEntry)
    : result (list Message) :=
  match entries with
  | [] => Ok messages
  | entry :: rest =>
      let? messages := branchMessagesAfterEntry trajectoryID messages entry in
      replay_branch trajectoryID messages rest
  end.

(** The loop of [BranchMessages] from the head down to the latest snapshot checkpoint: the messages it
    holds and the entries after it, from the entries read so far. *)
Fixpoint snapshot_loop (trajectoryID : string) (reversed after : list TrajectoryEntry)
    : result (list Message * list TrajectoryEntry) :=
  match reversed with
  | [] => Ok ([], after)
  | entry :: rest =>
      if negb (bool_decide (te_Kind entry = TrajectoryKindCheckpoint)) then
        snapshot_loop trajectoryID rest (entry :: after)
      else
        let? checkpoint := DecodeCheckpoint trajectoryID entry in
        if bool_decide (cp_MessageMode checkpoint = CheckpointMessagesSnapshot)
        then Ok (checkpoint_messages (Some checkpoint), after)
        else snapshot_loop trajectoryID rest (entry :: after)
  end.

Definition BranchMessages (trajectoryID : string) (branch : list TrajectoryEntry) : result (list Message) :=
  let? '(messages, entries) := snapshot_loop trajectoryID (reverse branch) [] in
  let? messages := replay_branch trajectoryID messages entries in
  Ok (CloneMessages messages).

(** ** [trajectory_projection.go] *)

Definition messageProjectionEntryKind (kind : TrajectoryKind) : bool :=
  match kind with
  | TrajectoryKindUserMessage | TrajectoryKindAgentStart | TrajectoryKindProviderResponse
  | TrajectoryKindToolResult | TrajectoryKindCheckpoint | TrajectoryKindTerminal => true
  | _ => false
  end.

(** What the index tells of an entry; the code reads no other field of [TrajectoryEntryInspection]. *)
Record TrajectoryEntryInspection := {
  in_ID : string;
  in_Kind : TrajectoryKind;
}.

(** The backward loop: the inspected entries from the latest snapshot checkpoint on, those it loaded
    with their payload. *)
Fixpoint inspect_loop (load : string → result TrajectoryEntry) (trajectoryID : string)
    (reversed : list TrajectoryEntryInspection)
    (after : list (TrajectoryEntryInspection * option TrajectoryEntry))
    : result (list (TrajectoryEntryInspection * option TrajectoryEntry)) :=
  match reversed with
  | [] => Ok after
  | inspection :: rest =>
      if negb (bool_decide (in_Kind inspection = TrajectoryKindCheckpoint)) then
        inspect_loop load trajectoryID rest ((inspection, None) :: after)
      else
        let? entry := load (in_ID inspection) in
        let? checkpoint := DecodeCheckpoint trajectoryID entry in
        let after := (inspection, Some entry) :: after in
        if bool_decide (cp_MessageMode checkpoint = CheckpointMessagesSnapshot) then Ok after
        else inspect_loop load trajectoryID rest after
  end.

Fixpoint load_projection (load : string → result TrajectoryEntry)
    (inspected : list (TrajectoryEntryInspection * option TrajectoryEntry)) : result (list TrajectoryEntry) :=
  match inspected with
  | [] => Ok []
  | (inspection, loaded) :: rest =>
      if negb (messageProjectionEntryKind (in_Kind inspection)) then load_projection load rest else
      let? entry := match loaded with Some entry => Ok entry | None => load (in_ID inspection) end in
      let? entries := load_projection load rest in
      Ok (entry :: entries)
  end.

Definition LoadInspectedBranchMessages (load : string → result TrajectoryEntry) (trajectoryID : string)
    (branch : list TrajectoryEntryInspection) : result (list Message) :=
  fail_if is_empty trajectoryID with errors_New "load inspected branch messages: trajectory ID is empty";
  let? inspected := inspect_loop load trajectoryID (reverse branch) [] in
  let? entries := load_projection load inspected in
  BranchMessages trajectoryID entries.

(** ** Unresolved tool calls *)

Fixpoint removePendingToolCall (pending : list string) (id : string) : list string :=
  match pending with
  | [] => []
  | candidate :: rest => if bool_decide (candidate = id) then rest else candidate :: removePendingToolCall rest id
  end.

Definition remove_pending (pending : list string) (id : string) : list string :=
  if is_empty id then pending else removePendingToolCall pending id.

Definition flush_pending (placeholder : string) (pending : list string) : list Message :=
  (λ id, ToolMessage id {| tr_Content := placeholder; tr_IsError := false |}) <$> pending.

Definition call_ids (message : Message) : list string :=
  filter (λ id, is_empty id = false) (tc_ID <$> default [] (msg_ToolCalls message)).

Fixpoint close_loop (placeholder : string) (pending : list string) (messages : list Message) : list Message :=
  match messages with
  | [] => flush_pending placeholder pending
  | message :: rest =>
      let '(flushed, pending) :=
        if negb (bool_decide (msg_Role message = RoleTool)) && negb (length pending =? 0)%nat
        then (flush_pending placeholder pending, []) else ([], pending) in
      let pending :=
        match msg_Role message with
        | RoleAssistant => pending ++ call_ids message
        | RoleTool => remove_pending pending (msg_ToolCallID message)
        | _ => pending
        end in
      flushed ++ message :: close_loop placeholder pending rest
  end.

Definition ForkToolResultPlaceholder : string :=
  "Forked agent inherited this parent tool call without its result.".

Definition CloseUnresolvedToolCalls (messages : list Message) (placeholder : string) : list Message :=
  let placeholder := string_default placeholder "Tool result omitted from trajectory branch projection." in
  CloneMessages (close_loop placeholder [] (CloneMessages messages)).

(** ** Reading the store *)

Definition LoadBranchMessages (st : memoryTrajectoryStore) (ctx : context) (trajectoryID head : string)
    : result (list Message) :=
  if is_empty head then Ok [] else
  let? branch := tstore_LoadBranch st ctx trajectoryID head in
  BranchMessages trajectoryID branch.

Definition HydrateCheckpointMessages (st : memoryTrajectoryStore) (ctx : context) (trajectoryID : string)
    (entry : TrajectoryEntry) (checkpoint : Checkpoint) : result Checkpoint :=
  if negb (bool_decide (cp_MessageMode checkpoint = CheckpointMessagesBranch)) then Ok checkpoint else
  let? messages := LoadBranchMessages st ctx trajectoryID (te_ID entry) in
  Ok (with_messages checkpoint messages).

(** [None] is the zero entry with a nil checkpoint. *)
Definition LatestCheckpoint (st : memoryTrajectoryStore) (ctx : context) (metadata : TrajectoryMetadata)
    : result (option (TrajectoryEntry * Checkpoint)) :=
  if is_empty (tm_Checkpoint metadata) then Ok None else
  let? entry := tstore_LoadEntry st ctx (tm_ID metadata) (tm_Checkpoint metadata) in
  fail_if negb (bool_decide (te_Kind entry = TrajectoryKindCheckpoint)) with
    Errorf "trajectory %q cached checkpoint %q is %q"
      [AStr (tm_ID metadata); AStr (te_ID entry); AStr (trajectory_kind_text (te_Kind entry))];
  let? checkpoint := DecodeCheckpoint (tm_ID metadata) entry in
  let? checkpoint := HydrateCheckpointMessages st ctx (tm_ID metadata) entry checkpoint in
  Ok (Some (entry, checkpoint)).

Definition LatestExecutionCheckpoint (st : memoryTrajectoryStore) (ctx : context) (metadata : TrajectoryMetadata)
    : result (option (TrajectoryEntry * Checkpoint)) :=
  match tm_Execution metadata with
  | None => Ok None
  | Some execution =>
      if is_empty (tm_Head metadata) then Ok None else
      let? latest := tstore_FindLatest st ctx (tm_ID metadata) (tm_Head metadata) TrajectoryKindCheckpoint in
      match latest with
      | None => Ok None
      | Some entry =>
          if negb (bool_decide (tf_ExecutionID (te_Fields entry) = ex_ID execution)) then Ok None else
          let? checkpoint := DecodeCheckpoint (tm_ID metadata) entry in
          let? checkpoint := HydrateCheckpointMessages st ctx (tm_ID metadata) entry checkpoint in
          Ok (Some (entry, checkpoint))
      end
  end.

Record BranchBase := {
  bb_Head : string;
  bb_Messages : list Message;
}.

Definition LoadBranchBase (st : memoryTrajectoryStore) (ctx : context) (trajectoryID head : string)
    : result BranchBase :=
  let? messages := LoadBranchMessages st ctx trajectoryID head in
  Ok {| bb_Head := head; bb_Messages := messages |}.

Definition has_no_execution (id : string) : error :=
  Wrapf "%w: trajectory %s has no execution" [AStr id] (Sentinel ErrTrajectoryExecution).

Definition LoadExecutionCompletionBase (st : memoryTrajectoryStore) (ctx : context) (metadata : TrajectoryMetadata)
    : result BranchBase :=
  match tm_Execution metadata with
  | None => Err (has_no_execution (tm_ID metadata))
  | Some execution => LoadBranchBase st ctx (tm_ID metadata) (ex_BaseHead execution)
  end.

Definition terminalExecutionResumeHead (metadata : TrajectoryMetadata) : option string :=
  match tm_Execution metadata with
  | None => None
  | Some execution =>
      match ex_State execution with
      | TrajectoryExecutionFailed | TrajectoryExecutionCancelled => Some (ex_BaseHead execution)
      | _ => None
      end
  end.

Definition trajectoryOwnsEntry (metadata : TrajectoryMetadata) (entry : option TrajectoryEntry) : bool :=
  match entry with
  | Some entry => negb (is_empty (te_ID entry)) && bool_decide (te_TrajectoryID entry = tm_ID metadata)
  | None => false
  end.

Definition entry_id (entry : option TrajectoryEntry) : string := match entry with Some e => te_ID e | None => "" end.

Definition sessionResumeBranchHead (metadata : TrajectoryMetadata) (checkpointEntry : option TrajectoryEntry)
    : string * bool :=
  match terminalExecutionResumeHead metadata with
  | Some head => (head, true)
  | None =>
      if negb (is_empty (tm_ParentID metadata)) && negb (trajectoryOwnsEntry metadata checkpointEntry)
      then (tm_ParentEntryID metadata, false)
      else (entry_id checkpointEntry, true)
  end.

Record SessionResumeBase := {
  sb_Base : BranchBase;
  sb_CheckpointEntry : option TrajectoryEntry;
  sb_Checkpoint : option Checkpoint;
}.

Definition LoadSessionResumeBase (st : memoryTrajectoryStore) (ctx : context) (metadata : TrajectoryMetadata)
    : result SessionResumeBase :=
  let? latest := LatestCheckpoint st ctx metadata in
  let checkpointEntry := fst <$> latest in
  let checkpoint := snd <$> latest in
  let '(head, preserveCheckpoint) := sessionResumeBranchHead metadata checkpointEntry in
  let? base :=
    (if negb (bool_decide (head = entry_id checkpointEntry)) || negb preserveCheckpoint then
       match LoadBranchBase st ctx (tm_ID metadata) head with
       | Err err =>
           Err (if negb preserveCheckpoint
                then Wrapf "project forked trajectory %q base branch at %q: %w" [AStr (tm_ID metadata); AStr head] err
                else err)
       | Ok base =>
           Ok (if negb preserveCheckpoint
               then {| bb_Head := bb_Head base;
                       bb_Messages := CloseUnresolvedToolCalls (bb_Messages base) ForkToolResultPlaceholder |}
               else base)
       end
     else Ok {| bb_Head := entry_id checkpointEntry; bb_Messages := checkpoint_messages checkpoint |}) in
  Ok (if preserveCheckpoint
      then {| sb_Base := base; sb_CheckpointEntry := checkpointEntry; sb_Checkpoint := checkpoint |}
      else {| sb_Base := base; sb_CheckpointEntry := None; sb_Checkpoint := None |}).

(** The accepted input of an execution: the base conversation and the user message. *)
Definition LoadAcceptedExecutionInput (st : memoryTrajectoryStore) (ctx : context) (trajectoryID baseHead : string)
    (entry : TrajectoryEntry) : result (list Message * Message) :=
  let? input := DecodeExecutionInput trajectoryID entry in
  if di_HasEnvelope input then Ok (CloneMessages (di_BaseMessages input), di_Message input) else
  if is_empty baseHead then Ok ([], di_Message input) else
  let? messages := LoadBranchMessages st ctx trajectoryID baseHead in
  Ok (messages, di_Message input).

Record ExecutionRecoveryBase := {
  rb_Head : string;
  rb_Messages : list Message;
  rb_Message : option Message;
  rb_Checkpoint : option (TrajectoryEntry * Checkpoint);
}.

Definition LoadExecutionRecoveryBase (st : memoryTrajectoryStore) (ctx : context) (metadata : TrajectoryMetadata)
    (inputEntry : TrajectoryEntry) : result ExecutionRecoveryBase :=
  match tm_Execution metadata with
  | None => Err (has_no_execution (tm_ID metadata))
  | Some execution =>
      fail_if negb (bool_decide (te_ID inputEntry = ex_InputEntryID execution)) with
        Errorf "trajectory %q recovery input entry = %q, want %q"
          [AStr (tm_ID metadata); AStr (te_ID inputEntry); AStr (ex_InputEntryID execution)];
      let? latest := LatestExecutionCheckpoint st ctx metadata in
      match latest with
      | Some (entry, checkpoint) =>
          Ok {| rb_Head := te_ID entry; rb_Messages := checkpoint_messages (Some checkpoint); rb_Message := None;
                rb_Checkpoint := Some (entry, checkpoint) |}
      | None =>
          let? '(messages, message) :=
            LoadAcceptedExecutionInput st ctx (tm_ID metadata) (ex_BaseHead execution) inputEntry in
          Ok {| rb_Head := te_ID inputEntry; rb_Messages := messages; rb_Message := Some message;
                rb_Checkpoint := None |}
      end
  end.

Definition HeadRestoresAnchor (st : memoryTrajectoryStore) (ctx : context) (trajectoryID head anchorID : string)
    : result bool :=
  if is_empty head then Ok (is_empty anchorID) else
  if bool_decide (head = anchorID) then Ok true else
  let? entry := tstore_LoadEntry st ctx trajectoryID head in
  Ok ((bool_decide (te_Kind entry = TrajectoryKindRestore) || bool_decide (te_Kind entry = TrajectoryKindRollback)) &&
      bool_decide (te_ParentID entry = anchorID)).
End durability.
