(* ===== verification/DurabilityProperties.v ===== *)
(** The projection of a branch: starting from the latest snapshot gives the replay of the whole branch,
    reading only the indexed entries gives the projection of the full branch, and a fork leaves no tool
    call of its parent unanswered. *)

From S2P Require Import Prelude GoText Names Message ContextInjection Trajectory TrajectoryStore.
From S2P Require Import Agent EventDispatch Payload Durability.

(** ** Deep copies *)

Definition cloned (ms : list Message) : Prop := CloneMessages ms = ms.

Lemma cloned_CloneMessages ms : cloned (CloneMessages ms).
Proof. apply CloneMessages_idem. Qed.

Lemma CloneMessages_app xs ys : CloneMessages (xs ++ ys) = CloneMessages xs ++ CloneMessages ys.
Proof. apply fmap_app. Qed.

Lemma cloned_app xs ys : cloned xs → cloned ys → cloned (xs ++ ys).
Proof. unfold cloned. rewrite CloneMessages_app. congruence. Qed.

Lemma cloned_nil : cloned [].
Proof. done. Qed.

Lemma cloned_tool id r : cloned [ToolMessage id r].
Proof. done. Qed.

Lemma CloneToolCalls_idem calls : CloneToolCalls (CloneToolCalls calls) = CloneToolCalls calls.
Proof.
  destruct calls as [calls|]; [|done]. simpl. f_equal. rewrite <-list_fmap_compose. apply list_fmap_ext.
  intros i [id name args] _. simpl. f_equal. by destruct args as [[]|].
Qed.

Lemma cloned_assistant r : cloned [assistantMessage r].
Proof. unfold cloned, assistantMessage, CloneMessages, CloneMessage. simpl. by rewrite CloneToolCalls_idem. Qed.

Create HintDb clones.
#[export] Hint Resolve cloned_CloneMessages cloned_app cloned_nil cloned_tool cloned_assistant : clones.

Abbreviation projected := (filter (λ e, messageProjectionEntryKind (te_Kind e) = true)).

Section projection.
Context `{!PayloadCodec} (id : string).

Lemma cloned_checkpoint c : cloned (checkpoint_messages c).
Proof. destruct c; simpl; auto with clones. Qed.

Lemma step_cloned ms e ms' : branchMessagesAfterEntry id ms e = Ok ms' → cloned ms'.
Proof.
  assert (∀ m, cloned [CloneMessage m]) as Hone by (intros m; apply (cloned_CloneMessages [m])).
  unfold branchMessagesAfterEntry.
  destruct (te_Kind e); try (intros [= <-]; auto with clones); intros (v & _ & [= <-])%bind_Ok.
  - unfold MessagesAfter. destruct (di_HasEnvelope v); auto with clones.
  - auto with clones.
  - destruct (ap_Response v); auto with clones.
  - auto with clones.
  - repeat case_bool_decide; rewrite ?app_nil_r; auto with clones.
  - destruct (_ =? _)%nat; auto with clones.
Qed.

Lemma replay_cloned ms es ms' : cloned ms → replay_branch id ms es = Ok ms' → cloned ms'.
Proof.
  revert ms. induction es as [|e es IH]; intros ms Hms; simpl; [by intros [= <-]|].
  intros (m & Hm & Hr)%bind_Ok. eapply IH; [|done]. by eapply step_cloned.
Qed.

Lemma replay_app ms xs ys : replay_branch id ms (xs ++ ys) = let? m := replay_branch id ms xs in replay_branch id m ys.
Proof. revert ms. induction xs as [|x xs IH]; intros ms; [done|]. simpl. destruct (branchMessagesAfterEntry id ms x); [apply IH|done]. Qed.

(** *** Starting from the latest snapshot *)

Lemma snapshot_loop_replay pre after ms :
  replay_branch id [] pre = Ok ms →
  ∃ m0 post, snapshot_loop id (reverse pre) after = Ok (m0, post ++ after) ∧ replay_branch id m0 post = Ok ms ∧ cloned m0.
Proof.
  revert after ms. induction pre as [|e pre IH] using rev_ind; intros after ms; rewrite ?reverse_snoc.
  { intros [= <-]. by exists [], []. }
  rewrite replay_app. intros (m & Hm & (m' & Hstep & [= <-])%bind_Ok)%bind_Ok. cbn [snapshot_loop].
  assert (∃ m0 post, snapshot_loop id (reverse pre) (e :: after) = Ok (m0, post ++ after) ∧
    replay_branch id m0 post = Ok m' ∧ cloned m0) as Hgo.
  { destruct (IH (e :: after) m Hm) as (m0 & post & Hs & Hr & Hc). exists m0, (post ++ [e]).
    rewrite Hs, <-app_assoc, replay_app, Hr. simpl. by rewrite Hstep. }
  case_bool_decide as Hk; [|exact Hgo]. simpl.
  unfold branchMessagesAfterEntry in Hstep. rewrite Hk in Hstep. apply bind_Ok in Hstep as (cp & Hcp & Hmode).
  rewrite Hcp. cbn [result_bind]. destruct (bool_decide (cp_MessageMode cp = CheckpointMessagesSnapshot)) eqn:Hs; [|exact Hgo].
  apply bool_decide_eq_true in Hs.
  rewrite (bool_decide_eq_false_2 (cp_MessageMode cp = _)) in Hmode by (by rewrite Hs). injection Hmode as <-.
  exists (checkpoint_messages (Some cp)), []. split_and!; [done|done|apply cloned_checkpoint].
Qed.

Lemma BranchMessages_replay branch ms : replay_branch id [] branch = Ok ms → BranchMessages id branch = Ok ms.
Proof.
  intros Hr. destruct (snapshot_loop_replay branch [] ms Hr) as (m0 & post & Hs & Hp & Hc).
  unfold BranchMessages. rewrite Hs, app_nil_r. simpl. rewrite Hp. simpl. f_equal.
  by eapply replay_cloned.
Qed.

(** ** Projection of indexed branches *)

Definition inspection (e : TrajectoryEntry) : TrajectoryEntryInspection :=
  {| in_ID := te_ID e; in_Kind := te_Kind e |}.

(** A checkpoint, if it is one, that is no snapshot. *)
Definition no_snapshot (e : TrajectoryEntry) : Prop :=
  te_Kind e = TrajectoryKindCheckpoint →
  ∃ cp, DecodeCheckpoint id e = Ok cp ∧ cp_MessageMode cp ≠ CheckpointMessagesSnapshot.

Definition is_snapshot (e : TrajectoryEntry) (ms : list Message) : Prop :=
  te_Kind e = TrajectoryKindCheckpoint ∧
  ∃ cp, DecodeCheckpoint id e = Ok cp ∧ cp_MessageMode cp = CheckpointMessagesSnapshot ∧
    ms = checkpoint_messages (Some cp).

Lemma snapshot_loop_skip l rest after :
  Forall no_snapshot l → snapshot_loop id (reverse l ++ rest) after = snapshot_loop id rest (l ++ after).
Proof.
  revert after. induction l as [|e l IH] using rev_ind; intros after Hl; [done|].
  apply Forall_app in Hl as [Hl [He _]%Forall_cons]. rewrite reverse_snoc. cbn [app snapshot_loop].
  rewrite <-app_assoc. case_bool_decide as Hk; simpl; [|by apply IH].
  destruct (He Hk) as (cp & -> & Hm). simpl. rewrite bool_decide_eq_false_2 by done. by apply IH.
Qed.

Lemma replay_projected ms es : cloned ms → replay_branch id ms (projected es) = replay_branch id ms es.
Proof.
  revert ms. induction es as [|e es IH]; intros ms Hms; [done|]. rewrite filter_cons. case_decide as Hk.
  - simpl. destruct (branchMessagesAfterEntry id ms e) eqn:E; [|done]. simpl. apply IH. by eapply step_cloned.
  - rewrite IH by done. simpl. unfold branchMessagesAfterEntry.
    destruct (te_Kind e); try done; simpl; by rewrite Hms.
Qed.

Context (load : string → result TrajectoryEntry).

Lemma inspect_loop_snapshot rev after pairs :
  Forall (λ e, load (te_ID e) = Ok e) rev → load_projection load pairs = Ok (projected after) →
  Forall no_snapshot after →
  match snapshot_loop id rev after with
  | Err e => inspect_loop load id (inspection <$> rev) pairs = Err e
  | Ok (ms, post) => Forall no_snapshot post ∧ ∃ pairs' es,
      inspect_loop load id (inspection <$> rev) pairs = Ok pairs' ∧ load_projection load pairs' = Ok (projected es) ∧
      ((es = post ∧ ms = []) ∨ ∃ c, es = c :: post ∧ is_snapshot c ms)
  end.
Proof.
  revert after pairs. induction rev as [|e rev IH]; intros after pairs Hload Hpairs Hafter; simpl.
  { split; [done|]. exists pairs, after. eauto. }
  apply Forall_cons in Hload as [He Hload].
  assert (∀ loaded, (match loaded with Some x => x = e | None => True end) →
    load_projection load ((inspection e, loaded) :: pairs) = Ok (projected (e :: after))) as Hnext.
  { intros loaded Hl. simpl. rewrite filter_cons. destruct (messageProjectionEntryKind (te_Kind e)); simpl; [|done].
    rewrite Hpairs. destruct loaded as [x|]; [subst x|rewrite He]; done. }
  case_bool_decide as Hk; simpl.
  2: { apply IH; [done|by apply (Hnext None)|constructor; [|done]]. intros Hk'. congruence. }
  rewrite He. simpl. destruct (DecodeCheckpoint id e) as [cp|err] eqn:Ecp; simpl; [|done].
  case_bool_decide as Hm.
  - split; [done|]. exists ((inspection e, Some e) :: pairs), (e :: after). split_and!; [done|by apply Hnext|].
    right. exists e. split; [done|]. split; [done|]. eauto.
  - apply IH; [done|by apply (Hnext (Some e))|]. constructor; [|done]. intros _. eauto.
Qed.
End projection.

(** ** Unanswered tool calls *)

(** Every tool call an assistant message makes is answered by a tool message before any other message
    and before the end; [pending] are the calls still to answer. *)
Fixpoint answered (pending : list string) (ms : list Message) : Prop :=
  match ms with
  | [] => pending = []
  | m :: rest =>
      (msg_Role m ≠ RoleTool → pending = []) ∧
      answered (match msg_Role m with
                | RoleAssistant => pending ++ call_ids m
                | RoleTool => remove_pending pending (msg_ToolCallID m)
                | _ => pending
                end) rest
  end.

Lemma call_ids_nonempty m : Forall (λ id, is_empty id = false) (call_ids m).
Proof. unfold call_ids. apply Forall_forall. intros id [Hid _]%list_elem_of_filter. done. Qed.

Lemma remove_pending_Forall P pending id : Forall P pending → Forall P (remove_pending pending id).
Proof.
  intros H. unfold remove_pending. destruct (is_empty id); [done|].
  induction H as [|x l Hx Hl IH]; simpl; [done|]. case_bool_decide; [done|by constructor].
Qed.

Lemma answered_flush placeholder pending rest :
  Forall (λ id, is_empty id = false) pending →
  answered pending (flush_pending placeholder pending ++ rest) ↔ answered [] rest.
Proof.
  intros H. induction H as [|x l Hx Hl IH]; [done|]. simpl. unfold remove_pending at 1. simpl. rewrite Hx.
  rewrite bool_decide_eq_true_2 by done. rewrite <-IH. naive_solver.
Qed.

Lemma close_loop_answered placeholder pending ms :
  Forall (λ id, is_empty id = false) pending → answered pending (close_loop placeholder pending ms).
Proof.
  revert pending. induction ms as [|m ms IH]; intros pending Hp; simpl.
  { rewrite <-(app_nil_r (flush_pending _ _)). by apply answered_flush. }
  assert (∀ p, Forall (λ id, is_empty id = false) p →
    Forall (λ id, is_empty id = false)
      (match msg_Role m with
       | RoleAssistant => p ++ call_ids m
       | RoleTool => remove_pending p (msg_ToolCallID m)
       | _ => p
       end)) as Hnext.
  { intros p Hpp. destruct (msg_Role m); try done; [apply Forall_app; split; [done|apply call_ids_nonempty]|].
    by apply remove_pending_Forall. }
  case_bool_decide as Hr; simpl.
  { split; [done|]. apply IH. by apply Hnext. }
  destruct pending as [|id pending]; simpl.
  { split; [done|]. apply IH. by apply Hnext. }
  apply (answered_flush placeholder (id :: pending)); [done|]. simpl. split; [done|]. apply IH, Hnext. constructor.
Qed.

Lemma close_loop_sublist placeholder pending ms : ms `sublist_of` close_loop placeholder pending ms.
Proof.
  revert pending. induction ms as [|m ms IH]; intros pending; simpl; [apply sublist_nil_l|].
  destruct (negb _ && _).
  - apply sublist_inserts_l. apply sublist_skip. apply IH.
  - apply sublist_skip. apply IH.
Qed.

Lemma close_loop_answered_id placeholder pending ms :
  answered pending ms → close_loop placeholder pending ms = ms.
Proof.
  revert pending. induction ms as [|m ms IH]; intros pending; simpl; [by intros ->|]. intros [Hp Ha].
  case_bool_decide as Hr; simpl; [by rewrite IH|].
  assert (pending = []) as -> by auto. simpl. by rewrite IH.
Qed.

(** A message added to close a call. *)
Definition placeholder_message (placeholder : string) (m : Message) : Prop :=
  ∃ id, m = ToolMessage id {| tr_Content := placeholder; tr_IsError := false |}.

Lemma close_loop_added placeholder pending ms m :
  m ∈ close_loop placeholder pending ms → m ∈ ms ∨ placeholder_message placeholder m.
Proof.
  assert (∀ p, m ∈ flush_pending placeholder p → placeholder_message placeholder m) as Hf.
  { intros p (id & -> & _)%list_elem_of_fmap. by exists id. }
  revert pending. induction ms as [|x ms IH]; intros pending; simpl; [eauto|].
  destruct (negb _ && _); rewrite ?elem_of_app, ?elem_of_cons; intros Hin; repeat destruct_or?; subst;
    rewrite ?elem_of_cons; eauto; try (by apply not_elem_of_nil in Hin);
    match goal with H : _ ∈ close_loop _ _ _ |- _ => destruct (IH _ H); eauto end.
Qed.

(** ** Theorems *)

(** C27. Reading the index of a branch and loading only the entries that carry messages after the latest
    snapshot gives exactly what projecting the whole branch gives, errors included. *)
Theorem inspected_messages_exact `{!PayloadCodec} load id branch :
  id ≠ "" → Forall (λ e, load (te_ID e) = Ok e) branch →
  LoadInspectedBranchMessages load id (inspection <$> branch) = BranchMessages id branch.
Proof.
  intros Hid Hload. unfold LoadInspectedBranchMessages, BranchMessages at 2.
  rewrite (proj2 (is_empty_false id) Hid), <-fmap_reverse.
  pose proof (inspect_loop_snapshot id load (reverse branch) [] []
    (proj2 (Forall_reverse _ _) Hload) eq_refl (Forall_nil_2 _)) as Hs.
  destruct (snapshot_loop id (reverse branch) []) as [[ms post]|e]; [|by rewrite Hs].
  destruct Hs as (Hno & pairs & es & -> & Hes & Hcase). simpl. rewrite Hes. simpl.
  assert (Forall (no_snapshot id) (projected post)) as Hno'.
  { apply Forall_forall. intros e [_ He]%list_elem_of_filter. by eapply Forall_forall in Hno. }
  unfold BranchMessages. destruct Hcase as [[-> ->]|(c & -> & Hk & cp & Hcp & Hm & ->)].
  - rewrite <-(app_nil_r (reverse _)), snapshot_loop_skip by done. simpl. rewrite app_nil_r.
    by rewrite replay_projected.
  - rewrite filter_cons_True by (by rewrite Hk). rewrite reverse_cons, snapshot_loop_skip by done.
    cbn [snapshot_loop]. rewrite (bool_decide_eq_true_2 (te_Kind c = _)), Hcp by done. simpl.
    rewrite bool_decide_eq_true_2 by done. simpl. rewrite app_nil_r, replay_projected; [done|].
    apply (cloned_checkpoint (Some cp)).
Qed.

(** Closing a projection answers every tool call before the next message of another role and before
    the end, keeps every message in order, adds only placeholder results, and changes nothing when all
    calls are answered already. *)
Theorem closed_calls_answered messages placeholder :
  let text := string_default placeholder "Tool result omitted from trajectory branch projection." in
  let closed := CloseUnresolvedToolCalls messages placeholder in
  answered [] closed ∧ CloneMessages messages `sublist_of` closed ∧
  (∀ m, m ∈ closed → m ∈ CloneMessages messages ∨ placeholder_message text m) ∧
  (answered [] (CloneMessages messages) → closed = CloneMessages messages).
Proof.
  intros text closed. unfold closed, CloseUnresolvedToolCalls. fold text.
  assert (CloneMessages (close_loop text [] (CloneMessages messages)) = close_loop text [] (CloneMessages messages)) as Hc.
  { unfold CloneMessages at 1. rewrite <-(list_fmap_id (close_loop _ _ _)) at 2.
    apply list_fmap_ext. intros i m Hm%list_elem_of_lookup_2%close_loop_added.
    destruct Hm as [(m' & -> & _)%list_elem_of_fmap|[id ->]]; [apply CloneMessage_idem|done]. }
  rewrite !Hc. split_and!.
  - by apply close_loop_answered.
  - apply close_loop_sublist.
  - intros m. apply close_loop_added.
  - apply close_loop_answered_id.
Qed.
