(* ===== verification/SessionState.v ===== *)
(** The state of a session: the configuration and results of [sdk/runtime/session.go], what
    [session_projection.go] restores from a checkpoint, the selection of queued context of
    [context_injection.go] with the slot that interrupts a call, and the results of
    [execution_result.go]. *)

From S2P Require Import Prelude GoText Names Paging Message ContextInjection Trajectory TrajectoryStore.
From S2P Require Import Agent EventDispatch Payload Durability.

(** ** Data *)

Record Result := {
  rl_Output : string;
  rl_Messages : list Message;
  rl_ContextInjections : list ContextInjection;
  rl_Turns : Z;
  rl_ToolCalls : Z;
  rl_InputTokens : Z;
  rl_OutputTokens : Z;
  rl_Generation : Z;
  rl_Cause : Cause;
}.

Definition zeroCause : Cause := {| ca_Code := ""; ca_Detail := ""; ca_Final := false |}.

Definition zeroResult : Result :=
  {| rl_Output := ""; rl_Messages := []; rl_ContextInjections := []; rl_Turns := 0; rl_ToolCalls := 0;
     rl_InputTokens := 0; rl_OutputTokens := 0; rl_Generation := 0; rl_Cause := zeroCause |}.

Definition CausePromptBlocked : string := "prompt_blocked".
Definition CauseModelEnd : string := "model_end".
Definition CauseMaxTurns : string := "max_turns".
Definition CauseProviderError : string := "provider_error".
Definition CauseHookError : string := "hook_error".
Definition CauseExecutionError : string := "execution_error".
Definition CauseCancelled : string := "cancelled".

Definition ResumeExact : string := "exact".
Definition ResumeCurrent : string := "current".

Record SessionConfig := {
  cfg_ID : string;
  cfg_Provider : string;
  cfg_System : string;
  cfg_MaxTurns : Z;
  cfg_ReasoningEffort : string;
  cfg_ResumePolicy : string;
}.

Definition validateSessionConfig (config : SessionConfig) (e : entropy) : result SessionConfig :=
  let id := if is_empty (cfg_ID config) then NewID e else cfg_ID config in
  try? ValidateResourceName "session" id;
  fail_if cfg_MaxTurns config <? 0 with errors_New "session max turns cannot be negative";
  let policy := string_default (cfg_ResumePolicy config) ResumeExact in
  fail_if negb (bool_decide (policy = ResumeExact)) && negb (bool_decide (policy = ResumeCurrent)) with
    Errorf "unknown resume policy %q" [AStr policy];
  Ok {| cfg_ID := id; cfg_Provider := cfg_Provider config; cfg_System := cfg_System config;
        cfg_MaxTurns := cfg_MaxTurns config; cfg_ReasoningEffort := cfg_ReasoningEffort config;
        cfg_ResumePolicy := policy |}.

Definition unlimitedTurns : Z := 2 ^ 31 - 1.

Definition effectiveMaxTurns (configured : Z) : Z := if configured <=? 0 then unlimitedTurns else configured.

(** The mutable fields of a [Session]; a nil map of consumed context and an empty one behave alike. *)
Record session := {
  ls_config : SessionConfig;
  ls_executionID : string;
  ls_executionToken : string;
  ls_messages : list Message;
  ls_head : string;
  ls_consumedContext : gset string;
  ls_contextInjections : list ContextInjection;
  ls_causal : string * string;
}.

Definition with_config (s : session) (config : SessionConfig) : session :=
  {| ls_config := config; ls_executionID := ls_executionID s; ls_executionToken := ls_executionToken s;
     ls_messages := ls_messages s; ls_head := ls_head s; ls_consumedContext := ls_consumedContext s;
     ls_contextInjections := ls_contextInjections s; ls_causal := ls_causal s |}.

Definition with_system (config : SessionConfig) (system : string) : SessionConfig :=
  {| cfg_ID := cfg_ID config; cfg_Provider := cfg_Provider config; cfg_System := system;
     cfg_MaxTurns := cfg_MaxTurns config; cfg_ReasoningEffort := cfg_ReasoningEffort config;
     cfg_ResumePolicy := cfg_ResumePolicy config |}.

Definition with_provider (config : SessionConfig) (provider : string) : SessionConfig :=
  {| cfg_ID := cfg_ID config; cfg_Provider := provider; cfg_System := cfg_System config;
     cfg_MaxTurns := cfg_MaxTurns config; cfg_ReasoningEffort := cfg_ReasoningEffort config;
     cfg_ResumePolicy := cfg_ResumePolicy config |}.

Definition with_head (s : session) (head : string) : session :=
  {| ls_config := ls_config s; ls_executionID := ls_executionID s; ls_executionToken := ls_executionToken s;
     ls_messages := ls_messages s; ls_head := head; ls_consumedContext := ls_consumedContext s;
     ls_contextInjections := ls_contextInjections s; ls_causal := ls_causal s |}.

Definition with_execution (s : session) (executionID token : string) : session :=
  {| ls_config := ls_config s; ls_executionID := executionID; ls_executionToken := token;
     ls_messages := ls_messages s; ls_head := ls_head s; ls_consumedContext := ls_consumedContext s;
     ls_contextInjections := ls_contextInjections s; ls_causal := ls_causal s |}.

Definition with_context (s : session) (consumed : gset string) (injections : list ContextInjection) : session :=
  {| ls_config := ls_config s; ls_executionID := ls_executionID s; ls_executionToken := ls_executionToken s;
     ls_messages := ls_messages s; ls_head := ls_head s; ls_consumedContext := consumed;
     ls_contextInjections := injections; ls_causal := ls_causal s |}.

(** What the coordinates of invocations depend on. *)
Definition invocation_session (s : session) : Session :=
  {| se_ID := cfg_ID (ls_config s); se_Head := ls_head s; se_ExecutionID := ls_executionID s;
     se_CausalRootID := (ls_causal s).1; se_CausalParentID := (ls_causal s).2 |}.

Definition clearExecution (s : session) (executionID token : string) : session :=
  if bool_decide (ls_executionID s = executionID) && bool_decide (ls_executionToken s = token)
  then with_execution s "" "" else s.

(** ** [session_projection.go] *)

Definition applyMessageProjection (s : session) (messages : list Message) : session :=
  {| ls_config := ls_config s; ls_executionID := ls_executionID s; ls_executionToken := ls_executionToken s;
     ls_messages := CloneMessages messages; ls_head := ls_head s; ls_consumedContext := ls_consumedContext s;
     ls_contextInjections := ls_contextInjections s; ls_causal := ls_causal s |}.

(** The part of [applyCheckpointConfig] and [exactResumeConfigProjection] on a checkpoint. *)
Definition checkpoint_config (config : SessionConfig) (checkpoint : Checkpoint) : SessionConfig :=
  let config := with_system config (cp_System checkpoint) in
  if is_empty (cp_Provider checkpoint) then config else with_provider config (cp_Provider checkpoint).

Definition applyCheckpointConfig (s : session) (checkpoint : option Checkpoint) : session :=
  match checkpoint with
  | None => s
  | Some checkpoint => with_config s (checkpoint_config (ls_config s) checkpoint)
  end.

Definition consumed_ids (checkpoint : Checkpoint) : gset string :=
  list_to_set (filter (λ id, is_empty id = false) (cp_ConsumedContextInjectionIDs checkpoint)) ∪
  list_to_set (filter (λ id, is_empty id = false) (ci_ID <$> cp_ContextInjections checkpoint)).

Definition applyContextInjectionProjection (s : session) (checkpoint : option Checkpoint) : session :=
  match checkpoint with
  | None => with_context s ∅ []
  | Some checkpoint =>
      with_context s (consumed_ids checkpoint) (CloneContextInjections (cp_ContextInjections checkpoint))
  end.

Definition applyCheckpointProjection (s : session) (checkpoint : option Checkpoint) : session :=
  match checkpoint with
  | None => s
  | Some c =>
      applyContextInjectionProjection
        (applyCheckpointConfig (applyMessageProjection s (cp_Messages c)) checkpoint) checkpoint
  end.

Definition applyExecutionBaseProjection (s : session) (base : BranchBase) (checkpoint : option Checkpoint) : session :=
  applyContextInjectionProjection
    (applyCheckpointConfig (applyMessageProjection s (bb_Messages base)) checkpoint) checkpoint.

Definition hasContextInjectionProjection (injections : list ContextInjection) (id : string) : bool :=
  negb (is_empty id) && existsb (λ injection, bool_decide (ci_ID injection = id)) injections.

Definition mark_consumed (s : session) (injection : ContextInjection) : session :=
  if is_empty (ci_ID injection) then s else
  with_context s ({[ci_ID injection]} ∪ ls_consumedContext s)
    (if hasContextInjectionProjection (ls_contextInjections s) (ci_ID injection)
     then ls_contextInjections s
     else ls_contextInjections s ++ [CloneContextInjection injection]).

Definition markContextInjectionsConsumed (s : session) (injections : list ContextInjection) : session :=
  foldl mark_consumed s injections.

Fixpoint projection_loop (seen : gset string) (injections : list ContextInjection) : list ContextInjection :=
  match injections with
  | [] => []
  | injection :: rest =>
      if is_empty (ci_ID injection) || bool_decide (ci_ID injection ∈ seen) then projection_loop seen rest
      else CloneContextInjection injection :: projection_loop ({[ci_ID injection]} ∪ seen) rest
  end.

Definition contextInjectionProjection (s : session) (injections : list ContextInjection) : list ContextInjection :=
  CloneContextInjections (ls_contextInjections s) ++
  projection_loop (list_to_set (filter (λ id, is_empty id = false) (ci_ID <$> ls_contextInjections s))) injections.

Fixpoint new_ids (seen : gset string) (injections : list ContextInjection) : list string :=
  match injections with
  | [] => []
  | injection :: rest =>
      if is_empty (ci_ID injection) || bool_decide (ci_ID injection ∈ seen) then new_ids seen rest
      else ci_ID injection :: new_ids ({[ci_ID injection]} ∪ seen) rest
  end.

Definition consumedContextInjectionIDs (s : session) (injections : list ContextInjection) : list string :=
  let consumed := ls_consumedContext s ∖ {[""]} in
  SortFunc strings_Compare (elements consumed ++ new_ids consumed injections).

Definition exactResumeConfigProjection (config : SessionConfig) (checkpoint : option Checkpoint)
    (requestedProvider : string) : SessionConfig :=
  let config := match checkpoint with Some c => checkpoint_config config c | None => config end in
  let no_provider := match checkpoint with Some c => is_empty (cp_Provider c) | None => true end in
  if no_provider && negb (is_empty requestedProvider) then with_provider config requestedProvider else config.

(** ** Queued context of [context_injection.go] *)

Inductive contextInjectionDrainBoundary := contextInjectionBeforeProvider | contextInjectionAfterTurn.

Definition contextInjectionMatchesExecution (injection : ContextInjection) (executionID : string) : bool :=
  is_empty (ci_TargetExecutionID injection) || bool_decide (ci_TargetExecutionID injection = executionID).

Definition contextInjectionMatchesSession (injection : ContextInjection) (sessionID : string) : bool :=
  is_empty (ci_TargetSessionID injection) || bool_decide (ci_TargetSessionID injection = sessionID).

Definition validateContextInjectionTarget (sessionID : string) (injection : ContextInjection) : result unit :=
  if contextInjectionMatchesSession injection sessionID then Ok tt else
  Err (Errorf "context injection targets session %q, not %q"
         [AStr (ci_TargetSessionID injection); AStr sessionID]).

Definition contextInjectionEligible (injection : ContextInjection) (boundary : contextInjectionDrainBoundary) : bool :=
  match boundary with
  | contextInjectionBeforeProvider =>
      bool_decide (ci_Priority injection = ContextInjectionNow) ||
      bool_decide (ci_Priority injection = ContextInjectionNext)
  | contextInjectionAfterTurn => true
  end.

Definition contextInjectionPriorityRank (priority : ContextInjectionPriority) : Z :=
  match priority with
  | ContextInjectionNow => 0
  | ContextInjectionNext => 1
  | ContextInjectionLater => 2
  | PriorityOther _ => 1
  end.

Definition drainable (s : session) (boundary : contextInjectionDrainBoundary) (injection : ContextInjection) : bool :=
  contextInjectionMatchesSession injection (cfg_ID (ls_config s)) &&
  contextInjectionMatchesExecution injection (ls_executionID s) &&
  contextInjectionEligible injection boundary &&
  negb (bool_decide (ci_ID injection ∈ ls_consumedContext s)).

(** The loop of [pendingContextInjections] over what the store lists. *)
Definition select_injections (s : session) (boundary : contextInjectionDrainBoundary)
    (listed : list ContextInjection) : list ContextInjection :=
  rank ← [0; 1; 2];
  CloneContextInjection <$>
    filter (λ i, contextInjectionPriorityRank (ci_Priority i) = rank ∧ drainable s boundary i = true) listed.

Definition pending_query (s : session) : ContextInjectionQuery :=
  {| cq_TargetSessionID := cfg_ID (ls_config s); cq_TargetExecutionID := ls_executionID s; cq_Limit := 0 |}.

Definition messagesFromContextInjections (injections : list ContextInjection) : list Message :=
  injection ← injections; CloneMessages (ci_Messages injection).

Definition actionFinal (action : Action) : bool :=
  match ac_Cause action with Some cause => ca_Final cause | None => false end.

Definition actionDrainsAfterTurn (action : Action) : bool :=
  bool_decide (ac_Kind action = ActionStep) || (bool_decide (ac_Kind action = ActionStop) && negb (actionFinal action)).

Definition with_targets (injection : ContextInjection) (sessionID executionID : string) : ContextInjection :=
  {| ci_ID := ci_ID injection; ci_Priority := ci_Priority injection; ci_Mode := ci_Mode injection;
     ci_Origin := ci_Origin injection; ci_TargetSessionID := sessionID; ci_TargetExecutionID := executionID;
     ci_IsMeta := ci_IsMeta injection; ci_Messages := ci_Messages injection;
     ci_Attributes := ci_Attributes injection; ci_CreatedAt := ci_CreatedAt injection |}.

Definition normalizeContextInjectionForExecution (sessionID executionID : string) (injection : ContextInjection)
    (wall : time) (e : entropy) : result ContextInjection :=
  let? normalized := NormalizeContextInjection injection wall wall e in
  try? validateContextInjectionTarget sessionID normalized;
  let normalized :=
    with_targets normalized (string_default (ci_TargetSessionID normalized) sessionID)
      (ci_TargetExecutionID normalized) in
  if is_empty executionID then Ok (CloneContextInjection normalized) else
  if is_empty (ci_TargetExecutionID normalized)
  then Ok (CloneContextInjection (with_targets normalized (ci_TargetSessionID normalized) executionID))
  else
    fail_if negb (bool_decide (ci_TargetExecutionID normalized = executionID)) with
      Errorf "context injection targets execution %q, not %q"
        [AStr (ci_TargetExecutionID normalized); AStr executionID];
    Ok (CloneContextInjection normalized).

Definition validateContextInjectionExecutionStoreTarget (st : memoryTrajectoryStore) (ctx : context)
    (trajectoryID executionID : string) : result unit :=
  fail_if is_empty executionID with errors_New "context injection execution ID is empty";
  let? metadata := tstore_LoadMetadata st ctx trajectoryID in
  let inactive := Wrapf "%w: trajectory %s execution %s is not active" [AStr trajectoryID; AStr executionID]
                    (Sentinel ErrExecutionNotFound) in
  match tm_Execution metadata with
  | None => Err inactive
  | Some execution =>
      fail_if negb (bool_decide (ex_ID execution = executionID)) || Execution_Terminal execution with inactive;
      Ok tt
  end.

(** [ExecutionLifecycle.EnqueueContextInjection], and the same steps of [Runtime.EnqueueContextInjection]
    before it tells a live host. *)
Definition EnqueueContextInjection (st : memoryTrajectoryStore) (contexts : memoryContextInjectionStore)
    (ctx : context) (trajectoryID executionID : string) (injection : ContextInjection) (wall : time) (e : entropy)
    (es : nat → entropy) : result memoryContextInjectionStore :=
  try? validateContextInjectionExecutionStoreTarget st ctx trajectoryID executionID;
  let? normalized := normalizeContextInjectionForExecution trajectoryID executionID injection wall e in
  cstore_Enqueue contexts ctx [normalized] wall es.

(** ** The interrupt slot

    A [context.CancelCauseFunc] is the number of the context it cancels. *)

Record contextInjectionInterruptSlot := {
  slot_token : Z;
  slot_executionID : string;
  slot_cancel : option Z;
}.

Definition slot_install (slot : contextInjectionInterruptSlot) (executionID : string) (cancel : Z)
    : Z * contextInjectionInterruptSlot :=
  let token := u64 (slot_token slot + 1) in
  (token, {| slot_token := token; slot_executionID := executionID; slot_cancel := Some cancel |}).

Definition slot_clear (slot : contextInjectionInterruptSlot) (executionID : string) (token : Z)
    : contextInjectionInterruptSlot :=
  if negb (bool_decide (slot_executionID slot = executionID)) || negb (slot_token slot =? token) then slot
  else {| slot_token := slot_token slot; slot_executionID := ""; slot_cancel := None |}.

Definition slot_clearExecution (slot : contextInjectionInterruptSlot) (executionID : string)
    : contextInjectionInterruptSlot :=
  if negb (bool_decide (slot_executionID slot = executionID)) then slot
  else {| slot_token := slot_token slot; slot_executionID := ""; slot_cancel := None |}.

(** The context [signal] cancels. *)
Definition slot_signal (slot : contextInjectionInterruptSlot) (executionID : string) : option Z :=
  if is_empty executionID then None else
  if negb (bool_decide (slot_executionID slot = executionID)) then None else slot_cancel slot.

(** ** [execution_result.go] *)

Fixpoint latest_assistant (reversed : list Message) : string :=
  match reversed with
  | [] => ""
  | message :: rest =>
      match msg_Role message with RoleAssistant => msg_Content message | _ => latest_assistant rest end
  end.

Definition latestAssistantOutput (messages : list Message) : string := latest_assistant (reverse messages).

Definition resultFromCheckpoint (entry : TrajectoryEntry) (checkpoint : Checkpoint) : Result :=
  {| rl_Output :=
       if is_empty (cp_Output checkpoint) then latestAssistantOutput (cp_Messages checkpoint)
       else cp_Output checkpoint;
     rl_Messages := checkpoint_messages (Some checkpoint);
     rl_ContextInjections := CloneContextInjections (cp_ContextInjections checkpoint);
     rl_Turns := cp_Turns checkpoint; rl_ToolCalls := cp_ToolCalls checkpoint;
     rl_InputTokens := cp_InputTokens checkpoint; rl_OutputTokens := cp_OutputTokens checkpoint;
     rl_Generation := if cp_Generation checkpoint =? 0 then te_Generation entry else cp_Generation checkpoint;
     rl_Cause := default zeroCause (ac_Cause (cp_Action checkpoint)) |}.

Section results.
Context `{!PayloadCodec}.

Definition resultFromTerminal (entry : TrajectoryEntry) : result Result :=
  match Unmarshal_end (te_Payload entry) with
  | Err err =>
      Err (Wrapf "decode trajectory %q terminal entry %q: %w"
             [AStr (te_TrajectoryID entry); AStr (te_ID entry)] err)
  | Ok end_ =>
      Ok {| rl_Output :=
              if is_empty (ae_Output end_) then latestAssistantOutput (ae_Messages end_) else ae_Output end_;
            rl_Messages := CloneMessages (ae_Messages end_);
            rl_ContextInjections := CloneContextInjections (ae_ContextInjections end_);
            rl_Turns := ae_Turns end_; rl_ToolCalls := ae_ToolCalls end_;
            rl_InputTokens := ae_InputTokens end_; rl_OutputTokens := ae_OutputTokens end_;
            rl_Generation := te_Generation entry; rl_Cause := ae_Cause end_ |}
  end.

Definition with_result_messages (r : Result) (messages : list Message) (output : string) : Result :=
  {| rl_Output := output; rl_Messages := messages; rl_ContextInjections := rl_ContextInjections r;
     rl_Turns := rl_Turns r; rl_ToolCalls := rl_ToolCalls r; rl_InputTokens := rl_InputTokens r;
     rl_OutputTokens := rl_OutputTokens r; rl_Generation := rl_Generation r; rl_Cause := rl_Cause r |}.

Definition terminal_query (trajectoryID executionID : string) : TrajectoryEntryQuery :=
  {| tq_TrajectoryID := trajectoryID; tq_ExecutionID := executionID; tq_OperationKey := "";
     tq_Kind := TrajectoryKindTerminal; tq_Provider := ""; tq_ToolName := ""; tq_CorrelationID := "";
     tq_Limit := MaxPageSize |}.

(** The in-memory store can analyze entries. *)
Definition LoadExecutionTerminalResult (st : memoryTrajectoryStore) (ctx : context) (metadata : TrajectoryMetadata)
    : result (option Result) :=
  match tm_Execution metadata with
  | None => Ok None
  | Some execution =>
      let? entries := tstore_AnalyzeEntries st ctx (terminal_query (tm_ID metadata) (ex_ID execution)) in
      match last entries with
      | None => Ok None
      | Some entry =>
          let? r := resultFromTerminal entry in
          if negb (length (rl_Messages r) =? 0)%nat || is_empty (te_ParentID entry) then Ok (Some r) else
          let? messages := LoadBranchMessages st ctx (tm_ID metadata) (te_ParentID entry) in
          Ok (Some (with_result_messages r messages
                      (if is_empty (rl_Output r) then latestAssistantOutput messages else rl_Output r)))
      end
  end.

Definition LoadExecutionResult (st : memoryTrajectoryStore) (ctx : context) (metadata : TrajectoryMetadata)
    : result (option Result) :=
  let unsuccessful :=
    match tm_Execution metadata with
    | Some execution => negb (bool_decide (ex_State execution = TrajectoryExecutionSucceeded))
    | None => false
    end in
  if unsuccessful then LoadExecutionTerminalResult st ctx metadata else
  let? latest := LatestExecutionCheckpoint st ctx metadata in
  match latest with
  | None => LoadExecutionTerminalResult st ctx metadata
  | Some (entry, checkpoint) => Ok (Some (resultFromCheckpoint entry checkpoint))
  end.
End results.
