(* ===== verification/PromptHost.v ===== *)
(** What an agent execution asks of the rest of the runtime.

    The loop of [execution_prompt.go] calls the event dispatch, the providers and tools behind their
    operations, the stores and the clock, while hooks, other sessions and timers act on the same
    runtime.  [request] lists these calls and [AgentHost] answers them: it takes the state of the world and
    gives a new one with the answer, so a theorem that quantifies over hosts covers every answer and
    every interleaving at these points.  The trajectory store is the in-memory one. *)

From S2P Require Import Prelude GoText Names Paging Message ContextInjection Invocation Operation Trajectory.
From S2P Require Import TrajectoryStore Agent Lineage Registrar Composition EventDispatch Payload SessionState.

(** ** Stateful calls that can fail

    A call that fails keeps the changes made before the failure. *)

Definition prog (X A : Type) : Type := X → result A * X.

Section prog.
Context {X : Type}.

Definition pure {A} (a : A) : prog X A := λ x, (Ok a, x).
Definition throw {A} (e : error) : prog X A := λ x, (Err e, x).
Definition lift {A} (r : result A) : prog X A := λ x, (r, x).
Definition prog_bind {A B} (m : prog X A) (f : A → prog X B) : prog X B :=
  λ x, match m x with (Ok a, x) => f a x | (Err e, x) => (Err e, x) end.
Definition read {A} (f : X → A) : prog X A := λ x, (Ok (f x), x).
Definition modify (f : X → X) : prog X unit := λ x, (Ok tt, f x).

(** The error as a value. *)
Definition attempt {A} (m : prog X A) : prog X (result A) := λ x, let '(r, x) := m x in (Ok r, x).

Fixpoint traverse {A B} (f : nat → A → prog X B) (index : nat) (l : list A) : prog X (list B) :=
  match l with
  | [] => pure []
  | a :: l => prog_bind (f index a) (λ b, prog_bind (traverse f (S index) l) (λ bs, pure (b :: bs)))
  end.
End prog.

Declare Scope prog_scope.
Delimit Scope prog_scope with prog.

Notation "'let!' x := m 'in' k" := (prog_bind m (fun x => k))
  (at level 10, x name, m at level 100, k at level 200) : prog_scope.
Notation "'let!' ' p := m 'in' k" := (prog_bind m (fun x => match x with p => k end))
  (at level 10, p strict pattern, m at level 100, k at level 200) : prog_scope.
Notation "'do!' m ; k" := (prog_bind m (fun _ => k))
  (at level 10, m at level 100, k at level 200) : prog_scope.
#[global] Open Scope prog_scope.

(** ** Payloads of the events of an execution *)

Record BeforeProviderPayload := {
  bp_Turn : Z;
  bp_Messages : list Message;
  bp_Provider : string;
  bp_System : string;
  bp_Tools : list ToolSpec;
}.

Record ProviderOutcomePayload := {
  po_Turn : Z;
  po_Provider : string;
  po_OperationKey : string;
  po_CorrelationID : string;
  po_Sequence : Z;
  po_Kind : string;
  po_Response : option ModelResponse;
  po_Error : string;
}.

Record BeforeToolPayload := {
  bt_Turn : Z;
  bt_Call : ToolCall;
}.

Record ToolErrorPayload := {
  tp_Turn : Z;
  tp_Call : ToolCall;
  tp_Kind : string;
  tp_Reason : string;
  tp_Result : ToolResult;
}.

Record DecidePayload := {
  dp_Turn : Z;
  dp_Default : Action;
  dp_Response : ModelResponse;
  dp_ToolResults : list ToolResult;
}.

Record TurnEndPayload := {
  tn_Turn : Z;
  tn_Messages : list Message;
  tn_Action : Action;
}.

Record TrajectoryEventPayload := {
  tv_TrajectoryID : string;
  tv_EntryID : string;
  tv_EntryKind : TrajectoryKind;
  tv_From : string;
  tv_To : string;
  tv_Generation : Z;
}.

(** The events whose hooks run after a commit, with their payloads. *)
Inductive post_commit_event :=
  | EventAgentStart (payload : AgentStartPayload)
  | EventTurnStart (turn : Z)
  | EventAfterProvider (payload : AfterProviderPayload)
  | EventTurnEnd (payload : TurnEndPayload)
  | EventAgentEnd (payload : AgentEndPayload)
  | EventTrajectoryAppend (payload : TrajectoryEventPayload)
  | EventTrajectoryRestore (payload : TrajectoryEventPayload)
  | EventTrajectoryRollback (payload : TrajectoryEventPayload).

(** ** Requests to providers and tools *)

Record ModelRequest := {
  mq_Messages : list Message;
  mq_Tools : list ToolSpec;
  mq_ReasoningEffort : string;
}.

Record providerCall := {
  pv_name : string;
  pv_provider : Impl;
  pv_invocation : Invocation;
  pv_request : ModelRequest;
  pv_tools : gmap string advertisedTool;
}.

Record toolCallFailure := {
  fl_kind : string;
  fl_reason : string;
}.

Record preparedToolCall := {
  pc_call : ToolCall;
  pc_invocation : Invocation;
  pc_correlationID : string;
  pc_asynchronous : option Impl;
  pc_initial : option Operation;
  pc_failure : option toolCallFailure;
  pc_forkAnchor : trajectoryForkAnchor;
  pc_interrupt : string;
  pc_concurrency : string;
}.

Record toolCallOutcome := {
  oc_result : ToolResult;
  oc_err : option error;
}.

(** What a call of a tool answers: [interrupted] is that the context of the call was cancelled by a
    context injection when the error was looked at, and a panic is the error of [runParallelIndexed]. *)
Inductive submit_answer :=
  | Submitted (operation : Operation)
  | SubmitFailed (err : error) (interrupted : bool)
  | SubmitPanicked (err : error).

Inductive await_answer :=
  | Awaited (result : ToolResult)
  | AwaitFailed (err : error) (interrupted : bool)
  | AwaitPanicked (err : error).

(** ** The host *)

(** The calls, by the type of their answer. *)
Inductive request : Type → Type :=
  (* [ctx.Err()] of the execution, [drainRequested], [sdk.NewID] with the clock *)
  | RCtxErr : request (option error)
  | RDrainRequested : request bool
  | RFresh : request (string * time)
  (* [session.acquireSnapshot] *)
  | RAcquireSnapshot : request (result registrySnapshot)
  (* event dispatch *)
  | RBeforeAgentStart (snapshot : registrySnapshot) (payload : AgentStartPayload) :
      request (result (AgentStartPayload * DispatchResult))
  | RBeforeProvider (snapshot : registrySnapshot) (payload : BeforeProviderPayload) :
      request (result (BeforeProviderPayload * DispatchResult))
  | RBeforeTool (snapshot : registrySnapshot) (payload : BeforeToolPayload) :
      request (result (BeforeToolPayload * DispatchResult))
  | RToolError (snapshot : registrySnapshot) (payload : ToolErrorPayload) :
      request (result (ToolErrorPayload * DispatchResult))
  | RAfterTool (snapshot : registrySnapshot) (payload : AfterToolPayload) :
      request (result (AfterToolPayload * DispatchResult))
  | RDecide (snapshot : registrySnapshot) (payload : DecidePayload) : request (result DispatchResult)
  | RProviderOutcome (snapshot : registrySnapshot) (payload : ProviderOutcomePayload) : request (result unit)
  | RPrepareEvent (snapshot : registrySnapshot) (event : post_commit_event) : request (result unit)
  | RDispatchAfterCommit (events : list post_commit_event) : request unit
  (* providers and tools; [RInterrupted] is that a context injection cancelled the context in use *)
  | RInvokeProvider (call : providerCall) : request (result ModelResponse)
  | RInterrupted : request bool
  | RSubmitCall (providerName : string) (call : preparedToolCall) : request submit_answer
  | RAwaitOperation (call : preparedToolCall) : request await_answer
  (* context injections *)
  | RListContextInjections (query : ContextInjectionQuery) : request (result (list ContextInjection))
  | RConsumeContextInjections (ids : list string) : request unit
  (* trajectories *)
  | RAnalyzeEntries (query : TrajectoryEntryQuery) : request (result (list TrajectoryEntry))
  | RCommitTrajectoryExecution (commit : TrajectoryExecutionCommit) : request (result TrajectoryMetadata)
  | RCancelTrajectoryExecution (commit : TrajectoryExecutionCancelCommit) : request (result (TrajectoryMetadata * bool))
  | RAppendTrajectoryEntries (trajectoryID expectedHead : string) (entries : list TrajectoryEntry) :
      request (result string)
  (* [runtime.gracefulExecutionDrainActive] and [executionRecoveryHandoffActive] *)
  | RGracefulExecutionDrainActive : request bool
  | RExecutionRecoveryHandoffActive : request bool.

(** [h_error_text] is [err.Error()]; [h_store] is the trajectory store, in memory. *)
Class AgentHost (W : Type) := {
  h_error_text : error → string;
  h_store : W → memoryTrajectoryStore;
  h_handle {A} : request A → W → A * W;
}.

(** ** The state of an execution *)

Record promptExecution := {
  px_messages : list Message;
  px_system : string;
  px_dependencies : list string;
  px_providerAttempts : gmap Z Z;
  px_providerAttemptsInitialized : bool;
  px_result : Result;
}.

Record trajectoryCheckpointCommit := {
  ck_Messages : list Message;
  ck_MessageMode : string;
  ck_Result : Result;
  ck_Action : Action;
  ck_System : string;
  ck_Audit : list EventAudit;
  ck_ContextInjections : list ContextInjection;
  ck_Dependencies : list string;
}.

(** History variables, which no operation reads: the last checkpoint the execution committed, whether
    the last provider call left a response in the trajectory, and whether such a response was ever
    dropped from the conversation. *)
Record history := {
  hs_saved : option trajectoryCheckpointCommit;
  hs_answered : bool;
  hs_dropped : bool;
}.

Definition no_history : history := {| hs_saved := None; hs_answered := false; hs_dropped := false |}.

Definition saved (commit : trajectoryCheckpointCommit) (h : history) : history :=
  {| hs_saved := Some commit; hs_answered := hs_answered h; hs_dropped := hs_dropped h |}.
Definition answered_with (recorded : bool) (h : history) : history :=
  {| hs_saved := hs_saved h; hs_answered := recorded; hs_dropped := hs_dropped h |}.
Definition dropped (h : history) : history :=
  {| hs_saved := hs_saved h; hs_answered := hs_answered h; hs_dropped := hs_dropped h || hs_answered h |}.

Record exec (W : Type) := {
  x_session : session;
  x_prompt : promptExecution;
  x_world : W;
  x_history : history;
}.
Arguments x_session {W}.
Arguments x_prompt {W}.
Arguments x_world {W}.
Arguments x_history {W}.

Section exec.
Context {W : Type} `{!AgentHost W}.

Definition set_session (f : session → session) (x : exec W) : exec W :=
  {| x_session := f (x_session x); x_prompt := x_prompt x; x_world := x_world x; x_history := x_history x |}.
Definition set_prompt (f : promptExecution → promptExecution) (x : exec W) : exec W :=
  {| x_session := x_session x; x_prompt := f (x_prompt x); x_world := x_world x; x_history := x_history x |}.
Definition set_world (w : W) (x : exec W) : exec W :=
  {| x_session := x_session x; x_prompt := x_prompt x; x_world := w; x_history := x_history x |}.
Definition set_history (f : history → history) (x : exec W) : exec W :=
  {| x_session := x_session x; x_prompt := x_prompt x; x_world := x_world x; x_history := f (x_history x) |}.

(** Calls of the host that can fail, and those that cannot. *)
Definition ask {A} (r : request (result A)) : prog (exec W) A :=
  λ x, let '(answer, w) := h_handle r (x_world x) in (answer, set_world w x).
Definition ask_value {A} (r : request A) : prog (exec W) A :=
  λ x, let '(answer, w) := h_handle r (x_world x) in (Ok answer, set_world w x).
End exec.

Definition set_messages (messages : list Message) (p : promptExecution) : promptExecution :=
  {| px_messages := messages; px_system := px_system p; px_dependencies := px_dependencies p;
     px_providerAttempts := px_providerAttempts p;
     px_providerAttemptsInitialized := px_providerAttemptsInitialized p; px_result := px_result p |}.
Definition set_system (system : string) (p : promptExecution) : promptExecution :=
  {| px_messages := px_messages p; px_system := system; px_dependencies := px_dependencies p;
     px_providerAttempts := px_providerAttempts p;
     px_providerAttemptsInitialized := px_providerAttemptsInitialized p; px_result := px_result p |}.
Definition set_dependencies (dependencies : list string) (p : promptExecution) : promptExecution :=
  {| px_messages := px_messages p; px_system := px_system p; px_dependencies := dependencies;
     px_providerAttempts := px_providerAttempts p;
     px_providerAttemptsInitialized := px_providerAttemptsInitialized p; px_result := px_result p |}.
Definition set_attempts (attempts : gmap Z Z) (p : promptExecution) : promptExecution :=
  {| px_messages := px_messages p; px_system := px_system p; px_dependencies := px_dependencies p;
     px_providerAttempts := attempts; px_providerAttemptsInitialized := true; px_result := px_result p |}.
Definition set_result (f : Result → Result) (p : promptExecution) : promptExecution :=
  {| px_messages := px_messages p; px_system := px_system p; px_dependencies := px_dependencies p;
     px_providerAttempts := px_providerAttempts p;
     px_providerAttemptsInitialized := px_providerAttemptsInitialized p; px_result := f (px_result p) |}.
