(* ===== verification/SessionTrajectory.v ===== *)
(** How a session writes its trajectory: [sdk/runtime/durability_trajectory.go] and the commit of
    [durability_execution.go].  Every write is one entry, appended under the lease of the claimed
    execution, with the events to dispatch once it is durable. *)

From S2P Require Import Prelude GoText Names Message ContextInjection Trajectory.
From S2P Require Import TrajectoryStore Agent Composition EventDispatch Payload SessionState PromptHost.

Definition no_state : TrajectoryExecutionState := TrajectoryExecutionStateOther "".

(** ** Audits *)

Definition EffectResolutionNoEffect : string := "no_effect".

Definition hasTrajectoryAudit (audit : EventAudit) : bool :=
  if is_empty (ea_EventID audit) && is_empty (ea_EventName audit) then false else
  if negb (length (ea_Steps audit) =? 0)%nat then true else
  let outcome := res_Outcome (ea_Resolution audit) in
  negb (is_empty outcome) && negb (bool_decide (outcome = EffectResolutionNoEffect)).

Definition trajectoryAudits (audits : list EventAudit) : list EventAudit :=
  filter (λ audit, hasTrajectoryAudit audit = true) audits.

(** ** Entries *)

(** [at_] is zero for the current time; the clock and the fresh ID are those of the call. *)
Definition payload_entry (fresh : string * time) (parentID : string) (kind : TrajectoryKind) (generation : Z)
    (at_ : time) (raw : string) : TrajectoryEntry :=
  {| te_ID := fresh.1; te_TrajectoryID := ""; te_ParentID := parentID; te_Ordinal := 0; te_Depth := 0;
     te_Kind := kind; te_Timestamp := if IsZero at_ then fresh.2 else at_; te_Generation := generation;
     te_Fields := zeroFields; te_Audit := []; te_PayloadVersion := 0; te_Payload := raw; te_Attributes := ∅ |}.

Definition with_entry_audit (entry : TrajectoryEntry) (audit : list EventAudit) : TrajectoryEntry :=
  {| te_ID := te_ID entry; te_TrajectoryID := te_TrajectoryID entry; te_ParentID := te_ParentID entry;
     te_Ordinal := te_Ordinal entry; te_Depth := te_Depth entry; te_Kind := te_Kind entry;
     te_Timestamp := te_Timestamp entry; te_Generation := te_Generation entry; te_Fields := te_Fields entry;
     te_Audit := audit; te_PayloadVersion := te_PayloadVersion entry; te_Payload := te_Payload entry;
     te_Attributes := te_Attributes entry |}.

Definition set_ExecutionID (fields : TrajectoryEntryFields) (executionID : string) : TrajectoryEntryFields :=
  {| tf_Turn := tf_Turn fields; tf_ExecutionID := executionID; tf_OperationKey := tf_OperationKey fields;
     tf_CorrelationID := tf_CorrelationID fields; tf_Provider := tf_Provider fields; tf_Model := tf_Model fields;
     tf_ToolName := tf_ToolName fields; tf_ToolCallID := tf_ToolCallID fields;
     tf_FinishReason := tf_FinishReason fields; tf_InputTokens := tf_InputTokens fields;
     tf_OutputTokens := tf_OutputTokens fields; tf_IsError := tf_IsError fields;
     tf_CauseCode := tf_CauseCode fields; tf_ActionKind := tf_ActionKind fields |}.

Definition trajectoryAppendEventPayload (trajectoryID : string) (entry : TrajectoryEntry) : TrajectoryEventPayload :=
  {| tv_TrajectoryID := trajectoryID; tv_EntryID := te_ID entry; tv_EntryKind := te_Kind entry; tv_From := "";
     tv_To := ""; tv_Generation := te_Generation entry |}.

Section writing.
Context {W : Type} `{!AgentHost W} `{!PayloadCodec}.

Definition newPayloadTrajectoryEntry {X} (fresh_id : prog X (string * time)) (parentID : string)
    (kind : TrajectoryKind) (generation : Z) (at_ : time) (p : payload) : prog X TrajectoryEntry :=
  let! fresh := fresh_id in
  match Marshal_payload p with
  | Err err => throw (Wrapf "encode %s trajectory entry: %w" [AStr (trajectory_kind_text kind)] err)
  | Ok raw => pure (payload_entry fresh parentID kind generation at_ raw)
  end.

(** ** Commits *)

Definition execution_commit (s : session) (entries : list TrajectoryEntry) (state : TrajectoryExecutionState)
    (executionError : string) : TrajectoryExecutionCommit :=
  {| ecm_TrajectoryID := cfg_ID (ls_config s); ecm_ExecutionID := ls_executionID s;
     ecm_LeaseToken := ls_executionToken s; ecm_ExpectedHead := ls_head s; ecm_Entries := entries;
     ecm_State := state; ecm_Error := executionError |}.

Definition commitExecution (entry : TrajectoryEntry) (state : TrajectoryExecutionState) (executionError : string)
    (events : list post_commit_event) : prog (exec W) unit :=
  let! s := read x_session in
  if is_empty (ls_executionID s) || is_empty (ls_executionToken s)
  then throw (errors_New "session has no claimed trajectory execution") else
  let entry := with_fields entry (set_ExecutionID (te_Fields entry) (ls_executionID s)) in
  let entries := if is_empty (te_ID entry) then [] else [entry] in
  let! metadata := ask (RCommitTrajectoryExecution (execution_commit s entries state executionError)) in
  do! modify (set_session (λ s, with_head s (tm_Head metadata)));
  do! (if negb (bool_decide (state = no_state)) && negb (bool_decide (state = TrajectoryExecutionRunning))
       then modify (set_session (λ s', clearExecution s' (ls_executionID s) (ls_executionToken s))) else pure tt);
  ask_value (RDispatchAfterCommit events).

Definition appendTrajectoryState (snapshot : registrySnapshot) (kind : TrajectoryKind) (p : payload)
    (state : TrajectoryExecutionState) (executionError : string) (audit : list EventAudit)
    (extraEvents : list post_commit_event) : prog (exec W) unit :=
  let! head := read (λ x, ls_head (x_session x)) in
  let! entry := newPayloadTrajectoryEntry (ask_value RFresh) head kind (sn_generation snapshot) 0 p in
  let entry := with_entry_audit (with_fields entry (EntryFields p)) audit in
  let! s := read x_session in
  let append := EventTrajectoryAppend (trajectoryAppendEventPayload (cfg_ID (ls_config s)) entry) in
  do! ask (RPrepareEvent snapshot append);
  let events := append :: extraEvents in
  if negb (is_empty (ls_executionID s)) && negb (is_empty (ls_executionToken s)) then
    let! r := attempt (commitExecution entry state executionError events) in
    match r with
    | Err err => throw (Wrapf "commit %s trajectory entry: %w" [AStr (trajectory_kind_text kind)] err)
    | Ok _ => pure tt
    end
  else
    if negb (bool_decide (state = no_state))
    then throw (Errorf "complete %s trajectory entry without an active execution" [AStr (trajectory_kind_text kind)])
    else
      let! r := attempt (ask (RAppendTrajectoryEntries (cfg_ID (ls_config s)) (ls_head s) [entry])) in
      match r with
      | Err err => throw (Wrapf "append %s trajectory entry: %w" [AStr (trajectory_kind_text kind)] err)
      | Ok head =>
          do! modify (set_session (λ s, with_head s head));
          ask_value (RDispatchAfterCommit events)
      end.

Definition appendTrajectoryWithAudit (snapshot : registrySnapshot) (kind : TrajectoryKind) (p : payload)
    (audit : list EventAudit) : prog (exec W) unit :=
  appendTrajectoryState snapshot kind p no_state "" audit [].

Definition appendTrajectoryStateWithExecutionEvent (snapshot : registrySnapshot) (kind : TrajectoryKind)
    (p : payload) (state : TrajectoryExecutionState) (executionError : string) (audit : list EventAudit)
    (event : post_commit_event) : prog (exec W) unit :=
  do! ask (RPrepareEvent snapshot event);
  appendTrajectoryState snapshot kind p state executionError audit [event].

Definition appendTrajectoryWithExecutionEvent (snapshot : registrySnapshot) (kind : TrajectoryKind) (p : payload)
    (audit : list EventAudit) (event : post_commit_event) : prog (exec W) unit :=
  appendTrajectoryStateWithExecutionEvent snapshot kind p no_state "" audit event.

(** ** Checkpoints *)

Definition checkpoint_payload (s : session) (commit : trajectoryCheckpointCommit) : Checkpoint :=
  {| cp_Messages :=
       if bool_decide (ck_MessageMode commit = CheckpointMessagesBranch) then [] else CloneMessages (ck_Messages commit);
     cp_MessageMode := ck_MessageMode commit; cp_System := ck_System commit;
     cp_Provider := cfg_Provider (ls_config s); cp_Output := rl_Output (ck_Result commit);
     cp_Turns := rl_Turns (ck_Result commit); cp_ToolCalls := rl_ToolCalls (ck_Result commit);
     cp_InputTokens := rl_InputTokens (ck_Result commit); cp_OutputTokens := rl_OutputTokens (ck_Result commit);
     cp_Generation := rl_Generation (ck_Result commit); cp_Action := CloneAction (ck_Action commit);
     cp_ContextInjections := CloneContextInjections (contextInjectionProjection s (ck_ContextInjections commit));
     cp_ConsumedContextInjectionIDs := consumedContextInjectionIDs s (ck_ContextInjections commit);
     cp_Dependencies := ck_Dependencies commit |}.

Definition checkpointTrajectory (snapshot : registrySnapshot) (commit : trajectoryCheckpointCommit)
    : prog (exec W) unit :=
  let! s := read x_session in
  do! appendTrajectoryWithAudit snapshot TrajectoryKindCheckpoint (PCheckpoint (checkpoint_payload s commit))
        (ck_Audit commit);
  do! modify (set_history (saved commit));
  modify (set_session (λ s, with_config s (with_system (ls_config s) (ck_System commit)))).

(** ** Moving the head *)

Record trajectoryHeadMove := {
  hm_Entry : TrajectoryEntry;
  hm_From : string;
  hm_To : string;
}.

Definition newTrajectoryHeadMove {X} (fresh_id : prog X (string * time)) (from to : string) (kind : TrajectoryKind)
    (generation : Z) (at_ : time) : prog X trajectoryHeadMove :=
  let! entry := newPayloadTrajectoryEntry fresh_id to kind generation at_ (PHeadMove from to) in
  pure {| hm_Entry := entry; hm_From := from; hm_To := to |}.

Definition headMove_eventPayload (move : trajectoryHeadMove) (trajectoryID : string) : TrajectoryEventPayload :=
  let payload := trajectoryAppendEventPayload trajectoryID (hm_Entry move) in
  {| tv_TrajectoryID := tv_TrajectoryID payload; tv_EntryID := tv_EntryID payload;
     tv_EntryKind := tv_EntryKind payload; tv_From := hm_From move; tv_To := hm_To move;
     tv_Generation := tv_Generation payload |}.

(** [eventName] and [eventPlan]. *)
Definition headMove_event (move : trajectoryHeadMove) (trajectoryID : string) : result post_commit_event :=
  match te_Kind (hm_Entry move) with
  | TrajectoryKindRestore => Ok (EventTrajectoryRestore (headMove_eventPayload move trajectoryID))
  | TrajectoryKindRollback => Ok (EventTrajectoryRollback (headMove_eventPayload move trajectoryID))
  | kind =>
      Err (Errorf "trajectory head move entry %q has unsupported kind %q"
             [AStr (te_ID (hm_Entry move)); AStr (trajectory_kind_text kind)])
  end.

Definition prepareTrajectoryHeadMove (snapshot : registrySnapshot) (trajectoryID head anchorID : string)
    (kind : TrajectoryKind) : prog (exec W) (trajectoryHeadMove * post_commit_event) :=
  let! move := newTrajectoryHeadMove (ask_value RFresh) head anchorID kind (sn_generation snapshot) 0 in
  let! event := lift (headMove_event move trajectoryID) in
  do! ask (RPrepareEvent snapshot event);
  pure (move, event).
End writing.
