(* ===== verification/ToolCalls.v ===== *)
(** The tool calls of one turn, [sdk/runtime/execution_resources.go]: every call is recorded before
    any runs, the calls run in batches, and every call is answered by one result entry, in order. *)

From S2P Require Import Prelude GoText Names Message ContextInjection Invocation Operation Trajectory.
From S2P Require Import Agent Lineage Registrar Composition EventDispatch Payload SessionState PromptHost SessionTrajectory.

(** ** Responses of the model *)

Fixpoint validate_calls (index : Z) (seen : gset string) (calls : list ToolCall) : result unit :=
  match calls with
  | [] => Ok tt
  | call :: rest =>
      fail_if is_empty (tc_ID call) with Errorf "tool call %d has an empty ID" [ANum index];
      fail_if bool_decide (tc_ID call ∈ seen) with Errorf "tool call ID %q is duplicated" [AStr (tc_ID call)];
      fail_if negb (json_Valid (default "" (tc_Arguments call))) with
        Errorf "tool call %q arguments are invalid JSON" [AStr (tc_ID call)];
      validate_calls (index + 1) ({[tc_ID call]} ∪ seen) rest
  end.

Definition validateModelResponse (calls : option (list ToolCall)) : result unit :=
  validate_calls 0 ∅ (default [] calls).

(** ** Behaviour of a call *)

Definition ToolErrorUnknownTool : string := "unknown_tool".
Definition ToolErrorExecutionFailed : string := "execution_failed".
Definition ToolErrorInterrupted : string := "interrupted".
Definition ToolErrorBlocked : string := "blocked".

Definition ToolInterruptBlock : string := "block".
Definition ToolInterruptCancel : string := "cancel".
Definition ToolConcurrencyExclusive : string := "exclusive".
Definition ToolConcurrencyParallel : string := "parallel".

Definition EffectiveInterruptBehavior (spec : ToolSpec) : string :=
  string_default (ts_InterruptBehavior spec) ToolInterruptBlock.
Definition EffectiveConcurrency (spec : ToolSpec) : string :=
  string_default (ts_Concurrency spec) ToolConcurrencyExclusive.

Definition newToolCallFailure (kind reason : string) : toolCallFailure :=
  {| fl_kind := string_default kind ToolErrorBlocked; fl_reason := reason |}.

Definition cancelsOnContextInjection (call : preparedToolCall) : bool :=
  bool_decide (pc_interrupt call = ToolInterruptCancel).

Definition runsInParallel (call : preparedToolCall) : bool :=
  bool_decide (pc_concurrency call = ToolConcurrencyParallel).

Definition toolCallsCancelOnContextInjection (calls : list preparedToolCall) : bool :=
  existsb cancelsOnContextInjection calls.

(** ** Batches *)

Record toolCallBatch := {
  tb_start : nat;
  tb_end : nat;
}.

Definition close_batch (open : option nat) (index : nat) : list toolCallBatch :=
  match open with Some start => [{| tb_start := start; tb_end := index |}] | None => [] end.

(** [open] is where the run of parallel calls before [index] starts. *)
Fixpoint batch_loop (open : option nat) (index : nat) (calls : list preparedToolCall) : list toolCallBatch :=
  match calls with
  | [] => close_batch open index
  | call :: rest =>
      if runsInParallel call then batch_loop (Some (default index open)) (S index) rest
      else close_batch open index ++ {| tb_start := index; tb_end := S index |} :: batch_loop None (S index) rest
  end.

Definition toolCallExecutionBatches (calls : list preparedToolCall) : list toolCallBatch := batch_loop None 0 calls.

(** [l[start:end]], and [copy(l[start:end], part)]. *)
Definition slice {A} (l : list A) (batch : toolCallBatch) : list A :=
  take (tb_end batch - tb_start batch) (drop (tb_start batch) l).
Definition splice {A} (l : list A) (batch : toolCallBatch) (part : list A) : list A :=
  take (tb_start batch) l ++ part ++ drop (tb_end batch) l.

(** ** Outcomes *)

Definition zeroToolResult : ToolResult := {| tr_Content := ""; tr_IsError := false |}.
Definition zeroOutcome : toolCallOutcome := {| oc_result := zeroToolResult; oc_err := None |}.
Definition errContextInjectionInterrupt : error := Sentinel ErrContextInjectionInterrupt.

Definition outcome_interrupted (outcome : toolCallOutcome) : bool :=
  match oc_err outcome with Some err => errors_Is err ErrContextInjectionInterrupt | None => false end.

Definition toolOutcomesInterrupted (outcomes : list toolCallOutcome) : bool := existsb outcome_interrupted outcomes.

Definition markInterruptedToolOutcomes (outcomes : list toolCallOutcome) (start : nat) : list toolCallOutcome :=
  take start outcomes ++
  replicate (length outcomes - start) {| oc_result := zeroToolResult; oc_err := Some errContextInjectionInterrupt |}.

Definition with_failure (call : preparedToolCall) (failure : toolCallFailure) : preparedToolCall :=
  {| pc_call := pc_call call; pc_invocation := pc_invocation call; pc_correlationID := pc_correlationID call;
     pc_asynchronous := pc_asynchronous call; pc_initial := pc_initial call; pc_failure := Some failure;
     pc_forkAnchor := pc_forkAnchor call; pc_interrupt := pc_interrupt call; pc_concurrency := pc_concurrency call |}.

Definition with_initial (call : preparedToolCall) (operation : Operation) : preparedToolCall :=
  {| pc_call := pc_call call; pc_invocation := pc_invocation call; pc_correlationID := pc_correlationID call;
     pc_asynchronous := pc_asynchronous call; pc_initial := Some operation; pc_failure := pc_failure call;
     pc_forkAnchor := pc_forkAnchor call; pc_interrupt := pc_interrupt call; pc_concurrency := pc_concurrency call |}.

Section tools.
Context {W : Type} `{!AgentHost W} `{!PayloadCodec}.

(** ** Recording a call *)

Definition tool_coordinate (turn : Z) (call : ToolCall) : string := decimal turn ++ "/" ++ tc_ID call.

Definition prepareToolCall (snapshot : registrySnapshot) (turn : Z) (toolIndex : gmap string advertisedTool)
    (providerInvocationID : string) (index : nat) (rawCall : ToolCall) : prog (exec W) preparedToolCall :=
  let! '(payload, before) := ask (RBeforeTool snapshot {| bt_Turn := turn; bt_Call := rawCall |}) in
  let call := bt_Call payload in
  let! s := read x_session in
  let invocation :=
    executionInvocation (invocation_session s) "tool" (tool_coordinate turn call) ("tools/" ++ decimal turn)
      [providerInvocationID] (u32 (Z.of_nat index)) in
  do! appendTrajectoryWithAudit snapshot TrajectoryKindToolCall
        (PToolCall {| dc_Turn := turn; dc_Call := call; dc_OperationKey := inv_ID invocation;
                      dc_CorrelationID := providerInvocationID |})
        (trajectoryAudits [dr_Audit before]);
  let! head := read (λ x, ls_head (x_session x)) in
  let prepared interrupt concurrency asynchronous failure :=
    {| pc_call := call; pc_invocation := invocation; pc_correlationID := providerInvocationID;
       pc_asynchronous := asynchronous; pc_initial := None; pc_failure := failure;
       pc_forkAnchor := {| fa_parentEntryID := head; fa_originForkInvocationID := inv_ID invocation |};
       pc_interrupt := interrupt; pc_concurrency := concurrency |} in
  match dr_Block before with
  | Some block =>
      pure (prepared ToolInterruptBlock ToolConcurrencyExclusive None
              (Some (newToolCallFailure (bk_Kind block) (bk_Reason block))))
  | None =>
      match toolIndex !! tc_Name call with
      | None =>
          pure (prepared ToolInterruptBlock ToolConcurrencyExclusive None
                  (Some (newToolCallFailure ToolErrorUnknownTool
                           (h_error_text (Errorf "unknown or unavailable tool %q" [AStr (tc_Name call)])))))
      | Some tool =>
          pure (prepared (EffectiveInterruptBehavior (at_Spec tool)) (EffectiveConcurrency (at_Spec tool))
                  (Some (at_Value tool)) None)
      end
  end.

(** ** Running a batch *)

Definition submit_error (call : preparedToolCall) (err : error) : string :=
  h_error_text (Wrapf "submit tool %q call: %v" [AStr (tc_Name (pc_call call))] err).

(** [submitToolCall], with the error [runParallelIndexed] makes of a panic. *)
Definition submitToolCall (providerName : string) (call : preparedToolCall) : prog (exec W) preparedToolCall :=
  match pc_failure call with
  | Some _ => pure call
  | None =>
      let! answer := ask_value (RSubmitCall providerName call) in
      pure (match answer with
            | Submitted operation => with_initial call operation
            | SubmitFailed err interrupted =>
                if cancelsOnContextInjection call && interrupted
                then with_failure call
                       (newToolCallFailure ToolErrorInterrupted (h_error_text errContextInjectionInterrupt))
                else with_failure call (newToolCallFailure ToolErrorExecutionFailed (submit_error call err))
            | SubmitPanicked err =>
                with_failure call (newToolCallFailure ToolErrorExecutionFailed (submit_error call err))
            end)
  end.

Definition submitToolCalls (providerName : string) (calls : list preparedToolCall)
    : prog (exec W) (list preparedToolCall) :=
  traverse (λ _, submitToolCall providerName) 0 calls.

Definition awaitToolCall (call : preparedToolCall) : prog (exec W) toolCallOutcome :=
  match pc_failure call with
  | Some failure =>
      pure {| oc_result := {| tr_Content := fl_reason failure; tr_IsError := true |}; oc_err := None |}
  | None =>
      let! answer := ask_value (RAwaitOperation call) in
      pure (match answer with
            | Awaited result => {| oc_result := result; oc_err := None |}
            | AwaitFailed err interrupted =>
                {| oc_result := zeroToolResult;
                   oc_err := Some (if cancelsOnContextInjection call && interrupted
                                   then errContextInjectionInterrupt else err) |}
            | AwaitPanicked err => {| oc_result := zeroToolResult; oc_err := Some err |}
            end)
  end.

Definition awaitToolCalls (calls : list preparedToolCall) : prog (exec W) (list toolCallOutcome) :=
  traverse (λ _, awaitToolCall) 0 calls.

(** ** Recording a result *)

Definition afterTool (snapshot : registrySnapshot) (turn : Z) (call : preparedToolCall) (result : ToolResult)
    (audits : list EventAudit) : prog (exec W) (ToolCall * ToolResult) :=
  let! '(payload, dispatched) :=
    ask (RAfterTool snapshot {| at_Turn := turn; at_Call := pc_call call; at_Result := result |}) in
  do! appendTrajectoryWithAudit snapshot TrajectoryKindToolResult
        (PToolResult {| dt_After := payload; dt_CorrelationID := pc_correlationID call |})
        (trajectoryAudits (audits ++ [dr_Audit dispatched]));
  pure (pc_call call, at_Result payload).

Definition afterToolError (snapshot : registrySnapshot) (turn : Z) (call : preparedToolCall)
    (kind reason : string) (result : ToolResult) : prog (exec W) (ToolCall * ToolResult) :=
  let! '(payload, dispatched) :=
    ask (RToolError snapshot {| tp_Turn := turn; tp_Call := pc_call call; tp_Kind := kind; tp_Reason := reason;
                                  tp_Result := result |}) in
  afterTool snapshot turn call (tp_Result payload) [dr_Audit dispatched].

Definition finalizeToolCall (snapshot : registrySnapshot) (turn : Z) (call : preparedToolCall)
    (outcome : toolCallOutcome) : prog (exec W) (ToolCall * ToolResult) :=
  match oc_err outcome with
  | Some err =>
      let result := {| tr_Content := h_error_text err; tr_IsError := true |} in
      let kind := if errors_Is err ErrContextInjectionInterrupt then ToolErrorInterrupted else ToolErrorExecutionFailed in
      afterToolError snapshot turn call kind (h_error_text err) result
  | None =>
      match pc_failure call with
      | Some failure => afterToolError snapshot turn call (fl_kind failure) (fl_reason failure) (oc_result outcome)
      | None => afterTool snapshot turn call (oc_result outcome) []
      end
  end.

(** ** [executeTools] *)

(** [context.Cause(toolCtx)] is the interrupt; without an execution, or without a call that wants it,
    [toolCtx] is the context of the turn. *)
Definition tool_interrupted (enabled : bool) : prog (exec W) bool :=
  let! s := read x_session in
  if enabled && negb (is_empty (ls_executionID s)) then ask_value RInterrupted else pure false.

(** The loop over the batches, on the slices of calls and outcomes the batches alias. *)
Fixpoint run_batches (enabled : bool) (providerName : string) (batches : list toolCallBatch)
    (prepared : list preparedToolCall) (outcomes : list toolCallOutcome) (interrupted : bool)
    : prog (exec W) (list preparedToolCall * list toolCallOutcome * bool) :=
  match batches with
  | [] => pure (prepared, outcomes, interrupted)
  | batch :: rest =>
      let! calls := submitToolCalls providerName (slice prepared batch) in
      let! batchOutcomes := awaitToolCalls calls in
      let prepared := splice prepared batch calls in
      let outcomes := splice outcomes batch batchOutcomes in
      let! cause := (if toolOutcomesInterrupted batchOutcomes then pure true else tool_interrupted enabled) in
      if cause && (tb_end batch <? length prepared)%nat
      then pure (prepared, markInterruptedToolOutcomes outcomes (tb_end batch), true)
      else run_batches enabled providerName rest prepared outcomes cause
  end.

Definition count_tool_call (r : Result) : Result :=
  {| rl_Output := rl_Output r; rl_Messages := rl_Messages r; rl_ContextInjections := rl_ContextInjections r;
     rl_Turns := rl_Turns r; rl_ToolCalls := rl_ToolCalls r + 1; rl_InputTokens := rl_InputTokens r;
     rl_OutputTokens := rl_OutputTokens r; rl_Generation := rl_Generation r; rl_Cause := rl_Cause r |}.

Definition finalize_call (snapshot : registrySnapshot) (turn : Z) (call : preparedToolCall)
    (outcome : toolCallOutcome) : prog (exec W) ToolResult :=
  let! '(finalCall, result) := finalizeToolCall snapshot turn call outcome in
  do! modify (set_prompt (λ p, set_result count_tool_call
        (set_messages (px_messages p ++ [ToolMessage (tc_ID finalCall) result]) p)));
  pure result.

Definition executeTools (snapshot : registrySnapshot) (turn : Z) (calls : list ToolCall)
    (tools : gmap string advertisedTool) (providerInvocationID providerName : string)
    : prog (exec W) (list ToolResult * bool) :=
  let! prepared := traverse (prepareToolCall snapshot turn tools providerInvocationID) 0 calls in
  do! (match validateModelResponse (Some (pc_call <$> prepared)) with
       | Err err => throw (Wrapf "before_tool produced invalid calls: %w" [] err)
       | Ok _ => pure tt
       end);
  let enabled := toolCallsCancelOnContextInjection prepared in
  let! '(prepared, outcomes, interrupted) :=
    run_batches enabled providerName (toolCallExecutionBatches prepared) prepared
      (replicate (length prepared) zeroOutcome) false in
  let! interrupted := (if interrupted then pure true else tool_interrupted enabled) in
  let! results := traverse (λ _ p, finalize_call snapshot turn p.1 p.2) 0 (zip prepared outcomes) in
  do! modify (set_prompt (set_dependencies
        (if (length prepared =? 0)%nat then [providerInvocationID] else (λ c, inv_ID (pc_invocation c)) <$> prepared)));
  pure (results, interrupted || toolOutcomesInterrupted outcomes).
End tools.
