(* ===== verification/PromptExecution.v ===== *)
(** The agent loop, [sdk/runtime/execution_prompt.go]: an execution asks the model, runs the tools it
    calls, decides how to go on and commits a checkpoint, turn after turn, and records every step in
    the trajectory before the next one starts. *)

From S2P Require Import Prelude GoText Names Paging Message ContextInjection Invocation Operation Trajectory.
From S2P Require Import Agent Lineage Registrar Composition EventDispatch Payload Durability SessionState PromptHost SessionTrajectory ToolCalls.

Inductive promptTurnTransition := promptTurnAdvance | promptTurnRetry | promptTurnDone.

Definition newPromptUserMessage (prompt : string) : Message :=
  {| msg_Role := RoleUser; msg_Content := prompt; msg_ToolCalls := None; msg_ToolCallID := ""; msg_IsError := false |}.

Definition newPrompt (messages : list Message) (system : string) : promptExecution :=
  {| px_messages := messages; px_system := system; px_dependencies := []; px_providerAttempts := ∅;
     px_providerAttemptsInitialized := false; px_result := zeroResult |}.

Definition newPromptExecutionFromAcceptedMessages (s : session) (baseMessages : list Message)
    (userMessage : Message) : result promptExecution :=
  fail_if negb (bool_decide (msg_Role userMessage = RoleUser)) || is_empty (msg_Content userMessage) with
    errors_New "trajectory execution input is not a user message";
  Ok (newPrompt (CloneMessages baseMessages ++ [CloneMessage userMessage]) (cfg_System (ls_config s))).

(** ** Results *)

Definition with_generation (generation : Z) (r : Result) : Result :=
  {| rl_Output := rl_Output r; rl_Messages := rl_Messages r; rl_ContextInjections := rl_ContextInjections r;
     rl_Turns := rl_Turns r; rl_ToolCalls := rl_ToolCalls r; rl_InputTokens := rl_InputTokens r;
     rl_OutputTokens := rl_OutputTokens r; rl_Generation := generation; rl_Cause := rl_Cause r |}.

Definition with_end (messages : list Message) (cause : Cause) (r : Result) : Result :=
  {| rl_Output := rl_Output r; rl_Messages := CloneMessages messages;
     rl_ContextInjections := rl_ContextInjections r; rl_Turns := rl_Turns r; rl_ToolCalls := rl_ToolCalls r;
     rl_InputTokens := rl_InputTokens r; rl_OutputTokens := rl_OutputTokens r; rl_Generation := rl_Generation r;
     rl_Cause := cause |}.

Definition with_result_injections (injections : list ContextInjection) (r : Result) : Result :=
  {| rl_Output := rl_Output r; rl_Messages := rl_Messages r; rl_ContextInjections := injections;
     rl_Turns := rl_Turns r; rl_ToolCalls := rl_ToolCalls r; rl_InputTokens := rl_InputTokens r;
     rl_OutputTokens := rl_OutputTokens r; rl_Generation := rl_Generation r; rl_Cause := rl_Cause r |}.

Definition record_response (turn : Z) (response : ModelResponse) (r : Result) : Result :=
  {| rl_Output := mr_Content response; rl_Messages := rl_Messages r;
     rl_ContextInjections := rl_ContextInjections r; rl_Turns := turn + 1; rl_ToolCalls := rl_ToolCalls r;
     rl_InputTokens := i64 (rl_InputTokens r + mr_InputTokens response);
     rl_OutputTokens := i64 (rl_OutputTokens r + mr_OutputTokens response);
     rl_Generation := rl_Generation r; rl_Cause := rl_Cause r |}.

Definition agentEndPayloadFromResult (r : Result) (messages : list Message) (cause : Cause) : AgentEndPayload :=
  let messages := CloneMessages messages in
  {| ae_Messages := messages; ae_ContextInjections := CloneContextInjections (rl_ContextInjections r);
     ae_Output := if is_empty (rl_Output r) then latestAssistantOutput messages else rl_Output r;
     ae_Turns := rl_Turns r; ae_ToolCalls := rl_ToolCalls r; ae_InputTokens := rl_InputTokens r;
     ae_OutputTokens := rl_OutputTokens r; ae_Cause := cause |}.

(** The terminal entry keeps no messages: the branch has them. *)
Definition durable_end (end_ : AgentEndPayload) : AgentEndPayload :=
  {| ae_Messages := []; ae_ContextInjections := ae_ContextInjections end_; ae_Output := ae_Output end_;
     ae_Turns := ae_Turns end_; ae_ToolCalls := ae_ToolCalls end_; ae_InputTokens := ae_InputTokens end_;
     ae_OutputTokens := ae_OutputTokens end_; ae_Cause := ae_Cause end_ |}.

Definition executionStateForCause (cause : Cause) : TrajectoryExecutionState :=
  if bool_decide (ca_Code cause = CauseProviderError) || bool_decide (ca_Code cause = CauseHookError)
  then TrajectoryExecutionFailed
  else if bool_decide (ca_Code cause = CauseCancelled) then TrajectoryExecutionCancelled
  else TrajectoryExecutionSucceeded.

(** ** Resolving the actions of hooks *)

Definition stepAction : Action := {| ac_Kind := ActionStep; ac_Cause := None; ac_Messages := [] |}.
Definition stopAction (cause : Cause) : Action := {| ac_Kind := ActionStop; ac_Cause := Some cause; ac_Messages := [] |}.
Definition injectAction (messages : list Message) : Action :=
  {| ac_Kind := ActionInject; ac_Cause := None; ac_Messages := messages |}.
Definition modelEnd : Cause := {| ca_Code := CauseModelEnd; ca_Detail := ""; ca_Final := false |}.
Definition maxTurnsCause : Cause := {| ca_Code := CauseMaxTurns; ca_Detail := ""; ca_Final := true |}.

Definition actionStepAt (steps : list Z) (index : nat) : Z := default (Z.of_nat index) (steps !! index).

Definition actionResolution (action : Action) (steps : list Z) (rule : string) : EffectResolution :=
  {| res_Outcome := "action"; res_Block := None; res_BlockStep := None; res_Action := summarizeAction (Some action);
     res_ActionSteps := steps; res_ActionRule := rule; res_PatchFields := []; res_Error := "" |}.

(** The indices of the actions of a kind, in order. *)
Fixpoint indices_of (kind : string) (index : nat) (actions : list Action) : list nat :=
  match actions with
  | [] => []
  | action :: rest =>
      if bool_decide (ac_Kind action = kind) then index :: indices_of kind (S index) rest
      else indices_of kind (S index) rest
  end.

Definition injected_messages (actions : list Action) : list Message :=
  action ← actions; if bool_decide (ac_Kind action = ActionInject) then CloneMessages (ac_Messages action) else [].

Definition resolveAction (defaultAction : Action) (actions : list Action) (actionSteps : list Z)
    : Action * EffectResolution :=
  if bool_decide (ac_Kind defaultAction = ActionStop) && actionFinal defaultAction then
    let action := CloneAction defaultAction in (action, actionResolution action [] "default_final_stop")
  else
  match last (indices_of ActionStop 0 actions) with
  | Some stopIndex =>
      let action := CloneAction (default defaultAction (actions !! stopIndex)) in
      (action, actionResolution action [actionStepAt actionSteps stopIndex] "last_stop")
  | None =>
      let injected := injected_messages actions in
      if negb (length injected =? 0)%nat then
        let action := injectAction injected in
        (action, actionResolution action (actionStepAt actionSteps <$> indices_of ActionInject 0 actions) "inject_merge")
      else
      match head (indices_of ActionStep 0 actions) with
      | Some index => (stepAction, actionResolution stepAction [actionStepAt actionSteps index] "first_step")
      | None => let action := CloneAction defaultAction in (action, actionResolution action [] "default")
      end
  end.

Definition with_resolution (audit : EventAudit) (resolution : EffectResolution) : EventAudit :=
  {| ea_EventID := ea_EventID audit; ea_EventName := ea_EventName audit; ea_Generation := ea_Generation audit;
     ea_InputHash := ea_InputHash audit; ea_OutputHash := ea_OutputHash audit; ea_Steps := ea_Steps audit;
     ea_Resolution := resolution |}.

(** [MaxTurns > 0 && turn+1 >= MaxTurns]. *)
Definition last_turn (s : session) (turn : Z) : bool :=
  (0 <? cfg_MaxTurns (ls_config s)) && (cfg_MaxTurns (ls_config s) <=? turn + 1).

Definition default_action (s : session) (turn : Z) (response : ModelResponse) : Action :=
  if (length (default [] (mr_ToolCalls response)) =? 0)%nat then stopAction modelEnd
  else if last_turn s turn then stopAction maxTurnsCause else stepAction.

(** ** Providers *)

Definition ascii_lower (c : ascii) : ascii :=
  let n := nat_of_ascii c in if (65 <=? n)%nat && (n <=? 90)%nat then ascii_of_nat (n + 32) else c.

(** [strings.ToLower], as far as it can make an ASCII letter: A to Z, and U+0130, whose lower case is i.
    (The Kelvin sign, whose lower case is k, cannot make one of the texts below.) *)
Fixpoint to_lower (s : string) : string :=
  match s with
  | "" => ""
  | String c rest =>
      match rest with
      | String d rest' =>
          if (nat_of_ascii c =? 196)%nat && (nat_of_ascii d =? 176)%nat then String "i" (to_lower rest')
          else String (ascii_lower c) (to_lower rest)
      | "" => String (ascii_lower c) ""
      end
  end.

Definition providerReasoningEffort (value : string) : string :=
  let text := to_lower (TrimSpace value) in
  if existsb (String.eqb text) ["low"; "medium"; "high"; "xhigh"] then text else "".

Definition providerInvocationCoordinate (turn attempt : Z) : string :=
  if attempt =? 0 then decimal turn else decimal turn ++ "/" ++ decimal attempt.

Record providerOutcome := {
  ou_turn : Z;
  ou_provider : string;
  ou_operationKey : string;
  ou_correlationID : string;
  ou_sequence : Z;
  ou_response : result ModelResponse;
}.

Definition newProviderTerminalOutcome (turn : Z) (call : providerCall) (response : result ModelResponse)
    : providerOutcome :=
  {| ou_turn := turn; ou_provider := pv_name call; ou_operationKey := inv_ID (pv_invocation call);
     ou_correlationID := inv_ID (pv_invocation call); ou_sequence := 1; ou_response := response |}.

Section loop.
Context {W : Type} `{!AgentHost W} `{!PayloadCodec} `{!MapOrder}.

Definition afterPayload (outcome : providerOutcome) : AfterProviderPayload :=
  {| ap_Turn := ou_turn outcome; ap_Provider := ou_provider outcome;
     ap_Response := match ou_response outcome with Ok response => Some response | Err _ => None end;
     ap_Error := match ou_response outcome with Ok _ => "" | Err err => h_error_text err end |}.

Definition eventPayload (outcome : providerOutcome) : ProviderOutcomePayload :=
  {| po_Turn := ou_turn outcome; po_Provider := ou_provider outcome; po_OperationKey := ou_operationKey outcome;
     po_CorrelationID := ou_correlationID outcome; po_Sequence := ou_sequence outcome;
     po_Kind := match ou_response outcome with Ok _ => "completed" | Err _ => "failed" end;
     po_Response := match ou_response outcome with Ok response => Some response | Err _ => None end;
     po_Error := match ou_response outcome with Ok _ => "" | Err err => h_error_text err end |}.

Definition trajectoryResponse (outcome : providerOutcome) : ProviderResponse :=
  {| pr_After := afterPayload outcome; pr_CorrelationID := ou_correlationID outcome |}.

Definition attempts_query (s : session) : TrajectoryEntryQuery :=
  {| tq_TrajectoryID := cfg_ID (ls_config s); tq_ExecutionID := ls_executionID s; tq_OperationKey := "";
     tq_Kind := TrajectoryKindProviderRequest; tq_Provider := ""; tq_ToolName := ""; tq_CorrelationID := "";
     tq_Limit := MaxPageSize |}.

Definition count_attempt (attempts : gmap Z Z) (entry : TrajectoryEntry) : gmap Z Z :=
  match tf_Turn (te_Fields entry) with
  | Some turn => <[turn := default 0 (attempts !! turn) + 1]> attempts
  | None => attempts
  end.

Definition initializeProviderAttempts : prog (exec W) unit :=
  let! x := read id in
  if px_providerAttemptsInitialized (x_prompt x) then pure tt else
  do! modify (set_prompt (set_attempts (px_providerAttempts (x_prompt x))));
  if is_empty (ls_executionID (x_session x)) then pure tt else
  let! entries := ask (RAnalyzeEntries (attempts_query (x_session x))) in
  modify (set_prompt (λ p, set_attempts (foldl count_attempt (px_providerAttempts p) entries) p)).

Definition nextProviderAttempt (turn : Z) : prog (exec W) Z :=
  do! initializeProviderAttempts;
  let! attempts := read (λ x, px_providerAttempts (x_prompt x)) in
  let attempt := default 0 (attempts !! turn) in
  do! modify (set_prompt (set_attempts (<[turn := attempt + 1]> attempts)));
  pure attempt.

Definition systemMessage (system : string) : Message :=
  {| msg_Role := RoleSystem; msg_Content := system; msg_ToolCalls := None; msg_ToolCallID := ""; msg_IsError := false |}.

Definition request_messages (messages : list Message) (system : string) : list Message :=
  (if is_empty system then [] else [systemMessage system]) ++ CloneMessages messages.

Definition prepareProviderCall (snapshot : registrySnapshot) (turn : Z) : prog (exec W) providerCall :=
  let! x := read id in
  let config := ls_config (x_session x) in
  let! providerName := lift (selectProviderName snapshot (cfg_Provider config)) in
  let! '(payload, beforeProvider) :=
    ask (RBeforeProvider snapshot
      {| bp_Turn := turn; bp_Messages := CloneMessages (px_messages (x_prompt x)); bp_Provider := providerName;
         bp_System := px_system (x_prompt x); bp_Tools := snapshotToolSpecs snapshot |}) in
  match sn_providers snapshot !! bp_Provider payload with
  | None => throw (Errorf "before_provider selected unregistered provider %q" [AStr (bp_Provider payload)])
  | Some ownedProvider =>
      let! '(advertisedTools, toolIndex) := lift (resolveAdvertisedTools snapshot (bp_Tools payload)) in
      let! attempt := nextProviderAttempt turn in
      let! x := read id in
      let invocation :=
        executionInvocation (invocation_session (x_session x)) "provider" (providerInvocationCoordinate turn attempt)
          ("turn/" ++ decimal turn) (px_dependencies (x_prompt x)) 0 in
      let call :=
        {| pv_name := bp_Provider payload; pv_provider := or_Value ownedProvider; pv_invocation := invocation;
           pv_request := {| mq_Messages := request_messages (bp_Messages payload) (bp_System payload);
                            mq_Tools := advertisedTools;
                            mq_ReasoningEffort := providerReasoningEffort (cfg_ReasoningEffort config) |};
           pv_tools := toolIndex |} in
      do! appendTrajectoryWithExecutionEvent snapshot TrajectoryKindProviderRequest
            (PProviderRequest
               {| pq_Turn := turn; pq_Provider := pv_name call; pq_Model := ps_Model (or_Spec ownedProvider);
                  pq_OperationKey := inv_ID invocation; pq_CorrelationID := inv_ID invocation;
                  pq_MessageCount := Z.of_nat (length (mq_Messages (pv_request call)));
                  pq_ToolCount := Z.of_nat (length advertisedTools) |})
            (trajectoryAudits [dr_Audit beforeProvider]) (EventTurnStart turn);
      pure call
  end.

Definition completeProvider (turn : Z) (call : providerCall) : prog (exec W) providerOutcome :=
  let! response := ask_value (RInvokeProvider call) in
  pure (newProviderTerminalOutcome turn call
          (let? response := response in try? validateModelResponse (mr_ToolCalls response); Ok response)).

Definition error_of {A} (r : result A) : list error := match r with Ok _ => [] | Err err => [err] end.

(** [errors.Join]. *)
Definition errors_Join (errs : list error) : option error :=
  match errs with [] => None | _ => Some (Joined errs) end.

(** The response with what [errors.Join] makes of the errors of the call, the dispatch and the commit. *)
Definition callProvider (snapshot : registrySnapshot) (turn : Z) (call : providerCall)
    : prog (exec W) (result ModelResponse) :=
  let! outcome := completeProvider turn call in
  let! outcomeErr := attempt (ask (RProviderOutcome snapshot (eventPayload outcome))) in
  let! trajectoryErr :=
    attempt (appendTrajectoryWithExecutionEvent snapshot TrajectoryKindProviderResponse
               (PProviderResponse (trajectoryResponse outcome)) [] (EventAfterProvider (afterPayload outcome))) in
  do! modify (set_history (answered_with (result_ok (ou_response outcome) && result_ok trajectoryErr)));
  pure (match ou_response outcome, outcomeErr, trajectoryErr with
        | Ok response, Ok _, Ok _ => Ok response
        | r, o, t => Err (Joined (error_of r ++ error_of o ++ error_of t))
        end).

(** ** Queued context *)

Definition pendingContextInjections (boundary : contextInjectionDrainBoundary) : prog (exec W) (list ContextInjection) :=
  let! s := read x_session in
  let! listed := ask (RListContextInjections (pending_query s)) in
  pure (select_injections s boundary listed).

Definition consumeContextInjections (injections : list ContextInjection) : prog (exec W) unit :=
  let ids := filter (λ id, is_empty id = false) (ci_ID <$> injections) in
  match ids with [] => pure tt | _ => ask_value (RConsumeContextInjections ids) end.

Definition branch_checkpoint (p : promptExecution) (action : Action) (injections : list ContextInjection)
    : trajectoryCheckpointCommit :=
  {| ck_Messages := px_messages p; ck_MessageMode := CheckpointMessagesBranch; ck_Result := px_result p;
     ck_Action := action; ck_System := px_system p; ck_Audit := []; ck_ContextInjections := injections;
     ck_Dependencies := px_dependencies p |}.

(** Whether context was injected.  A checkpoint that fails takes the messages back. *)
Definition checkpointQueuedContext (snapshot : registrySnapshot) (boundary : contextInjectionDrainBoundary)
    : prog (exec W) bool :=
  let! injections := pendingContextInjections boundary in
  match injections with
  | [] => pure false
  | _ =>
      let injectedMessages := messagesFromContextInjections injections in
      let! base := read (λ x, px_messages (x_prompt x)) in
      do! modify (set_prompt (set_messages (base ++ injectedMessages)));
      let! p := read x_prompt in
      let! r := attempt (checkpointTrajectory snapshot
                  (branch_checkpoint p (injectAction injectedMessages) (CloneContextInjections injections))) in
      match r with
      | Err err => do! modify (set_prompt (set_messages base)); throw err
      | Ok _ =>
          do! consumeContextInjections injections;
          do! modify (set_session (λ s, markContextInjectionsConsumed s injections));
          do! modify (λ x, set_prompt (set_result (with_result_injections
                (contextInjectionProjection (x_session x) []))) x);
          do! modify (λ x, set_session (λ s, applyMessageProjection s (px_messages (x_prompt x))) x);
          pure true
      end
  end.

(** ** Ending an execution *)

Definition finishWithError (code : string) (cause : error) : prog (exec W) (Result * error) :=
  do! modify (λ x, set_prompt (set_result (with_end (px_messages (x_prompt x))
        {| ca_Code := code; ca_Detail := h_error_text cause; ca_Final := false |})) x);
  do! modify (λ x, set_session (λ s, applyMessageProjection s (px_messages (x_prompt x))) x);
  let! p := read x_prompt in
  pure (px_result p, cause).

(** The result and the error, both set when the terminal entry cannot be committed. *)
Definition session_finish (snapshot : registrySnapshot) (messages : list Message) (r : Result) (cause : Cause)
    : prog (exec W) (Result * option error) :=
  let r := with_end messages cause r in
  let end_ := agentEndPayloadFromResult r messages cause in
  let state := executionStateForCause cause in
  if bool_decide (state = TrajectoryExecutionFailed)
  then pure (r, Some (errors_New "failed execution completion is owned by failure unwind"))
  else
    let! committed := attempt (appendTrajectoryStateWithExecutionEvent snapshot TrajectoryKindTerminal
                        (PTerminal (durable_end end_)) state "" [] (EventAgentEnd end_)) in
    pure (r, match committed with Ok _ => None | Err err => Some err end).

(** [execution.result, err = session.finish(...); session.applyMessageProjection(...)]. *)
Definition finish_prompt (snapshot : registrySnapshot) (cause : Cause) : prog (exec W) (Result * option error) :=
  let! p := read x_prompt in
  let! '(r, err) := session_finish snapshot (px_messages p) (px_result p) cause in
  do! modify (set_prompt (set_result (λ _, r)));
  do! modify (λ x, set_session (λ s, applyMessageProjection s (px_messages (x_prompt x))) x);
  pure (r, err).

(** ** A turn *)

(** [Some] is the end of the execution. *)
Definition applyAction (snapshot : registrySnapshot) (action : Action) : prog (exec W) (option (Result * option error)) :=
  do! (if bool_decide (ac_Kind action = ActionInject)
       then modify (set_prompt (λ p, set_messages (px_messages p ++ CloneMessages (ac_Messages action)) p)) else pure tt);
  if negb (existsb (String.eqb (ac_Kind action)) [ActionInject; ActionStep; ActionStop])
  then throw (Errorf "unknown resolved action %q" [AStr (ac_Kind action)]) else
  let! drained := (if actionDrainsAfterTurn action then checkpointQueuedContext snapshot contextInjectionAfterTurn
                   else pure false) in
  if (drained : bool) then pure None else
  let! p := read x_prompt in
  do! checkpointTrajectory snapshot (branch_checkpoint p action []);
  if negb (bool_decide (ac_Kind action = ActionStop)) then pure None else
  let! r := finish_prompt snapshot (default modelEnd (ac_Cause action)) in
  pure (Some r).

Definition decide (snapshot : registrySnapshot) (turn : Z) (response : ModelResponse) (toolResults : list ToolResult)
    : prog (exec W) Action :=
  let! x := read id in
  let defaultAction := default_action (x_session x) turn response in
  let! decision := ask (RDecide snapshot {| dp_Turn := turn; dp_Default := defaultAction; dp_Response := response;
                                             dp_ToolResults := toolResults |}) in
  let '(action, resolution) := resolveAction defaultAction (dr_Actions decision) (dr_actionSteps decision) in
  let '(action, resolution) :=
    if last_turn (x_session x) turn && negb (bool_decide (ac_Kind action = ActionStop))
    then (stopAction maxTurnsCause,
          actionResolution (stopAction maxTurnsCause) (res_ActionSteps resolution) "max_turns_override")
    else (action, resolution) in
  do! appendTrajectoryWithExecutionEvent snapshot TrajectoryKindDecision
        (PDecision {| de_Turn := turn; de_Action := action |})
        (trajectoryAudits [with_resolution (dr_Audit decision) resolution])
        (EventTurnEnd {| tn_Turn := turn; tn_Messages := CloneMessages (px_messages (x_prompt x)); tn_Action := action |});
  pure action.

Definition turn_answer : Type := Result * promptTurnTransition * option error.

Definition turn_of_action (r : option (Result * option error)) : turn_answer :=
  match r with
  | None => (zeroResult, promptTurnAdvance, None)
  | Some (result, err) => (result, promptTurnDone, err)
  end.

Definition provider_interrupted : prog (exec W) bool :=
  let! s := read x_session in
  if is_empty (ls_executionID s) then pure false else ask_value RInterrupted.

Definition turn_body (turn : Z) : prog (exec W) turn_answer :=
  let! snapshot := ask RAcquireSnapshot in
  do! modify (set_prompt (set_result (with_generation (sn_generation snapshot))));
  do! checkpointQueuedContext snapshot contextInjectionBeforeProvider;
  let! call := prepareProviderCall snapshot turn in
  let! answer := callProvider snapshot turn call in
  let! providerInterrupted := provider_interrupted in
  if (providerInterrupted : bool) then
    do! modify (set_history dropped);
    do! checkpointQueuedContext snapshot contextInjectionBeforeProvider;
    pure (zeroResult, promptTurnRetry, None)
  else
  match answer with
  | Err err =>
      let! '(r, err) := finishWithError CauseProviderError err in
      pure (r, promptTurnDone, Some err)
  | Ok response =>
      do! modify (set_prompt (λ p, set_result (record_response turn response)
            (set_messages (px_messages p ++ [assistantMessage response]) p)));
      let! tools := attempt (executeTools snapshot turn (default [] (mr_ToolCalls response)) (pv_tools call)
                      (inv_ID (pv_invocation call)) (pv_name call)) in
      match tools with
      | Err err =>
          let! '(r, err) := finishWithError CauseHookError err in
          pure (r, promptTurnDone, Some err)
      | Ok (toolResults, interrupted) =>
          if (interrupted : bool) then
            do! checkpointQueuedContext snapshot contextInjectionBeforeProvider;
            let! s := read x_session in
            if last_turn s turn then
              let! r := applyAction snapshot (stopAction maxTurnsCause) in pure (turn_of_action r)
            else pure (zeroResult, promptTurnAdvance, None)
          else
            let! action := decide snapshot turn response toolResults in
            let! r := applyAction snapshot action in
            pure (turn_of_action r)
      end
  end.

(** Every error of the turn that has no result ends the execution with the zero result. *)
Definition executeTurn (turn : Z) (x : exec W) : turn_answer * exec W :=
  match turn_body turn x with
  | (Ok answer, x) => (answer, x)
  | (Err err, x) => ((zeroResult, promptTurnDone, Some err), x)
  end.

(** ** The loop *)

Definition set_end (cause : Cause) (x : exec W) : exec W :=
  let x := set_prompt (set_result (with_end (px_messages (x_prompt x)) cause)) x in
  set_session (λ s, applyMessageProjection s (px_messages (x_prompt x))) x.

Definition with_messages_of (r : Result) (messages : list Message) : Result :=
  {| rl_Output := rl_Output r; rl_Messages := CloneMessages messages;
     rl_ContextInjections := rl_ContextInjections r; rl_Turns := rl_Turns r; rl_ToolCalls := rl_ToolCalls r;
     rl_InputTokens := rl_InputTokens r; rl_OutputTokens := rl_OutputTokens r; rl_Generation := rl_Generation r;
     rl_Cause := rl_Cause r |}.

Definition turn_allowed (s : session) (turn : Z) : bool :=
  (cfg_MaxTurns (ls_config s) =? 0) || (turn <? cfg_MaxTurns (ls_config s)).

(** One round per unit of fuel; [None] is out of fuel. *)
Fixpoint runTurnsFrom (fuel : nat) (turn : Z) (x : exec W) : option (Result * option error) * exec W :=
  if negb (turn_allowed (x_session x) turn)
  then (Some (zeroResult, Some (errors_New "agent loop exited without a terminal action")), x) else
  match fuel with
  | O => (None, x)
  | S fuel =>
      let '(ctxErr, w) := h_handle RCtxErr (x_world x) in
      let x := set_world w x in
      match ctxErr with
      | Some err =>
          let x := set_end {| ca_Code := CauseCancelled; ca_Detail := h_error_text err; ca_Final := true |} x in
          (Some (px_result (x_prompt x), Some err), x)
      | None =>
          let '((r, transition, err), x) := executeTurn turn x in
          match err with
          | Some err => (Some (r, Some err), x)
          | None =>
              match transition with
              | promptTurnDone => (Some (r, None), x)
              | promptTurnRetry | promptTurnAdvance =>
                  let '(draining, w) := h_handle RDrainRequested (x_world x) in
                  let x := set_world w x in
                  if (draining : bool)
                  then (Some (with_messages_of r (px_messages (x_prompt x)), Some (Sentinel ErrRuntimeDraining)),
                        set_session (λ s, applyMessageProjection s (px_messages (x_prompt x))) x)
                  else runTurnsFrom fuel
                         (match transition with promptTurnAdvance => turn + 1 | _ => turn end) x
              end
          end
      end
  end.

(** ** The start *)

(** [Some] is the end of the execution: a hook blocked the prompt. *)
Definition start_prompt : prog (exec W) (option (Result * option error)) :=
  let! snapshot := ask RAcquireSnapshot in
  let! p := read x_prompt in
  let! '(beforeStart, startDispatch) :=
    ask (RBeforeAgentStart snapshot {| sp_Messages := px_messages p; sp_System := px_system p |}) in
  do! modify (set_prompt (λ p, set_system (sp_System beforeStart)
        (set_messages (CloneMessages (sp_Messages beforeStart)) p)));
  let! p := read x_prompt in
  match dr_Block startDispatch with
  | Some block =>
      let cause := {| ca_Code := CausePromptBlocked; ca_Detail := bk_Reason block; ca_Final := false |} in
      do! checkpointTrajectory snapshot
            {| ck_Messages := px_messages p; ck_MessageMode := CheckpointMessagesSnapshot; ck_Result := px_result p;
               ck_Action := stopAction cause; ck_System := px_system p;
               ck_Audit := trajectoryAudits [dr_Audit startDispatch]; ck_ContextInjections := [];
               ck_Dependencies := [] |};
      let! r := finish_prompt snapshot cause in
      pure (Some r)
  | None =>
      let agentStart := {| sp_Messages := px_messages p; sp_System := px_system p |} in
      do! appendTrajectoryWithExecutionEvent snapshot TrajectoryKindAgentStart (PAgentStart agentStart)
            (trajectoryAudits [dr_Audit startDispatch]) (EventAgentStart agentStart);
      pure None
  end.

Definition runFromStart (fuel : nat) (x : exec W) : option (Result * option error) * exec W :=
  match start_prompt x with
  | (Err err, x) => (Some (zeroResult, Some err), x)
  | (Ok (Some r), x) => (Some r, x)
  | (Ok None, x) => runTurnsFrom fuel 0 x
  end.
End loop.
