(* ===== verification/ExecutionCompletion.v ===== *)
(** How an execution that did not end by itself is unwound, cancelled and recovered:
    [sdk/runtime/durability_execution.go] and [durability_recovery.go].

    A failed or cancelled execution records a terminal entry and moves the head back to the base of the
    execution; an execution of a runtime that drains or hands over is left pending.  Recovery continues
    a pending execution from its last checkpoint, or from its accepted input. *)

From S2P Require Import Prelude GoText Names Paging Message ContextInjection Invocation Operation Trajectory.
From S2P Require Import TrajectoryStore Agent Lineage Registrar Composition EventDispatch Payload Durability SessionState PromptHost SessionTrajectory ToolCalls PromptExecution.

(** ** Terminal payloads *)

Section payloads.
Context (error_text : error → string).

Definition agentEndPayloadForFailure (r : Result) (fallbackMessages : list Message) (cause : option error)
    (state : TrajectoryExecutionState) : AgentEndPayload :=
  let messages := if (length (rl_Messages r) =? 0)%nat then CloneMessages fallbackMessages else CloneMessages (rl_Messages r) in
  let code :=
    if is_empty (ca_Code (rl_Cause r)) then
      if bool_decide (state = TrajectoryExecutionCancelled) then CauseCancelled else CauseExecutionError
    else ca_Code (rl_Cause r) in
  let detail :=
    match cause with
    | Some cause => if is_empty (ca_Detail (rl_Cause r)) then error_text cause else ca_Detail (rl_Cause r)
    | None => ca_Detail (rl_Cause r)
    end in
  agentEndPayloadFromResult r messages {| ca_Code := code; ca_Detail := detail; ca_Final := ca_Final (rl_Cause r) |}.
End payloads.

Definition agentEndPayloadForCancellation (reason : string) (r : Result) (messages : list Message) : AgentEndPayload :=
  agentEndPayloadFromResult r (if (length (rl_Messages r) =? 0)%nat then messages else rl_Messages r)
    {| ca_Code := CauseCancelled; ca_Detail := reason; ca_Final := true |}.

(** ** What a failure does *)

Record executionFailureOutcome := {
  fo_state : TrajectoryExecutionState;
  fo_recordTerminal : bool;
  fo_restoreHead : bool;
}.

Definition failure_outcome (draining handoff : bool) (cause : option error) (headRestoresBase : bool)
    : executionFailureOutcome :=
  if draining then
    {| fo_state := TrajectoryExecutionPending; fo_recordTerminal := false; fo_restoreHead := false |}
  else if handoff then
    {| fo_state := TrajectoryExecutionPending; fo_recordTerminal := false; fo_restoreHead := negb headRestoresBase |}
  else
    let cancelled :=
      match cause with
      | Some err => errors_Is err ContextCanceled || errors_Is err DeadlineExceeded
      | None => false
      end in
    {| fo_state := if cancelled then TrajectoryExecutionCancelled else TrajectoryExecutionFailed;
       fo_recordTerminal := true; fo_restoreHead := true |}.

(** [context.Cause(executionCtx)] is [None] while the context is live; [errors.Is(err, cause)] compares
    the errors, which the model does by the error it wraps. *)
Definition executionFailureForUnwind (err : error) (cause : option error) (is_cause : bool) : error :=
  match cause with
  | None => err
  | Some cause =>
      if is_cause then err else
      if errors_Is err ContextCanceled && negb (errors_Is cause ContextCanceled) &&
         negb (errors_Is cause DeadlineExceeded)
      then cause else Joined [err; cause]
  end.

(** ** Completion entries *)

Record executionCompletionEntrySpec := {
  cs_From : string;
  cs_BaseHead : string;
  cs_ExecutionID : string;
  cs_Generation : Z;
  cs_At : time;
  cs_End : option AgentEndPayload;
  cs_RestoreHead : bool;
}.

Record executionCompletionEntries := {
  ce_Entries : list TrajectoryEntry;
  ce_Terminal : option TrajectoryEntry;
  ce_Restore : option trajectoryHeadMove;
}.

Section completion.
Context {X : Type} `{!PayloadCodec} (fresh_id : prog X (string * time)).

Definition agentEndTrajectoryEntry (parentID : string) (generation : Z) (now : time) (end_ : AgentEndPayload)
    : prog X TrajectoryEntry :=
  let! entry := newPayloadTrajectoryEntry fresh_id parentID TrajectoryKindTerminal generation now
                  (PTerminal (durable_end end_)) in
  pure (with_fields entry (EntryFields (PTerminal end_))).

Definition executionRestoreHeadMove (from anchorID executionID : string) (generation : Z) (now : time)
    : prog X trajectoryHeadMove :=
  let! restore := newTrajectoryHeadMove fresh_id from anchorID TrajectoryKindRestore generation now in
  let entry := hm_Entry restore in
  pure {| hm_Entry := with_fields entry (set_ExecutionID (te_Fields entry) executionID);
          hm_From := hm_From restore; hm_To := hm_To restore |}.

(** The time is not zero here: every caller passes the clock. *)
Definition newExecutionCompletionEntries (spec : executionCompletionEntrySpec) : prog X executionCompletionEntries :=
  let! terminal :=
    (match cs_End spec with
     | Some end_ =>
         let! entry := agentEndTrajectoryEntry (cs_From spec) (cs_Generation spec) (cs_At spec) end_ in
         pure (Some entry)
     | None => pure None
     end) in
  let restoreFrom := match terminal with Some entry => te_ID entry | None => cs_From spec end in
  let! restore :=
    (if cs_RestoreHead spec then
       let! move := executionRestoreHeadMove restoreFrom (cs_BaseHead spec) (cs_ExecutionID spec)
                      (cs_Generation spec) (cs_At spec) in
       pure (Some move)
     else pure None) in
  pure {| ce_Entries := option_list terminal ++ option_list (hm_Entry <$> restore);
          ce_Terminal := terminal; ce_Restore := restore |}.
End completion.

(** The events of a completion, in order. *)
Definition completion_events (completion : executionCompletionEntries) (trajectoryID : string)
    (end_ : option AgentEndPayload) : result (list post_commit_event) :=
  let? restore :=
    match ce_Restore completion with
    | Some move => let? event := headMove_event move trajectoryID in Ok [event]
    | None => Ok []
    end in
  Ok (match ce_Terminal completion with
      | Some entry => [EventTrajectoryAppend (trajectoryAppendEventPayload trajectoryID entry)]
      | None => []
      end ++ restore ++ match end_ with Some end_ => [EventAgentEnd end_] | None => [] end).

Section failure.
Context {W : Type} `{!AgentHost W} `{!PayloadCodec} `{!MapOrder}.

Definition read_store {A} (f : memoryTrajectoryStore → result A) : prog (exec W) A :=
  λ x, (f (h_store (x_world x)), x).

Fixpoint prepare_events (snapshot : registrySnapshot) (events : list post_commit_event) : prog (exec W) unit :=
  match events with
  | [] => pure tt
  | event :: rest => do! ask (RPrepareEvent snapshot event); prepare_events snapshot rest
  end.

(** The entries and events of a failure; without a terminal entry a move of the head has no event. *)
Definition prepareExecutionFailurePlan (metadata : TrajectoryMetadata) (base : BranchBase)
    (outcome : executionFailureOutcome) (cause : option error) (r : Result)
    : prog (exec W) (list TrajectoryEntry * list post_commit_event) :=
  let! s := read x_session in
  let! '(_, now) := ask_value RFresh in
  if fo_recordTerminal outcome then
    let! snapshot := ask RAcquireSnapshot in
    let end_ := agentEndPayloadForFailure h_error_text r (bb_Messages base) cause (fo_state outcome) in
    let! completion :=
      newExecutionCompletionEntries (ask_value RFresh)
        {| cs_From := tm_Head metadata; cs_BaseHead := bb_Head base; cs_ExecutionID := ls_executionID s;
           cs_Generation := sn_generation snapshot; cs_At := now; cs_End := Some end_;
           cs_RestoreHead := fo_restoreHead outcome |} in
    let! events := lift (completion_events completion (cfg_ID (ls_config s)) (Some end_)) in
    do! prepare_events snapshot events;
    pure (ce_Entries completion, events)
  else if negb (fo_restoreHead outcome) then pure ([], [])
  else
    let! completion :=
      newExecutionCompletionEntries (ask_value RFresh)
        {| cs_From := tm_Head metadata; cs_BaseHead := bb_Head base; cs_ExecutionID := ls_executionID s;
           cs_Generation := 0; cs_At := now; cs_End := None; cs_RestoreHead := true |} in
    pure (ce_Entries completion, []).

Definition failExecution (ctx : context) (cause : option error) (r : Result) : prog (exec W) unit :=
  let! s := read x_session in
  if is_empty (ls_executionID s) || is_empty (ls_executionToken s) then pure tt else
  let! loaded := attempt (read_store (λ st, tstore_LoadMetadata st ctx (cfg_ID (ls_config s)))) in
  let! metadata := lift (match loaded with
                         | Ok metadata => Ok metadata
                         | Err err => Err (Wrapf "load trajectory for failure restore: %w" [] err)
                         end) in
  let! latest := read_store (λ st, LatestCheckpoint st ctx metadata) in
  let! base := read_store (λ st, LoadExecutionCompletionBase st ctx metadata) in
  let! headRestoresBase := read_store (λ st, HeadRestoresAnchor st ctx (tm_ID metadata) (tm_Head metadata) (bb_Head base)) in
  let! draining := ask_value RGracefulExecutionDrainActive in
  let! handoff := ask_value RExecutionRecoveryHandoffActive in
  let outcome := failure_outcome draining handoff cause headRestoresBase in
  let! '(entries, events) := prepareExecutionFailurePlan metadata base outcome cause r in
  let! committed :=
    attempt (ask (RCommitTrajectoryExecution
      {| ecm_TrajectoryID := cfg_ID (ls_config s); ecm_ExecutionID := ls_executionID s;
         ecm_LeaseToken := ls_executionToken s; ecm_ExpectedHead := tm_Head metadata; ecm_Entries := entries;
         ecm_State := fo_state outcome;
         ecm_Error := match cause with Some cause => h_error_text cause | None => "" end |})) in
  match committed with
  | Err err => throw (Wrapf "fail trajectory execution: %w" [] err)
  | Ok updated =>
      do! modify (set_session (λ s, with_head s (tm_Head updated)));
      do! modify (set_session (λ s, applyExecutionBaseProjection s base (snd <$> latest)));
      do! modify (set_session (λ s', clearExecution s' (ls_executionID s) (ls_executionToken s)));
      ask_value (RDispatchAfterCommit events)
  end.

(** [runClaimedExecution], without the heartbeat: [run] is the execution and [ctxCause] what its
    context was cancelled with.  The second error is that of the unwinding. *)
Definition runClaimedExecution (run : exec W → option (Result * option error) * exec W)
    (ctx ctxCause : context) (is_cause : bool) (x : exec W)
    : option (Result * option error * option error) * exec W :=
  match run x with
  | (None, x) => (None, x)
  | (Some (r, None), x) => (Some (r, None, None), x)
  | (Some (r, Some err), x) =>
      let failure := executionFailureForUnwind err ctxCause is_cause in
      let '(unwound, x) := failExecution ctx (Some failure) r x in
      (Some (r, Some err, match unwound with Ok _ => None | Err err => Some err end), x)
  end.

(** ** Cancellation by another runtime *)

Definition loadCancellationResult (st : memoryTrajectoryStore) (ctx : context) (metadata : TrajectoryMetadata)
    : result Result :=
  let? latest := LatestExecutionCheckpoint st ctx metadata in
  Ok (match latest with Some (entry, checkpoint) => resultFromCheckpoint entry checkpoint | None => zeroResult end).

Definition cancelTrajectoryExecutionOnce (ctx : context) (trajectoryID executionID reason : string) (now : time)
    : prog (exec W) (TrajectoryMetadata * bool) :=
  let! metadata := read_store (λ st, tstore_LoadMetadata st ctx trajectoryID) in
  match tm_Execution metadata with
  | None => throw (has_no_execution trajectoryID)
  | Some _ =>
      let! base := read_store (λ st, LoadExecutionCompletionBase st ctx metadata) in
      let! snapshot := ask RAcquireSnapshot in
      let! r := read_store (λ st, loadCancellationResult st ctx metadata) in
      let end_ := agentEndPayloadForCancellation reason r (bb_Messages base) in
      let! completion :=
        newExecutionCompletionEntries (ask_value RFresh)
          {| cs_From := tm_Head metadata; cs_BaseHead := bb_Head base; cs_ExecutionID := executionID;
             cs_Generation := sn_generation snapshot; cs_At := now; cs_End := Some end_; cs_RestoreHead := true |} in
      let! events := lift (completion_events completion trajectoryID (Some end_)) in
      do! prepare_events snapshot events;
      let! '(updated, changed) :=
        ask (RCancelTrajectoryExecution
          {| ecc_TrajectoryID := trajectoryID; ecc_ExecutionID := executionID; ecc_ExpectedHead := tm_Head metadata;
             ecc_Reason := reason; ecc_At := now; ecc_Entries := ce_Entries completion |}) in
      do! (if (changed : bool) then ask_value (RDispatchAfterCommit events) else pure tt);
      pure (updated, changed)
  end.

Definition cancelTrajectoryExecution (ctx : context) (trajectoryID executionID reason : string) (now : time)
    : prog (exec W) (TrajectoryMetadata * bool) :=
  let once := cancelTrajectoryExecutionOnce ctx trajectoryID executionID reason now in
  let! first := attempt once in
  match first with
  | Ok r => pure r
  | Err err => if errors_Is err ErrTrajectoryConflict then once else throw err
  end.

(** ** Recovery *)

Definition executionRecoveryCandidateFromMetadata (metadata : TrajectoryMetadata) (now wall : time)
    : result (TrajectoryExecution * duration) :=
  match tm_Execution metadata with
  | None =>
      Err (Wrap2 (Sentinel ErrExecutionNotFound)
             (Wrapf "%w: trajectory %s has no execution" [AStr (tm_ID metadata)] (Sentinel ErrTrajectoryExecution)))
  | Some execution =>
      fail_if Execution_Terminal execution with
        Wrap2 (Sentinel ErrExecutionNotRecoverable)
          (Wrapf "%w: trajectory %s execution %s is %s"
             [AStr (tm_ID metadata); AStr (ex_ID execution); AStr (execution_state_text (ex_State execution))]
             (Sentinel ErrTrajectoryExecution));
      Ok (execution, RecoveryDelay execution now wall)
  end.

(** The configuration of a recovered execution, before the checkpoint is applied. *)
Definition recovery_config (id : string) (execution : TrajectoryExecution) (requestedProvider : string) : SessionConfig :=
  exactResumeConfigProjection
    {| cfg_ID := id; cfg_Provider := ex_Provider execution; cfg_System := ex_System execution;
       cfg_MaxTurns := ex_MaxTurns execution; cfg_ReasoningEffort := ""; cfg_ResumePolicy := ResumeExact |}
    None requestedProvider.

(** [projectTrajectorySession]. *)
Definition projectTrajectorySession (metadata : TrajectoryMetadata) (config : SessionConfig) (head : string)
    (messages : list Message) : session :=
  {| ls_config := config; ls_executionID := ""; ls_executionToken := ""; ls_messages := CloneMessages messages;
     ls_head := head; ls_consumedContext := ∅; ls_contextInjections := [];
     ls_causal := default ("", "") (causalInvocationScopeFromTrajectoryOrigin (tm_Environment metadata)) |}.

Definition trajectoryHeadNeedsMove (ctx : context) (trajectoryID head anchorID : string) : prog (exec W) bool :=
  if bool_decide (head = anchorID) then pure false else
  let! restored := read_store (λ st, HeadRestoresAnchor st ctx trajectoryID head anchorID) in
  pure (negb restored).

Definition restoreExecutionHead (ctx : context) (target : string) : prog (exec W) unit :=
  let! s := read x_session in
  let! moveHead := trajectoryHeadNeedsMove ctx (cfg_ID (ls_config s)) (ls_head s) target in
  if negb moveHead then pure tt else
  let! snapshot := ask RAcquireSnapshot in
  let! '(move, event) :=
    prepareTrajectoryHeadMove snapshot (cfg_ID (ls_config s)) (ls_head s) target TrajectoryKindRestore in
  let! r := attempt (commitExecution (hm_Entry move) no_state "" [event]) in
  match r with
  | Err err => throw (Wrapf "restore recoverable trajectory execution: %w" [] err)
  | Ok _ => pure tt
  end.

(** The execution a checkpoint restores. *)
Definition recovered_prompt (entry : TrajectoryEntry) (checkpoint : Checkpoint) : promptExecution :=
  let r := resultFromCheckpoint entry checkpoint in
  {| px_messages := CloneMessages (rl_Messages r); px_system := cp_System checkpoint;
     px_dependencies := cp_Dependencies checkpoint; px_providerAttempts := ∅;
     px_providerAttemptsInitialized := false; px_result := r |}.

(** The state after the head is restored: the turn to go on with, or the cause to end with. *)
Inductive recovery_point :=
  | RecoverStart
  | RecoverTurn (turn : Z)
  | RecoverStop (cause : Cause).

Definition resume_at (ctx : context) (input : TrajectoryEntry) (base : ExecutionRecoveryBase)
    : prog (exec W) recovery_point :=
  do! restoreExecutionHead ctx (rb_Head base);
  match rb_Checkpoint base with
  | Some (entry, checkpoint) =>
      do! modify (set_session (λ s, applyCheckpointProjection s (Some checkpoint)));
      do! modify (set_prompt (λ _, recovered_prompt entry checkpoint));
      pure (if bool_decide (ac_Kind (cp_Action checkpoint) = ActionStop)
            then RecoverStop (default modelEnd (ac_Cause (cp_Action checkpoint)))
            else RecoverTurn (cp_Turns checkpoint))
  | None =>
      do! modify (set_session (λ s, applyMessageProjection s (rb_Messages base)));
      let! s := read x_session in
      match rb_Message base with
      | None => throw (errors_New "trajectory execution input is not a user message")
      | Some message =>
          match newPromptExecutionFromAcceptedMessages s (rb_Messages base) message with
          | Err err => throw (Wrapf "trajectory execution input %s: %w" [AStr (te_ID input)] err)
          | Ok prompt => do! modify (set_prompt (λ _, prompt)); pure RecoverStart
          end
      end
  end.

Definition resume_execution (ctx : context) (metadata : TrajectoryMetadata) (input : TrajectoryEntry)
    : prog (exec W) recovery_point :=
  let! base := read_store (λ st, LoadExecutionRecoveryBase st ctx metadata input) in
  resume_at ctx input base.

Definition continueRecoveredExecution (fuel : nat) (ctx : context) (metadata : TrajectoryMetadata)
    (input : TrajectoryEntry) (x : exec W) : option (Result * option error) * exec W :=
  match resume_execution ctx metadata input x with
  | (Err err, x) => (Some (zeroResult, Some err), x)
  | (Ok RecoverStart, x) => runFromStart fuel x
  | (Ok (RecoverTurn turn), x) => runTurnsFrom fuel turn x
  | (Ok (RecoverStop cause), x) =>
      match ask RAcquireSnapshot x with
      | (Err err, x) => (Some (zeroResult, Some err), x)
      | (Ok snapshot, x) =>
          match finish_prompt snapshot cause x with
          | (Ok r, x) => (Some r, x)
          | (Err err, x) => (Some (zeroResult, Some err), x)
          end
      end
  end.
End failure.
