(* ===== verification/PromptLaws.v ===== *)
(** What the loop of [PromptExecution] relies on: the laws of a host over the in-memory trajectory store,
    the effect of a commit on the branch of its head, and the effect of every entry the loop writes on
    the messages of the branch. *)

From S2P Require Import Prelude GoText Names Paging Message ContextInjection Invocation Operation Trajectory.
From S2P Require Import TrajectoryBranch TrajectoryStore TrajectoryInvariant TrajectoryHistory TrajectoryProperties.
From S2P Require Import Agent Lineage Registrar Composition EventDispatch Payload Durability DurabilityProperties SessionState PromptHost.
From S2P Require Import SessionTrajectory ToolCalls PromptExecution.

(** ** The laws of a host *)

(** Every call lets other clients of the store run, as long as they do not delete the trajectory. *)
Definition runs (id : string) (st st' : memoryTrajectoryStore) : Prop :=
  ∃ calls, calls_ok calls ∧ Forall (λ c, c.2 ≠ CallDelete id) calls ∧ st' = tstore_run st calls.

(** A commit that succeeds is one of the store, and [sdk.NewID] is never empty.  The hooks of [after_tool] may patch the result of a
    call and not the call ([composition_catalog.go]), which comes back as JSON keeps it. *)
Class HostLaws {W} `{!AgentHost W} `{!PayloadCodec} (id : string) : Prop := {
  law_runs {A} (r : request A) w : runs id (h_store w) (h_store (h_handle r w).2);
  law_commit commit w m w' :
    h_handle (RCommitTrajectoryExecution commit) w = (Ok m, w') →
    ∃ st1 ctx wall clock st2, runs id (h_store w) st1 ∧
      tstore_CommitExecution st1 ctx commit wall clock = Ok (m, st2) ∧ runs id st2 (h_store w');
  law_fresh w : (h_handle RFresh w).1.1 ≠ "";
  law_after_tool snapshot after w after' d w' :
    h_handle (RAfterTool snapshot after) w = (Ok (after', d), w') →
    tc_ID (at_Call after') = json_text (tc_ID (at_Call after));
}.

Definition readable (st : memoryTrajectoryStore) (id head : string) (b : list TrajectoryEntry) : Prop :=
  tstore_wf st ∧ is_Some (trajectories st !! id) ∧ chain (entryLocked st id) head (reverse b).

Lemma runs_readable id st st' head b : runs id st st' → readable st id head b → readable st' id head b.
Proof.
  intros (calls & Hok & Hnd & ->) (Hwf & Hs & Hch).
  destruct (run_chain _ _ _ _ _ Hwf Hok Hnd Hs Hch) as [Hs' Hch'].
  split; [by apply tstore_run_wf|done].
Qed.

Lemma readable_LoadBranch st id head b : readable st id head b → tstore_LoadBranch st None id head = Ok b.
Proof.
  intros ((l & Hb & Hall) & [t Ht] & Hch). rewrite <-(reverse_involutive b). by eapply LoadBranch_chain.
Qed.

Lemma readable_prefix st id head b1 e b2 :
  readable st id head (b1 ++ e :: b2) → readable st id (te_ID e) (b1 ++ [e]).
Proof.
  intros (Hwf & Hs & Hch). split_and!; [done..|]. destruct Hwf as (l & Hb & _).
  rewrite reverse_app, reverse_cons, <-app_assoc in Hch. simpl in Hch.
  rewrite reverse_snoc. eapply chain_suffix; [by eapply entryLocked_ids|done].
Qed.

(** The branch of the last entry of a commit. *)
Lemma commit_readable st ctx commit wall clock m st' entry b :
  tstore_CommitExecution st ctx commit wall clock = Ok (m, st') → last (ecm_Entries commit) = Some entry →
  readable st (ecm_TrajectoryID commit) (te_ParentID entry) b →
  ∃ e, committed_of (ecm_ExecutionID commit) entry e ∧ tm_Head m = te_ID entry ∧ te_ID entry ≠ "" ∧
    readable st' (ecm_TrajectoryID commit) (te_ID entry) (b ++ [e]).
Proof.
  intros Hc Hlast (Hwf & _ & Hch). pose proof Hc as Hdo.
  apply tstore_Commit_Ok in Hc as (-> & bound & t & x & x' & t1 & Hbind & Ht & _ & Hx & Hcx & Happ & -> & ->).
  apply Commit_Ok in Hcx as (Hv & _ & _ & Hin & _).
  destruct (effect_maybe_append _ _ _ _ _ _ _ _ _ wall Hwf Ht Hx Happ Hv Hin) as [Hwf' _].
  apply Bind_Ok in Hbind.
  destruct Happ as [[-> _]|(_ & hd & Happ)].
  { symmetry in Hbind. apply fmap_nil_inv in Hbind. by rewrite Hbind in Hlast. }
  pose proof Hwf as (l & Hb & Hall).
  destruct (appendLocked_Ok _ _ _ _ _ _ _ _ _ Hb Hall Ht Happ) as
    (ps & p & k & _ & Hlp & -> & Hok & Hfrom & Hnd & _ & Hk & ->).
  rewrite Hbind in Hfrom. apply Forall2_bound in Hfrom.
  assert (committed_of (ecm_ExecutionID commit) entry p) as Hp.
  { apply last_Some in Hlast as [es Hes]. apply last_Some in Hlp as [ps' Hps]. rewrite Hes, Hps in Hfrom.
    apply Forall2_app_inv_l in Hfrom as (q1 & q2 & _ & Hq & Heq).
    apply Forall2_cons_inv_l in Hq as (y & ys & Hy & ->%Forall2_nil_inv_l & ->).
    apply app_inj_tail in Heq as [_ ->]. done. }
  destruct Hp as (HID & HP & HK & HPl & HE). exists p.
  clear Hdo. match type of Hwf' with tstore_wf (put _ _ ?t) => set (t2 := t) in * end.
  assert (∀ c, entryLocked (put st (ecm_TrajectoryID commit) t2) (ecm_TrajectoryID commit) c =
    overlay (entry_index ps) (entryLocked st (ecm_TrajectoryID commit)) c) as Hlk
    by (intros c; by apply (append_id_lookup st l Hb Hall _ t Ht ps Hok)).
  assert (te_ID p ≠ "") as Hne.
  { apply valid_name_nonempty. eapply (prepared_id _ _ _ Hok). apply entry_index_elem; [done|].
    apply last_Some in Hlp as [ps' ->]. set_solver. }
  split_and!; [done|done|congruence|]. rewrite <-HID.
  split_and!; [done|rewrite put_lookup, decide_True by done; by eexists|].
  eapply chain_mono; [intros c y Hy; rewrite Hlk; exact Hy|].
  rewrite reverse_snoc. inversion Hk as [|? ? ? _ Hlp' Hrest]; subst; [done|].
  assert (e = p) as ->.
  { unfold overlay in Hlp'. rewrite entry_index_elem in Hlp'; [congruence|done|].
    apply last_Some in Hlp as [ps' ->]. set_solver. }
  constructor; [done|done|].
  eapply chain_mono; [|rewrite HP; exact Hch]. intros c y. apply overlay_mono. intros c' y'. apply (prepared_fresh _ _ _ Hok).
Qed.

(** ** What JSON keeps of messages *)

Section canon.
Context `{!PayloadCodec} `{!PayloadCodecLaws _}.

Abbreviation canons ms := (canon <$> ms).

Lemma canon_call_clone call :
  canon_call json_text json_raw {| tc_ID := tc_ID call; tc_Name := tc_Name call;
                                   tc_Arguments := clone_bytes (tc_Arguments call) |} =
  canon_call json_text json_raw call.
Proof. unfold canon_call, canon_arguments. simpl. by destruct (tc_Arguments call) as [[]|]. Qed.

Lemma canon_calls_clone calls : canon_calls json_text json_raw (CloneToolCalls calls) = canon_calls json_text json_raw calls.
Proof.
  destruct calls as [[|call calls]|]; [done| |done]. simpl. rewrite canon_call_clone. do 2 f_equal.
  rewrite <-list_fmap_compose. apply list_fmap_ext. intros i c _. apply canon_call_clone.
Qed.

Lemma canon_clone m : canon (CloneMessage m) = canon m.
Proof. unfold canon_message. simpl. by rewrite canon_calls_clone. Qed.

Lemma canons_clone ms : canons (CloneMessages ms) = canons ms.
Proof. unfold CloneMessages. rewrite <-list_fmap_compose. apply list_fmap_ext. intros i m _. apply canon_clone. Qed.

Lemma canon_arguments_clone a : clone_bytes (canon_arguments json_raw a) = canon_arguments json_raw a.
Proof.
  unfold canon_arguments. destruct (clone_bytes a) as [s|]; [|done]. pose proof (json_raw_nonempty s) as Hne.
  simpl. by destruct (json_raw s).
Qed.

Lemma canon_calls_cloned calls : CloneToolCalls (canon_calls json_text json_raw calls) = canon_calls json_text json_raw calls.
Proof.
  destruct calls as [[|call calls]|]; [done| |done]. simpl. rewrite canon_arguments_clone. do 2 f_equal.
  rewrite <-list_fmap_compose. apply list_fmap_ext. intros i c _. simpl. rewrite canon_arguments_clone. done.
Qed.

Lemma canon_cloned m : CloneMessage (canon m) = canon m.
Proof. unfold CloneMessage. simpl. by rewrite canon_calls_cloned. Qed.

Lemma canons_cloned ms : cloned (canons ms).
Proof.
  unfold cloned, CloneMessages. rewrite <-list_fmap_compose. apply list_fmap_ext. intros i m _. apply canon_cloned.
Qed.

Lemma canons_app xs ys : canons (xs ++ ys) = canons xs ++ canons ys.
Proof. apply fmap_app. Qed.

Lemma canon_tool tid r :
  ToolMessage (json_text tid) {| tr_Content := json_text (tr_Content r); tr_IsError := tr_IsError r |} =
  canon (ToolMessage tid r).
Proof. done. Qed.

Lemma canon_assistant r : assistantMessage (canon_response json_text json_raw r) = canon (assistantMessage r).
Proof.
  unfold assistantMessage, canon_message. simpl. f_equal;
    [by rewrite canon_calls_cloned, canon_calls_clone|by rewrite json_text_ascii].
Qed.

(** ** What an entry does to the messages of its branch *)

Definition entry_of (eid : string) (e : TrajectoryEntry) (kind : TrajectoryKind) (p : payload) : Prop :=
  te_Kind e = kind ∧ Marshal_payload p = Ok (te_Payload e) ∧ tf_ExecutionID (te_Fields e) = eid.

Section steps.
Context (id eid : string) (ms : list Message) (e : TrajectoryEntry) (Hms : cloned ms).

Abbreviation after := (branchMessagesAfterEntry id ms e).

Lemma step_start start :
  entry_of eid e TrajectoryKindAgentStart (PAgentStart start) → after = Ok (canons (sp_Messages start)).
Proof using Type*.
  intros (Hk & Hm & _). unfold branchMessagesAfterEntry, decodeTrajectoryPayload. rewrite Hk.
  rewrite (roundtrip_start _ _ Hm). simpl. by rewrite canons_cloned.
Qed.

Lemma step_response r :
  entry_of eid e TrajectoryKindProviderResponse (PProviderResponse r) →
  after = Ok (ms ++ match ap_Response (pr_After r) with Some response => [canon (assistantMessage response)] | None => [] end).
Proof using Type*.
  intros (Hk & Hm & _). unfold branchMessagesAfterEntry, decodeTrajectoryPayload. rewrite Hk.
  rewrite (roundtrip_response _ _ Hm). simpl. rewrite Hms.
  destruct (ap_Response (pr_After r)); simpl; [by rewrite canon_assistant|by rewrite app_nil_r].
Qed.

Lemma step_result r :
  entry_of eid e TrajectoryKindToolResult (PToolResult r) →
  after = Ok (ms ++ [canon (ToolMessage (tc_ID (at_Call (dt_After r))) (at_Result (dt_After r)))]).
Proof using Type*.
  intros (Hk & Hm & _). unfold branchMessagesAfterEntry, decodeTrajectoryPayload. rewrite Hk.
  rewrite (roundtrip_result _ _ Hm). simpl. by rewrite Hms.
Qed.

Lemma step_terminal end_ :
  entry_of eid e TrajectoryKindTerminal (PTerminal end_) → ae_Messages end_ = [] → after = Ok ms.
Proof using Type*.
  intros (Hk & Hm & _) Hnil. unfold branchMessagesAfterEntry, decodeTrajectoryPayload. rewrite Hk.
  rewrite (roundtrip_end _ _ Hm). simpl. by rewrite Hnil, Hms.
Qed.

Lemma step_other : messageProjectionEntryKind (te_Kind e) = false → after = Ok ms.
Proof using Hms. unfold branchMessagesAfterEntry. destruct (te_Kind e); try done; intros _; by rewrite Hms. Qed.

(** A checkpoint decodes to what JSON keeps of it. *)
Definition decoded (c : Checkpoint) : Checkpoint :=
  let c := canon_checkpoint json_text json_raw json_injection c in
  with_injections (with_messages c (CloneMessages (cp_Messages c))) (CloneContextInjections (cp_ContextInjections c)).

Lemma decode_checkpoint c :
  entry_of eid e TrajectoryKindCheckpoint (PCheckpoint c) →
  cp_MessageMode c = CheckpointMessagesSnapshot ∨ cp_MessageMode c = CheckpointMessagesBranch →
  DecodeCheckpoint id e = Ok (decoded c) ∧ cp_MessageMode (decoded c) = cp_MessageMode c.
Proof using Type*.
  intros (_ & Hm & _) Hmode.
  assert (cp_MessageMode (canon_checkpoint json_text json_raw json_injection c) = cp_MessageMode c) as Heq
    by (simpl; apply json_text_ascii; by destruct Hmode as [->| ->]).
  split; [|done]. unfold DecodeCheckpoint. rewrite (roundtrip_checkpoint _ _ Hm), Heq.
  by destruct Hmode as [->| ->].
Qed.

Lemma step_branch_checkpoint c :
  entry_of eid e TrajectoryKindCheckpoint (PCheckpoint c) → cp_MessageMode c = CheckpointMessagesBranch →
  after = Ok (ms ++ if bool_decide (json_text (ac_Kind (cp_Action c)) = ActionInject)
                    then canons (ac_Messages (cp_Action c)) else []).
Proof using Type*.
  intros He Hmode. destruct (decode_checkpoint c He (or_intror Hmode)) as [Hd Hm].
  unfold branchMessagesAfterEntry. rewrite (proj1 He), Hd. cbn [result_bind].
  rewrite bool_decide_eq_true_2 by congruence. rewrite Hms. simpl.
  by case_bool_decide; [rewrite canons_cloned|].
Qed.

Lemma step_snapshot_checkpoint c :
  entry_of eid e TrajectoryKindCheckpoint (PCheckpoint c) → cp_MessageMode c = CheckpointMessagesSnapshot →
  after = Ok (canons (cp_Messages c)).
Proof using Type*.
  intros He Hmode. destruct (decode_checkpoint c He (or_introl Hmode)) as [Hd Hm].
  unfold branchMessagesAfterEntry. rewrite (proj1 He), Hd. cbn [result_bind].
  rewrite bool_decide_eq_false_2 by (by rewrite Hm, Hmode). simpl.
  rewrite canons_cloned. by rewrite canons_cloned.
Qed.
End steps.
End canon.

Abbreviation canons ms := (canon <$> ms).
