(* ===== verification/PromptInvariant.v ===== *)
(** The invariant of the agent loop: at every point where the loop can stop, the branch of the session's
    head holds the last checkpoint of the execution, and where it goes on, the messages of that branch
    are the messages of the conversation. *)
From S2P Require Import Prelude GoText Names Invocation Operation Paging Message ContextInjection Trajectory Agent Lineage Registrar.
From S2P Require Import Composition EventDispatch TrajectoryBranch TrajectoryStore TrajectoryInvariant TrajectoryHistory TrajectoryProperties Payload Durability DurabilityProperties SessionState PromptHost.
From S2P Require Import SessionTrajectory ToolCalls PromptExecution ExecutionCompletion PromptLaws.

(** ** Triples *)

Definition triple {X A} (P : X → Prop) (m : prog X A) (Q : A → X → Prop) (E : X → Prop) : Prop :=
  ∀ x, P x → match m x with (Ok a, x') => Q a x' | (Err _, x') => E x' end.

Section triples.
Context {X : Type}.
Implicit Types P E : X → Prop.

Lemma triple_pure {A} P (a : A) (Q : A → X → Prop) E : (∀ x, P x → Q a x) → triple P (pure a) Q E.
Proof. intros H x Hx. by apply H. Qed.

Lemma triple_throw {A} P e (Q : A → X → Prop) E : (∀ x, P x → E x) → triple P (throw e) Q E.
Proof. intros H x Hx. by apply H. Qed.

Lemma triple_lift {A} P (r : result A) (Q : A → X → Prop) E :
  (∀ a x, r = Ok a → P x → Q a x) → (∀ x, P x → E x) → triple P (lift r) Q E.
Proof. intros HQ HE x Hx. unfold lift. destruct r; auto. Qed.

Lemma triple_bind {A B} P (m : prog X A) (f : A → prog X B) R Q E :
  triple P m R E → (∀ a, triple (R a) (f a) Q E) → triple P (prog_bind m f) Q E.
Proof.
  intros Hm Hf x Hx. specialize (Hm x Hx). unfold prog_bind. destruct (m x) as [[a|e] x']; [|done]. by apply Hf.
Qed.

(** The answer of the first call does not matter. *)
Lemma triple_seq {A B} P (m : prog X A) (f : A → prog X B) (R : X → Prop) Q E :
  triple P m (λ _, R) E → (∀ a, triple R (f a) Q E) → triple P (prog_bind m f) Q E.
Proof. apply triple_bind. Qed.

Lemma triple_read {A} P (f : X → A) Q E : (∀ x, P x → Q (f x) x) → triple P (read f) Q E.
Proof. intros H x Hx. by apply H. Qed.

Lemma triple_modify P f (Q : unit → X → Prop) E : (∀ x, P x → Q tt (f x)) → triple P (modify f) Q E.
Proof. intros H x Hx. by apply H. Qed.

Lemma triple_attempt {A} P (m : prog X A) Q R E E' :
  triple P m R E → (∀ a x, R a x → Q (Ok a) x) → (∀ e x, E x → Q (Err e) x) → triple P (attempt m) Q E'.
Proof.
  intros Hm HQ HE x Hx. specialize (Hm x Hx). unfold attempt. destruct (m x) as [[a|e] x']; auto.
Qed.

Lemma triple_weaken {A} P P' (m : prog X A) Q Q' E E' :
  triple P' m Q' E' → (∀ x, P x → P' x) → (∀ a x, Q' a x → Q a x) → (∀ x, E' x → E x) → triple P m Q E.
Proof.
  intros Hm HP HQ HE x Hx. specialize (Hm x (HP x Hx)). destruct (m x) as [[a|e] x']; auto.
Qed.

Lemma triple_exists {A I} (P : I → X → Prop) (m : prog X A) Q E :
  (∀ i, triple (P i) m Q E) → triple (λ x, ∃ i, P i x) m Q E.
Proof. intros H x [i Hx]. by apply (H i). Qed.

Lemma triple_prop {A} (C : Prop) P (m : prog X A) Q E : (C → triple P m Q E) → triple (λ x, C ∧ P x) m Q E.
Proof. intros H x [HC Hx]. by apply H. Qed.

(** An invariant of every call is one of the calls over a list. *)
Lemma triple_traverse {A B} (f : nat → A → prog X B) (I : list A → list B → X → Prop) E index done bs l :
  (∀ i a done bs, triple (I done bs) (f i a) (λ b, I (done ++ [a]) (bs ++ [b])) E) →
  triple (I done bs) (traverse f index l) (λ bs', I (done ++ l) (bs ++ bs')) E.
Proof.
  intros Hf. revert index done bs. induction l as [|a l IH]; intros index done bs; simpl.
  - apply triple_pure. intros x. by rewrite !app_nil_r.
  - eapply triple_bind; [apply Hf|]. intros b. eapply triple_bind; [apply IH|]. intros bs'. apply triple_pure.
    intros x. by rewrite <-!app_assoc.
Qed.
End triples.

Section invariant.
Context {W : Type} `{!AgentHost W} `{!PayloadCodec} `{!PayloadCodecLaws _} `{!MapOrder}.
Context (id eid : string) `{!HostLaws (W := W) id} (Heid : eid ≠ "").

Abbreviation prog_ A := (prog (exec W) A).

(** ** States *)

(** The state of an execution up to the world, whose store has the branch [b] of the head. *)
Definition St (s : session) (p : promptExecution) (h : history) (b : list TrajectoryEntry) (x : exec W) : Prop :=
  x_session x = s ∧ x_prompt x = p ∧ x_history x = h ∧ readable (h_store (x_world x)) id (ls_head s) b.

Definition owns (s : session) : Prop :=
  cfg_ID (ls_config s) = id ∧ ls_executionID s = eid ∧ ls_executionToken s ≠ "".

(** The last checkpoint of the execution is the last one of the branch. *)
Definition holds_checkpoint (b : list TrajectoryEntry) (commit : trajectoryCheckpointCommit) (exact : Prop) : Prop :=
  ∃ b1 e b2 s, b = b1 ++ e :: b2 ∧ entry_of eid e TrajectoryKindCheckpoint (PCheckpoint (checkpoint_payload s commit)) ∧
    (ck_MessageMode commit = CheckpointMessagesSnapshot ∨ ck_MessageMode commit = CheckpointMessagesBranch) ∧
    Forall (λ e, te_Kind e ≠ TrajectoryKindCheckpoint) b2 ∧
    (exact → replay_branch id [] (b1 ++ [e]) = Ok (canons (ck_Messages commit))).

Definition saved_ok (h : history) (b : list TrajectoryEntry) : Prop :=
  match hs_saved h with
  | None => Forall (λ e, te_Kind e = TrajectoryKindCheckpoint → tf_ExecutionID (te_Fields e) ≠ eid) b
  | Some commit => holds_checkpoint b commit (hs_dropped h = false)
  end.

(** The branch has the messages [ms], unless a response was dropped. *)
Definition projects (h : history) (b : list TrajectoryEntry) (ms : list Message) : Prop :=
  hs_dropped h = false → replay_branch id [] b = Ok ms.

Definition good (s : session) (p : promptExecution) (h : history) (b : list TrajectoryEntry) : Prop :=
  owns s ∧ saved_ok h b ∧ projects h b (canons (px_messages p)).

(** The loop goes on from, and stops in. *)
Definition Live (x : exec W) : Prop := ∃ s p h b, St s p h b x ∧ good s p h b.
Definition Hist (x : exec W) : Prop := ∃ s p h b, St s p h b x ∧ cfg_ID (ls_config s) = id ∧ saved_ok h b.

Lemma St_Hist s p h b x : owns s → saved_ok h b → St s p h b x → Hist x.
Proof using Type. intros [Hid _] Hs Hst. by exists s, p, h, b. Qed.

Lemma Live_Hist x : Live x → Hist x.
Proof using Type. intros (s & p & h & b & Hst & Ho & Hs & _). by eapply St_Hist. Qed.

(** ** Entries and the last checkpoint *)

Lemma saved_ok_snoc h b e : te_Kind e ≠ TrajectoryKindCheckpoint → saved_ok h b → saved_ok h (b ++ [e]).
Proof using Type.
  intros Hk. unfold saved_ok. destruct (hs_saved h) as [commit|].
  - intros (b1 & c & b2 & s & -> & He & Hm & Hb2 & Hr). exists b1, c, (b2 ++ [e]), s.
    rewrite <-app_assoc. split_and!; try done. apply Forall_app; split; [done|by constructor].
  - intros Hb. apply Forall_app; split; [done|]. by constructor.
Qed.

Lemma projects_snoc h b ms e ms' :
  projects h b ms → (cloned ms → branchMessagesAfterEntry id ms e = Ok ms') → projects h (b ++ [e]) ms'.
Proof using Type.
  intros Hp He Hd. specialize (Hp Hd). rewrite replay_app, Hp. simpl. rewrite He; [done|].
  eapply replay_cloned; [|done]. apply cloned_nil.
Qed.

Lemma saved_ok_answered h b r : saved_ok (answered_with r h) b ↔ saved_ok h b.
Proof using Type. done. Qed.

Lemma saved_ok_dropped h b : saved_ok h b → saved_ok (dropped h) b.
Proof using Type.
  unfold saved_ok. simpl. destruct (hs_saved h); [|done]. intros (b1 & e & b2 & s & Hb & He & Hm & Hb2 & Hr).
  exists b1, e, b2, s. split_and!; try done. intros [Hd _]%orb_false_iff. auto.
Qed.

Lemma saved_ok_checkpoint h b e s commit :
  entry_of eid e TrajectoryKindCheckpoint (PCheckpoint (checkpoint_payload s commit)) →
  ck_MessageMode commit = CheckpointMessagesSnapshot ∨ ck_MessageMode commit = CheckpointMessagesBranch →
  projects h (b ++ [e]) (canons (ck_Messages commit)) → saved_ok (saved commit h) (b ++ [e]).
Proof using Type. intros He Hm Hp. exists b, e, [], s. split_and!; try done. Qed.

(** ** The host *)

Lemma St_handle {A} (r : request A) s p h b x w a :
  St s p h b x → h_handle r (x_world x) = (a, w) → St s p h b (set_world w x).
Proof using HostLaws0.
  intros (Hs & Hp & Hh & Hb) Hr. split_and!; [done..|]. eapply runs_readable; [|done]. simpl.
  replace w with (h_handle r (x_world x)).2 by (by rewrite Hr). apply law_runs.
Qed.

Lemma ask_spec {A} (r : request (result A)) s p h b (Q : A → exec W → Prop) E :
  (∀ a x, St s p h b x → Q a x) → (∀ x, St s p h b x → E x) → triple (St s p h b) (ask r) Q E.
Proof using HostLaws0.
  intros HQ HE x Hx. unfold ask. destruct (h_handle r (x_world x)) as [[a|e] w] eqn:Hr.
  - apply HQ. by eapply St_handle.
  - apply HE. by eapply St_handle.
Qed.

Lemma ask_value_spec {A} (r : request A) s p h b (Q : A → exec W → Prop) E :
  (∀ a x, St s p h b x → Q a x) → triple (St s p h b) (ask_value r) Q E.
Proof using HostLaws0.
  intros HQ x Hx. unfold ask_value. destruct (h_handle r (x_world x)) as [a w] eqn:Hr. apply HQ. by eapply St_handle.
Qed.

(** ** Commits *)

Definition after_commit (s : session) (head : string) (state : TrajectoryExecutionState) : session :=
  let s := with_head s head in
  if bool_decide (state = no_state) || bool_decide (state = TrajectoryExecutionRunning) then s
  else clearExecution s (ls_executionID s) (ls_executionToken s).

Lemma commitExecution_spec s p h b b' entry state err events :
  owns s → te_ID entry ≠ "" → (∀ st, readable st id (ls_head s) b → readable st id (te_ParentID entry) b') →
  triple (St s p h b) (commitExecution entry state err events)
    (λ _ x, ∃ e, te_Kind e = te_Kind entry ∧ te_Payload e = te_Payload entry ∧
       tf_ExecutionID (te_Fields e) = eid ∧ te_ID entry ≠ "" ∧
       St (after_commit s (te_ID entry) state) p h (b' ++ [e]) x)
    (St s p h b).
Proof using HostLaws0 Heid.
  intros (Hid & Hex & Htok) Hne Hpar x Hx. unfold commitExecution, prog_bind, read.
  destruct Hx as (Hs & Hp & Hh & Hb). rewrite Hs.
  rewrite (proj2 (is_empty_false _)) by (by rewrite Hex). rewrite (proj2 (is_empty_false _) Htok). simpl.
  rewrite (proj2 (is_empty_false _) Hne). unfold ask.
  destruct (h_handle _ (x_world x)) as [[m|e] w] eqn:Hr.
  2: { by eapply St_handle; [|exact Hr]. }
  destruct (law_commit _ _ _ _ Hr) as (st1 & ctx & wall & clock & st2 & Hr1 & Hc & Hr2).
  pose proof (Hpar _ (runs_readable _ _ _ _ _ Hr1 Hb)) as Hb1.
  assert (ecm_TrajectoryID (execution_commit s
    [with_fields entry (set_ExecutionID (te_Fields entry) (ls_executionID s))] state err) = id) as Htid by done.
  rewrite <-Htid in Hb1 at 1.
  edestruct (commit_readable _ _ _ _ _ _ _ _ _ Hc eq_refl Hb1) as (e & (HID & HP & HK & HPl & HE) & Hhd & _ & Hrd).
  simpl in *. rewrite Htid in Hrd. apply (runs_readable _ _ _ _ _ Hr2) in Hrd.
  assert (∀ x', St (after_commit s (te_ID entry) state) p h (b' ++ [e]) x' →
    match (ask_value (RDispatchAfterCommit events)) x' with
    | (Ok _, x') => ∃ e, te_Kind e = te_Kind entry ∧ te_Payload e = te_Payload entry ∧
        tf_ExecutionID (te_Fields e) = eid ∧ te_ID entry ≠ "" ∧
        St (after_commit s (te_ID entry) state) p h (b' ++ [e]) x'
    | (Err _, x') => St s p h b x'
    end) as Hfin.
  { intros x' Hx'. pose proof (ask_value_spec (RDispatchAfterCommit events) _ _ _ _
      (λ _ x, St (after_commit s (te_ID entry) state) p h (b' ++ [e]) x) (λ _, False) (λ _ _ H, H) x' Hx') as Hv.
    destruct (ask_value _ x') as [[u|] x'']; [|done]. exists e. split_and!; [done|done|congruence|done|done]. }
  unfold modify, pure. unfold after_commit in *. rewrite <-negb_orb.
  destruct (bool_decide (state = no_state) || bool_decide (state = TrajectoryExecutionRunning)); simpl; apply Hfin;
    rewrite Hhd.
  - unfold St, set_session, set_world. simpl. rewrite Hs. split_and!; done.
  - unfold St, set_session, set_world, clearExecution. simpl. rewrite Hs. rewrite !bool_decide_eq_true_2 by done.
    split_and!; done.
Qed.

(** [read] and the parts of the state that [St] fixes. *)
Lemma read_spec {A B} (f : exec W → A) s p h b (k : A → prog_ B) Q E a :
  (∀ x, St s p h b x → f x = a) → triple (St s p h b) (k a) Q E → triple (St s p h b) (prog_bind (read f) k) Q E.
Proof using Type. intros Hf Hk x Hx. unfold prog_bind, read. rewrite (Hf x Hx). by apply Hk. Qed.

Lemma St_session s p h b x : St s p h b x → x_session x = s.
Proof using Type. by intros [? _]. Qed.
Lemma St_prompt s p h b x : St s p h b x → x_prompt x = p.
Proof using Type. by intros (_ & ? & _). Qed.

Lemma modify_prompt_spec s p h b f (Q : unit → exec W → Prop) E :
  (∀ x, St s (f p) h b x → Q tt x) → triple (St s p h b) (modify (set_prompt f)) Q E.
Proof using Type. intros HQ x (Hs & Hp & Hh & Hb). apply HQ. unfold St, set_prompt. simpl. rewrite Hp. done. Qed.

Lemma modify_session_spec s p h b f (Q : unit → exec W → Prop) E :
  ls_head (f s) = ls_head s → (∀ x, St (f s) p h b x → Q tt x) →
  triple (St s p h b) (modify (set_session f)) Q E.
Proof using Type.
  intros Hhd HQ x (Hs & Hp & Hh & Hb). apply HQ. unfold St, set_session. simpl. rewrite Hs, Hhd. done.
Qed.

Lemma modify_history_spec s p h b f (Q : unit → exec W → Prop) E :
  (∀ x, St s p (f h) b x → Q tt x) → triple (St s p h b) (modify (set_history f)) Q E.
Proof using Type. intros HQ x (Hs & Hp & Hh & Hb). apply HQ. unfold St, set_history. simpl. rewrite Hh. done. Qed.

(** ** Appending an entry *)

Lemma fresh_spec s p h b (Q : string * time → exec W → Prop) E :
  (∀ fresh x, fresh.1 ≠ "" → St s p h b x → Q fresh x) → triple (St s p h b) (ask_value RFresh) Q E.
Proof using HostLaws0.
  intros HQ x Hx. unfold ask_value. pose proof (law_fresh (x_world x)) as Hne.
  destruct (h_handle RFresh (x_world x)) as [a w] eqn:Hr. apply HQ; [done|]. by eapply St_handle.
Qed.

Lemma append_state_spec s p h b snapshot kind pl state err audit events :
  owns s →
  triple (St s p h b) (appendTrajectoryState snapshot kind pl state err audit events)
    (λ _ x, ∃ e hd, entry_of eid e kind pl ∧ St (after_commit s hd state) p h (b ++ [e]) x)
    (St s p h b).
Proof using HostLaws0 Heid.
  intros Ho. pose proof Ho as (Hid & Hex & Htok). unfold appendTrajectoryState.
  eapply (read_spec _ _ _ _ _ _ _ _ (ls_head s)); [intros x Hx; by rewrite (St_session _ _ _ _ _ Hx)|].
  unfold newPayloadTrajectoryEntry.
  eapply (triple_bind _ _ _ (λ entry x, (Marshal_payload pl = Ok (te_Payload entry) ∧ te_Kind entry = kind ∧
    te_ParentID entry = ls_head s ∧ te_ID entry ≠ "") ∧ St s p h b x)).
  { eapply (triple_bind _ _ _ (λ fresh x, fresh.1 ≠ "" ∧ St s p h b x)); [by apply fresh_spec|].
    intros fresh. apply triple_prop. intros Hne.
    destruct (Marshal_payload pl) as [raw|e] eqn:Hm; [|by apply triple_throw].
    apply triple_pure. intros x Hx. simpl. auto. }
  intros entry. apply triple_prop. intros (Hm & Hk & Hpar & Hne).
  eapply (read_spec _ _ _ _ _ _ _ _ s); [apply St_session|].
  eapply (triple_seq _ _ _ (St s p h b)); [by apply ask_spec|]. intros _.
  rewrite (proj2 (is_empty_false _)) by (by rewrite Hex). rewrite (proj2 (is_empty_false _) Htok). simpl.
  eapply (triple_bind _ _ _ (λ r x, match r with
      | Ok _ => ∃ e hd, entry_of eid e kind pl ∧ St (after_commit s hd state) p h (b ++ [e]) x
      | Err _ => St s p h b x end)).
  { eapply triple_attempt.
    - eapply (commitExecution_spec s p h b b); [done|done|]. simpl. rewrite Hpar. done.
    - simpl. intros _ x (e & Hke & Hpe & Hee & _ & Hx). exists e, (te_ID entry). split; [|done].
      split_and!; [congruence|congruence|done].
    - done. }
  intros [u|e]; [by apply triple_pure|by apply triple_throw].
Qed.

Lemma append_spec s p h b snapshot kind pl audit (Q : unit → exec W → Prop) E :
  owns s →
  (∀ e hd x, entry_of eid e kind pl → St (with_head s hd) p h (b ++ [e]) x → Q tt x) → (∀ x, St s p h b x → E x) →
  triple (St s p h b) (appendTrajectoryWithAudit snapshot kind pl audit) Q E.
Proof using HostLaws0 Heid.
  intros Ho HQ HE. eapply triple_weaken; [apply append_state_spec, Ho|done| |exact HE].
  intros [] x (e & hd & He & Hx). exact (HQ e hd x He Hx).
Qed.

Lemma append_event_state_spec s p h b snapshot kind pl state err audit event :
  owns s →
  triple (St s p h b) (appendTrajectoryStateWithExecutionEvent snapshot kind pl state err audit event)
    (λ _ x, ∃ e hd, entry_of eid e kind pl ∧ St (after_commit s hd state) p h (b ++ [e]) x)
    (St s p h b).
Proof using HostLaws0 Heid.
  intros Ho. eapply (triple_seq _ _ _ (St s p h b)); [by apply ask_spec|]. intros _.
  by apply append_state_spec.
Qed.

Lemma append_event_spec s p h b snapshot kind pl audit event (Q : unit → exec W → Prop) E :
  owns s →
  (∀ e hd x, entry_of eid e kind pl → St (with_head s hd) p h (b ++ [e]) x → Q tt x) → (∀ x, St s p h b x → E x) →
  triple (St s p h b) (appendTrajectoryWithExecutionEvent snapshot kind pl audit event) Q E.
Proof using HostLaws0 Heid.
  intros Ho HQ HE. eapply triple_weaken; [apply append_event_state_spec, Ho|done| |exact HE].
  intros [] x (e & hd & He & Hx). exact (HQ e hd x He Hx).
Qed.

Lemma owns_head s hd : owns s → owns (with_head s hd).
Proof using Type. done. Qed.

(** ** Checkpoints *)

Lemma checkpoint_spec s p h b snapshot commit (Q : unit → exec W → Prop) E :
  owns s →
  (∀ e s' x, entry_of eid e TrajectoryKindCheckpoint (PCheckpoint (checkpoint_payload s commit)) → owns s' →
     St s' p (saved commit h) (b ++ [e]) x → Q tt x) →
  (∀ x, St s p h b x → E x) →
  triple (St s p h b) (checkpointTrajectory snapshot commit) Q E.
Proof using HostLaws0 Heid.
  intros Ho HQ HE. unfold checkpointTrajectory. eapply (read_spec _ _ _ _ _ _ _ _ s); [apply St_session|].
  eapply (triple_seq _ _ _ (λ x, ∃ e hd,
    entry_of eid e TrajectoryKindCheckpoint (PCheckpoint (checkpoint_payload s commit)) ∧
    St (with_head s hd) p h (b ++ [e]) x)).
  { apply append_spec; [done|eauto|done]. }
  intros _. apply triple_exists. intros e. apply triple_exists. intros hd. apply triple_prop. intros He.
  eapply (triple_seq _ _ _ (St (with_head s hd) p (saved commit h) (b ++ [e]))); [by apply modify_history_spec|].
  intros _. apply modify_session_spec; [done|]. intros x Hx. eapply HQ; [exact He| |exact Hx]. exact Ho.
Qed.

(** A branch checkpoint that injects the messages the conversation gained, or none. *)
Lemma branch_checkpoint_good s p h b e base action injections :
  entry_of eid e TrajectoryKindCheckpoint (PCheckpoint (checkpoint_payload s (branch_checkpoint p action injections))) →
  projects h b (canons base) →
  (ac_Kind action = ActionInject ∧ canons (px_messages p) = canons (base ++ ac_Messages action) ∨
   ascii_text (ac_Kind action) = true ∧ ac_Kind action ≠ ActionInject ∧ px_messages p = base) →
  let h' := saved (branch_checkpoint p action injections) h in
  saved_ok h' (b ++ [e]) ∧ projects h' (b ++ [e]) (canons (px_messages p)).
Proof using PayloadCodecLaws0.
  intros He Hp Hms h'.
  assert (projects h (b ++ [e]) (canons (px_messages p))) as Hproj.
  { eapply projects_snoc; [done|]. intros Hc. rewrite (step_branch_checkpoint _ _ _ _ Hc _ He) by done.
    f_equal. simpl. destruct Hms as [[Hk Hm]|(Ha & Hk & Hm)].
    - rewrite Hk, json_text_ascii, bool_decide_eq_true_2 by done.
      by rewrite Hm, canons_app, canons_clone.
    - rewrite json_text_ascii, bool_decide_eq_false_2 by done. by rewrite app_nil_r, Hm. }
  split; [|done]. eapply saved_ok_checkpoint; [done|by right|done].
Qed.

Lemma head_marked s injections : ls_head (markContextInjectionsConsumed s injections) = ls_head s.
Proof using Type.
  unfold markContextInjectionsConsumed. revert s. induction injections as [|i l IH]; intros s; simpl; [done|].
  rewrite IH. unfold mark_consumed. by destruct (is_empty (ci_ID i)).
Qed.

Lemma owns_marked s injections : owns s → owns (markContextInjectionsConsumed s injections).
Proof using Type.
  unfold markContextInjectionsConsumed. revert s. induction injections as [|i l IH]; intros s Ho; simpl; [done|].
  apply IH. unfold mark_consumed. by destruct (is_empty (ci_ID i)).
Qed.

(** Queued context leaves the execution live, and on an error as it was up to the world. *)
Lemma queued_spec s p h b snapshot boundary :
  good s p h b → triple (St s p h b) (checkpointQueuedContext snapshot boundary) (λ _, Live) Hist.
Proof using HostLaws0 Heid PayloadCodecLaws0.
  intros (Ho & Hs & Hp). unfold checkpointQueuedContext, pendingContextInjections.
  eapply (triple_seq _ _ _ (St s p h b)).
  { eapply (read_spec _ _ _ _ _ _ _ _ s); [apply St_session|].
    eapply (triple_seq _ _ _ (St s p h b)); [apply ask_spec; [auto|intros; by eapply St_Hist]|].
    intros listed. by apply triple_pure. }
  intros injections. destruct injections as [|i l] eqn:Hinj.
  { apply triple_pure. intros x Hx. by exists s, p, h, b. }
  rewrite <-Hinj. clear Hinj i l. set (injected := messagesFromContextInjections injections).
  eapply (read_spec _ _ _ _ _ _ _ _ (px_messages p)); [intros x Hx; by rewrite (St_prompt _ _ _ _ _ Hx)|].
  set (p1 := set_messages (px_messages p ++ injected) p).
  eapply (triple_seq _ _ _ (St s p1 h b)); [by apply modify_prompt_spec|]. intros _.
  eapply (read_spec _ _ _ _ _ _ _ _ p1); [apply St_prompt|].
  set (commit := branch_checkpoint p1 (injectAction injected) (CloneContextInjections injections)).
  eapply (triple_bind _ _ _ (λ r x, match r with
    | Ok _ => ∃ s' e, owns s' ∧ saved_ok (saved commit h) (b ++ [e]) ∧
        projects (saved commit h) (b ++ [e]) (canons (px_messages p1)) ∧ St s' p1 (saved commit h) (b ++ [e]) x
    | Err _ => St s p1 h b x end)).
  { eapply triple_attempt; [apply (checkpoint_spec _ _ _ _ _ _ (λ _ x, ∃ s' e, owns s' ∧
        entry_of eid e TrajectoryKindCheckpoint (PCheckpoint (checkpoint_payload s commit)) ∧
        St s' p1 (saved commit h) (b ++ [e]) x) (St s p1 h b)); [done|eauto 10|done]| |done].
    simpl. intros _ x (s' & e & Ho' & He & Hx). exists s', e.
    destruct (branch_checkpoint_good s p1 h b e (px_messages p) (injectAction injected) _ He Hp) as [H1 H2];
      [left; done|]. done. }
  intros [u|err].
  2: { eapply (triple_seq _ _ _ (St s (set_messages (px_messages p) p1) h b)); [by apply modify_prompt_spec|].
       intros _. apply triple_throw. intros x Hx. by eapply St_Hist. }
  apply triple_exists. intros s'. apply triple_exists. intros e.
  apply triple_prop. intros Ho'. apply triple_prop. intros Hs'. apply triple_prop. intros Hp'.
  eapply (triple_seq _ _ _ (St s' p1 (saved commit h) (b ++ [e]))).
  { unfold consumeContextInjections. destruct (filter _ _); [by apply triple_pure|]. by apply ask_value_spec. }
  intros _. eapply (triple_seq _ _ _ (St (markContextInjectionsConsumed s' injections) p1 (saved commit h) (b ++ [e]))).
  { apply modify_session_spec; [apply head_marked|done]. }
  intros _. set (s2 := markContextInjectionsConsumed s' injections).
  set (p2 := set_result (with_result_injections (contextInjectionProjection s2 [])) p1).
  eapply (triple_seq _ _ _ (St s2 p2 (saved commit h) (b ++ [e]))).
  { apply triple_modify. intros x (Hxs & Hxp & Hxh & Hxb). unfold St, set_prompt. simpl. rewrite Hxs, Hxp. done. }
  intros _. eapply (triple_seq _ _ _ (St (applyMessageProjection s2 (px_messages p2)) p2 (saved commit h) (b ++ [e]))).
  { apply triple_modify. intros x (Hxs & Hxp & Hxh & Hxb). unfold St, set_session. simpl. rewrite Hxs, Hxp. done. }
  intros _. apply triple_pure. intros x Hx. eexists _, _, _, _. split; [exact Hx|].
  split_and!; [apply (owns_marked s' injections Ho')|done|done].
Qed.
(** ** Calls that keep the execution live *)

Lemma Live_triple {A} (m : prog_ A) Q E :
  (∀ s p h b, good s p h b → triple (St s p h b) m Q E) → triple Live m Q E.
Proof using Type. intros Hm x (s & p & h & b & Hx & Hg). by eapply Hm. Qed.

Lemma St_Live s p h b x : good s p h b → St s p h b x → Live x.
Proof using Type. intros Hg Hx. by exists s, p, h, b. Qed.

Lemma good_Hist s p h b x : good s p h b → St s p h b x → Hist x.
Proof using Type. intros Hg Hx. by eapply Live_Hist, St_Live. Qed.

Lemma ask_Live {A} (r : request (result A)) : triple Live (ask r) (λ _, Live) Hist.
Proof using HostLaws0.
  apply Live_triple. intros s p h b Hg. apply ask_spec; intros; [by eapply St_Live|by eapply good_Hist].
Qed.

Lemma ask_value_Live {A} (r : request A) E : triple Live (ask_value r) (λ _, Live) E.
Proof using HostLaws0. apply Live_triple. intros s p h b Hg. apply ask_value_spec. intros. by eapply St_Live. Qed.

Lemma read_Live {A B} (f : exec W → A) (k : A → prog_ B) Q E :
  (∀ a, triple Live (k a) Q E) → triple Live (prog_bind (read f) k) Q E.
Proof using Type. intros Hk x Hx. unfold prog_bind, read. by apply Hk. Qed.

Lemma modify_prompt_Live f E :
  (∀ p, px_messages (f p) = px_messages p) → triple Live (modify (set_prompt f)) (λ _, Live) E.
Proof using Type.
  intros Hf. apply Live_triple. intros s p h b (Ho & Hs & Hp). apply modify_prompt_spec. intros x Hx.
  eapply St_Live; [|done]. split_and!; [done..|]. by rewrite Hf.
Qed.

Lemma good_neutral s p h b e hd :
  good s p h b → messageProjectionEntryKind (te_Kind e) = false → good (with_head s hd) p h (b ++ [e]).
Proof using Type.
  intros (Ho & Hs & Hp) Hk. split_and!; [done|apply saved_ok_snoc; [by intros Hc; rewrite Hc in Hk|done]|].
  eapply projects_snoc; [done|]. intros Hc. by apply step_other.
Qed.

Lemma append_neutral_spec snapshot kind pl audit :
  messageProjectionEntryKind kind = false →
  triple Live (appendTrajectoryWithAudit snapshot kind pl audit) (λ _, Live) Hist.
Proof using HostLaws0 Heid.
  intros Hk. apply Live_triple. intros s p h b Hg. apply append_spec; [apply Hg| |intros; by eapply good_Hist].
  intros e hd x (He & _) Hx. eapply St_Live; [|done]. by apply good_neutral; [|rewrite He].
Qed.

Lemma append_event_neutral_spec snapshot kind pl audit event :
  messageProjectionEntryKind kind = false →
  triple Live (appendTrajectoryWithExecutionEvent snapshot kind pl audit event) (λ _, Live) Hist.
Proof using HostLaws0 Heid.
  intros Hk. apply Live_triple. intros s p h b Hg. apply append_event_spec; [apply Hg| |intros; by eapply good_Hist].
  intros e hd x (He & _) Hx. eapply St_Live; [|done]. by apply good_neutral; [|rewrite He].
Qed.

Lemma queued_Live snapshot boundary : triple Live (checkpointQueuedContext snapshot boundary) (λ _, Live) Hist.
Proof using HostLaws0 Heid PayloadCodecLaws0. apply Live_triple. intros s p h b. apply queued_spec. Qed.

Lemma traverse_Live {A B} (f : nat → A → prog_ B) l index E :
  (∀ i a, triple Live (f i a) (λ _, Live) E) → triple Live (traverse f index l) (λ _, Live) E.
Proof using Type.
  intros Hf. apply (triple_traverse f (λ _ _, Live) E index [] [] l). intros i a _ _. apply Hf.
Qed.

Lemma pure_Live {A} (a : A) E : triple Live (pure a) (λ _, Live) E.
Proof using Type. by apply triple_pure. Qed.

(** ** Tools *)

Lemma prepareToolCall_Live snapshot turn tools pid i call :
  triple Live (prepareToolCall snapshot turn tools pid i call) (λ _, Live) Hist.
Proof using HostLaws0 Heid.
  unfold prepareToolCall. eapply (triple_seq _ _ _ Live); [apply ask_Live|]. intros [payload before].
  apply read_Live. intros s. eapply (triple_seq _ _ _ Live); [by apply append_neutral_spec|]. intros _.
  apply read_Live. intros hd. destruct (dr_Block before); [apply pure_Live|].
  destruct (tools !! _); apply pure_Live.
Qed.

Lemma submitToolCall_Live name call E : triple Live (submitToolCall name call) (λ _, Live) E.
Proof using HostLaws0.
  unfold submitToolCall. destruct (pc_failure call); [apply pure_Live|].
  eapply (triple_seq _ _ _ Live); [apply ask_value_Live|]. intros a. apply pure_Live.
Qed.

Lemma awaitToolCall_Live call E : triple Live (awaitToolCall call) (λ _, Live) E.
Proof using HostLaws0.
  unfold awaitToolCall. destruct (pc_failure call); [apply pure_Live|].
  eapply (triple_seq _ _ _ Live); [apply ask_value_Live|]. intros a. apply pure_Live.
Qed.

Lemma tool_interrupted_Live enabled E : triple Live (tool_interrupted enabled) (λ _, Live) E.
Proof using HostLaws0.
  apply read_Live. intros s. destruct (_ && _); [apply ask_value_Live|apply pure_Live].
Qed.

Lemma run_batches_Live enabled name batches prepared outcomes interrupted E :
  triple Live (run_batches enabled name batches prepared outcomes interrupted) (λ _, Live) E.
Proof using HostLaws0.
  revert prepared outcomes interrupted. induction batches as [|batch batches IH]; intros prepared outcomes interrupted;
    cbn [run_batches]; [apply pure_Live|].
  eapply (triple_seq _ _ _ Live); [apply traverse_Live; intros; apply submitToolCall_Live|]. intros calls.
  eapply (triple_seq _ _ _ Live); [apply traverse_Live; intros; apply awaitToolCall_Live|]. intros outs.
  eapply (triple_seq _ _ _ Live); [destruct (toolOutcomesInterrupted outs); [apply pure_Live|apply tool_interrupted_Live]|].
  intros cause. destruct (_ && _); [apply pure_Live|apply IH].
Qed.

(** A recorded tool result that the conversation does not have yet. *)
Definition Resulted (r : ToolCall * ToolResult) (x : exec W) : Prop :=
  ∃ s p h b, St s p h b x ∧ owns s ∧ saved_ok h b ∧
    projects h b (canons (px_messages p ++ [ToolMessage (tc_ID r.1) r.2])).

Lemma after_tool_ask s p h b snapshot after :
  triple (St s p h b) (ask (RAfterTool snapshot after))
    (λ r x, tc_ID (at_Call r.1) = json_text (tc_ID (at_Call after)) ∧ St s p h b x) (St s p h b).
Proof using HostLaws0.
  intros x Hx. unfold ask. destruct (h_handle (RAfterTool snapshot after) (x_world x)) as [[[a d]|e] w] eqn:Hr.
  - split; [by eapply law_after_tool|by eapply St_handle].
  - by eapply St_handle.
Qed.

Lemma canon_tool_twice tid tid' r :
  tid' = json_text tid → canon (ToolMessage tid' r) = canon (ToolMessage tid r).
Proof using PayloadCodecLaws0. intros ->. unfold canon_message, ToolMessage. simpl. by rewrite json_text_idem. Qed.

Lemma afterTool_spec snapshot turn call r audits :
  triple Live (afterTool snapshot turn call r audits) Resulted Hist.
Proof using HostLaws0 Heid PayloadCodecLaws0.
  apply Live_triple. intros s p h b Hg. pose proof Hg as (Ho & Hs & Hp). unfold afterTool.
  eapply triple_bind.
  { eapply triple_weaken; [apply after_tool_ask|done|intros ? ? Hq; exact Hq|intros; by eapply good_Hist]. }
  intros [payload d]. apply triple_prop. simpl. intros Hid.
  eapply (triple_seq _ _ _ (Resulted (pc_call call, at_Result payload))); [|intros; by apply triple_pure].
  apply append_spec; [done| |intros; by eapply good_Hist].
  intros e hd x He Hx. exists (with_head s hd), p, h, (b ++ [e]). split_and!; [done|done| |].
  - apply saved_ok_snoc; [by rewrite (proj1 He)|done].
  - eapply projects_snoc; [done|]. intros Hc. rewrite (step_result _ _ _ _ Hc _ He). f_equal.
    rewrite canons_app. f_equal. simpl. f_equal. by apply canon_tool_twice.
Qed.

Lemma afterToolError_spec snapshot turn call kind reason r :
  triple Live (afterToolError snapshot turn call kind reason r) Resulted Hist.
Proof using HostLaws0 Heid PayloadCodecLaws0.
  eapply (triple_seq _ _ _ Live); [apply ask_Live|]. intros [payload d]. apply afterTool_spec.
Qed.

Lemma finalize_call_Live snapshot turn call outcome :
  triple Live (finalize_call snapshot turn call outcome) (λ _, Live) Hist.
Proof using HostLaws0 Heid PayloadCodecLaws0.
  unfold finalize_call. apply (triple_bind _ _ _ Resulted).
  { unfold finalizeToolCall. destruct (oc_err outcome); [apply afterToolError_spec|].
    destruct (pc_failure call); [apply afterToolError_spec|apply afterTool_spec]. }
  intros [c r]. intros x (s & p & h & b & Hx & Ho & Hs & Hp). revert x Hx.
  change (triple (St s p h b) (do! modify (set_prompt (λ p, set_result count_tool_call
    (set_messages (px_messages p ++ [ToolMessage (tc_ID c) r]) p))); pure r) (λ _, Live) Hist).
  eapply (triple_seq _ _ _ Live); [|intros; apply pure_Live].
  apply modify_prompt_spec. intros x Hx. by eapply St_Live; [|exact Hx].
Qed.

Lemma executeTools_Live snapshot turn calls tools pid name :
  triple Live (executeTools snapshot turn calls tools pid name) (λ _, Live) Hist.
Proof using HostLaws0 Heid PayloadCodecLaws0.
  unfold executeTools. eapply (triple_seq _ _ _ Live); [apply traverse_Live; intros; apply prepareToolCall_Live|].
  intros prepared. eapply (triple_seq _ _ _ Live).
  { destruct (validateModelResponse _); [apply pure_Live|]. apply triple_throw. apply Live_Hist. }
  intros _. eapply (triple_seq _ _ _ Live); [apply run_batches_Live|]. intros [[prepared' outcomes] interrupted].
  eapply (triple_seq _ _ _ Live); [destruct interrupted; [apply pure_Live|apply tool_interrupted_Live]|].
  intros interrupted'. eapply (triple_seq _ _ _ Live); [apply traverse_Live; intros; apply finalize_call_Live|].
  intros results. eapply (triple_seq _ _ _ Live); [by apply modify_prompt_Live|]. intros _. apply pure_Live.
Qed.

(** ** Providers *)

Lemma nextProviderAttempt_Live turn : triple Live (nextProviderAttempt turn) (λ _, Live) Hist.
Proof using HostLaws0.
  unfold nextProviderAttempt, initializeProviderAttempts. eapply (triple_seq _ _ _ Live).
  { apply read_Live. intros x. destruct (px_providerAttemptsInitialized _); [apply pure_Live|].
    eapply (triple_seq _ _ _ Live); [by apply modify_prompt_Live|]. intros _.
    destruct (is_empty _); [apply pure_Live|]. eapply (triple_seq _ _ _ Live); [apply ask_Live|].
    intros entries. by apply modify_prompt_Live. }
  intros _. apply read_Live. intros attempts. eapply (triple_seq _ _ _ Live); [by apply modify_prompt_Live|].
  intros _. apply pure_Live.
Qed.

Lemma lift_Live {A} (r : result A) : triple Live (lift r) (λ _, Live) Hist.
Proof using Type. apply triple_lift; [done|apply Live_Hist]. Qed.

Lemma prepareProviderCall_Live snapshot turn : triple Live (prepareProviderCall snapshot turn) (λ _, Live) Hist.
Proof using HostLaws0 Heid.
  unfold prepareProviderCall. apply read_Live. intros x. eapply (triple_seq _ _ _ Live); [apply lift_Live|].
  intros name. eapply (triple_seq _ _ _ Live); [apply ask_Live|]. intros [payload before].
  destruct (sn_providers snapshot !! _); [|apply triple_throw, Live_Hist].
  eapply (triple_seq _ _ _ Live); [apply lift_Live|]. intros [advertised index].
  eapply (triple_seq _ _ _ Live); [apply nextProviderAttempt_Live|]. intros attempt.
  apply read_Live. intros y. eapply (triple_seq _ _ _ Live); [by apply append_event_neutral_spec|].
  intros _. apply pure_Live.
Qed.

(** The answer of the provider, which the branch may have before the conversation does. *)
Definition Answered (r : result ModelResponse) (x : exec W) : Prop :=
  ∃ s p h b, St s p h b x ∧ owns s ∧ saved_ok h b ∧
    if hs_answered h
    then ∃ response, projects h b (canons (px_messages p ++ [assistantMessage response])) ∧
           ∀ r', r = Ok r' → r' = response
    else projects h b (canons (px_messages p)) ∧ ∀ r', r ≠ Ok r'.

Lemma callProvider_spec snapshot turn call : triple Live (callProvider snapshot turn call) Answered Hist.
Proof using HostLaws0 Heid PayloadCodecLaws0.
  apply Live_triple. intros s p h b (Ho & Hs & Hp). unfold callProvider. eapply (triple_seq _ _ _ (St s p h b)).
  { eapply (triple_seq _ _ _ (St s p h b)); [by apply ask_value_spec|]. intros response. by apply triple_pure. }
  intros outcome. eapply (triple_seq _ _ _ (St s p h b)).
  { eapply triple_attempt; [by apply (ask_spec _ _ _ _ _ (λ _, St s p h b) (St s p h b))|done|done]. }
  intros o. eapply (triple_bind _ _ _ (λ r x, match r with
    | Ok _ => ∃ e hd, entry_of eid e TrajectoryKindProviderResponse (PProviderResponse (trajectoryResponse outcome)) ∧
        St (with_head s hd) p h (b ++ [e]) x
    | Err _ => St s p h b x end)).
  { eapply triple_attempt; [apply (append_event_spec _ _ _ _ _ _ _ _ _ (λ _ x, ∃ e hd,
        entry_of eid e TrajectoryKindProviderResponse (PProviderResponse (trajectoryResponse outcome)) ∧
        St (with_head s hd) p h (b ++ [e]) x) (St s p h b)); [done|eauto|done]|done|done]. }
  intros [u|err].
  - apply triple_exists. intros e. apply triple_exists. intros hd. apply triple_prop. intros He.
    eapply (triple_seq _ _ _ (St (with_head s hd) p (answered_with (result_ok (ou_response outcome) && true) h) (b ++ [e])));
      [by apply modify_history_spec|]. intros _. apply triple_pure. intros x Hx. eexists _, _, _, _. split; [exact Hx|].
    split_and!; [done|apply saved_ok_answered, saved_ok_snoc; [by rewrite (proj1 He)|done]|].
    assert (∀ ms', canons (px_messages p) ++ match ap_Response (afterPayload outcome) with
        | Some response => [canon (assistantMessage response)] | None => [] end = ms' →
      projects h (b ++ [e]) ms') as Hproj.
    { intros ms' <-. eapply projects_snoc; [done|]. intros Hc. by rewrite (step_response _ _ _ _ Hc _ He). }
    simpl. destruct (ou_response outcome) as [response|err] eqn:Hr; simpl.
    + exists response. split; [apply Hproj; simpl; rewrite Hr; by rewrite canons_app|].
      intros r'. destruct o; [by intros [= <-]|done].
    + split; [apply Hproj; simpl; rewrite Hr; by rewrite app_nil_r|]. done.
  - eapply (triple_seq _ _ _ (St s p (answered_with (result_ok (ou_response outcome) && false) h) b));
      [by apply modify_history_spec|]. intros _. apply triple_pure. intros x Hx. eexists _, _, _, _. split; [exact Hx|].
    rewrite andb_false_r. simpl. split_and!; [done|done|done|]. by destruct (ou_response outcome), o.
Qed.

(** ** The end of an execution *)

Lemma cfg_after_commit s hd state : cfg_ID (ls_config (after_commit s hd state)) = cfg_ID (ls_config s).
Proof using Type.
  unfold after_commit. destruct (_ || _); [done|]. unfold clearExecution. by destruct (_ && _).
Qed.

Lemma finish_Hist snapshot messages r cause E : triple Live (session_finish snapshot messages r cause) (λ _, Hist) E.
Proof using HostLaws0 Heid.
  unfold session_finish. case_bool_decide; [apply triple_pure, Live_Hist|].
  eapply (triple_seq _ _ _ Hist); [|intros; by apply triple_pure].
  apply Live_triple. intros s p h b Hg. pose proof Hg as (Ho & Hs & Hp).
  eapply triple_attempt; [by apply append_event_state_spec| |intros; by eapply good_Hist].
  simpl. intros _ x (e & hd & He & Hx). exists (after_commit s hd (executionStateForCause cause)), p, h, (b ++ [e]).
  split_and!; [done|rewrite cfg_after_commit; apply Ho|]. apply saved_ok_snoc; [by rewrite (proj1 He)|done].
Qed.

(** Changes of the prompt and of the session that keep the head and the identity. *)
Lemma modify_Hist f (E : exec W → Prop) :
  (∀ x, x_world (f x) = x_world x ∧ x_history (f x) = x_history x ∧
        ls_head (x_session (f x)) = ls_head (x_session x) ∧
        cfg_ID (ls_config (x_session (f x))) = cfg_ID (ls_config (x_session x))) →
  triple Hist (modify f) (λ _, Hist) E.
Proof using Type.
  intros Hf x (s & p & h & b & (Hs & Hp & Hh & Hb) & Hid & Hsv). destruct (Hf x) as (Hw & Hh' & Hhd & Hid').
  exists (x_session (f x)), (x_prompt (f x)), (x_history (f x)), b.
  unfold St, modify. simpl. rewrite Hw, Hhd, Hid', Hs, Hh', Hh. done.
Qed.

Lemma finish_prompt_Hist snapshot cause E : triple Live (finish_prompt snapshot cause) (λ _, Hist) E.
Proof using HostLaws0 Heid.
  unfold finish_prompt. apply read_Live. intros p. eapply (triple_seq _ _ _ Hist); [apply finish_Hist|].
  intros [r err]. eapply (triple_seq _ _ _ Hist); [by apply modify_Hist|]. intros _.
  eapply (triple_seq _ _ _ Hist); [by apply modify_Hist|]. intros _. by apply triple_pure.
Qed.

Lemma finishWithError_Hist code cause E : triple Hist (finishWithError code cause) (λ _, Hist) E.
Proof using Type.
  unfold finishWithError. eapply (triple_seq _ _ _ Hist); [by apply modify_Hist|]. intros _.
  eapply (triple_seq _ _ _ Hist); [by apply modify_Hist|]. intros _.
  eapply (triple_seq _ _ _ Hist); [by apply triple_read|]. intros p. by apply triple_pure.
Qed.

(** ** Decisions *)

Lemma decide_Live snapshot turn response results : triple Live (decide snapshot turn response results) (λ _, Live) Hist.
Proof using HostLaws0 Heid.
  unfold decide. apply read_Live. intros x. eapply (triple_seq _ _ _ Live); [apply ask_Live|]. intros decision.
  destruct (resolveAction _ _ _) as [action resolution].
  destruct (if last_turn _ _ && _ then _ else _) as [action' resolution'].
  eapply (triple_seq _ _ _ Live); [by apply append_event_neutral_spec|]. intros _. apply pure_Live.
Qed.

(** The checkpoint of an action and the end it may have, once the conversation has its messages. *)
Lemma checkpoint_action_spec s p h b base snapshot action :
  owns s → saved_ok h b → projects h b (canons base) →
  (ac_Kind action = ActionInject ∧ canons (px_messages p) = canons (base ++ ac_Messages action) ∨
   ascii_text (ac_Kind action) = true ∧ ac_Kind action ≠ ActionInject ∧ px_messages p = base) →
  triple (St s p h b) (checkpointTrajectory snapshot (branch_checkpoint p action [])) (λ _, Live) Hist.
Proof using HostLaws0 Heid PayloadCodecLaws0.
  intros Ho Hs Hp Hms. apply checkpoint_spec; [done| |intros; by eapply St_Hist].
  intros e s' x He Ho' Hx. destruct (branch_checkpoint_good s p h b e base action [] He Hp Hms) as [H1 H2].
  by eapply St_Live; [|exact Hx].
Qed.

Definition Ended (r : option (Result * option error)) : exec W → Prop :=
  match r with None => Live | Some _ => Hist end.

Lemma after_checkpoint_spec snapshot action :
  triple Live (if negb (bool_decide (ac_Kind action = ActionStop)) then pure None else
               let! r := finish_prompt snapshot (default modelEnd (ac_Cause action)) in pure (Some r)) Ended Hist.
Proof using HostLaws0 Heid.
  destruct (negb _); [by apply triple_pure|].
  eapply (triple_seq _ _ _ Hist); [apply finish_prompt_Hist|]. intros r. by apply triple_pure.
Qed.

Lemma applyAction_spec snapshot action : triple Live (applyAction snapshot action) Ended Hist.
Proof using HostLaws0 Heid PayloadCodecLaws0.
  unfold applyAction. case_bool_decide as Hk.
  - apply Live_triple. intros s p h b (Ho & Hs & Hp).
    set (p1 := set_messages (px_messages p ++ CloneMessages (ac_Messages action)) p).
    eapply (triple_seq _ _ _ (St s p1 h b)); [by apply modify_prompt_spec|]. intros _.
    unfold actionDrainsAfterTurn. rewrite Hk, !(bool_decide_eq_false_2 (ActionInject = _)) by done. simpl.
    eapply (triple_bind _ _ _ (λ d x, d = false ∧ St s p1 h b x)); [by apply triple_pure|]. intros d.
    apply triple_prop. intros ->. eapply (read_spec _ _ _ _ _ _ _ _ p1); [apply St_prompt|].
    eapply (triple_seq _ _ _ Live); [|intros; by apply triple_pure].
    eapply checkpoint_action_spec; [done..|]. left. split; [done|]. simpl. by rewrite !canons_app, canons_clone.
  - eapply (triple_seq _ _ _ Live); [apply pure_Live|]. intros _.
    destruct (existsb _ _) eqn:Hex; simpl; [|apply triple_throw, Live_Hist].
    eapply (triple_seq _ _ _ Live); [destruct (actionDrainsAfterTurn action); [apply queued_Live|apply pure_Live]|].
    intros d. destruct d; [by apply triple_pure|].
    apply Live_triple. intros s p h b (Ho & Hs & Hp). eapply (read_spec _ _ _ _ _ _ _ _ p); [apply St_prompt|].
    eapply (triple_seq _ _ _ Live); [|intros _; apply after_checkpoint_spec].
    eapply checkpoint_action_spec; [done..|]. right. split_and!; [|done|done].
    apply existsb_exists in Hex as (k & Hin & ->%String.eqb_eq). simpl in Hin. naive_solver.
Qed.

(** ** A turn *)

(** The loop stops after a turn that is done, and goes on from a live execution. *)
Definition Turned (r : turn_answer) : exec W → Prop :=
  match r.1.2 with promptTurnDone => Hist | _ => Live end.

Lemma turn_of_action_spec m :
  triple Live m Ended Hist → triple Live (let! r := m in pure (turn_of_action r)) Turned Hist.
Proof using Type.
  intros Hm. eapply triple_bind; [exact Hm|]. intros r. apply triple_pure. by destruct r as [[]|].
Qed.

Lemma turn_tools_spec snapshot turn response (call : providerCall) :
  triple Live
    (let! tools := attempt (executeTools snapshot turn (default [] (mr_ToolCalls response)) (pv_tools call)
                      (inv_ID (pv_invocation call)) (pv_name call)) in
     match tools with
     | Err err => let! '(r, err) := finishWithError CauseHookError err in pure (r, promptTurnDone, Some err)
     | Ok (toolResults, interrupted) =>
         if (interrupted : bool) then
           do! checkpointQueuedContext snapshot contextInjectionBeforeProvider;
           let! s := read x_session in
           if last_turn s turn then
             let! r := applyAction snapshot (stopAction maxTurnsCause) in pure (turn_of_action r)
           else pure (zeroResult, promptTurnAdvance, None)
         else
           let! action := decide snapshot turn response toolResults in
           let! r := applyAction snapshot action in
           pure (turn_of_action r)
     end) Turned Hist.
Proof using HostLaws0 Heid PayloadCodecLaws0.
  eapply (triple_bind _ _ _ (λ r, match r with Ok _ => Live | Err _ => Hist end)).
  { eapply triple_attempt; [apply executeTools_Live|done|done]. }
  intros [[results interrupted]|err].
  - destruct interrupted.
    + eapply (triple_seq _ _ _ Live); [apply queued_Live|]. intros _. apply read_Live. intros s.
      destruct (last_turn s turn); [|by apply triple_pure]. apply turn_of_action_spec, applyAction_spec.
    + eapply (triple_seq _ _ _ Live); [apply decide_Live|]. intros action.
      apply turn_of_action_spec, applyAction_spec.
  - eapply (triple_seq _ _ _ Hist); [apply finishWithError_Hist|]. intros [r e]. by apply triple_pure.
Qed.

Lemma Answered_Hist r x : Answered r x → Hist x.
Proof using Type. intros (s & p & h & b & Hx & Ho & Hs & _). by eapply St_Hist. Qed.

Lemma provider_interrupted_Answered answer E :
  triple (Answered answer) provider_interrupted (λ _, Answered answer) E.
Proof using HostLaws0.
  intros x (s & p & h & b & Hx & Hrest). revert x Hx.
  change (triple (St s p h b) provider_interrupted (λ _, Answered answer) E).
  eapply (read_spec _ _ _ _ _ _ _ _ s); [apply St_session|]. destruct (is_empty (ls_executionID s)).
  - apply triple_pure. intros x Hx. by exists s, p, h, b.
  - apply ask_value_spec. intros a x Hx. by exists s, p, h, b.
Qed.

(** Dropping the answer leaves a live execution: either the branch has no answer, or the history says
    that it does. *)
Lemma drop_answer_Live answer E : triple (Answered answer) (modify (set_history dropped)) (λ _, Live) E.
Proof using Type.
  intros x (s & p & h & b & Hx & Ho & Hs & Hcase). revert x Hx.
  change (triple (St s p h b) (modify (set_history dropped)) (λ _, Live) E).
  apply modify_history_spec. intros x Hx. eapply St_Live; [|exact Hx].
  split_and!; [done|by apply saved_ok_dropped|]. intros [Hd Ha]%orb_false_iff.
  rewrite Ha in Hcase. by apply Hcase.
Qed.

Lemma record_answer_Live turn response E :
  triple (Answered (Ok response))
    (modify (set_prompt (λ p, set_result (record_response turn response)
       (set_messages (px_messages p ++ [assistantMessage response]) p)))) (λ _, Live) E.
Proof using Type.
  intros x (s & p & h & b & Hx & Ho & Hs & Hcase). revert x Hx.
  change (triple (St s p h b) (modify (set_prompt (λ p, set_result (record_response turn response)
       (set_messages (px_messages p ++ [assistantMessage response]) p)))) (λ _, Live) E).
  apply modify_prompt_spec. intros x Hx. eapply St_Live; [|exact Hx]. split_and!; [done..|]. simpl.
  destruct (hs_answered h); [|by destruct (proj2 Hcase response)].
  destruct Hcase as (r & Hp & Heq). by rewrite (Heq _ eq_refl).
Qed.

Lemma turn_body_spec turn : triple Live (turn_body turn) Turned Hist.
Proof using HostLaws0 Heid PayloadCodecLaws0.
  unfold turn_body. eapply (triple_seq _ _ _ Live); [apply ask_Live|]. intros snapshot.
  eapply (triple_seq _ _ _ Live); [by apply modify_prompt_Live|]. intros _.
  eapply (triple_seq _ _ _ Live); [apply queued_Live|]. intros _.
  eapply (triple_seq _ _ _ Live); [apply prepareProviderCall_Live|]. intros call.
  eapply triple_bind; [apply callProvider_spec|]. intros answer.
  eapply (triple_seq _ _ _ (Answered answer)); [apply provider_interrupted_Answered|]. intros interrupted.
  destruct interrupted.
  { eapply (triple_seq _ _ _ Live); [apply drop_answer_Live|]. intros _.
    eapply (triple_seq _ _ _ Live); [apply queued_Live|]. intros _. by apply triple_pure. }
  destruct answer as [response|err].
  - eapply (triple_seq _ _ _ Live); [apply record_answer_Live|]. intros _. apply turn_tools_spec.
  - eapply (triple_seq _ _ _ Hist).
    { eapply triple_weaken; [apply finishWithError_Hist|apply Answered_Hist|done|done]. }
    intros [r e]. by apply triple_pure.
Qed.

(** ** The loop *)

Lemma set_world_Live {A} (r : request A) x : Live x → Live (set_world (h_handle r (x_world x)).2 x).
Proof using HostLaws0.
  intros (s & p & h & b & Hx & Hg). destruct (h_handle r (x_world x)) as [a w] eqn:Hr.
  eapply St_Live; [done|]. by eapply St_handle.
Qed.

Lemma runTurnsFrom_Hist fuel turn x : Live x → Hist (runTurnsFrom fuel turn x).2.
Proof using HostLaws0 Heid PayloadCodecLaws0.
  revert turn x. induction fuel as [|fuel IH]; intros turn x Hx; cbn [runTurnsFrom];
    destruct (negb _); try (by apply Live_Hist).
  pose proof (set_world_Live RCtxErr x Hx) as Hx'.
  destruct (h_handle RCtxErr (x_world x)) as [[err|] w]; simpl in Hx'.
  { apply Live_Hist in Hx'. eapply (modify_Hist (set_end _) (λ _, False)); done. }
  unfold executeTurn. pose proof (turn_body_spec turn _ Hx') as Ht.
  destruct (turn_body turn (set_world w x)) as [[[[r tr] err]|e] x2]; [|exact Ht]. unfold Turned in Ht. simpl in Ht.
  assert (Hist x2) as Hh by (destruct tr; [by apply Live_Hist..|done]).
  destruct err; [done|]. destruct tr; [| |done].
  all: pose proof (set_world_Live RDrainRequested x2 Ht) as Hx2;
    destruct (h_handle RDrainRequested (x_world x2)) as [d w2]; simpl in Hx2; destruct d; [|by apply IH].
  all: apply Live_Hist in Hx2;
    refine (modify_Hist (λ x, set_session (λ s, applyMessageProjection s (px_messages (x_prompt x))) x)
              (λ _, False) _ _ Hx2); done.
Qed.

(** ** The start *)

(** An accepted execution: the branch of its head has no checkpoint of it. *)
Definition Accepted (x : exec W) : Prop :=
  ∃ s p h b, St s p h b x ∧ owns s ∧ hs_saved h = None ∧ saved_ok h b ∧ ∃ ms, replay_branch id [] b = Ok ms.

Lemma start_spec : triple Accepted start_prompt Ended Hist.
Proof using HostLaws0 Heid PayloadCodecLaws0.
  intros x (s & p & h & b & Hx & Ho & Hn & Hs & ms & Hms). revert x Hx.
  change (triple (St s p h b) start_prompt Ended Hist). unfold start_prompt.
  assert (∀ p x, St s p h b x → Hist x) as HH by (intros; by eapply St_Hist).
  eapply (triple_seq _ _ _ (St s p h b)); [apply ask_spec; eauto|]. intros snapshot.
  eapply (read_spec _ _ _ _ _ _ _ _ p); [apply St_prompt|].
  eapply (triple_seq _ _ _ (St s p h b)); [apply ask_spec; eauto|]. intros [before d].
  set (p1 := set_system (sp_System before) (set_messages (CloneMessages (sp_Messages before)) p)).
  eapply (triple_seq _ _ _ (St s p1 h b)); [by apply modify_prompt_spec|]. intros _.
  eapply (read_spec _ _ _ _ _ _ _ _ p1); [apply St_prompt|].
  assert (cloned ms) as Hcl by (eapply replay_cloned; [apply cloned_nil|done]).
  destruct (dr_Block d) as [block|].
  - eapply (triple_seq _ _ _ Live).
    { apply checkpoint_spec; [done| |eauto]. intros e s' x He Ho' Hx. eapply St_Live; [|exact Hx].
      match type of He with context [checkpoint_payload _ ?c] => set (commit := c) in * end.
      assert (projects h (b ++ [e]) (canons (px_messages p1))) as Hp.
      { eapply projects_snoc; [by intros _|]. intros _. rewrite (step_snapshot_checkpoint _ _ _ _ Hcl _ He) by done.
        simpl. by rewrite canons_clone. }
      split_and!; [done| |done]. eapply saved_ok_checkpoint; [done|by left|done]. }
    intros _. eapply (triple_seq _ _ _ Hist); [apply finish_prompt_Hist|]. intros r. by apply triple_pure.
  - eapply (triple_seq _ _ _ Live); [|intros; by apply triple_pure].
    apply append_event_spec; [done| |eauto]. intros e hd x He Hx. eapply St_Live; [|exact Hx].
    split_and!; [done|apply saved_ok_snoc; [by rewrite (proj1 He)|done]|].
    eapply projects_snoc; [by intros _|]. intros _. by rewrite (step_start _ _ _ _ Hcl _ He).
Qed.

Lemma runFromStart_Hist fuel x : Accepted x → Hist (runFromStart fuel x).2.
Proof using HostLaws0 Heid PayloadCodecLaws0.
  intros Hx. unfold runFromStart. pose proof (start_spec x Hx) as Hs.
  destruct (start_prompt x) as [[[r|]|e] x']; [done| |done]. by apply runTurnsFrom_Hist.
Qed.
End invariant.

(** ** What survives an agent execution: from every point where it can stop, the trajectory restores the
    execution as of its last checkpoint. *)

(** ** Reading the last checkpoint *)

Lemma find_skip {A} (f : A → bool) l1 a l2 :
  Forall (λ x, f x = false) l1 → f a = true → findb f (l1 ++ a :: l2) = Some a.
Proof. intros H Ha. induction H as [|x l1 Hx _ IH]; simpl; [by rewrite Ha|]. by rewrite Hx. Qed.

Lemma readable_head st id head b : readable st id head b → b ≠ [] → head ≠ "".
Proof.
  intros (_ & _ & Hch) Hb ->. destruct (reverse b) as [|e k] eqn:Hk; [|by inversion Hch].
  apply Hb. by rewrite <-(reverse_involutive b), Hk.
Qed.

Lemma readable_FindLatest st id head b kind :
  readable st id head b → ValidateTrajectoryKind kind = Ok tt →
  tstore_FindLatest st None id head kind = Ok (findb (λ e, bool_decide (te_Kind e = kind)) (reverse b)).
Proof. intros ((l & Hb & Hall) & [t Ht] & Hch). by eapply FindLatest_chain. Qed.

Section latest.
Context `{!PayloadCodec} `{!PayloadCodecLaws _}.
Context (id eid : string) (st : memoryTrajectoryStore) (metadata : TrajectoryMetadata) (ex : TrajectoryExecution).
Context (Hid : tm_ID metadata = id) (Hex : tm_Execution metadata = Some ex) (Heid : ex_ID ex = eid).

(** The execution a checkpoint restores: what JSON keeps of the execution that committed it. *)
Definition restores (commit : trajectoryCheckpointCommit) (entry : TrajectoryEntry) (checkpoint : Checkpoint) : Prop :=
  let p := recovered_prompt entry checkpoint in
  px_messages p = canons (ck_Messages commit) ∧ px_system p = json_text (ck_System commit) ∧
  px_dependencies p = json_text <$> ck_Dependencies commit ∧
  rl_Turns (px_result p) = rl_Turns (ck_Result commit) ∧
  rl_ToolCalls (px_result p) = rl_ToolCalls (ck_Result commit) ∧
  rl_InputTokens (px_result p) = rl_InputTokens (ck_Result commit) ∧
  rl_OutputTokens (px_result p) = rl_OutputTokens (ck_Result commit) ∧
  cp_Action checkpoint = canon_action json_text json_raw (CloneAction (ck_Action commit)).

Lemma saved_checkpoint_found b commit :
  readable st id (tm_Head metadata) b → holds_checkpoint id eid b commit True →
  ∃ b1 e b2 checkpoint, b = b1 ++ e :: b2 ∧ LatestExecutionCheckpoint st None metadata = Ok (Some (e, checkpoint)) ∧
    restores commit e checkpoint ∧ cp_Turns checkpoint = rl_Turns (ck_Result commit) ∧
    (∃ s, entry_of eid e TrajectoryKindCheckpoint (PCheckpoint (checkpoint_payload s commit))) ∧
    (ck_MessageMode commit = CheckpointMessagesSnapshot ∨ ck_MessageMode commit = CheckpointMessagesBranch) ∧
    replay_branch id [] (b1 ++ [e]) = Ok (canons (ck_Messages commit)).
Proof using PayloadCodecLaws0 Hid Hex Heid.
  intros Hb (b1 & e & b2 & s & -> & He & Hmode & Hb2 & Hr). specialize (Hr I). exists b1, e, b2.
  pose proof Hmode as Hmode'. pose proof (ex_intro (λ s, entry_of eid e _ (PCheckpoint (checkpoint_payload s commit))) s He) as He'.
  destruct (decode_checkpoint id eid e _ He Hmode) as [Hd Hm].
  pose proof (readable_head _ _ _ _ Hb) as Hne. unfold LatestExecutionCheckpoint. rewrite Hex.
  rewrite (proj2 (is_empty_false _)) by (apply Hne; by destruct b1).
  rewrite Hid, (readable_FindLatest _ _ _ _ _ Hb) by done. rewrite reverse_app, reverse_cons, <-app_assoc. simpl.
  rewrite find_skip; [|apply Forall_reverse; eapply Forall_impl; [exact Hb2|];
    intros x Hx; by apply bool_decide_eq_false_2|by apply bool_decide_eq_true_2, He].
  cbn [result_bind]. rewrite Heid, (proj2 (proj2 He)), bool_decide_eq_true_2 by done. simpl.
  rewrite Hd. cbn [result_bind]. unfold HydrateCheckpointMessages. rewrite Hm.
  pose proof (readable_prefix _ _ _ _ _ _ Hb) as Hbe. simpl.
  destruct Hmode as [Hmode|Hmode]; rewrite Hmode; simpl.
  - eexists. split_and!; [done|done| |done|done|by auto|done].
    unfold restores, recovered_prompt, resultFromCheckpoint, decoded. simpl.
    rewrite Hmode. simpl. rewrite canons_clone, !canons_cloned. done.
  - unfold LoadBranchMessages. rewrite (proj2 (is_empty_false _)) by (eapply readable_head; [done|by destruct b1]).
    rewrite (readable_LoadBranch _ _ _ _ Hbe). simpl. rewrite (BranchMessages_replay _ _ _ Hr). simpl.
    eexists. split_and!; [done|done| |done|done|by auto|done].
    unfold restores, recovered_prompt, resultFromCheckpoint, decoded. simpl.
    rewrite !canons_cloned. done.
Qed.

Lemma no_checkpoint_found b :
  readable st id (tm_Head metadata) b →
  Forall (λ e, te_Kind e = TrajectoryKindCheckpoint → tf_ExecutionID (te_Fields e) ≠ eid) b →
  LatestExecutionCheckpoint st None metadata = Ok None.
Proof using Hid Hex Heid.
  intros Hb Hno. unfold LatestExecutionCheckpoint. rewrite Hex. destruct (is_empty _); [done|].
  rewrite Hid, (readable_FindLatest _ _ _ _ _ Hb) by done. simpl.
  destruct (findb _ _) as [e|] eqn:Hf; [|done]. apply List.find_some in Hf as [Hin Hk%bool_decide_eq_true].
  assert (tf_ExecutionID (te_Fields e) ≠ ex_ID ex) as Hne.
  { rewrite Heid. rewrite Forall_forall in Hno. apply Hno; [|done]. by apply elem_of_reverse, list_elem_of_In. }
  simpl. by rewrite (bool_decide_eq_false_2 (tf_ExecutionID (te_Fields e) = ex_ID ex)).
Qed.
End latest.

