(* ===== verification/Recovery.v ===== *)
(** Recovery of an execution: whatever stops an execution, and however often, recovery restores it as of
    its last checkpoint and leaves it where it can be recovered again. *)
From S2P Require Import Prelude GoText Names Invocation Operation Paging Message ContextInjection Trajectory Agent Lineage Registrar.
From S2P Require Import Composition EventDispatch TrajectoryBranch TrajectoryStore TrajectoryInvariant TrajectoryHistory TrajectoryProperties Payload Durability DurabilityProperties SessionState PromptHost.
From S2P Require Import SessionTrajectory ToolCalls PromptExecution ExecutionCompletion PromptLaws PromptInvariant.

(** ** Branches *)

Lemma readable_det st id head b b' : readable st id head b → readable st id head b' → b = b'.
Proof.
  intros (_ & _ & H) (_ & _ & H'). rewrite <-(reverse_involutive b), <-(reverse_involutive b').
  f_equal. by eapply chain_det.
Qed.

(** The entry of the head is the last of its branch. *)
Lemma readable_last st id head b e :
  readable st id head b → head ≠ "" → entryLocked st id head = Ok (Some e) →
  ∃ b', b = b' ++ [e] ∧ readable st id (te_ParentID e) b'.
Proof.
  intros (Hwf & Hs & Hch) Hne He. inversion Hch as [|? e' k ? He' Hk Hhd Hb]; subst; [done|].
  assert (e' = e) as -> by congruence. exists (reverse k).
  assert (b = reverse k ++ [e]) as -> by (rewrite <-(reverse_involutive b), <-Hb; apply reverse_cons).
  split; [done|]. split_and!; [done..|]. by rewrite reverse_involutive.
Qed.

(** An entry that moves the head. *)
Definition head_move (e : TrajectoryEntry) : Prop :=
  te_Kind e = TrajectoryKindRestore ∨ te_Kind e = TrajectoryKindRollback.

(** A branch restores another: it is the other, with at most a move of the head to it. *)
Definition restored (b0 b : list TrajectoryEntry) : Prop := b = b0 ∨ ∃ e, head_move e ∧ b = b0 ++ [e].

Lemma HeadRestoresAnchor_restored st id head b anchor b0 :
  readable st id head b → readable st id anchor b0 → HeadRestoresAnchor st None id head anchor = Ok true →
  restored b0 b.
Proof.
  intros Hb H0. unfold HeadRestoresAnchor. destruct (is_empty head) eqn:Hh.
  { intros [= Ha]. apply is_empty_true in Hh as ->. apply is_empty_true in Ha as ->. left. by eapply readable_det. }
  apply is_empty_false in Hh. case_bool_decide as Heq; [intros _; subst; left; by eapply readable_det|].
  unfold tstore_LoadEntry. simpl. destruct (ValidateResourceName _ _); [|done]. simpl.
  destruct (entryLocked st id head) as [[e|]|] eqn:He; [|done..]. simpl.
  intros [= [Hk Hp]%andb_true_iff]. apply bool_decide_eq_true in Hp as <-.
  destruct (readable_last _ _ _ _ _ Hb Hh He) as (b' & -> & Hb'). right. exists e.
  split; [|f_equal; by eapply readable_det].
  apply orb_true_iff in Hk as [Hk%bool_decide_eq_true|Hk%bool_decide_eq_true]; [by left|by right].
Qed.

Section recovery.
Context {W : Type} `{!AgentHost W} `{!PayloadCodec} `{!PayloadCodecLaws _} `{!MapOrder}.
Context (id eid : string) `{!HostLaws (W := W) id} (Heid : eid ≠ "").

Abbreviation St := (St (W := W) id).
Abbreviation Live := (Live (W := W) id eid).
Abbreviation Hist := (Hist (W := W) id eid).
Abbreviation Accepted := (Accepted (W := W) id eid).
Abbreviation owns := (owns id eid).

Lemma canon_idem m : canon (canon m) = canon m.
Proof using PayloadCodecLaws0.
  destruct m as [role content calls tid err]. unfold canon_message. simpl. rewrite !json_text_idem. f_equal.
  { destruct role; simpl; [done..|by rewrite json_text_idem]. }
  destruct calls as [[|call calls]|]; [done| |done]. unfold canon_calls. simpl.
  assert (∀ c, canon_call json_text json_raw (canon_call json_text json_raw c) = canon_call json_text json_raw c) as Hc.
  { intros c. unfold canon_call. simpl. rewrite !json_text_idem. f_equal. unfold canon_arguments at 1.
    rewrite canon_arguments_clone. unfold canon_arguments.
    destruct (clone_bytes (tc_Arguments c)); [by rewrite json_raw_idem|]. by rewrite ?json_raw_null. }
  rewrite Hc. do 2 f_equal. rewrite <-list_fmap_compose. apply list_fmap_ext. intros i c' _. apply Hc.
Qed.

Lemma canons_idem (ms : list Message) : canons (canons ms) = canons ms.
Proof using PayloadCodecLaws0. rewrite <-list_fmap_compose. apply list_fmap_ext. intros i m _. apply canon_idem. Qed.

(** ** Moving the head back *)

Lemma read_store_spec {A} (f : memoryTrajectoryStore → result A) s p h b (Q : A → exec W → Prop) E :
  (∀ a x, f (h_store (x_world x)) = Ok a → St s p h b x → Q a x) → (∀ x, St s p h b x → E x) →
  triple (St s p h b) (read_store f) Q E.
Proof using Type.
  intros HQ HE x Hx. unfold read_store. destruct (f (h_store (x_world x))) as [a|err] eqn:Hf; auto.
Qed.

Lemma head_move_spec s p h b snapshot tid target :
  triple (St s p h b) (prepareTrajectoryHeadMove snapshot tid (ls_head s) target TrajectoryKindRestore)
    (λ r x, let entry := hm_Entry r.1 in
       (te_ID entry ≠ "" ∧ te_ParentID entry = target ∧ te_Kind entry = TrajectoryKindRestore) ∧ St s p h b x)
    (St s p h b).
Proof using HostLaws0.
  unfold prepareTrajectoryHeadMove, newTrajectoryHeadMove, newPayloadTrajectoryEntry.
  eapply (triple_bind _ _ _ (λ move x, (te_ID (hm_Entry move) ≠ "" ∧ te_ParentID (hm_Entry move) = target ∧
    te_Kind (hm_Entry move) = TrajectoryKindRestore) ∧ St s p h b x)).
  { eapply (triple_bind _ _ _ (λ entry x, (te_ID entry ≠ "" ∧ te_ParentID entry = target ∧
      te_Kind entry = TrajectoryKindRestore) ∧ St s p h b x)).
    - eapply (triple_bind _ _ _ (λ fresh x, fresh.1 ≠ "" ∧ St s p h b x)); [by eapply fresh_spec|].
      intros fresh. apply triple_prop. intros Hne.
      destruct (Marshal_payload _); [|by apply triple_throw]. by apply triple_pure.
    - intros entry. by apply triple_pure. }
  intros move. apply triple_prop. intros Hm.
  eapply (triple_seq _ _ _ (St s p h b)); [by apply triple_lift|]. intros event.
  eapply (triple_seq _ _ _ (St s p h b)); [by eapply ask_spec|]. intros _. by apply triple_pure.
Qed.

Lemma restore_head_spec s p h b1 e b2 :
  owns s →
  triple (St s p h (b1 ++ e :: b2)) (restoreExecutionHead None (te_ID e))
    (λ _ x, ∃ hd b', restored (b1 ++ [e]) b' ∧ St (with_head s hd) p h b' x)
    (St s p h (b1 ++ e :: b2)).
Proof using HostLaws0 Heid.
  intros Ho. pose proof Ho as (Hid & Hex & Htok). set (b := b1 ++ e :: b2). unfold restoreExecutionHead.
  eapply (read_spec _ _ _ _ _ _ _ _ _ s); [apply St_session|]. rewrite Hid.
  assert (∀ x, St s p h b x → readable (h_store (x_world x)) id (te_ID e) (b1 ++ [e])) as Hpre.
  { intros x (_ & _ & _ & Hb). by eapply readable_prefix. }
  eapply (triple_bind _ _ _ (λ move x, (move = false → restored (b1 ++ [e]) b) ∧ St s p h b x)).
  { unfold trajectoryHeadNeedsMove. case_bool_decide as Heq.
    - apply triple_pure. intros x Hx. split; [intros _; left|done]. eapply readable_det; [apply Hx|].
      rewrite Heq. by apply Hpre.
    - eapply (triple_bind _ _ _ (λ r x, (r = true → restored (b1 ++ [e]) b) ∧ St s p h b x)).
      + apply read_store_spec; [|done]. intros r x Hr Hx. split; [|done]. intros ->.
        eapply HeadRestoresAnchor_restored; [apply Hx|by apply Hpre|done].
      + intros r. apply triple_prop. intros Hr. apply triple_pure. intros x Hx. split; [|done].
        intros ->%negb_false_iff. auto. }
  intros move. apply triple_prop. intros Hmove. destruct move; simpl.
  2: { apply triple_pure. intros x Hx. exists (ls_head s), b. split; [auto|]. by destruct s. }
  eapply (triple_seq _ _ _ (St s p h b)); [by eapply ask_spec|]. intros snapshot.
  eapply triple_bind; [apply head_move_spec|]. intros [move event]. simpl. apply triple_prop. intros (Hne & Hpar & Hk).
  eapply (triple_bind _ _ _ (λ r x, match r with
    | Ok _ => ∃ hd b', restored (b1 ++ [e]) b' ∧ St (with_head s hd) p h b' x
    | Err _ => St s p h b x end)).
  - eapply triple_attempt; [eapply (commitExecution_spec id eid Heid s p h b (b1 ++ [e])); [done|done|]| |done].
    + intros st Hb. rewrite Hpar. by eapply readable_prefix.
    + simpl. intros _ x (r & Hkr & _ & _ & _ & Hx). exists (te_ID (hm_Entry move)), ((b1 ++ [e]) ++ [r]).
      split; [|exact Hx]. right. exists r. split; [left; congruence|done].
  - intros [u|err]; [by apply triple_pure|by apply triple_throw].
Qed.

(** ** Resuming *)

Lemma restored_replay b0 b ms : restored b0 b → replay_branch id [] b0 = Ok ms → replay_branch id [] b = Ok ms.
Proof using Type.
  intros [->|(e & He & ->)] Hr; [done|]. rewrite replay_app, Hr. simpl.
  rewrite (step_other id ms e); [done| |by destruct He as [->| ->]].
  eapply replay_cloned; [apply cloned_nil|done].
Qed.

Lemma restored_holds b1 e b h commit :
  restored (b1 ++ [e]) b → hs_saved h = Some commit →
  (∃ s, entry_of eid e TrajectoryKindCheckpoint (PCheckpoint (checkpoint_payload s commit))) →
  (ck_MessageMode commit = CheckpointMessagesSnapshot ∨ ck_MessageMode commit = CheckpointMessagesBranch) →
  replay_branch id [] (b1 ++ [e]) = Ok (canons (ck_Messages commit)) → saved_ok id eid h b.
Proof using Type.
  intros Hres Hsv [s He] Hm Hr. unfold saved_ok. rewrite Hsv.
  destruct Hres as [->|(r & Hk & ->)]; [exists b1, e, [], s; by split_and!|].
  exists b1, e, [r], s. rewrite <-app_assoc. split_and!; try done. constructor; [|done].
  by destruct Hk as [->| ->].
Qed.

(** What recovery reads of the trajectory: its metadata, of an execution that has not ended, and the
    entry of the accepted input. *)
Definition recoverable_from (x : exec W) (metadata : TrajectoryMetadata) (input : TrajectoryEntry) : Prop :=
  tm_ID metadata = id ∧ tm_Head metadata = ls_head (x_session x) ∧
  (∃ ex, tm_Execution metadata = Some ex ∧ ex_ID ex = eid) ∧
  ∃ b1 b2 ms, tstore_LoadBranch (h_store (x_world x)) None id (ls_head (x_session x)) = Ok (b1 ++ input :: b2) ∧
    replay_branch id [] (b1 ++ [input]) = Ok ms.

(** The point an execution is recovered at. *)
Definition Resumed (commit : option trajectoryCheckpointCommit) (point : recovery_point) (x : exec W) : Prop :=
  match commit, point with
  | None, RecoverStart => Accepted x
  | Some commit, RecoverTurn turn => Live x ∧ turn = rl_Turns (ck_Result commit)
  | Some commit, RecoverStop _ => Live x
  | _, _ => False
  end.

Lemma resume_checkpoint_spec s p h b1 e b2 commit checkpoint base input :
  owns s → hs_saved h = Some commit →
  (∃ s, entry_of eid e TrajectoryKindCheckpoint (PCheckpoint (checkpoint_payload s commit))) →
  (ck_MessageMode commit = CheckpointMessagesSnapshot ∨ ck_MessageMode commit = CheckpointMessagesBranch) →
  replay_branch id [] (b1 ++ [e]) = Ok (canons (ck_Messages commit)) →
  rb_Head base = te_ID e → rb_Checkpoint base = Some (e, checkpoint) →
  restores commit e checkpoint → cp_Turns checkpoint = rl_Turns (ck_Result commit) →
  saved_ok id eid h (b1 ++ e :: b2) →
  triple (St s p h (b1 ++ e :: b2)) (resume_at None input base) (Resumed (hs_saved h)) Hist.
Proof using HostLaws0 Heid PayloadCodecLaws0.
  intros Ho Hsv He Hm Hr Hhd Hcp (Hmsgs & _) Hturns Hok. unfold resume_at. rewrite Hhd, Hcp.
  eapply (triple_seq _ _ _ (λ x, ∃ hd b', restored (b1 ++ [e]) b' ∧ St (with_head s hd) p h b' x)).
  { eapply triple_weaken; [by apply restore_head_spec|done|done|]. intros x Hx. by eapply St_Hist. }
  intros _. apply triple_exists. intros hd. apply triple_exists. intros b'. apply triple_prop. intros Hres.
  set (s1 := applyCheckpointProjection (with_head s hd) (Some checkpoint)).
  assert (owns s1 ∧ ls_head s1 = hd) as [Ho1 Hhd1].
  { destruct Ho as (Hid & Hex & Htok). unfold s1, applyCheckpointProjection, applyCheckpointConfig, checkpoint_config.
    unfold PromptInvariant.owns. simpl. by destruct (is_empty (cp_Provider checkpoint)). }
  eapply (triple_seq _ _ _ (St s1 p h b')); [by apply modify_session_spec|]. intros _.
  eapply (triple_seq _ _ _ (St s1 (recovered_prompt e checkpoint) h b')); [by apply modify_prompt_spec|]. intros _.
  apply triple_pure. intros x Hx.
  assert (Live x) as HL.
  { eapply St_Live; [|exact Hx]. split_and!; [done|by eapply restored_holds|]. intros _.
    rewrite Hmsgs, canons_idem. by eapply restored_replay. }
  unfold Resumed. rewrite Hsv. by case_bool_decide.
Qed.

Lemma resume_input_spec s p h b1 e b2 ms base input :
  owns s → hs_saved h = None → saved_ok id eid h (b1 ++ e :: b2) → replay_branch id [] (b1 ++ [e]) = Ok ms →
  rb_Head base = te_ID e → rb_Checkpoint base = None →
  triple (St s p h (b1 ++ e :: b2)) (resume_at None input base) (Resumed (hs_saved h)) Hist.
Proof using HostLaws0 Heid.
  intros Ho Hsv Hok Hr Hhd Hcp. unfold resume_at. rewrite Hhd, Hcp.
  eapply (triple_seq _ _ _ (λ x, ∃ hd b', restored (b1 ++ [e]) b' ∧ St (with_head s hd) p h b' x)).
  { eapply triple_weaken; [by apply restore_head_spec|done|done|]. intros x Hx. by eapply St_Hist. }
  intros _. apply triple_exists. intros hd. apply triple_exists. intros b'. apply triple_prop. intros Hres.
  assert (saved_ok id eid h b') as Hok'.
  { unfold saved_ok in *. rewrite Hsv in *. apply Forall_app in Hok as [H1 [H2 _]%Forall_cons].
    assert (Forall (λ e, te_Kind e = TrajectoryKindCheckpoint → tf_ExecutionID (te_Fields e) ≠ eid) (b1 ++ [e])) as H12
      by (apply Forall_app; split; [done|constructor; [done|constructor]]).
    destruct Hres as [->|(r & Hk & ->)]; [done|]. apply Forall_app. split; [done|]. constructor; [|done].
    by destruct Hk as [->| ->]. }
  set (s1 := applyMessageProjection (with_head s hd) (rb_Messages base)).
  assert (∀ x p, St s1 p h b' x → Hist x) as HH by (intros x p' Hx; exact (St_Hist id eid s1 p' h b' x Ho Hok' Hx)).
  eapply (triple_seq _ _ _ (St s1 p h b')); [by apply modify_session_spec|]. intros _.
  eapply (read_spec _ _ _ _ _ _ _ _ _ s1); [apply St_session|].
  destruct (rb_Message base) as [message|]; [|apply triple_throw; eauto].
  destruct (newPromptExecutionFromAcceptedMessages _ _ _) as [p1|err]; [|apply triple_throw; eauto].
  eapply (triple_seq _ _ _ (St s1 p1 h b')); [by apply modify_prompt_spec|]. intros _.
  apply triple_pure. intros x Hx. unfold Resumed. rewrite Hsv. exists s1, p1, h, b'.
  split_and!; try done. eexists. by eapply restored_replay.
Qed.

Lemma resume_spec x metadata input :
  owns (x_session x) → Hist x → hs_dropped (x_history x) = false → recoverable_from x metadata input →
  match resume_execution None metadata input x with
  | (Ok point, x') => Resumed (hs_saved (x_history x)) point x'
  | (Err _, x') => Hist x'
  end.
Proof using HostLaws0 Heid PayloadCodecLaws0.
  intros Ho (s & p & h & b & Hx & Hid & Hsv) Hd (Hmid & Hmh & (ex & Hex & Hexid) & b1 & b2 & ms & Hin & Hr).
  pose proof Hx as (Hs & _ & Hh & Hb). rewrite Hs in *. rewrite Hh in *.
  assert (Hist x) as HH by (by exists s, p, h, b).
  unfold resume_execution, prog_bind at 1, read_store. unfold LoadExecutionRecoveryBase. rewrite Hex.
  destruct (negb _); [done|]. rewrite <-Hmh in Hb. pose proof Hsv as Hsv'. unfold saved_ok in Hsv'.
  destruct (hs_saved h) as [commit|] eqn:Hsaved; rewrite <-Hsaved.
  - assert (holds_checkpoint id eid b commit True) as Hck.
    { destruct Hsv' as (c1 & c & c2 & s' & ? & ? & ? & ? & ?). exists c1, c, c2, s'. split_and!; auto. }
    pose proof Hck as Hck'.
    destruct (saved_checkpoint_found id eid _ metadata ex Hmid Hex Hexid b commit Hb Hck)
      as (c1 & c & c2 & checkpoint & -> & -> & Hres & Hturns & He & Hm & Hrep). simpl.
    eapply (resume_checkpoint_spec s p h c1 c c2 commit checkpoint); done.
  - rewrite (no_checkpoint_found id eid _ metadata ex Hmid Hex Hexid b Hb Hsv'). simpl.
    destruct (LoadAcceptedExecutionInput _ _ _ _ _) as [[messages message]|err]; [|done]. simpl.
    rewrite <-Hmh, (readable_LoadBranch _ _ _ _ Hb) in Hin. injection Hin as ->.
    eapply (resume_input_spec s p h b1 input b2); try done.
Qed.

Lemma continue_Hist fuel x metadata input :
  owns (x_session x) → Hist x → hs_dropped (x_history x) = false → recoverable_from x metadata input →
  Hist (continueRecoveredExecution fuel None metadata input x).2.
Proof using HostLaws0 Heid PayloadCodecLaws0.
  intros Ho Hx Hd Hr. pose proof (resume_spec _ _ _ Ho Hx Hd Hr) as Hres. unfold continueRecoveredExecution.
  destruct (resume_execution None metadata input x) as [[point|err] x']; [|done].
  destruct point as [|turn|cause]; simpl in Hres; destruct (hs_saved _); try done.
  - by eapply runFromStart_Hist.
  - destruct Hres as [Hl _]. by eapply runTurnsFrom_Hist.
  - pose proof (ask_Live id eid RAcquireSnapshot x' Hres) as Ha.
    destruct (ask RAcquireSnapshot x') as [[snapshot|err] x2]; [|done].
    pose proof (finish_prompt_Hist id eid Heid snapshot cause (λ _, False) x2 Ha) as Hf.
    by destruct (finish_prompt snapshot cause x2) as [[r|err] x3].
Qed.

(** ** Lives *)

(** The states an execution of [eid] stops in: the process runs it from its input, and, as often as it
    stops before the execution ends, another process claims it, whose session owns it and starts at the
    head of the trajectory, and continues it.  Between the two the store serves other clients. *)
Inductive stopped : exec W → Prop :=
  | stopped_first fuel x : Accepted x → stopped (runFromStart fuel x).2
  | stopped_again fuel x y metadata input :
      stopped x → hs_dropped (x_history x) = false →
      owns (x_session y) → ls_head (x_session y) = ls_head (x_session x) → x_history y = x_history x →
      runs id (h_store (x_world x)) (h_store (x_world y)) → recoverable_from y metadata input →
      stopped (continueRecoveredExecution fuel None metadata input y).2.

Lemma stopped_Hist x : stopped x → Hist x.
Proof using HostLaws0 Heid PayloadCodecLaws0.
  induction 1 as [fuel x Hx|fuel x y metadata input _ IH Hd Ho Hhd Hh Hruns Hrec]; [by eapply runFromStart_Hist|].
  apply continue_Hist; [done| |congruence|done]. destruct IH as (s & p & h & b & (Hs & Hp & Hhs & Hb) & Hid & Hok).
  exists (x_session y), (x_prompt y), h, b. split_and!; [|apply Ho|done].
  split_and!; [done|done|congruence|]. rewrite Hhd, Hs. by eapply runs_readable.
Qed.

(** What the trajectory restores of a stopped execution. *)
Lemma stopped_recovers x st metadata ex :
  stopped x → hs_dropped (x_history x) = false → runs id (h_store (x_world x)) st →
  tm_ID metadata = id → tm_Head metadata = ls_head (x_session x) → tm_Execution metadata = Some ex → ex_ID ex = eid →
  match hs_saved (x_history x) with
  | None => LatestExecutionCheckpoint st None metadata = Ok None
  | Some commit => ∃ e checkpoint,
      LatestExecutionCheckpoint st None metadata = Ok (Some (e, checkpoint)) ∧ restores commit e checkpoint
  end.
Proof using HostLaws0 Heid PayloadCodecLaws0.
  intros Hst Hd Hruns Hid Hhd Hex Hexid.
  destruct (stopped_Hist _ Hst) as (s & p & h & b & (Hs & Hp & Hh & Hb) & _ & Hok). rewrite Hh in *.
  apply (runs_readable _ _ _ _ _ Hruns) in Hb. rewrite <-Hs, <-Hhd in Hb. unfold saved_ok in Hok.
  destruct (hs_saved h) as [commit|]; [|by eapply no_checkpoint_found].
  destruct (saved_checkpoint_found id eid st metadata ex Hid Hex Hexid b commit Hb)
    as (b1 & e & b2 & checkpoint & _ & Hl & Hres & _); [|by exists e, checkpoint].
  destruct Hok as (c1 & c & c2 & s' & ? & ? & ? & ? & ?). exists c1, c, c2, s'. split_and!; auto.
Qed.
End recovery.

(** C2. Recovery is exact, as long as no interrupt made the loop drop an answer of the provider that the trajectory
    already holds ([hs_dropped]; [interrupted_answer_stays_in_branch] shows what happens when one does).  However
    an execution without such a drop stops - an error, a drain, or a crash at the start of any turn - and however
    often it was recovered before, the trajectory still restores it as of the last checkpoint it committed: its
    messages up to what JSON keeps of them, its system prompt, its dependencies, its counters and its action; an
    execution that committed no checkpoint has none and starts from its input.  Other clients of the store may
    have run in between. *)
Theorem execution_recovery_exact {W} `{!AgentHost W} `{!PayloadCodec} `{!PayloadCodecLaws _} `{!MapOrder} (id eid : string)
    `{!HostLaws (W := W) id} (x : exec W) st metadata ex :
  eid ≠ "" → stopped id eid x → hs_dropped (x_history x) = false → runs id (h_store (x_world x)) st →
  tm_ID metadata = id → tm_Head metadata = ls_head (x_session x) → tm_Execution metadata = Some ex → ex_ID ex = eid →
  match hs_saved (x_history x) with
  | None => LatestExecutionCheckpoint st None metadata = Ok None
  | Some commit => ∃ e checkpoint,
      LatestExecutionCheckpoint st None metadata = Ok (Some (e, checkpoint)) ∧ restores commit e checkpoint
  end.
Proof. intros Heid. by apply stopped_recovers. Qed.

(** ** What a failed execution leaves behind: the head of the trajectory is back on the branch the execution
    started from, and so is the conversation of the session. *)

(** ** Reading a branch that a move of the head ends *)

Lemma LoadBranch_readable st id head b :
  tstore_wf st → tstore_LoadBranch st None id head = Ok b → readable st id head b.
Proof.
  intros (l & Hb & Hall) H. unfold tstore_LoadBranch in H. simpl in H.
  destruct (branchLocked_chain _ _ _ _ _ Hb Hall H) as (Hs & k & Hk & ->).
  split_and!; [by exists l|done|]. by rewrite reverse_involutive.
Qed.

Section messages.
Context `{!PayloadCodec}.

Lemma snapshot_loop_after id rev after :
  snapshot_loop id rev after = let? r := snapshot_loop id rev [] in Ok (r.1, r.2 ++ after).
Proof.
  assert (∀ rev a b, snapshot_loop id rev (a ++ b) = let? r := snapshot_loop id rev a in Ok (r.1, r.2 ++ b)) as Hgen.
  { clear -id. induction rev as [|e rev IH]; intros a b; simpl; [done|].
    destruct (negb _); [by rewrite app_comm_cons, IH|]. destruct (DecodeCheckpoint id e); simpl; [|done].
    case_bool_decide; simpl; [done|]. by rewrite app_comm_cons, IH. }
  apply (Hgen rev []).
Qed.

Lemma BranchMessages_move id b e ms :
  head_move e → BranchMessages id b = Ok ms → BranchMessages id (b ++ [e]) = Ok ms.
Proof.
  intros He. unfold BranchMessages. rewrite reverse_snoc. simpl.
  rewrite bool_decide_eq_false_2 by (by destruct He as [->| ->]). simpl.
  rewrite (snapshot_loop_after _ _ [e]). destruct (snapshot_loop id (reverse b) []) as [[m es]|]; [|done]. simpl.
  rewrite replay_app. destruct (replay_branch id m es) as [ms'|]; [|done]. simpl. intros [= <-].
  assert (branchMessagesAfterEntry id ms' e = Ok (CloneMessages ms')) as ->
    by (unfold branchMessagesAfterEntry; by destruct He as [->| ->]).
  simpl. by rewrite CloneMessages_idem.
Qed.

Lemma LoadBranchMessages_readable st id head b :
  readable st id head b → LoadBranchMessages st None id head = BranchMessages id b.
Proof.
  intros Hb. unfold LoadBranchMessages. destruct (is_empty head) eqn:Hh.
  - apply is_empty_true in Hh as ->. destruct b as [|e b]; [done|]. by destruct (readable_head _ _ _ _ Hb).
  - rewrite (readable_LoadBranch _ _ _ _ Hb). done.
Qed.
End messages.

(** ** The unwinding *)

Section unwind.
Context {W : Type} `{!AgentHost W} `{!PayloadCodec}.
Context (id : string) `{!HostLaws (W := W) id}.

(** The session, and a branch that the calls of the host keep. *)
Definition Fr (s : session) (head : string) (b : list TrajectoryEntry) (x : exec W) : Prop :=
  x_session x = s ∧ readable (h_store (x_world x)) id head b.

Lemma Fr_handle {A} (r : request A) s hd b x w a : Fr s hd b x → h_handle r (x_world x) = (a, w) → Fr s hd b (set_world w x).
Proof using HostLaws0.
  intros (Hs & Hb) Hr. split; [done|]. eapply runs_readable; [|done]. simpl.
  replace w with (h_handle r (x_world x)).2 by (by rewrite Hr). apply law_runs.
Qed.

Lemma Fr_ask {A} (r : request (result A)) s hd b : triple (Fr s hd b) (ask r) (λ _, Fr s hd b) (Fr s hd b).
Proof using HostLaws0.
  intros x Hx. unfold ask. destruct (h_handle r (x_world x)) as [[a|e] w] eqn:Hr; by eapply Fr_handle.
Qed.

Lemma Fr_ask_value {A} (r : request A) s hd b E : triple (Fr s hd b) (ask_value r) (λ _, Fr s hd b) E.
Proof using HostLaws0.
  intros x Hx. unfold ask_value. destruct (h_handle r (x_world x)) as [a w] eqn:Hr. by eapply Fr_handle.
Qed.

Lemma Fr_read_session {B} s hd b (k : session → prog (exec W) B) Q E :
  triple (Fr s hd b) (k s) Q E → triple (Fr s hd b) (prog_bind (read x_session) k) Q E.
Proof using Type. intros Hk x Hx. unfold prog_bind, read. rewrite (proj1 Hx). by apply Hk. Qed.

Lemma Fr_prepare_events s hd b snapshot events :
  triple (Fr s hd b) (prepare_events snapshot events) (λ _, Fr s hd b) (Fr s hd b).
Proof using HostLaws0.
  induction events as [|e events IH]; simpl; [by apply triple_pure|].
  eapply (triple_seq _ _ _ (Fr s hd b)); [apply Fr_ask|]. by intros _.
Qed.

(** The entries of a completion that restores the base end with the move to it. *)
Definition ends_restored (base : string) (entries : list TrajectoryEntry) : Prop :=
  ∃ entry, last entries = Some entry ∧ te_ParentID entry = base ∧ te_Kind entry = TrajectoryKindRestore.

Lemma Fr_completion s hd b spec :
  cs_RestoreHead spec = true →
  triple (Fr s hd b) (newExecutionCompletionEntries (ask_value RFresh) spec)
    (λ completion x, ends_restored (cs_BaseHead spec) (ce_Entries completion) ∧ Fr s hd b x) (Fr s hd b).
Proof using HostLaws0.
  intros Hr. unfold newExecutionCompletionEntries. rewrite Hr.
  assert (∀ parent kind gen at_ p, triple (Fr s hd b) (newPayloadTrajectoryEntry (ask_value RFresh) parent kind gen at_ p)
    (λ entry x, (te_ParentID entry = parent ∧ te_Kind entry = kind) ∧ Fr s hd b x) (Fr s hd b)) as Hentry.
  { intros parent kind gen at_ p. unfold newPayloadTrajectoryEntry.
    eapply (triple_seq _ _ _ (Fr s hd b)); [apply Fr_ask_value|]. intros fresh.
    destruct (Marshal_payload p); [by apply triple_pure|by apply triple_throw]. }
  eapply (triple_seq _ _ _ (Fr s hd b)).
  { destruct (cs_End spec) as [end_|]; [|by apply triple_pure]. unfold agentEndTrajectoryEntry.
    eapply (triple_seq _ _ _ (Fr s hd b)); [|intros; by apply triple_pure].
    eapply triple_bind; [apply Hentry|]. intros entry. apply triple_pure. by intros x [_ ?]. }
  intros terminal.
  eapply (triple_bind _ _ _ (λ move x, (∃ m, move = Some m ∧ te_ParentID (hm_Entry m) = cs_BaseHead spec ∧
    te_Kind (hm_Entry m) = TrajectoryKindRestore) ∧ Fr s hd b x)).
  { unfold executionRestoreHeadMove, newTrajectoryHeadMove.
    eapply (triple_bind _ _ _ (λ m x, (te_ParentID (hm_Entry m) = cs_BaseHead spec ∧
      te_Kind (hm_Entry m) = TrajectoryKindRestore) ∧ Fr s hd b x)).
    - eapply (triple_bind _ _ _ (λ m x, (te_ParentID (hm_Entry m) = cs_BaseHead spec ∧
        te_Kind (hm_Entry m) = TrajectoryKindRestore) ∧ Fr s hd b x)).
      + eapply triple_bind; [apply Hentry|]. intros entry. by apply triple_pure.
      + intros m. by apply triple_pure.
    - intros m. apply triple_pure. intros x [Hm Hx]. split; [by exists m|done]. }
  intros move. apply triple_prop. intros (m & -> & Hp & Hk). apply triple_pure. intros x Hx. split; [|done].
  exists (hm_Entry m). simpl. by rewrite last_snoc.
Qed.

Lemma Fr_plan s hd b metadata base outcome cause r :
  fo_recordTerminal outcome = true → fo_restoreHead outcome = true →
  triple (Fr s hd b) (prepareExecutionFailurePlan metadata base outcome cause r)
    (λ plan x, ends_restored (bb_Head base) plan.1 ∧ Fr s hd b x) (Fr s hd b).
Proof using HostLaws0.
  intros Ht Hr. unfold prepareExecutionFailurePlan. apply Fr_read_session.
  eapply (triple_seq _ _ _ (Fr s hd b)); [apply Fr_ask_value|]. intros [fid now]. rewrite Ht, Hr.
  eapply (triple_seq _ _ _ (Fr s hd b)); [apply Fr_ask|]. intros snapshot.
  eapply triple_bind; [by apply Fr_completion|]. intros completion. apply triple_prop. intros He.
  eapply (triple_seq _ _ _ (Fr s hd b)); [by apply triple_lift|]. intros events.
  eapply (triple_seq _ _ _ (Fr s hd b)); [apply Fr_prepare_events|]. intros _. by apply triple_pure.
Qed.

(** The session and the trajectory after the unwinding. *)
Definition Unwound (base : BranchBase) (b : list TrajectoryEntry) (x : exec W) : Prop :=
  ls_executionID (x_session x) = "" ∧ ls_executionToken (x_session x) = "" ∧
  ls_messages (x_session x) = CloneMessages (bb_Messages base) ∧
  ∃ move, te_Kind move = TrajectoryKindRestore ∧
    readable (h_store (x_world x)) id (ls_head (x_session x)) (b ++ [move]).

Lemma commit_unwound s b base latest state detail metadata entries events :
  cfg_ID (ls_config s) = id → ends_restored (bb_Head base) entries →
  triple (Fr s (bb_Head base) b)
    (let! committed :=
       attempt (ask (RCommitTrajectoryExecution
         {| ecm_TrajectoryID := cfg_ID (ls_config s); ecm_ExecutionID := ls_executionID s;
            ecm_LeaseToken := ls_executionToken s; ecm_ExpectedHead := tm_Head metadata; ecm_Entries := entries;
            ecm_State := state; ecm_Error := detail |})) in
     match committed with
     | Err err => throw (Wrapf "fail trajectory execution: %w" [] err)
     | Ok updated =>
         do! modify (set_session (λ s, with_head s (tm_Head updated)));
         do! modify (set_session (λ s, applyExecutionBaseProjection s base latest));
         do! modify (set_session (λ s', clearExecution s' (ls_executionID s) (ls_executionToken s)));
         ask_value (RDispatchAfterCommit events)
     end) (λ _, Unwound base b) (λ _, True).
Proof using HostLaws0.
  intros Hid (entry & Hlast & Hpar & Hkind) x (Hs & Hb). unfold prog_bind at 1, attempt, ask.
  destruct (h_handle _ (x_world x)) as [[m|e] w] eqn:Hr; [|done].
  destruct (law_commit _ _ _ _ Hr) as (st1 & ctx & wall & clock & st2 & Hr1 & Hc & Hr2).
  apply (runs_readable _ _ _ _ _ Hr1) in Hb. rewrite <-Hpar in Hb.
  match type of Hc with tstore_CommitExecution _ _ ?c _ _ = _ => assert (ecm_TrajectoryID c = id) as Htid by done end.
  rewrite <-Htid in Hb at 1.
  destruct (commit_readable _ _ _ _ _ _ _ _ _ Hc Hlast Hb) as (move & (HID & HP & HK & HPl & HE) & Hhd & _ & Hrd).
  simpl in Hrd. rewrite Hid in Hrd. apply (runs_readable _ _ _ _ _ Hr2) in Hrd.
  unfold prog_bind, modify, ask_value. destruct (h_handle (RDispatchAfterCommit events) _) as [u w'] eqn:Hd.
  unfold Unwound, set_world, set_session, clearExecution. simpl. rewrite Hs. simpl.
  rewrite !bool_decide_eq_true_2 by (by destruct latest as [c|]; simpl; try destruct (is_empty (cp_Provider c))).
  simpl in *. split_and!; [done|done|by destruct latest|]. exists move. split; [congruence|].
  replace (ls_head _) with (te_ID entry) by (by destruct latest).
  eapply runs_readable; [|exact Hrd].
  match type of Hd with h_handle ?rq w = _ => pose proof (law_runs (id := id) rq w) as Hlaw end. by rewrite Hd in Hlaw.
Qed.

(** A runtime that neither drains nor hands its executions over. *)
Definition stays : Prop :=
  ∀ w : W, (h_handle RGracefulExecutionDrainActive w).1 = false ∧
           (h_handle RExecutionRecoveryHandoffActive w).1 = false.

Lemma ask_false s hd b (r : request bool) :
  (∀ w : W, (h_handle r w).1 = false) →
  triple (Fr s hd b) (ask_value r) (λ a x, a = false ∧ Fr s hd b x) (λ _, True).
Proof using HostLaws0.
  intros Hr x Hx. pose proof (Fr_ask_value r s hd b (λ _, True) x Hx) as Ha. unfold ask_value in *.
  specialize (Hr (x_world x)). destruct (h_handle r (x_world x)) as [a w]. done.
Qed.

Lemma base_readable st head base :
  tstore_wf st → is_Some (trajectories st !! id) → LoadBranchBase st None id head = Ok base →
  ∃ b, bb_Head base = head ∧ readable st id head b ∧ BranchMessages id b = Ok (bb_Messages base).
Proof using Type.
  intros Hwf Hs. unfold LoadBranchBase. intros (ms & Hms & [= <-])%bind_Ok. simpl.
  pose proof Hms as Hload. unfold LoadBranchMessages in Hload. destruct (is_empty head) eqn:Hh.
  - apply is_empty_true in Hh as ->. injection Hload as <-. exists []. split_and!; [done|split_and!; [done..|constructor]|done].
  - apply bind_Ok in Hload as (b & Hb & Hm). exists b. split_and!; [done| |done]. by apply LoadBranch_readable.
Qed.

Lemma failExecution_unwound cause r x x' :
  stays → tstore_wf (h_store (x_world x)) → cfg_ID (ls_config (x_session x)) = id →
  ls_executionID (x_session x) ≠ "" → ls_executionToken (x_session x) ≠ "" →
  failExecution None cause r x = (Ok tt, x') →
  ∃ metadata execution base b, tstore_LoadMetadata (h_store (x_world x)) None id = Ok metadata ∧
    tm_Execution metadata = Some execution ∧ bb_Head base = ex_BaseHead execution ∧
    readable (h_store (x_world x)) id (ex_BaseHead execution) b ∧ BranchMessages id b = Ok (bb_Messages base) ∧
    Unwound base b x'.
Proof using HostLaws0.
  intros Hstay Hwf Hid Heid Htok Hf. unfold failExecution in Hf. unfold prog_bind at 1, read at 1 in Hf.
  rewrite (proj2 (is_empty_false _) Heid), (proj2 (is_empty_false _) Htok), Hid in Hf. simpl in Hf.
  unfold prog_bind at 1, attempt at 1, read_store at 1 in Hf.
  destruct (tstore_LoadMetadata (h_store (x_world x)) None id) as [metadata|err] eqn:Hm; [|done].
  unfold prog_bind at 1, lift at 1 in Hf. unfold prog_bind at 1, read_store at 1 in Hf.
  destruct (LatestCheckpoint _ _ _) as [latest|err]; [|done].
  unfold prog_bind at 1, read_store at 1 in Hf.
  destruct (LoadExecutionCompletionBase _ _ _) as [base|err] eqn:Hbase; [|done].
  unfold prog_bind at 1, read_store at 1 in Hf. destruct (HeadRestoresAnchor _ _ _ _ _) as [restores|err]; [|done].
  unfold LoadExecutionCompletionBase in Hbase. destruct (tm_Execution metadata) as [execution|] eqn:Hex; [|done].
  destruct (LoadMetadata_Ok _ _ _ Hm) as (t & Ht & ->).
  assert (tm_ID (mt_metadata t) = id) as Htid by (destruct Hwf as (l & _ & Hall); by apply (tw_id _ _ _ (Hall _ _ Ht))). rewrite Htid in Hbase.
  destruct (base_readable _ _ _ Hwf ltac:(by eexists) Hbase) as (b & Hhd & Hb & Hms).
  exists (mt_metadata t), execution, base, b. split_and!; try done. rewrite <-Hhd in Hb.
  set (F := Fr (x_session x) (bb_Head base) b). assert (F x) as Hx by done.
  match type of Hf with ?m x = _ => assert (triple F m (λ _, Unwound base b) (λ _, True)) as Htr end.
  2: { specialize (Htr x Hx). by rewrite Hf in Htr. }
  eapply triple_bind; [apply ask_false; intros w; apply Hstay|]. intros draining. apply triple_prop. intros ->.
  eapply triple_bind; [apply ask_false; intros w; apply Hstay|]. intros handoff. apply triple_prop. intros ->.
  eapply triple_bind; [eapply triple_weaken; [by apply Fr_plan|done..]|]. intros [entries events].
  apply triple_prop. intros He.
  pose proof (commit_unwound (x_session x) b base (snd <$> latest)) as Hcu. rewrite Hid in Hcu. by apply Hcu.
Qed.
End unwind.

(** C4. A failed or cancelled execution leaves no trace in the conversation.  When the runtime neither drains
    nor hands over, a successful unwinding puts the head of the trajectory back on the branch the
    execution started from, followed by the entry of the move alone: the entries of the execution are on
    no branch of the head, the messages of the head are those of the base and of the session, and the
    session has let go of the execution. *)
Theorem failed_execution_restores_base {W} `{!AgentHost W} `{!PayloadCodec} (id : string) `{!HostLaws (W := W) id}
    cause r (x x' : exec W) :
  stays (W := W) → tstore_wf (h_store (x_world x)) → cfg_ID (ls_config (x_session x)) = id →
  ls_executionID (x_session x) ≠ "" → ls_executionToken (x_session x) ≠ "" →
  failExecution None cause r x = (Ok tt, x') →
  let st := h_store (x_world x) in let st' := h_store (x_world x') in let s' := x_session x' in
  ∃ metadata execution b move, tstore_LoadMetadata st None id = Ok metadata ∧ tm_Execution metadata = Some execution ∧
    te_Kind move = TrajectoryKindRestore ∧
    tstore_LoadBranch st None id (ex_BaseHead execution) = Ok b ∧
    tstore_LoadBranch st' None id (ls_head s') = Ok (b ++ [move]) ∧
    LoadBranchMessages st None id (ex_BaseHead execution) = Ok (ls_messages s') ∧
    LoadBranchMessages st' None id (ls_head s') = Ok (ls_messages s') ∧
    ls_executionID s' = "" ∧ ls_executionToken s' = "".
Proof.
  intros Hstay Hwf Hid Heid Htok Hf st st' s'.
  destruct (failExecution_unwound id _ _ _ _ Hstay Hwf Hid Heid Htok Hf)
    as (metadata & execution & base & b & Hm & Hex & Hhd & Hb & Hms & He & Ht & Hmsgs & move & Hk & Hmove).
  assert (ls_messages s' = bb_Messages base) as Heq.
  { unfold s'. rewrite Hmsgs. unfold BranchMessages in Hms. apply bind_Ok in Hms as ([m es] & _ & Hms).
    apply bind_Ok in Hms as (ms & _ & [= <-]). apply CloneMessages_idem. }
  exists metadata, execution, b, move. rewrite Heq. split_and!; try done.
  - by apply readable_LoadBranch.
  - by apply readable_LoadBranch.
  - by rewrite (LoadBranchMessages_readable _ _ _ _ Hb).
  - rewrite (LoadBranchMessages_readable _ _ _ _ Hmove). apply BranchMessages_move; [by left|done].
Qed.

