(* ===== verification/LoopBounds.v ===== *)
(** Termination of the agent loop, and what no step of it changes. *)
From S2P Require Import Prelude GoText Names Invocation Operation Paging Message ContextInjection Trajectory Agent Lineage Registrar.
From S2P Require Import Composition EventDispatch TrajectoryStore Payload Durability SessionState PromptHost SessionTrajectory ToolCalls PromptExecution ExecutionCompletion.

(** ** Calls seen through a preorder on states: what a composed call does to a part of the state follows
    from what its calls of the host and its changes of the state do. *)

(** ** Calls that move a state along a preorder *)

Definition moves {X A} (R : X → X → Prop) (m : prog X A) : Prop := ∀ x, R x (m x).2.

Create HintDb moves.

Section moves.
Context {X : Type} (R : X → X → Prop) `{!PreOrder R}.

Lemma moves_pure {A} (a : A) : moves R (pure a).
Proof using PreOrder0. intros x. simpl. reflexivity. Qed.
Lemma moves_throw {A} e : moves R (throw (A := A) e).
Proof using PreOrder0. intros x. simpl. reflexivity. Qed.
Lemma moves_lift {A} (r : result A) : moves R (lift r).
Proof using PreOrder0. intros x. simpl. reflexivity. Qed.
Lemma moves_read {A} (f : X → A) : moves R (read f).
Proof using PreOrder0. intros x. simpl. reflexivity. Qed.
Lemma moves_modify f : (∀ x, R x (f x)) → moves R (modify f).
Proof using Type. done. Qed.
Lemma moves_bind {A B} (m : prog X A) (k : A → prog X B) :
  moves R m → (∀ a, moves R (k a)) → moves R (prog_bind m k).
Proof using PreOrder0.
  intros Hm Hk x. unfold prog_bind. specialize (Hm x). destruct (m x) as [[a|e] y]; [|done].
  etransitivity; [exact Hm|apply Hk].
Qed.
Lemma moves_attempt {A} (m : prog X A) : moves R m → moves R (attempt m).
Proof using Type. intros Hm x. unfold attempt. specialize (Hm x). by destruct (m x). Qed.
Lemma moves_traverse {A B} (f : nat → A → prog X B) index l :
  (∀ i a, moves R (f i a)) → moves R (traverse f index l).
Proof using PreOrder0.
  intros Hf. revert index. induction l as [|a l IH]; intros index; simpl; [apply moves_pure|].
  apply moves_bind; [done|]. intros b. apply moves_bind; [done|]. intros bs. apply moves_pure.
Qed.
End moves.

#[export] Hint Resolve moves_pure moves_throw moves_lift moves_read moves_attempt moves_traverse : moves.

(** Reduces a composed call to its calls of the host and its changes of the state. *)
Ltac moving :=
  repeat first
    [ progress intros
    | match goal with
      | |- moves _ (prog_bind _ _) => apply moves_bind
      | |- moves _ (attempt _) => apply moves_attempt
      | |- moves _ (traverse _ _ _) => apply moves_traverse
      | |- moves _ (let '(_, _) := ?p in _) => destruct p
      | |- moves _ (match ?e with _ => _ end) => destruct e
      end
    | solve [auto with moves] ].

(** ** Preorders that writing the trajectory moves along *)

Section frames.
Context {W : Type} `{!AgentHost W} `{!PayloadCodec}.

(** The calls of the host move along [R], and so do the changes of the session that keep its bound on
    turns. *)
Class Frame (R : exec W → exec W → Prop) : Prop := {
  frame_preorder :: PreOrder R;
  frame_handle {A} (r : request A) x : R x (set_world (h_handle r (x_world x)).2 x);
  frame_session f x :
    (∀ s, cfg_MaxTurns (ls_config (f s)) = cfg_MaxTurns (ls_config s)) → R x (set_session f x);
  frame_history f x : R x (set_history f x);
}.

Context (R : exec W → exec W → Prop) `{!Frame R}.

Lemma moves_ask {A} (r : request (result A)) : moves R (ask r).
Proof using Frame0.
  intros x. unfold ask. pose proof (frame_handle r x). by destruct (h_handle r (x_world x)).
Qed.
Lemma moves_ask_value {A} (r : request A) : moves R (ask_value r).
Proof using Frame0.
  intros x. unfold ask_value. pose proof (frame_handle r x). by destruct (h_handle r (x_world x)).
Qed.
Lemma moves_session f :
  (∀ s, cfg_MaxTurns (ls_config (f s)) = cfg_MaxTurns (ls_config s)) → moves R (modify (set_session f)).
Proof using Frame0. intros Hf. apply moves_modify. intros x. by apply frame_session. Qed.
Lemma moves_history f : moves R (modify (set_history f)).
Proof using Frame0. apply moves_modify. intros x. apply frame_history. Qed.
Lemma moves_head head : moves R (modify (set_session (λ s, with_head s head))).
Proof using Frame0. by apply moves_session. Qed.
Lemma moves_clear eid token : moves R (modify (set_session (λ s, clearExecution s eid token))).
Proof using Frame0. apply moves_session. intros s. unfold clearExecution. by destruct (_ && _). Qed.
Lemma moves_system system : moves R (modify (set_session (λ s, with_config s (with_system (ls_config s) system)))).
Proof using Frame0. by apply moves_session. Qed.
End frames.

#[export] Hint Extern 0 (PreOrder _) => typeclasses eauto : moves.
#[export] Hint Extern 0 (Frame _) => typeclasses eauto : moves.
#[export] Hint Resolve moves_ask moves_ask_value : moves.
#[export] Hint Extern 1 (moves _ (modify (set_history _))) => (apply moves_history; typeclasses eauto) : moves.
#[export] Hint Extern 1 (moves _ (modify (set_session _))) =>
  first [apply moves_head; typeclasses eauto | apply moves_clear; typeclasses eauto | apply moves_system; typeclasses eauto] : moves.

Section writes.
Context {W : Type} `{!AgentHost W} `{!PayloadCodec} (R : exec W → exec W → Prop) `{!Frame R}.

Lemma moves_commit entry state err events : moves R (commitExecution entry state err events).
Proof using Frame0. unfold commitExecution. moving. Qed.
#[local] Hint Resolve moves_commit : moves.
Lemma moves_append snapshot kind p state err audit events :
  moves R (appendTrajectoryState snapshot kind p state err audit events).
Proof using Frame0. unfold appendTrajectoryState, newPayloadTrajectoryEntry. moving. Qed.
#[local] Hint Resolve moves_append : moves.
Lemma moves_append_audit snapshot kind p audit : moves R (appendTrajectoryWithAudit snapshot kind p audit).
Proof using Frame0. unfold appendTrajectoryWithAudit. moving. Qed.
Lemma moves_append_event_state snapshot kind p state err audit event :
  moves R (appendTrajectoryStateWithExecutionEvent snapshot kind p state err audit event).
Proof using Frame0. unfold appendTrajectoryStateWithExecutionEvent. moving. Qed.
#[local] Hint Resolve moves_append_audit moves_append_event_state : moves.
Lemma moves_append_event snapshot kind p audit event :
  moves R (appendTrajectoryWithExecutionEvent snapshot kind p audit event).
Proof using Frame0. unfold appendTrajectoryWithExecutionEvent. moving. Qed.
Lemma moves_checkpoint snapshot commit : moves R (checkpointTrajectory snapshot commit).
Proof using Frame0. unfold checkpointTrajectory. moving. Qed.
End writes.

#[export] Hint Resolve moves_commit moves_append moves_append_audit moves_append_event_state moves_append_event
  moves_checkpoint : moves.

Section bounds.
Context {W : Type} `{!AgentHost W} `{!PayloadCodec} `{!MapOrder}.

(** How many interruptions of a provider call are to come. *)
Context (left_ : W → nat).
Context (left_handle : ∀ A (r : request A) w, (left_ (h_handle r w).2 ≤ left_ w)%nat).
Context (left_interrupted : ∀ w, (h_handle RInterrupted w).1 = true → (left_ (h_handle RInterrupted w).2 < left_ w)%nat).

(** The steps of the loop keep the bound on its turns. *)
Definition along (x y : exec W) : Prop :=
  cfg_MaxTurns (ls_config (x_session y)) = cfg_MaxTurns (ls_config (x_session x)) ∧
  (left_ (x_world y) ≤ left_ (x_world x))%nat.

#[local] Instance along_frame : Frame along.
Proof using left_handle.
  split; [split| | |].
  - by intros x.
  - intros x y z [H1 H2] [H3 H4]. split; [congruence|lia].
  - intros A r x. split; [done|]. apply left_handle.
  - intros f x Hf. split; [apply Hf|done].
  - done.
Qed.

Lemma moves_prompt f : moves along (modify (set_prompt f)).
Proof using Type. by apply moves_modify. Qed.
#[local] Hint Resolve moves_prompt : moves.

Lemma MaxTurns_marked s injections :
  cfg_MaxTurns (ls_config (markContextInjectionsConsumed s injections)) = cfg_MaxTurns (ls_config s).
Proof using Type.
  unfold markContextInjectionsConsumed. revert s. induction injections as [|i l IH]; intros s; simpl; [done|].
  rewrite IH. unfold mark_consumed. by destruct (is_empty (ci_ID i)).
Qed.

Lemma moves_mark injections : moves along (modify (set_session (λ s, markContextInjectionsConsumed s injections))).
Proof using left_handle. apply moves_session; [apply along_frame|]. intros s. apply MaxTurns_marked. Qed.
#[local] Hint Resolve moves_mark : moves.
#[local] Hint Extern 1 (moves _ (modify _)) => (apply moves_modify; intros; split; [reflexivity|apply le_n]) : moves.

Lemma moves_queued snapshot boundary : moves along (checkpointQueuedContext snapshot boundary).
Proof using left_handle. unfold checkpointQueuedContext, pendingContextInjections, consumeContextInjections. moving. Qed.
Lemma moves_finish_prompt snapshot cause : moves along (finish_prompt snapshot cause).
Proof using left_handle. unfold finish_prompt, session_finish. moving. Qed.
Lemma moves_finishWithError code cause : moves along (finishWithError code cause).
Proof using left_handle. unfold finishWithError. moving. Qed.
#[local] Hint Resolve moves_queued moves_finish_prompt moves_finishWithError : moves.

Lemma moves_run_batches enabled name batches prepared outcomes interrupted :
  moves along (run_batches enabled name batches prepared outcomes interrupted).
Proof using left_handle.
  revert prepared outcomes interrupted. induction batches as [|batch batches IH]; intros; simpl; [moving|].
  unfold submitToolCalls, submitToolCall, awaitToolCalls, awaitToolCall, tool_interrupted. moving.
Qed.
#[local] Hint Resolve moves_run_batches : moves.

Lemma moves_tools snapshot turn calls tools pid name : moves along (executeTools snapshot turn calls tools pid name).
Proof using left_handle.
  unfold executeTools, prepareToolCall, finalize_call, finalizeToolCall, afterToolError, afterTool, tool_interrupted.
  moving.
Qed.
Lemma moves_decide snapshot turn response results : moves along (decide snapshot turn response results).
Proof using left_handle. unfold decide. moving. Qed.
Lemma moves_applyAction snapshot action : moves along (applyAction snapshot action).
Proof using left_handle. unfold applyAction. moving. Qed.
Lemma moves_provider snapshot turn : moves along (prepareProviderCall snapshot turn).
Proof using left_handle. unfold prepareProviderCall, nextProviderAttempt, initializeProviderAttempts. moving. Qed.
Lemma moves_callProvider snapshot turn call : moves along (callProvider snapshot turn call).
Proof using left_handle. unfold callProvider, completeProvider. moving. Qed.
#[local] Hint Resolve moves_tools moves_decide moves_applyAction moves_provider moves_callProvider : moves.

(** A turn that is to be tried again was interrupted. *)
Definition turn_moves (x : exec W) (r : result turn_answer * exec W) : Prop :=
  along x r.2 ∧
  match r.1 with Ok (_, promptTurnRetry, _) => (left_ (x_world r.2) < left_ (x_world x))%nat | _ => True end.

Lemma turn_moves_after x y r : along x y → turn_moves y r → turn_moves x r.
Proof using left_handle.
  intros Hxy [Hyr Hr]. split; [by etransitivity|]. destruct Hxy as [_ Hxy]. destruct r.1 as [[[? []] ?]|]; try done. lia.
Qed.

Lemma turn_moves_bind {A} (m : prog (exec W) A) k x :
  moves along m → (∀ a y, turn_moves y (k a y)) → turn_moves x (prog_bind m k x).
Proof using left_handle.
  intros Hm Hk. specialize (Hm x). unfold prog_bind. destruct (m x) as [[a|e] y]; [|by split].
  by eapply turn_moves_after.
Qed.

(** The part of a turn after the provider's answer is never tried again. *)
Definition once (m : prog (exec W) turn_answer) : Prop :=
  ∀ x, match (m x).1 with Ok a => a.1.2 ≠ promptTurnRetry | Err _ => True end.

Lemma once_pure a : a.1.2 ≠ promptTurnRetry → once (pure a).
Proof using left_handle. by intros Ha x. Qed.

Lemma once_bind {A} (m : prog (exec W) A) k : (∀ a, once (k a)) → once (prog_bind m k).
Proof using left_handle. intros Hk x. unfold prog_bind. destruct (m x) as [[a|e] y]; [|done]. apply Hk. Qed.

Lemma turn_moves_once (m : prog (exec W) turn_answer) x : moves along m → once m → turn_moves x (m x).
Proof using left_handle.
  intros Hm Ho. split; [apply Hm|]. specialize (Ho x). by destruct (m x) as [[[[r []] e]|err] y].
Qed.

Lemma provider_interrupted_moves x :
  along x (provider_interrupted x).2 ∧
  ((provider_interrupted x).1 = Ok true → (left_ (x_world (provider_interrupted x).2) < left_ (x_world x))%nat).
Proof using left_handle left_interrupted.
  split; [revert x; change (moves along provider_interrupted); unfold provider_interrupted; moving|].
  unfold provider_interrupted, prog_bind, read, ask_value, pure. destruct (is_empty _); [done|].
  pose proof (left_interrupted (x_world x)). destruct (h_handle RInterrupted (x_world x)) as [a w]. simpl in *.
  intros [= ->]. auto.
Qed.

Lemma turn_of_action_done r : (turn_of_action r).1.2 ≠ promptTurnRetry.
Proof using Type. by destruct r as [[]|]. Qed.

Lemma turn_body_moves turn x : turn_moves x (turn_body turn x).
Proof using left_handle left_interrupted.
  unfold turn_body. apply turn_moves_bind; [moving|]. intros snapshot y. apply turn_moves_bind; [moving|].
  intros _ y1. apply turn_moves_bind; [moving|]. intros _ y2. apply turn_moves_bind; [moving|].
  intros call y3. apply turn_moves_bind; [moving|]. intros answer y4. clear x y y1 y2 y3.
  pose proof (provider_interrupted_moves y4) as [Hm Hlt]. unfold prog_bind at 1.
  destruct (provider_interrupted y4) as [[interrupted|e] y5]; [|by split]. simpl in Hm, Hlt. destruct interrupted.
  - specialize (Hlt eq_refl). unfold prog_bind, modify.
    pose proof (moves_queued snapshot contextInjectionBeforeProvider (set_history dropped y5)) as [Hq1 Hq2].
    destruct (checkpointQueuedContext _ _ _) as [[a|e] y6]; simpl in *; (split; [|done || (simpl; lia)]).
    all: destruct Hm as [Hm1 Hm2]; split; simpl in *; [congruence|lia].
  - eapply turn_moves_after; [exact Hm|]. clear Hlt. destruct answer as [response|err].
    all: apply turn_moves_once; [moving|].
    + apply once_bind. intros _. apply once_bind. intros [[results int]|err].
      * destruct int; apply once_bind; intros ?; apply once_bind; intros ?.
        -- destruct (last_turn _ _); [apply once_bind; intros ?|]; by apply once_pure, turn_of_action_done || apply once_pure.
        -- apply once_pure, turn_of_action_done.
      * apply once_bind. intros [? ?]. by apply once_pure.
    + apply once_bind. intros [? ?]. by apply once_pure.
Qed.

(** ** The loop *)

Lemma executeTurn_moves turn x :
  along x (executeTurn turn x).2 ∧
  ((executeTurn turn x).1.1.2 = promptTurnRetry → (left_ (x_world (executeTurn turn x).2) < left_ (x_world x))%nat).
Proof using left_handle left_interrupted.
  pose proof (turn_body_moves turn x) as [Ha Hr]. unfold executeTurn.
  destruct (turn_body turn x) as [[[[r t] e]|err] y]; simpl in *; [|done]. split; [done|]. by intros ->.
Qed.

Lemma world_along {A} (r : request A) x : along x (set_world (h_handle r (x_world x)).2 x).
Proof using left_handle. split; [done|]. apply left_handle. Qed.

Lemma runTurnsFrom_returns fuel turn x :
  0 < cfg_MaxTurns (ls_config (x_session x)) →
  (Z.to_nat (cfg_MaxTurns (ls_config (x_session x)) - turn) + left_ (x_world x) ≤ fuel)%nat →
  ∃ r x', runTurnsFrom fuel turn x = (Some r, x').
Proof using left_handle left_interrupted.
  revert turn x. induction fuel as [|fuel IH]; intros turn x Hn Hf; cbn [runTurnsFrom];
    destruct (turn_allowed (x_session x) turn) eqn:Ht; cbn [negb]; [|eauto| |eauto].
  - exfalso. unfold turn_allowed in Ht. apply orb_true_iff in Ht. lia.
  - unfold turn_allowed in Ht. apply orb_true_iff in Ht.
    pose proof (world_along RCtxErr x) as Hc. destruct (h_handle RCtxErr (x_world x)) as [[err|] w]; [eauto|].
    simpl in Hc. pose proof (executeTurn_moves turn (set_world w x)) as [Ha Hr].
    destruct (executeTurn turn (set_world w x)) as [[[r t] err] y]. simpl in Ha, Hr.
    assert (along x y) as [Hy1 Hy2] by (by etransitivity). destruct Hc as [_ Hc].
    destruct err; [eauto|]. pose proof (world_along RDrainRequested y) as [Hd1 Hd2].
    destruct t; [| |eauto].
    all: destruct (h_handle RDrainRequested (x_world y)) as [[] w2]; [eauto|]; simpl in Hd1, Hd2; apply IH; simpl;
      rewrite ?Hy1; [done|].
    + lia.
    + specialize (Hr eq_refl). simpl in *. lia.
Qed.

Lemma moves_start : moves along start_prompt.
Proof using left_handle. unfold start_prompt. moving. Qed.

Lemma runFromStart_returns fuel x :
  0 < cfg_MaxTurns (ls_config (x_session x)) →
  (Z.to_nat (cfg_MaxTurns (ls_config (x_session x))) + left_ (x_world x) ≤ fuel)%nat →
  ∃ r x', runFromStart fuel x = (Some r, x').
Proof using left_handle left_interrupted.
  intros Hn Hf. unfold runFromStart. pose proof (moves_start x) as [H1 H2].
  destruct (start_prompt x) as [[[r|]|err] y]; [eauto| |eauto]. simpl in *.
  apply runTurnsFrom_returns; rewrite H1; [done|]. rewrite Z.sub_0_r. lia.
Qed.
End bounds.

(** C6. The agent loop terminates.  With a bound on the turns of the session, an execution that finds [n] pending
    interrupts - counting every one it meets while the provider answers or while tools run - returns, a result
    or an error, after at most [MaxTurns + n] rounds of the loop, whatever the provider, the tools, the hooks and
    the store answer. *)
Theorem agent_loop_terminates {W} `{!AgentHost W} `{!PayloadCodec} `{!MapOrder} (left_ : W → nat) (x : exec W) fuel :
  (∀ A (r : request A) w, (left_ (h_handle r w).2 ≤ left_ w)%nat) →
  (∀ w, (h_handle RInterrupted w).1 = true → (left_ (h_handle RInterrupted w).2 < left_ w)%nat) →
  0 < cfg_MaxTurns (ls_config (x_session x)) →
  (Z.to_nat (cfg_MaxTurns (ls_config (x_session x))) + left_ (x_world x) ≤ fuel)%nat →
  ∃ r x', runFromStart fuel x = (Some r, x').
Proof. intros H1 H2. apply (runFromStart_returns left_ H1 H2). Qed.

