(* ===== verification/ToolCallProperties.v ===== *)
(** The tool calls of a turn: the batches they run in, and their results in the conversation. *)

From S2P Require Import Prelude GoText Names Message ContextInjection Invocation Operation Trajectory.
From S2P Require Import TrajectoryStore Agent Lineage Registrar Composition EventDispatch Payload SessionState PromptHost SessionTrajectory ToolCalls LoopBounds.

(** ** Batches *)

(** The call at an index runs in parallel. *)
Definition parallel_at (calls : list preparedToolCall) (i : nat) : Prop :=
  ∃ call, calls !! i = Some call ∧ runsInParallel call = true.

Definition batch_ok (calls : list preparedToolCall) (batch : toolCallBatch) : Prop :=
  (tb_start batch < tb_end batch ≤ length calls)%nat ∧
  (tb_end batch = S (tb_start batch) ∨ ∀ k, (tb_start batch ≤ k < tb_end batch)%nat → parallel_at calls k).

Definition in_batch (i : nat) (batch : toolCallBatch) : Prop := (tb_start batch ≤ i ∧ S i < tb_end batch)%nat.

Lemma slice_drop {A} (l : list A) batch :
  (tb_start batch ≤ tb_end batch)%nat → slice l batch ++ drop (tb_end batch) l = drop (tb_start batch) l.
Proof.
  intros H. unfold slice. replace (tb_end batch) with (tb_start batch + (tb_end batch - tb_start batch))%nat at 2 by lia.
  rewrite <-drop_drop. apply take_drop.
Qed.

Lemma close_batch_slice {A} (l : list A) open index :
  match open with Some s => (s ≤ index)%nat | None => True end →
  concat (slice l <$> close_batch open index) ++ drop index l = drop (default index open) l.
Proof.
  destruct open as [s|]; simpl; [|done]. intros H. rewrite app_nil_r. by apply (slice_drop l {| tb_start := s; tb_end := index |}).
Qed.

Section batches.
Context (l : list preparedToolCall).

(** [open] is where a run of parallel calls up to [index] starts. *)
Definition open_run (open : option nat) (index : nat) : Prop :=
  match open with Some s => (s < index)%nat ∧ ∀ k, (s ≤ k < index)%nat → parallel_at l k | None => True end.

Lemma close_batch_ok open index :
  (index ≤ length l)%nat → open_run open index → Forall (batch_ok l) (close_batch open index).
Proof. intros Hi. destruct open as [s|]; simpl; [|done]. intros [Hs Hp]. constructor; [|constructor]. split; simpl; [lia|by right]. Qed.

Lemma close_batch_covers open index i :
  (default index open ≤ i)%nat → (S i < index)%nat → ∃ batch, batch ∈ close_batch open index ∧ in_batch i batch.
Proof.
  intros Hi Hn. destruct open as [s|]; simpl in *; [|lia]. eexists. split; [by apply list_elem_of_singleton|]. split; simpl; lia.
Qed.

Lemma batch_loop_spec pre rest open :
  l = pre ++ rest → open_run open (length pre) →
  let batches := batch_loop open (length pre) rest in
  concat (slice l <$> batches) = drop (default (length pre) open) l ∧ Forall (batch_ok l) batches ∧
  ∀ i, (default (length pre) open ≤ i)%nat → parallel_at l i → parallel_at l (S i) →
    ∃ batch, batch ∈ batches ∧ in_batch i batch.
Proof.
  revert pre open. induction rest as [|call rest IH]; intros pre open Hl Ho; simpl.
  - rewrite app_nil_r in Hl. subst pre. split_and!.
    + rewrite <-(close_batch_slice l open (length l)) by (destruct open; simpl in *; [lia|done]).
      by rewrite drop_all, app_nil_r.
    + by apply close_batch_ok.
    + intros i Hi _ (c & Hc & _). apply lookup_lt_Some in Hc. by apply close_batch_covers.
  - assert (length l = length pre + S (length rest))%nat as Hlen by (rewrite Hl; by rewrite length_app).
    assert (l !! length pre = Some call) as Hcall by (rewrite Hl; by rewrite list_lookup_middle).
    assert (l = (pre ++ [call]) ++ rest) as Hl' by (by rewrite <-app_assoc).
    assert (length (pre ++ [call]) = S (length pre)) as Hlp by (rewrite length_app; simpl; lia).
    destruct (runsInParallel call) eqn:Hpar.
    + destruct (IH (pre ++ [call]) (Some (default (length pre) open)) Hl') as (H1 & H2 & H3).
      { rewrite Hlp. simpl. split; [destruct open; simpl in *; lia|]. intros k Hk.
        destruct (decide (k = length pre)) as [->|]; [by exists call|].
        destruct open as [s|]; simpl in *; [apply (proj2 Ho); lia|lia]. }
      rewrite Hlp in *. simpl in *. done.
    + destruct (IH (pre ++ [call]) None Hl' I) as (H1 & H2 & H3). rewrite Hlp in *. simpl in *. split_and!.
      * rewrite fmap_app, fmap_cons, concat_app. cbn [concat]. rewrite H1.
        pose proof (slice_drop l {| tb_start := length pre; tb_end := S (length pre) |} ltac:(simpl; lia)) as Hsd.
        simpl in Hsd. rewrite Hsd.
        apply close_batch_slice. destruct open; simpl in *; [lia|done].
      * apply Forall_app. split; [apply close_batch_ok; [lia|done]|]. constructor; [|done].
        split; simpl; [lia|by left].
      * intros i Hi Hp Hp'.
        destruct (decide (i < length pre)%nat) as [Hlt|Hge].
        { destruct (decide (S i = length pre)) as [Heq|Hne].
          - destruct Hp' as (c & Hc & Hcp). rewrite Heq in Hc. congruence.
          - destruct (close_batch_covers open (length pre) i) as (b & Hb & Hin); [done|lia|]. exists b.
            split; [apply elem_of_app; by left|done]. }
        destruct (decide (i = length pre)) as [->|Hne].
        { destruct Hp as (c & Hc & Hcp). congruence. }
        destruct (H3 i) as (b & Hb & Hin); [lia|done|done|]. exists b. split; [|done].
        apply elem_of_app. right. by apply list_elem_of_further.
Qed.
End batches.

(** C40. The calls of a turn run in batches that keep their order: the batches one after the other are the
    calls; a call that wants the runtime for itself is alone in its batch; and parallel calls next to
    each other share theirs. *)
Theorem tool_batches_partition calls :
  let batches := toolCallExecutionBatches calls in
  concat (slice calls <$> batches) = calls ∧
  Forall (λ batch, slice calls batch ≠ []) batches ∧
  (∀ batch call, batch ∈ batches → call ∈ slice calls batch → runsInParallel call = false → slice calls batch = [call]) ∧
  (∀ i, parallel_at calls i → parallel_at calls (S i) → ∃ batch, batch ∈ batches ∧ in_batch i batch).
Proof.
  intros batches. destruct (batch_loop_spec calls [] calls None eq_refl I) as (H1 & H2 & H3).
  fold (toolCallExecutionBatches calls) in H1, H2, H3. fold batches in H1, H2, H3. split_and!; [done| | |].
  - eapply Forall_impl; [exact H2|]. intros b [Hb _] Hnil. apply (f_equal length) in Hnil. unfold slice in Hnil.
    rewrite length_take, length_drop in Hnil. simpl in Hnil. lia.
  - intros b call Hb Hin Hpar. rewrite Forall_forall in H2. destruct (H2 b Hb) as [Hr [Hone|Hall]].
    + unfold slice in *. rewrite Hone in *. replace (S (tb_start b) - tb_start b)%nat with 1%nat in * by lia.
      destruct (drop (tb_start b) calls) as [|c rest]; simpl in *; [by apply not_elem_of_nil in Hin|].
      by apply list_elem_of_singleton in Hin as ->.
    + exfalso. unfold slice in Hin. apply list_elem_of_lookup in Hin as [j Hj].
      apply lookup_take_Some in Hj as [Hj Hlt]. rewrite lookup_drop in Hj.
      destruct (Hall (tb_start b + j)%nat) as (c & Hc & Hp); [lia|]. congruence.
  - intros i. apply H3. simpl. lia.
Qed.






(** ** Results *)

Section results.
Context {W : Type} `{!AgentHost W} `{!PayloadCodec}.

(** The calls that leave the prompt alone. *)
Definition same_prompt (x y : exec W) : Prop := x_prompt y = x_prompt x.

#[export] Instance same_prompt_frame : Frame same_prompt.
Proof.
  split; [split| | |]; unfold same_prompt; [by intros x| |done..]. intros x y z H1 H2. by rewrite H2.
Qed.





















End results.

