(* ===== verification/BitCodec.v ===== *)
(** An executable instance of [PayloadCodec] with its laws: a payload is a JSON string of binary digits.
    It keeps texts as they are, and of an environment and of a context injection only what the examples
    need. *)

From S2P Require Import Prelude GoText Names Message ContextInjection Trajectory Agent EventDispatch Payload.

(** ** Prefix formats *)

Record format (A : Type) := {
  enc : A → list bool;
  dec : list bool → option (A * list bool);
  dec_enc a rest : dec (enc a ++ rest) = Some (a, rest);
}.
Arguments enc {A}.
Arguments dec {A}.
Arguments dec_enc {A}.

Definition f_unit : format unit.
Proof. by refine {| enc := λ _, []; dec := λ l, Some (tt, l) |}; intros []. Defined.

Definition f_bool : format bool.
Proof.
  by refine {| enc := λ b, [b]; dec := λ l, match l with b :: l => Some (b, l) | [] => None end |}.
Defined.

Definition f_pair {A B} (f : format A) (g : format B) : format (A * B).
Proof.
  refine {| enc := λ p, enc f p.1 ++ enc g p.2;
            dec := λ l, match dec f l with
                        | Some (a, l) => match dec g l with Some (b, l) => Some ((a, b), l) | None => None end
                        | None => None
                        end |}.
  intros [a b] rest. simpl. by rewrite <-app_assoc, !dec_enc.
Defined.

Definition f_iso {A B} (get_ : A → B) (make : B → A) (H : ∀ a, make (get_ a) = a) (f : format B) : format A.
Proof.
  refine {| enc := λ a, enc f (get_ a);
            dec := λ l, match dec f l with Some (b, l) => Some (make b, l) | None => None end |}.
  intros a rest. by rewrite dec_enc, H.
Defined.

Definition f_option {A} (f : format A) : format (option A).
Proof.
  refine {| enc := λ o, match o with Some a => true :: enc f a | None => [false] end;
            dec := λ l, match l with
                        | true :: l => match dec f l with Some (a, l) => Some (Some a, l) | None => None end
                        | false :: l => Some (None, l)
                        | [] => None
                        end |}.
  intros [a|] rest; simpl; [by rewrite dec_enc|done].
Defined.

Fixpoint dec_list {A} (f : format A) (fuel : nat) (l : list bool) : option (list A * list bool) :=
  match fuel, l with
  | S fuel, true :: l =>
      match dec f l with
      | Some (a, l) => match dec_list f fuel l with Some (r, l) => Some (a :: r, l) | None => None end
      | None => None
      end
  | S _, false :: l => Some ([], l)
  | _, _ => None
  end.

Fixpoint enc_list {A} (f : format A) (l : list A) : list bool :=
  match l with [] => [false] | a :: l => true :: enc f a ++ enc_list f l end.

Lemma enc_list_length {A} (f : format A) l : (length l < length (enc_list f l))%nat.
Proof. induction l as [|a l IH]; simpl; [lia|]. rewrite length_app. lia. Qed.

Lemma dec_enc_list {A} (f : format A) fuel l rest :
  (length l < fuel)%nat → dec_list f fuel (enc_list f l ++ rest) = Some (l, rest).
Proof.
  revert fuel. induction l as [|a l IH]; intros [|fuel] Hf; simpl in *; try lia; [done|].
  rewrite <-app_assoc, dec_enc, IH by lia. done.
Qed.

Definition f_list {A} (f : format A) : format (list A).
Proof.
  refine {| enc := enc_list f; dec := λ l, dec_list f (length l) l |}.
  intros l rest. apply dec_enc_list. rewrite length_app. pose proof (enc_list_length f l). lia.
Defined.

Definition f_ascii : format ascii.
Proof.
  refine {| enc := λ c, match c with Ascii a b c d e f g h => [a; b; c; d; e; f; g; h] end;
            dec := λ l, match l with
                        | a :: b :: c :: d :: e :: f :: g :: h :: l => Some (Ascii a b c d e f g h, l)
                        | _ => None
                        end |}.
  by intros [] rest.
Defined.

Definition f_string : format string :=
  f_iso String.list_ascii_of_string String.string_of_list_ascii String.string_of_list_ascii_of_string (f_list f_ascii).

Fixpoint enc_pos (p : positive) : list bool :=
  match p with xH => [] | xO p => false :: enc_pos p | xI p => true :: enc_pos p end.
Fixpoint dec_pos (l : list bool) : positive :=
  match l with [] => xH | false :: l => xO (dec_pos l) | true :: l => xI (dec_pos l) end.
Lemma dec_enc_pos p : dec_pos (enc_pos p) = p.
Proof. induction p; simpl; congruence. Qed.

Definition f_positive : format positive := f_iso enc_pos dec_pos dec_enc_pos (f_list f_bool).

Definition Z_to (z : Z) : option (bool * positive) :=
  match z with Z0 => None | Zpos p => Some (true, p) | Zneg p => Some (false, p) end.
Definition Z_of (o : option (bool * positive)) : Z :=
  match o with None => 0 | Some (true, p) => Zpos p | Some (false, p) => Zneg p end.

Definition f_Z : format Z.
Proof. refine (f_iso Z_to Z_of _ (f_option (f_pair f_bool f_positive))). by intros []. Defined.

(** ** Payloads *)

Definition f_role : format Role.
Proof.
  refine (f_iso (λ r, match r with
                      | RoleSystem => (0, "") | RoleUser => (1, "") | RoleAssistant => (2, "") | RoleTool => (3, "")
                      | RoleOther t => (4, t) end)
                (λ p, match p.1 with
                      | 0 => RoleSystem | 1 => RoleUser | 2 => RoleAssistant | 3 => RoleTool
                      | _ => RoleOther p.2 end) _ (f_pair f_Z f_string)). by intros [].
Defined.

Definition f_call : format ToolCall.
Proof.
  refine (f_iso (λ c, (tc_ID c, (tc_Name c, tc_Arguments c)))
                (λ p, {| tc_ID := p.1; tc_Name := p.2.1; tc_Arguments := p.2.2 |}) _
                (f_pair f_string (f_pair f_string (f_option f_string)))). by intros [].
Defined.

Definition f_message : format Message.
Proof.
  refine (f_iso (λ m, (msg_Role m, (msg_Content m, (msg_ToolCalls m, (msg_ToolCallID m, msg_IsError m)))))
                (λ p, {| msg_Role := p.1; msg_Content := p.2.1; msg_ToolCalls := p.2.2.1;
                         msg_ToolCallID := p.2.2.2.1; msg_IsError := p.2.2.2.2 |}) _
                (f_pair f_role (f_pair f_string (f_pair (f_option (f_list f_call)) (f_pair f_string f_bool))))).
  by intros [].
Defined.

Definition f_response : format ModelResponse.
Proof.
  refine (f_iso (λ r, (mr_Content r, (mr_ToolCalls r, (mr_Model r, (mr_FinishReason r, (mr_InputTokens r, mr_OutputTokens r))))))
                (λ p, {| mr_Content := p.1; mr_ToolCalls := p.2.1; mr_Model := p.2.2.1; mr_FinishReason := p.2.2.2.1;
                         mr_InputTokens := p.2.2.2.2.1; mr_OutputTokens := p.2.2.2.2.2 |}) _
                (f_pair f_string (f_pair (f_option (f_list f_call)) (f_pair f_string (f_pair f_string (f_pair f_Z f_Z)))))).
  by intros [].
Defined.

Definition f_start : format AgentStartPayload.
Proof.
  refine (f_iso (λ s, (sp_Messages s, sp_System s)) (λ p, {| sp_Messages := p.1; sp_System := p.2 |}) _
                (f_pair (f_list f_message) f_string)). by intros [].
Defined.

Definition f_after_provider : format AfterProviderPayload.
Proof.
  refine (f_iso (λ a, (ap_Turn a, (ap_Provider a, (ap_Response a, ap_Error a))))
                (λ p, {| ap_Turn := p.1; ap_Provider := p.2.1; ap_Response := p.2.2.1; ap_Error := p.2.2.2 |}) _
                (f_pair f_Z (f_pair f_string (f_pair (f_option f_response) f_string)))). by intros [].
Defined.

Definition f_result : format ToolResult.
Proof.
  refine (f_iso (λ r, (tr_Content r, tr_IsError r)) (λ p, {| tr_Content := p.1; tr_IsError := p.2 |}) _
                (f_pair f_string f_bool)). by intros [].
Defined.

Definition f_after_tool : format AfterToolPayload.
Proof.
  refine (f_iso (λ a, (at_Turn a, (at_Call a, at_Result a)))
                (λ p, {| at_Turn := p.1; at_Call := p.2.1; at_Result := p.2.2 |}) _
                (f_pair f_Z (f_pair f_call f_result))). by intros [].
Defined.

Definition f_cause : format Cause.
Proof.
  refine (f_iso (λ c, (ca_Code c, (ca_Detail c, ca_Final c)))
                (λ p, {| ca_Code := p.1; ca_Detail := p.2.1; ca_Final := p.2.2 |}) _
                (f_pair f_string (f_pair f_string f_bool))). by intros [].
Defined.

Definition f_action : format Action.
Proof.
  refine (f_iso (λ a, (ac_Kind a, (ac_Cause a, ac_Messages a)))
                (λ p, {| ac_Kind := p.1; ac_Cause := p.2.1; ac_Messages := p.2.2 |}) _
                (f_pair f_string (f_pair (f_option f_cause) (f_list f_message)))). by intros [].
Defined.

(** The ID and the messages of an injection. *)
Definition bit_injection (i : ContextInjection) : ContextInjection :=
  {| ci_ID := ci_ID i; ci_Priority := ContextInjectionNext; ci_Mode := ContextInjectionPrompt; ci_Origin := "";
     ci_TargetSessionID := ""; ci_TargetExecutionID := ""; ci_IsMeta := false; ci_Messages := ci_Messages i;
     ci_Attributes := ∅; ci_CreatedAt := 0 |}.

Definition f_injection : format (string * list Message) := f_pair f_string (f_list f_message).
Definition injection_to (i : ContextInjection) : string * list Message := (ci_ID i, ci_Messages i).
Definition injection_of (p : string * list Message) : ContextInjection :=
  bit_injection {| ci_ID := p.1; ci_Priority := ContextInjectionNext; ci_Mode := ContextInjectionPrompt; ci_Origin := "";
     ci_TargetSessionID := ""; ci_TargetExecutionID := ""; ci_IsMeta := false; ci_Messages := p.2;
     ci_Attributes := ∅; ci_CreatedAt := 0 |}.

(** The counters of a checkpoint and of a terminal payload. *)
Definition f_counts : format (Z * (Z * (Z * Z))) := f_pair f_Z (f_pair f_Z (f_pair f_Z f_Z)).

Definition checkpoint_to (c : Checkpoint) :=
  (cp_Messages c, (cp_MessageMode c, (cp_System c, (cp_Provider c, (cp_Output c,
   ((cp_Turns c, (cp_ToolCalls c, (cp_InputTokens c, cp_OutputTokens c))), (cp_Generation c, (cp_Action c,
   (injection_to <$> cp_ContextInjections c, (cp_ConsumedContextInjectionIDs c, cp_Dependencies c)))))))))).

Definition f_checkpoint :=
  f_pair (f_list f_message) (f_pair f_string (f_pair f_string (f_pair f_string (f_pair f_string (f_pair f_counts
    (f_pair f_Z (f_pair f_action (f_pair (f_list f_injection) (f_pair (f_list f_string) (f_list f_string)))))))))).

Definition checkpoint_of p : Checkpoint :=
  let '(messages, (mode, (system, (provider, (output, ((turns, (tools, (input, out))), (generation, (action,
    (injections, (ids, dependencies)))))))))) := p in
  {| cp_Messages := messages; cp_MessageMode := mode; cp_System := system; cp_Provider := provider;
     cp_Output := output; cp_Turns := turns; cp_ToolCalls := tools; cp_InputTokens := input; cp_OutputTokens := out;
     cp_Generation := generation; cp_Action := action; cp_ContextInjections := injection_of <$> injections;
     cp_ConsumedContextInjectionIDs := ids; cp_Dependencies := dependencies |}.

Definition end_to (e : AgentEndPayload) :=
  (ae_Messages e, (injection_to <$> ae_ContextInjections e, (ae_Output e,
   ((ae_Turns e, (ae_ToolCalls e, (ae_InputTokens e, ae_OutputTokens e))), ae_Cause e)))).

Definition f_end :=
  f_pair (f_list f_message) (f_pair (f_list f_injection) (f_pair f_string (f_pair f_counts f_cause))).

Definition end_of p : AgentEndPayload :=
  let '(messages, (injections, (output, ((turns, (tools, (input, out))), cause)))) := p in
  {| ae_Messages := messages; ae_ContextInjections := injection_of <$> injections; ae_Output := output;
     ae_Turns := turns; ae_ToolCalls := tools; ae_InputTokens := input; ae_OutputTokens := out; ae_Cause := cause |}.

(** ** Text

    A number, so that it is JSON. *)

Fixpoint digits (l : list bool) : string :=
  match l with [] => "" | true :: l => String "1" (digits l) | false :: l => String "0" (digits l) end.

Fixpoint bits (s : string) : list bool :=
  match s with "" => [] | String "1" s => true :: bits s | String _ s => false :: bits s end.

Lemma bits_digits l : bits (digits l) = l.
Proof. induction l as [|[] l IH]; simpl; congruence. Qed.

Definition write {A} (f : format A) (a : A) : string := String "1" (digits (enc f a)).

Definition read_text {A} (f : format A) (s : string) : result A :=
  match s with
  | String "1" s => match dec f (bits s) with Some (a, _) => Ok a | None => Err (errors_New "unexpected end of JSON input") end
  | _ => Err (errors_New "invalid JSON")
  end.

Lemma read_write {A} (f : format A) a : read_text f (write f a) = Ok a.
Proof. simpl. rewrite bits_digits, <-(app_nil_r (enc f a)), dec_enc. done. Qed.

(** ** The codec *)

Definition bit_raw (s : string) : string := string_default s "null".

Definition f_input : format (Message * list Message) := f_pair f_message (f_list f_message).

#[export] Instance bit_codec : PayloadCodec := {|
  json_text := λ s, s;
  json_raw := bit_raw;
  json_injection := bit_injection;
  json_environment := λ _, zeroEnvironment;
  Marshal_payload p := Ok
    match p with
    | PInput i => write f_input (ei_Message i, ei_BaseMessages i)
    | PAgentStart s => write f_start s
    | PProviderResponse r => write f_after_provider (pr_After r)
    | PToolResult r => write f_after_tool (dt_After r)
    | PCheckpoint c => write f_checkpoint (checkpoint_to c)
    | PTerminal e => write f_end (end_to e)
    | PProviderRequest _ | PToolCall _ | PDecision _ | PHeadMove _ _ => "0"
    end;
  Unmarshal_input s :=
    let? p := read_text f_input s in
    Ok (canon_input (λ s, s) bit_raw (λ _, zeroEnvironment)
          {| ei_Message := p.1; ei_BaseMessages := p.2; ei_Environment := zeroEnvironment |});
  Unmarshal_message _ := Err (errors_New "not a message");
  Unmarshal_start s := let? v := read_text f_start s in Ok (canon_start (λ s, s) bit_raw v);
  Unmarshal_after_provider s := let? v := read_text f_after_provider s in Ok (canon_after_provider (λ s, s) bit_raw v);
  Unmarshal_after_tool s := let? v := read_text f_after_tool s in Ok (canon_after_tool (λ s, s) bit_raw v);
  Unmarshal_checkpoint s :=
    let? v := read_text f_checkpoint s in Ok (canon_checkpoint (λ s, s) bit_raw bit_injection (checkpoint_of v));
  Unmarshal_end s := let? v := read_text f_end s in Ok (canon_end (λ s, s) bit_raw bit_injection (end_of v));
|}.

Lemma injections_of_to (l : list ContextInjection) : bit_injection <$> (injection_of <$> (injection_to <$> l)) = bit_injection <$> l.
Proof. rewrite <-!list_fmap_compose. by apply list_fmap_ext. Qed.

Lemma bit_checkpoint c :
  canon_checkpoint (λ s, s) bit_raw bit_injection (checkpoint_of (checkpoint_to c)) =
  canon_checkpoint (λ s, s) bit_raw bit_injection c.
Proof. unfold canon_checkpoint. simpl. by rewrite injections_of_to. Qed.

Lemma bit_end e :
  canon_end (λ s, s) bit_raw bit_injection (end_of (end_to e)) = canon_end (λ s, s) bit_raw bit_injection e.
Proof. unfold canon_end. simpl. by rewrite injections_of_to. Qed.

#[export] Instance bit_codec_laws : PayloadCodecLaws bit_codec.
Proof.
  split.
  - done.
  - done.
  - intros s. simpl. unfold bit_raw, string_default. destruct (String.eqb s "") eqn:E; [done|]. by apply String.eqb_neq.
  - intros s. simpl. unfold bit_raw, string_default. destruct (String.eqb s "") eqn:E; [done|]. by rewrite E.
  - done.
  - intros i s [= <-]. cbn [Unmarshal_input bit_codec]. by rewrite read_write.
  - intros v s [= <-]. cbn [Unmarshal_start bit_codec]. by rewrite read_write.
  - intros v s [= <-]. cbn [Unmarshal_after_provider bit_codec]. by rewrite read_write.
  - intros v s [= <-]. cbn [Unmarshal_after_tool bit_codec]. by rewrite read_write.
  - intros v s [= <-]. cbn [Unmarshal_checkpoint bit_codec]. rewrite read_write. cbn [result_bind].
    f_equal. apply bit_checkpoint.
  - intros v s [= <-]. cbn [Unmarshal_end bit_codec]. rewrite read_write. cbn [result_bind]. f_equal. apply bit_end.
Qed.
