(* ===== verification/PromptExamples.v ===== *)
(** The agent loop on the scripted host: runs that crash and are recovered, and two runs that go wrong. *)
From S2P Require Import Prelude GoText Names Invocation Operation Paging Message ContextInjection Trajectory Agent Lineage Registrar.
From S2P Require Import Composition EventDispatch TrajectoryBranch TrajectoryStore TrajectoryInvariant TrajectoryHistory TrajectoryProperties Payload Durability DurabilityProperties SessionState PromptHost.
From S2P Require Import SessionTrajectory ToolCalls PromptExecution ExecutionCompletion PromptLaws PromptInvariant Recovery LoopBounds ToolCallProperties BitCodec.

(** ** An executable host for the examples: a runtime with one provider and no hooks, whose provider answers
    from a script, whose interruptions come from another, and whose store accepts a bounded number of
    commits, as if the process died after them. *)

Record world := {
  w_store : memoryTrajectoryStore;
  w_next : Z;
  w_responses : list (result ModelResponse);
  w_interrupts : list bool;
  w_queued : list ContextInjection;
  w_commits : nat;
}.

Definition w_bump (w : world) : world :=
  {| w_store := w_store w; w_next := w_next w + 1; w_responses := w_responses w; w_interrupts := w_interrupts w;
     w_queued := w_queued w; w_commits := w_commits w |}.
Definition w_answer (w : world) : world :=
  {| w_store := w_store w; w_next := w_next w; w_responses := tail (w_responses w); w_interrupts := w_interrupts w;
     w_queued := w_queued w; w_commits := w_commits w |}.
Definition w_interrupt (w : world) : world :=
  {| w_store := w_store w; w_next := w_next w; w_responses := w_responses w; w_interrupts := tail (w_interrupts w);
     w_queued := w_queued w; w_commits := w_commits w |}.
Definition w_consume (w : world) (ids : list string) : world :=
  {| w_store := w_store w; w_next := w_next w; w_responses := w_responses w; w_interrupts := w_interrupts w;
     w_queued := filter (λ i, ci_ID i ∉ ids) (w_queued w); w_commits := w_commits w |}.
Definition w_commit (w : world) (st : memoryTrajectoryStore) : world :=
  {| w_store := st; w_next := w_next w; w_responses := w_responses w; w_interrupts := w_interrupts w;
     w_queued := w_queued w; w_commits := pred (w_commits w) |}.

Definition script_mount : mount :=
  {| mt_ID := 1; mt_Source := "builtin";
     mt_Manifest := {| mf_Name := "model"; mf_Version := "1.0.0"; mf_Description := ""; mf_APIVersion := 1;
                       mf_MinAPIVersion := 0; mf_MaxAPIVersion := 0; mf_Requires := []; mf_Conflicts := [];
                       mf_Registers := ["provider:model"] |} |}.

Definition script_snapshot : registrySnapshot :=
  {| sn_generation := 1; sn_plugins := {["model" := script_mount]};
     sn_providers := {["model" := {| or_Value := {| im_Handle := 1; im_Async := true; im_Sync := false |};
                                     or_Spec := {| ps_Name := "model"; ps_Model := "m" |};
                                     or_Owner := script_mount |}]};
     sn_tools := ∅; sn_agents := ∅; sn_hooks := ∅; sn_subscribers := ∅; sn_capabilities := ∅; sn_events := ∅ |}.

Definition script_time : time := 100.
Definition script_clock (i : nat) : time := 100 + Z.of_nat i.
Definition unavailable : error := errors_New "unavailable".

Definition script_commit (commit : TrajectoryExecutionCommit) (w : world) : result TrajectoryMetadata * world :=
  match w_commits w with
  | O => (Err unavailable, w)
  | S _ =>
      match tstore_CommitExecution (w_store w) None commit script_time script_clock with
      | Ok (m, st) => (Ok m, w_commit w st)
      | Err err => (Err err, w)
      end
  end.

Definition script_handle {A} (r : request A) : world → A * world :=
  match r in request A return world → A * world with
  | RCtxErr => λ w, (None, w)
  | RDrainRequested => λ w, (false, w)
  | RFresh => λ w, ((("n" ++ decimal (w_next w))%string, script_time), w_bump w)
  | RAcquireSnapshot => λ w, (Ok script_snapshot, w)
  | RBeforeAgentStart _ payload => λ w, (Ok (payload, zeroDispatchResult), w)
  | RBeforeProvider _ payload => λ w, (Ok (payload, zeroDispatchResult), w)
  | RBeforeTool _ payload => λ w, (Ok (payload, zeroDispatchResult), w)
  | RToolError _ payload => λ w, (Ok (payload, zeroDispatchResult), w)
  | RAfterTool _ payload => λ w, (Ok (payload, zeroDispatchResult), w)
  | RDecide _ _ => λ w, (Ok zeroDispatchResult, w)
  | RProviderOutcome _ _ => λ w, (Ok tt, w)
  | RPrepareEvent _ _ => λ w, (Ok tt, w)
  | RDispatchAfterCommit _ => λ w, (tt, w)
  | RInvokeProvider _ => λ w, (default (Err unavailable) (head (w_responses w)), w_answer w)
  | RInterrupted => λ w, (default false (head (w_interrupts w)), w_interrupt w)
  | RSubmitCall _ _ => λ w, (SubmitFailed unavailable false, w)
  | RAwaitOperation _ => λ w, (AwaitFailed unavailable false, w)
  | RListContextInjections _ => λ w, (Ok (w_queued w), w)
  | RConsumeContextInjections ids => λ w, (tt, w_consume w ids)
  | RAnalyzeEntries _ => λ w, (Ok [], w)
  | RCommitTrajectoryExecution commit => script_commit commit
  | RCancelTrajectoryExecution _ => λ w, (Err unavailable, w)
  | RAppendTrajectoryEntries _ _ _ => λ w, (Err unavailable, w)
  | RGracefulExecutionDrainActive => λ w, (false, w)
  | RExecutionRecoveryHandoffActive => λ w, (false, w)
  end.

#[export] Instance script_host : AgentHost world :=
  {| h_error_text := λ err, match err with Errorf f _ => f | _ => "error" end; h_store := w_store;
     h_handle := @script_handle |}.

#[export] Existing Instance bit_codec.
#[export] Existing Instance forward_order.

Lemma runs_refl id st : runs id st st.
Proof. exists []. split_and!; [constructor|constructor|done]. Qed.

Lemma script_commit_run commit w m w' :
  script_commit commit w = (Ok m, w') →
  ∃ st, tstore_CommitExecution (w_store w) None commit script_time script_clock = Ok (m, st) ∧ w_store w' = st.
Proof.
  unfold script_commit. destruct (w_commits w); [done|].
  destruct (tstore_CommitExecution _ _ _ _ _) as [[m' st]|]; [|done]. intros [= -> <-]. eauto.
Qed.

#[export] Instance script_laws id : HostLaws (W := world) id.
Proof.
  split.
  - intros A r w. destruct r; try apply runs_refl. simpl.
    destruct (script_commit commit w) as [[m|err] w'] eqn:Hc.
    + destruct (script_commit_run _ _ _ _ Hc) as (st & Hst & Heq). simpl. rewrite Heq.
      exists [(None, CallCommit commit script_time script_clock)]. split_and!; [by repeat constructor..|].
      unfold tstore_run. simpl. unfold tstore_exec. simpl. by rewrite Hst.
    + unfold script_commit in Hc. destruct (w_commits w); [injection Hc as _ <-; apply runs_refl|].
      destruct (tstore_CommitExecution _ _ _ _ _) as [[m' st]|]; [done|]. injection Hc as _ <-. apply runs_refl.
  - intros commit w m w' Hc. destruct (script_commit_run _ _ _ _ Hc) as (st & Hst & Heq).
    exists (w_store w), None, script_time, script_clock, st. split_and!; [apply runs_refl|done|]. simpl.
    rewrite Heq. apply runs_refl.
  - done.
  - intros snapshot after w after' d w' [= <- _ _]. done.
Qed.

(** ** An accepted execution

    A trajectory, the execution of a prompt on it, and the session that has claimed it. *)

Definition script_user (text : string) : Message := newPromptUserMessage text.

Definition script_input : TrajectoryEntry :=
  payload_entry ("in1", 10) "" TrajectoryKindUserMessage 1 10
    (get "" (Marshal_payload (PInput {| ei_Message := script_user "hi"; ei_BaseMessages := [];
                                        ei_Environment := zeroEnvironment |}))).

Definition script_start (maxTurns : Z) : TrajectoryExecutionStart :=
  {| es_ID := "x1"; es_Provider := "model"; es_System := "sys"; es_MaxTurns := maxTurns |}.

Definition script_calls (maxTurns : Z) : list (context * tstore_call) :=
  [ (None, CallCreate (ex_trajectory "main" "" "") 1);
    (None, CallBegin "main" "" (script_start maxTurns) script_input 3 (λ i, 10 + Z.of_nat i));
    (None, CallClaim "main" "worker" 60 1000 60 (ex_entropy 7)) ].

Definition script_store (maxTurns : Z) : memoryTrajectoryStore :=
  tstore_run newMemoryTrajectoryStore (script_calls maxTurns).

Lemma script_calls_ok maxTurns : calls_ok (script_calls maxTurns).
Proof. repeat constructor; simpl; auto. Qed.

Lemma script_store_wf maxTurns : tstore_wf (script_store maxTurns).
Proof. apply tstore_run_wf; [apply wf_empty|apply script_calls_ok]. Qed.

Definition script_session (maxTurns : Z) : session :=
  {| ls_config := {| cfg_ID := "main"; cfg_Provider := "model"; cfg_System := "sys"; cfg_MaxTurns := maxTurns;
                     cfg_ReasoningEffort := ""; cfg_ResumePolicy := "" |};
     ls_executionID := "x1"; ls_executionToken := NewID (ex_entropy 7); ls_messages := []; ls_head := "in1";
     ls_consumedContext := ∅; ls_contextInjections := []; ls_causal := ("", "") |}.

Definition script_exec (maxTurns : Z) (responses : list (result ModelResponse)) (interrupts : list bool)
    (queued : list ContextInjection) (commits : nat) : exec world :=
  {| x_session := script_session maxTurns;
     x_prompt := get (newPrompt [] "") (newPromptExecutionFromAcceptedMessages (script_session maxTurns) [] (script_user "hi"));
     x_world := {| w_store := script_store maxTurns; w_next := 1; w_responses := responses;
                   w_interrupts := interrupts; w_queued := queued; w_commits := commits |};
     x_history := no_history |}.

(** A response without tool calls, and one that calls a tool the runtime does not have. *)
Definition script_text (text : string) : ModelResponse :=
  {| mr_Content := text; mr_ToolCalls := None; mr_Model := "m"; mr_FinishReason := "stop"; mr_InputTokens := 5;
     mr_OutputTokens := 2 |}.
Definition script_tool : ModelResponse :=
  {| mr_Content := "look"; mr_ToolCalls := Some [{| tc_ID := "t1"; tc_Name := "ls"; tc_Arguments := Some "{}" |}];
     mr_Model := "m"; mr_FinishReason := "tool"; mr_InputTokens := 5; mr_OutputTokens := 2 |}.

Definition contents (ms : list Message) : list string := msg_Content <$> ms.

Definition script_injection (id text : string) (priority : ContextInjectionPriority) : ContextInjection :=
  {| ci_ID := id; ci_Priority := priority; ci_Mode := ModeOther ""; ci_Origin := ""; ci_TargetSessionID := "main";
     ci_TargetExecutionID := "x1"; ci_IsMeta := false; ci_Messages := [script_user text]; ci_Attributes := ∅;
     ci_CreatedAt := 50 |}.

Definition loaded_branch (st : memoryTrajectoryStore) (head : string) : list TrajectoryEntry :=
  get [] (tstore_LoadBranch st None "main" head).

Lemma script_readable n : n = 1 ∨ n = 5 →
  readable (script_store n) "main" "in1" (loaded_branch (script_store n) "in1").
Proof.
  intros Hn. apply LoadBranch_readable; [apply script_store_wf|]. destruct Hn as [-> | ->]; vm_compute; reflexivity.
Qed.

Lemma script_accepted n responses interrupts queued commits :
  n = 1 ∨ n = 5 → Accepted "main" "x1" (script_exec n responses interrupts queued commits).
Proof.
  intros Hn. exists (script_session n), (x_prompt (script_exec n responses interrupts queued commits)), no_history,
    (loaded_branch (script_store n) "in1").
  split_and!; [|done|done| |].
  - split_and!; [done..|]. by apply script_readable.
  - unfold saved_ok. simpl. destruct Hn as [-> | ->]; vm_compute; repeat constructor; intros H; discriminate H.
  - destruct Hn as [-> | ->]; vm_compute; eexists; reflexivity.
Qed.

(** ** A crash, a recovery and a second crash *)

Definition crashed_run : exec world :=
  (runFromStart 5 (script_exec 5 [Ok script_tool; Ok (script_text "done")] [] [] 8)).2.

(** Another process claims the execution. *)
Definition second_process (x : exec world) (commits : nat) : exec world :=
  {| x_session := with_head (script_session 5) (ls_head (x_session x));
     x_prompt := newPrompt [] "";
     x_world := {| w_store := w_store (x_world x); w_next := w_next (x_world x); w_responses := [Ok script_tool];
                   w_interrupts := []; w_queued := []; w_commits := commits |};
     x_history := x_history x |}.

Lemma second_process_keeps x commits :
  ls_head (x_session (second_process x commits)) = ls_head (x_session x) ∧
  x_history (second_process x commits) = x_history x ∧
  runs "main" (h_store (x_world x)) (h_store (x_world (second_process x commits))).
Proof. split_and!; [reflexivity..|apply runs_refl]. Qed.

Definition no_metadata : TrajectoryMetadata :=
  {| tm_SchemaVersion := 0; tm_ID := ""; tm_ParentID := ""; tm_ParentEntryID := ""; tm_CreatedAt := 0; tm_UpdatedAt := 0;
     tm_Head := ""; tm_Checkpoint := ""; tm_Execution := None; tm_Environment := zeroEnvironment; tm_EntryCount := 0;
     tm_OwnedEntryCount := 0 |}.

Definition main_metadata (x : exec world) : TrajectoryMetadata :=
  get no_metadata (tstore_LoadMetadata (w_store (x_world x)) None "main").

Definition accepted_entry (x : exec world) : TrajectoryEntry :=
  get script_input (tstore_LoadEntry (w_store (x_world x)) None "main" "in1").

Definition recovered_run : exec world :=
  let y := second_process crashed_run 3 in
  (continueRecoveredExecution 5 None (main_metadata y) (accepted_entry y) y).2.

Lemma crashed_recoverable :
  recoverable_from "main" "x1" (second_process crashed_run 3) (main_metadata (second_process crashed_run 3))
    (accepted_entry (second_process crashed_run 3)).
Proof.
  split_and!; [vm_compute; reflexivity..|vm_compute; eexists; split; reflexivity|].
  exists [], (tail (loaded_branch (w_store (x_world crashed_run)) (ls_head (x_session crashed_run)))).
  eexists. split; vm_compute; reflexivity.
Qed.

Lemma recovered_stopped : stopped "main" "x1" recovered_run.
Proof.
  unfold recovered_run. apply (stopped_again "main" "x1" 5 crashed_run (second_process crashed_run 3)).
  - apply stopped_first, script_accepted. by right.
  - vm_compute. reflexivity.
  - split_and!; [vm_compute; reflexivity..|]. vm_compute. discriminate.
  - apply second_process_keeps.
  - apply second_process_keeps.
  - apply second_process_keeps.
  - apply crashed_recoverable.
Qed.

(** Recovery finds the checkpoint of the first process, though the second one wrote after it. *)
Lemma execution_recovery_exact_witness :
  ∃ commit e checkpoint, hs_saved (x_history recovered_run) = Some commit ∧
    contents (ck_Messages commit) = ["hi"; "look"; "unknown or unavailable tool %q"] ∧
    LatestExecutionCheckpoint (w_store (x_world recovered_run)) None (main_metadata recovered_run) =
      Ok (Some (e, checkpoint)) ∧ restores commit e checkpoint.
Proof.
  assert (∃ ex, tm_Execution (main_metadata recovered_run) = Some ex ∧ ex_ID ex = "x1") as (ex & Hex & Hid)
    by (vm_compute; eexists; split; reflexivity).
  pose proof (execution_recovery_exact "main" "x1" recovered_run (w_store (x_world recovered_run))
    (main_metadata recovered_run) ex ltac:(discriminate) recovered_stopped ltac:(vm_compute; reflexivity)
    ltac:(apply runs_refl) ltac:(vm_compute; reflexivity) ltac:(vm_compute; reflexivity) Hex Hid) as H.
  destruct (hs_saved (x_history recovered_run)) as [commit|] eqn:Hc; [|vm_compute in Hc; discriminate Hc].
  destruct H as (e & checkpoint & H1 & H2). exists commit, e, checkpoint.
  split; [reflexivity|]. split; [|split; [exact H1|exact H2]].
  vm_compute in Hc. injection Hc as <-. reflexivity.
Defined.

(** ** A failure *)

Definition failed_run : exec world :=
  (runFromStart 5 (script_exec 5 [Ok script_tool; Err unavailable] [] [] 100)).2.

Lemma stopped_wf x : stopped "main" "x1" x → tstore_wf (h_store (x_world x)).
Proof.
  intros H. destruct (stopped_Hist "main" "x1" ltac:(discriminate) _ H) as (s & p & h & b & (_ & _ & _ & Hb & _) & _).
  exact Hb.
Qed.

Lemma failed_run_wf : tstore_wf (h_store (x_world failed_run)).
Proof. apply stopped_wf. apply stopped_first, script_accepted. by right. Qed.

Lemma failed_execution_restores_base_witness :
  ∃ x' move, failExecution None (Some unavailable) zeroResult failed_run = (Ok tt, x') ∧
    tstore_LoadBranch (w_store (x_world x')) None "main" (ls_head (x_session x')) = Ok [move] ∧
    te_Kind move = TrajectoryKindRestore ∧ ls_messages (x_session x') = [].
Proof.
  assert (stays (W := world)) as Hstay by (by intros w).
  assert (cfg_ID (ls_config (x_session failed_run)) = "main") as Hid by (vm_compute; reflexivity).
  assert (ls_executionID (x_session failed_run) ≠ "") as Heid by (vm_compute; discriminate).
  assert (ls_executionToken (x_session failed_run) ≠ "") as Htok by (vm_compute; discriminate).
  destruct (failExecution None (Some unavailable) zeroResult failed_run) as [[[]|] x'] eqn:Hf;
    [|vm_compute in Hf; discriminate Hf].
  destruct (failed_execution_restores_base "main" _ _ _ _ Hstay failed_run_wf Hid Heid Htok Hf)
    as (metadata & execution & b & move & Hm & Hex & Hk & Hb & Hb' & Hms & _).
  exists x', move. vm_compute in Hm. injection Hm as <-. vm_compute in Hex. injection Hex as <-.
  vm_compute in Hb. injection Hb as <-. injection Hms as Hms. split; [reflexivity|]. split; [exact Hb'|].
  split; [exact Hk|]. rewrite <-Hms. reflexivity.
Defined.

(** ** Termination *)

Definition interrupts_left (w : world) : nat := length (List.filter (λ b, b) (w_interrupts w)).

Lemma interrupts_left_handle A (r : request A) w : (interrupts_left (h_handle r w).2 ≤ interrupts_left w)%nat.
Proof.
  destruct r; try apply le_n; simpl.
  - unfold interrupts_left. simpl. destruct (w_interrupts w) as [|[] l]; simpl; lia.
  - unfold script_commit. destruct (w_commits w); [apply le_n|].
    by destruct (tstore_CommitExecution _ _ _ _ _) as [[]|].
Qed.

Lemma agent_loop_terminates_witness :
  ∃ r x', runFromStart 7 (script_exec 5 [Ok (script_text "a"); Ok (script_text "b")] [true; false; true] [] 100) = (Some r, x').
Proof.
  apply (agent_loop_terminates interrupts_left); [apply interrupts_left_handle| |vm_compute; reflexivity|vm_compute; lia].
  intros w. unfold interrupts_left. simpl. destruct (w_interrupts w) as [|[] l]; simpl; [done|lia|done].
Defined.

(** ** Tools *)



(** ** Findings *)

(** An answer that is already in the trajectory can be dropped from the conversation.  [executeTurn] looks
    at the interruption after [callProvider] has committed the response: the turn is tried again without
    the response, while the branch keeps it, so that a session resumed from the trajectory has a message
    that the running one never had. *)
Theorem interrupted_answer_stays_in_branch :
  let x := (runFromStart 5 (script_exec 5 [Ok (script_text "first"); Ok (script_text "second")] [true] [] 100)).2 in
  contents (px_messages (x_prompt x)) = ["hi"; "second"] ∧
  (contents <$> match LoadBranchMessages (w_store (x_world x)) None "main" (ls_head (x_session x)) with
                | Ok ms => Some ms
                | Err _ => None
                end) = Some ["hi"; "first"; "second"].
Proof. vm_compute. split; reflexivity. Qed.

(** Context that is queued for after the last turn fails the execution.  The model ends in its last allowed
    turn; [applyAction] drains the queue instead of stopping, the turn advances past the bound, and the
    loop ends without a terminal action: the execution fails although the model had answered. *)
Theorem context_after_last_turn_fails :
  let '(r, x) := runFromStart 5 (script_exec 1 [Ok (script_text "done")] [] [script_injection "c1" "more" ContextInjectionLater] 100) in
  r = Some (zeroResult, Some (errors_New "agent loop exited without a terminal action")) ∧
  contents (px_messages (x_prompt x)) = ["hi"; "done"; "more"] ∧
  fst <$> (runFromStart 5 (script_exec 1 [Ok (script_text "done")] [] [] 100)).1 =
    Some (with_end (px_messages (x_prompt (runFromStart 5 (script_exec 1 [Ok (script_text "done")] [] [] 100)).2)) modelEnd
            (with_generation 1 (record_response 0 (script_text "done") zeroResult))).
Proof. vm_compute. split_and!; reflexivity. Qed.

(** ** Projections *)

Definition short_run : exec world := (runFromStart 5 (script_exec 5 [Ok (script_text "done")] [] [] 3)).2.

Lemma inspected_messages_exact_witness :
  let st := w_store (x_world short_run) in
  let branch := loaded_branch st (ls_head (x_session short_run)) in
  length branch = 4%nat ∧
  LoadInspectedBranchMessages (tstore_LoadEntry st None "main") "main" (inspection <$> branch) =
    BranchMessages "main" branch.
Proof.
  split; [vm_compute; reflexivity|]. apply inspected_messages_exact; [discriminate|].
  vm_compute. repeat (constructor; [reflexivity|]). constructor.
Defined.

