(* ===== verification/ResumeEnvironment.v ===== *)
(** The environment of a session, [sdk/runtime/durability_environment.go] with [sdk/trajectory_environment.go]
    and the catalog of [composition_catalog.go]: which part of the mounted composition an execution
    sees, how a trajectory records it, and how a resumed session finds the same composition again. *)

From S2P Require Import Prelude GoText Names Paging Message ContextInjection Trajectory TrajectoryStore Sha256.
From S2P Require Import Agent Registrar Composition EventDispatch Payload Durability SessionState.

(** ** The catalog *)

Record MountedPlugin := {
  mp_Name : string;
  mp_Version : string;
  mp_Description : string;
  mp_Source : string;
  mp_Registers : list string;
}.

Record CatalogSnapshot := {
  ct_Generation : Z;
  ct_Plugins : list MountedPlugin;
  ct_Providers : list ProviderSpec;
  ct_Tools : list ToolSpec;
  ct_Agents : list AgentSpec;
  ct_Hooks : list HookSpec;
  ct_Subscribers : list SubscriberSpec;
  ct_Capabilities : list CapabilitySpec;
  ct_Events : list EventContract;
}.

(** [slices.SortFunc] by name. *)
Definition by_name {A} (name : A → string) (l : list A) : list A :=
  SortFunc (λ left right, strings_Compare (name left) (name right)) l.

Definition mounted_plugin (state : mount) : MountedPlugin :=
  {| mp_Name := mf_Name (mt_Manifest state); mp_Version := mf_Version (mt_Manifest state);
     mp_Description := mf_Description (mt_Manifest state); mp_Source := mt_Source state;
     mp_Registers := mf_Registers (mt_Manifest state) |}.

(** The values of a map, in the order of one loop. *)
Definition ranged {V} `{!MapOrder} (loop : nat) (m : gmap string V) : list V := snd <$> range_map loop m.

Definition catalogFromSnapshot `{!MapOrder} (snapshot : registrySnapshot) : CatalogSnapshot :=
  {| ct_Generation := sn_generation snapshot;
     ct_Plugins := by_name mp_Name (mounted_plugin <$> ranged 20 (sn_plugins snapshot));
     ct_Providers := by_name ps_Name (or_Spec <$> ranged 21 (sn_providers snapshot));
     ct_Tools := by_name ts_Name (or_Spec <$> ranged 22 (sn_tools snapshot));
     ct_Agents := by_name as_Name (oa_Spec <$> ranged 23 (sn_agents snapshot));
     ct_Hooks := by_name hs_Name (hooks ← ranged 24 (sn_hooks snapshot); oh_Spec <$> hooks);
     ct_Subscribers := by_name ss_Name (or_Spec <$> ranged 25 (sn_subscribers snapshot));
     ct_Capabilities := by_name cs_Name (or_Spec <$> ranged 26 (sn_capabilities snapshot));
     ct_Events := by_name ec_Name (oe_Contract <$> ranged 27 (sn_events snapshot)) |}.

(** ** Which part an execution sees *)

Definition includePluginOwner (plugins : gmap string mount) (owner : option mount) : gmap string mount :=
  match owner with Some state => <[mt_Name state := state]> plugins | None => plugins end.

Definition include_owners (plugins : gmap string mount) (owners : list (option mount)) : gmap string mount :=
  foldl includePluginOwner plugins owners.

Definition subscriberObservesSessionExecution (spec : SubscriberSpec) : bool :=
  existsb builtinEventInSessionExecution (ss_Events spec).

Definition live_event (name : string) : bool :=
  builtinEventInSessionExecution name && negb (builtinEventInTrajectoryEnvironment name).

Definition subscriberObservesLiveExecutionOnly (spec : SubscriberSpec) : bool :=
  existsb live_event (ss_Events spec).

Definition executionCanInvokeAgents (tools : gmap string (ownedResource ToolSpec)) : bool :=
  negb (size tools =? 0)%nat.

(** The hooks of the events that a trajectory records; an event without a hook has no list. *)
Definition environment_hooks (hooks : gmap string (list ownedHook)) : gmap string (list ownedHook) :=
  filter (λ p, builtinEventInTrajectoryEnvironment p.1 = true ∧ p.2 ≠ []) hooks.

Definition owners_of {V} `{!MapOrder} (loop : nat) (owner : V → mount) (m : gmap string V) : list (option mount) :=
  (λ v, Some (owner v)) <$> ranged loop m.

Definition executionSnapshotForSession `{!MapOrder} (current : registrySnapshot) : registrySnapshot :=
  let agents := if executionCanInvokeAgents (sn_tools current) then sn_agents current else ∅ in
  let hooks := environment_hooks (sn_hooks current) in
  let subscribers := filter (λ p, subscriberObservesSessionExecution (or_Spec p.2) = true) (sn_subscribers current) in
  let plugins := include_owners ∅ (owners_of 30 or_Owner (sn_providers current)) in
  let plugins := include_owners plugins (owners_of 31 or_Owner (sn_tools current)) in
  let plugins := include_owners plugins (owners_of 32 oa_Owner agents) in
  let plugins := include_owners plugins (l ← ranged 33 hooks; (λ h, Some (oh_Owner h)) <$> l) in
  let plugins := include_owners plugins (owners_of 34 or_Owner subscribers) in
  {| sn_generation := sn_generation current; sn_plugins := plugins; sn_providers := sn_providers current;
     sn_tools := sn_tools current; sn_agents := agents; sn_hooks := hooks; sn_subscribers := subscribers;
     sn_capabilities := ∅;
     sn_events := filter (λ p, builtinEventInSessionExecution p.1 = true) (sn_events current) |}.

(** ** What a trajectory records *)

Definition trajectoryEnvironmentEventContracts (contracts : list EventContract) : list EventContract :=
  filter (λ contract, builtinEventInTrajectoryEnvironment (ec_Name contract) = true) contracts.

Definition filter_events (spec : SubscriberSpec) : SubscriberSpec :=
  {| ss_Name := ss_Name spec; ss_Timeout := ss_Timeout spec;
     ss_Events := filter (λ event, builtinEventInTrajectoryEnvironment event = true) (ss_Events spec) |}.

Definition trajectoryEnvironmentSubscriberSpecs (specs : list SubscriberSpec) : list SubscriberSpec :=
  filter (λ spec, ss_Events spec ≠ []) (filter_events <$> specs).

(** The names of the owners of the recorded resources that the snapshot has. *)
Definition owner_names {V} (m : gmap string V) (owner : V → option mount) (names : list string) : gset string :=
  list_to_set (mt_Name <$> omap (λ name, v ← m !! name; owner v) names).

Definition hook_owner_names (hooks : gmap string (list ownedHook)) (names : list string) : gset string :=
  list_to_set (l ← map_values hooks;
               (λ h, mt_Name (oh_Owner h)) <$> filter (λ h, hs_Name (oh_Spec h) ∈ names) l).

Definition trajectoryEnvironmentPluginNames (snapshot : registrySnapshot) (environment : TrajectoryEnvironment) : gset string :=
  owner_names (sn_providers snapshot) (Some ∘ or_Owner) (ps_Name <$> env_Providers environment) ∪
  owner_names (sn_tools snapshot) (Some ∘ or_Owner) (ts_Name <$> env_Tools environment) ∪
  owner_names (sn_agents snapshot) (Some ∘ oa_Owner) (as_Name <$> env_Agents environment) ∪
  hook_owner_names (sn_hooks snapshot) (hs_Name <$> env_Hooks environment) ∪
  owner_names (sn_subscribers snapshot) (Some ∘ or_Owner) (ss_Name <$> env_Subscribers environment) ∪
  owner_names (sn_capabilities snapshot) (Some ∘ or_Owner) (cs_Name <$> env_Capabilities environment) ∪
  owner_names (sn_events snapshot) oe_Owner (ec_Name <$> env_Events environment).

Definition trajectory_plugin (plugin : MountedPlugin) : TrajectoryPlugin :=
  {| tp_Name := mp_Name plugin; tp_Version := mp_Version plugin; tp_Registers := mp_Registers plugin |}.

(** [digestTrajectoryBytes]. *)
Definition TrajectorySystemDigest (system : string) : string := sha256_hex system.

(** [trajectoryEnvironmentComposition]. *)
Record composition := {
  co_SDKAPIVersion : Z;
  co_Plugins : list TrajectoryPlugin;
  co_Providers : list ProviderSpec;
  co_Tools : list ToolSpec;
  co_Agents : list AgentSpec;
  co_Hooks : list HookSpec;
  co_Subscribers : list SubscriberSpec;
  co_Capabilities : list CapabilitySpec;
  co_Events : list EventContract;
}.

Definition composition_of (environment : TrajectoryEnvironment) : composition :=
  {| co_SDKAPIVersion := env_SDKAPIVersion environment; co_Plugins := env_Plugins environment;
     co_Providers := env_Providers environment; co_Tools := env_Tools environment;
     co_Agents := env_Agents environment; co_Hooks := env_Hooks environment;
     co_Subscribers := env_Subscribers environment; co_Capabilities := env_Capabilities environment;
     co_Events := env_Events environment |}.

(** [encoding/json] on a composition and on an environment. *)
Class EnvironmentCodec := {
  Marshal_composition : composition → result string;
  Unmarshal_environment : string → result TrajectoryEnvironment;
}.

Definition with_digest (environment : TrajectoryEnvironment) (digest : string) : TrajectoryEnvironment :=
  {| env_SDKAPIVersion := env_SDKAPIVersion environment; env_RuntimeVersion := env_RuntimeVersion environment;
     env_CreatedGeneration := env_CreatedGeneration environment;
     env_ParentSessionID := env_ParentSessionID environment;
     env_OriginInvocationID := env_OriginInvocationID environment;
     env_OriginInvocationRootID := env_OriginInvocationRootID environment;
     env_OriginForkInvocationID := env_OriginForkInvocationID environment;
     env_OriginMode := env_OriginMode environment; env_RequestedProvider := env_RequestedProvider environment;
     env_SystemDigest := env_SystemDigest environment; env_CompositionDigest := digest;
     env_Plugins := env_Plugins environment; env_Providers := env_Providers environment;
     env_Tools := env_Tools environment; env_Agents := env_Agents environment;
     env_Hooks := env_Hooks environment; env_Subscribers := env_Subscribers environment;
     env_Capabilities := env_Capabilities environment; env_Events := env_Events environment |}.

Definition with_plugins (environment : TrajectoryEnvironment) (plugins : list TrajectoryPlugin) : TrajectoryEnvironment :=
  {| env_SDKAPIVersion := env_SDKAPIVersion environment; env_RuntimeVersion := env_RuntimeVersion environment;
     env_CreatedGeneration := env_CreatedGeneration environment;
     env_ParentSessionID := env_ParentSessionID environment;
     env_OriginInvocationID := env_OriginInvocationID environment;
     env_OriginInvocationRootID := env_OriginInvocationRootID environment;
     env_OriginForkInvocationID := env_OriginForkInvocationID environment;
     env_OriginMode := env_OriginMode environment; env_RequestedProvider := env_RequestedProvider environment;
     env_SystemDigest := env_SystemDigest environment; env_CompositionDigest := env_CompositionDigest environment;
     env_Plugins := plugins; env_Providers := env_Providers environment;
     env_Tools := env_Tools environment; env_Agents := env_Agents environment;
     env_Hooks := env_Hooks environment; env_Subscribers := env_Subscribers environment;
     env_Capabilities := env_Capabilities environment; env_Events := env_Events environment |}.

Definition TrajectoryEnvironmentHasCompositionSnapshot (e : TrajectoryEnvironment) : bool :=
  negb (length (env_Plugins e) =? 0)%nat || negb (length (env_Providers e) =? 0)%nat ||
  negb (length (env_Tools e) =? 0)%nat || negb (length (env_Agents e) =? 0)%nat ||
  negb (length (env_Hooks e) =? 0)%nat || negb (length (env_Subscribers e) =? 0)%nat ||
  negb (length (env_Capabilities e) =? 0)%nat || negb (length (env_Events e) =? 0)%nat.

Section environments.
Context `{!EnvironmentCodec}.

Definition TrajectoryEnvironmentCompositionDigest (environment : TrajectoryEnvironment) : result string :=
  match Marshal_composition (composition_of environment) with
  | Err err => Err (Wrapf "encode trajectory environment composition: %w" [] err)
  | Ok raw => Ok (sha256_hex raw)
  end.

Definition FinalizeTrajectoryEnvironment (environment : TrajectoryEnvironment) : result TrajectoryEnvironment :=
  let? digest := TrajectoryEnvironmentCompositionDigest environment in
  Ok (with_digest environment digest).

(** The environment before its plugins and its digest. *)
Definition resource_environment (version : string) (catalog : CatalogSnapshot) (config : SessionConfig)
    : TrajectoryEnvironment :=
  {| env_SDKAPIVersion := APIVersion; env_RuntimeVersion := version; env_CreatedGeneration := ct_Generation catalog;
     env_ParentSessionID := ""; env_OriginInvocationID := ""; env_OriginInvocationRootID := "";
     env_OriginForkInvocationID := ""; env_OriginMode := ""; env_RequestedProvider := cfg_Provider config;
     env_SystemDigest := TrajectorySystemDigest (cfg_System config); env_CompositionDigest := "";
     env_Plugins := []; env_Providers := ct_Providers catalog; env_Tools := ct_Tools catalog;
     env_Agents := ct_Agents catalog; env_Hooks := ct_Hooks catalog;
     env_Subscribers := trajectoryEnvironmentSubscriberSpecs (ct_Subscribers catalog);
     env_Capabilities := ct_Capabilities catalog;
     env_Events := trajectoryEnvironmentEventContracts (ct_Events catalog) |}.

Definition newTrajectoryEnvironment `{!MapOrder} (version : string) (snapshot : registrySnapshot) (config : SessionConfig)
    : result TrajectoryEnvironment :=
  let catalog := catalogFromSnapshot snapshot in
  let environment := resource_environment version catalog config in
  let pluginNames := trajectoryEnvironmentPluginNames snapshot environment in
  let environment :=
    with_plugins environment (trajectory_plugin <$> filter (λ plugin, mp_Name plugin ∈ pluginNames) (ct_Plugins catalog)) in
  match FinalizeTrajectoryEnvironment environment with
  | Err err => Err (Wrapf "finalize trajectory environment: %w" [] err)
  | Ok environment => Ok environment
  end.

Definition newExecutionEnvironment `{!MapOrder} (version : string) (snapshot : registrySnapshot) (config : SessionConfig)
    : result (registrySnapshot * TrajectoryEnvironment) :=
  let executionSnapshot := executionSnapshotForSession snapshot in
  let? environment := newTrajectoryEnvironment version executionSnapshot config in
  Ok (executionSnapshot, environment).

(** ** Finding the composition again *)

Definition ErrResumeEnvironmentMismatch : error :=
  Errorf "current runtime composition is incompatible with trajectory" [].

Definition validateResumeEnvironment (recorded current : TrajectoryEnvironment) : result unit :=
  if (env_SDKAPIVersion recorded =? 0) && is_empty (env_CompositionDigest recorded) then Ok tt else
  fail_if negb (env_SDKAPIVersion recorded =? env_SDKAPIVersion current) with
    Wrapf "%w: SDK API version changed from %d to %d"
      [ANum (env_SDKAPIVersion recorded); ANum (env_SDKAPIVersion current)] ErrResumeEnvironmentMismatch;
  fail_if negb (bool_decide (env_CompositionDigest recorded = env_CompositionDigest current)) with
    Wrapf "%w: composition digest changed from %s to %s"
      [AStr (env_CompositionDigest recorded); AStr (env_CompositionDigest current)] ErrResumeEnvironmentMismatch;
  Ok tt.

(** The loops of [snapshotForTrajectoryEnvironment] over the recorded specifications. *)
Fixpoint copy_named {V} (missing : string) (current : gmap string V) (names : list string) (result : gmap string V)
    : Prelude.result (gmap string V) :=
  match names with
  | [] => Ok result
  | name :: rest =>
      match current !! name with
      | None => Err (Errorf missing [AStr name])
      | Some v => copy_named missing current rest (<[name := v]> result)
      end
  end.

(** The owners of named resources, in the order of the names. *)
Definition named_owners {V} (owner : V → mount) (current : gmap string V) (names : list string) : list (option mount) :=
  (λ name, owner <$> current !! name) <$> names.

(** The hooks of a list whose names are still wanted, and the names that are left. *)
Fixpoint take_hooks (wanted : gset string) (hooks : list ownedHook) : list ownedHook * gset string :=
  match hooks with
  | [] => ([], wanted)
  | hook :: rest =>
      if bool_decide (hs_Name (oh_Spec hook) ∈ wanted) then
        let '(taken, wanted) := take_hooks (wanted ∖ {[hs_Name (oh_Spec hook)]}) rest in (hook :: taken, wanted)
      else take_hooks wanted rest
  end.

Fixpoint copy_hooks_loop (wanted : gset string) (src : list (string * list ownedHook)) (dst : gmap string (list ownedHook))
    : gmap string (list ownedHook) * gset string :=
  match src with
  | [] => (dst, wanted)
  | (event, hooks) :: rest =>
      let '(taken, wanted) := take_hooks wanted hooks in
      copy_hooks_loop wanted rest (match taken with [] => dst | _ => <[event := default [] (dst !! event) ++ taken]> dst end)
  end.

Definition copyEnvironmentHooks `{!MapOrder} (src : gmap string (list ownedHook)) (specs : list HookSpec)
    : result (gmap string (list ownedHook)) :=
  let '(dst, wanted) := copy_hooks_loop (list_to_set (hs_Name <$> specs)) (range_map 40 src) ∅ in
  match range_map 41 (gset_to_gmap tt wanted) with
  | (name, _) :: _ => Err (Errorf "trajectory environment: hook %q is unavailable" [AStr name])
  | [] => Ok dst
  end.

Definition live_event_names : list string :=
  (ec_Name ∘ be_Contract) <$>
    filter (λ b, be_sessionExecutionScoped b && negb (be_trajectoryEnvironmentScoped b) = true) builtinEventContracts.

Definition live_subscribers (recorded current : gmap string (ownedResource SubscriberSpec))
    : gmap string (ownedResource SubscriberSpec) :=
  filter (λ p, recorded !! p.1 = None ∧ subscriberObservesLiveExecutionOnly (or_Spec p.2) = true) current.

Definition snapshotForTrajectoryEnvironment `{!MapOrder} (current : registrySnapshot) (environment : TrajectoryEnvironment)
    : result registrySnapshot :=
  if (env_SDKAPIVersion environment =? 0) && is_empty (env_CompositionDigest environment) then Ok current else
  let plugin_names := tp_Name <$> env_Plugins environment in
  let? recorded := copy_named "trajectory environment: plugin %q is unavailable" (sn_plugins current) plugin_names ∅ in
  let plugins := include_owners ∅ (named_owners id (sn_plugins current) plugin_names) in
  let provider_names := ps_Name <$> env_Providers environment in
  let? providers := copy_named "trajectory environment: provider %q is unavailable" (sn_providers current) provider_names ∅ in
  let plugins := include_owners plugins (named_owners or_Owner (sn_providers current) provider_names) in
  let tool_names := ts_Name <$> env_Tools environment in
  let? tools := copy_named "trajectory environment: tool %q is unavailable" (sn_tools current) tool_names ∅ in
  let plugins := include_owners plugins (named_owners or_Owner (sn_tools current) tool_names) in
  let agent_names := as_Name <$> env_Agents environment in
  let? agents := copy_named "trajectory environment: agent %q is unavailable" (sn_agents current) agent_names ∅ in
  let plugins := include_owners plugins (named_owners oa_Owner (sn_agents current) agent_names) in
  let? hooks := copyEnvironmentHooks (sn_hooks current) (env_Hooks environment) in
  let plugins := include_owners plugins (l ← ranged 46 hooks; (λ h, Some (oh_Owner h)) <$> l) in
  let subscriber_names := ss_Name <$> env_Subscribers environment in
  let? subscribers := copy_named "trajectory environment: subscriber %q is unavailable" (sn_subscribers current) subscriber_names ∅ in
  let plugins := include_owners plugins (named_owners or_Owner (sn_subscribers current) subscriber_names) in
  let capability_names := cs_Name <$> env_Capabilities environment in
  let? capabilities := copy_named "trajectory environment: capability %q is unavailable" (sn_capabilities current) capability_names ∅ in
  let plugins := include_owners plugins (named_owners or_Owner (sn_capabilities current) capability_names) in
  let? events := copy_named "trajectory environment: event %q is unavailable" (sn_events current)
                   (ec_Name <$> env_Events environment) ∅ in
  let? events := copy_named "trajectory environment: live event %q is unavailable" (sn_events current)
                   live_event_names events in
  let plugins := include_owners plugins (oe_Owner <$> ranged 49 events) in
  let live := live_subscribers subscribers (sn_subscribers current) in
  let plugins := include_owners plugins (owners_of 50 or_Owner live) in
  Ok {| sn_generation := sn_generation current; sn_plugins := plugins; sn_providers := providers; sn_tools := tools;
        sn_agents := agents; sn_hooks := hooks; sn_subscribers := subscribers ∪ live;
        sn_capabilities := capabilities; sn_events := events |}.

Inductive resumeEnvironmentSource := resumeEnvironmentFallback | resumeEnvironmentDigest | resumeEnvironmentSnapshot.

Record resumeEnvironment := {
  re_environment : TrajectoryEnvironment;
  re_source : resumeEnvironmentSource;
}.

Definition newResumeEnvironment (environment : TrajectoryEnvironment) : resumeEnvironment :=
  {| re_environment := environment;
     re_source :=
       if TrajectoryEnvironmentHasCompositionSnapshot environment then resumeEnvironmentSnapshot
       else if negb (env_SDKAPIVersion environment =? 0) || negb (is_empty (env_CompositionDigest environment))
       then resumeEnvironmentDigest else resumeEnvironmentFallback |}.

Definition snapshotSourceForRecordedEnvironment (fallback : TrajectoryEnvironment) (recorded : resumeEnvironment)
    : TrajectoryEnvironment :=
  match re_source recorded with
  | resumeEnvironmentSnapshot => re_environment recorded
  | resumeEnvironmentDigest =>
      let digest := env_CompositionDigest (re_environment recorded) in
      if negb (is_empty digest) && negb (bool_decide (digest = env_CompositionDigest fallback))
      then zeroEnvironment else fallback
  | resumeEnvironmentFallback => fallback
  end.

Definition resolveResumeSnapshot `{!MapOrder} (version : string) (current : registrySnapshot) (fallback : TrajectoryEnvironment)
    (recorded : resumeEnvironment) (config : SessionConfig) : result registrySnapshot :=
  let? resumeSnapshot :=
    snapshotForTrajectoryEnvironment current (snapshotSourceForRecordedEnvironment fallback recorded) in
  let? resolved := newTrajectoryEnvironment version resumeSnapshot config in
  try? validateResumeEnvironment (re_environment recorded) resolved;
  Ok resumeSnapshot.
End environments.

(** ** The environment an execution recorded *)

Definition is_digit (c : ascii) : bool := let n := nat_of_ascii c in (48 <=? n)%nat && (n <=? 57)%nat.

Fixpoint digits_value (acc : Z) (s : string) : option Z :=
  match s with
  | "" => Some acc
  | String c rest =>
      if is_digit c then digits_value (acc * 10 + (Z.of_nat (nat_of_ascii c) - 48)) rest else None
  end.

(** [strconv.Atoi]: an optional sign and digits, within the range of an [int]. *)
Definition Atoi (s : string) : option Z :=
  let unsigned rest := match rest with "" => None | _ => digits_value 0 rest end in
  let value :=
    match s with
    | String "+" rest => unsigned rest
    | String "-" rest => Z.opp <$> unsigned rest
    | _ => unsigned s
    end in
  match value with
  | Some v => if (- two63 <=? v) && (v <? two63) then Some v else None
  | None => None
  end.

Definition executionEnvironmentAttribute : string := "ag.runtime.environment".
Definition executionCompositionDigestAttribute : string := "ag.runtime.composition_digest".
Definition executionSDKAPIVersionAttribute : string := "ag.runtime.sdk_api_version".

Definition attribute (entry : TrajectoryEntry) (name : string) : string := default "" (te_Attributes entry !! name).

Definition digest_environment (version : Z) (digest : string) : TrajectoryEnvironment :=
  {| env_SDKAPIVersion := version; env_RuntimeVersion := ""; env_CreatedGeneration := 0; env_ParentSessionID := "";
     env_OriginInvocationID := ""; env_OriginInvocationRootID := ""; env_OriginForkInvocationID := "";
     env_OriginMode := ""; env_RequestedProvider := ""; env_SystemDigest := ""; env_CompositionDigest := digest;
     env_Plugins := []; env_Providers := []; env_Tools := []; env_Agents := []; env_Hooks := [];
     env_Subscribers := []; env_Capabilities := []; env_Events := [] |}.

Section recorded.
Context `{!PayloadCodec} `{!EnvironmentCodec}.

(** A recorded environment must name an API version and a digest. *)
Definition checked_environment (input : TrajectoryEntry) (environment : TrajectoryEnvironment) : result resumeEnvironment :=
  fail_if (env_SDKAPIVersion environment <? 1) || is_empty (env_CompositionDigest environment) with
    Errorf "trajectory execution input %s has invalid runtime environment" [AStr (te_ID input)];
  Ok {| re_environment := environment; re_source := resumeEnvironmentSnapshot |}.

Definition executionResumeEnvironment (fallback : TrajectoryEnvironment) (input : TrajectoryEntry) : result resumeEnvironment :=
  let? carried :=
    (if bool_decide (te_Kind input = TrajectoryKindUserMessage) then
       let? decoded := DecodeExecutionInput (te_TrajectoryID input) input in
       Ok (if di_HasEnvironment decoded then Some (di_Environment decoded) else None)
     else Ok None) in
  match carried with
  | Some environment => checked_environment input environment
  | None =>
      let rawEnvironment := attribute input executionEnvironmentAttribute in
      if negb (is_empty rawEnvironment) then
        match Unmarshal_environment rawEnvironment with
        | Err err => Err (Wrapf "decode trajectory execution environment %s: %w" [AStr (te_ID input)] err)
        | Ok environment => checked_environment input environment
        end
      else
      let digest := attribute input executionCompositionDigestAttribute in
      let rawVersion := attribute input executionSDKAPIVersionAttribute in
      if is_empty digest && is_empty rawVersion then Ok (newResumeEnvironment fallback) else
      fail_if is_empty digest || is_empty rawVersion with
        Errorf "trajectory execution input %s has an incomplete runtime environment" [AStr (te_ID input)];
      match Atoi rawVersion with
      | Some apiVersion =>
          fail_if apiVersion <? 1 with
            Errorf "trajectory execution input %s has invalid SDK API version %q" [AStr (te_ID input); AStr rawVersion];
          Ok {| re_environment := digest_environment apiVersion digest; re_source := resumeEnvironmentDigest |}
      | None =>
          Err (Errorf "trajectory execution input %s has invalid SDK API version %q"
                 [AStr (te_ID input); AStr rawVersion])
      end
  end.

(** The walk from a checkpoint to the input of its execution; the fuel is one more than the parents it
    has not seen. *)
Fixpoint input_before (fuel : nat) (st : memoryTrajectoryStore) (ctx : context) (trajectoryID : string)
    (from : TrajectoryEntry) (seen : gset string) (entry : TrajectoryEntry) : option (result TrajectoryEntry) :=
  match fuel with
  | O => None
  | S fuel =>
      if bool_decide (te_Kind entry = TrajectoryKindUserMessage) &&
         bool_decide (tf_ExecutionID (te_Fields entry) = tf_ExecutionID (te_Fields from))
      then Some (Ok entry) else
      if is_empty (te_ParentID entry) then
        Some (Err (Errorf "trajectory %q checkpoint %q has no input entry for execution %q"
                [AStr trajectoryID; AStr (te_ID from); AStr (tf_ExecutionID (te_Fields from))]))
      else if bool_decide (te_ParentID entry ∈ seen) then
        Some (Err (Errorf "trajectory %q checkpoint %q ancestry contains a cycle at %q"
                [AStr trajectoryID; AStr (te_ID from); AStr (te_ParentID entry)]))
      else
        match tstore_LoadEntry st ctx trajectoryID (te_ParentID entry) with
        | Err err => Some (Err err)
        | Ok next => input_before fuel st ctx trajectoryID from ({[te_ParentID entry]} ∪ seen) next
        end
  end.

Definition executionInputEntryBefore (fuel : nat) (st : memoryTrajectoryStore) (ctx : context) (trajectoryID : string)
    (from : TrajectoryEntry) : option (result TrajectoryEntry) :=
  input_before fuel st ctx trajectoryID from ∅ from.

Definition checkpointResumeEnvironment (fuel : nat) (st : memoryTrajectoryStore) (ctx : context)
    (metadata : TrajectoryMetadata) (checkpointEntry : option TrajectoryEntry) : option (result resumeEnvironment) :=
  match checkpointEntry with
  | None => Some (Ok (newResumeEnvironment (tm_Environment metadata)))
  | Some entry =>
      if is_empty (te_ID entry) || is_empty (tf_ExecutionID (te_Fields entry))
      then Some (Ok (newResumeEnvironment (tm_Environment metadata))) else
      match executionInputEntryBefore fuel st ctx (tm_ID metadata) entry with
      | None => None
      | Some (Err err) => Some (Err err)
      | Some (Ok input) => Some (executionResumeEnvironment (tm_Environment metadata) input)
      end
  end.
End recorded.
