(* ===== verification/ResumeExactness.v ===== *)
(** Exact resume: the environment that a trajectory records does not depend on the order of the map loops,
    and a later composition that offers the recorded resources resolves to the recorded composition. *)
From S2P Require Import Prelude GoText Names Paging Message ContextInjection Trajectory Sha256 Agent Registrar Composition CompositionProperties.
From S2P Require Import CompositionInvariant EventDispatch TrajectoryStore Payload Durability SessionState ResumeEnvironment.

(** ** Exact resume: the composition a trajectory recorded is found again in every composition that still has
    its resources, whatever else was mounted since. *)

(** ** Sorting by name *)

Lemma StronglySorted_filter_cmp {A} (R : A → A → Prop) (P : A → Prop) `{!∀ x, base.Decision (P x)} l :
  StronglySorted R l → StronglySorted R (filter P l).
Proof.
  intros Hl. induction Hl as [|x l Hs IH Hx]; [constructor|]. rewrite filter_cons. case_decide; [|done].
  constructor; [done|]. apply list.Forall_forall. intros y [_ Hy]%list_elem_of_filter.
  by apply (proj1 (list.Forall_forall _ _) Hx).
Qed.

Section by_name.
Context {A : Type} (name : A → string).

Definition named (l : list A) : Prop := ∀ x y, x ∈ l → y ∈ l → name x = name y → x = y.

Definition name_sorted (l : list A) : Prop := StronglySorted (cmp_le (λ x y, strings_Compare (name x) (name y))) l.

Lemma name_cmp_ok : cmp_ok (λ x y : A, strings_Compare (name x) (name y)).
Proof. auto with gocmp. Qed.

Lemma by_name_perm l : by_name name l ≡ₚ l.
Proof. apply SortFunc_perm. Qed.

Lemma by_name_sorted l : name_sorted (by_name name l).
Proof. apply SortFunc_sorted, name_cmp_ok. Qed.

Lemma name_sorted_unique l l' : named l → name_sorted l → name_sorted l' → l ≡ₚ l' → l = l'.
Proof.
  intros Hn Hl Hl' Hp.
  rewrite (SortFunc_unique _ name_cmp_ok l' l); [symmetry; apply SortFunc_unique; [apply name_cmp_ok| |done|done]| |done|done].
  all: intros x y Hx Hy Hc%strings_Compare_eq; apply Hn; [by rewrite Hp..|done].
Qed.

(** Two lists in the order of their distinct names are equal when they have the same elements. *)
Lemma name_sorted_ext l l' :
  NoDup (name <$> l) → NoDup (name <$> l') → name_sorted l → name_sorted l' → (∀ x, x ∈ l ↔ x ∈ l') → l = l'.
Proof.
  intros Hd Hd' Hl Hl' Hx.
  apply name_sorted_unique; [|done|done|apply NoDup_Permutation; [by eapply NoDup_fmap_1..|done]].
  intros x y [i Hi]%list_elem_of_lookup [j Hj]%list_elem_of_lookup Heq.
  assert (i = j) as ->; [|congruence].
  eapply NoDup_lookup; [exact Hd|by rewrite list_lookup_fmap, Hi|by rewrite list_lookup_fmap, Hj, Heq].
Qed.

Lemma by_name_eq l l' : named l → l ≡ₚ l' → by_name name l = by_name name l'.
Proof.
  intros Hn Hp. apply name_sorted_unique; [|apply by_name_sorted..|by rewrite !by_name_perm].
  intros x y. rewrite by_name_perm. apply Hn.
Qed.

Lemma name_sorted_filter (P : A → Prop) `{!∀ x, base.Decision (P x)} l : name_sorted l → name_sorted (filter P l).
Proof. apply StronglySorted_filter_cmp. Qed.
End by_name.

Lemma name_sorted_fmap {A B} (f : A → B) name name' l :
  (∀ x, name' (f x) = name x) → name_sorted name l → name_sorted name' (f <$> l).
Proof.
  intros Hf Hl. induction Hl as [|x l Hs IH Hx]; [constructor|]. rewrite fmap_cons. constructor; [done|].
  apply Forall_fmap. eapply Forall_impl; [exact Hx|]. intros z. unfold cmp_le. simpl. by rewrite !Hf.
Qed.

Lemma range_empty {V} `{!MapOrder} loop : range_map loop (∅ : gmap string V) = [].
Proof. apply Permutation_nil_r. rewrite range_map_perm. by rewrite map_to_list_empty. Qed.

Lemma ranged_perm {V} `{!MapOrder} loop (m : gmap string V) : ranged loop m ≡ₚ map_values m.
Proof. unfold ranged, map_values. by rewrite range_map_perm. Qed.

Lemma elem_of_ranged {V} `{!MapOrder} loop (m : gmap string V) v : v ∈ ranged loop m ↔ ∃ k, m !! k = Some v.
Proof. rewrite ranged_perm. apply elem_of_map_values. Qed.

(** ** Copying by name *)

Lemma copy_named_spec {V} missing (current : gmap string V) names acc :
  (∀ n, n ∈ names → is_Some (current !! n)) →
  ∃ r, copy_named missing current names acc = Ok r ∧
    ∀ k, r !! k = if decide (k ∈ names) then current !! k else acc !! k.
Proof.
  revert acc. induction names as [|n names IH]; intros acc Hn; cbn [copy_named].
  - exists acc. split; [done|]. intros k. by rewrite decide_False by apply not_elem_of_nil.
  - destruct (Hn n) as [v Hv]; [set_solver|]. rewrite Hv.
    destruct (IH (<[n := v]> acc)) as (r & Hr & Hl); [intros m Hm; apply Hn; set_solver|].
    exists r. split; [done|]. intros k. rewrite Hl. destruct (decide (k ∈ names)); [by rewrite decide_True by set_solver|].
    destruct (decide (k = n)) as [->|Hne]; [by rewrite lookup_insert_eq, decide_True by set_solver|].
    rewrite lookup_insert_ne by done. by rewrite decide_False by set_solver.
Qed.

(** ** The catalog of a map *)

(** A map whose values carry their key. *)
Definition keyed {V} (name : V → string) (m : gmap string V) : Prop := ∀ k v, m !! k = Some v → name v = k.

Lemma keyed_NoDup {V} (name : V → string) (m : gmap string V) : keyed name m → NoDup (name <$> map_values m).
Proof.
  intros Hk. unfold map_values. rewrite <-list_fmap_compose.
  replace ((name ∘ snd) <$> map_to_list m) with (map_to_list m).*1; [apply NoDup_fst_map_to_list|].
  apply list_fmap_ext. intros i [k v] Hi. symmetry. apply Hk, elem_of_map_to_list. by eapply list_elem_of_lookup_2.
Qed.

Lemma elem_of_catalog {V S} `{!MapOrder} loop (spec : V → S) (name : S → string) (m : gmap string V) x :
  x ∈ by_name name (spec <$> ranged loop m) ↔ ∃ k v, m !! k = Some v ∧ x = spec v.
Proof.
  rewrite by_name_perm, list_elem_of_fmap. split.
  - intros (v & -> & (k & Hk)%elem_of_ranged). eauto.
  - intros (k & v & Hv & ->). exists v. rewrite elem_of_ranged. eauto.
Qed.

Lemma catalog_NoDup {V S} `{!MapOrder} loop (spec : V → S) (name : S → string) (m : gmap string V) :
  keyed (name ∘ spec) m → NoDup (name <$> by_name name (spec <$> ranged loop m)).
Proof. intros Hk. rewrite by_name_perm, <-list_fmap_compose, ranged_perm. by apply keyed_NoDup. Qed.

(** ** Hooks *)

(** The hooks of a composition: no two share a name, and each is filed under its event. *)
Definition hooks_named (hooks : gmap string (list ownedHook)) : Prop :=
  (∀ event h, hook_in hooks event h → hs_Event (oh_Spec h) = event) ∧
  (∀ event h event' h', hook_in hooks event h → hook_in hooks event' h' →
     hs_Name (oh_Spec h) = hs_Name (oh_Spec h') → h = h').

Definition hook_name (h : ownedHook) : string := hs_Name (oh_Spec h).

Lemma take_hooks_spec wanted l :
  NoDup (hook_name <$> l) →
  take_hooks wanted l = (filter (λ h, hook_name h ∈ wanted) l, wanted ∖ list_to_set (hook_name <$> l)).
Proof.
  revert wanted. induction l as [|h l IH]; intros wanted Hd.
  { cbn. f_equal. set_solver. }
  rewrite fmap_cons in Hd. apply NoDup_cons in Hd as [Hh Hd]. cbn [take_hooks]. fold (hook_name h).
  rewrite filter_cons, fmap_cons, list_to_set_cons. case_bool_decide as Hw.
  - rewrite decide_True by done. rewrite IH by done. f_equal; [|set_solver]. f_equal.
    apply list_filter_ext. intros h' Hin. rewrite elem_of_difference, elem_of_singleton.
    split; [by intros []|]. intros Hw'. split; [done|]. intros Heq. apply Hh. rewrite <-Heq. by apply list_elem_of_fmap_2.
  - rewrite decide_False, IH by done. f_equal. set_solver.
Qed.

(** What the loop over the events takes. *)
Lemma copy_hooks_loop_spec src : ∀ wanted dst,
  NoDup src.*1 → NoDup (l ← src.*2; hook_name <$> l) → (∀ e, e ∈ src.*1 → dst !! e = None) →
  ∃ dst', copy_hooks_loop wanted src dst = (dst', wanted ∖ list_to_set (l ← src.*2; hook_name <$> l)) ∧
    ∀ e, dst' !! e =
      match (list_to_map src : gmap string (list ownedHook)) !! e with
      | Some l => match filter (λ h, hook_name h ∈ wanted) l with [] => None | taken => Some taken end
      | None => dst !! e
      end.
Proof.
  induction src as [|[event l] src IH]; intros wanted dst Hk Hd Hdst.
  { exists dst. split; [cbn; f_equal; set_solver|]. intros e. by rewrite list_to_map_nil, lookup_empty. }
  cbn [copy_hooks_loop]. rewrite !fmap_cons in *. cbn [fst snd] in *.
  apply NoDup_cons in Hk as [He Hk]. rewrite bind_cons in Hd. apply NoDup_app in Hd as (Hl & Hdis & Hd).
  rewrite take_hooks_spec by done.
  assert (dst !! event = None) as Hev by (apply Hdst; set_solver). rewrite Hev. cbn [default app from_option id].
  set (taken := filter (λ h, hook_name h ∈ wanted) l).
  set (dst1 := match taken with [] => dst | _ => <[event := taken]> dst end).
  destruct (IH (wanted ∖ list_to_set (hook_name <$> l)) dst1 Hk Hd) as (dst' & Hrun & Hlk).
  { intros e Hin. unfold dst1. destruct taken; [apply Hdst; set_solver|].
    rewrite lookup_insert_ne by (intros ->; done). apply Hdst. set_solver. }
  exists dst'. split.
  { transitivity (copy_hooks_loop (wanted ∖ list_to_set (hook_name <$> l)) src dst1); [by unfold dst1; destruct taken|].
    rewrite Hrun, bind_cons. f_equal. set_solver. }
  intros e. rewrite Hlk, list_to_map_cons. destruct (decide (e = event)) as [->|Hne].
  - rewrite lookup_insert_eq. rewrite not_elem_of_list_to_map_1 by done. unfold dst1. fold taken.
    destruct taken; [done|by rewrite lookup_insert_eq].
  - rewrite lookup_insert_ne by done. destruct ((list_to_map src : gmap string _) !! e) as [l'|] eqn:Hl'.
    + apply elem_of_list_to_map_2 in Hl'.
      rewrite (list_filter_ext (λ h, hook_name h ∈ wanted ∖ list_to_set (hook_name <$> l)) (λ h, hook_name h ∈ wanted)); [done|].
      intros h Hh. rewrite elem_of_difference, elem_of_list_to_set. split; [by intros []|]. intros Hw. split; [done|].
      intros Hin. apply (Hdis _ Hin). apply list_elem_of_bind. exists l'. split; [by apply list_elem_of_fmap_2|].
      apply list_elem_of_fmap. exists (e, l'). done.
    + unfold dst1. destruct taken; [done|by rewrite lookup_insert_ne].
Qed.

Lemma NoDup_range {V} `{!MapOrder} loop (m : gmap string V) : NoDup (range_map loop m).*1.
Proof. rewrite range_map_perm. apply NoDup_fst_map_to_list. Qed.

Lemma range_to_map {V} `{!MapOrder} loop (m : gmap string V) : list_to_map (range_map loop m) = m.
Proof.
  rewrite <-(list_to_map_to_list m) at 2. apply list_to_map_proper; [apply NoDup_range|apply range_map_perm].
Qed.

Lemma hook_names_NoDup next hooks event l :
  hooks_ok next hooks → hooks_named hooks → hooks !! event = Some l → NoDup (hook_name <$> l).
Proof.
  intros Hok [_ Hinj] Hl. pose proof (NoDup_fmap_1 _ _ (hl_seq _ _ (Hok _ _ Hl))) as Hd.
  apply NoDup_fmap_2_strong; [|done]. intros x y Hx Hy Heq.
  apply (Hinj event x event y); [unfold hook_in; by rewrite Hl..|done].
Qed.

Lemma all_names_NoDup next hooks src :
  hooks_ok next hooks → hooks_named hooks → NoDup src.*1 → (∀ e l, (e, l) ∈ src → hooks !! e = Some l) →
  NoDup (l ← src.*2; hook_name <$> l).
Proof.
  intros Hok Hn. induction src as [|[event l] src IH]; intros Hk Hsrc; [constructor|].
  rewrite !fmap_cons in *. cbn [fst snd] in *. apply NoDup_cons in Hk as [He Hk]. rewrite bind_cons.
  apply NoDup_app. split_and!; [apply (hook_names_NoDup next hooks event); [done..|apply Hsrc; set_solver]| |apply IH; [done|]; intros; apply Hsrc; set_solver].
  intros name (h & -> & Hh)%list_elem_of_fmap (l' & Hname & ((e', l'') & -> & Hin)%list_elem_of_fmap)%list_elem_of_bind.
  apply list_elem_of_fmap in Hname as (h' & Heq & Hh'). cbn [snd] in Hh'.
  assert (hook_in hooks event h) as H1 by (unfold hook_in; rewrite (Hsrc event l ltac:(set_solver)); done).
  assert (hook_in hooks e' h') as H2 by (unfold hook_in; rewrite (Hsrc e' l'' ltac:(set_solver)); done).
  pose proof (proj2 Hn _ _ _ _ H1 H2 Heq) as <-. apply (proj1 Hn) in H1, H2. apply He.
  apply list_elem_of_fmap. exists (e', l''). split; [cbn; congruence|done].
Qed.

(** The hooks with the recorded names are copied, in their order. *)
Lemma copy_hooks_spec `{!MapOrder} next src specs :
  hooks_ok next src → hooks_named src →
  (∀ name, name ∈ (hs_Name <$> specs) → ∃ e h, hook_in src e h ∧ hook_name h = name) →
  ∃ dst, copyEnvironmentHooks src specs = Ok dst ∧
    ∀ e, default [] (dst !! e) = filter (λ h, hook_name h ∈ hs_Name <$> specs) (default [] (src !! e)) ∧ dst !! e ≠ Some [].
Proof.
  intros Hok Hn Hspecs. unfold copyEnvironmentHooks.
  assert (∀ e l, (e, l) ∈ range_map 40 src → src !! e = Some l) as Hsrc
    by (intros e l Hin; rewrite range_map_perm in Hin; by apply elem_of_map_to_list).
  destruct (copy_hooks_loop_spec (range_map 40 src) (list_to_set (hs_Name <$> specs)) ∅) as (dst & -> & Hdst);
    [apply NoDup_range|apply (all_names_NoDup next src); [done|done|apply NoDup_range|done]|intros; apply lookup_empty|].
  set (names := l ← (range_map 40 src).*2; hook_name <$> l).
  assert (list_to_set (hs_Name <$> specs) ∖ list_to_set names = (∅ : gset string)) as ->.
  { apply leibniz_equiv. intros n. rewrite elem_of_difference, !elem_of_list_to_set.
    split; [|by intros ?%not_elem_of_empty]. intros [(e & h & Hh & <-)%Hspecs Hnot]. destruct Hnot.
    unfold hook_in in Hh. destruct (src !! e) as [l|] eqn:Hl; [|by apply not_elem_of_nil in Hh].
    apply list_elem_of_bind. exists l. split; [by apply list_elem_of_fmap_2|]. apply list_elem_of_fmap. exists (e, l).
    split; [done|]. rewrite range_map_perm. by apply elem_of_map_to_list. }
  rewrite gset_to_gmap_empty, range_empty. exists dst. split; [done|]. intros e.
  rewrite Hdst, range_to_map. destruct (src !! e) as [l|]; [|by rewrite lookup_empty].
  cbn [default from_option id]. rewrite (list_filter_ext (λ h, hook_name h ∈ hs_Name <$> specs)
    (λ h, hook_name h ∈ (list_to_set (hs_Name <$> specs) : gset string))) by (intros; by rewrite elem_of_list_to_set).
  by destruct (filter _ l).
Qed.

(** ** What an environment sees of a composition *)

Definition plugin_of (owner : mount) : TrajectoryPlugin := trajectory_plugin (mounted_plugin owner).

(** A resource: its specification and the plugin that owns it. *)
Definition view {V S} (spec : V → S) (owner : V → mount) (v : V) : S * TrajectoryPlugin := (spec v, plugin_of (owner v)).

Definition shown {V W} (P : V → Prop) (f : V → W) (m : gmap string V) (x : W) : Prop :=
  ∃ k v, m !! k = Some v ∧ P v ∧ f v = x.

Definition shown_hook {W} (f : ownedHook → W) (hooks : gmap string (list ownedHook)) (x : W) : Prop :=
  ∃ event h, hook_in hooks event h ∧ f h = x.

Definition observes (r : ownedResource SubscriberSpec) : Prop := ss_Events (filter_events (or_Spec r)) ≠ [].
Definition recorded_event (e : ownedEvent) : Prop := builtinEventInTrajectoryEnvironment (ec_Name (oe_Contract e)) = true.

(** The names that the loops of the environment collect are keys of the maps. *)
Record env_ready (next : Z) (X : registrySnapshot) : Prop := {
  er_plugins : keyed mt_Name (sn_plugins X);
  er_providers : keyed (ps_Name ∘ or_Spec) (sn_providers X);
  er_tools : keyed (ts_Name ∘ or_Spec) (sn_tools X);
  er_agents : keyed (as_Name ∘ oa_Spec) (sn_agents X);
  er_subscribers : keyed (ss_Name ∘ or_Spec) (sn_subscribers X);
  er_capabilities : keyed (cs_Name ∘ or_Spec) (sn_capabilities X);
  er_events : keyed (ec_Name ∘ oe_Contract) (sn_events X);
  er_hooks : hooks_ok next (sn_hooks X);
  er_named : hooks_named (sn_hooks X);
}.

(** The owners of the recorded resources. *)
Definition recorded_owner (X : registrySnapshot) (o : mount) : Prop :=
  shown (λ _, True) or_Owner (sn_providers X) o ∨ shown (λ _, True) or_Owner (sn_tools X) o ∨
  shown (λ _, True) oa_Owner (sn_agents X) o ∨ shown_hook oh_Owner (sn_hooks X) o ∨
  shown observes or_Owner (sn_subscribers X) o ∨ shown (λ _, True) or_Owner (sn_capabilities X) o ∨
  shown recorded_event oe_Owner (sn_events X) (Some o).

Definition owners_mounted (X : registrySnapshot) : Prop := ∀ o, recorded_owner X o → mounted (sn_plugins X) o.

(** Two compositions that look the same to an environment. *)
Record same_view (X Y : registrySnapshot) : Prop := {
  sv_providers : ∀ x, shown (λ _, True) (view or_Spec or_Owner) (sn_providers X) x ↔
                      shown (λ _, True) (view or_Spec or_Owner) (sn_providers Y) x;
  sv_tools : ∀ x, shown (λ _, True) (view or_Spec or_Owner) (sn_tools X) x ↔
                  shown (λ _, True) (view or_Spec or_Owner) (sn_tools Y) x;
  sv_agents : ∀ x, shown (λ _, True) (view oa_Spec oa_Owner) (sn_agents X) x ↔
                   shown (λ _, True) (view oa_Spec oa_Owner) (sn_agents Y) x;
  sv_hooks : ∀ x, shown_hook (view oh_Spec oh_Owner) (sn_hooks X) x ↔
                  shown_hook (view oh_Spec oh_Owner) (sn_hooks Y) x;
  sv_subscribers : ∀ x, shown observes (view (filter_events ∘ or_Spec) or_Owner) (sn_subscribers X) x ↔
                        shown observes (view (filter_events ∘ or_Spec) or_Owner) (sn_subscribers Y) x;
  sv_capabilities : ∀ x, shown (λ _, True) (view or_Spec or_Owner) (sn_capabilities X) x ↔
                         shown (λ _, True) (view or_Spec or_Owner) (sn_capabilities Y) x;
  sv_events : ∀ x, shown recorded_event (λ e, (oe_Contract e, plugin_of <$> oe_Owner e)) (sn_events X) x ↔
                   shown recorded_event (λ e, (oe_Contract e, plugin_of <$> oe_Owner e)) (sn_events Y) x;
}.

Lemma same_view_refl X : same_view X X.
Proof. by split. Qed.

(** Forgetting a part of what is shown. *)
Lemma shown_map {V W W'} (P : V → Prop) (f : V → W) (g : W → W') m x :
  shown P (g ∘ f) m x ↔ ∃ y, shown P f m y ∧ g y = x.
Proof.
  split.
  - intros (k & v & Hv & HP & Hx). exists (f v). split; [by exists k, v|done].
  - intros (y & (k & v & Hv & HP & <-) & Hx). by exists k, v.
Qed.

Lemma shown_transfer {V W W'} (P : V → Prop) (f : V → W) (g : W → W') m m' :
  (∀ x, shown P f m x ↔ shown P f m' x) → ∀ x, shown P (g ∘ f) m x ↔ shown P (g ∘ f) m' x.
Proof. intros Hs x. rewrite !shown_map. by setoid_rewrite Hs. Qed.

Lemma shown_hook_map {W W'} (f : ownedHook → W) (g : W → W') hooks x :
  shown_hook (g ∘ f) hooks x ↔ ∃ y, shown_hook f hooks y ∧ g y = x.
Proof.
  split.
  - intros (e & h & Hh & Hx). exists (f h). split; [by exists e, h|done].
  - intros (y & (e & h & Hh & <-) & Hx). by exists e, h.
Qed.

Lemma shown_hook_transfer {W W'} (f : ownedHook → W) (g : W → W') hooks hooks' :
  (∀ x, shown_hook f hooks x ↔ shown_hook f hooks' x) → ∀ x, shown_hook (g ∘ f) hooks x ↔ shown_hook (g ∘ f) hooks' x.
Proof. intros Hs x. rewrite !shown_hook_map. by setoid_rewrite Hs. Qed.

(** The specifications of a catalog, from what is shown. *)
Lemma catalog_shown {V S} {o1 o2 : MapOrder} loop (spec : V → S) (owner : V → mount) (name : S → string) (m m' : gmap string V) :
  keyed (name ∘ spec) m → keyed (name ∘ spec) m' →
  (∀ x, shown (λ _, True) (view spec owner) m x ↔ shown (λ _, True) (view spec owner) m' x) →
  by_name name (spec <$> @ranged _ o1 loop m) = by_name name (spec <$> @ranged _ o2 loop m').
Proof.
  intros Hk Hk' Hs. apply (name_sorted_ext name); [by apply catalog_NoDup..|apply by_name_sorted|apply by_name_sorted|].
  intros x. rewrite !elem_of_catalog. pose proof (shown_transfer _ _ fst _ _ Hs x) as Hx. unfold shown in Hx.
  cbn in Hx. split; intros (k & v & Hv & ->); [apply proj1 in Hx|apply proj2 in Hx].
  all: destruct Hx as (k' & v' & Hv' & _ & <-); [by exists k, v|by exists k', v'].
Qed.

(** ** Hooks, subscribers and events of a catalog *)

Lemma elem_of_hook_catalog `{!MapOrder} loop hooks x :
  x ∈ by_name hs_Name (l ← ranged loop hooks; oh_Spec <$> l) ↔ shown_hook oh_Spec hooks x.
Proof.
  rewrite by_name_perm, list_elem_of_bind. split.
  - intros (l & (h & -> & Hh)%list_elem_of_fmap & [e He]%elem_of_ranged). exists e, h. unfold hook_in. by rewrite He.
  - intros (e & h & Hh & <-). unfold hook_in in Hh. destruct (hooks !! e) as [l|] eqn:Hl; [|by apply not_elem_of_nil in Hh].
    exists l. split; [by apply list_elem_of_fmap_2|]. apply elem_of_ranged. eauto.
Qed.

Lemma hook_catalog_NoDup `{!MapOrder} next loop hooks :
  hooks_ok next hooks → hooks_named hooks →
  NoDup (hs_Name <$> by_name hs_Name (l ← ranged loop hooks; oh_Spec <$> l)).
Proof.
  intros Hok Hn. rewrite by_name_perm.
  replace (hs_Name <$> (l ← ranged loop hooks; oh_Spec <$> l)) with (l ← ranged loop hooks; hook_name <$> l).
  - apply (all_names_NoDup next hooks); [done|done|apply NoDup_range|].
    intros e l Hin. rewrite range_map_perm in Hin. by apply elem_of_map_to_list.
  - induction (ranged loop hooks) as [|l ls IH]; [done|]. by rewrite !bind_cons, fmap_app, IH, <-list_fmap_compose.
Qed.

Lemma hook_catalog_shown {o1 o2 : MapOrder} next next' loop hooks hooks' :
  hooks_ok next hooks → hooks_named hooks → hooks_ok next' hooks' → hooks_named hooks' →
  (∀ x, shown_hook (view oh_Spec oh_Owner) hooks x ↔ shown_hook (view oh_Spec oh_Owner) hooks' x) →
  by_name hs_Name (l ← @ranged _ o1 loop hooks; oh_Spec <$> l) = by_name hs_Name (l ← @ranged _ o2 loop hooks'; oh_Spec <$> l).
Proof.
  intros Hok Hn Hok' Hn' Hs. apply (name_sorted_ext hs_Name);
    [by eapply hook_catalog_NoDup..|apply by_name_sorted|apply by_name_sorted|].
  intros x. rewrite !elem_of_hook_catalog. apply (shown_hook_transfer _ fst _ _ Hs).
Qed.

(** A filter of a renamed catalog keeps distinct names in order. *)
Lemma filter_names_NoDup {A} (name : A → string) (P : A → Prop) `{!∀ x, base.Decision (P x)} l :
  NoDup (name <$> l) → NoDup (name <$> filter P l).
Proof.
  induction l as [|x l IH]; [done|]. rewrite filter_cons, fmap_cons. intros [Hx Hd]%NoDup_cons.
  case_decide; [|by apply IH]. rewrite fmap_cons. apply NoDup_cons. split; [|by apply IH].
  intros (y & Hy & [_ Hin]%list_elem_of_filter)%list_elem_of_fmap. apply Hx. rewrite Hy. by apply list_elem_of_fmap_2.
Qed.

Lemma elem_of_subscriber_specs `{!MapOrder} loop m x :
  x ∈ trajectoryEnvironmentSubscriberSpecs (by_name ss_Name (or_Spec <$> ranged loop m)) ↔
  shown observes (filter_events ∘ or_Spec) m x.
Proof.
  unfold trajectoryEnvironmentSubscriberSpecs. rewrite list_elem_of_filter, list_elem_of_fmap. split.
  - intros (Hne & y & -> & (k & v & Hv & ->)%elem_of_catalog). by exists k, v.
  - intros (k & v & Hv & Hobs & <-). split; [done|]. exists (or_Spec v). split; [done|]. apply elem_of_catalog. eauto.
Qed.

Lemma subscriber_specs_shown {o1 o2 : MapOrder} loop m m' :
  keyed (ss_Name ∘ or_Spec) m → keyed (ss_Name ∘ or_Spec) m' →
  (∀ x, shown observes (view (filter_events ∘ or_Spec) or_Owner) m x ↔
        shown observes (view (filter_events ∘ or_Spec) or_Owner) m' x) →
  trajectoryEnvironmentSubscriberSpecs (by_name ss_Name (or_Spec <$> @ranged _ o1 loop m)) =
  trajectoryEnvironmentSubscriberSpecs (by_name ss_Name (or_Spec <$> @ranged _ o2 loop m')).
Proof.
  intros Hk Hk' Hs.
  apply (name_sorted_ext ss_Name); [| |apply name_sorted_filter; eapply name_sorted_fmap, by_name_sorted; done..|].
  1, 2: apply filter_names_NoDup; rewrite <-list_fmap_compose; by apply (catalog_NoDup _ or_Spec ss_Name).
  intros x. rewrite !elem_of_subscriber_specs. apply (shown_transfer _ _ fst _ _ Hs).
Qed.

Lemma elem_of_event_contracts `{!MapOrder} loop m x :
  x ∈ trajectoryEnvironmentEventContracts (by_name ec_Name (oe_Contract <$> ranged loop m)) ↔
  shown recorded_event oe_Contract m x.
Proof.
  unfold trajectoryEnvironmentEventContracts. rewrite list_elem_of_filter. split.
  - intros (Hne & (k & v & Hv & ->)%elem_of_catalog). by exists k, v.
  - intros (k & v & Hv & Hobs & <-). split; [done|]. apply elem_of_catalog. eauto.
Qed.

Lemma event_contracts_shown {o1 o2 : MapOrder} loop m m' :
  keyed (ec_Name ∘ oe_Contract) m → keyed (ec_Name ∘ oe_Contract) m' →
  (∀ x, shown recorded_event (λ e, (oe_Contract e, plugin_of <$> oe_Owner e)) m x ↔
        shown recorded_event (λ e, (oe_Contract e, plugin_of <$> oe_Owner e)) m' x) →
  trajectoryEnvironmentEventContracts (by_name ec_Name (oe_Contract <$> @ranged _ o1 loop m)) =
  trajectoryEnvironmentEventContracts (by_name ec_Name (oe_Contract <$> @ranged _ o2 loop m')).
Proof.
  intros Hk Hk' Hs. apply (name_sorted_ext ec_Name); [| |apply name_sorted_filter, by_name_sorted..|].
  1, 2: by apply filter_names_NoDup, (catalog_NoDup _ oe_Contract ec_Name).
  intros x. rewrite !elem_of_event_contracts. apply (shown_transfer _ _ fst _ _ Hs).
Qed.

(** ** The plugins of an environment *)

Lemma elem_of_owner_names {V} (m : gmap string V) owner names n :
  n ∈ owner_names m owner names ↔ ∃ k v o, k ∈ names ∧ m !! k = Some v ∧ owner v = Some o ∧ mt_Name o = n.
Proof.
  unfold owner_names. rewrite elem_of_list_to_set, list_elem_of_fmap. setoid_rewrite list_elem_of_omap. split.
  - intros (o & -> & k & Hk & (v & Hv & Ho)%bind_Some). by exists k, v, o.
  - intros (k & v & o & Hk & Hv & Ho & <-). exists o. split; [done|]. exists k. split; [done|]. by rewrite Hv.
Qed.

(** The owners of the resources whose names a list of specifications shows. *)
Lemma owner_names_shown {V S} (P : V → Prop) (spec : V → S) (name : S → string) (owner : V → option mount) m specs n :
  keyed (name ∘ spec) m → (∀ x, x ∈ specs ↔ shown P spec m x) →
  n ∈ owner_names m owner (name <$> specs) ↔ ∃ o, shown P owner m (Some o) ∧ mt_Name o = n.
Proof.
  intros Hk Hs. rewrite elem_of_owner_names. setoid_rewrite list_elem_of_fmap. split.
  - intros (k & v & o & (x & -> & (k' & v' & Hv' & HP & <-)%Hs) & Hv & Ho & Hn). exists o. split; [|done].
    assert (k' = name (spec v')) as -> by (symmetry; by apply Hk). rewrite Hv in Hv'. simplify_eq. by exists (name (spec v')), v'.
  - intros (o & (k & v & Hv & HP & Ho) & Hn). exists k, v, o. split_and!; try done.
    exists (spec v). split; [symmetry; by apply Hk|]. apply Hs. by exists k, v.
Qed.

Lemma shown_Some {V} (P : V → Prop) (owner : V → mount) m o : shown P (Some ∘ owner) m (Some o) ↔ shown P owner m o.
Proof. split; intros (k & v & Hv & HP & Ho); exists k, v; (split_and!; [done|done|]); simpl in *; congruence. Qed.

Lemma elem_of_hook_owner_names hooks specs n :
  hooks_named hooks → (∀ x, x ∈ specs ↔ shown_hook oh_Spec hooks x) →
  n ∈ hook_owner_names hooks (hs_Name <$> specs) ↔ ∃ o, shown_hook oh_Owner hooks o ∧ mt_Name o = n.
Proof.
  intros Hn Hs. unfold hook_owner_names. rewrite elem_of_list_to_set, list_elem_of_bind. split.
  - intros (l & (h & -> & [_ Hh]%list_elem_of_filter)%list_elem_of_fmap & [e He]%elem_of_map_values).
    exists (oh_Owner h). split; [|done]. exists e, h. unfold hook_in. by rewrite He.
  - intros (o & (e & h & Hh & <-) & <-). pose proof Hh as Hin. unfold hook_in in Hin.
    destruct (hooks !! e) as [l|] eqn:Hl; [|by apply not_elem_of_nil in Hin].
    exists l. split; [|apply elem_of_map_values; eauto]. apply list_elem_of_fmap. exists h. split; [done|].
    apply list_elem_of_filter. split; [|done]. apply list_elem_of_fmap_2, Hs. by exists e, h.
Qed.

Section plugins.
Context `{!MapOrder} (next : Z) (X : registrySnapshot) (version : string) (config : SessionConfig).
Context (Hready : env_ready next X).

Lemma elem_of_plugin_names n :
  n ∈ trajectoryEnvironmentPluginNames X (resource_environment version (catalogFromSnapshot X) config) ↔
  ∃ o, recorded_owner X o ∧ mt_Name o = n.
Proof.
  destruct Hready. unfold trajectoryEnvironmentPluginNames. rewrite !elem_of_union. cbn [env_Providers env_Tools env_Agents
    env_Hooks env_Subscribers env_Capabilities env_Events resource_environment ct_Providers ct_Tools ct_Agents ct_Hooks
    ct_Subscribers ct_Capabilities ct_Events catalogFromSnapshot].
  assert (∀ {V S} loop (spec : V → S) (name : S → string) m x,
    x ∈ by_name name (spec <$> ranged loop m) ↔ shown (λ _, True) spec m x) as Hall.
  { intros. rewrite elem_of_catalog. split; intros (k & v & Hv & Hx); exists k, v; naive_solver. }
  rewrite (owner_names_shown (λ _, True) or_Spec ps_Name) by (done || intros; apply Hall).
  rewrite (owner_names_shown (λ _, True) or_Spec ts_Name) by (done || intros; apply Hall).
  rewrite (owner_names_shown (λ _, True) oa_Spec as_Name) by (done || intros; apply Hall).
  rewrite elem_of_hook_owner_names by (done || intros; apply elem_of_hook_catalog).
  rewrite (owner_names_shown observes (filter_events ∘ or_Spec) ss_Name) by (done || intros; apply elem_of_subscriber_specs).
  rewrite (owner_names_shown (λ _, True) or_Spec cs_Name) by (done || intros; apply Hall).
  rewrite (owner_names_shown recorded_event oe_Contract ec_Name) by (done || intros; apply elem_of_event_contracts).
  unfold recorded_owner. setoid_rewrite shown_Some. naive_solver.
Qed.

Lemma elem_of_env_plugins x :
  owners_mounted X →
  x ∈ (trajectory_plugin <$> filter (λ plugin, mp_Name plugin ∈
         trajectoryEnvironmentPluginNames X (resource_environment version (catalogFromSnapshot X) config))
         (ct_Plugins (catalogFromSnapshot X))) ↔ ∃ o, recorded_owner X o ∧ plugin_of o = x.
Proof.
  intros Hm. cbn [ct_Plugins catalogFromSnapshot]. rewrite list_elem_of_fmap. split.
  - intros (p & -> & [(o & Ho & Hn)%elem_of_plugin_names (k & m & Hk & ->)%elem_of_catalog]%list_elem_of_filter).
    exists o. split; [done|]. specialize (Hm _ Ho). unfold mounted in Hm. rewrite Hn in Hm. cbn in Hm.
    rewrite (er_plugins _ _ Hready _ _ Hk : mf_Name (mt_Manifest m) = k) in Hm. by simplify_eq.
  - intros (o & Ho & <-). exists (mounted_plugin o). split; [done|]. apply list_elem_of_filter.
    split; [apply elem_of_plugin_names; by exists o|]. apply elem_of_catalog. exists (mt_Name o), o. split; [by apply Hm|done].
Qed.
End plugins.

(** ** Compositions that look the same have one environment *)

Lemma recorded_owner_view X Y :
  same_view X Y → ∀ x, (∃ o, recorded_owner X o ∧ plugin_of o = x) → ∃ o, recorded_owner Y o ∧ plugin_of o = x.
Proof.
  intros [Hp Ht Ha Hh Hs Hc He] x (o & Ho & <-).
  assert (∀ {V S} (P : V → Prop) (spec : V → S) (owner : V → mount) m m',
    (∀ x, shown P (view spec owner) m x ↔ shown P (view spec owner) m' x) →
    shown P owner m o → ∃ o', shown P owner m' o' ∧ plugin_of o' = plugin_of o) as Hres.
  { intros V S P spec owner m m' Hv (k & v & Hk & HP & <-).
    destruct (proj1 (Hv (view spec owner v))) as (k' & v' & Hk' & HP' & Heq); [by exists k, v|].
    exists (owner v'). split; [by exists k', v'|exact (f_equal snd Heq)]. }
  unfold recorded_owner in Ho. destruct Ho as [Ho|[Ho|[Ho|[Ho|[Ho|[Ho|Ho]]]]]].
  - destruct (Hres _ _ _ _ _ _ _ Hp Ho) as (o' & ? & ?). exists o'. unfold recorded_owner. tauto.
  - destruct (Hres _ _ _ _ _ _ _ Ht Ho) as (o' & ? & ?). exists o'. unfold recorded_owner. tauto.
  - destruct (Hres _ _ _ _ _ _ _ Ha Ho) as (o' & ? & ?). exists o'. unfold recorded_owner. tauto.
  - destruct Ho as (e & h & Hin & <-).
    destruct (proj1 (Hh (view oh_Spec oh_Owner h))) as (e' & h' & Hin' & Heq); [by exists e, h|].
    exists (oh_Owner h'). split; [|exact (f_equal snd Heq)]. unfold recorded_owner.
    do 3 right. left. by exists e', h'.
  - destruct (Hres _ _ _ _ _ _ _ Hs Ho) as (o' & ? & ?). exists o'. unfold recorded_owner. tauto.
  - destruct (Hres _ _ _ _ _ _ _ Hc Ho) as (o' & ? & ?). exists o'. unfold recorded_owner. tauto.
  - destruct Ho as (k & e & Hk & Hr & Hoe).
    destruct (proj1 (He (oe_Contract e, plugin_of <$> oe_Owner e))) as (k' & e' & Hk' & Hr' & Heq); [by exists k, e|].
    apply (f_equal snd) in Heq. cbn [snd] in Heq. rewrite Hoe in Heq. destruct (oe_Owner e') as [o'|] eqn:Ho'; [|done].
    exists o'. split; [|by apply (inj Some)]. unfold recorded_owner. do 6 right. by exists k', e'.
Qed.

Lemma same_view_sym X Y : same_view X Y → same_view Y X.
Proof. intros []. split; intros x; symmetry; done. Qed.

(** The environment without its digest. *)
Definition undigested `{!MapOrder} (version : string) (X : registrySnapshot) (config : SessionConfig) : TrajectoryEnvironment :=
  let environment := resource_environment version (catalogFromSnapshot X) config in
  with_plugins environment (trajectory_plugin <$>
    filter (λ plugin, mp_Name plugin ∈ trajectoryEnvironmentPluginNames X environment) (ct_Plugins (catalogFromSnapshot X))).

Lemma plugin_list_ok `{!MapOrder} next X version config :
  env_ready next X →
  NoDup (tp_Name <$> env_Plugins (undigested version X config)) ∧
  name_sorted tp_Name (env_Plugins (undigested version X config)).
Proof.
  intros []. cbn [undigested with_plugins env_Plugins catalogFromSnapshot ct_Plugins]. split.
  - rewrite <-list_fmap_compose. change (tp_Name ∘ trajectory_plugin) with mp_Name.
    by apply filter_names_NoDup, (catalog_NoDup _ mounted_plugin mp_Name).
  - by eapply name_sorted_fmap, name_sorted_filter, by_name_sorted.
Qed.

Lemma same_composition {o1 o2 : MapOrder} next next' X Y version version' config config' :
  env_ready next X → env_ready next' Y → owners_mounted X → owners_mounted Y → same_view X Y →
  composition_of (@undigested o1 version X config) = composition_of (@undigested o2 version' Y config').
Proof.
  intros HX HY HmX HmY Hv. unfold composition_of. f_equal.
  - destruct (@plugin_list_ok o1 _ _ version config HX) as [Hd Hs].
    destruct (@plugin_list_ok o2 _ _ version' config' HY) as [Hd' Hs'].
    apply (name_sorted_ext tp_Name); [done..|]. intros x. cbn [undigested with_plugins env_Plugins].
    rewrite (@elem_of_env_plugins o1 next), (@elem_of_env_plugins o2 next') by done.
    split; apply recorded_owner_view; [done|by apply same_view_sym].
  - destruct HX, HY, Hv. by eapply catalog_shown.
  - destruct HX, HY, Hv. by eapply catalog_shown.
  - destruct HX, HY, Hv. by eapply catalog_shown.
  - destruct HX, HY, Hv. by eapply hook_catalog_shown.
  - destruct HX, HY, Hv. by apply subscriber_specs_shown.
  - destruct HX, HY, Hv. by eapply catalog_shown.
  - destruct HX, HY, Hv. by apply event_contracts_shown.
Qed.

Section digests.
Context `{!EnvironmentCodec}.

Lemma newTrajectoryEnvironment_eq `{!MapOrder} version X config :
  newTrajectoryEnvironment version X config =
  match Marshal_composition (composition_of (undigested version X config)) with
  | Ok raw => Ok (with_digest (undigested version X config) (sha256_hex raw))
  | Err err => Err (Wrapf "finalize trajectory environment: %w" [] (Wrapf "encode trajectory environment composition: %w" [] err))
  end.
Proof.
  unfold newTrajectoryEnvironment, FinalizeTrajectoryEnvironment, TrajectoryEnvironmentCompositionDigest.
  fold (undigested version X config). by destruct (Marshal_composition _).
Qed.

Lemma composition_with_digest e d : composition_of (with_digest e d) = composition_of e.
Proof. done. Qed.

(** The composition that an environment records and its digest. *)
Lemma newTrajectoryEnvironment_Ok `{!MapOrder} version X config env :
  newTrajectoryEnvironment version X config = Ok env →
  composition_of env = composition_of (undigested version X config) ∧
  ∃ raw, Marshal_composition (composition_of env) = Ok raw ∧ env_CompositionDigest env = sha256_hex raw.
Proof.
  rewrite newTrajectoryEnvironment_eq. destruct (Marshal_composition _) as [raw|err] eqn:Hm; [|done].
  intros [= <-]. rewrite composition_with_digest. eauto.
Qed.
End digests.

