(* ===== verification/ResumeTheorems.v ===== *)
(** The theorem of exact resume: a composition that offers the recorded resources, and adds no subscriber
    of both live and recorded events, resolves to the recorded composition. *)
From S2P Require Import Prelude GoText Names Paging Message ContextInjection Trajectory Sha256 Agent Registrar Composition CompositionProperties.
From S2P Require Import CompositionInvariant EventDispatch TrajectoryBranch TrajectoryStore TrajectoryInvariant TrajectoryHistory TrajectoryProperties Payload Durability SessionState ResumeEnvironment ResumeExactness.

(** ** The owners that a snapshot includes *)

Lemma include_owners_app plugins l l' : include_owners (include_owners plugins l) l' = include_owners plugins (l ++ l').
Proof. symmetry. apply foldl_app. Qed.

(** Owners that are mounted: the plugins hold them, and nothing that is not mounted. *)
Lemma include_owners_mounted mounts plugins l :
  plugins ⊆ mounts → (∀ o, Some o ∈ l → mounted mounts o) →
  include_owners plugins l ⊆ mounts ∧ plugins ⊆ include_owners plugins l ∧
  ∀ o, Some o ∈ l → mounted (include_owners plugins l) o.
Proof.
  unfold include_owners. revert plugins. induction l as [|[o|] l IH]; intros plugins Hsub Hl; cbn [foldl].
  - split_and!; [done..|]. intros o Ho. by apply not_elem_of_nil in Ho.
  - assert (mounted mounts o) as Hm by (apply Hl; set_solver). cbn [includePluginOwner].
    destruct (IH (<[mt_Name o := o]> plugins)) as (Hs & Hp & Ho).
    + apply map_subseteq_spec. intros k v [[<- <-]|[_ Hv]]%lookup_insert_Some; [done|by eapply lookup_weaken].
    + intros o' Ho'. apply Hl. set_solver.
    + split_and!; [done| |].
      * etransitivity; [|exact Hp]. apply map_subseteq_spec. intros k v Hv. apply lookup_insert_Some.
        destruct (decide (mt_Name o = k)) as [<-|Hne]; [left|by right]. split; [done|].
        pose proof (lookup_weaken _ _ _ _ Hv Hsub) as Hw. unfold mounted in Hm. congruence.
      * intros o' [[= ->]|Hin]%elem_of_cons; [|by apply Ho]. eapply lookup_weaken; [|exact Hp]. apply lookup_insert_eq.
  - destruct (IH plugins) as (Hs & Hp & Ho); [done|intros o' Ho'; apply Hl; set_solver|].
    split_and!; [done..|]. intros o' [?|Hin]%elem_of_cons; [done|by apply Ho].
Qed.

Lemma keyed_sub {V} (name : V → string) (m m' : gmap string V) : m ⊆ m' → keyed name m' → keyed name m.
Proof. intros Hs Hk k v Hv. apply Hk. by eapply lookup_weaken. Qed.

Lemma owned_keyed {V} name owner ok plugins (m : gmap string V) : owned_ok name owner ok plugins m → keyed name m.
Proof. intros Ho k v Hv. by apply (Ho k v). Qed.

Lemma owned_mounted {V} name owner ok plugins (m m' : gmap string V) P o :
  owned_ok name owner ok plugins m → m' ⊆ m → shown P owner m' o → mounted plugins o.
Proof. intros Ho Hs (k & v & Hv & _ & <-). apply (Ho k v). by eapply lookup_weaken. Qed.

Lemma elem_of_owners_of {V} `{!MapOrder} loop (owner : V → mount) m o :
  Some o ∈ owners_of loop owner m ↔ shown (λ _, True) owner m o.
Proof.
  unfold owners_of. rewrite list_elem_of_fmap. setoid_rewrite elem_of_ranged. split.
  - intros (v & [= ->] & k & Hk). by exists k, v.
  - intros (k & v & Hv & _ & <-). eauto.
Qed.

Lemma elem_of_hook_owners `{!MapOrder} loop hooks o :
  Some o ∈ (l ← ranged loop hooks; (λ h, Some (oh_Owner h)) <$> l) ↔ shown_hook oh_Owner hooks o.
Proof.
  rewrite list_elem_of_bind. split.
  - intros (l & (h & [= ->] & Hh)%list_elem_of_fmap & [e He]%elem_of_ranged). exists e, h. unfold hook_in. by rewrite He.
  - intros (e & h & Hh & <-). unfold hook_in in Hh. destruct (hooks !! e) as [l|] eqn:Hl; [|by apply not_elem_of_nil in Hh].
    exists l. split; [apply list_elem_of_fmap; eauto|]. apply elem_of_ranged. eauto.
Qed.

Lemma elem_of_named_owners {V} (owner : V → mount) m names o :
  Some o ∈ named_owners owner m names ↔ ∃ k v, k ∈ names ∧ m !! k = Some v ∧ owner v = o.
Proof.
  unfold named_owners. rewrite list_elem_of_fmap. split.
  - intros (k & (v & Hv & ->)%eq_sym%fmap_Some & Hk). by exists k, v.
  - intros (k & v & Hk & Hv & <-). exists k. by rewrite Hv.
Qed.

(** ** Built-in events *)

Lemma trajectory_event_in_session name :
  builtinEventInTrajectoryEnvironment name = true → builtinEventInSessionExecution name = true.
Proof.
  unfold builtinEventInTrajectoryEnvironment, builtinEventInSessionExecution.
  destruct (find_builtin name builtinEventContracts) as [c|] eqn:Hf; [|done].
  assert (Forall (λ c, be_trajectoryEnvironmentScoped c = true → be_sessionExecutionScoped c = true) builtinEventContracts)
    as Hall by (repeat constructor; intros; done).
  apply (proj1 (list.Forall_forall _ _) Hall). revert Hf. generalize builtinEventContracts. clear.
  induction l as [|b l IH]; cbn [find_builtin]; [done|]. destruct (String.eqb _ _); [intros [= ->]; set_solver|].
  intros H%IH. set_solver.
Qed.

(** The built-in events of a session are the same in every composition. *)
Lemma session_event_builtin name :
  builtinEventInSessionExecution name = true → ∃ e, builtin_events !! name = Some e ∧ oe_Owner e = None.
Proof.
  unfold builtinEventInSessionExecution. destruct (find_builtin name builtinEventContracts) as [c|] eqn:Hf; [|done].
  intros _. assert (is_Some (builtin_events !! name)) as [e He].
  2: { exists e. split; [done|]. by apply builtin_names in He as [_ ?]. }
  assert (∃ b, b ∈ builtinEventContracts ∧ ec_Name (be_Contract b) = name) as (b & Hb & <-).
  { revert Hf. generalize builtinEventContracts. clear. induction l as [|b l IH]; cbn [find_builtin]; [done|].
    destruct (String.eqb_spec (ec_Name (be_Contract b)) name) as [<-|]; [intros _; exists b; set_solver|].
    intros (b' & ? & ?)%IH. exists b'. set_solver. }
  assert (Forall (λ b, is_Some (builtin_events !! ec_Name (be_Contract b))) builtinEventContracts) as Hall.
  { repeat constructor; vm_compute; eauto. }
  by apply (proj1 (list.Forall_forall _ _) Hall).
Qed.

Lemma session_event_wf next S name :
  snapshot_wf next S → builtinEventInSessionExecution name = true → sn_events S !! name = builtin_events !! name.
Proof. intros Hwf (e & He & _)%session_event_builtin. rewrite He. by apply (swf_builtin _ _ Hwf). Qed.

(** ** The snapshot that an execution records *)

Lemma hooks_named_sub hooks hooks' :
  (∀ e h, hook_in hooks e h → hook_in hooks' e h) → hooks_named hooks' → hooks_named hooks.
Proof. intros Hs [Hev Hinj]. split; [eauto|]. intros e h e' h' Hh Hh'. apply Hinj with e e'; eauto. Qed.

Lemma snapshot_hooks_named next S : snapshot_wf next S → hooks_named (sn_hooks S).
Proof. intros Hwf. split; [intros e h Hh; by apply (swf_hook _ _ Hwf e h)|apply (swf_hook_names _ _ Hwf)]. Qed.

Lemma hook_in_environment hooks e h : hook_in (environment_hooks hooks) e h ↔ hook_in hooks e h ∧ builtinEventInTrajectoryEnvironment e = true.
Proof.
  unfold hook_in, environment_hooks. destruct (hooks !! e) as [l|] eqn:Hl.
  - destruct (decide (builtinEventInTrajectoryEnvironment e = true ∧ l ≠ [])) as [Hd|Hd].
    + rewrite (map_lookup_filter_Some_2 _ _ _ _ Hl) by done. naive_solver.
    + rewrite map_lookup_filter_None_2 by (right; intros l' Hl'; by simplify_eq). cbn.
      split; [by intros ?%not_elem_of_nil|]. intros [Hh Hb]. destruct Hd. split; [done|]. by intros ->; apply not_elem_of_nil in Hh.
  - rewrite map_lookup_filter_None_2 by (by left). cbn.
    split; [by intros ?%not_elem_of_nil|by intros [?%not_elem_of_nil _]].
Qed.

Section recorded_snapshot.
Context `{!MapOrder} (next : Z) (S : registrySnapshot) (Hwf : snapshot_wf next S).
Let E := executionSnapshotForSession S.

Lemma execution_agents_sub : sn_agents E ⊆ sn_agents S.
Proof. cbn. case_match; [done|apply map_empty_subseteq]. Qed.

Lemma execution_subscribers_sub : sn_subscribers E ⊆ sn_subscribers S.
Proof. apply map_filter_subseteq. Qed.

Definition execution_owners : list (option mount) :=
  owners_of 30 or_Owner (sn_providers S) ++ owners_of 31 or_Owner (sn_tools S) ++ owners_of 32 oa_Owner (sn_agents E) ++
  (l ← ranged 33 (sn_hooks E); (λ h, Some (oh_Owner h)) <$> l) ++ owners_of 34 or_Owner (sn_subscribers E).

Lemma execution_plugins : sn_plugins E = include_owners ∅ execution_owners.
Proof. unfold execution_owners. by rewrite <-!include_owners_app. Qed.

Lemma elem_of_execution_owners o :
  Some o ∈ execution_owners ↔
  shown (λ _, True) or_Owner (sn_providers S) o ∨ shown (λ _, True) or_Owner (sn_tools S) o ∨
  shown (λ _, True) oa_Owner (sn_agents E) o ∨ shown_hook oh_Owner (sn_hooks E) o ∨
  shown (λ _, True) or_Owner (sn_subscribers E) o.
Proof. unfold execution_owners. by rewrite !elem_of_app, elem_of_hook_owners, !elem_of_owners_of. Qed.

Lemma execution_owners_ok : sn_plugins E ⊆ sn_plugins S ∧ owners_mounted E.
Proof.
  rewrite execution_plugins. destruct Hwf.
  destruct (include_owners_mounted (sn_plugins S) ∅ execution_owners) as (Hsub & _ & Hown).
  - apply map_empty_subseteq.
  - intros o [Ho|[Ho|[Ho|[Ho|Ho]]]]%elem_of_execution_owners.
    + by apply (owned_mounted _ _ _ _ _ _ _ _ swf_providers (reflexivity _)) in Ho.
    + by apply (owned_mounted _ _ _ _ _ _ _ _ swf_tools (reflexivity _)) in Ho.
    + by apply (owned_mounted _ _ _ _ _ _ _ _ swf_agents execution_agents_sub) in Ho.
    + destruct Ho as (e & h & [Hh _]%hook_in_environment & <-). by apply (swf_hook e h).
    + by apply (owned_mounted _ _ _ _ _ _ _ _ swf_subscribers execution_subscribers_sub) in Ho.
  - split; [done|]. intros o Ho. unfold mounted. rewrite execution_plugins. apply Hown, elem_of_execution_owners.
    destruct Ho as [Ho|[Ho|[Ho|[Ho|[Ho|[Ho|Ho]]]]]]; [by auto 7..| | |].
    + destruct Ho as (k & v & Hv & _ & <-). do 4 right. by exists k, v.
    + destruct Ho as (k & v & Hv & _). cbn in Hv; by rewrite lookup_empty in Hv.
    + destruct Ho as (k & e & [Hv Hb]%map_lookup_filter_Some & _ & He). cbn in Hb.
      destruct (session_event_builtin _ Hb) as (e' & He' & Hn). apply swf_builtin in He'. congruence.
Qed.

Lemma execution_ready : env_ready next E.
Proof.
  destruct Hwf. split.
  - by eapply keyed_sub; [apply execution_owners_ok|].
  - by eapply owned_keyed.
  - by eapply owned_keyed.
  - by eapply keyed_sub; [apply execution_agents_sub|eapply owned_keyed].
  - by eapply keyed_sub; [apply execution_subscribers_sub|eapply owned_keyed].
  - intros k v Hv. cbn in Hv; by rewrite lookup_empty in Hv.
  - intros k v [Hv _]%map_lookup_filter_Some. by apply (swf_events k v).
  - intros e l [Hl _]%map_lookup_filter_Some. by apply (swf_hooks e).
  - eapply hooks_named_sub; [|by eapply snapshot_hooks_named]. by intros e h [? _]%hook_in_environment.
Qed.
End recorded_snapshot.

(** ** A later composition *)

(** Under every name of the first map the second has a resource that looks the same. *)
Definition offers {V W} (f : V → W) (m m' : gmap string V) : Prop :=
  ∀ k v, m !! k = Some v → ∃ v', m' !! k = Some v' ∧ f v' = f v.

(** A later composition offers the resources of an earlier one, each from a plugin of the same name, version
    and registrations, and a subscriber that it adds does not observe recorded and live events at once. *)
Record resources_offered (S S' : registrySnapshot) : Prop := {
  ro_providers : offers (view or_Spec or_Owner) (sn_providers S) (sn_providers S');
  ro_tools : offers (view or_Spec or_Owner) (sn_tools S) (sn_tools S');
  ro_agents : offers (view oa_Spec oa_Owner) (sn_agents S) (sn_agents S');
  ro_hooks : ∀ e h, hook_in (sn_hooks S) e h →
    ∃ h', hook_in (sn_hooks S') e h' ∧ view oh_Spec oh_Owner h' = view oh_Spec oh_Owner h;
  ro_subscribers : offers (view or_Spec or_Owner) (sn_subscribers S) (sn_subscribers S');
  ro_added : ∀ k r, sn_subscribers S' !! k = Some r → sn_subscribers S !! k = None → observes r →
    subscriberObservesLiveExecutionOnly (or_Spec r) = false;
}.

Lemma catalog_names {V S} `{!MapOrder} loop (spec : V → S) (name : S → string) (m : gmap string V) :
  keyed (name ∘ spec) m → ∀ k, k ∈ (name <$> by_name name (spec <$> ranged loop m)) ↔ is_Some (m !! k).
Proof.
  intros Hn k. rewrite list_elem_of_fmap. setoid_rewrite elem_of_catalog. split.
  - intros (x & -> & k' & v & Hv & ->). pose proof (Hn _ _ Hv : name (spec v) = k') as ->. eauto.
  - intros [v Hv]. exists (spec v). split; [symmetry; by apply Hn|]. eauto.
Qed.

(** Copying the recorded names takes the resources that look the same. *)
Lemma copy_offered {V W} missing (f : V → W) (m m' : gmap string V) names :
  offers f m m' → (∀ k, k ∈ names ↔ is_Some (m !! k)) →
  ∃ r, copy_named missing m' names ∅ = Ok r ∧ r ⊆ m' ∧ offers f m r ∧ offers f r m.
Proof.
  intros Hoff Hnames. destruct (copy_named_spec missing m' names ∅) as (r & -> & Hl).
  { intros n [v Hv]%Hnames. destruct (Hoff _ _ Hv) as (v' & ? & _). eauto. }
  exists r. split_and!; [done| | |].
  - apply map_subseteq_spec. intros k v. rewrite Hl, lookup_empty. by case_decide.
  - intros k v Hv. rewrite Hl, decide_True by (apply Hnames; eauto). by apply Hoff.
  - intros k v'. rewrite Hl, lookup_empty. case_decide as Hk; [|done]. intros Hv'. apply Hnames in Hk as [v Hv].
    exists v. split; [done|]. destruct (Hoff _ _ Hv) as (v2 & Hv2 & <-). congruence.
Qed.

Lemma offers_shown {V W} (f : V → W) (m m' : gmap string V) x :
  offers f m m' → shown (λ _, True) f m x → shown (λ _, True) f m' x.
Proof. intros Hoff (k & v & Hv & _ & <-). destruct (Hoff _ _ Hv) as (v' & Hv' & Heq). by exists k, v'. Qed.

Lemma offers_shown_iff {V W} (f : V → W) (m m' : gmap string V) :
  offers f m m' → offers f m' m → ∀ x, shown (λ _, True) f m x ↔ shown (λ _, True) f m' x.
Proof. intros H1 H2 x. split; by apply offers_shown. Qed.

Lemma offers_sub {V W} (f : V → W) (m m1 m' : gmap string V) : m ⊆ m1 → offers f m1 m' → offers f m m'.
Proof. intros Hs Ho k v Hv. apply Ho. by eapply lookup_weaken. Qed.

(** ** Subscribers *)

Lemma observes_view r r' : view or_Spec or_Owner r = view or_Spec or_Owner r' → observes r → observes r'.
Proof. intros Heq%(f_equal fst). cbn in Heq. unfold observes. by rewrite Heq. Qed.

Lemma live_is_session spec : subscriberObservesLiveExecutionOnly spec = true → subscriberObservesSessionExecution spec = true.
Proof.
  unfold subscriberObservesLiveExecutionOnly, subscriberObservesSessionExecution. rewrite !existsb_exists.
  intros (e & He & [Hs _]%andb_true_iff). eauto.
Qed.

Section subscribers.
Context (m M M' r : gmap string (ownedResource SubscriberSpec)).
Context (HM : m = filter (λ p, subscriberObservesSessionExecution (or_Spec p.2) = true) M).
Context (Hoff : offers (view or_Spec or_Owner) M M').
Context (Hadd : ∀ k r, M' !! k = Some r → M !! k = None → observes r → subscriberObservesLiveExecutionOnly (or_Spec r) = false).
Context (Hr : r ⊆ M') (Hto : offers (view or_Spec or_Owner) (filter (λ p, observes p.2) m) r)
        (Hfrom : offers (view or_Spec or_Owner) r (filter (λ p, observes p.2) m)).

Lemma with_live_sub : r ∪ live_subscribers r M' ⊆ M'.
Proof. apply map_union_least; [done|]. apply map_filter_subseteq. Qed.

(** The live subscribers show nothing that was not recorded. *)
Lemma live_shows_nothing k v : live_subscribers r M' !! k = Some v → ¬ observes v.
Proof.
  intros [Hv [Hnone Hlive]]%map_lookup_filter_Some Hobs. cbn in *.
  destruct (M !! k) as [v0|] eqn:Hk; [|by rewrite (Hadd k v) in Hlive].
  destruct (Hoff _ _ Hk) as (v' & Hv' & Heq). assert (v' = v) as -> by congruence.
  destruct (Hto k v0) as (w & Hw & _); [|congruence].
  apply map_lookup_filter_Some. split; [|by apply (observes_view v)]. rewrite HM.
  apply map_lookup_filter_Some. split; [done|]. cbn. rewrite <-(f_equal fst Heq : or_Spec v = or_Spec v0). by apply live_is_session.
Qed.

Lemma subscribers_shown x :
  shown observes (view (filter_events ∘ or_Spec) or_Owner) m x ↔
  shown observes (view (filter_events ∘ or_Spec) or_Owner) (r ∪ live_subscribers r M') x.
Proof.
  assert (∀ v w, view or_Spec or_Owner v = view or_Spec or_Owner w →
    view (filter_events ∘ or_Spec) or_Owner v = view (filter_events ∘ or_Spec) or_Owner w) as Hview.
  { intros v w Heq. unfold view. cbn. by rewrite (f_equal fst Heq : or_Spec v = or_Spec w),
      (f_equal snd Heq : plugin_of (or_Owner v) = plugin_of (or_Owner w)). }
  split; intros (k & v & Hv & Hobs & <-).
  - destruct (Hto k v) as (w & Hw & Heq); [by apply map_lookup_filter_Some|].
    exists k, w. split_and!; [by apply lookup_union_Some_l|by apply (observes_view v)|by apply Hview].
  - apply lookup_union_Some_raw in Hv as [Hv|[_ Hv%live_shows_nothing]]; [|done].
    destruct (Hfrom k v Hv) as (w & [Hw Hobs']%map_lookup_filter_Some & Heq).
    exists k, w. split_and!; [done|done|by apply Hview].
Qed.
End subscribers.

(** ** Hooks *)

Lemma hooks_ok_filter next hooks hooks' (P : ownedHook → Prop) `{!∀ h, base.Decision (P h)} :
  hooks_ok next hooks' → (∀ e, default [] (hooks !! e) = filter P (default [] (hooks' !! e)) ∧ hooks !! e ≠ Some []) →
  hooks_ok next hooks.
Proof.
  intros Hok Hf e l Hl. destruct (Hf e) as [Heq Hne]. rewrite Hl in *. cbn [default from_option id] in Heq.
  destruct (hooks' !! e) as [l'|] eqn:Hl'; cbn [default from_option id] in Heq; [|by subst l; destruct Hne].
  destruct (Hok _ _ Hl'). subst l. split.
  - by intros Hn; rewrite Hn in Hne.
  - by apply StronglySorted_filter_cmp.
  - clear -hl_seq. induction l' as [|h l IH]; [done|]. rewrite filter_cons, fmap_cons in *.
    apply NoDup_cons in hl_seq as [Hx Hd]. case_decide; [|by apply IH]. rewrite fmap_cons. apply NoDup_cons.
    split; [|by apply IH]. intros (y & Hy & [_ Hin]%list_elem_of_filter)%list_elem_of_fmap. apply Hx. rewrite Hy.
    by apply list_elem_of_fmap_2.
  - apply list.Forall_forall. intros h [_ Hh]%list_elem_of_filter. by apply (proj1 (list.Forall_forall _ _) hl_next).
Qed.

Lemma hooks_resolved `{!MapOrder} next hooks hooks' specs :
  hooks_ok next hooks' → hooks_named hooks' →
  (∀ e h, hook_in hooks e h → ∃ h', hook_in hooks' e h' ∧ view oh_Spec oh_Owner h' = view oh_Spec oh_Owner h) →
  (∀ x, x ∈ specs ↔ shown_hook oh_Spec hooks x) →
  ∃ dst, copyEnvironmentHooks hooks' specs = Ok dst ∧ hooks_ok next dst ∧
    (∀ e h, hook_in dst e h → hook_in hooks' e h) ∧
    ∀ x, shown_hook (view oh_Spec oh_Owner) hooks x ↔ shown_hook (view oh_Spec oh_Owner) dst x.
Proof.
  intros Hok Hn Hoff Hspecs.
  assert (∀ name, name ∈ hs_Name <$> specs ↔ ∃ e h, hook_in hooks e h ∧ hook_name h = name) as Hnames.
  { intros name. rewrite list_elem_of_fmap. split.
    - intros (x & -> & (e & h & Hh & <-)%Hspecs). by exists e, h.
    - intros (e & h & Hh & <-). exists (oh_Spec h). split; [done|]. apply Hspecs. by exists e, h. }
  assert (∀ h h', view oh_Spec oh_Owner h' = view oh_Spec oh_Owner h → hook_name h' = hook_name h) as Hview.
  { intros h h' Heq. unfold hook_name. by rewrite (f_equal fst Heq : oh_Spec h' = oh_Spec h). }
  destruct (copy_hooks_spec next hooks' specs Hok Hn) as (dst & Hcopy & Hdst).
  { intros name (e & h & Hh & <-)%Hnames. destruct (Hoff _ _ Hh) as (h' & Hh' & Heq). exists e, h'. split; [done|by apply Hview]. }
  assert (∀ e h, hook_in dst e h ↔ hook_name h ∈ hs_Name <$> specs ∧ hook_in hooks' e h) as Hin.
  { intros e h. unfold hook_in. rewrite (proj1 (Hdst e)). by rewrite list_elem_of_filter. }
  exists dst. split_and!; [done|by eapply hooks_ok_filter|intros e h; rewrite Hin; tauto|].
  intros x. split; intros (e & h & Hh & <-).
  - destruct (Hoff _ _ Hh) as (h' & Hh' & Heq). exists e, h'. split; [|done]. apply Hin. split; [|done].
    rewrite (Hview _ _ Heq). apply Hnames. by exists e, h.
  - apply Hin in Hh as [(e0 & h0 & Hh0 & Hname)%Hnames Hh]. destruct (Hoff _ _ Hh0) as (h' & Hh' & Heq).
    pose proof (proj2 Hn _ _ _ _ Hh' Hh) as Hsame. rewrite <-Hsame; [by exists e0, h0|].
    transitivity (hook_name h0); [by apply Hview|done].
Qed.

(** ** Events *)

Lemma live_names_spec name : name ∈ live_event_names → live_event name = true.
Proof.
  assert (Forall (λ n, live_event n = true) live_event_names) as Hall by (vm_compute; repeat constructor).
  intros Hn. by apply (proj1 (list.Forall_forall _ _) Hall).
Qed.

Definition session_events (events : gmap string ownedEvent) : Prop :=
  ∀ k e, events !! k = Some e → builtinEventInSessionExecution k = true ∧ builtin_events !! k = Some e.

Lemma recorded_event_key events k e :
  session_events events → events !! k = Some e → recorded_event e ↔ builtinEventInTrajectoryEnvironment k = true.
Proof.
  intros Hs Hk. destruct (Hs _ _ Hk) as [_ Hb]. apply builtin_names in Hb as [Hn _]. unfold recorded_event. by rewrite Hn.
Qed.

Lemma events_resolved next S' events names :
  snapshot_wf next S' → session_events events →
  (∀ k, k ∈ names ↔ is_Some (events !! k) ∧ builtinEventInTrajectoryEnvironment k = true) →
  ∃ mid dst, copy_named "trajectory environment: event %q is unavailable" (sn_events S') names ∅ = Ok mid ∧
    copy_named "trajectory environment: live event %q is unavailable" (sn_events S') live_event_names mid = Ok dst ∧
    session_events dst ∧
    ∀ x : EventContract * option TrajectoryPlugin,
      shown recorded_event (λ e, (oe_Contract e, plugin_of <$> oe_Owner e)) events x ↔
      shown recorded_event (λ e, (oe_Contract e, plugin_of <$> oe_Owner e)) dst x.
Proof.
  intros Hwf Hev Hnames.
  assert (∀ k, builtinEventInSessionExecution k = true → sn_events S' !! k = builtin_events !! k) as Hb by eauto using session_event_wf.
  assert (∀ k, builtinEventInSessionExecution k = true → is_Some (sn_events S' !! k)) as Hsome.
  { intros k Hk. rewrite Hb by done. destruct (session_event_builtin _ Hk) as (e & -> & _). eauto. }
  assert (∀ k, k ∈ live_event_names → builtinEventInSessionExecution k = true) as Hlive.
  { intros k Hk%live_names_spec. unfold live_event in Hk. by apply andb_true_iff in Hk as [? _]. }
  assert (∀ k, k ∈ names → builtinEventInSessionExecution k = true) as Hns.
  { intros k [_ Hk]%Hnames. by apply trajectory_event_in_session. }
  destruct (copy_named_spec "trajectory environment: event %q is unavailable" (sn_events S') names ∅) as (mid & -> & Hmid); [eauto|].
  destruct (copy_named_spec "trajectory environment: live event %q is unavailable" (sn_events S') live_event_names mid)
    as (dst & Hd & Hdst); [eauto|].
  exists mid, dst. split; [done|]. split; [exact Hd|].
  assert (session_events dst) as Hsd.
  { intros k e. rewrite Hdst, Hmid, lookup_empty. repeat case_decide; try done; intros He.
    all: assert (builtinEventInSessionExecution k = true) as Hk by eauto; split; [done|by rewrite <-Hb]. }
  split; [done|]. intros x. split; intros (k & e & He & Hr & <-).
  - exists k, e. split_and!; [|done|done]. apply (recorded_event_key _ _ _ Hev He) in Hr. destruct (Hev _ _ He) as [Hk He'].
    rewrite Hdst, Hmid, Hb, He' by done. rewrite (decide_True (P := k ∈ names)) by (apply Hnames; eauto). by case_decide.
  - apply (recorded_event_key _ _ _ Hsd He) in Hr as Hk. destruct (Hsd _ _ He) as [Hks Hkb].
    rewrite Hdst, Hmid, lookup_empty in He. case_decide as Hl.
    { apply live_names_spec in Hl. unfold live_event in Hl. rewrite Hk in Hl. by apply andb_true_iff in Hl as [_ ?]. }
    case_decide as Hn; [|done]. apply Hnames in Hn as [[e' He'] _]. destruct (Hev _ _ He') as [_ Heb].
    assert (e' = e) as -> by congruence. by exists k, e.
Qed.

(** ** The resolved snapshot *)

Lemma execution_session_events `{!MapOrder} next S :
  snapshot_wf next S → session_events (sn_events (executionSnapshotForSession S)).
Proof.
  intros Hwf k e [He Hb]%map_lookup_filter_Some. cbn in Hb. split; [done|]. rewrite <-(session_event_wf next S); done.
Qed.

Lemma session_events_None events k e : session_events events → events !! k = Some e → oe_Owner e = None.
Proof. intros Hs He. apply Hs in He as [_ Hb]. by apply builtin_names in Hb as [_ ?]. Qed.

Section resolved.
Context {o1 o2 : MapOrder} (next next' : Z) (S S' : registrySnapshot) (Hwf : snapshot_wf next S) (Hwf' : snapshot_wf next' S').
Context (Hoff : resources_offered S S') (version : string) (config : SessionConfig) (env : TrajectoryEnvironment).
Let E := @executionSnapshotForSession o1 S.
Context (Henv : composition_of env = composition_of (@undigested o1 version E config)).

(** Every recorded plugin is mounted in the later composition. *)
Lemma recorded_plugin_mounted k :
  k ∈ tp_Name <$> env_Plugins env → is_Some (sn_plugins S' !! k).
Proof.
  rewrite (f_equal co_Plugins Henv : env_Plugins env = _). intros (x & -> & Hx)%list_elem_of_fmap.
  apply (elem_of_env_plugins next) in Hx as (o & Ho & <-);
    [|by apply execution_ready|by apply (execution_owners_ok next)].
  assert (∃ o', mounted (sn_plugins S') o' ∧ plugin_of o' = plugin_of o) as (o' & Hm & Heq).
  2: { rewrite <-Heq. exists o'. exact Hm. }
  assert (∀ {V Sp} name (spec : V → Sp) (owner : V → mount) ok (m m0 m' : gmap string V) P, offers (view spec owner) m m' → m0 ⊆ m →
    owned_ok name owner ok (sn_plugins S') m' → shown P owner m0 o →
    ∃ o', mounted (sn_plugins S') o' ∧ plugin_of o' = plugin_of o) as Hres.
  { intros V Sp name spec owner ok m m0 m' P Ho1 Hsub Hok (k & v & Hv & _ & <-).
    destruct (Ho1 k v) as (v' & Hv' & Heq); [by eapply lookup_weaken|].
    exists (owner v'). split; [by apply (Hok k v')|exact (f_equal snd Heq)]. }
  destruct Hoff, Hwf'. destruct Ho as [Ho|[Ho|[Ho|[Ho|[Ho|[Ho|Ho]]]]]].
  - eapply Hres; [exact ro_providers0|reflexivity|exact swf_providers|exact Ho].
  - eapply Hres; [exact ro_tools0|reflexivity|exact swf_tools|exact Ho].
  - eapply Hres; [exact ro_agents0|apply execution_agents_sub|exact swf_agents|exact Ho].
  - destruct Ho as (e & h & [Hh _]%hook_in_environment & <-). destruct (ro_hooks0 _ _ Hh) as (h' & Hh' & Heq).
    exists (oh_Owner h'). split; [by apply (swf_hook e h')|exact (f_equal snd Heq)].
  - eapply Hres; [exact ro_subscribers0|apply execution_subscribers_sub|exact swf_subscribers|exact Ho].
  - destruct Ho as (k & v & Hv & _). cbn in Hv. by rewrite lookup_empty in Hv.
  - destruct Ho as (k & e & He & _ & Ho). eapply session_events_None in He; [congruence|by eapply execution_session_events].
Qed.

Lemma recorded_provider_names k : k ∈ ps_Name <$> env_Providers env ↔ is_Some (sn_providers E !! k).
Proof.
  rewrite (f_equal co_Providers Henv : env_Providers env = _).
  by apply (catalog_names _ or_Spec ps_Name), (er_providers next), execution_ready.
Qed.

Lemma recorded_tool_names k : k ∈ ts_Name <$> env_Tools env ↔ is_Some (sn_tools E !! k).
Proof.
  rewrite (f_equal co_Tools Henv : env_Tools env = _).
  by apply (catalog_names _ or_Spec ts_Name), (er_tools next), execution_ready.
Qed.

Lemma recorded_agent_names k : k ∈ as_Name <$> env_Agents env ↔ is_Some (sn_agents E !! k).
Proof.
  rewrite (f_equal co_Agents Henv : env_Agents env = _).
  by apply (catalog_names _ oa_Spec as_Name), (er_agents next), execution_ready.
Qed.

Lemma recorded_subscriber_names k :
  k ∈ ss_Name <$> env_Subscribers env ↔ is_Some (filter (λ p, observes p.2) (sn_subscribers E) !! k).
Proof.
  rewrite (f_equal co_Subscribers Henv : env_Subscribers env = _). cbn [undigested with_plugins resource_environment
    env_Subscribers composition_of co_Subscribers catalogFromSnapshot ct_Subscribers].
  rewrite list_elem_of_fmap. setoid_rewrite elem_of_subscriber_specs. pose proof (execution_ready next S Hwf) as Hr. split.
  - intros (x & -> & k' & v & Hv & Hobs & <-). exists v. apply map_lookup_filter_Some. split; [|done].
    by rewrite <-(er_subscribers _ _ Hr _ _ Hv) in Hv.
  - intros [v [Hv Hobs]%map_lookup_filter_Some]. exists (filter_events (or_Spec v)).
    split; [symmetry; by apply (er_subscribers _ _ Hr _ _ Hv)|]. by exists k, v.
Qed.

Lemma recorded_event_names k :
  k ∈ ec_Name <$> env_Events env ↔ is_Some (sn_events E !! k) ∧ builtinEventInTrajectoryEnvironment k = true.
Proof.
  rewrite (f_equal co_Events Henv : env_Events env = _). cbn [undigested with_plugins resource_environment
    env_Events composition_of co_Events catalogFromSnapshot ct_Events].
  rewrite list_elem_of_fmap. setoid_rewrite elem_of_event_contracts. pose proof (execution_ready next S Hwf) as Hr. split.
  - intros (x & -> & k' & v & Hv & Hobs & <-). pose proof (er_events _ _ Hr _ _ Hv : ec_Name (oe_Contract v) = k') as Hk.
    unfold recorded_event in Hobs. rewrite Hk in *. eauto.
  - intros [[v Hv] Hb]. exists (oe_Contract v). pose proof (er_events _ _ Hr _ _ Hv : ec_Name (oe_Contract v) = k) as Hk.
    split; [done|]. exists k, v. split_and!; [done| |done]. unfold recorded_event. by rewrite Hk.
Qed.

(** The copies of the recorded resources in the later composition. *)
Record copied (R : registrySnapshot) : Prop := {
  cd_providers : sn_providers R ⊆ sn_providers S' ∧ offers (view or_Spec or_Owner) (sn_providers E) (sn_providers R) ∧
                 offers (view or_Spec or_Owner) (sn_providers R) (sn_providers E);
  cd_tools : sn_tools R ⊆ sn_tools S' ∧ offers (view or_Spec or_Owner) (sn_tools E) (sn_tools R) ∧
             offers (view or_Spec or_Owner) (sn_tools R) (sn_tools E);
  cd_agents : sn_agents R ⊆ sn_agents S' ∧ offers (view oa_Spec oa_Owner) (sn_agents E) (sn_agents R) ∧
              offers (view oa_Spec oa_Owner) (sn_agents R) (sn_agents E);
  cd_hooks : hooks_ok next' (sn_hooks R) ∧ (∀ e h, hook_in (sn_hooks R) e h → hook_in (sn_hooks S') e h) ∧
             ∀ x, shown_hook (view oh_Spec oh_Owner) (sn_hooks E) x ↔ shown_hook (view oh_Spec oh_Owner) (sn_hooks R) x;
  cd_subscribers : ∃ r, sn_subscribers R = r ∪ live_subscribers r (sn_subscribers S') ∧ r ⊆ sn_subscribers S' ∧
    offers (view or_Spec or_Owner) (filter (λ p, observes p.2) (sn_subscribers E)) r ∧
    offers (view or_Spec or_Owner) r (filter (λ p, observes p.2) (sn_subscribers E));
  cd_capabilities : sn_capabilities R = ∅;
  cd_events : session_events (sn_events R) ∧
    ∀ x : EventContract * option TrajectoryPlugin,
      shown recorded_event (λ e, (oe_Contract e, plugin_of <$> oe_Owner e)) (sn_events E) x ↔
      shown recorded_event (λ e, (oe_Contract e, plugin_of <$> oe_Owner e)) (sn_events R) x;
  cd_plugins : sn_plugins R ⊆ sn_plugins S';
  cd_owners : owners_mounted R;
}.

Lemma copied_ready R : copied R → env_ready next' R.
Proof.
  intros [[Hp _] [Ht _] [Ha _] (Hh & Hin & _) (r & Hs & Hr & _) Hc [He _] Hpl _]. destruct Hwf'. split.
  - by eapply keyed_sub.
  - by eapply keyed_sub; [|eapply owned_keyed].
  - by eapply keyed_sub; [|eapply owned_keyed].
  - by eapply keyed_sub; [|eapply owned_keyed].
  - rewrite Hs. by eapply keyed_sub; [apply with_live_sub|eapply owned_keyed].
  - rewrite Hc. intros k v Hv. by rewrite lookup_empty in Hv.
  - intros k e [_ Hb]%He. by apply builtin_names in Hb as [? _].
  - done.
  - eapply hooks_named_sub; [exact Hin|by eapply snapshot_hooks_named].
Qed.

Lemma copied_view R : copied R → same_view E R.
Proof.
  intros [(_ & Hp & Hp') (_ & Ht & Ht') (_ & Ha & Ha') (_ & _ & Hh) (r & Hs & Hr & Hto & Hfrom) Hc [_ He] _ _]. split.
  - by apply offers_shown_iff.
  - by apply offers_shown_iff.
  - by apply offers_shown_iff.
  - done.
  - rewrite Hs. destruct Hoff. by eapply subscribers_shown.
  - by rewrite Hc.
  - done.
Qed.

Lemma named_owners_mounted {V} name owner ok (m' : gmap string V) names o :
  owned_ok name owner ok (sn_plugins S') m' → Some o ∈ named_owners owner m' names → mounted (sn_plugins S') o.
Proof. intros Hok (k & v & _ & Hv & <-)%elem_of_named_owners. by apply (Hok k v). Qed.

Lemma shown_named_owner {V W} P (f : V → W) (owner : V → mount) (m m' r : gmap string V) names o :
  (∀ k, k ∈ names ↔ is_Some (m !! k)) → r ⊆ m' → offers f r m → shown P owner r o → Some o ∈ named_owners owner m' names.
Proof.
  intros Hn Hr Hf (k & v & Hv & _ & <-). apply elem_of_named_owners. exists k, v.
  split_and!; [|by eapply lookup_weaken|done]. apply Hn. destruct (Hf _ _ Hv) as (w & ? & _). eauto.
Qed.

(** The owners that the resolved snapshot includes, in the order of the loops. *)
Definition resolved_owners (rh : gmap string (list ownedHook)) (rs : gmap string (ownedResource SubscriberSpec))
    (re : gmap string ownedEvent) : list (option mount) :=
  named_owners id (sn_plugins S') (tp_Name <$> env_Plugins env) ++
  named_owners or_Owner (sn_providers S') (ps_Name <$> env_Providers env) ++
  named_owners or_Owner (sn_tools S') (ts_Name <$> env_Tools env) ++
  named_owners oa_Owner (sn_agents S') (as_Name <$> env_Agents env) ++
  (l ← @ranged _ o2 46 rh; (λ h, Some (oh_Owner h)) <$> l) ++
  named_owners or_Owner (sn_subscribers S') (ss_Name <$> env_Subscribers env) ++
  (oe_Owner <$> @ranged _ o2 49 re) ++
  @owners_of _ o2 50 or_Owner (live_subscribers rs (sn_subscribers S')).

Lemma resolved_owners_mounted rh rs re o :
  (∀ e h, hook_in rh e h → hook_in (sn_hooks S') e h) → session_events re →
  Some o ∈ resolved_owners rh rs re → mounted (sn_plugins S') o.
Proof.
  intros Hh Hre. unfold resolved_owners. rewrite !elem_of_app, elem_of_hook_owners, elem_of_owners_of.
  destruct Hwf'. intros [Ho|[Ho|[Ho|[Ho|[Ho|[Ho|[Ho|Ho]]]]]]].
  - apply elem_of_named_owners in Ho as (k & v & _ & Hv & <-). unfold mounted. cbn [id]. by rewrite (swf_plugins _ _ Hv).
  - by eapply named_owners_mounted in Ho.
  - by eapply named_owners_mounted in Ho.
  - by eapply named_owners_mounted in Ho.
  - destruct Ho as (e & h & Hin & <-). by apply (swf_hook e h), Hh.
  - by eapply named_owners_mounted in Ho.
  - apply list_elem_of_fmap in Ho as (e & Ho & [k Hk]%elem_of_ranged). eapply session_events_None in Hk; [congruence|done].
  - eapply owned_mounted in Ho; [done|exact swf_subscribers|apply map_filter_subseteq].
Qed.

(** The owners of what the resolved snapshot records are among them. *)
Lemma resolved_owners_complete pl rp rt ra rh rs re generation o :
  rp ⊆ sn_providers S' ∧ offers (view or_Spec or_Owner) rp (sn_providers E) →
  rt ⊆ sn_tools S' ∧ offers (view or_Spec or_Owner) rt (sn_tools E) →
  ra ⊆ sn_agents S' ∧ offers (view oa_Spec oa_Owner) ra (sn_agents E) →
  rs ⊆ sn_subscribers S' → offers (view or_Spec or_Owner) (filter (λ p, observes p.2) (sn_subscribers E)) rs →
  offers (view or_Spec or_Owner) rs (filter (λ p, observes p.2) (sn_subscribers E)) → session_events re →
  recorded_owner {| sn_generation := generation; sn_plugins := pl; sn_providers := rp; sn_tools := rt; sn_agents := ra;
    sn_hooks := rh; sn_subscribers := rs ∪ live_subscribers rs (sn_subscribers S'); sn_capabilities := ∅; sn_events := re |} o →
  Some o ∈ resolved_owners rh rs re.
Proof.
  intros [Hp1 Hp2] [Ht1 Ht2] [Ha1 Ha2] Hs1 Hs2 Hs3 He Ho.
  unfold resolved_owners. rewrite !elem_of_app, elem_of_hook_owners. pose proof Hoff as [_ _ _ _ Hos _].
  destruct Ho as [Ho|[Ho|[Ho|[Ho|[Ho|[Ho|Ho]]]]]]; cbn in Ho.
  - right; left. by eapply shown_named_owner; [apply recorded_provider_names|..].
  - do 2 right; left. by eapply shown_named_owner; [apply recorded_tool_names|..].
  - do 3 right; left. by eapply shown_named_owner; [apply recorded_agent_names|..].
  - by do 4 right; left.
  - do 5 right; left. destruct Ho as (k & v & [Hv|[_ Hv]]%lookup_union_Some_raw & Hobs & <-).
    + eapply (shown_named_owner (λ _, True)); [apply recorded_subscriber_names|exact Hs1|exact Hs3|by exists k, v].
    + exfalso. revert Hobs. eapply live_shows_nothing; [reflexivity|exact Hos|apply Hoff|exact Hs2|exact Hv].
  - destruct Ho as (k & v & Hv & _). by rewrite lookup_empty in Hv.
  - destruct Ho as (k & e & Hk & _ & Ho). eapply session_events_None in Hk; [congruence|done].
Qed.

Lemma snapshot_resolved :
  ∃ R, @snapshotForTrajectoryEnvironment o2 S' env = Ok R ∧ copied R.
Proof.
  pose proof Hwf' as [].
  pose proof Hoff as [Hop Hot Hoa Hoh Hos _].
  destruct (copy_named_spec "trajectory environment: plugin %q is unavailable" (sn_plugins S') (tp_Name <$> env_Plugins env) ∅)
    as (pl & Hpl & _); [apply recorded_plugin_mounted|].
  destruct (copy_offered "trajectory environment: provider %q is unavailable" _ _ _ _ Hop recorded_provider_names) as (rp & Hrp & Hp).
  destruct (copy_offered "trajectory environment: tool %q is unavailable" _ _ _ _ Hot recorded_tool_names) as (rt & Hrt & Ht).
  destruct (copy_offered "trajectory environment: agent %q is unavailable" _ _ _ _
    (offers_sub _ _ _ _ (execution_agents_sub S) Hoa) recorded_agent_names) as (ra & Hra & Ha).
  destruct (hooks_resolved next' (sn_hooks E) (sn_hooks S') (env_Hooks env)) as (rh & Hrh & Hh).
  { done. } { by eapply snapshot_hooks_named. } { intros e h [Hh _]%hook_in_environment. by apply Hoh. }
  { rewrite (f_equal co_Hooks Henv : env_Hooks env = _). intros x. apply elem_of_hook_catalog. }
  destruct (copy_offered "trajectory environment: subscriber %q is unavailable" (view or_Spec or_Owner)
    (filter (λ p, observes p.2) (sn_subscribers E)) (sn_subscribers S') _
    (offers_sub _ _ _ _ (transitivity (map_filter_subseteq _ _) (execution_subscribers_sub S)) Hos) recorded_subscriber_names)
    as (rs & Hrs & Hs).
  destruct (events_resolved next' S' (sn_events E) _ Hwf' (execution_session_events next S Hwf) recorded_event_names)
    as (mid & re & Hmid & Hre & He).
  assert (env_Capabilities env = []) as Hcap.
  { rewrite (f_equal co_Capabilities Henv : env_Capabilities env = _). cbn. unfold ranged. by rewrite range_empty. }
  destruct (include_owners_mounted (sn_plugins S') ∅ (resolved_owners rh rs re)) as (Hsub & _ & Hown);
    [apply map_empty_subseteq|intros o; apply resolved_owners_mounted; [apply Hh|apply He]|].
  unfold snapshotForTrajectoryEnvironment.
  rewrite (f_equal co_SDKAPIVersion Henv : env_SDKAPIVersion env = APIVersion), Hpl, Hrp, Hrt, Hra, Hrh, Hrs, Hcap.
  rewrite !fmap_nil. cbn [copy_named andb Z.eqb APIVersion result_bind]. rewrite Hmid. cbn [result_bind]. rewrite Hre. cbn [result_bind].
  exists {| sn_generation := sn_generation S'; sn_plugins := include_owners ∅ (resolved_owners rh rs re);
            sn_providers := rp; sn_tools := rt; sn_agents := ra; sn_hooks := rh;
            sn_subscribers := rs ∪ live_subscribers rs (sn_subscribers S'); sn_capabilities := ∅; sn_events := re |}.
  split; [unfold resolved_owners; by rewrite <-!include_owners_app|].
  split; cbn [sn_providers sn_tools sn_agents sn_hooks sn_subscribers sn_capabilities sn_events sn_plugins];
    [done|done|done|done|by exists rs|done|done|done|].
  intros o Ho. apply Hown. destruct Hs as (Hs1 & Hs2 & Hs3). eapply resolved_owners_complete; [..|exact Ho];
    [by destruct Hp as (? & _ & ?)|by destruct Ht as (? & _ & ?)|by destruct Ha as (? & _ & ?)|done..|apply He].
Qed.
End resolved.

(** ** The theorems *)

Section exact_resume.
Context `{!EnvironmentCodec}.

(** Two environments of one composition, version and configuration are equal. *)
Lemma undigested_ext {o1 o2 : MapOrder} X Y version config :
  composition_of (@undigested o1 version X config) = composition_of (@undigested o2 version Y config) →
  sn_generation X = sn_generation Y → @undigested o1 version X config = @undigested o2 version Y config.
Proof.
  intros Heq Hg.
  assert (∀ e e' : TrajectoryEnvironment, composition_of e = composition_of e' →
    env_RuntimeVersion e = env_RuntimeVersion e' → env_CreatedGeneration e = env_CreatedGeneration e' →
    env_ParentSessionID e = env_ParentSessionID e' → env_OriginInvocationID e = env_OriginInvocationID e' →
    env_OriginInvocationRootID e = env_OriginInvocationRootID e' → env_OriginForkInvocationID e = env_OriginForkInvocationID e' →
    env_OriginMode e = env_OriginMode e' → env_RequestedProvider e = env_RequestedProvider e' →
    env_SystemDigest e = env_SystemDigest e' → env_CompositionDigest e = env_CompositionDigest e' → e = e') as Hext.
  { intros [] []. unfold composition_of. cbn. intros [= -> -> -> -> -> -> -> -> ->] -> -> -> -> -> -> -> -> -> ->. done. }
  by apply Hext.
Qed.

(** A recorded environment names the events of a session: it is resolved from its snapshot. *)
Lemma recorded_source `{!MapOrder} next version S config env :
  snapshot_wf next S → composition_of env = composition_of (undigested version (executionSnapshotForSession S) config) →
  ∀ fallback, snapshotSourceForRecordedEnvironment fallback (newResumeEnvironment env) = env.
Proof.
  intros Hwf Hcomp fallback.
  assert ("turn_end" ∈ ec_Name <$> env_Events env) as Hin.
  { eapply recorded_event_names; [exact Hwf|exact Hcomp|]. split; [|by vm_compute].
    assert (builtinEventInSessionExecution "turn_end" = true) as Hb by done.
    destruct (session_event_builtin _ Hb) as (e & He & _). exists e.
    apply map_lookup_filter_Some. split; [by apply (swf_builtin _ _ Hwf)|done]. }
  assert (TrajectoryEnvironmentHasCompositionSnapshot env = true) as Hhas.
  { unfold TrajectoryEnvironmentHasCompositionSnapshot. destruct (env_Events env); [by apply not_elem_of_nil in Hin|].
    cbn. by rewrite !orb_true_r. }
  unfold newResumeEnvironment, snapshotSourceForRecordedEnvironment. by rewrite Hhas.
Qed.

Lemma validate_same recorded current :
  env_SDKAPIVersion recorded = env_SDKAPIVersion current →
  env_CompositionDigest recorded = env_CompositionDigest current → validateResumeEnvironment recorded current = Ok tt.
Proof.
  intros Hv Hd. unfold validateResumeEnvironment. rewrite Hv, Hd, Z.eqb_refl, bool_decide_eq_true_2 by done.
  by destruct (_ && _).
Qed.

(** The environment that an execution records, its digest included, does not depend on the order in
    which the loops visit the maps of a well-formed composition: the catalogs are sorted and the plugins are
    those that own a recorded resource. *)
Theorem execution_environment_deterministic {o1 o2 : MapOrder} next S version config :
  snapshot_wf next S →
  (let? '(_, env) := @newExecutionEnvironment _ o1 version S config in Ok env) =
  (let? '(_, env) := @newExecutionEnvironment _ o2 version S config in Ok env).
Proof.
  intros Hwf. unfold newExecutionEnvironment. rewrite !newTrajectoryEnvironment_eq.
  assert (@undigested o1 version (@executionSnapshotForSession o1 S) config =
          @undigested o2 version (@executionSnapshotForSession o2 S) config) as ->; [|by destruct (Marshal_composition _)].
  assert (composition_of (@undigested o1 version (@executionSnapshotForSession o1 S) config) =
          composition_of (@undigested o2 version (@executionSnapshotForSession o2 S) config)) as Heq.
  { eapply same_composition; [by apply execution_ready..|by eapply execution_owners_ok|by eapply execution_owners_ok|by split]. }
  apply undigested_ext; [exact Heq|done..].
Qed.

(** An environment with the composition and the digest of a session, whatever its lineage, is resolved. *)
Lemma recorded_resolves {o1 o2 : MapOrder} next next' S S' version version' config config' fallback env raw :
  snapshot_wf next S → snapshot_wf next' S' → resources_offered S S' →
  composition_of env = composition_of (@undigested o1 version (@executionSnapshotForSession o1 S) config) →
  Marshal_composition (composition_of env) = Ok raw → env_CompositionDigest env = sha256_hex raw →
  ∃ R env', @resolveResumeSnapshot _ o2 version' S' fallback (newResumeEnvironment env) config' = Ok R ∧
    sn_providers R ⊆ sn_providers S' ∧ sn_tools R ⊆ sn_tools S' ∧ sn_agents R ⊆ sn_agents S' ∧
    @newTrajectoryEnvironment _ o2 version' R config' = Ok env' ∧
    composition_of env' = composition_of env ∧ env_CompositionDigest env' = env_CompositionDigest env.
Proof.
  intros Hwf Hwf' Hoff Hcomp Hraw Hdig.
  destruct (@snapshot_resolved o1 o2 next next' S S' Hwf Hwf' Hoff version config env Hcomp) as (R & HR & Hcop).
  assert (composition_of (@undigested o2 version' R config') = composition_of env) as Hsame.
  { rewrite Hcomp. symmetry. eapply same_composition; [by apply execution_ready|exact (@copied_ready o1 next' S S' Hwf' R Hcop)|
      by eapply execution_owners_ok|exact (@cd_owners o1 next' S S' R Hcop)|exact (@copied_view o1 next' S S' Hoff R Hcop)]. }
  assert (@newTrajectoryEnvironment _ o2 version' R config' = Ok (with_digest (@undigested o2 version' R config') (sha256_hex raw)))
    as Hresolved by (by rewrite newTrajectoryEnvironment_eq, Hsame, Hraw).
  exists R, (with_digest (@undigested o2 version' R config') (sha256_hex raw)).
  split_and!; [|by apply Hcop|by apply Hcop|by apply Hcop|done|done|done].
  unfold resolveResumeSnapshot. rewrite (recorded_source _ _ _ _ _ Hwf Hcomp fallback), HR. cbn [result_bind].
  rewrite Hresolved. cbn [result_bind].
  rewrite validate_same; [done| |exact Hdig].
  exact (eq_sym (f_equal co_SDKAPIVersion Hsame)).
Qed.

(** C8. Exact resume. A session that starts on a well-formed composition records an environment; a later
    composition, after a restart or other mounts, that offers the same resources from plugins of the same name,
    version and registrations and adds no subscriber of recorded and live events at once resolves the recorded
    environment, whatever the fallback: the resumed snapshot is a part of the later composition and records
    the same plugins, resources and digest. *)
Theorem resume_reproduces_composition {o1 o2 : MapOrder} next next' S S' version version' config config' fallback E env :
  snapshot_wf next S → snapshot_wf next' S' → resources_offered S S' →
  @newExecutionEnvironment _ o1 version S config = Ok (E, env) →
  ∃ R env', @resolveResumeSnapshot _ o2 version' S' fallback (newResumeEnvironment env) config' = Ok R ∧
    sn_providers R ⊆ sn_providers S' ∧ sn_tools R ⊆ sn_tools S' ∧ sn_agents R ⊆ sn_agents S' ∧
    @newTrajectoryEnvironment _ o2 version' R config' = Ok env' ∧
    composition_of env' = composition_of env ∧ env_CompositionDigest env' = env_CompositionDigest env.
Proof.
  intros Hwf Hwf' Hoff. unfold newExecutionEnvironment. intros Hnew.
  destruct (newTrajectoryEnvironment version (executionSnapshotForSession S) config) as [env0|] eqn:Henv; [|done].
  cbn [result_bind] in Hnew. injection Hnew as <- ->.
  destruct (newTrajectoryEnvironment_Ok _ _ _ _ Henv) as (Hcomp & raw & Hraw & Hdig).
  exact (@recorded_resolves o1 o2 next next' S S' version version' config config' fallback env raw Hwf Hwf' Hoff Hcomp Hraw Hdig).
Qed.
End exact_resume.

(** ** Exact resume on concrete compositions: a restarted process with more plugins resumes, and a subscriber
    of both recorded and live events blocks the resume. *)

(** A codec that lists the names of a composition. *)
Definition ex_composition_text (c : composition) : string :=
  String.concat ";" ((tp_Name <$> co_Plugins c) ++ (ps_Name <$> co_Providers c) ++ (ts_Name <$> co_Tools c) ++
    (as_Name <$> co_Agents c) ++ (hs_Name <$> co_Hooks c) ++ (ss_Name <$> co_Subscribers c) ++ (ec_Name <$> co_Events c)).

#[local] Instance ex_environment_codec : EnvironmentCodec :=
  {| Marshal_composition c := Ok (ex_composition_text c); Unmarshal_environment _ := Err (Errorf "unexpected end of JSON input" []) |}.

Definition ex_resume_mount (id : Z) (name : string) (registers : list string) : mount :=
  {| mt_ID := id; mt_Manifest := ex_manifest name registers; mt_Source := "builtin" |}.

Definition ex_sub (name : string) (events : list string) : contribution :=
  AddSubscriber (Some {| cn_Value := ex_impl; cn_Spec := {| ss_Name := name; ss_Timeout := 0; ss_Events := events |} |}).

Definition ex_core_staged : Registrar :=
  ex_staged [AddProvider (Some {| cn_Value := ex_impl; cn_Spec := {| ps_Name := "stub"; ps_Model := "m1" |} |});
             AddTool (Some {| cn_Value := ex_impl;
                              cn_Spec := {| ts_Name := "bash"; ts_Description := "run"; ts_Parameters := "{}";
                                            ts_InterruptBehavior := ""; ts_Concurrency := "exclusive" |} |});
             ex_hook "core.guard" "before_tool" 100; ex_sub "core.trace" ["turn_end"]].

Definition ex_core (id : Z) : mount :=
  ex_resume_mount id "core" ["hook:core.guard"; "provider:stub"; "subscriber:core.trace"; "tool:bash"].

Definition ex_watch : mount := ex_resume_mount 7 "watch" ["subscriber:watch.all"].

(** The composition when the session starts, and two later ones of another process. *)
Definition ex_first : registrySnapshot * Z := ex_mount (initialSnapshot, 0) (ex_core 1) ex_core_staged.
Definition ex_later (events : list string) : registrySnapshot * Z :=
  ex_mount (ex_mount (initialSnapshot, 0) ex_watch (ex_staged [ex_sub "watch.all" events])) (ex_core 8) ex_core_staged.

Definition ex_resume_config : SessionConfig :=
  {| cfg_ID := "s1"; cfg_Provider := "stub"; cfg_System := "be brief"; cfg_MaxTurns := 5; cfg_ReasoningEffort := "";
     cfg_ResumePolicy := "" |}.

Definition ex_recorded : TrajectoryEnvironment :=
  get zeroEnvironment (let? '(_, env) := @newExecutionEnvironment _ forward_order "v1" ex_first.1 ex_resume_config in Ok env).

Definition ex_resolved (events : list string) : result registrySnapshot :=
  @resolveResumeSnapshot _ backward_order "v1" (ex_later events).1 zeroEnvironment (newResumeEnvironment ex_recorded) ex_resume_config.

(** ** The hypotheses of exact resume, computed *)

#[local] Instance TrajectoryPlugin_eq_dec : EqDecision TrajectoryPlugin.
Proof. solve_decision. Defined.
#[local] Instance ProviderSpec_eq_dec : EqDecision ProviderSpec.
Proof. solve_decision. Defined.
#[local] Instance ToolSpec_eq_dec : EqDecision ToolSpec.
Proof. solve_decision. Defined.
#[local] Instance HookSpec_eq_dec : EqDecision HookSpec.
Proof. solve_decision. Defined.
#[local] Instance SubscriberSpec_eq_dec : EqDecision SubscriberSpec.
Proof. solve_decision. Defined.

Lemma offers_compute {V W} `{!EqDecision W} (f : V → W) (m m' : gmap string V) :
  forallb (λ p, match m' !! p.1 with Some v' => bool_decide (f v' = f p.2) | None => false end) (map_to_list m) = true →
  offers f m m'.
Proof.
  rewrite forallb_forall. intros Hall k v Hv. apply elem_of_map_to_list, list_elem_of_In in Hv. specialize (Hall _ Hv).
  cbn in Hall. destruct (m' !! k) as [v'|]; [|done]. exists v'. by apply bool_decide_eq_true in Hall.
Qed.

Lemma hooks_offered_compute hooks hooks' :
  forallb (λ p, forallb (λ h, existsb (λ h', bool_decide (view oh_Spec oh_Owner h' = view oh_Spec oh_Owner h))
    (default [] (hooks' !! p.1))) p.2) (map_to_list hooks) = true →
  ∀ e h, hook_in hooks e h → ∃ h', hook_in hooks' e h' ∧ view oh_Spec oh_Owner h' = view oh_Spec oh_Owner h.
Proof.
  rewrite forallb_forall. intros Hall e h Hh. unfold hook_in in *. destruct (hooks !! e) as [l|] eqn:Hl;
    [|by apply not_elem_of_nil in Hh].
  apply elem_of_map_to_list, list_elem_of_In in Hl. specialize (Hall _ Hl). rewrite forallb_forall in Hall.
  specialize (Hall h ltac:(by apply list_elem_of_In)). apply existsb_exists in Hall as (h' & Hin & Heq%bool_decide_eq_true).
  exists h'. by split; [apply list_elem_of_In|].
Qed.

Lemma added_compute (m m' : gmap string (ownedResource SubscriberSpec)) :
  forallb (λ p, negb (subscriberObservesLiveExecutionOnly (or_Spec p.2)) || bool_decide (is_Some (m !! p.1)) ||
    (length (ss_Events (filter_events (or_Spec p.2))) =? 0)%nat) (map_to_list m') = true →
  ∀ k r, m' !! k = Some r → m !! k = None → observes r → subscriberObservesLiveExecutionOnly (or_Spec r) = false.
Proof.
  rewrite forallb_forall. intros Hall k r Hr Hk Hobs. apply elem_of_map_to_list, list_elem_of_In in Hr. specialize (Hall _ Hr).
  cbn in Hall. destruct (subscriberObservesLiveExecutionOnly (or_Spec r)); [|done]. rewrite Hk in Hall. cbn in Hall.
  unfold observes in Hobs. cbn in Hobs. by destruct (filter _ (ss_Events (or_Spec r))).
Qed.

Lemma ex_first_wf : snapshot_wf ex_first.2 ex_first.1.
Proof. apply comp_reach_wf, ex_comp_mount; [constructor|apply ex_staged_reach|by vm_compute..]. Qed.

Definition ex_watched : registrySnapshot * Z := ex_later ["provider_outcome"].

Lemma ex_watched_wf : snapshot_wf ex_watched.2 ex_watched.1.
Proof.
  unfold ex_watched, ex_later. set (s := ex_mount (initialSnapshot, 0) ex_watch (ex_staged [ex_sub "watch.all" ["provider_outcome"]])).
  assert (comp_reach s.2 s.1) as Hs by (apply ex_comp_mount; [constructor|apply ex_staged_reach|by vm_compute..]).
  rewrite (surjective_pairing s). apply comp_reach_wf, ex_comp_mount; [exact Hs|apply ex_staged_reach|by vm_compute..].
Qed.

Lemma ex_offered : resources_offered ex_first.1 ex_watched.1.
Proof.
  split; [apply offers_compute; by vm_compute|apply offers_compute; by vm_compute| |apply hooks_offered_compute; by vm_compute|
    apply offers_compute; by vm_compute|apply added_compute; by vm_compute].
  assert (sn_agents ex_first.1 = ∅) as -> by (by vm_compute). intros k v Hv. by rewrite lookup_empty in Hv.
Qed.

Definition ex_recorded_run : registrySnapshot * TrajectoryEnvironment :=
  get (initialSnapshot, zeroEnvironment) (@newExecutionEnvironment _ forward_order "v1" ex_first.1 ex_resume_config).

Lemma ex_recorded_run_ok :
  @newExecutionEnvironment _ forward_order "v1" ex_first.1 ex_resume_config = Ok (ex_recorded_run.1, ex_recorded_run.2).
Proof.
  unfold ex_recorded_run. assert (result_ok (@newExecutionEnvironment _ forward_order "v1" ex_first.1 ex_resume_config) = true) as Hok
    by (by vm_compute).
  destruct (newExecutionEnvironment "v1" ex_first.1 ex_resume_config) as [[E env]|]; [done|done].
Qed.

(** The later process mounts another plugin first, and one that watches the outcome of the provider. *)
Lemma resume_reproduces_composition_witness :
  sn_generation ex_watched.1 = 3 ∧
  ∃ R env', @resolveResumeSnapshot _ backward_order "v2" ex_watched.1 zeroEnvironment
              (newResumeEnvironment ex_recorded_run.2) ex_resume_config = Ok R ∧
    sn_providers R ⊆ sn_providers ex_watched.1 ∧ sn_tools R ⊆ sn_tools ex_watched.1 ∧ sn_agents R ⊆ sn_agents ex_watched.1 ∧
    @newTrajectoryEnvironment _ backward_order "v2" R ex_resume_config = Ok env' ∧
    composition_of env' = composition_of ex_recorded_run.2 ∧
    env_CompositionDigest env' = env_CompositionDigest ex_recorded_run.2.
Proof.
  split; [by vm_compute|].
  exact (@resume_reproduces_composition _ forward_order backward_order ex_first.2 ex_watched.2 ex_first.1 ex_watched.1 "v1" "v2"
    ex_resume_config ex_resume_config zeroEnvironment ex_recorded_run.1 ex_recorded_run.2
    ex_first_wf ex_watched_wf ex_offered ex_recorded_run_ok).
Defined.

Lemma execution_environment_deterministic_witness :
  env_CompositionDigest ex_recorded_run.2 ≠ "" ∧
  (let? '(_, env) := @newExecutionEnvironment _ forward_order "v1" ex_first.1 ex_resume_config in Ok env) =
  (let? '(_, env) := @newExecutionEnvironment _ backward_order "v1" ex_first.1 ex_resume_config in Ok env).
Proof.
  split; [by vm_compute|].
  exact (@execution_environment_deterministic _ forward_order backward_order ex_first.2 ex_first.1 "v1" ex_resume_config ex_first_wf).
Defined.

(** A subscriber mounted after the start blocks exact resume when it observes a live event and a recorded
    one, [provider_outcome] and [turn_end]: it joins the resumed snapshot as a live subscriber and its
    recorded event changes the digest. A subscriber of either event alone does not. *)
Theorem mixed_subscriber_blocks_resume :
  result_ok (ex_resolved ["provider_outcome"]) = true ∧ result_ok (ex_resolved ["turn_end"]) = true ∧
  ∃ from to, ex_resolved ["provider_outcome"; "turn_end"] =
    Err (Wrapf "%w: composition digest changed from %s to %s" [AStr from; AStr to] ErrResumeEnvironmentMismatch).
Proof. split; [by vm_compute|]. split; [by vm_compute|]. eexists _, _. by vm_compute. Qed.

(** ** The walk from a checkpoint to the input of its execution, [executionInputEntryBefore]: on the branch of
    the checkpoint it ends, and finds the latest input of the execution. *)

Definition is_input_of (from entry : TrajectoryEntry) : bool :=
  bool_decide (te_Kind entry = TrajectoryKindUserMessage) &&
  bool_decide (tf_ExecutionID (te_Fields entry) = tf_ExecutionID (te_Fields from)).

Definition no_input_error (id : string) (from : TrajectoryEntry) : error :=
  Errorf "trajectory %q checkpoint %q has no input entry for execution %q"
    [AStr id; AStr (te_ID from); AStr (tf_ExecutionID (te_Fields from))].

Section walk.
Context (st : memoryTrajectoryStore) (l : list string) (Hb : base_wf st l).
Context (Hall : ∀ id t, trajectories st !! id = Some t → traj_wf st id t).

Lemma entryLocked_valid id c e : entryLocked st id c = Ok (Some e) → valid_name c.
Proof using Hall. intros (id' & t & Ht & He)%entry_at_owned. by apply (tw_own _ _ _ (Hall _ _ Ht) _ _ He). Qed.

Lemma LoadEntry_found id c e : entryLocked st id c = Ok (Some e) → tstore_LoadEntry st None id c = Ok e.
Proof using Hall.
  intros He. unfold tstore_LoadEntry. cbn [ctx_Err].
  rewrite (proj2 (ValidateResourceName_Ok "trajectory entry" c tt)) by (by eapply entryLocked_valid). by rewrite He.
Qed.

Lemma input_before_chain id from : ∀ k fuel seen entry,
  chain (entryLocked st id) (te_ID entry) (entry :: k) → (length k < fuel)%nat →
  (∀ e, e ∈ k → te_ID e ∉ seen) →
  input_before fuel st None id from seen entry =
  Some (match findb (is_input_of from) (entry :: k) with Some e => Ok e | None => Err (no_input_error id from) end).
Proof using Hb Hall.
  induction k as [|e k IH]; intros [|fuel] seen entry Hch Hf Hseen; [cbn in Hf; lia| |cbn in Hf; lia|];
    cbn [input_before List.find]; fold (is_input_of from entry); inversion Hch as [|c e' l' Hc He Hp]; subst.
  - inversion Hp; subst. by destruct (is_input_of from entry).
  - inversion Hp as [|c e' l' Hc' He' Hp']; subst. destruct (is_input_of from entry); [done|].
    pose proof (entryLocked_ids _ _ Hb id _ _ He') as Hid.
    rewrite (proj2 (is_empty_false _) Hc'), bool_decide_eq_false_2 by (rewrite <-Hid; apply Hseen; set_solver).
    rewrite (LoadEntry_found _ _ _ He'). apply IH; [by rewrite Hid|cbn in Hf; lia|].
    intros x Hx [Heq%elem_of_singleton|Hin]%elem_of_union; [|apply (Hseen x); [set_solver|done]].
    pose proof (chain_NoDup _ (entryLocked_ids _ _ Hb id) _ _ Hp) as Hd. rewrite fmap_cons in Hd.
    apply NoDup_cons in Hd as [Hd _]. apply Hd. rewrite Hid, <-Heq. by apply list_elem_of_fmap_2.
Qed.
End walk.

(** The walk ends and is exact: from an entry whose branch the store reads, with as many steps as the
    branch has entries, it returns the latest user message of the same execution on that branch, or the error
    that there is none; the cycle and load errors do not occur on a store that the operations built. *)
Theorem execution_input_walk_exact calls id from ancestors fuel :
  calls_ok calls → let st := tstore_run newMemoryTrajectoryStore calls in
  tstore_LoadBranch st None id (te_ID from) = Ok (ancestors ++ [from]) → (length ancestors < fuel)%nat →
  executionInputEntryBefore fuel st None id from =
  Some (match findb (is_input_of from) (from :: reverse ancestors) with
        | Some input => Ok input
        | None => Err (Errorf "trajectory %q checkpoint %q has no input entry for execution %q"
                         [AStr id; AStr (te_ID from); AStr (tf_ExecutionID (te_Fields from))])
        end).
Proof.
  intros Hc st Hbr Hf. destruct (tstore_run_wf _ _ wf_empty Hc) as (l & Hb & Hall). fold st in Hb, Hall.
  apply (branchLocked_chain _ _ _ _ _ Hb Hall) in Hbr as (_ & k & Hch & Hk).
  assert (k = from :: reverse ancestors) as ->
    by (rewrite <-(reverse_involutive k), <-Hk; apply reverse_snoc).
  apply (input_before_chain st l Hb Hall id from); [done|by rewrite length_reverse|set_solver].
Qed.

Definition ex_at (entryID : string) : TrajectoryEntry :=
  get (ex_entry entryID "" TrajectoryKindCheckpoint) (tstore_LoadEntry ex_store None "fork" entryID).

(** From the checkpoint that a fork inherits, the walk reaches the input in the parent trajectory. *)
Lemma execution_input_walk_exact_witness :
  findb (is_input_of (ex_at "e2")) (ex_at "e2" :: reverse [ex_at "e1"]) = Some (ex_at "e1") ∧
  executionInputEntryBefore 2 ex_store None "fork" (ex_at "e2") =
  Some (match findb (is_input_of (ex_at "e2")) (ex_at "e2" :: reverse [ex_at "e1"]) with
        | Some input => Ok input
        | None => Err (Errorf "trajectory %q checkpoint %q has no input entry for execution %q"
                         [AStr "fork"; AStr (te_ID (ex_at "e2")); AStr (tf_ExecutionID (te_Fields (ex_at "e2")))])
        end).
Proof.
  split; [by vm_compute|].
  apply (execution_input_walk_exact ex_setup "fork" (ex_at "e2") [ex_at "e1"] 2);
    [apply ex_setup_ok|by vm_compute|cbn; lia].
Defined.

