(* ===== verification/Sessions.v ===== *)
(** Creating, resuming and rolling back sessions: [sdk/runtime/session.go], the head moves and the rollback of
    [durability_trajectory.go], and the exact-resume projection of [session_projection.go].

    An operation takes the trajectory store and returns it with its result, because a failure after a write
    leaves the write.  Leases are counted in [Mounts]; here acquiring one succeeds or fails. *)

From S2P Require Import Prelude GoText Names Paging Message ContextInjection Trajectory TrajectoryStore Sha256.
From S2P Require Import Agent Invocation Lineage Registrar Composition EventDispatch Payload Durability SessionState PromptHost SessionTrajectory ExecutionCompletion ResumeEnvironment.

(** What a session needs of the runtime: its state, the current composition, the lease of the mounts of a
    snapshot and the preparation of a trajectory event. *)
Record SessionRuntime := {
  rt_version : string;
  rt_closed : bool;
  rt_draining : bool;
  rt_current : registrySnapshot;
  rt_acquireMounts : gmap string mount → result unit;
  rt_prepareEvent : registrySnapshot → post_commit_event → result unit;
}.

Definition beginTrajectoryWork (runtime : SessionRuntime) : result unit :=
  fail_if rt_closed runtime with Sentinel ErrRuntimeClosed;
  fail_if rt_draining runtime with Sentinel ErrRuntimeDraining;
  Ok tt.

Definition acquireRegistrySnapshot (runtime : SessionRuntime) (snapshot : registrySnapshot) : result registrySnapshot :=
  fail_if rt_closed runtime with Sentinel ErrRuntimeClosed;
  try? rt_acquireMounts runtime (sn_plugins snapshot);
  Ok snapshot.

Definition acquireSnapshot (runtime : SessionRuntime) : result registrySnapshot :=
  acquireRegistrySnapshot runtime (rt_current runtime).

(** A session with its pinned composition and the mode it was created in. *)
Record openSession := {
  os_session : session;
  os_pinnedSnapshot : option registrySnapshot;
  os_originMode : string;
}.

Definition set_os_session (s : openSession) (state : session) : openSession :=
  {| os_session := state; os_pinnedSnapshot := os_pinnedSnapshot s; os_originMode := os_originMode s |}.

Record trajectorySessionCreation := {
  cr_Label : string;
  cr_Config : SessionConfig;
  cr_Snapshot : option registrySnapshot;
  cr_Lineage : option trajectorySessionLineage;
  cr_PinExecutionSnapshot : bool;
  cr_Invocation : option Invocation;
}.

Definition set_causal (s : session) (causal : string * string) : session :=
  {| ls_config := ls_config s; ls_executionID := ls_executionID s; ls_executionToken := ls_executionToken s;
     ls_messages := ls_messages s; ls_head := ls_head s; ls_consumedContext := ls_consumedContext s;
     ls_contextInjections := ls_contextInjections s; ls_causal := causal |}.

Definition new_trajectory (id : string) (environment : TrajectoryEnvironment) : Trajectory :=
  {| tj_SchemaVersion := 0; tj_ID := id; tj_ParentID := ""; tj_ParentEntryID := ""; tj_CreatedAt := 0; tj_UpdatedAt := 0;
     tj_Head := ""; tj_Checkpoint := ""; tj_Execution := None; tj_Environment := environment; tj_Entries := [] |}.

Definition with_session_id (config : SessionConfig) (id : string) : SessionConfig :=
  {| cfg_ID := id; cfg_Provider := cfg_Provider config; cfg_System := cfg_System config;
     cfg_MaxTurns := cfg_MaxTurns config; cfg_ReasoningEffort := cfg_ReasoningEffort config;
     cfg_ResumePolicy := cfg_ResumePolicy config |}.

Section sessions.
Context `{!PayloadCodec} `{!EnvironmentCodec} `{!MapOrder}.

(** ** Projection *)

Definition project_session (metadata : TrajectoryMetadata) (config : SessionConfig) (head : string)
    (messages : list Message) (pinnedSnapshot : option registrySnapshot) : openSession :=
  {| os_session := projectTrajectorySession metadata config head messages; os_pinnedSnapshot := pinnedSnapshot;
     os_originMode := trajectorySessionOriginMode metadata |}.

Definition projectSessionFromResumeBase (metadata : TrajectoryMetadata) (config : SessionConfig) (base : SessionResumeBase)
    (head : string) (pinnedSnapshot : option registrySnapshot) : openSession :=
  let opened := project_session metadata config head (bb_Messages (sb_Base base)) pinnedSnapshot in
  let state := applyCheckpointConfig (os_session opened) (sb_Checkpoint base) in
  set_os_session opened (applyContextInjectionProjection state (sb_Checkpoint base)).

Definition projectResumeBaseSession (st : memoryTrajectoryStore) (ctx : context) (metadata : TrajectoryMetadata)
    (config : SessionConfig) (pinnedSnapshot : option registrySnapshot) : result openSession :=
  let? base := LoadSessionResumeBase st ctx metadata in
  Ok (projectSessionFromResumeBase metadata config base (bb_Head (sb_Base base)) pinnedSnapshot).

(** ** Creation *)

Definition createTrajectorySessionFromSnapshot (runtime : SessionRuntime) (st : memoryTrajectoryStore) (ctx : context)
    (creation : trajectorySessionCreation) (wall : time) : result openSession * memoryTrajectoryStore :=
  match cr_Snapshot creation with
  | None => (Err (errors_New "trajectory session creation snapshot is nil"), st)
  | Some snapshot =>
      let label := string_default (cr_Label creation) "session" in
      let config := cr_Config creation in
      match newExecutionEnvironment (rt_version runtime) snapshot config with
      | Err err => (Err err, st)
      | Ok (executionSnapshot, environment) =>
          let trajectory :=
            match cr_Lineage creation with
            | None => new_trajectory (cfg_ID config) environment
            | Some lineage => lineage_trajectory lineage (cfg_ID config) (lineage_applyEnvironment lineage environment)
            end in
          match tstore_Create st ctx trajectory wall with
          | Err err => (Err (Wrapf "create %s trajectory %q: %w" [AStr label; AStr (cfg_ID config)] err), st)
          | Ok st =>
              match tstore_LoadMetadata st ctx (cfg_ID config) with
              | Err err => (Err (Wrapf "load created %s trajectory %q: %w" [AStr label; AStr (cfg_ID config)] err), st)
              | Ok metadata =>
                  let pinned := if cr_PinExecutionSnapshot creation then Some executionSnapshot else None in
                  match projectResumeBaseSession st ctx metadata config pinned with
                  | Err err => (Err err, st)
                  | Ok opened =>
                      (Ok (match cr_Invocation creation with
                           | None => opened
                           | Some invocation =>
                               set_os_session opened
                                 (set_causal (os_session opened) (causalInvocationScopeFromInvocation invocation))
                           end), st)
                  end
              end
          end
      end
  end.

Definition NewSession (runtime : SessionRuntime) (st : memoryTrajectoryStore) (ctx : context) (config : SessionConfig)
    (e : entropy) (wall : time) : result openSession * memoryTrajectoryStore :=
  match (let? config := validateSessionConfig config e in
         try? beginTrajectoryWork runtime;
         let? snapshot := acquireSnapshot runtime in
         Ok (config, snapshot)) with
  | Err err => (Err err, st)
  | Ok (config, snapshot) =>
      createTrajectorySessionFromSnapshot runtime st ctx
        {| cr_Label := "session"; cr_Config := config; cr_Snapshot := Some snapshot; cr_Lineage := None;
           cr_PinExecutionSnapshot := false; cr_Invocation := None |} wall
  end.

(** ** Exact resume *)

Definition acquireResolvedResumeSnapshot (runtime : SessionRuntime) (current : registrySnapshot)
    (fallback : TrajectoryEnvironment) (recorded : resumeEnvironment) (config : SessionConfig) : result registrySnapshot :=
  let? resumeSnapshot := resolveResumeSnapshot (rt_version runtime) current fallback recorded config in
  acquireRegistrySnapshot runtime resumeSnapshot.

(** The configuration and the snapshot of [exactResumeProjection]. *)
Definition acquireExactResumeProjection (runtime : SessionRuntime) (fallback : TrajectoryEnvironment) (config : SessionConfig)
    (checkpoint : option Checkpoint) (recorded : resumeEnvironment) : result (SessionConfig * registrySnapshot) :=
  let config := exactResumeConfigProjection config checkpoint (env_RequestedProvider (re_environment recorded)) in
  let? current := acquireSnapshot runtime in
  let? resumed := acquireResolvedResumeSnapshot runtime current fallback recorded config in
  Ok (config, resumed).

(** ** Moving the head *)

(** [prepareTrajectoryHeadMove], with the ID and the instant of the new entry. *)
Definition runtime_prepareHeadMove (runtime : SessionRuntime) (snapshot : registrySnapshot) (fresh : string * time)
    (trajectoryID head anchorID : string) (kind : TrajectoryKind) : result (trajectoryHeadMove * post_commit_event) :=
  let? move := (newTrajectoryHeadMove (X := unit) (pure fresh) head anchorID kind (sn_generation snapshot) 0 tt).1 in
  let? event := headMove_event move trajectoryID in
  try? rt_prepareEvent runtime snapshot event;
  Ok (move, event).

Definition commitTrajectoryHeadMove (runtime : SessionRuntime) (st : memoryTrajectoryStore) (ctx : context)
    (snapshot : registrySnapshot) (fresh : string * time) (clock : nat → time) (trajectoryID head anchorID : string)
    (kind : TrajectoryKind) : result (string * memoryTrajectoryStore) :=
  let? '(move, event) := runtime_prepareHeadMove runtime snapshot fresh trajectoryID head anchorID kind in
  tstore_Append st ctx trajectoryID head [hm_Entry move] clock.

(** [trajectoryHeadNeedsMove]. *)
Definition head_needs_move (st : memoryTrajectoryStore) (ctx : context) (trajectoryID head anchorID : string) : result bool :=
  if bool_decide (head = anchorID) then Ok false else
  let? restored := HeadRestoresAnchor st ctx trajectoryID head anchorID in
  Ok (negb restored).

(** ** Resumption *)

(** What [ResumeSession] loads before it writes; [None] when the walk to the input runs out of fuel. *)
Definition resume_plan (runtime : SessionRuntime) (st : memoryTrajectoryStore) (ctx : context) (id : string)
    (config : SessionConfig)
    : option (result (TrajectoryMetadata * SessionConfig * SessionResumeBase * option registrySnapshot)) :=
  match (try? beginTrajectoryWork runtime;
         let? metadata :=
           match tstore_LoadMetadata st ctx id with
           | Err err => Err (Wrapf "load session trajectory %q: %w" [AStr id] err)
           | Ok metadata => Ok metadata
           end in
         try? match tm_Execution metadata with
              | Some execution =>
                  fail_if negb (Execution_Terminal execution) with
                    Wrapf "%w: trajectory %s has active execution %s; call RecoverExecution"
                      [AStr id; AStr (ex_ID execution)] (Sentinel ErrTrajectoryExecution);
                  Ok tt
              | None => Ok tt
              end;
         let? base := LoadSessionResumeBase st ctx metadata in
         Ok (metadata, base)) with
  | Err err => Some (Err err)
  | Ok (metadata, base) =>
      if bool_decide (cfg_ResumePolicy config = ResumeExact) then
        match checkpointResumeEnvironment (walk_fuel st) st ctx metadata (sb_CheckpointEntry base) with
        | None => None
        | Some (Err err) => Some (Err err)
        | Some (Ok recorded) =>
            Some (let? '(config, resumed) :=
                    acquireExactResumeProjection runtime (tm_Environment metadata) config (sb_Checkpoint base) recorded in
                  Ok (metadata, config, base, Some resumed))
        end
      else Some (Ok (metadata, config, base, None))
  end.

(** The head of the resumed session: a restore entry is written when the trajectory is elsewhere. *)
Definition resume_head (runtime : SessionRuntime) (st : memoryTrajectoryStore) (ctx : context) (fresh : string * time)
    (clock : nat → time) (metadata : TrajectoryMetadata) (resumeHead : string) (pinned : option registrySnapshot)
    : result (string * memoryTrajectoryStore) :=
  let? move := head_needs_move st ctx (tm_ID metadata) (tm_Head metadata) resumeHead in
  if negb move then Ok (tm_Head metadata, st) else
  let? snapshot := match pinned with Some snapshot => Ok snapshot | None => acquireSnapshot runtime end in
  match commitTrajectoryHeadMove runtime st ctx snapshot fresh clock (tm_ID metadata) (tm_Head metadata) resumeHead
          TrajectoryKindRestore with
  | Err err => Err (Wrapf "restore session trajectory %q: %w" [AStr (tm_ID metadata)] err)
  | Ok moved => Ok moved
  end.

Definition ResumeSession (runtime : SessionRuntime) (st : memoryTrajectoryStore) (ctx : context) (id : string)
    (config : SessionConfig) (e : entropy) (fresh : string * time) (clock : nat → time)
    : option (result openSession) * memoryTrajectoryStore :=
  match validateSessionConfig (with_session_id config id) e with
  | Err err => (Some (Err err), st)
  | Ok config =>
      match resume_plan runtime st ctx id config with
      | None => (None, st)
      | Some (Err err) => (Some (Err err), st)
      | Some (Ok (metadata, config, base, pinned)) =>
          match resume_head runtime st ctx fresh clock metadata (bb_Head (sb_Base base)) pinned with
          | Err err => (Some (Err err), st)
          | Ok (head, st) => (Some (Ok (projectSessionFromResumeBase metadata config base head pinned)), st)
          end
      end
  end.

(** ** Rollback *)

Definition rollbackTrajectory (runtime : SessionRuntime) (st : memoryTrajectoryStore) (ctx : context)
    (id checkpointID : string) (fresh : string * time) (clock : nat → time)
    : result (string * Checkpoint * memoryTrajectoryStore) :=
  try? beginTrajectoryWork runtime;
  let? snapshot := acquireSnapshot runtime in
  let? metadata := tstore_LoadMetadata st ctx id in
  let? target :=
    match tstore_LoadEntry st ctx id checkpointID with
    | Err err =>
        if errors_Is err ErrTrajectoryEntryNotFound
        then Err (Errorf "trajectory %q checkpoint %q not found" [AStr id; AStr checkpointID])
        else Err err
    | Ok target => Ok target
    end in
  fail_if negb (bool_decide (te_Kind target = TrajectoryKindCheckpoint)) with
    Errorf "trajectory entry %q is %q, not a checkpoint" [AStr checkpointID; AStr (trajectory_kind_text (te_Kind target))];
  let? checkpoint := DecodeCheckpoint id target in
  let? checkpoint := HydrateCheckpointMessages st ctx id target checkpoint in
  let? '(head, st) :=
    commitTrajectoryHeadMove runtime st ctx snapshot fresh clock id (tm_Head metadata) checkpointID
      TrajectoryKindRollback in
  Ok (head, checkpoint, st).

Definition RollbackTrajectory (runtime : SessionRuntime) (st : memoryTrajectoryStore) (ctx : context)
    (id checkpointID : string) (fresh : string * time) (clock : nat → time) : result memoryTrajectoryStore :=
  let? '(_, st) := rollbackTrajectory runtime st ctx id checkpointID fresh clock in
  Ok st.

(** [Session.Rollback]. *)
Definition Session_Rollback (runtime : SessionRuntime) (st : memoryTrajectoryStore) (ctx : context) (opened : openSession)
    (checkpointID : string) (fresh : string * time) (clock : nat → time) : result (openSession * memoryTrajectoryStore) :=
  let? '(head, checkpoint, st) :=
    rollbackTrajectory runtime st ctx (cfg_ID (ls_config (os_session opened))) checkpointID fresh clock in
  Ok (set_os_session opened (with_head (applyCheckpointProjection (os_session opened) (Some checkpoint)) head), st).

(** ** The snapshot of an execution *)

(** [Session.acquireSnapshot]. *)
Definition session_acquireSnapshot (runtime : SessionRuntime) (opened : openSession) : result registrySnapshot :=
  match os_pinnedSnapshot opened with
  | Some snapshot => acquireRegistrySnapshot runtime snapshot
  | None => acquireSnapshot runtime
  end.

(** The snapshot and the session that pins it. *)
Definition pinExecutionSnapshot (runtime : SessionRuntime) (opened : openSession) (environment : TrajectoryEnvironment)
    : result (registrySnapshot * openSession) :=
  match os_pinnedSnapshot opened with
  | Some snapshot =>
      let? snapshot := acquireRegistrySnapshot runtime snapshot in
      Ok (snapshot, opened)
  | None =>
      let? current := acquireSnapshot runtime in
      let? snapshot := acquireResolvedResumeSnapshot runtime current environment (newResumeEnvironment environment)
                         (ls_config (os_session opened)) in
      Ok (snapshot, {| os_session := os_session opened; os_pinnedSnapshot := Some snapshot;
                       os_originMode := os_originMode opened |})
  end.
End sessions.
