(* ===== verification/SessionsProperties.v ===== *)
(** What creating, resuming and rolling back a session does to its trajectory: a new session resumes with the
    composition it was created on, a rollback is what a later resume sees, and neither loses history. *)
From S2P Require Import Prelude GoText Names Invocation Operation Paging Message ContextInjection Trajectory Sha256 Agent Lineage.
From S2P Require Import Registrar Composition CompositionProperties CompositionInvariant EventDispatch TrajectoryBranch TrajectoryStore TrajectoryInvariant TrajectoryHistory TrajectoryProperties Payload Durability.
From S2P Require Import DurabilityProperties SessionState PromptHost SessionTrajectory ExecutionCompletion PromptLaws PromptInvariant Recovery BitCodec ResumeEnvironment ResumeExactness ResumeTheorems.
From S2P Require Import Sessions.

(** A runtime that serves: it is open and its mounts can be leased. *)
Definition serving (runtime : SessionRuntime) : Prop :=
  rt_closed runtime = false ∧ rt_draining runtime = false ∧ ∀ mounts, rt_acquireMounts runtime mounts = Ok tt.

Lemma serving_work runtime : serving runtime → beginTrajectoryWork runtime = Ok tt.
Proof. intros (Hc & Hd & _). unfold beginTrajectoryWork. by rewrite Hc, Hd. Qed.

Lemma serving_acquire runtime snapshot : serving runtime → acquireRegistrySnapshot runtime snapshot = Ok snapshot.
Proof. intros (Hc & _ & Hm). unfold acquireRegistrySnapshot. by rewrite Hc, Hm. Qed.

(** ** Created trajectories *)

Lemma create_new_Ok st ctx id environment wall st' :
  tstore_Create st ctx (new_trajectory id environment) wall = Ok st' →
  ctx = None ∧ trajectories st !! id = None ∧
  ∃ m, tstore_LoadMetadata st' None id = Ok m ∧ tm_ID m = id ∧ tm_ParentID m = "" ∧ tm_Head m = "" ∧ tm_Checkpoint m = "" ∧
    tm_Execution m = None ∧ tm_Environment m = environment.
Proof.
  unfold tstore_Create. intros ([] & ->%ctx_Err_Ok & H)%bind_Ok. apply bind_Ok in H as (prepared & Hp & H).
  unfold PrepareNewTrajectory in Hp. apply bind_Ok in Hp as ([] & Hv & [= <-]). cbn in H.
  case_bool_decide as Hex; [done|]. injection H as <-. split; [done|]. split; [by apply eq_None_not_Some|].
  unfold ValidateNewTrajectory in Hv. cbn in Hv. apply bind_Ok in Hv as ([] & Hn%ValidateResourceName_Ok & _).
  unfold tstore_LoadMetadata. cbn [ctx_Err result_bind]. erewrite (proj2 (trajectoryLocked_Ok _ id _)).
  2: { split; [exact Hn|]. rewrite put_lookup. by rewrite decide_True. }
  eexists. split; [reflexivity|]. done.
Qed.

Section sessions.
Context `{!PayloadCodec} `{!EnvironmentCodec}.

(** A trajectory without a checkpoint, an execution or a parent resumes at its root. *)
Lemma resume_base_root st m :
  tm_Checkpoint m = "" → tm_Execution m = None → tm_ParentID m = "" →
  LoadSessionResumeBase st None m =
  Ok {| sb_Base := {| bb_Head := ""; bb_Messages := checkpoint_messages None |}; sb_CheckpointEntry := None; sb_Checkpoint := None |}.
Proof.
  intros Hc He Hp. unfold LoadSessionResumeBase, LatestCheckpoint. rewrite Hc. cbn.
  unfold sessionResumeBranchHead, terminalExecutionResumeHead. by rewrite He, Hp.
Qed.

(** What a new session is and leaves in the store. *)
Lemma NewSession_Ok `{!MapOrder} runtime st ctx config e wall opened st' :
  NewSession runtime st ctx config e wall = (Ok opened, st') →
  ∃ config' environment executionSnapshot m,
    validateSessionConfig config e = Ok config' ∧ ctx = None ∧ trajectories st !! cfg_ID config' = None ∧
    newExecutionEnvironment (rt_version runtime) (rt_current runtime) config' = Ok (executionSnapshot, environment) ∧
    tstore_Create st None (new_trajectory (cfg_ID config') environment) wall = Ok st' ∧
    tstore_LoadMetadata st' None (cfg_ID config') = Ok m ∧ tm_ID m = cfg_ID config' ∧ tm_ParentID m = "" ∧ tm_Head m = "" ∧
    tm_Checkpoint m = "" ∧ tm_Execution m = None ∧ tm_Environment m = environment ∧
    opened = project_session m config' "" [] None.
Proof.
  unfold NewSession. destruct (validateSessionConfig config e) as [config'|] eqn:Hc; [|done]. cbn [result_bind].
  destruct (beginTrajectoryWork runtime); [|done]. cbn [result_bind].
  destruct (acquireSnapshot runtime) as [snapshot|] eqn:Ha; [|done]. cbn [result_bind].
  assert (snapshot = rt_current runtime) as ->.
  { unfold acquireSnapshot, acquireRegistrySnapshot in Ha. destruct (rt_closed runtime); [done|].
    by apply bind_Ok in Ha as ([] & _ & [= <-]). }
  unfold createTrajectorySessionFromSnapshot. cbn [cr_Snapshot cr_Config cr_Lineage cr_Label cr_PinExecutionSnapshot cr_Invocation].
  destruct (newExecutionEnvironment _ _ _) as [[snapshot environment]|] eqn:Hn; [|done].
  destruct (tstore_Create _ _ _ _) as [st1|] eqn:Hcr; [|done].
  destruct (create_new_Ok _ _ _ _ _ _ Hcr) as (-> & Hfresh & m & Hm & Hid & Hp & Hh & Hk & Hx & Henv).
  rewrite Hm. unfold projectResumeBaseSession. rewrite (resume_base_root _ _ Hk Hx Hp). cbn [result_bind].
  intros [= <- <-]. exists config', environment, snapshot, m. split_and!; done.
Qed.

Lemma validateSessionConfig_Ok config e config' :
  validateSessionConfig config e = Ok config' → valid_name (cfg_ID config') ∧ cfg_Provider config' = cfg_Provider config.
Proof.
  unfold validateSessionConfig. intros ([] & Hn%ValidateResourceName_Ok & Hr)%bind_Ok. destruct (_ <? _); [done|].
  destruct (_ && _); [done|]. by injection Hr as <-.
Qed.

(** A configuration that names its resume policy is taken as it is. *)
Lemma validateSessionConfig_resume config e id :
  valid_name id → 0 ≤ cfg_MaxTurns config → cfg_ResumePolicy config = ResumeExact ∨ cfg_ResumePolicy config = ResumeCurrent →
  validateSessionConfig (with_session_id config id) e = Ok (with_session_id config id).
Proof.
  intros Hn Ht Hp. unfold validateSessionConfig. cbn [cfg_ID with_session_id cfg_MaxTurns cfg_ResumePolicy].
  rewrite (proj2 (is_empty_false id)) by (by apply valid_name_nonempty).
  rewrite (proj2 (ValidateResourceName_Ok "session" id tt)) by done. cbn [result_bind].
  rewrite (proj2 (Z.ltb_ge _ _)) by lia. unfold with_session_id. by destruct Hp as [-> | ->].
Qed.

Lemma newTrajectoryEnvironment_provider `{!MapOrder} version X config env :
  newTrajectoryEnvironment version X config = Ok env → env_RequestedProvider env = cfg_Provider config.
Proof. rewrite newTrajectoryEnvironment_eq. destruct (Marshal_composition _); [|done]. by intros [= <-]. Qed.

(** C10. A new session can be resumed under the policy [ResumeExact]: on any later runtime that serves a composition
    which offers the resources of the one the session was created on, and which adds no subscriber that observes
    recorded and live events at once ([mixed_subscriber_blocks_resume] shows why), resuming it gives back its empty
    conversation at its root, with the provider it requested, pinned to a snapshot that records the composition and
    the digest of the trajectory; the store does not change. *)
Theorem new_session_resumes {o1 o2 : MapOrder} next next' runtime runtime' st ctx config e wall opened st' config' e' fresh clock :
  snapshot_wf next (rt_current runtime) → snapshot_wf next' (rt_current runtime') →
  resources_offered (rt_current runtime) (rt_current runtime') → serving runtime' →
  @NewSession _ _ o1 runtime st ctx config e wall = (Ok opened, st') →
  0 ≤ cfg_MaxTurns config' → cfg_ResumePolicy config' = ResumeExact →
  let id := cfg_ID (ls_config (os_session opened)) in
  ∃ m opened' R environment,
    tstore_LoadMetadata st' None id = Ok m ∧
    @ResumeSession _ _ o2 runtime' st' None id config' e' fresh clock = (Some (Ok opened'), st') ∧
    ls_messages (os_session opened') = [] ∧ ls_head (os_session opened') = "" ∧
    cfg_ID (ls_config (os_session opened')) = id ∧
    cfg_Provider (ls_config (os_session opened')) = string_default (cfg_Provider config) (cfg_Provider config') ∧
    os_pinnedSnapshot opened' = Some R ∧
    @newTrajectoryEnvironment _ o2 (rt_version runtime') R (ls_config (os_session opened')) = Ok environment ∧
    composition_of environment = composition_of (tm_Environment m) ∧
    env_CompositionDigest environment = env_CompositionDigest (tm_Environment m).
Proof.
  intros Hwf Hwf' Hoff Hserve Hnew Hturns Hpolicy id.
  destruct (NewSession_Ok _ _ _ _ _ _ _ _ Hnew) as
    (c0 & env & E & m & Hc0 & -> & _ & Henv & _ & Hm & Hid & Hp & Hh & Hk & Hx & Hme & ->).
  assert (id = cfg_ID c0) as Hid0 by done. clearbody id. subst id.
  destruct (validateSessionConfig_Ok _ _ _ Hc0) as [Hname Hprov].
  unfold newExecutionEnvironment in Henv. apply bind_Ok in Henv as (env0 & Henv & [= <- ->]).
  destruct (newTrajectoryEnvironment_Ok _ _ _ _ Henv) as (Hcomp & raw & Hraw & Hdig).
  set (c1 := exactResumeConfigProjection (with_session_id config' (cfg_ID c0)) None (env_RequestedProvider env)).
  destruct (@recorded_resolves _ o1 o2 next next' (rt_current runtime) (rt_current runtime') (rt_version runtime)
    (rt_version runtime') c0 c1 env env raw Hwf Hwf' Hoff Hcomp Hraw Hdig) as (R & env' & HR & _ & _ & _ & Hnew' & Hc' & Hd').
  exists m, (project_session m c1 "" [] (Some R)), R, env'.
  assert (cfg_Provider c1 = string_default (cfg_Provider config) (cfg_Provider config')) as Hc1.
  { unfold c1, exactResumeConfigProjection. rewrite (newTrajectoryEnvironment_provider _ _ _ _ Henv), Hprov.
    unfold string_default, is_empty. by destruct (String.eqb (cfg_Provider config) ""). }
  assert (cfg_ID c1 = cfg_ID c0) as Hid1 by (unfold c1, exactResumeConfigProjection; cbn; by case_match).
  split_and!; [done| |done|done|exact Hid1|exact Hc1|done|exact Hnew'|by rewrite Hme|by rewrite Hme].
  unfold ResumeSession. rewrite validateSessionConfig_resume by auto.
  assert (resume_plan runtime' st' None (cfg_ID c0) (with_session_id config' (cfg_ID c0)) =
    Some (Ok (m, c1, {| sb_Base := {| bb_Head := ""; bb_Messages := checkpoint_messages None |};
                        sb_CheckpointEntry := None; sb_Checkpoint := None |}, Some R))) as ->.
  { unfold resume_plan. rewrite (serving_work _ Hserve), Hm. cbn [result_bind]. rewrite Hx. cbn [result_bind].
    rewrite (resume_base_root _ _ Hk Hx Hp). cbn [result_bind].
    rewrite bool_decide_eq_true_2 by done. cbn [checkpointResumeEnvironment sb_CheckpointEntry sb_Checkpoint].
    unfold acquireExactResumeProjection, acquireResolvedResumeSnapshot, acquireSnapshot. rewrite Hme.
    cbn [re_environment newResumeEnvironment]. fold c1. rewrite (serving_acquire _ _ Hserve). cbn [result_bind].
    rewrite HR. cbn [result_bind]. by rewrite (serving_acquire _ _ Hserve). }
  unfold resume_head, head_needs_move. rewrite Hh. by rewrite bool_decide_eq_true_2.
Qed.
End sessions.

(** ** Appending one entry *)

(** What the append of one entry to a readable branch leaves: the new head, its branch, and the checkpoint and
    the rest of the metadata. *)
Lemma append_one st ctx id expectedHead entry clock head st' b m :
  tstore_wf st → tstore_Append st ctx id expectedHead [entry] clock = Ok (head, st') →
  readable st id (te_ParentID entry) b → tstore_LoadMetadata st None id = Ok m →
  ctx = None ∧ head = te_ID entry ∧ runs id st st' ∧
  ∃ p m', prepared_from entry p ∧ readable st' id head (b ++ [p]) ∧ tstore_LoadMetadata st' None id = Ok m' ∧
    tm_ID m' = tm_ID m ∧ tm_ParentID m' = tm_ParentID m ∧ tm_Execution m' = tm_Execution m ∧ tm_Head m' = head ∧
    tm_Checkpoint m' = latest_checkpoint (p :: reverse b).
Proof.
  intros Hwf Happ Hb Hm. pose proof Happ as Happ0.
  apply tstore_Append_Ok in Happ as (-> & t & t1 & Ht & _ & Happ & ->). split; [done|].
  apply LoadMetadata_Ok in Hm as (t0 & Ht0 & ->). assert (t0 = t) as -> by congruence.
  assert (runs id st (put st id t1)) as Hruns.
  { exists [(None, CallAppend id expectedHead [entry] clock)]. split_and!; [by repeat constructor|by repeat constructor|].
    unfold tstore_run, tstore_exec. cbn [foldl fst snd tstore_do]. by rewrite Happ0. }
  pose proof (runs_readable _ _ _ _ _ Hruns Hb) as Hb1.
  pose proof Hwf as (l & Hbase & Hall).
  destruct (appendLocked_Ok _ _ _ _ _ _ _ _ _ Hbase Hall Ht Happ) as (ps & p & k & _ & Hlast & -> & Hok & Hfrom & Hnd & _ & Hk & Ht1).
  apply Forall2_cons_inv_l in Hfrom as (p' & ps' & Hp & ->%Forall2_nil_inv_l & ->).
  injection Hlast as ->. split; [by apply Hp|]. split; [done|].
  pose proof Hb1 as (Hwf1 & _ & _). destruct Hwf1 as (l1 & Hbase1 & Hall1).
  assert (trajectories (put st id t1) !! id = Some t1) as Hput by (rewrite put_lookup; by rewrite decide_True).
  destruct (tw_head _ _ _ (Hall1 _ _ Hput)) as (k1 & Hk1 & Hck).
  assert (tj_Head (mt_trajectory t1) = te_ID p) as Hhd by (by rewrite Ht1). rewrite Hhd in Hk1.
  assert (chain (entryLocked (put st id t1) id) (te_ID p) (p :: reverse b)) as Hchain.
  { destruct Hp as (_ & Hpar & _). constructor; [| |rewrite Hpar; apply Hb1].
    - apply valid_name_nonempty, (prepared_id _ _ _ Hok (te_ID p) p). by rewrite entry_index_elem by set_solver.
    - rewrite (entryLocked_eq _ _ Hbase1 _ _ _ Hput), Ht1. cbn [mt_entries foldl]. by rewrite lookup_insert_eq. }
  rewrite (chain_det _ _ _ _ Hk1 Hchain) in Hck.
  exists p, (mt_metadata t1). split_and!; [done| | | | | | |].
  - destruct Hb1 as (? & ? & _). split_and!; [done|done|]. by rewrite reverse_snoc.
  - unfold tstore_LoadMetadata. cbn [ctx_Err result_bind]. erewrite (proj2 (trajectoryLocked_Ok _ id t1)); [done|].
    split; [|done]. eapply bw_name; [exact Hbase|]. apply Hbase. eauto.
  - by rewrite Ht1.
  - by rewrite Ht1.
  - by rewrite Ht1.
  - by rewrite Ht1.
  - exact Hck.
Qed.

(** ** Rollback *)

Lemma LoadEntry_Ok st ctx id c e : tstore_LoadEntry st ctx id c = Ok e → ctx = None ∧ valid_name c ∧ entryLocked st id c = Ok (Some e).
Proof.
  unfold tstore_LoadEntry. intros ([] & ->%ctx_Err_Ok & Hr)%bind_Ok. apply bind_Ok in Hr as ([] & Hn%ValidateResourceName_Ok & Hr).
  apply bind_Ok in Hr as (found & Hf & Hr). destruct found as [e'|]; [|done]. by injection Hr as ->.
Qed.

(** A loaded entry ends a readable branch. *)
Lemma LoadEntry_readable st id c e m :
  tstore_wf st → tstore_LoadMetadata st None id = Ok m → tstore_LoadEntry st None id c = Ok e →
  te_ID e = c ∧ ∃ b, readable st id c (b ++ [e]).
Proof.
  intros Hwf (t & Ht & _)%LoadMetadata_Ok (_ & Hn & He)%LoadEntry_Ok. pose proof Hwf as (l & Hb & Hall).
  split; [by apply (entryLocked_ids _ _ Hb id)|].
  destruct (entryLocked_closed _ _ Hb Hall _ _ Ht _ _ (valid_name_nonempty _ Hn) He) as [k Hk].
  exists (reverse k). split_and!; [done|by eexists|]. by rewrite reverse_snoc, reverse_involutive.
Qed.

(** It can be loaded as long as the branch is readable. *)
Lemma readable_valid st id c b e : readable st id c (b ++ [e]) → valid_name c ∧ entryLocked st id c = Ok (Some e).
Proof.
  intros (Hwf & _ & Hch). rewrite reverse_snoc in Hch. inversion Hch as [|? ? ? _ He _]; subst. split; [|done].
  destruct Hwf as (l & _ & Hall). by eapply entryLocked_valid.
Qed.

Lemma readable_LoadEntry st id c b e : readable st id c (b ++ [e]) → tstore_LoadEntry st None id c = Ok e.
Proof.
  intros [Hn He]%readable_valid. unfold tstore_LoadEntry. cbn [ctx_Err result_bind].
  rewrite (proj2 (ValidateResourceName_Ok _ _ tt) Hn). by rewrite He.
Qed.

Section rollback.
Context `{!PayloadCodec} `{!EnvironmentCodec} `{!MapOrder}.

Lemma hydrate_readable st st' id b entry c :
  readable st id (te_ID entry) b → readable st' id (te_ID entry) b →
  HydrateCheckpointMessages st' None id entry c = HydrateCheckpointMessages st None id entry c.
Proof.
  intros Hb Hb'. unfold HydrateCheckpointMessages, LoadBranchMessages.
  by rewrite (readable_LoadBranch _ _ _ _ Hb), (readable_LoadBranch _ _ _ _ Hb').
Qed.

(** The steps of a rollback. *)
Lemma rollback_Ok runtime st ctx id checkpointID fresh clock head checkpoint st' :
  rollbackTrajectory runtime st ctx id checkpointID fresh clock = Ok (head, checkpoint, st') →
  ∃ m target c entry, ctx = None ∧ tstore_LoadMetadata st None id = Ok m ∧ tstore_LoadEntry st None id checkpointID = Ok target ∧
    te_Kind target = TrajectoryKindCheckpoint ∧ DecodeCheckpoint id target = Ok c ∧
    HydrateCheckpointMessages st None id target c = Ok checkpoint ∧
    te_ParentID entry = checkpointID ∧ te_Kind entry = TrajectoryKindRollback ∧
    tstore_Append st None id (tm_Head m) [entry] clock = Ok (head, st').
Proof.
  unfold rollbackTrajectory. intros ([] & _ & Hr)%bind_Ok. apply bind_Ok in Hr as (snapshot & _ & Hr).
  apply bind_Ok in Hr as (m & Hm & Hr). apply bind_Ok in Hr as (target & Ht & Hr).
  destruct (tstore_LoadEntry st ctx id checkpointID) as [target'|err] eqn:Hl; [|by destruct (errors_Is err _)].
  injection Ht as ->. apply LoadEntry_Ok in Hl as Hc. destruct Hc as (-> & _ & _).
  case_bool_decide as Hk; [|done]. cbn [negb] in Hr.
  apply bind_Ok in Hr as (c & Hd & Hr). apply bind_Ok in Hr as (c' & Hh & Hr).
  apply bind_Ok in Hr as ([head' st1] & Hmove & [= -> -> ->]).
  unfold commitTrajectoryHeadMove in Hmove. apply bind_Ok in Hmove as ([move event] & Hprep & Happ).
  unfold runtime_prepareHeadMove, newTrajectoryHeadMove, newPayloadTrajectoryEntry, prog_bind, pure in Hprep. cbn in Hprep.
  destruct (Marshal_payload _) as [raw|]; [|done]. cbn in Hprep.
  apply bind_Ok in Hprep as ([] & _ & [= <- <-]).
  exists m, target, c, (payload_entry fresh checkpointID TrajectoryKindRollback (sn_generation snapshot) 0 raw).
  split_and!; done.
Qed.

(** What a rollback leaves: the checkpoint is the latest one, and the new head restores it. *)
Lemma rollback_latest runtime st id checkpointID fresh clock head checkpoint st' m :
  tstore_wf st → rollbackTrajectory runtime st None id checkpointID fresh clock = Ok (head, checkpoint, st') →
  tstore_LoadMetadata st None id = Ok m →
  ∃ m' target, tstore_LoadEntry st None id checkpointID = Ok target ∧ te_ID target = checkpointID ∧ checkpointID ≠ "" ∧
    runs id st st' ∧ tstore_LoadMetadata st' None id = Ok m' ∧ tm_ID m' = id ∧ tm_ParentID m' = tm_ParentID m ∧
    tm_Head m' = head ∧ tm_Execution m' = tm_Execution m ∧
    HeadRestoresAnchor st' None id head checkpointID = Ok true ∧ LatestCheckpoint st' None m' = Ok (Some (target, checkpoint)).
Proof.
  intros Hwf Hroll Hm.
  apply rollback_Ok in Hroll as (m0 & target & c & entry & _ & Hm0 & Ht & Hkind & Hdec & Hhyd & Hpar & Hek & Happ).
  assert (m0 = m) as -> by congruence. clear Hm0.
  pose proof Ht as (_ & Hn & _)%LoadEntry_Ok. destruct (LoadEntry_readable _ _ _ _ _ Hwf Hm Ht) as [Hid [b Hb]].
  rewrite <-Hpar in Hb. destruct (append_one _ _ _ _ _ _ _ _ _ _ Hwf Happ Hb Hm) as
    (_ & Hhead & Hruns & p & m' & Hp & Hb1 & Hm1 & Hid1 & Hpa1 & Hx1 & Hh1 & Hck).
  pose proof (runs_readable _ _ _ _ _ Hruns Hb) as Hb2. rewrite Hpar in Hb, Hb2.
  assert (tm_ID m = id) as Htm.
  { apply LoadMetadata_Ok in Hm as (t & Htt & ->). destruct Hwf as (l & _ & Hall). apply (tw_id _ _ _ (Hall _ _ Htt)). }
  destruct Hp as (Hpid & Hpp & Hpk & _).
  assert (tm_Checkpoint m' = checkpointID) as Hck1.
  { rewrite Hck, reverse_snoc. unfold latest_checkpoint. cbn [List.find]. rewrite Hpk, Hek.
    rewrite bool_decide_eq_false_2 by done. by rewrite bool_decide_eq_true_2. }
  exists m', target. split_and!; [done|done|by apply valid_name_nonempty|done|done|congruence|done|done|done| |].
  - unfold HeadRestoresAnchor. rewrite (proj2 (is_empty_false _)) by (by eapply valid_name_nonempty, readable_valid).
    case_bool_decide; [done|]. rewrite (readable_LoadEntry _ _ _ _ _ Hb1). cbn [result_bind]. rewrite Hpk, Hek, Hpp, Hpar.
    by rewrite (bool_decide_eq_true_2 (checkpointID = checkpointID)).
  - unfold LatestCheckpoint. rewrite Hck1, (proj2 (is_empty_false _)) by (by apply valid_name_nonempty).
    rewrite Hid1, Htm, (readable_LoadEntry _ _ _ _ _ Hb2). cbn [result_bind]. rewrite bool_decide_eq_true_2 by done.
    cbn [negb]. rewrite Hdec. cbn [result_bind]. rewrite <-Hid in Hb, Hb2. by rewrite (hydrate_readable _ _ _ _ _ _ Hb Hb2), Hhyd.
Qed.

(** The base that a resume loads after a rollback. *)
Lemma rollback_resume_base runtime st id checkpointID fresh clock head checkpoint st' m target :
  tstore_wf st → rollbackTrajectory runtime st None id checkpointID fresh clock = Ok (head, checkpoint, st') →
  tstore_LoadMetadata st None id = Ok m → tstore_LoadEntry st None id checkpointID = Ok target →
  terminalExecutionResumeHead m = None → tm_ParentID m = "" ∨ te_TrajectoryID target = id →
  ∃ m', tstore_LoadMetadata st' None id = Ok m' ∧ tm_ID m' = id ∧ tm_Head m' = head ∧ tm_Execution m' = tm_Execution m ∧
    HeadRestoresAnchor st' None id head checkpointID = Ok true ∧
    LoadSessionResumeBase st' None m' =
    Ok {| sb_Base := {| bb_Head := checkpointID; bb_Messages := checkpoint_messages (Some checkpoint) |};
          sb_CheckpointEntry := Some target; sb_Checkpoint := Some checkpoint |}.
Proof.
  intros Hwf Hroll Hm Ht Hterm Hown.
  destruct (rollback_latest _ _ _ _ _ _ _ _ _ _ Hwf Hroll Hm) as
    (m' & target' & Ht' & Hid & Hne & _ & Hm1 & Hid1 & Hpa1 & Hh1 & Hx1 & Hrest & Hlatest).
  assert (target' = target) as -> by congruence. exists m'. split_and!; [done..|].
  assert (sessionResumeBranchHead m' (Some target) = (checkpointID, true)) as Hbranch.
  { unfold sessionResumeBranchHead. assert (terminalExecutionResumeHead m' = None) as ->
      by (unfold terminalExecutionResumeHead; by rewrite Hx1).
    cbn [entry_id trajectoryOwnsEntry]. rewrite Hpa1, Hid1, Hid, (proj2 (is_empty_false checkpointID)) by done.
    destruct Hown as [->| ->]; [done|]. rewrite bool_decide_eq_true_2 by done. by rewrite andb_false_r. }
  unfold LoadSessionResumeBase. rewrite Hlatest. cbn [result_bind fst snd fmap option_fmap option_map]. rewrite Hbranch.
  cbn [entry_id negb orb]. rewrite Hid, bool_decide_eq_true_2 by done. done.
Qed.

(** What a session resumed from a loaded base has. *)
Lemma resume_from_base runtime st id config e fresh clock opened st' m base :
  tstore_LoadMetadata st None id = Ok m → LoadSessionResumeBase st None m = Ok base →
  ResumeSession runtime st None id config e fresh clock = (Some (Ok opened), st') →
  ls_messages (os_session opened) = CloneMessages (bb_Messages (sb_Base base)) ∧
  ∀ checkpoint, sb_Checkpoint base = Some checkpoint → cfg_System (ls_config (os_session opened)) = cp_System checkpoint.
Proof.
  intros Hm Hbase. unfold ResumeSession. destruct (validateSessionConfig _ _) as [config0|]; [|done].
  destruct (resume_plan runtime st None id config0) as [[[[[m1 config1] base1] pinned]|]|] eqn:Hplan; try done.
  destruct (resume_head _ _ _ _ _ _ _ _) as [[head st1]|]; [|done]. intros [= <- _].
  assert (base1 = base) as ->.
  { unfold resume_plan in Hplan. rewrite Hm in Hplan. destruct (beginTrajectoryWork runtime); [|done]. cbn [result_bind] in Hplan.
    destruct (match tm_Execution m with Some _ => _ | None => _ end); [|done]. cbn [result_bind] in Hplan.
    rewrite Hbase in Hplan. cbn [result_bind] in Hplan. case_bool_decide; [|by injection Hplan].
    destruct (checkpointResumeEnvironment _ _ _ _ _) as [[recorded|]|]; try done. injection Hplan as Hplan.
    by apply bind_Ok in Hplan as ([config2 resumed] & _ & [= _ _ -> _]). }
  unfold projectSessionFromResumeBase. destruct (sb_Checkpoint base) as [c|]; (split; [done|]); [|done].
  intros c' [= <-]. cbn. unfold checkpoint_config. by destruct (is_empty (cp_Provider c)).
Qed.

(** C37. A rollback after a failed or cancelled turn is undone by the next resume.  The execution record keeps the base
    of that turn; whatever other checkpoint the trajectory is rolled back to afterwards, the base that the next
    resume loads is still the base of that turn, not the checkpoint, and every session that a resume opens on any
    runtime, under any policy, has the messages of the branch at that base, although the system prompt it runs with
    is the one of the checkpoint. *)
Theorem resume_undoes_rollback_after_failure calls runtime id checkpointID fresh clock head checkpoint st' m base messages :
  calls_ok calls → let st := tstore_run newMemoryTrajectoryStore calls in
  rollbackTrajectory runtime st None id checkpointID fresh clock = Ok (head, checkpoint, st') →
  tstore_LoadMetadata st None id = Ok m → terminalExecutionResumeHead m = Some base → base ≠ checkpointID →
  LoadBranchMessages st None id base = Ok messages →
  ∃ m' target, tstore_LoadMetadata st' None id = Ok m' ∧ tm_Head m' = head ∧
    LoadSessionResumeBase st' None m' =
    Ok {| sb_Base := {| bb_Head := base; bb_Messages := messages |}; sb_CheckpointEntry := Some target; sb_Checkpoint := Some checkpoint |} ∧
    ∀ runtime' config e fresh' clock' opened st'',
      ResumeSession runtime' st' None id config e fresh' clock' = (Some (Ok opened), st'') →
      ls_messages (os_session opened) = CloneMessages messages ∧ cfg_System (ls_config (os_session opened)) = cp_System checkpoint.
Proof.
  intros Hcalls st Hroll Hm Hterm Hne Hmsgs. assert (tstore_wf st) as Hwf by (by apply tstore_run_wf; [apply wf_empty|]).
  destruct (rollback_latest _ _ _ _ _ _ _ _ _ _ Hwf Hroll Hm) as
    (m' & target & _ & Hid & _ & Hruns & Hm1 & Hid1 & _ & Hh1 & Hx1 & _ & Hlatest).
  assert (LoadBranchMessages st' None id base = Ok messages) as Hmsgs'.
  { unfold LoadBranchMessages in *. destruct (is_empty base); [done|]. apply bind_Ok in Hmsgs as (b & Hb & Hmsgs).
    apply LoadBranch_readable in Hb; [|done]. by rewrite (readable_LoadBranch _ _ _ _ (runs_readable _ _ _ _ _ Hruns Hb)). }
  assert (LoadSessionResumeBase st' None m' =
    Ok {| sb_Base := {| bb_Head := base; bb_Messages := messages |}; sb_CheckpointEntry := Some target; sb_Checkpoint := Some checkpoint |}) as Hbase.
  { unfold LoadSessionResumeBase. rewrite Hlatest. cbn [result_bind fst snd fmap option_fmap option_map].
    unfold sessionResumeBranchHead. assert (terminalExecutionResumeHead m' = Some base) as ->
      by (unfold terminalExecutionResumeHead; by rewrite Hx1). cbn [entry_id negb orb].
    rewrite Hid, bool_decide_eq_false_2 by done. cbn [negb orb]. unfold LoadBranchBase. by rewrite Hid1, Hmsgs'. }
  exists m', target. split_and!; [done..|]. intros runtime' config e fresh' clock' opened st'' Hres.
  destruct (resume_from_base _ _ _ _ _ _ _ _ _ _ _ Hm1 Hbase Hres) as [Hmessages Hsystem]. split; [done|by apply Hsystem].
Qed.

(** C9. A rollback is what a later resume under the policy [ResumeCurrent] sees: after the rollback of a trajectory to one
    of its checkpoints, a session resumed with that policy on any serving runtime has the messages, the system
    prompt and the provider of the checkpoint, not those of the caller, and continues from the rollback entry; the
    resume writes nothing.  The trajectory must not be left by a failed or cancelled execution, and a fork must own
    the checkpoint. *)
Theorem rollback_then_resume calls runtime id checkpointID fresh clock head checkpoint st' m target
    runtime' config e fresh' clock' :
  calls_ok calls → let st := tstore_run newMemoryTrajectoryStore calls in
  rollbackTrajectory runtime st None id checkpointID fresh clock = Ok (head, checkpoint, st') →
  tstore_LoadMetadata st None id = Ok m → tstore_LoadEntry st None id checkpointID = Ok target →
  terminalExecutionResumeHead m = None → tm_ParentID m = "" ∨ te_TrajectoryID target = id →
  serving runtime' → 0 ≤ cfg_MaxTurns config → cfg_ResumePolicy config = ResumeCurrent →
  ∃ opened, ResumeSession runtime' st' None id config e fresh' clock' = (Some (Ok opened), st') ∧
    ls_messages (os_session opened) = CloneMessages (cp_Messages checkpoint) ∧ ls_head (os_session opened) = head ∧
    cfg_System (ls_config (os_session opened)) = cp_System checkpoint ∧
    cfg_Provider (ls_config (os_session opened)) = string_default (cp_Provider checkpoint) (cfg_Provider config).
Proof.
  intros Hcalls st Hroll Hm Ht Hterm Hown Hserve Hturns Hpolicy.
  assert (tstore_wf st) as Hwf by (by apply tstore_run_wf; [apply wf_empty|]).
  destruct (rollback_resume_base _ _ _ _ _ _ _ _ _ _ _ Hwf Hroll Hm Ht Hterm Hown) as (m' & Hm' & Hid & Hh & Hx & Hrest & Hbase).
  apply rollback_Ok in Hroll as (m0 & _ & _ & entry & _ & Hm0 & _ & _ & _ & _ & _ & _ & Happ).
  assert (match tm_Execution m with Some x => Execution_Terminal x = true | None => True end) as Hidle.
  { apply tstore_Append_Ok in Happ as (_ & t & t1 & Htt & Ha & _ & _). apply LoadMetadata_Ok in Hm as (t2 & Ht2 & ->).
    assert (t2 = t) as -> by congruence. unfold active_execution in Ha. cbn. destruct (tj_Execution (mt_trajectory t)) as [x|]; [|done].
    by destruct (Execution_Terminal x). }
  assert (valid_name id) as Hn.
  { unfold tstore_LoadMetadata in Hm. cbn in Hm. by apply bind_Ok in Hm as (t & [? _]%trajectoryLocked_Ok & _). }
  set (base := {| sb_Base := {| bb_Head := checkpointID; bb_Messages := checkpoint_messages (Some checkpoint) |};
                  sb_CheckpointEntry := Some target; sb_Checkpoint := Some checkpoint |}) in *.
  assert (resume_plan runtime' st' None id (with_session_id config id) = Some (Ok (m', with_session_id config id, base, None))) as Hplan.
  { unfold resume_plan. rewrite (serving_work _ Hserve), Hm'. cbn [result_bind]. rewrite Hx.
    assert ((match tm_Execution m with
             | Some execution => fail_if negb (Execution_Terminal execution) with
                 Wrapf "%w: trajectory %s has active execution %s; call RecoverExecution" [AStr id; AStr (ex_ID execution)]
                   (Sentinel ErrTrajectoryExecution); Ok tt
             | None => Ok tt end) = Ok tt) as -> by (destruct (tm_Execution m); [by rewrite Hidle|done]).
    cbn [result_bind]. rewrite Hbase. cbn [result_bind]. cbn [with_session_id cfg_ResumePolicy]. by rewrite Hpolicy. }
  exists (projectSessionFromResumeBase m' (with_session_id config id) base head None).
  split_and!; [| |done|cbn; unfold checkpoint_config; by destruct (is_empty (cp_Provider checkpoint))|].
  - unfold ResumeSession. rewrite validateSessionConfig_resume by auto. rewrite Hplan.
    unfold resume_head, head_needs_move. cbn [base sb_Base bb_Head]. rewrite Hid, Hh, Hrest.
    by case_bool_decide.
  - apply (CloneMessages_idem (cp_Messages checkpoint)).
  - cbn. unfold checkpoint_config, string_default, is_empty. by destruct (String.eqb (cp_Provider checkpoint) "").
Qed.
End rollback.

(** ** Sessions on a concrete store: one that is created and resumed by another process, a rollback that a resume
    keeps, and one that it undoes. *)

#[local] Existing Instance bit_codec.
#[local] Existing Instance ex_environment_codec.

Definition ex_runtime (current : registrySnapshot) : SessionRuntime :=
  {| rt_version := "v1"; rt_closed := false; rt_draining := false; rt_current := current;
     rt_acquireMounts := λ _, Ok tt; rt_prepareEvent := λ _ _, Ok tt |}.

Lemma ex_runtime_serving current : serving (ex_runtime current).
Proof. done. Qed.

(** ** A new session *)

Definition ex_new : result openSession * memoryTrajectoryStore :=
  @NewSession _ _ forward_order (ex_runtime ex_first.1) newMemoryTrajectoryStore None ex_resume_config (ex_entropy 7) 5.

Definition ex_blank : openSession :=
  {| os_session := {| ls_config := ex_resume_config; ls_executionID := ""; ls_executionToken := ""; ls_messages := [];
                      ls_head := ""; ls_consumedContext := ∅; ls_contextInjections := []; ls_causal := ("", "") |};
     os_pinnedSnapshot := None; os_originMode := "" |}.

Definition ex_opened : openSession := get ex_blank ex_new.1.

Lemma ex_new_ok :
  @NewSession _ _ forward_order (ex_runtime ex_first.1) newMemoryTrajectoryStore None ex_resume_config (ex_entropy 7) 5 =
  (Ok ex_opened, ex_new.2).
Proof.
  unfold ex_opened. fold ex_new. assert (result_ok ex_new.1 = true) as Hok by (by vm_compute).
  destruct ex_new as [[opened|] st]; [done|done].
Qed.

Definition ex_exact : SessionConfig :=
  {| cfg_ID := ""; cfg_Provider := "other"; cfg_System := "be brief"; cfg_MaxTurns := 5; cfg_ReasoningEffort := "";
     cfg_ResumePolicy := ResumeExact |}.

(** Another process, with a plugin more, resumes it. *)
Lemma new_session_resumes_witness :
  let id := cfg_ID (ls_config (os_session ex_opened)) in
  ∃ m opened' R environment,
    tstore_LoadMetadata ex_new.2 None id = Ok m ∧
    @ResumeSession _ _ backward_order (ex_runtime ex_watched.1) ex_new.2 None id ex_exact (ex_entropy 9) ("r1", 6) ex_clock =
      (Some (Ok opened'), ex_new.2) ∧
    ls_messages (os_session opened') = [] ∧ ls_head (os_session opened') = "" ∧
    cfg_ID (ls_config (os_session opened')) = id ∧
    cfg_Provider (ls_config (os_session opened')) = string_default "stub" "other" ∧
    os_pinnedSnapshot opened' = Some R ∧
    @newTrajectoryEnvironment _ backward_order "v1" R (ls_config (os_session opened')) = Ok environment ∧
    composition_of environment = composition_of (tm_Environment m) ∧
    env_CompositionDigest environment = env_CompositionDigest (tm_Environment m).
Proof.
  exact (@new_session_resumes _ _ forward_order backward_order ex_first.2 ex_watched.2 (ex_runtime ex_first.1) (ex_runtime ex_watched.1)
    newMemoryTrajectoryStore None ex_resume_config (ex_entropy 7) 5 ex_opened ex_new.2 ex_exact (ex_entropy 9) ("r1", 6) ex_clock
    ex_first_wf ex_watched_wf ex_offered (ex_runtime_serving _) ex_new_ok ltac:(by vm_compute) eq_refl).
Defined.

(** ** Rollback *)

Definition ex_say (text : string) : Message :=
  {| msg_Role := RoleUser; msg_Content := text; msg_ToolCalls := None; msg_ToolCallID := ""; msg_IsError := false |}.

Definition ex_checkpoint (texts : list string) : Checkpoint :=
  {| cp_Messages := ex_say <$> texts; cp_MessageMode := CheckpointMessagesSnapshot; cp_System := "be brief"; cp_Provider := "stub";
     cp_Output := ""; cp_Turns := 1; cp_ToolCalls := 0; cp_InputTokens := 0; cp_OutputTokens := 0; cp_Generation := 1;
     cp_Action := {| ac_Kind := ActionStop; ac_Cause := None; ac_Messages := [] |}; cp_ContextInjections := [];
     cp_ConsumedContextInjectionIDs := []; cp_Dependencies := [] |}.

Definition ex_payload (fresh : string * time) (parent : string) (kind : TrajectoryKind) (p : payload) : TrajectoryEntry :=
  payload_entry fresh parent kind 1 0 (get "" (Marshal_payload p)).

(** Two turns, each with its checkpoint. *)
Definition ex_two_turns : list (context * tstore_call) :=
  [ (None, CallCreate (ex_trajectory "main" "" "") 1);
    (None, CallAppend "main" "" [ex_payload ("c1", 10) "" TrajectoryKindCheckpoint (PCheckpoint (ex_checkpoint ["one"]))] ex_clock);
    (None, CallAppend "main" "c1" [ex_payload ("c2", 11) "c1" TrajectoryKindCheckpoint (PCheckpoint (ex_checkpoint ["one"; "two"]))] ex_clock) ].

(** A third turn that fails and leaves the head at the second checkpoint. *)
Definition ex_failed_turn : list (context * tstore_call) :=
  [ (None, CallBegin "main" "c2" ex_start
       (ex_payload ("in3", 12) "c2" TrajectoryKindUserMessage
          (PInput {| ei_Message := ex_say "three"; ei_BaseMessages := ex_say <$> ["one"; "two"]; ei_Environment := zeroEnvironment |}))
       20 ex_clock);
    (None, CallClaim "main" "worker" 21 1000 21 (ex_entropy 7));
    (None, CallCommit {| ecm_TrajectoryID := "main"; ecm_ExecutionID := "x1"; ecm_LeaseToken := NewID (ex_entropy 7);
       ecm_ExpectedHead := "in3"; ecm_Entries := [ex_payload ("r3", 22) "c2" TrajectoryKindRestore (PHeadMove "in3" "c2")];
       ecm_State := TrajectoryExecutionFailed; ecm_Error := "provider failed" |} 23 ex_clock) ].

Lemma ex_two_turns_ok : calls_ok ex_two_turns.
Proof. repeat constructor; simpl; auto. Qed.

Definition ex_current : SessionConfig :=
  {| cfg_ID := ""; cfg_Provider := "other"; cfg_System := "sys"; cfg_MaxTurns := 5; cfg_ReasoningEffort := "";
     cfg_ResumePolicy := ResumeCurrent |}.

Definition ex_rolled_back (calls : list (context * tstore_call)) : result (string * Checkpoint * memoryTrajectoryStore) :=
  rollbackTrajectory (ex_runtime initialSnapshot) (tstore_run newMemoryTrajectoryStore calls) None "main" "c1" ("b1", 30) ex_clock.

Definition ex_rolled_store (calls : list (context * tstore_call)) : memoryTrajectoryStore :=
  (get ("", ex_checkpoint [], newMemoryTrajectoryStore) (ex_rolled_back calls)).2.

Definition ex_resumed (calls : list (context * tstore_call)) : option (result openSession) :=
  (@ResumeSession _ _ forward_order (ex_runtime initialSnapshot) (ex_rolled_store calls) None "main" ex_current (ex_entropy 9)
     ("r9", 40) ex_clock).1.

Definition ex_conversation (opened : option (result openSession)) : option (list string * string) :=
  match opened with
  | Some (Ok opened) => Some (msg_Content <$> ls_messages (os_session opened), ls_head (os_session opened))
  | _ => None
  end.

(** The parts of the rollback that the theorem names. *)
Definition ex_rolled : string * Checkpoint * memoryTrajectoryStore :=
  get ("", ex_checkpoint [], newMemoryTrajectoryStore) (ex_rolled_back ex_two_turns).

Lemma ex_rolled_ok : ex_rolled_back ex_two_turns = Ok (ex_rolled.1.1, ex_rolled.1.2, ex_rolled.2).
Proof.
  unfold ex_rolled. assert (result_ok (ex_rolled_back ex_two_turns) = true) as Hok by (by vm_compute).
  destruct (ex_rolled_back ex_two_turns) as [[[head c] st]|]; [done|done].
Qed.

Definition ex_two_store : memoryTrajectoryStore := tstore_run newMemoryTrajectoryStore ex_two_turns.

Definition ex_main : TrajectoryMetadata :=
  mt_metadata (default {| mt_trajectory := ex_trajectory "" "" ""; mt_entries := ∅; mt_order := []; mt_inheritedCount := 0 |}
    (trajectories ex_two_store !! "main")).

Definition ex_c1 : TrajectoryEntry :=
  get (ex_entry "" "" TrajectoryKindCheckpoint) (tstore_LoadEntry ex_two_store None "main" "c1").

Lemma rollback_then_resume_witness :
  cp_Messages ex_rolled.1.2 = [ex_say "one"] ∧
  ∃ opened, @ResumeSession _ _ forward_order (ex_runtime initialSnapshot) ex_rolled.2 None "main" ex_current (ex_entropy 9) ("r9", 40)
              ex_clock = (Some (Ok opened), ex_rolled.2) ∧
    ls_messages (os_session opened) = CloneMessages (cp_Messages ex_rolled.1.2) ∧ ls_head (os_session opened) = ex_rolled.1.1 ∧
    cfg_System (ls_config (os_session opened)) = cp_System ex_rolled.1.2 ∧
    cfg_Provider (ls_config (os_session opened)) = string_default (cp_Provider ex_rolled.1.2) "other".
Proof.
  split; [by vm_compute|].
  exact (@rollback_then_resume _ _ forward_order ex_two_turns (ex_runtime initialSnapshot) "main" "c1" ("b1", 30) ex_clock
    ex_rolled.1.1 ex_rolled.1.2 ex_rolled.2 ex_main ex_c1 (ex_runtime initialSnapshot) ex_current (ex_entropy 9) ("r9", 40) ex_clock
    ex_two_turns_ok ex_rolled_ok ltac:(by vm_compute) ltac:(by vm_compute) ltac:(by vm_compute) ltac:(left; by vm_compute)
    (ex_runtime_serving _) ltac:(by vm_compute) eq_refl).
Defined.

(** After the failed third turn the rollback to the first checkpoint succeeds, and the resumed session has the
    conversation of the second.  Without the failed turn it has that of the first. *)
Lemma ex_rollback_undone :
  ex_conversation (ex_resumed (ex_two_turns ++ ex_failed_turn)) = Some (["one"; "two"], "r9") ∧
  ex_conversation (ex_resumed ex_two_turns) = Some (["one"], "b1").
Proof. split; by vm_compute. Qed.

Definition ex_failed_calls : list (context * tstore_call) := ex_two_turns ++ ex_failed_turn.

Lemma ex_failed_calls_ok : calls_ok ex_failed_calls.
Proof. repeat constructor; simpl; auto. Qed.

Definition ex_undone : string * Checkpoint * memoryTrajectoryStore :=
  get ("", ex_checkpoint [], newMemoryTrajectoryStore) (ex_rolled_back ex_failed_calls).

Lemma ex_undone_ok : ex_rolled_back ex_failed_calls = Ok (ex_undone.1.1, ex_undone.1.2, ex_undone.2).
Proof.
  unfold ex_undone. assert (result_ok (ex_rolled_back ex_failed_calls) = true) as Hok by (by vm_compute).
  destruct (ex_rolled_back ex_failed_calls) as [[[head c] st]|]; [done|done].
Qed.

Definition ex_failed_metadata : TrajectoryMetadata :=
  mt_metadata (default {| mt_trajectory := ex_trajectory "" "" ""; mt_entries := ∅; mt_order := []; mt_inheritedCount := 0 |}
    (trajectories (tstore_run newMemoryTrajectoryStore ex_failed_calls) !! "main")).

Lemma resume_undoes_rollback_after_failure_witness :
  cp_Messages ex_undone.1.2 = [ex_say "one"] ∧
  ∃ m' target, tstore_LoadMetadata ex_undone.2 None "main" = Ok m' ∧ tm_Head m' = ex_undone.1.1 ∧
    LoadSessionResumeBase ex_undone.2 None m' =
    Ok {| sb_Base := {| bb_Head := "c2"; bb_Messages := ex_say <$> ["one"; "two"] |}; sb_CheckpointEntry := Some target;
          sb_Checkpoint := Some ex_undone.1.2 |}.
Proof.
  split; [by vm_compute|].
  destruct (@resume_undoes_rollback_after_failure _ _ forward_order ex_failed_calls (ex_runtime initialSnapshot) "main" "c1" ("b1", 30)
    ex_clock ex_undone.1.1 ex_undone.1.2 ex_undone.2 ex_failed_metadata "c2" (ex_say <$> ["one"; "two"])
    ex_failed_calls_ok ex_undone_ok ltac:(by vm_compute) ltac:(by vm_compute) ltac:(done) ltac:(by vm_compute))
    as (m' & target & H1 & H2 & H3 & _).
  exists m', target. split; [exact H1|]. split; [exact H2|exact H3].
Defined.
