(* ===== verification/Base64.v ===== *)
(** [base64.RawURLEncoding] of the Go standard library: the unpadded URL alphabet, in which the
    registry prints its page cursors and lease tokens. *)

From S2P Require Import Prelude GoText.

(** ** Digits *)

Definition b64_digit (n : N) : ascii :=
  ascii_of_N
    (if N.ltb n 26 then n + 65
     else if N.ltb n 52 then n + 71
     else if N.ltb n 62 then n - 4
     else if N.eqb n 62 then 45 else 95)%N.

Definition b64_value (c : ascii) : option N :=
  let b := byte c in
  if N.leb 65 b && N.leb b 90 then Some (b - 65)%N
  else if N.leb 97 b && N.leb b 122 then Some (b - 71)%N
  else if N.leb 48 b && N.leb b 57 then Some (b + 4)%N
  else if N.eqb b 45 then Some 62%N
  else if N.eqb b 95 then Some 63%N
  else None.

(** ** Encoding: three bytes become four digits *)

Fixpoint b64_digits (bytes : list N) : list N :=
  match bytes with
  | a :: b :: c :: rest =>
      (a / 4 :: (a mod 4) * 16 + b / 16 :: (b mod 16) * 4 + c / 64 :: c mod 64 :: b64_digits rest)%N
  | [a; b] => [a / 4; (a mod 4) * 16 + b / 16; (b mod 16) * 4]%N
  | [a] => [a / 4; (a mod 4) * 16]%N
  | [] => []
  end.

Definition EncodeToString (bytes : list N) : string :=
  String.string_of_list_ascii (b64_digit <$> b64_digits bytes).

(** ** Decoding

    Line breaks are skipped, a single trailing digit is corrupt input, and the unused low bits of
    the last digit are ignored, since the encoding is not strict. *)

Fixpoint b64_bytes (digits : list N) : option (list N) :=
  match digits with
  | a :: b :: c :: d :: rest =>
      match b64_bytes rest with
      | Some bytes => Some (a * 4 + b / 16 :: (b mod 16) * 16 + c / 4 :: (c mod 4) * 64 + d :: bytes)%N
      | None => None
      end
  | [a; b; c] => Some [a * 4 + b / 16; (b mod 16) * 16 + c / 4]%N
  | [a; b] => Some [a * 4 + b / 16]%N
  | [a] => None
  | [] => Some []
  end.

Fixpoint b64_values (s : list ascii) : option (list N) :=
  match s with
  | [] => Some []
  | c :: s =>
      if N.eqb (byte c) 10 || N.eqb (byte c) 13 then b64_values s else
      match b64_value c, b64_values s with
      | Some v, Some vs => Some (v :: vs)
      | _, _ => None
      end
  end.

Definition DecodeString (s : string) : option (list N) :=
  match b64_values (String.list_ascii_of_string s) with
  | Some digits => b64_bytes digits
  | None => None
  end.

(** [[]byte(s)] and [string(bytes)]. *)
Definition string_bytes (s : string) : list N := byte <$> String.list_ascii_of_string s.
Definition bytes_string (bytes : list N) : string := String.string_of_list_ascii (ascii_of_N <$> bytes).

(** ** Decoding what was encoded *)

Lemma b64_digit_value n :
  (n < 64)%N → b64_value (b64_digit n) = Some n ∧ N.eqb (byte (b64_digit n)) 10 || N.eqb (byte (b64_digit n)) 13 = false.
Proof.
  intros Hn. assert (n ∈ (N.of_nat <$> seq 0 64)) as Hin.
  { apply list_elem_of_fmap. exists (N.to_nat n). rewrite N2Nat.id, elem_of_seq. lia. }
  assert (Forall (λ k, b64_value (b64_digit k) = Some k ∧
            N.eqb (byte (b64_digit k)) 10 || N.eqb (byte (b64_digit k)) 13 = false) (N.of_nat <$> seq 0 64)) as Hall
    by (vm_compute; repeat constructor).
  rewrite Forall_forall in Hall. by apply Hall.
Qed.

(** Induction in steps of three. *)
Lemma list_ind3 {A} (P : list A → Prop) :
  P [] → (∀ a, P [a]) → (∀ a b, P [a; b]) → (∀ a b c l, P l → P (a :: b :: c :: l)) → ∀ l, P l.
Proof.
  intros H0 H1 H2 H3 l. assert (P l ∧ (∀ a, P (a :: l)) ∧ ∀ a b, P (a :: b :: l)) as [? _]; [|done].
  induction l as [|x l (IH0 & IH1 & IH2)]; [done|]. split_and!; auto.
Qed.

(** Bytes split into digits: linear arithmetic with quotients and remainders. *)
Ltac byte_arith := zify; Z.to_euclidean_division_equations; lia.

Lemma b64_digits_small bytes : Forall (λ b, b < 256)%N bytes → Forall (λ d, d < 64)%N (b64_digits bytes).
Proof.
  induction bytes as [|a|a b|a b c l IH] using list_ind3; intros H; cbn [b64_digits].
  1: constructor.
  all: repeat match goal with H : Forall _ (_ :: _) |- _ => apply Forall_cons in H as [? H] end;
    rewrite ?list.Forall_cons, ?list.Forall_nil; split_and?; auto; byte_arith.
Qed.

Lemma b64_bytes_digits bytes : Forall (λ b, b < 256)%N bytes → b64_bytes (b64_digits bytes) = Some bytes.
Proof.
  induction bytes as [|a|a b|a b c l IH] using list_ind3; intros H; [done|..]; cbn [b64_digits b64_bytes];
    repeat match goal with H : Forall _ (_ :: _) |- _ => apply Forall_cons in H as [? H] end.
  3: rewrite IH by done.
  all: repeat (f_equal; try byte_arith).
Qed.

Lemma b64_values_digits digits :
  Forall (λ d, d < 64)%N digits → b64_values (b64_digit <$> digits) = Some digits.
Proof.
  induction 1 as [|d digits Hd _ IH]; [done|]. rewrite fmap_cons. cbn [b64_values].
  destruct (b64_digit_value d Hd) as [-> ->]. by rewrite IH.
Qed.

Lemma Decode_Encode bytes : Forall (λ b, b < 256)%N bytes → DecodeString (EncodeToString bytes) = Some bytes.
Proof.
  intros H. unfold DecodeString, EncodeToString. rewrite String.list_ascii_of_string_of_list_ascii.
  rewrite b64_values_digits by (by apply b64_digits_small). by apply b64_bytes_digits.
Qed.

Lemma string_bytes_small s : Forall (λ b, b < 256)%N (string_bytes s).
Proof. apply list.Forall_forall. intros b (c & -> & _)%list_elem_of_fmap. apply N_ascii_bounded. Qed.

Lemma bytes_string_bytes s : bytes_string (string_bytes s) = s.
Proof.
  unfold bytes_string, string_bytes. rewrite <-list_fmap_compose.
  rewrite <-(String.string_of_list_ascii_of_string s) at 2. f_equal.
  rewrite <-(list_fmap_id (String.list_ascii_of_string s)) at 2. apply list_fmap_ext. intros _ c _. apply ascii_N_embedding.
Qed.

Lemma EncodeToString_nonempty bytes : bytes ≠ [] → EncodeToString bytes ≠ "".
Proof. by destruct bytes as [|a [|b [|c l]]]. Qed.

Example encode_example : (EncodeToString (string_bytes "a?>"), DecodeString "YT8-", DecodeString "Y") =
  ("YT8-", Some [97; 63; 62]%N, None).
Proof. vm_compute. reflexivity. Qed.
