(* ===== verification/Registry.v ===== *)
(** The plugin directory of [registry/]: the requests of [directory.go], the lease state machine of
    [state.go] and the in-memory directory of [memory.go].  A plugin instance is registered under a
    lease; the directory keeps a bounded log of changes that clients poll.  An operation can change
    the state also when it returns an error, because it first expires the leases that ran out, so
    every operation returns the state beside its result. *)

From S2P Require Import Prelude GoText Names Base64.

(** ** Data *)

Definition DefaultNamespace : string := "default".
Definition reg_DefaultPageSize : Z := 100.
Definition reg_MaxPageSize : Z := 1000.

Record InstanceKey := {
  ik_Namespace : string;
  ik_Name : string;
  ik_InstanceID : string;
}.

#[export] Instance InstanceKey_eq_dec : EqDecision InstanceKey.
Proof. solve_decision. Defined.

Definition InstanceKey_String (key : InstanceKey) : string :=
  ik_Namespace key +:+ "/" +:+ ik_Name key +:+ "/" +:+ ik_InstanceID key.

Record PluginRegistration := {
  rg_Namespace : string;
  rg_Name : string;
  rg_InstanceID : string;
  rg_URI : string;
  rg_Manifest : Manifest;
  rg_Labels : gmap string string;
}.

Definition Registration_Key (registration : PluginRegistration) : InstanceKey :=
  {| ik_Namespace := rg_Namespace registration; ik_Name := rg_Name registration;
     ik_InstanceID := rg_InstanceID registration |}.

Record PluginInstance := {
  pi_Registration : PluginRegistration;
  pi_RegisteredAt : time;
  pi_UpdatedAt : time;
  pi_ExpiresAt : time;
  pi_Revision : Z;
  pi_Epoch : Z;
}.

Record PluginLease := {
  pl_ID : string;
  pl_Token : string;
  pl_Key : InstanceKey;
  pl_ExpiresAt : time;
  pl_Epoch : Z;
}.

Record LeaseCredential := {
  lc_ID : string;
  lc_Token : string;
}.

Record DiscoveryQuery := {
  dq_Namespace : string;
  dq_Name : string;
  dq_Version : string;
  dq_Resource : string;
  dq_Labels : gmap string string;
}.

Record RegistryPageRequest := {
  rp_After : string;
  rp_Limit : Z;
}.

Record DiscoveryPage := {
  dp_Items : list PluginInstance;
  dp_Next : string;
  dp_Revision : Z;
}.

Inductive ChangeKind :=
  | ChangeUpsert
  | ChangeDelete
  | ChangeExpire
  | ChangeKindOther (text : string).

Record PluginChange := {
  pc_Revision : Z;
  pc_Kind : ChangeKind;
  pc_Instance : PluginInstance;
}.

Record ChangePollRequest := {
  cp_Query : DiscoveryQuery;
  cp_AfterRevision : Z;
  cp_Limit : Z;
  cp_Wait : duration;
}.

Record ChangePage := {
  cg_Changes : list PluginChange;
  cg_NextRevision : Z;
  cg_CurrentRevision : Z;
}.

Record storedInstance := {
  si_Instance : PluginInstance;
  si_LeaseID : string;
}.

Record directoryState := {
  ds_SchemaVersion : Z;
  ds_Revision : Z;
  ds_Instances : gmap string storedInstance;
  ds_Leases : gmap string PluginLease;
  ds_Epochs : gmap string Z;
  ds_Changes : list PluginChange;
}.

Definition stateSchemaVersion : Z := 1.

Definition newDirectoryState : directoryState :=
  {| ds_SchemaVersion := stateSchemaVersion; ds_Revision := 0; ds_Instances := ∅; ds_Leases := ∅;
     ds_Epochs := ∅; ds_Changes := [] |}.

(** What an operation returns: its result, whether it changed the state, and the state. *)
Definition outcome (A : Type) : Type := result A * bool * directoryState.

(** ** Requests *)

Definition invalidRequest (err : error) : error := Wrap2 (Sentinel ErrInvalidRequest) err.

Definition validateKey (key : InstanceKey) : result unit :=
  try? ValidateResourceName "registry namespace" (ik_Namespace key);
  try? ValidateResourceName "plugin" (ik_Name key);
  ValidateResourceName "plugin instance" (ik_InstanceID key).

(** What [url.Parse] returns of a URL. *)
Record URL := {
  url_Scheme : string;
  url_Opaque : string;
  url_Host : string;
  url_Path : string;
}.

(** [unicode.IsControl] for some rune of a string: the bytes below 32, 127, and the two-byte
    encodings of U+0080 to U+009F. *)
Fixpoint has_control (bytes : list N) : bool :=
  match bytes with
  | [] => false
  | a :: rest =>
      N.ltb a 32 || N.eqb a 127 ||
      match rest with b :: _ => N.eqb a 194 && N.leb 128 b && N.leb b 159 | [] => false end ||
      has_control rest
  end.

Definition validateLabel (key value : string) : result unit :=
  let trimmedKey := TrimSpace key in
  fail_if bool_decide (key ≠ trimmedKey) with
    Errorf "plugin label key %q has surrounding whitespace" [AStr key];
  fail_if is_empty trimmedKey || (Z.of_nat (String.length trimmedKey) >? 128) with
    Errorf "plugin label key %q must contain 1..128 bytes" [AStr key];
  fail_if Z.of_nat (String.length value) >? 512 with
    Errorf "plugin label %q value exceeds 512 bytes" [AStr key];
  fail_if has_control (string_bytes (key +:+ value)) with
    Errorf "plugin label %q contains control characters" [AStr key];
  Ok tt.

Fixpoint validateLabels (labels : list (string * string)) : result unit :=
  match labels with
  | [] => Ok tt
  | (key, value) :: rest => try? validateLabel key value; validateLabels rest
  end.

Definition normalizeQuery (query : DiscoveryQuery) : result DiscoveryQuery :=
  let query :=
    {| dq_Namespace := TrimSpace (dq_Namespace query); dq_Name := TrimSpace (dq_Name query);
       dq_Version := TrimSpace (dq_Version query); dq_Resource := TrimSpace (dq_Resource query);
       dq_Labels := dq_Labels query |} in
  try? (if negb (is_empty (dq_Namespace query))
        then ValidateResourceName "registry namespace" (dq_Namespace query) else Ok tt);
  try? (if negb (is_empty (dq_Name query)) then ValidateResourceName "plugin" (dq_Name query) else Ok tt);
  try? validateLabels (map_to_list (dq_Labels query));
  Ok query.

Definition reg_validatePage (request : RegistryPageRequest) : result (Z * string) :=
  let limit := if rp_Limit request =? 0 then reg_DefaultPageSize else rp_Limit request in
  fail_if (limit <? 1) || (limit >? reg_MaxPageSize) with
    Errorf "page limit must be between 1 and %d" [ANum reg_MaxPageSize];
  if is_empty (rp_After request) then Ok (limit, "") else
  match DecodeString (rp_After request) with
  | None => Err (errors_New "invalid registry page cursor")
  | Some raw => Ok (limit, bytes_string raw)
  end.

Definition encodePageCursor (key : string) : string := EncodeToString (string_bytes key).

Definition validatePoll (request : ChangePollRequest) : result ChangePollRequest :=
  let? query := normalizeQuery (cp_Query request) in
  let limit := if cp_Limit request =? 0 then reg_DefaultPageSize else cp_Limit request in
  fail_if (limit <? 1) || (limit >? reg_MaxPageSize) with
    Errorf "poll limit must be between 1 and %d" [ANum reg_MaxPageSize];
  fail_if cp_Wait request <? 0 with errors_New "poll wait cannot be negative";
  Ok {| cp_Query := query; cp_AfterRevision := cp_AfterRevision request; cp_Limit := limit;
        cp_Wait := cp_Wait request |}.

(** A label the instance lacks reads as the empty string. *)
Definition label_matches (labels : gmap string string) (wanted : string * string) : bool :=
  bool_decide (default "" (labels !! wanted.1) = wanted.2).

Definition reg_matches (instance : PluginInstance) (query : DiscoveryQuery) : bool :=
  let registration := pi_Registration instance in
  negb (negb (is_empty (dq_Namespace query)) && bool_decide (rg_Namespace registration ≠ dq_Namespace query)) &&
  negb (negb (is_empty (dq_Name query)) && bool_decide (rg_Name registration ≠ dq_Name query)) &&
  negb (negb (is_empty (dq_Version query)) &&
        bool_decide (mf_Version (rg_Manifest registration) ≠ dq_Version query)) &&
  negb (negb (is_empty (dq_Resource query)) &&
        bool_decide (dq_Resource query ∉ mf_Registers (rg_Manifest registration))) &&
  forallb (label_matches (rg_Labels registration)) (map_to_list (dq_Labels query)).

Definition instanceMapKey (key : InstanceKey) : string :=
  ik_Namespace key +:+ NUL +:+ ik_Name key +:+ NUL +:+ ik_InstanceID key.

Section registration.
(** [url.Parse]. *)
Context (url_Parse : string → result URL).

Definition validatePluginURI (raw : string) : result unit :=
  match url_Parse raw with
  | Err err => Err (Wrapf "parse plugin URI %q: %w" [AStr raw] err)
  | Ok parsed =>
      fail_if is_empty (url_Scheme parsed) with Errorf "plugin URI %q has no scheme" [AStr raw];
      fail_if is_empty (url_Host parsed) && is_empty (url_Opaque parsed) && is_empty (url_Path parsed) with
        Errorf "plugin URI %q has no target" [AStr raw];
      Ok tt
  end.

Definition normalizeRegistration (registration : PluginRegistration) : result PluginRegistration :=
  let registration :=
    {| rg_Namespace := string_default (TrimSpace (rg_Namespace registration)) DefaultNamespace;
       rg_Name := TrimSpace (rg_Name registration);
       rg_InstanceID := TrimSpace (rg_InstanceID registration);
       rg_URI := TrimSpace (rg_URI registration);
       rg_Manifest := rg_Manifest registration; rg_Labels := rg_Labels registration |} in
  try? validateKey (Registration_Key registration);
  try? Manifest_Validate (rg_Manifest registration);
  fail_if bool_decide (mf_Name (rg_Manifest registration) ≠ rg_Name registration) with
    Errorf "registration name %q does not match manifest name %q"
      [AStr (rg_Name registration); AStr (mf_Name (rg_Manifest registration))];
  try? validatePluginURI (rg_URI registration);
  try? validateLabels (map_to_list (rg_Labels registration));
  Ok registration.
End registration.

(** ** The change log *)

Definition with_changes (st : directoryState) (changes : list PluginChange) : directoryState :=
  {| ds_SchemaVersion := ds_SchemaVersion st; ds_Revision := ds_Revision st; ds_Instances := ds_Instances st;
     ds_Leases := ds_Leases st; ds_Epochs := ds_Epochs st; ds_Changes := changes |}.

Definition appendChange (st : directoryState) (change : PluginChange) (maxChanges : nat) : directoryState :=
  let changes := ds_Changes st ++ [change] in
  with_changes st
    (if (maxChanges <? length changes)%nat then drop (length changes - maxChanges) changes else changes).

(** ** Leases *)

Definition stamped (instance : PluginInstance) (updated : time) (revision : Z) : PluginInstance :=
  {| pi_Registration := pi_Registration instance; pi_RegisteredAt := pi_RegisteredAt instance;
     pi_UpdatedAt := updated; pi_ExpiresAt := pi_ExpiresAt instance; pi_Revision := revision;
     pi_Epoch := pi_Epoch instance |}.

Definition removeLease (st : directoryState) (lease : PluginLease) (kind : ChangeKind) (now : time)
    (maxChanges : nat) : directoryState :=
  let key := instanceMapKey (pl_Key lease) in
  let leases := delete (pl_ID lease) (ds_Leases st) in
  let unleased :=
    {| ds_SchemaVersion := ds_SchemaVersion st; ds_Revision := ds_Revision st; ds_Instances := ds_Instances st;
       ds_Leases := leases; ds_Epochs := ds_Epochs st; ds_Changes := ds_Changes st |} in
  match ds_Instances st !! key with
  | None => unleased
  | Some instance =>
      if bool_decide (si_LeaseID instance ≠ pl_ID lease) then unleased else
      let revision := u64 (ds_Revision st + 1) in
      appendChange
        {| ds_SchemaVersion := ds_SchemaVersion st; ds_Revision := revision;
           ds_Instances := delete key (ds_Instances st); ds_Leases := leases; ds_Epochs := ds_Epochs st;
           ds_Changes := ds_Changes st |}
        {| pc_Revision := revision; pc_Kind := kind; pc_Instance := stamped (si_Instance instance) now revision |}
        maxChanges
  end.

Definition expireLease (st : directoryState) (lease : PluginLease) (now : time) (maxChanges : nat)
    : directoryState := removeLease st lease ChangeExpire now maxChanges.

(** The IDs of the leases that ran out, in the order [slices.Sort] gives them. *)
Definition lease_expired (now : time) (lease : PluginLease) : bool := negb (After (pl_ExpiresAt lease) now).

Definition expired_ids (st : directoryState) (now : time) : list string :=
  SortFunc strings_Compare
    (omap (λ '(id, lease), if lease_expired now lease then Some id else None) (map_to_list (ds_Leases st))).

Definition expire_id (now : time) (maxChanges : nat) (st : directoryState) (id : string) : directoryState :=
  match ds_Leases st !! id with
  | Some lease => expireLease st lease now maxChanges
  | None => st
  end.

Definition pruneExpired (st : directoryState) (now : time) (maxChanges : nat) : bool * directoryState :=
  let expired := expired_ids st now in
  ((0 <? length expired)%nat, foldl (expire_id now maxChanges) st expired).

(** [subtle.ConstantTimeCompare] of equally long strings is equality. *)
Definition validLeaseToken (expected actual : string) : bool :=
  if is_empty expected || negb (String.length expected =? String.length actual)%nat then false
  else bool_decide (expected = actual).

(** [rand.Read] of 32 bytes, or its error. *)
Definition newLeaseToken (raw : result (list N)) : result string :=
  match raw with
  | Err err => Err (Wrapf "generate plugin lease token: %w" [] err)
  | Ok raw => Ok (EncodeToString raw)
  end.

Definition ttl_error : error := invalidRequest (errors_New "plugin lease TTL must be positive").

Section operations.
Context (url_Parse : string → result URL).

Definition reg_register (st : directoryState) (registration : PluginRegistration) (ttl : duration) (now : time)
    (maxChanges : nat) (raw : result (list N)) (e : entropy) : outcome PluginLease :=
  if ttl <=? 0 then (Err ttl_error, false, st) else
  match normalizeRegistration url_Parse registration with
  | Err err => (Err (invalidRequest err), false, st)
  | Ok registration =>
      let '(changed, st) := pruneExpired st now maxChanges in
      let key := instanceMapKey (Registration_Key registration) in
      if bool_decide (is_Some (ds_Instances st !! key)) then
        (Err (Wrapf "%w: %s" [AStr (InstanceKey_String (Registration_Key registration))]
                (Sentinel ErrInstanceConflict)), changed, st)
      else
      match newLeaseToken raw with
      | Err err => (Err err, changed, st)
      | Ok token =>
          let epoch := u64 (default 0 (ds_Epochs st !! key) + 1) in
          let revision := u64 (ds_Revision st + 1) in
          let lease :=
            {| pl_ID := NewID e; pl_Token := token; pl_Key := Registration_Key registration;
               pl_ExpiresAt := time_Add now ttl; pl_Epoch := epoch |} in
          let instance :=
            {| pi_Registration := registration; pi_RegisteredAt := now; pi_UpdatedAt := now;
               pi_ExpiresAt := pl_ExpiresAt lease; pi_Revision := revision; pi_Epoch := epoch |} in
          (Ok lease, true,
           appendChange
             {| ds_SchemaVersion := ds_SchemaVersion st; ds_Revision := revision;
                ds_Instances := <[key := {| si_Instance := instance; si_LeaseID := pl_ID lease |}]> (ds_Instances st);
                ds_Leases := <[pl_ID lease := lease]> (ds_Leases st);
                ds_Epochs := <[key := epoch]> (ds_Epochs st); ds_Changes := ds_Changes st |}
             {| pc_Revision := revision; pc_Kind := ChangeUpsert; pc_Instance := instance |} maxChanges)
      end
  end.

Definition lease_error (id : string) (sentinel : sentinel) : error := Wrapf "%w: %s" [AStr id] (Sentinel sentinel).

Definition reg_renew (st : directoryState) (credential : LeaseCredential) (ttl : duration) (now : time)
    (maxChanges : nat) : outcome PluginLease :=
  let id := lc_ID credential in
  if ttl <=? 0 then (Err ttl_error, false, st) else
  match ds_Leases st !! id with
  | None => (Err (lease_error id ErrLeaseNotFound), false, st)
  | Some lease =>
      if lease_expired now lease then
        (Err (lease_error id ErrLeaseExpired), true, expireLease st lease now maxChanges)
      else if negb (validLeaseToken (pl_Token lease) (lc_Token credential)) then
        (Err (lease_error id ErrLeaseFenced), false, st)
      else
      let key := instanceMapKey (pl_Key lease) in
      let missing := Errorf "registry state has no instance for lease %q" [AStr (pl_ID lease)] in
      match ds_Instances st !! key with
      | None => (Err missing, false, st)
      | Some stored =>
          if bool_decide (si_LeaseID stored ≠ pl_ID lease) then (Err missing, false, st) else
          let expires := time_Add now ttl in
          let lease :=
            {| pl_ID := pl_ID lease; pl_Token := pl_Token lease; pl_Key := pl_Key lease;
               pl_ExpiresAt := expires; pl_Epoch := pl_Epoch lease |} in
          let instance :=
            {| pi_Registration := pi_Registration (si_Instance stored);
               pi_RegisteredAt := pi_RegisteredAt (si_Instance stored); pi_UpdatedAt := now;
               pi_ExpiresAt := expires; pi_Revision := pi_Revision (si_Instance stored);
               pi_Epoch := pi_Epoch (si_Instance stored) |} in
          (Ok lease, true,
           {| ds_SchemaVersion := ds_SchemaVersion st; ds_Revision := ds_Revision st;
              ds_Instances := <[key := {| si_Instance := instance; si_LeaseID := si_LeaseID stored |}]> (ds_Instances st);
              ds_Leases := <[id := lease]> (ds_Leases st); ds_Epochs := ds_Epochs st;
              ds_Changes := ds_Changes st |})
      end
  end.

Definition reg_unregister (st : directoryState) (credential : LeaseCredential) (now : time) (maxChanges : nat)
    : outcome unit :=
  let id := lc_ID credential in
  match ds_Leases st !! id with
  | None => (Err (lease_error id ErrLeaseNotFound), false, st)
  | Some lease =>
      if lease_expired now lease then
        (Err (lease_error id ErrLeaseExpired), true, expireLease st lease now maxChanges)
      else if negb (validLeaseToken (pl_Token lease) (lc_Token credential)) then
        (Err (lease_error id ErrLeaseFenced), false, st)
      else (Ok tt, true, removeLease st lease ChangeDelete now maxChanges)
  end.

(** ** Discovery *)

Definition reg_get (st : directoryState) (key : InstanceKey) (now : time) (maxChanges : nat)
    : outcome PluginInstance :=
  let key := {| ik_Namespace := if blank (ik_Namespace key) then DefaultNamespace else ik_Namespace key;
                ik_Name := ik_Name key; ik_InstanceID := ik_InstanceID key |} in
  match validateKey key with
  | Err err => (Err (invalidRequest err), false, st)
  | Ok _ =>
      let '(changed, st) := pruneExpired st now maxChanges in
      match ds_Instances st !! instanceMapKey key with
      | None => (Err (Wrapf "%w: %s" [AStr (InstanceKey_String key)] (Sentinel ErrInstanceNotFound)), changed, st)
      | Some stored => (Ok (si_Instance stored), changed, st)
      end
  end.

(** [key > after] on strings. *)
Definition key_after (after key : string) : bool := 0 <? strings_Compare key after.

Definition reg_list_keys (st : directoryState) (query : DiscoveryQuery) (after : string) : list string :=
  SortFunc strings_Compare
    (omap (λ '(key, stored), if key_after after key && reg_matches (si_Instance stored) query then Some key else None)
          (map_to_list (ds_Instances st))).

Definition reg_list (st : directoryState) (query : DiscoveryQuery) (request : RegistryPageRequest) (now : time)
    (maxChanges : nat) : outcome DiscoveryPage :=
  match normalizeQuery query with
  | Err err => (Err (invalidRequest err), false, st)
  | Ok query =>
      match reg_validatePage request with
      | Err err => (Err (invalidRequest err), false, st)
      | Ok (requestLimit, after) =>
          let '(changed, st) := pruneExpired st now maxChanges in
          let keys := reg_list_keys st query after in
          let limit := Nat.min (Z.to_nat requestLimit) (length keys) in
          let items := omap (λ key, si_Instance <$> ds_Instances st !! key) (take limit keys) in
          let next :=
            if Z.of_nat (length keys) >? requestLimit
            then encodePageCursor (default "" (keys !! Z.to_nat (requestLimit - 1))) else "" in
          (Ok {| dp_Items := items; dp_Next := next; dp_Revision := ds_Revision st |}, changed, st)
      end
  end.

(** The loop of [poll] over the log: the changes collected, and the revision of the last change
    looked at when the page is full. *)
Fixpoint poll_loop (query : DiscoveryQuery) (after : Z) (limit : nat) (collected changes : list PluginChange)
    : list PluginChange * option Z :=
  match changes with
  | [] => (collected, None)
  | change :: rest =>
      if pc_Revision change <=? after then poll_loop query after limit collected rest
      else if reg_matches (pc_Instance change) query then
        let collected := collected ++ [change] in
        if (length collected =? limit)%nat then (collected, Some (pc_Revision change))
        else poll_loop query after limit collected rest
      else poll_loop query after limit collected rest
  end.

Definition reg_poll (st : directoryState) (request : ChangePollRequest) (now : time) (maxChanges : nat)
    : outcome ChangePage :=
  match validatePoll request with
  | Err err => (Err (invalidRequest err), false, st)
  | Ok request =>
      let '(changed, st) := pruneExpired st now maxChanges in
      let after := cp_AfterRevision request in
      if after >? ds_Revision st then
        (Err (invalidRequest (Errorf "poll revision %d is ahead of current revision %d"
                                [ANum after; ANum (ds_Revision st)])), changed, st)
      else if (0 <? after) &&
              match ds_Changes st with change :: _ => u64 (after + 1) <? pc_Revision change | [] => false end then
        (Err (Wrapf "%w: revision %d" [ANum after] (Sentinel ErrCursorExpired)), changed, st)
      else
      let '(changes, stop) := poll_loop (cp_Query request) after (Z.to_nat (cp_Limit request)) [] (ds_Changes st) in
      (Ok {| cg_Changes := changes; cg_NextRevision := default (ds_Revision st) stop;
             cg_CurrentRevision := ds_Revision st |}, changed, st)
  end.

(** ** Validation of a stored state *)

Fixpoint all_ok {A} (check : A → result unit) (l : list A) : result unit :=
  match l with
  | [] => Ok tt
  | x :: l => try? check x; all_ok check l
  end.

Definition reg_normalize (st : directoryState) : directoryState :=
  {| ds_SchemaVersion := if ds_SchemaVersion st =? 0 then stateSchemaVersion else ds_SchemaVersion st;
     ds_Revision := ds_Revision st; ds_Instances := ds_Instances st; ds_Leases := ds_Leases st;
     ds_Epochs := ds_Epochs st; ds_Changes := ds_Changes st |}.

Definition check_instance (st : directoryState) (item : string * storedInstance) : result unit :=
  let '(key, stored) := item in
  match normalizeRegistration url_Parse (pi_Registration (si_Instance stored)) with
  | Err err => Err (Wrapf "validate registry instance %q: %w" [AStr key] err)
  | Ok registration =>
      fail_if bool_decide (instanceMapKey (Registration_Key registration) ≠ key) with
        Errorf "registry instance key %q does not match payload" [AStr key];
      fail_if (match ds_Leases st !! si_LeaseID stored with
               | None => true
               | Some lease =>
                   bool_decide (pl_Key lease ≠ Registration_Key registration) ||
                   negb (pl_Epoch lease =? pi_Epoch (si_Instance stored)) ||
                   negb (pl_ExpiresAt lease =? pi_ExpiresAt (si_Instance stored))
               end) with
        Errorf "registry instance %q has an invalid lease" [AStr key];
      fail_if default 0 (ds_Epochs st !! key) <? pi_Epoch (si_Instance stored) with
        Errorf "registry instance %q exceeds recorded epoch" [AStr key];
      Ok tt
  end.

Definition check_lease (st : directoryState) (item : string * PluginLease) : result unit :=
  let '(id, lease) := item in
  fail_if bool_decide (id ≠ pl_ID lease) || is_empty (pl_Token lease) with
    Errorf "registry lease %q is invalid" [AStr id];
  fail_if (match ds_Instances st !! instanceMapKey (pl_Key lease) with
           | None => true
           | Some instance => bool_decide (si_LeaseID instance ≠ id)
           end) with
    Errorf "registry lease %q has no matching instance" [AStr id];
  Ok tt.

Fixpoint check_changes (current revision : Z) (changes : list PluginChange) : result unit :=
  match changes with
  | [] => Ok tt
  | change :: rest =>
      fail_if (pc_Revision change <=? revision) || (pc_Revision change >? current) with
        errors_New "registry change revisions are invalid";
      match pc_Kind change with
      | ChangeKindOther text => Err (Errorf "registry change kind %q is invalid" [AStr text])
      | _ => check_changes current (pc_Revision change) rest
      end
  end.

Definition reg_validate (st : directoryState) : result unit :=
  let st := reg_normalize st in
  fail_if ds_SchemaVersion st >? stateSchemaVersion with
    Errorf "registry schema version %d exceeds supported version %d"
      [ANum (ds_SchemaVersion st); ANum stateSchemaVersion];
  try? all_ok (check_instance st) (map_to_list (ds_Instances st));
  try? all_ok (check_lease st) (map_to_list (ds_Leases st));
  check_changes (ds_Revision st) 0 (ds_Changes st).

(** ** The in-memory directory *)

(** [md_signals] counts the closed change channels. *)
Record memoryDirectory := {
  md_state : directoryState;
  md_maxChanges : nat;
  md_signals : nat;
  md_closed : bool;
}.

Definition NewMemoryDirectory (maxChanges : Z) : memoryDirectory :=
  {| md_state := newDirectoryState; md_maxChanges := if maxChanges <? 1 then 1024%nat else Z.to_nat maxChanges;
     md_signals := 0; md_closed := false |}.

(** A call: the checks before it, then the operation under the lock, and [signalIfChanged]. *)
Definition md_call {A} (directory : memoryDirectory) (ctx : context)
    (op : directoryState → nat → outcome A) : result A * memoryDirectory :=
  match ctx with
  | Some err => (Err err, directory)
  | None =>
      if md_closed directory then (Err (Sentinel ErrClosed), directory) else
      let '(r, _, st) := op (md_state directory) (md_maxChanges directory) in
      (r, {| md_state := st; md_maxChanges := md_maxChanges directory;
             md_signals := if ds_Revision st =? ds_Revision (md_state directory) then md_signals directory
                           else S (md_signals directory);
             md_closed := false |})
  end.

Definition md_Register directory ctx registration ttl now raw e :=
  md_call directory ctx (λ st maxChanges, reg_register st registration ttl now maxChanges raw e).
Definition md_Renew directory ctx credential ttl now :=
  md_call directory ctx (λ st maxChanges, reg_renew st credential ttl now maxChanges).
Definition md_Unregister directory ctx credential now :=
  md_call directory ctx (λ st maxChanges, reg_unregister st credential now maxChanges).
Definition md_Get directory ctx key now := md_call directory ctx (λ st maxChanges, reg_get st key now maxChanges).
Definition md_List directory ctx query request now :=
  md_call directory ctx (λ st maxChanges, reg_list st query request now maxChanges).

(** One turn of the loop of [Poll]: it returns, or it waits for the channel of the given number to be
    closed, for at most the delay; a delay that ends with the next expiry starts another turn. *)
Inductive poll_turn :=
  | PollReturn (r : result ChangePage)
  | PollWait (signals : nat) (delay : duration) (forExpiry : bool).

Fixpoint next_expiry_loop (now : time) (found : duration) (leases : list PluginLease) : duration :=
  match leases with
  | [] => found
  | lease :: rest =>
      let remaining := time_Sub (pl_ExpiresAt lease) now in
      if remaining <=? 0 then 0
      else next_expiry_loop now (if (found =? 0) || (remaining <? found) then remaining else found) rest
  end.

Definition nextExpiry (st : directoryState) (now : time) : duration :=
  next_expiry_loop now 0 (map_values (ds_Leases st)).

Definition md_Poll_turn (directory : memoryDirectory) (ctx : context) (request : ChangePollRequest)
    (now now' : time) (remaining : duration) : poll_turn * memoryDirectory :=
  let '(r, directory') := md_call directory ctx (λ st maxChanges, reg_poll st request now maxChanges) in
  match r with
  | Err err => (PollReturn (Err err), directory')
  | Ok page =>
      if (0 <? length (cg_Changes page))%nat || (cg_NextRevision page >? cp_AfterRevision request)
         || (cp_Wait request =? 0) || (remaining <=? 0)
      then (PollReturn (Ok page), directory')
      else
      let next := nextExpiry (md_state directory') now' in
      let forExpiry := (0 <? next) && (next <? remaining) in
      (PollWait (md_signals directory') (if forExpiry then Z.min remaining next else remaining) forExpiry, directory')
  end.

Definition md_Close (directory : memoryDirectory) : memoryDirectory :=
  if md_closed directory then directory else
  {| md_state := md_state directory; md_maxChanges := md_maxChanges directory;
     md_signals := S (md_signals directory); md_closed := true |}.
End operations.
