(* ===== verification/RegistryInvariant.v ===== *)
(** The invariant of the plugin directory, and the log of changes that every call appends to. *)

From S2P Require Import Prelude GoText Names Base64 Registry.

(** ** The log *)

(** The last [m] elements. *)
Definition trunc {A} (m : nat) (l : list A) : list A := drop (length l - m) l.

Lemma trunc_app {A} m (l k : list A) : trunc m (trunc m l ++ k) = trunc m (l ++ k).
Proof.
  unfold trunc. rewrite !length_app, length_drop.
  rewrite <-(drop_app_le l) by lia. rewrite drop_drop. f_equal. lia.
Qed.

Lemma trunc_short {A} m (l : list A) : (length l ≤ m)%nat → trunc m l = l.
Proof. intros H. unfold trunc. by replace (length l - m)%nat with 0%nat by lia. Qed.

Lemma length_trunc {A} m (l : list A) : length (trunc m l) = Nat.min m (length l).
Proof. unfold trunc. rewrite length_drop. lia. Qed.

(** What a client that follows the log knows: the registration and the epoch of every instance. *)
Abbreviation view_map := (gmap string (PluginRegistration * Z)) (only parsing).

Definition entry_of (s : storedInstance) : PluginRegistration * Z :=
  (pi_Registration (si_Instance s), pi_Epoch (si_Instance s)).

Definition view (st : directoryState) : view_map := entry_of <$> ds_Instances st.

Definition apply_change (v : view_map) (c : PluginChange) : view_map :=
  let key := instanceMapKey (Registration_Key (pi_Registration (pc_Instance c))) in
  match pc_Kind c with
  | ChangeUpsert => <[key := (pi_Registration (pc_Instance c), pi_Epoch (pc_Instance c))]> v
  | ChangeDelete | ChangeExpire => delete key v
  | ChangeKindOther _ => v
  end.

Definition replay (v : view_map) (log : list PluginChange) : view_map := foldl apply_change v log.

(** [st'] is [st] after the changes [log]. *)
Record evolves (m : nat) (log : list PluginChange) (st st' : directoryState) : Prop := {
  ev_revision : ds_Revision st' = ds_Revision st + Z.of_nat (length log);
  ev_changes : ds_Changes st' = trunc m (ds_Changes st ++ log);
  ev_view : view st' = replay (view st) log;
}.

Lemma evolves_trans m log1 log2 st1 st2 st3 :
  evolves m log1 st1 st2 → evolves m log2 st2 st3 → evolves m (log1 ++ log2) st1 st3.
Proof.
  intros [R1 C1 V1] [R2 C2 V2]. split.
  - rewrite R2, R1, length_app. lia.
  - by rewrite C2, C1, trunc_app, app_assoc.
  - rewrite V2, V1. unfold replay. by rewrite foldl_app.
Qed.

(** ** The invariant *)

Definition change_kind_known (kind : ChangeKind) : Prop :=
  match kind with ChangeKindOther _ => False | _ => True end.

Section wf.
Context (url_Parse : string → result URL) (m : nat).

(** [n] counts the registrations so far. *)
Record dir_wf (n : Z) (st : directoryState) : Prop := {
  dw_schema : ds_SchemaVersion st = stateSchemaVersion;
  dw_bound : 0 ≤ ds_Revision st ∧ ds_Revision st + Z.of_nat (size (ds_Instances st)) ≤ 2 * n;
  dw_instance key s : ds_Instances st !! key = Some s →
    let registration := pi_Registration (si_Instance s) in
    normalizeRegistration url_Parse registration = Ok registration ∧
    instanceMapKey (Registration_Key registration) = key ∧
    ∃ lease, ds_Leases st !! si_LeaseID s = Some lease ∧ pl_Key lease = Registration_Key registration ∧
      pl_Epoch lease = pi_Epoch (si_Instance s) ∧ pl_ExpiresAt lease = pi_ExpiresAt (si_Instance s);
  dw_lease id lease : ds_Leases st !! id = Some lease →
    id = pl_ID lease ∧ pl_Token lease ≠ "" ∧
    ∃ s, ds_Instances st !! instanceMapKey (pl_Key lease) = Some s ∧ si_LeaseID s = id;
  dw_epoch key s : ds_Instances st !! key = Some s →
    pi_Epoch (si_Instance s) ≤ default 0 (ds_Epochs st !! key);
  dw_epochs key : 0 ≤ default 0 (ds_Epochs st !! key) ≤ n;
  dw_length : (length (ds_Changes st) ≤ m)%nat ∧ Z.of_nat (length (ds_Changes st)) ≤ ds_Revision st;
  dw_changes i c : ds_Changes st !! i = Some c →
    pc_Revision c = ds_Revision st - Z.of_nat (length (ds_Changes st)) + 1 + Z.of_nat i ∧ change_kind_known (pc_Kind c);
}.

Context (Hm : (1 ≤ m)%nat).

Lemma dir_wf_new : dir_wf 0 newDirectoryState.
Proof.
  split; simpl; try done; intros *; rewrite ?lookup_empty; try done; simpl; lia.
Qed.

Lemma dir_wf_weaken n n' st : n ≤ n' → dir_wf n st → dir_wf n' st.
Proof.
  intros Hn [H1 H2 H3 H4 H5 H6 H7 H8]. split; try done; [lia|]. intros key. specialize (H6 key). lia.
Qed.

Lemma appendChange_changes st c : ds_Changes (appendChange st c m) = trunc m (ds_Changes st ++ [c]).
Proof.
  unfold appendChange, with_changes, trunc. simpl. case_match eqn:E; [done|].
  apply Nat.ltb_ge in E. by replace (_ - m)%nat with 0%nat by lia.
Qed.

(** The log after one change at the next revision. *)
Lemma changes_snoc n st c revision changes :
  dir_wf n st → revision = ds_Revision st + 1 → pc_Revision c = revision → change_kind_known (pc_Kind c) →
  changes = trunc m (ds_Changes st ++ [c]) →
  ((length changes ≤ m)%nat ∧ Z.of_nat (length changes) ≤ revision) ∧
  ∀ i x, changes !! i = Some x → pc_Revision x = revision - Z.of_nat (length changes) + 1 + Z.of_nat i ∧ change_kind_known (pc_Kind x).
Proof.
  intros Hwf -> Hc Hk ->. destruct (dw_length _ _ Hwf) as [Hl1 Hl2]. rewrite length_trunc, length_app. simpl.
  split; [lia|]. intros i x. unfold trunc. rewrite lookup_drop, length_app. simpl. intros [Hx|[Hge Hx]]%lookup_app_Some.
  - destruct (dw_changes _ _ Hwf _ _ Hx) as [-> ?]. apply lookup_lt_Some in Hx. split; [lia|done].
  - apply list_lookup_singleton_Some in Hx as [Hi <-]. split; [lia|done].
Qed.

(** *** Removing a lease *)

Lemma removeLease_ok n st id lease kind now :
  dir_wf n st → 2 * n < two64 → ds_Leases st !! id = Some lease → kind = ChangeDelete ∨ kind = ChangeExpire →
  let st' := removeLease st lease kind now m in
  dir_wf n st' ∧ (∃ c, evolves m [c] st st') ∧ ds_Leases st' = delete id (ds_Leases st) ∧
  ds_Instances st' = delete (instanceMapKey (pl_Key lease)) (ds_Instances st) ∧ ds_Epochs st' = ds_Epochs st.
Proof using Hm.
  intros Hwf Hn Hl Hkind. destruct (dw_lease _ _ Hwf _ _ Hl) as (-> & Htok & s & Hs & Hid).
  set (key := instanceMapKey (pl_Key lease)) in *. unfold removeLease. fold key. rewrite Hs.
  rewrite bool_decide_eq_false_2 by (intros Hne; by apply Hne).
  destruct (dw_instance _ _ Hwf _ _ Hs) as (Hnorm & Hkey & lease2 & Hl2 & Hlk & Hep & Hexp).
  destruct (dw_bound _ _ Hwf) as [Hr0 Hr1].
  assert (Z.of_nat (size (ds_Instances st)) = Z.of_nat (size (delete key (ds_Instances st))) + 1) as Hsize.
  { rewrite map_size_delete, Hs. simpl. assert (size (ds_Instances st) ≠ 0%nat); [|lia].
    intros H0%map_size_empty_inv. rewrite H0, lookup_empty in Hs. done. }
  rewrite u64_small by (unfold two64 in *; lia).
  set (c := {| pc_Revision := _; pc_Kind := kind; pc_Instance := _ |}).
  assert (change_kind_known kind) as Hkn by (by destruct Hkind as [-> | ->]).
  destruct (changes_snoc n st c _ _ Hwf eq_refl eq_refl Hkn eq_refl) as [Hlen Hch].
  assert (∀ i x, ds_Leases st !! i = Some x → i ≠ pl_ID lease → instanceMapKey (pl_Key x) ≠ key) as Hother.
  { intros i x Hx Hne Heq. destruct (dw_lease _ _ Hwf _ _ Hx) as (_ & _ & s' & Hs' & Hi'). rewrite Heq in Hs'. congruence. }
  simpl. split_and!; try done.
  - split; simpl; rewrite <-?appendChange_changes in *; cbn [appendChange with_changes ds_Changes] in *.
    + apply Hwf.
    + lia.
    + intros k s' [Hk Hs']%lookup_delete_Some. destruct (dw_instance _ _ Hwf _ _ Hs') as (? & Hkey' & l' & Hl' & ? & ? & ?).
      split_and!; [done|done|]. exists l'. split; [|done]. apply lookup_delete_Some. split; [|done].
      intros Heq. rewrite <-Heq in Hl'. assert (l' = lease) as -> by congruence. apply Hk. unfold key. congruence.
    + intros i x [Hi Hx]%lookup_delete_Some. destruct (dw_lease _ _ Hwf _ _ Hx) as (? & ? & s' & Hs' & ?).
      split_and!; [done|done|]. exists s'. split; [|done]. apply lookup_delete_Some. split; [|done].
      intros Heq. symmetry in Heq. by eapply Hother.
    + intros k s' [_ Hs']%lookup_delete_Some. by apply (dw_epoch _ _ Hwf).
    + apply Hwf.
    + exact Hlen.
    + exact Hch.
  - exists c. split; simpl; [done|by rewrite <-appendChange_changes|].
    unfold view, replay, apply_change. simpl. destruct Hkind as [-> | ->]; simpl; by rewrite Hkey, fmap_delete.
Qed.

(** *** Expiry *)

Lemma evolves_refl n st : dir_wf n st → evolves m [] st st.
Proof using Hm.
  intros Hwf. split; simpl; [lia| |done]. rewrite app_nil_r, trunc_short; [done|]. apply (dw_length _ _ Hwf).
Qed.

Lemma expire_fold n st now ids :
  dir_wf n st → 2 * n < two64 →
  let st' := foldl (expire_id now m) st ids in
  dir_wf n st' ∧ (∃ log, evolves m log st st') ∧
  (∀ i, ds_Leases st' !! i = if decide (i ∈ ids) then None else ds_Leases st !! i) ∧
  (∀ key s, ds_Instances st' !! key = Some s ↔ ds_Instances st !! key = Some s ∧ si_LeaseID s ∉ ids) ∧
  ds_Epochs st' = ds_Epochs st.
Proof using Hm.
  intros Hwf Hn. revert st Hwf. induction ids as [|id ids IH]; intros st Hwf.
  { cbn [foldl]. split_and!; [done|exists []; by eapply evolves_refl| | |done].
    - intros i. rewrite decide_False; [done|]. apply not_elem_of_nil.
    - intros key s. split; [|by intros [? _]]. intros. split; [done|]. apply not_elem_of_nil. }
  cbn [foldl]. destruct (ds_Leases st !! id) as [lease|] eqn:Hl.
  - assert (expire_id now m st id = expireLease st lease now m) as -> by (unfold expire_id; by rewrite Hl).
    destruct (removeLease_ok n st id lease ChangeExpire now Hwf Hn Hl (or_intror eq_refl)) as (Hwf1 & [c Hc] & HL & HI & HE).
    change (removeLease st lease ChangeExpire now m) with (expireLease st lease now m) in *.
    set (st1 := expireLease st lease now m) in *. destruct (IH st1 Hwf1) as (Hwf2 & [log Hlog] & HL2 & HI2 & HE2).
    destruct (dw_lease _ _ Hwf _ _ Hl) as (Hid & _ & s0 & Hs0 & Hsid).
    split_and!; [done|exists ([c] ++ log); by eapply evolves_trans| | |congruence].
    + intros i. rewrite HL2, HL. destruct (decide (i = id)) as [->|Hne].
      * rewrite lookup_delete_eq, (decide_True (P := id ∈ id :: ids)) by apply list_elem_of_here. by case_decide.
      * rewrite lookup_delete_ne by congruence. apply decide_ext. rewrite elem_of_cons. tauto.
    + intros key s. rewrite HI2, HI, lookup_delete_Some. split.
      * intros [[Hk Hs] Hni]. split; [done|]. rewrite not_elem_of_cons. split; [|done]. intros Heq.
        destruct (dw_instance _ _ Hwf _ _ Hs) as (_ & Hkey & l' & Hl' & Hlk & _). rewrite Heq in Hl'.
        apply Hk. rewrite <-Hkey, <-Hlk. congruence.
      * intros [Hs Hni]. rewrite not_elem_of_cons in Hni. destruct Hni as [Hne Hni]. split_and!; [|done|done].
        intros Heq. rewrite <-Heq, Hs0 in Hs. congruence.
  - assert (expire_id now m st id = st) as -> by (unfold expire_id; by rewrite Hl).
    destruct (IH st Hwf) as (Hwf2 & Hlog & HL2 & HI2 & HE2). split_and!; [done|done| | |done].
    + intros i. rewrite HL2. destruct (decide (i = id)) as [->|Hne].
      * rewrite Hl. by repeat case_decide.
      * apply decide_ext. rewrite elem_of_cons. tauto.
    + intros key s. rewrite HI2, not_elem_of_cons. split; [|tauto]. intros [Hs Hni]. split_and!; [done| |done].
      intros Heq. destruct (dw_instance _ _ Hwf _ _ Hs) as (_ & _ & l' & Hl' & _). congruence.
Qed.

Lemma elem_of_expired_ids st now id :
  id ∈ expired_ids st now ↔ ∃ lease, ds_Leases st !! id = Some lease ∧ lease_expired now lease = true.
Proof using.
  unfold expired_ids. rewrite elem_of_SortFunc, list_elem_of_omap. split.
  - intros ([i l] & Hin%elem_of_map_to_list & H). destruct (lease_expired now l) eqn:E; [|done].
    injection H as <-. eauto.
  - intros (l & Hl & He). exists (id, l). split; [by apply elem_of_map_to_list|]. by rewrite He.
Qed.

(** The instances that [pruneExpired] keeps are those whose lease is live. *)
Lemma prune_ok n st now b st' :
  dir_wf n st → 2 * n < two64 → pruneExpired st now m = (b, st') →
  dir_wf n st' ∧ (∃ log, evolves m log st st') ∧
  (∀ id l, ds_Leases st' !! id = Some l ↔ ds_Leases st !! id = Some l ∧ now < pl_ExpiresAt l) ∧
  (∀ key s, ds_Instances st' !! key = Some s ↔ ds_Instances st !! key = Some s ∧ now < pi_ExpiresAt (si_Instance s)) ∧
  ds_Epochs st' = ds_Epochs st.
Proof using Hm.
  intros Hwf Hn [= _ <-]. destruct (expire_fold n st now (expired_ids st now) Hwf Hn) as (H1 & H2 & HL & HI & HE).
  assert (∀ l, lease_expired now l = true ↔ ¬ now < pl_ExpiresAt l) as Hexp.
  { intros l. unfold lease_expired. rewrite negb_true_iff, After_false. lia. }
  split_and!; [done|done| | |done].
  - intros id l. rewrite HL. case_decide as Hin.
    + apply elem_of_expired_ids in Hin as (l' & Hl' & He%Hexp). split; [done|]. intros [Hl ?]. congruence.
    + split; [|by intros [? _]]. intros Hl. split; [done|].
      destruct (Z.lt_decidable now (pl_ExpiresAt l)) as [|Hx]; [done|]. destruct Hin. apply elem_of_expired_ids.
      exists l. split; [done|by apply Hexp].
  - intros key s. rewrite HI, elem_of_expired_ids. split; intros [Hs H]; split; try done;
      destruct (dw_instance _ _ Hwf _ _ Hs) as (_ & _ & l & Hl & _ & _ & Hle).
    + destruct (Z.lt_decidable now (pi_ExpiresAt (si_Instance s))) as [|Hx]; [done|]. destruct H. exists l.
      split; [done|]. apply Hexp. congruence.
    + intros (l' & Hl' & He%Hexp). apply He. congruence.
Qed.

(** *** Registration *)

Lemma normalizeRegistration_Ok registration r :
  normalizeRegistration url_Parse registration = Ok r →
  normalizeRegistration url_Parse r = Ok r ∧ validateKey (Registration_Key r) = Ok tt.
Proof using.
  unfold normalizeRegistration at 1. intros H. apply bind_Ok in H as ([] & Hkey & H).
  apply bind_Ok in H as ([] & Hman & H). inv_ok_step. apply bind_Ok in H as ([] & Huri & H).
  apply bind_Ok in H as ([] & Hlab & [= <-]). split; [|done]. unfold normalizeRegistration.
  set (r := {| rg_Namespace := string_default _ _ |}) in *.
  assert ({| rg_Namespace := string_default (TrimSpace (rg_Namespace r)) DefaultNamespace;
             rg_Name := TrimSpace (rg_Name r); rg_InstanceID := TrimSpace (rg_InstanceID r);
             rg_URI := TrimSpace (rg_URI r); rg_Manifest := rg_Manifest r; rg_Labels := rg_Labels r |} = r) as ->.
  { unfold r. simpl. rewrite !TrimSpace_idem. f_equal.
    unfold string_default. destruct (String.eqb (TrimSpace (rg_Namespace registration)) "") eqn:E; [done|].
    by rewrite TrimSpace_idem, E. }
  simpl in *. rewrite Hkey. simpl. rewrite Hman. simpl. rewrite Heqb. rewrite Huri. simpl. by rewrite Hlab.
Qed.

Definition raw_ok (raw : result (list N)) : Prop := ∀ bytes, raw = Ok bytes → length bytes = 32%nat.

(** What a successful registration adds to the pruned state. *)
Lemma register_ok n st registration ttl now raw e lease changed st' :
  dir_wf n st → 2 * (n + 1) < two64 → raw_ok raw → ds_Leases st !! NewID e = None →
  reg_register url_Parse st registration ttl now m raw e = (Ok lease, changed, st') →
  0 < ttl ∧ ∃ r b st1 c, normalizeRegistration url_Parse registration = Ok r ∧ pruneExpired st now m = (b, st1) ∧
    let key := instanceMapKey (Registration_Key r) in
    ds_Instances st1 !! key = None ∧ pl_ID lease = NewID e ∧ pl_Key lease = Registration_Key r ∧
    pl_ExpiresAt lease = now + ttl ∧ pl_Epoch lease = default 0 (ds_Epochs st !! key) + 1 ∧
    ds_Leases st' = <[NewID e := lease]> (ds_Leases st1) ∧
    ds_Epochs st' = <[key := pl_Epoch lease]> (ds_Epochs st) ∧
    evolves m [c] st1 st' ∧ dir_wf (n + 1) st'.
Proof using Hm.
  intros Hwf Hn Hraw Hfresh. unfold reg_register. destruct (ttl <=? 0) eqn:Httl; [done|]. apply Z.leb_gt in Httl.
  destruct (normalizeRegistration url_Parse registration) as [r|] eqn:Hr; [|done].
  destruct (pruneExpired st now m) as [b st1] eqn:Hpr.
  destruct (prune_ok n st now b st1 Hwf ltac:(lia) Hpr) as (Hwf1 & _ & HL & HI & HE).
  set (key := instanceMapKey (Registration_Key r)). case_bool_decide as Hex; [done|]. apply eq_None_not_Some in Hex.
  destruct raw as [bytes|]; [|done]. simpl. intros [= <- <- <-]. split; [done|].
  destruct (dw_bound _ _ Hwf1) as [Hr0 Hr1]. pose proof (dw_epochs _ _ Hwf1 key) as Hep.
  rewrite !u64_small by (unfold two64 in *; lia).
  set (c := {| pc_Revision := _; pc_Kind := ChangeUpsert; pc_Instance := _ |}).
  set (lease := {| pl_ID := _; pl_Token := _ |}).
  destruct (normalizeRegistration_Ok _ _ Hr) as [Hr' _].
  destruct (changes_snoc n st1 c _ _ Hwf1 eq_refl eq_refl I eq_refl) as [Hlen Hch].
  assert (ds_Leases st1 !! NewID e = None) as Hfresh1.
  { apply eq_None_not_Some. intros [l [Hl _]%HL]. congruence. }
  exists r, b, st1, c. split_and!; try done; [simpl; by rewrite HE|simpl; by rewrite HE| |].
  - split; simpl; [done|by rewrite <-appendChange_changes|]. unfold view, replay, apply_change. simpl.
    by rewrite fmap_insert.
  - split; simpl; rewrite <-?appendChange_changes in *; cbn [appendChange with_changes ds_Changes] in *.
    + apply Hwf1.
    + rewrite map_size_insert_None by done. lia.
    + intros k s [[<- <-]|[Hk Hs]]%lookup_insert_Some.
      * simpl. split_and!; [done|done|]. exists lease. by rewrite lookup_insert_eq.
      * destruct (dw_instance _ _ Hwf1 _ _ Hs) as (? & ? & l & Hl & ?). split_and!; [done|done|].
        exists l. split; [|done]. rewrite lookup_insert_ne; [done|]. intros Heq. by rewrite <-Heq, Hfresh1 in Hl.
    + intros i l [[<- <-]|[Hi Hl]]%lookup_insert_Some.
      * split_and!; [done| |]; [|simpl; rewrite lookup_insert_eq; eauto]. simpl. apply EncodeToString_nonempty.
        specialize (Hraw _ eq_refl). by destruct bytes.
      * destruct (dw_lease _ _ Hwf1 _ _ Hl) as (? & ? & s & Hs & ?). split_and!; [done|done|].
        exists s. split; [|done]. rewrite lookup_insert_ne; [done|]. intros Heq. by rewrite <-Heq, Hex in Hs.
    + intros k s [[<- <-]|[Hk Hs]]%lookup_insert_Some; simpl; [by rewrite lookup_insert_eq|].
      rewrite lookup_insert_ne by done. by apply (dw_epoch _ _ Hwf1).
    + intros k. destruct (decide (key = k)) as [<-|Hk]; [rewrite lookup_insert_eq; simpl; lia|].
      rewrite lookup_insert_ne by done. pose proof (dw_epochs _ _ Hwf1 k). lia.
    + exact Hlen.
    + exact Hch.
Qed.

(** A registration that fails only expires leases. *)
Lemma register_err n st registration ttl now raw e err changed st' :
  dir_wf n st → reg_register url_Parse st registration ttl now m raw e = (Err err, changed, st') →
  st' = st ∨ ∃ b, pruneExpired st now m = (b, st').
Proof using.
  intros Hwf. unfold reg_register. destruct (ttl <=? 0); [intros [= _ _ <-]; by left|].
  destruct (normalizeRegistration url_Parse registration) as [r|]; [|intros [= _ _ <-]; by left].
  destruct (pruneExpired st now m) as [b st1] eqn:Hpr. case_bool_decide; [intros [= _ _ <-]; eauto|].
  destruct (newLeaseToken raw); [done|]. intros [= _ _ <-]. eauto.
Qed.

(** *** Renewal *)

Lemma renew_ok n st credential ttl now lease changed st' :
  dir_wf n st → reg_renew st credential ttl now m = (Ok lease, changed, st') →
  0 < ttl ∧ ∃ old s,
    ds_Leases st !! lc_ID credential = Some old ∧ now < pl_ExpiresAt old ∧ pl_Token old = lc_Token credential ∧
    ds_Instances st !! instanceMapKey (pl_Key old) = Some s ∧
    pl_ID lease = lc_ID credential ∧ pl_Key lease = pl_Key old ∧ pl_Epoch lease = pl_Epoch old ∧
    pl_ExpiresAt lease = now + ttl ∧ pl_Token lease = pl_Token old ∧
    ds_Leases st' = <[lc_ID credential := lease]> (ds_Leases st) ∧ ds_Epochs st' = ds_Epochs st ∧
    evolves m [] st st' ∧ dir_wf n st'.
Proof using Hm.
  intros Hwf. unfold reg_renew. destruct (ttl <=? 0) eqn:Httl; [done|]. apply Z.leb_gt in Httl.
  destruct (ds_Leases st !! lc_ID credential) as [old|] eqn:Hl; [|done].
  destruct (lease_expired now old) eqn:Hexp; [done|]. destruct (negb _) eqn:Htok; [done|].
  destruct (ds_Instances st !! instanceMapKey (pl_Key old)) as [s|] eqn:Hs; [|done].
  case_bool_decide as Hid; [done|]. intros [= <- <- <-]. split; [done|].
  unfold lease_expired in Hexp. unfold validLeaseToken in Htok. destruct (_ || _) in Htok; [done|]. gobool.
  destruct (dw_lease _ _ Hwf _ _ Hl) as (Hold & Htk & s' & Hs' & Hsid). assert (s' = s) as -> by congruence.
  destruct (dw_instance _ _ Hwf _ _ Hs) as (Hn & Hkey & l & Hll & Hlk & Hle & Hlx).
  set (lease := {| pl_ID := _ |}). exists old, s. split_and!; try done.
  - split; simpl; [lia| |].
    + rewrite app_nil_r, trunc_short; [done|]. apply (dw_length _ _ Hwf).
    + unfold view, replay. simpl. rewrite fmap_insert. apply insert_id. by rewrite lookup_fmap, Hs.
  - split; simpl.
    + apply Hwf.
    + rewrite map_size_insert_Some by (by eexists). apply Hwf.
    + intros k x [[<- <-]|[Hk Hx]]%lookup_insert_Some.
      * simpl. split_and!; [done|done|]. exists lease. rewrite Hsid, lookup_insert_eq. split_and!; [done| | |done].
        -- simpl. congruence.
        -- simpl. congruence.
      * destruct (dw_instance _ _ Hwf _ _ Hx) as (? & Hkx & l' & Hl' & Hlk' & ?). split_and!; [done|done|].
        exists l'. split; [|done]. rewrite lookup_insert_ne; [done|]. intros Heq. apply Hk.
        rewrite <-Heq in Hl'. rewrite <-Hkx, <-Hlk'. congruence.
    + intros i x [[<- <-]|[Hi Hx]]%lookup_insert_Some.
      * simpl. split_and!; [done|done|]. rewrite lookup_insert_eq. eauto.
      * destruct (dw_lease _ _ Hwf _ _ Hx) as (? & ? & s2 & Hs2 & Hid2). split_and!; [done|done|].
        destruct (decide (instanceMapKey (pl_Key old) = instanceMapKey (pl_Key x))) as [Heq|Hne].
        -- rewrite <-Heq in Hs2. congruence.
        -- exists s2. by rewrite lookup_insert_ne.
    + intros k x [[<- <-]|[Hk Hx]]%lookup_insert_Some; [by apply (dw_epoch _ _ Hwf) in Hs|by apply (dw_epoch _ _ Hwf)].
    + apply Hwf.
    + apply Hwf.
    + apply Hwf.
Qed.
End wf.
