(* ===== verification/RegistryProperties.v ===== *)
(** The properties of the plugin directory over every run of its operations. *)

From S2P Require Import Prelude GoText Names Base64 Registry RegistryInvariant.

(** ** Runs

    [dir_step minted k st st']: one call that minted the given lease IDs and made [k] registrations.
    A minted ID is not the ID of a live lease, and a token is made of 32 bytes. *)

Section runs.
Context (url_Parse : string → result URL) (m : nat).

Inductive dir_step : list string → Z → directoryState → directoryState → Prop :=
  | step_register st registration ttl now raw e :
      raw_ok raw → ds_Leases st !! NewID e = None →
      dir_step [NewID e] 1 st (reg_register url_Parse st registration ttl now m raw e).2
  | step_renew st credential ttl now : dir_step [] 0 st (reg_renew st credential ttl now m).2
  | step_unregister st credential now : dir_step [] 0 st (reg_unregister st credential now m).2
  | step_get st key now : dir_step [] 0 st (reg_get st key now m).2
  | step_list st query request now : dir_step [] 0 st (reg_list st query request now m).2
  | step_poll st request now : dir_step [] 0 st (reg_poll st request now m).2.

Inductive dir_run : list string → Z → directoryState → directoryState → Prop :=
  | run_refl st : dir_run [] 0 st st
  | run_step minted k st1 st2 ids j st3 :
      dir_run minted k st1 st2 → dir_step ids j st2 st3 → dir_run (minted ++ ids) (k + j) st1 st3.

Definition dir_reach (n : Z) (st : directoryState) : Prop := ∃ minted, dir_run minted n newDirectoryState st.

Context (Hm : (1 ≤ m)%nat).

(** What a call keeps: the invariant, the log, and that a lease gone stays gone. *)
Record step_ok (minted : list string) (n k : Z) (st st' : directoryState) : Prop := {
  so_wf : dir_wf url_Parse m (n + k) st';
  so_log : ∃ log, evolves m log st st';
  so_gone id : id ∉ minted → ds_Leases st !! id = None → ds_Leases st' !! id = None;
  so_epochs key : default 0 (ds_Epochs st !! key) ≤ default 0 (ds_Epochs st' !! key);
}.

Lemma step_ok_refl n st : dir_wf url_Parse m n st → step_ok [] n 0 st st.
Proof using Hm.
  intros Hwf. split; [by rewrite Z.add_0_r|exists []; by eapply evolves_refl|done|done].
Qed.

Lemma step_ok_prune n st now b st' :
  dir_wf url_Parse m n st → 2 * n < two64 → pruneExpired st now m = (b, st') → step_ok [] n 0 st st'.
Proof using Hm.
  intros Hwf Hn H. destruct (prune_ok url_Parse m Hm n st now b st' Hwf Hn H) as (Hwf' & Hlog & HL & _ & HE). split.
  - by rewrite Z.add_0_r.
  - done.
  - intros id _ Hid. apply eq_None_not_Some. intros [l [Hl _]%HL]. congruence.
  - intros key. by rewrite HE.
Qed.

Lemma step_ok_remove n st id lease kind now :
  dir_wf url_Parse m n st → 2 * n < two64 → ds_Leases st !! id = Some lease →
  kind = ChangeDelete ∨ kind = ChangeExpire → step_ok [] n 0 st (removeLease st lease kind now m).
Proof using Hm.
  intros Hwf Hn Hl Hk. destruct (removeLease_ok url_Parse m Hm n st id lease kind now Hwf Hn Hl Hk)
    as (Hwf' & [c Hc] & HL & _ & HE). split.
  - by rewrite Z.add_0_r.
  - eauto.
  - intros i _ Hi. rewrite HL. apply lookup_delete_None. by right.
  - intros key. by rewrite HE.
Qed.

Lemma step_ok_trans n k minted ids st1 st2 st3 j :
  step_ok minted n k st1 st2 → step_ok ids (n + k) j st2 st3 → step_ok (minted ++ ids) n (k + j) st1 st3.
Proof using Hm.
  intros [W1 [l1 L1] G1 E1] [W2 [l2 L2] G2 E2]. split.
  - by rewrite Z.add_assoc.
  - exists (l1 ++ l2). by eapply evolves_trans.
  - intros id Hid H. rewrite not_elem_of_app in Hid. apply G2; [tauto|]. apply G1; tauto.
  - intros key. specialize (E1 key). specialize (E2 key). lia.
Qed.

Lemma dir_step_ok minted n k st st' :
  dir_wf url_Parse m n st → 2 * (n + k) < two64 → dir_step minted k st st' → step_ok minted n k st st'.
Proof using Hm.
  intros Hwf Hn H. destruct H as [st registration ttl now raw e Hraw Hfresh|st cr ttl now|st cr now|st key now
    |st query request now|st request now].
  - destruct (reg_register url_Parse st registration ttl now m raw e) as [[[lease|err] ch] st'] eqn:H; simpl.
    + destruct (register_ok url_Parse m Hm n st registration ttl now raw e lease ch st' Hwf Hn Hraw Hfresh H)
        as (_ & r & b & st1 & c & _ & Hpr & _ & Hid & _ & _ & Hep & HL & HE & Hev & Hwf').
      destruct (step_ok_prune n st now b st1 Hwf ltac:(lia) Hpr) as [_ [log Hlog] Hgone Heps]. split.
      * done.
      * exists (log ++ [c]). by eapply evolves_trans.
      * intros i Hi Hnone. rewrite HL. rewrite lookup_insert_ne; [|intros Heq; apply Hi; rewrite Heq; apply list_elem_of_here].
        apply Hgone; [apply not_elem_of_nil|done].
      * intros key. rewrite HE. destruct (decide (instanceMapKey (Registration_Key r) = key)) as [<-|Hne].
        -- rewrite lookup_insert_eq, Hep. simpl. lia.
        -- by rewrite lookup_insert_ne.
    + destruct (register_err url_Parse m n st registration ttl now raw e err ch st' Hwf H) as [->|[b Hpr]].
      * destruct (step_ok_refl n st Hwf) as [W L G E]. split; [|done|intros i _ Hi; by apply G; [apply not_elem_of_nil|]|done].
        eapply (dir_wf_weaken url_Parse m Hm n); [lia|]. by rewrite Z.add_0_r in W.
      * destruct (step_ok_prune n st now b st' Hwf ltac:(lia) Hpr) as [W L G E]. split; [|done| |done].
        -- eapply (dir_wf_weaken url_Parse m Hm n); [lia|]. by rewrite Z.add_0_r in W.
        -- intros i _ Hi. by apply G; [apply not_elem_of_nil|].
  - destruct (reg_renew st cr ttl now m) as [[[lease|err] ch] st'] eqn:H; simpl.
    + destruct (renew_ok url_Parse m Hm n st cr ttl now lease ch st' Hwf H)
        as (_ & old & s & Hl & _ & _ & _ & _ & _ & _ & _ & _ & HL & HE & Hev & Hwf'). split.
      * by rewrite Z.add_0_r.
      * eauto.
      * intros i _ Hi. rewrite HL, lookup_insert_ne; [done|congruence].
      * intros key. by rewrite HE.
    + unfold reg_renew in H. destruct (ttl <=? 0); [injection H as _ _ <-; by apply step_ok_refl|].
      destruct (ds_Leases st !! lc_ID cr) as [l|] eqn:Hl; [|injection H as _ _ <-; by apply step_ok_refl].
      destruct (lease_expired now l); [injection H as _ _ <-; eapply step_ok_remove; [done|lia|done|by right]|].
      destruct (negb _); [injection H as _ _ <-; by apply step_ok_refl|].
      destruct (ds_Instances st !! _); [|injection H as _ _ <-; by apply step_ok_refl].
      case_bool_decide; [injection H as _ _ <-; by apply step_ok_refl|done].
  - unfold reg_unregister. destruct (ds_Leases st !! lc_ID cr) as [l|] eqn:Hl; [|by apply step_ok_refl].
    destruct (lease_expired now l); [eapply step_ok_remove; [done|lia|done|by right]|].
    destruct (negb _); [by apply step_ok_refl|]. eapply step_ok_remove; [done|lia|done|by left].
  - unfold reg_get. destruct (validateKey _); [|by apply step_ok_refl].
    destruct (pruneExpired st now m) as [b st'] eqn:Hpr.
    assert (step_ok [] n 0 st st') by (eapply step_ok_prune; [done|lia|done]). by case_match.
  - unfold reg_list. destruct (normalizeQuery _); [|by apply step_ok_refl].
    destruct (reg_validatePage _) as [[limit after]|]; [|by apply step_ok_refl].
    destruct (pruneExpired st now m) as [b st'] eqn:Hpr. eapply step_ok_prune; [done|lia|done].
  - unfold reg_poll. destruct (validatePoll _) as [r|]; [|by apply step_ok_refl].
    destruct (pruneExpired st now m) as [b st'] eqn:Hpr.
    assert (step_ok [] n 0 st st') by (eapply step_ok_prune; [done|lia|done]).
    destruct (_ >? _); [done|]. destruct (_ && _); [done|]. by destruct (poll_loop _ _ _ _ _).
Qed.

Lemma dir_step_count minted k st st' : dir_step minted k st st' → 0 ≤ k.
Proof using. by destruct 1. Qed.

Lemma dir_run_ok minted n k st st' :
  dir_wf url_Parse m n st → 2 * (n + k) < two64 → dir_run minted k st st' → step_ok minted n k st st'.
Proof using Hm.
  intros Hwf Hn H. induction H as [st|minted k st1 st2 ids j st3 H IH Hs]; [by apply step_ok_refl|].
  pose proof (dir_step_count _ _ _ _ Hs). assert (step_ok minted n k st1 st2) as H12 by (apply IH; [done|lia]).
  eapply step_ok_trans; [done|]. apply dir_step_ok; [apply H12|lia|done].
Qed.

Lemma dir_reach_wf n st : 2 * n < two64 → dir_reach n st → dir_wf url_Parse m n st.
Proof using Hm.
  intros Hn [minted H]. apply (dir_run_ok minted 0 n newDirectoryState st (dir_wf_new url_Parse m Hm) Hn H).
Qed.
End runs.

(** ** Lemmas for the theorems *)

Lemma all_ok_Ok {A} (check : A → result unit) l : (∀ x, x ∈ l → check x = Ok tt) → all_ok check l = Ok tt.
Proof.
  induction l as [|x l IH]; intros H; [done|]. cbn [all_ok]. rewrite H by set_solver. simpl.
  apply IH. intros. apply H. set_solver.
Qed.

Lemma check_changes_Ok current base revision changes :
  revision < base → base + Z.of_nat (length changes) ≤ current + 1 →
  (∀ i c, changes !! i = Some c → pc_Revision c = base + Z.of_nat i ∧ change_kind_known (pc_Kind c)) →
  check_changes current revision changes = Ok tt.
Proof.
  revert base revision. induction changes as [|c changes IH]; intros base revision Hr Hl Hall; [done|].
  cbn [check_changes]. destruct (Hall 0%nat c eq_refl) as [Hc Hk]. simpl in Hl.
  rewrite (proj2 (Z.leb_gt _ _)), Z.gtb_ltb, (proj2 (Z.ltb_ge _ _)) by lia. simpl.
  assert (check_changes current (pc_Revision c) changes = Ok tt) as Hrest.
  { apply (IH (base + 1)); [lia|lia|]. intros i x Hx. destruct (Hall (S i) x Hx) as [-> ?]. split; [lia|done]. }
  by destruct (pc_Kind c).
Qed.

Lemma validateKey_Ok key u :
  validateKey key = Ok u →
  valid_name (ik_Namespace key) ∧ valid_name (ik_Name key) ∧ valid_name (ik_InstanceID key).
Proof.
  unfold validateKey. intros (? & H1%ValidateResourceName_Ok & H)%bind_Ok.
  apply bind_Ok in H as (? & H2%ValidateResourceName_Ok & H3%ValidateResourceName_Ok). done.
Qed.

(** Different valid keys have different map keys. *)
Lemma instanceMapKey_inj k1 k2 u1 u2 :
  validateKey k1 = Ok u1 → validateKey k2 = Ok u2 → instanceMapKey k1 = instanceMapKey k2 → k1 = k2.
Proof.
  intros (H1 & H2 & _)%validateKey_Ok (H3 & H4 & _)%validateKey_Ok H. unfold instanceMapKey in H.
  apply NUL_split in H as [Hn H]; [|by apply valid_name_no_NUL..].
  apply NUL_split in H as [Hm Hi]; [|by apply valid_name_no_NUL..].
  destruct k1, k2; simpl in *. congruence.
Qed.

(** The query that every instance matches. *)
Definition any_query : DiscoveryQuery :=
  {| dq_Namespace := ""; dq_Name := ""; dq_Version := ""; dq_Resource := ""; dq_Labels := ∅ |}.

Lemma any_query_normal : normalizeQuery any_query = Ok any_query.
Proof. reflexivity. Qed.

Lemma any_query_matches instance : reg_matches instance any_query = true.
Proof. done. Qed.

Lemma poll_loop_all query after limit collected changes :
  (∀ i, reg_matches i query = true) → (length collected < limit)%nat →
  let l := filter (λ c, after < pc_Revision c) changes in
  (∃ stop, poll_loop query after limit collected changes = (collected ++ l, stop)) ∨
  (∃ page, poll_loop query after limit collected changes = (collected ++ page, pc_Revision <$> last page) ∧
     page `prefix_of` l ∧ page ≠ []).
Proof.
  intros Hq. revert collected. induction changes as [|c changes IH]; intros collected Hlen.
  { left. exists None. simpl. by rewrite app_nil_r. }
  cbn [poll_loop]. rewrite filter_cons. destruct (Z.leb_spec (pc_Revision c) after) as [Hle|Hgt].
  - rewrite decide_False by lia. by apply IH.
  - rewrite decide_True, Hq by lia. destruct (Nat.eqb_spec (length (collected ++ [c])) limit) as [Hfull|Hmore].
    + right. exists [c]. split_and!; [done| |done]. by exists (filter (λ c, after < pc_Revision c) changes).
    + destruct (IH (collected ++ [c])) as [[stop Hs]|(page & Hp & Hpre & Hne)].
      * rewrite length_app in *. simpl in *. lia.
      * left. exists stop. by rewrite Hs, <-app_assoc.
      * right. exists (c :: page). rewrite Hp, <-app_assoc. split_and!; [|by apply prefix_cons|done].
        f_equal. f_equal. rewrite last_cons. by destruct page as [|x page _] using rev_ind; [|rewrite last_snoc].
Qed.

(** The changes after a revision that the log still reaches. *)
Lemma log_after url_Parse m n log st1 st3 :
  (1 ≤ m)%nat → dir_wf url_Parse m n st3 → evolves m log st1 st3 →
  match ds_Changes st3 with c :: _ => pc_Revision c ≤ ds_Revision st1 + 1 | [] => True end →
  (∃ pre, ds_Changes st3 = pre ++ log) ∧ filter (λ c, ds_Revision st1 < pc_Revision c) (ds_Changes st3) = log.
Proof.
  intros Hm Hwf Hev Hfirst. destruct Hev as [Hrev Hch _]. pose proof (dw_changes _ _ _ _ Hwf) as Hall.
  assert (∃ pre, ds_Changes st3 = pre ++ log) as [pre Hpre].
  { assert (length log ≤ length (ds_Changes st3))%nat as Hlen.
    { destruct (ds_Changes st3) as [|c rest] eqn:E.
      - apply (f_equal length) in Hch. rewrite length_trunc, length_app in Hch. simpl in Hch. lia.
      - destruct (Hall 0%nat c eq_refl) as [Hc _]. lia. }
    rewrite Hch in *. rewrite length_trunc, length_app in Hlen. unfold trunc in *. rewrite length_app in *.
    exists (drop (length (ds_Changes st1) + length log - m) (ds_Changes st1)).
    apply drop_app_le. lia. }
  split; [by exists pre|]. rewrite Hpre, filter_app in *.
  assert (∀ c, c ∈ pre → ¬ ds_Revision st1 < pc_Revision c) as H1.
  { intros c [i Hi]%list_elem_of_lookup. assert ((pre ++ log) !! i = Some c) as Hi' by (by apply lookup_app_l_Some).
    apply Hall in Hi' as [-> _]. apply lookup_lt_Some in Hi. rewrite length_app. lia. }
  assert (∀ c, c ∈ log → ds_Revision st1 < pc_Revision c) as H2.
  { intros c [i Hi]%list_elem_of_lookup. assert ((pre ++ log) !! (length pre + i)%nat = Some c) as Hi'
      by (rewrite lookup_app_r by lia; rewrite <-Hi; f_equal; lia).
    apply Hall in Hi' as [-> _]. rewrite length_app. lia. }
  assert (filter (λ c, ds_Revision st1 < pc_Revision c) pre = []) as ->.
  { clear -H1. induction pre as [|c pre IH]; [done|]. rewrite filter_cons, decide_False by (apply H1; set_solver).
    apply IH. intros. apply H1. set_solver. }
  simpl. clear -H2. induction log as [|c log IH]; [done|]. rewrite filter_cons, decide_True by (apply H2; set_solver).
  f_equal. apply IH. intros. apply H2. set_solver.
Qed.

(** ** Theorems *)

(** Every state the directory reaches is one that it would accept when reading it back: instances,
    leases, epochs and the change log pass [validate]. *)
Theorem registry_state_valid url_Parse m n st :
  (1 ≤ m)%nat → 2 * n < two64 → dir_reach url_Parse m n st → reg_validate url_Parse st = Ok tt.
Proof.
  intros Hm Hn H. apply (dir_reach_wf url_Parse m Hm n st Hn) in H. unfold reg_validate.
  assert (reg_normalize st = st) as ->.
  { unfold reg_normalize. pose proof (dw_schema _ _ _ _ H) as Hs. destruct st. simpl in *. by subst. }
  rewrite (dw_schema _ _ _ _ H), Z.gtb_ltb, Z.ltb_irrefl. rewrite all_ok_Ok.
  - simpl. rewrite all_ok_Ok.
    + simpl. destruct (dw_length _ _ _ _ H). eapply check_changes_Ok; [| |apply H]; lia.
    + intros [id lease] Hin%elem_of_map_to_list. destruct (dw_lease _ _ _ _ H _ _ Hin) as (-> & Ht & s & Hs & Hid).
      unfold check_lease. rewrite bool_decide_eq_false_2 by (intros Hne; by apply Hne).
      rewrite (proj2 (is_empty_false _) Ht). simpl. rewrite Hs, Hid.
      by rewrite bool_decide_eq_false_2 by (intros Hne; by apply Hne).
  - intros [key s] Hin%elem_of_map_to_list.
    destruct (dw_instance _ _ _ _ H _ _ Hin) as (Hn1 & Hk & lease & Hl & Hlk & Hle & Hlx). unfold check_instance.
    rewrite Hn1, Hk, Hl, Hlk, Hle, Hlx. rewrite !bool_decide_eq_false_2 by (intros Hne; by apply Hne).
    rewrite !Z.eqb_refl. simpl. pose proof (dw_epoch _ _ _ _ H _ _ Hin). by rewrite (proj2 (Z.ltb_ge _ _)) by done.
Qed.

(** C34. Watching is complete: a client that knows the registrations and epochs of all instances at some positive
    revision and polls from it without a filter, with any number of calls of other clients in between, either is
    told that its cursor expired, which only happens when the log no longer holds all changes since, or receives a
    page; and when the page reaches the current revision, replaying its changes gives exactly the instances
    registered now, with their registrations and epochs.  When they were last renewed and when they expire is not
    part of what is followed: renewals make no change. *)
Theorem registry_watch_complete url_Parse m n st1 minted k st2 request now r changed st3 :
  (1 ≤ m)%nat → 0 ≤ n → 2 * (n + k) < two64 - 1 → dir_reach url_Parse m n st1 →
  dir_run url_Parse m minted k st1 st2 → 0 < ds_Revision st1 →
  cp_AfterRevision request = ds_Revision st1 → cp_Query request = any_query →
  1 ≤ cp_Limit request ≤ reg_MaxPageSize → 0 ≤ cp_Wait request →
  reg_poll st2 request now m = (r, changed, st3) →
  match r with
  | Ok page => cg_NextRevision page = cg_CurrentRevision page → replay (view st1) (cg_Changes page) = view st3
  | Err err => errors_Is err ErrCursorExpired = true ∧ Z.of_nat m < ds_Revision st3 - ds_Revision st1
  end.
Proof.
  intros Hm Hn0 Hn Hreach Hrun Hpos Hafter Hq Hlim Hwait H.
  assert (0 ≤ k) as Hk0 by (clear -Hrun; induction Hrun; [lia|]; pose proof (dir_step_count _ _ _ _ _ _ H); lia).
  pose proof (dir_reach_wf url_Parse m Hm n st1 ltac:(lia) Hreach) as Hwf1.
  destruct (dir_run_ok url_Parse m Hm minted n k st1 st2 Hwf1 ltac:(lia) Hrun) as [Hwf2 [log1 Hlog1] _ _].
  assert (validatePoll request = Ok request) as Hvp.
  { unfold validatePoll. rewrite Hq, any_query_normal. simpl.
    rewrite (proj2 (Z.eqb_neq _ _)), (proj2 (Z.ltb_ge _ _)), Z.gtb_ltb, (proj2 (Z.ltb_ge reg_MaxPageSize _)),
      (proj2 (Z.ltb_ge (cp_Wait request) 0)) by lia. simpl. destruct request. simpl in *. by subst. }
  destruct (pruneExpired st2 now m) as [b st3'] eqn:Hpr. unfold reg_poll in H. rewrite Hvp, Hpr in H.
  destruct (prune_ok url_Parse m Hm (n + k) st2 now b st3' Hwf2 ltac:(lia) Hpr) as (Hwf3 & [log2 Hlog2] & _).
  pose proof (evolves_trans _ _ _ _ _ _ Hlog1 Hlog2) as Hev. set (log := log1 ++ log2) in *.
  pose proof (ev_revision _ _ _ _ Hev) as Hrev. destruct (dw_bound _ _ _ _ Hwf3) as [Hb0 Hb1].
  rewrite Hafter, Hq in H. rewrite Z.gtb_ltb, (proj2 (Z.ltb_ge (ds_Revision st3') (ds_Revision st1))), (proj2 (Z.ltb_lt 0 (ds_Revision st1))) in H by lia. simpl in H.
  destruct (match ds_Changes st3' with c :: _ => u64 (ds_Revision st1 + 1) <? pc_Revision c | [] => false end) eqn:Hexp.
  { injection H as <- _ <-. simpl. split; [done|]. destruct (ds_Changes st3') as [|c rest] eqn:E; [done|].
    rewrite u64_small in Hexp by (unfold two64 in *; lia). apply Z.ltb_lt in Hexp.
    destruct (dw_changes _ _ _ _ Hwf3 0%nat c) as [Hc _]; [by rewrite E|]. rewrite E in Hc. destruct Hev as [_ Hch _].
    rewrite E in Hch. apply (f_equal length) in Hch. rewrite length_trunc, length_app in Hch. lia. }
  destruct (log_after url_Parse m (n + k) log st1 st3' Hm Hwf3 Hev) as [[pre Hpre] Hfil].
  { destruct (ds_Changes st3'); [done|]. rewrite u64_small in Hexp by (unfold two64 in *; lia). lia. }
  destruct (poll_loop_all any_query (ds_Revision st1) (Z.to_nat (cp_Limit request)) [] (ds_Changes st3') any_query_matches)
    as [[stop Hp]|(page & Hp & [rest Hpage] & Hne)]; [simpl; lia| |]; rewrite Hp in H; injection H as <- _ <-; simpl.
  - intros _. rewrite Hfil. symmetry. apply Hev.
  - intros Hnext. rewrite Hfil in Hpage. assert (rest = []) as ->.
    { destruct page as [|x page _] using rev_ind; [done|]. rewrite last_snoc in Hnext. simpl in Hnext.
      assert (ds_Changes st3' !! (length pre + length page)%nat = Some x) as Hx.
      { rewrite Hpre, Hpage, lookup_app_r by lia. rewrite lookup_app_l by (rewrite length_app; simpl; lia).
        rewrite lookup_app_r by lia. by replace (length pre + length page - length pre - length page)%nat with 0%nat by lia. }
      destruct (dw_changes _ _ _ _ Hwf3 _ _ Hx) as [Hxr _]. rewrite Hpre, Hpage, !length_app in Hxr. simpl in Hxr.
      apply length_zero_iff_nil. lia. }
    rewrite app_nil_r in Hpage. rewrite <-Hpage. symmetry. apply Hev.
Qed.

(** [Get] returns an instance exactly while its lease is live, and the instance it returns is the one
    registered under that key. *)
Theorem registry_get_live url_Parse m n st key now instance :
  (1 ≤ m)%nat → 2 * n < two64 → dir_reach url_Parse m n st → validateKey key = Ok tt →
  ((reg_get st key now m).1.1 = Ok instance ↔
     ∃ s, ds_Instances st !! instanceMapKey key = Some s ∧ si_Instance s = instance ∧ now < pi_ExpiresAt instance) ∧
  ((reg_get st key now m).1.1 = Ok instance → Registration_Key (pi_Registration instance) = key).
Proof.
  intros Hm Hn H Hkey. pose proof (dir_reach_wf url_Parse m Hm n st Hn H) as Hwf.
  destruct (pruneExpired st now m) as [b st'] eqn:Hpr.
  destruct (prune_ok url_Parse m Hm n st now b st' Hwf Hn Hpr) as (_ & _ & _ & HI & _).
  assert (reg_get st key now m = match ds_Instances st' !! instanceMapKey key with
    | None => (Err (Wrapf "%w: %s" [AStr (InstanceKey_String key)] (Sentinel ErrInstanceNotFound)), b, st')
    | Some stored => (Ok (si_Instance stored), b, st') end) as Hget.
  { unfold reg_get. destruct (validateKey_Ok _ _ Hkey) as (Hns & _).
    assert (blank (ik_Namespace key) = false) as ->.
    { unfold blank. apply is_empty_false. rewrite (TrimSpace_name _ Hns). by apply valid_name_nonempty. }
    destruct key as [ns nm ii]. cbn [ik_Namespace ik_Name ik_InstanceID] in *. rewrite Hkey, Hpr. done. }
  rewrite Hget. destruct (ds_Instances st' !! instanceMapKey key) as [s|] eqn:Hs; simpl.
  - apply HI in Hs as [Hs Hlive]. split.
    + split; [intros [= <-]; eauto|]. intros (s' & Hs' & <- & _). congruence.
    + intros [= <-]. destruct (dw_instance _ _ _ _ Hwf _ _ Hs) as (Hnr & Hmk & _).
      apply normalizeRegistration_Ok in Hnr as [_ Hvk]. by eapply instanceMapKey_inj.
  - split; [|done]. split; [done|]. intros (s & Hs' & <- & Hlive). exfalso.
    assert (ds_Instances st' !! instanceMapKey key = Some s) by (apply HI; done). congruence.
Qed.

(** A lease that was given up is dead: after a successful [Unregister], no sequence of calls that
    does not mint its ID again makes a renewal or a second removal with it succeed; both report
    [ErrLeaseNotFound]. *)
Theorem registry_lease_revoked url_Parse m n st credential now changed st1 minted k st2 ttl now2 :
  (1 ≤ m)%nat → 0 ≤ n → 2 * (n + k) < two64 → dir_reach url_Parse m n st →
  reg_unregister st credential now m = (Ok tt, changed, st1) →
  dir_run url_Parse m minted k st1 st2 → lc_ID credential ∉ minted → 0 < ttl →
  (∃ err, (reg_renew st2 credential ttl now2 m).1.1 = Err err ∧ errors_Is err ErrLeaseNotFound = true) ∧
  (∃ err, (reg_unregister st2 credential now2 m).1.1 = Err err ∧ errors_Is err ErrLeaseNotFound = true).
Proof.
  intros Hm Hn0 Hn Hreach Hun Hrun Hid Httl.
  assert (0 ≤ k) as Hk0 by (clear -Hrun; induction Hrun; [lia|]; pose proof (dir_step_count _ _ _ _ _ _ H); lia).
  pose proof (dir_reach_wf url_Parse m Hm n st ltac:(lia) Hreach) as Hwf.
  unfold reg_unregister in Hun. destruct (ds_Leases st !! lc_ID credential) as [l|] eqn:Hl; [|done].
  destruct (lease_expired now l); [done|]. destruct (negb _); [done|]. injection Hun as _ <-.
  destruct (removeLease_ok url_Parse m Hm n st (lc_ID credential) l ChangeDelete now Hwf ltac:(lia) Hl (or_introl eq_refl))
    as (Hwf1 & _ & HL & _).
  assert (ds_Leases st2 !! lc_ID credential = None) as Hgone.
  { apply (so_gone _ _ _ _ _ _ _ (dir_run_ok url_Parse m Hm minted n k _ st2 Hwf1 Hn Hrun)); [done|].
    rewrite HL. apply lookup_delete_eq. }
  unfold reg_renew, reg_unregister. rewrite (proj2 (Z.leb_gt ttl 0)), Hgone by lia. simpl. split; eauto.
Qed.

(** Epochs fence restarts: when a key is registered again, after its lease expired or was given up,
    the new lease has a larger epoch than the old one. *)
Theorem registry_epoch_increases url_Parse m n st r1 ttl1 now1 raw1 e1 lease1 c1 st1 minted k st2
    r2 ttl2 now2 raw2 e2 lease2 c2 st3 :
  (1 ≤ m)%nat → 0 ≤ n → 2 * (n + 1 + k + 1) < two64 → dir_reach url_Parse m n st →
  raw_ok raw1 → ds_Leases st !! NewID e1 = None →
  reg_register url_Parse st r1 ttl1 now1 m raw1 e1 = (Ok lease1, c1, st1) →
  dir_run url_Parse m minted k st1 st2 → raw_ok raw2 → ds_Leases st2 !! NewID e2 = None →
  reg_register url_Parse st2 r2 ttl2 now2 m raw2 e2 = (Ok lease2, c2, st3) →
  pl_Key lease1 = pl_Key lease2 → pl_Epoch lease1 < pl_Epoch lease2.
Proof.
  intros Hm Hn0 Hn Hreach Hraw1 Hf1 H1 Hrun Hraw2 Hf2 H2 Hkey.
  assert (0 ≤ k) as Hk0 by (clear -Hrun; induction Hrun; [lia|]; pose proof (dir_step_count _ _ _ _ _ _ H); lia).
  pose proof (dir_reach_wf url_Parse m Hm n st ltac:(lia) Hreach) as Hwf.
  destruct (register_ok url_Parse m Hm n st r1 ttl1 now1 raw1 e1 lease1 c1 st1 Hwf ltac:(lia) Hraw1 Hf1 H1)
    as (_ & q1 & b1 & s1 & ch1 & _ & _ & _ & _ & Hk1 & _ & _ & _ & HE1 & _ & Hwf1).
  destruct (dir_run_ok url_Parse m Hm minted (n + 1) k st1 st2 Hwf1 ltac:(lia) Hrun) as [Hwf2 _ _ Hmono].
  destruct (register_ok url_Parse m Hm (n + 1 + k) st2 r2 ttl2 now2 raw2 e2 lease2 c2 st3 Hwf2 ltac:(lia) Hraw2 Hf2 H2)
    as (_ & q2 & b2 & s2 & ch2 & _ & _ & _ & _ & Hk2 & _ & Hep2 & _).
  specialize (Hmono (instanceMapKey (Registration_Key q1))). rewrite HE1, lookup_insert_eq in Hmono. simpl in Hmono.
  rewrite Hk1, Hk2 in Hkey. rewrite Hep2, <-Hkey. lia.
Qed.

(** ** Witnesses *)

Definition ex_url (raw : string) : result URL :=
  if is_empty raw then Err (errors_New "empty url")
  else Ok {| url_Scheme := "unix"; url_Opaque := ""; url_Host := ""; url_Path := raw |}.

Definition ex_registration (id : string) : PluginRegistration :=
  {| rg_Namespace := " "; rg_Name := "search"; rg_InstanceID := id; rg_URI := "unix:/run/search";
     rg_Manifest := {| mf_Name := "search"; mf_Version := "1.0"; mf_Description := "search"; mf_APIVersion := 1;
                       mf_MinAPIVersion := 0; mf_MaxAPIVersion := 0; mf_Requires := []; mf_Conflicts := [];
                       mf_Registers := ["tool/search"] |};
     rg_Labels := ∅ |}.

Definition ex_raw : result (list N) := Ok (replicate 32 7%N).
Definition ex_reg1 := reg_register ex_url newDirectoryState (ex_registration "a") 100 10 2 ex_raw (ex_entropy 1).
Definition ex_dir1 : directoryState := ex_reg1.2.
Definition ex_reg2 := reg_register ex_url ex_dir1 (ex_registration "b") 100 20 2 ex_raw (ex_entropy 2).
Definition ex_dir2 : directoryState := ex_reg2.2.
Definition ex_credential (b : N) : LeaseCredential :=
  {| lc_ID := NewID (ex_entropy b); lc_Token := EncodeToString (replicate 32 7%N) |}.

Lemma ex_raw_ok : raw_ok ex_raw.
Proof. intros bytes [= <-]. reflexivity. Qed.

Lemma ex_regstep1 : dir_run ex_url 2 [NewID (ex_entropy 1)] 1 newDirectoryState ex_dir1.
Proof.
  apply (run_step ex_url 2 [] 0 newDirectoryState newDirectoryState [NewID (ex_entropy 1)] 1); [constructor|].
  apply step_register; [apply ex_raw_ok|reflexivity].
Qed.

Lemma ex_regstep2 : dir_run ex_url 2 [NewID (ex_entropy 2)] 1 ex_dir1 ex_dir2.
Proof.
  apply (run_step ex_url 2 [] 0 ex_dir1 ex_dir1 [NewID (ex_entropy 2)] 1); [constructor|].
  apply step_register; [apply ex_raw_ok|vm_compute; reflexivity].
Qed.

Lemma ex_dir1_reach : dir_reach ex_url 2 1 ex_dir1.
Proof. eexists. apply ex_regstep1. Qed.

Lemma registry_state_valid_witness : reg_validate ex_url ex_dir1 = Ok tt.
Proof. apply (registry_state_valid ex_url 2 1 ex_dir1); [lia|unfold two64; lia|apply ex_dir1_reach]. Defined.

Definition ex_poll : ChangePollRequest :=
  {| cp_Query := any_query; cp_AfterRevision := 1; cp_Limit := 10; cp_Wait := 0 |}.

Lemma registry_watch_complete_witness :
  ∃ page changed st3, reg_poll ex_dir2 ex_poll 30 2 = (Ok page, changed, st3) ∧ length (cg_Changes page) = 1%nat ∧
    replay (view ex_dir1) (cg_Changes page) = view st3.
Proof.
  destruct (reg_poll ex_dir2 ex_poll 30 2) as [[[page|err] changed] st3] eqn:H;
    [|vm_compute in H; discriminate H].
  exists page, changed, st3. split_and!; [reflexivity|vm_compute in H; injection H as <- _ _; reflexivity|].
  apply (registry_watch_complete ex_url 2 1 ex_dir1 [NewID (ex_entropy 2)] 1 ex_dir2 ex_poll 30 (Ok page) changed st3);
    [lia|lia|unfold two64; lia|apply ex_dir1_reach|apply ex_regstep2|vm_compute; reflexivity|vm_compute; reflexivity
    |reflexivity|unfold reg_MaxPageSize; simpl; lia|simpl; lia|exact H|].
  vm_compute in H. injection H as <- _ _. reflexivity.
Defined.

Definition ex_key (id : string) : InstanceKey :=
  {| ik_Namespace := "default"; ik_Name := "search"; ik_InstanceID := id |}.

Lemma registry_get_live_witness :
  result_ok (reg_get ex_dir1 (ex_key "a") 50 2).1.1 = true ∧
  ∀ instance, (reg_get ex_dir1 (ex_key "a") 200 2).1.1 ≠ Ok instance.
Proof.
  split; [vm_compute; reflexivity|]. intros instance H.
  apply (registry_get_live ex_url 2 1 ex_dir1 (ex_key "a") 200 instance) in H as (s & Hs & <- & Hlive);
    [|lia|unfold two64; lia|apply ex_dir1_reach|vm_compute; reflexivity].
  vm_compute in Hs. injection Hs as <-. vm_compute in Hlive. discriminate Hlive.
Defined.

Lemma registry_lease_revoked_witness :
  ∃ changed st1, reg_unregister ex_dir1 (ex_credential 1) 50 2 = (Ok tt, changed, st1) ∧
    ∃ err, (reg_renew st1 (ex_credential 1) 10 60 2).1.1 = Err err ∧ errors_Is err ErrLeaseNotFound = true.
Proof.
  destruct (reg_unregister ex_dir1 (ex_credential 1) 50 2) as [[[[]|err] changed] st1] eqn:H;
    [|vm_compute in H; discriminate H].
  exists changed, st1. split; [reflexivity|].
  apply (registry_lease_revoked ex_url 2 1 ex_dir1 (ex_credential 1) 50 changed st1 [] 0 st1 10 60);
    [lia|lia|unfold two64; lia|apply ex_dir1_reach|exact H|constructor|apply not_elem_of_nil|lia].
Defined.

Definition ex_unreg := reg_unregister ex_dir1 (ex_credential 1) 50 2.
Definition ex_reg3 := reg_register ex_url ex_unreg.2 (ex_registration "a") 100 60 2 ex_raw (ex_entropy 3).

Lemma registry_epoch_increases_witness :
  ∃ lease1 c1 st1 lease2 c2 st3, ex_reg1 = (Ok lease1, c1, st1) ∧ ex_reg3 = (Ok lease2, c2, st3) ∧
    pl_Epoch lease1 < pl_Epoch lease2.
Proof.
  destruct ex_reg1 as [[[lease1|err] c1] st1] eqn:H1; [|vm_compute in H1; discriminate H1].
  destruct ex_reg3 as [[[lease2|err] c2] st3] eqn:H3; [|vm_compute in H3; discriminate H3].
  exists lease1, c1, st1, lease2, c2, st3. split_and!; [reflexivity|reflexivity|].
  assert (ex_dir1 = st1) as Hst by (unfold ex_dir1; rewrite H1; reflexivity).
  apply (registry_epoch_increases ex_url 2 0 newDirectoryState (ex_registration "a") 100 10 ex_raw (ex_entropy 1)
    lease1 c1 st1 [] (0 + 0) ex_unreg.2 (ex_registration "a") 100 60 ex_raw (ex_entropy 3) lease2 c2 st3);
    [lia|lia|unfold two64; lia|eexists; constructor|apply ex_raw_ok|reflexivity|exact H1| |apply ex_raw_ok
    |vm_compute; reflexivity|exact H3|].
  - rewrite <-Hst. apply (run_step ex_url 2 [] 0 ex_dir1 ex_dir1 [] 0); [constructor|apply step_unregister].
  - vm_compute in H1. injection H1 as <- _ _. vm_compute in H3. injection H3 as <- _ _. reflexivity.
Defined.

(** A poll from revision 0 is never told that its cursor expired: when the log has dropped changes
    since, the page is silently incomplete and still claims to reach the current revision. *)
Theorem registry_poll_from_zero_incomplete :
  ∃ page changed st3,
    let st := (reg_register ex_url ex_dir1 (ex_registration "b") 100 20 1 ex_raw (ex_entropy 2)).2 in
    reg_poll st {| cp_Query := any_query; cp_AfterRevision := 0; cp_Limit := 10; cp_Wait := 0 |} 30 1
      = (Ok page, changed, st3) ∧
    cg_NextRevision page = cg_CurrentRevision page ∧ size (view st3) = 2%nat ∧
    size (replay (view newDirectoryState) (cg_Changes page)) = 1%nat.
Proof. do 3 eexists. split; [vm_compute; reflexivity|]. vm_compute. done. Qed.
