(* ===== verification/GatewayEvent.v ===== *)
(** The reconnectable event log of the gateway, [gateway/event.go] and [gateway/event_store_memory.go]: one
    stream of events per session, numbered from one, appended to once per runtime event and read in pages
    that follow a cursor; a reader at the end of its stream waits for the next append. *)

From S2P Require Import Prelude GoText Names Message ContextInjection Delivery Trajectory Agent EventDispatch Payload PromptHost.

Definition defaultEventPageSize : Z := 100.
Definition maxEventPageSize : Z := 1000.
Definition maxEncodedEventPageBytes : Z := 4194304.
Definition eventPageEnvelopeOverhead : Z := 64.
Definition MaxUint64 : Z := two64 - 1.

Record AgentEvent := {
  gv_Sequence : Z;
  gv_SessionID : string;
  gv_ID : string;
  gv_Name : string;
  gv_Generation : Z;
  gv_Payload : string;
  gv_CreatedAt : time;
}.

Record EventQuery := { evq_After : Z; evq_Limit : Z }.
Record EventPage := { epg_Items : list AgentEvent; epg_Next : Z }.

Record eventStream := { es_NextSequence : Z; es_Events : list AgentEvent }.
Definition zeroEventStream : eventStream := {| es_NextSequence := 0; es_Events := [] |}.

(** The part of [encoding/json] the gateway relies on: the five payloads it shortens, and the size of an
    encoded event. *)
Class GatewayJSON := {
  unmarshal_start : string → result AgentStartPayload;
  marshal_start : AgentStartPayload → result string;
  unmarshal_provider : string → result BeforeProviderPayload;
  marshal_provider : BeforeProviderPayload → result string;
  unmarshal_turn_end : string → result TurnEndPayload;
  marshal_turn_end : TurnEndPayload → result string;
  unmarshal_agent_end : string → result AgentEndPayload;
  marshal_agent_end : AgentEndPayload → result string;
  marshal_event : AgentEvent → result string;
}.

Definition normalizeEventQuery (query : EventQuery) : result EventQuery :=
  let limit := if evq_Limit query =? 0 then defaultEventPageSize else evq_Limit query in
  fail_if (limit <? 1) || (maxEventPageSize <? limit) with
    Errorf "gateway event page limit must be between 1 and %d" [ANum maxEventPageSize];
  Ok {| evq_After := evq_After query; evq_Limit := limit |}.

Definition normalizeEventSessionID (sessionID : string) : result string :=
  let sessionID := TrimSpace sessionID in
  try? ValidateResourceName "gateway event session" sessionID;
  Ok sessionID.

Fixpoint latest_user (reversed : list Message) : list Message :=
  match reversed with
  | [] => []
  | message :: rest => if bool_decide (msg_Role message = RoleUser) then [message] else latest_user rest
  end.

Definition latestGatewayUserMessage (messages : list Message) : list Message :=
  CloneMessages (latest_user (reverse messages)).

Section json.
Context `{!GatewayJSON}.

(** The payload that is kept of an event. *)
Definition projectRuntimeEventPayload (name payload : string) : result string :=
  if String.eqb name "before_agent_start" then
    let? _ := unmarshal_start payload in
    marshal_start {| sp_Messages := []; sp_System := "" |}
  else if String.eqb name "agent_start" then
    let? start := unmarshal_start payload in
    marshal_start {| sp_Messages := latestGatewayUserMessage (sp_Messages start); sp_System := "" |}
  else if String.eqb name "before_provider" then
    let? request := unmarshal_provider payload in
    marshal_provider {| bp_Turn := bp_Turn request; bp_Messages := []; bp_Provider := bp_Provider request;
                        bp_System := ""; bp_Tools := [] |}
  else if String.eqb name "turn_end" then
    let? turn := unmarshal_turn_end payload in
    marshal_turn_end {| tn_Turn := tn_Turn turn; tn_Messages := []; tn_Action := tn_Action turn |}
  else if String.eqb name "agent_end" then
    let? ended := unmarshal_agent_end payload in
    marshal_agent_end
      {| ae_Messages := []; ae_ContextInjections := []; ae_Output := ae_Output ended; ae_Turns := ae_Turns ended;
         ae_ToolCalls := ae_ToolCalls ended; ae_InputTokens := ae_InputTokens ended;
         ae_OutputTokens := ae_OutputTokens ended; ae_Cause := ae_Cause ended |}
  else Ok payload.

Definition normalizeRuntimeEvent (event : Event) : result Event :=
  let id := TrimSpace (ev_ID event) in
  let name := TrimSpace (ev_Name event) in
  try? ValidateResourceName "gateway runtime event" id;
  fail_if is_empty name with errors_New "gateway runtime event name is empty";
  fail_if negb (json_Valid (ev_Payload event)) with Errorf "gateway runtime event %q payload is invalid JSON" [AStr id];
  match projectRuntimeEventPayload name (ev_Payload event) with
  | Err err => Err (Wrapf "project gateway runtime event %q: %w" [AStr name] err)
  | Ok payload =>
      Ok {| ev_ID := id; ev_Name := name; ev_SessionID := ev_SessionID event; ev_Generation := ev_Generation event;
            ev_Payload := payload |}
  end.

Definition appendAgentEvent (stream : eventStream) (sessionID : string) (event : Event) (now : time)
    : result (eventStream * AgentEvent * bool) :=
  match list_find (λ current, gv_ID current = ev_ID event) (es_Events stream) with
  | Some (_, current) => Ok (stream, current, false)
  | None =>
      let next := if es_NextSequence stream =? 0 then 1 else es_NextSequence stream in
      fail_if next =? MaxUint64 with errors_New "gateway event sequence is exhausted";
      let created :=
        {| gv_Sequence := next; gv_SessionID := sessionID; gv_ID := ev_ID event; gv_Name := ev_Name event;
           gv_Generation := ev_Generation event; gv_Payload := ev_Payload event; gv_CreatedAt := now |} in
      Ok ({| es_NextSequence := u64 (next + 1); es_Events := es_Events stream ++ [created] |}, created, true)
  end.

(** The page after [event] with the bytes it takes, or [None] when the event does not fit. *)
Definition appendEventPageItem (items : list AgentEvent) (event : AgentEvent) (encodedBytes : Z)
    : option (list AgentEvent * Z) :=
  match marshal_event event with
  | Err _ => None
  | Ok raw =>
      let itemBytes := Z.of_nat (String.length raw) + 1 in
      if negb (bool_decide (items = [])) && (maxEncodedEventPageBytes <? encodedBytes + itemBytes) then None
      else Some (items ++ [event], encodedBytes + itemBytes)
  end.

Fixpoint list_events_loop (query : EventQuery) (events : list AgentEvent) (items : list AgentEvent) (encodedBytes : Z)
    : list AgentEvent :=
  match events with
  | [] => items
  | event :: rest =>
      if gv_Sequence event <=? evq_After query then list_events_loop query rest items encodedBytes else
      match appendEventPageItem items event encodedBytes with
      | None => items
      | Some (items, encodedBytes) =>
          if Z.of_nat (length items) =? evq_Limit query then items
          else list_events_loop query rest items encodedBytes
      end
  end.

Definition listAgentEvents (stream : eventStream) (query : EventQuery) : EventPage :=
  let items := list_events_loop query (es_Events stream) [] eventPageEnvelopeOverhead in
  {| epg_Items := items; epg_Next := match last items with Some event => gv_Sequence event | None => 0 end |}.

Definition latestAgentEventSequence (stream : eventStream) : Z :=
  match last (es_Events stream) with Some event => gv_Sequence event | None => 0 end.

(** The loop of [validateStoredEventStream]; it returns the last sequence number. *)
Fixpoint validate_events_loop (sessionID : string) (index : nat) (previous : Z) (seen : gset string) (events : list AgentEvent)
    : result Z :=
  match events with
  | [] => Ok previous
  | event :: rest =>
      fail_if negb (bool_decide (gv_SessionID event = sessionID)) || (gv_Sequence event =? 0) ||
              (gv_Sequence event <=? previous) || IsZero (gv_CreatedAt event) with
        Errorf "gateway event stream %q contains invalid event at index %d" [AStr sessionID; ANum (Z.of_nat index)];
      fail_if bool_decide (gv_ID event ∈ seen) with
        Errorf "gateway event stream %q contains duplicate event %q" [AStr sessionID; AStr (gv_ID event)];
      match normalizeRuntimeEvent {| ev_ID := gv_ID event; ev_Name := gv_Name event; ev_SessionID := gv_SessionID event;
              ev_Generation := gv_Generation event; ev_Payload := gv_Payload event |} with
      | Err err => Err (Wrapf "validate gateway event stream %q: %w" [AStr sessionID] err)
      | Ok _ => validate_events_loop sessionID (S index) (gv_Sequence event) ({[gv_ID event]} ∪ seen) rest
      end
  end.

Definition validateStoredEventStream (sessionID : string) (stream : eventStream) : result eventStream :=
  let next := if es_NextSequence stream =? 0 then 1 else es_NextSequence stream in
  let? previous := validate_events_loop sessionID 0 0 ∅ (es_Events stream) in
  fail_if next <=? previous with
    Errorf "gateway event stream %q next sequence %d does not follow %d" [AStr sessionID; ANum next; ANum previous];
  Ok {| es_NextSequence := next; es_Events := es_Events stream |}.

(** ** The in-memory store

    The stores of events and of interactions announce changes on one channel per session.  A channel is a
    number; [ch_notified] holds the closed ones. *)

Record channels := {
  ch_notify : gmap string nat;
  ch_notified : gset nat;
  ch_fresh : nat;
}.

Definition no_channels : channels := {| ch_notify := ∅; ch_notified := ∅; ch_fresh := 0 |}.

Definition notifyLocked (c : channels) (sessionID : string) : nat * channels :=
  match ch_notify c !! sessionID with
  | Some channel => (channel, c)
  | None =>
      (ch_fresh c, {| ch_notify := <[sessionID := ch_fresh c]> (ch_notify c); ch_notified := ch_notified c; ch_fresh := S (ch_fresh c) |})
  end.

Definition signalLocked (c : channels) (sessionID : string) : channels :=
  let '(channel, c) := notifyLocked c sessionID in
  {| ch_notify := <[sessionID := ch_fresh c]> (ch_notify c); ch_notified := {[channel]} ∪ ch_notified c; ch_fresh := S (ch_fresh c) |}.

(** The loop of [Close]. *)
Definition close_channels (c : channels) : channels :=
  {| ch_notify := ∅; ch_notified := list_to_set (map_to_list (ch_notify c)).*2 ∪ ch_notified c; ch_fresh := ch_fresh c |}.

Record memoryEventStore := {
  me_streams : gmap string eventStream;
  me_channels : channels;
  me_closed : bool;
}.

Definition NewMemoryEventStore : memoryEventStore := {| me_streams := ∅; me_channels := no_channels; me_closed := false |}.

Definition me_stream (store : memoryEventStore) (sessionID : string) : eventStream :=
  default zeroEventStream (me_streams store !! sessionID).

Definition estore_Append (store : memoryEventStore) (ctx : context) (sessionID : string) (event : Event) (now : time)
    : result (AgentEvent * memoryEventStore) :=
  try? ctx_Err ctx;
  let? sessionID := normalizeEventSessionID sessionID in
  let? event := normalizeRuntimeEvent event in
  fail_if me_closed store with Sentinel ErrStoreClosed;
  let? '(stream, created, changed) := appendAgentEvent (me_stream store sessionID) sessionID event now in
  if negb changed then Ok (created, store) else
  Ok (created, {| me_streams := <[sessionID := stream]> (me_streams store);
                  me_channels := signalLocked (me_channels store) sessionID; me_closed := me_closed store |}).

Definition estore_List (store : memoryEventStore) (ctx : context) (sessionID : string) (query : EventQuery) : result EventPage :=
  try? ctx_Err ctx;
  let? sessionID := normalizeEventSessionID sessionID in
  let? query := normalizeEventQuery query in
  fail_if me_closed store with Sentinel ErrStoreClosed;
  Ok (listAgentEvents (me_stream store sessionID) query).

Definition estore_Latest (store : memoryEventStore) (ctx : context) (sessionID : string) : result Z :=
  try? ctx_Err ctx;
  let? sessionID := normalizeEventSessionID sessionID in
  fail_if me_closed store with Sentinel ErrStoreClosed;
  Ok (latestAgentEventSequence (me_stream store sessionID)).

(** [Wait]: what it asks for, and one round of its loop under the lock, which returns or goes to sleep on a channel. *)
Definition wait_request (sessionID : string) (query : EventQuery) : result (string * EventQuery) :=
  let? sessionID := normalizeEventSessionID sessionID in
  let? query := normalizeEventQuery query in
  Ok (sessionID, query).

Definition estore_Wait (store : memoryEventStore) (sessionID : string) (query : EventQuery)
    : (result EventPage + nat) * memoryEventStore :=
  if me_closed store then (inl (Err (Sentinel ErrStoreClosed)), store) else
  let page := listAgentEvents (me_stream store sessionID) query in
  match epg_Items page with
  | _ :: _ => (inl (Ok page), store)
  | [] =>
      let '(channel, c) := notifyLocked (me_channels store) sessionID in
      (inr channel, {| me_streams := me_streams store; me_channels := c; me_closed := me_closed store |})
  end.

Definition estore_Close (store : memoryEventStore) : memoryEventStore :=
  if me_closed store then store else
  {| me_streams := me_streams store; me_channels := close_channels (me_channels store); me_closed := true |}.
End json.
