(* ===== verification/GatewayEventProperties.v ===== *)
(** The event log of the gateway: streams are numbered without gaps, a client that follows the cursor reads every
    event once and in order, and a client that waits at the end of its stream is woken by the next append. *)

From S2P Require Import Prelude GoText Names Message ContextInjection Delivery Trajectory Agent EventDispatch Payload PromptHost GatewayEvent.

(** ** Streams *)

Record estream_wf (sessionID : string) (stream : eventStream) : Prop := {
  esw_sequence i event : es_Events stream !! i = Some event → gv_Sequence event = Z.of_nat i + 1;
  esw_next : es_NextSequence stream = 0 ∧ es_Events stream = [] ∨
             es_NextSequence stream = Z.of_nat (length (es_Events stream)) + 1;
  esw_ids : NoDup (gv_ID <$> es_Events stream);
  esw_session : Forall (λ event, gv_SessionID event = sessionID) (es_Events stream);
  esw_bound : es_NextSequence stream < two64;
}.

Lemma zero_estream_wf sessionID : estream_wf sessionID zeroEventStream.
Proof. split; cbn; [by intros ? ?; rewrite lookup_nil|by left|constructor|constructor|done]. Qed.

Lemma list_find_none_id (events : list AgentEvent) id :
  list_find (λ current, gv_ID current = id) events = None → id ∉ gv_ID <$> events.
Proof.
  intros Hf%list_find_None (event & -> & He)%list_elem_of_fmap. rewrite Forall_forall in Hf. by eapply Hf.
Qed.

Lemma appendAgentEvent_spec stream sessionID event now stream' created changed :
  estream_wf sessionID stream → appendAgentEvent stream sessionID event now = Ok (stream', created, changed) →
  estream_wf sessionID stream' ∧ gv_ID created = ev_ID event ∧ created ∈ es_Events stream' ∧
  (if changed then es_Events stream' = es_Events stream ++ [created] ∧ ev_ID event ∉ gv_ID <$> es_Events stream ∧
                   gv_Payload created = ev_Payload event
   else stream' = stream).
Proof.
  intros [Hs Hn Hd Hsess Hb]. unfold appendAgentEvent.
  destruct (list_find _ (es_Events stream)) as [[i current]|] eqn:Hf.
  - intros [= <- <- <-]. apply list_find_Some in Hf as (Hl & Hid & _). split_and!; [by split|done|by eapply list_elem_of_lookup_2|done].
  - apply list_find_none_id in Hf. set (next := if _ =? 0 then _ else _).
    assert (next = Z.of_nat (length (es_Events stream)) + 1) as Hnext.
    { subst next. destruct Hn as [[-> ->] | ->]; [done|]. by destruct (Z.eqb_spec (Z.of_nat (length (es_Events stream)) + 1) 0); [lia|]. }
    destruct (Z.eqb_spec next MaxUint64) as [|Hne]; [done|]. intros [= <- <- <-].
    assert (next < two64) by (unfold MaxUint64 in Hne; subst next; destruct (es_NextSequence stream =? 0); [done|lia]).
    unfold MaxUint64 in Hne. rewrite u64_small by lia. cbn. split_and!; [|done|by apply elem_of_snoc; right|done|done|done].
    split; cbn.
    + intros i event' [Hl|[Hlen Hx]]%lookup_app_Some; [by apply Hs|].
      apply list_lookup_singleton_Some in Hx as [Hi <-]. cbn. lia.
    + right. rewrite length_app. cbn. lia.
    + rewrite fmap_app. apply NoDup_app. split_and!; [done| |apply NoDup_singleton].
      cbn. intros x Hx ->%list_elem_of_singleton. done.
    + apply Forall_app. split; [done|by constructor].
    + lia.
Qed.

(** ** Pages *)

Section pages.
Context `{!GatewayJSON}.

(** What a client that has read up to [after] has not seen. *)
Definition pending (after : Z) (events : list AgentEvent) : list AgentEvent := filter (λ event, after < gv_Sequence event) events.

Definition page_bytes (items : list AgentEvent) : Z :=
  eventPageEnvelopeOverhead +
  foldr (λ event acc, match marshal_event event with Ok raw => Z.of_nat (String.length raw) + 1 + acc | Err _ => acc end) 0 items.

Lemma page_bytes_snoc items event raw :
  marshal_event event = Ok raw → page_bytes (items ++ [event]) = page_bytes items + (Z.of_nat (String.length raw) + 1).
Proof.
  intros Hm. unfold page_bytes. rewrite foldr_app. cbn. rewrite Hm.
  enough (∀ k, foldr (λ event acc, match marshal_event event with Ok raw => Z.of_nat (String.length raw) + 1 + acc | Err _ => acc end) k items =
    foldr (λ event acc, match marshal_event event with Ok raw => Z.of_nat (String.length raw) + 1 + acc | Err _ => acc end) 0 items + k) as -> by lia.
  intros k. induction items as [|x items IH]; cbn; [lia|]. destruct (marshal_event x); lia.
Qed.

(** Every event of the stream can be encoded. *)
Definition encodable (events : list AgentEvent) : Prop := Forall (λ event, ∃ raw, marshal_event event = Ok raw) events.

Lemma list_events_loop_spec query events items :
  encodable events → Z.of_nat (length items) < evq_Limit query →
  (items = [] ∨ page_bytes items ≤ maxEncodedEventPageBytes ∨ length items = 1%nat) →
  ∃ k, let page := items ++ take k (pending (evq_After query) events) in
    list_events_loop query events items (page_bytes items) = page ∧
    Z.of_nat (length page) ≤ evq_Limit query ∧
    (page = [] → pending (evq_After query) events = []) ∧
    (page = [] ∨ page_bytes page ≤ maxEncodedEventPageBytes ∨ length page = 1%nat).
Proof.
  revert items. induction events as [|event events IH]; intros items He Hlim Hb; cbn [list_events_loop].
  { exists 0%nat. cbn. rewrite app_nil_r. split_and!; [done|lia|done|done]. }
  apply Forall_cons in He as [(raw & Hraw) He]. unfold pending. rewrite filter_cons.
  destruct (Z.leb_spec (gv_Sequence event) (evq_After query)) as [Hle|Hgt].
  { rewrite decide_False by lia. by apply IH. }
  rewrite decide_True by lia. unfold appendEventPageItem. rewrite Hraw.
  destruct (negb (bool_decide (items = [])) && _) eqn:Hfull.
  { apply andb_true_iff in Hfull as [Hne _]. exists 0%nat. cbn. rewrite app_nil_r.
    split_and!; [done|lia|by intros ->|done]. }
  rewrite <- (page_bytes_snoc items event raw Hraw).
  assert (page_bytes (items ++ [event]) ≤ maxEncodedEventPageBytes ∨ length (items ++ [event]) = 1%nat) as Hb'.
  { rewrite (page_bytes_snoc _ _ _ Hraw). apply andb_false_iff in Hfull as [Hne|Hle%Z.ltb_ge]; [|by left].
    apply negb_false_iff, bool_decide_eq_true in Hne as ->. by right. }
  assert (length (items ++ [event]) = S (length items)) as Hlen by (rewrite length_app; cbn; lia).
  destruct (Z.eqb_spec (Z.of_nat (length (items ++ [event]))) (evq_Limit query)) as [Heq|Hne].
  { exists 1%nat. change (take 1 (event :: _)) with [event]. cbn zeta. rewrite Heq. split_and!; [done|lia|by destruct items|by right]. }
  destruct (IH (items ++ [event])) as (k & Hk); [done|lia|by right|].
  exists (S k). cbn [take]. rewrite <- (app_assoc items [event]) in Hk. cbn in Hk. destruct Hk as (H1 & H2 & _ & H4).
  cbn. split_and!; [done|done|by destruct items|done].
Qed.

Lemma listAgentEvents_spec stream query :
  encodable (es_Events stream) → 1 ≤ evq_Limit query →
  ∃ k, epg_Items (listAgentEvents stream query) = take k (pending (evq_After query) (es_Events stream)) ∧
    Z.of_nat (length (epg_Items (listAgentEvents stream query))) ≤ evq_Limit query ∧
    (epg_Items (listAgentEvents stream query) = [] → pending (evq_After query) (es_Events stream) = []) ∧
    (page_bytes (epg_Items (listAgentEvents stream query)) ≤ maxEncodedEventPageBytes ∨
     (length (epg_Items (listAgentEvents stream query)) ≤ 1)%nat).
Proof.
  intros He Hl. destruct (list_events_loop_spec query (es_Events stream) [] He) as (k & H1 & H2 & H3 & H4); [cbn; lia|by left|].
  cbn [app] in *. exists k. unfold listAgentEvents. cbn [epg_Items]. change eventPageEnvelopeOverhead with (page_bytes []).
  rewrite H1. split_and!; [done|done|done|]. destruct H4 as [-> |[H4|H4]]; [by left|by left|right; lia].
Qed.

Lemma pending_from offset events after :
  (∀ i event, events !! i = Some event → gv_Sequence event = offset + Z.of_nat i + 1) →
  pending after events = drop (Z.to_nat (after - offset)) events.
Proof.
  revert offset. induction events as [|event events IH]; intros offset Hs; [by rewrite drop_nil|].
  unfold pending. rewrite filter_cons. pose proof (Hs 0%nat event eq_refl) as H0. cbn in H0.
  assert (∀ i e, events !! i = Some e → gv_Sequence e = offset + 1 + Z.of_nat i + 1) as Hs'.
  { intros i e Hi. specialize (Hs (S i) e Hi). lia. }
  specialize (IH _ Hs'). unfold pending in IH. rewrite IH. case_decide.
  - replace (Z.to_nat (after - (offset + 1))) with 0%nat by lia. by replace (Z.to_nat (after - offset)) with 0%nat by lia.
  - by replace (Z.to_nat (after - offset)) with (S (Z.to_nat (after - (offset + 1)))) by lia.
Qed.

Lemma pending_drop sessionID stream after :
  estream_wf sessionID stream → pending after (es_Events stream) = drop (Z.to_nat after) (es_Events stream).
Proof. intros Hwf. rewrite (pending_from 0); [by rewrite Z.sub_0_r|]. intros i event Hi. rewrite (esw_sequence _ _ Hwf _ _ Hi). lia. Qed.

(** The cursor of a page stands right behind its items. *)
Lemma page_cursor sessionID stream after k event :
  estream_wf sessionID stream → 0 ≤ after →
  last (take k (drop (Z.to_nat after) (es_Events stream))) = Some event →
  drop (Z.to_nat (gv_Sequence event)) (es_Events stream) = drop k (drop (Z.to_nat after) (es_Events stream)) ∧
  after < gv_Sequence event.
Proof.
  intros Hwf Ha Hl. rewrite last_lookup in Hl. rewrite length_take, length_drop in Hl.
  set (n := Z.to_nat after) in *. set (l := es_Events stream) in *.
  apply lookup_take_Some in Hl as [Hl Hk]. rewrite lookup_drop in Hl. pose proof (lookup_lt_Some _ _ _ Hl).
  pose proof (esw_sequence _ _ Hwf _ _ Hl) as Hseq. rewrite drop_drop. split; [|lia].
  replace (Z.to_nat (gv_Sequence event)) with (n + (k `min` (length l - n)))%nat by lia.
  destruct (decide (k ≤ length l - n)%nat); [by rewrite Nat.min_l by lia|]. rewrite !drop_ge; [done|lia|lia].
Qed.

(** A client that follows the cursor until a page is empty. *)
Fixpoint read_stream (fuel : nat) (stream : eventStream) (limit after : Z) : option (list AgentEvent) :=
  match fuel with
  | O => None
  | S fuel =>
      let page := listAgentEvents stream {| evq_After := after; evq_Limit := limit |} in
      match epg_Items page with
      | [] => Some []
      | items => (λ rest, items ++ rest) <$> read_stream fuel stream limit (epg_Next page)
      end
  end.

Lemma read_stream_all sessionID stream limit after fuel :
  estream_wf sessionID stream → encodable (es_Events stream) → 1 ≤ limit → 0 ≤ after →
  (length (es_Events stream) - Z.to_nat after < fuel)%nat →
  read_stream fuel stream limit after = Some (drop (Z.to_nat after) (es_Events stream)).
Proof.
  intros Hwf He Hl. revert after. induction fuel as [|fuel IH]; intros after Ha Hf; [lia|]. cbn [read_stream].
  destruct (listAgentEvents_spec stream {| evq_After := after; evq_Limit := limit |} He Hl) as (k & H1 & _ & H3 & _).
  cbn [evq_After evq_Limit] in H1, H3. rewrite (pending_drop _ _ _ Hwf) in H1, H3.
  set (page := listAgentEvents stream {| evq_After := after; evq_Limit := limit |}) in *.
  destruct (epg_Items page) as [|x items] eqn:Hitems.
  { by rewrite (H3 eq_refl). }
  destruct (last (x :: items)) as [event|] eqn:Hlast; [|by apply last_None in Hlast].
  assert (epg_Next page = gv_Sequence event) as ->.
  { unfold page, listAgentEvents in *. cbn [epg_Items epg_Next] in *. by rewrite Hitems, Hlast. }
  rewrite H1 in Hlast. destruct (page_cursor _ _ _ _ _ Hwf Ha Hlast) as [Hdrop Hlt].
  assert (Z.to_nat after < length (es_Events stream))%nat as Hin.
  { destruct (decide (Z.to_nat after < length (es_Events stream))%nat); [done|]. rewrite (drop_ge (es_Events stream)) in H1 by lia.
    by rewrite take_nil in H1. }
  rewrite IH by lia. cbn [fmap option_fmap option_map]. by rewrite H1, Hdrop, take_drop.
Qed.
End pages.

(** ** Channels *)

Record channels_ok (c : channels) : Prop := {
  cok_notify sessionID channel : ch_notify c !! sessionID = Some channel → (channel < ch_fresh c)%nat ∧ channel ∉ ch_notified c;
  cok_notified channel : channel ∈ ch_notified c → (channel < ch_fresh c)%nat;
  cok_distinct s1 s2 channel : ch_notify c !! s1 = Some channel → ch_notify c !! s2 = Some channel → s1 = s2;
}.

(** A sleeper on [channel] that waits for [sessionID]: it is woken, or the next signal wakes it. *)
Definition attached (c : channels) (sessionID : string) (channel : nat) : Prop :=
  channel ∈ ch_notified c ∨ ch_notify c !! sessionID = Some channel.

Lemma no_channels_ok : channels_ok no_channels.
Proof. split; cbn; intros; rewrite ?lookup_empty in *; set_solver. Qed.

Lemma channels_insert_ok c sessionID closed :
  channels_ok c → (∀ channel, channel ∈ closed → (channel < ch_fresh c)%nat ∧
    ∀ s, s ≠ sessionID → ch_notify c !! s ≠ Some channel) →
  channels_ok {| ch_notify := <[sessionID := ch_fresh c]> (ch_notify c); ch_notified := closed ∪ ch_notified c; ch_fresh := S (ch_fresh c) |}.
Proof.
  intros [Hn Hd Hi] Hclosed. split; cbn.
  - intros s channel. rewrite lookup_insert_Some. intros [[<- <-]|[Hne Hch]].
    + split; [lia|]. intros [Hin%Hclosed|Hin%Hd]%elem_of_union; lia.
    + destruct (Hn _ _ Hch) as [Hlt Hopen]. split; [lia|]. intros [Hin|?]%elem_of_union; [|done].
      by apply (proj2 (Hclosed _ Hin) s).
  - intros channel [Hin%Hclosed|Hin%Hd]%elem_of_union; lia.
  - intros s1 s2 channel. rewrite !lookup_insert_Some. intros [[<- <-]|[_ H1]] [[<- H2]|[_ H2]]; [done| | |by eapply Hi].
    + destruct (Hn _ _ H2). lia.
    + destruct (Hn _ _ H1). lia.
Qed.

Lemma notifyLocked_spec c sessionID channel c' :
  channels_ok c → notifyLocked c sessionID = (channel, c') →
  channels_ok c' ∧ channel ∉ ch_notified c' ∧ ch_notify c' !! sessionID = Some channel ∧
  ch_notified c' = ch_notified c ∧ (∀ s ch, attached c s ch → attached c' s ch).
Proof.
  intros Hok. unfold notifyLocked. destruct (ch_notify c !! sessionID) as [ch|] eqn:Hl; intros [= <- <-].
  { split_and!; [done|by eapply cok_notify|done..]. }
  assert (channels_ok {| ch_notify := <[sessionID := ch_fresh c]> (ch_notify c); ch_notified := ch_notified c; ch_fresh := S (ch_fresh c) |}) as Hok'.
  { pose proof (channels_insert_ok c sessionID ∅ Hok ltac:(set_solver)) as Hok'. by rewrite (left_id_L ∅ (∪)) in Hok'. }
  assert (∀ s ch, ch_notify c !! s = Some ch → <[sessionID := ch_fresh c]> (ch_notify c) !! s = Some ch) as Hkeep.
  { intros s ch Hch. rewrite lookup_insert_ne; [done|congruence]. }
  cbn. split_and!; [done| |by rewrite lookup_insert_eq|done|].
  - intros Hin%(cok_notified _ Hok). lia.
  - intros s ch [Hin|Hch]; [by left|]. right. by apply Hkeep.
Qed.

Lemma signalLocked_spec c sessionID :
  channels_ok c → channels_ok (signalLocked c sessionID) ∧
  (∀ ch, attached c sessionID ch → ch ∈ ch_notified (signalLocked c sessionID)) ∧ ch_notified c ⊆ ch_notified (signalLocked c sessionID) ∧
  (∀ s ch, attached c s ch → attached (signalLocked c sessionID) s ch).
Proof.
  intros Hok. unfold signalLocked. destruct (notifyLocked c sessionID) as [ch c1] eqn:Hl.
  destruct (notifyLocked_spec _ _ _ _ Hok Hl) as (Hok1 & Hopen & Hch & Hnd & Hatt).
  assert (∀ x, attached c sessionID x → x ∈ {[ch]} ∪ ch_notified c1) as Hwake.
  { intros x [Hin|Hx]%Hatt; [set_solver|]. assert (x = ch) as -> by congruence. set_solver. }
  split_and!.
  - apply channels_insert_ok; [done|]. intros x ->%elem_of_singleton. split; [by eapply cok_notify|].
    intros s Hne Hs. by apply Hne, (cok_distinct _ Hok1 _ _ ch).
  - exact Hwake.
  - cbn. rewrite Hnd. set_solver.
  - intros s x Hx. destruct (decide (s = sessionID)) as [->|Hne]; [left; by apply Hwake|].
    apply Hatt in Hx as [Hin|Hx]; [left; cbn; set_solver|]. right. cbn. by rewrite lookup_insert_ne.
Qed.

Lemma close_channels_spec c :
  channels_ok c → channels_ok (close_channels c) ∧ (∀ s ch, attached c s ch → ch ∈ ch_notified (close_channels c)).
Proof.
  intros [Hn Hd Hi]. split.
  - split; cbn; [by intros ? ?; rewrite lookup_empty| |by intros ? ? ?; rewrite lookup_empty].
    intros channel [Hin|Hin%Hd]%elem_of_union; [|done]. apply elem_of_list_to_set in Hin.
    apply list_elem_of_fmap in Hin as ([s x] & -> & Hin%elem_of_map_to_list). by eapply Hn.
  - intros s ch [Hin|Hch]; cbn; [set_solver|]. apply elem_of_union_l, elem_of_list_to_set, list_elem_of_fmap.
    exists (s, ch). split; [done|by apply elem_of_map_to_list].
Qed.

(** ** Waiting *)

(** A reader asleep on a channel. *)
Record waiter := { wt_session : string; wt_query : EventQuery; wt_channel : nat }.

Section wait.
Context `{!GatewayJSON}.

Inductive event_step : memoryEventStore * list waiter → memoryEventStore * list waiter → Prop :=
  | es_append store ws ctx sessionID event now created store' :
      estore_Append store ctx sessionID event now = Ok (created, store') → event_step (store, ws) (store', ws)
  | es_close store ws : event_step (store, ws) (estore_Close store, ws)
  | es_sleep store ws rawID rawQuery sessionID query channel store' :
      wait_request rawID rawQuery = Ok (sessionID, query) →
      estore_Wait store sessionID query = (inr channel, store') →
      event_step (store, ws) (store', {| wt_session := sessionID; wt_query := query; wt_channel := channel |} :: ws)
  | es_wake store ws1 w ws2 :
      wt_channel w ∈ ch_notified (me_channels store) → event_step (store, ws1 ++ w :: ws2) (store, ws1 ++ ws2)
  | es_give_up store ws1 w ws2 : event_step (store, ws1 ++ w :: ws2) (store, ws1 ++ ws2).

Definition event_reach : memoryEventStore * list waiter → Prop := rtc event_step (NewMemoryEventStore, []).

(** A reader that is not woken has nothing to read, and its channel is the one that the next append closes. *)
Record waiter_ok (store : memoryEventStore) (w : waiter) : Prop := {
  wok_attached : attached (me_channels store) (wt_session w) (wt_channel w);
  wok_empty : wt_channel w ∈ ch_notified (me_channels store) ∨
    (me_closed store = false ∧ epg_Items (listAgentEvents (me_stream store (wt_session w)) (wt_query w)) = []);
}.

Record estore_ok (store : memoryEventStore) : Prop := {
  eok_streams sessionID stream : me_streams store !! sessionID = Some stream → estream_wf sessionID stream;
  eok_channels : channels_ok (me_channels store);
}.

Lemma me_stream_wf store sessionID : estore_ok store → estream_wf sessionID (me_stream store sessionID).
Proof.
  intros Hok. unfold me_stream. destruct (me_streams store !! sessionID) as [stream|] eqn:Hl; [by eapply eok_streams|].
  apply zero_estream_wf.
Qed.

(** What an append does, if it does anything. *)
Lemma estore_Append_inv store ctx rawID event now created store' :
  estore_Append store ctx rawID event now = Ok (created, store') →
  ∃ sessionID normalized stream, normalizeEventSessionID rawID = Ok sessionID ∧ normalizeRuntimeEvent event = Ok normalized ∧
    me_closed store = false ∧
    ((appendAgentEvent (me_stream store sessionID) sessionID normalized now = Ok (stream, created, false) ∧ store' = store) ∨
     (appendAgentEvent (me_stream store sessionID) sessionID normalized now = Ok (stream, created, true) ∧
      store' = {| me_streams := <[sessionID := stream]> (me_streams store);
                  me_channels := signalLocked (me_channels store) sessionID; me_closed := false |})).
Proof.
  unfold estore_Append. intros (u & _ & H1)%bind_Ok. apply bind_Ok in H1 as (sessionID & Hsid & H1).
  apply bind_Ok in H1 as (normalized & Hn & H1). destruct (me_closed store) eqn:Hc; [done|].
  apply bind_Ok in H1 as ([[stream created'] changed] & Ha & H1).
  exists sessionID, normalized, stream. destruct changed; cbn in H1; injection H1 as <- <-; rewrite Ha; auto 10.
Qed.

Lemma estore_Append_ok store ctx rawID event now created store' :
  estore_ok store → estore_Append store ctx rawID event now = Ok (created, store') →
  estore_ok store' ∧ (∀ w, waiter_ok store w → waiter_ok store' w).
Proof.
  intros Hok Ha. apply estore_Append_inv in Ha as (sid & normalized & stream & _ & _ & Hc & [[_ ->]|[Ha ->]]); [done|].
  pose proof (proj1 (appendAgentEvent_spec _ _ _ _ _ _ _ (me_stream_wf _ _ Hok) Ha)) as Hwf.
  destruct Hok as [Hs Hch]. destruct (signalLocked_spec _ sid Hch) as (Hch' & Hwake & Hnd & Hatt). split.
  - split; cbn; [|done]. intros s st. rewrite lookup_insert_Some. naive_solver.
  - intros w [Hw He]. split; cbn; [by apply Hatt|]. destruct (decide (wt_session w = sid)) as [<-|Hne]; [left; by apply Hwake|].
    destruct He as [Hin|[_ Hp]].
    + left. by apply Hnd.
    + right. split; [done|]. unfold me_stream. cbn. by rewrite lookup_insert_ne.
Qed.

Lemma estore_Close_ok store : estore_ok store → estore_ok (estore_Close store) ∧ (∀ w, waiter_ok store w → waiter_ok (estore_Close store) w).
Proof.
  intros Hok. unfold estore_Close. destruct (me_closed store); [done|]. destruct Hok as [Hs Hch].
  destruct (close_channels_spec _ Hch) as [Hch' Hwake]. split; [by split|]. intros w [Hw _]. apply Hwake in Hw. split; left; done.
Qed.

Lemma estore_Wait_sleep store sessionID query channel store' :
  estore_ok store → estore_Wait store sessionID query = (inr channel, store') →
  estore_ok store' ∧ channel ∉ ch_notified (me_channels store') ∧
  waiter_ok store' {| wt_session := sessionID; wt_query := query; wt_channel := channel |} ∧
  (∀ w, waiter_ok store w → waiter_ok store' w).
Proof.
  intros [Hs Hch]. unfold estore_Wait. destruct (me_closed store) eqn:Hc; [done|].
  destruct (epg_Items _) as [|? ?] eqn:Hp; [|done]. destruct (notifyLocked _ sessionID) as [ch c] eqn:Hl. intros [= <- <-].
  destruct (notifyLocked_spec _ _ _ _ Hch Hl) as (Hch' & Hopen & Hn & Hnd & Hatt). split_and!; [by split|done| |].
  - split; cbn; [by right|]. right. done.
  - intros w [Hw He]. split; cbn; [by apply Hatt|]. destruct He as [Hin|He]; [|right; split; [done|exact (proj2 He)]]. left. by rewrite Hnd.
Qed.

Lemma event_step_ok s s' :
  event_step s s' → estore_ok s.1 ∧ Forall (waiter_ok s.1) s.2 → estore_ok s'.1 ∧ Forall (waiter_ok s'.1) s'.2.
Proof.
  intros Hstep [Hok Hws]. destruct Hstep as [store ws ctx rawID event now created store' Ha|store ws|store ws rawID rawQuery sid query ch store' _ Hw|store ws1 w ws2 Hin|store ws1 w ws2]; cbn [fst snd] in *.
  - destruct (estore_Append_ok _ _ _ _ _ _ _ Hok Ha) as [Hok' Hkeep]. split; [done|]. by eapply Forall_impl.
  - destruct (estore_Close_ok _ Hok) as [Hok' Hkeep]. split; [done|]. by eapply Forall_impl.
  - destruct (estore_Wait_sleep _ _ _ _ _ Hok Hw) as (Hok' & _ & Hnew & Hold). split; [done|]. constructor; [done|].
    by eapply Forall_impl.
  - split; [done|]. rewrite Forall_app, Forall_cons in Hws. apply Forall_app. tauto.
  - split; [done|]. rewrite Forall_app, Forall_cons in Hws. apply Forall_app. tauto.
Qed.

Lemma event_reach_ok s : event_reach s → estore_ok s.1 ∧ Forall (waiter_ok s.1) s.2.
Proof.
  revert s. apply (rtc_ind_r (λ s, estore_ok s.1 ∧ Forall (waiter_ok s.1) s.2)).
  - split; cbn; [|constructor]. split; cbn; [by intros ? ?; rewrite lookup_empty|apply no_channels_ok].
  - intros s s' _ Hstep. by apply event_step_ok.
Qed.

(** The session a reader waits for is the one it was normalized to. *)
Lemma normalizeEventSessionID_idem raw sessionID :
  normalizeEventSessionID raw = Ok sessionID → normalizeEventSessionID sessionID = Ok sessionID.
Proof.
  unfold normalizeEventSessionID. intros (u & Hv & [= <-])%bind_Ok. rewrite TrimSpace_idem. by rewrite Hv.
Qed.

Lemma event_reach_session s : event_reach s → Forall (λ w, normalizeEventSessionID (wt_session w) = Ok (wt_session w)) s.2.
Proof.
  revert s. apply (rtc_ind_r (λ s, Forall _ s.2)); [constructor|]. intros s s' _ Hstep Hs.
  destruct Hstep as [| |store ws rawID rawQuery sid query ch store' Hq _|store ws1 w ws2 _|store ws1 w ws2]; cbn [snd] in *; [done|done| | |].
  - constructor; [|done]. cbn. unfold wait_request in Hq. apply bind_Ok in Hq as (sid' & Hsid & Hq).
    apply bind_Ok in Hq as (q & _ & [= <- _]). by eapply normalizeEventSessionID_idem.
  - rewrite Forall_app, Forall_cons in Hs. apply Forall_app. tauto.
  - rewrite Forall_app, Forall_cons in Hs. apply Forall_app. tauto.
Qed.
End wait.

(** A client that follows the cursor of the event log misses nothing: in every reachable store, whatever page
    size it asks for, reading pages from a cursor until one is empty gives the events after the cursor, each
    once and in the order of their sequence numbers, and no page exceeds its limit of items, or of bytes when it
    has more than one. *)
Theorem event_pages_complete `{!GatewayJSON} store ws sessionID limit after :
  event_reach (store, ws) → encodable (es_Events (me_stream store sessionID)) → 1 ≤ limit → 0 ≤ after →
  let events := es_Events (me_stream store sessionID) in
  read_stream (S (length events)) (me_stream store sessionID) limit after = Some (drop (Z.to_nat after) events) ∧
  (∀ i event, events !! i = Some event → gv_Sequence event = Z.of_nat i + 1 ∧ gv_SessionID event = sessionID) ∧
  NoDup (gv_ID <$> events) ∧
  let page := epg_Items (listAgentEvents (me_stream store sessionID) {| evq_After := after; evq_Limit := limit |}) in
  Z.of_nat (length page) ≤ limit ∧ (page_bytes page ≤ maxEncodedEventPageBytes ∨ (length page ≤ 1)%nat).
Proof.
  intros [Hok _]%event_reach_ok He Hl Ha. cbn in Hok. pose proof (me_stream_wf _ sessionID Hok) as Hwf. cbn zeta.
  destruct (listAgentEvents_spec (me_stream store sessionID) {| evq_After := after; evq_Limit := limit |} He Hl) as (k & _ & H2 & _ & H4).
  split_and!; [eapply read_stream_all; [done..|lia]| |apply Hwf|done|done].
  intros i event Hi. split; [by eapply esw_sequence|].
  pose proof (esw_session _ _ Hwf) as Hs. rewrite Forall_lookup in Hs. by eapply Hs.
Qed.

(** C22. No reader of the event log sleeps through an event: whatever appends, waits and closings interleave, a
    reader asleep in [Wait] whose channel has not been closed has nothing to read, and its channel is the one
    that the next append to its session closes; a reader goes to sleep only on an open channel. *)
Theorem event_wait_not_lost `{!GatewayJSON} store ws :
  event_reach (store, ws) →
  (∀ w, w ∈ ws → wt_channel w ∈ ch_notified (me_channels store) ∨
     (me_closed store = false ∧
      epg_Items (listAgentEvents (me_stream store (wt_session w)) (wt_query w)) = [] ∧
      ∀ ctx event now created store', estore_Append store ctx (wt_session w) event now = Ok (created, store') →
        me_stream store' (wt_session w) ≠ me_stream store (wt_session w) → wt_channel w ∈ ch_notified (me_channels store'))) ∧
  (∀ sessionID query channel store', estore_Wait store sessionID query = (inr channel, store') → channel ∉ ch_notified (me_channels store')).
Proof.
  intros Hr. pose proof (event_reach_session _ Hr) as Hsess. apply event_reach_ok in Hr as [Hok Hws]. cbn in Hok, Hws, Hsess. split.
  - intros w Hw. rewrite Forall_forall in Hws. destruct (Hws w Hw) as [Hatt [?|(Hc & Hp)]]; [by left|]. right.
    split_and!; [done|done|]. intros ctx event now created store' Ha Hne. rewrite Forall_forall in Hsess. pose proof (Hsess w Hw) as Hsid.
    apply estore_Append_inv in Ha as (sid & normalized & stream & Hsid' & _ & _ & [[_ ->]|[Ha ->]]); [done|].
    assert (sid = wt_session w) as -> by congruence.
    exact (proj1 (proj2 (signalLocked_spec _ (wt_session w) (eok_channels _ Hok))) _ Hatt).
  - intros sid query ch store' Hw. by eapply estore_Wait_sleep.
Qed.

(** ** Witnesses *)

(** A codec for the examples: the payloads are empty objects. *)
Definition example_json : GatewayJSON := {|
  unmarshal_start _ := Ok {| sp_Messages := []; sp_System := "" |}; marshal_start _ := Ok "{}";
  unmarshal_provider _ := Ok {| bp_Turn := 0; bp_Messages := []; bp_Provider := ""; bp_System := ""; bp_Tools := [] |};
  marshal_provider _ := Ok "{}";
  unmarshal_turn_end _ := Err (errors_New "unexpected end of JSON input"); marshal_turn_end _ := Ok "{}";
  unmarshal_agent_end _ := Err (errors_New "unexpected end of JSON input"); marshal_agent_end _ := Ok "{}";
  marshal_event event := Ok (gv_Payload event);
|}.
#[local] Existing Instance example_json.

Definition ex_runtime_event (id : string) : Event :=
  {| ev_ID := id; ev_Name := "turn_start"; ev_SessionID := "s"; ev_Generation := 1; ev_Payload := "{}" |}.
Definition ex_append (store : memoryEventStore) (id : string) : memoryEventStore :=
  match estore_Append store None "s" (ex_runtime_event id) 1000 with Ok (_, store) => store | Err _ => store end.
Definition ex_log := ex_append (ex_append (ex_append NewMemoryEventStore "e1") "e2") "e1".
Definition ex_cursor : EventQuery := {| evq_After := 2; evq_Limit := 100 |}.
Definition ex_sleep := estore_Wait ex_log "s" ex_cursor.
Definition ex_reader : waiter :=
  {| wt_session := "s"; wt_query := ex_cursor; wt_channel := match ex_sleep.1 with inr channel => channel | inl _ => 0%nat end |}.

Lemma ex_append_step store ws id :
  (∃ created store', estore_Append store None "s" (ex_runtime_event id) 1000 = Ok (created, store')) →
  event_reach (store, ws) → event_reach (ex_append store id, ws).
Proof.
  intros (created & store' & Ha) Hr. eapply rtc_r; [exact Hr|]. unfold ex_append. rewrite Ha. by eapply es_append.
Qed.

Lemma ex_log_reach : event_reach (ex_log, []).
Proof. do 3 (apply ex_append_step; [vm_compute; by do 2 eexists|]). apply rtc_refl. Qed.

Lemma ex_reader_reach : event_reach (ex_sleep.2, [ex_reader]).
Proof.
  eapply rtc_r; [exact ex_log_reach|]. apply (es_sleep _ _ " s" ex_cursor "s" ex_cursor); by vm_compute.
Qed.

Lemma event_pages_complete_witness :
  gv_ID <$> es_Events (me_stream ex_log "s") = ["e1"; "e2"] ∧
  read_stream 3 (me_stream ex_log "s") 1 0 = Some (es_Events (me_stream ex_log "s")).
Proof.
  split; [by vm_compute|].
  apply (event_pages_complete ex_log [] "s" 1 0 ex_log_reach); [|lia..].
  repeat constructor; by eexists.
Defined.

Lemma event_wait_not_lost_witness : wt_channel ex_reader ∈ ch_notified (me_channels (ex_append ex_sleep.2 "e3")).
Proof.
  destruct (event_wait_not_lost ex_sleep.2 [ex_reader] ex_reader_reach) as [Hw _].
  destruct (Hw ex_reader) as [Hin|(_ & _ & Happ)]; [by left|exfalso; by vm_compute in Hin|].
  destruct (estore_Append ex_sleep.2 None "s" (ex_runtime_event "e3") 1000) as [[created store']|] eqn:Ha; [|by vm_compute in Ha].
  unfold ex_append. rewrite Ha. apply (Happ None (ex_runtime_event "e3") 1000 created store' Ha).
  intros Heq. vm_compute in Ha. injection Ha as _ <-. by vm_compute in Heq.
Defined.
