(* ===== verification/GatewayInput.v ===== *)
(** The queue of user inputs of the gateway, [gateway/input.go] and [gateway/input_store_memory.go]: the inputs of
    a session are numbered, dispatched one at a time in their order, bound to one execution each and completed
    once; an input that has not been dispatched can be cancelled. *)

From S2P Require Import Prelude GoText Names Message ContextInjection Delivery Trajectory Agent EventDispatch Payload PromptHost GatewayEvent.

Definition defaultInputPageSize : Z := 100.
Definition maxInputPageSize : Z := 1000.

Definition AgentInputPrompt : string := "prompt".

Inductive AgentInputState :=
  | AgentInputQueued
  | AgentInputDispatching
  | AgentInputSucceeded
  | AgentInputFailed
  | AgentInputCancelled
  | AgentInputOther (text : string).

#[export] Instance AgentInputState_eq_dec : EqDecision AgentInputState.
Proof. solve_decision. Defined.

Definition input_state_text (state : AgentInputState) : string :=
  match state with
  | AgentInputQueued => "queued"
  | AgentInputDispatching => "dispatching"
  | AgentInputSucceeded => "succeeded"
  | AgentInputFailed => "failed"
  | AgentInputCancelled => "cancelled"
  | AgentInputOther text => text
  end.

Definition AgentInputState_Terminal (state : AgentInputState) : bool :=
  match state with AgentInputSucceeded | AgentInputFailed | AgentInputCancelled => true | _ => false end.

Record AgentInput := {
  ai_ID : string;
  ai_SessionID : string;
  ai_Sequence : Z;
  ai_Kind : string;
  ai_Content : string;
  ai_State : AgentInputState;
  ai_ExecutionID : string;
  ai_LastError : string;
  ai_Revision : Z;
  ai_CreatedAt : time;
  ai_UpdatedAt : time;
}.

#[export] Instance AgentInput_eq_dec : EqDecision AgentInput.
Proof. solve_decision. Defined.

Record InputQuery := { iq_After : Z; iq_Limit : Z }.
Record InputPage := { ipg_Items : list AgentInput; ipg_Next : Z }.
Record AcquiredInput := { aq_Input : AgentInput; aq_Resumed : bool }.

Record inputStream := { is_NextSequence : Z; is_Inputs : list AgentInput }.
Definition zeroInputStream : inputStream := {| is_NextSequence := 0; is_Inputs := [] |}.

Definition normalizeAgentInput (input : AgentInput) (e : entropy) : result AgentInput :=
  let id := TrimSpace (ai_ID input) in
  let id := if is_empty id then NewID e else id in
  try? ValidateResourceName "gateway input" id;
  let? sessionID := normalizeEventSessionID (ai_SessionID input) in
  let kind := string_default (ai_Kind input) AgentInputPrompt in
  fail_if negb (bool_decide (kind = AgentInputPrompt)) with Errorf "unknown gateway input kind %q" [AStr kind];
  let content := TrimSpace (ai_Content input) in
  fail_if is_empty content with errors_New "gateway input content is empty";
  Ok {| ai_ID := id; ai_SessionID := sessionID; ai_Sequence := ai_Sequence input; ai_Kind := kind; ai_Content := content;
        ai_State := ai_State input; ai_ExecutionID := ai_ExecutionID input; ai_LastError := ai_LastError input;
        ai_Revision := ai_Revision input; ai_CreatedAt := ai_CreatedAt input; ai_UpdatedAt := ai_UpdatedAt input |}.

Definition normalizeInputQuery (query : InputQuery) : result InputQuery :=
  let limit := if iq_Limit query =? 0 then defaultInputPageSize else iq_Limit query in
  fail_if (limit <? 1) || (maxInputPageSize <? limit) with
    Errorf "gateway input page limit must be between 1 and %d" [ANum maxInputPageSize];
  Ok {| iq_After := iq_After query; iq_Limit := limit |}.

Definition enqueueAgentInput (stream : inputStream) (input : AgentInput) (now : time) : result (inputStream * AgentInput * bool) :=
  match list_find (λ current, ai_ID current = ai_ID input) (is_Inputs stream) with
  | Some (_, current) =>
      if bool_decide (ai_SessionID current = ai_SessionID input) && bool_decide (ai_Kind current = ai_Kind input) &&
         bool_decide (ai_Content current = ai_Content input)
      then Ok (stream, current, false)
      else Err (Wrapf "%w: input ID %s was reused with different content" [AStr (ai_ID input)] (Sentinel ErrInputConflict))
  | None =>
      let next := if is_NextSequence stream =? 0 then 1 else is_NextSequence stream in
      fail_if next =? MaxUint64 with errors_New "gateway input sequence is exhausted";
      let input :=
        {| ai_ID := ai_ID input; ai_SessionID := ai_SessionID input; ai_Sequence := next; ai_Kind := ai_Kind input;
           ai_Content := ai_Content input; ai_State := AgentInputQueued; ai_ExecutionID := ""; ai_LastError := "";
           ai_Revision := 1; ai_CreatedAt := now; ai_UpdatedAt := now |} in
      Ok ({| is_NextSequence := u64 (next + 1); is_Inputs := is_Inputs stream ++ [input] |}, input, true)
  end.

Fixpoint list_inputs_loop (query : InputQuery) (inputs items : list AgentInput) : list AgentInput :=
  match inputs with
  | [] => items
  | input :: rest =>
      if ai_Sequence input <=? iq_After query then list_inputs_loop query rest items else
      let items := items ++ [input] in
      if Z.of_nat (length items) =? iq_Limit query then items else list_inputs_loop query rest items
  end.

Definition listAgentInputs (stream : inputStream) (query : InputQuery) : InputPage :=
  let items := list_inputs_loop query (is_Inputs stream) [] in
  {| ipg_Items := items; ipg_Next := match last items with Some input => ai_Sequence input | None => 0 end |}.

(** The first loop of [acquireAgentInput]. *)
Fixpoint dispatching_loop (index : nat) (dispatching : option nat) (inputs : list AgentInput) : result (option nat) :=
  match inputs with
  | [] => Ok dispatching
  | input :: rest =>
      if negb (bool_decide (ai_State input = AgentInputDispatching)) then dispatching_loop (S index) dispatching rest else
      match dispatching with
      | Some _ => Err (errors_New "gateway input stream contains multiple dispatching inputs")
      | None => dispatching_loop (S index) (Some index) rest
      end
  end.

(** The fields that a change of an input touches. *)
Definition advance_input (input : AgentInput) (state : AgentInputState) (executionID lastError : string) (now : time) : AgentInput :=
  {| ai_ID := ai_ID input; ai_SessionID := ai_SessionID input; ai_Sequence := ai_Sequence input; ai_Kind := ai_Kind input;
     ai_Content := ai_Content input; ai_State := state; ai_ExecutionID := executionID; ai_LastError := lastError;
     ai_Revision := u64 (ai_Revision input + 1); ai_CreatedAt := ai_CreatedAt input; ai_UpdatedAt := now |}.

Definition put_input (stream : inputStream) (index : nat) (input : AgentInput) : inputStream :=
  {| is_NextSequence := is_NextSequence stream; is_Inputs := <[index := input]> (is_Inputs stream) |}.

(** The stream, the input that was acquired, if any, and whether the stream changed. *)
Definition acquireAgentInput (stream : inputStream) (now : time) : result (inputStream * option AcquiredInput * bool) :=
  let? dispatching := dispatching_loop 0 None (is_Inputs stream) in
  match dispatching ≫= λ index, is_Inputs stream !! index with
  | Some input => Ok (stream, Some {| aq_Input := input; aq_Resumed := true |}, false)
  | None =>
      match list_find (λ input, ai_State input = AgentInputQueued) (is_Inputs stream) with
      | None => Ok (stream, None, false)
      | Some (index, input) =>
          let input := advance_input input AgentInputDispatching (ai_ExecutionID input) (ai_LastError input) now in
          Ok (put_input stream index input, Some {| aq_Input := input; aq_Resumed := false |}, true)
      end
  end.

Definition input_not_found (inputID : string) : error := Wrapf "%w: %s" [AStr inputID] (Sentinel ErrInputNotFound).

Definition input_is (input : AgentInput) : error :=
  Wrapf "%w: input %s is %s" [AStr (ai_ID input); AStr (input_state_text (ai_State input))] (Sentinel ErrInputConflict).

Definition bindAgentInputExecution (stream : inputStream) (inputID executionID : string) (now : time)
    : result (inputStream * AgentInput * bool) :=
  try? ValidateResourceName "gateway input execution" executionID;
  match list_find (λ input, ai_ID input = inputID) (is_Inputs stream) with
  | None => Err (input_not_found inputID)
  | Some (index, input) =>
      fail_if negb (bool_decide (ai_State input = AgentInputDispatching)) with input_is input;
      if bool_decide (ai_ExecutionID input = executionID) then Ok (stream, input, false) else
      fail_if negb (is_empty (ai_ExecutionID input)) with
        Wrapf "%w: input %s is bound to execution %s" [AStr (ai_ID input); AStr (ai_ExecutionID input)] (Sentinel ErrInputConflict);
      let input := advance_input input (ai_State input) executionID (ai_LastError input) now in
      Ok (put_input stream index input, input, true)
  end.

Definition completeAgentInput (stream : inputStream) (inputID : string) (state : AgentInputState) (lastError : string) (now : time)
    : result (inputStream * AgentInput * bool) :=
  fail_if negb (AgentInputState_Terminal state) with
    Errorf "gateway input completion state %q is not terminal" [AStr (input_state_text state)];
  let lastError := TrimSpace lastError in
  match list_find (λ input, ai_ID input = inputID) (is_Inputs stream) with
  | None => Err (input_not_found inputID)
  | Some (index, input) =>
      if bool_decide (ai_State input = state) && bool_decide (ai_LastError input = lastError) then Ok (stream, input, false) else
      fail_if negb (bool_decide (ai_State input = AgentInputDispatching)) with input_is input;
      let input := advance_input input state (ai_ExecutionID input) lastError now in
      Ok (put_input stream index input, input, true)
  end.

Definition cancelQueuedAgentInput (stream : inputStream) (inputID : string) (expectedRevision : Z) (now : time)
    : result (inputStream * AgentInput * bool) :=
  match list_find (λ input, ai_ID input = inputID) (is_Inputs stream) with
  | None => Err (input_not_found inputID)
  | Some (index, input) =>
      fail_if negb (ai_Revision input =? expectedRevision) with
        Wrapf "%w: input %s has revision %d, expected %d" [AStr (ai_ID input); ANum (ai_Revision input); ANum expectedRevision]
          (Sentinel ErrInputConflict);
      if bool_decide (ai_State input = AgentInputCancelled) then Ok (stream, input, false) else
      fail_if negb (bool_decide (ai_State input = AgentInputQueued)) with input_is input;
      let input := advance_input input AgentInputCancelled (ai_ExecutionID input) (ai_LastError input) now in
      Ok (put_input stream index input, input, true)
  end.

(** The loop of [validateInputStream]; it returns the last sequence number and the number of dispatching inputs. *)
Fixpoint validate_inputs_loop (sessionID : string) (e : entropy) (index : nat) (previous : Z) (seen : gset string) (dispatching : nat)
    (inputs : list AgentInput) : result (Z * nat) :=
  match inputs with
  | [] => Ok (previous, dispatching)
  | input :: rest =>
      let normalized := normalizeAgentInput input e in
      fail_if match normalized with Ok n => negb (bool_decide (ai_SessionID n = sessionID)) | Err _ => true end ||
              (ai_Sequence input =? 0) || (ai_Sequence input <=? previous) || (ai_Revision input =? 0) ||
              IsZero (ai_CreatedAt input) || IsZero (ai_UpdatedAt input) with
        match normalized with
        | Err err => Wrapf "gateway input stream %q contains invalid input at index %d: %w" [AStr sessionID; ANum (Z.of_nat index)] err
        | Ok _ => Errorf "gateway input stream %q contains invalid input at index %d: %w" [AStr sessionID; ANum (Z.of_nat index)]
        end;
      fail_if bool_decide (ai_ID input ∈ seen) with
        Errorf "gateway input stream %q contains duplicate input %q" [AStr sessionID; AStr (ai_ID input)];
      match ai_State input with
      | AgentInputOther text => Err (Errorf "gateway input %q has invalid state %q" [AStr (ai_ID input); AStr text])
      | state =>
          try? (if is_empty (ai_ExecutionID input) then Ok tt else ValidateResourceName "gateway input execution" (ai_ExecutionID input));
          validate_inputs_loop sessionID e (S index) (ai_Sequence input) ({[ai_ID input]} ∪ seen)
            (if bool_decide (state = AgentInputDispatching) then S dispatching else dispatching) rest
      end
  end.

Definition validateInputStream (sessionID : string) (e : entropy) (stream : inputStream) : result inputStream :=
  let next := if is_NextSequence stream =? 0 then 1 else is_NextSequence stream in
  let? '(previous, dispatching) := validate_inputs_loop sessionID e 0 0 ∅ 0 (is_Inputs stream) in
  fail_if (1 <? dispatching)%nat || (next <=? previous) with
    Errorf "gateway input stream %q has inconsistent sequencing or dispatch state" [AStr sessionID];
  Ok {| is_NextSequence := next; is_Inputs := is_Inputs stream |}.

(** ** The in-memory store *)

Record memoryInputStore := {
  mi_streams : gmap string inputStream;
  mi_closed : bool;
}.

Definition NewMemoryInputStore : memoryInputStore := {| mi_streams := ∅; mi_closed := false |}.

Definition mi_stream (store : memoryInputStore) (sessionID : string) : inputStream :=
  default zeroInputStream (mi_streams store !! sessionID).

Definition mi_put (store : memoryInputStore) (sessionID : string) (stream : inputStream) : memoryInputStore :=
  {| mi_streams := <[sessionID := stream]> (mi_streams store); mi_closed := mi_closed store |}.

Definition istore_Enqueue (store : memoryInputStore) (ctx : context) (input : AgentInput) (e : entropy) (now : time)
    : result (AgentInput * memoryInputStore) :=
  try? ctx_Err ctx;
  let? input := normalizeAgentInput input e in
  fail_if mi_closed store with Sentinel ErrStoreClosed;
  let? '(stream, created, _) := enqueueAgentInput (mi_stream store (ai_SessionID input)) input now in
  Ok (created, mi_put store (ai_SessionID input) stream).

Definition istore_Get (store : memoryInputStore) (ctx : context) (sessionID inputID : string) : result AgentInput :=
  try? ctx_Err ctx;
  fail_if mi_closed store with Sentinel ErrStoreClosed;
  match list_find (λ input, ai_ID input = TrimSpace inputID) (is_Inputs (mi_stream store (TrimSpace sessionID))) with
  | Some (_, input) => Ok input
  | None => Err (input_not_found inputID)
  end.

Definition istore_List (store : memoryInputStore) (ctx : context) (sessionID : string) (query : InputQuery) : result InputPage :=
  try? ctx_Err ctx;
  let? sessionID := normalizeEventSessionID sessionID in
  let? query := normalizeInputQuery query in
  fail_if mi_closed store with Sentinel ErrStoreClosed;
  Ok (listAgentInputs (mi_stream store sessionID) query).

Definition istore_AcquireNext (store : memoryInputStore) (ctx : context) (sessionID : string) (now : time)
    : result (option AcquiredInput * memoryInputStore) :=
  try? ctx_Err ctx;
  let? sessionID := normalizeEventSessionID sessionID in
  fail_if mi_closed store with Sentinel ErrStoreClosed;
  let? '(stream, acquired, changed) := acquireAgentInput (mi_stream store sessionID) now in
  Ok (acquired, if changed : bool then mi_put store sessionID stream else store).

(** The three methods that change one input of a stream they are given the name of. *)
Definition istore_change (store : memoryInputStore) (ctx : context) (sessionID : string)
    (change : inputStream → result (inputStream * AgentInput * bool)) : result (AgentInput * memoryInputStore) :=
  try? ctx_Err ctx;
  fail_if mi_closed store with Sentinel ErrStoreClosed;
  let? '(stream, input, changed) := change (mi_stream store sessionID) in
  Ok (input, if changed : bool then mi_put store sessionID stream else store).

Definition istore_BindExecution (store : memoryInputStore) (ctx : context) (sessionID inputID executionID : string) (now : time)
    : result (AgentInput * memoryInputStore) :=
  istore_change store ctx sessionID (λ stream, bindAgentInputExecution stream inputID executionID now).

Definition istore_Complete (store : memoryInputStore) (ctx : context) (sessionID inputID : string) (state : AgentInputState)
    (lastError : string) (now : time) : result (AgentInput * memoryInputStore) :=
  istore_change store ctx sessionID (λ stream, completeAgentInput stream inputID state lastError now).

Definition istore_CancelQueued (store : memoryInputStore) (ctx : context) (sessionID inputID : string) (expectedRevision : Z) (now : time)
    : result (AgentInput * memoryInputStore) :=
  istore_change store ctx sessionID (λ stream, cancelQueuedAgentInput stream inputID expectedRevision now).

Definition istore_Close (store : memoryInputStore) : memoryInputStore := {| mi_streams := mi_streams store; mi_closed := true |}.
