(* ===== verification/GatewayInputProperties.v ===== *)
(** The input queue of the gateway: the inputs of a session are dispatched one at a time and in their order,
    each at most once, and a finished one never changes. *)

From S2P Require Import Prelude GoText Names Message ContextInjection Delivery Trajectory Agent EventDispatch Payload PromptHost GatewayEvent GatewayEventProperties GatewayInput.

(** ** The invariant of a stream *)

Definition input_terminal (input : AgentInput) : Prop := AgentInputState_Terminal (ai_State input) = true.

(** The input has left the queue other than by a cancellation. *)
Definition input_started (input : AgentInput) : Prop :=
  ai_ExecutionID input ≠ "" ∨
  match ai_State input with AgentInputDispatching | AgentInputSucceeded | AgentInputFailed => True | _ => False end.

Record input_valid (sessionID : string) (input : AgentInput) : Prop := {
  iv_id : valid_name (ai_ID input);
  iv_session : ai_SessionID input = sessionID;
  iv_name : valid_name sessionID;
  iv_kind : ai_Kind input = AgentInputPrompt;
  iv_content : ai_Content input ≠ "" ∧ TrimSpace (ai_Content input) = ai_Content input;
  iv_execution : ai_ExecutionID input = "" ∨ valid_name (ai_ExecutionID input);
  iv_times : 0 < ai_CreatedAt input ∧ 0 < ai_UpdatedAt input;
  iv_state : match ai_State input with
    | AgentInputQueued => ai_Revision input = 1 ∧ ai_ExecutionID input = ""
    | AgentInputDispatching => ai_Revision input = if is_empty (ai_ExecutionID input) then 2 else 3
    | AgentInputOther _ => False
    | _ => 2 ≤ ai_Revision input ≤ 4
    end;
}.

Definition serial (inputs : list AgentInput) : Prop :=
  ∀ i j a b, (i < j)%nat → inputs !! i = Some a → inputs !! j = Some b → input_started b → input_terminal a.

Record istream_wf (sessionID : string) (stream : inputStream) : Prop := {
  isw_sequence i input : is_Inputs stream !! i = Some input → ai_Sequence input = Z.of_nat i + 1;
  isw_next : is_NextSequence stream = 0 ∧ is_Inputs stream = [] ∨
             is_NextSequence stream = Z.of_nat (length (is_Inputs stream)) + 1;
  isw_ids : NoDup (ai_ID <$> is_Inputs stream);
  isw_valid i input : is_Inputs stream !! i = Some input → input_valid sessionID input;
  isw_serial : serial (is_Inputs stream);
  isw_bound : is_NextSequence stream < two64;
}.

(** What a later reader of an input finds. *)
Record input_leads (a b : AgentInput) : Prop := {
  il_identity : (ai_ID b, ai_SessionID b, ai_Sequence b, ai_Kind b, ai_Content b, ai_CreatedAt b) =
                (ai_ID a, ai_SessionID a, ai_Sequence a, ai_Kind a, ai_Content a, ai_CreatedAt a);
  il_final : input_terminal a → b = a;
  il_execution : ai_ExecutionID a ≠ "" → ai_ExecutionID b = ai_ExecutionID a;
  il_revision : b = a ∨ ai_Revision a < ai_Revision b;
}.

Lemma input_leads_refl a : input_leads a a.
Proof. split; auto. Qed.

Lemma input_leads_trans a b c : input_leads a b → input_leads b c → input_leads a c.
Proof.
  intros [H1 H2 H4 H5] [K1 K2 K4 K5]. split.
  - congruence.
  - intros Ht. rewrite <- (H2 Ht). apply K2. by rewrite (H2 Ht).
  - intros He. rewrite K4; [by apply H4|]. by rewrite H4.
  - destruct H5 as [->|H5], K5 as [->|K5]; [by left|by right|by right|right; lia].
Qed.

Lemma zero_istream_wf sessionID : istream_wf sessionID zeroInputStream.
Proof. split; cbn; [by intros ? ?; rewrite lookup_nil|by left|constructor|by intros ? ?; rewrite lookup_nil| |done]. by intros ? ? ? ? _; rewrite lookup_nil. Qed.

Lemma queued_not_started sessionID input : input_valid sessionID input → ai_State input = AgentInputQueued → ¬ input_started input.
Proof.
  intros Hv Hs. pose proof (iv_state _ _ Hv) as Hst. rewrite Hs in Hst. destruct Hst as [_ He]. intros [?|Hin]; [done|].
  by rewrite Hs in Hin.
Qed.

(** ** One input changes *)

(** The change of an input from [a] to [b]; the first start of an input needs the ones before it to be done. *)
Record input_change (sessionID : string) (before : list AgentInput) (a b : AgentInput) : Prop := {
  ic_valid : input_valid sessionID b;
  ic_leads : input_leads a b;
  ic_live : ¬ input_terminal a;
  ic_order : input_started b → input_started a ∨ Forall input_terminal before;
}.

Lemma put_input_wf sessionID stream index a b :
  istream_wf sessionID stream → is_Inputs stream !! index = Some a →
  input_change sessionID (take index (is_Inputs stream)) a b →
  istream_wf sessionID (put_input stream index b).
Proof.
  intros [Hseq Hnext Hids Hval Hser Hb] Ha [Hv Hl Hlive Hord].
  pose proof (il_identity _ _ Hl) as Hi. injection Hi as Hid Hsess Hsq Hkind Hcont Hcr.
  assert (index < length (is_Inputs stream))%nat as Hlt by (by eapply lookup_lt_Some).
  assert (∀ i x, <[index := b]> (is_Inputs stream) !! i = Some x → (i = index ∧ x = b) ∨ (i ≠ index ∧ is_Inputs stream !! i = Some x)) as Hlook.
  { intros i x [(-> & <- & _)|(Hne & Hx)]%list_lookup_insert_Some; auto. }
  split; cbn.
  - intros i x [[-> ->]|[_ Hx]]%Hlook; [rewrite Hsq; by apply Hseq|by apply Hseq].
  - rewrite length_insert. destruct Hnext as [[? Hnil]|?]; [|by right]. rewrite Hnil in Hlt. cbn in Hlt. lia.
  - rewrite list_fmap_insert. rewrite list_insert_id; [done|]. by rewrite list_lookup_fmap, Ha, Hid.
  - intros i x [[-> ->]|[_ Hx]]%Hlook; [done|by eapply Hval].
  - intros i j x y Hij Hx Hy Hsy. apply Hlook in Hx, Hy.
    assert (input_started a → i ≠ index → is_Inputs stream !! i = Some x → j = index → input_terminal x) as Hprev.
    { intros Hs _ Hxi ->. by eapply (Hser i index x a). }
    destruct Hx as [[-> ->]|[Hni Hx]], Hy as [[-> ->]|[Hnj Hy]]; [lia| | |by eapply (Hser i j)].
    + exfalso. apply Hlive. by eapply (Hser index j a y).
    + destruct (Hord Hsy) as [Hs|Hall]; [by eapply (Hser i index x a)|].
      rewrite Forall_lookup in Hall. apply (Hall i). by rewrite lookup_take_lt.
  - done.
Qed.

Lemma list_find_input stream id index input :
  list_find (λ input, ai_ID input = id) (is_Inputs stream) = Some (index, input) →
  is_Inputs stream !! index = Some input ∧ ai_ID input = id.
Proof. intros (H1 & H2 & _)%list_find_Some. done. Qed.

(** ** The operations on a stream *)

Definition stream_leads (s s' : inputStream) : Prop :=
  ∀ i a, is_Inputs s !! i = Some a → ∃ b, is_Inputs s' !! i = Some b ∧ input_leads a b.

Lemma stream_leads_refl s : stream_leads s s.
Proof. intros i a Ha. exists a. split; [done|apply input_leads_refl]. Qed.

Lemma stream_leads_trans s1 s2 s3 : stream_leads s1 s2 → stream_leads s2 s3 → stream_leads s1 s3.
Proof.
  intros H1 H2 i a Ha. destruct (H1 _ _ Ha) as (b & Hb & Hab). destruct (H2 _ _ Hb) as (c & Hc & Hbc).
  exists c. split; [done|by eapply input_leads_trans].
Qed.

Lemma put_input_leads stream index a b :
  is_Inputs stream !! index = Some a → input_leads a b → stream_leads stream (put_input stream index b).
Proof.
  intros Ha Hl i x Hx. cbn. destruct (decide (i = index)) as [->|Hne].
  - exists b. rewrite list_lookup_insert_eq by (by eapply lookup_lt_Some). split; [done|]. congruence.
  - exists x. rewrite list_lookup_insert_ne by done. split; [done|apply input_leads_refl].
Qed.

(** What an operation may do to a stream. *)
Definition stream_step (sessionID : string) (s s' : inputStream) : Prop :=
  istream_wf sessionID s' ∧ stream_leads s s'.

Lemma stream_step_put sessionID stream index a b :
  istream_wf sessionID stream → is_Inputs stream !! index = Some a →
  input_change sessionID (take index (is_Inputs stream)) a b → stream_step sessionID stream (put_input stream index b).
Proof. intros Hwf Ha Hc. split; [by eapply put_input_wf|]. eapply put_input_leads; [done|apply Hc]. Qed.

Lemma normalizeAgentInput_spec input e n :
  normalizeAgentInput input e = Ok n →
  valid_name (ai_ID n) ∧ valid_name (ai_SessionID n) ∧ ai_Kind n = AgentInputPrompt ∧
  ai_Content n ≠ "" ∧ TrimSpace (ai_Content n) = ai_Content n.
Proof.
  unfold normalizeAgentInput. intros (u & Hid & H1)%bind_Ok. apply bind_Ok in H1 as (sid & Hs & H1).
  case_bool_decide as Hk; [|done]. cbn [negb] in H1. destruct (is_empty (TrimSpace (ai_Content input))) eqn:He; [done|]. injection H1 as <-. cbn.
  apply ValidateResourceName_Ok in Hid. apply bind_Ok in Hs as (u' & Hs & [= <-]). apply ValidateResourceName_Ok in Hs.
  apply is_empty_false in He. split_and!; try done. apply TrimSpace_idem.
Qed.

Lemma enqueue_step sessionID stream input now stream' created changed :
  istream_wf sessionID stream → valid_name (ai_ID input) → valid_name sessionID → ai_SessionID input = sessionID →
  ai_Kind input = AgentInputPrompt → ai_Content input ≠ "" → TrimSpace (ai_Content input) = ai_Content input → 0 < now →
  enqueueAgentInput stream input now = Ok (stream', created, changed) → stream_step sessionID stream stream'.
Proof.
  intros Hwf Hid Hname Hsess Hk Hc Htrim Hnow. unfold enqueueAgentInput.
  destruct (list_find _ _) as [[i current]|] eqn:Hf.
  { destruct (_ && _); [|done]. intros [= <- _ _]. split; [done|apply stream_leads_refl]. }
  destruct Hwf as [Hseq Hnext Hids Hval Hser Hb]. set (next := if _ =? 0 then _ else _).
  assert (next = Z.of_nat (length (is_Inputs stream)) + 1) as Hn.
  { subst next. destruct Hnext as [[-> ->] | ->]; [done|]. by destruct (Z.eqb_spec (Z.of_nat (length (is_Inputs stream)) + 1) 0); [lia|]. }
  destruct (Z.eqb_spec next MaxUint64) as [|Hne]; [done|]. intros [= <- <- _]. unfold MaxUint64 in Hne.
  assert (next < two64) by (destruct Hnext as [[? Hnil]|?]; [rewrite Hnil in Hn; cbn in Hn; rewrite Hn; done|lia]).
  rewrite u64_small by lia.
  assert (∀ i x new, (is_Inputs stream ++ [new]) !! i = Some x →
    is_Inputs stream !! i = Some x ∨ (i = length (is_Inputs stream) ∧ x = new)) as Hlook.
  { intros i x new [Hx|[Hlen Hx]]%lookup_app_Some; [by left|]. apply list_lookup_singleton_Some in Hx as [Hi <-]. right. split; [lia|done]. }
  split; [|intros i a Ha; exists a; split; [by apply lookup_app_l_Some|apply input_leads_refl]]. split; cbn.
  - intros i x [Hx|[-> ->]]%Hlook; [by apply Hseq|cbn; lia].
  - right. rewrite length_app. cbn. lia.
  - rewrite fmap_app. apply NoDup_app. split_and!; [done| |apply NoDup_singleton].
    cbn. intros x Hx ->%list_elem_of_singleton. apply list_find_None in Hf. rewrite Forall_forall in Hf.
    apply list_elem_of_fmap in Hx as (y & Hy & Hin). by apply (Hf y Hin).
  - intros i x [Hx|[-> ->]]%Hlook; [by eapply Hval|]. split; cbn; auto.
  - intros i j a b Hij Ha Hb' Hsb. apply Hlook in Ha, Hb'. destruct Hb' as [Hb'|[-> ->]].
    + destruct Ha as [Ha|[-> _]]; [by eapply (Hser i j)|]. apply lookup_lt_Some in Hb'. lia.
    + by destruct Hsb as [?|Hin].
  - lia.
Qed.

(** An input that advances from a live state. *)
Lemma advance_change sessionID before a state executionID lastError now :
  input_valid sessionID a → ¬ input_terminal a → 0 < now →
  ai_ExecutionID a = "" ∨ executionID = ai_ExecutionID a → executionID = "" ∨ valid_name executionID →
  match ai_State a, state with
  | AgentInputQueued, AgentInputDispatching => executionID = "" ∧ Forall input_terminal before
  | AgentInputQueued, AgentInputCancelled => executionID = ""
  | AgentInputDispatching, AgentInputDispatching => ai_ExecutionID a = "" ∧ executionID ≠ ""
  | AgentInputDispatching, (AgentInputSucceeded | AgentInputFailed | AgentInputCancelled) => executionID = ai_ExecutionID a
  | _, _ => False
  end →
  input_change sessionID before a (advance_input a state executionID lastError now).
Proof.
  intros Hv Hlive Hnow Hex Hname Hst. pose proof (iv_state _ _ Hv) as Hrev.
  assert (1 ≤ ai_Revision a ≤ 3) as Hr.
  { unfold input_terminal in Hlive. destruct (ai_State a); try (by destruct Hlive); try done; [lia|].
    destruct (is_empty _); lia. }
  assert (u64 (ai_Revision a + 1) = ai_Revision a + 1) as Hu by (apply u64_small; unfold two64; lia).
  split.
  - split; cbn; try apply Hv; [done|destruct (iv_times _ _ Hv); lia|]. rewrite Hu.
    destruct (ai_State a), state; try done; cbn.
    + destruct Hst as [-> _]. destruct Hrev as [-> _]. done.
    + destruct Hrev as [-> _]. lia.
    + destruct Hst as [He Hne]. rewrite Hrev, He. by destruct executionID.
    + rewrite Hrev. destruct (is_empty _); lia.
    + rewrite Hrev. destruct (is_empty _); lia.
    + rewrite Hrev. destruct (is_empty _); lia.
  - split; cbn; try done.
    + intros He. destruct Hex as [?|Hex]; done.
    + right. lia.
  - done.
  - intros Hs. destruct (ai_State a) eqn:Hsa, state; try done; try (left; right; by rewrite Hsa).
    + right. apply Hst.
    + by destruct Hs as [He|Hin].
Qed.

Lemma bind_step sessionID stream inputID executionID now stream' input changed :
  istream_wf sessionID stream → 0 < now →
  bindAgentInputExecution stream inputID executionID now = Ok (stream', input, changed) →
  stream_step sessionID stream (if changed then stream' else stream).
Proof.
  intros Hwf Hnow. unfold bindAgentInputExecution. intros (u & Hname%ValidateResourceName_Ok & H1)%bind_Ok.
  destruct (list_find _ _) as [[index a]|] eqn:Hf; [|done]. apply list_find_input in Hf as [Ha Hid].
  case_bool_decide as Hs; [|done]. cbn [negb] in H1. case_bool_decide as He.
  { injection H1 as <- <- <-. split; [done|apply stream_leads_refl]. }
  destruct (is_empty (ai_ExecutionID a)) eqn:Hem; [|done]. injection H1 as <- <- <-. apply is_empty_true in Hem.
  eapply stream_step_put; [done..|]. apply advance_change; [by eapply isw_valid|unfold input_terminal; by rewrite Hs|done|by left|by right|].
  rewrite Hs. split; [done|]. congruence.
Qed.

Lemma complete_step sessionID stream inputID state lastError now stream' input changed :
  istream_wf sessionID stream → 0 < now →
  completeAgentInput stream inputID state lastError now = Ok (stream', input, changed) →
  stream_step sessionID stream (if changed then stream' else stream).
Proof.
  intros Hwf Hnow. unfold completeAgentInput. destruct (AgentInputState_Terminal state) eqn:Ht; [|done]. cbn [negb].
  destruct (list_find _ _) as [[index a]|] eqn:Hf; [|done]. apply list_find_input in Hf as [Ha Hid].
  destruct (_ && _). { intros [= <- <- <-]. split; [done|apply stream_leads_refl]. }
  case_bool_decide as Hs; [|done]. cbn [negb]. intros [= <- <- <-]. pose proof (isw_valid _ _ Hwf _ _ Ha) as Hv.
  eapply stream_step_put; [done..|]. apply advance_change; [done|unfold input_terminal; by rewrite Hs|done|by right|apply Hv|].
  rewrite Hs. by destruct state.
Qed.

Lemma cancel_step sessionID stream inputID revision now stream' input changed :
  istream_wf sessionID stream → 0 < now →
  cancelQueuedAgentInput stream inputID revision now = Ok (stream', input, changed) →
  stream_step sessionID stream (if changed then stream' else stream).
Proof.
  intros Hwf Hnow. unfold cancelQueuedAgentInput.
  destruct (list_find _ _) as [[index a]|] eqn:Hf; [|done]. apply list_find_input in Hf as [Ha Hid].
  destruct (negb (_ =? _)); [done|]. case_bool_decide. { intros [= <- <- <-]. split; [done|apply stream_leads_refl]. }
  case_bool_decide as Hs; [|done]. cbn [negb]. intros [= <- <- <-]. pose proof (isw_valid _ _ Hwf _ _ Ha) as Hv.
  eapply stream_step_put; [done..|]. apply advance_change; [done|unfold input_terminal; by rewrite Hs|done|by right|apply Hv|].
  rewrite Hs. pose proof (iv_state _ _ Hv) as Hst. rewrite Hs in Hst. apply Hst.
Qed.

(** ** Acquisition *)

Definition dispatching (input : AgentInput) : Prop := ai_State input = AgentInputDispatching.

Lemma dispatching_loop_found index k inputs :
  Forall (λ input, ¬ dispatching input) inputs → dispatching_loop index (Some k) inputs = Ok (Some k).
Proof.
  revert index. induction inputs as [|input inputs IH]; intros index Hf; [done|]. apply Forall_cons in Hf as [H1 H2]. cbn.
  rewrite bool_decide_eq_false_2 by done. by apply IH.
Qed.

Lemma dispatching_loop_none index inputs :
  Forall (λ input, ¬ dispatching input) inputs → dispatching_loop index None inputs = Ok None.
Proof.
  revert index. induction inputs as [|input inputs IH]; intros index Hf; [done|]. apply Forall_cons in Hf as [H1 H2]. cbn.
  rewrite bool_decide_eq_false_2 by done. by apply IH.
Qed.

Lemma dispatching_loop_at index k inputs input :
  inputs !! k = Some input → dispatching input → (∀ i a, i ≠ k → inputs !! i = Some a → ¬ dispatching a) →
  dispatching_loop index None inputs = Ok (Some (index + k)%nat).
Proof.
  revert index k. induction inputs as [|x inputs IH]; intros index k Hk Hd Hothers; [by rewrite lookup_nil in Hk|]. cbn.
  destruct k as [|k].
  - injection Hk as ->. rewrite bool_decide_eq_true_2 by done. cbn. rewrite Nat.add_0_r. apply dispatching_loop_found.
    apply Forall_lookup. intros i a Ha. by apply (Hothers (S i)).
  - rewrite bool_decide_eq_false_2 by (by apply (Hothers 0%nat)). cbn. rewrite Nat.add_succ_r.
    apply (IH (S index) k); [done|done|]. intros i a Hi Ha. apply (Hothers (S i)); [lia|done].
Qed.

(** In a well-formed stream at most one input is being dispatched. *)
Lemma serial_dispatching sessionID stream i j a b :
  istream_wf sessionID stream → is_Inputs stream !! i = Some a → is_Inputs stream !! j = Some b →
  dispatching a → dispatching b → i = j.
Proof.
  intros Hwf Ha Hb Hda Hdb. assert (∀ x, dispatching x → input_started x ∧ ¬ input_terminal x) as Hd.
  { intros x Hx. unfold dispatching in Hx. split; [right|unfold input_terminal]; by rewrite Hx. }
  destruct (Nat.lt_trichotomy i j) as [Hlt|[|Hlt]]; [|done|].
  - exfalso. apply (Hd a Hda). by eapply (isw_serial _ _ Hwf i j); [..|apply Hd].
  - exfalso. apply (Hd b Hdb). by eapply (isw_serial _ _ Hwf j i); [..|apply Hd].
Qed.

(** What a stream has to offer next: the input being dispatched, or else the first queued one. *)
Definition next_input (stream : inputStream) : option (nat * AgentInput) :=
  match list_find dispatching (is_Inputs stream) with
  | Some found => Some found
  | None => list_find (λ input, ai_State input = AgentInputQueued) (is_Inputs stream)
  end.

Lemma acquire_spec sessionID stream now :
  istream_wf sessionID stream → 0 < now →
  match next_input stream with
  | None => acquireAgentInput stream now = Ok (stream, None, false)
  | Some (index, a) =>
      if bool_decide (dispatching a)
      then acquireAgentInput stream now = Ok (stream, Some {| aq_Input := a; aq_Resumed := true |}, false)
      else let b := advance_input a AgentInputDispatching (ai_ExecutionID a) (ai_LastError a) now in
           acquireAgentInput stream now = Ok (put_input stream index b, Some {| aq_Input := b; aq_Resumed := false |}, true) ∧
           stream_step sessionID stream (put_input stream index b) ∧ ai_State a = AgentInputQueued ∧
           Forall input_terminal (take index (is_Inputs stream))
  end.
Proof.
  intros Hwf Hnow. unfold next_input, acquireAgentInput. destruct (list_find dispatching _) as [[k a]|] eqn:Hd.
  { apply list_find_Some in Hd as (Ha & Hda & _). rewrite bool_decide_eq_true_2 by done.
    rewrite (dispatching_loop_at 0 k _ a Ha Hda); [cbn; by rewrite Ha|].
    intros i x Hne Hx Hdx. apply Hne. by eapply serial_dispatching. }
  apply list_find_None in Hd. rewrite dispatching_loop_none by done. cbn.
  destruct (list_find _ _) as [[k a]|] eqn:Hq; [|done]. apply list_find_Some in Hq as (Ha & Hqa & Hbefore).
  rewrite bool_decide_eq_false_2 by (unfold dispatching; by rewrite Hqa).
  pose proof (isw_valid _ _ Hwf _ _ Ha) as Hv. pose proof (iv_state _ _ Hv) as Hst. rewrite Hqa in Hst. destruct Hst as [_ He].
  assert (Forall input_terminal (take k (is_Inputs stream))) as Hall.
  { apply Forall_lookup. intros i x [Hx Hlt]%lookup_take_Some. rewrite Forall_lookup in Hd.
    pose proof (Hd i x Hx) as Hnd. pose proof (Hbefore i x Hx Hlt) as Hnq.
    pose proof (iv_state _ _ (isw_valid _ _ Hwf _ _ Hx)) as Hsx. unfold dispatching in Hnd. unfold input_terminal.
    by destruct (ai_State x). }
  split_and!; [done| |done|done]. eapply stream_step_put; [done..|].
  apply advance_change; [done|unfold input_terminal; by rewrite Hqa|done|by left|by left|]. by rewrite Hqa.
Qed.

(** ** The store *)

Inductive input_step : memoryInputStore → memoryInputStore → Prop :=
  | in_enqueue store ctx input e now created store' :
      0 < now → istore_Enqueue store ctx input e now = Ok (created, store') → input_step store store'
  | in_acquire store ctx sessionID now acquired store' :
      0 < now → istore_AcquireNext store ctx sessionID now = Ok (acquired, store') → input_step store store'
  | in_bind store ctx sessionID inputID executionID now input store' :
      0 < now → istore_BindExecution store ctx sessionID inputID executionID now = Ok (input, store') → input_step store store'
  | in_complete store ctx sessionID inputID state lastError now input store' :
      0 < now → istore_Complete store ctx sessionID inputID state lastError now = Ok (input, store') → input_step store store'
  | in_cancel store ctx sessionID inputID revision now input store' :
      0 < now → istore_CancelQueued store ctx sessionID inputID revision now = Ok (input, store') → input_step store store'
  | in_close store : input_step store (istore_Close store).

Definition input_run : memoryInputStore → memoryInputStore → Prop := rtc input_step.
Definition input_reach (store : memoryInputStore) : Prop := input_run NewMemoryInputStore store.

Definition istore_ok (store : memoryInputStore) : Prop := ∀ sessionID, istream_wf sessionID (mi_stream store sessionID).

Definition istore_leads (store store' : memoryInputStore) : Prop :=
  ∀ sessionID, stream_leads (mi_stream store sessionID) (mi_stream store' sessionID).

Lemma mi_stream_put store sessionID stream s :
  mi_stream (mi_put store sessionID stream) s = if decide (s = sessionID) then stream else mi_stream store s.
Proof.
  unfold mi_stream, mi_put. cbn. case_decide as Hs; [subst; by rewrite lookup_insert_eq|by rewrite lookup_insert_ne].
Qed.

Lemma istore_put_ok store sessionID stream :
  istore_ok store → stream_step sessionID (mi_stream store sessionID) stream →
  istore_ok (mi_put store sessionID stream) ∧ istore_leads store (mi_put store sessionID stream).
Proof.
  intros Hok [Hwf Hl]. split; intros s; rewrite mi_stream_put; case_decide; subst; auto using stream_leads_refl.
Qed.

Lemma istore_change_ok store ctx sessionID change input store' :
  istore_ok store → istore_change store ctx sessionID change = Ok (input, store') →
  (∀ stream' input' changed, change (mi_stream store sessionID) = Ok (stream', input', changed) →
     stream_step sessionID (mi_stream store sessionID) (if changed : bool then stream' else mi_stream store sessionID)) →
  istore_ok store' ∧ istore_leads store store'.
Proof.
  intros Hok H1 Hchange. unfold istore_change in H1. apply bind_Ok in H1 as (u & _ & H1). destruct (mi_closed store); [done|].
  apply bind_Ok in H1 as ([[stream' input'] changed] & Hc & H1). injection H1 as <- <-. specialize (Hchange _ _ _ Hc).
  destruct changed; [by apply istore_put_ok|]. split; [done|intros s; apply stream_leads_refl].
Qed.

Lemma istore_AcquireNext_inv store ctx rawID now acquired store' :
  istore_AcquireNext store ctx rawID now = Ok (acquired, store') →
  ∃ sessionID stream changed, normalizeEventSessionID rawID = Ok sessionID ∧ mi_closed store = false ∧
    acquireAgentInput (mi_stream store sessionID) now = Ok (stream, acquired, changed) ∧
    store' = if changed : bool then mi_put store sessionID stream else store.
Proof.
  unfold istore_AcquireNext. intros (u & _ & H1)%bind_Ok. apply bind_Ok in H1 as (sessionID & Hs & H1).
  destruct (mi_closed store) eqn:Hc; [done|]. apply bind_Ok in H1 as ([[stream a] changed] & Ha & H1). injection H1 as <- <-. eauto 10.
Qed.

Lemma acquire_ok store ctx rawID now acquired store' :
  istore_ok store → 0 < now → istore_AcquireNext store ctx rawID now = Ok (acquired, store') →
  istore_ok store' ∧ istore_leads store store'.
Proof.
  intros Hok Hnow (sessionID & stream & changed & _ & _ & Ha & ->)%istore_AcquireNext_inv.
  pose proof (acquire_spec _ _ now (Hok sessionID) Hnow) as Hspec.
  assert (istore_leads store store) as Hrefl by (intros s; apply stream_leads_refl).
  destruct (next_input _) as [[index a]|]; [|rewrite Ha in Hspec; by injection Hspec as -> -> ->].
  case_bool_decide; [rewrite Ha in Hspec; by injection Hspec as -> -> ->|].
  destruct Hspec as (Heq & Hstep & _). rewrite Ha in Heq. injection Heq as -> -> ->. by apply istore_put_ok.
Qed.

Lemma input_step_ok store store' : input_step store store' → istore_ok store → istore_ok store' ∧ istore_leads store store'.
Proof.
  intros Hstep Hok. destruct Hstep as
    [store ctx input e now created store' Hnow H1|store ctx rawID now acquired store' Hnow H1|store ctx sid iid eid now input store' Hnow H1|
     store ctx sid iid state text now input store' Hnow H1|store ctx sid iid revision now input store' Hnow H1|store].
  - unfold istore_Enqueue in H1. apply bind_Ok in H1 as (u & _ & H1). apply bind_Ok in H1 as (n & Hn & H1).
    destruct (mi_closed store); [done|]. apply bind_Ok in H1 as ([[stream c] changed] & He & H1). injection H1 as <- <-.
    apply normalizeAgentInput_spec in Hn as (? & ? & ? & ? & ?). apply istore_put_ok; [done|].
    eapply enqueue_step; [apply Hok|done..].
  - by eapply acquire_ok.
  - eapply istore_change_ok; [done..|]. intros ? ? ? Hb. eapply bind_step; [apply Hok|done|exact Hb].
  - eapply istore_change_ok; [done..|]. intros ? ? ? Hb. eapply complete_step; [apply Hok|done|exact Hb].
  - eapply istore_change_ok; [done..|]. intros ? ? ? Hb. eapply cancel_step; [apply Hok|done|exact Hb].
  - split; [done|]. intros s. apply stream_leads_refl.
Qed.

Lemma input_run_ok store store' : input_run store store' → istore_ok store → istore_ok store' ∧ istore_leads store store'.
Proof.
  induction 1 as [store|store1 store2 store3 Hstep _ IH]; intros Hok; [split; [done|intros s; apply stream_leads_refl]|].
  destruct (input_step_ok _ _ Hstep Hok) as [Hok2 Hl]. destruct (IH Hok2) as [Hok3 Hl']. split; [done|].
  intros s. eapply stream_leads_trans; [apply Hl|apply Hl'].
Qed.

Lemma input_reach_ok store : input_reach store → istore_ok store.
Proof. intros Hr. apply (input_run_ok _ _ Hr). intros s. apply zero_istream_wf. Qed.

(** ** Stored streams load *)

Lemma normalize_valid sessionID input e :
  input_valid sessionID input → ∃ n, normalizeAgentInput input e = Ok n ∧ ai_SessionID n = sessionID.
Proof.
  intros [Hid Hs Hn Hk [Hc Ht] _ _ _]. unfold normalizeAgentInput, normalizeEventSessionID.
  rewrite (TrimSpace_name _ Hid). pose proof (valid_name_nonempty _ Hid) as Hne%is_empty_false. rewrite Hne.
  unfold ValidateResourceName. unfold valid_name in Hid, Hn. rewrite Hid. cbn.
  rewrite Hs, (TrimSpace_name _ Hn). rewrite Hn. cbn. rewrite Hk, Ht. cbn. apply is_empty_false in Hc. rewrite Hc. by eexists.
Qed.

Fixpoint dispatch_count (inputs : list AgentInput) : nat :=
  match inputs with
  | [] => 0
  | input :: rest => if bool_decide (dispatching input) then S (dispatch_count rest) else dispatch_count rest
  end.

Lemma dispatch_count_serial inputs : serial inputs → (dispatch_count inputs ≤ 1)%nat.
Proof.
  induction inputs as [|a inputs IH]; intros Hs; cbn; [lia|].
  assert (serial inputs) as Hs' by (intros i j x y Hij Hx Hy; apply (Hs (S i) (S j) x y); [lia|done..]).
  specialize (IH Hs'). case_bool_decide as Hd; [|lia]. destruct (dispatch_count inputs) as [|n] eqn:Hc; [lia|].
  assert (∃ j b, inputs !! j = Some b ∧ dispatching b) as (j & b & Hb & Hdb).
  { clear -Hc. revert n Hc. induction inputs as [|x inputs IH]; intros n Hc; cbn in Hc; [done|].
    case_bool_decide as Hx; [by exists 0%nat, x|]. destruct (IH n Hc) as (j & b & Hb & Hdb). by exists (S j), b. }
  exfalso. assert (input_terminal a) as Ht.
  { apply (Hs 0%nat (S j) a b); [lia|done|done|]. right. unfold dispatching in Hdb. by rewrite Hdb. }
  unfold dispatching in Hd. unfold input_terminal in Ht. by rewrite Hd in Ht.
Qed.

Lemma validate_inputs_loop_Ok sessionID e index previous seen n inputs :
  (∀ i input, inputs !! i = Some input → input_valid sessionID input ∧ ai_Sequence input = previous + Z.of_nat i + 1) →
  NoDup (ai_ID <$> inputs) → (∀ id, id ∈ seen → id ∉ ai_ID <$> inputs) → 0 ≤ previous →
  validate_inputs_loop sessionID e index previous seen n inputs = Ok (previous + Z.of_nat (length inputs), (n + dispatch_count inputs)%nat).
Proof.
  revert index previous seen n. induction inputs as [|input inputs IH]; intros index previous seen n Hv Hd Hseen Hp; cbn [validate_inputs_loop].
  { cbn. by rewrite Z.add_0_r, Nat.add_0_r. }
  destruct (Hv 0%nat input eq_refl) as [Hvi Hsi]. cbn in Hsi. destruct (normalize_valid _ _ e Hvi) as (norm & -> & Hns).
  apply NoDup_cons in Hd as [Hnin Hd].
  rewrite (bool_decide_eq_true_2 (ai_SessionID norm = sessionID)) by done. cbn [negb orb].
  pose proof (iv_state _ _ Hvi) as Hst. pose proof (iv_times _ _ Hvi) as [Hc Hu]. unfold IsZero, zeroTime.
  assert (1 ≤ ai_Revision input) by (destruct (ai_State input); [lia| |lia..|done]; destruct (is_empty _); lia).
  rewrite (proj2 (Z.eqb_neq (ai_Sequence input) 0)), (proj2 (Z.leb_gt (ai_Sequence input) previous)), (proj2 (Z.eqb_neq (ai_Revision input) 0)),
    (proj2 (Z.eqb_neq (ai_CreatedAt input) 0)), (proj2 (Z.eqb_neq (ai_UpdatedAt input) 0)) by lia. cbn [orb].
  rewrite (bool_decide_eq_false_2 (ai_ID input ∈ seen)) by (intros Hin; apply (Hseen _ Hin); cbn; set_solver).
  assert ((if is_empty (ai_ExecutionID input) then Ok tt else ValidateResourceName "gateway input execution" (ai_ExecutionID input)) = Ok tt) as Hex.
  { destruct (iv_execution _ _ Hvi) as [->|Hn]; [done|]. destruct (is_empty _); [done|]. unfold ValidateResourceName.
    unfold valid_name in Hn. by rewrite Hn. }
  assert (∀ d, validate_inputs_loop sessionID e (S index) (ai_Sequence input) ({[ai_ID input]} ∪ seen) d inputs =
    Ok (previous + Z.of_nat (length (input :: inputs)), (d + dispatch_count inputs)%nat)) as Hrest.
  { intros d. rewrite IH; [|..].
    - f_equal. f_equal. cbn. lia.
    - intros i x Hx. destruct (Hv (S i) x Hx) as [? Hsx]. split; [done|lia].
    - done.
    - intros id [->%elem_of_singleton|Hin]%elem_of_union; [done|]. intros Hin'. apply (Hseen _ Hin). cbn. by apply list_elem_of_further.
    - lia. }
  cbn [dispatch_count]. unfold dispatching.
  destruct (ai_State input) eqn:Hs; try done; rewrite Hex; cbn [result_bind];
    first [rewrite !bool_decide_eq_false_2 by done|rewrite !bool_decide_eq_true_2 by done];
    rewrite Hrest; f_equal; f_equal; lia.
Qed.

Lemma validateInputStream_wf sessionID e stream :
  istream_wf sessionID stream →
  ∃ stream', validateInputStream sessionID e stream = Ok stream' ∧ is_Inputs stream' = is_Inputs stream.
Proof.
  intros Hwf. unfold validateInputStream. rewrite (validate_inputs_loop_Ok _ _ _ 0).
  - cbn [result_bind]. pose proof (dispatch_count_serial _ (isw_serial _ _ Hwf)).
    rewrite (proj2 (Nat.ltb_ge _ _)) by lia. cbn [orb]. pose proof (isw_next _ _ Hwf) as [[-> ->] | ->]; cbn; [by eexists|].
    rewrite (proj2 (Z.eqb_neq _ _)) by lia. rewrite (proj2 (Z.leb_gt _ _)) by lia. by eexists.
  - intros i input Hi. split; [by eapply isw_valid|]. rewrite (isw_sequence _ _ Hwf _ _ Hi). lia.
  - apply Hwf.
  - set_solver.
  - lia.
Qed.

(** ** What is acquired *)

Lemma next_input_lookup stream i a : next_input stream = Some (i, a) → is_Inputs stream !! i = Some a.
Proof.
  unfold next_input. destruct (list_find dispatching _) as [[k x]|] eqn:Hf.
  - intros [= <- <-]. apply list_find_Some in Hf as (Ha & _). exact Ha.
  - intros (Ha & _)%list_find_Some. exact Ha.
Qed.

Lemma acquire_result store ctx rawID now acquired store' :
  istore_ok store → 0 < now → istore_AcquireNext store ctx rawID now = Ok (acquired, store') →
  ∃ sessionID, normalizeEventSessionID rawID = Ok sessionID ∧
  match acquired with
  | None => Forall input_terminal (is_Inputs (mi_stream store sessionID)) ∧ store' = store
  | Some acquired =>
      ∃ i a, is_Inputs (mi_stream store sessionID) !! i = Some a ∧
        is_Inputs (mi_stream store' sessionID) !! i = Some (aq_Input acquired) ∧
        dispatching (aq_Input acquired) ∧ Forall input_terminal (take i (is_Inputs (mi_stream store sessionID))) ∧
        if aq_Resumed acquired then aq_Input acquired = a ∧ store' = store else ai_State a = AgentInputQueued
  end.
Proof.
  intros Hok Hnow (sid & stream & changed & Hsid & _ & Ha & ->)%istore_AcquireNext_inv. exists sid. split; [done|].
  pose proof (Hok sid) as Hwf. pose proof (acquire_spec _ _ now Hwf Hnow) as Hspec.
  destruct (next_input _) as [[i a]|] eqn:Hnext.
  - pose proof (next_input_lookup _ _ _ Hnext) as Hi. case_bool_decide as Hd.
    + rewrite Ha in Hspec. injection Hspec as -> -> ->. exists i, a. cbn. split_and!; [done..| |done|done].
      apply Forall_lookup. intros j y [Hy Hlt]%lookup_take_Some. eapply (isw_serial _ _ Hwf j i); [done..|].
      right. unfold dispatching in Hd. by rewrite Hd.
    + destruct Hspec as (Heq & _ & Hq & Hall). rewrite Ha in Heq. injection Heq as -> -> ->. exists i, a. cbn.
      rewrite mi_stream_put, decide_True by done. cbn. rewrite list_lookup_insert_eq by (by eapply lookup_lt_Some). done.
  - rewrite Ha in Hspec. injection Hspec as -> -> ->. split; [|done]. unfold next_input in Hnext.
    destruct (list_find dispatching _) as [?|] eqn:Hf; [done|]. apply list_find_None in Hf, Hnext.
    rewrite Forall_lookup in Hf, Hnext. apply Forall_lookup. intros i x Hx.
    pose proof (Hf i x Hx) as H1. pose proof (Hnext i x Hx) as H2. unfold dispatching in H1.
    pose proof (iv_state _ _ (isw_valid _ _ Hwf _ _ Hx)) as Hs. unfold input_terminal. by destruct (ai_State x).
Qed.

Lemma acquire_total store sessionID now :
  istore_ok store → 0 < now → mi_closed store = false → normalizeEventSessionID sessionID = Ok sessionID →
  ∃ acquired store', istore_AcquireNext store None sessionID now = Ok (acquired, store').
Proof.
  intros Hok Hnow Hc Hsid. unfold istore_AcquireNext. cbn [ctx_Err result_bind]. rewrite Hsid. cbn [result_bind]. rewrite Hc.
  pose proof (acquire_spec _ _ now (Hok sessionID) Hnow) as Hspec.
  destruct (next_input _) as [[i a]|]; [case_bool_decide; [|destruct Hspec as [Hspec _]]|]; rewrite Hspec; cbn; eauto.
Qed.

(** C20. The queue of a session is served in order, one input at a time: in every reachable store an input that is
    being dispatched, or that was bound to an execution, has only finished inputs before it, so that at most one is
    being dispatched (an input that was cancelled before it was bound counts as finished, not as started); the
    stream passes the validation of stored streams; and acquiring returns the input being dispatched, if there is
    one, else moves the queued input with the lowest sequence number to dispatching, and finds nothing only when
    every input is finished. *)
Theorem input_queue_serial store sessionID now e :
  input_reach store → 0 < now → mi_closed store = false → normalizeEventSessionID sessionID = Ok sessionID →
  let stream := mi_stream store sessionID in
  serial (is_Inputs stream) ∧ (dispatch_count (is_Inputs stream) ≤ 1)%nat ∧
  (∃ stream', validateInputStream sessionID e stream = Ok stream' ∧ is_Inputs stream' = is_Inputs stream) ∧
  ∃ acquired store', istore_AcquireNext store None sessionID now = Ok (acquired, store') ∧
    match acquired with
    | None => Forall input_terminal (is_Inputs stream) ∧ store' = store
    | Some acquired =>
        ∃ i a, is_Inputs stream !! i = Some a ∧ is_Inputs (mi_stream store' sessionID) !! i = Some (aq_Input acquired) ∧
          dispatching (aq_Input acquired) ∧ Forall input_terminal (take i (is_Inputs stream)) ∧
          if aq_Resumed acquired then aq_Input acquired = a ∧ store' = store else ai_State a = AgentInputQueued
    end.
Proof.
  intros Hok%input_reach_ok Hnow Hc Hsid. pose proof (Hok sessionID) as Hwf. cbn zeta.
  split_and!; [apply Hwf|by apply dispatch_count_serial, Hwf|by apply validateInputStream_wf|].
  destruct (acquire_total _ _ _ Hok Hnow Hc Hsid) as (acquired & store' & Ha). exists acquired, store'. split; [done|].
  destruct (acquire_result _ _ _ _ _ _ Hok Hnow Ha) as (sid & Hsid' & Hres). assert (sid = sessionID) as -> by congruence. done.
Qed.

(** An input is dispatched once and settled once: whatever calls follow, its identity, session, number, kind and
    content stay; an execution it is bound to stays bound; a finished input never changes; and an input that
    was moved to dispatching is never moved there again, only resumed. *)
Theorem input_settled_once store1 store2 store3 store4 sessionID now acquired ctx ctx' now' acquired' :
  input_reach store1 → 0 < now → 0 < now' →
  istore_AcquireNext store1 ctx sessionID now = Ok (Some acquired, store2) → input_run store2 store3 →
  istore_AcquireNext store3 ctx' sessionID now' = Ok (Some acquired', store4) →
  istore_leads store2 store3 ∧
  (ai_ID (aq_Input acquired') = ai_ID (aq_Input acquired) → aq_Resumed acquired' = true).
Proof.
  intros Hok1%input_reach_ok Hn Hn' Ha Hrun Ha'. destruct (acquire_ok _ _ _ _ _ _ Hok1 Hn Ha) as [Hok2 _].
  destruct (input_run_ok _ _ Hrun Hok2) as [Hok3 Hl]. split; [done|]. intros Hid.
  destruct (acquire_result _ _ _ _ _ _ Hok1 Hn Ha) as (sid & Hsid & i & a & _ & Hb & Hd & _).
  destruct (acquire_result _ _ _ _ _ _ Hok3 Hn' Ha') as (sid' & Hsid' & j & x & Hx & Hx' & _ & _ & Hres).
  assert (sid' = sid) as -> by congruence. destruct (Hl sid i _ Hb) as (c & Hc & Hbc).
  destruct (aq_Resumed acquired'); [done|]. exfalso.
  destruct (acquire_ok _ _ _ _ _ _ Hok3 Hn' Ha') as [_ Hl']. destruct (Hl' sid j x Hx) as (y & Hy & Hxy).
  assert (y = aq_Input acquired') as -> by congruence.
  pose proof (il_identity _ _ Hbc) as Hi1. pose proof (il_identity _ _ Hxy) as Hi2.
  assert (j = i) as ->.
  { eapply (NoDup_lookup (ai_ID <$> is_Inputs (mi_stream store3 sid))); [apply (Hok3 sid)|by rewrite list_lookup_fmap, Hx|].
    rewrite list_lookup_fmap, Hc. cbn. congruence. }
  assert (c = x) as -> by congruence.
  pose proof (iv_state _ _ (isw_valid _ _ (Hok3 sid) _ _ Hx)) as Hsx. rewrite Hres in Hsx.
  pose proof (iv_state _ _ (isw_valid _ _ (Hok2 sid) _ _ Hb)) as Hsb. unfold dispatching in Hd. rewrite Hd in Hsb.
  destruct (il_revision _ _ Hbc) as [->|Hlt]; [congruence|]. destruct (is_empty _); lia.
Qed.

(** ** Witnesses *)

Definition ex_input (id content : string) : AgentInput :=
  {| ai_ID := id; ai_SessionID := "s"; ai_Sequence := 0; ai_Kind := ""; ai_Content := content; ai_State := AgentInputQueued;
     ai_ExecutionID := ""; ai_LastError := ""; ai_Revision := 0; ai_CreatedAt := 0; ai_UpdatedAt := 0 |}.

Definition stored {A} (store : memoryInputStore) (r : result (A * memoryInputStore)) : memoryInputStore :=
  match r with Ok (_, store) => store | Err _ => store end.

Definition ex_queue1 := stored NewMemoryInputStore (istore_Enqueue NewMemoryInputStore None (ex_input "i1" "one") (ex_entropy 1) 1000).
Definition ex_queue2 := stored ex_queue1 (istore_Enqueue ex_queue1 None (ex_input "i2" "two") (ex_entropy 2) 1001).
Definition ex_acquired := istore_AcquireNext ex_queue2 None "s" 1002.
Definition ex_queue3 := stored ex_queue2 ex_acquired.
Definition ex_queue4 := stored ex_queue3 (istore_BindExecution ex_queue3 None "s" "i1" "x1" 1003).

Lemma ex_queue2_reach : input_reach ex_queue2.
Proof.
  eapply rtc_r; [eapply rtc_r; [apply rtc_refl|]|].
  - eapply (in_enqueue _ None (ex_input "i1" "one") (ex_entropy 1) 1000); [lia|by vm_compute].
  - eapply (in_enqueue _ None (ex_input "i2" "two") (ex_entropy 2) 1001); [lia|by vm_compute].
Qed.

Lemma ex_queue34 : input_run ex_queue3 ex_queue4.
Proof. apply rtc_once. eapply (in_bind _ None "s" "i1" "x1" 1003); [lia|by vm_compute]. Qed.

Lemma input_queue_serial_witness :
  dispatch_count (is_Inputs (mi_stream ex_queue2 "s")) = 0%nat ∧
  ∃ acquired store', istore_AcquireNext ex_queue2 None "s" 1002 = Ok (Some acquired, store') ∧ ai_ID (aq_Input acquired) = "i1".
Proof.
  split; [by vm_compute|].
  destruct (input_queue_serial ex_queue2 "s" 1002 (ex_entropy 1) ex_queue2_reach ltac:(lia) eq_refl eq_refl) as (_ & _ & _ & acquired & store' & Ha & _).
  destruct acquired as [acquired|]; [|by vm_compute in Ha]. exists acquired, store'. split; [done|].
  vm_compute in Ha. by injection Ha as <- _.
Defined.

Lemma input_settled_once_witness :
  ∃ acquired store', istore_AcquireNext ex_queue4 None "s" 1004 = Ok (Some acquired, store') ∧ aq_Resumed acquired = true.
Proof.
  destruct ex_acquired as [[[acquired|] store2]|] eqn:Ha; try (exfalso; by vm_compute in Ha).
  destruct (istore_AcquireNext ex_queue4 None "s" 1004) as [[[acquired'|] store4]|] eqn:Ha'; try (exfalso; by vm_compute in Ha').
  assert (store2 = ex_queue3) as -> by (unfold ex_queue3; by rewrite Ha).
  exists acquired', store4. split; [done|].
  apply (input_settled_once ex_queue2 ex_queue3 ex_queue4 store4 "s" 1002 acquired None None 1004 acquired' ex_queue2_reach
    ltac:(lia) ltac:(lia) Ha ex_queue34 Ha').
  vm_compute in Ha, Ha'. injection Ha as <-. by injection Ha' as <- _.
Defined.
