(* ===== verification/GatewayInteraction.v ===== *)
(** Questions an execution asks its user, [gateway/interaction.go], [gateway/interaction_store_memory.go] and
    [gateway/interaction_manager.go]: an interaction is created once, waited for, and resolved or cancelled once,
    under the revision its reader saw. *)

From S2P Require Import Prelude GoText Names Sha256 Message ContextInjection Delivery Trajectory Agent EventDispatch Payload PromptHost GatewayEvent.

Definition GatewayEventInteractionRequested : string := "gateway_interaction_requested".
Definition GatewayEventInteractionResolved : string := "gateway_interaction_resolved".
Definition GatewayEventInteractionCancelled : string := "gateway_interaction_cancelled".
Definition defaultInteractionPageSize : Z := 100.
Definition maxInteractionPageSize : Z := 1000.

Definition InteractionQuestion : string := "question".
Definition InteractionConfirmation : string := "confirmation".
Definition InteractionPermission : string := "permission".

Inductive InteractionState :=
  | InteractionPending
  | InteractionResolved
  | InteractionCancelled
  | InteractionOther (text : string).

#[export] Instance InteractionState_eq_dec : EqDecision InteractionState.
Proof. solve_decision. Defined.

Definition interaction_state_text (state : InteractionState) : string :=
  match state with
  | InteractionPending => "pending"
  | InteractionResolved => "resolved"
  | InteractionCancelled => "cancelled"
  | InteractionOther text => text
  end.

Definition InteractionState_Terminal (state : InteractionState) : bool :=
  bool_decide (state = InteractionResolved) || bool_decide (state = InteractionCancelled).

Record InteractionOption := { io_ID : string; io_Label : string; io_Description : string }.
Record InteractionAnswer := { an_OptionID : string; an_Text : string }.

Record Interaction := {
  ia_ID : string;
  ia_SessionID : string;
  ia_ExecutionID : string;
  ia_Sequence : Z;
  ia_Kind : string;
  ia_Prompt : string;
  ia_Options : list InteractionOption;
  ia_State : InteractionState;
  ia_Answer : option InteractionAnswer;
  ia_Revision : Z;
  ia_CreatedAt : time;
  ia_UpdatedAt : time;
}.

(** The empty state asks for all of them. *)
Record InteractionQuery := { nq_After : Z; nq_Limit : Z; nq_State : option InteractionState }.
Record InteractionPage := { npg_Items : list Interaction; npg_Next : Z }.

Record interactionStream := { ns_NextSequence : Z; ns_Items : list Interaction }.
Definition zeroInteractionStream : interactionStream := {| ns_NextSequence := 0; ns_Items := [] |}.

Fixpoint normalize_options (seen : gset string) (options : list InteractionOption) : result (list InteractionOption) :=
  match options with
  | [] => Ok []
  | option :: rest =>
      let option :=
        {| io_ID := TrimSpace (io_ID option); io_Label := TrimSpace (io_Label option); io_Description := TrimSpace (io_Description option) |} in
      try? ValidateResourceName "gateway interaction option" (io_ID option);
      fail_if is_empty (io_Label option) with errors_New "gateway interaction option label is empty";
      fail_if bool_decide (io_ID option ∈ seen) with Errorf "gateway interaction contains duplicate option %q" [AStr (io_ID option)];
      let? rest := normalize_options ({[io_ID option]} ∪ seen) rest in
      Ok (option :: rest)
  end.

Definition normalizeInteraction (value : Interaction) (e : entropy) : result Interaction :=
  let id := TrimSpace (ia_ID value) in
  let id := if is_empty id then NewID e else id in
  try? ValidateResourceName "gateway interaction" id;
  let? sessionID := normalizeEventSessionID (ia_SessionID value) in
  let executionID := TrimSpace (ia_ExecutionID value) in
  try? ValidateResourceName "gateway interaction execution" executionID;
  let kind := string_default (ia_Kind value) InteractionQuestion in
  fail_if negb (bool_decide (kind = InteractionQuestion) || bool_decide (kind = InteractionConfirmation) ||
                bool_decide (kind = InteractionPermission)) with
    Errorf "unknown gateway interaction kind %q" [AStr kind];
  let prompt := TrimSpace (ia_Prompt value) in
  fail_if is_empty prompt with errors_New "gateway interaction prompt is empty";
  let? options := normalize_options ∅ (ia_Options value) in
  Ok {| ia_ID := id; ia_SessionID := sessionID; ia_ExecutionID := executionID; ia_Sequence := ia_Sequence value; ia_Kind := kind;
        ia_Prompt := prompt; ia_Options := options; ia_State := ia_State value; ia_Answer := ia_Answer value;
        ia_Revision := ia_Revision value; ia_CreatedAt := ia_CreatedAt value; ia_UpdatedAt := ia_UpdatedAt value |}.

Definition normalizeInteractionQuery (query : InteractionQuery) : result InteractionQuery :=
  let limit := if nq_Limit query =? 0 then defaultInteractionPageSize else nq_Limit query in
  fail_if (limit <? 1) || (maxInteractionPageSize <? limit) with
    Errorf "gateway interaction page limit must be between 1 and %d" [ANum maxInteractionPageSize];
  match nq_State query with
  | Some (InteractionOther text) => Err (Errorf "unknown gateway interaction state %q" [AStr text])
  | _ => Ok {| nq_After := nq_After query; nq_Limit := limit; nq_State := nq_State query |}
  end.

Definition interaction_not_found (id : string) : error := Wrapf "%w: %s" [AStr id] (Sentinel ErrInteractionNotFound).

Definition getInteraction (stream : interactionStream) (id : string) : result Interaction :=
  match list_find (λ item, ia_ID item = id) (ns_Items stream) with
  | Some (_, item) => Ok item
  | None => Err (interaction_not_found id)
  end.

Fixpoint list_interactions_loop (query : InteractionQuery) (stored items : list Interaction) : list Interaction :=
  match stored with
  | [] => items
  | item :: rest =>
      if (ia_Sequence item <=? nq_After query) ||
         match nq_State query with Some state => negb (bool_decide (ia_State item = state)) | None => false end
      then list_interactions_loop query rest items else
      let items := items ++ [item] in
      if Z.of_nat (length items) =? nq_Limit query then items else list_interactions_loop query rest items
  end.

Definition listInteractions (stream : interactionStream) (query : InteractionQuery) : InteractionPage :=
  let items := list_interactions_loop query (ns_Items stream) [] in
  {| npg_Items := items; npg_Next := match last items with Some item => ia_Sequence item | None => 0 end |}.

(** The end of an interaction. *)
Definition settle (item : Interaction) (state : InteractionState) (answer : option InteractionAnswer) (now : time) : Interaction :=
  {| ia_ID := ia_ID item; ia_SessionID := ia_SessionID item; ia_ExecutionID := ia_ExecutionID item; ia_Sequence := ia_Sequence item;
     ia_Kind := ia_Kind item; ia_Prompt := ia_Prompt item; ia_Options := ia_Options item; ia_State := state; ia_Answer := answer;
     ia_Revision := u64 (ia_Revision item + 1); ia_CreatedAt := ia_CreatedAt item; ia_UpdatedAt := now |}.

Definition put_interaction (stream : interactionStream) (index : nat) (item : Interaction) : interactionStream :=
  {| ns_NextSequence := ns_NextSequence stream; ns_Items := <[index := item]> (ns_Items stream) |}.

(** The guards that [resolveInteraction] and [cancelInteraction] share. *)
Definition find_pending (stream : interactionStream) (id : string) (expectedRevision : Z) : result (nat * Interaction) :=
  match list_find (λ item, ia_ID item = id) (ns_Items stream) with
  | None => Err (interaction_not_found id)
  | Some (index, item) =>
      fail_if negb (ia_Revision item =? expectedRevision) with
        Wrapf "%w: interaction %s has revision %d, expected %d" [AStr id; ANum (ia_Revision item); ANum expectedRevision]
          (Sentinel ErrInteractionConflict);
      fail_if negb (bool_decide (ia_State item = InteractionPending)) with
        Wrapf "%w: interaction %s is %s" [AStr id; AStr (interaction_state_text (ia_State item))] (Sentinel ErrInteractionConflict);
      Ok (index, item)
  end.

Definition resolveInteraction (stream : interactionStream) (id : string) (expectedRevision : Z) (answer : InteractionAnswer) (now : time)
    : result (interactionStream * Interaction) :=
  let answer := {| an_OptionID := TrimSpace (an_OptionID answer); an_Text := TrimSpace (an_Text answer) |} in
  let? '(index, item) := find_pending stream id expectedRevision in
  fail_if is_empty (an_OptionID answer) && is_empty (an_Text answer) with errors_New "gateway interaction answer is empty";
  fail_if negb (is_empty (an_OptionID answer)) &&
          negb (existsb (λ option, bool_decide (io_ID option = an_OptionID answer)) (ia_Options item)) with
    Errorf "gateway interaction option %q is unavailable" [AStr (an_OptionID answer)];
  let item := settle item InteractionResolved (Some answer) now in
  Ok (put_interaction stream index item, item).

Definition cancelInteraction (stream : interactionStream) (id : string) (expectedRevision : Z) (now : time)
    : result (interactionStream * Interaction) :=
  let? '(index, item) := find_pending stream id expectedRevision in
  let item := settle item InteractionCancelled None now in
  Ok (put_interaction stream index item, item).

(** ** The in-memory store and the manager *)

Record memoryInteractionStore := {
  mt_streams : gmap string interactionStream;
  mt_channels : channels;
  mt_closed : bool;
}.

Definition NewMemoryInteractionStore : memoryInteractionStore :=
  {| mt_streams := ∅; mt_channels := no_channels; mt_closed := false |}.

Definition mt_stream (store : memoryInteractionStore) (sessionID : string) : interactionStream :=
  default zeroInteractionStream (mt_streams store !! sessionID).

(** Storing a changed stream signals its session. *)
Definition mt_put (store : memoryInteractionStore) (sessionID : string) (stream : interactionStream) : memoryInteractionStore :=
  {| mt_streams := <[sessionID := stream]> (mt_streams store); mt_channels := signalLocked (mt_channels store) sessionID;
     mt_closed := mt_closed store |}.

Section json.
Context `{!GatewayJSON}.

(** [json.Marshal] of a kind, a prompt and options, and of an interaction. *)
Context (marshal_request : string → string → list InteractionOption → string) (marshal_interaction : Interaction → result string).

Definition createInteraction (stream : interactionStream) (value : Interaction) (now : time)
    : result (interactionStream * Interaction * bool) :=
  match list_find (λ current, ia_ID current = ia_ID value) (ns_Items stream) with
  | Some (_, current) =>
      let left := marshal_request (ia_Kind current) (ia_Prompt current) (ia_Options current) in
      let right := marshal_request (ia_Kind value) (ia_Prompt value) (ia_Options value) in
      if bool_decide (left = right) && bool_decide (ia_SessionID current = ia_SessionID value) &&
         bool_decide (ia_ExecutionID current = ia_ExecutionID value)
      then Ok (stream, current, false)
      else Err (Wrapf "%w: interaction ID %s was reused" [AStr (ia_ID value)] (Sentinel ErrInteractionConflict))
  | None =>
      let next := if ns_NextSequence stream =? 0 then 1 else ns_NextSequence stream in
      let value :=
        {| ia_ID := ia_ID value; ia_SessionID := ia_SessionID value; ia_ExecutionID := ia_ExecutionID value; ia_Sequence := next;
           ia_Kind := ia_Kind value; ia_Prompt := ia_Prompt value; ia_Options := ia_Options value; ia_State := InteractionPending;
           ia_Answer := None; ia_Revision := 1; ia_CreatedAt := now; ia_UpdatedAt := now |} in
      Ok ({| ns_NextSequence := u64 (next + 1); ns_Items := ns_Items stream ++ [value] |}, value, true)
  end.

Definition nstore_Create (store : memoryInteractionStore) (ctx : context) (value : Interaction) (e : entropy) (now : time)
    : result (Interaction * memoryInteractionStore) :=
  try? ctx_Err ctx;
  let? value := normalizeInteraction value e in
  fail_if mt_closed store with Sentinel ErrStoreClosed;
  let? '(stream, created, changed) := createInteraction (mt_stream store (ia_SessionID value)) value now in
  Ok (created, if changed : bool then mt_put store (ia_SessionID value) stream else store).

Definition nstore_Get (store : memoryInteractionStore) (ctx : context) (sessionID id : string) : result Interaction :=
  try? ctx_Err ctx;
  fail_if mt_closed store with Sentinel ErrStoreClosed;
  getInteraction (mt_stream store sessionID) id.

Definition nstore_List (store : memoryInteractionStore) (ctx : context) (sessionID : string) (query : InteractionQuery) : result InteractionPage :=
  try? ctx_Err ctx;
  let? query := normalizeInteractionQuery query in
  fail_if mt_closed store with Sentinel ErrStoreClosed;
  Ok (listInteractions (mt_stream store sessionID) query).

(** One round of [Wait]: it returns, or goes to sleep on a channel. *)
Definition nstore_Wait (store : memoryInteractionStore) (sessionID id : string) : (result Interaction + nat) * memoryInteractionStore :=
  if mt_closed store then (inl (Err (Sentinel ErrStoreClosed)), store) else
  match getInteraction (mt_stream store sessionID) id with
  | Err err => (inl (Err err), store)
  | Ok item =>
      if InteractionState_Terminal (ia_State item) then (inl (Ok item), store) else
      let '(channel, c) := notifyLocked (mt_channels store) sessionID in
      (inr channel, {| mt_streams := mt_streams store; mt_channels := c; mt_closed := mt_closed store |})
  end.

Definition nstore_change (store : memoryInteractionStore) (ctx : context) (sessionID : string)
    (change : interactionStream → result (interactionStream * Interaction)) : result (Interaction * memoryInteractionStore) :=
  try? ctx_Err ctx;
  fail_if mt_closed store with Sentinel ErrStoreClosed;
  let? '(stream, item) := change (mt_stream store sessionID) in
  Ok (item, mt_put store sessionID stream).

Definition nstore_Resolve (store : memoryInteractionStore) (ctx : context) (sessionID id : string) (expectedRevision : Z)
    (answer : InteractionAnswer) (now : time) : result (Interaction * memoryInteractionStore) :=
  nstore_change store ctx sessionID (λ stream, resolveInteraction stream id expectedRevision answer now).

Definition nstore_Cancel (store : memoryInteractionStore) (ctx : context) (sessionID id : string) (expectedRevision : Z) (now : time)
    : result (Interaction * memoryInteractionStore) :=
  nstore_change store ctx sessionID (λ stream, cancelInteraction stream id expectedRevision now).

Definition nstore_Close (store : memoryInteractionStore) : memoryInteractionStore :=
  if mt_closed store then store else
  {| mt_streams := mt_streams store; mt_channels := close_channels (mt_channels store); mt_closed := true |}.

(** *** The manager *)

Record InteractionManager := { im_store : memoryInteractionStore; im_events : memoryEventStore }.

Definition managerEventID (name payload : string) : string :=
  "manager-" +:+ hex_EncodeToString (take 12 (Sum256 (byte <$> String.list_ascii_of_string (name +:+ NUL +:+ payload)))).

Definition manager_emit (m : InteractionManager) (ctx : context) (sessionID name : string) (payload : Interaction) (now : time)
    : InteractionManager :=
  match marshal_interaction payload with
  | Err _ => m
  | Ok raw =>
      match estore_Append (im_events m) ctx sessionID
              {| ev_ID := managerEventID name raw; ev_Name := name; ev_SessionID := sessionID; ev_Generation := 0; ev_Payload := raw |} now with
      | Ok (_, events) => {| im_store := im_store m; im_events := events |}
      | Err _ => m
      end
  end.

(** [Request] up to its wait. *)
Definition Request_create (m : InteractionManager) (ctx : context) (request : Interaction) (e : entropy) (now : time)
    : result Interaction * InteractionManager :=
  match nstore_Create (im_store m) ctx request e now with
  | Err err => (Err err, m)
  | Ok (created, store) =>
      let m := {| im_store := store; im_events := im_events m |} in
      (Ok created,
       if bool_decide (ia_State created = InteractionPending)
       then manager_emit m ctx (ia_SessionID created) GatewayEventInteractionRequested created now else m)
  end.

(** What [Request] makes of the interaction its wait returned. *)
Definition Request_answer (resolved : Interaction) : result InteractionAnswer :=
  match ia_Answer resolved with
  | Some answer =>
      fail_if negb (bool_decide (ia_State resolved = InteractionResolved)) with errors_New "gateway interaction was cancelled";
      Ok answer
  | None => Err (errors_New "gateway interaction was cancelled")
  end.

(** [cancelPending] reads the interaction, and then cancels the revision it read. *)
Definition cancelPending_read (m : InteractionManager) (sessionID id : string) : option Z :=
  match nstore_Get (im_store m) None sessionID id with
  | Err _ => None
  | Ok current => if bool_decide (ia_State current = InteractionPending) then Some (ia_Revision current) else None
  end.

Definition cancelPending_cancel (m : InteractionManager) (sessionID id : string) (revision : Z) (now : time) : InteractionManager :=
  match nstore_Cancel (im_store m) None sessionID id revision now with
  | Err _ => m
  | Ok (cancelled, store) =>
      manager_emit {| im_store := store; im_events := im_events m |} None sessionID GatewayEventInteractionCancelled cancelled now
  end.

Definition manager_Resolve (m : InteractionManager) (ctx : context) (sessionID id : string) (expectedRevision : Z)
    (answer : InteractionAnswer) (now : time) : result Interaction * InteractionManager :=
  match nstore_Resolve (im_store m) ctx sessionID id expectedRevision answer now with
  | Err err => (Err err, m)
  | Ok (resolved, store) =>
      (Ok resolved, manager_emit {| im_store := store; im_events := im_events m |} ctx sessionID GatewayEventInteractionResolved resolved now)
  end.
End json.
