(* ===== verification/GatewayInteractionProperties.v ===== *)
(** Interactions of the gateway: whatever requests, answers and cancellations interleave, an interaction ends once,
    a request returns the answer that was recorded for it, and a request that gives up leaves nothing pending. *)

From S2P Require Import Prelude GoText Names Sha256 Message ContextInjection Delivery Trajectory Agent EventDispatch Payload PromptHost GatewayEvent GatewayEventProperties GatewayInteraction.

(** ** Interactions *)

Definition answer_offered (item : Interaction) (answer : InteractionAnswer) : Prop :=
  (an_OptionID answer ≠ "" ∨ an_Text answer ≠ "") ∧
  (an_OptionID answer = "" ∨ ∃ option, option ∈ ia_Options item ∧ io_ID option = an_OptionID answer).

(** Pending at revision one, or ended at revision two, with an answer if it was resolved. *)
Definition interaction_ok (item : Interaction) : Prop :=
  match ia_State item with
  | InteractionPending => ia_Revision item = 1 ∧ ia_Answer item = None
  | InteractionResolved => ia_Revision item = 2 ∧ ∃ answer, ia_Answer item = Some answer ∧ answer_offered item answer
  | InteractionCancelled => ia_Revision item = 2 ∧ ia_Answer item = None
  | InteractionOther _ => False
  end.

Definition interaction_ended (item : Interaction) : Prop := InteractionState_Terminal (ia_State item) = true.

Lemma not_pending_ended item : interaction_ok item → ia_State item ≠ InteractionPending → interaction_ended item.
Proof. unfold interaction_ok, interaction_ended. by destruct (ia_State item). Qed.

Record nstream_ok (stream : interactionStream) : Prop := {
  nok_ids : NoDup (ia_ID <$> ns_Items stream);
  nok_items i item : ns_Items stream !! i = Some item → interaction_ok item;
}.

(** What a later reader finds: items stay, and those that ended do not change. *)
Definition nstream_leads (s s' : interactionStream) : Prop :=
  ∀ id a, getInteraction s id = Ok a → ∃ b, getInteraction s' id = Ok b ∧ ia_Options b = ia_Options a ∧
    (b = a ∨ (ia_State a = InteractionPending ∧ interaction_ended b)).

Lemma nstream_leads_refl s : nstream_leads s s.
Proof. intros id a Ha. exists a. auto. Qed.

Lemma nstream_leads_trans s1 s2 s3 : nstream_leads s1 s2 → nstream_leads s2 s3 → nstream_leads s1 s3.
Proof.
  intros H12 H23 id a Ha. destruct (H12 _ _ Ha) as (b & Hb & Ho & Hab). destruct (H23 _ _ Hb) as (c & Hc & Ho' & Hbc).
  exists c. split; [done|]. split; [congruence|]. destruct Hab as [->|[Hp He]], Hbc as [->|[Hp' He']]; auto.
Qed.

Lemma getInteraction_lookup stream i item :
  NoDup (ia_ID <$> ns_Items stream) → ns_Items stream !! i = Some item → getInteraction stream (ia_ID item) = Ok item.
Proof.
  intros Hd Hi. unfold getInteraction.
  assert (list_find (λ x, ia_ID x = ia_ID item) (ns_Items stream) = Some (i, item)) as ->; [|done].
  apply list_find_Some. split_and!; [done|done|]. intros j y Hy Hlt Heq.
  assert (j = i); [|lia]. eapply (NoDup_lookup _ j i (ia_ID item) Hd); [by rewrite list_lookup_fmap, Hy, <- Heq|by rewrite list_lookup_fmap, Hi].
Qed.

Lemma getInteraction_Ok stream id item :
  getInteraction stream id = Ok item → ∃ i, ns_Items stream !! i = Some item ∧ ia_ID item = id.
Proof.
  unfold getInteraction. destruct (list_find _ _) as [[i x]|] eqn:Hf; [|done]. intros [= ->].
  apply list_find_Some in Hf as (Hi & Hid & _). eauto.
Qed.

(** ** One interaction ends *)

Lemma find_pending_Ok stream id revision i item :
  find_pending stream id revision = Ok (i, item) →
  ns_Items stream !! i = Some item ∧ ia_ID item = id ∧ ia_Revision item = revision ∧ ia_State item = InteractionPending.
Proof.
  unfold find_pending. destruct (list_find _ _) as [[j x]|] eqn:Hf; [|done]. apply list_find_Some in Hf as (Hi & Hid & _).
  destruct (Z.eqb_spec (ia_Revision x) revision) as [Hr|]; [|done]. cbn [negb]. case_bool_decide as Hs; [|done]. by intros [= <- <-].
Qed.

Lemma put_settled stream i item state answer now :
  nstream_ok stream → ns_Items stream !! i = Some item → ia_State item = InteractionPending →
  interaction_ok (settle item state answer now) → interaction_ended (settle item state answer now) →
  nstream_ok (put_interaction stream i (settle item state answer now)) ∧
  nstream_leads stream (put_interaction stream i (settle item state answer now)) ∧
  getInteraction (put_interaction stream i (settle item state answer now)) (ia_ID item) = Ok (settle item state answer now).
Proof.
  intros [Hd Hok] Hi Hp Hnew He. set (new := settle item state answer now) in *. cbn.
  assert (ia_ID <$> <[i := new]> (ns_Items stream) = ia_ID <$> ns_Items stream) as Hids.
  { rewrite list_fmap_insert. apply list_insert_id. by rewrite list_lookup_fmap, Hi. }
  assert (nstream_ok (put_interaction stream i new)) as Hok'.
  { split; cbn; [by rewrite Hids|]. intros j x [(-> & <- & _)|(Hne & Hx)]%list_lookup_insert_Some; [done|by eapply Hok]. }
  assert (ns_Items (put_interaction stream i new) !! i = Some new) as Hlook by (cbn; apply list_lookup_insert_eq; by eapply lookup_lt_Some).
  split_and!; [done| |exact (getInteraction_lookup _ _ _ (nok_ids _ Hok') Hlook)].
  intros id a (j & Ha & <-)%getInteraction_Ok. destruct (decide (j = i)) as [->|Hne].
  - assert (a = item) as -> by congruence. exists new. split; [exact (getInteraction_lookup _ _ _ (nok_ids _ Hok') Hlook)|]. auto.
  - exists a. split; [|by auto]. apply (getInteraction_lookup _ j); [apply Hok'|]. cbn. by rewrite list_lookup_insert_ne.
Qed.

Lemma settle_ok item state answer now :
  interaction_ok item → ia_State item = InteractionPending →
  match state, answer with
  | InteractionResolved, Some answer => answer_offered item answer
  | InteractionCancelled, None => True
  | _, _ => False
  end →
  interaction_ok (settle item state answer now) ∧ interaction_ended (settle item state answer now).
Proof.
  intros Hok Hp Hst. unfold interaction_ok in Hok. rewrite Hp in Hok. destruct Hok as [Hr _].
  unfold interaction_ok, interaction_ended. cbn. rewrite Hr. replace (u64 (1 + 1)) with 2 by done.
  destruct state, answer; try done. split; [|done]. split; [done|]. by eexists.
Qed.

Definition settles (stream stream' : interactionStream) (id : string) (item : Interaction) : Prop :=
  nstream_ok stream' ∧ nstream_leads stream stream' ∧ getInteraction stream' id = Ok item ∧ interaction_ended item.

Lemma resolve_settles stream id revision answer now stream' item :
  nstream_ok stream → resolveInteraction stream id revision answer now = Ok (stream', item) → settles stream stream' id item.
Proof.
  intros Hok. unfold resolveInteraction. intros ([i x] & Hf & H1)%bind_Ok. apply find_pending_Ok in Hf as (Hi & <- & _ & Hp).
  cbn [an_OptionID an_Text] in H1. destruct (is_empty (TrimSpace (an_OptionID answer)) && _) eqn:He1; [done|].
  destruct (negb _ && negb _) eqn:He2; [done|]. injection H1 as <- <-.
  destruct (settle_ok x InteractionResolved (Some {| an_OptionID := TrimSpace (an_OptionID answer); an_Text := TrimSpace (an_Text answer) |}) now)
    as [Hnew Hend]; [by eapply nok_items|done| |].
  - split; cbn.
    + apply andb_false_iff in He1 as [?%is_empty_false|?%is_empty_false]; auto.
    + apply andb_false_iff in He2 as [He|He]; [left; apply negb_false_iff, is_empty_true in He; done|right].
      apply negb_false_iff, existsb_exists in He as (o & Hin & Ho%bool_decide_eq_true). exists o. split; [by apply list_elem_of_In|done].
  - destruct (put_settled _ _ _ _ _ _ Hok Hi Hp Hnew Hend) as (? & ? & ?). by split_and!.
Qed.

Lemma cancel_settles stream id revision now stream' item :
  nstream_ok stream → cancelInteraction stream id revision now = Ok (stream', item) → settles stream stream' id item.
Proof.
  intros Hok. unfold cancelInteraction. intros ([i x] & Hf & H1)%bind_Ok. apply find_pending_Ok in Hf as (Hi & <- & _ & Hp).
  injection H1 as <- <-. destruct (settle_ok x InteractionCancelled None now) as [Hnew Hend]; [by eapply nok_items|done|done|].
  destruct (put_settled _ _ _ _ _ _ Hok Hi Hp Hnew Hend) as (? & ? & ?). by split_and!.
Qed.

Section create.
Context (marshal_request : string → string → list InteractionOption → string).

Lemma create_ok stream value now stream' created changed :
  nstream_ok stream → createInteraction marshal_request stream value now = Ok (stream', created, changed) →
  nstream_ok stream' ∧ nstream_leads stream stream' ∧ getInteraction stream' (ia_ID value) = Ok created ∧
  ia_ID created = ia_ID value ∧ ia_SessionID created = ia_SessionID value ∧ (changed = false → stream' = stream).
Proof.
  intros Hok. unfold createInteraction. destruct (list_find _ _) as [[i x]|] eqn:Hf.
  { destruct (_ && _ && _) eqn:Hsame; [|done]. intros [= <- <- <-]. apply andb_true_iff in Hsame as [[_ Hs%bool_decide_eq_true]%andb_true_iff _].
    split_and!; [done|apply nstream_leads_refl| |by apply list_find_Some in Hf as (_ & ? & _)|done|done].
    unfold getInteraction. by rewrite Hf. }
  intros [= <- <- <-]. cbn. set (new := {| ia_ID := ia_ID value |}).
  assert (nstream_ok {| ns_NextSequence := u64 ((if ns_NextSequence stream =? 0 then 1 else ns_NextSequence stream) + 1); ns_Items := ns_Items stream ++ [new] |}) as Hok'.
  { destruct Hok as [Hd Hi]. split; cbn.
    - rewrite fmap_app. apply NoDup_app. split_and!; [done| |apply NoDup_singleton]. cbn.
      intros y Hy ->%list_elem_of_singleton. apply list_find_None in Hf. rewrite Forall_forall in Hf.
      apply list_elem_of_fmap in Hy as (z & Hz & Hin). by apply (Hf z Hin).
    - intros j y [Hy|[_ Hy]]%lookup_app_Some; [by eapply Hi|]. apply list_lookup_singleton_Some in Hy as [_ <-]. done. }
  split_and!; [done| | |done|done|done].
  - intros id a (j & Ha & <-)%getInteraction_Ok. exists a. split; [|by auto].
    apply (getInteraction_lookup _ j); [apply Hok'|]. cbn. by apply lookup_app_l_Some.
  - apply (getInteraction_lookup _ (length (ns_Items stream)) new); [apply Hok'|]. cbn. by rewrite lookup_app_r, Nat.sub_diag.
Qed.
End create.

(** ** Requests in flight *)

Inductive request_phase :=
  | RqRound
  | RqAsleep (channel : nat)
  | RqGaveUp (err : error)
  | RqCancelling (revision : Z) (err : error)
  | RqDone (outcome : result InteractionAnswer).

Record request := { rq_session : string; rq_id : string; rq_phase : request_phase }.

Definition at_phase (r : request) (phase : request_phase) : request :=
  {| rq_session := rq_session r; rq_id := rq_id r; rq_phase := phase |}.

Definition with_store (m : InteractionManager) (store : memoryInteractionStore) : InteractionManager :=
  {| im_store := store; im_events := im_events m |}.

Section requests.
Context `{!GatewayJSON} (marshal_request : string → string → list InteractionOption → string) (marshal_interaction : Interaction → result string).

(** Goroutines that call [Request] beside callers that resolve; a context may end at any time, and others append
    events of their own. *)
Inductive interaction_step : InteractionManager * list request → InteractionManager * list request → Prop :=
  | is_request m rs ctx value e now created m' :
      Request_create marshal_request marshal_interaction m ctx value e now = (Ok created, m') →
      interaction_step (m, rs) (m', rs ++ [{| rq_session := ia_SessionID created; rq_id := ia_ID created; rq_phase := RqRound |}])
  | is_return m rs i r item store :
      rs !! i = Some r → rq_phase r = RqRound → nstore_Wait (im_store m) (rq_session r) (rq_id r) = (inl (Ok item), store) →
      interaction_step (m, rs) (with_store m store, <[i := at_phase r (RqDone (Request_answer item))]> rs)
  | is_wait_error m rs i r err store :
      rs !! i = Some r → rq_phase r = RqRound → nstore_Wait (im_store m) (rq_session r) (rq_id r) = (inl (Err err), store) →
      interaction_step (m, rs) (with_store m store, <[i := at_phase r (RqGaveUp err)]> rs)
  | is_sleep m rs i r channel store :
      rs !! i = Some r → rq_phase r = RqRound → nstore_Wait (im_store m) (rq_session r) (rq_id r) = (inr channel, store) →
      interaction_step (m, rs) (with_store m store, <[i := at_phase r (RqAsleep channel)]> rs)
  | is_wake m rs i r channel :
      rs !! i = Some r → rq_phase r = RqAsleep channel → channel ∈ ch_notified (mt_channels (im_store m)) →
      interaction_step (m, rs) (m, <[i := at_phase r RqRound]> rs)
  | is_cancelled m rs i r channel err :
      rs !! i = Some r → rq_phase r = RqAsleep channel → interaction_step (m, rs) (m, <[i := at_phase r (RqGaveUp err)]> rs)
  | is_read m rs i r err :
      rs !! i = Some r → rq_phase r = RqGaveUp err →
      interaction_step (m, rs) (m, <[i := at_phase r
        match cancelPending_read m (rq_session r) (rq_id r) with Some revision => RqCancelling revision err | None => RqDone (Err err) end]> rs)
  | is_cancel m rs i r revision err now :
      rs !! i = Some r → rq_phase r = RqCancelling revision err →
      interaction_step (m, rs) (cancelPending_cancel marshal_interaction m (rq_session r) (rq_id r) revision now,
        <[i := at_phase r (RqDone (Err err))]> rs)
  | is_resolve m rs ctx sessionID id revision answer now resolved m' :
      manager_Resolve marshal_interaction m ctx sessionID id revision answer now = (Ok resolved, m') → interaction_step (m, rs) (m', rs)
  | is_event m rs ctx sessionID event now created events :
      estore_Append (im_events m) ctx sessionID event now = Ok (created, events) →
      interaction_step (m, rs) ({| im_store := im_store m; im_events := events |}, rs)
  | is_close m rs : interaction_step (m, rs) (with_store m (nstore_Close (im_store m)), rs).

Definition interaction_run := rtc interaction_step.
Definition interaction_reach (s : InteractionManager * list request) : Prop :=
  interaction_run ({| im_store := NewMemoryInteractionStore; im_events := NewMemoryEventStore |}, []) s.

Definition request_ok (store : memoryInteractionStore) (r : request) : Prop :=
  ∃ item, getInteraction (mt_stream store (rq_session r)) (rq_id r) = Ok item ∧
  match rq_phase r with
  | RqRound | RqGaveUp _ => True
  | RqAsleep channel =>
      attached (mt_channels store) (rq_session r) channel ∧
      (channel ∈ ch_notified (mt_channels store) ∨ (mt_closed store = false ∧ ia_State item = InteractionPending))
  | RqCancelling revision _ => revision = 1
  | RqDone (Ok answer) => ia_State item = InteractionResolved ∧ ia_Answer item = Some answer
  | RqDone (Err _) => mt_closed store = true ∨ interaction_ended item
  end.

Record nstore_ok (store : memoryInteractionStore) : Prop := {
  nst_streams sessionID : nstream_ok (mt_stream store sessionID);
  nst_channels : channels_ok (mt_channels store);
}.

(** What one atomic step of the store keeps: the items, the requests, and the order of the stores. *)
Record nstore_step (store store' : memoryInteractionStore) : Prop := {
  nss_ok : nstore_ok store';
  nss_leads sessionID : nstream_leads (mt_stream store sessionID) (mt_stream store' sessionID);
  nss_requests r : request_ok store r → request_ok store' r;
}.

Lemma nstore_step_refl store : nstore_ok store → nstore_step store store.
Proof. intros Hok. split; [done|intros; apply nstream_leads_refl|done]. Qed.

Lemma mt_put_stream store sessionID stream s :
  mt_stream (mt_put store sessionID stream) s = if decide (s = sessionID) then stream else mt_stream store s.
Proof. unfold mt_stream, mt_put. cbn. case_decide; [subst; by rewrite lookup_insert_eq|by rewrite lookup_insert_ne]. Qed.

Lemma ended_stays a b : b = a ∨ (ia_State a = InteractionPending ∧ interaction_ended b) → interaction_ended a → b = a.
Proof. intros [?|[Hp _]] He; [done|]. unfold interaction_ended in He. by rewrite Hp in He. Qed.

Lemma mt_put_step store sessionID stream :
  nstore_ok store → nstream_ok stream → nstream_leads (mt_stream store sessionID) stream → nstore_step store (mt_put store sessionID stream).
Proof.
  intros [Hs Hch] Hok Hl. destruct (signalLocked_spec _ sessionID Hch) as (Hch' & Hwake & Hnd & Hatt).
  assert (∀ s, nstream_leads (mt_stream store s) (mt_stream (mt_put store sessionID stream) s)) as Hleads.
  { intros s. rewrite mt_put_stream. case_decide; [by subst|apply nstream_leads_refl]. }
  split; [split; [|done]|done|].
  - intros s. rewrite mt_put_stream. by case_decide.
  - intros r (item & Hi & Hr). destruct (Hleads _ _ _ Hi) as (item' & Hi' & _ & Hii). exists item'. split; [done|].
    destruct (rq_phase r) as [|channel|err|revision err|[answer|err]]; try done.
    + destruct Hr as [Ha He]. cbn. split; [by apply Hatt|]. destruct (decide (rq_session r = sessionID)) as [<-|Hne]; [left; by apply Hwake|].
      destruct He as [Hin|[Hc Hp]]; [left; by apply Hnd|]. right. split; [done|].
      rewrite mt_put_stream, decide_False in Hi' by done. congruence.
    + destruct Hr as [Hr Hans]. by rewrite (ended_stays _ _ Hii) by (unfold interaction_ended; by rewrite Hr).
    + destruct Hr as [Hr|Hr]; [by left|]. right. by rewrite (ended_stays _ _ Hii).
Qed.

Lemma nstore_change_step store ctx sessionID change item store' :
  nstore_ok store → nstore_change store ctx sessionID change = Ok (item, store') →
  (∀ stream' item, change (mt_stream store sessionID) = Ok (stream', item) →
     nstream_ok stream' ∧ nstream_leads (mt_stream store sessionID) stream') → nstore_step store store'.
Proof.
  intros Hok H1 Hc. unfold nstore_change in H1. apply bind_Ok in H1 as (u & _ & H1). destruct (mt_closed store); [done|].
  apply bind_Ok in H1 as ([stream' x] & Hx & H1). injection H1 as <- <-. destruct (Hc _ _ Hx). by apply mt_put_step.
Qed.

Lemma nstore_Create_step store ctx value e now created store' :
  nstore_ok store → nstore_Create marshal_request store ctx value e now = Ok (created, store') →
  nstore_step store store' ∧ getInteraction (mt_stream store' (ia_SessionID created)) (ia_ID created) = Ok created.
Proof.
  intros Hok H1. unfold nstore_Create in H1. apply bind_Ok in H1 as (u & _ & H1). apply bind_Ok in H1 as (n & _ & H1).
  destruct (mt_closed store); [done|]. apply bind_Ok in H1 as ([[stream' x] changed] & Hx & H1). injection H1 as <- <-.
  destruct (create_ok _ _ _ _ _ _ _ (nst_streams _ Hok _) Hx) as (Hok' & Hl & Hget & Hid & Hs & Hsame). rewrite Hid, Hs.
  destruct changed.
  - split; [by apply mt_put_step|]. by rewrite mt_put_stream, decide_True by done.
  - split; [by apply nstore_step_refl|]. by rewrite (Hsame eq_refl) in Hget.
Qed.

Lemma nstore_Close_step store : nstore_ok store → nstore_step store (nstore_Close store).
Proof.
  intros Hok. unfold nstore_Close. destruct (mt_closed store) eqn:Hc; [by apply nstore_step_refl|].
  destruct Hok as [Hs Hch]. destruct (close_channels_spec _ Hch) as [Hch' Hwake]. split; [by split|intros s; apply nstream_leads_refl|].
  intros r (item & Hi & Hr). exists item. split; [done|]. destruct (rq_phase r) as [|channel|err|revision err|[answer|err]]; try done.
  - destruct Hr as [Ha _]. apply Hwake in Ha. split; left; done.
  - by left.
Qed.

(** A round of the wait changes nothing but the channels. *)
Lemma nstore_Wait_step store sessionID id res store' :
  nstore_ok store → nstore_Wait store sessionID id = (res, store') →
  nstore_step store store' ∧
  match res with
  | inl (Ok item) => store' = store ∧ getInteraction (mt_stream store sessionID) id = Ok item ∧ interaction_ended item
  | inl (Err _) => store' = store
  | inr channel => mt_streams store' = mt_streams store ∧ ∀ item, getInteraction (mt_stream store sessionID) id = Ok item → interaction_ok item →
      mt_closed store' = false ∧ ia_State item = InteractionPending ∧ attached (mt_channels store') sessionID channel ∧
      channel ∉ ch_notified (mt_channels store')
  end.
Proof.
  intros Hok. unfold nstore_Wait. destruct (mt_closed store) eqn:Hc; [intros [= <- <-]; split; [by apply nstore_step_refl|done]|].
  destruct (getInteraction _ id) as [item|err] eqn:Hg; [|intros [= <- <-]; split; [by apply nstore_step_refl|done]].
  destruct (InteractionState_Terminal _) eqn:Ht; [intros [= <- <-]; split; [by apply nstore_step_refl|done]|].
  destruct (notifyLocked _ sessionID) as [channel c] eqn:Hl. intros [= <- <-]. destruct Hok as [Hs Hch].
  destruct (notifyLocked_spec _ _ _ _ Hch Hl) as (Hch' & Hopen & Hn & Hnd & Hatt). split.
  - split; [by split|intros s; apply nstream_leads_refl|]. intros r (x & Hx & Hr). exists x. split; [done|].
    destruct (rq_phase r) as [|ch|err|revision err|[answer|err]]; try done.
    + destruct Hr as [Ha He]. cbn. split; [by apply Hatt|]. rewrite Hnd. destruct He as [?|[_ He]]; auto.
    + destruct Hr as [Hr|Hr]; [congruence|by right].
  - split; [done|]. intros x [= <-] Hx. cbn. split_and!; [done| |by right|done]. unfold interaction_ok in Hx. by destruct (ia_State item).
Qed.

Definition world_ok (s : InteractionManager * list request) : Prop :=
  nstore_ok (im_store s.1) ∧ ∀ i r, s.2 !! i = Some r → request_ok (im_store s.1) r.

Lemma manager_emit_store m ctx sessionID name payload now :
  im_store (manager_emit marshal_interaction m ctx sessionID name payload now) = im_store m.
Proof. unfold manager_emit. repeat case_match; done. Qed.

Lemma requests_put store store' (rs : list request) i r phase :
  nstore_step store store' → (∀ j x, rs !! j = Some x → request_ok store x) → rs !! i = Some r →
  request_ok store' (at_phase r phase) → ∀ j x, <[i := at_phase r phase]> rs !! j = Some x → request_ok store' x.
Proof.
  intros Hstep Hrs Hi Hnew j x [(-> & <- & _)|(_ & Hx)]%list_lookup_insert_Some; [done|]. apply (nss_requests _ _ Hstep). by eapply Hrs.
Qed.

Lemma ended_answer item : interaction_ok item → interaction_ended item →
  match Request_answer item with
  | Ok answer => ia_State item = InteractionResolved ∧ ia_Answer item = Some answer
  | Err _ => True
  end.
Proof. unfold Request_answer. intros _ _. destruct (ia_Answer item); [|done]. case_bool_decide; cbn; done. Qed.

Lemma cancelPending_step m sessionID id revision now item :
  nstore_ok (im_store m) → getInteraction (mt_stream (im_store m) sessionID) id = Ok item → revision = 1 →
  let store' := im_store (cancelPending_cancel marshal_interaction m sessionID id revision now) in
  nstore_step (im_store m) store' ∧
  (mt_closed store' = true ∨ ∃ item', getInteraction (mt_stream store' sessionID) id = Ok item' ∧ interaction_ended item').
Proof.
  intros Hok Hg ->. unfold cancelPending_cancel. destruct (nstore_Cancel _ _ _ _ _ _) as [[cancelled store]|err] eqn:Hc.
  - rewrite manager_emit_store. cbn. pose proof Hc as Hc'. unfold nstore_Cancel, nstore_change in Hc'. cbn [ctx_Err result_bind] in Hc'.
    destruct (mt_closed (im_store m)) eqn:Hcl; [done|]. apply bind_Ok in Hc' as ([stream x] & Hx & Hc'). injection Hc' as <- <-.
    destruct (cancel_settles _ _ _ _ _ _ (nst_streams _ Hok _) Hx) as (Hok' & Hl & Hget & Hend).
    split; [by apply mt_put_step|]. right. exists x. by rewrite mt_put_stream, decide_True.
  - cbn. split; [by apply nstore_step_refl|]. destruct (mt_closed (im_store m)) eqn:Hcl; [by left|]. right. exists item. split; [done|].
    unfold nstore_Cancel, nstore_change in Hc. cbn [ctx_Err result_bind] in Hc. rewrite Hcl in Hc.
    apply getInteraction_Ok in Hg as Hi. destruct Hi as (i & Hi & Hid). pose proof (nok_items _ (nst_streams _ Hok sessionID) _ _ Hi) as Hiok.
    apply not_pending_ended; [done|]. intros Hp. unfold interaction_ok in Hiok. rewrite Hp in Hiok. destruct Hiok as [Hr _].
    unfold cancelInteraction, find_pending in Hc. unfold getInteraction in Hg. destruct (list_find _ _) as [[j y]|]; [|done].
    injection Hg as ->. rewrite Hr, Hp in Hc. cbn in Hc. by rewrite bool_decide_eq_true_2 in Hc.
Qed.

Lemma interaction_step_ok s s' :
  interaction_step s s' → world_ok s →
  world_ok s' ∧ ∀ sessionID, nstream_leads (mt_stream (im_store s.1) sessionID) (mt_stream (im_store s'.1) sessionID).
Proof.
  intros Hstep [Hok Hrs].
  enough (nstore_step (im_store s.1) (im_store s'.1) ∧ ∀ i r, s'.2 !! i = Some r → request_ok (im_store s'.1) r) as [Hn Hrs'].
  { split; [split; [apply Hn|done]|apply Hn]. }
  assert (∀ store', nstore_step (im_store s.1) store' → ∀ i r, s.2 !! i = Some r → request_ok store' r) as Hkeep.
  { intros store' Hn i r Hr. by eapply nss_requests, Hrs. }
  destruct Hstep as [m rs ctx value e now created m' H1|m rs i r item store Hi Hph Hw|m rs i r err store Hi Hph Hw|m rs i r channel store Hi Hph Hw|
    m rs i r channel Hi Hph Hin|m rs i r channel err Hi Hph|m rs i r err Hi Hph|m rs i r revision err now Hi Hph|
    m rs ctx sid id revision answer now resolved m' H1|m rs ctx sid event now created events H1|m rs]; cbn [fst snd im_store with_store] in *.
  - unfold Request_create in H1. destruct (nstore_Create _ _ _ _ _ _) as [[x store]|] eqn:Hc; [|done].
    assert (im_store m' = store) as -> by (injection H1 as _ <-; case_bool_decide; [by rewrite manager_emit_store|done]).
    injection H1 as -> _. destruct (nstore_Create_step _ _ _ _ _ _ _ Hok Hc) as [Hn Hget]. split; [done|].
    intros i r [Hr|[_ Hr]]%lookup_app_Some; [by eapply Hkeep|]. apply list_lookup_singleton_Some in Hr as [_ <-]. by exists created.
  - destruct (nstore_Wait_step _ _ _ _ _ Hok Hw) as [Hn (-> & Hg & He)]. split; [done|]. eapply requests_put; [done..|].
    exists item. split; [done|]. cbn. apply getInteraction_Ok in Hg as Hx. destruct Hx as (k & Hk & _).
    pose proof (ended_answer _ (nok_items _ (nst_streams _ Hok _) _ _ Hk) He) as Ha. destruct (Request_answer item); [done|by right].
  - destruct (nstore_Wait_step _ _ _ _ _ Hok Hw) as [Hn ->]. split; [done|]. eapply requests_put; [done..|].
    destruct (Hrs _ _ Hi) as (item & Hg & _). by exists item.
  - destruct (nstore_Wait_step _ _ _ _ _ Hok Hw) as [Hn [Hst Hsl]]. split; [done|]. eapply requests_put; [done..|].
    destruct (Hrs _ _ Hi) as (item & Hg & _). apply getInteraction_Ok in Hg as Hx. destruct Hx as (k & Hk & _).
    destruct (Hsl item Hg (nok_items _ (nst_streams _ Hok _) _ _ Hk)) as (Hc & Hp & Ha & _).
    exists item. split; [unfold mt_stream; by rewrite Hst|]. cbn. auto.
  - split; [by apply nstore_step_refl|]. eapply requests_put; [by apply nstore_step_refl|done..|].
    destruct (Hrs _ _ Hi) as (item & Hg & _). by exists item.
  - split; [by apply nstore_step_refl|]. eapply requests_put; [by apply nstore_step_refl|done..|].
    destruct (Hrs _ _ Hi) as (item & Hg & _). by exists item.
  - split; [by apply nstore_step_refl|]. eapply requests_put; [by apply nstore_step_refl|done..|].
    destruct (Hrs _ _ Hi) as (item & Hg & _). exists item. split; [done|]. cbn.
    apply getInteraction_Ok in Hg as Hx. destruct Hx as (k & Hk & _). pose proof (nok_items _ (nst_streams _ Hok _) _ _ Hk) as Hiok.
    unfold cancelPending_read, nstore_Get. cbn [ctx_Err result_bind]. destruct (mt_closed (im_store m)) eqn:Hc; [by left|].
    rewrite Hg. case_bool_decide as Hp; [unfold interaction_ok in Hiok; rewrite Hp in Hiok; apply Hiok|right; by apply not_pending_ended].
  - destruct (Hrs _ _ Hi) as (item & Hg & Hr). rewrite Hph in Hr.
    destruct (cancelPending_step m (rq_session r) (rq_id r) revision now item Hok Hg Hr) as [Hn Hend]. split; [done|].
    eapply requests_put; [done..|]. destruct (nss_leads _ _ Hn _ _ _ Hg) as (item' & Hg' & _). exists item'. split; [done|]. cbn.
    destruct Hend as [?|(y & Hy & He)]; [by left|]. right. by assert (item' = y) as -> by congruence.
  - unfold manager_Resolve in H1. destruct (nstore_Resolve _ _ _ _ _ _ _) as [[x store]|] eqn:Hc; [|done]. injection H1 as _ <-.
    rewrite manager_emit_store. cbn. assert (nstore_step (im_store m) store) as Hn.
    { eapply nstore_change_step; [done|exact Hc|]. intros stream' y Hy. by destruct (resolve_settles _ _ _ _ _ _ _ (nst_streams _ Hok _) Hy) as (? & ? & _). }
    split; [done|by apply Hkeep].
  - split; [by apply nstore_step_refl|done].
  - pose proof (nstore_Close_step _ Hok) as Hn. split; [done|by apply Hkeep].
Qed.

Lemma interaction_run_ok s s' :
  interaction_run s s' → world_ok s →
  world_ok s' ∧ ∀ sessionID, nstream_leads (mt_stream (im_store s.1) sessionID) (mt_stream (im_store s'.1) sessionID).
Proof.
  induction 1 as [s|s1 s2 s3 Hstep _ IH]; intros Hok; [split; [done|intros; apply nstream_leads_refl]|].
  destruct (interaction_step_ok _ _ Hstep Hok) as [Hok2 Hl]. destruct (IH Hok2) as [Hok3 Hl']. split; [done|].
  intros sessionID. eapply nstream_leads_trans; [apply Hl|apply Hl'].
Qed.

Lemma interaction_reach_ok s : interaction_reach s → world_ok s.
Proof.
  intros Hr. apply (interaction_run_ok _ _ Hr). split; cbn; [|by intros ? ?; rewrite lookup_nil].
  split; cbn; [|apply no_channels_ok]. intros sessionID. unfold mt_stream. cbn. rewrite lookup_empty. cbn.
  split; cbn; [constructor|by intros ? ?; rewrite lookup_nil].
Qed.
End requests.

(** C21. What becomes of a request, whatever else happens to the manager: one that returned an answer returned the
    answer with which its interaction was resolved, one of the options offered or a text that is not empty; one
    that gave up left its interaction ended, unless the store was closed; one asleep on an open channel waits
    for an interaction that is still pending; and an interaction that has ended never changes again.  The five
    seconds that a request which gives up has to cancel its interaction are taken to be enough. *)
Theorem interaction_request_outcome `{!GatewayJSON} marshal_request marshal_interaction m rs m' rs' i r :
  interaction_reach marshal_request marshal_interaction (m, rs) →
  interaction_run marshal_request marshal_interaction (m, rs) (m', rs') → rs !! i = Some r →
  ∃ item item', getInteraction (mt_stream (im_store m) (rq_session r)) (rq_id r) = Ok item ∧
    getInteraction (mt_stream (im_store m') (rq_session r)) (rq_id r) = Ok item' ∧ (interaction_ended item → item' = item) ∧
    match rq_phase r with
    | RqDone (Ok answer) => ia_State item = InteractionResolved ∧ ia_Answer item = Some answer ∧ answer_offered item answer
    | RqDone (Err _) => mt_closed (im_store m) = true ∨ interaction_ended item
    | RqAsleep channel => channel ∈ ch_notified (mt_channels (im_store m)) ∨
        (ia_State item = InteractionPending ∧
         (rs' !! i = Some r → interaction_ended item' → channel ∈ ch_notified (mt_channels (im_store m'))))
    | _ => True
    end.
Proof.
  intros Hok%interaction_reach_ok Hrun Hi. destruct (interaction_run_ok _ _ _ _ Hrun Hok) as [[_ Hrs'] Hl].
  destruct Hok as [Hok Hrs]. cbn [fst snd] in *. destruct (Hrs _ _ Hi) as (item & Hg & Hr). destruct (Hl _ _ _ Hg) as (item' & Hg' & _ & Hii).
  exists item, item'. split_and!; [done|done|by apply ended_stays|]. destruct (rq_phase r) as [|channel|err|revision err|[answer|err]] eqn:Hph; try done.
  - destruct Hr as [_ [Hin|[_ Hp]]]; [by left|]. right. split; [done|]. intros Hi' He. destruct (Hrs' _ _ Hi') as (y & Hy & Hr'). rewrite Hph in Hr'.
    assert (y = item') as -> by congruence. destruct Hr' as [_ [?|[_ Hp']]]; [done|]. unfold interaction_ended in He. by rewrite Hp' in He.
  - destruct Hr as [Hs Ha]. split_and!; [done|done|]. apply getInteraction_Ok in Hg as (k & Hk & _).
    pose proof (nok_items _ (nst_streams _ Hok _) _ _ Hk) as Hiok. unfold interaction_ok in Hiok. rewrite Hs in Hiok.
    destruct Hiok as (_ & answer' & Ha' & Hoff). congruence.
Qed.

(** ** Witnesses *)

Definition ex_marshal_request (kind prompt : string) (_ : list InteractionOption) : string := kind +:+ prompt.
Definition ex_marshal_interaction (_ : Interaction) : result string := Ok "{}".
#[local] Existing Instance example_json.

Definition ex_question : Interaction :=
  {| ia_ID := "q1"; ia_SessionID := "s"; ia_ExecutionID := "x1"; ia_Sequence := 0; ia_Kind := ""; ia_Prompt := "Continue?";
     ia_Options := [{| io_ID := "yes"; io_Label := "Yes"; io_Description := "" |}]; ia_State := InteractionPending; ia_Answer := None;
     ia_Revision := 0; ia_CreatedAt := 0; ia_UpdatedAt := 0 |}.
Definition ex_answer : InteractionAnswer := {| an_OptionID := "yes"; an_Text := "" |}.

Definition ex_m0 : InteractionManager := {| im_store := NewMemoryInteractionStore; im_events := NewMemoryEventStore |}.
Definition ex_m1 := (Request_create ex_marshal_request ex_marshal_interaction ex_m0 None ex_question (ex_entropy 1) 1000).2.
Definition ex_m2 := with_store ex_m1 (nstore_Wait (im_store ex_m1) "s" "q1").2.
Definition ex_m3 := (manager_Resolve ex_marshal_interaction ex_m2 None "s" "q1" 1 ex_answer 1001).2.
Definition ex_rq (phase : request_phase) : request := {| rq_session := "s"; rq_id := "q1"; rq_phase := phase |}.

Abbreviation ex_step := (interaction_step ex_marshal_request ex_marshal_interaction).

Lemma ex_requested : ex_step (ex_m0, []) (ex_m1, [ex_rq RqRound]).
Proof.
  destruct (Request_create ex_marshal_request ex_marshal_interaction ex_m0 None ex_question (ex_entropy 1) 1000) as [[created|err] m'] eqn:H1;
    [|by vm_compute in H1].
  assert (m' = ex_m1) as -> by (unfold ex_m1; by rewrite H1).
  replace (ex_rq RqRound) with {| rq_session := ia_SessionID created; rq_id := ia_ID created; rq_phase := RqRound |}.
  - exact (is_request _ _ ex_m0 [] None ex_question (ex_entropy 1) 1000 created ex_m1 H1).
  - vm_compute in H1. by injection H1 as <-.
Qed.

Lemma ex_asleep : ex_step (ex_m1, [ex_rq RqRound]) (ex_m2, [ex_rq (RqAsleep 1)]).
Proof. apply (is_sleep _ _ ex_m1 [ex_rq RqRound] 0 (ex_rq RqRound) 1 _ eq_refl eq_refl). by vm_compute. Qed.

Lemma ex_resolved : ex_step (ex_m2, [ex_rq (RqAsleep 1)]) (ex_m3, [ex_rq (RqAsleep 1)]).
Proof.
  destruct (manager_Resolve ex_marshal_interaction ex_m2 None "s" "q1" 1 ex_answer 1001) as [[resolved|err] m'] eqn:H1; [|by vm_compute in H1].
  assert (m' = ex_m3) as -> by (unfold ex_m3; by rewrite H1). exact (is_resolve _ _ ex_m2 _ None "s" "q1" 1 ex_answer 1001 resolved ex_m3 H1).
Qed.

Lemma ex_woken : ex_step (ex_m3, [ex_rq (RqAsleep 1)]) (ex_m3, [ex_rq RqRound]).
Proof. apply (is_wake _ _ ex_m3 [ex_rq (RqAsleep 1)] 0 (ex_rq (RqAsleep 1)) 1 eq_refl eq_refl). by vm_compute. Qed.

Lemma ex_returned : ex_step (ex_m3, [ex_rq RqRound]) (ex_m3, [ex_rq (RqDone (Ok ex_answer))]).
Proof.
  destruct (nstore_Wait (im_store ex_m3) "s" "q1") as [[[item|err]|channel] store] eqn:Hw; [|by vm_compute in Hw|by vm_compute in Hw].
  pose proof (is_return ex_marshal_request ex_marshal_interaction ex_m3 [ex_rq RqRound] 0 (ex_rq RqRound) item store eq_refl eq_refl Hw) as Hs.
  vm_compute in Hw. injection Hw as <- <-. exact Hs.
Qed.

Definition ex_answered : InteractionManager * list request := (ex_m3, [ex_rq (RqDone (Ok ex_answer))]).

Lemma ex_answered_reach : interaction_reach ex_marshal_request ex_marshal_interaction ex_answered.
Proof.
  exact (rtc_l ex_step (ex_m0, []) _ _ ex_requested (rtc_l ex_step (ex_m1, [ex_rq RqRound]) _ _ ex_asleep
    (rtc_l ex_step (ex_m2, [ex_rq (RqAsleep 1)]) _ _ ex_resolved (rtc_l ex_step (ex_m3, [ex_rq (RqAsleep 1)]) _ _ ex_woken
    (rtc_l ex_step (ex_m3, [ex_rq RqRound]) _ _ ex_returned (rtc_refl ex_step ex_answered)))))).
Qed.

Lemma interaction_request_outcome_witness :
  ∃ item, getInteraction (mt_stream (im_store ex_m3) "s") "q1" = Ok item ∧ ia_Answer item = Some ex_answer ∧ answer_offered item ex_answer.
Proof.
  destruct (interaction_request_outcome ex_marshal_request ex_marshal_interaction ex_m3 [ex_rq (RqDone (Ok ex_answer))]
    ex_m3 [ex_rq (RqDone (Ok ex_answer))] 0 (ex_rq (RqDone (Ok ex_answer))) ex_answered_reach (rtc_refl _ _) eq_refl)
    as (item & item' & Hg & _ & _ & _ & Ha & Ho).
  exists item. exact (conj Hg (conj Ha Ho)).
Defined.
