(* ===== verification/GatewayPermission.v ===== *)
(** Where plugins of the gateway ask the user: the permission rules of a session, [gateway/permission_plugin.go], a hook
    before every tool call that blocks what a deny rule matches and asks about what an ask rule matches, and the tool
    [ask_user] of [gateway/interaction_tool.go].  The row-by-row matcher decides exactly the patterns' meaning, deny rules
    win over ask rules, and a question that the hook asks must be answered before the hook's deadline. *)

From S2P Require Import Prelude GoText Names Invocation Sha256 Message ContextInjection Delivery Trajectory Agent Registrar Composition EventDispatch Payload PromptHost GatewayEvent GatewayEventProperties GatewayInteraction GatewayInteractionProperties.
Import Utf8.

Record PermissionRules := { pm_Allow : list string; pm_Ask : list string; pm_Deny : list string }.

(** ** Patterns *)

(** The rune [*] and the rune [?]. *)
Definition star : rune := 42.
Definition any : rune := 63.

(** [strings.ReplaceAll] of a text that is not empty. *)
Fixpoint replace_all (fuel : nat) (old new s : string) : string :=
  match fuel, s with
  | _, "" => ""
  | O, _ => s
  | S fuel, String c rest =>
      if String.prefix old s
      then new +:+ replace_all fuel old new (String.substring (String.length old) (String.length s - String.length old) s)
      else String c (replace_all fuel old new rest)
  end.

Definition ReplaceAll (s old new : string) : string := replace_all (String.length s) old new s.

Section lower.
(** [unicode.ToLower]. *)
Context (ToLower : rune → rune).

(** [[]rune(strings.ToLower(strings.TrimSpace(s)))]. *)
Definition lower_runes (s : string) : list rune := ToLower <$> runes (TrimSpace s).

(** The row of a [*]: a prefix of the value matches when a shorter or equal one did before. *)
Fixpoint star_row (matched : bool) (previous : list bool) : list bool :=
  match previous with
  | [] => []
  | p :: rest => let c := p || matched in c :: star_row c rest
  end.

Fixpoint token_row (token : rune) (value : list rune) (previous : list bool) : list bool :=
  match value, previous with
  | v :: value, p :: previous =>
      (p && ((token =? any) || (ToLower token =? ToLower v))) :: token_row token value previous
  | _, _ => []
  end.

Definition glob_row (value : list rune) (previous : list bool) (token : rune) : list bool :=
  if token =? star then star_row false previous else false :: token_row token value previous.

Definition permissionGlobMatch (pattern value : string) : bool :=
  let patternRunes := lower_runes pattern in
  let valueRunes := lower_runes value in
  let first := true :: replicate (length valueRunes) false in
  default false (last (foldl (glob_row valueRunes) first patternRunes)).

Fixpoint matchingPermissionRule (rules candidates : list string) : string :=
  match rules with
  | [] => ""
  | rule :: rest =>
      let pattern := TrimSpace rule in
      if is_empty pattern then matchingPermissionRule rest candidates else
      let pattern := ReplaceAll pattern ":*)" "*)" in
      if existsb (permissionGlobMatch pattern) candidates then rule else matchingPermissionRule rest candidates
  end.
End lower.

(** ** The hook *)

Definition permission_keys : list string := ["command"; "cmd"; "file_path"; "path"; "url"; "query"; "pattern"].

Section handle.
Context (ToLower : rune → rune).

(** [json.Unmarshal] of the arguments of a call into a map, with the values that are strings, and [json.Marshal]
    of what identifies a request. *)
Context (unmarshal_arguments : string → option (gmap string (option string))) (marshal_permission : string → ToolCall → string → string).

Definition permissionArgumentSummary (raw : string) : string :=
  match unmarshal_arguments raw with
  | None => TrimSpace raw
  | Some arguments =>
      default "" (head (omap (λ key,
        match arguments !! key with
        | Some (Some value) => if is_empty (TrimSpace value) then None else Some (TrimSpace value)
        | _ => None
        end) permission_keys))
  end.

Definition permissionCandidates (call : ToolCall) : list string :=
  let name := TrimSpace (tc_Name call) in
  if is_empty name then [] else
  let summary := permissionArgumentSummary (default "" (tc_Arguments call)) in
  if is_empty summary then [name] else [name; name +:+ "(" +:+ summary +:+ ")"].

Definition permissionInteraction (sessionID : string) (call : ToolCall) (pattern : string) : Interaction :=
  let digest := take 12 (Sum256 (byte <$> String.list_ascii_of_string (marshal_permission sessionID call pattern))) in
  let summary := permissionArgumentSummary (default "" (tc_Arguments call)) in
  let prompt :=
    if is_empty summary then "Allow " +:+ tc_Name call +:+ "?" else "Allow " +:+ tc_Name call +:+ "(" +:+ summary +:+ ")?" in
  {| ia_ID := "permission-" +:+ hex_EncodeToString digest; ia_SessionID := sessionID;
     ia_ExecutionID := "permission-execution-" +:+ hex_EncodeToString digest; ia_Sequence := 0; ia_Kind := InteractionPermission;
     ia_Prompt := prompt;
     ia_Options := [{| io_ID := "allow"; io_Label := "Allow once"; io_Description := "" |}; {| io_ID := "deny"; io_Label := "Deny"; io_Description := "" |}];
     ia_State := InteractionOther ""; ia_Answer := None; ia_Revision := 0; ia_CreatedAt := zeroTime; ia_UpdatedAt := zeroTime |}.

(** What the hook does with a call before it has asked anybody. *)
Inductive permission_decision :=
  | PermissionAllow
  | PermissionBlock (reason kind : string)
  | PermissionAsk (interaction : Interaction).

Definition permission_block (call : ToolCall) : permission_decision :=
  PermissionBlock ("permission denied for tool " +:+ tc_Name call) "blocked".

Definition permission_decide (rules : PermissionRules) (sessionID : string) (call : ToolCall) : permission_decision :=
  let candidates := permissionCandidates call in
  if negb (is_empty (matchingPermissionRule ToLower (pm_Deny rules) candidates)) then permission_block call else
  let pattern := matchingPermissionRule ToLower (pm_Ask rules) candidates in
  if is_empty pattern then PermissionAllow else PermissionAsk (permissionInteraction sessionID call pattern).

(** [handle], given the decoded payload and the answer of [Request]. *)
Definition permission_handle (rules : PermissionRules) (sessionID : string) (payload : result BeforeToolPayload)
    (Request : Interaction → result InteractionAnswer) : result permission_decision :=
  match payload with
  | Err err => Err (Wrapf "decode permission tool call: %w" [] err)
  | Ok payload =>
      match permission_decide rules sessionID (bt_Call payload) with
      | PermissionAsk interaction =>
          let? answer := Request interaction in
          Ok (if bool_decide (an_OptionID answer = "allow") then PermissionAllow else permission_block (bt_Call payload))
      | decision => Ok decision
      end
  end.
End handle.

Definition PriorityPre : Z := 100.

(** The hook that [Install] registers. *)
Definition permission_hook : HookSpec :=
  {| hs_Name := "gateway-tool-permissions"; hs_Event := "before_tool"; hs_Priority := PriorityPre;
     hs_FailurePolicy := FailurePolicyFailClosed; hs_Timeout := 0 |}.

(** [defaultHookTimeout] of runtime.go, one second in nanoseconds. *)
Definition defaultHookTimeout : duration := 1000000000.

(** ** The tool that asks a question *)

Definition GatewayAskUserTool : string := "ask_user".

Record ask_arguments := { aa_Question : string; aa_Options : list InteractionOption }.

Section ask_user.
(** [json.Marshal] of what identifies a question, and the strict decoder of the arguments. *)
Context (marshal_question : string → string → string → list InteractionOption → string) (decode_arguments : string → result ask_arguments).

Definition interactionID (invocation : Invocation) (question : string) (options : list InteractionOption) : string :=
  let raw := marshal_question (inv_ID invocation) (inv_ExecutionID invocation) question options in
  "interaction-" +:+ hex_EncodeToString (take 12 (Sum256 (byte <$> String.list_ascii_of_string raw))).

Definition ask_request (invocation : Invocation) (arguments : ask_arguments) : Interaction :=
  {| ia_ID := interactionID invocation (aa_Question arguments) (aa_Options arguments); ia_SessionID := inv_SessionID invocation;
     ia_ExecutionID := inv_ExecutionID invocation; ia_Sequence := 0; ia_Kind := InteractionQuestion; ia_Prompt := aa_Question arguments;
     ia_Options := aa_Options arguments; ia_State := InteractionOther ""; ia_Answer := None; ia_Revision := 0; ia_CreatedAt := zeroTime;
     ia_UpdatedAt := zeroTime |}.

(** What the model reads: the text, or the label of the option that was chosen. *)
Definition ask_content (options : list InteractionOption) (answer : InteractionAnswer) : string :=
  if is_empty (an_OptionID answer) then TrimSpace (an_Text answer) else
  match List.find (λ option, String.eqb (io_ID option) (an_OptionID answer)) options with
  | Some option => io_Label option
  | None => an_OptionID answer
  end.

(** [askUserTool.Call], given the invocation of the context and the answer of [Request]. *)
Definition askUserTool_Call (raw : string) (invocation : option Invocation) (Request : Interaction → result InteractionAnswer) : result string :=
  match decode_arguments raw with
  | Err err => Err (Wrapf "decode ask_user arguments: %w" [] err)
  | Ok arguments =>
      let missing := errors_New "ask_user requires gateway execution context" in
      match invocation with
      | None => Err missing
      | Some invocation =>
          fail_if is_empty (inv_SessionID invocation) || is_empty (inv_ExecutionID invocation) with missing;
          let? answer := Request (ask_request invocation arguments) in
          Ok (ask_content (aa_Options arguments) answer)
      end
  end.
End ask_user.

Section glob.
Context (ToLower : rune → rune).

(** ** What a pattern means

    The value splits into one piece per rune of the pattern: any piece for a star, one rune for a question mark,
    and otherwise one rune that is the same up to case. *)

Definition token_matches (token : rune) (piece : list rune) : Prop :=
  token = star ∨ (token ≠ star ∧ ∃ r, piece = [r] ∧ (token = any ∨ ToLower token = ToLower r)).

Definition glob_matches (pattern value : list rune) : Prop :=
  ∃ pieces, value = concat pieces ∧ Forall2 token_matches pattern pieces.

Lemma glob_nil value : glob_matches [] value ↔ value = [].
Proof.
  split; [by intros (pieces & -> & ->%Forall2_nil_inv_l)|]. intros ->. by exists [].
Qed.

Lemma glob_snoc pattern token value :
  glob_matches (pattern ++ [token]) value ↔
  ∃ v1 v2, value = v1 ++ v2 ∧ glob_matches pattern v1 ∧ token_matches token v2.
Proof.
  split.
  - intros (pieces & -> & (p1 & p2 & H1 & H2 & ->)%Forall2_app_inv_l). apply Forall2_cons_inv_l in H2 as (x & p3 & Hx & ->%Forall2_nil_inv_l & ->).
    exists (concat p1), x. rewrite concat_app. cbn. rewrite app_nil_r. split_and!; [done|by exists p1|done].
  - intros (v1 & v2 & -> & (pieces & -> & Hp) & Ht). exists (pieces ++ [v2]). rewrite concat_app. cbn. rewrite app_nil_r.
    split; [done|]. apply Forall2_app; [done|by constructor].
Qed.

(** ** The rows *)

Lemma star_row_lookup matched previous i :
  star_row matched previous !! i =
    (λ _, matched || existsb id (take (S i) previous)) <$> previous !! i.
Proof.
  revert matched i. induction previous as [|p previous IH]; intros matched i; [done|]. cbn [star_row].
  destruct i as [|i]; cbn; [f_equal; unfold id; by destruct p, matched|]. rewrite IH. destruct (previous !! i); [|done]. cbn. f_equal.
  unfold id. by destruct p, matched.
Qed.

Lemma token_row_lookup token value previous i :
  token_row ToLower token value previous !! i =
    match value !! i, previous !! i with
    | Some v, Some p => Some (p && ((token =? any) || (ToLower token =? ToLower v)))
    | _, _ => None
    end.
Proof.
  revert value i. induction previous as [|p previous IH]; intros [|v value] [|i]; try done; cbn; [by destruct (value !! i)|apply IH].
Qed.

(** [row !! i] tells whether the pattern matches the first [i] runes of the value. *)
Definition row_ok (pattern value : list rune) (row : list bool) : Prop :=
  length row = S (length value) ∧ ∀ i b, row !! i = Some b → (b = true ↔ glob_matches pattern (take i value)).

Lemma row_ok_first value : row_ok [] value (true :: replicate (length value) false).
Proof.
  split; [cbn; by rewrite length_replicate|]. intros [|i] b; cbn.
  - intros [= <-]. split; [by intros _; apply glob_nil|done].
  - intros [-> Hi]%lookup_replicate. split; [done|]. rewrite glob_nil. intros Hn%(f_equal length). rewrite length_take, length_nil in Hn. lia.
Qed.

Lemma row_ok_star pattern value row : row_ok pattern value row → row_ok (pattern ++ [star]) value (star_row false row).
Proof.
  intros [Hlen Hrow]. assert (length (star_row false row) = length row) as Hl.
  { clear. generalize false. induction row as [|p row IH]; intros m; cbn; [done|by rewrite IH]. }
  split; [lia|]. intros i b. rewrite star_row_lookup. destruct (row !! i) as [p|] eqn:Hi; [|done]. cbn. intros [= <-].
  apply lookup_lt_Some in Hi. rewrite glob_snoc. split.
  - intros (b & Hin & Hb)%existsb_exists. unfold id in Hb. subst b. apply list_elem_of_In, list_elem_of_lookup in Hin as (j & Hj).
    apply lookup_take_Some in Hj as [Hj Hlt]. exists (take j value), (take (i - j) (drop j value)). split_and!.
    + rewrite take_take_drop. f_equal. lia.
    + by apply (proj1 (Hrow j true Hj)).
    + by left.
  - intros (v1 & v2 & Hv & Hg & _). apply existsb_exists. exists true. split; [|done].
    assert (length v1 ≤ i)%nat as Hle.
    { apply (f_equal length) in Hv. rewrite length_take, length_app in Hv. lia. }
    assert (v1 = take (length v1) value) as Hv1.
    { transitivity (take (length v1) (take i value)); [by rewrite Hv, take_app_length|]. rewrite take_take. f_equal. lia. }
    destruct (lookup_lt_is_Some_2 row (length v1)) as [b Hb]; [lia|]. pose proof (Hrow _ _ Hb) as [_ Hbt].
    rewrite <- Hv1 in Hbt. rewrite (Hbt Hg) in Hb. apply list_elem_of_In, list_elem_of_lookup. exists (length v1).
    rewrite lookup_take_lt; [done|lia].
Qed.

Lemma row_ok_token pattern token value row :
  token ≠ star → row_ok pattern value row → row_ok (pattern ++ [token]) value (false :: token_row ToLower token value row).
Proof.
  intros Hns [Hlen Hrow]. assert (length (token_row ToLower token value row) = length value) as Hl.
  { clear Hrow. revert row Hlen. induction value as [|v value IH]; intros [|p row] Hlen; cbn in *; [done|done|lia|]. rewrite IH; lia. }
  split; [cbn; lia|]. intros [|i] b; cbn.
  - intros [= <-]. split; [done|]. rewrite glob_snoc. intros (v1 & v2 & Hv & _ & Ht).
    destruct Ht as [?|(_ & r & -> & _)]; [done|]. by destruct v1.
  - rewrite token_row_lookup. destruct (value !! i) as [v|] eqn:Hv; [|done]. destruct (row !! i) as [p|] eqn:Hp; [|done].
    intros [= <-]. rewrite (take_S_r value i v Hv), glob_snoc. rewrite andb_true_iff, orb_true_iff, !Z.eqb_eq, (Hrow _ _ Hp). split.
    + intros [Hg Ht]. exists (take i value), [v]. split_and!; [done|done|]. right. split; [done|]. by exists v.
    + intros (v1 & v2 & Heq & Hg & Ht). destruct Ht as [?|(_ & r & -> & Ht)]; [done|].
      apply app_inj_tail in Heq as [-> ->]. done.
Qed.

Lemma glob_rows pattern prefix value row :
  row_ok prefix value row → row_ok (prefix ++ pattern) value (foldl (glob_row ToLower value) row pattern).
Proof.
  revert prefix row. induction pattern as [|token pattern IH]; intros prefix row Hrow; cbn; [by rewrite app_nil_r|].
  replace (prefix ++ token :: pattern) with ((prefix ++ [token]) ++ pattern) by (by rewrite <- app_assoc). apply IH. unfold glob_row.
  destruct (Z.eqb_spec token star) as [->|Hne]; [by apply row_ok_star|by apply row_ok_token].
Qed.

Lemma permissionGlobMatch_spec pattern value :
  permissionGlobMatch ToLower pattern value = true ↔ glob_matches (lower_runes ToLower pattern) (lower_runes ToLower value).
Proof.
  unfold permissionGlobMatch. set (p := lower_runes ToLower pattern). set (v := lower_runes ToLower value).
  pose proof (glob_rows p [] v _ (row_ok_first v)) as [Hlen Hrow]. cbn [app] in *.
  set (row := foldl (glob_row ToLower v) (true :: replicate (length v) false) p) in *.
  rewrite last_lookup. replace (pred (length row)) with (length v) by lia.
  destruct (lookup_lt_is_Some_2 row (length v)) as [b Hb]; [lia|]. rewrite Hb. cbn. rewrite (Hrow _ _ Hb). by rewrite firstn_all.
Qed.

(** ** Rules *)

(** A rule applies to a call when it is not blank and its pattern matches the name of the tool or its summary. *)
Definition rule_applies (candidates : list string) (rule : string) : Prop :=
  TrimSpace rule ≠ "" ∧ ∃ candidate, candidate ∈ candidates ∧
    glob_matches (lower_runes ToLower (ReplaceAll (TrimSpace rule) ":*)" "*)")) (lower_runes ToLower candidate).

Lemma matchingPermissionRule_spec rules candidates :
  match matchingPermissionRule ToLower rules candidates with
  | "" => ∀ rule, rule ∈ rules → ¬ rule_applies candidates rule
  | rule => ∃ before after, rules = before ++ rule :: after ∧ rule_applies candidates rule ∧
              ∀ earlier, earlier ∈ before → ¬ rule_applies candidates earlier
  end.
Proof.
  induction rules as [|rule rules IH]; cbn [matchingPermissionRule]; [by intros rule ?%elem_of_nil|].
  destruct (is_empty (TrimSpace rule)) eqn:He; [|destruct (existsb _ _) eqn:Hm].
  - apply is_empty_true in He.
    assert (¬ rule_applies candidates rule) as Hno by (by intros [? _]).
    destruct (matchingPermissionRule ToLower rules candidates) as [|c s].
    + intros r [->|Hr]%elem_of_cons; [done|by apply IH].
    + destruct IH as (before & after & -> & Happ & Hbefore). exists (rule :: before), after. split_and!; [done|done|].
      intros r [->|Hr]%elem_of_cons; [done|by apply Hbefore].
  - apply is_empty_false in He. apply existsb_exists in Hm as (candidate & Hin & Hg%permissionGlobMatch_spec).
    assert (rule_applies candidates rule) as Happ. { split; [done|]. exists candidate. split; [by apply list_elem_of_In|done]. }
    destruct rule as [|c s]; [by cbn in He|]. exists [], rules. split_and!; [done|done|by intros r ?%elem_of_nil].
  - assert (¬ rule_applies candidates rule) as Hno.
    { intros (_ & candidate & Hin & Hg%permissionGlobMatch_spec). apply Bool.not_true_iff_false in Hm. apply Hm, existsb_exists.
      exists candidate. split; [by apply list_elem_of_In|done]. }
    destruct (matchingPermissionRule ToLower rules candidates) as [|c s].
    + intros r [->|Hr]%elem_of_cons; [done|by apply IH].
    + destruct IH as (before & after & -> & Happ & Hbefore). exists (rule :: before), after. split_and!; [done|done|].
      intros r [->|Hr]%elem_of_cons; [done|by apply Hbefore].
Qed.
End glob.

(** C23. What the permission hook does with a call: it blocks it exactly when a deny rule applies; otherwise it asks
    exactly when an ask rule applies, naming the first one that does; otherwise it lets it pass.  A rule applies
    when its pattern, with its meaning of stars and question marks, matches the tool or its summary up to case.
    After asking, only the answer [allow] lets the call pass. *)
Theorem permission_decision_exact ToLower unmarshal_arguments marshal_permission rules sessionID payload Request :
  let applies := rule_applies ToLower (permissionCandidates unmarshal_arguments (bt_Call payload)) in
  let question := permissionInteraction unmarshal_arguments marshal_permission sessionID (bt_Call payload) in
  let handled := permission_handle ToLower unmarshal_arguments marshal_permission rules sessionID (Ok payload) Request in
  ((∃ rule, rule ∈ pm_Deny rules ∧ applies rule) ∧ handled = Ok (permission_block (bt_Call payload))) ∨
  ((∀ rule, rule ∈ pm_Deny rules → ¬ applies rule) ∧
   ((∃ before rule after, pm_Ask rules = before ++ rule :: after ∧ applies rule ∧ (∀ earlier, earlier ∈ before → ¬ applies earlier) ∧
      handled = match Request (question rule) with
                | Err err => Err err
                | Ok answer => Ok (if bool_decide (an_OptionID answer = "allow") then PermissionAllow else permission_block (bt_Call payload))
                end) ∨
    ((∀ rule, rule ∈ pm_Ask rules → ¬ applies rule) ∧ handled = Ok PermissionAllow))).
Proof.
  cbn zeta. unfold permission_handle, permission_decide.
  pose proof (matchingPermissionRule_spec ToLower (pm_Deny rules) (permissionCandidates unmarshal_arguments (bt_Call payload))) as Hd.
  pose proof (matchingPermissionRule_spec ToLower (pm_Ask rules) (permissionCandidates unmarshal_arguments (bt_Call payload))) as Ha.
  destruct (matchingPermissionRule ToLower (pm_Deny rules) _) as [|c s]; cbn [is_empty negb].
  - right. split; [done|]. destruct (matchingPermissionRule ToLower (pm_Ask rules) _) as [|c s]; cbn [is_empty].
    + right. done.
    + left. destruct Ha as (before & after & Hask & Happ & Hbefore). exists before, (String c s), after. split_and!; [done..|].
      cbn. by destruct (Request _).
  - left. destruct Hd as (before & after & Hdeny & Happ & _). split; [|done]. exists (String c s). split; [|done].
    rewrite Hdeny. apply elem_of_app. right. by left.
Qed.

(** ** A question before the deadline of the hook *)

Definition ascii_lower_rune (r : rune) : rune := if (65 <=? r) && (r <=? 90) then r + 32 else r.
Definition ex_arguments (_ : string) : option (gmap string (option string)) := Some {["command" := Some "git push"]}.
Definition ex_marshal_permission (sessionID : string) (call : ToolCall) (pattern : string) : string := sessionID +:+ tc_ID call +:+ pattern.
Definition ex_push : ToolCall := {| tc_ID := "call-1"; tc_Name := "Bash"; tc_Arguments := Some "{}" |}.
Definition ex_rules : PermissionRules := {| pm_Allow := []; pm_Ask := ["bash(git push:*)"]; pm_Deny := ["bash(rm *)"] |}.
Definition ex_permission : Interaction := permissionInteraction ex_arguments ex_marshal_permission "s" ex_push "bash(git push:*)".
#[local] Existing Instance example_json.

Example ex_glob : permissionGlobMatch ascii_lower_rune "Bash(git*" " bash(GIT push)" = true.
Proof. by vm_compute. Qed.

Abbreviation p_step := (interaction_step ex_marshal_request ex_marshal_interaction).
Definition ex_p1 := (Request_create ex_marshal_request ex_marshal_interaction ex_m0 None ex_permission (ex_entropy 1) 1000).2.
Definition ex_p2 := with_store ex_p1 (nstore_Wait (im_store ex_p1) "s" (ia_ID ex_permission)).2.
Definition ex_p3 := cancelPending_cancel ex_marshal_interaction ex_p2 "s" (ia_ID ex_permission) 1 1001.
Definition ex_ask (phase : request_phase) : request := {| rq_session := "s"; rq_id := ia_ID ex_permission; rq_phase := phase |}.
Definition late : error := Sentinel DeadlineExceeded.

Lemma ex_ask_requested : p_step (ex_m0, []) (ex_p1, [ex_ask RqRound]).
Proof.
  destruct (Request_create ex_marshal_request ex_marshal_interaction ex_m0 None ex_permission (ex_entropy 1) 1000) as [[created|err] m'] eqn:H1;
    [|by vm_compute in H1].
  assert (m' = ex_p1) as -> by (unfold ex_p1; by rewrite H1).
  replace (ex_ask RqRound) with {| rq_session := ia_SessionID created; rq_id := ia_ID created; rq_phase := RqRound |}.
  - exact (is_request _ _ ex_m0 [] None ex_permission (ex_entropy 1) 1000 created ex_p1 H1).
  - vm_compute in H1. injection H1 as <-. by vm_compute.
Qed.

Lemma ex_ask_asleep : p_step (ex_p1, [ex_ask RqRound]) (ex_p2, [ex_ask (RqAsleep 1)]).
Proof. apply (is_sleep _ _ ex_p1 [ex_ask RqRound] 0 (ex_ask RqRound) 1 _ eq_refl eq_refl). by vm_compute. Qed.

Lemma ex_ask_expired : p_step (ex_p2, [ex_ask (RqAsleep 1)]) (ex_p2, [ex_ask (RqGaveUp late)]).
Proof. apply (is_cancelled _ _ ex_p2 [ex_ask (RqAsleep 1)] 0 (ex_ask (RqAsleep 1)) 1 late eq_refl eq_refl). Qed.

Lemma ex_ask_read : p_step (ex_p2, [ex_ask (RqGaveUp late)]) (ex_p2, [ex_ask (RqCancelling 1 late)]).
Proof.
  pose proof (is_read ex_marshal_request ex_marshal_interaction ex_p2 [ex_ask (RqGaveUp late)] 0 (ex_ask (RqGaveUp late)) late eq_refl eq_refl) as Hs.
  assert (cancelPending_read ex_p2 "s" (ia_ID ex_permission) = Some 1) as E by (by vm_compute). cbn [rq_session rq_id ex_ask] in Hs. rewrite E in Hs. exact Hs.
Qed.

Lemma ex_ask_given_up : p_step (ex_p2, [ex_ask (RqCancelling 1 late)]) (ex_p3, [ex_ask (RqDone (Err late))]).
Proof. exact (is_cancel ex_marshal_request ex_marshal_interaction ex_p2 [ex_ask (RqCancelling 1 late)] 0 (ex_ask (RqCancelling 1 late)) 1 late 1001 eq_refl eq_refl). Qed.

(** A question of the permission hook has the deadline of a hook, and an unanswered one fails the call: the hook
    sets no timeout of its own, so a composition gives it the default of one second, and it fails closed; when
    the deadline passes while the user has not answered, the request gives up, the interaction is cancelled and
    the hook returns the error of the request. *)
Theorem permission_question_expires :
  (∀ contract, let spec := normalizeHookSpec permission_hook contract defaultHookTimeout in
     hs_Timeout spec = 1000000000 ∧ hs_FailurePolicy spec = FailurePolicyFailClosed) ∧
  ∃ m item, interaction_reach ex_marshal_request ex_marshal_interaction (m, [ex_ask (RqDone (Err late))]) ∧
    getInteraction (mt_stream (im_store m) "s") (ia_ID ex_permission) = Ok item ∧ ia_State item = InteractionCancelled ∧
    permission_handle ascii_lower_rune ex_arguments ex_marshal_permission ex_rules "s" (Ok {| bt_Turn := 1; bt_Call := ex_push |})
      (λ question, if String.eqb (ia_ID question) (ia_ID ex_permission) then Err late else Ok ex_answer) = Err late.
Proof.
  split; [done|].
  destruct (getInteraction (mt_stream (im_store ex_p3) "s") (ia_ID ex_permission)) as [item|err] eqn:Hg; [|by vm_compute in Hg].
  exists ex_p3, item. split; [|split; [done|split; [vm_compute in Hg; by injection Hg as <-|by vm_compute]]].
  exact (rtc_l p_step (ex_m0, []) _ _ ex_ask_requested (rtc_l p_step (ex_p1, [ex_ask RqRound]) _ _ ex_ask_asleep
    (rtc_l p_step (ex_p2, [ex_ask (RqAsleep 1)]) _ _ ex_ask_expired (rtc_l p_step (ex_p2, [ex_ask (RqGaveUp late)]) _ _ ex_ask_read
    (rtc_l p_step (ex_p2, [ex_ask (RqCancelling 1 late)]) _ _ ex_ask_given_up (rtc_refl p_step (ex_p3, [ex_ask (RqDone (Err late))]))))))).
Qed.

(** ** Questions of the tool *)

Lemma find_option options option :
  NoDup (io_ID <$> options) → option ∈ options → List.find (λ o, String.eqb (io_ID o) (io_ID option)) options = Some option.
Proof.
  induction options as [|o options IH]; cbn; [by intros _ ?%elem_of_nil|]. intros [Hn Hd]%NoDup_cons Hin. apply elem_of_cons in Hin as [->|Hin].
  - by rewrite String.eqb_refl.
  - destruct (String.eqb_spec (io_ID o) (io_ID option)) as [E|_]; [|by apply IH]. destruct Hn. rewrite E. by apply list_elem_of_fmap_2.
Qed.

(** The answer to a question reaches the model as the user saw it: the label of the option that was chosen, and the text
    otherwise; and a question that is asked again by the same invocation is the same interaction, so that a tool call that
    is repeated after a crash waits for the answer to its first question. *)
Theorem ask_user_answer marshal_question decode_arguments raw invocation arguments Request answer :
  decode_arguments raw = Ok arguments → inv_SessionID invocation ≠ "" → inv_ExecutionID invocation ≠ "" → NoDup (io_ID <$> aa_Options arguments) →
  Request (ask_request marshal_question invocation arguments) = Ok answer →
  ∃ content, askUserTool_Call marshal_question decode_arguments raw (Some invocation) Request = Ok content ∧
    (an_OptionID answer = "" → content = TrimSpace (an_Text answer)) ∧
    (∀ option, option ∈ aa_Options arguments → io_ID option ≠ "" → an_OptionID answer = io_ID option → content = io_Label option) ∧
    (∀ again, inv_ID again = inv_ID invocation → inv_ExecutionID again = inv_ExecutionID invocation →
       ia_ID (ask_request marshal_question again arguments) = ia_ID (ask_request marshal_question invocation arguments)).
Proof.
  intros Hd Hs He Hn Hr. unfold askUserTool_Call. rewrite Hd. apply is_empty_false in Hs, He. rewrite Hs, He. cbn. rewrite Hr. cbn.
  eexists. split_and!; [done|unfold ask_content; by intros -> | |].
  - intros option Hin Hne Ho. unfold ask_content. rewrite Ho, (proj2 (is_empty_false _) Hne), find_option by done. done.
  - intros again H1 H2. cbn. unfold interactionID. by rewrite H1, H2.
Qed.
