(* ===== verification/GatewaySession.v ===== *)
(** The sessions of the gateway, [gateway/session.go], the store that keeps them in memory,
    [gateway/store_memory.go], and the gate that serializes the requests on one session, [gateway/session_gate.go]. *)

From S2P Require Import Prelude GoText Names Message ContextInjection Delivery Trajectory Agent Registrar Composition EventDispatch Payload PromptHost Paging Base64 Registry GatewayEvent GatewayInteraction GatewayPermission.
Import Utf8.

(** ** Text *)

Definition is_ascii (s : string) : bool := string_forallb (λ c, N.ltb (byte c) 128) s.

Definition lower_ascii (c : ascii) : ascii :=
  if N.leb 65 (byte c) && N.leb (byte c) 90 then ascii_of_N (byte c + 32) else c.

Definition byte_of (z : Z) : ascii := ascii_of_N (Z.to_N z).

(** [utf8.AppendRune]. *)
Definition EncodeRune (r : rune) : list ascii :=
  if (0 <=? r) && (r <=? 127) then [byte_of r]
  else if (128 <=? r) && (r <=? 2047) then [byte_of (192 + r / 64); byte_of (128 + r mod 64)]
  else
    let r := if (r <? 0) || (1114111 <? r) || ((55296 <=? r) && (r <=? 57343)) then RuneError else r in
    if r <=? 65535 then [byte_of (224 + r / 4096); byte_of (128 + r / 64 mod 64); byte_of (128 + r mod 64)]
    else [byte_of (240 + r / 262144); byte_of (128 + r / 4096 mod 64); byte_of (128 + r / 64 mod 64); byte_of (128 + r mod 64)].

(** [unicode.IsControl]. *)
Definition IsControl (r : rune) : bool := ((0 <=? r) && (r <? 32)) || ((127 <=? r) && (r <? 160)).

(** [filepath.IsAbs] and [filepath.Clean] on Unix, the latter for an absolute path. *)
Definition IsAbs (path : string) : bool := match path with String "/" _ => true | _ => false end.

Fixpoint split_slash (path : string) : list string :=
  match path with
  | "" => [""]
  | String c path =>
      if Ascii.eqb c "/" then "" :: split_slash path else
      match split_slash path with part :: parts => String c part :: parts | [] => [String c ""] end
  end.

Definition clean_part (stack : list string) (part : string) : list string :=
  if is_empty part || String.eqb part "." then stack
  else if String.eqb part ".." then tail stack
  else part :: stack.

Definition clean_parts (path : string) : list string := reverse (foldl clean_part [] (split_slash path)).

Fixpoint rooted (parts : list string) : string :=
  match parts with [] => "" | part :: parts => "/" +:+ part +:+ rooted parts end.

Definition Clean (path : string) : string := string_default (rooted (clean_parts path)) "/".

(** ** Data *)

Record PluginBinding := {
  pb_Namespace : string;
  pb_Name : string;
  pb_InstanceID : string;
  pb_URI : string;
  pb_Manifest : Manifest;
  pb_Labels : gmap string string;
  pb_Epoch : Z;
}.

Record PermissionRule := { prl_Kind : string; prl_Pattern : string }.

Record SessionPatch := {
  sp_Title : option string;
  sp_Model : option string;
  sp_AutoCompact : option bool;
  sp_ThinkingLevel : option string;
  sp_PermissionRule : option PermissionRule;
}.

(** [gateway.Session].  An empty [RuntimeConfig] and none are the same to the code. *)
Record gateway_Session := {
  gs_ID : string;
  gs_UserID : string;
  gs_Title : string;
  gs_Provider : string;
  gs_Model : string;
  gs_Models : list string;
  gs_Tools : list string;
  gs_System : string;
  gs_MaxTurns : Z;
  gs_WorkspaceRoot : string;
  gs_RuntimeConfig : string;
  gs_AutoCompact : option bool;
  gs_ThinkingLevel : string;
  gs_Permissions : PermissionRules;
  gs_Paused : bool;
  gs_Revision : Z;
  gs_Plugins : list PluginBinding;
  gs_CreatedAt : time;
  gs_UpdatedAt : time;
}.

Record SessionPage := { spg_Items : list gateway_Session; spg_Next : string }.

(** ** Normalization *)

Definition validateUserID (value : string) : result unit :=
  fail_if is_empty value with errors_New "gateway session user ID is empty";
  fail_if (256 <? Z.of_nat (String.length value)) with errors_New "gateway session user ID exceeds 256 bytes";
  fail_if existsb IsControl (runes value) with errors_New "gateway session user ID contains control characters";
  Ok tt.

Definition normalizeUserID (value : string) : result string :=
  let value := TrimSpace value in
  try? validateUserID value;
  Ok value.

Definition rune_count (s : string) : Z := Z.of_nat (length (runes s)).

Fixpoint string_set_loop (kind : string) (maxRunes : Z) (seen : gset string) (values : list string) : result (list string) :=
  match values with
  | [] => Ok []
  | value :: values =>
      let value := TrimSpace value in
      if is_empty value then string_set_loop kind maxRunes seen values else
      fail_if (maxRunes <? rune_count value) with Errorf "%s exceeds %d characters" [AStr kind; ANum maxRunes];
      if bool_decide (value ∈ seen) then string_set_loop kind maxRunes seen values else
      let? rest := string_set_loop kind maxRunes ({[value]} ∪ seen) values in
      Ok (value :: rest)
  end.

Definition normalizeStringSet (kind : string) (values : list string) (maxRunes : Z) : result (list string) :=
  let? set := string_set_loop kind maxRunes ∅ values in
  Ok (SortFunc strings_Compare set).

Definition normalizePermissionRules (rules : PermissionRules) : result PermissionRules :=
  let? allow := normalizeStringSet "allow permission rule" (pm_Allow rules) 512 in
  let? ask := normalizeStringSet "ask permission rule" (pm_Ask rules) 512 in
  let? deny := normalizeStringSet "deny permission rule" (pm_Deny rules) 512 in
  Ok {| pm_Allow := allow; pm_Ask := ask; pm_Deny := deny |}.

Definition thinking_levels : list string := [""; "off"; "low"; "medium"; "high"; "xhigh"].

Definition add_model (model : string) (models : list string) : list string :=
  if is_empty model || bool_decide (model ∈ models) then models else SortFunc strings_Compare (models ++ [model]).

Definition normalize_root (root : string) : result string :=
  if is_empty root then Ok root else
  fail_if negb (IsAbs root) with errors_New "gateway session workspace root must be absolute";
  Ok (Clean root).

Definition check_runtime_config (config : string) : result unit :=
  if is_empty config then Ok tt else
  fail_if (1048576 <? Z.of_nat (String.length config)) with errors_New "gateway session runtime config exceeds 1 MiB";
  fail_if negb (json_Valid config) with errors_New "gateway session runtime config is not valid JSON";
  Ok tt.

Section normalize.
(** [url.Parse], and [unicode.ToLower] beyond ASCII. *)
Context (url_Parse : string → result URL) (ToLower : rune → rune).

(** [strings.ToLower]. *)
Definition strings_ToLower (s : string) : string :=
  if is_ascii s then String.string_of_list_ascii (lower_ascii <$> String.list_ascii_of_string s)
  else String.string_of_list_ascii (concat (EncodeRune <$> (ToLower <$> runes s))).

Definition normalizeBinding (binding : PluginBinding) : result PluginBinding :=
  let binding :=
    {| pb_Namespace := TrimSpace (pb_Namespace binding); pb_Name := TrimSpace (pb_Name binding);
       pb_InstanceID := TrimSpace (pb_InstanceID binding); pb_URI := TrimSpace (pb_URI binding);
       pb_Manifest := pb_Manifest binding; pb_Labels := pb_Labels binding; pb_Epoch := pb_Epoch binding |} in
  try? ValidateResourceName "registry namespace" (pb_Namespace binding);
  try? ValidateResourceName "plugin" (pb_Name binding);
  try? ValidateResourceName "plugin instance" (pb_InstanceID binding);
  fail_if pb_Epoch binding =? 0 with errors_New "plugin binding epoch must be positive";
  match url_Parse (pb_URI binding) with
  | Err err => Err (Wrapf "parse plugin binding URI %q: %w" [AStr (pb_URI binding)] err)
  | Ok parsed =>
      fail_if is_empty (url_Scheme parsed) ||
              (is_empty (url_Host parsed) && is_empty (url_Opaque parsed) && is_empty (url_Path parsed)) with
        Errorf "plugin binding URI %q has no scheme or target" [AStr (pb_URI binding)];
      match Manifest_Validate (pb_Manifest binding) with
      | Err err => Err (Wrapf "validate plugin binding manifest: %w" [] err)
      | Ok _ =>
          fail_if bool_decide (mf_Name (pb_Manifest binding) ≠ pb_Name binding) with
            Errorf "plugin binding name %q does not match manifest name %q" [AStr (pb_Name binding); AStr (mf_Name (pb_Manifest binding))];
          Ok binding
      end
  end.

Fixpoint bindings_loop (seen : gset string) (bindings : list PluginBinding) : result (list PluginBinding) :=
  match bindings with
  | [] => Ok []
  | binding :: bindings =>
      let? normalized := normalizeBinding binding in
      fail_if bool_decide (pb_Name normalized ∈ seen) with
        Errorf "gateway session contains plugin %q more than once" [AStr (pb_Name normalized)];
      let? rest := bindings_loop ({[pb_Name normalized]} ∪ seen) bindings in
      Ok (normalized :: rest)
  end.

Definition compare_bindings (left right : PluginBinding) : Z := strings_Compare (pb_Name left) (pb_Name right).

Definition normalizeSession (session : gateway_Session) : result gateway_Session :=
  let id := TrimSpace (gs_ID session) in
  let title := TrimSpace (gs_Title session) in
  let provider := TrimSpace (gs_Provider session) in
  let model := TrimSpace (gs_Model session) in
  let thinking := strings_ToLower (TrimSpace (gs_ThinkingLevel session)) in
  let root := TrimSpace (gs_WorkspaceRoot session) in
  try? ValidateResourceName "gateway session" id;
  let? userID := normalizeUserID (gs_UserID session) in
  try? (if is_empty provider then Ok tt else ValidateResourceName "provider" provider);
  fail_if (256 <? rune_count title) with errors_New "gateway session title exceeds 256 characters";
  let? models := normalizeStringSet "gateway session model" (gs_Models session) 128 in
  let? tools := normalizeStringSet "gateway session tool" (gs_Tools session) 128 in
  let models := add_model model models in
  fail_if negb (bool_decide (thinking ∈ thinking_levels)) with
    Errorf "gateway session thinking level %q is invalid" [AStr thinking];
  let? permissions := normalizePermissionRules (gs_Permissions session) in
  fail_if (gs_MaxTurns session <? 0) with errors_New "gateway session max turns cannot be negative";
  let? root := normalize_root root in
  try? check_runtime_config (gs_RuntimeConfig session);
  let? plugins := bindings_loop ∅ (gs_Plugins session) in
  Ok {| gs_ID := id; gs_UserID := userID; gs_Title := title; gs_Provider := provider; gs_Model := model; gs_Models := models;
        gs_Tools := tools; gs_System := gs_System session; gs_MaxTurns := gs_MaxTurns session; gs_WorkspaceRoot := root;
        gs_RuntimeConfig := gs_RuntimeConfig session; gs_AutoCompact := gs_AutoCompact session; gs_ThinkingLevel := thinking;
        gs_Permissions := permissions; gs_Paused := gs_Paused session; gs_Revision := gs_Revision session;
        gs_Plugins := SortFunc compare_bindings plugins; gs_CreatedAt := gs_CreatedAt session; gs_UpdatedAt := gs_UpdatedAt session |}.

(** ** Updates and pages *)

Definition stamp_session (session : gateway_Session) (revision : Z) (created updated : time) : gateway_Session :=
  {| gs_ID := gs_ID session; gs_UserID := gs_UserID session; gs_Title := gs_Title session; gs_Provider := gs_Provider session;
     gs_Model := gs_Model session; gs_Models := gs_Models session; gs_Tools := gs_Tools session; gs_System := gs_System session;
     gs_MaxTurns := gs_MaxTurns session; gs_WorkspaceRoot := gs_WorkspaceRoot session; gs_RuntimeConfig := gs_RuntimeConfig session;
     gs_AutoCompact := gs_AutoCompact session; gs_ThinkingLevel := gs_ThinkingLevel session; gs_Permissions := gs_Permissions session;
     gs_Paused := gs_Paused session; gs_Revision := revision; gs_Plugins := gs_Plugins session; gs_CreatedAt := created;
     gs_UpdatedAt := updated |}.

Definition session_conflict (session : gateway_Session) (expectedRevision : Z) : error :=
  Wrapf "%w: session %s has revision %d, expected %d" [AStr (gs_ID session); ANum (gs_Revision session); ANum expectedRevision]
    (Sentinel ErrSessionConflict).

Definition prepareSessionUpdate (current replacement : gateway_Session) (expectedRevision : Z) (now : time) : result gateway_Session :=
  fail_if negb (gs_Revision current =? expectedRevision) with session_conflict current expectedRevision;
  fail_if negb (bool_decide (gs_UserID current = gs_UserID replacement)) with
    Errorf "gateway session %s user ID is immutable" [AStr (gs_ID current)];
  fail_if gs_Revision current =? MaxUint64 with
    Wrapf "%w: session %s revision is exhausted" [AStr (gs_ID current)] (Sentinel ErrSessionConflict);
  Ok (stamp_session replacement (u64 (gs_Revision current + 1)) (gs_CreatedAt current) now).

Definition validatePage (request : PageRequest) : result PageRequest :=
  let limit := if pr_Limit request =? 0 then DefaultPageSize else pr_Limit request in
  fail_if (limit <? 1) || (MaxPageSize <? limit) with
    Errorf "gateway session page limit must be between 1 and %d" [ANum MaxPageSize];
  Ok {| pr_After := pr_After request; pr_Limit := limit |}.

Definition session_ids (sessions : gmap string gateway_Session) (after : string) (match_session : gateway_Session → bool) : list string :=
  SortFunc strings_Compare (filter (λ p, key_after after p.1 && match_session p.2 = true) (map_to_list sessions)).*1.

Definition listSessionMatches (sessions : gmap string gateway_Session) (request : PageRequest) (match_session : gateway_Session → bool)
    : SessionPage :=
  let ids := session_ids sessions (pr_After request) match_session in
  let limit := Z.to_nat (pr_Limit request) in
  {| spg_Items := omap (λ id, sessions !! id) (take limit ids);
     spg_Next := if (limit <? length ids)%nat then default "" (ids !! (limit - 1)%nat) else "" |}.

Definition listSessions (sessions : gmap string gateway_Session) (request : PageRequest) : SessionPage :=
  listSessionMatches sessions request (λ _, true).

Definition listSessionsByUser (sessions : gmap string gateway_Session) (userID : string) (request : PageRequest) : SessionPage :=
  listSessionMatches sessions request (λ session, bool_decide (gs_UserID session = userID)).

(** ** The in-memory store *)

Record memorySessionStore := { ms_sessions : gmap string gateway_Session; ms_closed : bool }.

Definition NewMemorySessionStore : memorySessionStore := {| ms_sessions := ∅; ms_closed := false |}.

Definition ms_put (store : memorySessionStore) (session : gateway_Session) : memorySessionStore :=
  {| ms_sessions := <[gs_ID session := session]> (ms_sessions store); ms_closed := ms_closed store |}.

Definition session_not_found (id : string) : error := Wrapf "%w: %s" [AStr id] (Sentinel ErrSessionNotFound).

Definition sstore_Create (store : memorySessionStore) (ctx : context) (session : gateway_Session) (now : time)
    : result (gateway_Session * memorySessionStore) :=
  try? ctx_Err ctx;
  let? session := normalizeSession session in
  fail_if ms_closed store with Sentinel ErrStoreClosed;
  match ms_sessions store !! gs_ID session with
  | Some _ => Err (Wrapf "%w: %s" [AStr (gs_ID session)] (Sentinel ErrSessionExists))
  | None => let session := stamp_session session 1 now now in Ok (session, ms_put store session)
  end.

Definition sstore_Get (store : memorySessionStore) (ctx : context) (id : string) : result gateway_Session :=
  try? ctx_Err ctx;
  fail_if ms_closed store with Sentinel ErrStoreClosed;
  match ms_sessions store !! TrimSpace id with Some session => Ok session | None => Err (session_not_found id) end.

Definition sstore_List (store : memorySessionStore) (ctx : context) (request : PageRequest) : result SessionPage :=
  try? ctx_Err ctx;
  let? request := validatePage request in
  fail_if ms_closed store with Sentinel ErrStoreClosed;
  Ok (listSessions (ms_sessions store) request).

Definition sstore_ListByUser (store : memorySessionStore) (ctx : context) (userID : string) (request : PageRequest) : result SessionPage :=
  try? ctx_Err ctx;
  let? userID := normalizeUserID userID in
  let? request := validatePage request in
  fail_if ms_closed store with Sentinel ErrStoreClosed;
  Ok (listSessionsByUser (ms_sessions store) userID request).

Definition sstore_Save (store : memorySessionStore) (ctx : context) (session : gateway_Session) (expectedRevision : Z) (now : time)
    : result (gateway_Session * memorySessionStore) :=
  try? ctx_Err ctx;
  let? session := normalizeSession session in
  fail_if ms_closed store with Sentinel ErrStoreClosed;
  match ms_sessions store !! gs_ID session with
  | None => Err (session_not_found (gs_ID session))
  | Some current =>
      let? session := prepareSessionUpdate current session expectedRevision now in
      Ok (session, ms_put store session)
  end.

Definition sstore_Delete (store : memorySessionStore) (ctx : context) (id : string) (expectedRevision : Z) : result memorySessionStore :=
  try? ctx_Err ctx;
  let id := TrimSpace id in
  fail_if ms_closed store with Sentinel ErrStoreClosed;
  match ms_sessions store !! id with
  | None => Err (session_not_found id)
  | Some current =>
      fail_if negb (gs_Revision current =? expectedRevision) with
        Wrapf "%w: session %s has revision %d, expected %d" [AStr id; ANum (gs_Revision current); ANum expectedRevision]
          (Sentinel ErrSessionConflict);
      Ok {| ms_sessions := delete id (ms_sessions store); ms_closed := ms_closed store |}
  end.

Definition sstore_Close (store : memorySessionStore) : memorySessionStore := {| ms_sessions := ms_sessions store; ms_closed := true |}.
End normalize.

(** ** The gate

    A guard is the address of a [sessionGateLock]: whether its channel holds the token, and its references. *)

Record sessionGateLock := { gl_token : bool; gl_refs : Z }.

Record sessionGate := { sg_locks : gmap string nat; sg_guards : gmap nat sessionGateLock; sg_fresh : nat }.

Definition newSessionGate : sessionGate := {| sg_locks := ∅; sg_guards := ∅; sg_fresh := 0 |}.

Definition set_guard (gate : sessionGate) (guard : nat) (lock : sessionGateLock) : sessionGate :=
  {| sg_locks := sg_locks gate; sg_guards := <[guard := lock]> (sg_guards gate); sg_fresh := sg_fresh gate |}.

Definition guard_at (gate : sessionGate) (guard : nat) : sessionGateLock :=
  default {| gl_token := false; gl_refs := 0 |} (sg_guards gate !! guard).

Definition gate_retain (gate : sessionGate) (sessionID : string) : nat * sessionGate :=
  match sg_locks gate !! sessionID with
  | Some guard =>
      (guard, set_guard gate guard {| gl_token := gl_token (guard_at gate guard); gl_refs := gl_refs (guard_at gate guard) + 1 |})
  | None =>
      let guard := sg_fresh gate in
      (guard, {| sg_locks := <[sessionID := guard]> (sg_locks gate);
                 sg_guards := <[guard := {| gl_token := true; gl_refs := 1 |}]> (sg_guards gate); sg_fresh := S guard |})
  end.

Definition gate_release (gate : sessionGate) (sessionID : string) (guard : nat) : sessionGate :=
  if negb (bool_decide (sg_locks gate !! sessionID = Some guard)) then gate else
  let refs := gl_refs (guard_at gate guard) - 1 in
  let gate := set_guard gate guard {| gl_token := gl_token (guard_at gate guard); gl_refs := refs |} in
  if refs =? 0 then {| sg_locks := delete sessionID (sg_locks gate); sg_guards := sg_guards gate; sg_fresh := sg_fresh gate |}
  else gate.

(** Receiving from and sending to the channel of a guard, which holds one token: [None] blocks. *)
Definition gate_take (gate : sessionGate) (guard : nat) : option sessionGate :=
  if gl_token (guard_at gate guard)
  then Some (set_guard gate guard {| gl_token := false; gl_refs := gl_refs (guard_at gate guard) |}) else None.

Definition gate_give (gate : sessionGate) (guard : nat) : option sessionGate :=
  if gl_token (guard_at gate guard) then None
  else Some (set_guard gate guard {| gl_token := true; gl_refs := gl_refs (guard_at gate guard) |}).

(** The callers of [lock]: in the [select], in the critical section, on the way to [release], and gone. *)
Inductive gate_phase := GateWaiting | GateHolding | GateLeaving | GateGone.

#[export] Instance gate_phase_eq_dec : EqDecision gate_phase.
Proof. solve_decision. Defined.

Record gate_caller := { gc_session : string; gc_guard : nat; gc_phase : gate_phase }.

Definition gc_to (caller : gate_caller) (phase : gate_phase) : gate_caller :=
  {| gc_session := gc_session caller; gc_guard := gc_guard caller; gc_phase := phase |}.

(** The steps of any number of callers: calling, receiving the token, giving up with the context, sending the token
    back, and releasing the guard. *)
Inductive gate_step : sessionGate * list gate_caller → sessionGate * list gate_caller → Prop :=
  | gate_call gate callers sessionID guard gate' :
      gate_retain gate sessionID = (guard, gate') →
      gate_step (gate, callers) (gate', callers ++ [{| gc_session := sessionID; gc_guard := guard; gc_phase := GateWaiting |}])
  | gate_enter gate callers i caller gate' :
      callers !! i = Some caller → gc_phase caller = GateWaiting → gate_take gate (gc_guard caller) = Some gate' →
      gate_step (gate, callers) (gate', <[i := gc_to caller GateHolding]> callers)
  | gate_cancel gate callers i caller :
      callers !! i = Some caller → gc_phase caller = GateWaiting →
      gate_step (gate, callers) (gate, <[i := gc_to caller GateLeaving]> callers)
  | gate_unlock gate callers i caller gate' :
      callers !! i = Some caller → gc_phase caller = GateHolding → gate_give gate (gc_guard caller) = Some gate' →
      gate_step (gate, callers) (gate', <[i := gc_to caller GateLeaving]> callers)
  | gate_leave gate callers i caller :
      callers !! i = Some caller → gc_phase caller = GateLeaving →
      gate_step (gate, callers) (gate_release gate (gc_session caller) (gc_guard caller), <[i := gc_to caller GateGone]> callers).

Definition gate_reach (s : sessionGate * list gate_caller) : Prop := rtc gate_step (newSessionGate, []) s.
