(* ===== verification/GatewaySessionProperties.v ===== *)
(** The gate admits one caller per session and forgets the sessions nobody waits for; the normal form of a session;
    optimistic concurrency of the session store, and the completeness of its pages. *)

From S2P Require Import Prelude GoText Names Message ContextInjection Delivery Trajectory Agent Registrar Composition EventDispatch Payload PromptHost Paging Base64 Registry GatewayEvent GatewayInteraction GatewayPermission GatewaySession.
Import Utf8.

(** ** Counting the callers of a guard *)

Definition countb {A} (p : A → bool) (l : list A) : Z := Z.of_nat (length (filter (λ x, p x = true) l)).

Lemma countb_app {A} (p : A → bool) l l' : countb p (l ++ l') = countb p l + countb p l'.
Proof. unfold countb. rewrite filter_app, length_app. lia. Qed.

Lemma countb_single {A} (p : A → bool) x : countb p [x] = Z.b2z (p x).
Proof. unfold countb. rewrite filter_cons. by destruct (p x). Qed.

Lemma countb_insert {A} (p : A → bool) l i x y :
  l !! i = Some x → countb p (<[i := y]> l) = countb p l - Z.b2z (p x) + Z.b2z (p y).
Proof.
  intros Hi. rewrite <-(take_drop_middle _ _ _ Hi) at 2. rewrite insert_take_drop by (by eapply lookup_lt_Some).
  rewrite !(cons_middle _ (take i l)), !countb_app, !countb_single. lia.
Qed.

Lemma countb_nonneg {A} (p : A → bool) l : 0 ≤ countb p l.
Proof. unfold countb. lia. Qed.

Lemma countb_pos {A} (p : A → bool) l : 0 < countb p l → ∃ i x, l !! i = Some x ∧ p x = true.
Proof.
  unfold countb. intros H. destruct (filter (λ x, p x = true) l) as [|x rest] eqn:E; [cbn in H; lia|].
  assert (x ∈ filter (λ x, p x = true) l) as [Hp Hx]%list_elem_of_filter by (rewrite E; by left).
  apply list_elem_of_lookup in Hx as [i Hi]. eauto.
Qed.

Lemma countb_at {A} (p : A → bool) l i x : l !! i = Some x → p x = true → 0 < countb p l.
Proof.
  intros Hi Hp. unfold countb. assert (x ∈ filter (λ x, p x = true) l) as Hx.
  { apply list_elem_of_filter. split; [done|]. by eapply list_elem_of_lookup_2. }
  destruct (filter (λ x, p x = true) l); [by apply not_elem_of_nil in Hx|]. cbn. lia.
Qed.

Lemma countb_one {A} (p : A → bool) l i j x y :
  countb p l ≤ 1 → l !! i = Some x → l !! j = Some y → p x = true → p y = true → i = j.
Proof.
  intros Hc Hi Hj Hx Hy. destruct (decide (i = j)) as [|Hne]; [done|]. exfalso.
  unfold countb in Hc.
  rewrite <-(take_drop_middle _ _ _ Hi) in Hc. rewrite filter_app, filter_cons, decide_True, length_app in Hc by done. cbn in Hc.
  assert (y ∈ take i l ∨ y ∈ drop (S i) l) as Hin.
  { destruct (decide (j < i)%nat).
    - left. apply list_elem_of_lookup. exists j. by rewrite lookup_take_lt.
    - right. apply list_elem_of_lookup. exists (j - S i)%nat. rewrite lookup_drop. by replace (S i + (j - S i))%nat with j by lia. }
  assert (y ∈ filter (λ x, p x = true) (take i l) ∨ y ∈ filter (λ x, p x = true) (drop (S i) l)) as Hf
    by (by destruct Hin; [left|right]; apply list_elem_of_filter).
  destruct Hf as [Hf|Hf]; apply list_elem_of_lookup in Hf as [k Hk%lookup_lt_Some]; lia.
Qed.

Definition active (guard : nat) (caller : gate_caller) : bool :=
  (gc_guard caller =? guard)%nat && negb (bool_decide (gc_phase caller = GateGone)).
Definition holding (guard : nat) (caller : gate_caller) : bool :=
  (gc_guard caller =? guard)%nat && bool_decide (gc_phase caller = GateHolding).

(** ** The invariant of the gate *)

Record gate_ok (gate : sessionGate) (callers : list gate_caller) : Prop := {
  gk_active : ∀ i c, callers !! i = Some c → gc_phase c ≠ GateGone → sg_locks gate !! gc_session c = Some (gc_guard c);
  gk_bound : ∀ i c, callers !! i = Some c → (gc_guard c < sg_fresh gate)%nat;
  gk_fresh : ∀ id g, sg_locks gate !! id = Some g → (g < sg_fresh gate)%nat;
  gk_inj : ∀ id id' g, sg_locks gate !! id = Some g → sg_locks gate !! id' = Some g → id = id';
  gk_refs : ∀ id g, sg_locks gate !! id = Some g →
    gl_refs (guard_at gate g) = countb (active g) callers ∧ 0 < countb (active g) callers;
  gk_token : ∀ id g, sg_locks gate !! id = Some g →
    countb (holding g) callers = Z.b2z (negb (gl_token (guard_at gate g)));
}.

Lemma guard_at_set gate g lock g' : guard_at (set_guard gate g lock) g' = if decide (g = g') then lock else guard_at gate g'.
Proof.
  unfold guard_at, set_guard. cbn [sg_guards]. destruct (decide (g = g')) as [->|Hne]; [by rewrite lookup_insert_eq|by rewrite lookup_insert_ne].
Qed.

Lemma active_to g caller phase :
  active g (gc_to caller phase) = (gc_guard caller =? g)%nat && negb (bool_decide (phase = GateGone)).
Proof. done. Qed.
Lemma holding_to g caller phase : holding g (gc_to caller phase) = (gc_guard caller =? g)%nat && bool_decide (phase = GateHolding).
Proof. done. Qed.

Abbreviation waiting sessionID guard := {| gc_session := sessionID; gc_guard := guard; gc_phase := GateWaiting |}.
Lemma active_waiting sessionID guard g : active g (waiting sessionID guard) = (guard =? g)%nat.
Proof. unfold active. cbn [gc_phase gc_guard]. by rewrite bool_decide_eq_false_2, andb_true_r. Qed.
Lemma holding_waiting sessionID guard g : holding g (waiting sessionID guard) = false.
Proof. unfold holding. cbn [gc_phase gc_guard]. by rewrite bool_decide_eq_false_2, andb_false_r. Qed.

(** A caller that moves on, among the callers that have not gone, on a gate with the same locks. *)
Lemma gate_move_ok gate gate' callers i caller phase :
  gate_ok gate callers → callers !! i = Some caller → gc_phase caller ≠ GateGone → phase ≠ GateGone →
  sg_locks gate' = sg_locks gate → sg_fresh gate' = sg_fresh gate →
  (∀ g, gl_refs (guard_at gate' g) = gl_refs (guard_at gate g)) →
  (∀ g, Z.b2z (negb (gl_token (guard_at gate' g))) = Z.b2z (negb (gl_token (guard_at gate g))) -
          Z.b2z (holding g caller) + Z.b2z (holding g (gc_to caller phase))) →
  gate_ok gate' (<[i := gc_to caller phase]> callers).
Proof.
  intros [Ha Hb Hf Hj Hr Ht] Hi Hp Hph Hl Hfr Hrefs Htok.
  assert (∀ g, countb (active g) (<[i := gc_to caller phase]> callers) = countb (active g) callers) as Hact.
  { intros g. rewrite (countb_insert _ _ _ _ _ Hi), active_to. unfold active. rewrite !bool_decide_eq_false_2 by done. lia. }
  split; rewrite ?Hl, ?Hfr; try done.
  - intros j c Hj' Hc. apply list_lookup_insert_Some in Hj' as [(-> & <- & _)|[_ Hj']]; [by apply (Ha _ _ Hi)|by apply (Ha _ _ Hj')].
  - intros j c Hj'. apply list_lookup_insert_Some in Hj' as [(-> & <- & _)|[_ Hj']]; [by apply (Hb _ _ Hi)|by apply (Hb _ _ Hj')].
  - intros id g Hg. rewrite Hact, Hrefs. by apply (Hr id).
  - intros id g Hg. rewrite (countb_insert _ _ _ _ _ Hi), (Ht _ _ Hg), Htok. lia.
Qed.

Lemma gate_call_ok gate callers sessionID guard gate' :
  gate_ok gate callers → gate_retain gate sessionID = (guard, gate') →
  gate_ok gate' (callers ++ [{| gc_session := sessionID; gc_guard := guard; gc_phase := GateWaiting |}]).
Proof.
  intros [Ha Hb Hf Hj Hr Ht] Hret. unfold gate_retain in Hret.
  destruct (sg_locks gate !! sessionID) as [g|] eqn:Hl; injection Hret as <- <-.
  - split; cbn [set_guard sg_locks sg_fresh]; try done.
    + intros i c [Hi|[? [? <-]%list_lookup_singleton_Some]]%lookup_app_Some; [by apply (Ha i)|done].
    + intros i c [Hi|[? [? <-]%list_lookup_singleton_Some]]%lookup_app_Some; [by apply (Hb i)|by apply (Hf sessionID)].
    + intros id g' Hg'. rewrite guard_at_set, countb_app, countb_single, active_waiting.
      destruct (Hr _ _ Hg') as [Hr1 Hr2]. destruct (decide (g = g')) as [<-|Hne]; cbn; [rewrite Nat.eqb_refl; cbn; lia|].
      rewrite (proj2 (Nat.eqb_neq _ _) Hne). cbn. lia.
    + intros id g' Hg'. rewrite guard_at_set, countb_app, countb_single, holding_waiting. cbn.
      rewrite (Ht _ _ Hg'). destruct (decide (g = g')) as [<-|Hne]; cbn; lia.
  - assert (∀ p, countb (λ c, (gc_guard c =? sg_fresh gate)%nat && p c) callers = 0) as Hzero.
    { intros p. pose proof (countb_nonneg (λ c, (gc_guard c =? sg_fresh gate)%nat && p c) callers).
      destruct (decide (0 < countb (λ c, (gc_guard c =? sg_fresh gate)%nat && p c) callers)) as [Hpos|]; [|lia].
      apply countb_pos in Hpos as (i & c & Hi & [He _]%andb_prop). apply Nat.eqb_eq in He. pose proof (Hb _ _ Hi). lia. }
    split; cbn [sg_locks sg_fresh].
    + intros i c [Hi|[? [? <-]%list_lookup_singleton_Some]]%lookup_app_Some Hc; [|by rewrite lookup_insert_eq].
      rewrite lookup_insert_ne; [by apply (Ha i)|]. intros Heq. rewrite Heq, (Ha _ _ Hi Hc) in Hl. done.
    + intros i c [Hi|[? [? <-]%list_lookup_singleton_Some]]%lookup_app_Some; [pose proof (Hb _ _ Hi); lia|cbn; lia].
    + intros id g [[<- <-]|[_ Hg]]%lookup_insert_Some; [lia|]. pose proof (Hf _ _ Hg). lia.
    + intros id id' g [[<- <-]|[_ Hg]]%lookup_insert_Some [[<- Hg']|[_ Hg']]%lookup_insert_Some; try done.
      * pose proof (Hf _ _ Hg'). lia.
      * subst. pose proof (Hf _ _ Hg). lia.
      * by apply (Hj _ _ g).
    + intros id g Hg. rewrite countb_app, countb_single, active_waiting. apply lookup_insert_Some in Hg as [[<- <-]|[Hne Hg]].
      * unfold guard_at. cbn. rewrite lookup_insert_eq, Nat.eqb_refl. cbn. pose proof (Hzero (λ c, negb (bool_decide (gc_phase c = GateGone)))) as Hz. unfold active. lia.
      * pose proof (Hf _ _ Hg). unfold guard_at. cbn. rewrite lookup_insert_ne by lia. destruct (Hr _ _ Hg) as [Hr1 Hr2].
        rewrite (proj2 (Nat.eqb_neq _ _)) by lia. cbn. unfold guard_at in Hr1. lia.
    + intros id g Hg. rewrite countb_app, countb_single, holding_waiting. cbn [Z.b2z]. apply lookup_insert_Some in Hg as [[<- <-]|[Hne Hg]].
      * unfold guard_at. cbn. rewrite lookup_insert_eq. pose proof (Hzero (λ c, bool_decide (gc_phase c = GateHolding))) as Hz. unfold holding. cbn in *. lia.
      * pose proof (Hf _ _ Hg). unfold guard_at. cbn. rewrite lookup_insert_ne by lia. pose proof (Ht _ _ Hg) as H1. unfold guard_at in H1. lia.
Qed.

Lemma gate_leave_ok gate callers i caller :
  gate_ok gate callers → callers !! i = Some caller → gc_phase caller = GateLeaving →
  gate_ok (gate_release gate (gc_session caller) (gc_guard caller)) (<[i := gc_to caller GateGone]> callers).
Proof.
  intros [Ha Hb Hf Hj Hr Ht] Hi Hp.
  assert (sg_locks gate !! gc_session caller = Some (gc_guard caller)) as Hl by (apply (Ha i); [done|by rewrite Hp]).
  assert (∀ g, countb (active g) (<[i := gc_to caller GateGone]> callers) =
               countb (active g) callers - Z.b2z (gc_guard caller =? g)%nat) as Hact.
  { intros g. rewrite (countb_insert _ _ _ _ _ Hi), active_to. unfold active. rewrite Hp, bool_decide_eq_false_2, bool_decide_eq_true_2 by done.
    cbn. rewrite andb_true_r, andb_false_r. cbn. lia. }
  assert (∀ g, countb (holding g) (<[i := gc_to caller GateGone]> callers) = countb (holding g) callers) as Hhold.
  { intros g. rewrite (countb_insert _ _ _ _ _ Hi), holding_to. unfold holding. rewrite Hp, !bool_decide_eq_false_2 by done. lia. }
  assert (∀ j c, <[i := gc_to caller GateGone]> callers !! j = Some c → (gc_phase c ≠ GateGone → callers !! j = Some c) ∧
            (gc_guard c < sg_fresh gate)%nat) as Hin.
  { intros j c [(-> & <- & _)|[_ Hc]]%list_lookup_insert_Some; [split; [done|by apply (Hb _ _ Hi)]|split; [done|by apply (Hb _ _ Hc)]]. }
  destruct (Hr _ _ Hl) as [Hrefs Hpos]. unfold gate_release. rewrite bool_decide_eq_true_2 by done. cbn [negb].
  destruct (gl_refs (guard_at gate (gc_guard caller)) - 1 =? 0) eqn:He.
  - apply Z.eqb_eq in He. split; cbn [sg_locks sg_fresh set_guard].
    + intros j c Hc Hg. pose proof (proj1 (Hin _ _ Hc) Hg) as Hc'. rewrite lookup_delete_ne; [by apply (Ha j)|]. intros Heq.
      pose proof (Ha _ _ Hc' Hg) as Hl'. rewrite <-Heq, Hl in Hl'. injection Hl' as Hgg.
      assert (active (gc_guard caller) c = true) as Hac by (unfold active; by rewrite Hgg, Nat.eqb_refl, bool_decide_eq_false_2).
      pose proof (countb_at _ _ _ _ Hc Hac) as Hp'. rewrite Hact, Nat.eqb_refl in Hp'. cbn in Hp'. lia.
    + intros j c Hc. apply (Hin _ _ Hc).
    + intros id g [_ Hg]%lookup_delete_Some. by apply (Hf id).
    + intros id id' g [_ Hg]%lookup_delete_Some [_ Hg']%lookup_delete_Some. by apply (Hj _ _ g).
    + intros id g [Hne Hg]%lookup_delete_Some. assert (gc_guard caller ≠ g) as Hgg by (intros <-; by apply Hne, (Hj _ _ (gc_guard caller))).
      destruct (Hr _ _ Hg) as [Hr1 Hr2]. rewrite Hact, (proj2 (Nat.eqb_neq _ _) Hgg). cbn [Z.b2z].
      change (guard_at _ g) with (guard_at (set_guard gate (gc_guard caller)
        {| gl_token := gl_token (guard_at gate (gc_guard caller)); gl_refs := gl_refs (guard_at gate (gc_guard caller)) - 1 |}) g).
      rewrite guard_at_set, decide_False by done. lia.
    + intros id g [Hne Hg]%lookup_delete_Some. assert (gc_guard caller ≠ g) as Hgg by (intros <-; by apply Hne, (Hj _ _ (gc_guard caller))).
      rewrite Hhold, (Ht _ _ Hg).
      change (guard_at _ g) with (guard_at (set_guard gate (gc_guard caller)
        {| gl_token := gl_token (guard_at gate (gc_guard caller)); gl_refs := gl_refs (guard_at gate (gc_guard caller)) - 1 |}) g) at 2.
      by rewrite guard_at_set, decide_False.
  - apply Z.eqb_neq in He. split; cbn [sg_locks sg_fresh set_guard]; try done.
    + intros j c Hc Hg. apply (Ha j); [by apply Hin|done].
    + intros j c Hc. apply (Hin _ _ Hc).
    + intros id g Hg. destruct (Hr _ _ Hg) as [Hr1 Hr2]. rewrite Hact, guard_at_set. destruct (decide (gc_guard caller = g)) as [<-|Hne].
      * rewrite Nat.eqb_refl. cbn. lia.
      * rewrite (proj2 (Nat.eqb_neq _ _) Hne). cbn. lia.
    + intros id g Hg. rewrite Hhold, guard_at_set, (Ht _ _ Hg). by destruct (decide (gc_guard caller = g)) as [<-|].
Qed.

Lemma gate_step_ok s s' : gate_step s s' → gate_ok s.1 s.2 → gate_ok s'.1 s'.2.
Proof.
  intros Hs Hok. destruct Hs as [gate callers id g gate' Hr|gate callers i c gate' Hi Hp Ht|gate callers i c Hi Hp|gate callers i c gate' Hi Hp Ht|gate callers i c Hi Hp];
    cbn [fst snd] in *.
  - by eapply gate_call_ok.
  - unfold gate_take in Ht. destruct (gl_token _) eqn:E; [|done]. injection Ht as <-.
    eapply (gate_move_ok gate); try done; [by rewrite Hp|..]; intros g; rewrite guard_at_set; [by destruct (decide (gc_guard c = g)) as [<-|]|].
    rewrite holding_to. unfold holding. rewrite Hp, (bool_decide_eq_false_2 (GateWaiting = GateHolding)), (bool_decide_eq_true_2 (GateHolding = GateHolding)) by done.
    destruct (decide (gc_guard c = g)) as [<-|Hne]; [by rewrite E, Nat.eqb_refl|rewrite (proj2 (Nat.eqb_neq _ _) Hne); cbn; lia].
  - eapply (gate_move_ok gate); try done; [by rewrite Hp|]. intros g. rewrite holding_to. unfold holding. rewrite Hp, !bool_decide_eq_false_2 by done. lia.
  - unfold gate_give in Ht. destruct (gl_token _) eqn:E; [done|]. injection Ht as <-.
    eapply (gate_move_ok gate); try done; [by rewrite Hp|..]; intros g; rewrite guard_at_set; [by destruct (decide (gc_guard c = g)) as [<-|]|].
    rewrite holding_to. unfold holding. rewrite Hp, (bool_decide_eq_true_2 (GateHolding = GateHolding)), (bool_decide_eq_false_2 (GateLeaving = GateHolding)) by done.
    destruct (decide (gc_guard c = g)) as [<-|Hne]; [by rewrite E, Nat.eqb_refl|rewrite (proj2 (Nat.eqb_neq _ _) Hne); cbn; lia].
  - by apply gate_leave_ok.
Qed.

Lemma gate_reach_ok s : gate_reach s → gate_ok s.1 s.2.
Proof.
  intros Hr. assert (gate_ok newSessionGate []) as H0 by (split; cbn; intros; simplify_map_eq).
  unfold gate_reach in Hr. remember (newSessionGate, @nil gate_caller) as s0 eqn:E0. assert (gate_ok s0.1 s0.2) as H by (by subst). clear E0 H0.
  induction Hr as [s|s s' s'' Hs _ IH]; [done|]. apply IH. by eapply gate_step_ok.
Qed.

(** C39. The gate: at most one caller is in the critical section of a session; it can always leave; a caller that waits
    can enter unless another one is inside; and when every caller has gone, the gate holds no lock. *)
Theorem session_gate_exclusive gate callers :
  gate_reach (gate, callers) →
  (∀ i j a b, callers !! i = Some a → callers !! j = Some b → gc_session a = gc_session b →
     gc_phase a = GateHolding → gc_phase b = GateHolding → i = j) ∧
  (∀ i a, callers !! i = Some a → gc_phase a = GateHolding → is_Some (gate_give gate (gc_guard a))) ∧
  (∀ i a, callers !! i = Some a → gc_phase a = GateWaiting →
     is_Some (gate_take gate (gc_guard a)) ∨
     ∃ j b, callers !! j = Some b ∧ gc_session b = gc_session a ∧ gc_phase b = GateHolding) ∧
  (Forall (λ a, gc_phase a = GateGone) callers → sg_locks gate = ∅).
Proof.
  intros [Ha Hb Hf Hj Hr Ht]%gate_reach_ok. cbn [fst snd] in *.
  assert (∀ i a, callers !! i = Some a → gc_phase a = GateHolding → holding (gc_guard a) a = true) as Hh.
  { intros i a _ Hp. unfold holding. by rewrite Nat.eqb_refl, bool_decide_eq_true_2. }
  split_and!.
  - intros i j a b Hi Hj' Hs Hpa Hpb. pose proof (Ha _ _ Hi ltac:(by rewrite Hpa)) as Hla. pose proof (Ha _ _ Hj' ltac:(by rewrite Hpb)) as Hlb.
    rewrite Hs, Hlb in Hla. injection Hla as Hg. apply (countb_one (holding (gc_guard a)) callers i j a b); [|done|done|by eapply Hh|rewrite <-Hg; by eapply Hh].
    rewrite Hg in Hlb. rewrite (Ht _ _ Hlb). destruct (gl_token _); cbn; lia.
  - intros i a Hi Hp. pose proof (Ha _ _ Hi ltac:(by rewrite Hp)) as Hl. pose proof (countb_at _ _ _ _ Hi (Hh _ _ Hi Hp)) as Hpos.
    rewrite (Ht _ _ Hl) in Hpos. unfold gate_give. destruct (gl_token _); [cbn in Hpos; lia|by eexists].
  - intros i a Hi Hp. pose proof (Ha _ _ Hi ltac:(by rewrite Hp)) as Hl. unfold gate_take. destruct (gl_token _) eqn:E; [by left; eexists|right].
    assert (0 < countb (holding (gc_guard a)) callers) as Hpos by (rewrite (Ht _ _ Hl), E; cbn; lia).
    apply countb_pos in Hpos as (j & b & Hjb & [Hg%Nat.eqb_eq Hpb%bool_decide_eq_true]%andb_prop). exists j, b. split_and!; [done| |done].
    pose proof (Ha _ _ Hjb ltac:(by rewrite Hpb)) as Hlb. rewrite Hg in Hlb. by apply (Hj _ _ (gc_guard a)).
  - intros Hall. apply map_eq. intros id. rewrite lookup_empty. destruct (sg_locks gate !! id) as [g|] eqn:Hl; [|done]. exfalso.
    destruct (Hr _ _ Hl) as [_ (i & c & Hi & [_ Hc]%andb_prop)%countb_pos]. rewrite Forall_lookup in Hall. by rewrite (Hall _ _ Hi) in Hc.
Qed.

(** A session that one caller holds and another waits for. *)
Definition ex_gate1 := (gate_retain newSessionGate "s").2.
Definition ex_gate2 := default ex_gate1 (gate_take ex_gate1 0).
Definition ex_gate3 := (gate_retain ex_gate2 "s").2.
Definition ex_caller (phase : gate_phase) : gate_caller := {| gc_session := "s"; gc_guard := 0; gc_phase := phase |}.

Lemma ex_gate_reach : gate_reach (ex_gate3, [ex_caller GateHolding; ex_caller GateWaiting]).
Proof.
  eapply rtc_l; [apply (gate_call newSessionGate [] "s" 0%nat ex_gate1); by vm_compute|].
  eapply rtc_l; [apply (gate_enter ex_gate1 [ex_caller GateWaiting] 0 (ex_caller GateWaiting) ex_gate2); by vm_compute|].
  apply rtc_once, (gate_call ex_gate2 [ex_caller GateHolding] "s" 0%nat ex_gate3). by vm_compute.
Qed.

Lemma session_gate_exclusive_witness : is_Some (gate_give ex_gate3 0).
Proof. exact (proj1 (proj2 (session_gate_exclusive _ _ ex_gate_reach)) 0%nat (ex_caller GateHolding) eq_refl eq_refl). Defined.

(** ** Normal forms *)

Definition set_error (kind : string) (maxRunes : Z) : error := Errorf "%s exceeds %d characters" [AStr kind; ANum maxRunes].

Definition set_value (maxRunes : Z) (value : string) : Prop := TrimSpace value = value ∧ value ≠ "" ∧ rune_count value ≤ maxRunes.

Lemma string_set_loop_spec kind maxRunes seen values :
  match string_set_loop kind maxRunes seen values with
  | Ok l => Forall (set_value maxRunes) l ∧ NoDup l ∧ (∀ x, x ∈ l → x ∉ seen) ∧
      (∀ x, x ∈ values → TrimSpace x ≠ "" → rune_count (TrimSpace x) ≤ maxRunes)
  | Err err => err = set_error kind maxRunes
  end.
Proof.
  revert seen. induction values as [|value values IH]; intros seen; cbn [string_set_loop].
  - split_and!; [constructor|constructor|by intros x ?%elem_of_nil|by intros x ?%elem_of_nil].
  - destruct (is_empty (TrimSpace value)) eqn:He; [|destruct (maxRunes <? rune_count (TrimSpace value)) eqn:Hm; [done|destruct (bool_decide _) eqn:Hs]].
    + apply is_empty_true in He. specialize (IH seen). destruct (string_set_loop _ _ seen values); [|done].
      destruct IH as (? & ? & ? & Hin). split_and!; try done. intros x [->|Hx]%elem_of_cons; [done|by apply Hin].
    + apply Z.ltb_ge in Hm. specialize (IH seen). destruct (string_set_loop _ _ seen values); [|done].
      destruct IH as (? & ? & ? & Hin). split_and!; try done. intros x [->|Hx]%elem_of_cons; [done|by apply Hin].
    + apply Z.ltb_ge in Hm. apply bool_decide_eq_false in Hs. apply is_empty_false in He. specialize (IH ({[TrimSpace value]} ∪ seen)).
      destruct (string_set_loop _ _ _ values); cbn [result_bind]; [|done]. destruct IH as (Hf & Hn & Hd & Hin).
      split_and!.
      * constructor; [|done]. split_and!; [apply TrimSpace_idem|done|done].
      * constructor; [|done]. intros Hx%Hd. set_solver.
      * intros x [->|Hx]%elem_of_cons; [done|]. apply Hd in Hx. set_solver.
      * intros x [->|Hx]%elem_of_cons; [done|by apply Hin].
Qed.

Lemma string_set_loop_fix kind maxRunes seen l :
  Forall (set_value maxRunes) l → NoDup l → (∀ x, x ∈ l → x ∉ seen) → string_set_loop kind maxRunes seen l = Ok l.
Proof.
  revert seen. induction l as [|x l IH]; intros seen Hf Hn Hd; [done|]. cbn [string_set_loop].
  apply Forall_cons in Hf as [(Ht & He & Hm) Hf]. apply NoDup_cons in Hn as [Hx Hn]. rewrite Ht.
  rewrite (proj2 (is_empty_false _) He), (proj2 (Z.ltb_ge _ _) Hm), bool_decide_eq_false_2 by (apply Hd; by left).
  rewrite IH; [done|done|done|]. intros y Hy. assert (y ≠ x) by (intros ->; done). assert (y ∉ seen) by (apply Hd; by right). set_solver.
Qed.

(** A list in the form that [normalizeStringSet] returns. *)
Definition set_normal (maxRunes : Z) (l : list string) : Prop :=
  Forall (set_value maxRunes) l ∧ NoDup l ∧ StronglySorted (cmp_le strings_Compare) l.

Lemma sort_strings_fix l : StronglySorted (cmp_le strings_Compare) l → SortFunc strings_Compare l = l.
Proof. intros Hs. symmetry. apply SortFunc_unique; [apply strings_Compare_ok|by intros x y _ _ ?%strings_Compare_eq|done|done]. Qed.

Lemma normalizeStringSet_normal kind values maxRunes l : normalizeStringSet kind values maxRunes = Ok l → set_normal maxRunes l.
Proof.
  unfold normalizeStringSet. intros (l0 & Hl & [= <-])%bind_Ok. pose proof (string_set_loop_spec kind maxRunes ∅ values) as Hs.
  rewrite Hl in Hs. destruct Hs as (Hf & Hn & _). split_and!.
  - by rewrite SortFunc_perm.
  - by rewrite SortFunc_perm.
  - apply SortFunc_sorted, strings_Compare_ok.
Qed.

Lemma normalizeStringSet_fix kind l maxRunes : set_normal maxRunes l → normalizeStringSet kind l maxRunes = Ok l.
Proof.
  intros (Hf & Hn & Hs). unfold normalizeStringSet. rewrite string_set_loop_fix by (done || set_solver). cbn. by rewrite sort_strings_fix.
Qed.

Lemma normalizeStringSet_long kind l maxRunes x :
  x ∈ l → TrimSpace x = x → x ≠ "" → maxRunes < rune_count x → normalizeStringSet kind l maxRunes = Err (set_error kind maxRunes).
Proof.
  intros Hx Ht He Hm. unfold normalizeStringSet. pose proof (string_set_loop_spec kind maxRunes ∅ l) as Hs.
  destruct (string_set_loop _ _ _ l) as [l0|err]; cbn; [|by subst]. destruct Hs as (_ & _ & _ & Hin). specialize (Hin _ Hx).
  rewrite Ht in Hin. specialize (Hin He). lia.
Qed.

Lemma normalizePermissionRules_fix rules rules' : normalizePermissionRules rules = Ok rules' → normalizePermissionRules rules' = Ok rules'.
Proof.
  unfold normalizePermissionRules. intros (a & Ha & (b & Hb & (c & Hc & [= <-])%bind_Ok)%bind_Ok)%bind_Ok. cbn [pm_Allow pm_Ask pm_Deny].
  apply normalizeStringSet_normal in Ha, Hb, Hc. by rewrite !normalizeStringSet_fix.
Qed.

Lemma normalizeUserID_fix value userID : normalizeUserID value = Ok userID → normalizeUserID userID = Ok userID.
Proof. unfold normalizeUserID. intros (u & Hv & [= <-])%bind_Ok. by rewrite TrimSpace_idem, Hv. Qed.

(** *** Paths *)

Definition plain_part (part : string) : Prop :=
  string_forallb (λ c, negb (Ascii.eqb c "/")) part = true ∧ part ≠ "" ∧ part ≠ "." ∧ part ≠ "..".

Lemma split_slash_parts path : Forall (λ part, string_forallb (λ c, negb (Ascii.eqb c "/")) part = true) (split_slash path).
Proof.
  induction path as [|c path IH]; cbn; [by repeat constructor|]. destruct (Ascii.eqb c "/") eqn:E; [by constructor|].
  destruct (split_slash path) as [|part parts]; [by repeat constructor; cbn; rewrite E|].
  apply Forall_cons in IH as [Hp Hps]. constructor; [|done]. cbn. by rewrite E.
Qed.

Lemma clean_parts_plain path : Forall plain_part (clean_parts path).
Proof.
  unfold clean_parts. apply Forall_reverse. assert (Forall plain_part []) as H0 by constructor. revert H0.
  generalize (@nil string) as stack. generalize (split_slash_parts path). generalize (split_slash path) as parts.
  induction parts as [|part parts IH]; intros Hp stack Hs; [done|]. apply Forall_cons in Hp as [Hpart Hp]. cbn [foldl]. apply IH; [done|].
  unfold clean_part. destruct (is_empty part) eqn:He; [done|]. destruct (String.eqb part ".") eqn:Hd; [done|]. cbn.
  destruct (String.eqb part "..") eqn:Hdd; [by destruct Hs|]. apply is_empty_false in He. apply String.eqb_neq in Hd, Hdd. by constructor.
Qed.

Lemma split_slash_app part path :
  string_forallb (λ c, negb (Ascii.eqb c "/")) part = true → split_slash (part +:+ "/" +:+ path) = part :: split_slash path.
Proof.
  induction part as [|c part IH]; [done|]. intros [Hc Hp]%andb_prop. apply negb_true_iff in Hc.
  change (split_slash (String c part +:+ "/" +:+ path)) with (if Ascii.eqb c "/" then "" :: split_slash (part +:+ "/" +:+ path) else
    match split_slash (part +:+ "/" +:+ path) with p :: ps => String c p :: ps | [] => [String c ""] end).
  by rewrite Hc, IH.
Qed.

Lemma split_slash_plain part : string_forallb (λ c, negb (Ascii.eqb c "/")) part = true → split_slash part = [part].
Proof. induction part as [|c part IH]; [done|]. cbn. intros [Hc Hp]%andb_prop. apply negb_true_iff in Hc. rewrite Hc. by rewrite IH. Qed.

Lemma append_empty (s : string) : s +:+ "" = s.
Proof. induction s as [|c s IH]; [done|]. change (String c (s +:+ "") = String c s). by rewrite IH. Qed.

Lemma split_rooted part parts : Forall plain_part (part :: parts) → split_slash (part +:+ rooted parts) = part :: parts.
Proof.
  revert part. induction parts as [|part' parts IH]; intros part; cbn [rooted].
  - intros [[Hp _] _]%Forall_cons. rewrite append_empty. by apply split_slash_plain.
  - intros [[Hp _] Hps]%Forall_cons. rewrite split_slash_app by done. by rewrite IH.
Qed.

Lemma foldl_clean_plain stack parts : Forall plain_part parts → foldl clean_part stack parts = reverse parts ++ stack.
Proof.
  revert stack. induction parts as [|part parts IH]; intros stack; [done|]. intros [(_ & He & Hd & Hdd) Hps]%Forall_cons. cbn [foldl].
  rewrite IH by done. unfold clean_part. apply is_empty_false in He. apply String.eqb_neq in Hd, Hdd. rewrite He, Hd, Hdd. cbn [orb].
  by rewrite reverse_cons, <-app_assoc.
Qed.

Lemma Clean_idem path : Clean (Clean path) = Clean path.
Proof.
  unfold Clean at 2 3. pose proof (clean_parts_plain path) as Hp. destruct (clean_parts path) as [|part parts]; [done|].
  cbn [rooted]. change (string_default ("/" +:+ part +:+ rooted parts) "/") with ("/" +:+ part +:+ rooted parts).
  unfold Clean, clean_parts. change (split_slash ("/" +:+ part +:+ rooted parts)) with ("" :: split_slash (part +:+ rooted parts)).
  rewrite split_rooted by done. change (foldl clean_part [] ("" :: part :: parts)) with (foldl clean_part [] (part :: parts)). rewrite foldl_clean_plain by done.
  rewrite app_nil_r, reverse_involutive. done.
Qed.

Lemma IsAbs_Clean path : IsAbs (Clean path) = true.
Proof. unfold Clean. by destruct (clean_parts path). Qed.

Lemma normalize_root_fix root root' : normalize_root root = Ok root' → normalize_root root' = Ok root'.
Proof.
  unfold normalize_root. destruct (is_empty root) eqn:He; [by intros [= <-]; rewrite He|]. destruct (IsAbs root); [|done]. cbn. intros [= <-].
  destruct (is_empty (Clean root)) eqn:Hc; [apply is_empty_true in Hc; pose proof (IsAbs_Clean root) as Ha; by rewrite Hc in Ha|].
  by rewrite IsAbs_Clean, Clean_idem.
Qed.

(** *** Bindings and sessions *)

Section normal.
Context (url_Parse : string → result URL) (ToLower : rune → rune).

Lemma normalizeBinding_spec binding binding' :
  normalizeBinding url_Parse binding = Ok binding' → normalizeBinding url_Parse binding' = Ok binding'.
Proof.
  unfold normalizeBinding. intros H. destruct binding as [ns name inst uri manifest labels epoch].
  cbn [pb_Namespace pb_Name pb_InstanceID pb_URI pb_Manifest pb_Labels pb_Epoch] in *.
  apply bind_Ok in H as (u1 & H1 & (u2 & H2 & (u3 & H3 & H)%bind_Ok)%bind_Ok).
  destruct (epoch =? 0) eqn:He; [done|]. destruct (url_Parse _) as [parsed|] eqn:Hu; [|done]. destruct (_ || _) eqn:Hp; [done|].
  destruct (Manifest_Validate manifest) eqn:Hm; [|done]. destruct (bool_decide _) eqn:Hn; [done|]. injection H as <-.
  cbn [pb_Namespace pb_Name pb_InstanceID pb_URI pb_Manifest pb_Labels pb_Epoch]. rewrite !TrimSpace_idem, H1, H2, H3. cbn [result_bind].
  by rewrite He, Hu, Hp, Hm, Hn.
Qed.

Lemma bindings_loop_spec seen bindings l :
  bindings_loop url_Parse seen bindings = Ok l →
  Forall (λ b, normalizeBinding url_Parse b = Ok b) l ∧ NoDup (pb_Name <$> l) ∧ (∀ b, b ∈ l → pb_Name b ∉ seen).
Proof.
  revert seen l. induction bindings as [|b bindings IH]; intros seen l; cbn [bindings_loop].
  - intros [= <-]. split_and!; [constructor|constructor|by intros b ?%elem_of_nil].
  - intros (n & Hn & H)%bind_Ok. destruct (bool_decide _) eqn:Hs; [done|]. apply bind_Ok in H as (rest & Hr & [= <-]).
    apply bool_decide_eq_false in Hs. apply IH in Hr as (Hf & Hnd & Hd). split_and!.
    + constructor; [by eapply normalizeBinding_spec|done].
    + cbn. constructor; [|done]. intros (x & Hx & Hin)%list_elem_of_fmap. apply Hd in Hin. rewrite <-Hx in Hin. set_solver.
    + intros x [->|Hx]%elem_of_cons; [done|]. apply Hd in Hx. set_solver.
Qed.

Lemma bindings_loop_fix seen l :
  Forall (λ b, normalizeBinding url_Parse b = Ok b) l → NoDup (pb_Name <$> l) → (∀ b, b ∈ l → pb_Name b ∉ seen) →
  bindings_loop url_Parse seen l = Ok l.
Proof.
  revert seen. induction l as [|b l IH]; intros seen Hf Hn Hd; [done|]. cbn [bindings_loop]. apply Forall_cons in Hf as [Hb Hf].
  cbn in Hn. apply NoDup_cons in Hn as [Hx Hn]. rewrite Hb. cbn [result_bind]. rewrite bool_decide_eq_false_2 by (apply Hd; by left).
  rewrite IH; [done|done|done|]. intros y Hy. assert (pb_Name y ≠ pb_Name b) by (intros E; apply Hx; rewrite <-E; by apply list_elem_of_fmap_2).
  assert (pb_Name y ∉ seen) by (apply Hd; by right). set_solver.
Qed.

Lemma compare_bindings_ok : cmp_ok compare_bindings.
Proof. apply (cmp_ok_on pb_Name), strings_Compare_ok. Qed.

Lemma bindings_normal seen bindings l :
  bindings_loop url_Parse seen bindings = Ok l →
  bindings_loop url_Parse ∅ (SortFunc compare_bindings l) = Ok (SortFunc compare_bindings l) ∧
  SortFunc compare_bindings (SortFunc compare_bindings l) = SortFunc compare_bindings l.
Proof.
  intros (Hf & Hn & _)%bindings_loop_spec. split.
  - apply bindings_loop_fix; [by rewrite SortFunc_perm|by rewrite SortFunc_perm|set_solver].
  - symmetry. apply SortFunc_unique; [apply compare_bindings_ok| |done|apply SortFunc_sorted, compare_bindings_ok].
    intros x y Hx Hy Hc%strings_Compare_eq. rewrite elem_of_SortFunc in Hx, Hy.
    apply list_elem_of_lookup in Hx as [i Hi], Hy as [j Hj].
    assert (i = j) as -> by (eapply (NoDup_lookup _ _ _ _ Hn); rewrite list_lookup_fmap; [by rewrite Hi|by rewrite Hj, Hc]).
    congruence.
Qed.

Lemma thinking_fix thinking : thinking ∈ thinking_levels → strings_ToLower ToLower (TrimSpace thinking) = thinking.
Proof. unfold thinking_levels. rewrite !elem_of_cons, elem_of_nil. intros H. by repeat destruct H as [->|H]; [vm_compute..|]. Qed.

Lemma add_model_spec model models :
  set_normal 128 models → TrimSpace model = model →
  add_model model (add_model model models) = add_model model models ∧
  (rune_count model ≤ 128 → set_normal 128 (add_model model models)) ∧ (model ≠ "" → model ∈ add_model model models).
Proof.
  intros (Hf & Hn & Hs) Ht. unfold add_model at 2 3 4 5. destruct (is_empty model || bool_decide (model ∈ models)) eqn:E.
  - split_and!; [unfold add_model; by rewrite E|done|]. intros He%is_empty_false. rewrite He in E. by apply bool_decide_eq_true in E.
  - apply orb_false_elim in E as [He Hm%bool_decide_eq_false]. apply is_empty_false in He.
    assert (model ∈ SortFunc strings_Compare (models ++ [model])) as Hin by (rewrite elem_of_SortFunc, elem_of_app; right; by left).
    split_and!; [unfold add_model; by rewrite (bool_decide_eq_true_2 _ Hin), orb_true_r| |done].
    intros Hl. split_and!.
    + rewrite SortFunc_perm. apply Forall_app. split; [done|]. by repeat constructor.
    + rewrite SortFunc_perm. apply NoDup_app. split_and!; [done|by intros x Hx ->%list_elem_of_singleton|apply NoDup_singleton].
    + apply SortFunc_sorted, strings_Compare_ok.
Qed.

Abbreviation normalize := (normalizeSession url_Parse ToLower).

Lemma name_check kind name u : ValidateResourceName kind (TrimSpace name) = Ok u → ValidateResourceName kind (TrimSpace (TrimSpace name)) = Ok u.
Proof. by rewrite TrimSpace_idem. Qed.

Lemma normalizeSession_again session session' :
  normalize session = Ok session' → TrimSpace (gs_WorkspaceRoot session') = gs_WorkspaceRoot session' →
  normalize session' = if 128 <? rune_count (gs_Model session') then Err (set_error "gateway session model" 128) else Ok session'.
Proof.
  unfold normalizeSession at 1. cbv zeta. intros (u1 & H1 & (userID & H2 & (u3 & H3 & H)%bind_Ok)%bind_Ok)%bind_Ok Hroot.
  destruct (256 <? _) eqn:Htitle; [done|].
  apply bind_Ok in H as (models & Hmodels & (tools & Htools & H)%bind_Ok). destruct (negb _) eqn:Hthink; [done|].
  apply bind_Ok in H as (permissions & Hperm & H). destruct (_ <? 0) eqn:Hturns; [done|].
  apply bind_Ok in H as (root & Hr & (u4 & H4 & (plugins & Hp & [= <-])%bind_Ok)%bind_Ok). cbn [gs_WorkspaceRoot gs_Model] in *.
  apply negb_false_iff, bool_decide_eq_true in Hthink.
  apply normalizeStringSet_normal in Hmodels, Htools. apply bindings_normal in Hp as [Hp1 Hp2].
  destruct (add_model_spec (TrimSpace (gs_Model session)) models Hmodels (TrimSpace_idem _)) as (Hm1 & Hm2 & Hm3).
  unfold normalizeSession. cbv zeta.
  cbn [gs_ID gs_UserID gs_Title gs_Provider gs_Model gs_Models gs_Tools gs_System gs_MaxTurns gs_WorkspaceRoot gs_RuntimeConfig gs_AutoCompact
       gs_ThinkingLevel gs_Permissions gs_Paused gs_Revision gs_Plugins gs_CreatedAt gs_UpdatedAt].
  rewrite !TrimSpace_idem, H1, (normalizeUserID_fix _ _ H2). cbn [result_bind]. rewrite H3. cbn [result_bind]. rewrite Htitle.
  destruct (128 <? rune_count (TrimSpace (gs_Model session))) eqn:Hlong.
  - apply Z.ltb_lt in Hlong. assert (TrimSpace (gs_Model session) ≠ "") as Hne by (intros E; rewrite E in Hlong; by vm_compute in Hlong).
    by rewrite (normalizeStringSet_long _ _ _ _ (Hm3 Hne) (TrimSpace_idem _) Hne Hlong).
  - apply Z.ltb_ge in Hlong. rewrite (normalizeStringSet_fix _ _ _ (Hm2 Hlong)), (normalizeStringSet_fix _ _ _ Htools). cbn [result_bind].
    rewrite thinking_fix, bool_decide_eq_true_2 by done. cbn [negb]. rewrite (normalizePermissionRules_fix _ _ Hperm). cbn [result_bind].
    rewrite Hturns, Hroot, (normalize_root_fix _ _ Hr). cbn [result_bind]. rewrite H4. cbn [result_bind]. rewrite Hp1. cbn [result_bind].
    by rewrite Hm1, Hp2.
Qed.

Lemma normalizeSession_id session session' : normalize session = Ok session' → gs_ID session' = TrimSpace (gs_ID session) ∧ valid_name (gs_ID session').
Proof.
  unfold normalizeSession. cbv zeta. intros (u1 & H1%ValidateResourceName_Ok & (userID & H2 & (u3 & H3 & H)%bind_Ok)%bind_Ok)%bind_Ok.
  destruct (256 <? _); [done|]. apply bind_Ok in H as (models & _ & (tools & _ & H)%bind_Ok). destruct (negb _); [done|].
  apply bind_Ok in H as (permissions & _ & H). destruct (_ <? 0); [done|].
  by apply bind_Ok in H as (root & _ & (u4 & _ & (plugins & _ & [= <-])%bind_Ok)%bind_Ok).
Qed.

(** ** The store *)

Inductive sstore_step : memorySessionStore → memorySessionStore → Prop :=
  | ss_create st ctx session now created st' :
      sstore_Create url_Parse ToLower st ctx session now = Ok (created, st') → sstore_step st st'
  | ss_save st ctx session revision now saved st' :
      sstore_Save url_Parse ToLower st ctx session revision now = Ok (saved, st') → sstore_step st st'
  | ss_delete st ctx id revision st' : sstore_Delete st ctx id revision = Ok st' → sstore_step st st'
  | ss_close st : sstore_step st (sstore_Close st).

Definition sstore_reach (st : memorySessionStore) : Prop := rtc sstore_step NewMemorySessionStore st.

Definition sstore_ok (st : memorySessionStore) : Prop :=
  ∀ id session, ms_sessions st !! id = Some session → gs_ID session = id ∧ valid_name id ∧ 1 ≤ gs_Revision session ≤ MaxUint64.

(** What a session may become while it is not deleted. *)
Definition session_leads (a b : gateway_Session) : Prop :=
  gs_UserID b = gs_UserID a ∧ gs_CreatedAt b = gs_CreatedAt a ∧ gs_Revision a ≤ gs_Revision b ∧ (gs_Revision b = gs_Revision a → b = a).

Lemma session_leads_refl a : session_leads a a.
Proof. done. Qed.

Lemma session_leads_trans a b c : session_leads a b → session_leads b c → session_leads a c.
Proof.
  intros (H1 & H2 & H3 & H4) (H5 & H6 & H7 & H8). split_and!; [congruence|congruence|lia|].
  intros E. assert (gs_Revision b = gs_Revision a) as Eb by lia. rewrite H8 by lia. by apply H4.
Qed.

Lemma sstore_Save_spec st ctx session revision now saved st' :
  sstore_Save url_Parse ToLower st ctx session revision now = Ok (saved, st') → sstore_ok st →
  ∃ current, ms_sessions st !! gs_ID saved = Some current ∧ gs_Revision current = revision ∧ gs_Revision saved = revision + 1 ∧
    session_leads current saved ∧ valid_name (gs_ID saved) ∧ gs_Revision saved ≤ MaxUint64 ∧ st' = ms_put st saved.
Proof.
  unfold sstore_Save. intros (u & _ & (n & Hn & H)%bind_Ok)%bind_Ok Hok. destruct (ms_closed st); [done|].
  apply normalizeSession_id in Hn as [_ Hv]. destruct (ms_sessions st !! gs_ID n) as [current|] eqn:Hc; [|done].
  apply bind_Ok in H as (s & Hs & [= <- <-]). unfold prepareSessionUpdate in Hs.
  destruct (negb (gs_Revision current =? revision)) eqn:Hr; [done|]. destruct (negb (bool_decide _)) eqn:Hu; [done|].
  destruct (_ =? MaxUint64) eqn:Hx; [done|]. injection Hs as <-. apply negb_false_iff, Z.eqb_eq in Hr. apply negb_false_iff, bool_decide_eq_true in Hu.
  apply Z.eqb_neq in Hx. destruct (Hok _ _ Hc) as (Hid & _ & Hrange). exists current. cbn [stamp_session gs_ID gs_Revision gs_UserID gs_CreatedAt].
  unfold MaxUint64 in *. rewrite u64_small by (unfold two64 in *; lia). split_and!; try done; try lia.
  unfold session_leads. cbn [stamp_session gs_ID gs_Revision gs_UserID gs_CreatedAt]. split_and!; [done|done|lia|lia].
Qed.

Lemma ms_put_lookup st session id :
  ms_sessions (ms_put st session) !! id = if decide (gs_ID session = id) then Some session else ms_sessions st !! id.
Proof. cbn. destruct (decide _) as [->|]; [by rewrite lookup_insert_eq|by rewrite lookup_insert_ne]. Qed.

Lemma sstore_step_ok st st' :
  sstore_step st st' → sstore_ok st → sstore_ok st' ∧
  ∀ id a b, ms_sessions st !! id = Some a → ms_sessions st' !! id = Some b → session_leads a b.
Proof.
  intros Hs Hok. destruct Hs as [st ctx session now created st' H|st ctx session revision now saved st' H|st ctx id0 revision st' H|st].
  - unfold sstore_Create in H. apply bind_Ok in H as (u & _ & (n & Hn & H)%bind_Ok). destruct (ms_closed st); [done|].
    apply normalizeSession_id in Hn as [_ Hv]. destruct (ms_sessions st !! gs_ID n) as [old|] eqn:Hc; [done|]. injection H as <- <-. split.
    + intros id session'. rewrite ms_put_lookup. destruct (decide _) as [<-|]; [intros [= <-]|by apply Hok]. by vm_compute.
    + intros id a b Ha. rewrite ms_put_lookup. destruct (decide _) as [<-|]; [cbn in Ha; congruence|]. intros Hb.
      assert (b = a) as -> by congruence. apply session_leads_refl.
  - destruct (sstore_Save_spec _ _ _ _ _ _ _ H Hok) as (current & Hc & Hr & Hr' & Hl & Hv & Hx & ->). split.
    + intros id session'. rewrite ms_put_lookup. destruct (decide _) as [<-|]; [intros [= <-]|by apply Hok]. split_and!; [done|done| |done].
      destruct (Hok _ _ Hc) as (_ & _ & Hrange). lia.
    + intros id a b Ha. rewrite ms_put_lookup. destruct (decide _) as [<-|].
      * intros [= <-]. by assert (a = current) as -> by congruence.
      * intros Hb. assert (b = a) as -> by congruence. apply session_leads_refl.
  - unfold sstore_Delete in H. apply bind_Ok in H as (u & _ & H). destruct (ms_closed st); [done|]. destruct (ms_sessions st !! _) as [current|]; [|done].
    destruct (negb _); [done|]. injection H as <-. split.
    + intros id session'. cbn. intros [_ Hl]%lookup_delete_Some. by apply Hok.
    + intros id a b Ha. cbn. intros [_ Hb]%lookup_delete_Some. assert (b = a) as -> by congruence. apply session_leads_refl.
  - split; [done|]. intros id a b Ha Hb. cbn in Hb. assert (b = a) as -> by congruence. apply session_leads_refl.
Qed.

Lemma sstore_reach_ok st : sstore_reach st → sstore_ok st.
Proof.
  intros Hr. assert (sstore_ok NewMemorySessionStore) as H0 by (intros id s; cbn; by rewrite lookup_empty).
  revert H0. unfold sstore_reach in Hr. induction Hr as [s|s s' s'' Hs _ IH]; [done|]. intros H0. by apply IH, (sstore_step_ok _ _ Hs).
Qed.

(** A step that keeps a session. *)
Definition sstore_keeps (id : string) (st st' : memorySessionStore) : Prop :=
  sstore_step st st' ∧ (is_Some (ms_sessions st !! id) → is_Some (ms_sessions st' !! id)).

Lemma sstore_keeps_leads id st st' a :
  rtc (sstore_keeps id) st st' → sstore_ok st → ms_sessions st !! id = Some a →
  sstore_ok st' ∧ ∃ b, ms_sessions st' !! id = Some b ∧ session_leads a b.
Proof.
  intros Hr. revert a. induction Hr as [st|st st1 st' [Hs Hk] _ IH]; intros a Hok Ha; [by eauto using session_leads_refl|].
  destruct (sstore_step_ok _ _ Hs Hok) as [Hok1 Hl]. destruct (Hk ltac:(eauto)) as [b Hb].
  destruct (IH b Hok1 Hb) as (Hok' & c & Hc & Hbc). split; [done|]. exists c. split; [done|]. by eapply session_leads_trans, Hbc; eauto.
Qed.
End normal.

(** C32. Optimistic concurrency of sessions: as long as a session is not deleted, its owner and its creation stay, its
    revision only grows, and what was read at one revision is what is stored as long as the revision is; a save
    with the revision that was read succeeds only if nothing was saved since, and counts one revision. *)
Theorem session_cas url_Parse ToLower st st' id a :
  sstore_reach url_Parse ToLower st → rtc (sstore_keeps url_Parse ToLower id) st st' → ms_sessions st !! id = Some a →
  ∃ b, ms_sessions st' !! id = Some b ∧ gs_UserID b = gs_UserID a ∧ gs_CreatedAt b = gs_CreatedAt a ∧
    gs_Revision a ≤ gs_Revision b ∧ (gs_Revision b = gs_Revision a → b = a) ∧
    ∀ ctx session now saved st'',
      sstore_Save url_Parse ToLower st' ctx session (gs_Revision a) now = Ok (saved, st'') → gs_ID saved = id →
      b = a ∧ gs_Revision saved = gs_Revision a + 1 ∧ gs_UserID saved = gs_UserID a ∧ ms_sessions st'' !! id = Some saved.
Proof.
  intros Hok%sstore_reach_ok Hr Ha. destruct (sstore_keeps_leads _ _ _ _ _ _ Hr Hok Ha) as (Hok' & b & Hb & Hab).
  exists b. split; [done|]. pose proof Hab as (Hu & Hc & Hrev & Heq). split_and!; try done. intros ctx session now saved st'' Hs <-.
  destruct (sstore_Save_spec _ _ _ _ _ _ _ _ _ Hs Hok') as (current & Hcur & Hr1 & Hr2 & Hl & _ & _ & ->).
  assert (current = b) as -> by congruence. split_and!; [by apply Heq|done|destruct Hl as [-> _]; done|].
  rewrite ms_put_lookup. by rewrite decide_True.
Qed.

(** ** Pages *)

(** A client that follows the pages of its sessions. *)
Fixpoint read_sessions (st : memorySessionStore) (userID : string) (limit : Z) (fuel : nat) (after : string) : result (list gateway_Session) :=
  match fuel with
  | O => Err (errors_New "pages left")
  | S fuel =>
      let? page := sstore_ListByUser st None userID {| pr_After := after; pr_Limit := limit |} in
      if is_empty (spg_Next page) then Ok (spg_Items page) else
      let? rest := read_sessions st userID limit fuel (spg_Next page) in
      Ok (spg_Items page ++ rest)
  end.

Definition compare_sessions (a b : gateway_Session) : Z := strings_Compare (gs_ID a) (gs_ID b).

Section pages.
Context (sessions : gmap string gateway_Session) (owner : string).
Context (Hkeys : ∀ id session, sessions !! id = Some session → gs_ID session = id ∧ id ≠ "").

Abbreviation owned := (λ p : string * gateway_Session, bool_decide (gs_UserID p.2 = owner) = true).

Definition all_ids : list string := SortFunc strings_Compare (filter owned (map_to_list sessions)).*1.

Lemma all_ids_sorted : StronglySorted (cmp_le strings_Compare) all_ids ∧ NoDup all_ids.
Proof.
  split; [apply SortFunc_sorted, strings_Compare_ok|]. unfold all_ids. rewrite SortFunc_perm.
  apply (sublist_NoDup _ (map_to_list sessions).*1); [apply NoDup_fst_map_to_list|]. apply fmap_sublist, sublist_filter.
Qed.

Lemma all_ids_in id : id ∈ all_ids ↔ ∃ session, sessions !! id = Some session ∧ gs_UserID session = owner.
Proof.
  unfold all_ids. rewrite elem_of_SortFunc, list_elem_of_fmap. split.
  - intros ([k s] & -> & [Ho Hin]%list_elem_of_filter). apply elem_of_map_to_list in Hin. apply bool_decide_eq_true in Ho. eauto.
  - intros (s & Hs & Ho). exists (id, s). split; [done|]. apply list_elem_of_filter. split; [by apply bool_decide_eq_true|by apply elem_of_map_to_list].
Qed.

Lemma session_ids_filter after :
  session_ids sessions after (λ session, bool_decide (gs_UserID session = owner)) = filter (λ id, key_after after id = true) all_ids.
Proof.
  unfold session_ids. symmetry. apply SortFunc_unique; [apply strings_Compare_ok|by intros x y _ _ ?%strings_Compare_eq| |].
  - unfold all_ids. rewrite SortFunc_perm. rewrite filter_fmap, list_filter_filter. apply reflexive_eq. f_equal. apply list_filter_ext.
    intros p _. unfold compose. rewrite andb_true_iff. done.
  - apply StronglySorted_filter', all_ids_sorted.
Qed.

Lemma key_after_suffix before after rest :
  StronglySorted (cmp_le strings_Compare) (before ++ after :: rest) → NoDup (before ++ after :: rest) →
  filter (λ id, key_after after id = true) (before ++ after :: rest) = rest.
Proof.
  intros Hs Hn. apply StronglySorted_app in Hs as (Hbefore & _ & [_ Hrest]%StronglySorted_inv). apply NoDup_app in Hn as (_ & _ & [Hx _]%NoDup_cons).
  rewrite filter_app, filter_cons. rewrite decide_False by (unfold key_after; by rewrite (proj2 (strings_Compare_eq _ _) eq_refl)).
  rewrite (list_filter_ext _ (λ _, False) before), (list_filter_ext _ (λ _, True) rest).
  - replace (filter (λ _ : string, False) before) with (@nil string) by (clear; induction before as [|x l IH]; [done|]; by rewrite filter_cons, decide_False, <-IH by tauto).
    cbn. clear. induction rest as [|x rest IH]; [done|]. by rewrite filter_cons, decide_True, IH.
  - intros id Hid. split; [done|]. intros _. unfold key_after. apply Z.ltb_lt. rewrite Forall_forall in Hrest. specialize (Hrest _ Hid).
    unfold cmp_le in Hrest. rewrite (cmp_anti _ strings_Compare_ok id after) in Hrest. assert (strings_Compare id after ≠ 0); [|lia].
    intros ->%strings_Compare_eq. done.
  - intros id Hid. split; [|done]. unfold key_after. rewrite Z.ltb_lt. specialize (Hbefore id after Hid ltac:(by left)). unfold cmp_le in Hbefore. lia.
Qed.

Lemma key_after_all (l : list string) : (∀ id, id ∈ l → id ≠ "") → filter (λ id, key_after "" id = true) l = l.
Proof.
  intros Hne. induction l as [|x l IH]; [done|]. rewrite filter_cons, IH by set_solver. rewrite decide_True; [done|].
  specialize (Hne x ltac:(by left)). unfold key_after, strings_Compare. destruct x; [done|]. by cbn.
Qed.

(** The suffix of the IDs that a cursor leaves. *)
Definition ids_from (after : string) (rest : list string) : Prop :=
  (after = "" ∧ rest = all_ids) ∨ ∃ before, all_ids = before ++ after :: rest.

Lemma session_ids_from after rest :
  ids_from after rest → session_ids sessions after (λ session, bool_decide (gs_UserID session = owner)) = rest.
Proof using Hkeys.
  intros Hfrom. rewrite session_ids_filter. destruct all_ids_sorted as [Hs Hn]. destruct Hfrom as [[-> ->]|[before E]].
  - apply key_after_all. intros id (s & Hs' & _)%all_ids_in. by apply Hkeys in Hs' as [_ ?].
  - rewrite E in Hs, Hn |- *. by apply key_after_suffix.
Qed.

Lemma ids_from_next after rest n x :
  ids_from after rest → rest !! n = Some x → ids_from x (drop (S n) rest) ∧ x ≠ "".
Proof using Hkeys.
  intros Hfrom Hx. assert (x ∈ all_ids) as Hin.
  { apply list_elem_of_lookup_2 in Hx. destruct Hfrom as [[_ <-]|[before ->]]; [done|]. rewrite elem_of_app, elem_of_cons. auto. }
  split; [|apply all_ids_in in Hin as (s & Hs & _); by apply Hkeys in Hs as [_ ?]].
  right. pose proof (take_drop_middle _ _ _ Hx) as E. destruct Hfrom as [[_ <-]|[before ->]].
  - by exists (take n rest).
  - exists (before ++ after :: take n rest). rewrite <-app_assoc. cbn. by rewrite E.
Qed.

Lemma lookup_ids : omap (λ id, sessions !! id) all_ids =
  SortFunc compare_sessions (filter (λ session, gs_UserID session = owner) (map_values sessions)).
Proof using Hkeys.
  assert (∀ l : list string, (∀ id, id ∈ l → is_Some (sessions !! id)) → gs_ID <$> omap (λ id, sessions !! id) l = l) as Hid.
  { induction l as [|id l IH]; intros Hl; [done|]. cbn [omap list_omap]. destruct (Hl id ltac:(by left)) as [s Hs]. rewrite Hs. cbn.
    destruct (Hkeys _ _ Hs) as [-> _]. f_equal. apply IH. intros id' H'. apply Hl. by right. }
  specialize (Hid all_ids). destruct all_ids_sorted as [Hs Hn]. apply SortFunc_unique.
  - apply (cmp_ok_on gs_ID), strings_Compare_ok.
  - intros x y Hx Hy Hc%strings_Compare_eq. apply list_elem_of_filter in Hx as [_ [i Hi]%elem_of_map_values], Hy as [_ [j Hj]%elem_of_map_values].
    pose proof (Hkeys _ _ Hi) as [Ei _]. pose proof (Hkeys _ _ Hj) as [Ej _]. congruence.
  - unfold all_ids. rewrite SortFunc_perm. unfold map_values. rewrite filter_fmap.
    rewrite (list_filter_ext (λ x, gs_UserID x.2 = owner) (λ p, bool_decide (gs_UserID p.2 = owner) = true)) by (intros; by rewrite bool_decide_eq_true).
    apply reflexive_eq. assert (∀ p, p ∈ filter (λ p, bool_decide (gs_UserID p.2 = owner) = true) (map_to_list sessions) → sessions !! p.1 = Some p.2) as Hin.
    { intros [k s] [_ Hp%elem_of_map_to_list]%list_elem_of_filter. done. }
    revert Hin. generalize (filter (λ p : string * gateway_Session, bool_decide (gs_UserID p.2 = owner) = true) (map_to_list sessions)) as l.
    induction l as [|p l IH]; intros Hin; [done|]. cbn. rewrite (Hin p) by (by left). cbn. f_equal. apply IH. intros q Hq. apply Hin. by right.
  - assert (StronglySorted (cmp_le strings_Compare) (gs_ID <$> omap (λ id, sessions !! id) all_ids)) as Hsorted.
    { rewrite Hid; [done|]. intros id (s & E & _)%all_ids_in. by rewrite E. }
    revert Hsorted. generalize (omap (λ id, sessions !! id) all_ids) as l. induction l as [|x l IH]; cbn; [constructor|].
    intros [Hall Hl]%StronglySorted_cons. apply StronglySorted_cons. split; [|by apply IH]. rewrite Forall_fmap in Hall. exact Hall.
Qed.
End pages.

Lemma read_sessions_from st userID owner limit fuel after rest :
  (∀ id session, ms_sessions st !! id = Some session → gs_ID session = id ∧ id ≠ "") →
  ms_closed st = false → normalizeUserID userID = Ok owner → 1 ≤ limit ≤ MaxPageSize →
  ids_from (ms_sessions st) owner after rest → (length rest < fuel)%nat →
  read_sessions st userID limit fuel after = Ok (omap (λ id, ms_sessions st !! id) rest).
Proof.
  intros Hkeys Hclosed Huser Hlimit. revert after rest. induction fuel as [|fuel IH]; intros after rest Hfrom Hfuel; [lia|]. cbn [read_sessions].
  assert (sstore_ListByUser st None userID {| pr_After := after; pr_Limit := limit |} =
    Ok (listSessionsByUser (ms_sessions st) owner {| pr_After := after; pr_Limit := limit |})) as ->.
  { unfold sstore_ListByUser. cbn [ctx_Err result_bind]. rewrite Huser. cbn [result_bind]. unfold validatePage. cbn [pr_Limit pr_After].
    rewrite (proj2 (Z.eqb_neq limit 0)) by lia. rewrite (proj2 (Z.ltb_ge limit 1)), (proj2 (Z.ltb_ge MaxPageSize limit)) by lia. cbn. by rewrite Hclosed. }
  cbn [result_bind]. unfold listSessionsByUser, listSessionMatches. cbn [pr_After pr_Limit spg_Next spg_Items].
  rewrite (session_ids_from _ _ Hkeys _ _ Hfrom). destruct (Nat.ltb_spec (Z.to_nat limit) (length rest)) as [Hlt|Hge].
  - destruct (rest !! (Z.to_nat limit - 1)%nat) as [x|] eqn:Hx; [|apply lookup_ge_None in Hx; lia]. change (default "" (Some x)) with x.
    destruct (ids_from_next _ _ Hkeys _ _ _ _ Hfrom Hx) as [Hnext Hne]. replace (S (Z.to_nat limit - 1))%nat with (Z.to_nat limit) in Hnext by lia.
    rewrite (proj2 (is_empty_false _) Hne). rewrite (IH _ _ Hnext) by (rewrite length_drop; lia). cbn. f_equal.
    by rewrite <-omap_app, take_drop.
  - cbn. rewrite take_ge by lia. done.
Qed.

(** The sessions of a user: a client that follows the pages of [ListByUser] to the end receives every session of
    the user exactly once, in the order of their IDs, whatever the size of its pages. *)
Theorem session_pages_complete url_Parse ToLower st userID owner limit :
  sstore_reach url_Parse ToLower st → ms_closed st = false → normalizeUserID userID = Ok owner → 1 ≤ limit ≤ MaxPageSize →
  read_sessions st userID limit (S (size (ms_sessions st))) "" =
    Ok (SortFunc compare_sessions (filter (λ session, gs_UserID session = owner) (map_values (ms_sessions st)))).
Proof.
  intros Hok%sstore_reach_ok Hclosed Huser Hlimit.
  assert (∀ id session, ms_sessions st !! id = Some session → gs_ID session = id ∧ id ≠ "") as Hkeys.
  { intros id session (Hid & Hv & _)%Hok. split; [done|by apply valid_name_nonempty]. }
  rewrite <-(lookup_ids _ _ Hkeys). apply (read_sessions_from st userID owner limit); try done; [by left|].
  unfold all_ids. rewrite SortFunc_perm, length_fmap. apply Nat.lt_succ_r. etrans; [apply length_filter|]. by rewrite length_map_to_list.
Qed.

(** ** Examples *)

Definition ex_url (_ : string) : result URL := Ok {| url_Scheme := "grpc"; url_Opaque := ""; url_Host := "host"; url_Path := "" |}.
Definition ex_rune_lower (r : rune) : rune := r.
Definition ex_session (id user model root : string) : gateway_Session :=
  {| gs_ID := id; gs_UserID := user; gs_Title := " title "; gs_Provider := ""; gs_Model := model; gs_Models := ["b"; "a"; "b"];
     gs_Tools := []; gs_System := ""; gs_MaxTurns := 0; gs_WorkspaceRoot := root; gs_RuntimeConfig := ""; gs_AutoCompact := None;
     gs_ThinkingLevel := "HIGH"; gs_Permissions := {| pm_Allow := []; pm_Ask := []; pm_Deny := [] |}; gs_Paused := false;
     gs_Revision := 0; gs_Plugins := []; gs_CreatedAt := 0; gs_UpdatedAt := 0 |}.

Example ex_normal :
  match normalizeSession ex_url ex_rune_lower (ex_session " s " "u" "c" "/x/./y/../z/") with
  | Ok session => gs_Models session = ["a"; "b"; "c"] ∧ gs_WorkspaceRoot session = "/x/z" ∧ gs_ThinkingLevel session = "high" ∧ gs_ID session = "s"
  | Err _ => False
  end.
Proof. by vm_compute. Qed.

Abbreviation ex_Create := (sstore_Create ex_url ex_rune_lower).
Abbreviation ex_Save := (sstore_Save ex_url ex_rune_lower).
Definition ex_after {A} (st : memorySessionStore) (r : result (A * memorySessionStore)) : memorySessionStore :=
  match r with Ok (_, st) => st | Err _ => st end.
Definition ex_store1 := ex_after NewMemorySessionStore (ex_Create NewMemorySessionStore None (ex_session "s1" "u" "m" "") 1000).
Definition ex_store2 := ex_after ex_store1 (ex_Create ex_store1 None (ex_session "s2" "u" "m" "") 1001).
Definition ex_store3 := ex_after ex_store2 (ex_Save ex_store2 None (ex_session "s1" "u" "n" "") 1 1002).

Lemma ex_created st ctx session now : is_Ok (ex_Create st ctx session now) → sstore_step ex_url ex_rune_lower st (ex_after st (ex_Create st ctx session now)).
Proof. intros [[created st'] H]. rewrite H. by eapply ss_create. Qed.
Lemma ex_saved st ctx session revision now :
  is_Ok (ex_Save st ctx session revision now) → sstore_step ex_url ex_rune_lower st (ex_after st (ex_Save st ctx session revision now)).
Proof. intros [[saved st'] H]. rewrite H. by eapply ss_save. Qed.

Lemma ex_store2_reach : sstore_reach ex_url ex_rune_lower ex_store2.
Proof.
  eapply rtc_l; [apply (ex_created NewMemorySessionStore None (ex_session "s1" "u" "m" "") 1000); vm_compute; by eexists|].
  apply rtc_once, ex_created. vm_compute. by eexists.
Qed.

Lemma ex_store3_keeps : rtc (sstore_keeps ex_url ex_rune_lower "s1") ex_store2 ex_store3.
Proof. apply rtc_once. split; [apply ex_saved; vm_compute; by eexists|]. intros _. vm_compute. by eexists. Qed.

Definition ex_read : gateway_Session := default (ex_session "" "" "" "") (ms_sessions ex_store2 !! "s1").

Lemma session_cas_witness :
  ∃ b, ms_sessions ex_store3 !! "s1" = Some b ∧ gs_Revision b = 2 ∧
    ∀ now saved st'', ex_Save ex_store3 None ex_read (gs_Revision ex_read) now = Ok (saved, st'') → gs_ID saved = "s1" → b = ex_read.
Proof.
  destruct (session_cas ex_url ex_rune_lower ex_store2 ex_store3 "s1" ex_read ex_store2_reach ex_store3_keeps ltac:(by vm_compute))
    as (b & Hb & _ & _ & _ & _ & Hsave).
  exists b. split; [exact Hb|]. split; [vm_compute in Hb; by injection Hb as <-|]. intros now saved st'' H Hid. exact (proj1 (Hsave _ _ _ _ _ H Hid)).
Defined.

Lemma session_pages_complete_witness :
  read_sessions ex_store2 " u " 1 3 "" =
    Ok (SortFunc compare_sessions (filter (λ session, gs_UserID session = "u") (map_values (ms_sessions ex_store2)))).
Proof. exact (session_pages_complete ex_url ex_rune_lower ex_store2 " u " "u" 1 ex_store2_reach eq_refl ltac:(by vm_compute) ltac:(by vm_compute)). Defined.
