(* ===== verification/GatewayConversation.v ===== *)
(** What clients page through: the conversation of a session, [gateway/conversation.go], with messages cut into chunks at
    rune boundaries, and the entries of its trajectory, [gateway/inspection.go].  The chunks give back the messages, and
    the pages give back the chunks and the entries. *)

From S2P Require Import Prelude GoText Names Message ContextInjection Trajectory TrajectoryStore Agent EventDispatch Payload Durability.
Import Utf8.

Definition defaultConversationPageSize : Z := 100.
Definition maxConversationPageSize : Z := 1000.
Definition conversationChunkBytes : Z := 1048576.
Definition conversationPageBytes : Z := 4194304.
Definition conversationToolPreviewBytes : Z := 4096.

Record ConversationToolCall := { ctc_ID : string; ctc_Name : string }.

Record ConversationMessage := {
  cvm_Role : Role;
  cvm_Content : string;
  cvm_ToolCalls : list ConversationToolCall;
  cvm_ToolCallID : string;
  cvm_IsError : bool;
  cvm_Continuation : bool;
}.

Record ConversationQuery := { cq_After : Z; cq_Limit : Z }.

Record ConversationPage := {
  cvp_Head : string;
  cvp_Execution : option TrajectoryExecution;
  cvp_Items : list ConversationMessage;
  cvp_Next : Z;
}.

(** ** Chunks *)

Definition text_of (s : list ascii) : string := String.string_of_list_ascii s.
Abbreviation chars s := (String.list_ascii_of_string s).

(** The loop that goes back from [boundary] to the start of a rune. *)
Fixpoint rune_start_before (content : list N) (boundary : nat) : nat :=
  match boundary with
  | O => O
  | S previous => if RuneStart (default 0%N (content !! boundary)) then boundary else rune_start_before content previous
  end.

Definition conversationChunkBoundary (content : list ascii) (limit : nat) : nat :=
  if (length content <=? limit)%nat then length content else
  match rune_start_before (byte <$> content) limit with
  | O => (DecodeRune (byte <$> content)).2
  | boundary => boundary
  end.

(** The chunks of a content; every chunk takes at least one byte, so that the length of the content is fuel enough. *)
Fixpoint chunk_loop (fuel limit : nat) (content : list ascii) : list (list ascii) :=
  match fuel, content with
  | O, _ | _, [] => []
  | S fuel, _ =>
      let split := conversationChunkBoundary content limit in
      take split content :: chunk_loop fuel limit (drop split content)
  end.

Definition ellipsis : string := text_of (ascii_of_N <$> [226; 128; 166]%N).

Section limits.
(** The bounds of a chunk and of a preview; the code has [conversationChunkBytes] and [conversationToolPreviewBytes]. *)
Context (chunkBytes previewBytes : Z).

Definition conversationContent (message : Message) : string :=
  if negb (bool_decide (msg_Role message = RoleTool)) || (Z.of_nat (String.length (msg_Content message)) <=? previewBytes) then msg_Content message else
  let boundary := conversationChunkBoundary (chars (msg_Content message)) (Z.to_nat previewBytes) in
  text_of (take boundary (chars (msg_Content message))) +:+ ellipsis.

Definition conversationToolCalls (calls : option (list ToolCall)) : list ConversationToolCall :=
  (λ call, {| ctc_ID := tc_ID call; ctc_Name := tc_Name call |}) <$> default [] calls.

Definition shown_role (role : Role) : bool :=
  match role with RoleUser | RoleAssistant | RoleTool => true | _ => false end.

Definition chunk_message (message : Message) (toolCalls : list ConversationToolCall) (continuation : bool) (content : list ascii) : ConversationMessage :=
  {| cvm_Role := msg_Role message; cvm_Content := text_of content;
     cvm_ToolCalls := if continuation then [] else toolCalls;
     cvm_ToolCallID := if continuation then "" else msg_ToolCallID message;
     cvm_IsError := if continuation then false else msg_IsError message; cvm_Continuation := continuation |}.

(** The chunks of one message. *)
Definition message_chunks (message : Message) : list ConversationMessage :=
  if negb (shown_role (msg_Role message)) then [] else
  let toolCalls := conversationToolCalls (msg_ToolCalls message) in
  let content := chars (conversationContent message) in
  match chunk_loop (length content) (Z.to_nat chunkBytes) content with
  | [] => if bool_decide (length toolCalls = 0%nat) && negb (bool_decide (msg_Role message = RoleTool)) then [] else [chunk_message message toolCalls false []]
  | first :: rest => chunk_message message toolCalls false first :: (chunk_message message toolCalls true <$> rest)
  end.

Definition conversation_chunks (messages : list Message) : list ConversationMessage := messages ≫= message_chunks.
End limits.

Definition conversationChunks (messages : list Message) : list ConversationMessage :=
  conversation_chunks conversationChunkBytes conversationToolPreviewBytes messages.

(** ** Pages *)

Definition normalizeConversationQuery (query : ConversationQuery) : result ConversationQuery :=
  let limit := if cq_Limit query =? 0 then defaultConversationPageSize else cq_Limit query in
  fail_if (limit <? 1) || (maxConversationPageSize <? limit) with errors_New "conversation page limit must be between 1 and 1000";
  Ok {| cq_After := cq_After query; cq_Limit := limit |}.

Section items.
(** Pages of items, bounded in number and in bytes, as both files build them; [json.Marshal] on an item. *)
Context {A : Type} (marshal_item : A → result string) (maxBytes : Z).

(** The loop over the items that follow the cursor. *)
Fixpoint page_items (limit : Z) (l items : list A) (pageBytes : Z) : result (list A) :=
  match l with
  | [] => Ok items
  | item :: l =>
      if limit <=? Z.of_nat (length items) then Ok items else
      let? encoded := marshal_item item in
      let size := Z.of_nat (String.length encoded) in
      if (0 <? Z.of_nat (length items)) && (maxBytes <? pageBytes + size) then Ok items else
      page_items limit l (items ++ [item]) (pageBytes + size)
  end.

(** The items of a page with the cursor of the next. *)
Definition item_page (l : list A) (after limit : Z) : result (list A * Z) :=
  let total := Z.of_nat (length l) in
  if total <=? after then Ok ([], 0) else
  let? items := page_items limit (drop (Z.to_nat after) l) [] 0 in
  let finish := u64 (after + Z.of_nat (length items)) in
  Ok (items, if finish <? total then finish else 0).
End items.

(** [json.Marshal] on a chunk. *)
Definition projectConversationMessagesPage (marshal_chunk : ConversationMessage → result string) (head : string)
    (execution : option TrajectoryExecution) (messages : list Message) (query : ConversationQuery) : result ConversationPage :=
  let? query := normalizeConversationQuery query in
  let? '(items, next) := item_page marshal_chunk conversationPageBytes (conversationChunks messages) (cq_After query) (cq_Limit query) in
  Ok {| cvp_Head := head; cvp_Execution := execution; cvp_Items := items; cvp_Next := next |}.

(** ** The messages of a trajectory, [sdk/runtime/trajectory_projection.go] *)

Section projection.
Context `{!PayloadCodec}.

Definition ProjectTrajectoryBranchMessages (trajectoryID : string) (branch : list TrajectoryEntry) : result (list Message) :=
  fail_if is_empty trajectoryID with errors_New "project trajectory branch messages: trajectory ID is empty";
  BranchMessages trajectoryID branch.

Definition ProjectTrajectoryMessages (trajectory : Trajectory) : result (list Message) :=
  if is_empty (tj_Head trajectory) then Ok [] else
  fail_if is_empty (tj_ID trajectory) with errors_New "project trajectory messages: trajectory ID is empty";
  let? branch := Trajectory_Branch trajectory (tj_Head trajectory) in
  ProjectTrajectoryBranchMessages (tj_ID trajectory) branch.

Definition projectConversationPage (marshal_chunk : ConversationMessage → result string) (trajectory : Trajectory) (query : ConversationQuery)
    : result ConversationPage :=
  let? messages := ProjectTrajectoryMessages trajectory in
  projectConversationMessagesPage marshal_chunk (tj_Head trajectory) (tj_Execution trajectory) messages query.
End projection.

(** ** Entries *)

Definition defaultTrajectoryEntryPageSize : Z := 500.
Definition maxTrajectoryEntryPageSize : Z := 1000.
Definition trajectoryEntryPageBytes : Z := 4194304.

(** [sdk.TrajectoryEntryInspection], every field. *)
Record EntryInspection := {
  tei_ID : string;
  tei_TrajectoryID : string;
  tei_ParentID : string;
  tei_Ordinal : Z;
  tei_Depth : Z;
  tei_Kind : TrajectoryKind;
  tei_Timestamp : time;
  tei_Generation : Z;
  tei_Fields : TrajectoryEntryFields;
  tei_PayloadVersion : Z;
  tei_PayloadBytes : Z;
  tei_AuditCount : Z;
  tei_AttributeCount : Z;
}.

Record TrajectoryEntrySummary := {
  tys_ID : string;
  tys_ParentID : string;
  tys_Ordinal : Z;
  tys_Depth : Z;
  tys_Kind : TrajectoryKind;
  tys_Timestamp : time;
  tys_Generation : Z;
  tys_Fields : TrajectoryEntryFields;
  tys_PayloadVersion : Z;
  tys_PayloadBytes : Z;
  tys_AuditCount : Z;
  tys_AttributeCount : Z;
}.

Record TrajectoryInspection := {
  tin_SchemaVersion : Z;
  tin_ID : string;
  tin_ParentID : string;
  tin_ParentEntryID : string;
  tin_CreatedAt : time;
  tin_UpdatedAt : time;
  tin_Head : string;
  tin_Checkpoint : string;
  tin_Execution : option TrajectoryExecution;
  tin_EntryCount : Z;
}.

Record EntryPageQuery := { eq_After : Z; eq_Limit : Z }.

Record TrajectoryEntryPage := { tyg_Trajectory : TrajectoryInspection; tyg_Items : list TrajectoryEntrySummary; tyg_Next : Z }.

(** The inspection of an entry, in the loop of [projectTrajectoryEntryPage]. *)
Definition inspect_entry (entry : TrajectoryEntry) : EntryInspection :=
  {| tei_ID := te_ID entry; tei_TrajectoryID := te_TrajectoryID entry; tei_ParentID := te_ParentID entry; tei_Ordinal := te_Ordinal entry;
     tei_Depth := te_Depth entry; tei_Kind := te_Kind entry; tei_Timestamp := te_Timestamp entry; tei_Generation := te_Generation entry;
     tei_Fields := te_Fields entry; tei_PayloadVersion := te_PayloadVersion entry; tei_PayloadBytes := Z.of_nat (String.length (te_Payload entry));
     tei_AuditCount := Z.of_nat (length (te_Audit entry)); tei_AttributeCount := Z.of_nat (size (te_Attributes entry)) |}.

Definition summarizeInspectedTrajectoryEntry (entry : EntryInspection) : TrajectoryEntrySummary :=
  {| tys_ID := tei_ID entry; tys_ParentID := tei_ParentID entry; tys_Ordinal := tei_Ordinal entry; tys_Depth := tei_Depth entry;
     tys_Kind := tei_Kind entry; tys_Timestamp := tei_Timestamp entry; tys_Generation := tei_Generation entry; tys_Fields := tei_Fields entry;
     tys_PayloadVersion := tei_PayloadVersion entry; tys_PayloadBytes := tei_PayloadBytes entry; tys_AuditCount := tei_AuditCount entry;
     tys_AttributeCount := tei_AttributeCount entry |}.

Definition summarizeTrajectoryEntry (entry : TrajectoryEntry) : TrajectoryEntrySummary :=
  {| tys_ID := te_ID entry; tys_ParentID := te_ParentID entry; tys_Ordinal := te_Ordinal entry; tys_Depth := te_Depth entry; tys_Kind := te_Kind entry;
     tys_Timestamp := te_Timestamp entry; tys_Generation := te_Generation entry; tys_Fields := te_Fields entry;
     tys_PayloadVersion := te_PayloadVersion entry; tys_PayloadBytes := Z.of_nat (String.length (te_Payload entry));
     tys_AuditCount := Z.of_nat (length (te_Audit entry)); tys_AttributeCount := Z.of_nat (size (te_Attributes entry)) |}.

Definition normalizeTrajectoryEntryQuery (query : EntryPageQuery) : result EntryPageQuery :=
  let limit := if eq_Limit query =? 0 then defaultTrajectoryEntryPageSize else eq_Limit query in
  fail_if (limit <? 1) || (maxTrajectoryEntryPageSize <? limit) with errors_New "trajectory entry page limit must be between 1 and 1000";
  Ok {| eq_After := eq_After query; eq_Limit := limit |}.

(** [json.Marshal] on the summary of an entry. *)
Definition projectInspectedTrajectoryEntryPage (marshal_entry : TrajectoryEntrySummary → result string) (metadata : TrajectoryMetadata)
    (entries : list EntryInspection) (query : EntryPageQuery) : result TrajectoryEntryPage :=
  let? query := normalizeTrajectoryEntryQuery query in
  let? '(items, next) :=
    item_page marshal_entry trajectoryEntryPageBytes (summarizeInspectedTrajectoryEntry <$> entries) (eq_After query) (eq_Limit query) in
  Ok {| tyg_Trajectory :=
          {| tin_SchemaVersion := tm_SchemaVersion metadata; tin_ID := tm_ID metadata; tin_ParentID := tm_ParentID metadata;
             tin_ParentEntryID := tm_ParentEntryID metadata; tin_CreatedAt := tm_CreatedAt metadata; tin_UpdatedAt := tm_UpdatedAt metadata;
             tin_Head := tm_Head metadata; tin_Checkpoint := tm_Checkpoint metadata; tin_Execution := tm_Execution metadata;
             tin_EntryCount := Z.of_nat (length entries) |};
        tyg_Items := items; tyg_Next := next |}.

Definition projectTrajectoryEntryPage (marshal_entry : TrajectoryEntrySummary → result string) (trajectory : Trajectory) (query : EntryPageQuery)
    : result TrajectoryEntryPage :=
  let? branch := Trajectory_Branch trajectory (tj_Head trajectory) in
  projectInspectedTrajectoryEntryPage marshal_entry
    {| tm_SchemaVersion := tj_SchemaVersion trajectory; tm_ID := tj_ID trajectory; tm_ParentID := tj_ParentID trajectory;
       tm_ParentEntryID := tj_ParentEntryID trajectory; tm_CreatedAt := tj_CreatedAt trajectory; tm_UpdatedAt := tj_UpdatedAt trajectory;
       tm_Head := tj_Head trajectory; tm_Checkpoint := tj_Checkpoint trajectory; tm_Execution := tj_Execution trajectory;
       tm_Environment := zeroEnvironment; tm_EntryCount := Z.of_nat (length branch); tm_OwnedEntryCount := 0 |}
    (inspect_entry <$> branch) query.

(** ** Chunks give back the text *)

Lemma rune_start_before_le content boundary : (rune_start_before content boundary ≤ boundary)%nat.
Proof. induction boundary as [|b IH]; cbn [rune_start_before]; [done|]. destruct (RuneStart _); lia. Qed.

Lemma boundary_bounds content limit :
  content ≠ [] → (1 ≤ limit)%nat →
  (1 ≤ conversationChunkBoundary content limit ≤ length content)%nat ∧ ((4 ≤ limit)%nat → (conversationChunkBoundary content limit ≤ limit)%nat).
Proof.
  intros Hne Hl. unfold conversationChunkBoundary. destruct (Nat.leb_spec (length content) limit) as [Hle|Hgt].
  - destruct content; [done|]. cbn in *. lia.
  - pose proof (rune_start_before_le (byte <$> content) limit) as Hb. destruct (rune_start_before _ limit) as [|b]; [|lia].
    pose proof (DecodeRune_width (byte <$> content)) as Hw. rewrite length_fmap in Hw.
    assert (byte <$> content ≠ []) as Hne' by (by destruct content). specialize (Hw Hne'). lia.
Qed.

Lemma chunk_loop_spec fuel limit content :
  (1 ≤ limit)%nat → (length content ≤ fuel)%nat →
  concat (chunk_loop fuel limit content) = content ∧ Forall (λ chunk, chunk ≠ [] ∧ ((4 ≤ limit)%nat → (length chunk ≤ limit)%nat)) (chunk_loop fuel limit content).
Proof.
  intros Hl. revert content. induction fuel as [|fuel IH]; intros content Hf.
  - destruct content; [by split|cbn in Hf; lia].
  - destruct content as [|c content]; [by split|]. cbn [chunk_loop]. set (text := c :: content) in *.
    destruct (boundary_bounds text limit) as [Hb Hb4]; [done|done|].
    destruct (IH (drop (conversationChunkBoundary text limit) text)) as [Hc Hall]; [rewrite length_drop; lia|].
    split; [cbn [concat]; rewrite Hc; apply take_drop|]. constructor; [|done]. split.
    + intros Ht. apply (f_equal length) in Ht. rewrite length_take in Ht. cbn [length] in Ht. lia.
    + intros H4. rewrite length_take. specialize (Hb4 H4). lia.
Qed.

(** What a client shows: the continuations joined to the chunk they continue. *)
Definition join_chunk (chunk : ConversationMessage) (rest : string * list ConversationMessage) : string * list ConversationMessage :=
  let content := cvm_Content chunk +:+ rest.1 in
  if cvm_Continuation chunk then (content, rest.2) else
  ("", {| cvm_Role := cvm_Role chunk; cvm_Content := content; cvm_ToolCalls := cvm_ToolCalls chunk; cvm_ToolCallID := cvm_ToolCallID chunk;
          cvm_IsError := cvm_IsError chunk; cvm_Continuation := false |} :: rest.2).

Definition join_chunks (chunks : list ConversationMessage) : string * list ConversationMessage := foldr join_chunk ("", []) chunks.

(** A message as a conversation shows it; [None] for the ones it leaves out. *)
Definition shown_message (previewBytes : Z) (message : Message) : option ConversationMessage :=
  let toolCalls := conversationToolCalls (msg_ToolCalls message) in
  if negb (shown_role (msg_Role message)) ||
     (is_empty (conversationContent previewBytes message) && bool_decide (length toolCalls = 0%nat) && negb (bool_decide (msg_Role message = RoleTool)))
  then None
  else Some {| cvm_Role := msg_Role message; cvm_Content := conversationContent previewBytes message; cvm_ToolCalls := toolCalls;
               cvm_ToolCallID := msg_ToolCallID message; cvm_IsError := msg_IsError message; cvm_Continuation := false |}.

Lemma text_of_app a b : text_of (a ++ b) = text_of a +:+ text_of b.
Proof. induction a as [|c a IH]; [done|]. change (String c (text_of (a ++ b)) = String c (text_of a +:+ text_of b)). by rewrite IH. Qed.

Lemma join_continuations message toolCalls chunks rest :
  foldr join_chunk ("", rest) (chunk_message message toolCalls true <$> chunks) = (text_of (concat chunks), rest).
Proof.
  induction chunks as [|chunk chunks IH]; [done|]. cbn [fmap list_fmap foldr]. rewrite IH. unfold join_chunk. cbn. by rewrite text_of_app.
Qed.

Lemma join_chunks_app chunks rest : join_chunks (chunks ++ rest) = foldr join_chunk (join_chunks rest) chunks.
Proof. apply foldr_app. Qed.

Lemma append_empty_r (s : string) : s +:+ "" = s.
Proof. induction s as [|c s IH]; [done|]. change (String c (s +:+ "") = String c s). by rewrite IH. Qed.

Lemma join_message chunkBytes previewBytes message rest :
  1 ≤ chunkBytes →
  foldr join_chunk ("", rest) (message_chunks chunkBytes previewBytes message) =
    ("", match shown_message previewBytes message with Some shown => shown :: rest | None => rest end).
Proof.
  intros Hl. unfold message_chunks, shown_message. destruct (shown_role (msg_Role message)); [|done]. cbn [negb orb].
  set (text := conversationContent previewBytes message). set (calls := conversationToolCalls (msg_ToolCalls message)).
  destruct (chunk_loop_spec (length (chars text)) (Z.to_nat chunkBytes) (chars text)) as [Hc _]; [lia|done|].
  destruct (is_empty text) eqn:He.
  - apply is_empty_true in He. rewrite He in Hc |- *. cbn [length String.list_ascii_of_string chunk_loop]. cbn [andb]. by destruct (bool_decide _ && _).
  - apply is_empty_false in He. cbn [andb]. destruct (chunk_loop _ _ _) as [|first chunks]; [cbn in Hc; by destruct text|].
    cbn [foldr]. rewrite join_continuations. unfold join_chunk, chunk_message. cbn [cvm_Content cvm_Continuation cvm_Role cvm_ToolCalls cvm_ToolCallID cvm_IsError fst snd].
    rewrite <-text_of_app. change (first ++ concat chunks) with (concat (first :: chunks)). rewrite Hc. unfold text_of. by rewrite String.string_of_list_ascii_of_string.
Qed.

(** ** No rune is cut *)

(** Well-formed UTF-8: every rune decodes, none of them as the error of a byte that starts nothing. *)
Fixpoint utf8_runes (fuel : nat) (s : list N) : Prop :=
  match fuel, s with
  | _, [] => True
  | O, _ => False
  | S fuel, _ => DecodeRune s ≠ (RuneError, 1%nat) ∧ utf8_runes fuel (drop (DecodeRune s).2 s)
  end.
Definition utf8_Valid (s : list N) : Prop := utf8_runes (length s) s.

Lemma continuation_no_start b : continuation b = true → RuneStart b = false.
Proof.
  intros [H1%N.leb_le H2%N.leb_le]%andb_prop. unfold RuneStart. apply negb_false_iff, N.eqb_eq.
  assert (b ∈ (N.of_nat <$> seq 128 64)) as Hin.
  { apply list_elem_of_fmap. exists (N.to_nat b). rewrite N2Nat.id, elem_of_seq. lia. }
  assert (Forall (λ k, N.land k 192 = 128%N) (N.of_nat <$> seq 128 64)) as Hall by (vm_compute; repeat constructor).
  rewrite Forall_forall in Hall. by apply Hall.
Qed.

Lemma second_continuation a b : second_ok a b = true → continuation b = true.
Proof.
  unfold second_ok, continuation. rewrite !andb_true_iff, !N.leb_le.
  destruct (N.eqb a 224), (N.eqb a 237), (N.eqb a 240), (N.eqb a 244); rewrite ?andb_true_iff, ?N.leb_le; lia.
Qed.

Lemma no_starts (l : list N) a :
  Forall (λ b, continuation b = true) l → ∀ k b, (0 < k)%nat → (a :: l) !! k = Some b → RuneStart b = false.
Proof. intros Hl [|k] b Hk; [lia|]. cbn. intros Hb. rewrite Forall_lookup in Hl. by apply continuation_no_start, (Hl k). Qed.

(** A rune that decodes: its bytes after the first are no start of a rune, and decode whatever follows them. *)
Lemma DecodeRune_split s :
  s ≠ [] → DecodeRune s ≠ (RuneError, 1%nat) →
  ∃ rune_bytes rest, s = rune_bytes ++ rest ∧ (DecodeRune s).2 = length rune_bytes ∧ rune_bytes ≠ [] ∧
    (∀ k b, (0 < k)%nat → rune_bytes !! k = Some b → RuneStart b = false) ∧ (∀ rest', DecodeRune (rune_bytes ++ rest') = DecodeRune s).
Proof.
  destruct s as [|a s]; [done|]. intros _. unfold DecodeRune at 1 2. destruct (N.ltb a 128) eqn:E1.
  { intros _. exists [a], s. split_and!; [done|done|done|by apply no_starts|]. intros rest'. cbn. by rewrite E1. }
  destruct (N.leb 194 a && N.leb a 223) eqn:E2.
  { destruct s as [|b s]; [done|]. destruct (continuation b) eqn:Hb; [|done]. intros _. exists [a; b], s.
    split_and!; [done|done|done|apply no_starts; by repeat constructor|]. intros rest'. cbn. by rewrite E1, E2, Hb. }
  destruct (N.leb 224 a && N.leb a 239) eqn:E3.
  { destruct s as [|b [|c s]]; [done|done|]. destruct (second_ok a b && continuation c) eqn:Hb; [|done]. intros _. exists [a; b; c], s.
    pose proof Hb as [H1%second_continuation H2]%andb_prop.
    split_and!; [done|done|done|apply no_starts; by repeat constructor|]. intros rest'. cbn. by rewrite E1, E2, E3, Hb. }
  destruct (N.leb 240 a && N.leb a 244) eqn:E4; [|done].
  destruct s as [|b [|c [|d s]]]; [done|done|done|]. destruct (second_ok a b && continuation c && continuation d) eqn:Hb; [|done]. intros _.
  pose proof Hb as [[H1%second_continuation H2]%andb_prop H3]%andb_prop. exists [a; b; c; d], s.
  split_and!; [done|done|done|apply no_starts; by repeat constructor|]. intros rest'. cbn. by rewrite E1, E2, E3, E4, Hb.
Qed.

Lemma utf8_runes_more fuel fuel' s : utf8_runes fuel s → (length s ≤ fuel')%nat → utf8_runes fuel' s.
Proof.
  revert fuel' s. induction fuel as [|fuel IH]; intros fuel' s; destruct s as [|a s]; cbn [utf8_runes]; [by destruct fuel'|done|by destruct fuel'|].
  intros [Hne Hr] Hf. destruct fuel' as [|fuel']; [cbn in Hf; lia|]. cbn [utf8_runes]. split; [done|]. apply IH; [done|].
  destruct (DecodeRune_width (a :: s)) as [Hw _]; [done|]. rewrite length_drop. cbn [length] in *. lia.
Qed.

Lemma utf8_Valid_app rune_bytes s :
  rune_bytes ≠ [] → DecodeRune (rune_bytes ++ s) ≠ (RuneError, 1%nat) → (DecodeRune (rune_bytes ++ s)).2 = length rune_bytes →
  utf8_Valid (rune_bytes ++ s) ↔ utf8_Valid s.
Proof.
  intros Hne Hd Hw. unfold utf8_Valid. destruct rune_bytes as [|a l]; [done|]. change (length ((a :: l) ++ s)) with (S (length (l ++ s))).
  change ((a :: l) ++ s) with (a :: (l ++ s)) in *. cbn [utf8_runes]. rewrite Hw. change (a :: l ++ s) with ((a :: l) ++ s). rewrite drop_app_length.
  split; [intros [_ Hv]; by eapply utf8_runes_more|intros Hv; split; [done|]]. eapply utf8_runes_more; [done|]. rewrite length_app. lia.
Qed.

(** A position at the start of a rune, or at the end, splits a well-formed text into two. *)
Lemma utf8_split fuel s k :
  utf8_runes fuel s → (k ≤ length s)%nat → (∀ b, s !! k = Some b → RuneStart b = true) → utf8_Valid (take k s) ∧ utf8_Valid (drop k s).
Proof.
  revert s k. induction fuel as [|fuel IH]; intros s k Hv Hk Hb.
  - destruct s; [|done]. by rewrite take_nil, drop_nil.
  - destruct (decide (s = [])) as [->|Hne]; [by rewrite take_nil, drop_nil|].
    destruct k as [|k]; [split; [done|]; eapply utf8_runes_more; [exact Hv|done]|].
    assert (DecodeRune s ≠ (RuneError, 1%nat) ∧ utf8_runes fuel (drop (DecodeRune s).2 s)) as [Hd Hr] by (by destruct s).
    destruct (DecodeRune_split s Hne Hd) as (l & rest & -> & Hw & Hl & Hin & Hdec). rewrite Hw, drop_app_length in Hr.
    destruct (decide (S k < length l)%nat) as [Hlt|Hge].
    { destruct (l !! S k) as [b|] eqn:E; [|apply lookup_ge_None in E; lia]. specialize (Hb b ltac:(by apply lookup_app_l_Some)).
      rewrite (Hin (S k) b ltac:(lia) E) in Hb. done. }
    rewrite take_app, drop_app, (take_ge l), (drop_ge l) by lia. rewrite length_app in Hk.
    destruct (IH rest (S k - length l)%nat Hr) as [H1 H2]; [lia| |].
    { intros b E. apply Hb. rewrite lookup_app_r by lia. done. }
    split; [|done]. apply utf8_Valid_app; [done|by rewrite Hdec|by rewrite Hdec|done].
Qed.

Lemma rune_start_before_start content limit b :
  rune_start_before content limit ≠ 0%nat → content !! rune_start_before content limit = Some b → RuneStart b = true.
Proof.
  induction limit as [|limit IH]; cbn [rune_start_before]; [done|]. destruct (RuneStart (default 0%N (content !! S limit))) eqn:E; [|done].
  intros _ Hb. by rewrite Hb in E.
Qed.

Lemma boundary_splits content limit :
  content ≠ [] → utf8_Valid (byte <$> content) →
  utf8_Valid (byte <$> take (conversationChunkBoundary content limit) content) ∧ utf8_Valid (byte <$> drop (conversationChunkBoundary content limit) content).
Proof.
  intros Hne Hv. rewrite fmap_take, fmap_drop. unfold conversationChunkBoundary. destruct (Nat.leb_spec (length content) limit) as [Hle|Hgt].
  - eapply utf8_split; [exact Hv|by rewrite length_fmap|]. intros b Hb%lookup_lt_Some. rewrite length_fmap in Hb. lia.
  - pose proof (rune_start_before_le (byte <$> content) limit) as Hb. destruct (rune_start_before _ limit) as [|k] eqn:E.
    + assert (byte <$> content ≠ []) as Hne' by (by destruct content). unfold utf8_Valid in Hv.
      destruct (byte <$> content) as [|a s] eqn:Es; [done|]. cbn [length utf8_runes] in Hv. destruct Hv as [Hd Hr].
      destruct (DecodeRune_split (a :: s) Hne' Hd) as (l & rest & El & Hw & Hl & _ & Hdec). rewrite Hw in Hr |- *. rewrite El in Hr |- *.
      rewrite drop_app_length in Hr |- *. rewrite take_app_length. split; [|by eapply utf8_runes_more].
      rewrite <-(app_nil_r l). apply utf8_Valid_app; [done|by rewrite Hdec|by rewrite Hdec|done].
    + rewrite <-E in *. eapply utf8_split; [exact Hv|rewrite length_fmap; lia|]. intros b. apply rune_start_before_start. lia.
Qed.

Lemma chunk_loop_utf8 fuel limit content :
  utf8_Valid (byte <$> content) → Forall (λ chunk, utf8_Valid (byte <$> chunk)) (chunk_loop fuel limit content).
Proof.
  revert content. induction fuel as [|fuel IH]; intros content Hv; [by destruct content|]. destruct content as [|c content]; [done|]. cbn [chunk_loop].
  destruct (boundary_splits (c :: content) limit) as [H1 H2]; [done|done|]. constructor; [done|by apply IH].
Qed.

Lemma utf8_Valid_concat s s' : utf8_Valid s → utf8_Valid s' → utf8_Valid (s ++ s').
Proof.
  unfold utf8_Valid at 1. generalize (length s) as fuel. intros fuel. revert s. induction fuel as [|fuel IH]; intros s Hv Hv'; [by destruct s|].
  destruct (decide (s = [])) as [->|Hne]; [done|].
  assert (DecodeRune s ≠ (RuneError, 1%nat) ∧ utf8_runes fuel (drop (DecodeRune s).2 s)) as [Hd Hr] by (by destruct s).
  destruct (DecodeRune_split s Hne Hd) as (l & rest & -> & Hw & Hl & _ & Hdec). rewrite Hw, drop_app_length in Hr. rewrite <-app_assoc.
  apply utf8_Valid_app; [done|by rewrite Hdec|by rewrite Hdec|by apply IH].
Qed.

Abbreviation bytes_of s := (byte <$> chars s).

Lemma chars_app (a b : string) : chars (a +:+ b) = chars a ++ chars b.
Proof. induction a as [|c a IH]; [done|]. change (c :: chars (a +:+ b) = c :: chars a ++ chars b). by rewrite IH. Qed.

Lemma chars_text_of l : chars (text_of l) = l.
Proof. apply String.list_ascii_of_string_of_list_ascii. Qed.

Lemma ellipsis_utf8 : utf8_Valid (bytes_of ellipsis).
Proof. vm_compute. split; [discriminate|exact I]. Qed.

Lemma conversationContent_utf8 previewBytes message :
  utf8_Valid (bytes_of (msg_Content message)) → utf8_Valid (bytes_of (conversationContent previewBytes message)).
Proof.
  intros Hv. unfold conversationContent. destruct (_ || _) eqn:E; [done|]. rewrite chars_app, chars_text_of, fmap_app. apply utf8_Valid_concat; [|apply ellipsis_utf8].
  destruct (decide (chars (msg_Content message) = [])) as [->|Hne]; [by rewrite take_nil|]. by apply boundary_splits.
Qed.

Lemma message_chunks_bounds chunkBytes previewBytes message :
  4 ≤ chunkBytes →
  Forall (λ chunk, Z.of_nat (length (chars (cvm_Content chunk))) ≤ chunkBytes ∧
    (utf8_Valid (bytes_of (msg_Content message)) → utf8_Valid (bytes_of (cvm_Content chunk)))) (message_chunks chunkBytes previewBytes message).
Proof.
  intros H4. unfold message_chunks. destruct (negb _); [by apply Forall_nil|]. set (text := chars (conversationContent previewBytes message)).
  destruct (chunk_loop_spec (length text) (Z.to_nat chunkBytes) text) as [_ Hall]; [lia|done|].
  assert (Forall (λ chunk, Z.of_nat (length chunk) ≤ chunkBytes ∧ (utf8_Valid (bytes_of (msg_Content message)) → utf8_Valid (byte <$> chunk)))
    (chunk_loop (length text) (Z.to_nat chunkBytes) text)) as Hc.
  { rewrite Forall_forall in Hall |- *. intros chunk Hin. split; [specialize (Hall _ Hin) as [_ Hl]; specialize (Hl ltac:(lia)); lia|].
    intros Hv. pose proof (chunk_loop_utf8 (length text) (Z.to_nat chunkBytes) text (conversationContent_utf8 previewBytes _ Hv)) as Hu.
    rewrite Forall_forall in Hu. by apply Hu. }
  destruct (chunk_loop _ _ _) as [|first rest].
  - destruct (_ && _); [by apply Forall_nil|]. apply Forall_singleton. cbn. split; [lia|done].
  - apply Forall_cons in Hc as [Hf Hr]. constructor; [by rewrite <-(chars_text_of first) in Hf|]. apply Forall_fmap. eapply Forall_impl; [exact Hr|].
    intros chunk Hk. by rewrite <-(chars_text_of chunk) in Hk.
Qed.

(** C31. The chunks of a conversation lose nothing: joining the continuations gives back the messages that a
    conversation shows, in their order, with their contents (of long tool results the preview), tool calls and
    flags; no chunk is longer than a chunk may be, and no chunk of a well-formed message cuts a rune. *)
Theorem conversation_chunks_roundtrip messages :
  join_chunks (conversationChunks messages) = ("", omap (shown_message conversationToolPreviewBytes) messages) ∧
  Forall (λ chunk, Z.of_nat (length (chars (cvm_Content chunk))) ≤ conversationChunkBytes) (conversationChunks messages) ∧
  (Forall (λ message, utf8_Valid (bytes_of (msg_Content message))) messages →
   Forall (λ chunk, utf8_Valid (bytes_of (cvm_Content chunk))) (conversationChunks messages)).
Proof.
  unfold conversationChunks, conversation_chunks. induction messages as [|message messages (IH1 & IH2 & IH3)]; [done|]. cbn [mbind list_bind omap list_omap].
  pose proof (message_chunks_bounds conversationChunkBytes conversationToolPreviewBytes message ltac:(done)) as Hm. split_and!.
  - rewrite join_chunks_app, IH1, join_message by done. by destruct (shown_message _ _).
  - apply Forall_app. split; [|done]. eapply Forall_impl; [exact Hm|]. by intros chunk [? _].
  - intros [Hv Hvs]%Forall_cons. apply Forall_app. split; [|by apply IH3]. eapply Forall_impl; [exact Hm|]. intros chunk [_ Hu]. by apply Hu.
Qed.

(** ** Pages give back the items *)

Section read.
Context {A : Type} (marshal_item : A → result string) (maxBytes : Z) (Hmarshal : ∀ item, is_Ok (marshal_item item)).

Lemma page_items_spec limit l items pageBytes :
  ∃ n, page_items marshal_item maxBytes limit l items pageBytes = Ok (items ++ take n l) ∧
    (items = [] → 1 ≤ limit → l ≠ [] → (1 ≤ n)%nat) ∧ (n ≤ length l)%nat.
Proof using Hmarshal.
  revert items pageBytes. induction l as [|item l IH]; intros items pageBytes; cbn [page_items].
  { exists 0%nat. rewrite app_nil_r. done. }
  destruct (limit <=? Z.of_nat (length items)) eqn:Hl.
  { exists 0%nat. rewrite app_nil_r. split_and!; [done| |lia]. intros -> ? _. apply Z.leb_le in Hl. cbn in Hl. lia. }
  destruct (Hmarshal item) as [encoded ->]. cbn [result_bind].
  destruct ((0 <? Z.of_nat (length items)) && _) eqn:Hs.
  { exists 0%nat. rewrite app_nil_r. split_and!; [done| |lia]. by intros -> _ _. }
  destruct (IH (items ++ [item]) (pageBytes + Z.of_nat (String.length encoded))) as (n & -> & _ & Hn). exists (S n). rewrite <-app_assoc. cbn.
  split_and!; [done|lia|lia].
Qed.

(** A client that follows the cursors of pages. *)
Fixpoint read_pages (page : Z → result (list A * Z)) (fuel : nat) (after : Z) : result (list A) :=
  match fuel with
  | O => Err (errors_New "pages left")
  | S fuel =>
      let? '(items, next) := page after in
      if next =? 0 then Ok items else
      let? rest := read_pages page fuel next in
      Ok (items ++ rest)
  end.

Lemma read_pages_from page fuel l limit after :
  (∀ after, page after = item_page marshal_item maxBytes l after limit) →
  1 ≤ limit → Z.of_nat (length l) < two64 → 0 ≤ after ≤ Z.of_nat (length l) → Z.of_nat (length l) - after < Z.of_nat fuel →
  read_pages page fuel after = Ok (drop (Z.to_nat after) l).
Proof using Hmarshal.
  intros Hp Hl Ht. revert after. induction fuel as [|fuel IH]; intros after Ha Hf; [lia|]. cbn [read_pages]. rewrite Hp. unfold item_page.
  destruct (Z.leb_spec (Z.of_nat (length l)) after) as [Hle|Hgt].
  - cbn. rewrite drop_ge by lia. done.
  - destruct (page_items_spec limit (drop (Z.to_nat after) l) [] 0) as (n & -> & Hn1 & Hn2).
    rewrite length_drop in Hn2. assert (1 ≤ n)%nat as Hn.
    { apply Hn1; [done|lia|]. intros E. apply (f_equal length) in E. rewrite length_drop in E. cbn in E. lia. }
    cbn [result_bind app]. rewrite length_take, length_drop, Nat.min_l by lia. rewrite u64_small by lia.
    destruct (Z.ltb_spec (after + Z.of_nat n) (Z.of_nat (length l))) as [Hlt|Hge].
    + rewrite (proj2 (Z.eqb_neq _ 0)) by lia. rewrite IH by lia. cbn [result_bind]. f_equal.
      replace (Z.to_nat (after + Z.of_nat n)) with (Z.to_nat after + n)%nat by lia. rewrite <-drop_drop. apply take_drop.
    + cbn. rewrite take_ge; [done|]. rewrite length_drop. lia.
Qed.
End read.

Definition conversation_page marshal_chunk head execution messages limit (after : Z) : result (list ConversationMessage * Z) :=
  let? page := projectConversationMessagesPage marshal_chunk head execution messages {| cq_After := after; cq_Limit := limit |} in
  Ok (cvp_Items page, cvp_Next page).

Lemma conversation_page_items marshal_chunk head execution messages limit after :
  1 ≤ limit ≤ maxConversationPageSize →
  conversation_page marshal_chunk head execution messages limit after =
  item_page marshal_chunk conversationPageBytes (conversationChunks messages) after limit.
Proof.
  intros Hl. unfold conversation_page, projectConversationMessagesPage, normalizeConversationQuery. cbn [cq_Limit cq_After]. rewrite (proj2 (Z.eqb_neq limit 0)) by lia.
  rewrite (proj2 (Z.ltb_ge limit 1)), (proj2 (Z.ltb_ge maxConversationPageSize limit)) by lia. cbn [orb result_bind cq_Limit cq_After].
  by destruct (item_page _ _ _ _ _) as [[items next]|].
Qed.

(** A client that follows the pages of a conversation to the end receives every chunk exactly once and in order,
    whatever the size of its pages; a page that is not past the end is never empty, so that the client gets on
    even when one chunk is larger than a page. *)
Theorem conversation_pages_complete marshal_chunk head execution messages limit :
  (∀ chunk, is_Ok (marshal_chunk chunk)) → 1 ≤ limit ≤ maxConversationPageSize → Z.of_nat (length (conversationChunks messages)) < two64 →
  read_pages (conversation_page marshal_chunk head execution messages limit) (S (length (conversationChunks messages))) 0 =
  Ok (conversationChunks messages).
Proof.
  intros Hm Hl Ht. rewrite (read_pages_from marshal_chunk conversationPageBytes Hm _ _ (conversationChunks messages) limit); [done| |lia|exact Ht|lia|lia].
  intros after. by apply conversation_page_items.
Qed.

Lemma summary_of_inspection entry : summarizeInspectedTrajectoryEntry (inspect_entry entry) = summarizeTrajectoryEntry entry.
Proof. done. Qed.

Definition entry_page marshal_entry trajectory limit (after : Z) : result (list TrajectoryEntrySummary * Z) :=
  let? page := projectTrajectoryEntryPage marshal_entry trajectory {| eq_After := after; eq_Limit := limit |} in
  Ok (tyg_Items page, tyg_Next page).

Lemma entry_page_items marshal_entry trajectory limit after branch :
  1 ≤ limit ≤ maxTrajectoryEntryPageSize → Trajectory_Branch trajectory (tj_Head trajectory) = Ok branch →
  entry_page marshal_entry trajectory limit after = item_page marshal_entry trajectoryEntryPageBytes (summarizeTrajectoryEntry <$> branch) after limit.
Proof.
  intros Hl Hb. unfold entry_page, projectTrajectoryEntryPage, projectInspectedTrajectoryEntryPage, normalizeTrajectoryEntryQuery. rewrite Hb. cbn [result_bind eq_Limit eq_After].
  rewrite (proj2 (Z.eqb_neq limit 0)) by lia. rewrite (proj2 (Z.ltb_ge limit 1)), (proj2 (Z.ltb_ge maxTrajectoryEntryPageSize limit)) by lia.
  cbn [orb result_bind eq_Limit eq_After]. rewrite <-list_fmap_compose.
  rewrite (list_fmap_ext _ summarizeTrajectoryEntry branch) by (intros; apply summary_of_inspection).
  by destruct (item_page _ _ _ _ _) as [[items next]|].
Qed.

(** A client that follows the pages of the entries of a trajectory receives the summary of every entry of the branch of
    its head exactly once, from the root to the head. *)
Theorem entry_pages_complete marshal_entry trajectory branch limit :
  (∀ summary, is_Ok (marshal_entry summary)) → Trajectory_Branch trajectory (tj_Head trajectory) = Ok branch →
  1 ≤ limit ≤ maxTrajectoryEntryPageSize → Z.of_nat (length branch) < two64 →
  read_pages (entry_page marshal_entry trajectory limit) (S (length branch)) 0 = Ok (summarizeTrajectoryEntry <$> branch).
Proof.
  intros Hm Hb Hl Ht. rewrite (read_pages_from marshal_entry trajectoryEntryPageBytes Hm _ _ (summarizeTrajectoryEntry <$> branch) limit);
    rewrite ?length_fmap; [done| |lia|exact Ht|lia|lia].
  intros after. by apply entry_page_items.
Qed.

Definition ex_talk : list Message :=
  [{| msg_Role := RoleUser; msg_Content := "hi"; msg_ToolCalls := None; msg_ToolCallID := ""; msg_IsError := false |};
   {| msg_Role := RoleSystem; msg_Content := "hidden"; msg_ToolCalls := None; msg_ToolCallID := ""; msg_IsError := false |};
   {| msg_Role := RoleAssistant; msg_Content := ""; msg_ToolCalls := Some [{| tc_ID := "c"; tc_Name := "read"; tc_Arguments := None |}]; msg_ToolCallID := ""; msg_IsError := false |}].

(** Chunks of four bytes, of a text whose runes take two. *)
Example ex_chunks : text_of <$> chunk_loop 7 4 (ascii_of_N <$> [97; 195; 164; 195; 182; 195; 188]%N) =
  text_of <$> [ascii_of_N <$> [97; 195; 164]%N; ascii_of_N <$> [195; 182; 195; 188]%N].
Proof. by vm_compute. Qed.

Lemma ex_talk_chunks : length (conversationChunks ex_talk) = 2%nat.
Proof. by vm_compute. Qed.

Lemma conversation_pages_complete_witness :
  read_pages (conversation_page (λ _, Ok "{}") "head" None ex_talk 1) (S (length (conversationChunks ex_talk))) 0 = Ok (conversationChunks ex_talk).
Proof.
  exact (conversation_pages_complete (λ _, Ok "{}") "head" None ex_talk 1 (λ _, ex_intro _ "{}" eq_refl) ltac:(unfold maxConversationPageSize; lia)
    ltac:(rewrite ex_talk_chunks; unfold two64; lia)).
Defined.
