(* ===== verification/GatewaySupervisor.v ===== *)
(** The dispatch of queued inputs, [gateway/input_supervisor.go], with the request handlers of [gateway/service.go]
    that start it: one goroutine per session takes the inputs of its queue to executions of the backend, while
    requests enqueue, pause and resume.  Every call of a store or of the backend is one step of its goroutine. *)

From S2P Require Import Prelude GoText Names Sha256 Message ContextInjection Delivery Trajectory Agent Registrar Composition EventDispatch Payload SessionState PromptHost Paging Base64 Registry GatewayEvent GatewayInput GatewayInteraction GatewayPermission GatewaySession.
Import Utf8.

Definition GatewayEventInputQueued : string := "gateway_input_queued".
Definition GatewayEventInputDispatching : string := "gateway_input_dispatching".
Definition GatewayEventInputStarted : string := "gateway_input_started".
Definition GatewayEventInputCompleted : string := "gateway_input_completed".
Definition GatewayEventSessionPaused : string := "gateway_session_paused".
Definition GatewayEventSessionResumed : string := "gateway_session_resumed".
Definition GatewayEventSessionUpdated : string := "gateway_session_updated".

(** ** The execution backend *)

Record Execution := {
  xe_SessionID : string;
  xe_Execution : TrajectoryExecution;
  xe_Result : option Result;
}.

(** The interface [ExecutionBackend]: [B] is the state behind it. *)
Class ExecutionBackend (B : Type) := {
  xb_CreateSession : B → context → gateway_Session → result unit * B;
  xb_Submit : B → context → gateway_Session → string → result Execution * B;
  xb_EnqueueContextInjection : B → context → gateway_Session → string → ContextInjection → result Execution * B;
  xb_Recover : B → context → gateway_Session → result Execution * B;
  xb_Current : B → context → gateway_Session → result Execution;
  xb_Get : B → context → gateway_Session → string → result Execution;
  xb_Cancel : B → context → gateway_Session → string → result Execution * B;
}.

(** ** The state *)

Record gateway_world (B : Type) := {
  gw_sessions : memorySessionStore;
  gw_inputs : memoryInputStore;
  gw_interactions : memoryInteractionStore;
  gw_events : memoryEventStore;
  gw_backend : B;
  (* the context and the runners of the supervisor, and the draining flag of the service *)
  gw_ctx : context;
  gw_runners : gset string;
  gw_draining : bool;
}.
Arguments gw_sessions {B}.
Arguments gw_inputs {B}.
Arguments gw_interactions {B}.
Arguments gw_events {B}.
Arguments gw_backend {B}.
Arguments gw_ctx {B}.
Arguments gw_runners {B}.
Arguments gw_draining {B}.

(** A goroutine of [run], at its next call. *)
Inductive runner_phase :=
  | RunLoad
  | RunAcquire (session : gateway_Session)
  | RunProcess (session : gateway_Session) (acquired : AcquiredInput)
  | RunBoundary (session : gateway_Session) (input : AgentInput) (recoverUnbound : bool)
  | RunLatest (session : gateway_Session) (input : AgentInput)
  | RunSubmit (session : gateway_Session) (input : AgentInput)
  | RunBind (session : gateway_Session) (input : AgentInput) (executionID : string)
  | RunAwait (session : gateway_Session) (input : AgentInput) (executionID : string)
  | RunComplete (input : AgentInput) (state : AgentInputState) (lastError : string)
  | RunFail (input : AgentInput) (cause : error)
  | RunReturned
  | RunRemove
  | RunGone.

Record session_runner := { rr_session : string; rr_phase : runner_phase }.

Section supervisor.
Context {B : Type} `{!ExecutionBackend B} `{!GatewayJSON}.
(** [json.Marshal] on inputs and sessions, and [err.Error()]. *)
Context (marshal_input : AgentInput → result string) (marshal_session : gateway_Session → result string) (error_text : error → string).

Definition set_sessions (w : gateway_world B) (sessions : memorySessionStore) : gateway_world B :=
  {| gw_sessions := sessions; gw_inputs := gw_inputs w; gw_interactions := gw_interactions w; gw_events := gw_events w;
     gw_backend := gw_backend w; gw_ctx := gw_ctx w; gw_runners := gw_runners w; gw_draining := gw_draining w |}.
Definition set_inputs (w : gateway_world B) (inputs : memoryInputStore) : gateway_world B :=
  {| gw_sessions := gw_sessions w; gw_inputs := inputs; gw_interactions := gw_interactions w; gw_events := gw_events w;
     gw_backend := gw_backend w; gw_ctx := gw_ctx w; gw_runners := gw_runners w; gw_draining := gw_draining w |}.
Definition set_events (w : gateway_world B) (events : memoryEventStore) : gateway_world B :=
  {| gw_sessions := gw_sessions w; gw_inputs := gw_inputs w; gw_interactions := gw_interactions w; gw_events := events;
     gw_backend := gw_backend w; gw_ctx := gw_ctx w; gw_runners := gw_runners w; gw_draining := gw_draining w |}.
Definition set_backend (w : gateway_world B) (backend : B) : gateway_world B :=
  {| gw_sessions := gw_sessions w; gw_inputs := gw_inputs w; gw_interactions := gw_interactions w; gw_events := gw_events w;
     gw_backend := backend; gw_ctx := gw_ctx w; gw_runners := gw_runners w; gw_draining := gw_draining w |}.
Definition set_runners (w : gateway_world B) (runners : gset string) : gateway_world B :=
  {| gw_sessions := gw_sessions w; gw_inputs := gw_inputs w; gw_interactions := gw_interactions w; gw_events := gw_events w;
     gw_backend := gw_backend w; gw_ctx := gw_ctx w; gw_runners := runners; gw_draining := gw_draining w |}.

(** [emit] and [managerEvent]. *)
Definition supervisor_emit (w : gateway_world B) (sessionID name : string) (payload : result string) (now : time) : gateway_world B :=
  match payload with
  | Err _ => w
  | Ok raw =>
      match estore_Append (gw_events w) (gw_ctx w) sessionID
              {| ev_ID := managerEventID name raw; ev_Name := name; ev_SessionID := sessionID; ev_Generation := 0; ev_Payload := raw |} now with
      | Ok (_, events) => set_events w events
      | Err _ => w
      end
  end.

(** [schedule]: the state and the goroutine it starts, if any. *)
Definition supervisor_schedule (w : gateway_world B) (sessionID : string) : gateway_world B * list session_runner :=
  match gw_ctx w with
  | Some _ => (w, [])
  | None =>
      if bool_decide (sessionID ∈ gw_runners w) then (w, [])
      else (set_runners w ({[sessionID]} ∪ gw_runners w), [{| rr_session := sessionID; rr_phase := RunLoad |}])
  end.

Definition removeRunner (w : gateway_world B) (sessionID : string) : gateway_world B := set_runners w (gw_runners w ∖ {[sessionID]}).

(** [wait] returns the error of the context once it is cancelled; [tick] is the timer winning the race against it. *)
Definition wait_or (w : gateway_world B) (tick : bool) (continue stop : runner_phase) : runner_phase :=
  match gw_ctx w with Some _ => if tick then continue else stop | None => continue end.

Definition completed_state (execution : TrajectoryExecution) : AgentInputState :=
  match ex_State execution with
  | TrajectoryExecutionFailed => AgentInputFailed
  | TrajectoryExecutionCancelled => AgentInputCancelled
  | _ => AgentInputSucceeded
  end.

(** [Complete] with its event, at the end of [awaitAndComplete] and of [failInput]. *)
Definition complete_input (w : gateway_world B) (input : AgentInput) (state : AgentInputState) (lastError : string) (now : time)
    : gateway_world B :=
  match istore_Complete (gw_inputs w) (gw_ctx w) (ai_SessionID input) (ai_ID input) state lastError now with
  | Err _ => w
  | Ok (completed, inputs) =>
      supervisor_emit (set_inputs w inputs) (ai_SessionID input) GatewayEventInputCompleted (marshal_input completed) now
  end.

(** One call of [run], of [process] and of the loops it calls. *)
Definition run_step (w : gateway_world B) (sessionID : string) (now : time) (tick : bool) (phase : runner_phase) : gateway_world B * runner_phase :=
  match phase with
  | RunLoad =>
      match sstore_Get (gw_sessions w) (gw_ctx w) sessionID with
      | Err _ => (w, RunRemove)
      | Ok session => (w, if gs_Paused session then RunRemove else RunAcquire session)
      end
  | RunAcquire session =>
      match istore_AcquireNext (gw_inputs w) (gw_ctx w) sessionID now with
      | Err _ | Ok (None, _) => (removeRunner w sessionID, RunGone)
      | Ok (Some acquired, inputs) =>
          (supervisor_emit (set_inputs w inputs) sessionID GatewayEventInputDispatching (marshal_input (aq_Input acquired)) now,
           RunProcess session acquired)
      end
  | RunProcess session acquired =>
      let input := aq_Input acquired in
      (w, if aq_Resumed acquired && negb (is_empty (ai_ExecutionID input)) then RunAwait session input (ai_ExecutionID input)
          else RunBoundary session input (aq_Resumed acquired && is_empty (ai_ExecutionID input)))
  | RunBoundary session input recoverUnbound =>
      (* [waitForDispatchBoundary]; [failInput] of the error of a wait returns the error of the context *)
      match xb_Current (gw_backend w) (gw_ctx w) session with
      | Err err =>
          (w, if errors_Is err GatewayErrExecutionNotFound then RunLatest session input else wait_or w tick phase RunReturned)
      | Ok current =>
          let execution := xe_Execution current in
          (w, if recoverUnbound && negb (Before (ex_CreatedAt execution) (ai_UpdatedAt input)) then RunBind session input (ex_ID execution)
              else if Execution_Terminal execution then RunLatest session input
              else wait_or w tick phase RunReturned)
      end
  | RunLatest session input =>
      match sstore_Get (gw_sessions w) (gw_ctx w) (gs_ID session) with
      | Err err => (w, RunFail input err)
      | Ok latest => (w, if gs_Paused latest then RunRemove else RunSubmit latest input)
      end
  | RunSubmit session input =>
      match xb_Submit (gw_backend w) (gw_ctx w) session (ai_Content input) with
      | (Err err, backend) => (set_backend w backend, RunFail input err)
      | (Ok submitted, backend) => (set_backend w backend, RunBind session input (ex_ID (xe_Execution submitted)))
      end
  | RunBind session input executionID =>
      match istore_BindExecution (gw_inputs w) (gw_ctx w) (ai_SessionID input) (ai_ID input) executionID now with
      | Err _ => (w, RunReturned)
      | Ok (bound, inputs) =>
          (supervisor_emit (set_inputs w inputs) (ai_SessionID input) GatewayEventInputStarted (marshal_input bound) now,
           RunAwait session bound executionID)
      end
  | RunAwait session input executionID =>
      match xb_Get (gw_backend w) (gw_ctx w) session executionID with
      | Ok current =>
          let execution := xe_Execution current in
          (w, if Execution_Terminal execution then RunComplete input (completed_state execution) (ex_LastError execution)
              else wait_or w tick phase RunReturned)
      | Err _ => (w, wait_or w tick phase RunReturned)
      end
  | RunComplete input state lastError => (complete_input w input state lastError now, RunReturned)
  | RunFail input cause =>
      match gw_ctx w with
      | Some _ => (w, RunReturned)
      | None => (complete_input w input AgentInputFailed (error_text cause) now, RunReturned)
      end
  | RunReturned => (w, match gw_ctx w with Some _ => RunRemove | None => RunLoad end)
  | RunRemove => (removeRunner w sessionID, RunGone)
  | RunGone => (w, RunGone)
  end.

(** ** Requests *)

Definition forbidden (sessionID : string) : error := Wrapf "%w: %s" [AStr sessionID] (Sentinel ErrForbidden).

Definition ownedSession (w : gateway_world B) (ctx : context) (userID sessionID : string) : result gateway_Session :=
  let? session := sstore_Get (gw_sessions w) ctx sessionID in
  match normalizeUserID userID with
  | Err _ => Err (forbidden sessionID)
  | Ok userID => fail_if negb (bool_decide (gs_UserID session = userID)) with forbidden sessionID; Ok session
  end.

Definition gateway_invalid (err : error) : error := Wrapf "%w: %v" [AStr (error_text err)] (Sentinel GatewayErrInvalidRequest).

Definition for_session (input : AgentInput) (sessionID : string) : AgentInput :=
  {| ai_ID := ai_ID input; ai_SessionID := sessionID; ai_Sequence := ai_Sequence input; ai_Kind := ai_Kind input;
     ai_Content := ai_Content input; ai_State := ai_State input; ai_ExecutionID := ai_ExecutionID input;
     ai_LastError := ai_LastError input; ai_Revision := ai_Revision input; ai_CreatedAt := ai_CreatedAt input; ai_UpdatedAt := ai_UpdatedAt input |}.

Definition queuedInputEvent (input : AgentInput) : AgentInput :=
  {| ai_ID := ai_ID input; ai_SessionID := ai_SessionID input; ai_Sequence := ai_Sequence input; ai_Kind := ai_Kind input;
     ai_Content := ai_Content input; ai_State := AgentInputQueued; ai_ExecutionID := ""; ai_LastError := ""; ai_Revision := 1;
     ai_CreatedAt := ai_CreatedAt input; ai_UpdatedAt := ai_CreatedAt input |}.

(** [EnqueueInput] after [ownedSession] and before [schedule]. *)
Definition enqueue_input (w : gateway_world B) (ctx : context) (session : gateway_Session) (input : AgentInput) (e : entropy) (now : time)
    : result AgentInput * gateway_world B :=
  match normalizeAgentInput (for_session input (gs_ID session)) e with
  | Err err => (Err (gateway_invalid err), w)
  | Ok input =>
      match istore_Enqueue (gw_inputs w) ctx input e now with
      | Err err => (Err err, w)
      | Ok (input, inputs) =>
          (Ok input, supervisor_emit (set_inputs w inputs) (gs_ID session) GatewayEventInputQueued (marshal_input (queuedInputEvent input)) now)
      end
  end.

Definition set_paused (session : gateway_Session) (paused : bool) : gateway_Session :=
  {| gs_ID := gs_ID session; gs_UserID := gs_UserID session; gs_Title := gs_Title session; gs_Provider := gs_Provider session;
     gs_Model := gs_Model session; gs_Models := gs_Models session; gs_Tools := gs_Tools session; gs_System := gs_System session;
     gs_MaxTurns := gs_MaxTurns session; gs_WorkspaceRoot := gs_WorkspaceRoot session; gs_RuntimeConfig := gs_RuntimeConfig session;
     gs_AutoCompact := gs_AutoCompact session; gs_ThinkingLevel := gs_ThinkingLevel session; gs_Permissions := gs_Permissions session;
     gs_Paused := paused; gs_Revision := gs_Revision session; gs_Plugins := gs_Plugins session; gs_CreatedAt := gs_CreatedAt session;
     gs_UpdatedAt := gs_UpdatedAt session |}.

Context (url_Parse : string → result URL) (ToLower : rune → rune).

(** [SetSessionPaused] after [ownedSession] and before [schedule]: the session, and whether it was saved. *)
Definition save_paused (w : gateway_world B) (ctx : context) (session : gateway_Session) (paused : bool) (expectedRevision : Z) (now : time)
    : result (gateway_Session * bool) * gateway_world B :=
  if negb (gs_Revision session =? expectedRevision) then (Err (session_conflict session expectedRevision), w) else
  if Bool.eqb (gs_Paused session) paused then (Ok (session, false), w) else
  match sstore_Save url_Parse ToLower (gw_sessions w) ctx (set_paused session paused) expectedRevision now with
  | Err err => (Err err, w)
  | Ok (updated, sessions) => (Ok (updated, true), set_sessions w sessions)
  end.

(** The requests whose steps interleave with the runners; their contexts are not cancelled. *)
Inductive gateway_call :=
  | CallEnqueue (userID sessionID : string) (input : AgentInput)
  | CallEnqueueOn (session : gateway_Session) (input : AgentInput)
  | CallPause (userID sessionID : string) (paused : bool) (expectedRevision : Z)
  | CallPauseOn (session : gateway_Session) (paused : bool) (expectedRevision : Z)
  | CallSchedule (sessionID : string) (event : option (string * result string))
  | CallDone.

Definition emit_option (w : gateway_world B) (sessionID : string) (event : option (string * result string)) (now : time) : gateway_world B :=
  match event with Some (name, payload) => supervisor_emit w sessionID name payload now | None => w end.

Definition call_step (w : gateway_world B) (call : gateway_call) (e : entropy) (now : time) : gateway_world B * gateway_call * list session_runner :=
  match call with
  | CallEnqueue userID sessionID input =>
      if gw_draining w then (w, CallDone, []) else
      match ownedSession w None userID sessionID with
      | Err _ => (w, CallDone, [])
      | Ok session => (w, CallEnqueueOn session input, [])
      end
  | CallEnqueueOn session input =>
      match enqueue_input w None session input e now with
      | (Err _, w) => (w, CallDone, [])
      | (Ok _, w) => (w, if gs_Paused session then CallDone else CallSchedule (gs_ID session) None, [])
      end
  | CallPause userID sessionID paused expectedRevision =>
      match ownedSession w None userID sessionID with
      | Err _ => (w, CallDone, [])
      | Ok session => (w, CallPauseOn session paused expectedRevision, [])
      end
  | CallPauseOn session paused expectedRevision =>
      match save_paused w None session paused expectedRevision now with
      | (Ok (updated, true), w) =>
          if paused then (supervisor_emit w (gs_ID session) GatewayEventSessionPaused (marshal_session updated) now, CallDone, [])
          else (w, CallSchedule (gs_ID session) (Some (GatewayEventSessionResumed, marshal_session updated)), [])
      | (_, w) => (w, CallDone, [])
      end
  | CallSchedule sessionID event =>
      let '(w, started) := supervisor_schedule w sessionID in
      (emit_option w sessionID event now, CallDone, started)
  | CallDone => (w, CallDone, [])
  end.

(** ** Interleavings

    The runners and the requests, the executions of the backend as they proceed, the other changes of sessions, the
    cancellation of queued inputs, the sessions that [recover] schedules, and the end of the supervisor. *)
Context (backend_moves : B → B → Prop).

Definition gateway_state : Type := gateway_world B * list session_runner * list gateway_call.

(** A session is saved with the [Paused] flag it has: only [SetSessionPaused] changes that one. *)
Inductive session_change : memorySessionStore → memorySessionStore → Prop :=
  | sc_create st ctx session now created st' :
      sstore_Create url_Parse ToLower st ctx session now = Ok (created, st') → session_change st st'
  | sc_save st ctx session revision now saved st' :
      (∀ stored, ms_sessions st !! gs_ID session = Some stored → gs_Paused stored = gs_Paused session) →
      sstore_Save url_Parse ToLower st ctx session revision now = Ok (saved, st') → session_change st st'
  | sc_delete st ctx id revision st' : sstore_Delete st ctx id revision = Ok st' → session_change st st'.

Inductive gateway_step : gateway_state → gateway_state → Prop :=
  | gw_run w rs cs k r now tick w' phase :
      rs !! k = Some r → 0 < now → run_step w (rr_session r) now tick (rr_phase r) = (w', phase) →
      gateway_step (w, rs, cs) (w', <[k := {| rr_session := rr_session r; rr_phase := phase |}]> rs, cs)
  | gw_request_enqueue w rs cs userID sessionID input : gateway_step (w, rs, cs) (w, rs, cs ++ [CallEnqueue userID sessionID input])
  | gw_request_pause w rs cs userID sessionID paused revision :
      gateway_step (w, rs, cs) (w, rs, cs ++ [CallPause userID sessionID paused revision])
  | gw_recover w rs cs id session :
      ms_sessions (gw_sessions w) !! id = Some session → gs_Paused session = false →
      gateway_step (w, rs, cs) (w, rs, cs ++ [CallSchedule (gs_ID session) None])
  | gw_call w rs cs k call e now w' call' started :
      cs !! k = Some call → 0 < now → call_step w call e now = (w', call', started) →
      gateway_step (w, rs, cs) (w', rs ++ started, <[k := call']> cs)
  | gw_execution w rs cs backend : backend_moves (gw_backend w) backend → gateway_step (w, rs, cs) (set_backend w backend, rs, cs)
  | gw_session w rs cs sessions : session_change (gw_sessions w) sessions → gateway_step (w, rs, cs) (set_sessions w sessions, rs, cs)
  | gw_cancel_input w rs cs ctx sessionID inputID revision now input inputs :
      0 < now → istore_CancelQueued (gw_inputs w) ctx sessionID inputID revision now = Ok (input, inputs) →
      gateway_step (w, rs, cs) (set_inputs w inputs, rs, cs)
  | gw_end w rs cs : gateway_step (w, rs, cs)
      ({| gw_sessions := gw_sessions w; gw_inputs := gw_inputs w; gw_interactions := gw_interactions w; gw_events := gw_events w;
          gw_backend := gw_backend w; gw_ctx := Some (Sentinel ContextCanceled); gw_runners := gw_runners w; gw_draining := gw_draining w |}, rs, cs).

Definition initial_world (backend : B) : gateway_world B :=
  {| gw_sessions := NewMemorySessionStore; gw_inputs := NewMemoryInputStore; gw_interactions := NewMemoryInteractionStore;
     gw_events := NewMemoryEventStore; gw_backend := backend; gw_ctx := None; gw_runners := ∅; gw_draining := false |}.
End supervisor.
