(* ===== verification/GatewaySupervisorProperties.v ===== *)
(** The dispatch of queued inputs: one runner per session, and no input is left without one unless its session is
    paused; what goes wrong around a pause. *)

From S2P Require Import Prelude GoText Names Sha256 Message ContextInjection Delivery Trajectory Agent Registrar Composition EventDispatch Payload SessionState PromptHost Paging Base64 Registry GatewayEvent GatewayEventProperties GatewayInput GatewayInputProperties GatewayInteraction GatewayPermission GatewaySession GatewaySessionProperties GatewaySupervisor.
Import Utf8.

(** ** Inputs that have not ended *)

Definition open_input (st : memoryInputStore) (id : string) : Prop :=
  ∃ i a, is_Inputs (mi_stream st id) !! i = Some a ∧ ¬ input_terminal a.

(** A change that adds no open input. *)
Record inputs_shrink (st st' : memoryInputStore) : Prop := {
  sh_ok : istore_ok st → istore_ok st';
  sh_closed : mi_closed st' = mi_closed st;
  sh_open : ∀ id, open_input st' id → open_input st id;
}.

Lemma inputs_shrink_refl st : inputs_shrink st st.
Proof. by split. Qed.

Lemma open_put st sessionID k a b id :
  is_Inputs (mi_stream st sessionID) !! k = Some a → ¬ input_terminal a →
  open_input (mi_put st sessionID (put_input (mi_stream st sessionID) k b)) id → open_input st id.
Proof.
  intros Hk Ha (i & x & Hx & Hnt). rewrite mi_stream_put in Hx. destruct (decide (id = sessionID)) as [->|]; [|by exists i, x].
  cbn in Hx. destruct (decide (i = k)) as [->|Hne]; [by exists k, a|]. rewrite list_lookup_insert_ne in Hx by done. by exists i, x.
Qed.

Lemma not_terminal_dispatching a : ai_State a = AgentInputDispatching → ¬ input_terminal a.
Proof. unfold input_terminal. by intros ->. Qed.
Lemma not_terminal_queued a : ai_State a = AgentInputQueued → ¬ input_terminal a.
Proof. unfold input_terminal. by intros ->. Qed.

(** The operations that change one input: the stream they return has it replaced, and it was open. *)
Definition replaces_open (stream stream' : inputStream) : Prop :=
  ∃ k a b, is_Inputs stream !! k = Some a ∧ ¬ input_terminal a ∧ stream' = put_input stream k b.

Lemma change_shrink st ctx sessionID change input st' :
  istore_change st ctx sessionID change = Ok (input, st') → (istore_ok st → istore_ok st') →
  (∀ stream' input', change (mi_stream st sessionID) = Ok (stream', input', true) → replaces_open (mi_stream st sessionID) stream') →
  inputs_shrink st st'.
Proof.
  unfold istore_change. intros (u & _ & H)%bind_Ok Hok Hc. destruct (mi_closed st) eqn:Hclosed; [done|].
  apply bind_Ok in H as ([[stream' input'] changed] & He & [= <- <-]). split; [done|by destruct changed|]. intros id. destruct changed; [|done].
  destruct (Hc _ _ He) as (k & a & b & Hk & Ha & ->). by apply open_put with a.
Qed.

Lemma bind_replaces stream inputID executionID now stream' input :
  bindAgentInputExecution stream inputID executionID now = Ok (stream', input, true) → replaces_open stream stream'.
Proof.
  unfold bindAgentInputExecution. intros (u & _ & H)%bind_Ok. destruct (list_find _ _) as [[k a]|] eqn:Hf; [|done].
  apply list_find_Some in Hf as (Hk & _). destruct (negb (bool_decide _)) eqn:Hs; [done|]. apply negb_false_iff, bool_decide_eq_true in Hs.
  destruct (bool_decide _); [done|]. destruct (negb (is_empty _)); [done|]. injection H as <- <-.
  exists k, a. eexists. split_and!; [done|by apply not_terminal_dispatching|done].
Qed.

Lemma complete_replaces stream inputID state lastError now stream' input :
  completeAgentInput stream inputID state lastError now = Ok (stream', input, true) → replaces_open stream stream'.
Proof.
  unfold completeAgentInput. destruct (negb (AgentInputState_Terminal _)); [done|]. destruct (list_find _ _) as [[k a]|] eqn:Hf; [|done].
  apply list_find_Some in Hf as (Hk & _). destruct (bool_decide _ && _); [done|]. destruct (negb (bool_decide _)) eqn:Hs; [done|].
  apply negb_false_iff, bool_decide_eq_true in Hs. intros [= <- <-]. exists k, a. eexists. split_and!; [done|by apply not_terminal_dispatching|done].
Qed.

Lemma cancel_replaces stream inputID revision now stream' input :
  cancelQueuedAgentInput stream inputID revision now = Ok (stream', input, true) → replaces_open stream stream'.
Proof.
  unfold cancelQueuedAgentInput. destruct (list_find _ _) as [[k a]|] eqn:Hf; [|done]. apply list_find_Some in Hf as (Hk & _).
  destruct (negb (_ =? _)); [done|]. destruct (bool_decide _); [done|]. destruct (negb (bool_decide _)) eqn:Hs; [done|].
  apply negb_false_iff, bool_decide_eq_true in Hs. intros [= <- <-]. exists k, a. eexists. split_and!; [done|by apply not_terminal_queued|done].
Qed.

Lemma acquire_shrink st ctx sessionID now acquired st' :
  0 < now → istore_AcquireNext st ctx sessionID now = Ok (acquired, st') → inputs_shrink st st'.
Proof.
  intros Hnow H. assert (istore_ok st → istore_ok st') as Hok by (intros Hok; by apply (acquire_ok _ _ _ _ _ _ Hok Hnow H)).
  apply istore_AcquireNext_inv in H as (sid & stream & changed & _ & _ & Ha & ->). split; [done|by destruct changed|].
  intros id. destruct changed; [|done]. unfold acquireAgentInput in Ha. apply bind_Ok in Ha as (d & _ & Ha).
  destruct (d ≫= _); [done|]. destruct (list_find _ _) as [[k a]|] eqn:Hf; [|done]. injection Ha as <- _.
  apply list_find_Some in Hf as (Hk & Hq & _). apply open_put with a; [done|by apply not_terminal_queued].
Qed.

Lemma bind_shrink st ctx sessionID inputID executionID now input st' :
  0 < now → istore_BindExecution st ctx sessionID inputID executionID now = Ok (input, st') → inputs_shrink st st'.
Proof.
  intros Hnow H. eapply change_shrink; [exact H|intros Hok; by apply (input_step_ok _ _ (in_bind _ _ _ _ _ _ _ _ Hnow H))|].
  intros stream' input'. apply bind_replaces.
Qed.

Lemma complete_shrink st ctx sessionID inputID state lastError now input st' :
  0 < now → istore_Complete st ctx sessionID inputID state lastError now = Ok (input, st') → inputs_shrink st st'.
Proof.
  intros Hnow H. eapply change_shrink; [exact H|intros Hok; by apply (input_step_ok _ _ (in_complete _ _ _ _ _ _ _ _ _ Hnow H))|].
  intros stream' input'. apply complete_replaces.
Qed.

Lemma cancel_shrink st ctx sessionID inputID revision now input st' :
  0 < now → istore_CancelQueued st ctx sessionID inputID revision now = Ok (input, st') → inputs_shrink st st'.
Proof.
  intros Hnow H. eapply change_shrink; [exact H|intros Hok; by apply (input_step_ok _ _ (in_cancel _ _ _ _ _ _ _ _ Hnow H))|].
  intros stream' input'. apply cancel_replaces.
Qed.

Section supervised.
Context {B : Type} `{!ExecutionBackend B} `{!GatewayJSON}.
Context (marshal_input : AgentInput → result string) (marshal_session : gateway_Session → result string) (error_text : error → string).
Context (url_Parse : string → result URL) (ToLower : rune → rune) (backend_moves : B → B → Prop).

Abbreviation g_run := (run_step (B := B) marshal_input error_text).
Abbreviation g_call := (call_step (B := B) marshal_input marshal_session error_text url_Parse ToLower).
Abbreviation g_step := (gateway_step (B := B) marshal_input marshal_session error_text url_Parse ToLower backend_moves).

(** ** What the steps leave alone *)

Lemma supervisor_emit_fields (w : gateway_world B) sessionID name payload now :
  let w' := supervisor_emit w sessionID name payload now in
  gw_sessions w' = gw_sessions w ∧ gw_inputs w' = gw_inputs w ∧ gw_ctx w' = gw_ctx w ∧ gw_runners w' = gw_runners w.
Proof. cbn zeta. unfold supervisor_emit. destruct payload; [|done]. by destruct (estore_Append _ _ _ _ _) as [[? ?]|]. Qed.

Lemma complete_input_fields (w : gateway_world B) input state lastError now :
  0 < now →
  let w' := complete_input marshal_input w input state lastError now in
  gw_sessions w' = gw_sessions w ∧ inputs_shrink (gw_inputs w) (gw_inputs w') ∧ gw_ctx w' = gw_ctx w ∧ gw_runners w' = gw_runners w.
Proof.
  intros Hnow. cbn zeta. unfold complete_input. destruct (istore_Complete _ _ _ _ _ _ _) as [[completed inputs]|] eqn:Hc.
  - destruct (supervisor_emit_fields (set_inputs w inputs) (ai_SessionID input) GatewayEventInputCompleted (marshal_input completed) now) as (-> & -> & -> & ->).
    cbn. split_and!; [done|by eapply complete_shrink|done|done].
  - split_and!; [done|apply inputs_shrink_refl|done|done].
Qed.

(** What a step of a runner does to the state, given what its call did to the inputs. *)
Definition runner_frame (id : string) (w w' : gateway_world B) (phase phase' : runner_phase) : Prop :=
  gw_sessions w' = gw_sessions w ∧ inputs_shrink (gw_inputs w) (gw_inputs w') ∧ gw_ctx w' = gw_ctx w ∧
  (phase' = RunGone → phase ≠ RunGone → gw_runners w' = gw_runners w ∖ {[id]}) ∧
  (phase' ≠ RunGone → gw_runners w' = gw_runners w) ∧ (phase = RunGone → w' = w ∧ phase' = RunGone).

Lemma frame_stay id w phase phase' : phase ≠ RunGone → phase' ≠ RunGone → runner_frame id w w phase phase'.
Proof. intros Hp Hp'. split_and!; auto using inputs_shrink_refl; congruence. Qed.

Lemma frame_backend id w backend phase phase' : phase ≠ RunGone → phase' ≠ RunGone → runner_frame id w (set_backend w backend) phase phase'.
Proof. intros Hp Hp'. split_and!; auto using inputs_shrink_refl; congruence. Qed.

Lemma frame_gone id w phase : phase ≠ RunGone → runner_frame id w (removeRunner w id) phase RunGone.
Proof. intros Hp. split_and!; auto using inputs_shrink_refl; congruence. Qed.

Lemma frame_emit id w inputs sessionID name payload now phase phase' :
  inputs_shrink (gw_inputs w) inputs → phase ≠ RunGone → phase' ≠ RunGone →
  runner_frame id w (supervisor_emit (set_inputs w inputs) sessionID name payload now) phase phase'.
Proof.
  intros Hs Hp Hp'. destruct (supervisor_emit_fields (set_inputs w inputs) sessionID name payload now) as (H1 & H2 & H3 & H4).
  unfold runner_frame. rewrite H1, H2, H3, H4. cbn. split_and!; try done; congruence.
Qed.

Lemma frame_complete id w input state lastError now phase :
  0 < now → phase ≠ RunGone → runner_frame id w (complete_input marshal_input w input state lastError now) phase RunReturned.
Proof. intros Hnow Hp. destruct (complete_input_fields w input state lastError now Hnow) as (H1 & H2 & H3 & H4). unfold runner_frame. rewrite H1, H3, H4. split_and!; try done; congruence. Qed.

Lemma wait_or_live (w : gateway_world B) tick continue stop : continue ≠ RunGone → stop ≠ RunGone → wait_or w tick continue stop ≠ RunGone.
Proof. unfold wait_or. by destruct (gw_ctx w), tick. Qed.

Lemma run_step_frame w id now tick phase w' phase' : 0 < now → g_run w id now tick phase = (w', phase') → runner_frame id w w' phase phase'.
Proof.
  intros Hnow. destruct phase as [|session|session acquired|session input recover|session input|session input|session input eid|session input eid|
    input state text|input cause| | |]; cbn [run_step]; intros Hr.
  - destruct (sstore_Get _ _ _) as [s|]; [destruct (gs_Paused s)|]; injection Hr as <- <-; by apply frame_stay.
  - destruct (istore_AcquireNext _ _ _ _) as [[[acquired|] inputs]|] eqn:Ha; injection Hr as <- <-; [|by apply frame_gone..].
    apply frame_emit; [by eapply acquire_shrink|done|done].
  - injection Hr as <- <-. apply frame_stay; [done|by destruct (_ && _)].
  - destruct (xb_Current _ _ _) as [current|err]; injection Hr as <- <-; (apply frame_stay; [done|]).
    + destruct (_ && _); [done|]. destruct (Execution_Terminal _); [done|by apply wait_or_live].
    + destruct (errors_Is _ _); [done|by apply wait_or_live].
  - destruct (sstore_Get _ _ _) as [s|]; [destruct (gs_Paused s)|]; injection Hr as <- <-; by apply frame_stay.
  - destruct (xb_Submit _ _ _ _) as [[submitted|err] backend]; injection Hr as <- <-; by apply frame_backend.
  - destruct (istore_BindExecution _ _ _ _ _ _) as [[bound inputs]|] eqn:Hb; injection Hr as <- <-; [|by apply frame_stay].
    apply frame_emit; [by eapply bind_shrink|done|done].
  - destruct (xb_Get _ _ _ _) as [current|]; injection Hr as <- <-; (apply frame_stay; [done|]); [|by apply wait_or_live].
    destruct (Execution_Terminal _); [done|by apply wait_or_live].
  - injection Hr as <- <-. by apply frame_complete.
  - destruct (gw_ctx w); injection Hr as <- <-; [by apply frame_stay|by apply frame_complete].
  - injection Hr as <- <-. apply frame_stay; [done|by destruct (gw_ctx w)].
  - injection Hr as <- <-. by apply frame_gone.
  - injection Hr as <- <-. split_and!; auto using inputs_shrink_refl; congruence.
Qed.

(** ** One runner per session *)

Definition live (phase : runner_phase) : bool := match phase with RunGone => false | _ => true end.
Definition live_on (id : string) (r : session_runner) : bool := String.eqb (rr_session r) id && live (rr_phase r).

Definition runners_ok (w : gateway_world B) (rs : list session_runner) : Prop :=
  ∀ id, countb (live_on id) rs = Z.b2z (bool_decide (id ∈ gw_runners w)).

Lemma live_true phase : phase ≠ RunGone ↔ live phase = true.
Proof. by destruct phase. Qed.

Lemma run_step_runners w rs k r now tick w' phase :
  rs !! k = Some r → 0 < now → g_run w (rr_session r) now tick (rr_phase r) = (w', phase) → runners_ok w rs →
  runners_ok w' (<[k := {| rr_session := rr_session r; rr_phase := phase |}]> rs).
Proof.
  intros Hk Hnow Hr Hok id. destruct (run_step_frame _ _ _ _ _ _ _ Hnow Hr) as (_ & _ & _ & Hgone & Hlive & Hstay).
  rewrite (countb_insert _ _ _ _ _ Hk), Hok. unfold live_on. cbn [rr_session rr_phase].
  destruct (live (rr_phase r)) eqn:Hl; [apply live_true in Hl|assert (rr_phase r = RunGone) as Hg by (by destruct (rr_phase r))].
  - destruct (live phase) eqn:Hl'; [apply live_true in Hl'; rewrite (Hlive Hl'); lia|].
    assert (phase = RunGone) as Hp by (by destruct phase). rewrite (Hgone Hp Hl), !andb_true_r, andb_false_r. cbn [Z.b2z].
    destruct (String.eqb (rr_session r) id) eqn:He; [apply String.eqb_eq in He as <-|apply String.eqb_neq in He].
    + rewrite (bool_decide_eq_false_2 (rr_session r ∈ gw_runners w ∖ _)) by set_solver.
      assert (live_on (rr_session r) r = true) as Ha by (unfold live_on; rewrite String.eqb_refl; by apply live_true in Hl as ->).
      pose proof (countb_at _ _ _ _ Hk Ha) as Hpos. rewrite Hok in Hpos. destruct (bool_decide _); cbn in *; lia.
    + replace (bool_decide (id ∈ gw_runners w ∖ {[rr_session r]})) with (bool_decide (id ∈ gw_runners w)); [cbn; lia|].
      apply bool_decide_ext. set_solver.
  - destruct (Hstay Hg) as [-> ->]. cbn [live]. lia.
Qed.

Lemma supervisor_schedule_spec w id w' started :
  supervisor_schedule (B := B) w id = (w', started) →
  gw_sessions w' = gw_sessions w ∧ gw_inputs w' = gw_inputs w ∧ gw_ctx w' = gw_ctx w ∧
  ((started = [] ∧ gw_runners w' = gw_runners w ∧ (gw_ctx w = None → id ∈ gw_runners w)) ∨
   (started = [{| rr_session := id; rr_phase := RunLoad |}] ∧ id ∉ gw_runners w ∧ gw_runners w' = {[id]} ∪ gw_runners w)).
Proof.
  unfold supervisor_schedule. destruct (gw_ctx w) eqn:Hc.
  - intros [= <- <-]. split_and!; [done|done|by rewrite Hc|]. left. by split_and!.
  - destruct (bool_decide (id ∈ gw_runners w)) eqn:Hb; [apply bool_decide_eq_true in Hb|apply bool_decide_eq_false in Hb]; intros [= <- <-]; rewrite ?Hc.
    + split_and!; [done|done|done|]. by left.
    + cbn. split_and!; [done|done|done|]. by right.
Qed.

Lemma call_step_runners w call e now w' call' started :
  g_call w call e now = (w', call', started) →
  gw_ctx w' = gw_ctx w ∧
  ((started = [] ∧ gw_runners w' = gw_runners w) ∨
   ∃ id, started = [{| rr_session := id; rr_phase := RunLoad |}] ∧ id ∉ gw_runners w ∧ gw_runners w' = {[id]} ∪ gw_runners w).
Proof.
  assert (∀ (w : gateway_world B) session input, gw_ctx (enqueue_input marshal_input error_text w None session input e now).2 = gw_ctx w ∧
            gw_runners (enqueue_input marshal_input error_text w None session input e now).2 = gw_runners w) as Henq.
  { clear w. intros w session input. unfold enqueue_input. destruct (normalizeAgentInput _ _) as [n|]; [|done].
    destruct (istore_Enqueue _ _ _ _ _) as [[c inputs]|]; [|done]. cbn [snd].
    by destruct (supervisor_emit_fields (set_inputs w inputs) (gs_ID session) GatewayEventInputQueued (marshal_input (queuedInputEvent c)) now) as (_ & _ & -> & ->). }
  assert (∀ (w : gateway_world B) session paused revision, gw_ctx (save_paused url_Parse ToLower w None session paused revision now).2 = gw_ctx w ∧
            gw_runners (save_paused url_Parse ToLower w None session paused revision now).2 = gw_runners w) as Hsave.
  { clear w. intros w session paused revision. unfold save_paused. destruct (negb _); [done|]. destruct (Bool.eqb _ _); [done|].
    by destruct (sstore_Save _ _ _ _ _ _ _) as [[u sessions]|]. }
  destruct call as [userID sessionID input|session input|userID sessionID paused revision|session paused revision|sessionID event|]; cbn [call_step]; intros Hc.
  - destruct (gw_draining w); [|destruct (ownedSession _ _ _ _)]; injection Hc as <- <- <-; auto.
  - specialize (Henq w session input). destruct (enqueue_input _ _ _ _ _ _ _ _) as [[c|] w1]; injection Hc as <- <- <-; cbn [snd] in Henq; destruct Henq; auto.
  - destruct (ownedSession _ _ _ _); injection Hc as <- <- <-; auto.
  - specialize (Hsave w session paused revision). destruct (save_paused _ _ _ _ _ _ _ _) as [[[u [|]]|] w1]; cbn [snd] in Hsave; destruct Hsave as [H1 H2].
    + destruct paused; injection Hc as <- <- <-; [|by auto].
      destruct (supervisor_emit_fields w1 (gs_ID session) GatewayEventSessionPaused (marshal_session u) now) as (_ & _ & -> & ->). auto.
    + injection Hc as <- <- <-. auto.
    + injection Hc as <- <- <-. auto.
  - destruct (supervisor_schedule w sessionID) as [w1 started1] eqn:Hs. injection Hc as <- <- <-. apply supervisor_schedule_spec in Hs as (_ & _ & H1 & H2).
    assert (gw_ctx (emit_option w1 sessionID event now) = gw_ctx w1 ∧ gw_runners (emit_option w1 sessionID event now) = gw_runners w1) as [-> ->].
    { destruct event as [[name payload]|]; [|done]. cbn [emit_option]. by destruct (supervisor_emit_fields w1 sessionID name payload now) as (_ & _ & -> & ->). }
    split; [done|]. destruct H2 as [(-> & -> & _)|(-> & Hn & ->)]; [by left|right; by exists sessionID].
  - injection Hc as <- <- <-. auto.
Qed.

Lemma gateway_step_runners s s' : g_step s s' → runners_ok s.1.1 s.1.2 → runners_ok s'.1.1 s'.1.2.
Proof.
  intros Hs Hok. destruct Hs as [w rs cs k r now tick w' phase Hk Hnow Hr| | | |w rs cs k call e now w' call' started Hk Hnow Hc| | | |];
    cbn [fst snd] in *; try done.
  - by eapply run_step_runners.
  - destruct (call_step_runners _ _ _ _ _ _ _ Hc) as [_ [[-> Hr]|(id & -> & Hn & Hr)]]; intros id'; rewrite Hr.
    + rewrite app_nil_r. apply Hok.
    + rewrite countb_app, countb_single, Hok. unfold live_on. cbn [rr_session rr_phase live]. rewrite andb_true_r.
      destruct (String.eqb id id') eqn:He; [apply String.eqb_eq in He as <-|apply String.eqb_neq in He].
      * rewrite (bool_decide_eq_false_2 _ Hn), bool_decide_eq_true_2 by set_solver. done.
      * replace (bool_decide (id' ∈ {[id]} ∪ gw_runners w)) with (bool_decide (id' ∈ gw_runners w)); [cbn; lia|]. apply bool_decide_ext. set_solver.
Qed.

(** ** No input is left behind while no session is paused *)

Definition serving (phase : runner_phase) : Prop := phase ≠ RunGone ∧ phase ≠ RunRemove.

(** A runner at work on the session, or a request about to schedule one. *)
Definition served (rs : list session_runner) (cs : list gateway_call) (id : string) : Prop :=
  (∃ k r, rs !! k = Some r ∧ rr_session r = id ∧ serving (rr_phase r)) ∨ (∃ k event, cs !! k = Some (CallSchedule id event)).

Definition has_session (w : gateway_world B) (id : string) : Prop := is_Some (ms_sessions (gw_sessions w) !! id).

Definition phase_session (id : string) (phase : runner_phase) : Prop :=
  match phase with
  | RunAcquire session | RunProcess session _ | RunBoundary session _ _ | RunLatest session _ | RunSubmit session _
  | RunBind session _ _ | RunAwait session _ _ => gs_ID session = id
  | _ => True
  end.

Definition call_session (w : gateway_world B) (call : gateway_call) : Prop :=
  match call with
  | CallEnqueueOn session _ => has_session w (gs_ID session) ∧ gs_Paused session = false ∧ valid_name (gs_ID session)
  | CallPauseOn session _ _ => has_session w (gs_ID session)
  | CallSchedule id _ => has_session w id
  | _ => True
  end.

(** No session is deleted and none is paused. *)
Definition unpaused (w : gateway_world B) : Prop := ∀ id b, ms_sessions (gw_sessions w) !! id = Some b → gs_Paused b = false.
Definition calm_step (s s' : gateway_state) : Prop :=
  g_step s s' ∧ (∀ id, has_session s.1.1 id → has_session s'.1.1 id) ∧ unpaused s'.1.1.

Record calm_ok (s : gateway_state) : Prop := {
  co_inputs : istore_ok (gw_inputs s.1.1);
  co_sessions : sstore_ok (gw_sessions s.1.1);
  co_open : mi_closed (gw_inputs s.1.1) = false ∧ ms_closed (gw_sessions s.1.1) = false;
  co_unpaused : unpaused s.1.1;
  co_runners : runners_ok s.1.1 s.1.2;
  co_runner k r : s.1.2 !! k = Some r →
    has_session s.1.1 (rr_session r) ∧ phase_session (rr_session r) (rr_phase r) ∧ (gw_ctx s.1.1 = None → rr_phase r ≠ RunRemove);
  co_call k call : s.2 !! k = Some call → call_session s.1.1 call;
  co_served id : gw_ctx s.1.1 = None → open_input (gw_inputs s.1.1) id → served s.1.2 s.2 id;
}.

Lemma session_Get w id session :
  sstore_ok (gw_sessions w) → unpaused w → has_session w id →
  sstore_Get (gw_sessions w) (gw_ctx w) id = Ok session → gs_ID session = id ∧ gs_Paused session = false ∧ valid_name id.
Proof.
  intros Hok Hu [s Hs]. destruct (Hok _ _ Hs) as (Hid & Hv & _). unfold sstore_Get. intros (u & _ & Hg)%bind_Ok. destruct (ms_closed _); [done|].
  rewrite (TrimSpace_name _ Hv), Hs in Hg. injection Hg as <-. eauto.
Qed.

Lemma session_Get_live (w : gateway_world B) id :
  sstore_ok (gw_sessions w) → ms_closed (gw_sessions w) = false → gw_ctx w = None → has_session w id →
  ∃ session, sstore_Get (gw_sessions w) (gw_ctx w) id = Ok session.
Proof.
  intros Hok Hc Hctx [s Hs]. destruct (Hok _ _ Hs) as (Hid & Hv & _). unfold sstore_Get. rewrite Hctx, Hc, (TrimSpace_name _ Hv), Hs. by exists s.
Qed.

Lemma wait_or_cases (w : gateway_world B) tick continue stop :
  wait_or w tick continue stop = continue ∨ gw_ctx w ≠ None ∧ wait_or w tick continue stop = stop.
Proof. unfold wait_or. destruct (gw_ctx w); [destruct tick|]; auto. Qed.

Ltac wait_cases := match goal with |- context [wait_or ?w ?t ?c ?s] => destruct (wait_or_cases w t c s) as [-> | [? ->]]; [by cbn|by cbn] end.

(** A step of a runner on a session that exists and is not paused. *)
Lemma run_step_calm w id now tick phase w' phase' :
  0 < now → g_run w id now tick phase = (w', phase') →
  istore_ok (gw_inputs w) → sstore_ok (gw_sessions w) → mi_closed (gw_inputs w) = false → ms_closed (gw_sessions w) = false →
  unpaused w → has_session w id → phase_session id phase →
  phase_session id phase' ∧
  (gw_ctx w = None → phase ≠ RunRemove →
     phase' ≠ RunRemove ∧ (phase' = RunGone → phase ≠ RunGone → ¬ open_input (gw_inputs w') id)).
Proof.
  intros Hnow Hr Hi Hs Hic Hsc Hu Hh Hp.
  destruct phase as [|session|session acquired|session input recover|session input|session input|session input eid|session input eid|
    input state text|input cause| | |]; cbn [run_step phase_session] in *.
  - destruct (sstore_Get _ _ _) as [s|] eqn:Hg.
    + destruct (session_Get _ _ _ Hs Hu Hh Hg) as (Hid & Hnp & _). rewrite Hnp in Hr. injection Hr as <- <-. by cbn.
    + injection Hr as <- <-. split; [done|]. intros Hc. destruct (session_Get_live _ _ Hs Hsc Hc Hh) as [s Hs']. congruence.
  - destruct (istore_AcquireNext _ _ _ _) as [[[acquired|] inputs]|] eqn:Ha; injection Hr as <- <-; cbn [phase_session].
    + by split_and!.
    + split; [done|]. intros _ _. split; [done|]. intros _ _. destruct (acquire_result _ _ _ _ _ _ Hi Hnow Ha) as (sid & Hsid & Hall & _).
      destruct Hh as [s0 Hs0]. destruct (Hs _ _ Hs0) as (_ & Hv & _). unfold normalizeEventSessionID in Hsid. apply bind_Ok in Hsid as (u & _ & [= <-]).
      rewrite (TrimSpace_name _ Hv) in Hall. intros (i & a & Hia & Hnt). rewrite Forall_lookup in Hall. cbn in Hia. by apply Hnt, (Hall i).
    + split; [done|]. intros Hc _. exfalso. destruct Hh as [s0 Hs0]. destruct (Hs _ _ Hs0) as (_ & Hv & _).
      destruct (acquire_total (gw_inputs w) id now Hi Hnow Hic) as (a & st & Ht).
      { unfold normalizeEventSessionID. rewrite (TrimSpace_name _ Hv). by rewrite (proj2 (ValidateResourceName_Ok _ _ tt) Hv). }
      rewrite Hc in Ha. congruence.
  - injection Hr as <- <-. by destruct (_ && negb _).
  - destruct (xb_Current _ _ _) as [current|err]; injection Hr as <- <-.
    + destruct (_ && negb _); [by cbn|]. destruct (Execution_Terminal _); [by cbn|]. wait_cases.
    + destruct (errors_Is _ _); [by cbn|]. wait_cases.
  - rewrite Hp in Hr. destruct (sstore_Get _ _ _) as [s|] eqn:Hg.
    + destruct (session_Get _ _ _ Hs Hu Hh Hg) as (Hid & Hnp & _). rewrite Hnp in Hr. injection Hr as <- <-. by cbn.
    + injection Hr as <- <-. by cbn.
  - destruct (xb_Submit _ _ _ _) as [[submitted|err] backend]; injection Hr as <- <-; by cbn.
  - destruct (istore_BindExecution _ _ _ _ _ _) as [[bound inputs]|]; injection Hr as <- <-; by cbn.
  - destruct (xb_Get _ _ _ _) as [current|]; injection Hr as <- <-; [|wait_cases]. destruct (Execution_Terminal _); [by cbn|]. wait_cases.
  - injection Hr as <- <-. by cbn.
  - destruct (gw_ctx w) eqn:Hc; injection Hr as <- <-; by cbn.
  - injection Hr as <- <-. destruct (gw_ctx w) eqn:Hc; [|by cbn]. by cbn.
  - injection Hr as <- <-. by cbn.
  - injection Hr as <- <-. by cbn.
Qed.

(** *** Enqueueing *)

Lemma normalize_session_id input e n : valid_name (ai_SessionID input) → normalizeAgentInput input e = Ok n → ai_SessionID n = ai_SessionID input.
Proof.
  intros Hv. unfold normalizeAgentInput. intros (u & _ & (sid & Hs & Hn)%bind_Ok)%bind_Ok. destruct (negb _); [done|]. destruct (is_empty _); [done|].
  injection Hn as <-. apply bind_Ok in Hs as (u' & _ & [= <-]). by apply TrimSpace_name.
Qed.

Lemma istore_Enqueue_open st ctx input e now created st' id :
  istore_Enqueue st ctx input e now = Ok (created, st') → valid_name (ai_SessionID input) → id ≠ ai_SessionID input →
  open_input st' id → open_input st id.
Proof.
  unfold istore_Enqueue. intros (u & _ & (n & Hn & Hq)%bind_Ok)%bind_Ok Hv Hne. destruct (mi_closed st); [done|].
  apply bind_Ok in Hq as ([[stream c] changed] & _ & [= <- <-]). rewrite (normalize_session_id _ _ _ Hv Hn).
  intros (i & a & Ha & Hnt). rewrite mi_stream_put, decide_False in Ha by done. by exists i, a.
Qed.

Lemma enqueue_input_spec (w : gateway_world B) session input e now :
  0 < now → valid_name (gs_ID session) →
  let w' := (enqueue_input marshal_input error_text w None session input e now).2 in
  gw_sessions w' = gw_sessions w ∧ (istore_ok (gw_inputs w) → istore_ok (gw_inputs w')) ∧
  mi_closed (gw_inputs w') = mi_closed (gw_inputs w) ∧ gw_ctx w' = gw_ctx w ∧ gw_runners w' = gw_runners w ∧
  (∀ id, id ≠ gs_ID session → open_input (gw_inputs w') id → open_input (gw_inputs w) id) ∧
  ((enqueue_input marshal_input error_text w None session input e now).1 = Ok (get input (enqueue_input marshal_input error_text w None session input e now).1) ∨ w' = w).
Proof.
  intros Hnow Hv. cbn zeta. unfold enqueue_input. destruct (normalizeAgentInput _ _) as [n|] eqn:Hn; [|cbn; by auto 10].
  destruct (istore_Enqueue _ _ _ _ _) as [[c inputs]|] eqn:Hq; [|cbn; by auto 10]. cbn [fst snd].
  destruct (supervisor_emit_fields (set_inputs w inputs) (gs_ID session) GatewayEventInputQueued (marshal_input (queuedInputEvent c)) now) as (-> & -> & -> & ->).
  apply normalize_session_id in Hn as Hsid; [|done]. cbn in Hsid. split_and!; try done; cbn.
  - intros Hok. by apply (input_step_ok _ _ (in_enqueue _ _ _ _ _ _ _ Hnow Hq)).
  - unfold istore_Enqueue in Hq. apply bind_Ok in Hq as (u & _ & (n' & _ & Hq)%bind_Ok). destruct (mi_closed (gw_inputs w)) eqn:Hc; [done|].
    by apply bind_Ok in Hq as ([[stream c'] changed] & _ & [= <- <-]).
  - intros id Hne. eapply istore_Enqueue_open; [done|by rewrite Hsid|by rewrite Hsid].
  - by left.
Qed.

(** *** Preservation *)

Lemma served_calls rs cs cs' id :
  served rs cs id → (∀ k event, cs !! k = Some (CallSchedule id event) → ∃ k' event', cs' !! k' = Some (CallSchedule id event')) → served rs cs' id.
Proof. intros [Hr|(k & event & Hk)] Hc; [by left|right]. by eapply Hc. Qed.

(** A state whose sessions changed without a deletion or a pause. *)
Lemma calm_sessions w rs cs w' :
  calm_ok (w, rs, cs) → sstore_ok (gw_sessions w') → ms_closed (gw_sessions w') = false → gw_inputs w' = gw_inputs w → gw_ctx w' = gw_ctx w →
  gw_runners w' = gw_runners w → (∀ id, has_session w id → has_session w' id) → unpaused w' → calm_ok (w', rs, cs).
Proof.
  intros [Hi Hs [Ho1 Ho2] Hu Hru Hr Hc Hsv] Hs' Ho' Ei Ec Er Hkeep Hu'. cbn [fst snd] in *. split; cbn [fst snd]; rewrite ?Ei, ?Ec; try done.
  - unfold runners_ok. by rewrite Er.
  - intros k r Hk. destruct (Hr _ _ Hk) as (H1 & H2 & H3). split_and!; [by apply Hkeep|done|done].
  - intros k call Hk. specialize (Hc _ _ Hk). destruct call; cbn in *; try done; [|by apply Hkeep..]. destruct Hc as (H1 & H2 & H3). auto.
Qed.

Lemma calm_calls w rs cs cs' :
  calm_ok (w, rs, cs) → (∀ k call, cs' !! k = Some call → call_session w call) →
  (∀ id k event, cs !! k = Some (CallSchedule id event) → ∃ k' event', cs' !! k' = Some (CallSchedule id event')) → calm_ok (w, rs, cs').
Proof.
  intros [Hi Hs Ho Hu Hru Hr Hc Hsv] Hc' Hk. split; try done. cbn [fst snd] in *. intros id Hctx Hop. eapply served_calls; [by apply Hsv|by apply Hk].
Qed.

Lemma calm_new_call w rs cs call : calm_ok (w, rs, cs) → call_session w call → calm_ok (w, rs, cs ++ [call]).
Proof.
  intros Hok Hcall. apply (calm_calls _ _ _ _ Hok).
  - intros k c [Hk|[_ [_ <-]%list_lookup_singleton_Some]]%lookup_app_Some; [by apply (co_call _ Hok k)|done].
  - intros id k event Hk. exists k, event. by apply lookup_app_l_Some.
Qed.

Lemma calm_next_call w rs cs k call call' :
  calm_ok (w, rs, cs) → cs !! k = Some call → (∀ id event, call ≠ CallSchedule id event) → call_session w call' → calm_ok (w, rs, <[k := call']> cs).
Proof.
  intros Hok Hk Hne Hcall. apply (calm_calls _ _ _ _ Hok).
  - intros j c [(-> & <- & _)|[_ Hj]]%list_lookup_insert_Some; [done|by apply (co_call _ Hok j)].
  - intros id j event Hj. exists j, event. rewrite list_lookup_insert_ne; [done|]. intros ->. rewrite Hk in Hj. injection Hj as ->. by eapply Hne.
Qed.

Lemma calm_run w rs cs k r now tick w' phase :
  calm_ok (w, rs, cs) → rs !! k = Some r → 0 < now → g_run w (rr_session r) now tick (rr_phase r) = (w', phase) →
  calm_ok (w', <[k := {| rr_session := rr_session r; rr_phase := phase |}]> rs, cs).
Proof.
  intros [Hi Hs [Ho1 Ho2] Hu Hru Hr Hc Hsv] Hk Hnow Hrun. cbn [fst snd] in *. pose proof (run_step_runners _ _ _ _ _ _ _ _ Hk Hnow Hrun Hru) as Hru'.
  destruct (Hr _ _ Hk) as (Hh & Hps & Hrem). destruct (run_step_calm _ _ _ _ _ _ _ Hnow Hrun Hi Hs Ho1 Ho2 Hu Hh Hps) as [Hps' Hcalm].
  destruct (run_step_frame _ _ _ _ _ _ _ Hnow Hrun) as (Es & [Hsi Hsc Hso] & Ec & _ & _ & Hgone).
  split; cbn [fst snd]; unfold unpaused, has_session; rewrite ?Es, ?Ec, ?Hsc; try done.
  - by apply Hsi.
  - intros j r' [(-> & <- & _)|[_ Hj]]%list_lookup_insert_Some; cbn [rr_session rr_phase]; [|by apply (Hr j)].
    split_and!; [done|done|]. intros Hctx. by apply Hcalm, Hrem.
  - intros j call Hj. specialize (Hc _ _ Hj). destruct call; cbn in *; unfold has_session in *; by rewrite ?Es.
  - intros id Hctx Hop. destruct (Hsv id Hctx (Hso _ Hop)) as [(j & r' & Hj & Hid & Hsrv)|Hcall]; [left|by right].
    destruct (decide (j = k)) as [->|Hne]; [|exists j, r'; by rewrite list_lookup_insert_ne].
    rewrite Hk in Hj. injection Hj as <-. destruct (Hcalm Hctx (Hrem Hctx)) as [Hnr Hng]. eexists k, _. rewrite list_lookup_insert_eq by (by eapply lookup_lt_Some).
    split_and!; [done|done|]. cbn [rr_phase]. split; [|done]. intros ->. destruct Hsrv as [Hlive _]. subst id. by apply (Hng eq_refl Hlive).
Qed.

Lemma calm_schedule w rs cs k id event now w' call' started e :
  calm_ok (w, rs, cs) → cs !! k = Some (CallSchedule id event) → 0 < now → g_call w (CallSchedule id event) e now = (w', call', started) →
  calm_ok (w', rs ++ started, <[k := call']> cs).
Proof.
  intros [Hi Hs Ho Hu Hru Hr Hc Hsv] Hk Hnow Hcall. cbn [fst snd] in *.
  pose proof (gateway_step_runners _ _ (gw_call _ _ _ _ _ backend_moves w rs cs k _ e now _ _ _ Hk Hnow Hcall) Hru) as Hru'. cbn [fst snd] in Hru'.
  cbn [call_step] in Hcall. destruct (supervisor_schedule w id) as [w1 started1] eqn:Hsch. injection Hcall as <- <- <-.
  assert (gw_sessions (emit_option w1 id event now) = gw_sessions w1 ∧ gw_inputs (emit_option w1 id event now) = gw_inputs w1 ∧
          gw_ctx (emit_option w1 id event now) = gw_ctx w1) as (E1 & E2 & E3).
  { destruct event as [[name payload]|]; [|done]. cbn [emit_option]. by destruct (supervisor_emit_fields w1 id name payload now) as (-> & -> & -> & _). }
  apply supervisor_schedule_spec in Hsch as (F1 & F2 & F3 & Hst). rewrite F1 in E1. rewrite F2 in E2. rewrite F3 in E3.
  pose proof (Hc _ _ Hk) as Hh. cbn in Hh.
  split; cbn [fst snd]; unfold unpaused, has_session; rewrite ?E1, ?E2, ?E3; try done.
  - intros j r [Hj|[_ Hj]]%lookup_app_Some; [by apply (Hr j)|]. destruct Hst as [(-> & _)|(-> & _)]; [done|].
    apply list_lookup_singleton_Some in Hj as [_ <-]. by cbn.
  - intros j call [(-> & <- & _)|[_ Hj]]%list_lookup_insert_Some; [done|]. specialize (Hc _ _ Hj). destruct call; cbn in *; unfold has_session in *; by rewrite ?E1.
  - intros id' Hctx Hop. destruct (decide (id' = id)) as [->|Hne].
    + left. destruct Hst as [(-> & _ & Hin)|(-> & _ & _)].
      * rewrite app_nil_r. assert (0 < countb (live_on id) rs) as Hpos by (rewrite Hru, bool_decide_eq_true_2 by auto; done).
        apply countb_pos in Hpos as (j & r & Hj & [He%String.eqb_eq Hl%live_true]%andb_prop). exists j, r. split_and!; [done|done|].
        split; [done|]. by apply (Hr _ _ Hj).
      * exists (length rs), {| rr_session := id; rr_phase := RunLoad |}. rewrite lookup_app_r, Nat.sub_diag by lia. by split_and!.
    + destruct (Hsv id' Hctx Hop) as [(j & r & Hj & Hid & Hsrv)|(j & ev & Hj)]; [left|right].
      * exists j, r. split; [by apply lookup_app_l_Some|done].
      * exists j, ev. rewrite list_lookup_insert_ne; [done|]. intros <-. rewrite Hk in Hj. by injection Hj.
Qed.

Lemma calm_enqueue w rs cs k session input e now w' call' started :
  calm_ok (w, rs, cs) → cs !! k = Some (CallEnqueueOn session input) → 0 < now →
  g_call w (CallEnqueueOn session input) e now = (w', call', started) → calm_ok (w', rs ++ started, <[k := call']> cs).
Proof.
  intros Hok Hk Hnow Hcall. pose proof (co_call _ Hok _ _ Hk) as (Hh & Hnp & Hv). cbn [fst snd] in Hh. cbn [call_step] in Hcall.
  destruct (enqueue_input_spec w session input e now Hnow Hv) as (E1 & E2 & E3 & E4 & E5 & E6 & E7).
  destruct (enqueue_input _ _ _ _ _ _ _ _) as [[c|err] w1]; cbn [fst snd] in *; injection Hcall as <- <- <-; rewrite app_nil_r.
  - rewrite Hnp. destruct Hok as [Hi Hs [Ho1 Ho2] Hu Hru Hr Hc Hsv]. cbn [fst snd] in *.
    split; cbn [fst snd]; unfold unpaused, has_session, runners_ok; rewrite ?E1, ?E3, ?E4, ?E5; try done; [by apply E2|..].
    + intros j call [(-> & <- & _)|[_ Hj]]%list_lookup_insert_Some; [cbn; unfold has_session; by rewrite E1|].
      specialize (Hc _ _ Hj). destruct call; cbn in *; unfold has_session in *; by rewrite ?E1.
    + intros id Hctx Hop. destruct (decide (id = gs_ID session)) as [->|Hne].
      * right. exists k, None. by rewrite list_lookup_insert_eq by (by eapply lookup_lt_Some).
      * eapply served_calls; [by apply Hsv, E6|]. intros j event Hj. exists j, event. rewrite list_lookup_insert_ne; [done|]. intros <-. by rewrite Hk in Hj.
  - destruct E7 as [E7|E7]; [done|]. subst w1. by eapply calm_next_call.
Qed.

Lemma save_step st ctx session revision now saved st' :
  sstore_Save url_Parse ToLower st ctx session revision now = Ok (saved, st') →
  sstore_step url_Parse ToLower st st' ∧ ms_closed st' = ms_closed st.
Proof.
  intros Hs. split; [by econstructor|]. unfold sstore_Save in Hs. apply bind_Ok in Hs as (u & _ & (n & _ & Hs)%bind_Ok).
  destruct (ms_closed st) eqn:Hc; [done|]. destruct (_ !! _); [|done]. by apply bind_Ok in Hs as (x & _ & [= <- <-]).
Qed.

Lemma session_change_step st st' : session_change url_Parse ToLower st st' → sstore_step url_Parse ToLower st st' ∧ ms_closed st' = ms_closed st.
Proof.
  intros Hs. destruct Hs as [st ctx session now created st' Hs|st ctx session revision now saved st' _ Hs|st ctx id revision st' Hs];
    [split; [by econstructor|]|by eapply save_step|split; [by econstructor|]].
  - unfold sstore_Create in Hs. apply bind_Ok in Hs as (u & _ & (n & _ & Hs)%bind_Ok). destruct (ms_closed st) eqn:Hc; [done|].
    destruct (_ !! _); [done|]. by injection Hs as <- <-.
  - unfold sstore_Delete in Hs. apply bind_Ok in Hs as (u & _ & Hs). destruct (ms_closed st) eqn:Hc; [done|]. destruct (_ !! _); [|done].
    destruct (negb _); [done|]. by injection Hs as <-.
Qed.

Lemma calm_owned w rs cs userID sessionID session :
  calm_ok (w, rs, cs) → ownedSession w None userID sessionID = Ok session →
  has_session w (gs_ID session) ∧ gs_Paused session = false ∧ valid_name (gs_ID session).
Proof.
  intros Hok. unfold ownedSession. intros (s & Hg & Ho)%bind_Ok. destruct (normalizeUserID _); [|done]. destruct (negb _); [done|]. injection Ho as <-.
  unfold sstore_Get in Hg. apply bind_Ok in Hg as (u & _ & Hg). destruct (ms_closed _); [done|]. destruct (_ !! _) as [s'|] eqn:Hl; [|done]. injection Hg as <-.
  destruct (co_sessions _ Hok _ _ Hl) as (Hid & Hv & _). rewrite Hid. split_and!; [by eexists|by apply (co_unpaused _ Hok _ _ Hl)|done].
Qed.

Lemma calm_pause w rs cs k session paused revision e now w' call' started :
  calm_ok (w, rs, cs) → cs !! k = Some (CallPauseOn session paused revision) → 0 < now →
  g_call w (CallPauseOn session paused revision) e now = (w', call', started) →
  (∀ id, has_session w id → has_session w' id) → unpaused w' → calm_ok (w', rs ++ started, <[k := call']> cs).
Proof.
  intros Hok Hk Hnow Hcall Hkeep Hu'. pose proof (co_call _ Hok _ _ Hk) as Hh. cbn [fst snd call_session] in Hh. cbn [call_step] in Hcall.
  unfold save_paused in Hcall. destruct (negb (_ =? _)); [injection Hcall as <- <- <-; rewrite app_nil_r; by eapply calm_next_call|].
  destruct (Bool.eqb _ _); [injection Hcall as <- <- <-; rewrite app_nil_r; by eapply calm_next_call|].
  destruct (sstore_Save _ _ _ _ _ _ _) as [[updated sessions]|] eqn:Hsave; [|injection Hcall as <- <- <-; rewrite app_nil_r; by eapply calm_next_call].
  destruct (save_step _ _ _ _ _ _ _ Hsave) as [Hst Hcl]. pose proof (proj1 (sstore_step_ok _ _ _ _ Hst (co_sessions _ Hok))) as Hs'.
  destruct (co_open _ Hok) as [Ho1 Ho2]. cbn [fst snd] in *.
  destruct paused; injection Hcall as <- <- <-; rewrite app_nil_r.
  - destruct (supervisor_emit_fields (set_sessions w sessions) (gs_ID session) GatewayEventSessionPaused (marshal_session updated) now) as (E1 & E2 & E3 & E4).
    eapply calm_next_call; [|done|done|done]. eapply calm_sessions; [exact Hok|by rewrite E1|rewrite E1; cbn; congruence|done|done|done|exact Hkeep|exact Hu'].
  - eapply calm_next_call; [|done|done|by apply Hkeep]. eapply calm_sessions; try done. cbn. congruence.
Qed.

Lemma calm_step_ok s s' : calm_step s s' → calm_ok s → calm_ok s'.
Proof.
  intros (Hs & Hkeep & Hu) Hok. destruct Hs as [w rs cs k r now tick w' phase Hk Hnow Hr|w rs cs userID sessionID input|w rs cs userID sessionID paused revision|
    w rs cs id session Hid Hp|w rs cs k call e now w' call' started Hk Hnow Hc|w rs cs backend Hb|w rs cs sessions Hsc|
    w rs cs ctx sessionID inputID revision now input inputs Hnow Hc|w rs cs]; cbn [fst snd] in *.
  - by eapply calm_run.
  - by apply calm_new_call.
  - by apply calm_new_call.
  - apply calm_new_call; [done|]. destruct (co_sessions _ Hok _ _ Hid) as (E & _). cbn. rewrite E. by eexists.
  - destruct call as [userID sessionID input|session input|userID sessionID paused revision|session paused revision|sessionID event|].
    + cbn [call_step] in Hc. destruct (gw_draining w); [injection Hc as <- <- <-; rewrite app_nil_r; by eapply calm_next_call|].
      destruct (ownedSession _ _ _ _) as [session|] eqn:Ho; injection Hc as <- <- <-; rewrite app_nil_r; eapply calm_next_call; try done. by eapply calm_owned.
    + by eapply calm_enqueue.
    + cbn [call_step] in Hc. destruct (ownedSession _ _ _ _) as [session|] eqn:Ho; injection Hc as <- <- <-; rewrite app_nil_r; eapply calm_next_call; try done.
      by eapply calm_owned.
    + by eapply calm_pause.
    + by eapply calm_schedule.
    + injection Hc as <- <- <-. rewrite app_nil_r, list_insert_id by done. done.
  - eapply calm_sessions; try done; apply Hok.
  - destruct (session_change_step _ _ Hsc) as [Hst Hcl]. destruct (co_open _ Hok) as [_ Ho]. cbn [fst snd] in Ho.
    eapply calm_sessions; try done; cbn; [by apply (sstore_step_ok _ _ _ _ Hst), Hok|congruence].
  - destruct (cancel_shrink _ _ _ _ _ _ _ _ Hnow Hc) as [H1 H2 H3]. destruct Hok as [Hi Hs [Ho1 Ho2] Hu' Hru Hr Hcl Hsv]. cbn [fst snd] in *.
    split; cbn [fst snd set_inputs gw_inputs gw_ctx gw_sessions]; try done; [by apply H1|by rewrite H2|]. intros id Hctx Hop. by apply Hsv, H3.
  - destruct Hok as [Hi Hs Ho Hu' Hru Hr Hcl Hsv]. cbn [fst snd] in *. split; try done. intros k r Hk. cbn [fst snd gw_ctx] in *.
    destruct (Hr _ _ Hk) as (H1 & H2 & _). split_and!; done.
Qed.

Lemma calm_reach_ok backend s : rtc calm_step (initial_world backend, [], []) s → calm_ok s.
Proof.
  intros Hr. assert (calm_ok (initial_world backend, [], [])) as H0.
  { split; cbn; try done.
    - intros sid. apply zero_istream_wf.
    - intros id _ (i & a & Ha & _). by vm_compute in Ha. }
  remember (initial_world backend, @nil session_runner, @nil gateway_call) as s0 eqn:E. clear E.
  induction Hr as [s|s s1 s' Hs _ IH]; [done|]. apply IH. by eapply calm_step_ok.
Qed.

Lemma gateway_reach_runners backend s : rtc g_step (initial_world backend, [], []) s → runners_ok s.1.1 s.1.2.
Proof.
  intros Hr. assert (runners_ok (initial_world backend) []) as H0 by (intros id; cbn; by rewrite bool_decide_eq_false_2 by set_solver).
  change (runners_ok (initial_world backend, @nil session_runner, @nil gateway_call).1.1 (initial_world backend, @nil session_runner, @nil gateway_call).1.2) in H0.
  remember (initial_world backend, @nil session_runner, @nil gateway_call) as s0 eqn:E. clear E.
  induction Hr as [s|s s1 s' Hs _ IH]; [done|]. apply IH. by eapply gateway_step_runners.
Qed.
End supervised.

(** C38. The runners of the supervisor, whatever the requests, pauses and executions: at most one goroutine works on the
    queue of a session. *)
Theorem one_runner_per_session {B} `{!ExecutionBackend B} `{!GatewayJSON} marshal_input marshal_session error_text url_Parse ToLower backend_moves
    backend w rs cs i j a b :
  rtc (gateway_step (B := B) marshal_input marshal_session error_text url_Parse ToLower backend_moves) (initial_world backend, [], []) (w, rs, cs) →
  rs !! i = Some a → rs !! j = Some b → rr_session a = rr_session b → rr_phase a ≠ RunGone → rr_phase b ≠ RunGone → i = j.
Proof.
  intros Hok%gateway_reach_runners Ha Hb Hs Hla Hlb. cbn [fst snd] in Hok. apply (countb_one (live_on (rr_session a)) rs i j a b); try done.
  - rewrite Hok. destruct (bool_decide _); cbn; lia.
  - unfold live_on. rewrite String.eqb_refl. by apply live_true.
  - unfold live_on. rewrite Hs, String.eqb_refl. by apply live_true.
Qed.

(** C14. No queued input is forgotten: as long as no session is paused or deleted and the gateway runs, a session with an
    input that has not ended has a goroutine at work on its queue, or a request that is about to start one; the
    last look at an empty queue and the end of its goroutine leave no gap for an input that arrives meanwhile. *)
Theorem queue_always_served {B} `{!ExecutionBackend B} `{!GatewayJSON} marshal_input marshal_session error_text url_Parse ToLower backend_moves
    backend w rs cs id :
  rtc (calm_step (B := B) marshal_input marshal_session error_text url_Parse ToLower backend_moves) (initial_world backend, [], []) (w, rs, cs) →
  gw_ctx w = None → open_input (gw_inputs w) id →
  (∃ k r, rs !! k = Some r ∧ rr_session r = id ∧ serving (rr_phase r)) ∨ (∃ k event, cs !! k = Some (CallSchedule id event)).
Proof. intros Hok%calm_reach_ok. apply (co_served _ Hok). Qed.

(** ** A backend that records what is submitted *)

Record ex_backend := { xk_submitted : list string; xk_executions : list TrajectoryExecution }.

Definition ex_execution (id : string) (state : TrajectoryExecutionState) (created : time) : TrajectoryExecution :=
  {| ex_ID := id; ex_State := state; ex_Revision := 1; ex_BaseHead := ""; ex_InputEntryID := ""; ex_Provider := ""; ex_System := "";
     ex_MaxTurns := 0; ex_Owner := ""; ex_LeaseToken := ""; ex_LeaseExpiresAt := 0; ex_LastError := ""; ex_CreatedAt := created; ex_UpdatedAt := created |}.

Definition ex_not_found : error := Sentinel GatewayErrExecutionNotFound.
Definition ex_current (b : ex_backend) : result Execution :=
  match last (xk_executions b) with
  | Some execution => Ok {| xe_SessionID := "s"; xe_Execution := execution; xe_Result := None |}
  | None => Err ex_not_found
  end.

(** One execution at a time, created at the instant [created]. *)
Definition ex_submit (b : ex_backend) (content : string) (created : time) : result Execution * ex_backend :=
  let execution := ex_execution ("x" +:+ decimal (Z.of_nat (length (xk_executions b)))) TrajectoryExecutionRunning created in
  if existsb (λ execution, negb (Execution_Terminal execution)) (xk_executions b) then (Err (Sentinel ErrExecutionActive), b)
  else (Ok {| xe_SessionID := "s"; xe_Execution := execution; xe_Result := None |},
        {| xk_submitted := xk_submitted b ++ [content]; xk_executions := xk_executions b ++ [execution] |}).

Definition ex_finish (b : ex_backend) : ex_backend :=
  {| xk_submitted := xk_submitted b;
     xk_executions := (λ execution, ex_execution (ex_ID execution) TrajectoryExecutionSucceeded (ex_CreatedAt execution)) <$> xk_executions b |}.

#[local] Instance ex_execution_backend : ExecutionBackend ex_backend := {
  xb_CreateSession b _ _ := (Ok tt, b);
  xb_Submit b _ _ content := ex_submit b content 5000;
  xb_EnqueueContextInjection b _ _ _ _ := (Err ex_not_found, b);
  xb_Recover b _ _ := (Err ex_not_found, b);
  xb_Current b _ _ := ex_current b;
  xb_Get b _ _ id := match list_find (λ execution, ex_ID execution = id) (xk_executions b) with
                     | Some (_, execution) => Ok {| xe_SessionID := "s"; xe_Execution := execution; xe_Result := None |}
                     | None => Err ex_not_found
                     end;
  xb_Cancel b _ _ _ := (Err ex_not_found, b);
}.
#[local] Existing Instance example_json.

Definition ex_marshal_input (_ : AgentInput) : result string := Err (errors_New "not encoded").
Definition ex_marshal_session (_ : gateway_Session) : result string := Err (errors_New "not encoded").
Definition ex_error_text (_ : error) : string := "failed".
Definition ex_moves (b b' : ex_backend) : Prop := b' = ex_finish b ∨ ∃ content created, b' = (ex_submit b content created).2.

Abbreviation x_step := (gateway_step ex_marshal_input ex_marshal_session ex_error_text ex_url ex_rune_lower ex_moves).

(** The steps of a script: a session is created, a runner or a request takes its next step, a request arrives, a
    message is submitted directly, an execution ends. *)
Inductive ex_action :=
  | ExCreate (session : gateway_Session) (now : time)
  | ExRun (k : nat) (now : time)
  | ExCall (k : nat) (now : time)
  | ExEnqueue (input : AgentInput)
  | ExPause (paused : bool) (revision : Z)
  | ExSubmit (content : string) (created : time)
  | ExFinish.

Definition ex_act (s : gateway_state (B := ex_backend)) (action : ex_action) : option gateway_state :=
  let '(w, rs, cs) := s in
  match action with
  | ExCreate session now =>
      match ex_Create (gw_sessions w) None session now with Ok (_, sessions) => Some (set_sessions w sessions, rs, cs) | Err _ => None end
  | ExRun k now =>
      match rs !! k with
      | Some r => if 0 <? now then
                    let '(w', phase) := run_step ex_marshal_input ex_error_text w (rr_session r) now true (rr_phase r) in
                    Some (w', <[k := {| rr_session := rr_session r; rr_phase := phase |}]> rs, cs)
                  else None
      | None => None
      end
  | ExCall k now =>
      match cs !! k with
      | Some call => if 0 <? now then
                       let '(w', call', started) := call_step ex_marshal_input ex_marshal_session ex_error_text ex_url ex_rune_lower w call (ex_entropy 1) now in
                       Some (w', rs ++ started, <[k := call']> cs)
                     else None
      | None => None
      end
  | ExEnqueue input => Some (w, rs, cs ++ [CallEnqueue "u" "s" input])
  | ExPause paused revision => Some (w, rs, cs ++ [CallPause "u" "s" paused revision])
  | ExSubmit content created => Some (set_backend w (ex_submit (gw_backend w) content created).2, rs, cs)
  | ExFinish => Some (set_backend w (ex_finish (gw_backend w)), rs, cs)
  end.

Lemma ex_act_step s action s' : ex_act s action = Some s' → x_step s s'.
Proof.
  destruct s as [[w rs] cs]. destruct action as [session now|k now|k now|input|paused revision|content created|]; cbn [ex_act]; intros Ha.
  - destruct (ex_Create _ _ _ _) as [[created sessions]|] eqn:Hc; [|done]. injection Ha as <-. apply gw_session. by eapply sc_create.
  - destruct (rs !! k) as [r|] eqn:Hk; [|done]. destruct (0 <? now) eqn:Hn; [|done]. apply Z.ltb_lt in Hn.
    destruct (run_step _ _ _ _ _ _ _) as [w' phase] eqn:Hr. injection Ha as <-. by eapply gw_run.
  - destruct (cs !! k) as [call|] eqn:Hk; [|done]. destruct (0 <? now) eqn:Hn; [|done]. apply Z.ltb_lt in Hn.
    destruct (call_step _ _ _ _ _ _ _ _ _) as [[w' call'] started] eqn:Hc. injection Ha as <-. by eapply gw_call.
  - injection Ha as <-. apply gw_request_enqueue.
  - injection Ha as <-. apply gw_request_pause.
  - injection Ha as <-. apply gw_execution. right. eauto.
  - injection Ha as <-. apply gw_execution. by left.
Qed.

Definition ex_initial : gateway_state (B := ex_backend) := (initial_world {| xk_submitted := []; xk_executions := [] |}, [], []).

Fixpoint ex_script (s : gateway_state) (actions : list ex_action) : option gateway_state :=
  match actions with
  | [] => Some s
  | action :: actions => match ex_act s action with Some s => ex_script s actions | None => None end
  end.

Lemma ex_script_run s actions s' : ex_script s actions = Some s' → rtc x_step s s'.
Proof.
  revert s. induction actions as [|action actions IH]; intros s; cbn; [by intros [= <-]; apply rtc_refl|].
  destruct (ex_act s action) as [s1|] eqn:Ha; [|done]. intros Hs. eapply rtc_l; [by eapply ex_act_step|by apply IH].
Qed.

(** A runner finds its session paused; before it leaves, the session is resumed. *)
Definition ex_strand : list ex_action :=
  [ExCreate (ex_session "s" "u" "m" "") 1000; ExEnqueue (ex_input "i1" "queued text"); ExCall 0 1001; ExCall 0 1002; ExCall 0 1003;
   ExPause true 1; ExCall 1 1004; ExCall 1 1005; ExRun 0 1006; ExPause false 2; ExCall 2 1007; ExCall 2 1008; ExCall 2 1009; ExRun 0 1010].

Definition stranded (s : gateway_state (B := ex_backend)) : bool :=
  let '(w, rs, cs) := s in
  match gw_ctx w, ms_sessions (gw_sessions w) !! "s", is_Inputs (mi_stream (gw_inputs w) "s") with
  | None, Some session, [input] =>
      negb (gs_Paused session) && bool_decide (ai_State input = AgentInputQueued) && forallb (λ r, negb (live (rr_phase r))) rs &&
      forallb (λ call, match call with CallDone => true | _ => false end) cs
  | _, _, _ => false
  end.

(** A resume that meets the end of a runner leaves the queue without one: the runner reads that its session is
    paused, the session is resumed and [schedule] finds the runner still registered, the runner leaves; the session
    is not paused, its input stays queued, and nothing is left that would dispatch it. *)
Theorem resume_strands_input :
  ∃ w rs cs, rtc x_step ex_initial (w, rs, cs) ∧ stranded (w, rs, cs) = true.
Proof.
  assert (from_option stranded false (ex_script ex_initial ex_strand) = true) as Hc by (by vm_compute).
  destruct (ex_script ex_initial ex_strand) as [[[w rs] cs]|] eqn:Hs; [|done]. exists w, rs, cs. split; [by eapply ex_script_run|exact Hc].
Qed.

(** An input is dispatched while a direct execution runs; the session is paused before the input is submitted; the
    user submits another message directly and resumes the session. *)
Definition ex_foreign : list ex_action :=
  [ExCreate (ex_session "s" "u" "m" "") 1000; ExSubmit "first" 1001; ExEnqueue (ex_input "i1" "queued text"); ExCall 0 1002; ExCall 0 1003; ExCall 0 1004;
   ExRun 0 1005; ExRun 0 1006; ExRun 0 1007; ExRun 0 1008; ExPause true 1; ExCall 1 1009; ExCall 1 1010; ExFinish; ExRun 0 1011; ExRun 0 1012; ExRun 0 1013;
   ExSubmit "second" 1014; ExPause false 2; ExCall 2 1015; ExCall 2 1016; ExCall 2 1017; ExRun 1 1018; ExRun 1 1019; ExRun 1 1020; ExRun 1 1021; ExRun 1 1022;
   ExFinish; ExRun 1 1023; ExRun 1 1024].

Definition misattributed (s : gateway_state (B := ex_backend)) : bool :=
  let w := s.1.1 in
  match is_Inputs (mi_stream (gw_inputs w) "s") with
  | [input] =>
      bool_decide (ai_Content input = "queued text") && bool_decide (ai_State input = AgentInputSucceeded) && bool_decide (ai_ExecutionID input = "x1") &&
      bool_decide (xk_submitted (gw_backend w) = ["first"; "second"])
  | _ => false
  end.

(** An input that a pause caught between its dispatch and its submission can be taken for another execution: the
    resumed supervisor recovers an unbound input by the creation time of the current execution alone, binds it to
    an execution that was submitted directly during the pause, and completes it with that execution's outcome,
    although its content was never submitted. *)
Theorem paused_input_takes_foreign_execution :
  ∃ w rs cs, rtc x_step ex_initial (w, rs, cs) ∧ misattributed (w, rs, cs) = true.
Proof.
  assert (from_option misattributed false (ex_script ex_initial ex_foreign) = true) as Hc by (by vm_compute).
  destruct (ex_script ex_initial ex_foreign) as [[[w rs] cs]|] eqn:Hs; [|done]. exists w, rs, cs. split; [by eapply ex_script_run|exact Hc].
Qed.

(** *** Runs for the theorems above *)

Abbreviation x_calm := (calm_step ex_marshal_input ex_marshal_session ex_error_text ex_url ex_rune_lower ex_moves).

Definition ex_calm (s s' : gateway_state (B := ex_backend)) : bool :=
  forallb (λ p, match ms_sessions (gw_sessions s'.1.1) !! p.1 with Some _ => true | None => false end) (map_to_list (ms_sessions (gw_sessions s.1.1))) &&
  forallb (λ p, negb (gs_Paused p.2)) (map_to_list (ms_sessions (gw_sessions s'.1.1))).

Lemma ex_calm_step s action s' : ex_act s action = Some s' → ex_calm s s' = true → x_calm s s'.
Proof.
  intros Ha [Hd Hp]%andb_prop. split_and!; [by eapply ex_act_step| |].
  - unfold has_session. intros id [a Ha']. rewrite forallb_forall in Hd.
    specialize (Hd (id, a) ltac:(by apply list_elem_of_In, elem_of_map_to_list)). cbn in Hd. by destruct (_ !! id).
  - intros id b Hb. rewrite forallb_forall in Hp. apply negb_true_iff, (Hp (id, b)). by apply list_elem_of_In, elem_of_map_to_list.
Qed.

Fixpoint ex_calm_script (s : gateway_state) (actions : list ex_action) : option gateway_state :=
  match actions with
  | [] => Some s
  | action :: actions =>
      match ex_act s action with Some s' => if ex_calm s s' then ex_calm_script s' actions else None | None => None end
  end.

Lemma ex_calm_script_run s actions s' : ex_calm_script s actions = Some s' → rtc x_calm s s'.
Proof.
  revert s. induction actions as [|action actions IH]; intros s; cbn; [by intros [= <-]; apply rtc_refl|].
  destruct (ex_act s action) as [s1|] eqn:Ha; [|done]. destruct (ex_calm s s1) eqn:Hc; [|done]. intros Hs.
  eapply rtc_l; [by eapply ex_calm_step|by apply IH].
Qed.

Definition ex_enqueued : list ex_action :=
  [ExCreate (ex_session "s" "u" "m" "") 1000; ExEnqueue (ex_input "i1" "one"); ExCall 0 1001; ExCall 0 1002].
Definition ex_enqueued_state : gateway_state := default ex_initial (ex_calm_script ex_initial ex_enqueued).
Definition ex_running_state : gateway_state := default ex_initial (ex_script ex_enqueued_state [ExCall 0 1003; ExRun 0 1004]).

Lemma ex_enqueued_run : rtc x_calm ex_initial ex_enqueued_state.
Proof.
  assert (is_Some (ex_calm_script ex_initial ex_enqueued)) as [s Hs] by (vm_compute; by eexists).
  unfold ex_enqueued_state. rewrite Hs. by eapply ex_calm_script_run.
Qed.

Lemma calm_run_run s s' : rtc x_calm s s' → rtc x_step s s'.
Proof. induction 1 as [|s s1 s' Hs _ IH]; [apply rtc_refl|]. eapply rtc_l; [apply Hs|done]. Qed.

Lemma ex_running_run : rtc x_step ex_initial ex_running_state.
Proof.
  etrans; [apply calm_run_run, ex_enqueued_run|].
  assert (is_Some (ex_script ex_enqueued_state [ExCall 0 1003; ExRun 0 1004])) as [s Hs] by (vm_compute; by eexists).
  unfold ex_running_state. rewrite Hs. by eapply ex_script_run.
Qed.

Lemma queue_always_served_witness :
  (∃ k r, ex_enqueued_state.1.2 !! k = Some r ∧ rr_session r = "s" ∧ serving (rr_phase r)) ∨
  (∃ k event, ex_enqueued_state.2 !! k = Some (CallSchedule "s" event)).
Proof.
  apply (queue_always_served ex_marshal_input ex_marshal_session ex_error_text ex_url ex_rune_lower ex_moves
    {| xk_submitted := []; xk_executions := [] |} ex_enqueued_state.1.1).
  - exact ex_enqueued_run.
  - by vm_compute.
  - exists 0%nat. vm_compute. eexists. split; [reflexivity|]. by vm_compute.
Defined.

Definition ex_only_runner : session_runner := default {| rr_session := ""; rr_phase := RunGone |} (ex_running_state.1.2 !! 0%nat).

Lemma one_runner_per_session_witness :
  length ex_running_state.1.2 = 1%nat ∧ rr_session ex_only_runner = "s" ∧ rr_phase ex_only_runner ≠ RunGone ∧ 0%nat = 0%nat.
Proof.
  assert (ex_running_state.1.2 !! 0%nat = Some ex_only_runner) as Ha by (by vm_compute).
  assert (rr_phase ex_only_runner ≠ RunGone) as Hl by (by vm_compute).
  split; [by vm_compute|]. split; [by vm_compute|]. split; [exact Hl|].
  exact (one_runner_per_session ex_marshal_input ex_marshal_session ex_error_text ex_url ex_rune_lower ex_moves
    {| xk_submitted := []; xk_executions := [] |} ex_running_state.1.1 ex_running_state.1.2 ex_running_state.2 0 0 ex_only_runner ex_only_runner
    ex_running_run Ha Ha eq_refl Hl Hl).
Defined.
