(* ===== verification/GatewayService.v ===== *)
(** The requests of the gateway, [gateway/service.go], and the plugins of a session, [gateway/plugins.go].  The gate of
    [GatewaySession] serializes the requests that change a session; here each is one function of the state.
    Nobody reaches the session of another user, and a session is created as a whole or not at all. *)

From S2P Require Import Prelude GoText Names Sha256 Message ContextInjection Delivery Trajectory Agent Registrar Composition EventDispatch Payload SessionState PromptHost Paging Base64 Registry GatewayEvent GatewayEventProperties GatewayInput GatewayInputProperties GatewayInteraction GatewayPermission GatewaySession GatewaySessionProperties GatewayConversation GatewaySupervisor GatewaySupervisorProperties BitCodec.
Import Utf8.

(** ** Plugins of a session *)

Definition validateExpectedRevision (revision : Z) : result unit :=
  fail_if revision =? 0 with Wrapf "%w: expected session revision must be positive" [] (Sentinel GatewayErrInvalidRequest);
  Ok tt.

(** [strings.Cut] at the first [@]. *)
Fixpoint cut_at (s : string) : string * option string :=
  match s with
  | "" => ("", None)
  | String c s => if Ascii.eqb c "@" then ("", Some s) else let '(before, after) := cut_at s in (String c before, after)
  end.

Definition parseSelector (raw : string) : result (string * string) :=
  let '(name, instance) := cut_at (TrimSpace raw) in
  let name := TrimSpace name in
  try? ValidateResourceName "plugin" name;
  match instance with
  | None => Ok (name, "")
  | Some instanceID =>
      let instanceID := TrimSpace instanceID in
      fail_if is_empty instanceID with errors_New "plugin selector instance ID is empty";
      try? ValidateResourceName "plugin instance" instanceID;
      Ok (name, instanceID)
  end.

Definition bindingFromInstance (instance : PluginInstance) : PluginBinding :=
  let registration := pi_Registration instance in
  {| pb_Namespace := rg_Namespace registration; pb_Name := rg_Name registration; pb_InstanceID := rg_InstanceID registration;
     pb_URI := rg_URI registration; pb_Manifest := rg_Manifest registration; pb_Labels := rg_Labels registration; pb_Epoch := pi_Epoch instance |}.

Fixpoint put_binding (binding : PluginBinding) (plugins : list PluginBinding) : list PluginBinding :=
  match plugins with
  | [] => [binding]
  | plugin :: plugins => if bool_decide (pb_Name plugin = pb_Name binding) then binding :: plugins else plugin :: put_binding binding plugins
  end.

Definition set_plugins (session : gateway_Session) (plugins : list PluginBinding) : gateway_Session :=
  {| gs_ID := gs_ID session; gs_UserID := gs_UserID session; gs_Title := gs_Title session; gs_Provider := gs_Provider session;
     gs_Model := gs_Model session; gs_Models := gs_Models session; gs_Tools := gs_Tools session; gs_System := gs_System session;
     gs_MaxTurns := gs_MaxTurns session; gs_WorkspaceRoot := gs_WorkspaceRoot session; gs_RuntimeConfig := gs_RuntimeConfig session;
     gs_AutoCompact := gs_AutoCompact session; gs_ThinkingLevel := gs_ThinkingLevel session; gs_Permissions := gs_Permissions session;
     gs_Paused := gs_Paused session; gs_Revision := gs_Revision session; gs_Plugins := plugins; gs_CreatedAt := gs_CreatedAt session;
     gs_UpdatedAt := gs_UpdatedAt session |}.

Record PluginReference := { pf_Name : string; pf_URI : string; pf_Description : string; pf_Labels : gmap string string }.

(** The interface [PluginCatalog], answering at one instant. *)
Record PluginCatalog := {
  ct_Get : context → InstanceKey → result PluginInstance;
  ct_List : context → DiscoveryQuery → RegistryPageRequest → result DiscoveryPage;
}.

Section catalog.
Context (catalog : PluginCatalog).

Definition resolve_binding (ctx : context) (binding : PluginBinding) : result PluginReference :=
  match ct_Get catalog ctx {| ik_Namespace := pb_Namespace binding; ik_Name := pb_Name binding; ik_InstanceID := pb_InstanceID binding |} with
  | Err _ =>
      Err (Wrapf "%w: %s/%s@%s is unavailable" [AStr (pb_Namespace binding); AStr (pb_Name binding); AStr (pb_InstanceID binding)] (Sentinel ErrBindingStale))
  | Ok instance =>
      fail_if negb (pi_Epoch instance =? pb_Epoch binding) || negb (bool_decide (rg_URI (pi_Registration instance) = pb_URI binding)) with
        Wrapf "%w: %s/%s@%s changed (bound epoch %d, current epoch %d)"
          [AStr (pb_Namespace binding); AStr (pb_Name binding); AStr (pb_InstanceID binding); ANum (pb_Epoch binding); ANum (pi_Epoch instance)]
          (Sentinel ErrBindingStale);
      Ok {| pf_Name := pb_Name binding; pf_URI := pb_URI binding; pf_Description := mf_Description (pb_Manifest binding); pf_Labels := pb_Labels binding |}
  end.

Fixpoint resolve_bindings (ctx : context) (bindings : list PluginBinding) : result (list PluginReference) :=
  match bindings with
  | [] => Ok []
  | binding :: bindings =>
      let? reference := resolve_binding ctx binding in
      let? references := resolve_bindings ctx bindings in
      Ok (reference :: references)
  end.

Definition resolvePluginReferences (ctx : context) (session : gateway_Session) : result (list PluginReference) :=
  resolve_bindings ctx (gs_Plugins session).

(** The pages of the instances of a plugin; [fuel] bounds their number. *)
Fixpoint instance_pages (fuel : nat) (ctx : context) (query : DiscoveryQuery) (after : string) : result (list PluginInstance) :=
  match fuel with
  | O => Err (errors_New "pages left")
  | S fuel =>
      let? page := ct_List catalog ctx query {| rp_After := after; rp_Limit := reg_MaxPageSize |} in
      if is_empty (dp_Next page) then Ok (dp_Items page) else
      let? rest := instance_pages fuel ctx query (dp_Next page) in
      Ok (dp_Items page ++ rest)
  end.

Fixpoint join_comma (l : list string) : string :=
  match l with [] => "" | [x] => x | x :: l => x +:+ ", " +:+ join_comma l end.

Context (error_text : error → string).

Definition selectInstance (fuel : nat) (ctx : context) (namespace rawSelector : string) : result PluginInstance :=
  match parseSelector rawSelector with
  | Err err => Err (gateway_invalid error_text err)
  | Ok (name, instanceID) =>
      if negb (is_empty instanceID) then
        match ct_Get catalog ctx {| ik_Namespace := namespace; ik_Name := name; ik_InstanceID := instanceID |} with
        | Err err => Err (Wrapf "select gateway plugin %q: %w" [AStr rawSelector] err)
        | Ok instance => Ok instance
        end
      else
        let? instances := instance_pages fuel ctx
          {| dq_Namespace := namespace; dq_Name := name; dq_Version := ""; dq_Resource := ""; dq_Labels := ∅ |} "" in
        match instances with
        | [] => Err (Wrapf "%w: plugin %q has no active instance" [AStr name] (Sentinel ErrInstanceNotFound))
        | [instance] => Ok instance
        | _ =>
            let candidates := SortFunc strings_Compare
              ((λ instance, rg_Name (pi_Registration instance) +:+ "@" +:+ rg_InstanceID (pi_Registration instance)) <$> instances) in
            Err (Wrapf "%w: plugin %q has multiple active instances; select one of %s" [AStr name; AStr (join_comma candidates)] (Sentinel ErrPluginAmbiguous))
        end
  end.
End catalog.

(** ** Patches *)

Definition add_rule (pattern : string) (rules : list string) : list string * bool :=
  if bool_decide (pattern ∈ rules) then (rules, false) else (rules ++ [pattern], true).

Definition patch_permissions (rules : PermissionRules) (kind pattern : string) : result (PermissionRules * bool) :=
  if String.eqb kind "allow" then
    let '(l, changed) := add_rule pattern (pm_Allow rules) in Ok ({| pm_Allow := l; pm_Ask := pm_Ask rules; pm_Deny := pm_Deny rules |}, changed)
  else if String.eqb kind "ask" then
    let '(l, changed) := add_rule pattern (pm_Ask rules) in Ok ({| pm_Allow := pm_Allow rules; pm_Ask := l; pm_Deny := pm_Deny rules |}, changed)
  else if String.eqb kind "deny" then
    let '(l, changed) := add_rule pattern (pm_Deny rules) in Ok ({| pm_Allow := pm_Allow rules; pm_Ask := pm_Ask rules; pm_Deny := l |}, changed)
  else Err (Errorf "gateway permission rule kind %q is invalid" [AStr kind]).

(** The new value of a field, and whether it differs. *)
Definition patch_text (patch : option string) (f : string → string) (current : string) : string * bool :=
  match patch with
  | None => (current, false)
  | Some value => (f value, negb (bool_decide (current = f value)))
  end.

Section requests.
Context {B : Type} `{!ExecutionBackend B} `{!GatewayJSON}.
Context (marshal_input : AgentInput → result string) (marshal_session : gateway_Session → result string)
  (marshal_interaction : Interaction → result string) (error_text : error → string).
Context (url_Parse : string → result URL) (ToLower : rune → rune).

Definition applySessionPatch (session : gateway_Session) (patch : SessionPatch) : result (gateway_Session * bool) :=
  let '(title, changedTitle) := patch_text (sp_Title patch) TrimSpace (gs_Title session) in
  fail_if match sp_Model patch with Some model => blank model | None => false end with errors_New "gateway session model is empty";
  let '(model, changedModel) := patch_text (sp_Model patch) TrimSpace (gs_Model session) in
  let '(autoCompact, changedCompact) :=
    match sp_AutoCompact patch with
    | None => (gs_AutoCompact session, false)
    | Some enabled => (Some enabled, negb (bool_decide (gs_AutoCompact session = Some enabled)))
    end in
  let '(thinking, changedThinking) := patch_text (sp_ThinkingLevel patch) (λ level, strings_ToLower ToLower (TrimSpace level)) (gs_ThinkingLevel session) in
  let? '(permissions, changedPermissions) :=
    match sp_PermissionRule patch with
    | None => Ok (gs_Permissions session, false)
    | Some rule =>
        let kind := strings_ToLower ToLower (TrimSpace (prl_Kind rule)) in
        let pattern := TrimSpace (prl_Pattern rule) in
        fail_if is_empty pattern with errors_New "gateway permission pattern is empty";
        patch_permissions (gs_Permissions session) kind pattern
    end in
  let? normalized := normalizeSession url_Parse ToLower
    {| gs_ID := gs_ID session; gs_UserID := gs_UserID session; gs_Title := title; gs_Provider := gs_Provider session; gs_Model := model;
       gs_Models := gs_Models session; gs_Tools := gs_Tools session; gs_System := gs_System session; gs_MaxTurns := gs_MaxTurns session;
       gs_WorkspaceRoot := gs_WorkspaceRoot session; gs_RuntimeConfig := gs_RuntimeConfig session; gs_AutoCompact := autoCompact;
       gs_ThinkingLevel := thinking; gs_Permissions := permissions; gs_Paused := gs_Paused session; gs_Revision := gs_Revision session;
       gs_Plugins := gs_Plugins session; gs_CreatedAt := gs_CreatedAt session; gs_UpdatedAt := gs_UpdatedAt session |} in
  Ok (normalized, changedTitle || changedModel || changedCompact || changedThinking || changedPermissions).

(** ** The requests *)

Abbreviation world := (gateway_world B).
Abbreviation owned_session := (ownedSession (B := B)).

Definition requireIdle (w : world) (ctx : context) (session : gateway_Session) : result unit :=
  match xb_Current (gw_backend w) ctx session with
  | Err err => if errors_Is err GatewayErrExecutionNotFound then Ok tt else Err err
  | Ok execution =>
      fail_if negb (Execution_Terminal (xe_Execution execution)) with
        Wrapf "%w: %s" [AStr (ex_ID (xe_Execution execution))] (Sentinel ErrExecutionActive);
      Ok tt
  end.

Definition checkIdle (w : world) (ctx : context) (session : gateway_Session) : result unit :=
  match requireIdle w ctx session with
  | Err err => Err (Wrapf "change gateway session %s composition: %w" [AStr (gs_ID session)] err)
  | Ok _ => Ok tt
  end.

Definition save_session (w : world) (ctx : context) (session : gateway_Session) (expectedRevision : Z) (now : time)
    : result gateway_Session * world :=
  match sstore_Save url_Parse ToLower (gw_sessions w) ctx session expectedRevision now with
  | Err err => (Err err, w)
  | Ok (saved, sessions) => (Ok saved, set_sessions w sessions)
  end.

(** The result of the checks of a request, before what it changes. *)
Definition then_change {A C} (checks : result A) (w : world) (change : A → result C * world) : result C * world :=
  match checks with Err err => (Err err, w) | Ok a => change a end.

Definition AttachPlugin (catalog : PluginCatalog) (namespace : string) (fuel : nat) (w : world) (ctx : context) (userID sessionID selector : string)
    (expectedRevision : Z) (now : time) : result gateway_Session * world :=
  then_change
    (let? session := owned_session w ctx userID sessionID in
     try? validateExpectedRevision expectedRevision;
     try? checkIdle w ctx session;
     let? instance := selectInstance catalog error_text fuel ctx namespace selector in
     Ok (set_plugins session (put_binding (bindingFromInstance instance) (gs_Plugins session))))
    w (λ session, save_session w ctx session expectedRevision now).

Definition DetachPlugin (w : world) (ctx : context) (userID sessionID name : string) (expectedRevision : Z) (now : time)
    : result gateway_Session * world :=
  then_change
    (let? session := owned_session w ctx userID sessionID in
     try? validateExpectedRevision expectedRevision;
     try? checkIdle w ctx session;
     let name := TrimSpace name in
     try? match ValidateResourceName "plugin" name with Err err => Err (gateway_invalid error_text err) | Ok _ => Ok tt end;
     let filtered := filter (λ binding, pb_Name binding ≠ name) (gs_Plugins session) in
     fail_if negb (existsb (λ binding, bool_decide (pb_Name binding = name)) (gs_Plugins session)) with
       Wrapf "%w: %s" [AStr name] (Sentinel ErrPluginNotBound);
     Ok (set_plugins session filtered))
    w (λ session, save_session w ctx session expectedRevision now).

(** [CreateSession]; [defaults] are the defaults of the service. *)
Definition CreateSession (defaults : gateway_Session) (w : world) (ctx : context) (session : gateway_Session) (now : time)
    : result gateway_Session * world :=
  if gw_draining w then (Err (Sentinel ErrGatewayDraining), w) else
  let session :=
    {| gs_ID := gs_ID session; gs_UserID := gs_UserID session; gs_Title := gs_Title session;
       gs_Provider := string_default (gs_Provider session) (gs_Provider defaults); gs_Model := gs_Model session; gs_Models := gs_Models session;
       gs_Tools := gs_Tools session; gs_System := string_default (gs_System session) (gs_System defaults);
       gs_MaxTurns := if gs_MaxTurns session =? 0 then gs_MaxTurns defaults else gs_MaxTurns session;
       gs_WorkspaceRoot := gs_WorkspaceRoot session; gs_RuntimeConfig := gs_RuntimeConfig session; gs_AutoCompact := gs_AutoCompact session;
       gs_ThinkingLevel := gs_ThinkingLevel session; gs_Permissions := gs_Permissions session; gs_Paused := gs_Paused session;
       gs_Revision := gs_Revision session; gs_Plugins := gs_Plugins session; gs_CreatedAt := gs_CreatedAt session; gs_UpdatedAt := gs_UpdatedAt session |} in
  match normalizeSession url_Parse ToLower session with
  | Err err => (Err (gateway_invalid error_text err), w)
  | Ok session =>
      match sstore_Create url_Parse ToLower (gw_sessions w) ctx session now with
      | Err err => (Err err, w)
      | Ok (created, sessions) =>
          let w := set_sessions w sessions in
          match xb_CreateSession (gw_backend w) ctx created with
          | (Ok _, backend) => (Ok created, set_backend w backend)
          | (Err err, backend) =>
              let w := set_backend w backend in
              let failure := Wrapf "create gateway execution session: %w" [] err in
              match sstore_Delete (gw_sessions w) None (gs_ID created) (gs_Revision created) with
              | Ok sessions => (Err (Joined [failure]), set_sessions w sessions)
              | Err deleteErr => (Err (Joined [failure; deleteErr]), w)
              end
          end
      end
  end.

Definition GetSession (w : world) (ctx : context) (userID id : string) : result gateway_Session := owned_session w ctx userID id.

Definition UpdateSession (w : world) (ctx : context) (userID id : string) (expectedRevision : Z) (patch : SessionPatch) (now : time)
    : result gateway_Session * world :=
  then_change
    (let? session := owned_session w ctx userID id in
     fail_if negb (gs_Revision session =? expectedRevision) with session_conflict session expectedRevision;
     match applySessionPatch session patch with Err err => Err (gateway_invalid error_text err) | Ok (updated, changed) => Ok (session, updated, changed) end)
    w (λ '(session, updated, changed),
      if negb changed then (Ok session, w) else
      match save_session w ctx updated expectedRevision now with
      | (Ok updated, w) => (Ok updated, supervisor_emit w (gs_ID session) GatewayEventSessionUpdated (marshal_session updated) now)
      | (Err err, w) => (Err err, w)
      end).

Definition service_ListSessions (w : world) (ctx : context) (userID : string) (request : PageRequest) : result SessionPage :=
  match normalizeUserID userID with
  | Err err => Err (gateway_invalid error_text err)
  | Ok userID =>
      match validatePage request with
      | Err err => Err (gateway_invalid error_text err)
      | Ok request => sstore_ListByUser (gw_sessions w) ctx userID request
      end
  end.

Definition SubmitMessage (w : world) (ctx : context) (userID sessionID content : string) : result Execution * world :=
  then_change
    (fail_if gw_draining w with Sentinel ErrGatewayDraining;
     fail_if blank content with Wrapf "%w: gateway message content is empty" [] (Sentinel GatewayErrInvalidRequest);
     owned_session w ctx userID sessionID)
    w (λ session, let '(submitted, backend) := xb_Submit (gw_backend w) ctx session content in (submitted, set_backend w backend)).

Definition execution_id (raw : string) : result string :=
  let executionID := TrimSpace raw in
  fail_if is_empty executionID with Wrapf "%w: gateway execution ID is empty" [] (Sentinel GatewayErrInvalidRequest);
  Ok executionID.

Definition normalizeGatewayContextInjection (injection : ContextInjection) (e : entropy) (now : time) : result ContextInjection :=
  match NormalizeContextInjection injection now now e with
  | Err err => Err (Wrap2 (Sentinel GatewayErrInvalidRequest) err)
  | Ok normalized => Ok normalized
  end.

Definition service_EnqueueContextInjection (w : world) (ctx : context) (userID sessionID executionID : string) (injection : ContextInjection)
    (e : entropy) (now : time) : result Execution * world :=
  then_change
    (let? session := owned_session w ctx userID sessionID in
     let? executionID := execution_id executionID in
     let? injection := normalizeGatewayContextInjection injection e now in
     Ok (session, executionID, injection))
    w (λ '(session, executionID, injection),
      let '(execution, backend) := xb_EnqueueContextInjection (gw_backend w) ctx session executionID injection in (execution, set_backend w backend)).

Definition service_ListEvents (w : world) (ctx : context) (userID sessionID : string) (query : EventQuery) : result EventPage :=
  let? session := owned_session w ctx userID sessionID in
  estore_List (gw_events w) ctx (gs_ID session) query.

Definition GetEventCursor (w : world) (ctx : context) (userID trajectoryID : string) : result Z :=
  try? owned_session w ctx userID trajectoryID;
  estore_Latest (gw_events w) ctx trajectoryID.

(** [WaitEvents] up to its first sleep: a page, or the channel it sleeps on. *)
Definition WaitEvents (w : world) (ctx : context) (userID sessionID : string) (query : EventQuery) : result (EventPage + nat) * world :=
  then_change
    (let? session := owned_session w ctx userID sessionID in wait_request (gs_ID session) query)
    w (λ '(sessionID, query),
      match estore_Wait (gw_events w) sessionID query with
      | (inl (Ok page), events) => (Ok (inl page), set_events w events)
      | (inl (Err err), events) => (Err err, set_events w events)
      | (inr channel, events) => (Ok (inr channel), set_events w events)
      end).

(** [EnqueueInput] and the goroutine that it starts. *)
Definition EnqueueInput (w : world) (ctx : context) (userID sessionID : string) (input : AgentInput) (e : entropy) (now : time)
    : result (AgentInput * list session_runner) * world :=
  then_change
    (fail_if gw_draining w with Sentinel ErrGatewayDraining; owned_session w ctx userID sessionID)
    w (λ session,
      match enqueue_input marshal_input error_text w ctx session input e now with
      | (Err err, w) => (Err err, w)
      | (Ok input, w) =>
          if gs_Paused session then (Ok (input, []), w) else
          let '(w, started) := supervisor_schedule w (gs_ID session) in (Ok (input, started), w)
      end).

Definition GetInput (w : world) (ctx : context) (userID sessionID inputID : string) : result AgentInput :=
  let? session := owned_session w ctx userID sessionID in
  istore_Get (gw_inputs w) ctx (gs_ID session) inputID.

Definition ListInputs (w : world) (ctx : context) (userID sessionID : string) (query : InputQuery) : result InputPage :=
  let? session := owned_session w ctx userID sessionID in
  istore_List (gw_inputs w) ctx (gs_ID session) query.

Definition CancelInput (w : world) (ctx : context) (userID sessionID inputID : string) (expectedRevision : Z) (now : time)
    : result AgentInput * world :=
  then_change
    (let? session := owned_session w ctx userID sessionID in
     let? input := istore_Get (gw_inputs w) ctx (gs_ID session) inputID in
     fail_if negb (ai_Revision input =? expectedRevision) with
       Wrapf "%w: input %s has revision %d, expected %d" [AStr (ai_ID input); ANum (ai_Revision input); ANum expectedRevision] (Sentinel ErrInputConflict);
     Ok (session, input))
    w (λ '(session, input),
      if AgentInputState_Terminal (ai_State input) then (Ok input, w) else
      if bool_decide (ai_State input = AgentInputQueued) then
        match istore_CancelQueued (gw_inputs w) ctx (gs_ID session) (ai_ID input) expectedRevision now with
        | Ok (cancelled, inputs) =>
            (Ok cancelled, supervisor_emit (set_inputs w inputs) (gs_ID session) GatewayEventInputCompleted (marshal_input cancelled) now)
        | Err err => (Err err, w)
        end
      else if is_empty (ai_ExecutionID input) then
        (Err (Wrapf "%w: input %s is being bound to an execution; retry cancellation" [AStr (ai_ID input)] (Sentinel ErrInputConflict)), w)
      else
        match xb_Cancel (gw_backend w) ctx session (ai_ExecutionID input) with
        | (Ok _, backend) => (Ok input, set_backend w backend)
        | (Err err, backend) => (Err err, set_backend w backend)
        end).

(** [SetSessionPaused] and the goroutine that a resume starts. *)
Definition SetSessionPaused (w : world) (ctx : context) (userID sessionID : string) (paused : bool) (expectedRevision : Z) (now : time)
    : result (gateway_Session * list session_runner) * world :=
  then_change (owned_session w ctx userID sessionID) w (λ session,
    match save_paused url_Parse ToLower w ctx session paused expectedRevision now with
    | (Err err, w) => (Err err, w)
    | (Ok (updated, false), w) => (Ok (updated, []), w)
    | (Ok (updated, true), w) =>
        let '(w, started) := if paused then (w, []) else supervisor_schedule w (gs_ID session) in
        (Ok (updated, started),
         supervisor_emit w (gs_ID session) (if paused then GatewayEventSessionPaused else GatewayEventSessionResumed) (marshal_session updated) now)
    end).

Definition GetInteraction (w : world) (ctx : context) (userID sessionID interactionID : string) : result Interaction :=
  let? session := owned_session w ctx userID sessionID in
  nstore_Get (gw_interactions w) ctx (gs_ID session) interactionID.

Definition service_ListInteractions (w : world) (ctx : context) (userID sessionID : string) (query : InteractionQuery) : result InteractionPage :=
  let? session := owned_session w ctx userID sessionID in
  nstore_List (gw_interactions w) ctx (gs_ID session) query.

Definition ResolveInteraction (w : world) (ctx : context) (userID sessionID interactionID : string) (expectedRevision : Z) (answer : InteractionAnswer)
    (now : time) : result Interaction * world :=
  then_change (owned_session w ctx userID sessionID) w (λ session,
    let '(resolved, m) := manager_Resolve marshal_interaction {| im_store := gw_interactions w; im_events := gw_events w |} ctx (gs_ID session)
                            interactionID expectedRevision answer now in
    let w := {| gw_sessions := gw_sessions w; gw_inputs := gw_inputs w; gw_interactions := im_store m; gw_events := im_events m;
                gw_backend := gw_backend w; gw_ctx := gw_ctx w; gw_runners := gw_runners w; gw_draining := gw_draining w |} in
    (match resolved with
     | Ok resolved => Ok resolved
     | Err err => if errors_Is err ErrInteractionConflict then Err err else Err (gateway_invalid error_text err)
     end, w)).

Definition GetExecution (w : world) (ctx : context) (userID sessionID executionID : string) : result Execution :=
  let? session := owned_session w ctx userID sessionID in
  let? executionID := execution_id executionID in
  xb_Get (gw_backend w) ctx session executionID.

Definition CancelExecution (w : world) (ctx : context) (userID sessionID executionID : string) : result Execution * world :=
  then_change
    (let? session := owned_session w ctx userID sessionID in
     let? executionID := execution_id executionID in
     Ok (session, executionID))
    w (λ '(session, executionID), let '(execution, backend) := xb_Cancel (gw_backend w) ctx session executionID in (execution, set_backend w backend)).

(** The optional interface [TrajectoryBackend]. *)
Record TrajectoryBackend := {
  tb_Load : B → context → gateway_Session → string → result Trajectory;
  tb_Rollback : B → context → gateway_Session → string → result Trajectory * B;
}.

Definition LoadTrajectory (trajectories : option TrajectoryBackend) (w : world) (ctx : context) (userID trajectoryID head : string) : result Trajectory :=
  match trajectories with
  | None => Err (errors_New "gateway trajectory inspection is unavailable")
  | Some backend =>
      let? session := owned_session w ctx userID trajectoryID in
      tb_Load backend (gw_backend w) ctx session (TrimSpace head)
  end.

(** The optional interfaces [TrajectoryConversationBackend] and [TrajectoryEntryPageBackend] of the execution backend. *)
Record InspectionBackend := {
  ib_ListConversation : option (B → context → gateway_Session → string → ConversationQuery → result ConversationPage);
  ib_ListTrajectoryEntries : option (B → context → gateway_Session → string → EntryPageQuery → result TrajectoryEntryPage);
}.

(** [json.Marshal] on the items of pages. *)
Definition ListConversation `{!PayloadCodec} (marshal_chunk : ConversationMessage → result string) (trajectories : option TrajectoryBackend)
    (inspection : InspectionBackend) (w : world) (ctx : context) (userID trajectoryID head : string) (query : ConversationQuery) : result ConversationPage :=
  let? session := owned_session w ctx userID trajectoryID in
  match ib_ListConversation inspection with
  | Some list_conversation => list_conversation (gw_backend w) ctx session (TrimSpace head) query
  | None =>
      let? trajectory := LoadTrajectory trajectories w ctx userID trajectoryID (TrimSpace head) in
      projectConversationPage marshal_chunk trajectory query
  end.

Definition ListTrajectoryEntries (marshal_entry : TrajectoryEntrySummary → result string) (trajectories : option TrajectoryBackend)
    (inspection : InspectionBackend) (w : world) (ctx : context) (userID trajectoryID head : string) (query : EntryPageQuery) : result TrajectoryEntryPage :=
  let? session := owned_session w ctx userID trajectoryID in
  match ib_ListTrajectoryEntries inspection with
  | Some list_entries => list_entries (gw_backend w) ctx session (TrimSpace head) query
  | None =>
      let? trajectory := LoadTrajectory trajectories w ctx userID trajectoryID (TrimSpace head) in
      projectTrajectoryEntryPage marshal_entry trajectory query
  end.

Definition service_RollbackTrajectory (trajectories : option TrajectoryBackend) (w : world) (ctx : context) (userID trajectoryID checkpointID : string)
    : result Trajectory * world :=
  match trajectories with
  | None => (Err (errors_New "gateway trajectory rollback is unavailable"), w)
  | Some backend =>
      then_change
        (let? session := owned_session w ctx userID trajectoryID in
         try? requireIdle w ctx session;
         Ok session)
        w (λ session, let '(trajectory, b) := tb_Rollback backend (gw_backend w) ctx session (TrimSpace checkpointID) in (trajectory, set_backend w b))
  end.

Definition Drain (w : world) : world :=
  {| gw_sessions := gw_sessions w; gw_inputs := gw_inputs w; gw_interactions := gw_interactions w; gw_events := gw_events w;
     gw_backend := gw_backend w; gw_ctx := Some (Sentinel ContextCanceled); gw_runners := gw_runners w; gw_draining := true |}.
End requests.

(** ** Requests on a session *)

Inductive session_request :=
  | ReqGetSession
  | ReqUpdateSession (expectedRevision : Z) (patch : SessionPatch)
  | ReqAttachPlugin (selector : string) (expectedRevision : Z)
  | ReqDetachPlugin (name : string) (expectedRevision : Z)
  | ReqSubmitMessage (content : string)
  | ReqEnqueueContextInjection (executionID : string) (injection : ContextInjection)
  | ReqListEvents (query : EventQuery)
  | ReqGetEventCursor
  | ReqWaitEvents (query : EventQuery)
  | ReqEnqueueInput (input : AgentInput)
  | ReqGetInput (inputID : string)
  | ReqListInputs (query : InputQuery)
  | ReqCancelInput (inputID : string) (expectedRevision : Z)
  | ReqSetSessionPaused (paused : bool) (expectedRevision : Z)
  | ReqGetInteraction (interactionID : string)
  | ReqListInteractions (query : InteractionQuery)
  | ReqResolveInteraction (interactionID : string) (expectedRevision : Z) (answer : InteractionAnswer)
  | ReqGetExecution (executionID : string)
  | ReqCancelExecution (executionID : string)
  | ReqLoadTrajectory (head : string)
  | ReqListConversation (head : string) (query : ConversationQuery)
  | ReqListTrajectoryEntries (head : string) (query : EntryPageQuery)
  | ReqRollbackTrajectory (checkpointID : string).

Inductive session_response :=
  | ResSession (session : gateway_Session)
  | ResExecution (execution : Execution)
  | ResEvents (page : EventPage + nat)
  | ResCursor (sequence : Z)
  | ResInput (input : AgentInput)
  | ResInputs (page : InputPage)
  | ResInteraction (interaction : Interaction)
  | ResInteractions (page : InteractionPage)
  | ResTrajectory (trajectory : Trajectory)
  | ResConversation (page : ConversationPage)
  | ResEntries (page : TrajectoryEntryPage).

Section access.
Context {B : Type} `{!ExecutionBackend B} `{!GatewayJSON}.
Context (marshal_input : AgentInput → result string) (marshal_session : gateway_Session → result string)
  (marshal_interaction : Interaction → result string) (error_text : error → string).
Context (url_Parse : string → result URL) (ToLower : rune → rune).
Context (catalog : PluginCatalog) (namespace : string) (fuel : nat) (trajectories : option (TrajectoryBackend (B := B))).
Context `{!PayloadCodec} (marshal_chunk : ConversationMessage → result string) (marshal_entry : TrajectoryEntrySummary → result string)
  (inspection : InspectionBackend (B := B)).

Definition answer_of {A} (f : A → session_response) (r : result A) : result session_response :=
  match r with Ok a => Ok (f a) | Err err => Err err end.

Definition on_fst {A C D} (f : A → C) (p : A * D) : C * D := (f p.1, p.2).

(** The request of a user on a session. *)
Definition serve (w : gateway_world B) (ctx : context) (userID sessionID : string) (request : session_request) (e : entropy) (now : time)
    : result session_response * gateway_world B :=
  match request with
  | ReqGetSession => (answer_of ResSession (GetSession w ctx userID sessionID), w)
  | ReqUpdateSession revision patch =>
      on_fst (answer_of ResSession) (UpdateSession marshal_session error_text url_Parse ToLower w ctx userID sessionID revision patch now)
  | ReqAttachPlugin selector revision =>
      on_fst (answer_of ResSession) (AttachPlugin error_text url_Parse ToLower catalog namespace fuel w ctx userID sessionID selector revision now)
  | ReqDetachPlugin name revision => on_fst (answer_of ResSession) (DetachPlugin error_text url_Parse ToLower w ctx userID sessionID name revision now)
  | ReqSubmitMessage content => on_fst (answer_of ResExecution) (SubmitMessage w ctx userID sessionID content)
  | ReqEnqueueContextInjection executionID injection =>
      on_fst (answer_of ResExecution) (service_EnqueueContextInjection w ctx userID sessionID executionID injection e now)
  | ReqListEvents query => (answer_of (λ page, ResEvents (inl page)) (service_ListEvents w ctx userID sessionID query), w)
  | ReqGetEventCursor => (answer_of ResCursor (GetEventCursor w ctx userID sessionID), w)
  | ReqWaitEvents query => on_fst (answer_of ResEvents) (WaitEvents w ctx userID sessionID query)
  | ReqEnqueueInput input =>
      on_fst (answer_of (λ r, ResInput r.1)) (EnqueueInput marshal_input error_text w ctx userID sessionID input e now)
  | ReqGetInput inputID => (answer_of ResInput (GetInput w ctx userID sessionID inputID), w)
  | ReqListInputs query => (answer_of ResInputs (ListInputs w ctx userID sessionID query), w)
  | ReqCancelInput inputID revision => on_fst (answer_of ResInput) (CancelInput marshal_input w ctx userID sessionID inputID revision now)
  | ReqSetSessionPaused paused revision =>
      on_fst (answer_of (λ r, ResSession r.1)) (SetSessionPaused marshal_session url_Parse ToLower w ctx userID sessionID paused revision now)
  | ReqGetInteraction interactionID => (answer_of ResInteraction (GetInteraction w ctx userID sessionID interactionID), w)
  | ReqListInteractions query => (answer_of ResInteractions (service_ListInteractions w ctx userID sessionID query), w)
  | ReqResolveInteraction interactionID revision answer =>
      on_fst (answer_of ResInteraction) (ResolveInteraction marshal_interaction error_text w ctx userID sessionID interactionID revision answer now)
  | ReqGetExecution executionID => (answer_of ResExecution (GetExecution w ctx userID sessionID executionID), w)
  | ReqCancelExecution executionID => on_fst (answer_of ResExecution) (CancelExecution w ctx userID sessionID executionID)
  | ReqLoadTrajectory head => (answer_of ResTrajectory (LoadTrajectory trajectories w ctx userID sessionID head), w)
  | ReqListConversation head query =>
      (answer_of ResConversation (ListConversation marshal_chunk trajectories inspection w ctx userID sessionID head query), w)
  | ReqListTrajectoryEntries head query =>
      (answer_of ResEntries (ListTrajectoryEntries marshal_entry trajectories inspection w ctx userID sessionID head query), w)
  | ReqRollbackTrajectory checkpointID =>
      on_fst (answer_of ResTrajectory) (service_RollbackTrajectory trajectories w ctx userID sessionID checkpointID)
  end.

Lemma ownedSession_foreign (w : gateway_world B) ctx userID sessionID session :
  sstore_Get (gw_sessions w) ctx sessionID = Ok session → normalizeUserID userID ≠ Ok (gs_UserID session) →
  ownedSession w ctx userID sessionID = Err (forbidden sessionID).
Proof.
  intros Hg Hne. unfold ownedSession. rewrite Hg. cbn [result_bind]. destruct (normalizeUserID userID) as [u|]; [|done].
  rewrite bool_decide_eq_false_2 by congruence. done.
Qed.

(** A request that is refused: because of the user, or for every user alike. *)
Definition refused (w : gateway_world B) ctx userID sessionID request e now : Prop :=
  ∃ err, serve w ctx userID sessionID request e now = (Err err, w) ∧
    (err = forbidden sessionID ∨ ∀ other, serve w ctx other sessionID request e now = (Err err, w)).

Lemma serve_foreign w ctx userID sessionID request e now :
  ownedSession w ctx userID sessionID = Err (forbidden sessionID) → refused w ctx userID sessionID request e now.
Proof.
  intros Ho. unfold refused. destruct request; cbn [serve];
    unfold GetSession, UpdateSession, AttachPlugin, DetachPlugin, service_EnqueueContextInjection, service_ListEvents, GetEventCursor, WaitEvents,
      GetInput, ListInputs, CancelInput, SetSessionPaused, GetInteraction, service_ListInteractions, ResolveInteraction, GetExecution, CancelExecution,
      ListConversation, ListTrajectoryEntries;
    rewrite ?Ho; try (exists (forbidden sessionID); split; [done|by left]).
  - unfold SubmitMessage. destruct (gw_draining w); [exists (Sentinel ErrGatewayDraining); split; [done|by right]|].
    destruct (blank content); [eexists; split; [done|by right]|]. rewrite Ho. exists (forbidden sessionID). split; [done|by left].
  - unfold EnqueueInput. destruct (gw_draining w); [exists (Sentinel ErrGatewayDraining); split; [done|by right]|]. rewrite Ho.
    exists (forbidden sessionID). split; [done|by left].
  - unfold LoadTrajectory. destruct trajectories; [rewrite Ho; exists (forbidden sessionID); split; [done|by left]|]. eexists. split; [done|by right].
  - unfold service_RollbackTrajectory. destruct trajectories; [rewrite Ho; exists (forbidden sessionID); split; [done|by left]|]. eexists. split; [done|by right].
Qed.
End access.

(** C19. Access to sessions: whatever a user requests on a session that belongs to somebody else, the request fails and
    leaves the sessions, inputs, interactions, events and executions as they were; the error says that access is
    forbidden, or it is one that every user would get. *)
Theorem foreign_requests_refused {B} `{!ExecutionBackend B} `{!GatewayJSON} marshal_input marshal_session marshal_interaction error_text url_Parse ToLower
    catalog namespace fuel trajectories `{!PayloadCodec} marshal_chunk marshal_entry inspection (w : gateway_world B) ctx userID sessionID session request e now :
  sstore_Get (gw_sessions w) ctx sessionID = Ok session → normalizeUserID userID ≠ Ok (gs_UserID session) →
  ∃ err, serve marshal_input marshal_session marshal_interaction error_text url_Parse ToLower catalog namespace fuel trajectories
           marshal_chunk marshal_entry inspection w ctx userID sessionID request e now = (Err err, w) ∧
    (errors_Is err ErrForbidden = true ∨
     ∀ other, serve marshal_input marshal_session marshal_interaction error_text url_Parse ToLower catalog namespace fuel trajectories
                marshal_chunk marshal_entry inspection w ctx other sessionID request e now = (Err err, w)).
Proof.
  intros Hg Hne. destruct (serve_foreign marshal_input marshal_session marshal_interaction error_text url_Parse ToLower catalog namespace fuel trajectories
    marshal_chunk marshal_entry inspection w ctx userID sessionID request e now (ownedSession_foreign _ _ _ _ _ Hg Hne)) as (err & Hs & [-> | Hall]).
  - exists (forbidden sessionID). split; [done|by left].
  - exists err. auto.
Qed.

(** A session is created as a whole or not at all: a successful [CreateSession] adds exactly one session, under a
    new ID and with its first revision; a failed one, also when the backend refuses the session after it was
    stored, leaves the sessions as they were. *)
Theorem create_session_atomic {B} `{!ExecutionBackend B} error_text url_Parse ToLower defaults (w : gateway_world B) ctx session now :
  let '(r, w') := CreateSession error_text url_Parse ToLower defaults w ctx session now in
  gw_inputs w' = gw_inputs w ∧ gw_events w' = gw_events w ∧ gw_interactions w' = gw_interactions w ∧
  match r with
  | Ok created =>
      ms_sessions (gw_sessions w) !! gs_ID created = None ∧ gs_Revision created = 1 ∧ gs_CreatedAt created = now ∧
      ms_sessions (gw_sessions w') = <[gs_ID created := created]> (ms_sessions (gw_sessions w))
  | Err _ => gw_sessions w' = gw_sessions w
  end.
Proof.
  unfold CreateSession. destruct (gw_draining w); [done|]. destruct (normalizeSession _ _ _) as [n|]; [|done].
  destruct (sstore_Create _ _ _ _ _ _) as [[created sessions]|] eqn:Hc; [|done]. unfold sstore_Create in Hc.
  apply bind_Ok in Hc as (u & _ & (n' & Hn & Hc)%bind_Ok). destruct (ms_closed (gw_sessions w)) eqn:Hcl; [done|].
  destruct (_ !! gs_ID n') as [old|] eqn:Hl; [done|]. injection Hc as <- <-. apply normalizeSession_id in Hn as [_ Hv]. cbn zeta.
  destruct (xb_CreateSession _ _ _) as [[?|err] backend]; [by cbn|].
  unfold sstore_Delete. cbn [ctx_Err result_bind gw_sessions set_backend set_sessions ms_put ms_closed ms_sessions stamp_session gs_ID gs_Revision].
  rewrite Hcl, (TrimSpace_name _ Hv), lookup_insert_eq. cbn [stamp_session gs_Revision Z.eqb Pos.eqb negb].
  cbn [set_sessions gw_inputs gw_events gw_interactions gw_sessions set_backend]. split_and!; [done|done|done|].
  rewrite delete_insert_eq, delete_id by done. destruct (gw_sessions w) as [m c]. cbn in *. by subst c.
Qed.

(** ** Normalized twice *)

Definition ex_defaults : gateway_Session := ex_session "" "" "" "".
Definition ex_empty_world : gateway_world ex_backend := initial_world {| xk_submitted := []; xk_executions := [] |}.
#[local] Existing Instance ex_execution_backend.
#[local] Existing Instance example_json.

Fixpoint repeat_text (n : nat) (s : string) : string := match n with O => "" | S n => s +:+ repeat_text n s end.
Definition ex_long_model : gateway_Session := ex_session "s" "u" (repeat_text 129 "m") "".
Definition ex_blank_part : gateway_Session := ex_session "s" "u" "m" "/data /.".

Definition ex_refused_as_internal (r : result gateway_Session) : bool :=
  match r with Err err => negb (errors_Is err GatewayErrInvalidRequest) | Ok _ => false end.
Definition ex_root (r : result gateway_Session) : string := match r with Ok session => gs_WorkspaceRoot session | Err _ => "" end.

(** Creating a session normalizes it twice, in the service and in the store, and the second time is not the first:
    a model name of more than 128 characters passes the first and is added to the models, which the second
    refuses, with an error that is not an invalid request; and a cleaned workspace root that ends in a space names
    one directory after the first and another after the second. *)
Theorem create_session_normalizes_twice :
  result_ok (normalizeSession ex_url ex_rune_lower ex_long_model) = true ∧
  ex_refused_as_internal (CreateSession ex_error_text ex_url ex_rune_lower ex_defaults ex_empty_world None ex_long_model 1000).1 = true ∧
  ex_root (normalizeSession ex_url ex_rune_lower ex_blank_part) = "/data " ∧
  ex_root (CreateSession ex_error_text ex_url ex_rune_lower ex_defaults ex_empty_world None ex_blank_part 1000).1 = "/data".
Proof. split_and!; by vm_compute. Qed.

Definition ex_catalog : PluginCatalog :=
  {| ct_Get _ _ := Err (Sentinel ErrInstanceNotFound); ct_List _ _ _ := Ok {| dp_Items := []; dp_Next := ""; dp_Revision := 0 |} |}.
Definition ex_one_session : gateway_world ex_backend := set_sessions ex_empty_world ex_store2.

Definition ex_inspection : InspectionBackend (B := ex_backend) := {| ib_ListConversation := None; ib_ListTrajectoryEntries := None |}.

Lemma foreign_requests_refused_witness :
  ∃ err, serve ex_marshal_input ex_marshal_session (λ _, Ok "{}") ex_error_text ex_url ex_rune_lower ex_catalog "default" 3 None
           (λ _, Ok "{}") (λ _, Ok "{}") ex_inspection ex_one_session None "eve" "s1" (ReqListConversation "" {| cq_After := 0; cq_Limit := 10 |}) (ex_entropy 1) 1000 = (Err err, ex_one_session).
Proof.
  destruct (foreign_requests_refused ex_marshal_input ex_marshal_session (λ _, Ok "{}") ex_error_text ex_url ex_rune_lower ex_catalog "default" 3 None
    (λ _, Ok "{}") (λ _, Ok "{}") ex_inspection ex_one_session None "eve" "s1" ex_read (ReqListConversation "" {| cq_After := 0; cq_Limit := 10 |}) (ex_entropy 1) 1000 ltac:(by vm_compute) ltac:(by vm_compute)) as (err & Hs & _).
  exists err. exact Hs.
Defined.
