(* ===== verification/GatewayBackend.v ===== *)
(** The execution backend of the gateway: the reads and the durable cancellation of [sdk/runtime/execution_lifecycle.go],
    the hosts of [sdk/runtime/execution_host.go], the slots of [gateway/runtime_host_slot.go] that keep one host per
    session, and the requests of [gateway/runtime_backend.go] as goroutines over those slots.  What a runtime, a state
    backend or the validation of a session answers is an argument of the step. *)

From S2P Require Import Prelude GoText Names Sha256 Message ContextInjection Delivery Trajectory TrajectoryStore Agent Registrar Composition EventDispatch Payload Durability SessionState PromptHost ExecutionCompletion Paging Base64 Registry GatewayEvent GatewayInput GatewayInteraction GatewayPermission GatewaySession GatewayConversation GatewaySupervisor.

(** ** Reading and fencing an execution *)

Record ExecutionView := { vw_TrajectoryID : string; vw_Execution : TrajectoryExecution; vw_Result : option Result }.

Record ExecutionRecoveryCandidate := { rc_TrajectoryID : string; rc_Execution : TrajectoryExecution; rc_Delay : duration }.

Definition candidate_view (candidate : ExecutionRecoveryCandidate) : ExecutionView :=
  {| vw_TrajectoryID := rc_TrajectoryID candidate; vw_Execution := rc_Execution candidate; vw_Result := None |}.

Section lifecycle.
Context `{codec : !PayloadCodec}.

Definition LoadExecutionViewFromMetadata (st : memoryTrajectoryStore) (ctx : context) (metadata : TrajectoryMetadata) : result ExecutionView :=
  match tm_Execution metadata with
  | None =>
      Err (Wrap2 (Sentinel ErrExecutionNotFound)
             (Wrapf "%w: trajectory %s has no execution" [AStr (tm_ID metadata)] (Sentinel ErrTrajectoryExecution)))
  | Some execution =>
      let? r := if Execution_Terminal execution then LoadExecutionResult st ctx metadata else Ok None in
      Ok {| vw_TrajectoryID := tm_ID metadata; vw_Execution := execution; vw_Result := r |}
  end.

Definition lifecycle_LoadView (st : memoryTrajectoryStore) (ctx : context) (trajectoryID : string) : result ExecutionView :=
  let? metadata := tstore_LoadMetadata st ctx trajectoryID in
  LoadExecutionViewFromMetadata st ctx metadata.

Definition recovery_candidate (metadata : TrajectoryMetadata) (now wall : time) : result ExecutionRecoveryCandidate :=
  let? '(execution, delay) := executionRecoveryCandidateFromMetadata metadata now wall in
  Ok {| rc_TrajectoryID := tm_ID metadata; rc_Execution := execution; rc_Delay := delay |}.

Definition lifecycle_LoadRecoveryCandidate (st : memoryTrajectoryStore) (ctx : context) (trajectoryID : string) (now wall : time)
    : result ExecutionRecoveryCandidate :=
  let? metadata := tstore_LoadMetadata st ctx trajectoryID in
  recovery_candidate metadata now wall.

Fixpoint recovery_candidates (recoverable : list TrajectoryMetadata) (now wall : time) : result (list ExecutionRecoveryCandidate) :=
  match recoverable with
  | [] => Ok []
  | metadata :: recoverable =>
      match recovery_candidate metadata now wall with
      | Err err => Err (Wrapf "trajectory %s returned by recoverable index: %w" [AStr (tm_ID metadata)] err)
      | Ok candidate => let? rest := recovery_candidates recoverable now wall in Ok (candidate :: rest)
      end
  end.

Definition lifecycle_ListRecoveryCandidates (st : memoryTrajectoryStore) (ctx : context) (now wall : time)
    : result (list ExecutionRecoveryCandidate) :=
  let? recoverable := tstore_ListRecoverable st ctx now wall in
  recovery_candidates recoverable now wall.

Definition lifecycle_FenceCancellation (st : memoryTrajectoryStore) (ctx : context) (trajectoryID executionID reason : string) (now wall : time)
    (clock : nat → time) : result (ExecutionView * memoryTrajectoryStore) :=
  let? '(metadata, _, st) :=
    tstore_CancelExecution st ctx
      {| ecc_TrajectoryID := trajectoryID; ecc_ExecutionID := executionID; ecc_Reason := string_default reason "execution cancelled";
         ecc_At := now; ecc_ExpectedHead := ""; ecc_Entries := [] |} wall clock in
  let? view := LoadExecutionViewFromMetadata st ctx metadata in
  Ok (view, st).
End lifecycle.

(** ** Expected cancellations, [internal/lifecycle/context.go] *)

Fixpoint onlyCancellationError (ctxErr err : error) : bool :=
  match err with
  | Joined errs => negb (length errs =? 0)%nat && forallb (onlyCancellationError ctxErr) errs
  | Wrap2 outer inner => onlyCancellationError ctxErr outer && onlyCancellationError ctxErr inner
  | Wrapf _ _ inner => onlyCancellationError ctxErr inner
  | Sentinel s =>
      match ctxErr with Sentinel s' => bool_decide (s = s') | _ => false end ||
      bool_decide (s = ContextCanceled) || bool_decide (s = DeadlineExceeded)
  | Errorf _ _ => false
  end.

Definition ExpectedCancellation (ctx : context) (err : option error) : bool :=
  match ctx, err with
  | Some ctxErr, Some err => onlyCancellationError ctxErr err
  | _, _ => false
  end.

(** ** Hosts

    A runtime is the number its builder gives it; a state backend is the number of the call that opened it. *)

Record ExecutionHost := { eh_Runtime : option nat; eh_State : option nat }.

Definition no_host : ExecutionHost := {| eh_Runtime := None; eh_State := None |}.

Record ExecutionControl := { ec_runtime : option nat; ec_lifecycle : option nat }.

Definition host_Control (host : ExecutionHost) : ExecutionControl :=
  {| ec_runtime := eh_Runtime host; ec_lifecycle := eh_State host |}.

(** What the backend does to runtimes, to state backends and to the log. *)
Inductive host_event :=
  | DrainedDeliveries (runtime : nat)
  | ClosedRuntime (runtime : nat)
  | ClosedState (state : nat)
  | RequestedClose (runtime : nat)
  | RequestedDrain (runtime : nat)
  | Warned (operation sessionID executionID : string) (err : error).

(** The steps of [ExecutionHost.Close], in their order: an error of one does not keep the next from running. *)
Definition close_steps (host : ExecutionHost) : list host_event :=
  match eh_Runtime host with Some runtime => [DrainedDeliveries runtime; ClosedRuntime runtime] | None => [] end ++
  match eh_State host with Some state => [ClosedState state] | None => [] end.

Definition join_errors (errs : list (option error)) : option error :=
  match omap id errs with [] => None | errs => Some (Joined errs) end.

Definition close_error (answer : host_event → option error) (host : ExecutionHost) : option error :=
  foldl (λ collected step, join_errors [collected; answer step]) None (close_steps host).

(** ** Slots *)

Inductive activeHostSlotState := activeHostSlotReserved | activeHostSlotBound.

Record activeHostSlot := {
  ah_executionID : string;
  (* whether [cancel] was called, and whether [done] is closed *)
  ah_cancelled : bool;
  ah_done : bool;
  ah_runtime : option nat;
  ah_control : ExecutionControl;
  ah_state : activeHostSlotState;
}.

(** The slots that were allocated, by address; the registry; the context of the backend; the number of state
    backends that were opened; and what happened to the hosts. *)
Record backend_world := {
  bw_slots : list activeHostSlot;
  bw_hosts : gmap string nat;
  bw_closed : bool;
  bw_closeDone : bool;
  bw_cancelled : bool;
  bw_opened : nat;
  bw_trace : list host_event;
}.

Definition newActiveHostRegistry : backend_world :=
  {| bw_slots := []; bw_hosts := ∅; bw_closed := false; bw_closeDone := false; bw_cancelled := false; bw_opened := 0; bw_trace := [] |}.

Definition set_slots (w : backend_world) (slots : list activeHostSlot) : backend_world :=
  {| bw_slots := slots; bw_hosts := bw_hosts w; bw_closed := bw_closed w; bw_closeDone := bw_closeDone w; bw_cancelled := bw_cancelled w;
     bw_opened := bw_opened w; bw_trace := bw_trace w |}.
Definition set_hosts (w : backend_world) (hosts : gmap string nat) : backend_world :=
  {| bw_slots := bw_slots w; bw_hosts := hosts; bw_closed := bw_closed w; bw_closeDone := bw_closeDone w; bw_cancelled := bw_cancelled w;
     bw_opened := bw_opened w; bw_trace := bw_trace w |}.
Definition set_closing (w : backend_world) (closed closeDone : bool) : backend_world :=
  {| bw_slots := bw_slots w; bw_hosts := bw_hosts w; bw_closed := closed; bw_closeDone := closeDone; bw_cancelled := bw_cancelled w;
     bw_opened := bw_opened w; bw_trace := bw_trace w |}.
Definition cancel_backend (w : backend_world) : backend_world :=
  {| bw_slots := bw_slots w; bw_hosts := bw_hosts w; bw_closed := bw_closed w; bw_closeDone := bw_closeDone w; bw_cancelled := true;
     bw_opened := bw_opened w; bw_trace := bw_trace w |}.
Definition count_open (w : backend_world) : backend_world :=
  {| bw_slots := bw_slots w; bw_hosts := bw_hosts w; bw_closed := bw_closed w; bw_closeDone := bw_closeDone w; bw_cancelled := bw_cancelled w;
     bw_opened := S (bw_opened w); bw_trace := bw_trace w |}.
Definition record_events (w : backend_world) (events : list host_event) : backend_world :=
  {| bw_slots := bw_slots w; bw_hosts := bw_hosts w; bw_closed := bw_closed w; bw_closeDone := bw_closeDone w; bw_cancelled := bw_cancelled w;
     bw_opened := bw_opened w; bw_trace := bw_trace w ++ events |}.

Definition slot_hasAcceptedExecution (slot : activeHostSlot) : bool := negb (is_empty (ah_executionID slot)).

Definition slot_matchesExecution (slot : activeHostSlot) (executionID : string) : bool :=
  negb (is_empty executionID) && bool_decide (ah_executionID slot = executionID).

Definition slot_activeError (slot : activeHostSlot) : error :=
  if slot_hasAcceptedExecution slot then Wrapf "%w: %s" [AStr (ah_executionID slot)] (Sentinel ErrExecutionActive)
  else Sentinel ErrExecutionActive.

Definition slot_bindHost (slot : activeHostSlot) (executionID : string) (runtime : option nat) (control : ExecutionControl) : activeHostSlot :=
  {| ah_executionID := executionID; ah_cancelled := ah_cancelled slot; ah_done := ah_done slot; ah_runtime := runtime; ah_control := control;
     ah_state := activeHostSlotBound |}.

Definition slot_cancel_called (slot : activeHostSlot) : activeHostSlot :=
  {| ah_executionID := ah_executionID slot; ah_cancelled := true; ah_done := ah_done slot; ah_runtime := ah_runtime slot;
     ah_control := ah_control slot; ah_state := ah_state slot |}.

Definition slot_close_done (slot : activeHostSlot) : activeHostSlot :=
  {| ah_executionID := ah_executionID slot; ah_cancelled := ah_cancelled slot; ah_done := true; ah_runtime := ah_runtime slot;
     ah_control := ah_control slot; ah_state := ah_state slot |}.

(** [newActiveHostSlot]: the address of the slot. *)
Definition newActiveHostSlot (w : backend_world) (executionID : string) : nat * backend_world :=
  (length (bw_slots w),
   set_slots w (bw_slots w ++ [{| ah_executionID := executionID; ah_cancelled := false; ah_done := false; ah_runtime := None;
                                  ah_control := host_Control no_host; ah_state := activeHostSlotReserved |}])).

Definition slot_at (w : backend_world) (sessionID : string) : option activeHostSlot := bw_hosts w !! sessionID ≫= λ s, bw_slots w !! s.

(** The context of the run of a slot, a child of that of the backend. *)
Definition run_ctx (w : backend_world) (s : nat) : context :=
  if bw_cancelled w || from_option ah_cancelled false (bw_slots w !! s) then Some (Sentinel ContextCanceled) else None.

Definition cancel_slot (w : backend_world) (s : nat) : backend_world := set_slots w (alter slot_cancel_called s (bw_slots w)).

(** ** The registry *)

Definition registry_reserve (w : backend_world) (sessionID : string) (s : nat) : option activeHostSlot * option error * backend_world :=
  if bw_closed w then (None, Some (errors_New "gateway execution backend is closed"), w) else
  match slot_at w sessionID with
  | Some existing => (Some existing, Some (slot_activeError existing), w)
  | None => (None, None, set_hosts w (<[sessionID := s]> (bw_hosts w)))
  end.

Definition registry_bind (w : backend_world) (sessionID : string) (s : nat) (executionID : string) (runtime : option nat)
    (control : ExecutionControl) : result backend_world :=
  fail_if bw_closed w with errors_New "gateway execution backend closed before host bind";
  if bool_decide (bw_hosts w !! sessionID = Some s) then Ok (set_slots w (alter (λ slot, slot_bindHost slot executionID runtime control) s (bw_slots w)))
  else
    match slot_at w sessionID with
    | None => Err (errors_New "gateway execution reservation was lost before host bind")
    | Some existing => Err (slot_activeError existing)
    end.

Record activeHostReadPlan := { rp_control : ExecutionControl; rp_done : option nat }.

Definition registry_readPlan (w : backend_world) (sessionID : string) : result activeHostReadPlan :=
  let idle := {| rp_control := host_Control no_host; rp_done := None |} in
  match slot_at w sessionID with
  | None => Ok idle
  | Some slot =>
      fail_if negb (slot_hasAcceptedExecution slot) with slot_activeError slot;
      match ah_state slot with
      | activeHostSlotReserved => Ok idle
      | activeHostSlotBound => Ok {| rp_control := ah_control slot; rp_done := bw_hosts w !! sessionID |}
      end
  end.

Inductive activeHostCancelMode := activeHostCancelUnhosted | activeHostCancelReserved | activeHostCancelBound.

Record activeHostCancelPlan := {
  hp_mode : activeHostCancelMode;
  hp_control : ExecutionControl;
  (* the slot that [cancel] and [done] belong to *)
  hp_slot : option nat;
}.

Definition registry_cancelPlan (w : backend_world) (sessionID executionID : string) : result activeHostCancelPlan :=
  match slot_at w sessionID with
  | None => Ok {| hp_mode := activeHostCancelUnhosted; hp_control := host_Control no_host; hp_slot := None |}
  | Some slot =>
      fail_if negb (slot_matchesExecution slot executionID) with slot_activeError slot;
      Ok {| hp_mode := match ah_state slot with activeHostSlotBound => activeHostCancelBound | activeHostSlotReserved => activeHostCancelReserved end;
            hp_control := ah_control slot; hp_slot := bw_hosts w !! sessionID |}
  end.

Definition registry_contextPlan (w : backend_world) (sessionID executionID : string) : result ExecutionControl :=
  match slot_at w sessionID with
  | None => Err (Sentinel GatewayErrExecutionNotFound)
  | Some slot =>
      fail_if negb (slot_matchesExecution slot executionID) with slot_activeError slot;
      match ah_state slot with
      | activeHostSlotReserved => Err (Sentinel ErrExecutionActive)
      | activeHostSlotBound => Ok (ah_control slot)
      end
  end.

Definition closeIfIdleLocked (w : backend_world) : backend_world :=
  if bw_closed w && (size (bw_hosts w) =? 0)%nat then set_closing w true true else w.

Definition registry_beginClose (w : backend_world) : list nat * backend_world :=
  (omap (λ s, bw_slots w !! s ≫= ah_runtime) (map_to_list (bw_hosts w)).*2, closeIfIdleLocked (set_closing w true (bw_closeDone w))).

(** [complete]; closing a channel twice panics. *)
Definition registry_complete (w : backend_world) (sessionID : string) (s : nat) : option backend_world :=
  let w := if bool_decide (bw_hosts w !! sessionID = Some s) then set_hosts w (delete sessionID (bw_hosts w)) else w in
  slot ← bw_slots w !! s;
  if ah_done slot then None else Some (closeIfIdleLocked (set_slots w (alter slot_close_done s (bw_slots w)))).

(** ** The requests *)

Record RuntimeBuildSpec := {
  rb_Plugins : list PluginBinding;
  rb_WorkspaceRoot : string;
  rb_RuntimeConfig : string;
  rb_Model : string;
  rb_AutoCompact : option bool;
  rb_ThinkingLevel : string;
  rb_Permissions : PermissionRules;
  (* the session whose events the observer appends *)
  rb_EventObserver : option string;
}.

(** [runtimeBuildSpec] with the observer that [openRuntime] adds; the interaction manager is the same for all. *)
Definition runtimeBuildSpec (session : gateway_Session) (observer : option string) : RuntimeBuildSpec :=
  {| rb_Plugins := gs_Plugins session; rb_WorkspaceRoot := gs_WorkspaceRoot session; rb_RuntimeConfig := gs_RuntimeConfig session;
     rb_Model := gs_Model session; rb_AutoCompact := gs_AutoCompact session; rb_ThinkingLevel := gs_ThinkingLevel session;
     rb_Permissions := gs_Permissions session; rb_EventObserver := observer |}.

(** What one step of a goroutine hears from the code it calls: the context of its request, which of two ready cases a [select]
    takes, whether a timer has fired, and the answers of the state factory, the builder, the runtimes, the state
    backends and the validation of sessions. *)
Record answers := {
  an_ctx : context;
  an_first : bool;
  an_fired : bool;
  an_validate : gateway_Session → result unit;
  an_open : gateway_Session → result unit;
  an_build : RuntimeBuildSpec → nat → result (option nat);
  an_close : host_event → option error;
  an_create : SessionConfig → result unit;
  an_submit : string → SessionConfig → string → result unit;
  an_view : ExecutionControl → result ExecutionView;
  an_cancel : ExecutionControl → string → string → string → result ExecutionView;
  an_inject : ExecutionControl → string → string → ContextInjection → result ExecutionView;
  an_candidate : ExecutionControl → result ExecutionRecoveryCandidate;
  an_trajectory : nat → string → string → result Trajectory;
  (* whether the trajectory store is a [TrajectoryEntryInspector], what [InspectTrajectoryEntries] and
     [ProjectStoredTrajectoryMessages] return on it, and how the items of a page are encoded *)
  an_inspector : bool;
  an_inspect : nat → string → string → result (TrajectoryMetadata * list EntryInspection);
  an_messages : nat → string → list EntryInspection → result (list Message);
  an_chunk : ConversationMessage → result string;
  an_entry : TrajectoryEntrySummary → result string;
  an_rollback : string → string → result unit;
  an_run : result Result;
}.

Inductive backend_outcome :=
  | GotExecution (execution : Execution)
  | GotTrajectory (trajectory : Trajectory)
  | GotEntries (page : TrajectoryEntryPage)
  | GotConversation (page : ConversationPage)
  | Done.

(** A request, or a goroutine that a request started, at its next step. *)
Inductive goroutine :=
  | CreateCall (session : gateway_Session)
  | TrajectoryCall (session : gateway_Session) (head : string)
  | EntriesCall (session : gateway_Session) (head : string) (query : EntryPageQuery)
  | ConversationCall (session : gateway_Session) (head : string) (query : ConversationQuery)
  | RollbackCall (session : gateway_Session) (checkpointID : string)
  | SubmitReserve (session : gateway_Session) (content : string)
  | SubmitSetup (session : gateway_Session) (content : string) (s : nat)
  | SubmitBind (session : gateway_Session) (s : nat) (host : ExecutionHost) (view : ExecutionView)
  | SubmitCleanup (session : gateway_Session) (s : nat) (host : ExecutionHost) (cause : error)
  | SubmitClose (host : ExecutionHost) (cause : error)
  | RunSubmission (sessionID : string) (s : nat) (host : ExecutionHost)
  | RunEnd (sessionID : string) (s : nat)
  | RecoverLoad (session : gateway_Session)
  | RecoverReserve (session : gateway_Session) (candidate : ExecutionRecoveryCandidate)
  | RecoverValidate (session : gateway_Session) (s : nat) (candidate : ExecutionRecoveryCandidate)
  | RecoverWait (session : gateway_Session) (s : nat) (delay : duration)
  | RecoverOpen (session : gateway_Session) (s : nat)
  | RecoverBind (session : gateway_Session) (s : nat) (host : ExecutionHost)
  | RecoverRun (session : gateway_Session) (s : nat) (host : ExecutionHost)
  | InjectPlan (session : gateway_Session) (executionID : string) (injection : ContextInjection)
  | InjectHosted (session : gateway_Session) (executionID : string) (injection : ContextInjection) (control : ExecutionControl)
  | InjectState (session : gateway_Session) (executionID : string) (injection : ContextInjection)
  | CurrentPlan (session : gateway_Session) (wanted : option string)
  | CurrentLoad (session : gateway_Session) (wanted : option string) (plan : activeHostReadPlan)
  | CurrentWait (wanted : option string) (done : option nat) (view : ExecutionView)
  | CancelPlan (session : gateway_Session) (executionID : string)
  | CancelStart (session : gateway_Session) (executionID : string) (plan : activeHostCancelPlan)
  | CancelDrain (session : gateway_Session) (executionID : string) (plan : activeHostCancelPlan)
  | CancelControl (session : gateway_Session) (executionID : string) (plan : activeHostCancelPlan)
  | CancelWait (plan : activeHostCancelPlan) (view : ExecutionView)
  | CloseBegin (drain : bool)
  | CloseRequest (drain : bool) (runtimes : list nat)
  | CloseWait
  | Returned (r : result backend_outcome).

Section backend.
(** Whether the backend has an event store. *)
Context (events : bool).
Context `{codec : !PayloadCodec}.

Definition CloseDetached (w : backend_world) (an : answers) (host : ExecutionHost) : option error * backend_world :=
  (close_error (an_close an) host, record_events w (close_steps host)).

(** [runExecutionHostCommand]: the host closes after the command, and an error of either is one of the call. *)
Definition host_command {T} (w : backend_world) (an : answers) (host : ExecutionHost) (command : result T) : result T * backend_world :=
  let '(closeErr, w) := CloseDetached w an host in
  (match join_errors [match command with Err err => Some err | Ok _ => None end; closeErr] with Some err => Err err | None => command end, w).

Definition openRuntime (w : backend_world) (an : answers) (session : gateway_Session) : result ExecutionHost * backend_world :=
  match an_open an session with
  | Err err => (Err (Wrapf "open gateway session %s state: %w" [AStr (gs_ID session)] err), w)
  | Ok _ =>
      let state := bw_opened w in
      let w := count_open w in
      let fail err :=
        let '(closeErr, w) := CloseDetached w an {| eh_Runtime := None; eh_State := Some state |} in
        (Err (Joined (err :: option_list closeErr)), w) in
      match an_build an (runtimeBuildSpec session (if events then Some (gs_ID session) else None)) state with
      | Err err => fail err
      | Ok None => fail (errors_New "gateway runtime builder returned nil")
      | Ok (Some runtime) => (Ok {| eh_Runtime := Some runtime; eh_State := Some state |}, w)
      end
  end.

Definition openStateExecutionHost (w : backend_world) (an : answers) (session : gateway_Session) : result ExecutionHost * backend_world :=
  match an_open an session with
  | Err err => (Err err, w)
  | Ok _ => (Ok {| eh_Runtime := None; eh_State := Some (bw_opened w) |}, count_open w)
  end.

(** A command on a host that is opened for it. *)
Definition with_state_host {T} (w : backend_world) (an : answers) (session : gateway_Session) (command : ExecutionHost → result T)
    : result T * backend_world :=
  match openStateExecutionHost w an session with
  | (Err err, w) => (Err err, w)
  | (Ok host, w) => host_command w an host (command host)
  end.

Definition gatewayExecutionViewError (err : error) : error :=
  if errors_Is err ErrExecutionNotFound then Sentinel GatewayErrExecutionNotFound else err.

Definition gatewayRecoveryCandidateError (err : error) : error :=
  if errors_Is err ErrExecutionNotFound || errors_Is err ErrExecutionNotRecoverable then Sentinel GatewayErrExecutionNotFound else err.

Definition gatewayExecutionFromView (view : ExecutionView) : Execution :=
  {| xe_SessionID := vw_TrajectoryID view; xe_Execution := vw_Execution view; xe_Result := vw_Result view |}.

Definition gatewayCancellationReason : string := "user requested cancellation".

Definition submit_config (session : gateway_Session) : SessionConfig :=
  {| cfg_ID := ""; cfg_Provider := gs_Provider session; cfg_System := gs_System session; cfg_MaxTurns := gs_MaxTurns session;
     cfg_ReasoningEffort := gs_ThinkingLevel session; cfg_ResumePolicy := ResumeCurrent |}.

Definition create_config (session : gateway_Session) : SessionConfig :=
  {| cfg_ID := gs_ID session; cfg_Provider := gs_Provider session; cfg_System := gs_System session; cfg_MaxTurns := gs_MaxTurns session;
     cfg_ReasoningEffort := gs_ThinkingLevel session; cfg_ResumePolicy := "" |}.

Definition observeHostCompletion (w : backend_world) (s : nat) (operation sessionID : string) (err : option error) : backend_world :=
  match err with
  | None => w
  | Some e =>
      if ExpectedCancellation (run_ctx w s) err || errors_Is e ErrRuntimeDraining then w
      else record_events w [Warned operation sessionID (from_option ah_executionID "" (bw_slots w !! s)) e]
  end.

Definition result_error {T} (r : result T) : option error := match r with Err err => Some err | Ok _ => None end.

(** [cancelUnhosted]. *)
Definition cancelUnhosted (w : backend_world) (an : answers) (session : gateway_Session) (executionID : string) : result ExecutionView * backend_world :=
  let cancel host := an_cancel an (host_Control host) (gs_ID session) executionID gatewayCancellationReason in
  match openRuntime w an session with
  | (Ok host, w) => host_command w an host (cancel host)
  | (Err err, w) =>
      match with_state_host w an session cancel with
      | (Err stateErr, w) => (Err (Joined [err; stateErr]), w)
      | (Ok view, w) => (Ok view, w)
      end
  end.

(** A [select] between the end of the context and a channel that is closed once [ready]; [None] while it waits. *)
Definition select_ready (an : answers) (ctx : context) (ready : bool) : option (result unit) :=
  match ctx with
  | None => if ready then Some (Ok tt) else None
  | Some err => if ready && an_first an then Some (Ok tt) else Some (Err err)
  end.

(** [wait] on the channel of a slot, or on none. *)
Definition wait_slot (w : backend_world) (an : answers) (done : option nat) : option (result unit) :=
  match done with
  | None => Some (Ok tt)
  | Some s => select_ready an (an_ctx an) (from_option ah_done false (bw_slots w !! s))
  end.

Definition drainsBeforeControl (plan : activeHostCancelPlan) : bool :=
  match hp_mode plan with activeHostCancelReserved => true | _ => false end.

Definition usesHostedControl (plan : activeHostCancelPlan) : bool :=
  match hp_mode plan with activeHostCancelBound => true | _ => false end.

Definition cancelActive (w : backend_world) (plan : activeHostCancelPlan) : backend_world :=
  match hp_slot plan with Some s => cancel_slot w s | None => w end.

(** [Current], and [Get] when an execution is wanted. *)
Definition current_outcome (wanted : option string) (view : ExecutionView) : result backend_outcome :=
  let execution := gatewayExecutionFromView view in
  match wanted with
  | Some executionID =>
      fail_if negb (bool_decide (ex_ID (xe_Execution execution) = executionID)) with
        Wrapf "%w: %s" [AStr executionID] (Sentinel GatewayErrExecutionNotFound);
      Ok (GotExecution execution)
  | None => Ok (GotExecution execution)
  end.

(** The calls of [Submit] between the reservation and [bind], all on the context of the setup. *)
Definition submit_setup (w : backend_world) (an : answers) (session : gateway_Session) (content : string)
    : ExecutionHost * result ExecutionView * backend_world :=
  match an_validate an session with
  | Err err => (no_host, Err err, w)
  | Ok _ =>
      match openRuntime w an session with
      | (Err err, w) => (no_host, Err err, w)
      | (Ok host, w) =>
          (host, (try? an_submit an (gs_ID session) (submit_config session) content; an_view an (host_Control host)), w)
      end
  end.

Definition outcome_of_view (r : result ExecutionView) : result backend_outcome :=
  match r with Ok view => Ok (GotExecution (gatewayExecutionFromView view)) | Err err => Err (gatewayExecutionViewError err) end.

(** One step: the state, the next step of the goroutine and the goroutines that it started; [None] is a panic. *)
Abbreviation step_result := (option (backend_world * goroutine * list goroutine)).

Definition go_on (w : backend_world) (g : goroutine) : step_result := Some (w, g, []).
Definition return_with (w : backend_world) (r : result backend_outcome) : step_result := go_on w (Returned r).

(** [CreateSession]. *)
Definition create_step (w : backend_world) (an : answers) (session : gateway_Session) : step_result :=
  match an_validate an session with
  | Err err => return_with w (Err err)
  | Ok _ =>
      match openRuntime w an session with
      | (Err err, w) => return_with w (Err err)
      | (Ok host, w) =>
          let '(closeErr, w) := CloseDetached w an host in
          return_with w
            (match an_create an (create_config session), closeErr with
             | Err err, _ => Err (Joined (err :: option_list closeErr))
             | Ok _, Some err => Err err
             | Ok _, None => Ok Done
             end)
      end
  end.

(** [LoadTrajectory]. *)
Definition trajectory_step (w : backend_world) (an : answers) (session : gateway_Session) (head : string) : step_result :=
  match with_state_host w an session (λ host, an_trajectory an (default 0%nat (eh_State host)) (gs_ID session) head) with
  | (Err err, w) => return_with w (Err err)
  | (Ok trajectory, w) => return_with w (Ok (GotTrajectory trajectory))
  end.

(** [errors.Join(err, host.CloseDetached(ctx))] where a method returns. *)
Definition return_closing (w : backend_world) (an : answers) (host : ExecutionHost) (r : result backend_outcome) : step_result :=
  let '(r, w) := host_command w an host r in return_with w r.

(** [ListTrajectoryEntries]. *)
Definition list_entries_step (w : backend_world) (an : answers) (session : gateway_Session) (head : string) (query : EntryPageQuery) : step_result :=
  match openStateExecutionHost w an session with
  | (Err err, w) => return_with w (Err err)
  | (Ok host, w) =>
      let store := default 0%nat (eh_State host) in
      if an_inspector an then
        match an_inspect an store (gs_ID session) head with
        | Err inspectErr => return_closing w an host (Err inspectErr)
        | Ok (metadata, entries) =>
            return_closing w an host
              (let? page := projectInspectedTrajectoryEntryPage (an_entry an) metadata entries query in Ok (GotEntries page))
        end
      else
        match an_trajectory an store (gs_ID session) head with
        | Err err => return_closing w an host (Err err)
        | Ok trajectory =>
            return_closing w an host (let? page := projectTrajectoryEntryPage (an_entry an) trajectory query in Ok (GotEntries page))
        end
  end.

(** [ListConversation]. *)
Definition list_conversation_step (w : backend_world) (an : answers) (session : gateway_Session) (head : string) (query : ConversationQuery)
    : step_result :=
  match openStateExecutionHost w an session with
  | (Err err, w) => return_with w (Err err)
  | (Ok host, w) =>
      let store := default 0%nat (eh_State host) in
      if an_inspector an then
        match an_inspect an store (gs_ID session) head with
        | Err inspectErr => return_closing w an host (Err inspectErr)
        | Ok (metadata, entries) =>
            match an_messages an store (gs_ID session) entries with
            | Err projectErr => return_closing w an host (Err projectErr)
            | Ok messages =>
                return_closing w an host
                  (let? page := projectConversationMessagesPage (an_chunk an) (tm_Head metadata) (tm_Execution metadata) messages query in
                   Ok (GotConversation page))
            end
        end
      else
        match an_trajectory an store (gs_ID session) head with
        | Err err => return_closing w an host (Err err)
        | Ok trajectory =>
            return_closing w an host (let? page := projectConversationPage (an_chunk an) trajectory query in Ok (GotConversation page))
        end
  end.

(** [RollbackTrajectory]. *)
Definition rollback_step (w : backend_world) (an : answers) (session : gateway_Session) (checkpointID : string) : step_result :=
  match openRuntime w an session with
  | (Err err, w) => return_with w (Err err)
  | (Ok host, w) =>
      match host_command w an host
              (try? an_rollback an (gs_ID session) checkpointID;
               an_trajectory an (default 0%nat (eh_State host)) (gs_ID session) "") with
      | (Err err, w) => return_with w (Err err)
      | (Ok trajectory, w) => return_with w (Ok (GotTrajectory trajectory))
      end
  end.

(** [Submit]. *)
Definition submit_step (w : backend_world) (an : answers) (g : goroutine) : step_result :=
  match g with
  | SubmitReserve session content =>
      let '(s, w) := newActiveHostSlot w "" in
      match registry_reserve w (gs_ID session) s with
      | (_, Some err, w) => return_with (cancel_slot w s) (Err err)
      | (_, None, w) => go_on w (SubmitSetup session content s)
      end
  | SubmitSetup session content s =>
      match submit_setup w an session content with
      | (host, Err err, w) => go_on w (SubmitCleanup session s host err)
      | (host, Ok view, w) => go_on w (SubmitBind session s host view)
      end
  | SubmitBind session s host view =>
      match registry_bind w (gs_ID session) s (ex_ID (vw_Execution view)) (eh_Runtime host) (host_Control host) with
      | Err err => go_on w (SubmitCleanup session s host err)
      | Ok w => Some (w, Returned (Ok (GotExecution (gatewayExecutionFromView view))), [RunSubmission (gs_ID session) s host])
      end
  | SubmitCleanup session s host cause =>
      w ← registry_complete (cancel_slot w s) (gs_ID session) s; go_on w (SubmitClose host cause)
  | SubmitClose host cause =>
      let '(closeErr, w) := CloseDetached w an host in return_with w (Err (Joined (cause :: option_list closeErr)))
  | g => go_on w g
  end.

(** [runSubmission]; [RunEnd] is the deferred [complete], which [runRecovery] defers too. *)
Definition run_submission_step (w : backend_world) (an : answers) (g : goroutine) : step_result :=
  match g with
  | RunSubmission sessionID s host =>
      let '(r, w) := host_command w an host (an_run an) in
      go_on (observeHostCompletion w s "submit" sessionID (result_error r)) (RunEnd sessionID s)
  | RunEnd sessionID s => w ← registry_complete w sessionID s; return_with w (Ok Done)
  | g => go_on w g
  end.

(** [Recover]. *)
Definition recover_step (w : backend_world) (an : answers) (g : goroutine) : step_result :=
  match g with
  | RecoverLoad session =>
      match with_state_host w an session (λ host, an_candidate an (host_Control host)) with
      | (Err err, w) => return_with w (Err (gatewayRecoveryCandidateError err))
      | (Ok candidate, w) => go_on w (RecoverReserve session candidate)
      end
  | RecoverReserve session candidate =>
      let '(s, w) := newActiveHostSlot w (ex_ID (rc_Execution candidate)) in
      match registry_reserve w (gs_ID session) s with
      | (existing, Some err, w) =>
          let w := cancel_slot w s in
          if from_option (λ slot, slot_matchesExecution slot (ex_ID (rc_Execution candidate))) false existing
          then go_on w (CurrentPlan session None) else return_with w (Err err)
      | (_, None, w) => go_on w (RecoverValidate session s candidate)
      end
  | RecoverValidate session s candidate =>
      match an_validate an session with
      | Err err => w ← registry_complete (cancel_slot w s) (gs_ID session) s; return_with w (Err err)
      | Ok _ => Some (w, Returned (Ok (GotExecution (gatewayExecutionFromView (candidate_view candidate)))), [RecoverWait session s (rc_Delay candidate)])
      end
  | g => go_on w g
  end.

(** [runRecovery], with [ExecutionRecoveryCandidate.Wait] first. *)
Definition run_recovery_step (w : backend_world) (an : answers) (g : goroutine) : step_result :=
  match g with
  | RecoverWait session s delay =>
      match (if delay <=? 0 then Some (Ok tt) else select_ready an (run_ctx w s) (an_fired an)) with
      | None => go_on w g
      | Some (Err _) => go_on w (RunEnd (gs_ID session) s)
      | Some (Ok _) => go_on w (RecoverOpen session s)
      end
  | RecoverOpen session s =>
      match openRuntime w an session with
      | (Err err, w) => go_on (observeHostCompletion w s "recover" (gs_ID session) (Some err)) (RunEnd (gs_ID session) s)
      | (Ok host, w) => go_on w (RecoverBind session s host)
      end
  | RecoverBind session s host =>
      match registry_bind w (gs_ID session) s (from_option ah_executionID "" (bw_slots w !! s)) (eh_Runtime host) (host_Control host) with
      | Err err =>
          let '(closeErr, w) := CloseDetached w an host in
          go_on (observeHostCompletion w s "recover" (gs_ID session) (Some (Joined (err :: option_list closeErr)))) (RunEnd (gs_ID session) s)
      | Ok w => go_on w (RecoverRun session s host)
      end
  | RecoverRun session s host =>
      let '(r, w) := host_command w an host (an_run an) in
      go_on (observeHostCompletion w s "recover" (gs_ID session) (result_error r)) (RunEnd (gs_ID session) s)
  | g => go_on w g
  end.

(** [EnqueueContextInjection]. *)
Definition inject_step (w : backend_world) (an : answers) (g : goroutine) : step_result :=
  match g with
  | InjectPlan session executionID injection =>
      match registry_contextPlan w (gs_ID session) executionID with
      | Ok control => go_on w (InjectHosted session executionID injection control)
      | Err err => if errors_Is err GatewayErrExecutionNotFound then go_on w (InjectState session executionID injection) else return_with w (Err err)
      end
  | InjectHosted session executionID injection control =>
      return_with w (outcome_of_view (an_inject an control (gs_ID session) executionID injection))
  | InjectState session executionID injection =>
      match openStateExecutionHost w an session with
      | (Err err, w) => return_with w (Err err)
      | (Ok host, w) =>
          let '(r, w) := host_command w an host (an_inject an (host_Control host) (gs_ID session) executionID injection) in
          return_with w (outcome_of_view r)
      end
  | g => go_on w g
  end.

(** [Current], [loadExecutionView] and [Get]. *)
Definition current_step (w : backend_world) (an : answers) (g : goroutine) : step_result :=
  match g with
  | CurrentPlan session wanted =>
      match registry_readPlan w (gs_ID session) with
      | Err err => return_with w (Err err)
      | Ok plan => go_on w (CurrentLoad session wanted plan)
      end
  | CurrentLoad session wanted plan =>
      let '(r, w) :=
        match rp_done plan with
        | Some _ => (an_view an (rp_control plan), w)
        | None => with_state_host w an session (λ host, an_view an (host_Control host))
        end in
      match r with
      | Err err => return_with w (Err (gatewayExecutionViewError err))
      | Ok view =>
          if Execution_Terminal (vw_Execution view) then go_on w (CurrentWait wanted (rp_done plan) view)
          else return_with w (current_outcome wanted view)
      end
  | CurrentWait wanted slot view =>
      match wait_slot w an slot with
      | None => go_on w g
      | Some (Err err) => return_with w (Err err)
      | Some (Ok _) => return_with w (current_outcome wanted view)
      end
  | g => go_on w g
  end.

(** [Cancel] with [activeHostCancelPlan.cancelExecution]. *)
Definition cancel_step (w : backend_world) (an : answers) (g : goroutine) : step_result :=
  match g with
  | CancelPlan session executionID =>
      match registry_cancelPlan w (gs_ID session) executionID with
      | Err err => return_with w (Err err)
      | Ok plan => go_on w (CancelStart session executionID plan)
      end
  | CancelStart session executionID plan =>
      if drainsBeforeControl plan then go_on (cancelActive w plan) (CancelDrain session executionID plan)
      else go_on w (CancelControl session executionID plan)
  | CancelDrain session executionID plan =>
      match wait_slot w an (hp_slot plan) with
      | None => go_on w g
      | Some (Err err) => return_with w (Err err)
      | Some (Ok _) => go_on w (CancelControl session executionID plan)
      end
  | CancelControl session executionID plan =>
      let '(r, w) :=
        if usesHostedControl plan then (an_cancel an (hp_control plan) (gs_ID session) executionID gatewayCancellationReason, w)
        else cancelUnhosted w an session executionID in
      match r with
      | Err err => return_with w (Err err)
      | Ok view => go_on (if drainsBeforeControl plan then w else cancelActive w plan) (CancelWait plan view)
      end
  | CancelWait plan view =>
      match wait_slot w an (hp_slot plan) with
      | None => go_on w g
      | Some (Err err) => return_with w (Err err)
      | Some (Ok _) => return_with w (Ok (GotExecution (gatewayExecutionFromView view)))
      end
  | g => go_on w g
  end.

(** [Close] and [Drain]. *)
Definition close_step (w : backend_world) (an : answers) (g : goroutine) : step_result :=
  match g with
  | CloseBegin drain => let '(runtimes, w) := registry_beginClose w in go_on w (CloseRequest drain runtimes)
  | CloseRequest drain runtimes =>
      let w := record_events w ((if drain then RequestedDrain else RequestedClose) <$> runtimes) in
      go_on (if drain then w else cancel_backend w) CloseWait
  | CloseWait =>
      match select_ready an (an_ctx an) (bw_closeDone w) with
      | None => go_on w g
      | Some (Err err) => return_with w (Err err)
      | Some (Ok _) => return_with w (Ok Done)
      end
  | g => go_on w g
  end.

Definition backend_step (w : backend_world) (g : goroutine) (an : answers) : step_result :=
  match g with
  | CreateCall session => create_step w an session
  | TrajectoryCall session head => trajectory_step w an session head
  | EntriesCall session head query => list_entries_step w an session head query
  | ConversationCall session head query => list_conversation_step w an session head query
  | RollbackCall session checkpointID => rollback_step w an session checkpointID
  | SubmitReserve _ _ | SubmitSetup _ _ _ | SubmitBind _ _ _ _ | SubmitCleanup _ _ _ _ | SubmitClose _ _ => submit_step w an g
  | RunSubmission _ _ _ | RunEnd _ _ => run_submission_step w an g
  | RecoverLoad _ | RecoverReserve _ _ | RecoverValidate _ _ _ => recover_step w an g
  | RecoverWait _ _ _ | RecoverOpen _ _ | RecoverBind _ _ _ | RecoverRun _ _ _ => run_recovery_step w an g
  | InjectPlan _ _ _ | InjectHosted _ _ _ _ | InjectState _ _ _ => inject_step w an g
  | CurrentPlan _ _ | CurrentLoad _ _ _ | CurrentWait _ _ _ => current_step w an g
  | CancelPlan _ _ | CancelStart _ _ _ | CancelDrain _ _ _ | CancelControl _ _ _ | CancelWait _ _ => cancel_step w an g
  | CloseBegin _ | CloseRequest _ _ | CloseWait => close_step w an g
  | Returned _ => go_on w g
  end.

(** ** Interleavings *)

Definition starts_request (g : goroutine) : bool :=
  match g with
  | CreateCall _ | TrajectoryCall _ _ | EntriesCall _ _ _ | ConversationCall _ _ _ | RollbackCall _ _ | SubmitReserve _ _ | RecoverLoad _ | InjectPlan _ _ _ | CurrentPlan _ _
  | CancelPlan _ _ | CloseBegin _ => true
  | _ => false
  end.

Definition backend_state : Type := backend_world * list goroutine.

Inductive backend_moves : backend_state → backend_state → Prop :=
  | bm_request w gs g : starts_request g = true → backend_moves (w, gs) (w, gs ++ [g])
  | bm_step w gs i g an w' g' started :
      gs !! i = Some g → backend_step w g an = Some (w', g', started) → backend_moves (w, gs) (w', <[i := g']> gs ++ started).

Definition backend_reachable (x : backend_state) : Prop := rtc backend_moves (newActiveHostRegistry, []) x.
End backend.
