(* ===== verification/GatewayBackendProperties.v ===== *)
(** The execution backend: one host per session, every state backend that is opened is closed once, and what the
    end of a cancellation or of a shutdown guarantees. *)

From S2P Require Import Prelude GoText Names Sha256 Message ContextInjection Delivery Trajectory TrajectoryStore Agent Registrar Composition EventDispatch Payload TrajectoryInvariant TrajectoryHistory Durability SessionState PromptHost ExecutionCompletion Paging Base64 Registry GatewayEvent GatewayInput GatewayInteraction GatewayPermission GatewaySession GatewayConversation GatewaySupervisor GatewayBackend BitCodec.

(** ** What a goroutine owns *)

(** The slot it has reserved and not completed, with its session. *)
Definition owned (g : goroutine) : list (string * nat) :=
  match g with
  | SubmitSetup session _ s | SubmitBind session s _ _ | SubmitCleanup session s _ _ | RecoverValidate session s _ | RecoverWait session s _
  | RecoverOpen session s | RecoverBind session s _ | RecoverRun session s _ => [(gs_ID session, s)]
  | RunSubmission sessionID s _ | RunEnd sessionID s => [(sessionID, s)]
  | _ => []
  end.

(** The state backend it has opened and not closed. *)
Definition held (g : goroutine) : list nat :=
  match g with
  | SubmitBind _ _ host _ | SubmitCleanup _ _ host _ | SubmitClose host _ | RunSubmission _ _ host | RecoverBind _ _ host | RecoverRun _ _ host =>
      option_list (eh_State host)
  | _ => []
  end.

Definition closed_states (trace : list host_event) : list nat :=
  omap (λ ev, match ev with ClosedState state => Some state | _ => None end) trace.

(** ** State backends *)

(** The step opens and closes state backends, so that of [before] and of the ones it opens [after] is left. *)
Definition states_move (w w' : backend_world) (before after : list nat) : Prop :=
  ∃ trace n, bw_trace w' = bw_trace w ++ trace ∧ bw_opened w' = (bw_opened w + n)%nat ∧
    after ++ closed_states trace ≡ₚ before ++ seq (bw_opened w) n.

Definition same_registry (w w' : backend_world) : Prop :=
  bw_slots w' = bw_slots w ∧ bw_hosts w' = bw_hosts w ∧ bw_closed w' = bw_closed w ∧ bw_closeDone w' = bw_closeDone w ∧
  bw_cancelled w' = bw_cancelled w.

Definition private_move (w w' : backend_world) (before after : list nat) : Prop := same_registry w w' ∧ states_move w w' before after.

Lemma closed_states_app t t' : closed_states (t ++ t') = closed_states t ++ closed_states t'.
Proof. apply omap_app. Qed.

Lemma states_move_same w w' l : bw_trace w' = bw_trace w → bw_opened w' = bw_opened w → states_move w w' l l.
Proof. intros Ht Ho. exists [], 0%nat. rewrite app_nil_r, Nat.add_0_r. by split_and!. Qed.

Lemma states_move_trans w1 w2 w3 l1 l2 l3 : states_move w1 w2 l1 l2 → states_move w2 w3 l2 l3 → states_move w1 w3 l1 l3.
Proof.
  intros (t1 & n1 & Ht1 & Ho1 & H1) (t2 & n2 & Ht2 & Ho2 & H2). exists (t1 ++ t2), (n1 + n2)%nat.
  rewrite Ht2, Ht1, <-app_assoc. split_and!; [done|lia|]. rewrite closed_states_app, seq_app, <-Ho1.
  rewrite (Permutation_app_comm (closed_states t1)), app_assoc, H2, <-app_assoc, (Permutation_app_comm (seq _ n2)), app_assoc, H1.
  by rewrite <-app_assoc.
Qed.

Lemma private_move_refl w l : private_move w w l l.
Proof. split; [done|by apply states_move_same]. Qed.

Lemma private_move_trans w1 w2 w3 l1 l2 l3 : private_move w1 w2 l1 l2 → private_move w2 w3 l2 l3 → private_move w1 w3 l1 l3.
Proof.
  intros [(?&?&?&?&?) Hm] [(?&?&?&?&?) Hm']. split; [split_and!; congruence|by eapply states_move_trans].
Qed.

Lemma closed_states_close host : closed_states (close_steps host) = option_list (eh_State host).
Proof. destruct host as [[r|] [s|]]; done. Qed.

Lemma CloseDetached_move w an host err w' : CloseDetached w an host = (err, w') → private_move w w' (option_list (eh_State host)) [].
Proof.
  intros [= <- <-]. split; [done|]. exists (close_steps host), 0%nat. rewrite closed_states_close, app_nil_r. split_and!; [done|cbn; lia|done].
Qed.

Lemma host_command_move {T} w an host (command : result T) r w' :
  host_command w an host command = (r, w') → private_move w w' (option_list (eh_State host)) [].
Proof.
  unfold host_command. destruct (CloseDetached w an host) as [err w1] eqn:E. intros [= <- <-]. by eapply CloseDetached_move.
Qed.

Definition held_result (r : result ExecutionHost) : list nat := match r with Ok host => option_list (eh_State host) | Err _ => [] end.

Lemma count_open_move w : private_move w (count_open w) [] [bw_opened w].
Proof. split; [done|]. exists [], 1%nat. cbn. rewrite app_nil_r. split_and!; [done|lia|done]. Qed.

Lemma openRuntime_move events w an session r w' : openRuntime events w an session = (r, w') → private_move w w' [] (held_result r).
Proof.
  unfold openRuntime. destruct (an_open an session); [|intros [= <- <-]; apply private_move_refl].
  assert (∀ err : error,
    (let '(closeErr, w) := CloseDetached (count_open w) an {| eh_Runtime := None; eh_State := Some (bw_opened w) |} in
     (Err (Joined (err :: option_list closeErr)), w)) = (r, w') → private_move w w' [] (held_result r)) as Hfail.
  { intros err. destruct (CloseDetached _ _ _) as [closeErr w1] eqn:E. intros [= <- <-]. eapply private_move_trans; [apply count_open_move|].
    by apply CloseDetached_move in E. }
  destruct (an_build _ _ _) as [[runtime|]|err]; [|apply Hfail|apply Hfail]. intros [= <- <-]. apply count_open_move.
Qed.

Lemma openState_move w an session r w' : openStateExecutionHost w an session = (r, w') → private_move w w' [] (held_result r).
Proof. unfold openStateExecutionHost. destruct (an_open _ _); intros [= <- <-]; [apply count_open_move|apply private_move_refl]. Qed.

Lemma with_state_host_move {T} w an session (command : ExecutionHost → result T) r w' :
  with_state_host w an session command = (r, w') → private_move w w' [] [].
Proof.
  unfold with_state_host. destruct (openStateExecutionHost w an session) as [[host|err] w1] eqn:E; apply openState_move in E.
  - intros H%host_command_move. by eapply private_move_trans.
  - by intros [= <- <-].
Qed.

Lemma observe_move w s operation sessionID err l : private_move w (observeHostCompletion w s operation sessionID err) l l.
Proof.
  unfold observeHostCompletion. destruct err as [e|]; [|apply private_move_refl]. destruct (_ || _); [apply private_move_refl|].
  split; [done|]. exists [Warned operation sessionID (from_option ah_executionID "" (bw_slots w !! s)) e], 0%nat. cbn.
  split_and!; [done|lia|done].
Qed.

Lemma cancelUnhosted_move events w an session executionID r w' : cancelUnhosted events w an session executionID = (r, w') → private_move w w' [] [].
Proof.
  unfold cancelUnhosted. destruct (openRuntime _ w an session) as [[host|err] w1] eqn:E; apply openRuntime_move in E.
  - intros H%host_command_move. by eapply private_move_trans.
  - destruct (with_state_host w1 _ _ _) as [[view|stateErr] w2] eqn:E2; apply with_state_host_move in E2; intros [= <- <-];
      by eapply private_move_trans.
Qed.

Lemma submit_setup_move events w an session content host r w' :
  submit_setup events w an session content = (host, r, w') → private_move w w' [] (option_list (eh_State host)).
Proof.
  unfold submit_setup. destruct (an_validate _ _); [|intros [= <- <- <-]; apply private_move_refl].
  destruct (openRuntime _ w an session) as [[h|err] w1] eqn:E; apply openRuntime_move in E; intros [= <- <- <-]; done.
Qed.

Create HintDb backend.
#[export] Hint Resolve private_move_refl observe_move : backend.

(** ** What a step does to the registry *)

(** Slots stay where they are, and their channels as they are. *)
Definition slots_kept (w w' : backend_world) : Prop :=
  ∀ s slot, bw_slots w !! s = Some slot → ∃ slot', bw_slots w' !! s = Some slot' ∧ ah_done slot' = ah_done slot.

Inductive step_effect (w w' : backend_world) (before after : list (string * nat)) : Prop :=
  | eff_private :
      slots_kept w w' → bw_hosts w' = bw_hosts w → bw_closed w' = bw_closed w → bw_closeDone w' = bw_closeDone w → after = before →
      step_effect w w' before after
  | eff_reserve sessionID slot :
      bw_closed w = false → bw_closed w' = false → bw_closeDone w' = bw_closeDone w → bw_hosts w !! sessionID = None →
      bw_hosts w' = <[sessionID := length (bw_slots w)]> (bw_hosts w) → bw_slots w' = bw_slots w ++ [slot] → ah_done slot = false →
      before = [] → after = [(sessionID, length (bw_slots w))] → step_effect w w' before after
  | eff_complete sessionID s slot :
      bw_slots w !! s = Some slot → ah_done slot = false →
      (∀ s' slot', s' ≠ s → bw_slots w !! s' = Some slot' → bw_slots w' !! s' = Some slot') →
      (∃ slot', bw_slots w' !! s = Some slot' ∧ ah_done slot' = true) →
      bw_hosts w' = (if bool_decide (bw_hosts w !! sessionID = Some s) then delete sessionID (bw_hosts w) else bw_hosts w) →
      bw_closed w' = bw_closed w → bw_closeDone w' = (bw_closed w && (size (bw_hosts w') =? 0)%nat) || bw_closeDone w →
      before = [(sessionID, s)] → after = [] → step_effect w w' before after
  | eff_close :
      bw_slots w' = bw_slots w → bw_hosts w' = bw_hosts w → bw_closed w' = true →
      bw_closeDone w' = (size (bw_hosts w) =? 0)%nat || bw_closeDone w → before = [] → after = [] → step_effect w w' before after.

(** The step opens and closes no state backend, and does not cancel the backend. *)
Definition untouched (w w' : backend_world) : Prop :=
  bw_trace w' = bw_trace w ∧ bw_opened w' = bw_opened w ∧ bw_cancelled w' = bw_cancelled w.

Definition hosts_valid (w : backend_world) : Prop := ∀ sessionID s, bw_hosts w !! sessionID = Some s → is_Some (bw_slots w !! s).

Lemma slot_at_None w sessionID : hosts_valid w → slot_at w sessionID = None → bw_hosts w !! sessionID = None.
Proof.
  intros Hv. unfold slot_at. destruct (bw_hosts w !! sessionID) as [s|] eqn:E; [|done]. cbn. destruct (Hv _ _ E) as [slot ->]. done.
Qed.

Lemma slots_kept_refl w w' : bw_slots w' = bw_slots w → slots_kept w w'.
Proof. intros E s slot H. rewrite E. eauto. Qed.

Lemma slots_kept_alter w f s : (∀ slot, ah_done (f slot) = ah_done slot) → slots_kept w (set_slots w (alter f s (bw_slots w))).
Proof.
  intros Hf s' slot H. cbn. destruct (decide (s' = s)) as [->|Hne].
  - exists (f slot). rewrite list_lookup_alter_eq, H. split; [done|apply Hf].
  - exists slot. rewrite list_lookup_alter_ne by congruence. done.
Qed.

Lemma slots_kept_app w l : slots_kept w (set_slots w (bw_slots w ++ l)).
Proof. intros s slot H. exists slot. split; [by apply lookup_app_l_Some|done]. Qed.

Lemma slots_kept_trans w1 w2 w3 : slots_kept w1 w2 → slots_kept w2 w3 → slots_kept w1 w3.
Proof. intros H1 H2 s slot H. destruct (H1 _ _ H) as (slot' & H' & E). destruct (H2 _ _ H') as (slot'' & ? & ?). exists slot''. split; congruence. Qed.

Lemma effect_private w w' l before after : private_move w w' before after → step_effect w w' l l.
Proof. intros [(Hs & Hh & Hc & Hd & _) _]. apply eff_private; try done. by apply slots_kept_refl. Qed.

Lemma cancel_slot_effect w s l : step_effect w (cancel_slot w s) l l.
Proof. apply eff_private; try done. by apply slots_kept_alter. Qed.

Lemma complete_effect w sessionID s w' :
  registry_complete w sessionID s = Some w' → step_effect w w' [(sessionID, s)] [] ∧ untouched w w'.
Proof.
  unfold registry_complete. set (w1 := if bool_decide _ then _ else w). assert (bw_slots w1 = bw_slots w) as Hs by (subst w1; by destruct (bool_decide _)).
  assert (bw_hosts w1 = if bool_decide (bw_hosts w !! sessionID = Some s) then delete sessionID (bw_hosts w) else bw_hosts w) as Hh
    by (subst w1; by destruct (bool_decide _)).
  assert (bw_closed w1 = bw_closed w ∧ bw_closeDone w1 = bw_closeDone w ∧ untouched w w1) as (Hc & Hd & Ht & Ho & Hx)
    by (subst w1; by destruct (bool_decide _)).
  clearbody w1. rewrite Hs. destruct (bw_slots w !! s) as [slot|] eqn:Es; [|done]. cbn. destruct (ah_done slot) eqn:Ed; [done|]. intros [= <-].
  set (w2 := set_slots w1 _).
  assert (bw_slots (closeIfIdleLocked w2) = alter slot_close_done s (bw_slots w) ∧ bw_hosts (closeIfIdleLocked w2) = bw_hosts w1 ∧
    bw_closed (closeIfIdleLocked w2) = bw_closed w ∧ bw_closeDone (closeIfIdleLocked w2) = (bw_closed w && (size (bw_hosts w1) =? 0)%nat) || bw_closeDone w ∧
    untouched w (closeIfIdleLocked w2)) as (H1 & H2 & H3 & H4 & H5).
  { unfold closeIfIdleLocked. subst w2. cbn. rewrite Hc. destruct (bw_closed w) eqn:Ec; cbn; [destruct (size _ =? 0)%nat; cbn; by split_and!|by split_and!]. }
  split; [|done]. eapply eff_complete; [exact Es|done| | | |done| |done|done].
  - intros s' slot' Hne H. rewrite H1, list_lookup_alter_ne by done. done.
  - exists (slot_close_done slot). rewrite H1, list_lookup_alter_eq, Es. done.
  - by rewrite H2.
  - by rewrite H2.
Qed.

Lemma bind_effect w sessionID s executionID runtime control w' l :
  registry_bind w sessionID s executionID runtime control = Ok w' → step_effect w w' l l ∧ untouched w w'.
Proof.
  unfold registry_bind. destruct (bw_closed w) eqn:Ec; [done|]. destruct (bool_decide _); [|by destruct (slot_at w sessionID)].
  intros [= <-]. split; [|done]. apply eff_private; try done. by apply slots_kept_alter.
Qed.

(** [newActiveHostSlot] and [reserve]. *)
Lemma reserve_effect w executionID sessionID s w1 existing err w2 :
  hosts_valid w → newActiveHostSlot w executionID = (s, w1) → registry_reserve w1 sessionID s = (existing, err, w2) →
  match err with
  | Some _ => ∀ l, step_effect w (cancel_slot w2 s) l l
  | None => step_effect w w2 [] [(sessionID, s)]
  end ∧ untouched w w2.
Proof.
  intros Hv [= <- <-] Hr. unfold registry_reserve in Hr. cbn in Hr.
  set (w1 := set_slots w _) in *.
  assert (∀ l, step_effect w (cancel_slot w1 (length (bw_slots w))) l l) as Hkeep.
  { intros l. apply eff_private; try done. eapply slots_kept_trans; [apply slots_kept_app|]. by apply slots_kept_alter. }
  destruct (bw_closed w) eqn:Ec; [injection Hr as <- <- <-; done|]. destruct (slot_at w1 sessionID) as [slot|] eqn:Es; injection Hr as <- <- <-; [done|].
  split; [|done]. eapply eff_reserve; try done. apply (slot_at_None w1); [|exact Es].
  intros sessionID' s' H. destruct (Hv _ _ H) as [slot Hslot]. exists slot. by apply lookup_app_l_Some.
Qed.

(** Goroutines that a step starts or goes on as. *)
Definition owned_by (gs : list goroutine) : list (string * nat) := gs ≫= owned.
Definition held_by (gs : list goroutine) : list nat := gs ≫= held.

Ltac private_moves :=
  repeat match goal with
  | E : openRuntime _ _ _ _ = _ |- _ => apply openRuntime_move in E; cbn [held_result] in E
  | E : openStateExecutionHost _ _ _ = _ |- _ => apply openState_move in E; cbn [held_result] in E
  | E : with_state_host _ _ _ _ = _ |- _ => apply with_state_host_move in E
  | E : host_command _ _ _ _ = _ |- _ => apply host_command_move in E
  | E : CloseDetached _ _ _ = _ |- _ => apply CloseDetached_move in E
  | E : cancelUnhosted _ _ _ _ _ = _ |- _ => apply cancelUnhosted_move in E
  | E : submit_setup _ _ _ _ _ = _ |- _ => apply submit_setup_move in E
  end.

Lemma step_inj (w1 w2 : backend_world) (g1 g2 : goroutine) (l1 l2 : list goroutine) :
  Some (w1, g1, l1) = Some (w2, g2, l2) → w1 = w2 ∧ g1 = g2 ∧ l1 = l2.
Proof. by intros [= <- <- <-]. Qed.

(** The step of one goroutine. *)
Tactic Notation "unfold_step" "in" hyp(H) :=
  cbv beta iota zeta delta [backend_step create_step trajectory_step list_entries_step list_conversation_step return_closing rollback_step submit_step run_submission_step recover_step run_recovery_step inject_step
    current_step cancel_step close_step go_on return_with mbind option_bind] in H.

Ltac step_cases H :=
  repeat match type of H with
  | Some (_, _, _) = Some (_, _, _) => apply step_inj in H as (<- & <- & <-)
  | None = Some _ => discriminate H
  | context [match ?x with _ => _ end] => let E := fresh "E" in destruct x eqn:E; cbn beta iota in H
  end.

Definition steps_as (w w' : backend_world) (g : goroutine) (gs : list goroutine) : Prop :=
  step_effect w w' (owned g) (owned_by gs) ∧ states_move w w' (held g) (held_by gs) ∧ (bw_cancelled w = true → bw_cancelled w' = true).

Lemma steps_private w w' g gs :
  private_move w w' (held g) (held_by gs) → owned_by gs = owned g → steps_as w w' g gs.
Proof. intros Hm E. unfold steps_as. rewrite E. split_and!; [by eapply effect_private|apply Hm|]. destruct Hm as [(_&_&_&_&->) _]. done. Qed.

Lemma steps_registry w w' g gs :
  step_effect w w' (owned g) (owned_by gs) ∧ untouched w w' → held_by gs = held g → steps_as w w' g gs.
Proof. intros (He & Ht & Ho & Hx) Hh. split_and!; [done|rewrite Hh; by apply states_move_same|by rewrite Hx]. Qed.

(** [cancel] before [complete]. *)
Lemma cancel_complete_effect w sessionID s w' :
  registry_complete (cancel_slot w s) sessionID s = Some w' →
  step_effect w w' [(sessionID, s)] [] ∧ untouched w w'.
Proof.
  intros (He & Hu)%complete_effect. split; [|done].
  inversion He as [? ? ? ? E|? ? ? ? ? ? ? ? ? E|sessionID' s' slot Hs Hd Hother Hdone Hh Hc Hcd E|? ? ? ? E]; [done|done| |done].
  injection E as <- <-. unfold cancel_slot in Hs. cbn in Hs. rewrite list_lookup_alter_eq in Hs.
  destruct (bw_slots w !! s) as [slot0|] eqn:Es; [|done]. injection Hs as <-.
  eapply eff_complete; [exact Es|exact Hd| |exact Hdone|exact Hh|exact Hc|exact Hcd|done|done].
  intros s' slot' Hne Hlook. apply Hother; [done|]. cbn. rewrite list_lookup_alter_ne by done. done.
Qed.

Lemma cancelActive_kept w plan : slots_kept w (cancelActive w plan).
Proof. unfold cancelActive. destruct (hp_slot plan); [by apply slots_kept_alter|by apply slots_kept_refl]. Qed.

Lemma steps_cancelActive w b g gs plan (skip : bool) :
  private_move w b (held g) (held_by gs) → owned_by gs = owned g → steps_as w (if skip then b else cancelActive b plan) g gs.
Proof.
  destruct skip; [apply steps_private|]. intros [(Hs & Hh & Hc & Hd & Hx) Hm] E. unfold steps_as. rewrite E.
  assert (bw_hosts (cancelActive b plan) = bw_hosts b ∧ bw_closed (cancelActive b plan) = bw_closed b ∧ bw_closeDone (cancelActive b plan) = bw_closeDone b ∧
    bw_trace (cancelActive b plan) = bw_trace b ∧ bw_opened (cancelActive b plan) = bw_opened b ∧ bw_cancelled (cancelActive b plan) = bw_cancelled b) as (H1 & H2 & H3 & H4 & H5 & H6)
    by (unfold cancelActive; destruct (hp_slot plan); done).
  split_and!; [|eapply states_move_trans; [exact Hm|by apply states_move_same]|congruence]. apply eff_private; [|congruence..].
  eapply slots_kept_trans; [by apply slots_kept_refl|apply cancelActive_kept].
Qed.

Lemma beginClose_effect w runtimes w' :
  registry_beginClose w = (runtimes, w') → step_effect w w' [] [] ∧ untouched w w'.
Proof.
  intros [= <- <-]. unfold closeIfIdleLocked. cbn. destruct (size (bw_hosts w) =? 0)%nat eqn:E; (split; [|done]); apply eff_close; cbn; rewrite ?E; done.
Qed.

Lemma closed_states_requests f runtimes : (∀ r, f r = RequestedDrain r ∨ f r = RequestedClose r) → closed_states (f <$> runtimes) = [].
Proof. intros Hf. induction runtimes as [|r runtimes IH]; [done|]. cbn. destruct (Hf r) as [-> | ->]; apply IH. Qed.

Section steps.
Context `{codec : !PayloadCodec}.

Lemma backend_step_effect events w g an w' g' started :
  hosts_valid w → backend_step events w g an = Some (w', g', started) → steps_as w w' g (g' :: started).
Proof.
  intros Hv H. destruct g; unfold_step in H; step_cases H;
    repeat match goal with
    | E : match ?x with _ => _ end = (_, _) |- _ => destruct x
    | E : (_, _) = (_, _) |- _ => apply pair_equal_spec in E as [? ?]; subst
    end; private_moves;
    try (apply steps_private; [unfold held_by; cbn [held mbind list_bind app]; rewrite ?app_nil_r; solve [eauto 5 using private_move_trans with backend]|done]).
  - destruct (reserve_effect _ _ _ _ _ _ _ _ Hv E E0) as (He & Hu). by apply steps_registry.
  - destruct (reserve_effect _ _ _ _ _ _ _ _ Hv E E0) as (He & Hu). by apply steps_registry.
  - apply steps_registry; [|unfold held_by; cbn; by rewrite app_nil_r]. by eapply bind_effect.
  - apply steps_registry; [|unfold held_by; cbn; by rewrite app_nil_r]. by apply cancel_complete_effect.
  - apply steps_registry; [|done]. by apply complete_effect.
  - destruct (reserve_effect _ _ _ _ _ _ _ _ Hv E E0) as (He & Hu). by apply steps_registry.
  - destruct (reserve_effect _ _ _ _ _ _ _ _ Hv E E0) as (He & Hu). by apply steps_registry.
  - destruct (reserve_effect _ _ _ _ _ _ _ _ Hv E E0) as (He & Hu). by apply steps_registry.
  - apply steps_registry; [|done]. by apply cancel_complete_effect.
  - apply steps_registry; [|unfold held_by; cbn; by rewrite app_nil_r]. by eapply bind_effect.
  - apply (steps_cancelActive w w _ _ plan false); [apply private_move_refl|done].
  - apply steps_cancelActive; [apply private_move_refl|done].
  - by apply steps_cancelActive.
  - apply steps_registry; [by eapply beginClose_effect|done].
  - assert (∀ b : bool, closed_states ((if b then RequestedDrain else RequestedClose) <$> runtimes) = []) as Hn.
    { intros b. apply closed_states_requests. intros r. destruct b; auto. }
    destruct drain; [specialize (Hn true)|specialize (Hn false)]; (split_and!; [apply eff_private; try done; by apply slots_kept_refl| |done]);
      eexists _, 0%nat; (split_and!; [reflexivity|cbn; lia|]); by setoid_rewrite Hn.
Qed.

(** ** The invariant *)

(** Of the registry, with the slots that goroutines own. *)
Record registry_inv (w : backend_world) (l : list (string * nat)) : Prop := {
  ri_hosts : map_to_list (bw_hosts w) ≡ₚ l;
  ri_slots sessionID s : (sessionID, s) ∈ l → ∃ slot, bw_slots w !! s = Some slot ∧ ah_done slot = false;
  ri_distinct : NoDup l.*2;
  ri_closing : bw_closeDone w = bw_closed w && (size (bw_hosts w) =? 0)%nat;
}.

Definition backend_inv (w : backend_world) (gs : list goroutine) : Prop :=
  registry_inv w (owned_by gs) ∧ held_by gs ++ closed_states (bw_trace w) ≡ₚ seq 0 (bw_opened w).

Lemma registry_inv_perm w l l' : l ≡ₚ l' → registry_inv w l → registry_inv w l'.
Proof.
  intros Hl [Hh Hs Hd Hc]. split; [by rewrite Hh| |by rewrite <-Hl|done]. intros sessionID s Hin. apply (Hs sessionID). by rewrite Hl.
Qed.

Lemma registry_lookup w l sessionID s : registry_inv w l → bw_hosts w !! sessionID = Some s ↔ (sessionID, s) ∈ l.
Proof. intros Hi. rewrite <-elem_of_map_to_list. by rewrite (ri_hosts _ _ Hi). Qed.

Lemma registry_hosts_valid w l : registry_inv w l → hosts_valid w.
Proof. intros Hi sessionID s Hs. apply (registry_lookup _ _ _ _ Hi) in Hs. destruct (ri_slots _ _ Hi _ _ Hs) as (slot & -> & _). eauto. Qed.

Lemma registry_inv_step w w' before after rest :
  step_effect w w' before after → registry_inv w (before ++ rest) → registry_inv w' (after ++ rest).
Proof.
  intros He Hi. destruct He as [Hk Hh Hc Hd ->|sessionID slot Hc Hc' Hd Hn Hh Hsl Hdn -> ->|sessionID s slot Hs Hsd Hother _ Hh Hc Hcd -> ->|Hs Hh Hc Hd -> ->].
  - destruct Hi as [Hp Hsl Hnd Hcl]. split; [by rewrite Hh|intros sessionID s Hin|done|by rewrite Hd, Hc, Hh].
    destruct (Hsl _ _ Hin) as (slot & Hlk & E). destruct (Hk _ _ Hlk) as (slot' & H1 & H2). exists slot'. split; [done|congruence].
  - destruct Hi as [Hp Hslots Hnd Hcl]. cbn in Hp, Hslots, Hnd. cbn [app]. split.
    + rewrite Hh, map_to_list_insert by done. by rewrite Hp.
    + intros sessionID' s Hin. rewrite Hsl. apply elem_of_cons in Hin as [[= -> ->]|Hin].
      * exists slot. split; [|done]. by rewrite lookup_app_r, Nat.sub_diag by lia.
      * destruct (Hslots _ _ Hin) as (slot' & Hlk & E). exists slot'. split; [by apply lookup_app_l_Some|done].
    + cbn. constructor; [|done]. intros ([sessionID' s'] & E & Hin)%list_elem_of_fmap. cbn in E. destruct (Hslots _ _ Hin) as (slot' & Hlk%lookup_lt_Some & _).
      lia.
    + rewrite Hd, Hc', Hcl, Hc. done.
  - assert (bw_hosts w !! sessionID = Some s) as Hin by (apply (registry_lookup _ _ _ _ Hi); cbn; by left).
    rewrite bool_decide_true in Hh by done. destruct Hi as [Hp Hslots Hnd Hcl]. cbn in Hnd. apply NoDup_cons in Hnd as [Hnin Hnd]. cbn [app] in *.
    split.
    + rewrite Hh. apply (Permutation_cons_inv (a := (sessionID, s))). rewrite <-Hp. by rewrite map_to_list_delete.
    + intros sessionID' s' Hin'. destruct (Hslots sessionID' s') as (slot' & Hlk & E); [by right|]. exists slot'. split; [|done]. apply Hother; [|done].
      intros ->. apply Hnin, list_elem_of_fmap. by exists (sessionID', s).
    + done.
    + rewrite Hcd, Hc, Hcl. destruct (bw_closed w); [|done]. cbn. assert (size (bw_hosts w) ≠ 0)%nat as Hne.
      { intros E%map_size_empty_inv. by rewrite E, lookup_empty in Hin. }
      apply Nat.eqb_neq in Hne. by rewrite Hne, orb_false_r.
  - destruct Hi as [Hp Hslots Hnd Hcl]. split; [by rewrite Hh|by rewrite Hs|done|]. rewrite Hd, Hcl, Hh, Hc. destruct (bw_closed w), (_ =? _)%nat; done.
Qed.

(** The goroutine [i] goes on as the first of [new], and the others start. *)
Lemma pool_split {A B} (f : A → list B) (gs : list A) i g g' started :
  gs !! i = Some g → ∃ rest, (gs ≫= f) ≡ₚ f g ++ rest ∧ ((<[i := g']> gs ++ started) ≫= f) ≡ₚ ((g' :: started) ≫= f) ++ rest.
Proof.
  intros Hi. exists ((take i gs ++ drop (S i) gs) ≫= f). split.
  - rewrite <-(take_drop_middle gs i g Hi) at 1. rewrite !bind_app, bind_cons. solve_Permutation.
  - rewrite insert_take_drop by (by eapply lookup_lt_Some). rewrite bind_cons, !bind_app, bind_cons.
    solve_Permutation.
Qed.

Lemma backend_inv_step events w gs i g an w' g' started :
  backend_inv w gs → gs !! i = Some g → backend_step events w g an = Some (w', g', started) → backend_inv w' (<[i := g']> gs ++ started).
Proof.
  intros [Hr Hst] Hi Hstep. destruct (backend_step_effect _ _ _ _ _ _ _ (registry_hosts_valid _ _ Hr) Hstep) as (He & (t & n & Ht & Ho & Hm) & _).
  destruct (pool_split owned gs i g g' started Hi) as (rest & Ho1 & Ho2). destruct (pool_split held gs i g g' started Hi) as (rest' & Hh1 & Hh2).
  split.
  - eapply registry_inv_perm; [symmetry; exact Ho2|]. eapply registry_inv_step; [exact He|]. eapply registry_inv_perm; [exact Ho1|done].
  - unfold held_by in *. rewrite Hh2, Ht, Ho, closed_states_app, seq_app, <-Hst, Hh1. cbn [Nat.add].
    transitivity (rest' ++ closed_states (bw_trace w) ++ ((g' :: started) ≫= held) ++ closed_states t); [solve_Permutation|]. rewrite Hm. solve_Permutation.
Qed.

Lemma backend_inv_moves events x y : backend_moves events x y → backend_inv x.1 x.2 → backend_inv y.1 y.2.
Proof.
  intros Hm Hi. destruct Hm as [w gs g Hg|]; [|by eapply backend_inv_step]. cbn in *. destruct Hi as [Hr Hst].
  assert (owned g = [] ∧ held g = []) as [E1 E2] by (by destruct g). unfold backend_inv, owned_by, held_by. rewrite !bind_app. cbn. rewrite E1, E2. cbn.
  by rewrite !app_nil_r.
Qed.

Lemma backend_inv_reachable events w gs : backend_reachable events (w, gs) → backend_inv w gs.
Proof.
  intros H. change (backend_inv (w, gs).1 (w, gs).2). revert H. apply (rtc_ind_r (λ x, backend_inv x.1 x.2)).
  - split; [split|]; cbn; [done|by intros ? ? ?%not_elem_of_nil|constructor|done|done].
  - intros x y _ Hm Hi. by eapply backend_inv_moves.
Qed.

(** ** One host per session *)

Lemma registry_complete_defined w sessionID s slot : bw_slots w !! s = Some slot → ah_done slot = false → is_Some (registry_complete w sessionID s).
Proof.
  intros Hs Hd. unfold registry_complete. set (w1 := if bool_decide _ then _ else w). assert (bw_slots w1 = bw_slots w) as -> by (subst w1; by destruct (bool_decide _)).
  rewrite Hs. cbn. rewrite Hd. eauto.
Qed.

Lemma cancel_complete_defined w sessionID s slot :
  bw_slots w !! s = Some slot → ah_done slot = false → is_Some (registry_complete (cancel_slot w s) sessionID s).
Proof. intros Hs Hd. apply (registry_complete_defined _ _ _ (slot_cancel_called slot)); [|done]. cbn. by rewrite list_lookup_alter_eq, Hs. Qed.

Lemma backend_step_defined events w g an :
  (∀ sessionID s, (sessionID, s) ∈ owned g → ∃ slot, bw_slots w !! s = Some slot ∧ ah_done slot = false) → is_Some (backend_step events w g an).
Proof.
  intros Ho. destruct g; cbv beta iota zeta delta [backend_step create_step trajectory_step list_entries_step list_conversation_step return_closing rollback_step submit_step run_submission_step recover_step run_recovery_step inject_step current_step cancel_step close_step go_on return_with mbind option_bind];
    try match goal with |- context [registry_complete] => destruct (Ho _ _ ltac:(by apply list_elem_of_singleton)) as (slot & Hs & Hd) end;
    try match goal with |- context [registry_complete (cancel_slot _ _) ?id _] => destruct (cancel_complete_defined w id s slot Hs Hd) as [w' ->] end;
    try match goal with |- context [registry_complete w ?id _] => destruct (registry_complete_defined w id s slot Hs Hd) as [w' ->] end;
    clear; repeat match goal with
    | |- is_Some (Some _) => by eexists
    | |- is_Some (match ?x with _ => _ end) => destruct x
    | |- is_Some (let _ := _ in _) => cbv zeta
    end.
Qed.

(** C15. The slots of the registry are exactly the ones that goroutines own, from their reservation to the end of the
    run: so a session never has two hosts, and no goroutine ever panics by closing the channel of a slot twice,
    whatever requests, cancellations, recoveries and shutdowns come together and whatever the runtimes answer. *)
Theorem one_host_per_session events w gs :
  backend_reachable events (w, gs) →
  map_to_list (bw_hosts w) ≡ₚ owned_by gs ∧ NoDup (owned_by gs).*1 ∧
  (∀ i g an, gs !! i = Some g → is_Some (backend_step events w g an)).
Proof.
  intros [Hr _]%backend_inv_reachable. split; [apply Hr|]. split; [rewrite <-(ri_hosts _ _ Hr); apply NoDup_fst_map_to_list|].
  intros i g an Hg. apply backend_step_defined. intros sessionID s Hin. apply (ri_slots _ _ Hr sessionID). unfold owned_by. apply list_elem_of_bind.
  exists g. split; [done|by eapply list_elem_of_lookup_2].
Qed.

Lemma held_returned gs : Forall (λ g, ∃ r, g = Returned r) gs → held_by gs = [].
Proof. induction 1 as [|g gs [r ->] _ IH]; [done|apply IH]. Qed.

(** C16. Every state backend that the gateway opens is closed once: at every moment each of them is either closed, and
    was closed once, or held by exactly one goroutine that is yet to close it, whichever request opened it (the reads of
    trajectories, of their entries and of conversations included); when all goroutines have returned all
    state backends are closed, whatever failed on the way. *)
Theorem state_backends_closed_once events w gs :
  backend_reachable events (w, gs) →
  held_by gs ++ closed_states (bw_trace w) ≡ₚ seq 0 (bw_opened w) ∧ NoDup (closed_states (bw_trace w)) ∧
  (Forall (λ g, ∃ r, g = Returned r) gs → closed_states (bw_trace w) ≡ₚ seq 0 (bw_opened w)).
Proof.
  intros [_ Hs]%backend_inv_reachable. split_and!; [done| |].
  - assert (NoDup (held_by gs ++ closed_states (bw_trace w))) as (_ & _ & ?)%NoDup_app by (rewrite Hs; apply NoDup_seq). done.
  - intros Hall. by rewrite <-Hs, held_returned.
Qed.

(** ** Shutdown *)

Lemma effect_closeDone w w' before after rest :
  step_effect w w' before after → registry_inv w (before ++ rest) → bw_closeDone w = true → bw_closeDone w' = true.
Proof.
  intros [? ? ? ->|? ? Hc|? ? ? ? ? ? ? ? ? ->|? ? ? ->] Hi Hd; [done| |by rewrite Hd, orb_true_r|by rewrite Hd, orb_true_r].
  rewrite (ri_closing _ _ Hi), Hc in Hd. done.
Qed.

Lemma moves_inv events x y : rtc (backend_moves events) x y → backend_inv x.1 x.2 → backend_inv y.1 y.2.
Proof. induction 1; eauto using backend_inv_moves. Qed.

Lemma moves_closeDone events x y :
  rtc (backend_moves events) x y → backend_inv x.1 x.2 → bw_closeDone x.1 = true → bw_closeDone y.1 = true.
Proof.
  induction 1 as [|x y z Hm _ IH]; [done|]. intros Hi Hd. apply IH; [by eapply backend_inv_moves|].
  destruct Hm as [|w gs i g an w' g' started Hg Hs]; [done|]. destruct Hi as [Hr _]. cbn in *.
  destruct (pool_split owned gs i g g' started Hg) as (rest & Ho & _).
  eapply effect_closeDone; [eapply backend_step_effect; [by eapply registry_hosts_valid|exact Hs]|eapply registry_inv_perm; [exact Ho|exact Hr]|done].
Qed.

Lemma closeDone_idle w gs : backend_inv w gs → bw_closeDone w = true → bw_hosts w = ∅ ∧ owned_by gs = [].
Proof.
  intros [Hr _] Hd. rewrite (ri_closing _ _ Hr) in Hd. apply andb_prop in Hd as [_ Hz%Nat.eqb_eq%map_size_empty_inv]. split; [done|].
  pose proof (ri_hosts _ _ Hr) as Hp. rewrite Hz, map_to_list_empty in Hp. by apply Permutation_nil_l in Hp.
Qed.

(** A shutdown that returns is final: once [Close] or [Drain] returns without an error, no goroutine owns a slot, and
    none will ever own one again, whatever requests come later. *)
Theorem shutdown_is_final events w gs i an w' started :
  backend_reachable events (w, gs) → gs !! i = Some CloseWait → backend_step events w CloseWait an = Some (w', Returned (Ok Done), started) →
  ∀ w2 gs2, rtc (backend_moves events) (w', <[i := Returned (Ok Done)]> gs ++ started) (w2, gs2) →
    bw_hosts w2 = ∅ ∧ owned_by gs2 = [] ∧ bw_closed w2 = true.
Proof.
  intros Hi%backend_inv_reachable Hg Hs w2 gs2 Hm. pose proof (backend_inv_step _ _ _ _ _ _ _ _ _ Hi Hg Hs) as Hi'.
  assert (bw_closeDone w' = true) as Hd.
  { cbn in Hs. unfold select_ready in Hs. destruct (an_ctx an), (bw_closeDone w) eqn:E; cbn in Hs; try destruct (an_first an); try discriminate Hs;
      apply step_inj in Hs as (<- & _); done. }
  pose proof (moves_closeDone _ _ _ Hm Hi' Hd) as Hd2. pose proof (moves_inv _ _ _ Hm Hi') as Hi2. cbn in Hd2, Hi2.
  destruct (closeDone_idle _ _ Hi2 Hd2) as [H1 H2]. split_and!; [done|done|]. destruct Hi2 as [Hr _]. rewrite (ri_closing _ _ Hr) in Hd2.
  by apply andb_prop in Hd2 as [? _].
Qed.

(** The steps that an owner still makes before it gives its slot back, once the backend is closed and cancelled. *)
Definition owner_steps (g : goroutine) : nat :=
  match g with
  | SubmitCleanup _ _ _ _ | RunEnd _ _ => 1
  | SubmitBind _ _ _ _ | RunSubmission _ _ _ | RecoverRun _ _ _ => 2
  | SubmitSetup _ _ _ | RecoverBind _ _ _ => 3
  | RecoverOpen _ _ => 4
  | RecoverWait _ _ _ => 5
  | RecoverValidate _ _ _ => 6
  | _ => 0
  end.

Definition work (gs : list goroutine) : nat := sum_list (owner_steps <$> gs).

Lemma work_app gs gs' : work (gs ++ gs') = (work gs + work gs')%nat.
Proof. unfold work. rewrite fmap_app. induction (owner_steps <$> gs); cbn; [done|]. unfold sum_list in *. lia. Qed.

Lemma work_cons g gs : work (g :: gs) = (owner_steps g + work gs)%nat.
Proof. done. Qed.

Lemma work_step gs i g g' started : gs !! i = Some g → (work (<[i := g']> gs ++ started) + owner_steps g = work gs + work (g' :: started))%nat.
Proof.
  intros Hi. rewrite work_app, insert_take_drop by (by eapply lookup_lt_Some). rewrite <-(take_drop_middle gs i g Hi) at 3. rewrite !work_app.
  rewrite !work_cons. lia.
Qed.

Lemma owner_steps_owned g : owner_steps g = 0%nat ↔ owned g = [].
Proof. by destruct g. Qed.

Lemma work_owned gs : work gs = 0%nat ↔ owned_by gs = [].
Proof.
  unfold owned_by. induction gs as [|g gs IH]; [done|]. rewrite bind_cons, app_nil. rewrite <-IH, <-owner_steps_owned. unfold work. cbn. lia.
Qed.

Lemma work_bound gs : (work gs ≤ 6 * length (owned_by gs))%nat.
Proof.
  unfold owned_by. induction gs as [|g gs IH]; [done|]. rewrite bind_cons, length_app. change (work (g :: gs)) with (owner_steps g + work gs)%nat.
  assert (owner_steps g ≤ 6 * length (owned g))%nat by (destruct g; cbn; lia). lia.
Qed.

(** ** The end of a shutdown *)

(** Moves of a backend that is closed and cancelled, with the number of them that owners of slots make. *)
Inductive closing_moves (events : bool) : nat → backend_state → backend_state → Prop :=
  | cm_refl x : closing_moves events 0 x x
  | cm_request n w gs g y : starts_request g = true → closing_moves events n (w, gs ++ [g]) y → closing_moves events n (w, gs) y
  | cm_owner n w gs i g an w' g' started y :
      gs !! i = Some g → owned g ≠ [] → backend_step events w g an = Some (w', g', started) →
      closing_moves events n (w', <[i := g']> gs ++ started) y → closing_moves events (S n) (w, gs) y
  | cm_other n w gs i g an w' g' started y :
      gs !! i = Some g → owned g = [] → backend_step events w g an = Some (w', g', started) →
      closing_moves events n (w', <[i := g']> gs ++ started) y → closing_moves events n (w, gs) y.

Lemma step_stays_closed events w g an w' g' started :
  hosts_valid w → bw_closed w = true → bw_cancelled w = true → backend_step events w g an = Some (w', g', started) →
  bw_closed w' = true ∧ bw_cancelled w' = true.
Proof.
  intros Hv Hc Hx Hs. destruct (backend_step_effect _ _ _ _ _ _ _ Hv Hs) as (He & _ & Hx'). split; [|auto].
  destruct He as [? ? -> ?|? ? E|? ? ? ? ? ? ? ? E|? ? E]; congruence.
Qed.

Lemma reserve_closed w sessionID s existing err w' :
  bw_closed w = true → registry_reserve w sessionID s = (existing, err, w') → is_Some err.
Proof. unfold registry_reserve. intros ->. intros [= <- <- <-]. eauto. Qed.

Lemma bind_closed w sessionID s executionID runtime control w' :
  bw_closed w = true → registry_bind w sessionID s executionID runtime control = Ok w' → False.
Proof. unfold registry_bind. by intros ->. Qed.

Lemma newSlot_closed w executionID s w' : newActiveHostSlot w executionID = (s, w') → bw_closed w' = bw_closed w.
Proof. by intros [= <- <-]. Qed.

Lemma closing_step_work events w g an w' g' started :
  bw_closed w = true → bw_cancelled w = true → backend_step events w g an = Some (w', g', started) →
  (work (g' :: started) ≤ owner_steps g)%nat ∧ (owned g ≠ [] → work (g' :: started) < owner_steps g)%nat.
Proof.
  intros Hc Hx H. destruct g; unfold_step in H; step_cases H; try (cbn; split; [lia|intros ?; (done || lia)]).
  - apply newSlot_closed in E. destruct (reserve_closed _ _ _ _ _ _ (eq_trans E Hc) E0). done.
  - by apply bind_closed in E.
  - apply newSlot_closed in E. destruct (reserve_closed _ _ _ _ _ _ (eq_trans E Hc) E0). done.
  - unfold run_ctx in E. rewrite Hx in E. cbn in E. destruct (delay <=? 0); [done|]. by destruct (_ && _).
Qed.

(** Requests and the steps of others add no work, and a step of an owner takes one off. *)
Lemma closing_moves_work events n w gs w' gs' :
  closing_moves events n (w, gs) (w', gs') → backend_inv w gs → bw_closed w = true → bw_cancelled w = true →
  (n + work gs' ≤ work gs)%nat ∧ backend_inv w' gs' ∧ bw_closed w' = true ∧ bw_cancelled w' = true.
Proof.
  remember (w, gs) as x eqn:Ex. remember (w', gs') as y eqn:Ey. intros Hm. revert w gs Ex.
  induction Hm as [x|n w0 gs0 g y Hg _ IH|n w0 gs0 i g an w1 g1 st y Hg Ho Hs _ IH|n w0 gs0 i g an w1 g1 st y Hg Ho Hs _ IH];
    intros w gs Ex Hi Hc Hx; [by simplify_eq|injection Ex as -> ->..].
  - destruct (IH Ey w (gs ++ [g]) eq_refl) as [Hle Hrest]; [|done|done|].
    { exact (backend_inv_moves events (w, gs) (w, gs ++ [g]) (bm_request _ _ _ _ Hg) Hi). }
    rewrite work_app in Hle. assert (work [g] = 0%nat) as Hz by (by destruct g). rewrite Hz in Hle. split; [lia|done].
  - destruct (closing_step_work _ _ _ _ _ _ _ Hc Hx Hs) as [_ Hlt]. specialize (Hlt Ho).
    destruct (step_stays_closed _ _ _ _ _ _ _ (registry_hosts_valid _ _ (proj1 Hi)) Hc Hx Hs) as [H1 H2].
    destruct (IH Ey w1 _ eq_refl) as [Hle Hrest]; [by eapply backend_inv_step|done|done|].
    pose proof (work_step gs i g g1 st Hg). split; [lia|done].
  - destruct (closing_step_work _ _ _ _ _ _ _ Hc Hx Hs) as [Hlt _].
    destruct (step_stays_closed _ _ _ _ _ _ _ (registry_hosts_valid _ _ (proj1 Hi)) Hc Hx Hs) as [H1 H2].
    destruct (IH Ey w1 _ eq_refl) as [Hle Hrest]; [by eapply backend_inv_step|done|done|].
    pose proof (work_step gs i g g1 st Hg). split; [lia|done].
Qed.

(** C18. A shutdown ends.  Once the backend is closed and its context cancelled, the goroutines that own slots make at most
    six more steps each, whatever requests come and whatever the runtimes answer; none of them is ever stuck; and when
    they have made them the channel that [Close] waits for is closed. *)
Theorem shutdown_ends events w gs n w' gs' :
  backend_reachable events (w, gs) → bw_closed w = true → bw_cancelled w = true → closing_moves events n (w, gs) (w', gs') →
  (n + work gs' ≤ work gs ≤ 6 * size (bw_hosts w))%nat ∧ (bw_closeDone w' = true ↔ work gs' = 0%nat) ∧
  (∀ i g an, gs' !! i = Some g → owned g ≠ [] → ∃ w2 g2 started,
     backend_step events w' g an = Some (w2, g2, started) ∧ (work (<[i := g2]> gs' ++ started) < work gs')%nat).
Proof.
  intros Hi%backend_inv_reachable Hc Hx Hm. assert (work gs ≤ 6 * size (bw_hosts w))%nat as Hb.
  { rewrite work_bound. destruct Hi as [Hr _]. by rewrite <-(ri_hosts _ _ Hr), length_map_to_list. }
  destruct (closing_moves_work _ _ _ _ _ _ Hm Hi Hc Hx) as (Hn & [Hr _] & Hc' & Hx').
  split; [lia|]. split.
  - rewrite work_owned, (ri_closing _ _ Hr), Hc'. cbn. rewrite Nat.eqb_eq. rewrite <-length_map_to_list, (ri_hosts _ _ Hr). by rewrite length_zero_iff_nil.
  - intros i g an Hg Ho. destruct (backend_step_defined events w' g an) as [[[w2 g2] st] Hs].
    { intros sessionID s Hin. apply (ri_slots _ _ Hr sessionID), list_elem_of_bind. exists g. split; [done|by eapply list_elem_of_lookup_2]. }
    exists w2, g2, st. split; [done|]. destruct (closing_step_work _ _ _ _ _ _ _ Hc' Hx' Hs) as [_ Hlt]. specialize (Hlt Ho).
    pose proof (work_step gs' i g g2 st Hg). lia.
Qed.

(** ** Cancellation *)

Definition slot_done (w : backend_world) (s : nat) : Prop := ∃ slot, bw_slots w !! s = Some slot ∧ ah_done slot = true.

Lemma effect_slot_done w w' before after s : step_effect w w' before after → slot_done w s → slot_done w' s.
Proof.
  intros He (slot & Hs & Hd). destruct He as [Hk|? ? ? ? ? ? ? Hsl|sessionID s' slot' Hs' Hd' Hother|Hsl].
  - destruct (Hk _ _ Hs) as (slot' & Hk1 & Hk2). exists slot'. split; [done|congruence].
  - exists slot. split; [|done]. rewrite Hsl. by apply lookup_app_l_Some.
  - destruct (decide (s = s')) as [->|Hne]; [congruence|]. exists slot. split; [by apply Hother|done].
  - exists slot. by rewrite Hsl.
Qed.

(** A cancellation that was planned against the slot [s]: it returns an execution only when the slot is done. *)
Definition cancelling (s : nat) (w : backend_world) (g : goroutine) : Prop :=
  match g with
  | CancelStart _ _ plan | CancelDrain _ _ plan | CancelControl _ _ plan | CancelWait plan _ => hp_slot plan = Some s
  | Returned (Ok _) => slot_done w s
  | Returned (Err _) => True
  | _ => False
  end.

Lemma wait_slot_done w an s : wait_slot w an (Some s) = Some (Ok tt) → slot_done w s.
Proof.
  unfold wait_slot, select_ready, slot_done. destruct (bw_slots w !! s) as [slot|]; cbn; [|by destruct (an_ctx an)].
  intros H. exists slot. split; [done|]. destruct (an_ctx an), (ah_done slot); try done; by destruct (an_first an).
Qed.

Lemma cancelling_step events s w g an w' g' started :
  cancelling s w g → hosts_valid w → backend_step events w g an = Some (w', g', started) → cancelling s w' g'.
Proof.
  intros Hg Hv H. pose proof (backend_step_effect _ _ _ _ _ _ _ Hv H) as (He & _ & _).
  destruct g; try done; cbn [cancelling] in Hg; unfold_step in H; rewrite ?Hg in H; step_cases H; try done.
  - destruct a. apply wait_slot_done in E. by eapply effect_slot_done.
Qed.

Lemma cancelling_moves events s i x y g :
  rtc (backend_moves events) x y → backend_inv x.1 x.2 → x.2 !! i = Some g → cancelling s x.1 g → ∃ g', y.2 !! i = Some g' ∧ cancelling s y.1 g'.
Proof.
  intros Hm. revert g. induction Hm as [|x y z Hm _ IH]; intros g Hi Hg Hc; [eauto|].
  assert (∃ g1, y.2 !! i = Some g1 ∧ cancelling s y.1 g1) as (g1 & Hg1 & Hc1).
  { destruct Hm as [w gs r Hr|w gs j gj an w' gj' started Hj Hs]; cbn in *; [exists g; split; [by apply lookup_app_l_Some|done]|].
    pose proof (registry_hosts_valid _ _ (proj1 Hi)) as Hv. destruct (decide (j = i)) as [->|Hne].
    - simplify_eq. exists gj'. split; [|by eapply cancelling_step]. apply lookup_app_l_Some, list_lookup_insert_eq. by eapply lookup_lt_Some.
    - exists g. split; [apply lookup_app_l_Some; by rewrite list_lookup_insert_ne|]. pose proof (backend_step_effect _ _ _ _ _ _ _ Hv Hs) as (He & _ & _).
      destruct g; try done. cbn in *. destruct r; [|done]. by eapply effect_slot_done. }
  eapply IH; [by eapply backend_inv_moves|done|done].
Qed.

(** C17. A cancellation of a hosted execution returns an execution only after its host has ended: the slot that was active when
    the cancellation looked is done by then, and no goroutine owns it any more, so that nothing the cancelled run does comes
    after the answer. *)
Theorem cancel_waits_for_host events w gs i session executionID s an w1 g1 started w2 gs2 r :
  backend_reachable events (w, gs) → gs !! i = Some (CancelPlan session executionID) → bw_hosts w !! gs_ID session = Some s →
  backend_step events w (CancelPlan session executionID) an = Some (w1, g1, started) →
  rtc (backend_moves events) (w1, <[i := g1]> gs ++ started) (w2, gs2) → gs2 !! i = Some (Returned (Ok r)) →
  slot_done w2 s ∧ bw_hosts w2 !! gs_ID session ≠ Some s ∧ s ∉ (owned_by gs2).*2.
Proof.
  intros Hi%backend_inv_reachable Hg Hs Hstep Hm Hr. pose proof (backend_inv_step _ _ _ _ _ _ _ _ _ Hi Hg Hstep) as Hi1.
  assert (cancelling s w1 g1) as Hc.
  { unfold_step in Hstep. unfold registry_cancelPlan, slot_at in Hstep. rewrite Hs in Hstep. cbn in Hstep.
    destruct (registry_hosts_valid _ _ (proj1 Hi) _ _ Hs) as [slot Hslot]. rewrite Hslot in Hstep.
    destruct (negb _); apply step_inj in Hstep as (<- & <- & <-); done. }
  destruct (cancelling_moves _ s i _ _ g1 Hm Hi1) as (g2 & Hg2 & Hc2); [|done|].
  { cbn. apply lookup_app_l_Some, list_lookup_insert_eq. by eapply lookup_lt_Some. }
  cbn in Hg2, Hc2. rewrite Hr in Hg2. injection Hg2 as <-. cbn in Hc2. destruct (moves_inv _ _ _ Hm Hi1) as [Hr2 _]. cbn in Hr2.
  assert (s ∉ (owned_by gs2).*2) as Hn.
  { intros ([sessionID s'] & E & Hin)%list_elem_of_fmap. cbn in E. subst s'. destruct (ri_slots _ _ Hr2 _ _ Hin) as (slot & H1 & H2).
    destruct Hc2 as (slot' & H3 & H4). congruence. }
  split_and!; [done| |done]. intros Hin%(registry_lookup _ _ _ _ Hr2). apply Hn, list_elem_of_fmap. by exists (gs_ID session, s).
Qed.

End steps.

(** ** Examples *)

#[local] Existing Instance bit_codec.

(** A script of requests and steps. *)
Inductive script_action :=
  | Ask (g : goroutine)
  | Turn (i : nat) (an : answers).

Definition play_one (events : bool) (x : backend_state) (action : script_action) : option backend_state :=
  match action with
  | Ask g => if starts_request g then Some (x.1, x.2 ++ [g]) else None
  | Turn i an =>
      g ← x.2 !! i;
      '(w, g, started) ← backend_step events x.1 g an;
      Some (w, <[i := g]> x.2 ++ started)
  end.

Fixpoint play (events : bool) (x : backend_state) (script : list script_action) : option backend_state :=
  match script with [] => Some x | action :: script => x ← play_one events x action; play events x script end.

Lemma play_moves events x script y : play events x script = Some y → rtc (backend_moves events) x y.
Proof.
  revert x. induction script as [|action script IH]; intros x; cbn; [by intros [= ->]|]. destruct (play_one events x action) as [z|] eqn:E; [|done].
  cbn. intros H%IH. eapply rtc_l; [|exact H]. destruct x as [w gs], action as [g|i an]; cbn in E.
  - destruct (starts_request g) eqn:Hg; [|done]. injection E as <-. by constructor.
  - destruct (gs !! i) as [g|] eqn:Hg; [|done]. cbn in E. destruct (backend_step events w g an) as [[[w' g'] st]|] eqn:Hs; [|done]. injection E as <-.
    by econstructor.
Qed.

Definition ex_host_session : gateway_Session :=
  {| gs_ID := "s"; gs_UserID := "u"; gs_Title := ""; gs_Provider := "p"; gs_Model := ""; gs_Models := []; gs_Tools := []; gs_System := "";
     gs_MaxTurns := 5; gs_WorkspaceRoot := ""; gs_RuntimeConfig := ""; gs_AutoCompact := None; gs_ThinkingLevel := "";
     gs_Permissions := {| pm_Allow := []; pm_Ask := []; pm_Deny := [] |}; gs_Paused := false; gs_Revision := 1; gs_Plugins := [];
     gs_CreatedAt := 1; gs_UpdatedAt := 1 |}.

Definition ex_host_execution : TrajectoryExecution :=
  {| ex_ID := "x"; ex_State := TrajectoryExecutionPending; ex_Revision := 1; ex_BaseHead := ""; ex_InputEntryID := "e"; ex_Provider := "p";
     ex_System := ""; ex_MaxTurns := 5; ex_Owner := ""; ex_LeaseToken := ""; ex_LeaseExpiresAt := 0; ex_LastError := ""; ex_CreatedAt := 1; ex_UpdatedAt := 1 |}.

Definition ex_host_view : ExecutionView := {| vw_TrajectoryID := "s"; vw_Execution := ex_host_execution; vw_Result := None |}.

(** Everything is answered without an error but the submission, which is refused when [refused]. *)
Definition ex_answers (refused : bool) : answers :=
  {| an_ctx := None; an_first := true; an_fired := true; an_validate _ := Ok tt; an_open _ := Ok tt; an_build _ state := Ok (Some (100 + state)%nat);
     an_close _ := None; an_create _ := Ok tt; an_submit _ _ _ := if refused then Err (Sentinel ErrRuntimeDraining) else Ok tt; an_view _ := Ok ex_host_view;
     an_cancel _ _ _ _ := Ok ex_host_view; an_inject _ _ _ _ := Ok ex_host_view;
     an_candidate _ := Ok {| rc_TrajectoryID := "s"; rc_Execution := ex_host_execution; rc_Delay := 0 |};
     an_trajectory _ _ _ := Err (Sentinel ErrTrajectoryNotFound); an_inspector := true;
     an_inspect _ _ _ := Err (Sentinel ErrTrajectoryNotFound); an_messages _ _ _ := Ok []; an_chunk _ := Ok ""; an_entry _ := Ok ""; an_rollback _ _ := Ok tt;
     an_run := Err (Sentinel ContextCanceled) |}.

Abbreviation yes := (ex_answers false) (only parsing).

(** A submission whose host runs. *)
Definition ex_running_script : list script_action := [Ask (SubmitReserve ex_host_session "hello"); Turn 0 yes; Turn 0 yes; Turn 0 yes].

Definition ex_running : backend_state := default (newActiveHostRegistry, []) (play true (newActiveHostRegistry, []) ex_running_script).

Lemma ex_running_reachable : backend_reachable true ex_running.
Proof. apply (play_moves _ _ ex_running_script). by vm_compute. Qed.

Lemma one_host_per_session_witness :
  owned_by ex_running.2 = [("s", 0%nat)] ∧ map_to_list (bw_hosts ex_running.1) ≡ₚ owned_by ex_running.2 ∧ NoDup (owned_by ex_running.2).*1.
Proof.
  split; [by vm_compute|]. destruct (one_host_per_session true ex_running.1 ex_running.2 ex_running_reachable) as (H1 & H2 & _). done.
Defined.

Lemma state_backends_closed_once_witness :
  held_by ex_running.2 = [0%nat] ∧ held_by ex_running.2 ++ closed_states (bw_trace ex_running.1) ≡ₚ seq 0 (bw_opened ex_running.1).
Proof. split; [by vm_compute|]. exact (proj1 (state_backends_closed_once true ex_running.1 ex_running.2 ex_running_reachable)). Defined.

(** A drain of an idle backend, about to return. *)
Definition ex_drain_script : list script_action := [Ask (CloseBegin true); Turn 0 yes; Turn 0 yes].

Definition ex_drained : backend_state := default (newActiveHostRegistry, []) (play true (newActiveHostRegistry, []) ex_drain_script).

Lemma shutdown_is_final_witness :
  ∀ w2 gs2, rtc (backend_moves true) (ex_drained.1, [Returned (Ok Done)]) (w2, gs2) → bw_hosts w2 = ∅ ∧ owned_by gs2 = [] ∧ bw_closed w2 = true.
Proof.
  apply (shutdown_is_final true ex_drained.1 ex_drained.2 0 yes ex_drained.1 []).
  - apply (play_moves _ _ ex_drain_script). by vm_compute.
  - by vm_compute.
  - by vm_compute.
Defined.

(** The running submission while the backend closes: two steps of its goroutine end it. *)
Definition ex_closing_script : list script_action := ex_running_script ++ [Ask (CloseBegin false); Turn 2 yes; Turn 2 yes].

Definition ex_closing : backend_state := default (newActiveHostRegistry, []) (play true (newActiveHostRegistry, []) ex_closing_script).

Definition ex_closed : backend_state := default (newActiveHostRegistry, []) (play true (newActiveHostRegistry, []) (ex_closing_script ++ [Turn 1 yes; Turn 1 yes])).

Lemma shutdown_ends_witness : work ex_closing.2 = 2%nat ∧ work ex_closed.2 = 0%nat ∧ bw_closeDone ex_closed.1 = true.
Proof.
  destruct (shutdown_ends true ex_closing.1 ex_closing.2 2 ex_closed.1 ex_closed.2) as (_ & Hd & _).
  - apply (play_moves _ _ ex_closing_script). by vm_compute.
  - by vm_compute.
  - by vm_compute.
  - eapply (cm_owner _ 1 _ _ 1 _ yes); [by vm_compute|done|by vm_compute|]. eapply (cm_owner _ 0 _ _ 1 _ yes); [by vm_compute|done|by vm_compute|].
    replace (ex_closed.1, ex_closed.2) with ex_closed by (by destruct ex_closed). eapply (eq_ind _ (λ y, closing_moves true 0 y ex_closed) (cm_refl _ _)). by vm_compute.
  - assert (work ex_closed.2 = 0%nat) as E by (by vm_compute). split_and!; [by vm_compute|done|]. by apply Hd.
Defined.

(** A cancellation of the running submission, which returns after the host has ended. *)
Definition ex_cancel_state : backend_state := (ex_running.1, ex_running.2 ++ [CancelPlan ex_host_session "x"]).

Definition ex_cancel_rest : list script_action := [Turn 2 yes; Turn 2 yes; Turn 1 yes; Turn 1 yes; Turn 2 yes].

Definition ex_cancel_planned : backend_state := default ex_cancel_state (play true ex_cancel_state [Turn 2 yes]).
Definition ex_cancel_over : backend_state := default ex_cancel_state (play true ex_cancel_planned ex_cancel_rest).

Lemma cancel_waits_for_host_witness : slot_done ex_cancel_over.1 0 ∧ 0%nat ∉ (owned_by ex_cancel_over.2).*2.
Proof.
  destruct (cancel_waits_for_host true ex_cancel_state.1 ex_cancel_state.2 2 ex_host_session "x" 0 yes ex_cancel_planned.1
    (CancelStart ex_host_session "x" {| hp_mode := activeHostCancelBound; hp_control := {| ec_runtime := Some 100%nat; ec_lifecycle := Some 0%nat |}; hp_slot := Some 0%nat |}) []
    ex_cancel_over.1 ex_cancel_over.2 (GotExecution (gatewayExecutionFromView ex_host_view))) as (H1 & _ & H2).
  - apply (play_moves _ _ (ex_running_script ++ [Ask (CancelPlan ex_host_session "x")])). by vm_compute.
  - by vm_compute.
  - by vm_compute.
  - by vm_compute.
  - apply (play_moves _ _ ex_cancel_rest). by vm_compute.
  - by vm_compute.
  - done.
Defined.

(** ** The order of the cleanup *)

(** A submission that the runtime refuses while the backend drains. *)
Definition ex_refused_script : list script_action :=
  [Ask (SubmitReserve ex_host_session "hello"); Turn 0 yes; Turn 0 (ex_answers true); Ask (CloseBegin true); Turn 1 yes; Turn 1 yes; Turn 0 yes; Turn 1 yes].

(** The cleanup of a failed [Submit] gives its slot back before it closes its host, unlike the other goroutines: a shutdown can
    return, and the next submission of the session be accepted by the registry, while the runtime and the state backend of the
    failed one are still open. *)
Theorem shutdown_before_state_closed :
  ∃ w gs, backend_reachable true (w, gs) ∧ gs !! 1%nat = Some (Returned (Ok Done)) ∧ bw_closeDone w = true ∧
    held_by gs = [0%nat] ∧ closed_states (bw_trace w) = [].
Proof.
  eexists _, _. split; [apply (play_moves _ _ ex_refused_script); vm_compute; reflexivity|]. by vm_compute.
Qed.

(** ** Reads and fences without a runtime *)

Section lifecycle_properties.
Context `{codec : !PayloadCodec}.

Lemma recoverable_candidate t now wall :
  recoverable (if IsZero now then wall else now) wall t = true →
  ∃ candidate, recovery_candidate (mt_metadata t) now wall = Ok candidate ∧ rc_TrajectoryID candidate = tm_ID (mt_metadata t) ∧
    Some (rc_Execution candidate) = tm_Execution (mt_metadata t) ∧ rc_Delay candidate ≤ 0.
Proof.
  unfold recoverable, recovery_candidate, executionRecoveryCandidateFromMetadata, Execution_RecoverableAt. cbn.
  destruct (tj_Execution (mt_trajectory t)) as [x|]; [|done]. intros [H1%negb_true_iff H2%Z.leb_le]%andb_prop. rewrite H1. cbn. eexists. split_and!; [done|done|done|].
  cbn. unfold RecoveryDelay in *. destruct (IsZero now) eqn:E; [|by rewrite E in H2]. destruct (IsZero wall); done.
Qed.

(** The projection of the index of recoverable trajectories never fails: every trajectory that the store lists is a candidate, and
    none of them has to be waited for. *)
Theorem recoverable_index_consistent st now wall listed :
  tstore_ListRecoverable st None now wall = Ok listed →
  ∃ candidates, lifecycle_ListRecoveryCandidates st None now wall = Ok candidates ∧ rc_TrajectoryID <$> candidates = tm_ID <$> listed ∧
    Forall (λ candidate, rc_Delay candidate ≤ 0) candidates.
Proof.
  intros H. unfold lifecycle_ListRecoveryCandidates. rewrite H. cbn [result_bind]. unfold tstore_ListRecoverable in H. cbn in H. injection H as <-.
  set (now' := if IsZero now then wall else now).
  assert (Forall (λ m, ∃ candidate, recovery_candidate m now wall = Ok candidate ∧ rc_TrajectoryID candidate = tm_ID m ∧ rc_Delay candidate ≤ 0)
    (SortFunc compareRecoverable (mt_metadata <$> filter (λ t, recoverable now' wall t = true) (map_values (trajectories st))))) as Hall.
  { apply Forall_forall. intros m (t & -> & [Hr _]%list_elem_of_filter)%elem_of_SortFunc%list_elem_of_fmap.
    destruct (recoverable_candidate t now wall Hr) as (candidate & ? & ? & _ & ?). eauto. }
  induction Hall as [|m ms (candidate & Hm & Hid & Hd) _ (candidates & Hc & Hids & Hds)]; [by exists []|]. cbn [recovery_candidates]. rewrite Hm, Hc. cbn.
  exists (candidate :: candidates). split_and!; [done|cbn; by rewrite Hid, Hids|by constructor].
Qed.

Lemma CancelTrajectoryExecution_cancelled x executionID reason now x' changed :
  CancelTrajectoryExecution x executionID reason now = Ok (x', changed) → ex_ID x' = executionID ∧ ex_State x' = TrajectoryExecutionCancelled ∧
    (changed = false → x' = x).
Proof.
  unfold CancelTrajectoryExecution. intros H. destruct (is_empty executionID); [done|]. destruct (bool_decide (ex_ID x ≠ executionID)) eqn:E; [done|].
  apply bool_decide_eq_false, dec_stable in E. destruct (bool_decide (ex_State x = _)) eqn:E2.
  - injection H as <- <-. by apply bool_decide_eq_true in E2.
  - destruct (Execution_Terminal x); [done|]. apply bind_Ok in H as (_ & _ & [= <- <-]). done.
Qed.

(** A cancellation that only the state backend can record is durable and final: the view it returns is the cancelled execution it
    was asked for, and a later read finds the same; the trajectory keeps its head, as no entry is written; and the execution is no
    recovery candidate at any time and cannot be claimed again. *)
Theorem fence_cancellation_durable st ctx trajectoryID executionID reason now wall clock view st' :
  lifecycle_FenceCancellation st ctx trajectoryID executionID reason now wall clock = Ok (view, st') →
  ex_ID (vw_Execution view) = executionID ∧ ex_State (vw_Execution view) = TrajectoryExecutionCancelled ∧
  lifecycle_LoadView st' None trajectoryID = Ok view ∧
  (∃ m m', tstore_LoadMetadata st None trajectoryID = Ok m ∧ tstore_LoadMetadata st' None trajectoryID = Ok m' ∧ tm_Head m' = tm_Head m) ∧
  (∀ now' wall', ∃ err, lifecycle_LoadRecoveryCandidate st' None trajectoryID now' wall' = Err err ∧ errors_Is err ErrExecutionNotRecoverable = true) ∧
  (∀ owner now' ttl wall' e, is_Ok (tstore_ClaimExecution st' None trajectoryID owner now' ttl wall' e) → False).
Proof.
  unfold lifecycle_FenceCancellation. intros ([[m changed] st1] & Hcancel & (view1 & Hview & [= <- <-])%bind_Ok)%bind_Ok.
  assert (∃ t0 x0 x t, trajectoryLocked st trajectoryID = Ok t0 ∧ trajectoryLocked st1 trajectoryID = Ok t ∧ m = mt_metadata t ∧
    tj_Head (mt_trajectory t) = tj_Head (mt_trajectory t0) ∧ tj_Execution (mt_trajectory t) = Some x ∧
    CancelTrajectoryExecution x0 executionID (string_default reason "execution cancelled") (tj_NormalizeMutationTime wall now) = Ok (x, changed) ∧ ctx = None)
    as (t0 & x0 & x & t & Ht0 & Ht & -> & Hhead & Hx & Hcx & ->).
  { unfold tstore_CancelExecution in Hcancel. apply bind_Ok in Hcancel as ([] & ->%ctx_Err_Ok & Hcancel). cbn in Hcancel.
    destruct (BindTrajectoryExecutionEntries executionID []) as [entries|] eqn:Eb; [|done]. cbn in Hcancel.
    assert (entries = []) as -> by (unfold BindTrajectoryExecutionEntries in Eb; cbn in Eb; inv_ok; done).
    destruct (trajectoryLocked st trajectoryID) as [t0|] eqn:Ht0; [|done]. cbn in Hcancel. destruct (tj_Execution (mt_trajectory t0)) as [x0|] eqn:Hx0; [|done].
    apply bind_Ok in Hcancel as ([x ch] & Hcx & Hcancel). pose proof Ht0 as [Hn Hl]%trajectoryLocked_Ok. destruct ch; cbn in Hcancel; injection Hcancel as <- <- <-.
    - exists t0, x0, x, (set_execution t0 x (tj_NormalizeMutationTime wall now)). split_and!; try done. apply trajectoryLocked_Ok. split; [done|]. cbn. by rewrite lookup_insert_eq.
    - destruct (CancelTrajectoryExecution_cancelled _ _ _ _ _ _ Hcx) as (_ & _ & E). rewrite E in Hcx by done. exists t0, x0, x0, t0. by split_and!. }
  destruct (CancelTrajectoryExecution_cancelled _ _ _ _ _ _ Hcx) as (Hid & Hstate & _). assert (Execution_Terminal x = true) as Hterm.
  { unfold Execution_Terminal. by rewrite Hstate. }
  assert (tstore_LoadMetadata st1 None trajectoryID = Ok (mt_metadata t)) as Hload by (unfold tstore_LoadMetadata; cbn; by rewrite Ht).
  assert (vw_Execution view1 = x) as Hvx.
  { unfold LoadExecutionViewFromMetadata in Hview. cbn in Hview. rewrite Hx in Hview. apply bind_Ok in Hview as (r & _ & [= <-]). done. }
  rewrite Hvx. split_and!; [done|done| | | |].
  - unfold lifecycle_LoadView. by rewrite Hload.
  - exists (mt_metadata t0), (mt_metadata t). split_and!; [|done|done]. unfold tstore_LoadMetadata. cbn. by rewrite Ht0.
  - intros now' wall'. unfold lifecycle_LoadRecoveryCandidate. rewrite Hload. cbn. unfold recovery_candidate, executionRecoveryCandidateFromMetadata. cbn.
    rewrite Hx, Hterm. cbn. eauto.
  - intros owner now' ttl wall' e [[y st2] (_ & t' & x' & Ht' & Hx' & (_ & Hterm' & _)%Claim_Ok & _)%tstore_Claim_Ok].
    apply trajectoryLocked_Ok in Ht as [_ Ht]. congruence.
Qed.
End lifecycle_properties.
